(* ===== verification/_CoqProject ===== *)
-Q . S2P
Prelude.v
Order.v
Topology.v
Csr.v
TopologyView.v
EdgeStore.v
Assoc.v
CowMap.v
CowMapIter.v
CowVec.v
IdSet.v
Bytes.v
Utf8.v
Types.v
HashIndex.v
Interner.v
IdMap.v
EdgeProps.v
EdgePropsDelta.v
Pack.v
Calendar.v
Decimal.v
Iso8601.v
Duration.v
Base64.v
Tagged.v
Wal.v
Rfc3339.v
CommitTimes.v
CommitClock.v
CommitGaps.v
Packstream.v
Framing.v
VisibleSet.v
NodeLayer.v
Traverse.v
Lease.v
LeaseWorld.v
Float64.v
ValueOps.v
RangeIndex.v
RangeLookup.v
RangeScan.v
Bitmap.v
Columns.v
ColumnsRep.v
ColumnsStore.v
ColumnsPack.v
ColumnsRoundtrip.v
ColumnsDecode.v
ColumnsImage.v
ColumnsVector.v
ColumnsArchive.v
ColumnsView.v
PropertyView.v
BitCodec.v
PropertyRefine.v
PropertyReads.v
ColumnsUnpack.v
Float64Ops.v
RuleDef.v
RuleCandidates.v
RuleEngine.v
RuleDesired.v
RuleProvenance.v
RuleMaintain.v
RuleHook.v
RuleLife.v
RuleBackfill.v
RuleRemove.v
DbApply.v
DbGraph.v
DbDerived.v
RuleTopK.v
RuleGaps.v
