(* ===== verification/Prelude.v ===== *)
(** * mushroomdb: a verification development of its storage, rules and wire formats

    mushroomdb is an embedded graph database in Rust.  Nodes have string keys and
    dense 32-bit ids, edges are (type, source, destination) triples, and both
    carry properties.  Rules derive edges from properties and keep them up to
    date.  A database is a write-ahead log and a snapshot; a process keeps, per
    store, the memory-mapped snapshot section as an immutable _base_ and what was
    written since as an _overlay_; readers and transactions see further _layers_
    on top.  Clients reach it embedded or over Bolt; a worker backs it up to an
    object store under a lease.  All paths below are under [src/crates/].

    ** The parts and their files

    - Adjacency.  [Topology.v]: [core-storage/src/topology.rs], the overlay of
      neighbour lists (a frozen run and an insert buffer per vertex) with
      tombstones over the base.  [Csr.v]: the snapshot's compressed rows, from
      [core-storage/src/v8/encode.rs] and [seam.rs].  [TopologyView.v]: the reads
      merged over base, overlay and layer ([seam.rs]).  [EdgeStore.v]: how the
      rule engine ([core-rules/src/engine.rs]), log replay and node deletion
      ([core-api/src/db.rs]) and layers ([core-api/src/layer.rs]) drive the
      three, and when a snapshot replaces the base.
    - Persistent containers of [core-storage/src/cow.rs].  [CowMap.v]: the
      copy-on-write B+tree with its fixed-size path array; [CowMapIter.v]: its
      range iterators and bulk build; [CowVec.v]: the chunked vector; [IdSet.v]:
      posting lists that move from inline to sorted vector to B+tree;
      [HashIndex.v]: the sharded hash index.  [Assoc.v] is the sorted
      association list they are compared with, [Order.v] the order interface
      ([Ord], as Rust's trait) and binary search.
    - Names.  [Interner.v]: symbol table ([interner.rs]); [IdMap.v]: keys to dense
      ids with tombstones and renames ([idmap.rs]), over [CowVec] and [HashIndex];
      both with their snapshot sections.
    - [EdgeProps.v]: properties of edges ([edge_props.rs]), overlay, view and
      snapshot section, across snapshots and reopenings ([db.rs]);
      [EdgePropsDelta.v]: how a commit's writes of them reach a reader snapshot
      (the edge-property arms of [db.rs] and [layer.rs], the journal).
    - Properties of nodes.  [Bitmap.v] and [Columns.v]: the typed columns of
      [core-storage/src/columns.rs], their presence bitmaps, string table, spill to
      a tree when types mix, and tombstones; [ColumnsPack.v]: their packed form and
      the snapshot's archived section ([v8/encode.rs]): decoding, promotion of
      float lists to vectors, loading, merging a base with an overlay;
      [ColumnsView.v]: the view over layer, overlay and base ([seam.rs]) with its
      cache and column handles, and what [db.rs] does to properties.  Proofs:
      [ColumnsRep.v] and [ColumnsStore.v] (a column is a map, the store is a map),
      [ColumnsRoundtrip.v], [ColumnsDecode.v], [ColumnsImage.v],
      [ColumnsVector.v], [ColumnsArchive.v] (what is packed and archived is read
      back), [ColumnsUnpack.v], [PropertyView.v], [PropertyRefine.v],
      [PropertyReads.v] (the store across snapshots and every way of reading it),
      [BitCodec.v] (a serializer that meets the hypotheses).
    - The property index of [core-storage/src/range_index.rs].  [RangeIndex.v]:
      declarations and writes, over [CowMap] and [IdSet]; [RangeLookup.v]:
      equality, range and prefix lookups; [RangeScan.v]: ranges against the scan.
    - Values.  [Types.v]: values, value keys and errors ([types.rs]);
      [ValueOps.v]: equality, three-valued comparison and the sort order
      ([core-query/src/value_ops.rs], [filter.rs]); [Float64.v] and
      [Float64Ops.v]: [f64] as bits, its order, conversions and rounded arithmetic.
    - Reading the graph.  [VisibleSet.v]: visibility masks
      ([core-query/src/visible.rs]); [NodeLayer.v]: node identity under a layer
      ([core-query/src/view.rs], the node arms of [layer.rs] and [db.rs]);
      [Traverse.v]: expansion and breadth-first neighbourhoods ([traverse.rs]) over
      any adjacency with the laws of its class.
    - Rules.  [RuleDef.v]: definitions and predicates ([core-rules/src/def.rs]);
      [RuleCandidates.v]: the candidate indexes ([index.rs]); [RuleEngine.v] and
      [RuleLife.v]: the engine ([engine.rs]).  Proofs: [RuleDesired.v] (the index
      answers what the predicate matches), [RuleProvenance.v], [RuleMaintain.v],
      [RuleHook.v], [RuleBackfill.v], [RuleRemove.v] (each hook keeps the derived
      edges exact), [RuleTopK.v], [RuleGaps.v].
    - The database.  [DbApply.v]: [GraphDb::apply] ([core-api/src/db.rs]) over the
      key table, columns, edge store and engine; [DbGraph.v] and [DbDerived.v]: its
      theorems.
    - Bytes and text.  [Bytes.v]: byte encodings and the reader monad, with the two
      notions every round trip is proved from ([reads], a reader inverts an
      encoding wherever it lies, and [stable], a reader looks at nothing behind
      what it answers from); [Utf8.v]: UTF-8; [Pack.v]: the packed image
      ([pack.rs]); [Calendar.v], [Decimal.v], [Iso8601.v], [Duration.v],
      [Base64.v], [Tagged.v]: the text forms of the temporal and binary values
      ([types.rs]).
    - [Wal.v]: the write-ahead log's records and frames ([wal.rs]).
    - Dates.  [CommitTimes.v]: the map from commits to wall-clock times and its
      sidecar file ([core-storage/src/commit_times.rs]); [CommitClock.v]: what a
      handle does with it (stamps, reopens, archiving snapshots with their
      retention sweep, truncating ones, asserted times, date queries, all in
      [db.rs]) over a file system each of whose calls may fail ([fs.rs]); [Rfc3339.v]: the parser of dates
      in queries; [CommitGaps.v]: where recorded times are lost.
    - Bolt.  [Packstream.v]: [bolt/src/packstream.rs]; [Framing.v]: chunked
      framing ([framing.rs]), the read loop's splitting of the stream into
      messages ([connection.rs]) and the handshake ([handshake.rs]).
    - The bucket lease.  [Lease.v]: [backup/src/lease.rs] as programs over an object
      store; [LeaseWorld.v]: processes that run them interleaved, request by request.

    ** How the code is modelled

    Rust integers are [Z] within their range, casts and checked conversions are
    written out ([wrap_u], [wrap_i], [try_u], [try_i]).  A panic (index out of
    range, failed assertion, [expect]) is [None]; an error is [Err].  A hash map is
    a [gmap] where its order is not observable, an association list where it is.
    Sharing through [Arc] is invisible: a node is copied before it is written, so
    nodes are values.  A float is its bits.  Loops that are not structural run on
    fuel taken from the input (the length of a buffer, the number of entries, the
    64 bits of a word); the theorems about them prove that this is enough, since
    the answer they state is the one an exhausted loop does not give.

    Code outside the repository is a parameter: the hash function of [HashIndex]
    and [StrIntern] (any function at all), [bincode] and [crc32fast] of [Wal] (the
    hypothesis [codec_ok]: what was serialized deserializes to the same record, and
    a checksum is a 32-bit number), [bincode] of mixed columns (the same
    hypothesis), [rkyv] (its archived structures are the structures), [sin], [cos]
    and [atan2] of the geographic predicates, the object store, JSON and RFC 3339
    of the lease.

    ** What the theorems show

    - Refinement: the edge store, the topology, the B+tree, the vector, the posting
      list, the id map, node identity under layers, the visibility mask, the edge
      properties and the node properties each run any sequence of their operations
      without a panic and answer as the plain mathematical object (a set, a map, a
      list) does; a snapshot or a layer changes nothing that is read (edge types
      may stay listed after their last edge).  A reader snapshot reads the edge
      properties the writer wrote, for records that planning has checked.
    - Properties: the columns are one map whatever shapes they take; across
      snapshots (merge, promotion, reopening) a database's properties stay that
      map, a snapshot is refused exactly when it is not V11 and holds a V11 value;
      lookups, column handles, a node's properties and raw vectors agree.
    - Indexes: an equality or range lookup answers what the scan answers, layered
      or not; sorting and comparison are total and three-valued as documented.
    - Rules: after any record the graph holds the user's edges and exactly the edges
      the rules derive; an index offers exactly the matching pairs (a number index
      exactly the pairs in neighbouring buckets, which is not all of them); a capped rule
      keeps a source's best.  This is for rules between two nodes, uncapped (the
      cap's own theorem apart), whose index answers their predicate, within the
      default edge budget, and for records the commit checks let through.
    - The lease: no two processes may write at once, given conditional PUT, TTLs
      between 1 s and 3600 s, clocks that disagree by at most a third of any TTL,
      and DELETEs that land only on the sender's own record while it waits for
      them; an acquisition is refused while another process may write and, alone,
      succeeds once the TTL in the record and the skew have passed; what a renewal
      leaves, on either kind of service.  Past 3600 s two processes can write at
      once ([long_ttl_two_writers]).
    - Durability: a log cut or corrupted anywhere recovers exactly a prefix of
      what was written, and can be written on.
    - Dates: whatever call fails, a date query answers a commit number between the
      floor and the frames on disk that was stamped by then, or refuses (a failure
      can leave floor and frames in disagreement, and a number used twice); while
      nothing fails it answers exactly
      the last such commit, also after a reopen.  The sidecar decodes exactly as
      it was written, torn and repeated appends refused.  The date parser accepts
      its grammar and nothing else, with the civil calendar's instants.
    - Round trips: snapshot sections, packed images, packed columns, PackStream,
      Bolt frames (values within the sizes their markers can state), and the text of dates, times, durations, bytes and tagged values;
      truncated input is always refused where a decoder is total.
    - Bounds and termination: nesting, chunk sizes and reader positions; the Bolt
      reader always returns.
    - Some theorems record behaviour the code does not mean: a node with the
      empty key is lost by a snapshot reload; the B+tree's bounds slice is not
      partitioned as [partition_point] asks; a numeric rule misses a pair whose
      difference rounds to the tolerance; a rule over two vector fields of
      different dimensions misses pairs; a stamp out of order makes the sidecar
      unreadable, a read error at open lets the next commit replace it, and a
      failed append is forgotten by a reopen; a date panics on a multi-byte
      offset or an enormous year, and a day its month lacks is counted on.

    ** Bounds

    Sequences of operations on trees and columns have at most [2 ^ 32] steps, which
    keeps the string table within its 32-bit ids and the trees within the fixed
    depth of their path arrays.  Snapshots of columns ask for ids below [u32::MAX],
    since a column's length is written in 32 bits, and for images a slice can hold.
    Frame indices stay below [u64::MAX].  Years of parsed dates are bounded by
    200 million where the parser must not overflow; their milliseconds leave [i64]
    near 292 million.

    ** Not modelled

    The Cypher front end and executor, via-hop rules and chaining, the HNSW and
    cluster indexes and their sliced builds, full text, views, constraints and the
    commit checks of [db.rs], roles, backup uploads and restore, the Bolt session,
    the HTTP and MCP servers, the CLI and the bindings.  In [DbApply.v] the columns
    are one map without a base under it (what [PropertyRefine.v] proves them to
    be), and [NodeLayer.v] leaves the rule engine out.  [EdgeProps.v] takes the
    writes a reopening makes as those logged, and [EdgePropsDelta.v] starts each
    commit from the same live edges on both sides.  [CommitClock.v] runs one
    handle at a time, with the WAL and the archives as frame counts; a peer's
    appends, which a refresh loads, are not in its runs.  These are I/O, glue over
    third party code, floating-point heuristics with random levels, or parts whose
    state is not read by what is modelled. *)

From stdpp Require Export base tactics option list numbers gmap strings sorting.
From Stdlib Require Export ZArith Lia.
From Stdlib Require Import Init.Byte Strings.Byte.

#[global] Open Scope Z_scope.

(** ** Panics

    Code that can panic (an index out of range, a failed [assert!], [expect] or
    [unreachable!]) returns [option]; [None] is the panic.  The theorems about
    such code prove that, from a reachable state, the answer is [Some]. *)

(** Rust's [Result]. *)
Inductive result (E A : Type) : Type :=
| Ok (a : A)
| Err (e : E).
Arguments Ok {E A} a.
Arguments Err {E A} e.

#[export] Instance result_bind {E} : MBind (result E) := λ A B f m,
  match m with Ok a => f a | Err e => Err e end.
#[export] Instance result_ret {E} : MRet (result E) := λ A a, Ok a.

(** [m.ok()] *)
Definition ok {E A} (m : result E A) : option A :=
  match m with Ok a => Some a | Err _ => None end.
(** [m.ok_or(e)] *)
Definition ok_or {E A} (m : option A) (e : E) : result E A :=
  match m with Some a => Ok a | None => Err e end.

(** ** Machine integers

    A [w]-bit integer is a [Z] within its range; a wrapping cast is written
    out with [wrap_u]/[wrap_i], a fallible one with [try_u]/[try_i]. *)

Definition in_u (w z : Z) : Prop := 0 ≤ z < 2 ^ w.
Definition in_i (w z : Z) : Prop := - 2 ^ (w - 1) ≤ z < 2 ^ (w - 1).

Definition in_ub (w z : Z) : bool := (0 <=? z) && (z <? 2 ^ w).
Definition in_ib (w z : Z) : bool := (- 2 ^ (w - 1) <=? z) && (z <? 2 ^ (w - 1)).

(** [z as uN] *)
Definition wrap_u (w z : Z) : Z := z mod 2 ^ w.
(** [z as iN] *)
Definition wrap_i (w z : Z) : Z := (z + 2 ^ (w - 1)) mod 2 ^ w - 2 ^ (w - 1).
(** [uN::try_from(z).ok()] *)
Definition try_u (w z : Z) : option Z := if in_ub w z then Some z else None.
(** [iN::try_from(z).ok()], and the [checked_*] operations of [iN] *)
Definition try_i (w z : Z) : option Z := if in_ib w z then Some z else None.

Definition u32_max : Z := 4294967295.
Definition u64_max : Z := 18446744073709551615.
Definition i64_min : Z := -9223372036854775808.
Definition i64_max : Z := 9223372036854775807.

Lemma in_ub_spec w z : in_ub w z = true ↔ in_u w z.
Proof. unfold in_ub, in_u. rewrite andb_true_iff, Z.leb_le, Z.ltb_lt. done. Qed.

Lemma in_ib_spec w z : in_ib w z = true ↔ in_i w z.
Proof. unfold in_ib, in_i. rewrite andb_true_iff, Z.leb_le, Z.ltb_lt. done. Qed.

#[export] Instance in_u_dec w z : Decision (in_u w z).
Proof. unfold in_u. apply _. Defined.
#[export] Instance in_i_dec w z : Decision (in_i w z).
Proof. unfold in_i. apply _. Defined.

Lemma try_u_Some w z : in_u w z → try_u w z = Some z.
Proof. intros H%in_ub_spec. unfold try_u. by rewrite H. Qed.

Lemma try_i_Some w z : in_i w z → try_i w z = Some z.
Proof. intros H%in_ib_spec. unfold try_i. by rewrite H. Qed.

Lemma wrap_u_id w z : in_u w z → wrap_u w z = z.
Proof. intros. apply Z.mod_small. done. Qed.

Lemma wrap_i_id w z : 0 < w → in_i w z → wrap_i w z = z.
Proof.
  unfold in_i, wrap_i. intros Hw Hz.
  assert (2 ^ w = 2 * 2 ^ (w - 1)).
  { rewrite <-(Z.pow_succ_r 2 (w - 1)) by lia. f_equal. lia. }
  rewrite Z.mod_small; lia.
Qed.

Lemma wrap_i_wrap_u w z : 0 < w → wrap_i w (wrap_u w z) = wrap_i w z.
Proof.
  unfold wrap_i, wrap_u. intros Hw.
  by rewrite Zplus_mod_idemp_l.
Qed.

Lemma wrap_i_range w z : 0 < w → in_i w (wrap_i w z).
Proof.
  intros Hw. unfold in_i, wrap_i. pose proof (Z.mod_pos_bound (z + 2 ^ (w - 1)) (2 ^ w) ltac:(lia)).
  assert (2 ^ w = 2 * 2 ^ (w - 1)); [|lia]. rewrite <-Z.pow_succ_r by lia. f_equal. lia.
Qed.

Create HintDb mush.
#[export] Hint Resolve try_u_Some try_i_Some wrap_u_id : mush.

(** ** Tactics *)

(** Split every conjunction and existential among the hypotheses. *)
Ltac destr :=
  repeat match goal with
  | H : _ ∧ _ |- _ => destruct H
  | H : ∃ _, _ |- _ => destruct H
  | p : (_ * _)%type |- _ => destruct p
  end.

(** Case-split the [match]es and [if]s of the goal or of a hypothesis, closing
    the impossible cases. *)
Ltac case_all :=
  repeat (case_match; simplify_eq/=; try done).

(** [lia] with the Euclidean-division equations of the [/] and [mod] in scope. *)
Ltac divlia := Z.to_euclidean_division_equations; lia.

(** ** Lists *)

Definition sum_list_nat (l : list nat) : nat := foldr Nat.add 0%nat l.

Lemma length_bind {A C} (f : A → list C) l : length (l ≫= f) = sum_list_nat ((λ a, length (f a)) <$> l).
Proof. induction l as [|a l IH]; [done|]. by rewrite bind_cons, length_app, IH. Qed.

Lemma foldl_bind {A C D} (f : D → C → D) (g : A → list C) l d :
  foldl f d (l ≫= g) = foldl (λ d a, foldl f d (g a)) d l.
Proof. revert d; induction l as [|a l IH]; intros d; [done|]. by rewrite bind_cons, foldl_app, IH. Qed.

Lemma foldl_fmap_l {A C D} (f : D → C → D) (g : A → C) l d :
  foldl f d (g <$> l) = foldl (λ d a, f d (g a)) d l.
Proof. revert d; induction l as [|a l IH]; intros d; [done|]. simpl. apply IH. Qed.

Lemma foldl_ext_l {A D} (f g : D → A → D) l d :
  (∀ d a, f d a = g d a) → foldl f d l = foldl g d l.
Proof. intros Hfg. revert d; induction l as [|a l IH]; intros d; [done|]. simpl. by rewrite Hfg, IH. Qed.

Lemma filter_none {A} (P : A → Prop) `{∀ x, Decision (P x)} (l : list A) :
  (∀ x, x ∈ l → ¬ P x) → filter P l = [].
Proof.
  induction l as [|x l IH]; intros Hl; [done|].
  rewrite filter_cons_False by (apply Hl; by left). apply IH. intros; apply Hl. by right.
Qed.

Lemma filter_all {A} (P : A → Prop) `{∀ x, Decision (P x)} (l : list A) :
  (∀ x, x ∈ l → P x) → filter P l = l.
Proof.
  induction l as [|x l IH]; intros Hl; [done|].
  rewrite filter_cons_True by (apply Hl; by left). f_equal. apply IH. intros; apply Hl. by right.
Qed.

Lemma filter_comm {A} (P Q : A → Prop) `{∀ x, Decision (P x), ∀ x, Decision (Q x)} (l : list A) :
  filter P (filter Q l) = filter Q (filter P l).
Proof. rewrite !list_filter_filter. apply list_filter_iff. tauto. Qed.

Lemma elem_of_fst {A B} (l : list (A * B)) k v : (k, v) ∈ l → k ∈ l.*1.
Proof. intros Hin. by apply (list_elem_of_fmap_2 fst) in Hin. Qed.

Lemma foldl_insert_union {K A} `{Countable K} (l : list (K * A)) (m : gmap K A) :
  NoDup l.*1 → foldl (λ m kv, <[kv.1 := kv.2]> m) m l = list_to_map l ∪ m.
Proof.
  revert m; induction l as [|[k v] l IH]; intros m Hn; cbn [foldl fst snd].
  { symmetry. apply (left_id_L ∅ (∪)). }
  cbn [fmap list_fmap fst] in Hn. apply NoDup_cons in Hn as [Hk Hn]. rewrite IH by done. simpl.
  rewrite <-insert_union_l. symmetry. by apply insert_union_r, not_elem_of_list_to_map_1.
Qed.
