(* ===== verification/Order.v ===== *)
(** * Rust's [Ord] and what the storage code does with sorted slices

    [RustOrd] is the [Ord] trait; [RustOrdLaws] what [Ord] promises (a total
    order that agrees with [Eq]).  [partition_point] and [binary_search] are
    the slice methods; on the sorted slices the code gives them the standard
    library's documentation fixes their answer, which is the one computed here.
    Sorted association lists ([ainsert], [adelete], [alookup]) are the abstract
    maps the B+tree of [CowMap] is proved against. *)

From S2P Require Import Prelude.

(** [Ord::cmp] *)
Class RustOrd (K : Type) := cmp : K → K → comparison.

Class RustOrdLaws (K : Type) `{RustOrd K} := {
  cmp_eq x y : cmp x y = Eq ↔ x = y;
  cmp_antisym x y : cmp y x = CompOpp (cmp x y);
  cmp_trans x y z : cmp x y = Lt → cmp y z = Lt → cmp x z = Lt;
}.

#[export] Instance Z_ord : RustOrd Z := Z.compare.
#[export] Instance Z_ord_laws : RustOrdLaws Z.
Proof.
  split; unfold cmp, Z_ord.
  - apply Z.compare_eq_iff.
  - intros x y. apply Z.compare_antisym.
  - intros x y z. rewrite !Z.compare_lt_iff. lia.
Qed.

(** Tuples compare lexicographically. *)
#[export] Instance prod_ord {K1 K2} `{RustOrd K1, RustOrd K2} : RustOrd (K1 * K2) := λ p q,
  match cmp p.1 q.1 with Eq => cmp p.2 q.2 | c => c end.
#[export] Instance prod_ord_laws {K1 K2} `{RustOrdLaws K1, RustOrdLaws K2} : RustOrdLaws (K1 * K2).
Proof.
  split; unfold cmp, prod_ord.
  - intros [x1 x2] [y1 y2]. cbn [fst snd]. pose proof (cmp_eq x1 y1) as E1. pose proof (cmp_eq x2 y2) as E2.
    destruct (cmp x1 y1); [rewrite E2|..]; (split; [|intros [= -> ->]; tauto]); [|done..].
    intros ->. by rewrite (proj1 E1).
  - intros [x1 x2] [y1 y2]. cbn [fst snd]. rewrite (cmp_antisym x1 y1).
    destruct (cmp x1 y1); simpl; [apply cmp_antisym|done|done].
  - intros [x1 x2] [y1 y2] [z1 z2]. cbn [fst snd].
    destruct (cmp x1 y1) eqn:E1; [apply cmp_eq in E1 as ->| |done].
    + destruct (cmp y1 z1); [apply cmp_trans|done|done].
    + intros _. destruct (cmp y1 z1) eqn:E2; [apply cmp_eq in E2 as <-; by rewrite E1| |done].
      intros _. by rewrite (cmp_trans x1 y1 z1).
Qed.

Definition klt {K} `{RustOrd K} (x y : K) : Prop := cmp x y = Lt.
Definition kle {K} `{RustOrd K} (x y : K) : Prop := cmp x y ≠ Gt.

Infix "<ₖ" := klt (at level 70).
Infix "≤ₖ" := kle (at level 70).

#[export] Instance klt_dec {K} `{RustOrd K} (x y : K) : Decision (x <ₖ y).
Proof. unfold klt. apply _. Defined.
#[export] Instance kle_dec {K} `{RustOrd K} (x y : K) : Decision (x ≤ₖ y).
Proof. unfold kle. apply _. Defined.

(** [slice.partition_point(pred)]: the length of the prefix satisfying [pred]. *)
Fixpoint partition_point {A} (p : A → bool) (l : list A) : nat :=
  match l with
  | [] => 0%nat
  | x :: l => if p x then S (partition_point p l) else 0%nat
  end.

(** [slice.binary_search(&k)]: [inl i] for [Ok(i)], [inr i] for [Err(i)]. *)
Definition binary_search {K} `{RustOrd K} (k : K) (l : list K) : nat + nat :=
  let i := partition_point (λ x, bool_decide (x <ₖ k)) l in
  match l !! i with
  | Some x => if bool_decide (cmp x k = Eq) then inl i else inr i
  | None => inr i
  end.

(** Strictly ascending: sorted and without duplicates. *)
Abbreviation sorted := (StronglySorted klt).

(** [Vec::insert(i, x)]; panics past the end. *)
Definition vec_insert {A} (i : nat) (x : A) (l : list A) : option (list A) :=
  if (i <=? length l)%nat then Some (take i l ++ x :: drop i l) else None.

(** [Vec::remove(i)]; panics out of range. *)
Definition vec_remove {A} (i : nat) (l : list A) : option (A * list A) :=
  x ← l !! i; Some (x, take i l ++ drop (S i) l).

(** ** Sorted association lists *)
Section assoc.
Context {K V : Type} `{RustOrd K}.

Fixpoint alookup (k : K) (l : list (K * V)) : option V :=
  match l with
  | [] => None
  | (k', v) :: l => match cmp k k' with Eq => Some v | _ => alookup k l end
  end.

Fixpoint ainsert (k : K) (v : V) (l : list (K * V)) : list (K * V) :=
  match l with
  | [] => [(k, v)]
  | (k', v') :: l' =>
      match cmp k k' with
      | Lt => (k, v) :: l
      | Eq => (k, v) :: l'
      | Gt => (k', v') :: ainsert k v l'
      end
  end.

Fixpoint adelete (k : K) (l : list (K * V)) : list (K * V) :=
  match l with
  | [] => []
  | (k', v') :: l' =>
      match cmp k k' with
      | Lt => l
      | Eq => l'
      | Gt => (k', v') :: adelete k l'
      end
  end.
End assoc.

(** ** Laws *)
Section laws.
Context {K : Type} `{RustOrdLaws K}.
Implicit Types (x y z k : K) (l : list K).

Lemma cmp_refl x : cmp x x = Eq.
Proof. by apply cmp_eq. Qed.

Lemma cmp_lt_gt x y : cmp x y = Lt ↔ cmp y x = Gt.
Proof. rewrite (cmp_antisym x y). destruct (cmp x y); simpl; split; congruence. Qed.

#[export] Instance klt_strict : StrictOrder (klt (K:=K)).
Proof.
  split.
  - intros x Hx. unfold klt in Hx. by rewrite cmp_refl in Hx.
  - intros x y z. apply cmp_trans.
Qed.

Lemma kle_lt_eq x y : x ≤ₖ y ↔ x <ₖ y ∨ x = y.
Proof.
  unfold kle, klt. rewrite <-cmp_eq. destruct (cmp x y); intuition congruence.
Qed.

Lemma klt_kle x y : x <ₖ y → x ≤ₖ y.
Proof. intros. apply kle_lt_eq. by left. Qed.

Lemma not_klt x y : ¬ x <ₖ y ↔ y ≤ₖ x.
Proof. unfold kle, klt. rewrite cmp_lt_gt. done. Qed.

Lemma not_kle x y : ¬ x ≤ₖ y ↔ y <ₖ x.
Proof.
  rewrite <-not_klt. split; [intros Hn | intros ? Hn; by apply Hn].
  destruct (decide (y <ₖ x)); [done | by destruct Hn].
Qed.

Lemma kle_trans x y z : x ≤ₖ y → y ≤ₖ z → x ≤ₖ z.
Proof. rewrite !kle_lt_eq. intros [?| ->] [?| ->]; eauto. left. by etrans. Qed.

Lemma klt_kle_trans x y z : x <ₖ y → y ≤ₖ z → x <ₖ z.
Proof. rewrite kle_lt_eq. intros ? [?| ->]; [by etrans | done]. Qed.

Lemma kle_klt_trans x y z : x ≤ₖ y → y <ₖ z → x <ₖ z.
Proof. rewrite kle_lt_eq. intros [?| ->] ?; [by etrans | done]. Qed.

Lemma klt_irrefl x : ¬ x <ₖ x.
Proof. apply irreflexivity; apply _. Qed.

Lemma klt_ne x y : x <ₖ y → x ≠ y.
Proof. intros Hlt ->. by eapply klt_irrefl. Qed.

Lemma sorted_NoDup l : sorted l → NoDup l.
Proof.
  induction 1 as [|x l Hs IH Hx]; constructor; [|done].
  intros Hin. rewrite Forall_forall in Hx. by eapply klt_irrefl, Hx.
Qed.

Lemma sorted_app l1 l2 :
  sorted (l1 ++ l2) ↔ sorted l1 ∧ sorted l2 ∧ (∀ x y, x ∈ l1 → y ∈ l2 → x <ₖ y).
Proof.
  induction l1 as [|a l1 IH]; simpl.
  - split; [intros; split_and!; [constructor | done | set_solver] | tauto].
  - split.
    + intros [Hs Hf]%StronglySorted_inv. apply IH in Hs as (?&?&?).
      rewrite Forall_app, !Forall_forall in Hf. destruct Hf as [Hf1 Hf2].
      split_and!; [constructor; [done|by apply Forall_forall]| done |].
      intros x y [->|?]%elem_of_cons ?; eauto.
    + intros ([Hs Hf]%StronglySorted_inv & ? & Hlt).
      constructor; [apply IH; split_and!; [done | done |]|].
      * intros; apply Hlt; [by right | done].
      * apply Forall_app; split; [done|]. apply Forall_forall.
        intros; apply Hlt; [by left | done].
Qed.

Lemma sorted_cons x l : sorted (x :: l) ↔ sorted l ∧ (∀ y, y ∈ l → x <ₖ y).
Proof.
  split.
  - intros [? Hf]%StronglySorted_inv. split; [done|]. by apply Forall_forall.
  - intros [? Hf]. constructor; [done|]. by apply Forall_forall.
Qed.

(** Two sorted lists with the same elements are the same list. *)
Lemma sorted_ext l1 l2 : sorted l1 → sorted l2 → (∀ x, x ∈ l1 ↔ x ∈ l2) → l1 = l2.
Proof.
  revert l2; induction l1 as [|a l1 IH]; intros [|b l2] H1 H2 Hin; [done| | |].
  - exfalso. apply (not_elem_of_nil b), Hin. by left.
  - exfalso. apply (not_elem_of_nil a), Hin. by left.
  - apply sorted_cons in H1 as [Hs1 Hf1]. apply sorted_cons in H2 as [Hs2 Hf2].
    assert (a = b) as ->.
    { assert (a ∈ b :: l2) as [->|Ha]%elem_of_cons by (apply Hin; by left); [done|].
      assert (b ∈ a :: l1) as [->|Hb]%elem_of_cons by (apply Hin; by left); [done|].
      exfalso. apply (klt_irrefl a). etrans; eauto. }
    f_equal. apply IH; [done|done|]. intros x. split; intros Hx.
    + assert (x ∈ b :: l2) as [->|?]%elem_of_cons by (apply Hin; by right); [|done].
      exfalso. by eapply klt_irrefl, Hf1.
    + assert (x ∈ b :: l1) as [->|?]%elem_of_cons by (apply Hin; by right); [|done].
      exfalso. by eapply klt_irrefl, Hf2.
Qed.

Lemma sorted_filter (P : K → Prop) `{∀ x, Decision (P x)} l : sorted l → sorted (filter P l).
Proof.
  induction 1 as [|x l Hs IH Hf]; [constructor|].
  rewrite filter_cons. case_decide; [|done].
  apply sorted_cons. split; [done|]. intros y [_ Hy]%list_elem_of_filter.
  rewrite Forall_forall in Hf. auto.
Qed.
End laws.

(** ** Sorting and merging slices *)

(** [v.sort_unstable()].  For a total order that agrees with equality every
    sort gives the same list, so any sort stands for it. *)
Definition sort_unstable {K} `{RustOrd K} (l : list K) : list K := merge_sort kle l.

(** [v.dedup()]: drop consecutive repeats. *)
Fixpoint dedup {K} `{RustOrd K} (l : list K) : list K :=
  match l with
  | [] => []
  | x :: l' =>
      match l' with
      | [] => [x]
      | y :: _ => match cmp x y with Eq => dedup l' | _ => x :: dedup l' end
      end
  end.

(** The two-pointer loop of [merge_sorted_unique]: the suffixes [a] and [b]
    still to read, the output so far being what has been emitted. *)
Fixpoint merge_loop {K} `{RustOrd K} (a : list K) : list K → list K :=
  fix go (b : list K) : list K :=
    match a, b with
    | [], _ => b
    | _, [] => a
    | x :: a', y :: b' =>
        match cmp x y with
        | Lt => x :: merge_loop a' b
        | Gt => y :: go b'
        | Eq => x :: merge_loop a' b'
        end
    end.

(** [v.iter().position(|x| x == id)] *)
Fixpoint position {K} `{RustOrd K} (k : K) (l : list K) : option nat :=
  match l with
  | [] => None
  | x :: l => match cmp x k with Eq => Some 0%nat | _ => S <$> position k l end
  end.

(** [Vec::swap_remove(pos)]: the last element takes the removed one's place. *)
Definition swap_remove {A} (pos : nat) (l : list A) : list A :=
  match last l with
  | Some z => take (pred (length l)) (<[pos := z]> l)
  | None => l
  end.

Section merging.
Context {K : Type} `{RustOrdLaws K}.
Implicit Types (x y k : K) (l : list K).

#[local] Instance kle_trans' : Transitive (kle (K:=K)).
Proof. intros x y z. apply kle_trans. Qed.
#[local] Instance kle_total' : Total (kle (K:=K)).
Proof.
  intros x y. destruct (decide (x ≤ₖ y)) as [|Hn]; [by left|right].
  apply not_kle in Hn. by apply klt_kle.
Qed.

Lemma elem_of_dedup x l : x ∈ dedup l ↔ x ∈ l.
Proof.
  induction l as [|a [|b l] IH]; [done | done |].
  change (dedup (a :: b :: l)) with
    (match cmp a b with Eq => dedup (b :: l) | _ => a :: dedup (b :: l) end).
  destruct (cmp a b) eqn:E.
  - apply cmp_eq in E as ->. rewrite IH. set_solver.
  - rewrite elem_of_cons, IH. set_solver.
  - rewrite elem_of_cons, IH. set_solver.
Qed.

Lemma dedup_sorted l : StronglySorted kle l → sorted (dedup l).
Proof.
  induction l as [|a [|b l] IH]; intros Hs.
  - constructor.
  - repeat constructor.
  - apply StronglySorted_inv in Hs as [Hs Hf].
    change (dedup (a :: b :: l)) with
      (match cmp a b with Eq => dedup (b :: l) | _ => a :: dedup (b :: l) end).
    specialize (IH Hs).
    assert (cmp a b ≠ Eq → ∀ y, y ∈ dedup (b :: l) → a <ₖ y) as Hlt.
    { intros Hab y. rewrite elem_of_dedup. intros Hy.
      rewrite Forall_cons in Hf. destruct Hf as [Hab' _].
      assert (a <ₖ b) as Hlt by (unfold klt; unfold kle in Hab'; by destruct (cmp a b)).
      apply elem_of_cons in Hy as [->|Hy]; [done|].
      apply StronglySorted_inv in Hs as [_ Hb]. rewrite Forall_forall in Hb.
      eapply klt_kle_trans; [done|]. by apply Hb. }
    destruct (cmp a b) eqn:E; [done| |]; apply sorted_cons; split; try done;
      by apply Hlt.
Qed.

Lemma elem_of_sort_dedup x l : x ∈ dedup (sort_unstable l) ↔ x ∈ l.
Proof. rewrite elem_of_dedup. unfold sort_unstable. by rewrite merge_sort_Permutation. Qed.

Lemma sort_dedup_sorted l : sorted (dedup (sort_unstable l)).
Proof. apply dedup_sorted, StronglySorted_merge_sort; apply _. Qed.

(** Without repeats there is nothing for [dedup] to drop. *)
Lemma sort_NoDup_sorted l : NoDup l → sorted (sort_unstable l).
Proof.
  intros Hn. assert (NoDup (sort_unstable l)) as Hn' by (unfold sort_unstable; by rewrite merge_sort_Permutation).
  enough (dedup (sort_unstable l) = sort_unstable l) as <- by apply sort_dedup_sorted.
  clear Hn. induction (sort_unstable l) as [|x [|y m] IH]; [done|done|].
  apply NoDup_cons in Hn' as [Hx Hn'].
  change (dedup (x :: y :: m)) with
    (match cmp x y with Eq => dedup (y :: m) | _ => x :: dedup (y :: m) end).
  rewrite IH by done. destruct (cmp x y) eqn:E; [|done|done].
  apply cmp_eq in E. subst. set_solver.
Qed.

Lemma elem_of_sort x l : x ∈ sort_unstable l ↔ x ∈ l.
Proof. unfold sort_unstable. by rewrite merge_sort_Permutation. Qed.

Lemma merge_loop_nil_l l : merge_loop [] l = l.
Proof. by destruct l. Qed.
Lemma merge_loop_nil_r l : merge_loop l [] = l.
Proof. by destruct l. Qed.
Lemma merge_loop_cons x a y b :
  merge_loop (x :: a) (y :: b) =
  match cmp x y with
  | Lt => x :: merge_loop a (y :: b)
  | Gt => y :: merge_loop (x :: a) b
  | Eq => x :: merge_loop a b
  end.
Proof. done. Qed.

Lemma elem_of_merge_loop x a b : x ∈ merge_loop a b ↔ x ∈ a ∨ x ∈ b.
Proof.
  revert b; induction a as [|y a IHa]; intros b.
  { rewrite merge_loop_nil_l. set_solver. }
  induction b as [|z b IHb]; [rewrite merge_loop_nil_r; set_solver|].
  rewrite merge_loop_cons. destruct (cmp y z) eqn:E.
  - apply cmp_eq in E as ->. rewrite elem_of_cons, IHa. set_solver.
  - rewrite elem_of_cons, IHa. set_solver.
  - rewrite elem_of_cons, IHb. set_solver.
Qed.

Lemma merge_loop_sorted a b : sorted a → sorted b → sorted (merge_loop a b).
Proof.
  revert b; induction a as [|y a IHa]; intros b Ha Hb.
  { by rewrite merge_loop_nil_l. }
  induction b as [|z b IHb]; [by rewrite merge_loop_nil_r|].
  pose proof Ha as [Ha1 Ha2]%sorted_cons. pose proof Hb as [Hb1 Hb2]%sorted_cons.
  rewrite merge_loop_cons. destruct (cmp y z) eqn:E; apply sorted_cons;
    (split; [auto|]); intros w; rewrite elem_of_merge_loop.
  - apply cmp_eq in E as ->. intros [?|?]; auto.
  - intros [?|[->|?]%elem_of_cons]; auto. etrans; eauto.
  - apply cmp_lt_gt in E. intros [[->|?]%elem_of_cons|?]; auto. etrans; eauto.
Qed.

Lemma partition_point_le {A} (p : A → bool) (m : list A) :
  (partition_point p m ≤ length m)%nat.
Proof. induction m as [|a m IH]; simpl; [lia|]. destruct (p a); lia. Qed.

Lemma partition_point_prefix {A} (p : A → bool) (m : list A) i a :
  m !! i = Some a → (i < partition_point p m)%nat → p a = true.
Proof.
  revert i; induction m as [|b m IH]; intros [|i] Hl Hi; simplify_eq/=.
  - destruct (p a) eqn:E; [done|lia].
  - destruct (p b); [eapply IH; [done|lia]|lia].
Qed.

Lemma partition_point_stop {A} (p : A → bool) (m : list A) a :
  m !! partition_point p m = Some a → p a = false.
Proof.
  induction m as [|b m IH]; [done|]. simpl. destruct (p b) eqn:E; [done|]. naive_solver.
Qed.

(** In a sorted slice the position of [k] splits it into what is below [k]
    and what is not. *)
Lemma partition_point_take k l x :
  x ∈ take (partition_point (λ y, bool_decide (y <ₖ k)) l) l → x <ₖ k.
Proof.
  intros [i Hi]%list_elem_of_lookup.
  apply lookup_take_Some in Hi as [Hi Hlt].
  eapply (partition_point_prefix (λ y, bool_decide (y <ₖ k))) in Hi; [|done].
  by apply bool_decide_eq_true in Hi.
Qed.

Lemma partition_point_drop k l x :
  sorted l → x ∈ drop (partition_point (λ y, bool_decide (y <ₖ k)) l) l → k ≤ₖ x.
Proof.
  induction l as [|a l IH]; simpl; [set_solver|].
  intros [Hs Hf]%sorted_cons. case_bool_decide as Ha; simpl; [auto|].
  apply not_klt in Ha. intros [->|Hx]%elem_of_cons; [done|].
  apply klt_kle. eapply kle_klt_trans; [done|auto].
Qed.

Lemma binary_search_inl k l i : binary_search k l = inl i → l !! i = Some k.
Proof.
  unfold binary_search. case_match eqn:E; [|done]. case_bool_decide as Hc; [|done].
  intros [= <-]. apply cmp_eq in Hc as <-. done.
Qed.

Lemma binary_search_inr k l i : sorted l → binary_search k l = inr i → k ∉ l.
Proof.
  unfold binary_search. set (p := partition_point _ _). intros Hs Hb Hin.
  rewrite <-(take_drop p l) in Hin. apply elem_of_app in Hin as [Hin|Hin].
  { by eapply klt_irrefl, partition_point_take. }
  destruct (l !! p) as [x|] eqn:E.
  - case_bool_decide as Hc; [done|].
    pose proof (partition_point_stop _ _ _ E) as Hx.
    apply bool_decide_eq_false, not_klt in Hx.
    rewrite <-(take_drop_middle l p x E), sorted_app in Hs.
    destruct Hs as (_ & [Hs Hf]%sorted_cons & _).
    erewrite drop_S in Hin by done. apply elem_of_cons in Hin as [->|Hin].
    + by apply Hc, cmp_eq.
    + apply Hf in Hin. eapply (klt_irrefl k), kle_klt_trans; done.
  - apply lookup_ge_None in E. rewrite drop_ge in Hin by done. set_solver.
Qed.

Lemma binary_search_inr_pos k l i :
  binary_search k l = inr i → i = partition_point (λ y, bool_decide (y <ₖ k)) l.
Proof. unfold binary_search. case_match; [case_bool_decide|]; congruence. Qed.

Lemma binary_search_spec k l :
  sorted l → (∃ i, binary_search k l = inl i ∧ l !! i = Some k ∧ k ∈ l)
           ∨ (∃ i, binary_search k l = inr i ∧ k ∉ l ∧ (i ≤ length l)%nat).
Proof.
  intros Hs. destruct (binary_search k l) as [i|i] eqn:E; [left|right]; exists i.
  - apply binary_search_inl in E as E'. split_and!; [done|done|].
    by eapply list_elem_of_lookup_2.
  - split_and!; [done|by eapply binary_search_inr|].
    apply binary_search_inr_pos in E as ->. apply partition_point_le.
Qed.

Lemma position_Some k l i : position k l = Some i → l !! i = Some k.
Proof.
  revert i; induction l as [|a l IH]; simpl; intros i Hi; [done|].
  destruct (cmp a k) eqn:E.
  - apply cmp_eq in E as ->. by simplify_eq/=.
  - apply fmap_Some in Hi as (j&?&->). simpl. auto.
  - apply fmap_Some in Hi as (j&?&->). simpl. auto.
Qed.

Lemma position_None k l : position k l = None → k ∉ l.
Proof.
  induction l as [|a l IH]; simpl; [set_solver|].
  intros Hn [->|Hin]%elem_of_cons; [by rewrite cmp_refl in Hn|].
  destruct (cmp a k); [done| |]; apply fmap_None in Hn; by apply IH.
Qed.

Lemma swap_remove_Permutation {A} (m : list A) i (x : A) :
  m !! i = Some x → m ≡ₚ x :: swap_remove i m.
Proof.
  destruct m as [|z m _] using rev_ind; [done|].
  unfold swap_remove. rewrite last_snoc, length_app. simpl.
  replace (pred (length m + 1)) with (length m) by lia.
  intros Hi. destruct (decide (i < length m)%nat) as [Hlt|Hge].
  - rewrite insert_app_l, take_app_le by (rewrite ?length_insert; lia).
    rewrite take_ge by (rewrite length_insert; lia).
    rewrite lookup_app_l in Hi by done.
    rewrite (insert_take_drop m i z) by done.
    rewrite <-(take_drop_middle m i x Hi) at 1.
    rewrite <-app_assoc. simpl. rewrite <-Permutation_middle. constructor.
    apply Permutation_app_head. by rewrite (Permutation_app_comm _ [z]).
  - rewrite lookup_app_r in Hi by lia.
    apply list_lookup_singleton_Some in Hi as [Hi ->].
    rewrite insert_app_r_alt by lia. rewrite Hi. simpl.
    rewrite take_app_le by lia. rewrite take_ge by lia.
    by rewrite (Permutation_app_comm m [x]).
Qed.
End merging.
