(* ===== verification/Topology.v ===== *)
(** * The overlay graph: typed adjacency with insert buffers

    Models [crates/core-storage/src/topology.rs].  A vertex's neighbours are an
    [AdjList]: a sorted frozen block and an unsorted insert buffer that is
    merged into the block once it exceeds [INSERT_BUFFER].  A [Topology] keeps,
    per edge type, the out- and in-adjacency of every vertex, an edge counter,
    and the tombstones of edges deleted from the snapshot base.

    [Topology] is proved to refine a pair of finite sets of triples: the edges
    [E] and the tombstones [T] (relation [models]). *)

From S2P Require Import Prelude Order.

Notation triple := (Z * Z * Z)%type.

Inductive Direction := Out | In.

#[export] Instance Direction_eq_dec : EqDecision Direction.
Proof. solve_decision. Defined.

Inductive RemoveEdgeOutcome := RemovedFromOverlay | TombstonedBase.

Definition INSERT_BUFFER : nat := 32.

(** ** Adjacency lists *)
Module AdjList.

Record t := mk { frozen : list Z; delta : list Z }.

(** [AdjList::default()] *)
Definition default : t := mk [] [].

(** [merge_sorted_unique(frozen, delta)] *)
Definition merge_sorted_unique (fr de : list Z) : list Z :=
  let extra := dedup (sort_unstable de) in
  match fr, extra with
  | [], _ => extra
  | _, [] => fr
  | _, _ => merge_loop fr extra
  end.
Arguments merge_sorted_unique : simpl never.

Definition contains (a : t) (id : Z) : bool :=
  (if binary_search id (frozen a) then true else false) || bool_decide (id ∈ delta a).

Definition flush (a : t) : t :=
  match delta a with
  | [] => a
  | _ :: _ =>
      match frozen a with
      | [] => mk (dedup (sort_unstable (delta a))) []
      | _ :: _ => mk (merge_sorted_unique (frozen a) (delta a)) []
      end
  end.

Definition push (a : t) (id : Z) : t :=
  let a := mk (frozen a) (delta a ++ [id]) in
  if (INSERT_BUFFER <? length (delta a))%nat then flush a else a.

Definition is_empty (a : t) : bool :=
  match frozen a, delta a with [], [] => true | _, _ => false end.

Definition merged (a : t) : list Z :=
  match delta a with
  | [] => frozen a
  | _ :: _ => merge_sorted_unique (frozen a) (delta a)
  end.

(** [remove]: whether [id] was there, and the list without it. *)
Definition remove (a : t) (id : Z) : bool * t :=
  match binary_search id (frozen a) with
  | inl pos => (true, mk (take pos (frozen a) ++ drop (S pos) (frozen a)) (delta a))
  | inr _ =>
      match position id (delta a) with
      | Some pos => (true, mk (frozen a) (swap_remove pos (delta a)))
      | None => (false, a)
      end
  end.

(** The set an adjacency list stands for, and its invariant. *)
Definition elems (a : t) : gset Z := list_to_set (frozen a ++ delta a).

Definition ok (a : t) : Prop :=
  sorted (frozen a) ∧ NoDup (delta a) ∧
  (∀ x, x ∈ frozen a → x ∉ delta a) ∧ (length (delta a) ≤ INSERT_BUFFER)%nat.

Lemma elem_of_elems a x : x ∈ elems a ↔ x ∈ frozen a ∨ x ∈ delta a.
Proof. unfold elems. rewrite elem_of_list_to_set, elem_of_app. done. Qed.

Lemma default_ok : ok default.
Proof. repeat split; simpl; try constructor; [set_solver | unfold INSERT_BUFFER; lia]. Qed.

Lemma elem_of_merge_sorted_unique fr de x :
  x ∈ merge_sorted_unique fr de ↔ x ∈ fr ∨ x ∈ de.
Proof.
  unfold merge_sorted_unique.
  destruct fr as [|y fr]; [rewrite elem_of_sort_dedup; set_solver|].
  rewrite <-(elem_of_sort_dedup x de).
  destruct (dedup (sort_unstable de)) as [|z e]; [set_solver|].
  apply elem_of_merge_loop.
Qed.

Lemma merge_sorted_unique_sorted fr de : sorted fr → sorted (merge_sorted_unique fr de).
Proof.
  intros Hs. unfold merge_sorted_unique. pose proof (sort_dedup_sorted de) as Hd.
  destruct fr; [done|]. destruct (dedup (sort_unstable de)); [done|].
  by apply merge_loop_sorted.
Qed.

Lemma contains_spec a id : ok a → contains a id = bool_decide (id ∈ elems a).
Proof.
  intros (Hs & _). unfold contains.
  destruct (binary_search_spec id (frozen a) Hs) as [(i&->&_&Hin)|(i&->&Hin&_)]; simpl.
  - symmetry. apply bool_decide_eq_true. apply elem_of_elems. by left.
  - apply bool_decide_ext. rewrite elem_of_elems. tauto.
Qed.

Lemma merged_elems a x : x ∈ merged a ↔ x ∈ elems a.
Proof.
  rewrite elem_of_elems. unfold merged. destruct (delta a) eqn:E; [set_solver|].
  apply elem_of_merge_sorted_unique.
Qed.

Lemma merged_sorted a : ok a → sorted (merged a).
Proof.
  intros (Hs & _). unfold merged. destruct (delta a); [done|].
  by apply merge_sorted_unique_sorted.
Qed.

Lemma flush_spec a : sorted (frozen a) →
  sorted (frozen (flush a)) ∧ delta (flush a) = [] ∧ elems (flush a) = elems a.
Proof.
  intros Hs. unfold flush. destruct (delta a) as [|d de] eqn:Ed; [done|].
  destruct (frozen a) as [|f fr] eqn:Ef; simpl.
  - split_and!; [apply sort_dedup_sorted | done |].
    apply set_eq. intros x. rewrite !elem_of_elems, Ed, Ef. simpl.
    rewrite elem_of_sort_dedup. set_solver.
  - split_and!; [by apply merge_sorted_unique_sorted | done |].
    apply set_eq. intros x. rewrite !elem_of_elems, Ed, Ef. simpl.
    rewrite elem_of_merge_sorted_unique. set_solver.
Qed.

Lemma push_spec a id : ok a → id ∉ elems a → ok (push a id) ∧ elems (push a id) = {[id]} ∪ elems a.
Proof.
  intros (Hs & Hd & Hdis & Hlen) Hid. rewrite elem_of_elems in Hid.
  assert (elems (mk (frozen a) (delta a ++ [id])) = {[id]} ∪ elems a) as He.
  { apply set_eq. intros x. rewrite elem_of_union, !elem_of_elems. simpl. set_solver. }
  unfold push. simpl. destruct (INSERT_BUFFER <? _)%nat eqn:E.
  - destruct (flush_spec (mk (frozen a) (delta a ++ [id]))) as (Hs' & Hd' & He'); [done|].
    split; [|by rewrite He'].
    split_and!; [done| | |]; rewrite Hd'; [constructor | set_solver | simpl; lia].
  - split; [|done]. apply Nat.ltb_ge in E. split_and!; simpl; [done| | |done].
    + apply NoDup_app. split_and!; [done| |by apply NoDup_singleton]. set_solver.
    + set_solver.
Qed.

Lemma drop_take_middle (l : list Z) pos id x :
  sorted l → l !! pos = Some id →
  x ∈ take pos l ++ drop (S pos) l ↔ x ∈ l ∧ x ≠ id.
Proof.
  intros Hs Hl. rewrite <-(take_drop_middle l pos id Hl) in Hs.
  assert (x ∈ l ↔ x ∈ take pos l ∨ x = id ∨ x ∈ drop (S pos) l) as ->.
  { rewrite <-(take_drop_middle l pos id Hl) at 1. rewrite elem_of_app, elem_of_cons. done. }
  apply sorted_app in Hs as (_ & [_ Hf]%sorted_cons & Hlt).
  rewrite elem_of_app. split.
  - intros [Hx|Hx]; (split; [tauto|]).
    + apply klt_ne, Hlt; [done|by left].
    + intros ->. by apply (klt_irrefl id), Hf.
  - tauto.
Qed.

Lemma remove_spec a id : ok a →
  (remove a id).1 = bool_decide (id ∈ elems a) ∧
  ok (remove a id).2 ∧ elems (remove a id).2 = elems a ∖ {[id]}.
Proof.
  intros Hok. pose proof Hok as (Hs & Hd & Hdis & Hlen). unfold remove.
  destruct (binary_search_spec id (frozen a) Hs) as [(i&->&Hl&Hin)|(i&->&Hin&_)].
  - simpl. split_and!.
    + symmetry. apply bool_decide_eq_true, elem_of_elems. by left.
    + split_and!; simpl; [|done| |done].
      * rewrite <-(take_drop_middle _ _ _ Hl), sorted_app in Hs.
        destruct Hs as (? & [??]%sorted_cons & Hlt). apply sorted_app.
        split_and!; [done|done|]. intros; apply Hlt; [done|by right].
      * intros x. rewrite (drop_take_middle _ _ id) by done. intros [? _]; auto.
    + apply set_eq. intros x. rewrite elem_of_difference, !elem_of_elems. simpl.
      rewrite (drop_take_middle _ _ id) by done. set_solver.
  - destruct (position id (delta a)) as [pos|] eqn:Ep; simpl.
    + apply position_Some in Ep. pose proof (swap_remove_Permutation _ _ _ Ep) as Hp.
      assert (NoDup (id :: swap_remove pos (delta a))) as [Hni Hnd]%NoDup_cons by by rewrite <-Hp.
      split_and!.
      * symmetry. apply bool_decide_eq_true, elem_of_elems. right.
        by eapply list_elem_of_lookup_2.
      * split_and!; simpl; [done|done| |].
        -- intros x Hx Hx'. apply (Hdis x Hx). eapply elem_of_Permutation_proper; [exact Hp|]. by right.
        -- rewrite Hp in Hlen. simpl in Hlen. lia.
      * apply set_eq. intros x. rewrite elem_of_difference, !elem_of_elems. simpl.
        assert (x ∈ delta a ↔ x = id ∨ x ∈ swap_remove pos (delta a)) as ->
          by (rewrite <-elem_of_cons, <-Hp; done).
        set_solver.
    + apply position_None in Ep. split_and!; [|done|].
      * symmetry. apply bool_decide_eq_false. rewrite elem_of_elems. tauto.
      * apply set_eq. intros x. rewrite elem_of_difference, !elem_of_elems. set_solver.
Qed.

Lemma is_empty_spec a : is_empty a = bool_decide (elems a = ∅).
Proof.
  unfold is_empty, elems. symmetry. destruct a as [[|x fr] [|y de]]; simpl.
  - by apply bool_decide_eq_true.
  - apply bool_decide_eq_false. set_solver.
  - apply bool_decide_eq_false. set_solver.
  - apply bool_decide_eq_false. set_solver.
Qed.

End AdjList.

(** ** The topology *)
Module TypedAdjacency.
Record t := mk { out : gmap Z AdjList.t; inn : gmap Z AdjList.t }.
Definition default : t := mk ∅ ∅.
Definition get (dir : Direction) (a : t) : gmap Z AdjList.t :=
  match dir with Out => out a | In => inn a end.
End TypedAdjacency.

Module Topology.

Record t := mk {
  by_type : gmap Z TypedAdjacency.t;
  edge_count : Z;  (* u64 *)
  out_tombstones : gmap Z (gmap Z (gset Z));
  in_tombstones : gmap Z (gmap Z (gset Z));
}.

Definition new : t := mk ∅ 0 ∅ ∅.

Definition with_adj (g : t) (by_type' : gmap Z TypedAdjacency.t) (count : Z) : t :=
  mk by_type' count (out_tombstones g) (in_tombstones g).

(** [add_edge]; the [assert!] on the in-side is the panic. *)
Definition add_edge (g : t) (etype src dst : Z) : option (bool * t) :=
  let adj := default TypedAdjacency.default (by_type g !! etype) in
  let dsts := default AdjList.default (TypedAdjacency.out adj !! src) in
  if AdjList.contains dsts dst then
    let adj := TypedAdjacency.mk (<[src := dsts]> (TypedAdjacency.out adj)) (TypedAdjacency.inn adj) in
    Some (false, with_adj g (<[etype := adj]> (by_type g)) (edge_count g))
  else
    let out' := <[src := AdjList.push dsts dst]> (TypedAdjacency.out adj) in
    let srcs := default AdjList.default (TypedAdjacency.inn adj !! dst) in
    if AdjList.contains srcs src then None else
    let inn' := <[dst := AdjList.push srcs src]> (TypedAdjacency.inn adj) in
    Some (true, with_adj g (<[etype := TypedAdjacency.mk out' inn']> (by_type g))
                         (wrap_u 64 (edge_count g + 1))).

Definition adj_list (g : t) (etype : Z) (dir : Direction) (v : Z) : option AdjList.t :=
  adj ← by_type g !! etype; TypedAdjacency.get dir adj !! v.

Definition neighbors (g : t) (etype : Z) (dir : Direction) (v : Z) : list Z :=
  match adj_list g etype dir v with
  | None => []
  | Some n => AdjList.merged n
  end.

Definition degree (g : t) (etype : Z) (dir : Direction) (v : Z) : nat :=
  length (neighbors g etype dir v).

Definition adj_is_empty (g : t) (etype : Z) (dir : Direction) (v : Z) : bool :=
  match adj_list g etype dir v with None => true | Some n => AdjList.is_empty n end.

Definition out_tombstones_for (g : t) (etype src : Z) : option (gset Z) :=
  m ← out_tombstones g !! etype; m !! src.
Definition in_tombstones_for (g : t) (etype dst : Z) : option (gset Z) :=
  m ← in_tombstones g !! etype; m !! dst.

Definition tombstones_for (g : t) (etype : Z) (dir : Direction) (v : Z) : option (gset Z) :=
  match dir with
  | Out => out_tombstones_for g etype v
  | In => in_tombstones_for g etype v
  end.

Definition tombstones_are_empty (g : t) (etype : Z) (dir : Direction) (v : Z) : bool :=
  match tombstones_for g etype dir v with None => true | Some s => bool_decide (s = ∅) end.

(** [map.values().map(f).sum()] *)
Definition map_sum {A} (f : A → nat) (m : gmap Z A) : nat :=
  map_fold (λ _ a acc, f a + acc)%nat 0%nat m.

Definition tombstone_count (g : t) : nat :=
  map_sum (map_sum size) (out_tombstones g).

Definition etypes (g : t) : list Z := sort_unstable (map_to_list (by_type g)).*1.

Definition all_edges (g : t) : list triple :=
  '(etype, adj) ← map_to_list (by_type g);
  '(src, al) ← map_to_list (TypedAdjacency.out adj);
  (λ dst, (etype, src, dst)) <$> AdjList.merged al.

(** [tombstones.entry(a).or_default().entry(b).or_default().insert(c)] *)
Definition tomb_insert (a b c : Z) (m : gmap Z (gmap Z (gset Z))) : gmap Z (gmap Z (gset Z)) :=
  let inner := default ∅ (m !! a) in
  <[a := <[b := {[c]} ∪ default ∅ (inner !! b)]> inner]> m.

Definition remove_overlay_edge (g : t) (etype src dst : Z) : option (bool * t) :=
  match by_type g !! etype with
  | None => Some (false, g)
  | Some adj =>
    match TypedAdjacency.out adj !! src with
    | None => Some (false, g)
    | Some dsts =>
      let '(removed, dsts') := AdjList.remove dsts dst in
      if negb removed then Some (false, g) else
      srcs ← TypedAdjacency.inn adj !! dst;
      let '(removed', srcs') := AdjList.remove srcs src in
      if negb removed' then None else
      let adj' := TypedAdjacency.mk (<[src := dsts']> (TypedAdjacency.out adj))
                                    (<[dst := srcs']> (TypedAdjacency.inn adj)) in
      Some (true, with_adj g (<[etype := adj']> (by_type g)) (wrap_u 64 (edge_count g - 1)))
    end
  end.

Definition remove_edge (g : t) (etype src dst : Z) : option (RemoveEdgeOutcome * t) :=
  '(removed, g') ← remove_overlay_edge g etype src dst;
  if (removed : bool) then Some (RemovedFromOverlay, g') else
  Some (TombstonedBase,
        mk (by_type g') (edge_count g')
           (tomb_insert etype src dst (out_tombstones g'))
           (tomb_insert etype dst src (in_tombstones g'))).

(** ** Refinement *)

(** The neighbours and tombstones of a vertex, as sets. *)
Definition nbr_set (g : t) (etype : Z) (dir : Direction) (v : Z) : gset Z :=
  match adj_list g etype dir v with Some a => AdjList.elems a | None => ∅ end.
Definition tomb_set (g : t) (etype : Z) (dir : Direction) (v : Z) : gset Z :=
  default ∅ (tombstones_for g etype dir v).

(** An edge as seen from [v] in direction [dir] with [w] at the other end. *)
Definition edge_at (etype : Z) (dir : Direction) (v w : Z) : triple :=
  match dir with Out => (etype, v, w) | In => (etype, w, v) end.

(** [g] holds exactly the edges [E] and the tombstones [T]. *)
Record models (g : t) (E T : gset triple) : Prop := {
  models_ok : ∀ etype dir v a, adj_list g etype dir v = Some a → AdjList.ok a;
  models_nbr : ∀ etype dir v w, w ∈ nbr_set g etype dir v ↔ edge_at etype dir v w ∈ E;
  models_count : edge_count g = wrap_u 64 (Z.of_nat (size E));
  models_tomb : ∀ etype dir v w, w ∈ tomb_set g etype dir v ↔ edge_at etype dir v w ∈ T;
  models_tcount : tombstone_count g = size T;
}.

Lemma new_models : models new ∅ ∅.
Proof.
  split; intros; try done. by destruct dir.
Qed.

Lemma adj_list_with_adj g etype adj' count etype' dir v :
  adj_list (with_adj g (<[etype := adj']> (by_type g)) count) etype' dir v =
  if decide (etype = etype') then TypedAdjacency.get dir adj' !! v else adj_list g etype' dir v.
Proof.
  unfold adj_list. simpl. rewrite lookup_insert. by case_decide.
Qed.

(** The list in a slot of the topology, whether or not the slot exists. *)
Definition slot (g : t) (etype : Z) (dir : Direction) (v : Z) : AdjList.t :=
  default AdjList.default
    (TypedAdjacency.get dir (default TypedAdjacency.default (by_type g !! etype)) !! v).

Lemma slot_adj_list g etype dir v :
  slot g etype dir v = default AdjList.default (adj_list g etype dir v).
Proof.
  unfold slot, adj_list. destruct (by_type g !! etype); simpl; [done|].
  destruct dir; simpl; by rewrite lookup_empty.
Qed.

Lemma slot_elems g etype dir v : AdjList.elems (slot g etype dir v) = nbr_set g etype dir v.
Proof. rewrite slot_adj_list. unfold nbr_set. by destruct (adj_list g etype dir v). Qed.

Lemma slot_ok g E T etype dir v : models g E T → AdjList.ok (slot g etype dir v).
Proof.
  intros Hm. rewrite slot_adj_list. destruct (adj_list g etype dir v) eqn:Ha; simpl.
  - by eapply models_ok.
  - apply AdjList.default_ok.
Qed.

Lemma edge_at_inj etype dir v w etype' v' w' :
  edge_at etype dir v w = edge_at etype' dir v' w' ↔ etype = etype' ∧ v = v' ∧ w = w'.
Proof. destruct dir; simpl; naive_solver. Qed.

Lemma wrap_u_add w a b : wrap_u w (wrap_u w a + b) = wrap_u w (a + b).
Proof. unfold wrap_u. apply Zplus_mod_idemp_l. Qed.

(** Replace the out-slot of [src] and the in-slot of [dst] by lists whose
    elements are those of [E'], everything else alone: the new topology models
    [E']. *)
Lemma replace_slots_models g E T E' etype src dst o i count :
  models g E T →
  AdjList.ok o → AdjList.ok i → count = wrap_u 64 (Z.of_nat (size E')) →
  (∀ w, w ∈ AdjList.elems o ↔ (etype, src, w) ∈ E') →
  (∀ w, w ∈ AdjList.elems i ↔ (etype, w, dst) ∈ E') →
  (∀ e, e ≠ (etype, src, dst) → e ∈ E ↔ e ∈ E') →
  let adj := default TypedAdjacency.default (by_type g !! etype) in
  models (with_adj g (<[etype := TypedAdjacency.mk (<[src := o]> (TypedAdjacency.out adj))
                                                   (<[dst := i]> (TypedAdjacency.inn adj))]>
                      (by_type g)) count) E' T.
Proof.
  intros Hm Ho Hi Hc HEo HEi Hframe adj.
  assert (∀ dir v, TypedAdjacency.get dir adj !! v = adj_list g etype dir v) as Hadj.
  { intros dir v. unfold adj_list, adj. destruct (by_type g !! etype); simpl; [done|].
    by destruct dir; simpl; rewrite lookup_empty. }
  split; [| |done|apply Hm|apply Hm].
  - intros etype' dir v a. rewrite adj_list_with_adj. case_decide as Ht; [subst|by apply Hm].
    pose proof (Hadj dir v) as Hd. destruct dir; simpl in *; rewrite lookup_insert;
      case_decide; rewrite ?Hd; intros; simplify_eq; eauto using models_ok.
  - intros etype' dir v w. unfold nbr_set. rewrite adj_list_with_adj.
    case_decide as Ht; [subst|].
    + pose proof (Hadj dir v) as Hd.
      destruct dir; simpl in *; rewrite lookup_insert; case_decide as Hv; subst; try by auto.
      * rewrite Hd, <-Hframe by congruence. apply (models_nbr _ _ _ Hm _ Out).
      * rewrite Hd, <-Hframe by congruence. apply (models_nbr _ _ _ Hm _ In).
    + rewrite <-Hframe by (destruct dir; simpl; congruence). apply (models_nbr _ _ _ Hm).
Qed.

Lemma size_insert_edge (e : triple) (E : gset triple) :
  e ∉ E → wrap_u 64 (wrap_u 64 (Z.of_nat (size E)) + 1) = wrap_u 64 (Z.of_nat (size ({[e]} ∪ E))).
Proof.
  intros He. rewrite wrap_u_add, size_union, size_singleton by set_solver. f_equal. lia.
Qed.

Lemma size_delete_edge (e : triple) (E : gset triple) :
  e ∈ E → wrap_u 64 (wrap_u 64 (Z.of_nat (size E)) - 1) = wrap_u 64 (Z.of_nat (size (E ∖ {[e]}))).
Proof.
  intros He. unfold Z.sub at 1. rewrite wrap_u_add.
  rewrite size_difference, size_singleton by set_solver.
  assert (size E ≠ 0%nat) by (intros Hz%size_empty_inv; set_solver). f_equal. lia.
Qed.

(** [entry(..).or_default()] on an existing out-slot changes nothing that is
    read. *)
Lemma touch_slot_models g E T etype src :
  models g E T →
  let adj := default TypedAdjacency.default (by_type g !! etype) in
  models (with_adj g (<[etype := TypedAdjacency.mk
                           (<[src := slot g etype Out src]> (TypedAdjacency.out adj))
                           (TypedAdjacency.inn adj)]> (by_type g)) (edge_count g)) E T.
Proof.
  intros Hm adj.
  assert (∀ dir v a, TypedAdjacency.get dir adj !! v = Some a → slot g etype dir v = a) as Hslot.
  { intros dir v a Ha. unfold slot. fold adj. by rewrite Ha. }
  split; [| |apply Hm|apply Hm|apply Hm].
  - intros etype' dir v a. rewrite adj_list_with_adj. case_decide as Ht; [subst|by apply Hm].
    intros Ha. enough (slot g etype' dir v = a) as <- by by eapply slot_ok.
    destruct dir; simpl in Ha; [rewrite lookup_insert in Ha; case_decide; [naive_solver|]|];
      by apply Hslot.
  - intros etype' dir v w. unfold nbr_set. rewrite adj_list_with_adj.
    case_decide as Ht; [subst|apply (models_nbr _ _ _ Hm)].
    rewrite <-(models_nbr _ _ _ Hm), <-slot_elems. unfold slot. fold adj.
    destruct dir; simpl; [rewrite lookup_insert; case_decide; subst; [done|]|];
      by destruct (_ !! v).
Qed.

Lemma add_edge_models g E T etype src dst :
  models g E T →
  ∃ g', add_edge g etype src dst = Some (bool_decide ((etype, src, dst) ∉ E), g')
        ∧ models g' ({[(etype, src, dst)]} ∪ E) T.
Proof.
  intros Hm. set (e := (etype, src, dst)). unfold add_edge.
  set (adj := default TypedAdjacency.default (by_type g !! etype)).
  change (default AdjList.default (TypedAdjacency.out adj !! src)) with (slot g etype Out src).
  change (default AdjList.default (TypedAdjacency.inn adj !! dst)) with (slot g etype In dst).
  pose proof (slot_ok g E T etype Out src Hm) as Ho.
  pose proof (slot_ok g E T etype In dst Hm) as Hi.
  assert (∀ w, w ∈ AdjList.elems (slot g etype Out src) ↔ (etype, src, w) ∈ E) as HEo.
  { intros w. rewrite slot_elems. apply (models_nbr _ _ _ Hm _ Out). }
  assert (∀ w, w ∈ AdjList.elems (slot g etype In dst) ↔ (etype, w, dst) ∈ E) as HEi.
  { intros w. rewrite slot_elems. apply (models_nbr _ _ _ Hm _ In). }
  rewrite AdjList.contains_spec by done. case_bool_decide as Hin.
  - assert (e ∈ E) as He by by apply HEo.
    rewrite bool_decide_eq_false_2 by tauto. eexists; split; [done|].
    replace ({[e]} ∪ E) with E by set_solver.
    by apply touch_slot_models.
  - assert (e ∉ E) as He by (intros ?; by apply Hin, HEo).
    rewrite bool_decide_eq_true_2 by done.
    rewrite AdjList.contains_spec, bool_decide_eq_false_2 by (done || by rewrite HEi).
    eexists; split; [done|].
    destruct (AdjList.push_spec (slot g etype Out src) dst) as [Hpo Heo]; [done..|].
    destruct (AdjList.push_spec (slot g etype In dst) src) as [Hpi Hei]; [done|by rewrite HEi|].
    apply (replace_slots_models g E); [done..| | | |].
    + rewrite (models_count _ _ _ Hm). by apply size_insert_edge.
    + intros w. rewrite Heo, !elem_of_union, HEo. unfold e. set_solver.
    + intros w. rewrite Hei, !elem_of_union, HEi. unfold e. set_solver.
    + set_solver.
Qed.

Lemma remove_overlay_edge_models g E T etype src dst :
  models g E T →
  ∃ g', remove_overlay_edge g etype src dst = Some (bool_decide ((etype, src, dst) ∈ E), g')
        ∧ models g' (E ∖ {[(etype, src, dst)]}) T.
Proof.
  intros Hm. set (e := (etype, src, dst)).
  assert (e ∈ E ↔ dst ∈ nbr_set g etype Out src) as Hout
    by (symmetry; apply (models_nbr _ _ _ Hm _ Out)).
  assert (e ∈ E ↔ src ∈ nbr_set g etype In dst) as Hin
    by (symmetry; apply (models_nbr _ _ _ Hm _ In)).
  assert (e ∉ E → ∃ g', Some (false, g) = Some (bool_decide (e ∈ E), g') ∧ models g' (E ∖ {[e]}) T)
    as Habsent.
  { intros He. rewrite bool_decide_eq_false_2 by done. exists g.
    replace (E ∖ {[e]}) with E by set_solver. done. }
  unfold remove_overlay_edge. unfold nbr_set, adj_list in Hout, Hin.
  destruct (by_type g !! etype) as [adj|] eqn:Hadj; simpl in Hout, Hin; [|apply Habsent; set_solver].
  destruct (TypedAdjacency.out adj !! src) as [dsts|] eqn:Hd; [|apply Habsent; set_solver].
  assert (adj_list g etype Out src = Some dsts) as Hado
    by (unfold adj_list; rewrite Hadj; simpl; done).
  pose proof (AdjList.remove_spec dsts dst (models_ok _ _ _ Hm _ _ _ _ Hado)) as (Hr1 & Hr2 & Hr3).
  destruct (AdjList.remove dsts dst) as [r dsts']; simpl in Hr1, Hr2, Hr3.
  rewrite (bool_decide_ext _ _ (iff_sym Hout)) in Hr1. subst r.
  case_bool_decide as He; simpl; [|by apply Habsent].
  destruct (TypedAdjacency.inn adj !! dst) as [srcs|] eqn:Hs; [simpl|set_solver].
  assert (adj_list g etype In dst = Some srcs) as Hadi
    by (unfold adj_list; rewrite Hadj; simpl; done).
  pose proof (AdjList.remove_spec srcs src (models_ok _ _ _ Hm _ _ _ _ Hadi)) as (Hq1 & Hq2 & Hq3).
  destruct (AdjList.remove srcs src) as [q srcs']; simpl in Hq1, Hq2, Hq3.
  rewrite (bool_decide_ext _ _ (iff_sym Hin)), bool_decide_eq_true_2 in Hq1 by done.
  subst q. simpl. eexists; split; [done|].
  pose proof (replace_slots_models g E T (E ∖ {[e]}) etype src dst dsts' srcs') as Hrep.
  rewrite Hadj in Hrep. simpl in Hrep. apply Hrep; [done..| | | |set_solver].
  - rewrite (models_count _ _ _ Hm). by apply size_delete_edge.
  - intros w. rewrite Hr3, !elem_of_difference, !elem_of_singleton.
    pose proof (models_nbr _ _ _ Hm etype Out src w) as Hw. unfold nbr_set in Hw.
    rewrite Hado in Hw. simpl in Hw. rewrite Hw. unfold e. naive_solver.
  - intros w. rewrite Hq3, !elem_of_difference, !elem_of_singleton.
    pose proof (models_nbr _ _ _ Hm etype In dst w) as Hw. unfold nbr_set in Hw.
    rewrite Hadi in Hw. simpl in Hw. rewrite Hw. unfold e. naive_solver.
Qed.

Lemma tomb_insert_lookup a b c m a' b' :
  default ∅ (tomb_insert a b c m !! a' ≫= lookup b') =
  if decide (a = a' ∧ b = b') then {[c]} ∪ default ∅ (m !! a' ≫= lookup b')
  else default ∅ (m !! a' ≫= (lookup b' : gmap Z (gset Z) → option (gset Z))).
Proof.
  unfold tomb_insert. rewrite lookup_insert. destruct (decide (a = a')) as [->|]; simpl.
  - rewrite lookup_insert. destruct (decide (b = b')) as [->|].
    + rewrite decide_True by done. simpl. f_equal. by destruct (m !! a'); simpl; rewrite ?lookup_empty.
    + rewrite decide_False by naive_solver. by destruct (m !! a'); simpl; rewrite ?lookup_empty.
  - rewrite decide_False by naive_solver. done.
Qed.

(** Counting tombstones: the sum over the nested maps. *)

Lemma map_sum_insert {A} (f : A → nat) m k a :
  map_sum f (<[k := a]> m) = (f a + map_sum f (delete k m))%nat.
Proof.
  unfold map_sum. rewrite <-(insert_delete_eq m k a).
  rewrite (map_fold_insert_L (λ _ x acc, (f x + acc)%nat)); [done| |by rewrite lookup_delete_eq].
  intros. lia.
Qed.

Lemma map_sum_split {A} (f : A → nat) m k :
  map_sum f m = (match m !! k with Some a => f a | None => 0 end + map_sum f (delete k m))%nat.
Proof.
  destruct (m !! k) as [a|] eqn:Ha.
  - rewrite <-(insert_id m k a Ha) at 1. apply map_sum_insert.
  - by rewrite delete_id.
Qed.

(** Size of a set of triples, one vertex at a time: inserting a new triple
    adds one to the count of its slot. *)
Lemma tomb_insert_count a b c m :
  c ∉ default ∅ (m !! a ≫= (lookup b : gmap Z (gset Z) → option (gset Z))) →
  map_sum (map_sum size) (tomb_insert a b c m) = S (map_sum (map_sum size) m).
Proof.
  intros Hc. unfold tomb_insert. rewrite map_sum_insert, (map_sum_split (map_sum size) m a).
  set (inner := default ∅ (m !! a)).
  assert (c ∉ default ∅ (inner !! b)) as Hc'.
  { unfold inner. by destruct (m !! a); simpl in *; rewrite ?lookup_empty. }
  assert (match m !! a with Some x => map_sum size x | None => 0%nat end = map_sum size inner) as ->.
  { unfold inner. by destruct (m !! a). }
  rewrite map_sum_insert, (map_sum_split size inner b).
  rewrite size_union, size_singleton by set_solver.
  destruct (inner !! b); [done|]. change (default ∅ None) with (∅ : gset Z).
  by rewrite size_empty.
Qed.

Lemma tomb_insert_count_same a b c m :
  c ∈ default ∅ (m !! a ≫= (lookup b : gmap Z (gset Z) → option (gset Z))) →
  map_sum (map_sum size) (tomb_insert a b c m) = map_sum (map_sum size) m.
Proof.
  intros Hc. destruct (m !! a) as [inner|] eqn:Ha; simpl in Hc; [|set_solver].
  destruct (inner !! b) as [s|] eqn:Hb; simpl in Hc; [|set_solver].
  f_equal. unfold tomb_insert. rewrite Ha. simpl. rewrite Hb. simpl.
  replace ({[c]} ∪ s) with s by set_solver. by rewrite (insert_id inner), insert_id.
Qed.

Lemma remove_edge_models g E T etype src dst :
  models g E T →
  let e := (etype, src, dst) in
  ∃ g', remove_edge g etype src dst =
          Some (if bool_decide (e ∈ E) then RemovedFromOverlay else TombstonedBase, g')
        ∧ models g' (E ∖ {[e]}) (if bool_decide (e ∈ E) then T else {[e]} ∪ T).
Proof.
  intros Hm e. destruct (remove_overlay_edge_models g E T etype src dst Hm) as (g' & Hr & Hm').
  fold e in Hr, Hm'. unfold remove_edge. rewrite Hr. simpl.
  case_bool_decide as He; [by eexists|]. eexists; split; [done|].
  split; [apply Hm'|apply Hm'|apply Hm'| |].
  - intros etype' dir v w. pose proof (models_tomb _ _ _ Hm' etype' dir v w) as Ht.
    unfold tomb_set, tombstones_for, out_tombstones_for, in_tombstones_for in *.
    destruct dir; simpl in *; rewrite tomb_insert_lookup;
      case_decide as Hd; rewrite ?elem_of_union, Ht; unfold e; set_solver.
  - pose proof (models_tomb _ _ _ Hm' etype Out src dst) as Ht.
    pose proof (models_tcount _ _ _ Hm') as Hc.
    unfold tombstone_count, tomb_set, tombstones_for, out_tombstones_for in *. simpl in *.
    destruct (decide (e ∈ T)) as [Hin|Hin].
    + rewrite tomb_insert_count_same, Hc by by apply Ht.
      by replace ({[e]} ∪ T) with T by set_solver.
    + rewrite tomb_insert_count, Hc by by rewrite Ht.
      by rewrite size_union, size_singleton by set_solver.
Qed.

(** ** Reads *)

Lemma elem_of_neighbors g etype dir v w :
  w ∈ neighbors g etype dir v ↔ w ∈ nbr_set g etype dir v.
Proof.
  unfold neighbors, nbr_set. destruct (adj_list g etype dir v); [apply AdjList.merged_elems|].
  set_solver.
Qed.

Lemma neighbors_sorted g E T etype dir v : models g E T → sorted (neighbors g etype dir v).
Proof.
  intros Hm. unfold neighbors. destruct (adj_list g etype dir v) eqn:Ha; [|constructor].
  by eapply AdjList.merged_sorted, models_ok.
Qed.

Lemma neighbors_models g E T etype dir v w :
  models g E T → w ∈ neighbors g etype dir v ↔ edge_at etype dir v w ∈ E.
Proof. intros Hm. rewrite elem_of_neighbors. by apply models_nbr with (T := T). Qed.

Lemma adj_is_empty_neighbors g etype dir v :
  adj_is_empty g etype dir v = true → neighbors g etype dir v = [].
Proof.
  unfold adj_is_empty, neighbors. destruct (adj_list g etype dir v) as [a|]; [|done].
  unfold AdjList.is_empty, AdjList.merged. by destruct (AdjList.frozen a), (AdjList.delta a).
Qed.

Lemma tombstones_are_empty_spec g etype dir v :
  tombstones_are_empty g etype dir v = bool_decide (tomb_set g etype dir v = ∅).
Proof.
  unfold tombstones_are_empty, tomb_set. by destruct (tombstones_for g etype dir v).
Qed.

Lemma elem_of_all_edges g E T e : models g E T → e ∈ all_edges g ↔ e ∈ E.
Proof.
  intros Hm. destruct e as [[etype src] dst]. unfold all_edges.
  transitivity (dst ∈ nbr_set g etype Out src);
    [|apply (models_nbr _ _ _ Hm etype Out src dst)].
  unfold nbr_set, adj_list. rewrite list_elem_of_bind. split.
  - intros ([etype' adj] & Hin & Hadj%elem_of_map_to_list).
    apply list_elem_of_bind in Hin as ([src' al] & Hin & Hal%elem_of_map_to_list).
    apply list_elem_of_fmap in Hin as (dst' & [= <- <- <-] & Hd%AdjList.merged_elems).
    rewrite Hadj. simpl. by rewrite Hal.
  - intros Hd. destruct (by_type g !! etype) as [adj|] eqn:Hadj; simpl in Hd; [|set_solver].
    destruct (TypedAdjacency.out adj !! src) as [al|] eqn:Hal; [|set_solver].
    exists (etype, adj). split; [|by apply elem_of_map_to_list].
    apply list_elem_of_bind. exists (src, al). split; [|by apply elem_of_map_to_list].
    apply list_elem_of_fmap. exists dst. split; [done|]. by apply AdjList.merged_elems.
Qed.

(** The keys of a map, sorted: what [keys().collect()] then [sort_unstable()] gives. *)
Lemma map_keys_sorted {A} (m : gmap Z A) :
  sorted (sort_unstable (map_to_list m).*1) ∧
  ∀ k, k ∈ sort_unstable (map_to_list m).*1 ↔ is_Some (m !! k).
Proof.
  split; [apply sort_NoDup_sorted, NoDup_fst_map_to_list|]. intros k.
  rewrite elem_of_sort, list_elem_of_fmap. split.
  - intros ([k' v] & -> & Hk%elem_of_map_to_list). by eexists.
  - intros [a Ha]. exists (k, a). split; [done|]. by apply elem_of_map_to_list.
Qed.

Lemma etypes_sorted g : sorted (etypes g) ∧ ∀ et, et ∈ etypes g ↔ is_Some (by_type g !! et).
Proof. apply map_keys_sorted. Qed.

(** ** Runs *)

Inductive op := AddEdge (e : triple) | RemoveEdge (e : triple) | RemoveOverlayEdge (e : triple).

Definition step (o : op) (g : t) : option t :=
  match o with
  | AddEdge (etype, src, dst) => snd <$> add_edge g etype src dst
  | RemoveEdge (etype, src, dst) => snd <$> remove_edge g etype src dst
  | RemoveOverlayEdge (etype, src, dst) => snd <$> remove_overlay_edge g etype src dst
  end.

Fixpoint run (os : list op) (g : t) : option t :=
  match os with [] => Some g | o :: os => step o g ≫= run os end.

(** The abstract machine: a set of edges and a set of tombstones. *)
Definition spec_step (o : op) (s : gset triple * gset triple) : gset triple * gset triple :=
  let '(E, T) := s in
  match o with
  | AddEdge e => ({[e]} ∪ E, T)
  | RemoveOverlayEdge e => (E ∖ {[e]}, T)
  | RemoveEdge e => (E ∖ {[e]}, if bool_decide (e ∈ E) then T else {[e]} ∪ T)
  end.

Definition spec_run (os : list op) (s : gset triple * gset triple) : gset triple * gset triple :=
  foldl (λ s o, spec_step o s) s os.

Lemma step_models o g E T :
  models g E T →
  ∃ g', step o g = Some g' ∧ models g' (spec_step o (E, T)).1 (spec_step o (E, T)).2.
Proof.
  intros Hm. destruct o as [[[et s] d]|[[et s] d]|[[et s] d]]; simpl.
  - destruct (add_edge_models g E T et s d Hm) as (g' & -> & ?). by eexists.
  - destruct (remove_edge_models g E T et s d Hm) as (g' & -> & ?). by eexists.
  - destruct (remove_overlay_edge_models g E T et s d Hm) as (g' & -> & ?). by eexists.
Qed.

Lemma run_models os g E T :
  models g E T →
  ∃ g', run os g = Some g' ∧ models g' (spec_run os (E, T)).1 (spec_run os (E, T)).2.
Proof.
  revert g E T; induction os as [|o os IH]; intros g E T Hm; cbn [run]; [by eexists|].
  destruct (step_models o g E T Hm) as (g1 & -> & Hm1). cbn [mbind option_bind].
  change (spec_run (o :: os) (E, T)) with (spec_run os (spec_step o (E, T))).
  destruct (spec_step o (E, T)) as [E1 T1]. by apply IH.
Qed.

(** Any sequence of edge inserts, tombstoning removals and overlay-only
    removals on an empty topology runs without a failed debug assertion, and
    the result holds exactly the edges and tombstones the sequence means: each
    neighbour list is sorted, without repeats and complete in both directions,
    whether its ids sit in the frozen run or in the insert buffer, the edge
    count and the tombstone count are the sizes of the two sets, and
    [all_edges] enumerates the edges. *)
Theorem topology_refines os :
  ∃ g, run os new = Some g ∧
    let '(E, T) := spec_run os (∅, ∅) in
    (∀ etype dir v, sorted (neighbors g etype dir v) ∧
       ∀ w, w ∈ neighbors g etype dir v ↔ edge_at etype dir v w ∈ E) ∧
    (∀ etype dir v w, w ∈ tomb_set g etype dir v ↔ edge_at etype dir v w ∈ T) ∧
    edge_count g = wrap_u 64 (Z.of_nat (size E)) ∧
    tombstone_count g = size T ∧
    (∀ e, e ∈ all_edges g ↔ e ∈ E).
Proof.
  destruct (run_models os new ∅ ∅ new_models) as (g & Hrun & Hm). exists g. split; [done|].
  destruct (spec_run os (∅, ∅)) as [E T]. simpl in Hm. split_and!; [|apply Hm..|].
  - intros etype dir v. split; [by eapply neighbors_sorted|]. intros w. by eapply neighbors_models.
  - intros e. by eapply elem_of_all_edges.
Qed.

End Topology.
