(* ===== verification/Csr.v ===== *)
(** * The snapshot's adjacency: compressed sparse rows

    Models the CSR types of [crates/core-storage/src/v8/layout.rs], their
    lookups in [v8/seam.rs] and their construction in [v8/encode.rs]: a whole
    topology to CSR ([topology_to_csr]), an overlay merged over a base
    ([topology_merge_to_csr], the snapshot path) and back
    ([csr_to_topology]).  The archived form (rkyv) is the same data read in
    place, so one type stands for both. *)

From S2P Require Import Prelude Order Topology.

Module Csr.

Record row := mk_row { vertex : Z; neighbors : list Z }.
Record adj_map := mk_adj { rows : list row }.
Record etype_entry := mk_etype { etype : Z; out_adj : adj_map; in_adj : adj_map }.
Record t := mk { etypes : list etype_entry; edge_count : Z }.

Definition adj_of (dir : Direction) (e : etype_entry) : adj_map :=
  match dir with Out => out_adj e | In => in_adj e end.

(** [slice.binary_search_by_key(&k, f).ok().map(|i| &slice[i])] *)
Definition search_by_key {A} (f : A → Z) (k : Z) (l : list A) : option A :=
  match binary_search k (f <$> l) with inl i => l !! i | inr _ => None end.

(** [archived_csr_row] *)
Definition archived_csr_row (base : t) (et : Z) (dir : Direction) (v : Z) : option row :=
  e ← search_by_key etype et (etypes base);
  search_by_key vertex v (rows (adj_of dir e)).

(** [base_has_out_edge] *)
Definition base_has_out_edge (base : t) (et src dst : Z) : bool :=
  match archived_csr_row base et Out src with
  | Some r => if binary_search dst (neighbors r) then true else false
  | None => false
  end.

(** [archived_row_degree] *)
Definition archived_row_degree (base : t) (et : Z) (dir : Direction) (v : Z) : nat :=
  match archived_csr_row base et dir v with Some r => length (neighbors r) | None => 0%nat end.

(** ** Building *)

(** [adj_map_to_csr] *)
Definition adj_map_to_csr (adj : gmap Z AdjList.t) : adj_map :=
  let vertices := sort_unstable (map_to_list adj).*1 in
  mk_adj (omap (λ v,
    al ← adj !! v;
    match AdjList.merged al with
    | [] => None
    | ns => Some (mk_row v ns)
    end) vertices).

(** [topology_to_csr] *)
Definition topology_to_csr (topo : Topology.t) : t :=
  mk (omap (λ et,
        adj ← Topology.by_type topo !! et;
        Some (mk_etype et (adj_map_to_csr (TypedAdjacency.out adj))
                          (adj_map_to_csr (TypedAdjacency.inn adj))))
      (sort_unstable (map_to_list (Topology.by_type topo)).*1))
     (Topology.edge_count topo).

(** A [BTreeSet<u32>]'s ids, ascending. *)
Definition btree_set_iter (s : gset Z) : list Z := dedup (sort_unstable (elements s)).

(** [merge_sorted_unique_vecs] *)
Definition merge_sorted_unique_vecs (a b : list Z) : list Z := merge_loop a b.

(** [merge_adj_map] *)
Definition merge_adj_map (overlay_adj : option (gmap Z AdjList.t)) (base_adj : option adj_map)
    (tombstones : option (gmap Z (gset Z))) : adj_map :=
  let vertex_set : gset Z :=
    match overlay_adj with Some o => dom o | None => ∅ end ∪
    match base_adj with Some b => list_to_set (vertex <$> rows b) | None => ∅ end in
  mk_adj (omap (λ v,
    let overlay_nbrs := match overlay_adj ≫= lookup v with
                        | Some al => AdjList.merged al | None => [] end in
    let base_nbrs := match base_adj ≫= (λ b, search_by_key vertex v (rows b)) with
                     | Some r => neighbors r | None => [] end in
    let filtered_base_nbrs :=
      match tombstones ≫= lookup v with
      | None => base_nbrs
      | Some tb => filter (λ n, n ∉ tb) base_nbrs
      end in
    match merge_sorted_unique_vecs overlay_nbrs filtered_base_nbrs with
    | [] => None
    | ns => Some (mk_row v ns)
    end) (btree_set_iter vertex_set)).

(** Edges counted from the out-rows just built. *)
Definition count_out_rows (es : list etype_entry) : Z :=
  Z.of_nat (sum_list_nat ((λ e, sum_list_nat ((λ r, length (neighbors r)) <$> rows (out_adj e))) <$> es)).

(** [topology_merge_to_csr] *)
Definition topology_merge_to_csr (base : t) (overlay : Topology.t) : t :=
  let etype_set : gset Z :=
    dom (Topology.by_type overlay) ∪ list_to_set (etype <$> etypes base) in
  let es := (λ et,
    let overlay_adj := Topology.by_type overlay !! et in
    let base_entry := search_by_key etype et (etypes base) in
    mk_etype et
      (merge_adj_map (TypedAdjacency.out <$> overlay_adj) (out_adj <$> base_entry)
                     (Topology.out_tombstones overlay !! et))
      (merge_adj_map (TypedAdjacency.inn <$> overlay_adj) (in_adj <$> base_entry)
                     (Topology.in_tombstones overlay !! et))) <$> btree_set_iter etype_set in
  mk es (count_out_rows es).

(** [csr_to_topology] *)
Definition csr_to_topology (archived : t) : option Topology.t :=
  foldl (λ topo e, foldl (λ topo r, foldl (λ topo dst,
      g ← topo; snd <$> Topology.add_edge g (etype e) (vertex r) dst)
    topo (neighbors r)) topo (rows (out_adj e))) (Some Topology.new) (etypes archived).

(** ** Invariant *)

Definition adj_ok (a : adj_map) : Prop :=
  sorted (vertex <$> rows a) ∧ Forall (λ r, sorted (neighbors r)) (rows a).

Definition row_list (base : t) (et : Z) (dir : Direction) (v : Z) : list Z :=
  match archived_csr_row base et dir v with Some r => neighbors r | None => [] end.

(** The base holds exactly the edges [B], in both directions, every level
    sorted for the binary searches. *)
Record models (c : t) (B : gset triple) : Prop := {
  models_etypes : sorted (etype <$> etypes c);
  models_adj : ∀ e dir, e ∈ etypes c → adj_ok (adj_of dir e);
  models_edges : ∀ et dir v w, w ∈ row_list c et dir v ↔ Topology.edge_at et dir v w ∈ B;
}.

(** ** Lookup lemmas *)

Lemma search_by_key_Some {A} (f : A → Z) k l a :
  sorted (f <$> l) → search_by_key f k l = Some a ↔ a ∈ l ∧ f a = k.
Proof.
  intros Hs. unfold search_by_key. split.
  - destruct (binary_search k (f <$> l)) as [i|i] eqn:E; [|done]. intros Hi.
    apply binary_search_inl in E. rewrite list_lookup_fmap, Hi in E. simplify_eq/=.
    split; [by eapply list_elem_of_lookup_2 | done].
  - intros [[j Hj]%list_elem_of_lookup Hk].
    destruct (binary_search_spec k (f <$> l) Hs) as [(i&->&Hi&_)|(i&->&Hi&_)].
    + enough (i = j) as -> by done.
      apply (NoDup_lookup (f <$> l) i j k); [by apply sorted_NoDup | done |].
      rewrite list_lookup_fmap, Hj. simpl. by rewrite Hk.
    + exfalso. apply Hi, list_elem_of_fmap. exists a. split; [done|].
      by eapply list_elem_of_lookup_2.
Qed.

Lemma search_by_key_None {A} (f : A → Z) k l :
  sorted (f <$> l) → search_by_key f k l = None ↔ k ∉ f <$> l.
Proof.
  intros Hs. rewrite eq_None_not_Some. apply not_iff_compat. split.
  - intros [a [? <-]%search_by_key_Some]; [|done]. apply list_elem_of_fmap. eauto.
  - intros (a & -> & Ha)%list_elem_of_fmap. exists a. by apply search_by_key_Some.
Qed.

Lemma elem_of_btree_set_iter s x : x ∈ btree_set_iter s ↔ x ∈ s.
Proof. unfold btree_set_iter. rewrite elem_of_sort_dedup. apply elem_of_elements. Qed.

Lemma btree_set_iter_sorted s : sorted (btree_set_iter s).
Proof. apply sort_dedup_sorted. Qed.

(** The neighbours of [v] in one direction of one edge type. *)
Definition adj_row (a : adj_map) (v : Z) : list Z :=
  match search_by_key vertex v (rows a) with Some r => neighbors r | None => [] end.

(** Rows built from a sorted list of vertices by a neighbour function, empty
    rows left out. *)
Definition build_rows (nbrs : Z → list Z) (vs : list Z) : list row :=
  omap (λ v, match nbrs v with [] => None | ns => Some (mk_row v ns) end) vs.

Lemma elem_of_build_rows nbrs vs r :
  r ∈ build_rows nbrs vs ↔ vertex r ∈ vs ∧ neighbors r = nbrs (vertex r) ∧ neighbors r ≠ [].
Proof.
  unfold build_rows. rewrite list_elem_of_omap. split.
  - intros (v & Hv & Hr). destruct (nbrs v) eqn:E; [done|]. simplify_eq/=. by rewrite E.
  - intros (Hv & Hn & Hne). exists (vertex r). split; [done|]. rewrite <-Hn.
    destruct r as [v [|x ns]]; done.
Qed.

Lemma build_rows_sorted nbrs vs : sorted vs → sorted (vertex <$> build_rows nbrs vs).
Proof.
  induction vs as [|v vs IH]; [constructor|]. intros [Hs Hlt]%sorted_cons.
  specialize (IH Hs). unfold build_rows in *. simpl. destruct (nbrs v); [done|].
  simpl. apply sorted_cons. split; [done|]. intros y (r & -> & Hr)%list_elem_of_fmap.
  apply elem_of_build_rows in Hr as (Hr & _). auto.
Qed.

Lemma build_rows_adj_ok nbrs vs :
  sorted vs → (∀ v, v ∈ vs → sorted (nbrs v)) → adj_ok (mk_adj (build_rows nbrs vs)).
Proof.
  intros Hs Hn. split; simpl; [by apply build_rows_sorted|]. apply Forall_forall.
  intros r (Hr & -> & _)%elem_of_build_rows. auto.
Qed.

Lemma build_rows_adj_row nbrs vs v :
  sorted vs → (v ∉ vs → nbrs v = []) → adj_row (mk_adj (build_rows nbrs vs)) v = nbrs v.
Proof.
  intros Hs Hout. unfold adj_row. simpl.
  pose proof (build_rows_sorted nbrs vs Hs) as Hb.
  destruct (search_by_key vertex v (build_rows nbrs vs)) as [r|] eqn:E.
  - apply search_by_key_Some in E as [Hr <-]; [|done].
    by apply elem_of_build_rows in Hr as (_ & ? & _).
  - apply search_by_key_None in E; [|done].
    destruct (decide (v ∈ vs)) as [Hv|Hv]; [|by rewrite Hout].
    destruct (nbrs v) as [|x ns] eqn:Hn; [done|]. exfalso. apply E, list_elem_of_fmap.
    exists (mk_row v (x :: ns)). split; [done|]. apply elem_of_build_rows. simpl. by rewrite Hn.
Qed.

Lemma row_list_adj_row c et dir v :
  row_list c et dir v =
  match search_by_key etype et (etypes c) with Some e => adj_row (adj_of dir e) v | None => [] end.
Proof. unfold row_list, archived_csr_row, adj_row. by destruct (search_by_key etype et _). Qed.

Lemma adj_row_sorted a v : adj_ok a → sorted (adj_row a v).
Proof.
  intros [Hs Hf]. unfold adj_row. destruct (search_by_key vertex v (rows a)) eqn:E; [|constructor].
  apply search_by_key_Some in E as [Hr _]; [|done]. rewrite Forall_forall in Hf. auto.
Qed.

Lemma row_list_sorted c B et dir v : models c B → sorted (row_list c et dir v).
Proof.
  intros Hm. rewrite row_list_adj_row.
  destruct (search_by_key etype et (etypes c)) eqn:E; [|constructor].
  apply search_by_key_Some in E as [He _]; [|apply Hm]. by eapply adj_row_sorted, models_adj.
Qed.

(** Edge-type entries built from a sorted list of edge types. *)
Lemma built_etypes_models ets (f : Z → etype_entry) B count :
  sorted ets → (∀ et, etype (f et) = et) →
  (∀ et dir, et ∈ ets → adj_ok (adj_of dir (f et))) →
  (∀ et dir v w, et ∈ ets → w ∈ adj_row (adj_of dir (f et)) v ↔ Topology.edge_at et dir v w ∈ B) →
  (∀ et dir v w, Topology.edge_at et dir v w ∈ B → et ∈ ets) →
  models (mk (f <$> ets) count) B.
Proof.
  intros Hs Hf Hok Hedges Hdom.
  assert (etype <$> (f <$> ets) = ets) as Hid.
  { rewrite <-list_fmap_compose. rewrite <-(list_fmap_id ets) at 2.
    apply list_fmap_ext. intros; apply Hf. }
  assert (sorted (etype <$> (f <$> ets))) as Hs' by by rewrite Hid.
  split; simpl; [done| |].
  - intros e dir (et & -> & Het)%list_elem_of_fmap. auto.
  - intros et dir v w. rewrite row_list_adj_row. simpl.
    destruct (search_by_key etype et (f <$> ets)) as [e|] eqn:E.
    + apply search_by_key_Some in E as [(et' & -> & Het)%list_elem_of_fmap Hk]; [|done].
      rewrite Hf in Hk. subst et'. auto.
    + apply search_by_key_None in E; [|done]. rewrite Hid in E. split; [set_solver|].
      intros Hw. by apply Hdom in Hw.
Qed.

(** ** The snapshot merge *)

Lemma merge_adj_map_spec oadj badj tombs :
  (∀ o v al, oadj = Some o → o !! v = Some al → AdjList.ok al) →
  (∀ b, badj = Some b → adj_ok b) →
  adj_ok (merge_adj_map oadj badj tombs) ∧
  ∀ v w, w ∈ adj_row (merge_adj_map oadj badj tombs) v ↔
         (∃ al, oadj ≫= lookup v = Some al ∧ w ∈ AdjList.elems al) ∨
         (∃ b, badj = Some b ∧ w ∈ adj_row b v ∧ w ∉ default ∅ (tombs ≫= lookup v)).
Proof.
  intros Ho Hb.
  set (nbrs := λ v : Z,
    let overlay_nbrs := match oadj ≫= lookup v with
                        | Some al => AdjList.merged al | None => [] end in
    let base_nbrs := match badj ≫= (λ b, search_by_key vertex v (rows b)) with
                     | Some r => neighbors r | None => [] end in
    let filtered_base_nbrs :=
      match tombs ≫= lookup v with
      | None => base_nbrs
      | Some tb => filter (λ n, n ∉ tb) base_nbrs
      end in
    merge_sorted_unique_vecs overlay_nbrs filtered_base_nbrs).
  set (vs := btree_set_iter (match oadj with Some o => dom o | None => ∅ end ∪
    match badj with Some b => list_to_set (vertex <$> rows b) | None => ∅ end)).
  change (merge_adj_map oadj badj tombs) with (mk_adj (build_rows nbrs vs)).
  assert (∀ v, match badj ≫= (λ b, search_by_key vertex v (rows b)) with
               | Some r => neighbors r | None => [] end =
               match badj with Some b => adj_row b v | None => [] end) as Hbase.
  { intros v. by destruct badj. }
  assert (∀ v w, w ∈ nbrs v ↔
         (∃ al, oadj ≫= lookup v = Some al ∧ w ∈ AdjList.elems al) ∨
         (∃ b, badj = Some b ∧ w ∈ adj_row b v ∧ w ∉ default ∅ (tombs ≫= lookup v))) as Hin.
  { intros v w. unfold nbrs, merge_sorted_unique_vecs. rewrite elem_of_merge_loop, Hbase.
    f_equiv.
    - destruct (oadj ≫= lookup v); [rewrite AdjList.merged_elems|]; set_solver.
    - destruct (tombs ≫= lookup v); simpl; rewrite ?list_elem_of_filter;
        destruct badj; set_solver. }
  assert (∀ v, sorted (nbrs v)) as Hsorted.
  { intros v. apply merge_loop_sorted.
    - destruct (oadj ≫= lookup v) as [al|] eqn:E; [|constructor].
      apply bind_Some in E as (o & -> & Hl). by eapply AdjList.merged_sorted, Ho.
    - rewrite Hbase. destruct badj as [b|].
      + specialize (Hb b eq_refl). apply (adj_row_sorted b v) in Hb.
        case_match; [|done]. by apply sorted_filter.
      + case_match; rewrite ?filter_nil; constructor. }
  split; [apply build_rows_adj_ok; [apply btree_set_iter_sorted|auto]|].
  intros v w. rewrite build_rows_adj_row; [apply Hin|apply btree_set_iter_sorted|].
  intros Hv. apply elem_of_nil_inv. intros x Hx. apply Hv.
  apply elem_of_btree_set_iter, elem_of_union. apply Hin in Hx as [(al & Hal & _)|(b & -> & Hx & _)].
  - left. apply bind_Some in Hal as (o & -> & Hl). by apply elem_of_dom.
  - right. apply elem_of_list_to_set. unfold adj_row in Hx.
    destruct (search_by_key vertex v (rows b)) as [r|] eqn:E; [|set_solver].
    apply search_by_key_Some in E as [Hr <-]; [by apply list_elem_of_fmap_2|].
    apply (Hb b eq_refl).
Qed.

Lemma topology_merge_models base overlay B E T :
  models base B → Topology.models overlay E T →
  models (topology_merge_to_csr base overlay) (E ∪ B ∖ T).
Proof.
  intros HB HE. unfold topology_merge_to_csr.
  set (ets := btree_set_iter _). set (f := λ et : Z, _ : etype_entry).
  assert (∀ et dir,
    adj_ok (adj_of dir (f et)) ∧
    ∀ v w, w ∈ adj_row (adj_of dir (f et)) v ↔ Topology.edge_at et dir v w ∈ E ∪ B ∖ T) as Hadj.
  { intros et dir.
    destruct (merge_adj_map_spec (TypedAdjacency.get dir <$> Topology.by_type overlay !! et)
      (adj_of dir <$> search_by_key etype et (etypes base))
      (match dir with Out => Topology.out_tombstones overlay !! et
                    | In => Topology.in_tombstones overlay !! et end)) as [Hok Hrow].
    - intros o v al Hoe Hal. apply fmap_Some in Hoe as (adj & Ha & ->).
      eapply (Topology.models_ok _ _ _ HE et dir v). unfold Topology.adj_list. by rewrite Ha.
    - intros b (e & He & ->)%fmap_Some. apply search_by_key_Some in He as [He _]; [|apply HB].
      by apply HB.
    - assert (adj_of dir (f et) = merge_adj_map (TypedAdjacency.get dir <$> Topology.by_type overlay !! et)
        (adj_of dir <$> search_by_key etype et (etypes base))
        (match dir with Out => Topology.out_tombstones overlay !! et
                    | In => Topology.in_tombstones overlay !! et end)) as -> by by destruct dir.
      split; [done|]. intros v w. rewrite Hrow, elem_of_union, elem_of_difference.
      rewrite <-(Topology.models_nbr _ _ _ HE), <-(Topology.models_tomb _ _ _ HE),
        <-(models_edges _ _ HB), row_list_adj_row.
      unfold Topology.nbr_set, Topology.adj_list, Topology.tomb_set, Topology.tombstones_for,
        Topology.out_tombstones_for, Topology.in_tombstones_for. f_equiv.
      + destruct (Topology.by_type overlay !! et); simpl; [|set_solver].
        destruct (_ !! v); set_solver.
      + destruct (search_by_key etype et (etypes base)); simpl; [|set_solver].
        destruct dir; naive_solver. }
  apply built_etypes_models.
  - apply btree_set_iter_sorted.
  - done.
  - intros; apply Hadj.
  - intros et dir v w _. apply Hadj.
  - intros et dir v w Hw. apply Hadj in Hw. unfold ets.
    apply elem_of_btree_set_iter, elem_of_union.
    destruct (Topology.by_type overlay !! et) eqn:Ho; [left; by apply elem_of_dom|].
    destruct (search_by_key etype et (etypes base)) as [e|] eqn:He.
    + right. apply search_by_key_Some in He as [He <-]; [|apply HB].
      apply elem_of_list_to_set. by apply list_elem_of_fmap_2.
    + exfalso. revert Hw. unfold f. rewrite Ho, He. destruct dir; simpl; unfold adj_row; simpl; set_solver.
Qed.
(** ** Counting, and the way back *)

(** Every out-edge of the base, in storage order. *)
Definition out_edges (c : t) : list triple :=
  e ← etypes c; r ← rows (out_adj e); (λ w, (etype e, vertex r, w)) <$> neighbors r.

Lemma elem_of_out_edges c B x : models c B → x ∈ out_edges c ↔ x ∈ B.
Proof.
  intros Hm. destruct x as [[et v] w]. rewrite <-(models_edges _ _ Hm et Out v w), row_list_adj_row.
  unfold out_edges. rewrite list_elem_of_bind. split.
  - intros (e & Hx & He). apply list_elem_of_bind in Hx as (r & Hx & Hr).
    apply list_elem_of_fmap in Hx as (w' & [= -> -> ->] & Hw).
    rewrite (proj2 (search_by_key_Some _ _ _ e (models_etypes _ _ Hm)) (conj He eq_refl)).
    unfold adj_row. simpl.
    rewrite (proj2 (search_by_key_Some vertex (vertex r) (rows (out_adj e)) r (proj1 (models_adj _ _ Hm e Out He))) (conj Hr eq_refl)).
    done.
  - destruct (search_by_key etype et (etypes c)) as [e|] eqn:E; [|set_solver].
    apply search_by_key_Some in E as [He <-]; [|apply Hm]. unfold adj_row. simpl.
    destruct (search_by_key vertex v (rows (out_adj e))) as [r|] eqn:E; [|set_solver].
    apply search_by_key_Some in E as [Hr <-]; [|apply (models_adj _ _ Hm e Out He)].
    intros Hw. exists e. split; [|done]. apply list_elem_of_bind. exists r. split; [|done].
    by apply list_elem_of_fmap_2.
Qed.

Lemma sorted_fmap_NoDup {A} (f : A → Z) l x y :
  sorted (f <$> l) → x ∈ l → y ∈ l → f x = f y → x = y.
Proof.
  intros Hs Hx Hy Hf. assert (search_by_key f (f y) l = Some x) as E1 by by apply search_by_key_Some.
  assert (search_by_key f (f y) l = Some y) by by apply search_by_key_Some. congruence.
Qed.

Lemma out_edges_NoDup c B : models c B → NoDup (out_edges c).
Proof.
  intros Hm. unfold out_edges. apply NoDup_bind.
  - intros e1 e2 x He1 He2 H1 H2. eapply sorted_fmap_NoDup; [apply Hm|done..|].
    apply list_elem_of_bind in H1 as (? & (? & -> & _)%list_elem_of_fmap & _).
    apply list_elem_of_bind in H2 as (? & (? & [= ? ? ?] & _)%list_elem_of_fmap & _). done.
  - intros e He. destruct (models_adj _ _ Hm e Out He) as [Hs Hf]. apply NoDup_bind.
    + intros r1 r2 x Hr1 Hr2 H1 H2. eapply sorted_fmap_NoDup; [done..|].
      apply list_elem_of_fmap in H1 as (? & -> & _).
      apply list_elem_of_fmap in H2 as (? & [= ? ?] & _). done.
    + intros r Hr. rewrite Forall_forall in Hf. apply NoDup_fmap_2; [intros ?? [= ->]; done|].
      by apply sorted_NoDup, Hf.
    + by apply (NoDup_fmap_1 vertex), sorted_NoDup.
  - apply (NoDup_fmap_1 etype), sorted_NoDup, Hm.
Qed.

Lemma count_out_rows_out_edges c : count_out_rows (etypes c) = Z.of_nat (length (out_edges c)).
Proof.
  unfold count_out_rows, out_edges. rewrite length_bind. do 2 f_equal.
  apply list_fmap_ext. intros _ e _. rewrite length_bind. f_equal.
  apply list_fmap_ext. intros _ r _. by rewrite length_fmap.
Qed.

(** The edges counted from the rows are the edges the base holds. *)
Lemma count_out_rows_size c B : models c B → count_out_rows (etypes c) = Z.of_nat (size B).
Proof.
  intros Hm. rewrite count_out_rows_out_edges. f_equal.
  rewrite <-(size_list_to_set (C:=gset triple)) by by eapply out_edges_NoDup.
  f_equal. apply set_eq. intros x. rewrite elem_of_list_to_set. by apply elem_of_out_edges.
Qed.

Lemma topology_to_csr_models g E T : Topology.models g E T → models (topology_to_csr g) E.
Proof.
  intros Hm. unfold topology_to_csr.
  destruct (Topology.etypes_sorted g) as [Hs Hin]. unfold Topology.etypes in Hs, Hin.
  set (ets := sort_unstable _) in *.
  set (f := λ et, let adj := default TypedAdjacency.default (Topology.by_type g !! et) in
     mk_etype et (adj_map_to_csr (TypedAdjacency.out adj)) (adj_map_to_csr (TypedAdjacency.inn adj))).
  assert (omap (λ et, adj ← Topology.by_type g !! et;
        Some (mk_etype et (adj_map_to_csr (TypedAdjacency.out adj))
                          (adj_map_to_csr (TypedAdjacency.inn adj)))) ets = f <$> ets) as ->.
  { assert (∀ et, et ∈ ets → is_Some (Topology.by_type g !! et)) as Hall by (intros; by apply Hin).
    clear Hs Hin. induction ets as [|et ets IH]; [done|]. simpl.
    destruct (Hall et) as [adj Hadj]; [by left|]. unfold f at 1. rewrite Hadj. simpl. f_equal.
    apply IH. intros; apply Hall. by right. }
  assert (∀ et dir, adj_of dir (f et) = adj_map_to_csr (TypedAdjacency.get dir
    (default TypedAdjacency.default (Topology.by_type g !! et)))) as Hf by by intros ? [].
  set (nbrs := λ (m : gmap Z AdjList.t) v, match m !! v with Some al => AdjList.merged al | None => [] end).
  assert (∀ m, adj_map_to_csr m = mk_adj (build_rows (nbrs m) (sort_unstable (map_to_list m).*1))) as Hb.
  { intros m. unfold adj_map_to_csr, build_rows, nbrs. f_equal.
    induction (sort_unstable (map_to_list m).*1) as [|v vs IH]; [done|]. simpl.
    destruct (m !! v) as [al|]; simpl; [destruct (AdjList.merged al); [|f_equal]|]; exact IH. }
  assert (∀ et dir v, nbrs (TypedAdjacency.get dir
    (default TypedAdjacency.default (Topology.by_type g !! et))) v = Topology.neighbors g et dir v) as Hn.
  { intros et dir v. unfold nbrs, Topology.neighbors, Topology.adj_list.
    destruct (Topology.by_type g !! et); simpl; [done|]. by destruct dir. }
  apply built_etypes_models; [done|done| | |].
  - intros et dir _. rewrite Hf, Hb. apply build_rows_adj_ok; [apply Topology.map_keys_sorted|].
    intros v _. rewrite Hn. by eapply Topology.neighbors_sorted.
  - intros et dir v w _. rewrite Hf, Hb, build_rows_adj_row, Hn.
    + by eapply Topology.neighbors_models.
    + apply Topology.map_keys_sorted.
    + intros Hv. unfold nbrs. destruct (_ !! v) eqn:Hl; [|done]. destruct Hv.
      by apply Topology.map_keys_sorted.
  - intros et dir v w Hw. apply Hin.
    apply (Topology.models_nbr _ _ _ Hm) in Hw. unfold Topology.nbr_set, Topology.adj_list in Hw.
    destruct (Topology.by_type g !! et); [by eexists|]. simpl in Hw. set_solver.
Qed.

Lemma foldl_run es o :
  foldl (λ topo (x : triple), g ← topo; Topology.step (Topology.AddEdge x) g) o es =
  g ← o; Topology.run (Topology.AddEdge <$> es) g.
Proof.
  revert o; induction es as [|x es IH]; intros [g|]; [done|done| |].
  - simpl. by rewrite IH.
  - simpl. rewrite IH. done.
Qed.

Lemma spec_run_adds es E T :
  Topology.spec_run (Topology.AddEdge <$> es) (E, T) = (list_to_set es ∪ E, T).
Proof.
  revert E; induction es as [|x es IH]; intros E; simpl.
  - unfold Topology.spec_run. simpl. f_equal. set_solver.
  - change (Topology.spec_run _ _) with
      (Topology.spec_run (Topology.AddEdge <$> es) ({[x]} ∪ E, T)). rewrite IH. f_equal. set_solver.
Qed.

Lemma csr_to_topology_models c B :
  models c B → ∃ g, csr_to_topology c = Some g ∧ Topology.models g B ∅.
Proof.
  intros Hm. assert (csr_to_topology c = Topology.run (Topology.AddEdge <$> out_edges c) Topology.new) as ->.
  { transitivity (foldl (λ topo (x : triple), g ← topo; Topology.step (Topology.AddEdge x) g)
      (Some Topology.new) (out_edges c)); [|by rewrite foldl_run].
    unfold out_edges, csr_to_topology. rewrite foldl_bind. apply foldl_ext_l.
    intros o e. rewrite foldl_bind. apply foldl_ext_l. intros o' r.
    by rewrite foldl_fmap_l. }
  destruct (Topology.run_models (Topology.AddEdge <$> out_edges c) Topology.new ∅ ∅ Topology.new_models)
    as (g & -> & Hg). exists g. split; [done|]. rewrite spec_run_adds in Hg. simpl in Hg.
  replace B with (list_to_set (out_edges c) ∪ ∅ : gset triple); [done|].
  apply set_eq. intros x. rewrite elem_of_union, elem_of_list_to_set.
  rewrite (elem_of_out_edges c B x Hm). set_solver.
Qed.

Lemma base_has_out_edge_spec c B et src dst :
  models c B → base_has_out_edge c et src dst = bool_decide ((et, src, dst) ∈ B).
Proof.
  intros Hm. pose proof (models_edges _ _ Hm et Out src dst) as He.
  pose proof (row_list_sorted c B et Out src Hm) as Hs.
  unfold base_has_out_edge, row_list in *. simpl in He.
  rewrite <-(bool_decide_ext _ _ He).
  destruct (archived_csr_row c et Out src) as [r|].
  - destruct (binary_search_spec dst (neighbors r) Hs) as [(i&->&Hi&_)|(i&->&Hi&_)]; symmetry.
    + apply bool_decide_eq_true_2. by eapply list_elem_of_lookup_2.
    + by apply bool_decide_eq_false_2.
  - symmetry. apply bool_decide_eq_false_2. set_solver.
Qed.

(** Encoding the topology reached by any sequence of writes as a snapshot's
    compressed rows and decoding it back gives a topology with the same
    neighbour lists in both directions and the same edge count, and the rows
    answer [base_has_out_edge] for exactly those edges. *)
Theorem csr_roundtrip os :
  ∃ g g', Topology.run os Topology.new = Some g
    ∧ csr_to_topology (topology_to_csr g) = Some g'
    ∧ (∀ etype dir v, Topology.neighbors g' etype dir v = Topology.neighbors g etype dir v)
    ∧ Topology.edge_count g' = Topology.edge_count g
    ∧ (∀ etype src dst, base_has_out_edge (topology_to_csr g) etype src dst =
                        bool_decide (dst ∈ Topology.neighbors g etype Out src)).
Proof.
  destruct (Topology.run_models os Topology.new ∅ ∅ Topology.new_models) as (g & Hrun & Hm).
  destruct (Topology.spec_run os (∅, ∅)) as [E T]. simpl in Hm.
  pose proof (topology_to_csr_models g E T Hm) as Hc.
  destruct (csr_to_topology_models _ _ Hc) as (g' & Hg' & Hm').
  exists g, g'. split_and!; [done|done| | |].
  - intros etype dir v. apply sorted_ext; [by eapply Topology.neighbors_sorted..|]. intros w.
    by rewrite (Topology.neighbors_models _ _ _ _ _ _ _ Hm'), (Topology.neighbors_models _ _ _ _ _ _ _ Hm).
  - by rewrite (Topology.models_count _ _ _ Hm'), (Topology.models_count _ _ _ Hm).
  - intros etype src dst. rewrite (base_has_out_edge_spec _ E) by done.
    apply bool_decide_ext. symmetry. apply (Topology.neighbors_models _ _ _ etype Out src dst Hm).
Qed.
End Csr.
