(* ===== verification/TopologyView.v ===== *)
(** * Reads over snapshot, overlay and layer

    Models [TopologyView] of [crates/core-storage/src/v8/seam.rs]: the
    snapshot's base CSR, the post-snapshot overlay, and the layer a reader
    snapshot or an open transaction lays over both.

    Every read is proved equal to the read of one plain set of edges:
    [(((B ∖ T) ∪ E) ∖ Tl) ∪ El]. *)

From S2P Require Import Prelude Order Topology Csr.

Module TopologyView.

Record t := mk { overlay : Topology.t; base : option Csr.t; layer : option Topology.t }.

(** [TopologyView::owned] *)
Definition owned (overlay : Topology.t) : t := mk overlay None None.
(** [TopologyView::with_layer] *)
Definition with_layer (self : t) (tx : Topology.t) : t := mk (overlay self) (base self) (Some tx).
(** [TopologyView::with_base] *)
Definition with_base (overlay : Topology.t) (base : Csr.t) : t := mk overlay (Some base) None.

(** [merge_sorted_unique] of the view. *)
Definition merge_sorted_unique (a b : list Z) : list Z := merge_loop a b.

(** [subtract_tombstones] *)
Definition subtract_tombstones (nbrs : list Z) (etype : Z) (dir : Direction) (v : Z)
    (overlay : Topology.t) : list Z :=
  let tombstones := match dir with
    | Out => Topology.out_tombstones_for overlay etype v
    | In => Topology.in_tombstones_for overlay etype v
    end in
  match tombstones with
  | None => nbrs
  | Some t => if bool_decide (t = ∅) then nbrs else filter (λ n, n ∉ t) nbrs
  end.

(** [lay_tx_over] *)
Definition lay_tx_over (below : list Z) (tx : Topology.t) (etype : Z) (dir : Direction) (v : Z) : list Z :=
  let added := Topology.neighbors tx etype dir v in
  match added with
  | [] =>
      if Topology.tombstones_are_empty tx etype dir v then below
      else subtract_tombstones below etype dir v tx
  | _ =>
      match subtract_tombstones below etype dir v tx with
      | [] => added
      | kept => merge_sorted_unique kept added
      end
  end.

(** [below_tx_with_base_row] *)
Definition below_tx_with_base_row (self : t) (etype : Z) (dir : Direction) (v : Z) : list Z * option (list Z) :=
  let overlay_nbrs := Topology.neighbors (overlay self) etype dir v in
  match base self with
  | None => (overlay_nbrs, None)
  | Some base =>
      let row := Csr.neighbors <$> Csr.archived_csr_row base etype dir v in
      match row with
      | None => (overlay_nbrs, None)
      | Some [] => (overlay_nbrs, row)
      | Some base_nbrs =>
          match subtract_tombstones base_nbrs etype dir v (overlay self) with
          | [] => (overlay_nbrs, row)
          | filtered_base_nbrs =>
              match overlay_nbrs with
              | [] => (filtered_base_nbrs, row)
              | _ => (merge_sorted_unique overlay_nbrs filtered_base_nbrs, row)
              end
          end
      end
  end.

(** [neighbors_with_base_row] *)
Definition neighbors_with_base_row (self : t) (etype : Z) (dir : Direction) (v : Z) : list Z * option (list Z) :=
  let '(below, row) := below_tx_with_base_row self etype dir v in
  match layer self with
  | None => (below, row)
  | Some tx => (lay_tx_over below tx etype dir v, row)
  end.

(** [TopologyView::neighbors] *)
Definition neighbors (self : t) (etype : Z) (dir : Direction) (v : Z) : list Z :=
  (neighbors_with_base_row self etype dir v).1.

(** [x.saturating_sub(y)] on unsigned integers. *)
Definition saturating_sub (x y : Z) : Z := Z.max 0 (x - y).

(** [below_tx_edge_count] *)
Definition below_tx_edge_count (self : t) : Z :=
  let ov := Topology.edge_count (overlay self) in
  match base self with
  | None => ov
  | Some b =>
      let tombstones := Z.of_nat (Topology.map_sum (Topology.map_sum size)
                                    (Topology.out_tombstones (overlay self))) in
      wrap_u 64 (saturating_sub (Csr.edge_count b) tombstones + ov)
  end.

(** [tx_tombstones], flattened to triples. *)
Definition tx_tombstones (tx : Topology.t) : list triple :=
  '(etype, by_src) ← map_to_list (Topology.out_tombstones tx);
  '(src, dsts) ← map_to_list by_src;
  (λ dst, (etype, src, dst)) <$> elements dsts.

(** [has_below] of [edge_count]; also the visibility test of the replay. *)
Definition has_edge (self : t) (e : triple) : bool :=
  let '(etype, src, dst) := e in bool_decide (dst ∈ neighbors self etype Out src).

(** [TopologyView::edge_count] *)
Definition edge_count (self : t) : Z :=
  let below := below_tx_edge_count self in
  match layer self with
  | None => below
  | Some tx =>
      let lower := mk (overlay self) (base self) None in
      let count := foldl (λ count '(etype, src, dst),
        let put_back := bool_decide (dst ∈ Topology.neighbors tx etype Out src) in
        if has_edge lower (etype, src, dst) && negb put_back then saturating_sub count 1 else count)
        below (tx_tombstones tx) in
      foldl (λ count e, if has_edge lower e then count else wrap_u 64 (count + 1)) count (Topology.all_edges tx)
  end.

(** [TopologyView::degree] *)
Definition degree (self : t) (etype : Z) (dir : Direction) (v : Z) : nat :=
  match layer self with
  | Some _ => length (neighbors self etype dir v)
  | None =>
      match base self with
      | None => Topology.degree (overlay self) etype dir v
      | Some base =>
          if Topology.adj_is_empty (overlay self) etype dir v
             && Topology.tombstones_are_empty (overlay self) etype dir v
          then Csr.archived_row_degree base etype dir v
          else length (neighbors self etype dir v)
      end
  end.

(** [TopologyView::etypes] *)
Definition etypes (self : t) : list Z :=
  match base self, layer self with
  | None, None => Topology.etypes (overlay self)
  | base, tx =>
      Csr.btree_set_iter
        (list_to_set (Topology.etypes (overlay self))
         ∪ list_to_set (b ← option_list base; Csr.etype <$> Csr.etypes b)
         ∪ list_to_set (x ← option_list tx; Topology.etypes x))
  end.

(** ** Specification *)

(** The edges visible over a base [B], an overlay ([E], [T]) and a layer. *)
Definition visible (B E T : gset triple) (L : option (gset triple * gset triple)) : gset triple :=
  let below := B ∖ T ∪ E in
  match L with None => below | Some (El, Tl) => below ∖ Tl ∪ El end.

(** The parts of a view hold [B], ([E], [T]) and [L]. *)
Record models (self : t) (B E T : gset triple) (L : option (gset triple * gset triple)) : Prop := {
  m_overlay : Topology.models (overlay self) E T;
  m_base : match base self with Some c => Csr.models c B | None => B = ∅ end;
  m_layer : match layer self, L with
            | Some tx, Some (El, Tl) => Topology.models tx El Tl
            | None, None => True
            | _, _ => False
            end;
}.

Lemma filter_not_in_empty (s : gset Z) (l : list Z) : s = ∅ → filter (λ n, n ∉ s) l = l.
Proof.
  intros Hs. induction l as [|x l IH]; [done|]. by rewrite filter_cons_True, IH by set_solver.
Qed.

Lemma subtract_tombstones_eq nbrs etype dir v g :
  subtract_tombstones nbrs etype dir v g = filter (λ n, n ∉ Topology.tomb_set g etype dir v) nbrs.
Proof.
  unfold subtract_tombstones, Topology.tomb_set.
  change (match dir with Out => Topology.out_tombstones_for g etype v
                       | In => Topology.in_tombstones_for g etype v end)
    with (Topology.tombstones_for g etype dir v).
  destruct (Topology.tombstones_for g etype dir v) as [s|]; simpl; [|by rewrite filter_not_in_empty].
  case_bool_decide; [by rewrite filter_not_in_empty|done].
Qed.

Lemma below_eq self etype dir v :
  (below_tx_with_base_row self etype dir v).1 =
  merge_loop (Topology.neighbors (overlay self) etype dir v)
    (filter (λ n, n ∉ Topology.tomb_set (overlay self) etype dir v)
      (match base self with Some c => Csr.row_list c etype dir v | None => [] end)).
Proof.
  unfold below_tx_with_base_row, Csr.row_list. destruct (base self) as [c|];
    [|by rewrite filter_nil, merge_loop_nil_r].
  destruct (Csr.archived_csr_row c etype dir v) as [[v' [|n ns]]|];
    cbn [fmap option_fmap option_map Csr.neighbors];
    rewrite ?filter_nil, ?merge_loop_nil_r; [done| |done].
  rewrite subtract_tombstones_eq.
  destruct (filter _ (n :: ns)) eqn:E; [by rewrite merge_loop_nil_r|].
  destruct (Topology.neighbors (overlay self) etype dir v); done.
Qed.

Lemma lay_tx_over_eq below tx etype dir v :
  lay_tx_over below tx etype dir v =
  merge_loop (filter (λ n, n ∉ Topology.tomb_set tx etype dir v) below)
             (Topology.neighbors tx etype dir v).
Proof.
  unfold lay_tx_over. rewrite subtract_tombstones_eq.
  destruct (Topology.neighbors tx etype dir v) as [|x added]; rewrite ?merge_loop_nil_r.
  - rewrite Topology.tombstones_are_empty_spec. case_bool_decide as He; [|done].
    by rewrite filter_not_in_empty.
  - by destruct (filter _ below).
Qed.

(** Every neighbour list a view returns is the sorted list of the visible
    edges at that vertex. *)
Lemma neighbors_spec self B E T L etype dir v :
  models self B E T L →
  sorted (neighbors self etype dir v) ∧
  ∀ w, w ∈ neighbors self etype dir v ↔ Topology.edge_at etype dir v w ∈ visible B E T L.
Proof.
  intros [Ho Hb Hl].
  assert (sorted (below_tx_with_base_row self etype dir v).1 ∧
    ∀ w, w ∈ (below_tx_with_base_row self etype dir v).1 ↔
         Topology.edge_at etype dir v w ∈ B ∖ T ∪ E) as [Hbs Hbi].
  { rewrite below_eq. split.
    - apply merge_loop_sorted; [by eapply Topology.neighbors_sorted|]. apply sorted_filter.
      destruct (base self); [by eapply Csr.row_list_sorted|constructor].
    - intros w. rewrite elem_of_merge_loop, list_elem_of_filter, elem_of_union, elem_of_difference.
      rewrite (Topology.neighbors_models _ _ _ _ _ _ _ Ho), (Topology.models_tomb _ _ _ Ho).
      destruct (base self) as [c|]; [rewrite (Csr.models_edges _ _ Hb)|subst B]; set_solver. }
  unfold neighbors, neighbors_with_base_row.
  destruct (below_tx_with_base_row self etype dir v) as [below row]; simpl in Hbs, Hbi.
  destruct (layer self) as [tx|], L as [[El Tl]|]; try done; simpl.
  rewrite lay_tx_over_eq. split.
  - apply merge_loop_sorted; [by apply sorted_filter|by eapply Topology.neighbors_sorted].
  - intros w. rewrite elem_of_merge_loop, list_elem_of_filter, elem_of_union, elem_of_difference, Hbi.
    rewrite (Topology.neighbors_models _ _ _ _ _ _ _ Hl), (Topology.models_tomb _ _ _ Hl). tauto.
Qed.

Lemma has_edge_spec self B E T L e :
  models self B E T L → has_edge self e = bool_decide (e ∈ visible B E T L).
Proof.
  intros Hm. destruct e as [[etype src] dst]. unfold has_edge.
  apply bool_decide_ext, (neighbors_spec _ _ _ _ _ etype Out src Hm).
Qed.

(** Reads are determined by the visible set alone. *)
Lemma neighbors_determined self1 self2 B1 E1 T1 L1 B2 E2 T2 L2 etype dir v :
  models self1 B1 E1 T1 L1 → models self2 B2 E2 T2 L2 →
  visible B1 E1 T1 L1 = visible B2 E2 T2 L2 →
  neighbors self1 etype dir v = neighbors self2 etype dir v.
Proof.
  intros H1 H2 Hv.
  destruct (neighbors_spec _ _ _ _ _ etype dir v H1) as [Hs1 Hi1].
  destruct (neighbors_spec _ _ _ _ _ etype dir v H2) as [Hs2 Hi2].
  apply sorted_ext; [done..|]. intros w. by rewrite Hi1, Hi2, Hv.
Qed.

Lemma degree_neighbors self B E T L etype dir v :
  models self B E T L → degree self etype dir v = length (neighbors self etype dir v).
Proof.
  intros Hm. unfold degree. destruct (layer self) as [tx|] eqn:Hl; [done|].
  assert (neighbors self etype dir v = (below_tx_with_base_row self etype dir v).1) as Hn.
  { unfold neighbors, neighbors_with_base_row. destruct (below_tx_with_base_row _ _ _ _).
    by rewrite Hl. }
  rewrite Hn, below_eq. destruct (base self) as [c|] eqn:Hb.
  - destruct (Topology.adj_is_empty (overlay self) etype dir v) eqn:Ha; simpl; [|done].
    destruct (Topology.tombstones_are_empty (overlay self) etype dir v) eqn:Ht; [|done].
    rewrite Topology.tombstones_are_empty_spec in Ht. apply bool_decide_eq_true in Ht.
    rewrite (Topology.adj_is_empty_neighbors _ _ _ _ Ha), merge_loop_nil_l, filter_not_in_empty by done.
    unfold Csr.archived_row_degree, Csr.row_list.
    destruct (Csr.archived_csr_row c etype dir v) as [r|]; done.
  - by rewrite filter_nil, merge_loop_nil_r.
Qed.

(** ** Counting *)

(** Flattening a two-level map lists each triple once. *)
Lemma nested_NoDup {A C} (m : gmap Z A) (h : A → gmap Z C) (f : C → list Z) :
  (∀ k a s c, m !! k = Some a → h a !! s = Some c → NoDup (f c)) →
  NoDup ('(k, a) ← map_to_list m; '(s, c) ← map_to_list (h a); (λ d, (k, s, d)) <$> f c).
Proof.
  intros Hf. apply NoDup_bind; [| |apply NoDup_map_to_list].
  - intros [k1 a1] [k2 a2] y H1%elem_of_map_to_list H2%elem_of_map_to_list Hy1 Hy2.
    apply list_elem_of_bind in Hy1 as ([??] & (? & -> & _)%list_elem_of_fmap & _).
    apply list_elem_of_bind in Hy2 as ([??] & (? & [= <- _ _] & _)%list_elem_of_fmap & _).
    congruence.
  - intros [k a] Ha%elem_of_map_to_list. apply NoDup_bind; [| |apply NoDup_map_to_list].
    + intros [s1 c1] [s2 c2] y H1%elem_of_map_to_list H2%elem_of_map_to_list Hy1 Hy2.
      apply list_elem_of_fmap in Hy1 as (? & -> & _).
      apply list_elem_of_fmap in Hy2 as (? & [= <- _] & _). congruence.
    + intros [s c] Hc%elem_of_map_to_list. apply NoDup_fmap_2; [intros ?? [= ->]; done|]. eauto.
Qed.

Lemma all_edges_NoDup g E T : Topology.models g E T → NoDup (Topology.all_edges g).
Proof.
  intros Hm. apply nested_NoDup. intros k a s c Ha Hc. apply sorted_NoDup, AdjList.merged_sorted.
  apply (Topology.models_ok _ _ _ Hm k Out s). unfold Topology.adj_list. by rewrite Ha.
Qed.

Lemma tx_tombstones_NoDup tx : NoDup (tx_tombstones tx).
Proof. apply (nested_NoDup _ id). intros. apply NoDup_elements. Qed.

Lemma elem_of_tx_tombstones g E T e : Topology.models g E T → e ∈ tx_tombstones g ↔ e ∈ T.
Proof.
  intros Hm. destruct e as [[etype src] dst].
  rewrite <-(Topology.models_tomb _ _ _ Hm etype Out src dst).
  unfold tx_tombstones, Topology.tomb_set, Topology.tombstones_for, Topology.out_tombstones_for.
  rewrite list_elem_of_bind. split.
  - intros ([k a] & Hx & Ha%elem_of_map_to_list).
    apply list_elem_of_bind in Hx as ([s c] & Hx & Hc%elem_of_map_to_list).
    apply list_elem_of_fmap in Hx as (d & [= <- <- <-] & Hd%elem_of_elements).
    rewrite Ha. simpl. by rewrite Hc.
  - destruct (Topology.out_tombstones g !! etype) as [a|] eqn:Ha; simpl; [|set_solver].
    destruct (a !! src) as [c|] eqn:Hc; simpl; [|set_solver]. intros Hd.
    exists (etype, a). split; [|by apply elem_of_map_to_list].
    apply list_elem_of_bind. exists (src, c). split; [|by apply elem_of_map_to_list].
    apply list_elem_of_fmap_2. by apply elem_of_elements.
Qed.

Lemma foldl_count_down {A} (p : A → bool) l c :
  0 ≤ c → foldl (λ c a, if p a then saturating_sub c 1 else c) c l =
          Z.max 0 (c - Z.of_nat (length (filter p l))).
Proof.
  revert c; induction l as [|a l IH]; intros c Hc; [simpl; lia|]. cbn [foldl].
  rewrite filter_cons. destruct (p a).
  - rewrite decide_True by done. cbn [length]. rewrite IH by (unfold saturating_sub; lia).
    unfold saturating_sub. lia.
  - rewrite decide_False by (by intros []). by apply IH.
Qed.

Lemma foldl_count_up {A} (p : A → bool) l c :
  0 ≤ c → c + Z.of_nat (length (filter (λ a, p a = false) l)) < 2 ^ 64 →
  foldl (λ c a, if p a then c else wrap_u 64 (c + 1)) c l =
  c + Z.of_nat (length (filter (λ a, p a = false) l)).
Proof.
  revert c; induction l as [|a l IH]; intros c Hc; [simpl; lia|]. cbn [foldl].
  rewrite filter_cons. destruct (p a) eqn:E.
  - rewrite decide_False by done. apply IH; lia.
  - rewrite decide_True by done. cbn [length]. intros Hb.
    rewrite wrap_u_id by (unfold in_u; lia). rewrite IH; lia.
Qed.

(** The length of a filtered enumeration of a set is the size of its part. *)
Lemma filter_length_size (P : triple → Prop) `{∀ x, Decision (P x)} (l : list triple) (S S' : gset triple) :
  NoDup l → (∀ x, x ∈ l ↔ x ∈ S) → (∀ x, x ∈ S' ↔ x ∈ S ∧ P x) → length (filter P l) = size S'.
Proof.
  intros Hn Hl HS. rewrite <-(size_list_to_set (C:=gset triple)) by by apply NoDup_filter.
  f_equal. apply set_eq. intros x. rewrite elem_of_list_to_set, list_elem_of_filter, HS, Hl. tauto.
Qed.

(** The bookkeeping the writers maintain over a base: tombstones cover only
    base edges, and no edge is held by both the base and the overlay. *)
Definition disciplined (base : option Csr.t) (B E T : gset triple) : Prop :=
  match base with
  | Some c => T ⊆ B ∧ E ## B ∖ T ∧ Csr.edge_count c = Z.of_nat (size B)
  | None => True
  end.

Lemma below_count_exact self B E T L :
  models self B E T L → disciplined (base self) B E T → Z.of_nat (size (B ∖ T ∪ E)) < 2 ^ 64 →
  below_tx_edge_count self = Z.of_nat (size (B ∖ T ∪ E)).
Proof.
  intros [Ho Hb _] Hd Hsz. unfold below_tx_edge_count.
  rewrite (Topology.models_count _ _ _ Ho).
  destruct (base self) as [c|]; simpl in *.
  - destruct Hd as (HT & Hdisj & Hc).
    change (Topology.map_sum _ _) with (Topology.tombstone_count (overlay self)).
    rewrite (Topology.models_tcount _ _ _ Ho), Hc. rewrite size_union in * by set_solver.
    rewrite size_difference in * by done. assert (size T ≤ size B)%nat by by apply subseteq_size.
    unfold saturating_sub. rewrite (wrap_u_id 64 (Z.of_nat (size E))) by (unfold in_u; lia).
    rewrite wrap_u_id by (unfold in_u; lia). lia.
  - subst B. replace (∅ ∖ T ∪ E) with E in * by set_solver. apply wrap_u_id. unfold in_u. lia.
Qed.

Lemma edge_count_spec self B E T L :
  models self B E T L → disciplined (base self) B E T →
  Z.of_nat (size (B ∖ T ∪ E)) < 2 ^ 64 → Z.of_nat (size (visible B E T L)) < 2 ^ 64 →
  edge_count self = Z.of_nat (size (visible B E T L)).
Proof.
  intros Hm Hd Hsz Hsz'. pose proof (below_count_exact _ _ _ _ _ Hm Hd Hsz) as Hbelow.
  unfold edge_count. rewrite Hbelow. pose proof (m_layer _ _ _ _ _ Hm) as Hl.
  destruct (layer self) as [tx|] eqn:Hlay, L as [[El Tl]|]; try done. simpl in *.
  set (S := B ∖ T ∪ E) in *. set (lower := mk (overlay self) (base self) None).
  assert (models lower B E T None) as Hlow by (split; [apply Hm|apply Hm|done]).
  assert (∀ e, has_edge lower e = bool_decide (e ∈ S)) as Hhas.
  { intros e. by rewrite (has_edge_spec _ _ _ _ _ _ Hlow). }
  set (gone := λ e : triple, has_edge lower e && negb (bool_decide (e ∈ El))).
  rewrite (foldl_ext_l _ (λ c e, if gone e then saturating_sub c 1 else c)
    (tx_tombstones tx)).
  2:{ intros c [[et s] d]. unfold gone, has_edge.
      by rewrite (bool_decide_ext _ _ (Topology.neighbors_models _ _ _ et Out s d Hl)). }
  rewrite foldl_count_down by lia.
  rewrite (filter_length_size gone (tx_tombstones tx) Tl (Tl ∩ S ∖ El));
    [|apply tx_tombstones_NoDup|intros; by eapply elem_of_tx_tombstones|].
  2:{ intros x. unfold gone. rewrite Hhas, Is_true_true, andb_true_iff, negb_true_iff,
        bool_decide_eq_true, bool_decide_eq_false. set_solver. }
  assert (size (S ∖ Tl ∪ El) + size (Tl ∩ S ∖ El) = size S + size (El ∖ S))%nat as Hsize.
  { rewrite <-!size_union by set_solver. f_equal. apply set_eq. intros x.
    destruct (decide (x ∈ Tl)), (decide (x ∈ El)), (decide (x ∈ S)); set_solver. }
  assert (size (Tl ∩ S ∖ El) ≤ size S)%nat by (apply subseteq_size; set_solver).
  assert (length (filter (λ a, has_edge lower a = false) (Topology.all_edges tx)) = size (El ∖ S)) as Hup.
  { apply (filter_length_size _ _ El); [by eapply all_edges_NoDup|intros; by eapply Topology.elem_of_all_edges|].
    intros x. rewrite Hhas, bool_decide_eq_false. set_solver. }
  rewrite foldl_count_up; rewrite ?Hup; lia.
Qed.

(** ** Edge types *)

Lemma etypes_spec self B E T L :
  models self B E T L →
  sorted (etypes self) ∧ ∀ etype src dst, (etype, src, dst) ∈ visible B E T L → etype ∈ etypes self.
Proof.
  intros [Ho Hb Hl].
  assert (∀ g E T etype src dst, Topology.models g E T → (etype, src, dst) ∈ E →
            etype ∈ Topology.etypes g) as Htopo.
  { intros g E' T' etype src dst Hm He. apply Topology.etypes_sorted.
    apply (Topology.models_nbr _ _ _ Hm etype Out src dst) in He.
    unfold Topology.nbr_set, Topology.adj_list in He.
    destruct (Topology.by_type g !! etype); [by eexists|]. simpl in He. set_solver. }
  assert (∀ c etype src dst, base self = Some c → (etype, src, dst) ∈ B →
            etype ∈ Csr.etype <$> Csr.etypes c) as Hbase.
  { intros c etype src dst Hc He. rewrite Hc in Hb.
    apply (Csr.elem_of_out_edges c B (etype, src, dst) Hb) in He.
    apply list_elem_of_bind in He as (e & Hx & He).
    apply list_elem_of_bind in Hx as (r & (? & [= -> -> ->] & _)%list_elem_of_fmap & _).
    by apply list_elem_of_fmap_2. }
  unfold etypes. destruct (base self) as [c|] eqn:Hc, (layer self) as [tx|], L as [[El Tl]|]; try done.
  4:{ split; [apply Topology.etypes_sorted|]. subst B. intros etype src dst.
      simpl. intros [?|?]%elem_of_union; [set_solver|]. by eapply Htopo. }
  all: split; [apply Csr.btree_set_iter_sorted|]; intros etype src dst Hv;
    apply Csr.elem_of_btree_set_iter; simpl in *;
    rewrite !elem_of_union, !elem_of_list_to_set, ?app_nil_r.
  - apply elem_of_union in Hv as [[[[Hv _]%elem_of_difference|Hv]%elem_of_union _]%elem_of_difference|Hv].
    + left; right. by eapply Hbase.
    + left; left. by eapply Htopo.
    + right. by eapply Htopo.
  - apply elem_of_union in Hv as [[Hv _]%elem_of_difference|Hv]; left; [right|left]; eauto.
  - subst B. apply elem_of_union in Hv as [[[?|Hv]%elem_of_union _]%elem_of_difference|Hv];
      [set_solver|left; left; by eapply Htopo|right; by eapply Htopo].
Qed.
End TopologyView.
