(* ===== verification/EdgeStore.v ===== *)
(** * The edge store: guarded writers and snapshots

    Models the code that writes edges: [GraphMut::add_edge]/[remove_edge] of
    [crates/core-rules/src/engine.rs] (derived edges), the edge arms of the
    write-ahead-log replay and the sweep of a deleted node's edges in
    [crates/core-api/src/db.rs], the snapshot that folds the overlay into a new
    base, and [Layer::remove_edge] with the edge sweep of
    [Layer::delete_node] in [crates/core-api/src/layer.rs].

    The refinement: whatever the sequence of these operations, the three-part
    store reads as one plain set of edges. *)

From S2P Require Import Prelude Order Topology Csr TopologyView.

Module EdgeStore.
Import TopologyView.

(** [GraphMut::add_edge]: the answer and the overlay left. *)
Definition GraphMut_add_edge (base_topo : option Csr.t) (topo : Topology.t) (etype src dst : Z)
    : option (bool * Topology.t) :=
  let tombstoned := match Topology.out_tombstones_for topo etype src with
                    | Some t => bool_decide (dst ∈ t) | None => false end in
  match base_topo with
  | Some base =>
      if negb tombstoned && Csr.base_has_out_edge base etype src dst then Some (false, topo)
      else Topology.add_edge topo etype src dst
  | None => Topology.add_edge topo etype src dst
  end.

(** [GraphMut::remove_edge] *)
Definition GraphMut_remove_edge (base_topo : option Csr.t) (topo : Topology.t) (etype src dst : Z)
    : option Topology.t :=
  match base_topo with
  | Some base =>
      if negb (Csr.base_has_out_edge base etype src dst)
      then snd <$> Topology.remove_overlay_edge topo etype src dst
      else snd <$> Topology.remove_edge topo etype src dst
  | None => snd <$> Topology.remove_edge topo etype src dst
  end.

(** The topology part of replaying [InsertEdge]/[InsertEdgeId]: nothing when
    the edge is already visible over a base. *)
Definition replay_insert_edge (base : option Csr.t) (topo : Topology.t) (etype src dst : Z) : option Topology.t :=
  if bool_decide (is_Some base) && has_edge (mk topo base None) (etype, src, dst) then Some topo
  else snd <$> Topology.add_edge topo etype src dst.

(** The topology part of replaying [DeleteEdge]: nothing when a base is open
    and the edge is not visible (the phantom-tombstone guard). *)
Definition replay_delete_edge (base : option Csr.t) (topo : Topology.t) (etype src dst : Z) : option Topology.t :=
  if bool_decide (is_Some base) && negb (has_edge (mk topo base None) (etype, src, dst)) then Some topo
  else snd <$> Topology.remove_edge topo etype src dst.

(** [Layer::remove_edge] *)
Definition Layer_remove_edge (topo : Topology.t) (e : triple) : option Topology.t :=
  let '(etype, src, dst) := e in
  '(_, topo) ← Topology.remove_overlay_edge topo etype src dst;
  snd <$> Topology.remove_edge topo etype src dst.

(** The [doomed] edges of [Layer::delete_node]. *)
Definition doomed (view : t) (id : Z) : list triple :=
  etype ← etypes view;
  ((λ dst, (etype, id, dst)) <$> neighbors view etype Out id) ++
  ((λ src, (etype, src, id)) <$> filter (λ src, src ≠ id) (neighbors view etype In id)).

(** The edge sweep of [Layer::delete_node]. *)
Definition Layer_sweep_node (self : t) (id : Z) : option Topology.t :=
  tx ← layer self;
  foldl (λ tx e, tx ← tx; Layer_remove_edge tx e) (Some tx) (doomed self id).


(** The database's own sweep of a deleted node's edges. *)
Definition db_sweep_node (base : option Csr.t) (topo : Topology.t) (n : Z) : option Topology.t :=
  foldl (λ topo '(et, s, d), topo ← topo; snd <$> Topology.remove_edge topo et s d)
    (Some topo) (doomed (mk topo base None) n).

(** ** The store *)

(** The topology fields of the database: the mapped base and the overlay. *)
Record store := mk_store { st_base : option Csr.t; st_topo : Topology.t }.

Definition empty_store : store := mk_store None Topology.new.

Definition topo_view (st : store) : t := mk (st_topo st) (st_base st) None.

(** A snapshot encodes the merge of base and overlay (or the whole overlay when
    there is no base), maps it as the new base and clears the overlay. *)
Definition snapshot (st : store) : store :=
  mk_store (Some (match st_base st with
                  | Some archived_csr => Csr.topology_merge_to_csr archived_csr (st_topo st)
                  | None => Csr.topology_to_csr (st_topo st)
                  end)) Topology.new.

Inductive op :=
| DerivedAdd (e : triple)
| DerivedRemove (e : triple)
| ReplayInsert (e : triple)
| ReplayDelete (e : triple)
| DeleteNode (n : Z)
| Snapshot.

Definition step (o : op) (st : store) : option store :=
  let '(mk_store base topo) := st in
  match o with
  | DerivedAdd (et, s, d) => '(_, topo) ← GraphMut_add_edge base topo et s d; Some (mk_store base topo)
  | DerivedRemove (et, s, d) => mk_store base <$> GraphMut_remove_edge base topo et s d
  | ReplayInsert (et, s, d) => mk_store base <$> replay_insert_edge base topo et s d
  | ReplayDelete (et, s, d) => mk_store base <$> replay_delete_edge base topo et s d
  | DeleteNode n => mk_store base <$> db_sweep_node base topo n
  | Snapshot => Some (snapshot st)
  end.

Fixpoint run (os : list op) (st : store) : option store :=
  match os with [] => Some st | o :: os => step o st ≫= run os end.

(** What the operations mean on a plain set of edges. *)
Definition incident (n : Z) (e : triple) : Prop := e.1.2 = n ∨ e.2 = n.

#[export] Instance incident_dec n e : Decision (incident n e).
Proof. unfold incident. apply _. Defined.

Definition spec_step (o : op) (S : gset triple) : gset triple :=
  match o with
  | DerivedAdd e | ReplayInsert e => {[e]} ∪ S
  | DerivedRemove e | ReplayDelete e => S ∖ {[e]}
  | DeleteNode n => filter (λ e, ¬ incident n e) S
  | Snapshot => S
  end.

Definition spec_run (os : list op) : gset triple := foldl (λ S o, spec_step o S) ∅ os.

(** ** Proofs *)

(** The store reads as the set [S] and its bookkeeping is exact. *)
Definition holds (base : option Csr.t) (topo : Topology.t) (S : gset triple) : Prop :=
  ∃ B E T, models (mk topo base None) B E T None ∧ disciplined base B E T ∧ S = B ∖ T ∪ E.

Lemma holds_intro base topo B E T S :
  Topology.models topo E T → match base with Some c => Csr.models c B | None => B = ∅ end →
  disciplined base B E T → S = B ∖ T ∪ E → holds base topo S.
Proof. intros. exists B, E, T. done. Qed.

Lemma holds_has_edge base topo S e :
  holds base topo S → has_edge (mk topo base None) e = bool_decide (e ∈ S).
Proof. intros (B & E & T & Hm & _ & ->). by apply (has_edge_spec _ B E T None). Qed.

(** Adding an edge to the overlay is right unless the base shows it already. *)
Lemma add_edge_core base topo B E T etype src dst :
  models (mk topo base None) B E T None → disciplined base B E T →
  (base = None ∨ (etype, src, dst) ∉ B ∖ T) →
  ∃ topo', Topology.add_edge topo etype src dst =
             Some (bool_decide ((etype, src, dst) ∉ B ∖ T ∪ E), topo')
           ∧ holds base topo' ({[(etype, src, dst)]} ∪ (B ∖ T ∪ E)).
Proof.
  intros [Ho Hb _] Hd Hnew. simpl in Ho, Hb. set (e := (etype, src, dst)) in *.
  destruct (Topology.add_edge_models topo E T etype src dst Ho) as (topo' & Hadd & Hm'). fold e in Hadd, Hm'.
  assert (e ∉ E ↔ e ∉ B ∖ T ∪ E) as Hiff by (destruct base, Hnew; set_solver).
  exists topo'. rewrite Hadd, (bool_decide_ext _ _ Hiff). split; [done|].
  eapply holds_intro; [done..| |set_solver]. destruct base as [c|]; [|done].
  destruct Hd as (? & ? & ?). split_and!; [done| |done]. destruct Hnew; [done|]. set_solver.
Qed.

(** Removing an edge with a tombstone is right whenever it is visible, or the
    base holds it, or there is no base. *)
Lemma remove_edge_holds base topo S etype src dst :
  holds base topo S →
  (base = None ∨ (etype, src, dst) ∈ S ∨
   ∃ c, base = Some c ∧ Csr.base_has_out_edge c etype src dst = true) →
  ∃ r topo', Topology.remove_edge topo etype src dst = Some (r, topo')
           ∧ holds base topo' (S ∖ {[(etype, src, dst)]}).
Proof.
  intros (B & E & T & [Ho Hb _] & Hd & ->) Hvis. simpl in Ho, Hb. set (e := (etype, src, dst)) in *.
  assert (base = None ∨ e ∈ B ∨ e ∈ E) as Hin.
  { destruct Hvis as [?|[?|(c & -> & Hc)]]; [tauto|set_solver|].
    rewrite (Csr.base_has_out_edge_spec c B) in Hc by done. apply bool_decide_eq_true in Hc. right; by left. }
  destruct (Topology.remove_edge_models topo E T etype src dst Ho) as (topo' & Hrem & Hm').
  fold e in Hrem, Hm'. eexists _, topo'. split; [done|].
  assert (base = None → B = ∅) as HB0 by (intros ->; done).
  eapply holds_intro; [done|done| |].
  - destruct base as [c|]; [|done]. destruct Hd as (HT & Hdisj & Hc).
    destruct Hin as [?|Hin]; [done|]. case_bool_decide; split_and!; set_solver.
  - apply set_eq. intros x. case_bool_decide as He.
    + destruct (decide (x = e)) as [->|]; [|set_solver].
      destruct base as [c|]; [|rewrite HB0 by done; set_solver]. destruct Hd as (? & ? & _). set_solver.
    + set_solver.
Qed.

Lemma remove_overlay_edge_holds c topo S etype src dst :
  holds (Some c) topo S → Csr.base_has_out_edge c etype src dst = false →
  ∃ r topo', Topology.remove_overlay_edge topo etype src dst = Some (r, topo')
           ∧ holds (Some c) topo' (S ∖ {[(etype, src, dst)]}).
Proof.
  intros (B & E & T & [Ho Hb _] & Hd & ->) Hc. simpl in Ho, Hb.
  rewrite (Csr.base_has_out_edge_spec c B) in Hc by done. apply bool_decide_eq_false in Hc.
  destruct (Topology.remove_overlay_edge_models topo E T etype src dst Ho) as (topo' & Hrem & Hm').
  eexists _, topo'. split; [done|]. destruct Hd as (? & ? & ?).
  eapply holds_intro; [done|done| |set_solver]. split_and!; set_solver.
Qed.

Lemma out_tombstoned topo E T etype src dst :
  Topology.models topo E T →
  match Topology.out_tombstones_for topo etype src with
  | Some t => bool_decide (dst ∈ t) | None => false end = bool_decide ((etype, src, dst) ∈ T).
Proof.
  intros Hm. rewrite <-(bool_decide_ext _ _ (Topology.models_tomb _ _ _ Hm etype Out src dst)).
  unfold Topology.tomb_set, Topology.tombstones_for.
  destruct (Topology.out_tombstones_for topo etype src); [done|].
  symmetry. apply bool_decide_eq_false_2. set_solver.
Qed.

Lemma GraphMut_add_edge_holds base topo S etype src dst :
  holds base topo S →
  ∃ topo', GraphMut_add_edge base topo etype src dst = Some (bool_decide ((etype, src, dst) ∉ S), topo')
           ∧ holds base topo' ({[(etype, src, dst)]} ∪ S).
Proof.
  intros (B & E & T & Hm & Hd & ->). unfold GraphMut_add_edge.
  destruct base as [c|]; [|apply add_edge_core; auto].
  rewrite (out_tombstoned topo E T) by apply Hm.
  rewrite (Csr.base_has_out_edge_spec c B) by apply Hm.
  set (e := (etype, src, dst)).
  destruct (negb (bool_decide (e ∈ T)) && bool_decide (e ∈ B)) eqn:Hc.
  - apply andb_true_iff in Hc as [Ht%negb_true_iff Hb].
    apply bool_decide_eq_false in Ht. apply bool_decide_eq_true in Hb.
    rewrite bool_decide_eq_false_2 by set_solver. exists topo. split; [done|].
    replace ({[e]} ∪ (B ∖ T ∪ E)) with (B ∖ T ∪ E) by set_solver. by exists B, E, T.
  - apply add_edge_core; [done..|right]. fold e. intros [Hb Ht]%elem_of_difference.
    by rewrite bool_decide_eq_false_2, bool_decide_eq_true_2 in Hc.
Qed.

Lemma GraphMut_remove_edge_holds base topo S etype src dst :
  holds base topo S →
  ∃ topo', GraphMut_remove_edge base topo etype src dst = Some topo'
           ∧ holds base topo' (S ∖ {[(etype, src, dst)]}).
Proof.
  intros Hh. unfold GraphMut_remove_edge. destruct base as [c|].
  - destruct (Csr.base_has_out_edge c etype src dst) eqn:Hc; simpl.
    + destruct (remove_edge_holds (Some c) topo S etype src dst) as (r & topo' & -> & ?); eauto 6.
    + destruct (remove_overlay_edge_holds c topo S etype src dst) as (r & topo' & -> & ?); eauto.
  - destruct (remove_edge_holds None topo S etype src dst) as (r & topo' & -> & ?); eauto.
Qed.

Lemma replay_insert_edge_holds base topo S etype src dst :
  holds base topo S →
  ∃ topo', replay_insert_edge base topo etype src dst = Some topo'
           ∧ holds base topo' ({[(etype, src, dst)]} ∪ S).
Proof.
  intros Hh. unfold replay_insert_edge. rewrite (holds_has_edge _ _ S) by done.
  destruct (bool_decide (is_Some base) && bool_decide ((etype, src, dst) ∈ S)) eqn:Hc.
  - apply andb_true_iff in Hc as [_ He%bool_decide_eq_true]. exists topo. split; [done|].
    by replace ({[(etype, src, dst)]} ∪ S) with S by set_solver.
  - destruct Hh as (B & E & T & Hm & Hd & ->).
    destruct (add_edge_core base topo B E T etype src dst) as (topo' & -> & ?); eauto.
    destruct base; [right|by left]. simpl in Hc. apply bool_decide_eq_false in Hc. set_solver.
Qed.

Lemma replay_delete_edge_holds base topo S etype src dst :
  holds base topo S →
  ∃ topo', replay_delete_edge base topo etype src dst = Some topo'
           ∧ holds base topo' (S ∖ {[(etype, src, dst)]}).
Proof.
  intros Hh. unfold replay_delete_edge. rewrite (holds_has_edge _ _ S) by done.
  destruct (bool_decide (is_Some base) && negb (bool_decide ((etype, src, dst) ∈ S))) eqn:Hc.
  - apply andb_true_iff in Hc as [_ He%negb_true_iff%bool_decide_eq_false]. exists topo. split; [done|].
    by replace (S ∖ {[(etype, src, dst)]}) with S by set_solver.
  - destruct (remove_edge_holds base topo S etype src dst) as (r & topo' & -> & ?); eauto.
    destruct base; [|by left]. simpl in Hc.
    apply negb_false_iff, bool_decide_eq_true in Hc. tauto.
Qed.

(** ** Sweeping a node's edges *)

Lemma elem_of_doomed self B E T L n e :
  models self B E T L → e ∈ doomed self n ↔ e ∈ visible B E T L ∧ incident n e.
Proof.
  intros Hm. destruct e as [[etype src] dst]. unfold doomed, incident. simpl.
  destruct (neighbors_spec _ _ _ _ _ etype Out n Hm) as [_ Hout].
  destruct (neighbors_spec _ _ _ _ _ etype In n Hm) as [_ Hin]. simpl in Hout, Hin.
  destruct (etypes_spec _ _ _ _ _ Hm) as [_ Het]. rewrite list_elem_of_bind. split.
  - intros (et & Hx & _). apply elem_of_app in Hx as [Hx|Hx];
      apply list_elem_of_fmap in Hx as (w & [= <- -> ->] & Hw);
      rewrite ?list_elem_of_filter in Hw; naive_solver.
  - intros [Hv Hi]. exists etype. split; [|by eapply Het]. apply elem_of_app.
    destruct (decide (src = n)) as [->|Hne].
    + left. apply list_elem_of_fmap_2. by apply Hout.
    + right. destruct Hi as [?| ->]; [done|]. apply list_elem_of_fmap. exists src. split; [done|].
      apply list_elem_of_filter. split; [done|]. by apply Hin.
Qed.

Lemma doomed_NoDup self B E T L n : models self B E T L → NoDup (doomed self n).
Proof.
  intros Hm. unfold doomed. apply NoDup_bind.
  - intros et1 et2 x _ _ H1 H2.
    apply elem_of_app in H1 as [H1|H1]; apply list_elem_of_fmap in H1 as (? & -> & _);
    apply elem_of_app in H2 as [H2|H2]; apply list_elem_of_fmap in H2 as (? & [= ? ?] & _); done.
  - intros et _. apply NoDup_app. split_and!.
    + apply NoDup_fmap_2; [intros ?? [= ->]; done|]. by eapply sorted_NoDup, neighbors_spec.
    + intros x (? & -> & _)%list_elem_of_fmap (? & [= -> _] & [? _]%list_elem_of_filter)%list_elem_of_fmap.
      done.
    + apply NoDup_fmap_2; [intros ?? [= ->]; done|].
      by eapply NoDup_filter, sorted_NoDup, neighbors_spec.
  - by eapply sorted_NoDup, etypes_spec.
Qed.

Lemma sweep_holds base topo S (es : list triple) :
  holds base topo S → NoDup es → (∀ e, e ∈ es → e ∈ S) →
  ∃ topo', foldl (λ topo '(et, s, d), topo ← topo; snd <$> Topology.remove_edge topo et s d)
             (Some topo) es = Some topo' ∧ holds base topo' (S ∖ list_to_set es).
Proof.
  revert topo S; induction es as [|[[et s] d] es IH]; intros topo S Hh Hn Hin; simpl.
  - exists topo. split; [done|]. by replace (S ∖ ∅) with S by set_solver.
  - apply NoDup_cons in Hn as [Hx Hn].
    destruct (remove_edge_holds base topo S et s d) as (r & topo' & -> & Hh'); [done|set_solver|].
    simpl. destruct (IH topo' (S ∖ {[(et, s, d)]})) as (topo2 & -> & Hh2); [done|done|set_solver|].
    exists topo2. split; [done|].
    by replace (S ∖ ({[(et, s, d)]} ∪ list_to_set es))
      with (S ∖ {[(et, s, d)]} ∖ list_to_set es) by set_solver.
Qed.

Lemma db_sweep_node_holds base topo S n :
  holds base topo S →
  ∃ topo', db_sweep_node base topo n = Some topo' ∧ holds base topo' (filter (λ e, ¬ incident n e) S).
Proof.
  intros Hh. pose proof Hh as (B & E & T & Hm & _ & HS).
  pose proof (λ e, elem_of_doomed _ _ _ _ _ n e Hm) as Hdoom. simpl in Hdoom. setoid_rewrite <-HS in Hdoom.
  destruct (sweep_holds base topo S (doomed (mk topo base None) n)) as (topo' & Hf & Hh').
  - done.
  - by eapply doomed_NoDup.
  - by intros e [? _]%Hdoom.
  - exists topo'. split; [done|].
    replace (filter (λ e, ¬ incident n e) S) with (S ∖ list_to_set (doomed (mk topo base None) n)); [done|].
    apply set_eq. intros e. rewrite elem_of_difference, elem_of_list_to_set, elem_of_filter.
    rewrite Hdoom. tauto.
Qed.

Lemma snapshot_holds base topo S :
  holds base topo S → Z.of_nat (size S) < 2 ^ 64 →
  holds (st_base (snapshot (mk_store base topo))) Topology.new S.
Proof.
  intros (B & E & T & [Ho Hb _] & Hd & ->) Hsz. simpl in Ho, Hb. unfold snapshot. simpl.
  apply (holds_intro _ _ (B ∖ T ∪ E) ∅ ∅); [apply Topology.new_models| | |set_solver].
  - destruct base as [c|].
    + replace (B ∖ T ∪ E) with (E ∪ B ∖ T) by set_solver. by apply Csr.topology_merge_models.
    + subst B. replace (∅ ∖ T ∪ E) with E by set_solver. by eapply Csr.topology_to_csr_models.
  - split_and!; [set_solver|set_solver|]. destruct base as [c|].
    + replace (B ∖ T ∪ E) with (E ∪ B ∖ T) in * by set_solver.
      by apply (Csr.count_out_rows_size (Csr.topology_merge_to_csr c topo)), Csr.topology_merge_models.
    + subst B. replace (∅ ∖ T ∪ E) with E in * by set_solver. simpl.
      rewrite (Topology.models_count _ _ _ Ho). apply wrap_u_id. unfold in_u. lia.
Qed.

(** ** The refinement *)

Lemma step_holds o st S :
  holds (st_base st) (st_topo st) S → Z.of_nat (size S) < 2 ^ 64 →
  ∃ st', step o st = Some st' ∧ holds (st_base st') (st_topo st') (spec_step o S).
Proof.
  destruct st as [base topo]. cbn [st_base st_topo]. intros Hh Hsz.
  destruct o as [[[et s] d]|[[et s] d]|[[et s] d]|[[et s] d]|n|]; cbn [step spec_step].
  - destruct (GraphMut_add_edge_holds base topo S et s d Hh) as (topo' & -> & ?). by eexists.
  - destruct (GraphMut_remove_edge_holds base topo S et s d Hh) as (topo' & -> & ?). by eexists.
  - destruct (replay_insert_edge_holds base topo S et s d Hh) as (topo' & -> & ?). by eexists.
  - destruct (replay_delete_edge_holds base topo S et s d Hh) as (topo' & -> & ?). by eexists.
  - destruct (db_sweep_node_holds base topo S n Hh) as (topo' & -> & ?). by eexists.
  - eexists. split; [done|]. by apply snapshot_holds.
Qed.

Lemma size_add_le (e : triple) (S : gset triple) : (size ({[e]} ∪ S) ≤ Datatypes.S (size S))%nat.
Proof.
  rewrite size_union_alt, size_singleton.
  assert (size (S ∖ {[e]}) ≤ size S)%nat by (apply subseteq_size; set_solver). lia.
Qed.

Lemma spec_step_size o S : (size (spec_step o S) ≤ Datatypes.S (size S))%nat.
Proof.
  destruct o; simpl; try apply size_add_le; try lia;
    (etrans; [apply (subseteq_size _ S)|lia]); intros x; rewrite ?elem_of_filter; set_solver.
Qed.

Lemma run_holds os st S :
  holds (st_base st) (st_topo st) S → Z.of_nat (size S + length os) < 2 ^ 64 →
  ∃ st', run os st = Some st'
         ∧ holds (st_base st') (st_topo st') (foldl (λ S o, spec_step o S) S os).
Proof.
  revert st S; induction os as [|o os IH]; intros st S Hh Hsz; [by exists st|].
  cbn [length] in Hsz. destruct (step_holds o st S Hh) as (st' & Hst & Hh'); [lia|].
  cbn [run foldl]. rewrite Hst. simpl. apply IH; [done|].
  pose proof (spec_step_size o S). lia.
Qed.

Lemma empty_holds : holds None Topology.new ∅.
Proof. eapply (holds_intro _ _ ∅ ∅ ∅); [apply Topology.new_models|done|done|set_solver]. Qed.

Lemma spec_run_size os : (size (spec_run os) ≤ length os)%nat.
Proof.
  unfold spec_run. enough (∀ S, size (foldl (λ S o, spec_step o S) S os) ≤ size S + length os)%nat as H.
  { specialize (H ∅). by rewrite size_empty in H. }
  induction os as [|o os IH]; intros S; simpl; [lia|].
  etrans; [apply IH|]. pose proof (spec_step_size o S). lia.
Qed.

(** ** Layers *)

(** What a layer of changes over the store is built from. *)
Inductive layer_op := LayerAdd (e : triple) | LayerRemove (e : triple) | LayerDeleteNode (n : Z).

Definition layer_step (below : t) (o : layer_op) (tx : Topology.t) : option Topology.t :=
  match o with
  | LayerAdd (et, s, d) => snd <$> Topology.add_edge tx et s d
  | LayerRemove e => Layer_remove_edge tx e
  | LayerDeleteNode n => Layer_sweep_node (with_layer below tx) n
  end.

Fixpoint layer_run (below : t) (os : list layer_op) (tx : Topology.t) : option Topology.t :=
  match os with [] => Some tx | o :: os => layer_step below o tx ≫= layer_run below os end.

Definition layer_spec_step (S : gset triple) (o : layer_op) : gset triple :=
  match o with
  | LayerAdd e => {[e]} ∪ S
  | LayerRemove e => S ∖ {[e]}
  | LayerDeleteNode n => filter (λ e, ¬ incident n e) S
  end.

(** [tx] over a store that reads as [S0] reads as [S]. *)
Definition layer_holds (tx : Topology.t) (S0 S : gset triple) : Prop :=
  ∃ El Tl, Topology.models tx El Tl ∧ S = S0 ∖ Tl ∪ El.

Lemma Layer_remove_edge_holds tx S0 S e :
  layer_holds tx S0 S → ∃ tx', Layer_remove_edge tx e = Some tx' ∧ layer_holds tx' S0 (S ∖ {[e]}).
Proof.
  destruct e as [[et s] d]. intros (El & Tl & Hm & ->). unfold Layer_remove_edge.
  destruct (Topology.remove_overlay_edge_models tx El Tl et s d Hm) as (tx1 & -> & Hm1). simpl.
  destruct (Topology.remove_edge_models tx1 _ Tl et s d Hm1) as (tx2 & -> & Hm2). simpl.
  rewrite bool_decide_eq_false_2 in Hm2 by set_solver.
  exists tx2. split; [done|]. eexists _, _. split; [done|]. set_solver.
Qed.

Lemma Layer_fold_remove_holds tx S0 S es :
  layer_holds tx S0 S →
  ∃ tx', foldl (λ tx e, tx ← tx; Layer_remove_edge tx e) (Some tx) es = Some tx'
         ∧ layer_holds tx' S0 (S ∖ list_to_set es).
Proof.
  revert tx S; induction es as [|e es IH]; intros tx S Hh; simpl.
  - exists tx. split; [done|]. by replace (S ∖ ∅) with S by set_solver.
  - destruct (Layer_remove_edge_holds tx S0 S e Hh) as (tx1 & -> & Hh1).
    destruct (IH tx1 _ Hh1) as (tx2 & -> & Hh2). exists tx2. split; [done|].
    by replace (S ∖ ({[e]} ∪ list_to_set es)) with (S ∖ {[e]} ∖ list_to_set es) by set_solver.
Qed.

(** A layer over a store that holds [S0] is a view of [S]. *)
Lemma layer_holds_view base topo tx S0 S :
  holds base topo S0 → layer_holds tx S0 S →
  ∃ B E T L, models (mk topo base (Some tx)) B E T L ∧ disciplined base B E T
             ∧ S0 = B ∖ T ∪ E ∧ S = visible B E T L.
Proof.
  intros (B & E & T & [Ho Hb _] & Hd & ->) (El & Tl & Hl & ->). by exists B, E, T, (Some (El, Tl)).
Qed.

Lemma layer_step_holds base topo tx S0 S o :
  holds base topo S0 → layer_holds tx S0 S →
  ∃ tx', layer_step (mk topo base None) o tx = Some tx' ∧ layer_holds tx' S0 (layer_spec_step S o).
Proof.
  intros Hb Hl. destruct o as [[[et s] d]|e|n]; cbn [layer_step layer_spec_step].
  - destruct Hl as (El & Tl & Hm & ->).
    destruct (Topology.add_edge_models tx El Tl et s d Hm) as (tx' & -> & Hm').
    exists tx'. split; [done|]. eexists _, _. split; [done|]. set_solver.
  - by apply Layer_remove_edge_holds.
  - destruct (layer_holds_view base topo tx S0 S Hb Hl) as (B & E & T & L & Hv & _ & _ & ->).
    unfold Layer_sweep_node, with_layer. cbn [layer overlay TopologyView.base mbind option_bind].
    destruct (Layer_fold_remove_holds tx S0 _ (doomed (mk topo base (Some tx)) n) Hl) as (tx' & -> & Hl').
    exists tx'. split; [done|].
    replace (filter (λ e, ¬ incident n e) (visible B E T L))
      with (visible B E T L ∖ list_to_set (doomed (mk topo base (Some tx)) n)); [done|].
    apply set_eq. intros e. rewrite elem_of_difference, elem_of_list_to_set, elem_of_filter.
    rewrite (elem_of_doomed _ _ _ _ _ n e Hv). tauto.
Qed.

Lemma layer_run_holds base topo tx S0 S os :
  holds base topo S0 → layer_holds tx S0 S →
  ∃ tx', layer_run (mk topo base None) os tx = Some tx'
         ∧ layer_holds tx' S0 (foldl layer_spec_step S os).
Proof.
  intros Hb. revert tx S; induction os as [|o os IH]; intros tx S Hl; [by exists tx|].
  destruct (layer_step_holds base topo tx S0 S o Hb Hl) as (tx1 & Hst & Hl1).
  cbn [layer_run foldl]. rewrite Hst. by apply IH.
Qed.

Lemma new_layer_holds S0 : layer_holds Topology.new S0 S0.
Proof. exists ∅, ∅. split; [apply Topology.new_models|set_solver]. Qed.

Lemma layer_spec_size S os : (size (foldl layer_spec_step S os) ≤ size S + length os)%nat.
Proof.
  revert S; induction os as [|o os IH]; intros S; simpl; [lia|]. etrans; [apply IH|].
  enough (size (layer_spec_step S o) ≤ Datatypes.S (size S))%nat by lia.
  destruct o; simpl; [apply size_add_le| |];
    (etrans; [apply (subseteq_size _ S)|lia]); intros x; rewrite ?elem_of_filter; set_solver.
Qed.

(** ** Claims *)

(** What a reader of [S] is promised by a view: sorted neighbour lists of
    exactly the edges of [S], the degrees, and the exact edge count.  The edge
    types listed are sorted and include every edge's; a type whose last edge was
    removed may stay listed, as in the code. *)
Record reads_as (v : t) (S : gset triple) : Prop := {
  reads_sorted : ∀ etype dir x, sorted (neighbors v etype dir x);
  reads_edges : ∀ etype dir x w,
    w ∈ neighbors v etype dir x ↔ Topology.edge_at etype dir x w ∈ S;
  reads_degree : ∀ etype dir x, degree v etype dir x = length (neighbors v etype dir x);
  reads_count : edge_count v = Z.of_nat (size S);
  reads_etypes : ∀ etype src dst, (etype, src, dst) ∈ S → etype ∈ etypes v;
  reads_types_sorted : sorted (etypes v);
}.

Lemma models_reads_as v B E T L :
  models v B E T L → disciplined (TopologyView.base v) B E T →
  Z.of_nat (size (B ∖ T ∪ E)) < 2 ^ 64 → Z.of_nat (size (visible B E T L)) < 2 ^ 64 →
  reads_as v (visible B E T L).
Proof.
  intros Hm Hd H1 H2. split; intros.
  - by eapply neighbors_spec.
  - by eapply neighbors_spec.
  - by eapply degree_neighbors.
  - by eapply edge_count_spec.
  - by eapply etypes_spec.
  - by eapply etypes_spec.
Qed.

Lemma run_reads_as os :
  Z.of_nat (length os) < 2 ^ 64 →
  ∃ st, run os empty_store = Some st ∧ holds (st_base st) (st_topo st) (spec_run os)
        ∧ reads_as (topo_view st) (spec_run os).
Proof.
  intros Hlen. pose proof (spec_run_size os) as Hsz.
  destruct (run_holds os empty_store ∅ empty_holds) as (st & Hrun & Hh); [by rewrite size_empty|].
  exists st. split; [done|]. split; [done|]. destruct Hh as (B & E & T & Hm & Hd & HS).
  change (foldl _ _ _) with (spec_run os) in HS.
  rewrite HS in *. apply (models_reads_as _ B E T None); simpl; [done|done|lia|lia].
Qed.

(** C1: starting from an empty store, any sequence of fewer than 2^64
    derived-edge writes, log replays, node deletions and snapshots succeeds (no
    panic) and leaves a store that reads as the plain set of edges the sequence
    means: neighbour lists in both directions, degrees and the edge count are
    exact, over the merged base and overlay; the edge types listed include the
    type of every edge, and may go on listing a type whose last edge is gone. *)
Theorem edge_store_refines os :
  Z.of_nat (length os) < 2 ^ 64 →
  ∃ st, run os empty_store = Some st ∧ reads_as (topo_view st) (spec_run os).
Proof. intros (st & ? & _ & ?)%run_reads_as. by exists st. Qed.

Lemma edge_store_refines_witness :
  ∃ st, run [DerivedAdd (7, 1, 2); Snapshot; ReplayDelete (7, 1, 2); ReplayInsert (7, 1, 3)] empty_store = Some st
        ∧ reads_as (topo_view st)
            (spec_run [DerivedAdd (7, 1, 2); Snapshot; ReplayDelete (7, 1, 2); ReplayInsert (7, 1, 3)]).
Proof. apply edge_store_refines. vm_compute. reflexivity. Defined.

(** C9: a layer (a reader's unfolded delta tail or an open transaction) built by
    any sequence of edge inserts, removals and node deletions over any store
    reads as the store's set of edges with those changes applied, the edge
    count included, whatever the store's base and overlay hold. *)
Theorem layered_view_refines os los :
  Z.of_nat (length os + length los) < 2 ^ 64 →
  ∃ st tx, run os empty_store = Some st
           ∧ layer_run (topo_view st) los Topology.new = Some tx
           ∧ reads_as (with_layer (topo_view st) tx) (foldl layer_spec_step (spec_run os) los).
Proof.
  intros Hlen. pose proof (spec_run_size os) as Hsz.
  pose proof (layer_spec_size (spec_run os) los) as Hsz2.
  destruct (run_reads_as os) as ([base topo] & Hrun & Hh & _); [lia|]. simpl in Hh.
  destruct (layer_run_holds base topo Topology.new _ _ los Hh (new_layer_holds _)) as (tx & Htx & Hl).
  destruct (layer_holds_view base topo tx _ _ Hh Hl) as (B & E & T & L & Hv & Hd & HS0 & HS).
  exists (mk_store base topo), tx. split; [done|]. split; [done|].
  rewrite HS0 in Hsz. rewrite HS in *. apply models_reads_as; simpl; [done|done|lia|].
  rewrite HS0 in Hsz2. lia.
Qed.

Lemma layered_view_refines_witness :
  ∃ st tx, run [DerivedAdd (7, 1, 2); DerivedAdd (7, 2, 2); Snapshot] empty_store = Some st
           ∧ layer_run (topo_view st) [LayerAdd (7, 3, 1); LayerDeleteNode 2] Topology.new = Some tx
           ∧ reads_as (with_layer (topo_view st) tx)
               (foldl layer_spec_step (spec_run [DerivedAdd (7, 1, 2); DerivedAdd (7, 2, 2); Snapshot])
                  [LayerAdd (7, 3, 1); LayerDeleteNode 2]).
Proof. apply layered_view_refines. vm_compute. reflexivity. Defined.

(** C11: a snapshot is invisible to readers: inserting snapshots anywhere in a
    run (here: between [os] and [os']) changes no neighbour list and no edge
    count that is read afterwards. *)
Theorem snapshot_invisible os os' :
  Z.of_nat (length os + length os' + 1) < 2 ^ 64 →
  ∃ st st', run (os ++ os') empty_store = Some st
            ∧ run (os ++ Snapshot :: os') empty_store = Some st'
            ∧ (∀ etype dir v, neighbors (topo_view st') etype dir v = neighbors (topo_view st) etype dir v)
            ∧ edge_count (topo_view st') = edge_count (topo_view st).
Proof.
  intros Hlen.
  destruct (run_reads_as (os ++ os')) as (st & Hrun & _ & R); [rewrite length_app; lia|].
  destruct (run_reads_as (os ++ Snapshot :: os')) as (st' & Hrun' & _ & R'); [rewrite length_app; simpl; lia|].
  assert (spec_run (os ++ Snapshot :: os') = spec_run (os ++ os')) as Heq.
  { unfold spec_run. by rewrite !foldl_app. }
  rewrite Heq in R'. exists st, st'. split_and!; [done|done| |].
  - intros etype dir v. apply sorted_ext; [apply R'|apply R|]. intros w.
    by rewrite (reads_edges _ _ R'), (reads_edges _ _ R).
  - by rewrite (reads_count _ _ R'), (reads_count _ _ R).
Qed.

Lemma snapshot_invisible_witness :
  ∃ st st', run ([DerivedAdd (7, 1, 2); ReplayDelete (7, 1, 2)] ++ [DerivedAdd (7, 2, 1)]) empty_store = Some st
            ∧ run ([DerivedAdd (7, 1, 2); ReplayDelete (7, 1, 2)] ++ Snapshot :: [DerivedAdd (7, 2, 1)])
                empty_store = Some st'
            ∧ (∀ etype dir v, neighbors (topo_view st') etype dir v = neighbors (topo_view st) etype dir v)
            ∧ edge_count (topo_view st') = edge_count (topo_view st).
Proof. apply snapshot_invisible. vm_compute. reflexivity. Defined.
End EdgeStore.
