(* ===== verification/Assoc.v ===== *)
(** * Sorted association lists

    The abstract ordered map: [alookup], [ainsert] and [adelete] on lists
    sorted by key, their laws, how they distribute over a split of the list
    (what a descent in a search tree relies on), and how they act on the
    parallel key and value arrays of a leaf. *)

From S2P Require Import Prelude Order.

Section assoc.
Context {K V : Type} `{RustOrdLaws K}.
Implicit Types (k x : K) (v : V) (l e : list (K * V)) (keys : list K) (vals : list V).

(** Every key of [l] is below (above) [k]. *)
Definition all_below l k : Prop := ∀ x, x ∈ l.*1 → x <ₖ k.
Definition all_above l k : Prop := ∀ x, x ∈ l.*1 → k <ₖ x.

Lemma all_below_cons k x v l : all_below ((x, v) :: l) k ↔ x <ₖ k ∧ all_below l k.
Proof. unfold all_below. cbn [fmap list_fmap]. setoid_rewrite elem_of_cons. naive_solver. Qed.

Lemma all_above_cons k x v l : all_above ((x, v) :: l) k ↔ k <ₖ x ∧ all_above l k.
Proof. unfold all_above. cbn [fmap list_fmap]. setoid_rewrite elem_of_cons. naive_solver. Qed.

Lemma all_below_app k l1 l2 : all_below (l1 ++ l2) k ↔ all_below l1 k ∧ all_below l2 k.
Proof. unfold all_below. rewrite fmap_app. setoid_rewrite elem_of_app. naive_solver. Qed.

Lemma all_above_app k l1 l2 : all_above (l1 ++ l2) k ↔ all_above l1 k ∧ all_above l2 k.
Proof. unfold all_above. rewrite fmap_app. setoid_rewrite elem_of_app. naive_solver. Qed.

Lemma cmp_gt_below k x : x <ₖ k → cmp k x = Gt.
Proof. intros. by apply cmp_lt_gt. Qed.

(** ** Splitting at a key *)

Lemma alookup_above k e : all_above e k → alookup k e = None.
Proof.
  induction e as [|[x v] e IH]; [done|]. intros [Hx He]%all_above_cons. simpl.
  rewrite Hx. auto.
Qed.

Lemma alookup_mid k e1 e e2 :
  all_below e1 k → all_above e2 k → alookup k (e1 ++ e ++ e2) = alookup k e.
Proof.
  intros H1 H2. induction e1 as [|[x v] e1 IH]; simpl.
  - induction e as [|[x v] e IH]; simpl; [by apply alookup_above|]. by rewrite IH.
  - apply all_below_cons in H1 as [Hx H1]. rewrite cmp_gt_below by done. auto.
Qed.

Lemma ainsert_above k v e : all_above e k → ainsert k v e = (k, v) :: e.
Proof. destruct e as [|[x w] e]; [done|]. intros [Hx _]%all_above_cons. simpl. by rewrite Hx. Qed.

Lemma ainsert_mid k v e1 e e2 :
  all_below e1 k → all_above e2 k → ainsert k v (e1 ++ e ++ e2) = e1 ++ ainsert k v e ++ e2.
Proof.
  intros H1 H2. induction e1 as [|[x w] e1 IH]; simpl.
  - induction e as [|[x w] e IH]; simpl; [by apply ainsert_above|].
    destruct (cmp k x); [done|done|]. simpl. by rewrite IH.
  - apply all_below_cons in H1 as [Hx H1]. rewrite cmp_gt_below by done. f_equal. auto.
Qed.

Lemma adelete_above k e : all_above e k → adelete k e = e.
Proof. destruct e as [|[x w] e]; [done|]. intros [Hx _]%all_above_cons. simpl. by rewrite Hx. Qed.

Lemma adelete_mid k e1 e e2 :
  all_below e1 k → all_above e2 k → adelete k (e1 ++ e ++ e2) = e1 ++ adelete k e ++ e2.
Proof.
  intros H1 H2. induction e1 as [|[x w] e1 IH]; simpl.
  - induction e as [|[x w] e IH]; simpl; [by apply adelete_above|].
    destruct (cmp k x); [done|done|]. simpl. by rewrite IH.
  - apply all_below_cons in H1 as [Hx H1]. rewrite cmp_gt_below by done. f_equal. auto.
Qed.

(** ** Laws of the abstract map *)

Lemma elem_of_ainsert_keys k v l x : x ∈ (ainsert k v l).*1 ↔ x = k ∨ x ∈ l.*1.
Proof.
  induction l as [|[y w] l IH]; simpl; [set_solver|].
  destruct (cmp k y) eqn:E; simpl; rewrite ?elem_of_cons, ?IH; [|tauto|tauto].
  apply cmp_eq in E as ->. tauto.
Qed.

Lemma ainsert_sorted k v l : sorted l.*1 → sorted (ainsert k v l).*1.
Proof.
  induction l as [|[y w] l IH]; simpl; [repeat constructor|]. intros [Hs Hlt]%sorted_cons.
  destruct (cmp k y) eqn:E; simpl; apply sorted_cons.
  - apply cmp_eq in E as ->. done.
  - split; [by apply sorted_cons|]. intros x [->|Hx]%elem_of_cons; [done|]. etrans; [done|auto].
  - split; [auto|]. intros x [->|?]%elem_of_ainsert_keys; [by apply cmp_lt_gt|auto].
Qed.

Lemma elem_of_adelete k l p : p ∈ adelete k l → p ∈ l.
Proof.
  induction l as [|[y w] l IH]; simpl; [done|].
  destruct (cmp k y); rewrite ?elem_of_cons; naive_solver.
Qed.

Lemma adelete_sorted k l : sorted l.*1 → sorted (adelete k l).*1.
Proof.
  induction l as [|[y w] l IH]; simpl; [done|]. intros [Hs Hlt]%sorted_cons.
  destruct (cmp k y) eqn:E; simpl; [done|by apply sorted_cons|]. apply sorted_cons. split; [auto|].
  intros x (p & -> & Hp%elem_of_adelete)%list_elem_of_fmap. by apply Hlt, list_elem_of_fmap_2.
Qed.

Lemma alookup_Some k v l : sorted l.*1 → alookup k l = Some v ↔ (k, v) ∈ l.
Proof.
  induction l as [|[y w] l IH]; simpl; [set_solver|]. intros [Hs Hlt]%sorted_cons.
  specialize (IH Hs). rewrite elem_of_cons. destruct (cmp k y) eqn:E.
  - apply cmp_eq in E as ->. split; [intros [= ->]; by left|].
    intros [[= ->]|Hin]; [done|]. exfalso. apply (klt_irrefl y), Hlt, list_elem_of_fmap.
    by exists (y, v).
  - rewrite IH. split; [by right|]. intros [[= -> _]|?]; [|done]. by rewrite cmp_refl in E.
  - rewrite IH. split; [by right|]. intros [[= -> _]|?]; [|done]. by rewrite cmp_refl in E.
Qed.

Lemma alookup_None k l : alookup k l = None ↔ k ∉ l.*1.
Proof.
  induction l as [|[y w] l IH]; simpl; [set_solver|]. rewrite not_elem_of_cons.
  destruct (cmp k y) eqn:E; [|rewrite IH..].
  - apply cmp_eq in E as ->. naive_solver.
  - split; [|tauto]. split; [|done]. intros ->. by rewrite cmp_refl in E.
  - split; [|tauto]. split; [|done]. intros ->. by rewrite cmp_refl in E.
Qed.

Lemma alookup_ainsert k v l x : alookup x (ainsert k v l) = match cmp x k with Eq => Some v | _ => alookup x l end.
Proof.
  induction l as [|[y w] l IH]; simpl; [done|]. destruct (cmp k y) eqn:E; simpl.
  - apply cmp_eq in E as ->. by destruct (cmp x y).
  - done.
  - rewrite IH. destruct (cmp x y) eqn:E1; [|done..]. apply cmp_eq in E1 as ->.
    rewrite (cmp_antisym k y). by rewrite E.
Qed.

Lemma alookup_adelete k l x :
  sorted l.*1 → alookup x (adelete k l) = match cmp x k with Eq => None | _ => alookup x l end.
Proof.
  induction l as [|[y w] l IH]; simpl; [by destruct (cmp x k)|]. intros [Hs Hlt]%sorted_cons.
  destruct (cmp k y) eqn:E; simpl.
  - apply cmp_eq in E as ->. destruct (cmp x y) eqn:E1; [|done..].
    apply cmp_eq in E1 as ->. by apply alookup_above.
  - destruct (cmp x k) eqn:E2; [|done..]. apply cmp_eq in E2 as ->. rewrite E.
    apply alookup_above. intros z Hz. etrans; [done|auto].
  - rewrite IH by done. destruct (cmp x y) eqn:E1; [|done..]. apply cmp_eq in E1 as ->.
    rewrite (cmp_antisym k y). by rewrite E.
Qed.

Lemma length_ainsert k v l :
  sorted l.*1 →
  length (ainsert k v l) = match alookup k l with Some _ => length l | None => S (length l) end.
Proof.
  induction l as [|[y w] l IH]; simpl; [done|]. intros [Hs Hlt]%sorted_cons.
  destruct (cmp k y) eqn:E; simpl; [done| |].
  - rewrite alookup_above; [done|]. intros z Hz. etrans; [done|auto].
  - rewrite IH by done. by destruct (alookup k l).
Qed.

Lemma length_adelete k l :
  sorted l.*1 →
  length (adelete k l) = match alookup k l with Some _ => pred (length l) | None => length l end.
Proof.
  induction l as [|[y w] l IH]; simpl; [done|]. intros [Hs Hlt]%sorted_cons.
  destruct (cmp k y) eqn:E; simpl; [done| |].
  - rewrite alookup_above; [done|]. intros z Hz. etrans; [done|auto].
  - rewrite IH by done. destruct (alookup k l) eqn:El; [|done]. destruct l; [done|]. simpl. lia.
Qed.

Lemma sorted_fmap_filter (P : K * V → Prop) `{∀ p, Decision (P p)} l : sorted l.*1 → sorted (filter P l).*1.
Proof.
  induction l as [|p l IH]; [done|]. cbn [fmap list_fmap]. intros [Hs Hlt]%sorted_cons.
  rewrite filter_cons. case_decide; [|auto]. cbn [fmap list_fmap]. apply sorted_cons. split; [auto|].
  intros x (q & -> & [_ Hq]%list_elem_of_filter)%list_elem_of_fmap. by apply Hlt, list_elem_of_fmap_2.
Qed.

Lemma ainsert_id k v l : sorted l.*1 → alookup k l = Some v → ainsert k v l = l.
Proof.
  induction l as [|[x w] l IH]; [done|]. cbn [fmap list_fmap fst]. intros [Hs Hlt]%sorted_cons. simpl.
  destruct (cmp k x) eqn:E; intros Hk.
  - apply cmp_eq in E as ->. by simplify_eq.
  - rewrite alookup_above in Hk; [done|]. intros y Hy. etrans; [done|auto].
  - by rewrite IH.
Qed.

Lemma ainsert_ainsert k v v' l : ainsert k v' (ainsert k v l) = ainsert k v' l.
Proof.
  induction l as [|[x w] l IH]; simpl; [by rewrite cmp_refl|].
  destruct (cmp k x) eqn:E; simpl; rewrite ?cmp_refl, ?E; [done|done|by rewrite IH].
Qed.

Lemma adelete_None k l : alookup k l = None → adelete k l = l.
Proof.
  induction l as [|[x w] l IH]; simpl; [done|].
  destruct (cmp k x) eqn:E; [done|done|]. intros. f_equal. auto.
Qed.

(** ** Parallel arrays *)

Lemma zip_fst keys vals : length keys = length vals → (zip keys vals).*1 = keys.
Proof. intros. apply fst_zip. lia. Qed.

Lemma sorted_split_below keys vals k :
  length keys = length vals → (∀ x, x ∈ keys → x <ₖ k) → all_below (zip keys vals) k.
Proof. intros Hlen Hk x. rewrite zip_fst by done. auto. Qed.

Lemma sorted_split_above keys vals k :
  length keys = length vals → (∀ x, x ∈ keys → k <ₖ x) → all_above (zip keys vals) k.
Proof. intros Hlen Hk x. rewrite zip_fst by done. auto. Qed.

(** A found key cuts the arrays into what is below it, it, and what is above. *)
Lemma zip_split_found keys vals k i :
  sorted keys → length keys = length vals → keys !! i = Some k →
  ∃ w, vals !! i = Some w ∧
       zip keys vals = zip (take i keys) (take i vals) ++ [(k, w)] ++ zip (drop (S i) keys) (drop (S i) vals)
       ∧ all_below (zip (take i keys) (take i vals)) k
       ∧ all_above (zip (drop (S i) keys) (drop (S i) vals)) k.
Proof.
  intros Hs Hlen Hi. pose proof (lookup_lt_Some _ _ _ Hi) as Hlt.
  destruct (lookup_lt_is_Some_2 vals i) as [w Hw]; [lia|]. exists w. split; [done|].
  pose proof (take_drop_middle keys i k Hi) as Hk. rewrite <-Hk in Hs.
  apply sorted_app in Hs as (_ & [_ Hab]%sorted_cons & Hbe). split_and!.
  - rewrite <-Hk at 1. rewrite <-(take_drop_middle vals i w Hw) at 1.
    rewrite zip_with_app by (rewrite !length_take; lia). done.
  - apply sorted_split_below; [rewrite !length_take; lia|]. intros x Hx. apply Hbe; [done|by left].
  - apply sorted_split_above; [rewrite !length_drop; lia|done].
Qed.

(** A missing key cuts them at its insertion point. *)
Lemma zip_split_missing keys vals k i :
  sorted keys → length keys = length vals → binary_search k keys = inr i →
  (i ≤ length keys)%nat ∧
  zip keys vals = zip (take i keys) (take i vals) ++ [] ++ zip (drop i keys) (drop i vals)
  ∧ all_below (zip (take i keys) (take i vals)) k
  ∧ all_above (zip (drop i keys) (drop i vals)) k.
Proof.
  intros Hs Hlen Hb. pose proof (binary_search_inr _ _ _ Hs Hb) as Hni.
  apply binary_search_inr_pos in Hb. split_and!.
  - subst. apply partition_point_le.
  - rewrite <-(take_drop i keys) at 1. rewrite <-(take_drop i vals) at 1.
    by rewrite zip_with_app by (rewrite !length_take; lia).
  - apply sorted_split_below; [rewrite !length_take; lia|]. intros x. rewrite Hb.
    apply partition_point_take.
  - apply sorted_split_above; [rewrite !length_drop; lia|]. intros x Hx.
    assert (k ≤ₖ x) as Hle by (rewrite Hb in Hx; by eapply partition_point_drop).
    apply kle_lt_eq in Hle as [?| ->]; [done|]. destruct Hni.
    rewrite <-(take_drop i keys). apply elem_of_app. by right.
Qed.

Lemma alookup_zip keys vals k :
  sorted keys → length keys = length vals →
  alookup k (zip keys vals) = match binary_search k keys with inl i => vals !! i | inr _ => None end.
Proof.
  intros Hs Hlen. destruct (binary_search k keys) as [i|i] eqn:E.
  - apply binary_search_inl in E. destruct (zip_split_found keys vals k i Hs Hlen E) as (w & -> & -> & Hb & Ha).
    rewrite alookup_mid by done. simpl. by rewrite cmp_refl.
  - destruct (zip_split_missing keys vals k i Hs Hlen E) as (_ & -> & Hb & Ha).
    by rewrite alookup_mid by done.
Qed.

Lemma ainsert_zip_found keys vals k v i :
  sorted keys → length keys = length vals → keys !! i = Some k →
  ainsert k v (zip keys vals) = zip keys (<[i := v]> vals).
Proof.
  intros Hs Hlen E.
  destruct (zip_split_found keys vals k i Hs Hlen E) as (w & Hw & -> & Hb & Ha).
  rewrite ainsert_mid by done. simpl. rewrite cmp_refl.
  destruct (zip_split_found keys (<[i:=v]> vals) k i Hs) as (w' & Hw' & -> & _ & _);
    [by rewrite length_insert|done|].
  rewrite list_lookup_insert_eq in Hw' by by eapply lookup_lt_Some. simplify_eq.
  by rewrite take_insert_ge, drop_insert_lt by lia.
Qed.

Lemma ainsert_zip_missing keys vals k v i :
  sorted keys → length keys = length vals → binary_search k keys = inr i →
  ainsert k v (zip keys vals) = zip (take i keys ++ k :: drop i keys) (take i vals ++ v :: drop i vals).
Proof.
  intros Hs Hlen E. destruct (zip_split_missing keys vals k i Hs Hlen E) as (Hi & -> & Hb & Ha).
  rewrite ainsert_mid by done. rewrite zip_with_app by (rewrite !length_take; lia). done.
Qed.

Lemma adelete_zip_found keys vals k i :
  sorted keys → length keys = length vals → keys !! i = Some k →
  adelete k (zip keys vals) = zip (take i keys ++ drop (S i) keys) (take i vals ++ drop (S i) vals).
Proof.
  intros Hs Hlen E. destruct (zip_split_found keys vals k i Hs Hlen E) as (w & Hw & -> & Hb & Ha).
  rewrite adelete_mid by done. simpl. rewrite cmp_refl.
  by rewrite zip_with_app by (rewrite !length_take; lia).
Qed.
End assoc.
