(* ===== verification/CowMap.v ===== *)
(** * The copy-on-write ordered map

    Models [CowMap] of [crates/core-storage/src/cow.rs]: a B+tree of
    reference-counted nodes with at most [NODE_MAX] entries each.
    [Arc::make_mut] copies a shared node before writing to it, so a tree value
    never changes under another holder: nodes are immutable values here and an
    operation returns the new tree.

    A [None] at the outermost [option] of an operation is a panic (an index out
    of range, an [unreachable!], a failed [expect] or the fixed path array
    overflowing).  The abstract map is the sorted association list
    [entries]. *)

From S2P Require Import Prelude Order Assoc.

Definition NODE_MAX : nat := 32.
Definition MAX_DEPTH : nat := 32.

(** ** The search of the standard library

    [slice::partition_point] asks for a partitioned slice and leaves its answer
    on any other unspecified.  The bounds of an internal node are partitioned
    only from index 1 on (see [bounds_unsorted] below), so this is the standard
    library's own loop ([slice::binary_search_by]), and what it answers there
    is proved. *)

(** The halving loop: [base] and [size] delimit the part still searched. *)
Fixpoint search_loop {A} (p : A → bool) (l : list A) (fuel base size : nat) : nat :=
  match fuel with
  | O => base
  | S fuel =>
      if (size <=? 1)%nat then base
      else
        let half := (size / 2)%nat in
        let mid := (base + half)%nat in
        let base := match l !! mid with
                    | Some x => if p x then mid else base
                    | None => base
                    end in
        search_loop p l fuel base (size - half)
  end.

Definition std_partition_point {A} (p : A → bool) (l : list A) : nat :=
  match l with
  | [] => 0%nat
  | _ =>
      let base := search_loop p l (length l) 0 (length l) in
      match l !! base with
      | Some x => if p x then S base else base
      | None => base
      end
  end.

(** [f] applied to element [i] of a list; [None] out of range. *)
Definition at_index {A B} (f : A → B) : list A → nat → option B :=
  fix go l i :=
    match l, i with
    | [], _ => None
    | x :: _, O => Some (f x)
    | _ :: l, S i => go l i
    end.

Lemma at_index_lookup {A B} (f : A → B) l i : at_index f l i = f <$> l !! i.
Proof. revert i; induction l as [|x l IH]; intros [|i]; simpl; auto. Qed.

(** What the halving loop finds when [p] is false from some index on, index 0
    aside: the last index satisfying [p], or 0. *)
Lemma search_loop_spec {A} (p : A → bool) (l : list A) fuel base size :
  (∀ i j x y, (1 ≤ i ≤ j)%nat → l !! i = Some x → l !! j = Some y → p y = true → p x = true) →
  (1 ≤ size ≤ fuel)%nat → (base + size ≤ length l)%nat →
  (base = 0%nat ∨ ∃ x, l !! base = Some x ∧ p x = true) →
  (∀ j y, (base + size ≤ j)%nat → l !! j = Some y → p y = false) →
  let r := search_loop p l fuel base size in
  (r < length l)%nat ∧ (r = 0%nat ∨ ∃ x, l !! r = Some x ∧ p x = true)
  ∧ (∀ j y, (r < j)%nat → l !! j = Some y → p y = false).
Proof.
  intros Hmono. revert base size. induction fuel as [|fuel IH]; intros base size Hs Hl Hb Hf; [lia|].
  cbn [search_loop]. destruct (Nat.leb_spec size 1) as [H1|H1].
  { split_and!; [lia|done|]. intros j y Hj. apply Hf. lia. }
  pose proof (Nat.Div0.mul_div_le size 2) as Hhalf2.
  assert (1 ≤ size / 2 < size)%nat as Hhalf.
  { split; [apply (Nat.div_le_lower_bound size 2 1); lia|apply Nat.div_lt; lia]. }
  destruct (lookup_lt_is_Some_2 l (base + size / 2)) as [x Hx]; [lia|]. rewrite Hx.
  destruct (p x) eqn:Hp.
  - apply IH; [lia|lia|eauto|]. intros j y Hj. apply Hf. lia.
  - apply IH; [lia|lia|done|]. intros j y Hj Hy. destruct (p y) eqn:Hpy; [|done].
    rewrite (Hmono (base + size / 2)%nat j x y) in Hp; [done|lia|done..].
Qed.

Lemma lookup_insert_at {A} (l : list A) i x j :
  (i ≤ length l)%nat →
  (take i l ++ x :: drop i l) !! j =
  if decide (j < i)%nat then l !! j else if decide (j = i) then Some x else l !! pred j.
Proof.
  intros Hi. case_decide as Hj.
  - rewrite lookup_app_l by (rewrite length_take; lia). by rewrite lookup_take_lt.
  - rewrite lookup_app_r by (rewrite length_take; lia). rewrite length_take, Nat.min_l by lia.
    case_decide as He; [subst; by rewrite Nat.sub_diag|].
    destruct (j - i)%nat eqn:E; [lia|]. simpl. rewrite lookup_drop. f_equal. lia.
Qed.

Lemma lookup_remove_at {A} (l : list A) i j :
  (i < length l)%nat →
  (take i l ++ drop (S i) l) !! j = if decide (j < i)%nat then l !! j else l !! S j.
Proof.
  intros Hi. case_decide as Hj.
  - rewrite lookup_app_l by (rewrite length_take; lia). by rewrite lookup_take_lt.
  - rewrite lookup_app_r by (rewrite length_take; lia). rewrite length_take, Nat.min_l by lia.
    rewrite lookup_drop. f_equal. lia.
Qed.

Module CowMap.
Section cow_map.
Context {K V : Type} `{RustOrdLaws K}.

Inductive node : Type :=
| Leaf (keys : list K) (vals : list V)
| Internal (bounds : list K) (kids : list node).

Record t := mk { root : option node; len : nat }.

Definition new : t := mk None 0.
Definition is_empty (m : t) : bool := (len m =? 0)%nat.

(** [Node::is_empty] *)
Definition node_is_empty (n : node) : bool :=
  match n with
  | Leaf keys _ => bool_decide (keys = [])
  | Internal _ kids => match kids with [] => true | _ => false end
  end.

(** [Node::first_key] *)
Definition first_key (n : node) : option K :=
  match n with Leaf keys _ => head keys | Internal bounds _ => head bounds end.

(** [route] *)
Definition route (bounds : list K) (k : K) : nat :=
  (std_partition_point (λ bound, bool_decide (bound ≤ₖ k)) bounds - 1)%nat.

(** [v.split_off(at)]: what stays and what is split off. *)
Definition split_off {A} (l : list A) (i : nat) : option (list A * list A) :=
  if (i <=? length l)%nat then Some (take i l, drop i l) else None.

(** [insert_into]: the old value, the node split off to the right with its
    bound, and the node left. *)
Fixpoint insert_into (n : node) (k : K) (v : V) : option (option V * option (K * node) * node) :=
  match n with
  | Leaf keys vals =>
      match binary_search k keys with
      | inl i => old ← vals !! i; Some (Some old, None, Leaf keys (<[i := v]> vals))
      | inr i =>
          keys ← vec_insert i k keys;
          vals ← vec_insert i v vals;
          if (length keys <=? NODE_MAX)%nat then Some (None, None, Leaf keys vals)
          else
            let half := (length keys / 2)%nat in
            '(keys, rk) ← split_off keys half;
            '(vals, rv) ← split_off vals half;
            bound ← head rk;
            Some (None, Some (bound, Leaf rk rv), Leaf keys vals)
      end
  | Internal bounds kids =>
      let i := route bounds k in
      '(old, split, kid) ← mjoin (at_index (λ kid, insert_into kid k v) kids i);
      let kids := <[i := kid]> kids in
      '(bounds, kids) ← match split with
        | Some (bound, right_) =>
            bounds ← vec_insert (S i) bound bounds;
            kids ← vec_insert (S i) right_ kids;
            Some (bounds, kids)
        | None => Some (bounds, kids)
        end;
      if (length kids <=? NODE_MAX)%nat then Some (old, None, Internal bounds kids)
      else
        let half := (length kids / 2)%nat in
        '(bounds, rb) ← split_off bounds half;
        '(kids, rk) ← split_off kids half;
        bound ← head rb;
        Some (old, Some (bound, Internal rb rk), Internal bounds kids)
  end.

(** [CowMap::insert] *)
Definition insert (m : t) (k : K) (v : V) : option (option V * t) :=
  match root m with
  | None => Some (None, mk (Some (Leaf [k] [v])) 1)
  | Some root =>
      '(old, split, left_) ← insert_into root k v;
      root ← match split with
        | Some (bound, right_) =>
            first ← first_key left_;
            Some (Internal [first; bound] [left_; right_])
        | None => Some left_
        end;
      Some (old, mk (Some root) (match old with None => S (len m) | Some _ => len m end))
  end.

(** [CowMap::get]; the inner [option] is the answer. *)
Fixpoint node_get (n : node) (k : K) : option (option V) :=
  match n with
  | Leaf keys vals =>
      match binary_search k keys with
      | inl i => v ← vals !! i; Some (Some v)
      | inr _ => Some None
      end
  | Internal bounds kids => mjoin (at_index (λ kid, node_get kid k) kids (route bounds k))
  end.

Definition get (m : t) (k : K) : option (option V) :=
  match root m with None => Some None | Some root => node_get root k end.

(** [CowMap::contains_key] *)
Definition contains_key (m : t) (k : K) : option bool :=
  r ← get m k; Some (bool_decide (is_Some r)).

(** [CowMap::find]: the child indices from the root down and the position in
    the leaf.  [path.kids] has room for [MAX_DEPTH] of them; writing past it
    panics. *)
Fixpoint node_find (n : node) (k : K) (depth : nat) : option (option (list nat * nat)) :=
  match n with
  | Leaf keys _ =>
      match binary_search k keys with
      | inl i => Some (Some ([], i))
      | inr _ => Some None
      end
  | Internal bounds kids =>
      let i := route bounds k in
      if (depth <? MAX_DEPTH)%nat then
        r ← mjoin (at_index (λ kid, node_find kid k (S depth)) kids i);
        Some (match r with Some (path, pos) => Some (i :: path, pos) | None => None end)
      else None
  end.

Definition find (m : t) (k : K) : option (option (list nat * nat)) :=
  match root m with None => Some None | Some root => node_find root k 0 end.

(** The descent of [get_mut] along a path: the value there, and the node left
    when another is stored in its place. *)
Fixpoint node_at (n : node) (path : list nat) (pos : nat) {struct path} : option (V * (V → node)) :=
  match path, n with
  | [], Leaf keys vals => v ← vals !! pos; Some (v, λ v', Leaf keys (<[pos := v']> vals))
  | i :: path, Internal bounds kids =>
      kid ← kids !! i;
      '(v, store) ← node_at kid path pos;
      Some (v, λ v', Internal bounds (<[i := store v']> kids))
  | _, _ => None
  end.

(** [CowMap::get_mut]: the value borrowed, and the map after a write through
    the borrow. *)
Definition get_mut (m : t) (k : K) : option (option (V * (V → t))) :=
  r ← find m k;
  match r with
  | None => Some None
  | Some (path, pos) =>
      match root m with
      | None => Some None
      | Some root =>
          '(v, store) ← node_at root path pos;
          Some (Some (v, λ v', mk (Some (store v')) (len m)))
      end
  end.

(** [CowMap::get_or_insert_with] *)
Definition get_or_insert_with (m : t) (k : K) (d : V) : option (V * (V → t)) :=
  present ← contains_key m k;
  m ← (if present : bool then Some m else '(_, m) ← insert m k d; Some m);
  r ← get_mut m k;
  r.

(** [remove_at] *)
Fixpoint remove_at (n : node) (path : list nat) (pos : nat) {struct path} : option (V * node) :=
  match path, n with
  | [], Leaf keys vals =>
      '(_, keys) ← vec_remove pos keys;
      '(v, vals) ← vec_remove pos vals;
      Some (v, Leaf keys vals)
  | i :: path, Internal bounds kids =>
      kid ← kids !! i;
      '(old, kid) ← remove_at kid path pos;
      let kids := <[i := kid]> kids in
      if node_is_empty kid then
        '(_, kids) ← vec_remove i kids;
        '(_, bounds) ← vec_remove i bounds;
        Some (old, Internal bounds kids)
      else Some (old, Internal bounds kids)
  | [], Internal _ _ => None
  | _ :: _, Leaf keys vals =>
      '(_, keys) ← vec_remove pos keys;
      '(v, vals) ← vec_remove pos vals;
      Some (v, Leaf keys vals)
  end.

(** The loop at the end of [remove]: an emptied root goes, a root with one
    child hands over to it. *)
Fixpoint collapse (n : node) : option node :=
  match n with
  | Leaf keys vals => if bool_decide (keys = []) then None else Some n
  | Internal bounds kids =>
      match kids with
      | [] => None
      | [kid] => collapse kid
      | _ => Some n
      end
  end.

(** [CowMap::remove] *)
Definition remove (m : t) (k : K) : option (option V * t) :=
  r ← find m k;
  match r with
  | None => Some (None, m)
  | Some (path, pos) =>
      match root m with
      | None => Some (None, m)
      | Some root =>
          '(old, root) ← remove_at root path pos;
          Some (Some old, mk (collapse root) (pred (len m)))
      end
  end.

(** ** Invariant *)

(** The entries, in key order. *)
Fixpoint node_entries (n : node) : list (K * V) :=
  match n with
  | Leaf keys vals => zip keys vals
  | Internal _ kids => concat (map node_entries kids)
  end.

Definition entries (m : t) : list (K * V) :=
  match root m with None => [] | Some root => node_entries root end.

Definition within (lo hi : option K) (k : K) : Prop :=
  (∀ l, lo = Some l → l ≤ₖ k) ∧ (∀ h, hi = Some h → k <ₖ h).

(** The range of child [i]. *)
Definition kid_lo (lo : option K) (bounds : list K) (i : nat) : option K :=
  match i with O => lo | S _ => bounds !! i end.
Definition kid_hi (hi : option K) (bounds : list K) (i : nat) : option K :=
  match bounds !! S i with Some b => Some b | None => hi end.

Definition wf_kids (P : option K → option K → node → Prop) (lo hi : option K)
    (bounds : list K) (kids : list node) : Prop :=
  length bounds = length kids ∧ kids ≠ [] ∧
  ∀ i kid, kids !! i = Some kid → P (kid_lo lo bounds i) (kid_hi hi bounds i) kid.

(** A node of height [h] with keys from [lo] (included) to [hi] (excluded): the
    invariant the repository's own test walker asserts. *)
Fixpoint wf (h : nat) (lo hi : option K) (n : node) : Prop :=
  match h, n with
  | O, Leaf keys vals =>
      length keys = length vals ∧ keys ≠ [] ∧ (length keys ≤ NODE_MAX)%nat
      ∧ sorted keys ∧ ∀ k, k ∈ keys → within lo hi k
  | S h, Internal bounds kids =>
      (length kids ≤ NODE_MAX)%nat ∧ wf_kids (wf h) lo hi bounds kids
  | _, _ => False
  end.

Lemma wf_kids_one P lo hi b kid : wf_kids P lo hi [b] [kid] ↔ P lo hi kid.
Proof.
  split.
  - intros (_ & _ & Hk). apply (Hk 0%nat kid eq_refl).
  - intros Hk. split_and!; [done|done|]. intros [|i] kid' Hi; by simplify_eq/=.
Qed.

Lemma wf_kids_cons P lo hi b b2 bs kid kids :
  wf_kids P lo hi (b :: b2 :: bs) (kid :: kids) ↔
  P lo (Some b2) kid ∧ wf_kids P (Some b2) hi (b2 :: bs) kids.
Proof.
  split.
  - intros (Hl & _ & Hk). split; [apply (Hk 0%nat kid eq_refl)|]. split_and!.
    + simpl in *. lia.
    + intros ->. simpl in Hl. lia.
    + intros i kid' Hi. specialize (Hk (S i) kid' Hi). by destruct i.
  - intros (H1 & Hl & Hne & Hk). split_and!; [simpl in *; lia|done|].
    intros [|i] kid' Hi; simplify_eq/=; [done|]. specialize (Hk i kid' Hi). by destruct i.
Qed.

Lemma within_weaken lo hi lo' hi' k :
  within lo hi k → (∀ l, lo' = Some l → ∃ l', lo = Some l' ∧ l ≤ₖ l') →
  (∀ h, hi' = Some h → ∃ h', hi = Some h' ∧ h' ≤ₖ h) → within lo' hi' k.
Proof.
  intros [Hl Hh] Hlo Hhi. split.
  - intros l (l' & -> & Hle)%Hlo. eapply kle_trans; [done|auto].
  - intros h' (h'' & -> & Hle)%Hhi. eapply klt_kle_trans; [|done]. auto.
Qed.

(** A well-formed node is non-empty, sorted and within its range. *)
Lemma wf_entries h lo hi n :
  wf h lo hi n →
  node_entries n ≠ [] ∧ sorted (node_entries n).*1 ∧ ∀ x, x ∈ (node_entries n).*1 → within lo hi x.
Proof.
  revert lo hi n; induction h as [|h IH]; intros lo hi [keys vals|bounds kids]; simpl; try done.
  { intros (Hlen & Hne & _ & Hs & Hin). rewrite zip_fst by done. split_and!; [|done|done].
    destruct keys, vals; done. }
  intros [_ Hk]. revert lo bounds Hk. induction kids as [|kid kids IHk]; intros lo bounds Hk.
  { by destruct Hk as (_ & ? & _). }
  destruct bounds as [|b [|b2 bs]]; [by destruct Hk as (? & _)| |].
  - assert (kids = []) as -> by (destruct Hk as (Hl & _); destruct kids; [done|simpl in Hl; lia]).
    apply wf_kids_one in Hk. simpl. rewrite app_nil_r. by apply IH.
  - apply wf_kids_cons in Hk as [Hkid Hk].
    destruct (IH _ _ _ Hkid) as (Hne1 & Hs1 & Hin1). destruct (IHk _ _ Hk) as (Hne2 & Hs2 & Hin2).
    simpl. rewrite fmap_app. split_and!.
    + destruct (node_entries kid); done.
    + apply sorted_app. split_and!; [done|done|]. intros x y Hx Hy.
      eapply klt_kle_trans; [by apply Hin1|by apply Hin2].
    + intros x [Hx|Hx]%elem_of_app.
      * specialize (Hin1 x Hx). split; [apply Hin1|]. intros hi' ->.
        destruct (concat (map node_entries kids)) as [|[y v] rest] eqn:E2; [done|].
        specialize (Hin2 y ltac:(by left)). etrans; [by apply Hin1|].
        eapply kle_klt_trans; by apply Hin2.
      * specialize (Hin2 x Hx). split; [|apply Hin2]. intros lo' ->.
        destruct (node_entries kid) as [|[y v] rest] eqn:E; [done|].
        specialize (Hin1 y ltac:(by left)). apply klt_kle. eapply kle_klt_trans; [by apply Hin1|].
        eapply klt_kle_trans; [by apply Hin1|by apply Hin2].
Qed.

(** ** Routing *)

Lemma wf_kids_bounds h lo hi bounds kids i j bi bj :
  wf_kids (wf h) lo hi bounds kids → (1 ≤ i ≤ j)%nat →
  bounds !! i = Some bi → bounds !! j = Some bj → bi ≤ₖ bj.
Proof.
  intros (Hl & _ & Hk) [Hi Hij] Hbi. revert bj.
  induction Hij as [|j Hij IH]; intros bj Hbj; [simplify_eq; by apply kle_lt_eq; right|].
  destruct (lookup_lt_is_Some_2 bounds j) as [b Hb]; [apply lookup_lt_Some in Hbj; lia|].
  eapply kle_trans; [by apply IH|].
  destruct (lookup_lt_is_Some_2 kids j) as [kid Hkid]; [apply lookup_lt_Some in Hb; lia|].
  specialize (Hk j kid Hkid). unfold kid_lo, kid_hi in Hk. rewrite Hbj in Hk.
  destruct j as [|j]; [lia|]. rewrite Hb in Hk.
  destruct (wf_entries _ _ _ _ Hk) as (Hne & _ & Hin).
  destruct (node_entries kid) as [|[x v] rest]; [done|].
  destruct (Hin x ltac:(by left)) as [Hx1 Hx2].
  eapply kle_trans; [by apply Hx1|]. apply klt_kle. by apply Hx2.
Qed.

Lemma route_spec h lo hi bounds kids k :
  wf_kids (wf h) lo hi bounds kids →
  let i := route bounds k in
  (i < length kids)%nat ∧ (i = 0%nat ∨ ∃ b, bounds !! i = Some b ∧ b ≤ₖ k)
  ∧ (∀ j b, (i < j)%nat → bounds !! j = Some b → k <ₖ b).
Proof.
  intros Hk. pose proof Hk as (Hl & Hne & _).
  assert (1 ≤ length bounds)%nat as Hpos by (destruct kids; simpl in *; [done|lia]).
  destruct (search_loop_spec (λ bound, bool_decide (bound ≤ₖ k)) bounds (length bounds) 0 (length bounds))
    as (Hr1 & Hr2 & Hr3); [|lia|lia|by left| |].
  { intros i j x y Hij Hx Hy Hp%bool_decide_eq_true. apply bool_decide_eq_true.
    eapply kle_trans; [|done]. by eapply (wf_kids_bounds h lo hi bounds kids i j). }
  { intros j y Hj Hy%lookup_lt_Some. lia. }
  unfold route, std_partition_point.
  set (r := search_loop _ _ _ _ _) in *.
  assert (∀ j b, (r < j)%nat → bounds !! j = Some b → k <ₖ b) as Hr3'.
  { intros j b Hj Hb. specialize (Hr3 j b Hj Hb). by apply bool_decide_eq_false, not_kle in Hr3. }
  destruct bounds as [|b0 bounds]; [simpl in Hpos; lia|].
  destruct (lookup_lt_is_Some_2 (b0 :: bounds) r Hr1) as [x Hx]. rewrite Hx.
  assert ((if bool_decide (x ≤ₖ k) then S r else r) - 1 = r)%nat as ->.
  { destruct Hr2 as [->|(x' & Hx' & Hp)]; [by case_bool_decide|].
    rewrite Hx in Hx'. simplify_eq. rewrite Hp. lia. }
  split_and!; [lia| |done]. destruct Hr2 as [->|(x' & Hx' & Hp)]; [by left|right].
  exists x'. split; [done|]. by apply bool_decide_eq_true in Hp.
Qed.

Definition kids_entries (kids : list node) : list (K * V) := concat (map node_entries kids).

Lemma kids_entries_app l1 l2 : kids_entries (l1 ++ l2) = kids_entries l1 ++ kids_entries l2.
Proof. unfold kids_entries. by rewrite map_app, concat_app. Qed.

Lemma kids_entries_cons kid l : kids_entries (kid :: l) = node_entries kid ++ kids_entries l.
Proof. done. Qed.

Lemma elem_of_kids_entries p kids :
  p ∈ (kids_entries kids).*1 ↔ ∃ i kid, kids !! i = Some kid ∧ p ∈ (node_entries kid).*1.
Proof.
  induction kids as [|kid kids IH].
  - simpl. split; [set_solver|]. intros (i & kid & ? & _). by rewrite lookup_nil in *.
  - rewrite kids_entries_cons, fmap_app, elem_of_app, IH. split.
    + intros [?|(i & kid' & ? & ?)]; [by exists 0%nat, kid|by exists (S i), kid'].
    + intros ([|i] & kid' & ? & ?); simplify_eq/=; [by left|right; eauto].
Qed.

(** The child [k] routes to holds [k]'s place: everything left of it is below
    [k], everything right of it above. *)
Lemma route_split h lo hi bounds kids k :
  wf_kids (wf h) lo hi bounds kids → within lo hi k →
  let i := route bounds k in
  ∃ kid, kids !! i = Some kid ∧ wf h (kid_lo lo bounds i) (kid_hi hi bounds i) kid
    ∧ within (kid_lo lo bounds i) (kid_hi hi bounds i) k
    ∧ all_below (kids_entries (take i kids)) k ∧ all_above (kids_entries (drop (S i) kids)) k.
Proof.
  intros Hk Hw. destruct (route_spec h lo hi bounds kids k Hk) as (Hi & Hlo & Hhi).
  set (i := route bounds k) in *. pose proof Hk as (Hl & _ & Hkid).
  destruct (lookup_lt_is_Some_2 kids i Hi) as [kid Hkd]. exists kid.
  split_and!; [done|by apply Hkid| | |].
  - split.
    + unfold kid_lo. intros l. destruct i as [|i]; [apply Hw|].
      destruct Hlo as [?|(b & Hb & ?)]; [done|]. rewrite Hb. by intros [= ->].
    + unfold kid_hi. intros hh. destruct (bounds !! S i) eqn:Hb; [|apply Hw].
      intros [= ->]. eapply Hhi; [|done]. lia.
  - intros x (j & kid' & Hj & Hx)%elem_of_kids_entries.
    apply lookup_take_Some in Hj as [Hj Hlt]. specialize (Hkid j kid' Hj).
    destruct (wf_entries _ _ _ _ Hkid) as (_ & _ & Hin). specialize (Hin x Hx) as [_ Hx2].
    destruct Hlo as [?|(b & Hb & Hle)]; [lia|].
    destruct (lookup_lt_is_Some_2 bounds (S j)) as [b' Hb']; [apply lookup_lt_Some in Hb; lia|].
    eapply klt_kle_trans; [apply Hx2; unfold kid_hi; by rewrite Hb'|].
    eapply kle_trans; [|done]. eapply (wf_kids_bounds h lo hi bounds kids (S j) i); [done|lia|done..].
  - intros x (j & kid' & Hj & Hx)%elem_of_kids_entries. rewrite lookup_drop in Hj.
    specialize (Hkid _ kid' Hj). destruct (wf_entries _ _ _ _ Hkid) as (_ & _ & Hin).
    specialize (Hin x Hx) as [Hx1 _].
    destruct (lookup_lt_is_Some_2 bounds (S i + j)) as [b Hb]; [apply lookup_lt_Some in Hj; lia|].
    eapply klt_kle_trans; [eapply Hhi; [|done]; lia|]. by apply Hx1.
Qed.

Lemma kids_entries_split kids i kid :
  kids !! i = Some kid →
  kids_entries kids = kids_entries (take i kids) ++ node_entries kid ++ kids_entries (drop (S i) kids).
Proof.
  intros Hi. rewrite <-(take_drop_middle kids i kid Hi) at 1. by rewrite kids_entries_app.
Qed.

(** ** Reading *)

Lemma node_get_spec h lo hi n k :
  wf h lo hi n → within lo hi k → node_get n k = Some (alookup k (node_entries n)).
Proof.
  revert lo hi n; induction h as [|h IH]; intros lo hi [keys vals|bounds kids]; simpl; try done.
  - intros (Hlen & _ & _ & Hs & _) _. rewrite alookup_zip by done.
    destruct (binary_search k keys) as [i|i] eqn:E; [|done].
    apply binary_search_inl, lookup_lt_Some in E.
    destruct (lookup_lt_is_Some_2 vals i) as [v ->]; [lia|done].
  - intros [_ Hk] Hw. destruct (route_split h lo hi bounds kids k Hk Hw) as (kid & Hi & Hkid & Hkw & Hb & Ha).
    rewrite at_index_lookup, Hi. simpl. rewrite (IH _ _ _ Hkid Hkw). f_equal.
    change (concat (map node_entries kids)) with (kids_entries kids).
    rewrite (kids_entries_split kids _ kid Hi). by rewrite alookup_mid.
Qed.

(** ** Inserting *)

Lemma wf_kids_update P lo hi bounds kids i kid :
  wf_kids P lo hi bounds kids → P (kid_lo lo bounds i) (kid_hi hi bounds i) kid →
  wf_kids P lo hi bounds (<[i := kid]> kids).
Proof.
  intros (Hl & Hne & Hk) Hkid. split_and!.
  - by rewrite length_insert.
  - intros E. apply Hne, length_zero_iff_nil. by rewrite <-(length_insert kids i kid), E.
  - intros j kid' Hj. apply list_lookup_insert_Some in Hj as [(-> & -> & _)|[_ Hj]]; auto.
Qed.

Lemma wf_kids_insert P lo hi bounds kids i b left_ right_ :
  wf_kids P lo hi bounds kids → (i < length kids)%nat →
  P (kid_lo lo bounds i) (Some b) left_ → P (Some b) (kid_hi hi bounds i) right_ →
  wf_kids P lo hi (take (S i) bounds ++ b :: drop (S i) bounds)
    (take (S i) (<[i := left_]> kids) ++ right_ :: drop (S i) (<[i := left_]> kids)).
Proof.
  intros (Hl & Hne & Hk) Hi Hleft Hright. split_and!.
  - rewrite !length_app. simpl. rewrite !length_take, !length_drop, length_insert. lia.
  - intros E%(f_equal length). rewrite length_app in E. simpl in E. lia.
  - intros j kid. unfold kid_lo, kid_hi. rewrite !lookup_insert_at by (rewrite ?length_insert; lia).
    destruct (decide (j < S i)%nat) as [Hj|Hj].
    + intros Hkid. destruct (decide (S j < S i)%nat) as [Hj2|Hj2].
      * rewrite list_lookup_insert_ne in Hkid by lia.
        specialize (Hk j kid Hkid). unfold kid_lo, kid_hi in Hk. by destruct j.
      * assert (j = i) as -> by lia. rewrite list_lookup_insert_eq in Hkid by lia. simplify_eq.
        rewrite decide_True by done. unfold kid_lo in Hleft. by destruct i.
    + rewrite (decide_False (P := (S j < S i)%nat)) by lia.
      rewrite (decide_False (P := (S j = S i)%nat)) by lia. simpl pred.
      case_decide as Hji.
      * intros [= <-]. subst j. done.
      * rewrite list_lookup_insert_ne by lia. intros Hkid. specialize (Hk (pred j) kid Hkid).
        unfold kid_lo, kid_hi in Hk. destruct j as [|[|j]]; [lia|lia|]. done.
Qed.

Lemma wf_kids_split_off P lo hi bounds kids half b :
  wf_kids P lo hi bounds kids → (0 < half < length kids)%nat → bounds !! half = Some b →
  wf_kids P lo (Some b) (take half bounds) (take half kids)
  ∧ wf_kids P (Some b) hi (drop half bounds) (drop half kids).
Proof.
  intros (Hl & Hne & Hk) Hh Hb. split; split_and!.
  - rewrite !length_take. lia.
  - intros E%(f_equal length). rewrite length_take in E. simpl in E. lia.
  - intros j kid [Hj Hlt]%lookup_take_Some. specialize (Hk j kid Hj). unfold kid_lo, kid_hi in *.
    destruct (decide (S j < half)%nat).
    + rewrite !lookup_take_lt by lia.
      destruct (lookup_lt_is_Some_2 bounds (S j)) as [b' Hb']; [lia|]. rewrite Hb' in *. by destruct j.
    + assert (S j = half) as Hjh by lia. rewrite Hjh in *. rewrite Hb in Hk.
      rewrite (lookup_take_ge bounds half half) by lia.
      destruct j; [done|]. by rewrite lookup_take_lt by lia.
  - rewrite !length_drop. lia.
  - intros E%(f_equal length). rewrite length_drop in E. simpl in E. lia.
  - intros j kid. rewrite lookup_drop. intros Hj. specialize (Hk _ kid Hj). unfold kid_lo, kid_hi in *.
    rewrite !lookup_drop. replace (half + S j)%nat with (S (half + j)) by lia.
    destruct (half + j)%nat eqn:E; [lia|]. destruct j; [|done].
    replace half with (S n) in Hb by lia. by rewrite Hb in Hk.
Qed.

Lemma split_off_take {A} (l : list A) i : (i ≤ length l)%nat → split_off l i = Some (take i l, drop i l).
Proof. intros Hi. unfold split_off. by rewrite (proj2 (Nat.leb_le _ _) Hi). Qed.

Lemma vec_insert_take {A} (l : list A) i x :
  (i ≤ length l)%nat → vec_insert i x l = Some (take i l ++ x :: drop i l).
Proof. intros Hi. unfold vec_insert. by rewrite (proj2 (Nat.leb_le _ _) Hi). Qed.

(** What [insert_into] promises of a node of height [h] with range [lo], [hi]. *)
Definition inserted (h : nat) (lo hi : option K) (es : list (K * V))
    (split : option (K * node)) (n' : node) : Prop :=
  match split with
  | None => wf h lo hi n' ∧ node_entries n' = es
  | Some (b, right_) =>
      wf h lo (Some b) n' ∧ wf h (Some b) hi right_ ∧ node_entries n' ++ node_entries right_ = es
  end.

Lemma insert_leaf_spec lo hi keys vals k v i :
  wf 0 lo hi (Leaf keys vals) → within lo hi k → binary_search k keys = inr i →
  ∃ split n', insert_into (Leaf keys vals) k v = Some (None, split, n')
              ∧ inserted 0 lo hi (ainsert k v (zip keys vals)) split n'.
Proof.
  intros (Hlen & Hne & Hmax & Hs & Hin) Hw E. cbn [insert_into]. rewrite E.
  pose proof (zip_split_missing keys vals k i Hs Hlen E) as (Hi & _).
  rewrite !vec_insert_take by lia. cbn [mbind option_bind].
  pose proof (ainsert_zip_missing keys vals k v i Hs Hlen E) as Hz.
  pose proof (ainsert_sorted k v (zip keys vals)) as Hs'. rewrite zip_fst in Hs' by done.
  specialize (Hs' Hs). rewrite Hz in Hs'.
  set (keys' := take i keys ++ k :: drop i keys) in *. set (vals' := take i vals ++ v :: drop i vals) in *.
  assert (length keys' = S (length keys)) as Hlk
    by (unfold keys'; rewrite length_app; simpl; rewrite length_take, length_drop; lia).
  assert (length vals' = S (length vals)) as Hlv
    by (unfold vals'; rewrite length_app; simpl; rewrite length_take, length_drop; lia).
  rewrite zip_fst in Hs' by lia.
  assert (∀ x, x ∈ keys' → within lo hi x) as Hin'.
  { intros x. unfold keys'. rewrite elem_of_app, elem_of_cons. intros [Hx|[->|Hx]]; [|done|].
    - apply Hin. rewrite <-(take_drop i keys). set_solver.
    - apply Hin. rewrite <-(take_drop i keys). set_solver. }
  destruct (Nat.leb_spec (length keys') NODE_MAX) as [Hw'|Hw'].
  { eexists None, _. split; [done|]. split; [|done]. split_and!; [lia|by destruct keys'|done..]. }
  set (half := (length keys' / 2)%nat).
  assert (1 ≤ half ∧ half < length keys' ∧ half ≤ NODE_MAX ∧ length keys' - half ≤ NODE_MAX)%nat as Hhalf.
  { unfold half, NODE_MAX in *. assert (length keys' = 33)%nat as -> by lia.
    change (33 / 2)%nat with 16%nat. lia. }
  rewrite !split_off_take by lia. cbn [mbind option_bind].
  destruct (drop half keys') as [|b rk] eqn:Hd.
  { apply (f_equal length) in Hd. rewrite length_drop in Hd. simpl in Hd. lia. }
  cbn [head mbind option_bind]. eexists (Some (b, _)), _. split; [done|].
  rewrite <-(take_drop half keys'), Hd in Hs'.
  apply sorted_app in Hs' as (Hs1 & Hs2 & Hlt). pose proof Hs2 as [_ Hb]%sorted_cons.
  assert (length (b :: rk) = length keys' - half)%nat as Hrk by (rewrite <-Hd; apply length_drop).
  split; [|split].
  - split_and!; [rewrite !length_take; lia| |rewrite length_take; lia|done|].
    + intros E0%(f_equal length). rewrite length_take in E0. simpl in E0. lia.
    + intros x Hx. split; [apply Hin'; rewrite <-(take_drop half keys'); set_solver|].
      intros h' [= <-]. apply Hlt; [done|by left].
  - split_and!; [rewrite length_drop; lia|done|lia|done|].
    intros x Hx. split; [|apply Hin'; rewrite <-(take_drop half keys'), Hd; set_solver].
    intros l [= <-]. apply kle_lt_eq. apply elem_of_cons in Hx as [->|Hx]; [by right|left; auto].
  - rewrite Hz, <-Hd. cbn [node_entries].
    rewrite <-zip_with_app by (rewrite !length_take; lia). by rewrite !take_drop.
Qed.

Lemma insert_into_spec h lo hi n k v :
  wf h lo hi n → within lo hi k →
  ∃ split n', insert_into n k v = Some (alookup k (node_entries n), split, n')
              ∧ inserted h lo hi (ainsert k v (node_entries n)) split n'.
Proof.
  revert lo hi n; induction h as [|h IH]; intros lo hi [keys vals|bounds kids] Hwf Hw; try done.
  { pose proof Hwf as (Hlen & Hne & Hmax & Hs & Hin). cbn [node_entries].
    rewrite alookup_zip by done. destruct (binary_search k keys) as [i|i] eqn:E.
    - apply binary_search_inl in E as Hi. pose proof (lookup_lt_Some _ _ _ Hi) as Hlt.
      destruct (lookup_lt_is_Some_2 vals i) as [old Hold]; [lia|].
      cbn [insert_into]. rewrite E, Hold. eexists None, _. split; [done|]. split.
      + split_and!; [by rewrite length_insert|done..].
      + symmetry. by apply ainsert_zip_found.
    - by apply insert_leaf_spec with (i := i). }
  destruct Hwf as [Hmax Hk]. cbn [insert_into node_entries].
  change (concat (map node_entries kids)) with (kids_entries kids).
  destruct (route_split h lo hi bounds kids k Hk Hw) as (kid & Hi & Hkid & Hkw & Hb & Ha).
  set (i := route bounds k) in *. rewrite at_index_lookup, Hi.
  destruct (IH _ _ kid Hkid Hkw) as (split0 & kid' & Hins & Hres).
  cbn [fmap option_fmap option_map mjoin option_join]. rewrite Hins. cbn [mbind option_bind].
  pose proof (lookup_lt_Some _ _ _ Hi) as Hilt. pose proof Hk as (Hl & _ & _).
  rewrite (kids_entries_split kids i kid Hi), alookup_mid, ainsert_mid by done.
  assert (∃ bounds2 kids2,
    match split0 with
    | Some (bound, right_) =>
        bounds ← vec_insert (S i) bound bounds; kids ← vec_insert (S i) right_ (<[i:=kid']> kids);
        Some (bounds, kids)
    | None => Some (bounds, <[i:=kid']> kids)
    end = Some (bounds2, kids2) ∧ wf_kids (wf h) lo hi bounds2 kids2 ∧ (length kids2 ≤ S NODE_MAX)%nat ∧
    kids_entries kids2 = kids_entries (take i kids) ++ ainsert k v (node_entries kid)
                           ++ kids_entries (drop (S i) kids)) as (bounds2 & kids2 & -> & Hk2 & Hlen2 & Hent).
  { destruct split0 as [[b right_]|].
    - destruct Hres as (Hw1 & Hw2 & He). rewrite !vec_insert_take by (rewrite ?length_insert; lia).
      eexists _, _. split; [done|]. split_and!.
      + by apply wf_kids_insert.
      + rewrite length_app. simpl. rewrite length_take, length_drop, length_insert. lia.
      + rewrite kids_entries_app, kids_entries_cons, drop_insert_lt by lia.
        rewrite (take_S_r _ i kid') by (rewrite list_lookup_insert_eq; [done|lia]).
        rewrite take_insert_ge, kids_entries_app by lia. cbn [kids_entries map concat].
        unfold kids_entries at 2. cbn [map concat]. rewrite app_nil_r, <-!app_assoc, <-He.
        by rewrite <-app_assoc.
    - destruct Hres as (Hw1 & He). eexists _, _. split; [done|]. split_and!.
      + by apply wf_kids_update.
      + rewrite length_insert. lia.
      + rewrite (kids_entries_split _ i kid') by (rewrite list_lookup_insert_eq; [done|lia]).
        by rewrite take_insert_ge, drop_insert_lt, He by lia. }
  cbn [mbind option_bind]. destruct (Nat.leb_spec (length kids2) NODE_MAX) as [Hm|Hm].
  { eexists None, _. split; [done|]. done. }
  pose proof Hk2 as (Hl2 & _ & _). set (half := (length kids2 / 2)%nat).
  assert (1 ≤ half ∧ half < length kids2 ∧ half ≤ NODE_MAX ∧ length kids2 - half ≤ NODE_MAX)%nat as Hhalf.
  { unfold half, NODE_MAX in *. assert (length kids2 = 33)%nat as -> by lia.
    change (33 / 2)%nat with 16%nat. lia. }
  destruct (lookup_lt_is_Some_2 bounds2 half) as [b Hbh]; [lia|].
  destruct (wf_kids_split_off (wf h) lo hi bounds2 kids2 half b Hk2) as [Hk3 Hk4]; [lia|done|].
  rewrite !split_off_take by lia. cbn [mbind option_bind].
  assert (head (drop half bounds2) = Some b) as -> by by rewrite head_lookup, lookup_drop, Nat.add_0_r.
  cbn [mbind option_bind]. eexists (Some (b, _)), _. split; [done|]. split; [|split].
  - split; [rewrite length_take; lia|done].
  - split; [rewrite length_drop; lia|done].
  - cbn [node_entries]. change (kids_entries (take half kids2) ++ kids_entries (drop half kids2) =
      kids_entries (take i kids) ++ ainsert k v (node_entries kid) ++ kids_entries (drop (S i) kids)).
    by rewrite <-kids_entries_app, take_drop.
Qed.

(** ** Updating and removing along a path *)

(** [lo'] is no higher than [lo], [hi'] no lower than [hi]. *)
Definition wider (lo hi lo' hi' : option K) : Prop :=
  (∀ l, lo' = Some l → ∃ l', lo = Some l' ∧ l ≤ₖ l')
  ∧ (∀ h, hi' = Some h → ∃ h', hi = Some h' ∧ h' ≤ₖ h).

Lemma kle_refl_k (k : K) : k ≤ₖ k.
Proof. apply kle_lt_eq. by right. Qed.

Lemma wf_weaken h lo hi lo' hi' n : wf h lo hi n → wider lo hi lo' hi' → wf h lo' hi' n.
Proof.
  revert lo hi lo' hi' n; induction h as [|h IH]; intros lo hi lo' hi' [keys vals|bounds kids]; simpl; try done.
  - intros (? & ? & ? & ? & Hin) [Hlo Hhi]. split_and!; [done..|]. intros k Hk.
    eapply within_weaken; eauto.
  - intros [? (Hl & Hne & Hk)] [Hlo Hhi]. split; [done|]. split_and!; [done..|].
    intros i kid Hi. eapply IH; [by apply Hk|]. unfold kid_lo, kid_hi. split.
    + destruct i; [done|]. intros l ->. exists l. split; [done|]. apply kle_refl_k.
    + intros x. destruct (bounds !! S i); [|apply Hhi]. intros [= ->]. exists x.
      split; [done|]. apply kle_refl_k.
Qed.

(** Every well-formed node has a key within its range. *)
Lemma wf_some_key h lo hi n : wf h lo hi n → ∃ x, within lo hi x.
Proof.
  intros Hwf. destruct (wf_entries _ _ _ _ Hwf) as (Hne & _ & Hin).
  destruct (node_entries n) as [|[x v] rest]; [done|]. exists x. apply Hin. by left.
Qed.

Lemma wf_kids_remove h lo hi bounds kids i :
  wf_kids (wf h) lo hi bounds kids → (i < length kids)%nat → (2 ≤ length kids)%nat →
  wf_kids (wf h) lo hi (take i bounds ++ drop (S i) bounds) (take i kids ++ drop (S i) kids).
Proof.
  intros (Hl & Hne & Hk) Hi H2. split_and!.
  - rewrite !length_app, !length_take, !length_drop. lia.
  - intros E%(f_equal length). rewrite length_app, length_take, length_drop in E. simpl in E. lia.
  - intros j kid. rewrite lookup_remove_at by lia.
    destruct (lookup_lt_is_Some_2 kids i Hi) as [kid0 Hkid0].
    destruct (wf_some_key _ _ _ _ (Hk i kid0 Hkid0)) as (x & Hx1 & Hx2).
    destruct (decide (j < i)%nat) as [Hj|Hj]; intros Hkid; (eapply wf_weaken; [by apply Hk|]);
      unfold kid_lo, kid_hi in *; rewrite !lookup_remove_at by lia.
    + rewrite (decide_True (P := (j < i)%nat)) by done. split.
      { destruct j; intros l ->; exists l; (split; [done|apply kle_refl_k]). }
      intros y Hy. destruct (lookup_lt_is_Some_2 bounds (S j)) as [bj Hbj]; [lia|]. rewrite Hbj.
      exists bj. split; [done|]. destruct (decide (S j < i)%nat).
      * rewrite Hbj in Hy. simplify_eq. apply kle_refl_k.
      * assert (S j = i) as <- by lia. rewrite Hbj in Hx1.
        eapply kle_trans; [by apply Hx1|]. by apply klt_kle, Hx2.
    + rewrite (decide_False (P := (j < i)%nat)) by done.
      rewrite (decide_False (P := (S j < i)%nat)) by lia. split.
      { destruct j as [|j].
        - intros l ->. assert (i = 0%nat) as -> by lia. simpl in Hx1.
          destruct (lookup_lt_is_Some_2 bounds 1) as [b1 Hb1]; [lia|]. exists b1. split; [done|].
          rewrite Hb1 in Hx2. eapply kle_trans; [by apply Hx1|]. by apply klt_kle, Hx2.
        - intros l ->. exists l. split; [done|apply kle_refl_k]. }
      intros y Hy. exists y. split; [done|apply kle_refl_k].
Qed.

(** What a removal promises: the node is emptied, or still well formed. *)
Definition removed (h : nat) (lo hi : option K) (es : list (K * V)) (n' : node) : Prop :=
  node_entries n' = es ∧ (if node_is_empty n' then es = [] else wf h lo hi n').

(** What [find] promises of the path it returns: [get_mut]'s descent reaches the
    value and stores through it, and [remove_at] removes the entry. *)
Definition found_at (h : nat) (lo hi : option K) (n : node) (k : K) (v : V) (path : list nat) (pos : nat) : Prop :=
  (∃ store, node_at n path pos = Some (v, store) ∧
     ∀ v', wf h lo hi (store v') ∧ node_entries (store v') = ainsert k v' (node_entries n)) ∧
  (∃ n', remove_at n path pos = Some (v, n') ∧ removed h lo hi (adelete k (node_entries n)) n').

Lemma found_leaf lo hi keys vals k i :
  wf 0 lo hi (Leaf keys vals) → binary_search k keys = inl i →
  ∃ v, alookup k (zip keys vals) = Some v ∧ found_at 0 lo hi (Leaf keys vals) k v [] i.
Proof.
  intros (Hlen & Hne & Hmax & Hs & Hin) E.
  rewrite alookup_zip, E by done. apply binary_search_inl in E.
  pose proof (lookup_lt_Some _ _ _ E) as Hlt.
  destruct (lookup_lt_is_Some_2 vals i) as [v Hv]; [lia|]. exists v. split; [done|]. split.
  - cbn [node_at]. rewrite Hv. eexists. split; [done|]. intros v'. split.
    + split_and!; [by rewrite length_insert|done..].
    + symmetry. by apply ainsert_zip_found.
  - cbn [remove_at]. unfold vec_remove. rewrite E, Hv. eexists. split; [done|].
    cbn [node_entries]. unfold removed. cbn [node_entries node_is_empty].
    rewrite (adelete_zip_found keys vals k i) by done. split; [done|].
    assert (length (take i keys ++ drop (S i) keys) = pred (length keys)) as Hlk
      by (rewrite length_app, length_take, length_drop; lia).
    case_bool_decide as He; [by rewrite He|].
    assert (sorted (take i keys ++ drop (S i) keys)) as Hs'.
    { rewrite <-(take_drop_middle keys i k E) in Hs.
      apply sorted_app in Hs as (H1 & [H2 _]%sorted_cons & H3). apply sorted_app. split_and!; [done..|].
      intros x y Hx Hy. apply H3; [done|by right]. }
    split_and!; [|done|lia|done|].
    + rewrite Hlk, length_app, length_take, length_drop. lia.
    + intros x Hx. apply Hin. rewrite <-(take_drop_middle keys i k E).
      apply elem_of_app in Hx as [?|?]; apply elem_of_app; [by left|right; by right].
Qed.

Lemma found_step h lo hi bounds kids k v i kid path pos :
  (length kids ≤ NODE_MAX)%nat → wf_kids (wf h) lo hi bounds kids →
  kids !! i = Some kid →
  all_below (kids_entries (take i kids)) k → all_above (kids_entries (drop (S i) kids)) k →
  found_at h (kid_lo lo bounds i) (kid_hi hi bounds i) kid k v path pos →
  found_at (S h) lo hi (Internal bounds kids) k v (i :: path) pos.
Proof.
  intros Hmax Hk Hi Hb Ha [(store & Hat & Hst) (kid' & Hrem & Hents & Hwf')].
  pose proof (lookup_lt_Some _ _ _ Hi) as Hilt. pose proof Hk as (Hl & _ & _). split.
  - cbn [node_at]. rewrite Hi. cbn [mbind option_bind]. rewrite Hat. eexists. split; [done|].
    intros v'. destruct (Hst v') as [Hw He]. split.
    + split; [by rewrite length_insert|]. by apply wf_kids_update.
    + change (kids_entries (<[i:=store v']> kids) = ainsert k v' (kids_entries kids)).
      rewrite (kids_entries_split kids i kid Hi), ainsert_mid by done.
      rewrite (kids_entries_split _ i (store v')) by (rewrite list_lookup_insert_eq; [done|lia]).
      by rewrite take_insert_ge, drop_insert_lt, He by lia.
  - cbn [remove_at]. rewrite Hi. cbn [mbind option_bind]. rewrite Hrem. cbn [mbind option_bind].
    unfold removed. cbn [node_entries].
    change (concat (map node_entries kids)) with (kids_entries kids).
    rewrite (kids_entries_split kids i kid Hi), adelete_mid by done.
    destruct (node_is_empty kid') eqn:Hem.
    + destruct (lookup_lt_is_Some_2 bounds i) as [b Hbi]; [lia|].
      unfold vec_remove. rewrite list_lookup_insert_eq by lia. cbn [mbind option_bind]. rewrite Hbi.
      eexists. split; [done|]. cbn [node_entries].
      rewrite take_insert_ge, drop_insert_lt, Hwf' by lia.
      change (concat (map node_entries ?l)) with (kids_entries l). rewrite kids_entries_app.
      split; [done|]. cbn [node_is_empty].
      destruct (take i kids ++ drop (S i) kids) as [|kd kds] eqn:Hrest.
      * apply app_eq_nil in Hrest as [-> ->]. done.
      * rewrite <-Hrest. split.
        -- rewrite length_app, length_take, length_drop. lia.
        -- apply wf_kids_remove; [done|done|]. apply (f_equal length) in Hrest.
           rewrite length_app, length_take, length_drop in Hrest. simpl in Hrest. lia.
    + eexists. split; [done|]. cbn [node_entries node_is_empty].
      change (concat (map node_entries ?l)) with (kids_entries l).
      rewrite (kids_entries_split _ i kid') by (rewrite list_lookup_insert_eq; [done|lia]).
      rewrite take_insert_ge, drop_insert_lt, Hents by lia. split; [done|].
      destruct (<[i:=kid']> kids) as [|kd kds] eqn:E.
      { apply (f_equal length) in E. rewrite length_insert in E. simpl in E. lia. }
      rewrite <-E. split; [by rewrite length_insert|]. by apply wf_kids_update.
Qed.

Lemma node_find_spec h lo hi n k depth :
  wf h lo hi n → within lo hi k → (depth + h ≤ MAX_DEPTH)%nat →
  (alookup k (node_entries n) = None ∧ node_find n k depth = Some None) ∨
  (∃ v path pos, alookup k (node_entries n) = Some v ∧ node_find n k depth = Some (Some (path, pos))
                 ∧ found_at h lo hi n k v path pos).
Proof.
  revert lo hi n depth; induction h as [|h IH]; intros lo hi [keys vals|bounds kids] depth Hwf Hw Hd; try done.
  - cbn [node_find node_entries]. destruct (binary_search k keys) as [i|i] eqn:E.
    + right. destruct (found_leaf lo hi keys vals k i Hwf E) as (v & ? & ?). by exists v, [], i.
    + left. destruct Hwf as (Hlen & _ & _ & Hs & _). by rewrite alookup_zip, E.
  - destruct Hwf as [Hmax Hk]. cbn [node_find node_entries].
    change (concat (map node_entries kids)) with (kids_entries kids).
    destruct (route_split h lo hi bounds kids k Hk Hw) as (kid & Hi & Hkid & Hkw & Hb & Ha).
    rewrite (proj2 (Nat.ltb_lt depth MAX_DEPTH)) by lia. rewrite at_index_lookup, Hi.
    cbn [fmap option_fmap option_map mjoin option_join].
    rewrite (kids_entries_split kids _ kid Hi), alookup_mid by done.
    destruct (IH _ _ kid (S depth) Hkid Hkw) as [[-> ->]|(v & path & pos & -> & -> & Hf)]; [lia|by left|].
    right. eexists v, _, pos. split; [done|]. split; [done|]. by eapply found_step.
Qed.

Lemma collapse_spec h n :
  wf h None None n →
  ∃ n' h', collapse n = Some n' ∧ wf h' None None n' ∧ node_entries n' = node_entries n ∧ (h' ≤ h)%nat.
Proof.
  revert n; induction h as [|h IH]; intros [keys vals|bounds kids] Hwf; try done.
  - exists (Leaf keys vals), 0%nat. split; [|done]. cbn [collapse].
    rewrite bool_decide_eq_false_2; [done|apply Hwf].
  - destruct kids as [|kid [|kid2 kids]]; cbn [collapse].
    + by destruct Hwf as [_ (_ & ? & _)].
    + destruct Hwf as [_ Hk]. destruct bounds as [|b [|]]; [by destruct Hk..| |by destruct Hk].
      apply wf_kids_one in Hk. destruct (IH kid Hk) as (n' & h' & ? & ? & He & ?).
      exists n', h'. split_and!; [done|done| |lia]. simpl. by rewrite app_nil_r.
    + by exists (Internal bounds (kid :: kid2 :: kids)), (S h).
Qed.

(** ** The depth of the tree

    [find] records its path in an array of [MAX_DEPTH] entries.  Underfull nodes
    are never merged, so the number of live keys does not bound the height; the
    number of inserts does.  Each split consumes sixteen inserts' worth of
    width at its level, which the potential below accounts for. *)

(** Width a node has beyond what a split leaves it. *)
Definition excess (w : nat) : Z := Z.max 0 (Z.of_nat w - 17).

Definition sum_Z (l : list Z) : Z := foldr Z.add 0 l.

Fixpoint phi (h : nat) (n : node) : Z :=
  match h, n with
  | O, Leaf keys _ => excess (length keys)
  | S h', Internal _ kids => excess (length kids) * 16 ^ Z.of_nat h + sum_Z (map (phi h') kids)
  | _, _ => 0
  end.

(** What the height itself cost. *)
Fixpoint tower (h : nat) : Z := match h with O => 0 | S h' => tower h' + 16 ^ Z.of_nat h end.

Lemma sum_Z_app l1 l2 : sum_Z (l1 ++ l2) = sum_Z l1 + sum_Z l2.
Proof. unfold sum_Z. induction l1; simpl; lia. Qed.

Lemma sum_phi_split h kids i kid :
  kids !! i = Some kid →
  sum_Z (map (phi h) kids) =
  sum_Z (map (phi h) (take i kids)) + phi h kid + sum_Z (map (phi h) (drop (S i) kids)).
Proof.
  intros Hi. rewrite <-(take_drop_middle kids i kid Hi) at 1.
  rewrite map_app, sum_Z_app. unfold sum_Z. simpl. lia.
Qed.

Lemma phi_nonneg h n : 0 ≤ phi h n.
Proof.
  revert n; induction h as [|h IH]; intros [keys vals|bounds kids]; simpl; unfold excess; try lia.
  assert (0 ≤ sum_Z (map (phi h) kids)).
  { induction kids as [|kid kids IHk]; unfold sum_Z in *; simpl; [lia|]. specialize (IH kid). lia. }
  nia.
Qed.

Lemma tower_ge h : (1 ≤ h)%nat → 16 ^ Z.of_nat h ≤ tower h.
Proof.
  intros Hh. destruct h as [|h]; [lia|]. cbn [tower].
  enough (0 ≤ tower h) by lia. induction h as [|h IH]; cbn [tower]; [done|].
  assert (0 ≤ tower h) by (destruct h; [done|apply IH; lia]). lia.
Qed.

Lemma tower_mono h h' : (h ≤ h')%nat → tower h ≤ tower h'.
Proof. induction 1 as [|h' _ IH]; cbn [tower]; [lia|]. assert (0 < 16 ^ Z.of_nat (S h')) by lia. lia. Qed.

Lemma pow16_S h : 16 ^ Z.of_nat (S h) = 16 * 16 ^ Z.of_nat h.
Proof. rewrite Nat2Z.inj_succ, Z.pow_succ_r by lia. done. Qed.

Lemma insert_into_phi h lo hi n k v old split n' :
  wf h lo hi n → within lo hi k → insert_into n k v = Some (old, split, n') →
  match split with
  | None => phi h n' ≤ phi h n + 1
  | Some (_, right_) => phi h n' + phi h right_ + 16 ^ Z.of_nat (S h) ≤ phi h n + 1
  end.
Proof.
  revert lo hi n old split n'; induction h as [|h IH];
    intros lo hi [keys vals|bounds kids] old split n' Hwf Hw; try done.
  - destruct Hwf as (Hlen & Hne & Hmax & Hs & Hin). cbn [insert_into].
    destruct (binary_search k keys) as [i|i] eqn:E.
    { intros Hr. apply bind_Some in Hr as (old' & _ & Hr). simplify_eq. simpl. lia. }
    pose proof (zip_split_missing keys vals k i Hs Hlen E) as (Hi & _).
    rewrite !vec_insert_take by lia. cbn [mbind option_bind].
    set (keys' := take i keys ++ k :: drop i keys). set (vals' := take i vals ++ v :: drop i vals).
    assert (length keys' = S (length keys)) as Hlk
      by (unfold keys'; rewrite length_app; simpl; rewrite length_take, length_drop; lia).
    assert (length vals' = S (length vals)) as Hlv
      by (unfold vals'; rewrite length_app; simpl; rewrite length_take, length_drop; lia).
    destruct (Nat.leb_spec (length keys') NODE_MAX) as [Hm|Hm].
    { intros. simplify_eq. cbn [phi]. unfold excess. lia. }
    assert (length keys' = 33)%nat as H33 by (unfold NODE_MAX in *; lia).
    rewrite H33. change (33 / 2)%nat with 16%nat. rewrite !split_off_take by lia. cbn [mbind option_bind].
    intros Hr. apply bind_Some in Hr as (b & _ & Hr). simplify_eq. cbn [phi].
    rewrite length_take, length_drop, H33. unfold excess.
    assert (length keys = 32)%nat as -> by lia. simpl. lia.
  - destruct Hwf as [Hmax Hk]. cbn [insert_into].
    destruct (route_split h lo hi bounds kids k Hk Hw) as (kid & Hi & Hkid & Hkw & Hb & Ha).
    set (i := route bounds k) in *. rewrite at_index_lookup, Hi.
    destruct (insert_into_spec _ _ _ kid k v Hkid Hkw) as (split0 & kid' & Hins & _).
    specialize (IH _ _ kid _ _ _ Hkid Hkw Hins).
    cbn [fmap option_fmap option_map mjoin option_join]. rewrite Hins. cbn [mbind option_bind].
    pose proof (lookup_lt_Some _ _ _ Hi) as Hilt. pose proof Hk as (Hl & _ & _).
    set (S0 := sum_Z (map (phi h) (take i kids)) + sum_Z (map (phi h) (drop (S i) kids))).
    assert (sum_Z (map (phi h) kids) = S0 + phi h kid) as Hsum
      by (rewrite (sum_phi_split h kids i kid Hi); unfold S0; lia).
    assert (∃ bounds2 kids2,
      match split0 with
      | Some (bound, right_) =>
          bounds ← vec_insert (S i) bound bounds; kids ← vec_insert (S i) right_ (<[i:=kid']> kids);
          Some (bounds, kids)
      | None => Some (bounds, <[i:=kid']> kids)
      end = Some (bounds2, kids2) ∧ length bounds2 = length kids2 ∧ (length kids2 ≤ 33)%nat ∧
      excess (length kids2) * 16 ^ Z.of_nat (S h) + sum_Z (map (phi h) kids2)
        ≤ excess (length kids) * 16 ^ Z.of_nat (S h) + S0 + phi h kid + 1) as
      (bounds2 & kids2 & -> & Hl2 & H33 & Hle).
    { destruct split0 as [[b right_]|].
      - rewrite !vec_insert_take by (rewrite ?length_insert; lia). eexists _, _. split; [done|].
        assert (length (take (S i) (<[i:=kid']> kids) ++ right_ :: drop (S i) (<[i:=kid']> kids))
                = S (length kids)) as ->
          by (rewrite length_app; simpl; rewrite length_take, length_drop, length_insert; lia).
        split_and!; [rewrite length_app; simpl; rewrite length_take, length_drop; lia|unfold NODE_MAX in *; lia|].
        assert (excess (S (length kids)) ≤ excess (length kids) + 1) as Hex by (unfold excess; lia).
        rewrite map_app, sum_Z_app, drop_insert_lt by lia.
        rewrite (take_S_r _ i kid') by (rewrite list_lookup_insert_eq; [done|lia]).
        rewrite take_insert_ge, map_app, sum_Z_app by lia.
        unfold sum_Z at 2 3. cbn [map foldr]. fold (sum_Z (map (phi h) (drop (S i) kids))).
        assert (0 < 16 ^ Z.of_nat (S h)) by lia. unfold S0. nia.
      - eexists _, _. split; [done|]. rewrite length_insert. split_and!; [lia|unfold NODE_MAX in *; lia|].
        rewrite (sum_phi_split h _ i kid') by (rewrite list_lookup_insert_eq; [done|lia]).
        rewrite take_insert_ge, drop_insert_lt by lia. unfold S0. lia. }
    cbn [mbind option_bind phi]. rewrite Hsum.
    destruct (Nat.leb_spec (length kids2) NODE_MAX) as [Hm|Hm].
    { intros. simplify_eq. cbn [phi]. lia. }
    assert (length kids2 = 33)%nat as HL by (unfold NODE_MAX in *; lia).
    rewrite HL. change (33 / 2)%nat with 16%nat. rewrite !split_off_take by lia. cbn [mbind option_bind].
    intros Hr. apply bind_Some in Hr as (b & _ & Hr). simplify_eq. cbn [phi].
    rewrite length_take, length_drop, HL in *.
    rewrite <-(take_drop 16 kids2), map_app, sum_Z_app in Hle.
    change (excess 33) with 16 in Hle. change (excess (16 `min` 33)) with 0.
    change (excess (33 - 16)) with 0. rewrite (pow16_S (S h)). lia.
Qed.

Lemma store_phi h n path pos v store v' : node_at n path pos = Some (v, store) → phi h (store v') = phi h n.
Proof.
  revert h n v store. induction path as [|i path IH]; intros h [keys vals|bounds kids] v store Hat; try done.
  - apply bind_Some in Hat as (w & _ & Hat). simplify_eq. by destruct h.
  - apply bind_Some in Hat as (kid & Hi & Hat). apply bind_Some in Hat as ([w st] & Hat & Hr).
    simplify_eq. destruct h as [|h]; [done|]. cbn [phi]. rewrite length_insert. f_equal.
    pose proof (lookup_lt_Some _ _ _ Hi).
    rewrite (sum_phi_split h kids i kid Hi).
    rewrite (sum_phi_split h _ i (st v')) by (rewrite list_lookup_insert_eq; [done|lia]).
    rewrite take_insert_ge, drop_insert_lt by lia. by rewrite (IH h kid v st).
Qed.

Lemma remove_at_phi h n path pos v n' : remove_at n path pos = Some (v, n') → phi h n' ≤ phi h n.
Proof.
  assert (∀ h (keys : list K) (vals : list V) pos v n',
    ('(_, keys) ← vec_remove pos keys; '(v, vals) ← vec_remove pos vals; Some (v, Leaf keys vals)) = Some (v, n') →
    phi h n' ≤ phi h (Leaf keys vals)) as Hleaf.
  { intros h' keys vals pos' w n1 Hr. apply bind_Some in Hr as ([x keys'] & Hk & Hr).
    apply bind_Some in Hr as ([y vals'] & _ & Hr). simplify_eq.
    apply bind_Some in Hk as (x' & Hx & Hk). simplify_eq. apply lookup_lt_Some in Hx.
    destruct h'; cbn [phi]; [|lia]. rewrite length_app, length_take, length_drop. unfold excess. lia. }
  revert h n v n'. induction path as [|i path IH]; intros h [keys vals|bounds kids] v n' Hrem; try done;
    try (by eapply Hleaf).
  apply bind_Some in Hrem as (kid & Hi & Hrem). apply bind_Some in Hrem as ([w kid'] & Hrem & Hr).
  pose proof (lookup_lt_Some _ _ _ Hi) as Hilt.
  assert (∀ h, sum_Z (map (phi h) (<[i:=kid']> kids)) ≤ sum_Z (map (phi h) kids)) as Hsum.
  { intros h'. rewrite (sum_phi_split h' kids i kid Hi).
    rewrite (sum_phi_split h' _ i kid') by (rewrite list_lookup_insert_eq; [done|lia]).
    rewrite take_insert_ge, drop_insert_lt by lia. specialize (IH h' kid w kid' Hrem). lia. }
  destruct (node_is_empty kid').
  - apply bind_Some in Hr as ([x kids'] & Hk & Hr). apply bind_Some in Hr as ([y bounds'] & _ & Hr).
    simplify_eq. apply bind_Some in Hk as (x' & Hx & Hk). simplify_eq.
    destruct h as [|h]; cbn [phi]; [lia|]. specialize (Hsum h).
    rewrite (sum_phi_split h _ i x Hx) in Hsum. pose proof (phi_nonneg h x).
    rewrite map_app, sum_Z_app, length_app, length_take, length_drop, length_insert.
    assert (excess (i `min` length kids + (length kids - S i)) ≤ excess (length kids)) by (unfold excess; lia).
    assert (0 < 16 ^ Z.of_nat (S h)) by lia. nia.
  - cbn zeta in Hr. simplify_eq. destruct h as [|h]; cbn [phi]; [lia|]. rewrite length_insert. specialize (Hsum h). lia.
Qed.

(** ** The map *)

(** [m] holds the entries [es] in a well-formed tree whose potential is at most
    [p]: the number of inserts it took bounds it. *)
Definition holds (m : t) (es : list (K * V)) (p : Z) : Prop :=
  match root m with
  | None => es = [] ∧ len m = 0%nat ∧ 0 ≤ p
  | Some n => ∃ h, wf h None None n ∧ es = node_entries n ∧ len m = length es ∧ phi h n + tower h ≤ p
  end.

(** Up to this potential the path array is long enough. *)
Definition depth_budget : Z := 16 ^ 33.

Lemma within_all (k : K) : within None None k.
Proof. by split. Qed.

Lemma holds_sorted m es p : holds m es p → sorted es.*1.
Proof.
  unfold holds. destruct (root m) as [n|].
  - intros (h & Hwf & -> & _). apply (wf_entries _ _ _ _ Hwf).
  - intros (-> & _). constructor.
Qed.

Lemma holds_len m es p : holds m es p → len m = length es ∧ entries m = es.
Proof.
  unfold holds, entries. destruct (root m) as [n|].
  - by intros (h & Hwf & -> & ? & _).
  - by intros (-> & -> & _).
Qed.

Lemma holds_weaken m es p p' : holds m es p → p ≤ p' → holds m es p'.
Proof.
  unfold holds. destruct (root m) as [n|].
  - intros (h & Hwf & He & Hl & Hp) Hle. exists h. split_and!; [done..|lia].
  - intros (? & ? & ?) Hle. split_and!; [done..|lia].
Qed.

Lemma new_holds : holds new [] 0.
Proof. by split_and!. Qed.

(** A reachable tree is never deeper than the path array. *)
Lemma holds_depth n h p :
  wf h None None n → phi h n + tower h ≤ p → p < depth_budget → (0 + h ≤ MAX_DEPTH)%nat.
Proof.
  intros _ Hp Hlt. destruct (decide (h ≤ MAX_DEPTH)%nat) as [|Hgt]; [done|exfalso].
  pose proof (phi_nonneg h n). pose proof (tower_ge 33 ltac:(lia)) as Ht.
  pose proof (tower_mono 33 h ltac:(unfold MAX_DEPTH in *; lia)).
  unfold depth_budget in Hlt. change (Z.of_nat 33) with 33 in Ht. lia.
Qed.

Lemma first_key_Some h lo hi n : wf h lo hi n → is_Some (first_key n).
Proof.
  destruct h, n as [keys vals|bounds kids]; try done.
  - intros (_ & ? & _). by destruct keys.
  - intros (_ & Hl & ? & _). by destruct bounds, kids.
Qed.

Lemma insert_holds m es p k v :
  holds m es p →
  ∃ m', insert m k v = Some (alookup k es, m') ∧ holds m' (ainsert k v es) (p + 1).
Proof.
  unfold holds at 1, insert. destruct (root m) as [n|].
  2:{ intros (-> & Hl & Hp). eexists. split; [done|]. exists 0%nat. split_and!; [|done|done|].
      - split_and!; [done|done|simpl; unfold NODE_MAX; lia|repeat constructor|].
        intros x _. apply within_all.
      - simpl. unfold excess. lia. }
  intros (h & Hwf & -> & Hl & Hp).
  destruct (insert_into_spec h None None n k v Hwf (within_all k)) as (split0 & n' & Hins & Hres).
  pose proof (insert_into_phi h None None n k v _ _ _ Hwf (within_all k) Hins) as Hphi.
  rewrite Hins. cbn [mbind option_bind].
  assert (match alookup k (node_entries n) with None => S (len m) | Some _ => len m end =
    length (ainsert k v (node_entries n))) as Hlen
    by (rewrite length_ainsert, Hl by apply (wf_entries _ _ _ _ Hwf); done).
  destruct split0 as [[b right_]|].
  - destruct Hres as (Hw1 & Hw2 & He). destruct (first_key_Some _ _ _ _ Hw1) as [first Hf].
    rewrite Hf. cbn [mbind option_bind]. eexists. split; [done|]. exists (S h). cbn [root len].
    split_and!.
    + split; [simpl; unfold NODE_MAX; lia|]. apply wf_kids_cons. split; [done|]. by apply wf_kids_one.
    + simpl. by rewrite app_nil_r.
    + done.
    + cbn [phi tower map length]. change (excess 2) with 0. unfold sum_Z. simpl foldr. lia.
  - destruct Hres as (Hw1 & He). cbn [mbind option_bind]. eexists. split; [done|]. exists h. cbn [root len].
    split_and!; [done..|lia].
Qed.

Lemma get_holds m es p k : holds m es p → get m k = Some (alookup k es).
Proof.
  unfold holds, get. destruct (root m) as [n|].
  - intros (h & Hwf & -> & _). by apply (node_get_spec h None None).
  - by intros (-> & _).
Qed.

Lemma contains_key_holds m es p k :
  holds m es p → contains_key m k = Some (bool_decide (is_Some (alookup k es))).
Proof. intros Hm. unfold contains_key. by rewrite (get_holds m es p). Qed.

Lemma get_mut_holds m es p k :
  holds m es p → p < depth_budget →
  match alookup k es with
  | None => get_mut m k = Some None
  | Some v => ∃ store, get_mut m k = Some (Some (v, store)) ∧
                       ∀ v', holds (store v') (ainsert k v' es) p
  end.
Proof.
  unfold holds at 1, get_mut, find. destruct (root m) as [n|] eqn:Hroot; [|by intros (-> & _) _].
  intros (h & Hwf & -> & Hl & Hp) Hlt.
  destruct (node_find_spec h None None n k 0 Hwf (within_all k)) as
    [[-> ->]|(v & path & pos & Ha & -> & (store & Hat & Hst) & _)]; [by eapply holds_depth|done|].
  rewrite Ha. cbn [mbind option_bind]. rewrite Hat. cbn [mbind option_bind]. eexists. split; [done|].
  intros v'. destruct (Hst v') as [Hw He]. exists h. cbn [root len]. split_and!; [done|done| |].
  - rewrite length_ainsert, Ha by apply (wf_entries _ _ _ _ Hwf). done.
  - rewrite (store_phi h n path pos v store v' Hat). done.
Qed.

Lemma collapse_phi h n n' :
  wf h None None n → collapse n = Some n' → ∃ h', wf h' None None n' ∧ phi h' n' + tower h' ≤ phi h n + tower h.
Proof.
  revert n; induction h as [|h IH]; intros [keys vals|bounds kids] Hwf Hc; try done.
  - cbn [collapse] in Hc. case_bool_decide; [done|]. simplify_eq. exists 0%nat. split; [done|lia].
  - destruct kids as [|kid [|kid2 kids]]; cbn [collapse] in Hc; [done| |].
    + destruct Hwf as [_ Hk]. destruct bounds as [|b [|]]; [by destruct Hk..| |by destruct Hk].
      apply wf_kids_one in Hk. destruct (IH kid Hk Hc) as (h' & Hw & Hle). exists h'. split; [done|].
      cbn [phi tower map length]. unfold sum_Z. cbn [foldr]. change (excess 1) with 0.
      assert (0 < 16 ^ Z.of_nat (S h)) by lia. lia.
    + simplify_eq. exists (S h). split; [done|lia].
Qed.

Lemma remove_holds m es p k :
  holds m es p → p < depth_budget →
  ∃ m', remove m k = Some (alookup k es, m') ∧ holds m' (adelete k es) p.
Proof.
  intros Hm Hlt. pose proof (holds_sorted m es p Hm) as Hs.
  pose proof Hm as Hm'. unfold holds in Hm at 1. unfold remove, find.
  destruct (root m) as [n|] eqn:Hroot.
  2:{ destruct Hm as (-> & _). by exists m. }
  destruct Hm as (h & Hwf & -> & Hl & Hp).
  destruct (node_find_spec h None None n k 0 Hwf (within_all k)) as
    [[Ha ->]|(v & path & pos & Ha & -> & _ & (n' & Hrem & He & Hem))]; [by eapply holds_depth| |].
  { rewrite Ha. exists m. split; [done|]. by rewrite adelete_None. }
  rewrite Ha. cbn [mbind option_bind]. rewrite Hrem. cbn [mbind option_bind]. eexists. split; [done|].
  pose proof (remove_at_phi h n path pos v n' Hrem) as Hphi.
  assert (pred (len m) = length (adelete k (node_entries n))) as Hlen
    by (rewrite length_adelete, Ha, Hl by apply (wf_entries _ _ _ _ Hwf); done).
  unfold holds. cbn [root len]. destruct (node_is_empty n') eqn:Hemp.
  - assert (collapse n' = None) as ->.
    { destruct n' as [keys vals|bounds [|]]; cbn [collapse node_is_empty] in *; [|done|done]. by rewrite Hemp. }
    rewrite Hem in *. split_and!; [done|done|]. pose proof (phi_nonneg h n).
    assert (0 ≤ tower h); [|lia]. destruct h as [|h]; [done|]. pose proof (tower_ge (S h) ltac:(lia)). lia.
  - destruct (collapse_spec h n' Hem) as (n2 & h2 & Hc & Hw2 & He2 & _). rewrite Hc.
    destruct (collapse_phi h n' n2 Hem Hc) as (h3 & Hw3 & Hle). exists h3.
    split_and!; [done|by rewrite He2|done|lia].
Qed.

Lemma get_or_insert_with_holds m es p k d :
  holds m es p → p + 1 < depth_budget →
  ∃ store, get_or_insert_with m k d = Some (default d (alookup k es), store) ∧
           ∀ v', holds (store v') (ainsert k v' es) (p + 1).
Proof.
  intros Hm Hlt. unfold get_or_insert_with. rewrite (contains_key_holds m es p) by done.
  cbn [mbind option_bind]. destruct (alookup k es) as [v|] eqn:Ha.
  - rewrite bool_decide_eq_true_2 by by eexists. cbn [mbind option_bind].
    pose proof (get_mut_holds m es p k Hm ltac:(lia)) as Hg. rewrite Ha in Hg.
    destruct Hg as (store & -> & Hst). exists store. split; [done|]. intros v'.
    eapply holds_weaken; [apply Hst|lia].
  - rewrite bool_decide_eq_false_2 by by intros [? ?].
    destruct (insert_holds m es p k d Hm) as (m' & -> & Hm'). cbn [mbind option_bind].
    pose proof (get_mut_holds m' (ainsert k d es) (p + 1) k Hm' Hlt) as Hg.
    rewrite alookup_ainsert, cmp_refl in Hg. destruct Hg as (store & -> & Hst). exists store.
    split; [done|]. intros v'. specialize (Hst v').
    by rewrite ainsert_ainsert in Hst.
Qed.

(** ** Runs *)

Inductive op :=
| OInsert (k : K) (v : V)
| ORemove (k : K)
| OGet (k : K)
| OUpdate (k : K) (v : V)            (* [if let Some(x) = m.get_mut(&k) { *x = v }] *)
| OGetOrInsert (k : K) (d v : V).    (* [*m.get_or_insert_with(k, || d) = v] *)

(** One operation: the value it answers with, and the map left. *)
Definition step (o : op) (m : t) : option (option V * t) :=
  match o with
  | OInsert k v => insert m k v
  | ORemove k => remove m k
  | OGet k => r ← get m k; Some (r, m)
  | OUpdate k v =>
      r ← get_mut m k;
      Some (match r with Some (old, store) => (Some old, store v) | None => (None, m) end)
  | OGetOrInsert k d v => '(old, store) ← get_or_insert_with m k d; Some (Some old, store v)
  end.

Fixpoint run (os : list op) (m : t) : option (list (option V) * t) :=
  match os with
  | [] => Some ([], m)
  | o :: os => '(r, m) ← step o m; '(rs, m) ← run os m; Some (r :: rs, m)
  end.

(** The same on the abstract map. *)
Definition spec_step (o : op) (es : list (K * V)) : option V * list (K * V) :=
  match o with
  | OInsert k v => (alookup k es, ainsert k v es)
  | ORemove k => (alookup k es, adelete k es)
  | OGet k => (alookup k es, es)
  | OUpdate k v => (alookup k es, match alookup k es with Some _ => ainsert k v es | None => es end)
  | OGetOrInsert k d v => (Some (default d (alookup k es)), ainsert k v es)
  end.

Fixpoint spec_run (os : list op) (es : list (K * V)) : list (option V) * list (K * V) :=
  match os with
  | [] => ([], es)
  | o :: os => let '(r, es) := spec_step o es in let '(rs, es) := spec_run os es in (r :: rs, es)
  end.

Lemma cow_step_holds o m es p :
  holds m es p → p + 1 < depth_budget →
  ∃ m', step o m = Some ((spec_step o es).1, m') ∧ holds m' (spec_step o es).2 (p + 1).
Proof.
  intros Hm Hlt. assert (∀ m' es', holds m' es' p → holds m' es' (p + 1)) as Hw
    by (intros; eapply holds_weaken; [done|lia]).
  destruct o as [k v|k|k|k v|k d v]; cbn [step spec_step fst snd].
  - by apply insert_holds.
  - destruct (remove_holds m es p k Hm ltac:(lia)) as (m' & -> & ?). eauto.
  - rewrite (get_holds m es p k Hm). eauto.
  - pose proof (get_mut_holds m es p k Hm ltac:(lia)) as Hg. destruct (alookup k es).
    + destruct Hg as (store & -> & Hst). eexists. split; [done|]. apply Hw, Hst.
    + rewrite Hg. eauto.
  - destruct (get_or_insert_with_holds m es p k d Hm Hlt) as (store & -> & Hst).
    eexists. split; [done|]. apply Hst.
Qed.

Lemma cow_run_holds os m es p :
  holds m es p → p + Z.of_nat (length os) < depth_budget →
  ∃ m', run os m = Some ((spec_run os es).1, m') ∧ holds m' (spec_run os es).2 (p + Z.of_nat (length os)).
Proof.
  revert m es p; induction os as [|o os IH]; intros m es p Hm Hlt.
  { eexists. split; [done|]. eapply holds_weaken; [done|]. simpl. lia. }
  cbn [length] in *. destruct (cow_step_holds o m es p Hm ltac:(lia)) as (m1 & Hs & Hm1).
  cbn [run spec_run]. rewrite Hs. cbn [mbind option_bind].
  destruct (spec_step o es) as [r es1]; cbn [fst snd] in *.
  destruct (IH m1 es1 (p + 1) Hm1 ltac:(lia)) as (m2 & Hr & Hm2). rewrite Hr. cbn [mbind option_bind].
  destruct (spec_run os es1) as [rs es2]; cbn [fst snd] in *. eexists. split; [done|].
  eapply holds_weaken; [done|]. lia.
Qed.
End cow_map.
Arguments node : clear implicits.
Arguments t : clear implicits.
End CowMap.
