(* ===== verification/CowMapIter.v ===== *)
(** * Iterating over and bulk-building the copy-on-write map

    Models [CowMap::range], [range_rev], [iter] and the iterators [Range] and
    [RevRange] (a stack of internal nodes with the index of the next child, and
    what is left of the current leaf), and [CowMap::from_sorted] with
    [build_parents], of [crates/core-storage/src/cow.rs]. *)

From S2P Require Import Prelude Order Assoc CowMap.

Inductive Bound (K : Type) := Included (k : K) | Excluded (k : K) | Unbounded.
Arguments Included {K} k.
Arguments Excluded {K} k.
Arguments Unbounded {K}.

Module CowMapIter.

Section iter.
Context {K V : Type} `{RustOrdLaws K}.
Import CowMap.

Abbreviation node := (CowMap.node K V).

(** [Range] and [RevRange] have the same fields. *)
Record iter := mk_iter {
  stack : list (list node * nat);
  keys : list K;
  vals : list V;
  bound : Bound K;
}.

(** The assertion at the head of [range] and [range_rev]. *)
Definition range_ok (start end_ : Bound K) : bool :=
  match start, end_ with
  | Excluded s, Excluded e => bool_decide (s <ₖ e)
  | Included s, Included e | Included s, Excluded e | Excluded s, Included e =>
      bool_decide (s <ₖ e) || bool_decide (cmp s e = Eq)
  | _, _ => true
  end.

(** [&l[from..]] and [&l[..to]] *)
Definition slice_from {A} (i : nat) (l : list A) : option (list A) :=
  if (i <=? length l)%nat then Some (drop i l) else None.
Definition slice_to {A} (i : nat) (l : list A) : option (list A) :=
  if (i <=? length l)%nat then Some (take i l) else None.

(** ** Forwards *)

(** The descent of [range] to the leaf where [start] falls. *)
Fixpoint range_descend (start : Bound K) (n : node) (st : list (list node * nat))
    : option (list (list node * nat) * list K * list V) :=
  match n with
  | Internal bounds kids =>
      let i := match start with
        | Included k | Excluded k => route bounds k
        | Unbounded => 0%nat
        end in
      mjoin (at_index (λ kid, range_descend start kid ((kids, S i) :: st)) kids i)
  | Leaf keys vals =>
      let from := match start with
        | Included k => partition_point (λ x, bool_decide (x <ₖ k)) keys
        | Excluded k => partition_point (λ x, bool_decide (x ≤ₖ k)) keys
        | Unbounded => 0%nat
        end in
      keys ← slice_from from keys;
      vals ← slice_from from vals;
      Some (st, keys, vals)
  end.

(** [CowMap::range] *)
Definition range (m : CowMap.t K V) (start end_ : Bound K) : option iter :=
  if range_ok start end_ then
    match root m with
    | None => Some (mk_iter [] [] [] end_)
    | Some n =>
        '(st, keys, vals) ← range_descend start n [];
        Some (mk_iter st keys vals end_)
    end
  else None.

(** The leftmost leaf under a node. *)
Fixpoint leftmost (n : node) (st : list (list node * nat))
    : option (list (list node * nat) * list K * list V) :=
  match n with
  | Leaf keys vals => Some (st, keys, vals)
  | Internal _ kids => mjoin (at_index (λ kid, leftmost kid ((kids, 1%nat) :: st)) kids 0)
  end.

Definition past_end (end_ : Bound K) (k : K) : bool :=
  match end_ with
  | Included e => bool_decide (e <ₖ k)
  | Excluded e => bool_decide (e ≤ₖ k)
  | Unbounded => false
  end.

(** The loop of [Range::next]. *)
Fixpoint next_loop (fuel : nat) (it : iter) : option (option (K * V) * iter) :=
  match fuel with
  | O => None
  | S fuel =>
      match keys it, vals it with
      | k :: ks, v :: vs =>
          if past_end (bound it) k then Some (None, mk_iter [] [] [] (bound it))
          else Some (Some (k, v), mk_iter (stack it) ks vs (bound it))
      | _, _ =>
          match stack it with
          | [] => Some (None, it)
          | (kids, nxt) :: st =>
              if (length kids <=? nxt)%nat then next_loop fuel (mk_iter st (keys it) (vals it) (bound it))
              else
                '(st, ks, vs) ← mjoin (at_index (λ kid, leftmost kid ((kids, S nxt) :: st)) kids nxt);
                next_loop fuel (mk_iter st ks vs (bound it))
          end
      end
  end.

(** [Range::next]: every round but the last two leaves a frame. *)
Definition next (it : iter) : option (option (K * V) * iter) := next_loop (S (S (length (stack it)))) it.

(** [it.collect()], at most [fuel] items. *)
Fixpoint collect (fuel : nat) (it : iter) : option (list (K * V)) :=
  match fuel with
  | O => None
  | S fuel =>
      '(r, it) ← next it;
      match r with None => Some [] | Some p => cons p <$> collect fuel it end
  end.

(** ** Backwards *)

Fixpoint range_rev_descend (end_ : Bound K) (n : node) (st : list (list node * nat))
    : option (list (list node * nat) * list K * list V) :=
  match n with
  | Internal bounds kids =>
      let i := match end_ with
        | Included k | Excluded k => route bounds k
        | Unbounded => pred (length kids)
        end in
      mjoin (at_index (λ kid, range_rev_descend end_ kid ((kids, i) :: st)) kids i)
  | Leaf keys vals =>
      let to := match end_ with
        | Included k => partition_point (λ x, bool_decide (x ≤ₖ k)) keys
        | Excluded k => partition_point (λ x, bool_decide (x <ₖ k)) keys
        | Unbounded => length keys
        end in
      keys ← slice_to to keys;
      vals ← slice_to to vals;
      Some (st, keys, vals)
  end.

(** [CowMap::range_rev] *)
Definition range_rev (m : CowMap.t K V) (start end_ : Bound K) : option iter :=
  if range_ok start end_ then
    match root m with
    | None => Some (mk_iter [] [] [] start)
    | Some n =>
        '(st, keys, vals) ← range_rev_descend end_ n [];
        Some (mk_iter st keys vals start)
    end
  else None.

(** The rightmost leaf under a node. *)
Fixpoint rightmost (n : node) (st : list (list node * nat))
    : option (list (list node * nat) * list K * list V) :=
  match n with
  | Leaf keys vals => Some (st, keys, vals)
  | Internal _ kids =>
      let last_ := pred (length kids) in
      mjoin (at_index (λ kid, rightmost kid ((kids, last_) :: st)) kids last_)
  end.

Definition past_start (start : Bound K) (k : K) : bool :=
  match start with
  | Included s => bool_decide (k <ₖ s)
  | Excluded s => bool_decide (k ≤ₖ s)
  | Unbounded => false
  end.

(** Within the start and the end of a range. *)
Abbreviation after_start start k := (past_start start k = false) (only parsing).
Abbreviation before_end end_ k := (past_end end_ k = false) (only parsing).

(** [l.split_last()] *)
Definition split_last {A} (l : list A) : option (A * list A) :=
  x ← last l; Some (x, take (pred (length l)) l).

(** The loop of [RevRange::next]. *)
Fixpoint next_rev_loop (fuel : nat) (it : iter) : option (option (K * V) * iter) :=
  match fuel with
  | O => None
  | S fuel =>
      match split_last (keys it), split_last (vals it) with
      | Some (k, ks), Some (v, vs) =>
          if past_start (bound it) k then Some (None, mk_iter [] [] [] (bound it))
          else Some (Some (k, v), mk_iter (stack it) ks vs (bound it))
      | _, _ =>
          match stack it with
          | [] => Some (None, it)
          | (kids, O) :: st => next_rev_loop fuel (mk_iter st (keys it) (vals it) (bound it))
          | (kids, S left_) :: st =>
              '(st, ks, vs) ← mjoin (at_index (λ kid, rightmost kid ((kids, left_) :: st)) kids left_);
              next_rev_loop fuel (mk_iter st ks vs (bound it))
          end
      end
  end.

Definition next_rev (it : iter) : option (option (K * V) * iter) :=
  next_rev_loop (S (S (length (stack it)))) it.

Fixpoint collect_rev (fuel : nat) (it : iter) : option (list (K * V)) :=
  match fuel with
  | O => None
  | S fuel =>
      '(r, it) ← next_rev it;
      match r with None => Some [] | Some p => cons p <$> collect_rev fuel it end
  end.

(** ** Building from sorted entries *)

Definition per : nat := (NODE_MAX * 3 / 4)%nat.

(** The [flush] closure: the pending arrays become a leaf. *)
Definition flush (ks : list K) (vs : list V) (level : list (K * node)) : option (list (K * node)) :=
  k ← head ks; Some (level ++ [(k, Leaf ks vs)]).

(** The loop over the entries: pending keys and values, and the leaves built. *)
Fixpoint build_leaves (es : list (K * V)) (ks : list K) (vs : list V) (level : list (K * node))
    : option (list (K * node)) :=
  match es with
  | [] => match ks with [] => Some level | _ => flush ks vs level end
  | (k, v) :: es =>
      let ks := ks ++ [k] in
      let vs := vs ++ [v] in
      if (length ks =? per)%nat then level ← flush ks vs level; build_leaves es [] [] level
      else build_leaves es ks vs level
  end.

(** [build_parents]; a round takes [per] of the level. *)
Fixpoint build_parents (fuel : nat) (level : list (K * node)) : option (list (K * node)) :=
  match level, fuel with
  | [], _ => Some []
  | _, O => None
  | _, S fuel =>
      let group := take per level in
      k ← head group.*1;
      rest ← build_parents fuel (drop per level);
      Some ((k, Internal group.*1 group.*2) :: rest)
  end.

(** [while level.len() > 1 { level = build_parents(level) }] *)
Fixpoint build_up (fuel : nat) (level : list (K * node)) : option (list (K * node)) :=
  if (length level <=? 1)%nat then Some level
  else match fuel with
       | O => None
       | S fuel => level ← build_parents (length level) level; build_up fuel level
       end.

(** [CowMap::from_sorted] *)
Definition from_sorted (es : list (K * V)) : option (CowMap.t K V) :=
  level ← build_leaves es [] [] [];
  level ← build_up (length level) level;
  Some (mk (snd <$> last level) (length es)).

(** ** Proofs: forwards *)

(** What is left to visit, in key order. *)
Definition stack_rem (st : list (list node * nat)) : list (K * V) :=
  concat (map (λ '(kids, nxt), kids_entries (drop nxt kids)) st).

Definition rem (it : iter) : list (K * V) := zip (keys it) (vals it) ++ stack_rem (stack it).

Definition some_wf (n : node) : Prop := ∃ h lo hi, wf h lo hi n.

Definition stack_ok (st : list (list node * nat)) : Prop :=
  ∀ f, f ∈ st → ∀ kid, kid ∈ f.1 → some_wf kid.

Definition iter_ok (it : iter) : Prop := length (keys it) = length (vals it) ∧ stack_ok (stack it).

Lemma stack_ok_cons f st : stack_ok (f :: st) ↔ (∀ kid, kid ∈ f.1 → some_wf kid) ∧ stack_ok st.
Proof. unfold stack_ok. setoid_rewrite elem_of_cons. naive_solver. Qed.

Lemma wf_kids_some_wf h lo hi bounds kids kid :
  wf_kids (wf h) lo hi bounds kids → kid ∈ kids → some_wf kid.
Proof. intros (_ & _ & Hk) [i Hi]%list_elem_of_lookup. unfold some_wf. eauto. Qed.

Lemma leftmost_spec n st :
  some_wf n → stack_ok st →
  ∃ st' ks vs, leftmost n st = Some (st', ks, vs) ∧ stack_ok st' ∧ length ks = length vs ∧ ks ≠ []
    ∧ zip ks vs ++ stack_rem st' = node_entries n ++ stack_rem st.
Proof.
  intros (h & lo & hi & Hwf). revert lo hi n st Hwf.
  induction h as [|h IH]; intros lo hi [ks vs|bounds kids] st Hwf Hst; try done.
  - destruct Hwf as (? & ? & _). by exists st, ks, vs.
  - destruct Hwf as [_ Hk]. cbn [leftmost]. rewrite at_index_lookup.
    pose proof Hk as (_ & Hne & Hkids). destruct kids as [|kid kids]; [done|]. simpl.
    destruct (IH _ _ kid ((kid :: kids, 1%nat) :: st) (Hkids 0%nat kid eq_refl)) as
      (st' & ks & vs & -> & Hst' & Hl & Hks & He).
    { apply stack_ok_cons. split; [|done]. intros kd Hkd. by eapply wf_kids_some_wf. }
    exists st', ks, vs. split_and!; [done..|]. rewrite He. simpl. rewrite <-app_assoc. done.
Qed.

(** One call of [next] yields the first of what is left, unless it is past the
    end. *)
Lemma next_loop_spec fuel it :
  iter_ok it → (2 + length (stack it) ≤ fuel)%nat →
  match rem it with
  | p :: rest =>
      if past_end (bound it) p.1 then ∃ it', next_loop fuel it = Some (None, it')
      else ∃ it', next_loop fuel it = Some (Some p, it') ∧ iter_ok it' ∧ rem it' = rest ∧ bound it' = bound it
  | [] => ∃ it', next_loop fuel it = Some (None, it')
  end.
Proof.
  revert it; induction fuel as [|fuel IH]; intros [st ks vs b] [Hlen Hst] Hf; [lia|].
  simpl in Hlen, Hst, Hf. destruct ks as [|k ks], vs as [|v vs]; try done.
  - cbn [next_loop keys vals stack bound]. destruct st as [|[kids nxt] st]; [simpl; by eexists|].
    apply stack_ok_cons in Hst as [Hkids Hst]. simpl in Hkids, Hf.
    destruct (Nat.leb_spec (length kids) nxt) as [Hn|Hn].
    + specialize (IH (mk_iter st [] [] b) ltac:(done) ltac:(simpl; lia)).
      unfold rem in *. cbn [keys vals stack bound] in *.
      assert (stack_rem ((kids, nxt) :: st) = stack_rem st) as ->; [|done].
      unfold stack_rem. cbn [map concat]. by rewrite drop_ge by lia.
    + destruct (lookup_lt_is_Some_2 kids nxt Hn) as [kid Hkid].
      rewrite at_index_lookup, Hkid. cbn [fmap option_fmap option_map mjoin option_join].
      destruct (leftmost_spec kid ((kids, S nxt) :: st)) as (st' & ks & vs & -> & Hst' & Hl & Hks & He).
      { apply Hkids. by eapply list_elem_of_lookup_2. }
      { by apply stack_ok_cons. }
      cbn [mbind option_bind]. unfold rem. cbn [keys vals stack bound].
      assert (stack_rem ((kids, nxt) :: st) = zip ks vs ++ stack_rem st') as ->.
      { rewrite He. unfold stack_rem. simpl. erewrite drop_S by done.
        rewrite kids_entries_cons. by rewrite <-app_assoc. }
      destruct fuel as [|fuel]; [lia|]. destruct ks as [|k ks], vs as [|v vs]; try done. simpl.
      destruct (past_end b k); [by eexists|]. eexists. split; [done|]. simpl in Hl. split; [split; [simpl; lia|done]|done].
  - unfold rem. simpl. destruct (past_end b k); [by eexists|]. eexists. split; [done|].
    simpl in Hlen. split; [split; [simpl; lia|done]|done].
Qed.

(** The entries up to the first one past the end. *)
Fixpoint take_until (p : K → bool) (l : list (K * V)) : list (K * V) :=
  match l with [] => [] | x :: l => if p x.1 then [] else x :: take_until p l end.

Lemma collect_spec fuel it :
  iter_ok it → (length (rem it) < fuel)%nat → collect fuel it = Some (take_until (past_end (bound it)) (rem it)).
Proof.
  revert it; induction fuel as [|fuel IH]; intros it Hok Hf; [lia|]. cbn [collect].
  pose proof (next_loop_spec (S (S (length (stack it)))) it Hok ltac:(lia)) as Hn.
  unfold next. destruct (rem it) as [|p rest] eqn:Hr.
  - destruct Hn as (it' & ->). done.
  - simpl take_until. destruct (past_end (bound it) p.1).
    + destruct Hn as (it' & ->). done.
    + destruct Hn as (it' & -> & Hok' & Hr' & Hb'). cbn [mbind option_bind]. simpl in Hf.
      rewrite IH; [|done|rewrite Hr'; lia]. by rewrite Hr', Hb'.
Qed.


(** In a sorted list what is past the end is a suffix. *)
Lemma take_until_filter end_ l :
  sorted l.*1 → take_until (past_end end_) l = filter (λ p, before_end end_ p.1) l.
Proof.
  induction l as [|[k v] l IH]; [done|]. cbn [fmap list_fmap fst take_until].
  intros [Hs Hlt]%sorted_cons. destruct (past_end end_ k) eqn:E.
  - rewrite filter_cons_False by (simpl; by rewrite E). symmetry. apply filter_none.
    intros [x w] Hx. cbn [fst]. apply not_false_iff_true.
    assert (k <ₖ x) as Hkx by (apply Hlt, list_elem_of_fmap; by exists (x, w)).
    destruct end_ as [e|e|]; simpl in *; [| |done]; apply bool_decide_eq_true; apply bool_decide_eq_true in E.
    + by etrans.
    + by eapply klt_kle, kle_klt_trans.
  - rewrite filter_cons_True by done. by rewrite IH.
Qed.

(** Keys below the start are skipped, keys above it kept. *)
Definition start_key (b : Bound K) : option K :=
  match b with Included k | Excluded k => Some k | Unbounded => None end.

Lemma after_start_above start k (es : list (K * V)) :
  start_key start = Some k → all_above es k → filter (λ p, after_start start p.1) es = es.
Proof.
  intros Hk Ha. apply filter_all. intros [x v] Hx. cbn [fst].
  assert (k <ₖ x) as Hkx by (apply Ha, list_elem_of_fmap; by exists (x, v)).
  destruct start; simplify_eq/=; apply bool_decide_eq_false; [apply not_klt|apply not_kle]; eauto using klt_kle.
Qed.

Lemma after_start_below start k (es : list (K * V)) :
  start_key start = Some k → all_below es k → filter (λ p, after_start start p.1) es = [].
Proof.
  intros Hk Ha. apply filter_none. intros [x v] Hx. cbn [fst]. apply not_false_iff_true.
  assert (x <ₖ k) as Hkx by (apply Ha, list_elem_of_fmap; by exists (x, v)).
  destruct start; simplify_eq/=; apply bool_decide_eq_true; eauto using klt_kle.
Qed.

(** A sorted array cut where a downward-closed predicate stops holding. *)
Lemma partition_drop_filter (p : K → bool) (ks : list K) (vs : list V) :
  sorted ks → length ks = length vs → (∀ x y, x <ₖ y → p y = true → p x = true) →
  zip (drop (partition_point p ks) ks) (drop (partition_point p ks) vs)
  = filter (λ q, p q.1 = false) (zip ks vs)
  ∧ zip (take (partition_point p ks) ks) (take (partition_point p ks) vs)
  = filter (λ q, p q.1 = true) (zip ks vs).
Proof.
  intros Hs Hl Hp. revert vs Hl. induction Hs as [|k ks Hs IH Hf]; intros [|v vs] Hl; try done.
  cbn [partition_point]. destruct (p k) eqn:E.
  - destruct (IH vs ltac:(simpl in Hl; lia)) as [H1 H2]. cbn [drop take zip zip_with].
    rewrite filter_cons_False, filter_cons_True by (simpl; congruence). split; [done|]. by rewrite <-H2.
  - assert (∀ q, q ∈ zip ks vs → p q.1 = false) as Hrest.
    { intros [x w] Hx. cbn [fst]. rewrite Forall_forall in Hf.
      assert (x ∈ ks) as Hin by (apply elem_of_zip_l in Hx; done).
      destruct (p x) eqn:Ex; [|done]. rewrite (Hp k x) in E; [done|by apply Hf|done]. }
    split.
    + cbn [drop zip zip_with]. rewrite filter_cons_True by done. f_equal. symmetry. by apply filter_all.
    + cbn [take zip zip_with]. rewrite filter_cons_False by (simpl; congruence). symmetry.
      apply filter_none. intros q Hq. rewrite Hrest by done. done.
Qed.

Lemma length_zip_part (ks : list K) (vs : list V) i :
  length ks = length vs → length (drop i ks) = length (drop i vs).
Proof. rewrite !length_drop. lia. Qed.

Lemma slice_from_drop {A} i (l : list A) : (i ≤ length l)%nat → slice_from i l = Some (drop i l).
Proof. intros Hi. unfold slice_from. by rewrite (proj2 (Nat.leb_le _ _) Hi). Qed.

Lemma slice_to_take {A} i (l : list A) : (i ≤ length l)%nat → slice_to i l = Some (take i l).
Proof. intros Hi. unfold slice_to. by rewrite (proj2 (Nat.leb_le _ _) Hi). Qed.

Lemma range_descend_spec start h lo hi n st :
  wf h lo hi n → (∀ k, start_key start = Some k → within lo hi k) → stack_ok st →
  ∃ st' ks vs, range_descend start n st = Some (st', ks, vs) ∧ stack_ok st' ∧ length ks = length vs
    ∧ zip ks vs ++ stack_rem st' = filter (λ p, after_start start p.1) (node_entries n) ++ stack_rem st.
Proof.
  revert lo hi n st; induction h as [|h IH]; intros lo hi [ks vs|bounds kids] st Hwf Hw Hst; try done.
  - destruct Hwf as (Hl & _ & _ & Hs & _). cbn [range_descend].
    set (from := match start with Included _ => _ | Excluded _ => _ | Unbounded => _ end).
    assert (from ≤ length ks)%nat as Hfrom
      by (unfold from; destruct start; try apply partition_point_le; lia).
    rewrite !slice_from_drop by lia. cbn [mbind option_bind]. eexists st, _, _. split; [done|].
    split; [done|]. split; [by apply length_zip_part|]. f_equal. unfold from. cbn [node_entries].
    destruct start as [k|k|]; cbn [past_start].
    + apply (partition_drop_filter (λ x, bool_decide (x <ₖ k))); [done..|].
      intros x y Hxy. rewrite !bool_decide_eq_true. by etrans.
    + apply (partition_drop_filter (λ x, bool_decide (x ≤ₖ k))); [done..|].
      intros x y Hxy. rewrite !bool_decide_eq_true. intros. by eapply kle_trans; [apply klt_kle|].
    + rewrite !drop_0. symmetry. by apply filter_all.
  - destruct Hwf as [_ Hk]. cbn [range_descend node_entries]. fold (kids_entries kids).
    destruct (start_key start) as [k|] eqn:Hsk.
    + assert (match start with Included k => route bounds k | Excluded k => route bounds k
        | Unbounded => 0%nat end = route bounds k) as -> by (destruct start; simplify_eq/=; done).
      destruct (route_split h lo hi bounds kids k Hk (Hw k eq_refl)) as (kid & Hi & Hkid & Hkw & Hb & Ha).
      rewrite at_index_lookup, Hi. cbn [fmap option_fmap option_map mjoin option_join].
      destruct (IH _ _ kid ((kids, S (route bounds k)) :: st) Hkid) as (st' & ks & vs & -> & Hst' & Hl & He).
      { by intros k' [= <-]. }
      { apply stack_ok_cons. split; [|done]. intros kd Hkd. by eapply wf_kids_some_wf. }
      exists st', ks, vs. split_and!; [done..|]. rewrite He.
      rewrite (kids_entries_split kids _ kid Hi), !filter_app.
      rewrite (after_start_below start k (kids_entries (take _ _))), (after_start_above start k (kids_entries (drop _ _))) by done.
      simpl. by rewrite <-app_assoc.
    + assert (start = Unbounded) as -> by by destruct start.
      pose proof Hk as (_ & Hne & Hkids). destruct kids as [|kid kids]; [done|]. simpl.
      destruct (IH _ _ kid ((kid :: kids, 1%nat) :: st) (Hkids 0%nat kid eq_refl)) as
        (st' & ks & vs & -> & Hst' & Hl & He).
      { done. }
      { apply stack_ok_cons. split; [|done]. intros kd Hkd. by eapply wf_kids_some_wf. }
      exists st', ks, vs. split_and!; [done..|]. rewrite He, kids_entries_cons.
      rewrite !(filter_all (λ p : K * V, after_start Unbounded p.1)) by done. simpl. by rewrite <-app_assoc.
Qed.

Lemma range_spec m es p start end_ :
  holds m es p → range_ok start end_ = true →
  ∃ it, range m start end_ = Some it ∧ iter_ok it ∧ bound it = end_
        ∧ rem it = filter (λ q, after_start start q.1) es.
Proof.
  intros Hm Hok. unfold range. rewrite Hok. unfold holds in Hm. destruct (root m) as [n|].
  - destruct Hm as (h & Hwf & -> & _).
    destruct (range_descend_spec start h None None n [] Hwf) as (st & ks & vs & -> & Hst & Hl & He).
    { intros; apply within_all. }
    { by intros ? ?%elem_of_nil. }
    eexists. split; [done|]. split; [done|]. split; [done|]. unfold rem. cbn [keys vals stack].
    rewrite He. simpl. by rewrite app_nil_r.
  - destruct Hm as (-> & _). eexists. split; [done|]. split; [split; [done|by intros ? ?%elem_of_nil]|].
    split; [done|]. done.
Qed.

(** ** Proofs: backwards *)

Definition stack_rem_rev (st : list (list node * nat)) : list (K * V) :=
  foldr (λ '(kids, left_) acc, acc ++ kids_entries (take left_ kids)) [] st.

Definition rem_rev (it : iter) : list (K * V) := stack_rem_rev (stack it) ++ zip (keys it) (vals it).

(** Frames of a reverse iterator point within their node. *)
Definition stack_in (st : list (list node * nat)) : Prop := ∀ f, f ∈ st → (f.2 ≤ length f.1)%nat.

Lemma stack_in_cons f st : stack_in (f :: st) ↔ (f.2 ≤ length f.1)%nat ∧ stack_in st.
Proof. unfold stack_in. setoid_rewrite elem_of_cons. naive_solver. Qed.

Definition iter_rev_ok (it : iter) : Prop := iter_ok it ∧ stack_in (stack it).

Lemma take_pred_kids kids (kid : node) :
  kids !! pred (length kids) = Some kid →
  kids_entries kids = kids_entries (take (pred (length kids)) kids) ++ node_entries kid.
Proof.
  intros Hi. rewrite (kids_entries_split kids _ kid Hi), (drop_ge kids) by lia. simpl. by rewrite app_nil_r.
Qed.

Lemma rightmost_spec n st :
  some_wf n → stack_ok st → stack_in st →
  ∃ st' ks vs, rightmost n st = Some (st', ks, vs) ∧ stack_ok st' ∧ stack_in st'
    ∧ length ks = length vs ∧ ks ≠ []
    ∧ stack_rem_rev st' ++ zip ks vs = stack_rem_rev st ++ node_entries n.
Proof.
  intros (h & lo & hi & Hwf). revert lo hi n st Hwf.
  induction h as [|h IH]; intros lo hi [ks vs|bounds kids] st Hwf Hst Hin; try done.
  - destruct Hwf as (? & ? & _). by exists st, ks, vs.
  - destruct Hwf as [_ Hk]. cbn [rightmost]. rewrite at_index_lookup.
    pose proof Hk as (_ & Hne & Hkids).
    destruct (lookup_lt_is_Some_2 kids (pred (length kids))) as [kid Hkid]; [destruct kids; [done|simpl; lia]|].
    rewrite Hkid. cbn [fmap option_fmap option_map mjoin option_join].
    destruct (IH _ _ kid ((kids, pred (length kids)) :: st) (Hkids _ kid Hkid)) as
      (st' & ks & vs & -> & Hst' & Hin' & Hl & Hks & He).
    { apply stack_ok_cons. split; [|done]. intros kd Hkd. by eapply wf_kids_some_wf. }
    { apply stack_in_cons. split; [simpl; lia|done]. }
    exists st', ks, vs. split_and!; [done..|]. rewrite He. cbn [stack_rem_rev foldr node_entries].
    fold (kids_entries kids). rewrite (take_pred_kids kids kid Hkid). by rewrite <-app_assoc.
Qed.

Lemma split_last_snoc {A} (l : list A) x : split_last (l ++ [x]) = Some (x, l).
Proof.
  unfold split_last. rewrite last_snoc, length_app, Nat.add_comm. simpl.
  by rewrite take_app_length.
Qed.

Lemma zip_snoc (ks : list K) (vs : list V) k v :
  length ks = length vs → zip (ks ++ [k]) (vs ++ [v]) = zip ks vs ++ [(k, v)].
Proof. intros Hl. by rewrite zip_with_app. Qed.

Lemma pair_snoc (ks : list K) (vs : list V) :
  length ks = length vs →
  (ks = [] ∧ vs = []) ∨ ∃ ks' vs' k v, ks = ks' ++ [k] ∧ vs = vs' ++ [v] ∧ length ks' = length vs'.
Proof.
  intros Hl. destruct ks as [|k ks _] using rev_ind; destruct vs as [|v vs _] using rev_ind;
    rewrite ?length_app in Hl; simpl in Hl; [by left|lia|lia|right]. exists ks, vs, k, v. split_and!; [done..|lia].
Qed.

Lemma next_rev_loop_spec fuel it :
  iter_rev_ok it → (2 + length (stack it) ≤ fuel)%nat →
  match reverse (rem_rev it) with
  | p :: rest =>
      if past_start (bound it) p.1 then ∃ it', next_rev_loop fuel it = Some (None, it')
      else ∃ it', next_rev_loop fuel it = Some (Some p, it') ∧ iter_rev_ok it'
                  ∧ reverse (rem_rev it') = rest ∧ bound it' = bound it
  | [] => ∃ it', next_rev_loop fuel it = Some (None, it')
  end.
Proof.
  (* a leaf that still has entries answers at once *)
  assert (∀ fuel st ks vs k v b, length ks = length vs → stack_ok st → stack_in st →
    match reverse (stack_rem_rev st ++ zip (ks ++ [k]) (vs ++ [v])) with
    | p :: rest =>
        if past_start b p.1 then ∃ it', next_rev_loop (S fuel) (mk_iter st (ks ++ [k]) (vs ++ [v]) b) = Some (None, it')
        else ∃ it', next_rev_loop (S fuel) (mk_iter st (ks ++ [k]) (vs ++ [v]) b) = Some (Some p, it')
                    ∧ iter_rev_ok it' ∧ reverse (rem_rev it') = rest ∧ bound it' = b
    | [] => False
    end) as Hleaf.
  { intros fuel' st ks vs k v b Hl Hst Hin. rewrite zip_snoc, app_assoc, reverse_snoc by done.
    cbn [next_rev_loop keys vals stack bound fst]. rewrite !split_last_snoc.
    destruct (past_start b k); [by eexists|]. eexists. split; [done|]. done. }
  revert it; induction fuel as [|fuel IH]; intros [st ks vs b] [[Hlen Hst] Hin] Hf; [lia|].
  cbn [keys vals stack] in *. unfold rem_rev. cbn [keys vals stack bound].
  destruct (pair_snoc ks vs Hlen) as [[-> ->]|(ks' & vs' & k & v & -> & -> & Hl)].
  2:{ specialize (Hleaf fuel st ks' vs' k v b Hl Hst Hin). by destruct (reverse _). }
  rewrite app_nil_r. cbn [next_rev_loop keys vals stack bound split_last last].
  destruct st as [|[kids left_] st]; [simpl; by eexists|].
  apply stack_ok_cons in Hst as [Hkids Hst]. apply stack_in_cons in Hin as [Hleft Hin].
  cbn [fst snd] in Hkids, Hleft. cbn [length] in Hf. destruct left_ as [|left_]; cbn [mbind option_bind].
  - specialize (IH (mk_iter st [] [] b) ltac:(done) ltac:(simpl; lia)).
    unfold rem_rev in IH. cbn [keys vals stack bound] in IH. rewrite app_nil_r in IH.
    cbn [stack_rem_rev foldr take]. by rewrite app_nil_r.
  - destruct (lookup_lt_is_Some_2 kids left_) as [kid Hkid]; [lia|].
    rewrite at_index_lookup, Hkid. cbn [fmap option_fmap option_map mjoin option_join].
    destruct (rightmost_spec kid ((kids, left_) :: st)) as (st' & ks & vs & -> & Hst' & Hin' & Hl & Hks & He).
    { apply Hkids. by eapply list_elem_of_lookup_2. }
    { by apply stack_ok_cons. }
    { apply stack_in_cons. split; [simpl; lia|done]. }
    assert (stack_rem_rev ((kids, S left_) :: st) = stack_rem_rev st' ++ zip ks vs) as ->.
    { rewrite He. cbn [stack_rem_rev foldr]. rewrite (take_S_r kids left_ kid Hkid), kids_entries_app.
      rewrite <-app_assoc. f_equal. f_equal. unfold kids_entries. simpl. by rewrite app_nil_r. }
    cbn [mbind option_bind]. destruct fuel as [|fuel]; [lia|].
    destruct (pair_snoc ks vs Hl) as [[-> ->]|(ks' & vs' & k & v & -> & -> & Hl')]; [done|].
    specialize (Hleaf fuel st' ks' vs' k v b Hl' Hst' Hin'). by destruct (reverse _).
Qed.

Lemma collect_rev_spec fuel it :
  iter_rev_ok it → (length (rem_rev it) < fuel)%nat →
  collect_rev fuel it = Some (take_until (past_start (bound it)) (reverse (rem_rev it))).
Proof.
  revert it; induction fuel as [|fuel IH]; intros it Hok Hf; [lia|]. cbn [collect_rev].
  pose proof (next_rev_loop_spec (S (S (length (stack it)))) it Hok ltac:(lia)) as Hn.
  rewrite <-length_reverse in Hf. unfold next_rev. destruct (reverse (rem_rev it)) as [|p rest] eqn:Hr.
  - destruct Hn as (it' & ->). done.
  - cbn [take_until]. destruct (past_start (bound it) p.1).
    + destruct Hn as (it' & ->). done.
    + destruct Hn as (it' & -> & Hok' & Hr' & Hb'). cbn [mbind option_bind]. simpl in Hf.
      rewrite IH; [|done|rewrite <-length_reverse, Hr'; lia]. by rewrite Hr', Hb'.
Qed.

Lemma before_end_below end_ k (es : list (K * V)) :
  start_key end_ = Some k → all_below es k → filter (λ p, before_end end_ p.1) es = es.
Proof.
  intros Hk Ha. apply filter_all. intros [x v] Hx. cbn [fst].
  assert (x <ₖ k) as Hkx by (apply Ha, list_elem_of_fmap; by exists (x, v)).
  destruct end_; simplify_eq/=; apply bool_decide_eq_false; [apply not_klt|apply not_kle]; eauto using klt_kle.
Qed.

Lemma before_end_above end_ k (es : list (K * V)) :
  start_key end_ = Some k → all_above es k → filter (λ p, before_end end_ p.1) es = [].
Proof.
  intros Hk Ha. apply filter_none. intros [x v] Hx. cbn [fst]. apply not_false_iff_true.
  assert (k <ₖ x) as Hkx by (apply Ha, list_elem_of_fmap; by exists (x, v)).
  destruct end_; simplify_eq/=; apply bool_decide_eq_true; eauto using klt_kle.
Qed.

Lemma range_rev_descend_spec end_ h lo hi n st :
  wf h lo hi n → (∀ k, start_key end_ = Some k → within lo hi k) → stack_ok st → stack_in st →
  ∃ st' ks vs, range_rev_descend end_ n st = Some (st', ks, vs) ∧ stack_ok st' ∧ stack_in st'
    ∧ length ks = length vs
    ∧ stack_rem_rev st' ++ zip ks vs = stack_rem_rev st ++ filter (λ p, before_end end_ p.1) (node_entries n).
Proof.
  revert lo hi n st; induction h as [|h IH]; intros lo hi [ks vs|bounds kids] st Hwf Hw Hst Hin; try done.
  - destruct Hwf as (Hl & _ & _ & Hs & _). cbn [range_rev_descend].
    set (to := match end_ with Included _ => _ | Excluded _ => _ | Unbounded => _ end).
    assert (to ≤ length ks)%nat as Hto by (unfold to; destruct end_; try apply partition_point_le; lia).
    rewrite !slice_to_take by lia. cbn [mbind option_bind]. eexists st, _, _. split; [done|].
    split; [done|]. split; [done|]. split; [rewrite !length_take; lia|]. f_equal.
    unfold to. cbn [node_entries].
    assert (∀ p : K → bool, (∀ x y, x <ₖ y → p y = true → p x = true) →
      (∀ x, p x = true ↔ past_end end_ x = false) →
      zip (take (partition_point p ks) ks) (take (partition_point p ks) vs)
      = filter (λ q, past_end end_ q.1 = false) (zip ks vs)) as Hcut.
    { intros p Hp Hpe. rewrite (proj2 (partition_drop_filter p ks vs Hs Hl Hp)).
      apply list_filter_iff. intros q. apply Hpe. }
    destruct end_ as [k|k|]; cbn [past_end] in *.
    + apply Hcut; [intros x y Hxy; rewrite !bool_decide_eq_true; intros;
        by eapply kle_trans; [apply klt_kle|]|].
      intros x. rewrite bool_decide_eq_true, bool_decide_eq_false. symmetry. apply not_klt.
    + apply Hcut; [intros x y Hxy; rewrite !bool_decide_eq_true; by etrans|].
      intros x. rewrite bool_decide_eq_true, bool_decide_eq_false. symmetry. apply not_kle.
    + rewrite !take_ge by lia. symmetry. by apply filter_all.
  - destruct Hwf as [_ Hk]. cbn [range_rev_descend node_entries]. fold (kids_entries kids).
    set (i := match end_ with Included k => _ | Excluded k => _ | Unbounded => _ end).
    assert (∃ kid, kids !! i = Some kid ∧ wf h (kid_lo lo bounds i) (kid_hi hi bounds i) kid
      ∧ (∀ k, start_key end_ = Some k → within (kid_lo lo bounds i) (kid_hi hi bounds i) k)
      ∧ filter (λ p, before_end end_ p.1) (kids_entries (take i kids)) = kids_entries (take i kids)
      ∧ filter (λ p, before_end end_ p.1) (kids_entries (drop (S i) kids)) = []) as
      (kid & Hi & Hkid & Hkw & Hb & Ha).
    { destruct (start_key end_) as [k|] eqn:Hsk.
      - assert (i = route bounds k) as -> by (unfold i; destruct end_; simplify_eq/=; done).
        destruct (route_split h lo hi bounds kids k Hk (Hw k eq_refl)) as (kid & ? & ? & ? & ? & ?).
        exists kid. split_and!; [done|done|by intros ? [= <-]|by eapply before_end_below|by eapply before_end_above].
      - assert (end_ = Unbounded) as -> by by destruct end_. subst i.
        pose proof Hk as (_ & Hne & Hkids).
        destruct (lookup_lt_is_Some_2 kids (pred (length kids))) as [kid Hkid];
          [destruct kids; [done|simpl; lia]|].
        exists kid. split_and!; [done|by apply Hkids|done|by apply filter_all|].
        by rewrite (drop_ge kids) by lia. }
    rewrite at_index_lookup, Hi. cbn [fmap option_fmap option_map mjoin option_join].
    destruct (IH _ _ kid ((kids, i) :: st) Hkid Hkw) as (st' & ks & vs & -> & Hst' & Hin' & Hl & He).
    { apply stack_ok_cons. split; [|done]. intros kd Hkd. by eapply wf_kids_some_wf. }
    { apply stack_in_cons. split; [|done]. simpl. apply lookup_lt_Some in Hi. lia. }
    exists st', ks, vs. split_and!; [done..|]. rewrite He.
    rewrite (kids_entries_split kids _ kid Hi), !filter_app, Hb, Ha, app_nil_r.
    cbn [stack_rem_rev foldr]. by rewrite <-app_assoc.
Qed.

Lemma range_rev_spec m es p start end_ :
  holds m es p → range_ok start end_ = true →
  ∃ it, range_rev m start end_ = Some it ∧ iter_rev_ok it ∧ bound it = start
        ∧ rem_rev it = filter (λ q, before_end end_ q.1) es.
Proof.
  assert (stack_ok [] ∧ stack_in []) as [Hst0 Hin0] by (split; by intros ? ?%elem_of_nil).
  intros Hm Hok. unfold range_rev. rewrite Hok. unfold holds in Hm. destruct (root m) as [n|].
  - destruct Hm as (h & Hwf & -> & _).
    destruct (range_rev_descend_spec end_ h None None n [] Hwf) as (st & ks & vs & -> & Hst & Hin & Hl & He);
      [intros; apply within_all|done..|].
    eexists. split; [done|]. by split_and!.
  - destruct Hm as (-> & _). eexists. split; [done|]. by split_and!.
Qed.

Lemma take_until_reverse start l :
  sorted l.*1 → take_until (past_start start) (reverse l) = reverse (filter (λ p, after_start start p.1) l).
Proof.
  induction l as [|[k v] l IH] using rev_ind; [done|].
  rewrite fmap_app. intros (Hs & _ & Hlt)%sorted_app. rewrite reverse_snoc, filter_app. cbn [take_until fst].
  destruct (past_start start k) eqn:E.
  - rewrite filter_cons_False by (simpl; by rewrite E). rewrite filter_nil, app_nil_r.
    rewrite filter_none; [done|]. intros [x w] Hx. cbn [fst]. apply not_false_iff_true.
    assert (x <ₖ k) as Hkx by (apply Hlt; [apply list_elem_of_fmap; by exists (x, w)|by left]).
    destruct start as [e|e|]; simpl in *; [| |done]; apply bool_decide_eq_true; apply bool_decide_eq_true in E.
    + by etrans.
    + by eapply klt_kle, klt_kle_trans.
  - rewrite filter_cons_True by done. rewrite filter_nil, reverse_snoc. f_equal. auto.
Qed.

(** ** Proofs: building *)

(** The range of a well-formed node is a matter of its keys alone. *)
Lemma wf_retighten h lo hi lo' hi' (n : node) :
  wf h lo hi n → (∀ x, x ∈ (node_entries n).*1 → within lo' hi' x) → wf h lo' hi' n.
Proof.
  revert lo hi lo' hi' n; induction h as [|h IH]; intros lo hi lo' hi' [ks vs|bounds kids] Hwf Hin; try done.
  - destruct Hwf as (Hl & Hne & Hm & Hs & _). cbn [node_entries] in Hin. rewrite zip_fst in Hin by done.
    by split_and!.
  - destruct Hwf as [Hm (Hl & Hne & Hk)]. split; [done|]. split_and!; [done..|]. intros i kid Hi.
    specialize (Hk i kid Hi). eapply IH; [done|]. intros x Hx.
    destruct (wf_entries _ _ _ _ Hk) as (_ & _ & Hold). specialize (Hold x Hx) as [Ho1 Ho2].
    assert (within lo' hi' x) as [Hn1 Hn2].
    { apply Hin. cbn [node_entries]. fold (kids_entries kids). apply elem_of_kids_entries. eauto. }
    unfold kid_lo, kid_hi in *. split; [by destruct i|]. destruct (bounds !! S i); auto.
Qed.

(** A level of the tree being built: nodes of height [h], each with its first
    key, the entries in order. *)
Definition level_ok (h : nat) (level : list (K * node)) (es : list (K * V)) : Prop :=
  kids_entries level.*2 = es ∧
  ∀ b n, (b, n) ∈ level → wf h None None n ∧ ∃ v rest, node_entries n = (b, v) :: rest.

Lemma per_val : per = 24%nat.
Proof. done. Qed.

Lemma flush_level level es ks vs :
  level_ok 0 level es → length ks = length vs → (1 ≤ length ks ≤ per)%nat → sorted ks →
  ∃ level', flush ks vs level = Some level' ∧ level_ok 0 level' (es ++ zip ks vs).
Proof.
  intros [He Hn] Hl Hk Hs. destruct ks as [|k ks]; [simpl in Hk; lia|]. unfold flush. cbn [head mbind option_bind].
  eexists. split; [done|]. split.
  - rewrite fmap_app, kids_entries_app, He. unfold kids_entries. simpl. by rewrite app_nil_r.
  - intros b n [Hin|Hin]%elem_of_app; [auto|]. apply list_elem_of_singleton in Hin. simplify_eq.
    destruct vs as [|v vs]; [done|]. split; [|by exists v, (zip ks vs)].
    split_and!; [done|done|rewrite per_val in Hk; unfold NODE_MAX; lia|done|]. intros; apply within_all.
Qed.

Lemma build_leaves_spec es ks vs level es0 :
  level_ok 0 level es0 → length ks = length vs → (length ks < per)%nat →
  sorted (ks ++ es.*1) →
  ∃ level', build_leaves es ks vs level = Some level' ∧ level_ok 0 level' (es0 ++ zip ks vs ++ es).
Proof.
  revert ks vs level es0; induction es as [|[k v] es IH]; intros ks vs level es0 Hlev Hl Hk Hs; cbn [build_leaves].
  - simpl in Hs. rewrite !app_nil_r in *. destruct ks as [|k0 ks0] eqn:E.
    + exists level. split; [done|]. simpl. by rewrite app_nil_r.
    + rewrite <-E in *. apply flush_level; [done..| |done]. subst. simpl in *. lia.
  - assert (length (ks ++ [k]) = length (vs ++ [v])) as Hl' by (rewrite !length_app; simpl; lia).
    cbn [fmap list_fmap fst] in Hs. rewrite cons_middle, (app_assoc ks [k]) in Hs.
    assert (zip ks vs ++ (k, v) :: es = zip (ks ++ [k]) (vs ++ [v]) ++ es) as ->
      by (rewrite zip_snoc, <-app_assoc by done; done).
    destruct (Nat.eqb_spec (length (ks ++ [k])) per) as [Hp|Hp].
    + pose proof Hs as (Hs1 & Hs2 & _)%sorted_app.
      destruct (flush_level level es0 (ks ++ [k]) (vs ++ [v])) as (level1 & -> & Hlev1);
        [done|done|rewrite Hp; split; [by vm_compute; lia|lia]|done|].
      cbn [mbind option_bind].
      destruct (IH [] [] level1 _ Hlev1) as (level2 & Hb & Hlev2); [done|rewrite per_val; simpl; lia|done|].
      exists level2. split; [done|]. simpl in Hlev2. by rewrite <-app_assoc in Hlev2.
    + apply IH; [done|done| |done]. rewrite length_app in *. simpl in *. lia.
Qed.

Lemma level_group h (group : list (K * node)) :
  (1 ≤ length group ≤ NODE_MAX)%nat → level_ok h group (kids_entries group.*2) →
  sorted (kids_entries group.*2).*1 →
  ∃ b, head group.*1 = Some b ∧ wf (S h) None None (Internal group.*1 group.*2)
       ∧ ∃ v rest, kids_entries group.*2 = (b, v) :: rest.
Proof.
  intros Hlen [_ Hn] Hs. destruct group as [|[b n] group0] eqn:Eg; [simpl in Hlen; lia|]. rewrite <-Eg in *.
  exists b. split; [by subst|]. split.
  2:{ destruct (Hn b n) as (_ & v & rest & He); [subst; by left|]. subst. cbn [fmap list_fmap snd].
      rewrite kids_entries_cons, He. by exists v, (rest ++ kids_entries group0.*2). }
  split; [rewrite length_fmap; lia|]. split_and!; [by rewrite !length_fmap|by subst|].
  intros i kid Hi. rewrite list_lookup_fmap in Hi. apply fmap_Some in Hi as ([bi ni] & Hi & ->). cbn [snd].
  destruct (Hn bi ni) as (Hwf & v & rest & He); [by eapply list_elem_of_lookup_2|].
  eapply wf_retighten; [done|]. intros x Hx. unfold kid_lo, kid_hi. rewrite !list_lookup_fmap, Hi.
  pose proof (kids_entries_split group.*2 i ni ltac:(by rewrite list_lookup_fmap, Hi)) as Hsplit.
  rewrite Hsplit, !fmap_app in Hs. apply sorted_app in Hs as (_ & (Hs2 & _ & Hlt)%sorted_app & _). split.
  - destruct i; [done|]. cbn [fmap option_fmap option_map fst]. intros l [= <-]. rewrite He in Hx, Hs2.
    cbn [fmap list_fmap fst] in Hx, Hs2. apply sorted_cons in Hs2 as [_ Hs2].
    apply kle_lt_eq. apply elem_of_cons in Hx as [->|Hx]; [by right|left; auto].
  - destruct (group !! S i) as [[b2 n2]|] eqn:Hi2; [|done]. cbn [fmap option_fmap option_map fst].
    intros hh [= <-]. apply Hlt; [done|].
    destruct (Hn b2 n2) as (_ & v2 & rest2 & He2); [by eapply list_elem_of_lookup_2|].
    apply elem_of_kids_entries. exists 0%nat, n2. rewrite lookup_drop, Nat.add_0_r, list_lookup_fmap, Hi2.
    split; [done|]. rewrite He2. by left.
Qed.

Lemma level_ok_app h l1 l2 es :
  level_ok h (l1 ++ l2) es ↔
  level_ok h l1 (kids_entries l1.*2) ∧ level_ok h l2 (kids_entries l2.*2)
  ∧ es = kids_entries l1.*2 ++ kids_entries l2.*2.
Proof.
  unfold level_ok. rewrite fmap_app, kids_entries_app. setoid_rewrite elem_of_app. naive_solver.
Qed.

Lemma build_parents_spec h fuel level es :
  level_ok h level es → sorted es.*1 → (length level ≤ fuel)%nat →
  ∃ level', build_parents fuel level = Some level' ∧ level_ok (S h) level' es
            ∧ (length level' ≤ length level)%nat
            ∧ (2 ≤ length level → length level' < length level)%nat.
Proof.
  revert level es; induction fuel as [|fuel IH]; intros level es Hlev Hs Hf.
  { destruct level; [|simpl in Hf; lia]. exists []. split_and!; [done| |lia|simpl; lia].
    destruct Hlev as [<- _]. split; [done|]. by intros ?? ?%elem_of_nil. }
  destruct level as [|p level0] eqn:El.
  { exists []. split_and!; [done| |lia|simpl; lia].
    destruct Hlev as [<- _]. split; [done|]. by intros ?? ?%elem_of_nil. }
  rewrite <-El in *. assert (1 ≤ length level)%nat as Hpos by (subst; simpl; lia).
  assert (build_parents (S fuel) level =
    (k ← head (take per level).*1; rest ← build_parents fuel (drop per level);
     Some ((k, Internal (take per level).*1 (take per level).*2) :: rest))) as -> by by subst.
  clear El.
  rewrite <-(take_drop per level) in Hlev. apply level_ok_app in Hlev as (H1 & H2 & ->).
  rewrite fmap_app in Hs. apply sorted_app in Hs as (Hs1 & Hs2 & _).
  destruct (level_group h (take per level)) as (b & -> & Hwf & v & rest & He);
    [rewrite length_take, per_val; unfold NODE_MAX; lia|done|done|]. cbn [mbind option_bind].
  destruct (IH (drop per level) _ H2 Hs2) as (level' & -> & [He' Hn'] & Hle & _);
    [rewrite length_drop, per_val; lia|]. cbn [mbind option_bind].
  rewrite length_drop, per_val in Hle.
  eexists. split; [done|]. split; [split|].
  - cbn [fmap list_fmap snd]. rewrite kids_entries_cons, He'. done.
  - intros b' n' [Hin|Hin]%elem_of_cons; [|auto]. simplify_eq. split; [done|]. cbn [node_entries].
    fold (kids_entries (take per level).*2). rewrite He. by exists v, rest.
  - simpl. lia.
Qed.

(** *** The potential of a built tree

    A level built from [N] entries has about [N / 24^(h+1)] nodes of at most 24
    entries each, so below 2^64 entries the tree stays far under the depth
    budget. *)

Definition level_cost (h : nat) (level : list (K * node)) : Z := sum_Z (map (λ p, phi h p.2) level).

Lemma level_cost_app h l1 l2 : level_cost h (l1 ++ l2) = level_cost h l1 + level_cost h l2.
Proof. unfold level_cost. by rewrite map_app, sum_Z_app. Qed.

Lemma excess_le w : (w ≤ 24)%nat → 0 ≤ excess w ≤ 7.
Proof. unfold excess. lia. Qed.

Lemma build_leaves_cost es ks vs level level' :
  build_leaves es ks vs level = Some level' → (length ks < per)%nat →
  24 * Z.of_nat (length level') ≤ 24 * Z.of_nat (length level) + Z.of_nat (length ks + length es) + 23 ∧
  level_cost 0 level' ≤ level_cost 0 level + 7 * (Z.of_nat (length level') - Z.of_nat (length level)).
Proof.
  rewrite per_val. revert ks vs level; induction es as [|[k v] es IH]; intros ks vs level; cbn [build_leaves].
  - destruct ks as [|k ks]; intros Hb Hk; [simplify_eq/=; lia|].
    apply bind_Some in Hb as (k0 & _ & Hb). simplify_eq. cbn [length] in Hk.
    rewrite level_cost_app, length_app. unfold level_cost at 2, sum_Z. cbn [map foldr snd phi length].
    pose proof (excess_le (S (length ks)) ltac:(lia)). lia.
  - destruct (Nat.eqb_spec (length (ks ++ [k])) per) as [Hp|Hp]; intros Hb Hk.
    + apply bind_Some in Hb as (level1 & Hf & Hb). apply bind_Some in Hf as (k0 & _ & Hf). simplify_eq.
      apply IH in Hb as [H1 H2]; [|simpl; lia].
      rewrite level_cost_app in H2. unfold level_cost at 3, sum_Z in H2. cbn [map foldr snd phi] in H2.
      rewrite !length_app in *. rewrite per_val in Hp. simpl length in *.
      pose proof (excess_le (length ks + 1) ltac:(lia)). lia.
    + apply IH in Hb as [H1 H2]; rewrite length_app in *; simpl length in *; rewrite per_val in Hp; lia.
Qed.

Lemma build_parents_cost h fuel level level' :
  build_parents fuel level = Some level' →
  24 * Z.of_nat (length level') ≤ Z.of_nat (length level) + 23 ∧
  level_cost (S h) level' ≤ level_cost h level + 7 * 16 ^ Z.of_nat (S h) * Z.of_nat (length level').
Proof.
  revert level level'; induction fuel as [|fuel IH]; intros level level' Hb; destruct level as [|p level0] eqn:El;
    try done; try (simplify_eq/=; unfold level_cost, sum_Z; simpl; lia).
  rewrite <-El in *. assert (1 ≤ length level)%nat as Hpos by (subst; simpl; lia).
  assert (build_parents (S fuel) level =
    (k ← head (take per level).*1; rest ← build_parents fuel (drop per level);
     Some ((k, Internal (take per level).*1 (take per level).*2) :: rest))) as E by by subst.
  rewrite E in Hb. clear El E. apply bind_Some in Hb as (k & _ & Hb). apply bind_Some in Hb as (rest & Hb & Hr).
  simplify_eq. apply IH in Hb as [H1 H2]. rewrite length_drop, per_val in H1.
  assert (level_cost h level = level_cost h (take per level) + level_cost h (drop per level)) as Hlc
    by by rewrite <-level_cost_app, take_drop.
  assert (level_cost h (take per level) = sum_Z (map (phi h) (take per level).*2)) as Hc.
  { unfold level_cost. f_equal. change ((take per level).*2) with (map snd (take per level)). by rewrite map_map. }
  assert (length (take per level).*2 ≤ 24)%nat as H24 by (rewrite length_fmap, length_take, per_val; lia).
  pose proof (excess_le _ H24) as Hex.
  assert (level_cost (S h) ((k, Internal (take per level).*1 (take per level).*2) :: rest) =
    excess (length (take per level).*2) * 16 ^ Z.of_nat (S h) + level_cost h (take per level)
    + level_cost (S h) rest) as -> by by rewrite Hc.
  cbn [length]. split; [lia|]. assert (0 < 16 ^ Z.of_nat (S h)) by lia. nia.
Qed.

(** The invariant of the levels of a tree of [N] entries. *)
Definition level_small (N : Z) (h : nat) (level : list (K * node)) : Prop :=
  (Z.of_nat (length level) - 1) * 24 ^ Z.of_nat (S h) < N
  ∧ level_cost h level ≤ 7 * N * Z.of_nat (S h) * 16 ^ Z.of_nat h
  ∧ Z.of_nat (length level) ≤ N.

Lemma leaves_small es level :
  es ≠ [] → build_leaves es [] [] [] = Some level → level_small (Z.of_nat (length es)) 0 level.
Proof.
  intros Hne Hb. apply build_leaves_cost in Hb as [H1 H2]; [|rewrite per_val; simpl; lia].
  simpl length in *. change (level_cost 0 []) with 0 in H2.
  assert (1 ≤ length es)%nat by (destruct es; [done|simpl; lia]).
  split_and!; [change (24 ^ Z.of_nat 1) with 24|change (16 ^ Z.of_nat 0) with 1|]; lia.
Qed.

Lemma parents_small N h fuel level level' :
  1 ≤ N → level_small N h level → build_parents fuel level = Some level' → level_small N (S h) level'.
Proof.
  intros HN (Hw & Hc & Hl) Hb. destruct (build_parents_cost h fuel level level' Hb) as [H1 H2].
  assert (0 < 24 ^ Z.of_nat (S h)) as P1 by lia. assert (0 < 16 ^ Z.of_nat h) as P2 by lia.
  assert (Z.of_nat (length level') ≤ N) as HlN by lia.
  split_and!; [| |lia].
  - rewrite (Nat2Z.inj_succ (S h)), Z.pow_succ_r by lia. nia.
  - rewrite pow16_S in *. rewrite (Nat2Z.inj_succ (S h)).
    assert (7 * (16 * 16 ^ Z.of_nat h) * Z.of_nat (length level') ≤ 7 * (16 * 16 ^ Z.of_nat h) * N) by nia.
    assert (0 ≤ N * Z.of_nat (S h) * 16 ^ Z.of_nat h) by nia. nia.
Qed.

Lemma small_height N h level :
  N < 2 ^ 64 → level_small N h level → (2 ≤ length level)%nat → (S h ≤ 13)%nat.
Proof.
  intros HN (Hw & _) H2. destruct (decide (S h ≤ 13)%nat) as [|Hgt]; [done|exfalso].
  assert (24 ^ 14 ≤ 24 ^ Z.of_nat (S h)) as Hp by (apply Z.pow_le_mono_r; lia).
  assert (2 ^ 64 ≤ 24 ^ 14) by (vm_compute; discriminate). nia.
Qed.

Lemma build_up_spec N h fuel level es :
  level_ok h level es → sorted es.*1 → (length level ≤ S fuel)%nat →
  1 ≤ N < 2 ^ 64 → level_small N h level → (h ≤ 13)%nat →
  ∃ level' h', build_up fuel level = Some level' ∧ level_ok h' level' es ∧ (length level' ≤ 1)%nat
               ∧ level_small N h' level' ∧ (h' ≤ 13)%nat.
Proof.
  revert h level; induction fuel as [|fuel IH]; intros h level Hlev Hs Hf HN Hsm Hh; cbn [build_up].
  - rewrite (proj2 (Nat.leb_le _ _)) by done. by exists level, h.
  - destruct (Nat.leb_spec (length level) 1) as [H1|H1]; [by exists level, h|].
    destruct (build_parents_spec h (length level) level es Hlev Hs) as (level' & Hb & Hlev' & _ & Hlt); [lia|].
    rewrite Hb. cbn [mbind option_bind]. apply (IH (S h)); [done|done| |done| |].
    + specialize (Hlt ltac:(lia)). lia.
    + by eapply parents_small; [lia|..].
    + eapply small_height; [|done|lia]. lia.
Qed.

(** The potential of any tree built from fewer than 2^64 entries. *)
Definition built_potential : Z := 2 ^ 128.

Lemma tower_le h : (h ≤ 13)%nat → tower h ≤ 2 ^ 60.
Proof.
  intros Hh. etrans; [by apply (tower_mono h 13)|]. vm_compute. discriminate.
Qed.

Lemma from_sorted_holds es :
  sorted es.*1 → Z.of_nat (length es) < 2 ^ 64 → ∃ m, from_sorted es = Some m ∧ holds m es built_potential.
Proof.
  intros Hs Hlen. unfold from_sorted.
  destruct (build_leaves_spec es [] [] [] []) as (level & Hb & Hlev);
    [split; [done|by intros ?? ?%elem_of_nil]|done|rewrite per_val; simpl; lia|done|].
  simpl in Hlev. rewrite Hb. cbn [mbind option_bind]. destruct (decide (es = [])) as [->|Hne].
  { simpl in Hb. simplify_eq. eexists. split; [done|]. split_and!; [done|done|]. unfold built_potential. lia. }
  assert (1 ≤ length es)%nat by (destruct es; [done|simpl; lia]).
  destruct (build_up_spec (Z.of_nat (length es)) 0 (length level) level es Hlev Hs)
    as (level' & h & -> & [He Hn] & Hl & (_ & Hc & _) & Hh); [lia|lia|by apply leaves_small|lia|].
  cbn [mbind option_bind]. destruct level' as [|[b n] [|]]; [| |simpl in Hl; lia].
  - by simpl in He.
  - unfold kids_entries in He. simpl in He. rewrite app_nil_r in He. eexists. split; [done|].
    exists h. cbn [root len]. destruct (Hn b n) as [Hwf _]; [by left|].
    split; [done|]. split; [done|]. split; [done|].
    unfold level_cost, sum_Z in Hc. cbn [map foldr snd] in Hc. pose proof (tower_le h Hh).
    assert (16 ^ Z.of_nat h ≤ 16 ^ 13) as Hp by (apply Z.pow_le_mono_r; lia).
    change (16 ^ 13) with (2 ^ 52) in Hp. unfold built_potential.
    assert (0 < 16 ^ Z.of_nat h) by lia.
    assert (7 * Z.of_nat (length es) * Z.of_nat (S h) ≤ 7 * 2 ^ 64 * 14) by nia. 
    assert (7 * Z.of_nat (length es) * Z.of_nat (S h) * 16 ^ Z.of_nat h ≤ 7 * 2 ^ 64 * 14 * 2 ^ 52) by nia. cbn [snd]. lia.
Qed.
End iter.

(** [CowMap::iter] run to its end. *)
Lemma iter_all {K V} `{RustOrdLaws K} (m : CowMap.t K V) es p :
  CowMap.holds m es p →
  ∃ it, range m Unbounded Unbounded = Some it ∧ collect (S (CowMap.len m)) it = Some es.
Proof.
  intros Hm. destruct (range_spec m es _ Unbounded Unbounded Hm eq_refl) as (it & Hr & Hio & Hb & Hrem).
  destruct (CowMap.holds_len m es _ Hm) as [Hl _]. pose proof (CowMap.holds_sorted m _ _ Hm) as Hs.
  rewrite filter_all in Hrem by done. exists it. split; [done|].
  rewrite collect_spec, Hb, Hrem, take_until_filter, filter_all by (done || rewrite ?Hrem; lia). done.
Qed.

Abbreviation after_start start k := (past_start start k = false) (only parsing).
Abbreviation before_end end_ k := (past_end end_ k = false) (only parsing).

(** ** Claims *)

(** C4: over any totally ordered key type, any sequence of fewer than 2^64
    inserts, removals, lookups and in-place updates on an empty map runs
    without a panic (the path array of [find] never overflows, although
    underfull nodes are never merged) and answers exactly as the sorted
    association list does; the map left holds exactly its entries, in key
    order, and reports their number. *)
Theorem cow_map_refines {K V} `{RustOrdLaws K} (os : list (@CowMap.op K V)) :
  Z.of_nat (length os) < 2 ^ 64 →
  ∃ m, CowMap.run os CowMap.new = Some ((CowMap.spec_run os []).1, m)
       ∧ CowMap.entries m = (CowMap.spec_run os []).2
       ∧ CowMap.len m = length (CowMap.spec_run os []).2
       ∧ sorted (CowMap.entries m).*1
       ∧ (∀ k, CowMap.get m k = Some (alookup k (CowMap.spec_run os []).2)).
Proof.
  intros Hlen.
  destruct (CowMap.cow_run_holds os CowMap.new [] 0 CowMap.new_holds) as (m & Hrun & Hm);
    [unfold CowMap.depth_budget; lia|].
  exists m. split; [done|]. destruct (CowMap.holds_len m _ _ Hm) as [Hl He]. split; [done|]. split; [done|].
  split; [rewrite He; by eapply CowMap.holds_sorted|]. intros k. by eapply CowMap.get_holds.
Qed.

Lemma cow_map_refines_witness :
  ∃ m, CowMap.run [CowMap.OInsert 5 50; CowMap.OInsert 3 30; CowMap.ORemove 5; CowMap.OGet 3] CowMap.new
         = Some ([None; None; Some 50; Some 30], m)
       ∧ CowMap.entries m = [(3, 30)] ∧ CowMap.len m = 1%nat.
Proof.
  destruct (cow_map_refines (K := Z) (V := Z)
    [CowMap.OInsert 5 50; CowMap.OInsert 3 30; CowMap.ORemove 5; CowMap.OGet 3]) as (m & Hr & He & Hl & _).
  { vm_compute. reflexivity. }
  exists m. split; [exact Hr|]. split; [exact He|exact Hl].
Defined.

(** Over a map reached by any such sequence, [range] and [range_rev] panic
    exactly on an inverted range, and otherwise their iterators yield, one
    [next] at a time, the entries within the bounds in ascending (descending)
    key order: nothing missing, nothing twice, nothing outside. *)
Theorem cow_map_range {K V} `{RustOrdLaws K} (os : list (@CowMap.op K V)) (start end_ : Bound K) :
  Z.of_nat (length os) < 2 ^ 64 →
  ∃ m, CowMap.run os CowMap.new = Some ((CowMap.spec_run os []).1, m) ∧
    let es := filter (λ p, after_start start p.1)
                (filter (λ p, before_end end_ p.1) (CowMap.spec_run os []).2) in
    if range_ok start end_ then
      (∃ it, range m start end_ = Some it ∧ collect (S (CowMap.len m)) it = Some es) ∧
      (∃ it, range_rev m start end_ = Some it ∧ collect_rev (S (CowMap.len m)) it = Some (reverse es))
    else range m start end_ = None ∧ range_rev m start end_ = None.
Proof.
  intros Hlen.
  destruct (CowMap.cow_run_holds os CowMap.new [] 0 CowMap.new_holds) as (m & Hrun & Hm);
    [unfold CowMap.depth_budget; lia|]. exists m. split; [done|].
  destruct (CowMap.holds_len m _ _ Hm) as [Hl _]. pose proof (CowMap.holds_sorted m _ _ Hm) as Hs.
  generalize dependent (CowMap.spec_run os []). intros [rs es] _ Hm Hl Hs. cbn [fst snd] in *.
  destruct (range_ok start end_) eqn:Hok; [|unfold range, range_rev; by rewrite Hok]. split.
  - destruct (range_spec m es _ start end_ Hm Hok) as (it & Hr & Hio & Hb & Hrem).
    exists it. split; [done|]. rewrite collect_spec; [|done|rewrite Hrem, Hl; pose proof (length_filter (λ q, after_start start q.1) es); lia].
    rewrite Hb, Hrem, take_until_filter by by apply sorted_fmap_filter.
    by rewrite filter_comm.
  - destruct (range_rev_spec m es _ start end_ Hm Hok) as (it & Hr & Hio & Hb & Hrem).
    exists it. split; [done|]. rewrite collect_rev_spec; [|done|rewrite Hrem, Hl; pose proof (length_filter (λ q, before_end end_ q.1) es); lia].
    by rewrite Hb, Hrem, take_until_reverse by by apply sorted_fmap_filter.
Qed.

Lemma cow_map_range_witness :
  ∃ m, CowMap.run [CowMap.OInsert 5 50; CowMap.OInsert 3 30; CowMap.OInsert 9 90] CowMap.new
         = Some ([None; None; None], m) ∧
    (∃ it, range m (Included 4) (Excluded 10) = Some it
           ∧ collect (S (CowMap.len m)) it = Some [(5, 50); (9, 90)]) ∧
    (∃ it, range_rev m (Included 4) (Excluded 10) = Some it
           ∧ collect_rev (S (CowMap.len m)) it = Some [(9, 90); (5, 50)]).
Proof.
  destruct (cow_map_range (K := Z) (V := Z)
    [CowMap.OInsert 5 50; CowMap.OInsert 3 30; CowMap.OInsert 9 90] (Included 4) (Excluded 10))
    as (m & Hr & Hres).
  { vm_compute. reflexivity. }
  exists m. split; [exact Hr|exact Hres].
Defined.

(** [from_sorted] on entries with strictly ascending keys builds, without a
    panic, a well-formed map of exactly those entries: its length, its lookups
    and its iteration order are theirs. *)
Theorem cow_map_from_sorted {K V} `{RustOrdLaws K} (es : list (K * V)) :
  sorted es.*1 → Z.of_nat (length es) < 2 ^ 64 →
  ∃ m, from_sorted es = Some m ∧ CowMap.entries m = es ∧ CowMap.len m = length es
       ∧ (∀ k, CowMap.get m k = Some (alookup k es))
       ∧ ∃ it, range m Unbounded Unbounded = Some it ∧ collect (S (length es)) it = Some es.
Proof.
  intros Hs Hlen. destruct (from_sorted_holds es Hs Hlen) as (m & Hf & Hm). exists m. split; [done|].
  destruct (CowMap.holds_len m es _ Hm) as [Hl He]. split; [done|]. split; [done|].
  split; [intros k; by eapply CowMap.get_holds|].
  rewrite <-Hl. by eapply iter_all.
Qed.

Lemma cow_map_from_sorted_witness :
  ∃ m, from_sorted [(1, 10); (2, 20); (7, 70)] = Some m ∧ CowMap.entries m = [(1, 10); (2, 20); (7, 70)].
Proof.
  destruct (cow_map_from_sorted (K := Z) (V := Z) [(1, 10); (2, 20); (7, 70)]) as (m & Hf & He & _).
  { repeat constructor. }
  { vm_compute. reflexivity. }
  exists m. split; [exact Hf|exact He].
Defined.

(** The bounds of a reachable internal node need not be sorted: after
    inserting 51, 50, ..., 1 in that order the root's first bound is above its
    second.  [route] therefore asks [partition_point] about a slice that is not
    partitioned, whose answer the standard library's documentation leaves
    unspecified; the other theorems here hold because its halving loop happens not to let
    index 0 decide. *)
Theorem bounds_unsorted :
  ∃ m bounds kids,
    CowMap.run ((λ i, CowMap.OInsert (51 - Z.of_nat i) ()) <$> seq 0 51) CowMap.new
      = Some (replicate 51 None, m)
    ∧ CowMap.root m = Some (CowMap.Internal bounds kids) ∧ ¬ sorted bounds.
Proof.
  eexists _, _, _. split; [vm_compute; reflexivity|]. split; [reflexivity|].
  intros Hs%StronglySorted_inv. destruct Hs as [_ Hf]. rewrite Forall_cons in Hf. destruct Hf as [Hf _].
  vm_compute in Hf. discriminate.
Qed.
End CowMapIter.
