(* ===== verification/CowVec.v ===== *)
(** * The copy-on-write vector

    Models [CowVec] of [crates/core-storage/src/cow.rs]: a vector in chunks of
    [CHUNK] elements, each behind an [Arc].  A chunk is copied before a shared
    one is written, so chunks are immutable values here.  The abstract vector
    is the list [to_list]. *)

From S2P Require Import Prelude.

Definition CHUNK_BITS : nat := 7.
Definition CHUNK : nat := Nat.shiftl 1 CHUNK_BITS.
Definition CHUNK_MASK : nat := (CHUNK - 1)%nat.

Module CowVec.
Section cow_vec.
Context {A : Type}.

Record t := mk { chunks : list (list A); len : nat }.

Definition new : t := mk [] 0.
Definition is_empty (v : t) : bool := (len v =? 0)%nat.

(** [CowVec::get] *)
Definition get (v : t) (i : nat) : option A :=
  c ← chunks v !! Nat.shiftr i CHUNK_BITS; c !! Nat.land i CHUNK_MASK.

(** [CowVec::get_mut]: the element borrowed, and the vector after a write
    through the borrow. *)
Definition get_mut (v : t) (i : nat) : option (A * (A → t)) :=
  let ci := Nat.shiftr i CHUNK_BITS in
  c ← chunks v !! ci;
  if (length c <=? Nat.land i CHUNK_MASK)%nat then None
  else
    x ← c !! Nat.land i CHUNK_MASK;
    Some (x, λ y, mk (<[ci := <[Nat.land i CHUNK_MASK := y]> c]> (chunks v)) (len v)).

(** [CowVec::set]; panics out of bounds. *)
Definition set (v : t) (i : nat) (x : A) : option t :=
  '(_, store) ← get_mut v i; Some (store x).

(** [CowVec::replace] *)
Definition replace (v : t) (i : nat) (x : A) : option (A * t) :=
  '(old, store) ← get_mut v i; Some (old, store x).

(** [CowVec::push] *)
Definition push (v : t) (x : A) : t :=
  let n := pred (length (chunks v)) in
  let fresh := mk (chunks v ++ [[x]]) (S (len v)) in
  match last (chunks v) with
  | Some c =>
      if (length c <? CHUNK)%nat then mk (<[n := c ++ [x]]> (chunks v)) (S (len v)) else fresh
  | None => fresh
  end.

(** One round of [grow_to]'s loop: ensure a chunk with room, fill it. *)
Definition grow_round (v : t) (n : nat) (fill : A) : option t :=
  let '(chunks, room) :=
    match last (chunks v) with
    | Some c => if (length c <? CHUNK)%nat then (chunks v, (CHUNK - length c)%nat)
                else (chunks v ++ [[]], CHUNK)
    | None => (chunks v ++ [[]], CHUNK)
    end in
  let add := Nat.min room (n - len v) in
  c ← last chunks;
  Some (mk (<[pred (length chunks) := c ++ replicate add fill]> chunks) (len v + add)).

(** [CowVec::grow_to]; each round adds at least one element. *)
Fixpoint grow_loop (fuel : nat) (v : t) (n : nat) (fill : A) : option t :=
  if (len v <? n)%nat then
    match fuel with
    | O => None
    | S fuel => v ← grow_round v n fill; grow_loop fuel v n fill
    end
  else Some v.

Definition grow_to (v : t) (n : nat) (fill : A) : option t := grow_loop (n - len v) v n fill.

(** [v.chunks(CHUNK)] of a slice. *)
Fixpoint slice_chunks (fuel : nat) (l : list A) : list (list A) :=
  match l, fuel with
  | [], _ | _, O => []
  | _, S fuel => take CHUNK l :: slice_chunks fuel (drop CHUNK l)
  end.

(** [CowVec::from_vec] *)
Definition from_vec (l : list A) : t :=
  if (length l <=? CHUNK)%nat then mk (match l with [] => [] | _ => [l] end) (length l)
  else mk (slice_chunks (length l) l) (length l).

(** [FromIterator] *)
Definition from_iter (l : list A) : t := foldl push new l.

(** [CowVec::iter] *)
Definition iter (v : t) : list A := concat (chunks v).

(** ** Invariant *)

(** Every chunk but the last is full, none is empty. *)
Definition wf (v : t) : Prop :=
  len v = length (concat (chunks v)) ∧
  (∀ i c, chunks v !! i = Some c → (1 ≤ length c ≤ CHUNK)%nat) ∧
  (∀ i c, chunks v !! i = Some c → (S i < length (chunks v))%nat → length c = CHUNK).

Definition rep (v : t) (l : list A) : Prop := wf v ∧ iter v = l.

Lemma CHUNK_val : CHUNK = 128%nat.
Proof. done. Qed.

Lemma chunk_index i : Nat.shiftr i CHUNK_BITS = (i / 128)%nat ∧ Nat.land i CHUNK_MASK = (i mod 128)%nat.
Proof.
  split; [rewrite Nat.shiftr_div_pow2; by change (2 ^ CHUNK_BITS)%nat with 128%nat|].
  change CHUNK_MASK with (Nat.ones 7). rewrite Nat.land_ones. by change (2 ^ 7)%nat with 128%nat.
Qed.

(** Indexing a concatenation whose pieces but the last have 128 elements. *)
Lemma concat_lookup (cs : list (list A)) i :
  (∀ j c, cs !! j = Some c → (S j < length cs)%nat → length c = 128%nat) →
  (∀ j c, cs !! j = Some c → (length c ≤ 128)%nat) →
  concat cs !! i = c ← cs !! (i / 128)%nat; c !! (i mod 128)%nat.
Proof.
  revert i; induction cs as [|c cs IH]; intros i Hfull Hle; [done|]. cbn [concat].
  destruct (decide (i < 128)%nat) as [Hi|Hi].
  - rewrite Nat.div_small, Nat.mod_small by lia. simpl.
    destruct (decide (i < length c)%nat); [by rewrite lookup_app_l|].
    destruct cs as [|c2 cs]; [simpl; by rewrite app_nil_r|].
    specialize (Hfull 0%nat c eq_refl ltac:(simpl; lia)). lia.
  - destruct cs as [|c2 cs].
    { specialize (Hle 0%nat c eq_refl). cbn [concat]. rewrite app_nil_r, lookup_ge_None_2 by lia.
      assert (1 ≤ i / 128)%nat by (apply Nat.div_le_lower_bound; lia).
      destruct (i / 128)%nat eqn:E; [lia|done]. }
    specialize (Hfull 0%nat c eq_refl ltac:(simpl; lia)) as Hc. rewrite lookup_app_r by lia.
    rewrite Hc, IH.
    + assert (i / 128 = S ((i - 128) / 128))%nat as ->
        by (replace i with ((i - 128) + 1 * 128)%nat at 1 by lia; rewrite Nat.div_add by lia; lia).
      assert (i mod 128 = (i - 128) mod 128)%nat as ->
        by (replace i with ((i - 128) + 1 * 128)%nat at 1 by lia; by rewrite Nat.Div0.mod_add).
      done.
    + intros j c' Hj Hlt. apply (Hfull (S j) c'); [done|simpl in *; lia].
    + intros j c' Hj. by apply (Hle (S j) c').
Qed.

Lemma get_spec v l i : rep v l → get v i = l !! i.
Proof.
  intros [(Hl & Hle & Hfull) <-]. unfold get, iter. destruct (chunk_index i) as [-> ->].
  symmetry. apply concat_lookup.
  - intros j c Hj Hlt. rewrite <-CHUNK_val. eauto.
  - intros j c Hj. rewrite <-CHUNK_val. by eapply Hle.
Qed.

Lemma new_rep : rep new [].
Proof. split; [|done]. split_and!; [done|..]; intros i c Hi; by destruct i. Qed.

Lemma concat_update (cs : list (list A)) ci c c' :
  cs !! ci = Some c →
  concat (<[ci := c']> cs) = concat (take ci cs) ++ c' ++ concat (drop (S ci) cs).
Proof.
  intros Hc. apply lookup_lt_Some in Hc as Hlt. rewrite insert_take_drop by done.
  by rewrite concat_app.
Qed.

Lemma get_mut_spec v l i :
  rep v l →
  match l !! i with
  | None => get_mut v i = None
  | Some x => ∃ store, get_mut v i = Some (x, store) ∧ ∀ y, rep (store y) (<[i := y]> l)
  end.
Proof.
  intros Hrep. pose proof (get_spec v l i Hrep) as Hg. rewrite <-Hg. unfold get_mut. unfold get in *.
  destruct (chunks v !! Nat.shiftr i CHUNK_BITS) as [c|] eqn:Hc; [|done]. cbn [mbind option_bind] in *.
  destruct (c !! Nat.land i CHUNK_MASK) as [x|] eqn:Hx.
  2:{ apply lookup_ge_None in Hx. by rewrite (proj2 (Nat.leb_le _ _)). }
  pose proof (lookup_lt_Some _ _ _ Hx) as Hlt. rewrite (proj2 (Nat.leb_gt _ _)) by done.
  eexists. split; [done|]. intros y. destruct Hrep as [(Hl & Hle & Hfull) <-].
  set (ci := Nat.shiftr i CHUNK_BITS) in *. set (j := Nat.land i CHUNK_MASK) in *.
  assert (wf (mk (<[ci := <[j := y]> c]> (chunks v)) (len v))) as Hwf.
  { split_and!; cbn [chunks len].
    - rewrite Hl, (concat_update _ ci c) by done. rewrite <-(take_drop_middle (chunks v) ci c Hc) at 1.
      rewrite concat_app. cbn [concat]. rewrite !length_app, length_insert. done.
    - intros k c' Hk. apply list_lookup_insert_Some in Hk as [(-> & <- & _)|[_ Hk]]; [|eauto].
      rewrite length_insert. eauto.
    - intros k c' Hk. rewrite length_insert. apply list_lookup_insert_Some in Hk as [(-> & <- & _)|[_ Hk]]; [|eauto].
      rewrite length_insert. eauto. }
  split; [done|]. apply list_eq. intros k.
  rewrite <-(get_spec _ _ k (conj Hwf eq_refl)). unfold get. cbn [chunks].
  assert (rep v (iter v)) as Hrep' by done. destruct (decide (k = i)) as [->|Hki].
  - fold ci j. rewrite list_lookup_insert_eq by by eapply lookup_lt_Some. cbn [mbind option_bind].
    rewrite list_lookup_insert_eq by done. symmetry. apply list_lookup_insert_eq.
    by eapply lookup_lt_Some.
  - rewrite (list_lookup_insert_ne (iter v)) by done. rewrite <-(get_spec v _ k Hrep'). unfold get.
    destruct (decide (ci = Nat.shiftr k CHUNK_BITS)) as [He|Hne].
    + rewrite <-He, list_lookup_insert_eq, Hc by by eapply lookup_lt_Some. cbn [mbind option_bind].
      apply list_lookup_insert_ne. intros Hj. apply Hki. unfold ci, j in *.
      destruct (chunk_index i) as [Ei Ej]. destruct (chunk_index k) as [Ek El].
      rewrite Ei, Ek in He. rewrite Ej, El in Hj.
      rewrite (Nat.div_mod_eq k 128), (Nat.div_mod_eq i 128). lia.
    + by rewrite list_lookup_insert_ne.
Qed.

Lemma set_spec v l i x :
  rep v l → match set v i x with
            | Some v' => (i < length l)%nat ∧ rep v' (<[i := x]> l)
            | None => (length l ≤ i)%nat
            end.
Proof.
  intros Hrep. pose proof (get_mut_spec v l i Hrep) as Hg. unfold set.
  destruct (l !! i) as [y|] eqn:Hi.
  - destruct Hg as (store & -> & Hst). cbn [mbind option_bind]. split; [by eapply lookup_lt_Some|auto].
  - rewrite Hg. by apply lookup_ge_None.
Qed.

Lemma last_chunk v c :
  wf v → last (chunks v) = Some c →
  chunks v !! pred (length (chunks v)) = Some c
  ∧ concat (chunks v) = concat (take (pred (length (chunks v))) (chunks v)) ++ c.
Proof.
  intros _ Hc. rewrite last_lookup in Hc. split; [done|].
  rewrite <-(take_drop_middle _ _ _ Hc) at 1. rewrite concat_app, drop_ge by lia. simpl. by rewrite app_nil_r.
Qed.

(** Extending the last chunk by [ys], within [CHUNK]. *)
Lemma extend_last v l c ys :
  rep v l → last (chunks v) = Some c → (length c + length ys ≤ CHUNK)%nat →
  rep (mk (<[pred (length (chunks v)) := c ++ ys]> (chunks v)) (len v + length ys)) (l ++ ys).
Proof.
  intros [Hwf <-] Hc Hn. destruct (last_chunk v c Hwf Hc) as [Hlk Hcat]. pose proof Hwf as (Hl & Hle & Hfull).
  pose proof (lookup_lt_Some _ _ _ Hlk) as Hlt.
  assert (concat (<[pred (length (chunks v)) := c ++ ys]> (chunks v)) = concat (chunks v) ++ ys) as Hc2.
  { rewrite (concat_update _ _ c) by done. rewrite drop_ge by lia. cbn [concat].
    by rewrite app_nil_r, app_assoc, <-Hcat. }
  split; [|done]. split_and!; cbn [chunks len].
  - rewrite Hc2, length_app, Hl. done.
  - intros k c' Hk. apply list_lookup_insert_Some in Hk as [(<- & <- & _)|[_ Hk]]; [|eauto].
    rewrite length_app. destruct (Hle _ _ Hlk). lia.
  - intros k c' Hk. rewrite length_insert. apply list_lookup_insert_Some in Hk as [(<- & <- & _)|[_ Hk]]; [lia|eauto].
Qed.

(** A new chunk after a full one (or none). *)
Lemma fresh_chunk v l ys :
  rep v l → (∀ c, last (chunks v) = Some c → length c = CHUNK) → (1 ≤ length ys ≤ CHUNK)%nat →
  rep (mk (chunks v ++ [ys]) (len v + length ys)) (l ++ ys).
Proof.
  intros [(Hl & Hle & Hfull) <-] Hlast Hys.
  assert (concat (chunks v ++ [ys]) = concat (chunks v) ++ ys) as Hc2
    by (rewrite concat_app; simpl; by rewrite app_nil_r).
  split; [|done]. split_and!; cbn [chunks len].
  - rewrite Hc2, length_app, Hl. done.
  - intros k c Hk. apply lookup_app_Some in Hk as [Hk|[_ Hk]]; [eauto|].
    apply list_lookup_singleton_Some in Hk as [_ <-]. done.
  - intros k c Hk. rewrite length_app. simpl. intros Hlt. apply lookup_app_Some in Hk as [Hk|[Hk _]]; [|lia].
    destruct (decide (S k < length (chunks v))%nat); [eauto|]. apply Hlast.
    assert (k = pred (length (chunks v))) as -> by lia. by rewrite last_lookup.
Qed.

Lemma vec_push_spec v l x : rep v l → rep (push v x) (l ++ [x]).
Proof.
  intros Hrep. pose proof Hrep as [(Hl & Hle & Hfull) _]. unfold push.
  replace (S (len v)) with (len v + length [x])%nat by (simpl; lia).
  destruct (last (chunks v)) as [c|] eqn:Hc.
  - destruct (Nat.ltb_spec (length c) CHUNK) as [Hlt|Hge].
    + apply extend_last; [done..|]. simpl. lia.
    + apply fresh_chunk; [done| |rewrite CHUNK_val; simpl; lia]. intros c' Hc'. rewrite Hc in Hc'. simplify_eq.
      destruct (last_chunk v c' (proj1 Hrep) Hc) as [Hlk _]. destruct (Hle _ _ Hlk). lia.
  - apply fresh_chunk; [done|by rewrite Hc|rewrite CHUNK_val; simpl; lia].
Qed.

Lemma from_iter_spec l : rep (from_iter l) l.
Proof.
  unfold from_iter. enough (∀ v l0, rep v l0 → rep (foldl push v l) (l0 ++ l)) as Hfold
    by apply (Hfold new [] new_rep).
  induction l as [|x l IH]; intros v l0 Hv; simpl; [by rewrite app_nil_r|].
  replace (l0 ++ x :: l) with ((l0 ++ [x]) ++ l) by by rewrite <-app_assoc. by apply IH, vec_push_spec.
Qed.

Lemma grow_round_spec v l n fill :
  rep v l → (len v < n)%nat →
  ∃ v' add, grow_round v n fill = Some v' ∧ rep v' (l ++ replicate add fill)
            ∧ (1 ≤ add)%nat ∧ len v' = (len v + add)%nat ∧ (len v' ≤ n)%nat.
Proof.
  intros Hrep Hlt. pose proof Hrep as [(Hl & Hle & Hfull) _]. unfold grow_round.
  assert (∀ room, (1 ≤ room ≤ CHUNK)%nat →
    (∀ c, last (chunks v) = Some c → length c = CHUNK) →
    ∃ v' add, (c ← last (chunks v ++ [[]]); Some (mk (<[pred (length (chunks v ++ [[]])) :=
        c ++ replicate (Nat.min room (n - len v)) fill]> (chunks v ++ [[]])) (len v + Nat.min room (n - len v)))) = Some v'
      ∧ rep v' (l ++ replicate add fill) ∧ (1 ≤ add)%nat ∧ len v' = (len v + add)%nat ∧ (len v' ≤ n)%nat) as Hfresh.
  { intros room Hroom Hfullc. rewrite last_snoc. cbn [mbind option_bind app].
    eexists _, (Nat.min room (n - len v)). split; [done|]. cbn [len]. split_and!; [|lia|done|lia].
    rewrite length_app, Nat.add_comm. simpl pred. rewrite insert_app_r_alt by lia. rewrite Nat.sub_diag. simpl.
    pose proof (fresh_chunk v l (replicate (Nat.min room (n - len v)) fill) Hrep Hfullc) as Hf.
    rewrite length_replicate in Hf. apply Hf. lia. }
  destruct (last (chunks v)) as [c|] eqn:Hc.
  - destruct (Nat.ltb_spec (length c) CHUNK) as [Hc2|Hc2].
    + rewrite Hc. cbn [mbind option_bind]. eexists _, (Nat.min (CHUNK - length c) (n - len v)).
      split; [done|]. cbn [len]. split_and!; [|lia|done|lia].
      pose proof (extend_last v l c (replicate (Nat.min (CHUNK - length c) (n - len v)) fill) Hrep Hc) as He.
      rewrite length_replicate in He. apply He. lia.
    + apply Hfresh; [rewrite CHUNK_val; lia|]. intros c' [= <-].
      destruct (last_chunk v c (proj1 Hrep) Hc) as [Hlk _]. destruct (Hle _ _ Hlk). lia.
  - apply Hfresh; [rewrite CHUNK_val; lia|done].
Qed.

Lemma grow_loop_spec fuel v l n fill :
  rep v l → (n - len v ≤ fuel)%nat →
  ∃ v', grow_loop fuel v n fill = Some v' ∧ rep v' (l ++ replicate (n - length l) fill).
Proof.
  revert v l; induction fuel as [|fuel IH]; intros v l Hrep Hf; cbn [grow_loop];
    (assert (len v = length l) as Hlen by (destruct Hrep as [(-> & _) <-]; done));
    (destruct (Nat.ltb_spec (len v) n) as [Hlt|Hge]; [|exists v; split; [done|];
       by replace (n - length l)%nat with 0%nat by lia; rewrite app_nil_r]); [lia|].
  destruct (grow_round_spec v l n fill Hrep Hlt) as (v1 & add & -> & Hrep1 & Hadd & Hl1 & Hle1).
  cbn [mbind option_bind]. destruct (IH v1 _ Hrep1) as (v2 & -> & Hrep2); [lia|].
  exists v2. split; [done|]. rewrite length_app, length_replicate, <-app_assoc, <-replicate_add in Hrep2.
  replace (add + (n - (length l + add)))%nat with (n - length l)%nat in Hrep2 by lia. done.
Qed.

Lemma slice_chunks_spec fuel l :
  (length l ≤ fuel)%nat →
  concat (slice_chunks fuel l) = l ∧
  (∀ i c, slice_chunks fuel l !! i = Some c → (1 ≤ length c ≤ CHUNK)%nat) ∧
  (∀ i c, slice_chunks fuel l !! i = Some c → (S i < length (slice_chunks fuel l))%nat → length c = CHUNK).
Proof.
  revert l; induction fuel as [|fuel IH]; intros [|x l] Hf; try (simpl in Hf; lia);
    try (split_and!; [done|..]; intros i c Hi; by destruct i).
  set (l' := x :: l) in *. assert (1 ≤ length l')%nat as Hpos by (unfold l'; simpl; lia).
  change (slice_chunks (S fuel) l') with (take CHUNK l' :: slice_chunks fuel (drop CHUNK l')).
  destruct (IH (drop CHUNK l')) as (Hcat & Hle & Hfull); [rewrite length_drop, CHUNK_val; lia|]. split_and!.
  - cbn [concat]. by rewrite Hcat, take_drop.
  - intros [|i] c Hi; [|by eapply Hle]. apply (inj Some (take CHUNK l') c) in Hi as <-. rewrite length_take, CHUNK_val. lia.
  - intros [|i] c Hi Hlt; [|eapply Hfull; [done|cbn [length] in Hlt; lia]]. apply (inj Some (take CHUNK l') c) in Hi as <-.
    rewrite length_take. destruct (decide (CHUNK ≤ length l')%nat); [lia|exfalso].
    rewrite drop_ge in Hlt by lia. destruct fuel; cbn [slice_chunks length] in Hlt; lia.
Qed.

Lemma from_vec_spec l : rep (from_vec l) l.
Proof.
  unfold from_vec. destruct (Nat.leb_spec (length l) CHUNK) as [Hle|Hgt].
  - destruct l as [|x l]; [apply new_rep|].
    pose proof (fresh_chunk new [] (x :: l) new_rep ltac:(done)) as Hf. apply Hf. simpl in *. lia.
  - destruct (slice_chunks_spec (length l) l) as (Hcat & Hc & Hfull); [done|].
    split; [|done]. split_and!; cbn [chunks len]; [by rewrite Hcat|done..].
Qed.

(** ** Runs *)

Inductive op := OPush (x : A) | OSet (i : nat) (x : A) | OGrow (n : nat) (fill : A).

Definition step (o : op) (v : t) : option t :=
  match o with
  | OPush x => Some (push v x)
  | OSet i x => set v i x
  | OGrow n fill => grow_to v n fill
  end.

(** On lists: a write out of bounds is the panic. *)
Definition spec_step (o : op) (l : list A) : option (list A) :=
  match o with
  | OPush x => Some (l ++ [x])
  | OSet i x => if (i <? length l)%nat then Some (<[i := x]> l) else None
  | OGrow n fill => Some (l ++ replicate (n - length l) fill)
  end.

Fixpoint run (os : list op) (v : t) : option t :=
  match os with [] => Some v | o :: os => step o v ≫= run os end.

Fixpoint spec_run (os : list op) (l : list A) : option (list A) :=
  match os with [] => Some l | o :: os => spec_step o l ≫= spec_run os end.

Lemma vec_step_rep o v l :
  rep v l → match spec_step o l with
            | Some l' => ∃ v', step o v = Some v' ∧ rep v' l'
            | None => step o v = None
            end.
Proof.
  intros Hrep. destruct o as [x|i x|n fill]; cbn [step spec_step].
  - eexists. split; [done|]. by apply vec_push_spec.
  - pose proof (set_spec v l i x Hrep) as Hs. destruct (set v i x) as [v'|].
    + rewrite (proj2 (Nat.ltb_lt _ _)) by apply Hs. eexists. split; [done|apply Hs].
    + by rewrite (proj2 (Nat.ltb_ge _ _)).
  - by apply grow_loop_spec.
Qed.

(** Any sequence of pushes, indexed writes and growths on a chunked vector
    does what it does on a plain vector: it panics exactly when a write is out
    of bounds, and otherwise length, every indexed read and iteration agree. *)
Theorem cow_vec_refines (os : list op) :
  match spec_run os [] with
  | Some l => ∃ v, run os new = Some v ∧ len v = length l ∧ iter v = l ∧ ∀ i, get v i = l !! i
  | None => run os new = None
  end.
Proof.
  enough (∀ v l, rep v l → match spec_run os l with
    | Some l' => ∃ v', run os v = Some v' ∧ rep v' l' | None => run os v = None end) as Hrun.
  { specialize (Hrun new [] new_rep). destruct (spec_run os []) as [l|]; [|done].
    destruct Hrun as (v & Hr & Hrep). exists v. split; [done|]. pose proof Hrep as [(Hl & _) He].
    split; [by rewrite Hl, <-He|]. split; [done|]. intros i. by apply get_spec. }
  induction os as [|o os IH]; intros v l Hrep; cbn [run spec_run]; [by exists v|].
  pose proof (vec_step_rep o v l Hrep) as Hst. destruct (spec_step o l) as [l'|]; cbn [mbind option_bind].
  - destruct Hst as (v' & -> & Hrep'). by apply IH.
  - by rewrite Hst.
Qed.
End cow_vec.
Arguments t : clear implicits.
End CowVec.
