(* ===== verification/IdSet.v ===== *)
(** * Posting lists

    Models [IdSet] of [crates/core-storage/src/cow.rs]: an ordered set of node
    ids kept inline while it holds one id, in one sorted vector up to
    [SMALL_MAX], and in a [CowMap] beyond.  The abstract set is a [gset]. *)

From S2P Require Import Prelude Order Assoc CowMap CowMapIter.

Definition SMALL_MAX : nat := 64.

Module IdSet.

Inductive t :=
| One (x : Z)
| Small (v : list Z)
| Large (m : CowMap.t Z ()).

Definition new : t := Small [].

(** [IdSet::len] *)
Definition len (s : t) : nat :=
  match s with One _ => 1 | Small v => length v | Large m => CowMap.len m end.

Definition is_empty (s : t) : bool := (len s =? 0)%nat.

(** [IdSet::contains] *)
Definition contains (s : t) (id : Z) : option bool :=
  match s with
  | One x => Some (x =? id)
  | Small v => Some (match binary_search id v with inl _ => true | inr _ => false end)
  | Large m => CowMap.contains_key m id
  end.

(** [IdSet::insert] *)
Definition insert (s : t) (id : Z) : option (bool * t) :=
  match s with
  | One x => if x =? id then Some (false, s)
             else Some (true, Small (if x <? id then [x; id] else [id; x]))
  | Small v =>
      match v with
      | [] => Some (true, One id)
      | _ =>
          match binary_search id v with
          | inl _ => Some (false, s)
          | inr i =>
              if (length v <? SMALL_MAX)%nat then v ← vec_insert i id v; Some (true, Small v)
              else
                m ← CowMapIter.from_sorted ((λ i, (i, ())) <$> v);
                '(_, m) ← CowMap.insert m id ();
                Some (true, Large m)
          end
      end
  | Large m => '(old, m) ← CowMap.insert m id (); Some (bool_decide (old = None), Large m)
  end.

(** [IdSet::remove] *)
Definition remove (s : t) (id : Z) : option (bool * t) :=
  match s with
  | One x => if x =? id then Some (true, Small []) else Some (false, s)
  | Small v =>
      match binary_search id v with
      | inl i =>
          '(_, v) ← vec_remove i v;
          Some (true, match v with [only] => One only | _ => Small v end)
      | inr _ => Some (false, s)
      end
  | Large m => '(old, m) ← CowMap.remove m id; Some (bool_decide (is_Some old), Large m)
  end.

(** [IdSet::iter], collected. *)
Definition iter (s : t) : option (list Z) :=
  match s with
  | One x => Some [x]
  | Small v => Some v
  | Large m =>
      it ← CowMapIter.range m Unbounded Unbounded;
      l ← CowMapIter.collect (S (CowMap.len m)) it;
      Some l.*1
  end.

(** [FromIterator] *)
Definition from_iter (ids : list Z) : option t :=
  foldl (λ s id, s ← s; '(_, s) ← insert s id; Some s) (Some new) ids.

(** ** Invariant *)

Definition units (l : list Z) : list (Z * ()) := (λ i, (i, ())) <$> l.

(** [s] is the sorted list of ids [l], after at most [n] operations. *)
Definition rep (s : t) (l : list Z) (n : Z) : Prop :=
  sorted l ∧
  match s with
  | One x => l = [x]
  | Small v => v = l ∧ length l ≠ 1%nat ∧ (length l ≤ SMALL_MAX)%nat
  | Large m => CowMap.holds m (units l) (CowMapIter.built_potential + n)
  end.

Lemma units_fst l : (units l).*1 = l.
Proof. unfold units. rewrite <-list_fmap_compose. apply list_fmap_id. Qed.

Lemma units_of es : es = units (es.*1 : list Z).
Proof. induction es as [|[x []] es IH]; [done|]. cbn [fmap list_fmap fst]. unfold units in *. simpl. by f_equal. Qed.

Lemma alookup_units id l : is_Some (alookup id (units l)) ↔ id ∈ l.
Proof.
  destruct (alookup id (units l)) as [[]|] eqn:E.
  - split; [intros _|by eexists]. destruct (decide (id ∈ l)) as [|Hn]; [done|].
    rewrite (proj2 (alookup_None id (units l))) in E; [done|]. by rewrite units_fst.
  - apply alookup_None in E. rewrite units_fst in E. split; [by intros []|done].
Qed.

Lemma ainsert_elem id l x : x ∈ (ainsert id () (units l)).*1 ↔ x = id ∨ x ∈ l.
Proof. by rewrite elem_of_ainsert_keys, units_fst. Qed.

Lemma adelete_elem id l x :
  sorted l → x ∈ (adelete id (units l)).*1 ↔ x ∈ l ∧ x ≠ id.
Proof.
  intros Hs. set (d := adelete id (units l)).
  assert (is_Some (alookup x d) ↔ x ∈ d.*1) as <-.
  { rewrite (units_of d) at 1. apply alookup_units. }
  unfold d. rewrite alookup_adelete by by rewrite units_fst.
  destruct (cmp x id) eqn:E; rewrite ?alookup_units.
  - apply cmp_eq in E as ->. split; [by intros []|tauto].
  - split; [|tauto]. intros. split; [done|]. intros ->. by rewrite cmp_refl in E.
  - split; [|tauto]. intros. split; [done|]. intros ->. by rewrite cmp_refl in E.
Qed.

Lemma set_contains_spec s l n id : rep s l n → contains s id = Some (bool_decide (id ∈ l)).
Proof.
  intros [Hs Hr]. destruct s as [x|v|m]; cbn [contains].
  - subst l. f_equal. destruct (Z.eqb_spec x id); symmetry; [apply bool_decide_eq_true_2|apply bool_decide_eq_false_2]; set_solver.
  - destruct Hr as (-> & _). f_equal.
    destruct (binary_search_spec id l Hs) as [(i & -> & _ & ?)|(i & -> & ? & _)]; symmetry;
      [by apply bool_decide_eq_true_2|by apply bool_decide_eq_false_2].
  - rewrite (CowMap.contains_key_holds m _ _ id Hr). f_equal. apply bool_decide_ext, alookup_units.
Qed.

(** Inserting into the sorted vector. *)
Lemma vec_insert_sorted (v : list Z) id i :
  sorted v → binary_search id v = inr i →
  vec_insert i id v = Some (ainsert id () (units v)).*1.
Proof.
  intros Hs E. pose proof (ainsert_zip_missing v (replicate (length v) ()) id () i) as Hz.
  rewrite length_replicate in Hz. specialize (Hz Hs eq_refl E).
  destruct (zip_split_missing v (replicate (length v) ()) id i Hs) as (Hi & _); [by rewrite length_replicate|done|].
  assert (units v = zip v (replicate (length v) ())) as ->.
  { clear. induction v as [|x v IH]; [done|]. unfold units in *. simpl. by f_equal. }
  rewrite Hz, CowMap.vec_insert_take, zip_fst by (rewrite ?length_app; simpl; rewrite ?length_take, ?length_drop, ?length_replicate; lia).
  done.
Qed.

Lemma vec_remove_sorted (v : list Z) id i :
  sorted v → v !! i = Some id →
  vec_remove i v = Some (id, (adelete id (units v)).*1).
Proof.
  intros Hs E. pose proof (adelete_zip_found v (replicate (length v) ()) id i) as Hz.
  rewrite length_replicate in Hz. specialize (Hz Hs eq_refl E).
  assert (units v = zip v (replicate (length v) ())) as ->.
  { clear. induction v as [|x v IH]; [done|]. unfold units in *. simpl. by f_equal. }
  unfold vec_remove. rewrite E. cbn [mbind option_bind]. rewrite Hz, zip_fst; [done|].
  apply lookup_lt_Some in E. rewrite !length_app, !length_take, !length_drop, !length_replicate. lia.
Qed.

Lemma insert_spec s l n id :
  rep s l n → 0 ≤ n → Z.of_nat (length l) < 2 ^ 64 →
  ∃ s', insert s id = Some (bool_decide (id ∉ l), s')
        ∧ rep s' (if bool_decide (id ∈ l) then l else (ainsert id () (units l)).*1) (n + 1).
Proof.
  intros Hrep Hn Hlen. pose proof Hrep as [Hs Hr].
  pose proof (ainsert_sorted id () (units l)) as Hs'. rewrite units_fst in Hs'. specialize (Hs' Hs).
  assert (∀ s, rep s l n → rep s l (n + 1)) as Hmono.
  { intros s0 [? Hr0]. split; [done|]. destruct s0; [done|done|]. eapply CowMap.holds_weaken; [done|lia]. }
  destruct s as [x|v|m]; cbn [insert].
  - subst l. destruct (Z.eqb_spec x id) as [->|Hx].
    + rewrite bool_decide_eq_false_2, bool_decide_eq_true_2 by set_solver. eauto.
    + rewrite bool_decide_eq_true_2, bool_decide_eq_false_2 by set_solver. eexists. split; [done|].
      split; [done|]. destruct (Z.ltb_spec x id) as [Hlt|Hge]; simpl.
      * assert (cmp id x = Gt) as -> by by apply Z.compare_gt_iff. simpl. unfold SMALL_MAX. split_and!; [done|done|lia].
      * assert (cmp id x = Lt) as -> by (apply Z.compare_lt_iff; lia). simpl. unfold SMALL_MAX. split_and!; [done|done|lia].
  - destruct Hr as (-> & Hne & Hmax). destruct l as [|y l0] eqn:El.
    { rewrite bool_decide_eq_true_2, bool_decide_eq_false_2 by set_solver. eexists. split; [done|]. done. }
    rewrite <-El in *. destruct (binary_search_spec id l Hs) as [(i & Eb & _ & Hin)|(i & Eb & Hin & _)]; rewrite Eb.
    + rewrite bool_decide_eq_false_2, bool_decide_eq_true_2 by tauto. eauto.
    + rewrite bool_decide_eq_true_2, bool_decide_eq_false_2 by tauto.
      assert (length (ainsert id () (units l)).*1 = S (length l)) as Hl2.
      { rewrite length_fmap, length_ainsert by by rewrite units_fst.
        destruct (alookup id (units l)) eqn:Ea; [|unfold units; by rewrite length_fmap].
        exfalso. apply Hin, alookup_units. by eexists. }
      destruct (Nat.ltb_spec (length l) SMALL_MAX) as [Hlt|Hge].
      * rewrite (vec_insert_sorted l id i Hs Eb). eexists. split; [done|]. split; [done|].
        rewrite Hl2. split_and!; [done| |lia]. subst. simpl. lia.
      * destruct (CowMapIter.from_sorted_holds (units l)) as (m & Hm & Hh).
        { by rewrite units_fst. }
        { unfold units. by rewrite length_fmap. }
        unfold units in Hm. rewrite Hm. cbn [mbind option_bind].
        destruct (CowMap.insert_holds m _ _ id () Hh) as (m' & -> & Hh'). eexists. split; [done|].
        split; [done|]. rewrite <-units_of. eapply CowMap.holds_weaken; [done|lia].
  - destruct (CowMap.insert_holds m _ _ id () Hr) as (m' & -> & Hh'). cbn [mbind option_bind].
    eexists. split; [repeat f_equal|].
    { apply bool_decide_ext. rewrite eq_None_not_Some, alookup_units. done. }
    case_bool_decide as Hin.
    + split; [done|]. replace (CowMapIter.built_potential + (n + 1)) with (CowMapIter.built_potential + n + 1) by lia.
      apply alookup_units in Hin as [[] Hin]. by rewrite ainsert_id in Hh' by (rewrite ?units_fst; done).
    + split; [done|]. rewrite <-units_of.
      by replace (CowMapIter.built_potential + (n + 1)) with (CowMapIter.built_potential + n + 1) by lia.
Qed.

Lemma set_remove_spec s l n id :
  rep s l n → 0 ≤ n → n < 2 ^ 64 →
  ∃ s', remove s id = Some (bool_decide (id ∈ l), s') ∧ rep s' (adelete id (units l)).*1 n.
Proof.
  intros Hrep Hn Hn2. pose proof Hrep as [Hs Hr].
  pose proof (adelete_sorted id (units l)) as Hs'. rewrite units_fst in Hs'. specialize (Hs' Hs).
  assert (id ∉ l → (adelete id (units l)).*1 = l) as Hnone.
  { intros Hin. rewrite adelete_None; [apply units_fst|]. apply alookup_None. by rewrite units_fst. }
  destruct s as [x|v|m]; cbn [remove].
  - subst l. destruct (Z.eqb_spec x id) as [->|Hx].
    + rewrite bool_decide_eq_true_2 by set_solver. eexists. split; [done|]. split; [done|].
      simpl. rewrite cmp_refl. simpl. unfold SMALL_MAX. split_and!; [done|done|lia].
    + rewrite bool_decide_eq_false_2 by set_solver. eexists. split; [done|]. by rewrite Hnone by set_solver.
  - destruct Hr as (-> & Hne & Hmax).
    destruct (binary_search_spec id l Hs) as [(i & Eb & Hi & Hin)|(i & Eb & Hin & _)]; rewrite Eb.
    + rewrite bool_decide_eq_true_2 by done. rewrite (vec_remove_sorted l id i Hs Hi). cbn [mbind option_bind].
      eexists. split; [done|]. split; [done|].
      assert (length (adelete id (units l)).*1 ≤ SMALL_MAX)%nat as Hl2.
      { rewrite length_fmap, length_adelete by by rewrite units_fst.
        destruct (alookup id (units l)); unfold units; rewrite length_fmap; lia. }
      destruct (adelete id (units l)).*1 as [|y [|z r]]; done.
    + rewrite bool_decide_eq_false_2 by done. eexists. split; [done|]. by rewrite Hnone.
  - destruct (CowMap.remove_holds m _ _ id Hr) as (m' & -> & Hh').
    { unfold CowMapIter.built_potential, CowMap.depth_budget. lia. }
    cbn [mbind option_bind]. eexists. split; [repeat f_equal; apply bool_decide_ext, alookup_units|].
    split; [done|]. by rewrite <-units_of.
Qed.

Lemma iter_spec s l n : rep s l n → iter s = Some l.
Proof.
  intros [Hs Hr]. destruct s as [x|v|m]; cbn [iter]; [by subst|by destruct Hr as (-> & _)|].
  destruct (CowMapIter.range_spec m _ _ Unbounded Unbounded Hr eq_refl) as (it & -> & Hio & Hb & Hrem).
  rewrite filter_all in Hrem by done. cbn [mbind option_bind].
  destruct (CowMap.holds_len m _ _ Hr) as [Hl _].
  rewrite CowMapIter.collect_spec, Hb, Hrem by (done || rewrite ?Hrem; lia).
  rewrite CowMapIter.take_until_filter by by rewrite units_fst.
  rewrite filter_all by done. cbn [mbind option_bind]. by rewrite units_fst.
Qed.

Lemma len_spec s l n : rep s l n → len s = length l.
Proof.
  intros [Hs Hr]. destruct s as [x|v|m]; cbn [len]; [by subst|by destruct Hr as (-> & _)|].
  destruct (CowMap.holds_len m _ _ Hr) as [-> _]. unfold units. by rewrite length_fmap.
Qed.

(** ** Runs *)

Inductive op := OInsert (id : Z) | ORemove (id : Z) | OContains (id : Z).

Definition step (o : op) (s : t) : option (bool * t) :=
  match o with
  | OInsert id => insert s id
  | ORemove id => remove s id
  | OContains id => b ← contains s id; Some (b, s)
  end.

Fixpoint run (os : list op) (s : t) : option (list bool * t) :=
  match os with
  | [] => Some ([], s)
  | o :: os => '(b, s) ← step o s; '(bs, s) ← run os s; Some (b :: bs, s)
  end.

(** The same on a set of ids. *)
Definition spec_step (o : op) (S : gset Z) : bool * gset Z :=
  match o with
  | OInsert id => (bool_decide (id ∉ S), {[id]} ∪ S)
  | ORemove id => (bool_decide (id ∈ S), S ∖ {[id]})
  | OContains id => (bool_decide (id ∈ S), S)
  end.

Fixpoint spec_run (os : list op) (S : gset Z) : list bool * gset Z :=
  match os with
  | [] => ([], S)
  | o :: os => let '(b, S') := spec_step o S in let '(bs, S'') := spec_run os S' in (b :: bs, S'')
  end.

(** [s] holds the ids [S] after [n] operations. *)
Definition holds (s : t) (S : gset Z) (n : Z) : Prop :=
  ∃ l, rep s l n ∧ (∀ x, x ∈ l ↔ x ∈ S) ∧ 0 ≤ n ∧ Z.of_nat (length l) ≤ n.

Lemma new_holds_ids : holds new ∅ 0.
Proof. exists []. split_and!; [|set_solver|lia|simpl; lia]. split; [constructor|]. split_and!; [done|done|unfold SMALL_MAX; simpl; lia]. Qed.

Lemma id_step_holds o s S n :
  holds s S n → n + 1 < 2 ^ 64 →
  ∃ s', step o s = Some ((spec_step o S).1, s') ∧ holds s' (spec_step o S).2 (n + 1).
Proof.
  intros (l & Hr & Hl & Hn & Hlen) Hlt.
  assert (∀ s l, rep s l n → rep s l (n + 1)) as Hmono.
  { intros s0 l0 [? Hr0]. split; [done|]. destruct s0; [done|done|]. eapply CowMap.holds_weaken; [done|lia]. }
  assert (∀ id, id ∈ l ↔ id ∈ S) as Hin by done.
  destruct o as [id|id|id]; cbn [step spec_step fst snd].
  - destruct (insert_spec s l n id Hr Hn) as (s' & -> & Hr'); [lia|].
    eexists. split; [repeat f_equal; apply bool_decide_ext; by rewrite Hl|].
    exists (if bool_decide (id ∈ l) then l else (ainsert id () (units l)).*1). split; [done|]. split_and!; [|lia|].
    + intros x. case_bool_decide; [set_solver|]. rewrite ainsert_elem, Hl. set_solver.
    + case_bool_decide; [lia|]. rewrite length_fmap, length_ainsert by (rewrite units_fst; apply Hr).
      destruct (alookup id (units l)); unfold units; rewrite length_fmap; lia.
  - destruct (set_remove_spec s l n id Hr Hn) as (s' & -> & Hr'); [lia|].
    eexists. split; [repeat f_equal; by apply bool_decide_ext|].
    exists (adelete id (units l)).*1. split; [auto|]. split_and!; [|lia|].
    + intros x. rewrite adelete_elem by apply Hr. rewrite Hl. set_solver.
    + rewrite length_fmap, length_adelete by (rewrite units_fst; apply Hr).
      destruct (alookup id (units l)); unfold units; rewrite length_fmap; lia.
  - rewrite (set_contains_spec s l n id Hr). cbn [mbind option_bind].
    eexists. split; [repeat f_equal; by apply bool_decide_ext|]. exists l. split; [auto|]. split_and!; [done|lia|lia].
Qed.

Lemma id_run_holds os s S n :
  holds s S n → n + Z.of_nat (length os) < 2 ^ 64 →
  ∃ s' n', run os s = Some ((spec_run os S).1, s') ∧ holds s' (spec_run os S).2 n'.
Proof.
  revert s S n; induction os as [|o os IH]; intros s S n Hh Hlt; [by exists s, n|].
  cbn [length] in Hlt. destruct (id_step_holds o s S n Hh ltac:(lia)) as (s1 & Hs & Hh1).
  cbn [run spec_run]. rewrite Hs. cbn [mbind option_bind].
  destruct (spec_step o S) as [b S1]; cbn [fst snd] in *.
  destruct (IH s1 S1 (n + 1) Hh1 ltac:(lia)) as (s2 & n2 & -> & Hh2). cbn [mbind option_bind].
  destruct (spec_run os S1) as [bs S2]; cbn [fst snd] in *. by exists s2, n2.
Qed.

(** C22: a posting list behaves as a set of ids whatever its representation:
    any sequence of fewer than 2^64 inserts, removals and membership tests
    answers as the set does (whether the id was new, was there, is there), no
    step panics, and iteration then yields exactly the set, ascending, with
    [len] its size, across the moves inline → sorted vector → B+tree. *)
Theorem id_set_refines os :
  Z.of_nat (length os) < 2 ^ 64 →
  ∃ s l, run os new = Some ((spec_run os ∅).1, s) ∧ iter s = Some l ∧ sorted l
         ∧ (∀ x, x ∈ l ↔ x ∈ (spec_run os ∅).2) ∧ len s = size (spec_run os ∅).2.
Proof.
  intros Hlt. destruct (id_run_holds os new ∅ 0 new_holds_ids) as (s & n & Hr & l & Hrep & Hl & _); [lia|].
  exists s, l. split; [done|]. split; [by eapply iter_spec|]. pose proof Hrep as [Hs _]. split_and!; [done|done|].
  rewrite (len_spec s l n Hrep). rewrite <-(size_list_to_set (C := gset Z)) by by apply sorted_NoDup.
  f_equal. apply set_eq. intros x. by rewrite elem_of_list_to_set.
Qed.

Lemma id_set_refines_witness :
  ∃ s l, run [OInsert 4; OInsert 2; OInsert 4; ORemove 2; OContains 4] new
           = Some ([true; true; false; true; true], s)
         ∧ iter s = Some l ∧ sorted l ∧ len s = 1%nat.
Proof.
  destruct (id_set_refines [OInsert 4; OInsert 2; OInsert 4; ORemove 2; OContains 4])
    as (s & l & Hr & Hi & Hs & _ & Hl).
  { vm_compute. reflexivity. }
  exists s, l. split; [exact Hr|]. split; [exact Hi|]. split; [exact Hs|exact Hl].
Defined.
End IdSet.
