(* ===== verification/Bytes.v ===== *)
(** * Bytes, integers in bytes, and readers

    A byte is a [Z] in [0, 256); a byte slice is a list of them.  [le_bytes] and
    [be_bytes] are [to_le_bytes] and [to_be_bytes] of an [n]-byte unsigned
    integer, [le_val] and [be_val] their inverses.

    [reader] is the shape of the source's decoding functions: a slice and a
    position in, a value and the new position out, or an error.  [reads] says
    that a reader inverts an encoding, [stable] that it never looks past what
    it consumed; both are closed under sequencing and repetition, so the round
    trip and the truncation theorem of a format are a composition of those of
    its parts. *)

From S2P Require Import Prelude.

Definition is_byte (b : Z) : Prop := 0 ≤ b < 256.

Fixpoint le_bytes (n : nat) (z : Z) : list Z :=
  match n with
  | O => []
  | S n => z mod 256 :: le_bytes n (z / 256)
  end.

Fixpoint le_val (l : list Z) : Z :=
  match l with
  | [] => 0
  | b :: l => b + 256 * le_val l
  end.

Definition be_bytes (n : nat) (z : Z) : list Z := reverse (le_bytes n z).
Definition be_val (l : list Z) : Z := le_val (reverse l).

Lemma length_le_bytes n z : length (le_bytes n z) = n.
Proof. revert z; induction n as [|n IH]; intros z; simpl; [done|]. by rewrite IH. Qed.

Lemma length_be_bytes n z : length (be_bytes n z) = n.
Proof. unfold be_bytes. by rewrite length_reverse, length_le_bytes. Qed.

Lemma le_bytes_are_bytes n z : Forall is_byte (le_bytes n z).
Proof.
  revert z; induction n as [|n IH]; intros z; simpl; constructor; [|done].
  unfold is_byte. by apply Z.mod_pos_bound.
Qed.

Lemma be_bytes_are_bytes n z : Forall is_byte (be_bytes n z).
Proof. unfold be_bytes. apply Forall_reverse, le_bytes_are_bytes. Qed.

Lemma pow256_S n : 256 ^ Z.of_nat (S n) = 256 * 256 ^ Z.of_nat n.
Proof. rewrite Nat2Z.inj_succ, Z.pow_succ_r by lia. done. Qed.

Lemma le_val_bytes n z : 0 ≤ z < 256 ^ Z.of_nat n → le_val (le_bytes n z) = z.
Proof.
  revert z; induction n as [|n IH]; intros z Hz.
  - simpl in Hz. simpl. lia.
  - rewrite pow256_S in Hz. cbn [le_bytes le_val].
    rewrite IH by (split; [apply Z.div_pos; lia|apply Z.div_lt_upper_bound; lia]).
    pose proof (Z.div_mod z 256 ltac:(lia)). lia.
Qed.

Lemma be_val_bytes n z : 0 ≤ z < 256 ^ Z.of_nat n → be_val (be_bytes n z) = z.
Proof. intros Hz. unfold be_val, be_bytes. rewrite reverse_involutive. by apply le_val_bytes. Qed.

Lemma le_val_range l : Forall is_byte l → 0 ≤ le_val l < 256 ^ Z.of_nat (length l).
Proof.
  induction 1 as [|b l Hb Hl IH]; [simpl; lia|]. cbn [le_val length]. rewrite pow256_S. unfold is_byte in Hb. lia.
Qed.

Lemma be_val_range l : Forall is_byte l → 0 ≤ be_val l < 256 ^ Z.of_nat (length l).
Proof. intros Hl. unfold be_val. rewrite <-length_reverse. by apply le_val_range, Forall_reverse. Qed.

Lemma le_bytes_val l : Forall is_byte l → le_bytes (length l) (le_val l) = l.
Proof.
  induction 1 as [|b l Hb Hl IH]; [done|]. cbn [le_val length le_bytes]. unfold is_byte in Hb.
  replace (b + 256 * le_val l) with (b + le_val l * 256) by lia.
  rewrite Z.mod_add, Z.div_add by lia. rewrite Z.mod_small, Z.div_small by lia. by rewrite Z.add_0_l, IH.
Qed.

(** A shift-and-or accumulator is Horner's rule. *)
Lemma lor_add a k c : 0 ≤ k → 0 ≤ c < 2 ^ k → Z.lor (Z.shiftl a k) c = a * 2 ^ k + c.
Proof.
  intros Hk Hc. rewrite <-Z.shiftl_mul_pow2 by done. rewrite <-Z.lxor_lor, <-Z.add_nocarry_lxor; [done|..];
    apply Z.bits_inj'; intros n Hn; rewrite Z.land_spec, Z.bits_0, Z.shiftl_spec by done;
    (destruct (Z.lt_ge_cases n k) as [Hlt|Hge]; [by rewrite (Z.testbit_neg_r a) by lia|]);
    rewrite <-(Z.mod_small c (2 ^ k)), Z.mod_pow2_bits_high, andb_false_r by lia; done.
Qed.

Lemma foldl_be l : Forall is_byte l → foldl (λ acc b, Z.lor (Z.shiftl acc 8) b) 0 l = be_val l.
Proof.
  unfold be_val. induction l as [|b l IH] using rev_ind; [done|]. intros [Hl Hb]%Forall_app. apply Forall_inv in Hb.
  unfold is_byte in Hb.
  rewrite foldl_snoc, IH by done. rewrite (lor_add _ 8 b); [|lia|lia]. rewrite reverse_snoc.
  cbn [le_val]. change (2 ^ 8) with 256. lia.
Qed.

(** ** Chunks *)

(** [slice.chunks(k)] *)
Fixpoint chunks (fuel k : nat) (l : list Z) : list (list Z) :=
  match l, fuel with
  | [], _ | _, O => []
  | _, S fuel => take k l :: chunks fuel k (drop k l)
  end.

(** [bytes.chunks_exact(k)] *)
Fixpoint chunks_exact (fuel k : nat) (l : list Z) : list (list Z) :=
  match fuel with
  | O => []
  | S fuel => if (length l <? k)%nat then [] else take k l :: chunks_exact fuel k (drop k l)
  end.

(** Chunks of [k], the last one possibly shorter. *)
Inductive chunked (k : nat) : list (list Z) → Prop :=
| chunked_nil : chunked k []
| chunked_last c : (1 ≤ length c ≤ k)%nat → chunked k [c]
| chunked_cons c cs : length c = k → chunked k cs → cs ≠ [] → chunked k (c :: cs).

Lemma chunks_chunked fuel k l :
  (0 < k)%nat → (length l ≤ fuel)%nat → chunked k (chunks fuel k l) ∧ concat (chunks fuel k l) = l.
Proof.
  intros Hk. revert l; induction fuel as [|fuel IH]; intros l Hf; (destruct l as [|b l]; [split; [constructor|done]|]);
    [simpl in Hf; lia|]. cbn [chunks]. set (bl := b :: l) in *.
  assert (length bl = S (length l)) as Hbl by done. cbn [length] in Hf.
  destruct (IH (drop k bl)) as [Hc He]; [rewrite length_drop; lia|]. cbn [concat]. rewrite He, take_drop. split; [|done].
  destruct (decide (chunks fuel k (drop k bl) = [])) as [En|Hne].
  - rewrite En. constructor. rewrite length_take. lia.
  - constructor; [|done|done]. rewrite length_take.
    destruct (decide (length bl ≤ k)%nat) as [Hle|]; [|lia]. destruct Hne.
    rewrite drop_ge by done. by destruct fuel.
Qed.

Lemma chunks_concat fuel k cs :
  (0 < k)%nat → chunked k cs → (length (concat cs) ≤ fuel)%nat → chunks fuel k (concat cs) = cs.
Proof.
  intros Hk Hc. revert fuel; induction Hc as [|c Hl|c cs Hl Hc IH Hne]; intros fuel Hf.
  - by destruct fuel.
  - cbn [concat] in *. rewrite app_nil_r in *. destruct c as [|b c]; [simpl in Hl; lia|]. destruct fuel as [|fuel]; [simpl in Hf; lia|].
    cbn [chunks]. rewrite take_ge, drop_ge by lia. by destruct fuel.
  - cbn [concat] in *. rewrite length_app in Hf. destruct c as [|b c]; [simpl in Hl; lia|]. destruct fuel as [|fuel]; [simpl in Hf; lia|].
    cbn [chunks app]. change (b :: c ++ concat cs) with ((b :: c) ++ concat cs).
    rewrite take_app_length', drop_app_length' by done. f_equal. apply IH. simpl in Hf. lia.
Qed.

(** *** Records of one size *)

Lemma chunks_exact_records fuel k (recs : list (list Z)) : (0 < k)%nat → Forall (λ r, length r = k) recs → (k * length recs ≤ fuel)%nat → chunks_exact fuel k (concat recs) = recs.
Proof.
  intros Hk Hr. revert fuel; induction Hr as [|r recs Hl Hr IH]; intros fuel Hf.
  - destruct fuel; [done|]. cbn [chunks_exact concat]. by rewrite (proj2 (Nat.ltb_lt _ _)).
  - cbn [length] in Hf. destruct fuel as [|fuel]; [lia|]. cbn [chunks_exact concat]. rewrite (proj2 (Nat.ltb_ge _ _)) by (rewrite length_app; lia). rewrite take_app_length', drop_app_length' by done. f_equal. apply IH. lia.
Qed.

Lemma length_records k (recs : list (list Z)) : Forall (λ r, length r = k) recs → length (concat recs) = (k * length recs)%nat.
Proof. induction 1 as [|r recs Hl _ IH]; cbn [concat length]; [lia|]. rewrite length_app, IH. lia. Qed.

Lemma chunks_exact_concat fuel k (l : list Z) (n : nat) :
  (0 < k)%nat → length l = (k * n)%nat → (length l ≤ fuel)%nat →
  concat (chunks_exact fuel k l) = l ∧ Forall (λ r, length r = k) (chunks_exact fuel k l).
Proof.
  intros Hk. revert fuel l; induction n as [|n IH]; intros fuel l Hl Hf.
  - assert (length l = 0%nat) as H0 by lia. destruct l; [|done]. destruct fuel; cbn [chunks_exact].
    + split; [done|constructor].
    + rewrite (proj2 (Nat.ltb_lt _ _)) by done. split; [done|constructor].
  - destruct fuel as [|fuel]; [lia|]. cbn [chunks_exact]. rewrite (proj2 (Nat.ltb_ge _ _)) by lia.
    destruct (IH fuel (drop k l)) as [Hc Hr]; [rewrite length_drop; lia..|]. cbn [concat].
    rewrite Hc, take_drop. split; [done|]. constructor; [rewrite length_take; lia|done].
Qed.

(** ** Readers *)

(** The length of a slice; Rust keeps it at most [isize::MAX]. *)
Definition len_z {A} (l : list A) : Z := Z.of_nat (length l).
Definition isize_max : Z := 2 ^ 63 - 1.

Lemma len_z_app {A} (l1 l2 : list A) : len_z (l1 ++ l2) = len_z l1 + len_z l2.
Proof. unfold len_z. rewrite length_app. lia. Qed.

Lemma len_z_nonneg {A} (l : list A) : 0 ≤ len_z l.
Proof. unfold len_z. lia. Qed.

Definition reader (E A : Type) : Type := list Z → Z → result E (A * Z).

#[export] Instance reader_bind {E} : MBind (reader E) := λ A B f r src pos,
  match r src pos with Ok (a, pos) => f a src pos | Err e => Err e end.
#[export] Instance reader_ret {E} : MRet (reader E) := λ A a src pos, Ok (a, pos).

(** A check that consumes nothing. *)
Definition lift_result {E A} (r : result E A) : reader E A := λ src pos,
  match r with Ok a => Ok (a, pos) | Err e => Err e end.

(** [for _ in 0..n { v.push(r?) }] *)
Fixpoint repeat_read {E A} (n : nat) (r : reader E A) : reader E (list A) :=
  match n with
  | O => mret []
  | S n => a ← r; l ← repeat_read n r; mret (a :: l)
  end.

(** [src.get(pos..pos + n)]; [pos] and [n] are unsigned. *)
Definition slice_get (src : list Z) (pos n : Z) : option (list Z) :=
  if (0 <=? pos) && (0 <=? n) && (pos + n <=? len_z src) then Some (take (Z.to_nat n) (drop (Z.to_nat pos) src)) else None.

Lemma slice_get_mid (pre enc rest : list Z) :
  slice_get (pre ++ enc ++ rest) (len_z pre) (len_z enc) = Some enc.
Proof.
  unfold slice_get. rewrite !len_z_app. pose proof (len_z_nonneg pre). pose proof (len_z_nonneg rest).
  pose proof (len_z_nonneg enc). rewrite !(proj2 (Z.leb_le _ _)) by lia. simpl. f_equal. unfold len_z.
  rewrite !Nat2Z.id, drop_app_length, take_app_length. done.
Qed.

Lemma slice_get_stable src rest pos n s :
  slice_get src pos n = Some s →
  slice_get (src ++ rest) pos n = Some s ∧ 0 ≤ pos ∧ 0 ≤ n ∧ pos + n ≤ len_z src ∧ len_z s = n.
Proof.
  unfold slice_get. destruct ((0 <=? pos) && (0 <=? n) && (pos + n <=? len_z src)) eqn:E; [|done].
  apply andb_prop in E as [[H1%Z.leb_le H3%Z.leb_le]%andb_prop H2%Z.leb_le]. intros [= <-]. rewrite len_z_app.
  pose proof (len_z_nonneg rest). rewrite !(proj2 (Z.leb_le _ _)) by lia. simpl. split_and!; [|done|done|done|].
  - unfold len_z in H2. f_equal. rewrite drop_app_le, take_app_le by (rewrite ?length_drop; lia). done.
  - unfold len_z in *. rewrite length_take, length_drop. lia.
Qed.

(** [r] inverts the encoding [enc] of [a], wherever it lies in a slice. *)
Definition reads {E A} (r : reader E A) (enc : list Z) (a : A) : Prop :=
  ∀ pre rest, len_z (pre ++ enc ++ rest) ≤ isize_max →
    r (pre ++ enc ++ rest) (len_z pre) = Ok (a, len_z pre + len_z enc).

(** [r] consumes what it answers from and looks at nothing after it. *)
Definition stable {E A} (r : reader E A) : Prop :=
  ∀ src pos a pos', 0 ≤ pos ≤ len_z src → r src pos = Ok (a, pos') →
    pos ≤ pos' ≤ len_z src ∧ ∀ rest, r (src ++ rest) pos = Ok (a, pos').

Section readers.
Context {E : Type}.

Lemma reads_ret {A} (a : A) : reads (mret (M := reader E) a) [] a.
Proof. intros pre rest _. unfold mret, reader_ret. do 2 f_equal. unfold len_z. simpl. lia. Qed.

Lemma reads_bind {A B} (r : reader E A) (f : A → reader E B) enc1 enc2 a b :
  reads r enc1 a → reads (f a) enc2 b → reads (r ≫= f) (enc1 ++ enc2) b.
Proof.
  intros H1 H2 pre rest Hlen. unfold mbind, reader_bind. rewrite <-!app_assoc in *. rewrite H1 by done.
  rewrite app_assoc in Hlen |- *. pose proof (H2 (pre ++ enc1) rest Hlen) as H. rewrite len_z_app in H.
  rewrite H. f_equal. f_equal. rewrite len_z_app. lia.
Qed.

Lemma reads_bind_ret {A B} (r : reader E A) (f : A → B) enc a :
  reads r enc a → reads (a ← r; mret (f a)) enc (f a).
Proof. intros H. rewrite <-(app_nil_r enc). eapply reads_bind; [done|]. apply reads_ret. Qed.

Lemma reads_repeat {A} (r : reader E A) (enc : A → list Z) (l : list A) :
  (∀ a, a ∈ l → reads r (enc a) a) → reads (repeat_read (length l) r) (l ≫= enc) l.
Proof.
  induction l as [|a l IH]; intros Hl; cbn [repeat_read length]; [apply reads_ret|]. rewrite bind_cons.
  eapply reads_bind; [apply Hl; by left|]. apply (reads_bind_ret _ (cons a)). apply IH. intros x Hx. apply Hl. by right.
Qed.

Lemma stable_ret {A} (a : A) : stable (mret (M := reader E) a).
Proof. intros src pos x pos' Hp [= <- <-]. split; [lia|done]. Qed.

Lemma stable_lift {A} (x : result E A) : stable (lift_result x).
Proof. intros src pos a pos' Hp. unfold lift_result. destruct x; [|done]. intros [= <- <-]. split; [lia|done]. Qed.

Lemma reads_lift {A} (a : A) : reads (lift_result (E := E) (Ok a)) [] a.
Proof. apply reads_ret. Qed.

Lemma stable_bind {A B} (r : reader E A) (f : A → reader E B) :
  stable r → (∀ a, stable (f a)) → stable (r ≫= f).
Proof.
  intros Hr Hf src pos b pos' Hp. unfold mbind, reader_bind. destruct (r src pos) as [[a p]|] eqn:E1; [|done].
  intros H2. destruct (Hr _ _ _ _ Hp E1) as [Hp1 Hs1]. destruct (Hf a src p b pos' ltac:(lia) H2) as [Hp2 Hs2].
  split; [lia|]. intros rest. by rewrite Hs1, Hs2.
Qed.

Lemma stable_repeat {A} n (r : reader E A) : stable r → stable (repeat_read n r).
Proof.
  intros Hr. induction n as [|n IH]; cbn [repeat_read]; [apply stable_ret|].
  apply stable_bind; [done|]. intros a. apply stable_bind; [done|]. intros l. apply stable_ret.
Qed.

(** Cutting an encoding short is always noticed. *)
Lemma reads_truncated {A} (r : reader E A) enc a cut :
  reads r enc a → stable r → len_z enc ≤ isize_max → cut `prefix_of` enc → cut ≠ enc →
  ∃ e, r cut 0 = Err e.
Proof.
  intros Hr Hs Hlen [rest ->] Hne. destruct (r cut 0) as [[b pos]|e] eqn:E1; [exfalso|eauto].
  destruct (Hs cut 0 b pos) as [Hp Hext]; [pose proof (len_z_nonneg cut); lia|done|].
  specialize (Hext rest). pose proof (Hr [] []) as H. rewrite app_nil_r in H. simpl in H.
  change (len_z []) with 0 in H. rewrite Hext in H by done. specialize (H Hlen). simplify_eq. rewrite len_z_app in Hp.
  apply Hne. destruct rest; [by rewrite app_nil_r|]. unfold len_z in Hp. simpl in Hp. lia.
Qed.
End readers.

#[export] Hint Resolve stable_ret stable_lift stable_bind stable_repeat : mush.
