(* ===== verification/Utf8.v ===== *)
(** * UTF-8

    [String::from_utf8]'s check of the standard library, and the bytes of a
    [String]. *)

From Stdlib Require Import Ascii.
From S2P Require Import Prelude Bytes.

Definition between (lo hi b : Z) : bool := (lo <=? b) && (b <=? hi).
Definition is_cont (b : Z) : bool := between 128 191 b.

(** Well-formed UTF-8: no overlong forms, no surrogates, nothing above U+10FFFF. *)
Fixpoint utf8_valid (l : list Z) : bool :=
  match l with
  | [] => true
  | b0 :: l =>
      if b0 <? 128 then utf8_valid l
      else if between 194 223 b0 then
        match l with b1 :: l => is_cont b1 && utf8_valid l | _ => false end
      else if between 224 239 b0 then
        match l with
        | b1 :: b2 :: l =>
            (if b0 =? 224 then between 160 191 b1
             else if b0 =? 237 then between 128 159 b1 else is_cont b1)
            && is_cont b2 && utf8_valid l
        | _ => false
        end
      else if between 240 244 b0 then
        match l with
        | b1 :: b2 :: b3 :: l =>
            (if b0 =? 240 then between 144 191 b1
             else if b0 =? 244 then between 128 143 b1 else is_cont b1)
            && is_cont b2 && is_cont b3 && utf8_valid l
        | _ => false
        end
      else false
  end.

(** [s.as_bytes()] *)
Fixpoint as_bytes (s : string) : list Z :=
  match s with
  | EmptyString => []
  | String c s => Z.of_N (N_of_ascii c) :: as_bytes s
  end.

Fixpoint of_bytes (l : list Z) : string :=
  match l with
  | [] => EmptyString
  | b :: l => String (ascii_of_N (Z.to_N b)) (of_bytes l)
  end.

(** [String::from_utf8(bytes).ok()] *)
Definition from_utf8 (l : list Z) : option string := if utf8_valid l then Some (of_bytes l) else None.

(** What every Rust [String] is. *)
Definition is_str (s : string) : Prop := utf8_valid (as_bytes s) = true.

Lemma of_bytes_as_bytes s : of_bytes (as_bytes s) = s.
Proof. induction s as [|c s IH]; [done|]. cbn [as_bytes of_bytes]. by rewrite N2Z.id, ascii_N_embedding, IH. Qed.

Lemma from_utf8_as_bytes s : is_str s → from_utf8 (as_bytes s) = Some s.
Proof. unfold is_str, from_utf8. intros ->. by rewrite of_bytes_as_bytes. Qed.

Lemma as_bytes_are_bytes s : Forall is_byte (as_bytes s).
Proof.
  induction s as [|c s IH]; simpl; constructor; [|done]. unfold is_byte. pose proof (N_ascii_bounded c). lia.
Qed.

Lemma length_as_bytes s : length (as_bytes s) = String.length s.
Proof. induction s as [|c s IH]; simpl; [done|]. by rewrite IH. Qed.

Lemma as_bytes_of_bytes l : Forall is_byte l → as_bytes (of_bytes l) = l.
Proof.
  unfold is_byte. induction 1 as [|b l Hb Hl IH]; [done|]. cbn [of_bytes as_bytes]. rewrite IH, N_ascii_embedding by lia.
  f_equal. lia.
Qed.
