(* ===== verification/Types.v ===== *)
(** * Values, index keys and errors

    Models the data types of [crates/core-storage/src/types.rs]: [Value] with
    its nullness and V11 checks, [ValueKey] and its extraction, [GraphError]
    and the namespace rules.

    A [String] is its UTF-8 bytes ([string]); an [f64] is its bit pattern (a
    64-bit [Z]), which is all the storage code looks at; a [BTreeMap] is its
    entries in key order; a [Vec<u8>] is a list of bytes. *)

From Stdlib Require Import Init.Byte Strings.Byte Ascii.
From S2P Require Import Prelude Order.

Module Value.
Inductive t :=
| Int (z : Z)
| Float (bits : Z)
| Str (s : string)
| Bool (b : bool)
| List (items : list t)
| Map (m : list (string * t))
| Date (days : Z)
| LocalDateTime (micros : Z)
| DateTime (micros_utc offset_seconds : Z)
| Duration (months days nanos : Z)
| Binary (bytes : list byte)
| Null.

(** Induction through lists and maps. *)
Section ind.
Variable P : t → Prop.
Hypothesis Hint : ∀ z, P (Int z).
Hypothesis Hfloat : ∀ b, P (Float b).
Hypothesis Hstr : ∀ s, P (Str s).
Hypothesis Hbool : ∀ b, P (Bool b).
Hypothesis Hlist : ∀ l, Forall P l → P (List l).
Hypothesis Hmap : ∀ m, Forall (λ kv, P kv.2) m → P (Map m).
Hypothesis Hdate : ∀ d, P (Date d).
Hypothesis Hldt : ∀ u, P (LocalDateTime u).
Hypothesis Hdt : ∀ u o, P (DateTime u o).
Hypothesis Hdur : ∀ m d n, P (Duration m d n).
Hypothesis Hbin : ∀ b, P (Binary b).
Hypothesis Hnull : P Null.

Fixpoint value_ind (v : t) : P v :=
  match v with
  | Int z => Hint z
  | Float b => Hfloat b
  | Str s => Hstr s
  | Bool b => Hbool b
  | List l =>
      Hlist l ((fix go l : Forall P l :=
        match l with [] => Forall_nil_2 _ | x :: l => Forall_cons_2 _ _ _ (value_ind x) (go l) end) l)
  | Map m =>
      Hmap m ((fix go m : Forall (λ kv, P kv.2) m :=
        match m with
        | [] => Forall_nil_2 _
        | (k, x) :: m => Forall_cons_2 (λ kv, P kv.2) (k, x) m (value_ind x) (go m)
        end) m)
  | Date d => Hdate d
  | LocalDateTime u => Hldt u
  | DateTime u o => Hdt u o
  | Duration m d n => Hdur m d n
  | Binary b => Hbin b
  | Null => Hnull
  end.
End ind.

(** [Value::contains_null] *)
Fixpoint contains_null (v : t) : bool :=
  match v with
  | Null => true
  | List items => existsb contains_null items
  | Map m => existsb (λ kv, contains_null kv.2) m
  | _ => false
  end.

(** [iter.find_map(f)] *)
Definition find_map {A B} (f : A → option B) : list A → option B :=
  fix go l := match l with
              | [] => None
              | x :: l => match f x with Some y => Some y | None => go l end
              end.

(** [v11_only_type] *)
Fixpoint v11_only_type (v : t) : option string :=
  match v with
  | Int _ | Float _ | Str _ | Bool _ => None
  | List items => find_map v11_only_type items
  | Map m => find_map (λ kv, v11_only_type kv.2) m
  | Date _ => Some "Date"%string
  | LocalDateTime _ => Some "LocalDateTime"%string
  | DateTime _ _ => Some "DateTime"%string
  | Duration _ _ _ => Some "Duration"%string
  | Binary _ => Some "Binary"%string
  | Null => None
  end.

(** The values a value holds, at any depth, itself included. *)
Inductive within : t → t → Prop :=
| within_refl v : within v v
| within_list v x items : x ∈ items → within v x → within v (List items)
| within_map v k x m : (k, x) ∈ m → within v x → within v (Map m).

Lemma existsb_within {A} (f : A → bool) l : existsb f l = true ↔ ∃ x, x ∈ l ∧ f x = true.
Proof. rewrite existsb_exists. split; intros (x & Hx & Hf); exists x; split; try done; by apply list_elem_of_In. Qed.

Lemma contains_null_within v : contains_null v = true ↔ within Null v.
Proof.
  induction v using value_ind; simpl; try (split; [done|by inversion 1]).
  - rewrite existsb_within. split.
    + intros (x & Hx & Hn). rewrite Forall_forall in H. apply (within_list _ x); [done|]. by apply H.
    + inversion 1; subst. rewrite Forall_forall in H. exists x. split; [done|]. by apply H.
  - rewrite existsb_within. split.
    + intros ([k x] & Hx & Hn). rewrite Forall_forall in H. apply (within_map _ k x); [done|]. by apply (H (k, x)).
    + inversion 1; subst. rewrite Forall_forall in H. exists (k, x). split; [done|]. by apply (H (k, x)).
  - split; [intros _; constructor|done].
Qed.

(** One of the five types the V11 format added. *)
Definition is_v11 (v : t) : Prop :=
  match v with
  | Date _ | LocalDateTime _ | DateTime _ _ | Duration _ _ _ | Binary _ => True
  | _ => False
  end.

Lemma find_map_Some {A B} (f : A → option B) l : is_Some (find_map f l) ↔ ∃ x, x ∈ l ∧ is_Some (f x).
Proof.
  induction l as [|x l IH]; simpl; [split; [by intros [? ?]|by intros (? & ?%elem_of_nil & _)]|].
  destruct (f x) eqn:E.
  - split; [intros _; exists x; split; [by left|by rewrite E]|by eexists].
  - rewrite IH. split.
    + intros (y & Hy & Hf). exists y. split; [by right|done].
    + intros (y & [->|Hy]%elem_of_cons & Hf); [rewrite E in Hf; by destruct Hf|eauto].
Qed.

Lemma v11_only_type_within v : is_Some (v11_only_type v) ↔ ∃ w, is_v11 w ∧ within w v.
Proof.
  induction v using value_ind; simpl.
  5:{ rewrite find_map_Some. rewrite Forall_forall in H. split.
      - intros (x & Hx & (w & Hw & Hin)%H); [|done]. exists w. split; [done|]. by apply (within_list _ x).
      - intros (w & Hw & Hin). inversion Hin; subst; [done|]. exists x. split; [done|]. apply H; [done|]. eauto. }
  5:{ rewrite find_map_Some. rewrite Forall_forall in H. split.
      - intros ([k x] & Hx & Hf). apply (H (k, x) Hx) in Hf as (w & Hw & Hin).
        exists w. split; [done|]. by apply (within_map _ k x).
      - intros (w & Hw & Hin). inversion Hin; subst; [done|]. exists (k, x). split; [done|].
        apply (H (k, x)); [done|]. eauto. }
  all: split; [intros [? ?]; try done; eexists; (split; [|apply within_refl]); done
              |intros (w & Hw & Hin); inversion Hin; subst; done || by eexists].
Qed.
End Value.

(** ** Index keys *)

Module ValueKey.
Inductive t :=
| Int (z : Z)
| FloatBits (bits : Z)
| Str (s : string)
| Bool (b : bool)
| DateDays (d : Z)
| LocalDateTimeMicros (u : Z)
| DateTimeMicrosUtc (u : Z)
| BinaryBytes (b : list byte).

(** [ValueKey::from_value] *)
Definition from_value (v : Value.t) : option t :=
  match v with
  | Value.Int i => Some (Int i)
  | Value.Float f => Some (FloatBits f)
  | Value.Str s => Some (Str s)
  | Value.Bool b => Some (Bool b)
  | Value.List _ => None
  | Value.Map _ => None
  | Value.Date d => Some (DateDays d)
  | Value.LocalDateTime us => Some (LocalDateTimeMicros us)
  | Value.DateTime micros_utc _ => Some (DateTimeMicrosUtc micros_utc)
  | Value.Binary b => Some (BinaryBytes b)
  | Value.Duration _ _ _ => None
  | Value.Null => None
  end.

(** A key as a tag, a number and some text, and back. *)
Definition encode_key (k : t) : Z * Z * string * list N :=
  match k with
  | Int z => (0, z, EmptyString, [])
  | FloatBits b => (1, b, EmptyString, [])
  | Str s => (2, 0, s, [])
  | Bool b => (3, if b then 1 else 0, EmptyString, [])
  | DateDays d => (4, d, EmptyString, [])
  | LocalDateTimeMicros u => (5, u, EmptyString, [])
  | DateTimeMicrosUtc u => (6, u, EmptyString, [])
  | BinaryBytes b => (7, 0, EmptyString, Byte.to_N <$> b)
  end.
Definition decode_key (c : Z * Z * string * list N) : option t :=
  match c with
  | (0, z, _, _) => Some (Int z)
  | (1, z, _, _) => Some (FloatBits z)
  | (2, _, s, _) => Some (Str s)
  | (3, z, _, _) => Some (Bool (z =? 1))
  | (4, z, _, _) => Some (DateDays z)
  | (5, z, _, _) => Some (LocalDateTimeMicros z)
  | (6, z, _, _) => Some (DateTimeMicrosUtc z)
  | (7, _, _, b) => BinaryBytes <$> mapM Byte.of_N b
  | _ => None
  end.

End ValueKey.

#[export] Instance byte_eq_dec : EqDecision byte := Byte.byte_eq_dec.
#[export] Instance ValueKey_eq_dec : EqDecision ValueKey.t.
Proof. solve_decision. Defined.
#[export] Instance ValueKey_countable : Countable ValueKey.t.
Proof.
  refine (inj_countable ValueKey.encode_key ValueKey.decode_key _). intros [| | |[]| | | |b]; try done. cbn.
  assert (mapM Byte.of_N (Byte.to_N <$> b) = Some b) as ->; [|done]. induction b as [|x b IH]; [done|]. cbn. rewrite Byte.of_to_N. cbn. by rewrite IH.
Defined.

(** [list_tokens] *)
Definition list_tokens (v : Value.t) : option (gset ValueKey.t) :=
  match v with
  | Value.List items => Some (list_to_set (omap ValueKey.from_value items))
  | _ => None
  end.

(** ** Errors *)

(** [GraphError]; an [io::Error] is carried as an opaque code. *)
Inductive GraphError :=
| KeyNotFound (key : string)
| DuplicateKey (key : string)
| Io (e : Z)
| Corrupt (detail : string)
| RuleInvalid (detail : string)
| RuleOwned (detail : string)
| RuleNotFound (name : string)
| QueryError (detail : string)
| IngestError (detail : string)
| ReadOnly
| CommitOutOfRange (commit total floor : Z)
| ViewPropReadOnly (view_name : string)
| CasConflict (key : string) (expected actual : Z)
| MaskedReadOnly
| CommitTimeNotMonotonic (supplied_ms newest_ms : Z)
| NoRecordedTime
| TimeBeforeFloor (floor_ms floor_commit : Z)
| RoleWriteDenied (reason : string)
| Busy (holder : option Z)
| Unwritable (path detail : string) (read_only_filesystem : bool)
| NamespaceImmutable (key from to : string)
| CrossNamespace (src src_ns dst dst_ns : string)
| ConstraintViolation (constraint field : string)
| ConstraintCreationConflict (violations : list (string * Value.t)) (total : nat)
| ValueTooLarge (field : string) (size limit : nat).

Abbreviation Result := (result GraphError).

(** ** Namespaces *)

Definition NS_PROP : string := "ns".
Definition NS_DEFAULT : string := "default".
Definition NS_MAX_LEN : nat := 64.

Fixpoint bytes_of (s : string) : list ascii :=
  match s with EmptyString => [] | String c s => c :: bytes_of s end.

Definition ascii_between (lo hi c : ascii) : bool :=
  (N.leb (N_of_ascii lo) (N_of_ascii c) && N.leb (N_of_ascii c) (N_of_ascii hi)).

Definition is_ascii_digit (c : ascii) : bool := ascii_between "0" "9" c.
Definition is_ascii_alphanumeric (c : ascii) : bool :=
  is_ascii_digit c || ascii_between "a" "z" c || ascii_between "A" "Z" c.

(** A byte that starts a UTF-8 encoded character (not a continuation byte). *)
Definition starts_char (c : ascii) : bool := negb (N.eqb (N.land (N_of_ascii c) 192) 128).

(** [s.chars().count()] *)
Definition chars_count (s : string) : nat := length (filter starts_char (bytes_of s)).

(** [valid_namespace]; a byte outside ASCII fails the last test, as the
    character it is part of does. *)
Definition valid_namespace (name : string) : bool :=
  negb (String.eqb name "") && (chars_count name <=? NS_MAX_LEN)%nat
  && forallb (λ c, is_ascii_alphanumeric c || Ascii.eqb c "_" || Ascii.eqb c "." || Ascii.eqb c "-")
       (bytes_of name).

(** [namespace_of_value] *)
Definition namespace_of_value (v : option Value.t) : string :=
  match v with Some (Value.Str s) => s | _ => NS_DEFAULT end.
