(* ===== verification/HashIndex.v ===== *)
(** * Strings to dense ids

    Models [HashIndex] of [crates/core-storage/src/cow.rs]: an index of strings
    kept elsewhere.  A string is looked up by its 64-bit hash in one of
    [HASH_SHARDS] shards and confirmed through [resolve]; a string whose hash
    is taken is kept by value in [collided].

    The keyed hash of the standard library ([RandomState::hash_one]) is the
    parameter [hash]: nothing is assumed of it, so every theorem holds whatever
    strings collide. *)

From S2P Require Import Prelude.

Definition HASH_SHARDS : Z := 1024.

Module HashIndex.
Section hash_index.
Context (hash : string → Z).

Record t := mk { shards : list (gmap Z Z); collided : gmap string Z; len : nat }.

Definition new : t := mk [] ∅ 0.
Definition is_empty (hi : t) : bool := (len hi =? 0)%nat.

(** [HashIndex::shard_of] *)
Definition shard_of (h : Z) : nat := Z.to_nat (Z.shiftr h 32 mod HASH_SHARDS).

(** [self.shards.get(shard_of(h)).and_then(|s| s.get(&h))] *)
Definition in_shard (hi : t) (h : Z) : option Z := s ← shards hi !! shard_of h; s !! h.

(** [HashIndex::get_hashed] *)
Definition get_hashed (hi : t) (key : string) (h : Z) (resolve : Z → option string) : option Z :=
  let fall_back := if bool_decide (collided hi = ∅) then None else collided hi !! key in
  match in_shard hi h with
  | Some id => if bool_decide (resolve id = Some key) then Some id else fall_back
  | None => fall_back
  end.

(** [HashIndex::get] *)
Definition get (hi : t) (key : string) (resolve : Z → option string) : option Z :=
  get_hashed hi key (hash key) resolve.

(** [HashIndex::insert_hashed]; indexing the shard panics out of range. *)
Definition insert_hashed (hi : t) (key : string) (h id : Z) : option t :=
  let shards := match shards hi with
                | [] => replicate (Z.to_nat HASH_SHARDS) ∅
                | shards => shards
                end in
  shard ← shards !! shard_of h;
  Some (match shard !! h with
        | Some _ => mk shards (<[key := id]> (collided hi)) (S (len hi))
        | None => mk (<[shard_of h := <[h := id]> shard]> shards) (collided hi) (S (len hi))
        end).

(** [HashIndex::insert] *)
Definition insert (hi : t) (key : string) (id : Z) : option t := insert_hashed hi key (hash key) id.

(** [HashIndex::remove] *)
Definition remove (hi : t) (key : string) (resolve : Z → option string) : option Z * t :=
  let h := hash key in
  let slow := match collided hi !! key with
              | None => (None, hi)
              | Some id => (Some id, mk (shards hi) (delete key (collided hi)) (pred (len hi)))
              end in
  match in_shard hi h with
  | Some id =>
      if bool_decide (resolve id = Some key)
      then (Some id, mk (alter (delete h) (shard_of h) (shards hi)) (collided hi) (pred (len hi)))
      else slow
  | None => slow
  end.

(** ** Invariant *)

(** [hi] indexes exactly the strings of [m]: each either by its hash in its
    shard or by value in [collided], and a shard entry always belongs to a
    string of [m] with that hash. *)
Record rep (hi : t) (m : gmap string Z) : Prop := {
  rep_collided : ∀ key id, collided hi !! key = Some id → m !! key = Some id;
  rep_shard : ∀ h id, in_shard hi h = Some id →
    ∃ key, hash key = h ∧ m !! key = Some id ∧ collided hi !! key = None;
  rep_all : ∀ key id, m !! key = Some id →
    collided hi !! key = Some id ∨ (in_shard hi (hash key) = Some id ∧ collided hi !! key = None);
  rep_len : len hi = size m;
  rep_shards : shards hi = [] ∨ length (shards hi) = Z.to_nat HASH_SHARDS;
}.

(** [resolve] answers every indexed id with its string. *)
Definition resolves (resolve : Z → option string) (m : gmap string Z) : Prop :=
  ∀ key id, m !! key = Some id → resolve id = Some key.

Lemma shard_of_lt h : (shard_of h < Z.to_nat HASH_SHARDS)%nat.
Proof. unfold shard_of, HASH_SHARDS. pose proof (Z.mod_pos_bound (Z.shiftr h 32) 1024). lia. Qed.

Lemma new_hash_rep : rep new ∅.
Proof. split; [by intros|by intros|by intros|by rewrite map_size_empty|by left]. Qed.

Lemma collided_lookup (hi : t) key :
  (if bool_decide (collided hi = ∅) then None else collided hi !! key) = collided hi !! key.
Proof. case_bool_decide as E; [by rewrite E|done]. Qed.

(** An entry found by hash is [key]'s exactly when [resolve] says so. *)
Lemma in_shard_key hi m resolve key id :
  rep hi m → resolves resolve m → in_shard hi (hash key) = Some id →
  (resolve id = Some key ∧ m !! key = Some id ∧ collided hi !! key = None) ∨
  (resolve id ≠ Some key ∧ collided hi !! key = m !! key).
Proof.
  intros Hr Hres Hs. destruct (rep_shard _ _ Hr _ _ Hs) as (key' & Hh & Hm & Hc).
  pose proof (Hres _ _ Hm) as Hres'. destruct (decide (key = key')) as [->|Hne]; [by left|right].
  split; [congruence|]. destruct (m !! key) as [id'|] eqn:Hk.
  - destruct (rep_all _ _ Hr _ _ Hk) as [?|[Hs' _]]; [done|]. rewrite Hs in Hs'. simplify_eq.
    specialize (Hres _ _ Hk). congruence.
  - destruct (collided hi !! key) eqn:E; [|done]. apply (rep_collided _ _ Hr) in E. congruence.
Qed.

Lemma not_in_shard hi m key :
  rep hi m → in_shard hi (hash key) = None → collided hi !! key = m !! key.
Proof.
  intros Hr Hs. destruct (m !! key) as [id'|] eqn:Hk.
  - destruct (rep_all _ _ Hr _ _ Hk) as [?|[Hs' _]]; congruence.
  - destruct (collided hi !! key) eqn:E; [|done]. apply (rep_collided _ _ Hr) in E. congruence.
Qed.

Lemma get_hash_spec hi m resolve key :
  rep hi m → resolves resolve m → get hi key resolve = m !! key.
Proof.
  intros Hr Hres. unfold get, get_hashed. rewrite collided_lookup.
  destruct (in_shard hi (hash key)) as [id|] eqn:Hs.
  - destruct (in_shard_key hi m resolve key id Hr Hres Hs) as [(? & ? & _)|(? & ?)].
    + by rewrite bool_decide_eq_true_2.
    + by rewrite bool_decide_eq_false_2.
  - by apply not_in_shard.
Qed.

Lemma in_shard_insert sh co n h0 shard id h :
  sh !! shard_of h0 = Some shard →
  in_shard (mk (<[shard_of h0 := <[h0 := id]> shard]> sh) co n) h =
  if decide (h = h0) then Some id else in_shard (mk sh co n) h.
Proof.
  intros Hs. unfold in_shard. cbn [shards]. pose proof (lookup_lt_Some _ _ _ Hs).
  destruct (decide (shard_of h0 = shard_of h)) as [He|Hne].
  - rewrite <-He, list_lookup_insert_eq, Hs by done. simpl. case_decide as Hh; [subst; apply lookup_insert_eq|].
    by apply lookup_insert_ne.
  - rewrite list_lookup_insert_ne by done. by rewrite decide_False by congruence.
Qed.

Lemma insert_hash_spec hi m key id :
  rep hi m → m !! key = None → ∃ hi', insert hi key id = Some hi' ∧ rep hi' (<[key := id]> m).
Proof.
  intros Hr Hk. unfold insert, insert_hashed. set (h := hash key).
  set (sh := match shards hi with [] => _ | _ => _ end).
  assert (length sh = Z.to_nat HASH_SHARDS) as Hlen.
  { unfold sh. destruct (rep_shards _ _ Hr) as [->|Hl]; [by rewrite length_replicate|].
    destruct (shards hi); [by rewrite length_replicate|done]. }
  assert (∀ h', in_shard (mk sh (collided hi) (len hi)) h' = in_shard hi h') as Hsame.
  { intros h'. unfold in_shard, sh. cbn [shards]. destruct (shards hi) eqn:E; [|done].
    rewrite lookup_replicate_2 by apply shard_of_lt. simpl. by rewrite lookup_empty. }
  destruct (lookup_lt_is_Some_2 sh (shard_of h)) as [shard Hshard]; [rewrite Hlen; apply shard_of_lt|].
  rewrite Hshard. cbn [mbind option_bind].
  assert (in_shard hi h = shard !! h) as Hin.
  { rewrite <-Hsame. unfold in_shard. cbn [shards]. by rewrite Hshard. }
  assert (collided hi !! key = None) as Hck.
  { destruct (collided hi !! key) eqn:E; [|done]. apply (rep_collided _ _ Hr) in E. congruence. }
  destruct (shard !! h) as [id0|] eqn:Hsh; eexists; (split; [done|]); split; cbn [collided len shards].
  - intros key' id'. rewrite !lookup_insert. case_decide; [done|]. apply (rep_collided _ _ Hr).
  - intros h' id' Hi. change (in_shard (mk sh (collided hi) (len hi)) h' = Some id') in Hi.
    rewrite Hsame in Hi. destruct (rep_shard _ _ Hr _ _ Hi) as (key' & Hh & Hm & Hc). exists key'.
    rewrite !lookup_insert_ne by congruence. done.
  - intros key' id'. rewrite lookup_insert. case_decide as He.
    + intros [= <-]. subst. left. by rewrite lookup_insert_eq.
    + intros Hm. rewrite lookup_insert_ne by done.
      change (in_shard (mk sh _ _) (hash key')) with (in_shard (mk sh (collided hi) (len hi)) (hash key')).
      rewrite Hsame. by apply (rep_all _ _ Hr).
  - by rewrite map_size_insert_None, (rep_len _ _ Hr).
  - by right.
  - intros key' id' Hc. rewrite lookup_insert_ne; [by apply (rep_collided _ _ Hr)|congruence].
  - intros h' id'. rewrite (in_shard_insert sh (collided hi) (S (len hi)) h shard id h' Hshard). case_decide as He.
    + intros [= <-]. exists key. subst h'. by rewrite lookup_insert_eq.
    + change (in_shard (mk sh _ _) h') with (in_shard (mk sh (collided hi) (len hi)) h'). rewrite Hsame.
      intros (key' & Hh & Hm & Hc)%(rep_shard _ _ Hr). exists key'.
      rewrite lookup_insert_ne by (intros <-; by apply He). done.
  - intros key' id'. rewrite (in_shard_insert sh (collided hi) (S (len hi)) h shard id (hash key') Hshard).
    rewrite lookup_insert. case_decide as He.
    + intros [= <-]. subst. right. by rewrite decide_True.
    + intros Hm. destruct (rep_all _ _ Hr _ _ Hm) as [?|[Hs Hc]]; [by left|right].
      rewrite decide_False; [change (in_shard (mk sh _ _) (hash key')) with (in_shard (mk sh (collided hi) (len hi)) (hash key')); by rewrite Hsame|].
      intros E. fold h in E. rewrite E, Hin in Hs. congruence.
  - by rewrite map_size_insert_None, (rep_len _ _ Hr).
  - right. by rewrite length_insert.
Qed.

Lemma in_shard_delete hi h0 h :
  in_shard (mk (alter (delete h0) (shard_of h0) (shards hi)) (collided hi) (pred (len hi))) h =
  if decide (h = h0) then None else in_shard hi h.
Proof.
  unfold in_shard. cbn [shards]. destruct (decide (shard_of h0 = shard_of h)) as [He|Hne].
  - rewrite <-He, list_lookup_alter_eq. destruct (shards hi !! shard_of h0); simpl; [|by case_decide].
    case_decide; [subst; apply lookup_delete_eq|by apply lookup_delete_ne].
  - rewrite list_lookup_alter_ne by done. by rewrite decide_False by congruence.
Qed.

Lemma remove_hash_spec hi m resolve key :
  rep hi m → resolves resolve m →
  (remove hi key resolve).1 = m !! key ∧ rep (remove hi key resolve).2 (delete key m).
Proof.
  intros Hr Hres. unfold remove. set (h := hash key).
  (* the string is not in its shard: it is in [collided] or not indexed *)
  assert (collided hi !! key = m !! key → (∀ id, in_shard hi h = Some id → resolve id ≠ Some key) →
    let slow := match collided hi !! key with
      | None => (None, hi)
      | Some id => (Some id, mk (shards hi) (delete key (collided hi)) (pred (len hi)))
      end in slow.1 = m !! key ∧ rep slow.2 (delete key m)) as Hslow.
  { intros Hck Hno. rewrite Hck. destruct (m !! key) as [id|] eqn:Hk; (split; [done|]).
    2:{ simpl. by rewrite delete_id. }
    split; cbn [collided len shards snd].
    - intros key' id'. rewrite !lookup_delete. case_decide; [done|]. apply (rep_collided _ _ Hr).
    - intros h' id' Hi. change (in_shard hi h' = Some id') in Hi.
      destruct (rep_shard _ _ Hr _ _ Hi) as (key' & Hh & Hm & Hc). exists key'.
      rewrite !lookup_delete_ne by congruence. done.
    - intros key' id'. rewrite !lookup_delete. case_decide; [done|].
      intros Hm. change (in_shard _ (hash key')) with (in_shard hi (hash key')). by apply (rep_all _ _ Hr).
    - rewrite map_size_delete_Some by by eexists. by rewrite (rep_len _ _ Hr).
    - apply (rep_shards _ _ Hr). }
  destruct (in_shard hi h) as [id|] eqn:Hs.
  2:{ apply Hslow; [by apply not_in_shard|done]. }
  destruct (in_shard_key hi m resolve key id Hr Hres Hs) as [(Hri & Hk & Hc)|(Hri & Hck)].
  2:{ rewrite bool_decide_eq_false_2 by done. apply Hslow; [done|]. intros ? [= <-]. done. }
  rewrite bool_decide_eq_true_2 by done. split; [by rewrite Hk|]. split; cbn [snd].
  - intros key' id' Hcol. apply (rep_collided _ _ Hr) in Hcol as Hm. rewrite lookup_delete_ne; [done|].
    intros <-. cbn [collided] in Hcol. congruence.
  - intros h' id'. rewrite in_shard_delete. case_decide as He; [done|].
    intros (key' & Hh & Hm & Hc')%(rep_shard _ _ Hr). exists key'.
    rewrite lookup_delete_ne by (intros <-; by apply He). done.
  - intros key' id'. rewrite lookup_delete. case_decide as He; [done|]. intros Hm. rewrite in_shard_delete.
    destruct (rep_all _ _ Hr _ _ Hm) as [?|[Hs' Hc']]; [by left|right]. rewrite decide_False; [done|].
    intros E. rewrite E in Hs'. fold h in Hs'. rewrite Hs in Hs'. simplify_eq.
    pose proof (Hres _ _ Hm). congruence.
  - cbn [len]. rewrite map_size_delete_Some by by eexists. by rewrite (rep_len _ _ Hr).
  - cbn [shards]. rewrite length_alter. destruct (rep_shards _ _ Hr) as [->|Hl]; [by left|by right].
Qed.
End hash_index.
End HashIndex.
