(* ===== verification/Interner.v ===== *)
(** * The symbol table

    Models [Interner] of [crates/core-storage/src/interner.rs]: labels, edge
    types and property names to dense symbols, never deleted but for the
    roll-back of speculative interning. *)

From S2P Require Import Prelude.

Module Interner.

Record t := mk { to_sym : gmap string Z; to_str : list string }.

Definition new : t := mk ∅ [].

(** [Interner::intern]; the symbol is the length cast to [u32]. *)
Definition intern (it : t) (s : string) : Z * t :=
  match to_sym it !! s with
  | Some sym => (sym, it)
  | None =>
      let sym := wrap_u 32 (Z.of_nat (length (to_str it))) in
      (sym, mk (<[s := sym]> (to_sym it)) (to_str it ++ [s]))
  end.

(** [Interner::resolve] *)
Definition resolve (it : t) (sym : Z) : option string := to_str it !! Z.to_nat sym.

(** [Interner::get] *)
Definition get (it : t) (s : string) : option Z := to_sym it !! s.

(** [Interner::len] *)
Definition len (it : t) : nat := length (to_str it).

(** [Interner::truncate] *)
Definition truncate (it : t) (n : nat) : t :=
  if (length (to_str it) <=? n)%nat then it
  else mk (foldl (λ m s, delete s m) (to_sym it) (drop n (to_str it))) (take n (to_str it)).

(** [interner_to_data] of [v8/encode.rs] *)
Definition interner_to_data (it : t) : list string :=
  (λ i, default ""%string (resolve it i)) <$> seqZ 0 (wrap_u 32 (Z.of_nat (len it))).

(** [archived_to_interner] of [v8/encode.rs] *)
Definition archived_to_interner (to_str : list string) : t :=
  foldl (λ syms s, (intern syms s).2) new to_str.

(** ** Invariant *)

(** The table is the list of distinct strings [l], symbol = position. *)
Record rep (it : t) (l : list string) : Prop := {
  rep_str : to_str it = l;
  rep_NoDup : NoDup l;
  rep_sym : ∀ s sym, to_sym it !! s = Some sym ↔ ∃ i, l !! i = Some s ∧ sym = Z.of_nat i;
  rep_u32 : Z.of_nat (length l) ≤ 2 ^ 32;
}.

Lemma new_interner_rep : rep new [].
Proof. split; [done|constructor| |simpl; lia]. intros s sym. split; [done|by intros (i & ? & _)]. Qed.

Lemma rep_resolve it l i s : rep it l → l !! i = Some s → resolve it (Z.of_nat i) = Some s.
Proof. intros Hr Hi. unfold resolve. by rewrite Nat2Z.id, (rep_str _ _ Hr). Qed.

(** Two tables for the same list are the same table. *)
Lemma rep_inj it it' l : rep it l → rep it' l → it = it'.
Proof.
  intros H1 H2. destruct it as [m1 l1], it' as [m2 l2].
  pose proof (rep_str _ _ H1) as E1. pose proof (rep_str _ _ H2) as E2. simpl in E1, E2. subst. f_equal.
  apply map_eq. intros s. apply option_eq. intros sym.
  pose proof (rep_sym _ _ H1 s sym) as S1. pose proof (rep_sym _ _ H2 s sym) as S2. simpl in *. by rewrite S1, S2.
Qed.

Lemma intern_spec it l s :
  rep it l → Z.of_nat (length l) < 2 ^ 32 →
  (∃ i, l !! i = Some s ∧ intern it s = (Z.of_nat i, it)) ∨
  (s ∉ l ∧ ∃ it', intern it s = (Z.of_nat (length l), it') ∧ rep it' (l ++ [s])).
Proof.
  intros Hr Hlt. unfold intern. destruct (to_sym it !! s) as [sym|] eqn:E.
  - left. apply (rep_sym _ _ Hr) in E as (i & Hi & ->). eauto.
  - right. assert (s ∉ l) as Hs.
    { intros [i Hi]%list_elem_of_lookup. assert (to_sym it !! s = Some (Z.of_nat i)) by (apply (rep_sym _ _ Hr); eauto).
      congruence. }
    split; [done|]. rewrite (rep_str _ _ Hr), wrap_u_id by (unfold in_u; lia). eexists. split; [done|].
    split; cbn [to_str to_sym]; [done| | |].
    + apply NoDup_app. split_and!; [apply Hr| |apply NoDup_singleton]. intros x Hx ->%list_elem_of_singleton. done.
    + intros s' sym'. rewrite lookup_insert. case_decide as He.
      * subst s'. split.
        -- intros [= <-]. exists (length l). split; [|done]. by apply list_lookup_middle.
        -- intros (i & Hi & ->). f_equal. f_equal. apply lookup_app_Some in Hi as [Hi|[Hge Hi]].
           { destruct Hs. by eapply list_elem_of_lookup_2. }
           apply list_lookup_singleton_Some in Hi as [? _]. lia.
      * rewrite (rep_sym _ _ Hr). split; intros (i & Hi & ->); exists i; (split; [|done]).
        -- by apply lookup_app_l_Some.
        -- apply lookup_app_Some in Hi as [?|[_ Hi]]; [done|]. by apply list_lookup_singleton_Some in Hi as [_ ->].
    + rewrite length_app. simpl. lia.
Qed.

Lemma foldl_delete_lookup (m : gmap string Z) ss s :
  foldl (λ m s, delete s m) m ss !! s = if decide (s ∈ ss) then None else m !! s.
Proof.
  revert m; induction ss as [|x ss IH]; intros m; simpl; [done|]. rewrite IH.
  destruct (decide (s = x)) as [->|Hne].
  - rewrite lookup_delete_eq, (decide_True (P := x ∈ x :: ss)) by by left. by case_decide.
  - rewrite lookup_delete_ne by done. case_decide; [rewrite decide_True by by right|rewrite decide_False by set_solver]; done.
Qed.

Lemma truncate_spec it l n : rep it l → rep (truncate it n) (take n l).
Proof.
  intros Hr. unfold truncate. rewrite (rep_str _ _ Hr).
  destruct (Nat.leb_spec (length l) n) as [Hle|Hgt]; [by rewrite take_ge|].
  split; cbn [to_str to_sym].
  - done.
  - pose proof (rep_NoDup _ _ Hr) as Hn. rewrite <-(take_drop n l) in Hn. by apply NoDup_app in Hn as (? & _).
  - intros s sym. rewrite foldl_delete_lookup. case_decide as Hs.
    + split; [done|]. intros (i & [Hi Hlt]%lookup_take_Some & ->). exfalso.
      apply list_elem_of_lookup in Hs as [j Hj]. rewrite lookup_drop in Hj.
      pose proof (NoDup_lookup l i (n + j) s (rep_NoDup _ _ Hr) Hi Hj). lia.
    + rewrite (rep_sym _ _ Hr). split; intros (i & Hi & ->); exists i; (split; [|done]).
      * apply lookup_take_Some. split; [done|]. destruct (decide (i < n)%nat); [done|]. destruct Hs.
        apply list_elem_of_lookup. exists (i - n)%nat. rewrite lookup_drop. by replace (n + (i - n))%nat with i by lia.
      * by apply lookup_take_Some in Hi as [? _].
  - pose proof (rep_u32 _ _ Hr). rewrite length_take. lia.
Qed.

Definition intern_all (it : t) (ss : list string) : t := foldl (λ it s, (intern it s).2) it ss.

Lemma intern_all_rep it l ss :
  rep it l → Z.of_nat (length l + length ss) < 2 ^ 32 →
  ∃ l', rep (intern_all it ss) (l ++ l') ∧ (length l' ≤ length ss)%nat
        ∧ (∀ s, s ∈ ss → s ∈ l ++ l') ∧ (∀ s, s ∈ l' → s ∈ ss).
Proof.
  revert it l; induction ss as [|s ss IH]; intros it l Hr Hlt; cbn [intern_all foldl length] in *.
  { exists []. rewrite app_nil_r. split_and!; [done|done|set_solver|set_solver]. }
  destruct (intern_spec it l s Hr ltac:(lia)) as [(i & Hi & ->)|(Hs & it1 & -> & Hr1)]; cbn [snd].
  - destruct (IH it l Hr ltac:(lia)) as (l' & Hr' & Hle & Hin & Hin'). exists l'. split_and!; [done|lia| |set_solver].
    intros x [->|Hx]%elem_of_cons; [|auto]. apply elem_of_app. left. by eapply list_elem_of_lookup_2.
  - destruct (IH it1 (l ++ [s]) Hr1) as (l' & Hr' & Hle & Hin & Hin'); [rewrite length_app; simpl; lia|].
    exists (s :: l'). rewrite <-app_assoc in Hr', Hin. split_and!; [done|simpl; lia| |set_solver].
    intros x [->|Hx]%elem_of_cons; [set_solver|by apply Hin].
Qed.

(** Interning is stable and injective: after interning any strings (fewer
    than 2^32), each of them has a symbol, [resolve] gives it back, two
    strings have the same symbol only if they are equal, the symbols are
    exactly 0 .. [len]-1, and interning more strings changes no symbol. *)
Theorem interner_roundtrip (ss ss' : list string) :
  Z.of_nat (length ss + length ss') < 2 ^ 32 →
  let it := intern_all new ss in
  let it' := intern_all it ss' in
  (∀ s, s ∈ ss → ∃ sym, get it s = Some sym ∧ resolve it sym = Some s ∧ 0 ≤ sym < Z.of_nat (len it)) ∧
  (∀ s1 s2 sym, get it s1 = Some sym → get it s2 = Some sym → s1 = s2) ∧
  (∀ s sym, get it s = Some sym → get it' s = Some sym ∧ resolve it' sym = Some s).
Proof.
  intros Hlt it it'. destruct (intern_all_rep new [] ss new_interner_rep) as (l & Hr & Hle & Hin & _); [simpl; lia|].
  fold it in Hr. simpl in Hr, Hin.
  destruct (intern_all_rep it l ss' Hr) as (l' & Hr' & _ & _ & _); [lia|]. fold it' in Hr'.
  unfold get. split_and!.
  - intros s Hs. apply Hin in Hs as [i Hi]%list_elem_of_lookup. exists (Z.of_nat i).
    split_and!; [apply (rep_sym _ _ Hr); eauto|by eapply rep_resolve|lia|].
    unfold len. rewrite (rep_str _ _ Hr). apply lookup_lt_Some in Hi. lia.
  - intros s1 s2 sym (i & Hi & ->)%(rep_sym _ _ Hr) (j & Hj & He)%(rep_sym _ _ Hr).
    apply Nat2Z.inj in He as <-. congruence.
  - intros s sym (i & Hi & ->)%(rep_sym _ _ Hr).
    assert ((l ++ l') !! i = Some s) as Hi' by by apply lookup_app_l_Some.
    split; [apply (rep_sym _ _ Hr'); eauto|by eapply rep_resolve].
Qed.

Lemma interner_roundtrip_witness :
  get (intern_all new ["KNOWS"; "Person"; "KNOWS"]) "Person" = Some 1 ∧
  (∀ s sym, get (intern_all new ["KNOWS"; "Person"; "KNOWS"]) s = Some sym →
     get (intern_all (intern_all new ["KNOWS"; "Person"; "KNOWS"]) ["age"]) s = Some sym).
Proof.
  split; [reflexivity|]. intros s sym Hs.
  exact (proj1 (proj2 (proj2 (interner_roundtrip ["KNOWS"; "Person"; "KNOWS"] ["age"] eq_refl)) s sym Hs)).
Defined.

(** Rolling back is the exact inverse of speculative interning: whatever
    strings are interned after the length was captured, truncating to it gives
    back the very same table. *)
Theorem interner_truncate_inverse (ss ss' : list string) :
  Z.of_nat (length ss + length ss') < 2 ^ 32 →
  truncate (intern_all (intern_all new ss) ss') (len (intern_all new ss)) = intern_all new ss.
Proof.
  intros Hlt. destruct (intern_all_rep new [] ss new_interner_rep) as (l & Hr & Hle & _); [simpl; lia|].
  simpl in Hr. destruct (intern_all_rep _ l ss' Hr) as (l' & Hr' & _); [lia|].
  eapply rep_inj; [|done]. unfold len. rewrite (rep_str _ _ Hr).
  replace l with (take (length l) (l ++ l')) at 2 by by rewrite take_app_length. by apply truncate_spec.
Qed.

Lemma interner_truncate_inverse_witness :
  truncate (intern_all (intern_all new ["a"; "b"]) ["b"; "c"]) (len (intern_all new ["a"; "b"]))
  = intern_all new ["a"; "b"].
Proof. apply interner_truncate_inverse. vm_compute. reflexivity. Defined.

(** Interning distinct new strings appends them. *)
Lemma intern_all_NoDup it l ss :
  rep it l → NoDup (l ++ ss) → Z.of_nat (length l + length ss) < 2 ^ 32 → rep (intern_all it ss) (l ++ ss).
Proof.
  revert it l; induction ss as [|s ss IH]; intros it l Hr Hn Hlt; cbn [intern_all foldl length] in *.
  { by rewrite app_nil_r. }
  destruct (intern_spec it l s Hr ltac:(lia)) as [(i & Hi & _)|(_ & it1 & -> & Hr1)]; cbn [snd].
  - exfalso. apply NoDup_app in Hn as (_ & Hd & _). apply (Hd s); [by eapply list_elem_of_lookup_2|by left].
  - rewrite cons_middle, app_assoc in Hn |- *. apply IH; [done|done|]. rewrite length_app. simpl. lia.
Qed.

Lemma interner_to_data_spec it l :
  rep it l → Z.of_nat (length l) < 2 ^ 32 → interner_to_data it = l.
Proof.
  intros Hr Hlt. unfold interner_to_data, len. rewrite (rep_str _ _ Hr), wrap_u_id by (unfold in_u; lia).
  apply list_eq. intros i. rewrite list_lookup_fmap. destruct (decide (i < length l)%nat) as [Hi|Hi].
  - rewrite lookup_seqZ_lt by lia. destruct (lookup_lt_is_Some_2 l i Hi) as [s Hs]. cbn [fmap option_fmap option_map].
    rewrite Z.add_0_l, (rep_resolve _ _ _ _ Hr Hs). done.
  - rewrite lookup_seqZ_ge, lookup_ge_None_2 by lia. done.
Qed.

(** A symbol table written to a snapshot and read back is the very same
    table, so every stored symbol still resolves to its string. *)
Theorem interner_snapshot_roundtrip (ss : list string) :
  Z.of_nat (length ss) < 2 ^ 32 →
  archived_to_interner (interner_to_data (intern_all new ss)) = intern_all new ss.
Proof.
  intros Hlt. destruct (intern_all_rep new [] ss new_interner_rep) as (l & Hr & Hle & _); [simpl; lia|].
  simpl in Hr. rewrite (interner_to_data_spec _ l Hr) by lia. eapply rep_inj; [|done].
  apply (intern_all_NoDup new [] l new_interner_rep); [apply (rep_NoDup _ _ Hr)|simpl; lia].
Qed.

Lemma interner_snapshot_roundtrip_witness :
  archived_to_interner (interner_to_data (intern_all new ["a"; "b"; "a"])) = intern_all new ["a"; "b"; "a"].
Proof. apply interner_snapshot_roundtrip. vm_compute. reflexivity. Defined.
End Interner.
