(* ===== verification/IdMap.v ===== *)
(** * Node keys and dense ids

    Models [IdMap] of [crates/core-storage/src/idmap.rs] over the copy-on-write
    pieces it is built from ([HashIndex] for the live keys, [CowVec] for the
    key slots, [CowMap] for the retired ids), its serialized form [IdMapWire],
    and its snapshot form ([idmap_to_data] and [archived_to_idmap] of
    [crates/core-storage/src/v8/encode.rs]). *)

From S2P Require Import Prelude Order Assoc CowMap CowMapIter CowVec HashIndex Types.

Module IdMap.
Section id_map.
Context (hash : string → Z).

Record t := mk {
  to_id : HashIndex.t;
  to_key : CowVec.t string;
  tombstones : CowMap.t Z unit;
}.

Definition new : t := mk HashIndex.new CowVec.new CowMap.new.

(** [dense_id] *)
Definition dense_id (len : nat) : Result Z :=
  ok_or (try_u 32 (Z.of_nat len)) (Corrupt "id space exhausted").

(** The closure [|id| to_key.get(id as usize).map(String::as_str)]. *)
Definition resolver (m : t) (id : Z) : option string := CowVec.get (to_key m) (Z.to_nat id).

(** [IdMap::try_insert] *)
Definition try_insert (m : t) (key : string) : option (Result Z * t) :=
  let h := hash key in
  match HashIndex.get_hashed (to_id m) key h (resolver m) with
  | Some id => Some (Ok id, m)
  | None =>
      match dense_id (CowVec.len (to_key m)) with
      | Err e => Some (Err e, m)
      | Ok id =>
          let to_key := CowVec.push (to_key m) key in
          to_id ← HashIndex.insert_hashed (to_id m) key h id;
          Some (Ok id, mk to_id to_key (tombstones m))
      end
  end.

(** [IdMap::get_or_insert] *)
Definition get_or_insert (m : t) (key : string) : option (Z * t) :=
  '(r, m) ← try_insert m key; id ← ok r; Some (id, m).

(** [IdMap::get] *)
Definition get (m : t) (key : string) : option Z := HashIndex.get hash (to_id m) key (resolver m).

(** [IdMap::is_tombstoned] *)
Definition is_tombstoned (m : t) (id : Z) : option bool :=
  if CowMap.is_empty (tombstones m) then Some false else CowMap.contains_key (tombstones m) id.

(** [IdMap::key_of] *)
Definition key_of (m : t) (id : Z) : option (option string) :=
  dead ← is_tombstoned m id;
  Some (if dead : bool then None else CowVec.get (to_key m) (Z.to_nat id)).

(** [IdMap::key_of_historical] *)
Definition key_of_historical (m : t) (id : Z) : option string := CowVec.get (to_key m) (Z.to_nat id).

(** [IdMap::unindex] *)
Definition unindex (m : t) (key : string) : option Z * t :=
  let '(r, to_id) := HashIndex.remove hash (to_id m) key (resolver m) in
  (r, mk to_id (to_key m) (tombstones m)).

(** [IdMap::rename]; [CowVec::set] panics out of range. *)
Definition rename (m : t) (old new : string) : option (Result Z * t) :=
  match get m new with
  | Some _ => Some (Err (DuplicateKey new), m)
  | None =>
      let '(r, m) := unindex m old in
      match r with
      | None => Some (Err (KeyNotFound old), m)
      | Some id =>
          to_key ← CowVec.set (to_key m) (Z.to_nat id) new;
          to_id ← HashIndex.insert hash (to_id m) new id;
          Some (Ok id, mk to_id to_key (tombstones m))
      end
  end.

(** [IdMap::delete] *)
Definition delete (m : t) (key : string) : option (option Z * t) :=
  let '(r, m) := unindex m key in
  match r with
  | None => Some (None, m)
  | Some id =>
      '(_, tombstones) ← CowMap.insert (tombstones m) id ();
      Some (Some id, mk (to_id m) (to_key m) tombstones)
  end.

(** [IdMap::tombstoned_ids]: [CowMap::keys] run to its end. *)
Definition tombstoned_ids (m : t) : option (list Z) :=
  it ← CowMapIter.range (tombstones m) CowMapIter.Unbounded CowMapIter.Unbounded;
  es ← CowMapIter.collect (S (CowMap.len (tombstones m))) it;
  Some es.*1.

Definition len (m : t) : nat := CowVec.len (to_key m).
Definition live_len (m : t) : nat := HashIndex.len (to_id m).
Definition all_keys (m : t) : list string := CowVec.iter (to_key m).

(** [iter.enumerate()] with the index cast to [u32]. *)
Definition enumerate_u32 {A} (l : list A) : list (Z * A) :=
  imap (λ i x, (wrap_u 32 (Z.of_nat i), x)) l.

(** The loops that index keys one by one. *)
Fixpoint index_all (to_id : HashIndex.t) (l : list (Z * string)) : option HashIndex.t :=
  match l with
  | [] => Some to_id
  | (id, key) :: l => to_id ← HashIndex.insert hash to_id key id; index_all to_id l
  end.

(** [IdMap::from_slots]; the [BTreeSet] is its ids in order. *)
Definition from_slots (keys : list string) (dead : list Z) : option t :=
  to_id ← index_all HashIndex.new
            (filter (λ p, p.1 ∉ dead ∧ p.2 ≠ ""%string) (enumerate_u32 keys));
  tombstones ← CowMapIter.from_sorted ((λ id, (id, ())) <$> dead);
  Some (mk to_id (CowVec.from_vec keys) tombstones).

(** *** The serialized form *)

Record IdMapWire := mk_wire {
  w_to_id : gmap string Z;
  w_to_key : list string;
  w_tombstones : list Z;
}.

(** [From<IdMap> for IdMapWire] *)
Definition to_wire (m : t) : option IdMapWire :=
  dead ← tombstoned_ids m;
  let live := filter (λ p, get m p.2 = Some p.1) (enumerate_u32 (all_keys m)) in
  Some (mk_wire (foldl (λ acc p, <[p.2 := p.1]> acc) ∅ live) (all_keys m) dead).

Definition by_id (p q : Z * string) : Prop := p.1 ≤ q.1.
#[local] Instance by_id_dec p q : Decision (by_id p q).
Proof. unfold by_id. apply _. Defined.

(** [live.sort_unstable_by_key(|(_, id)| *id)]: the entries of the map in the
    order of their ids. *)
Definition sort_by_id (m : gmap string Z) : list (Z * string) :=
  merge_sort by_id ((λ p, (p.2, p.1)) <$> map_to_list m).

(** [From<IdMapWire> for IdMap] *)
Definition from_wire (w : IdMapWire) : option t :=
  tombstones ← CowMapIter.from_sorted ((λ id, (id, ())) <$> w_tombstones w);
  to_id ← index_all HashIndex.new (sort_by_id (w_to_id w));
  Some (mk to_id (CowVec.from_vec (w_to_key w)) tombstones).

(** *** The snapshot form *)

(** [omap] with panics. *)
Fixpoint filter_panic {A} (f : A → option bool) (l : list A) : option (list A) :=
  match l with
  | [] => Some []
  | x :: l => b ← f x; l ← filter_panic f l; Some (if b : bool then x :: l else l)
  end.

(** [idmap_to_data] *)
Definition idmap_to_data (m : t) : option (list string * list Z) :=
  dead ← filter_panic (is_tombstoned m) (enumerate_u32 (all_keys m)).*1;
  Some (all_keys m, dead).

(** [archived_to_idmap]; the collect into a [BTreeSet] sorts and drops
    repeats. *)
Definition archived_to_idmap (d : list string * list Z) : option t :=
  from_slots d.1 (dedup (sort_unstable d.2)).

(** ** Abstract map

    The key slots, the live keys with their ids, and the retired ids. *)

Record spec := mk_spec { slots : list string; live : gmap string Z; dead : gset Z }.

Definition spec_new : spec := mk_spec [] ∅ ∅.

Definition spec_insert (s : spec) (key : string) : Result Z * spec :=
  match live s !! key with
  | Some id => (Ok id, s)
  | None =>
      let id := Z.of_nat (length (slots s)) in
      if decide (id < 2 ^ 32) then (Ok id, mk_spec (slots s ++ [key]) (<[key := id]> (live s)) (dead s))
      else (Err (Corrupt "id space exhausted"), s)
  end.

Definition spec_rename (s : spec) (old new : string) : Result Z * spec :=
  match live s !! new, live s !! old with
  | Some _, _ => (Err (DuplicateKey new), s)
  | None, None => (Err (KeyNotFound old), s)
  | None, Some id =>
      (Ok id, mk_spec (<[Z.to_nat id := new]> (slots s)) (<[new := id]> (base.delete old (live s))) (dead s))
  end.

Definition spec_delete (s : spec) (key : string) : option Z * spec :=
  match live s !! key with
  | None => (None, s)
  | Some id => (Some id, mk_spec (slots s) (base.delete key (live s)) ({[id]} ∪ dead s))
  end.

(** Each id below the number of slots is either live, under the key in its
    slot, or retired; never both. *)
Record sane (s : spec) : Prop := {
  sane_live : ∀ key id, live s !! key = Some id →
    0 ≤ id ∧ slots s !! Z.to_nat id = Some key ∧ id ∉ dead s;
  sane_dead : ∀ id, id ∈ dead s → 0 ≤ id < Z.of_nat (length (slots s));
  sane_all : ∀ i key, slots s !! i = Some key → Z.of_nat i ∉ dead s → live s !! key = Some (Z.of_nat i);
  sane_u32 : Z.of_nat (length (slots s)) ≤ 2 ^ 32;
}.

(** [m] is the abstract map [s]. *)
Record rep (m : t) (s : spec) : Prop := {
  rep_id : HashIndex.rep hash (to_id m) (live s);
  rep_key : CowVec.rep (to_key m) (slots s);
  rep_dead : ∃ es p, CowMap.holds (tombstones m) es p ∧ ∀ id, id ∈ es.*1 ↔ id ∈ dead s;
  rep_sane : sane s;
}.

Lemma sane_insert s key :
  let id := Z.of_nat (length (slots s)) in
  sane s → live s !! key = None → id < 2 ^ 32 →
  sane (mk_spec (slots s ++ [key]) (<[key := id]> (live s)) (dead s)).
Proof.
  intros id Hs Hk Hlt. split; cbn [live slots dead].
  - intros key' id'. rewrite lookup_insert. case_decide as He.
    + intros [= <-]. subst key'. split; [lia|]. split.
      * unfold id. rewrite Nat2Z.id. by apply list_lookup_middle.
      * intros Hd%(sane_dead _ Hs). lia.
    + intros (? & ? & ?)%(sane_live _ Hs). split_and!; [done| |done]. by apply lookup_app_l_Some.
  - intros id' Hd%(sane_dead _ Hs). rewrite length_app. simpl. lia.
  - intros i key' Hi Hd. apply lookup_app_Some in Hi as [Hi|[Hge Hi]].
    + pose proof (sane_all _ Hs _ _ Hi Hd) as Hl. rewrite lookup_insert_ne; [done|]. congruence.
    + apply list_lookup_singleton_Some in Hi as [? <-]. rewrite lookup_insert_eq. f_equal. lia.
  - rewrite length_app. simpl. lia.
Qed.

(** A live id leaves the keys. *)
Lemma sane_id_inj s key key' id :
  sane s → live s !! key = Some id → live s !! key' = Some id → key = key'.
Proof. intros Hs (_ & H1 & _)%(sane_live _ Hs) (_ & H2 & _)%(sane_live _ Hs). congruence. Qed.

Lemma sane_delete s key id :
  sane s → live s !! key = Some id → sane (mk_spec (slots s) (base.delete key (live s)) ({[id]} ∪ dead s)).
Proof.
  intros Hs Hk. destruct (sane_live _ Hs _ _ Hk) as (Hid & Hslot & Hdead).
  split; cbn [live slots dead].
  - intros key' id' [Hne Hk']%lookup_delete_Some. destruct (sane_live _ Hs _ _ Hk') as (? & ? & ?).
    split_and!; [done|done|]. intros [->%elem_of_singleton|?]%elem_of_union; [|done].
    destruct Hne. by eapply sane_id_inj.
  - intros id' [->%elem_of_singleton|Hd]%elem_of_union; [|by apply (sane_dead _ Hs)].
    apply lookup_lt_Some in Hslot. lia.
  - intros i key' Hi Hd. assert (Z.of_nat i ∉ dead s) as Hd' by set_solver.
    pose proof (sane_all _ Hs _ _ Hi Hd') as Hl. rewrite lookup_delete_ne; [done|].
    intros ->. simplify_eq. set_solver.
  - apply (sane_u32 _ Hs).
Qed.

Lemma sane_rename s old new id :
  sane s → live s !! old = Some id → live s !! new = None →
  sane (mk_spec (<[Z.to_nat id := new]> (slots s)) (<[new := id]> (base.delete old (live s))) (dead s)).
Proof.
  intros Hs Hold Hnew. destruct (sane_live _ Hs _ _ Hold) as (Hid & Hslot & Hdead).
  apply lookup_lt_Some in Hslot as Hlt. split; cbn [live slots dead].
  - intros key id'. rewrite lookup_insert. case_decide as He.
    + intros [= <-]. subst key. split_and!; [done|by apply list_lookup_insert_eq|done].
    + intros [Hne Hk]%lookup_delete_Some. destruct (sane_live _ Hs _ _ Hk) as (? & ? & ?).
      split_and!; [done| |done]. rewrite list_lookup_insert_ne; [done|]. intros Heq.
      assert (id = id') as -> by lia. destruct Hne. by eapply sane_id_inj.
  - intros id' Hd%(sane_dead _ Hs). by rewrite length_insert.
  - intros i key Hi Hd. apply list_lookup_insert_Some in Hi as [(<- & <- & _)|[Hne Hi]].
    + rewrite lookup_insert_eq. f_equal. lia.
    + pose proof (sane_all _ Hs _ _ Hi Hd) as Hl. rewrite lookup_insert_ne by congruence.
      rewrite lookup_delete_ne; [done|]. intros ->. simplify_eq. lia.
  - rewrite length_insert. apply (sane_u32 _ Hs).
Qed.

Lemma new_idmap_rep : rep new spec_new.
Proof.
  split.
  - apply HashIndex.new_hash_rep.
  - apply CowVec.new_rep.
  - exists [], 0. split; [apply CowMap.new_holds|]. intros id. simpl. set_solver.
  - split; cbn [live slots dead spec_new].
    + intros key id Hk. by rewrite lookup_empty in Hk.
    + intros id Hid. by apply not_elem_of_empty in Hid.
    + intros i key Hi. by rewrite lookup_nil in Hi.
    + done.
Qed.

Lemma rep_len m s : rep m s → CowVec.len (to_key m) = length (slots s).
Proof. intros Hr. destruct (rep_key _ _ Hr) as [(Hl & _) <-]. by rewrite Hl. Qed.

Lemma rep_get_slot m s i : rep m s → CowVec.get (to_key m) i = slots s !! i.
Proof. intros Hr. apply CowVec.get_spec, (rep_key _ _ Hr). Qed.

Lemma rep_resolves m s : rep m s → HashIndex.resolves (resolver m) (live s).
Proof.
  intros Hr key id Hk. unfold resolver. rewrite (rep_get_slot _ _ _ Hr).
  by destruct (sane_live _ (rep_sane _ _ Hr) _ _ Hk) as (_ & ? & _).
Qed.

Lemma rep_get m s key : rep m s → get m key = live s !! key.
Proof. intros Hr. exact (HashIndex.get_hash_spec hash _ _ _ key (rep_id _ _ Hr) (rep_resolves _ _ Hr)). Qed.

Lemma rep_is_tombstoned m s id : rep m s → is_tombstoned m id = Some (bool_decide (id ∈ dead s)).
Proof.
  intros Hr. destruct (rep_dead _ _ Hr) as (es & p & Hm & Hd). unfold is_tombstoned, CowMap.is_empty.
  destruct (CowMap.holds_len _ _ _ Hm) as [-> _]. destruct (Nat.eqb_spec (length es) 0) as [He|He].
  - apply nil_length_inv in He as ->. rewrite bool_decide_eq_false_2; [done|]. rewrite <-Hd. simpl. set_solver.
  - rewrite (CowMap.contains_key_holds _ _ _ _ Hm). f_equal. apply bool_decide_ext.
    rewrite <-Hd, <-not_eq_None_Some, alookup_None. destruct (decide (id ∈ es.*1)); tauto.
Qed.

Lemma rep_key_of m s id :
  rep m s → 0 ≤ id → key_of m id = Some (if decide (id ∈ dead s) then None else slots s !! Z.to_nat id).
Proof.
  intros Hr Hid. unfold key_of. rewrite (rep_is_tombstoned _ _ _ Hr), (rep_get_slot _ _ _ Hr).
  cbn [mbind option_bind]. by repeat case_decide || case_bool_decide.
Qed.

Lemma rep_tombstoned_ids m s :
  rep m s → ∃ ids, tombstoned_ids m = Some ids ∧ sorted ids ∧ ∀ id, id ∈ ids ↔ id ∈ dead s.
Proof.
  intros Hr. destruct (rep_dead _ _ Hr) as (es & p & Hm & Hd). exists es.*1.
  pose proof (CowMap.holds_sorted _ _ _ Hm) as Hs. split; [|done]. unfold tombstoned_ids.
  destruct (CowMapIter.iter_all _ _ _ Hm) as (it & -> & Hc). cbn [mbind option_bind]. by rewrite Hc.
Qed.

Lemma rep_insert m s key :
  rep m s → ∃ m', try_insert m key = Some ((spec_insert s key).1, m') ∧ rep m' (spec_insert s key).2.
Proof.
  intros Hr. pose proof (rep_get _ _ key Hr) as Hg. unfold get, HashIndex.get in Hg.
  unfold try_insert, spec_insert. rewrite Hg. destruct (live s !! key) as [id|] eqn:Hk; [eauto|].
  unfold dense_id, try_u. rewrite (rep_len _ _ Hr). set (id := Z.of_nat (length (slots s))).
  destruct (in_ub 32 id) eqn:Hb; cbn [ok_or].
  - apply in_ub_spec in Hb as [_ Hlt]. rewrite decide_True by done.
    destruct (HashIndex.insert_hash_spec hash (to_id m) (live s) key id (rep_id _ _ Hr) Hk) as (hi & Hi & Hrep).
    unfold HashIndex.insert in Hi. rewrite Hi. cbn [mbind option_bind]. eexists. split; [done|].
    split; cbn [to_id to_key tombstones fst snd].
    + done.
    + by apply CowVec.vec_push_spec, (rep_key _ _ Hr).
    + exact (rep_dead _ _ Hr).
    + apply sane_insert; [apply (rep_sane _ _ Hr)|done|done].
  - rewrite decide_False; [by eauto|]. intros Hlt.
    assert (in_ub 32 id = true) by (apply in_ub_spec; unfold in_u; lia). congruence.
Qed.

Lemma rep_unindex m s key :
  rep m s → (unindex m key).1 = live s !! key ∧
  HashIndex.rep hash (to_id (unindex m key).2) (base.delete key (live s)) ∧
  to_key (unindex m key).2 = to_key m ∧ tombstones (unindex m key).2 = tombstones m.
Proof.
  intros Hr. pose proof (HashIndex.remove_hash_spec hash _ _ _ key (rep_id _ _ Hr) (rep_resolves _ _ Hr)) as [H1 H2].
  unfold unindex. destruct (HashIndex.remove hash (to_id m) key (resolver m)) as [r hi]. done.
Qed.

(** Unindexing an unknown key changes nothing that is read. *)
Lemma rep_unindex_None m s key : rep m s → live s !! key = None → rep (unindex m key).2 s.
Proof.
  intros Hr Hk. destruct (rep_unindex _ _ key Hr) as (_ & Hi & Ht & Hd). split.
  - by rewrite delete_id in Hi.
  - rewrite Ht. exact (rep_key _ _ Hr).
  - rewrite Hd. exact (rep_dead _ _ Hr).
  - exact (rep_sane _ _ Hr).
Qed.

Lemma rep_delete m s key :
  rep m s → ∃ m', delete m key = Some ((spec_delete s key).1, m') ∧ rep m' (spec_delete s key).2.
Proof.
  intros Hr. pose proof (rep_unindex _ _ key Hr) as (Hu & Hi & Ht & Hd).
  pose proof (rep_unindex_None _ _ key Hr) as Hnone.
  unfold delete, spec_delete. destruct (unindex m key) as [r m1]. cbn [fst snd] in *. subst r.
  destruct (live s !! key) as [id|] eqn:Hk; [|eauto]. rewrite Hd.
  destruct (rep_dead _ _ Hr) as (es & p & Hm & He).
  destruct (CowMap.insert_holds _ _ _ id () Hm) as (tm & Hins & Htm). rewrite Hins. cbn [mbind option_bind].
  eexists. split; [done|]. split; cbn [to_id to_key tombstones snd live slots dead].
  - done.
  - rewrite Ht. exact (rep_key _ _ Hr).
  - eexists _, _. split; [done|]. intros x. rewrite elem_of_ainsert_keys, He. set_solver.
  - apply sane_delete; [exact (rep_sane _ _ Hr)|done].
Qed.

Lemma rep_rename m s old new :
  rep m s → ∃ m', rename m old new = Some ((spec_rename s old new).1, m') ∧ rep m' (spec_rename s old new).2.
Proof.
  intros Hr. pose proof (rep_unindex _ _ old Hr) as (Hu & Hi & Ht & Hd).
  pose proof (rep_unindex_None _ _ old Hr) as Hnone.
  unfold rename, spec_rename. rewrite (rep_get _ _ new Hr).
  destruct (live s !! new) as [id'|] eqn:Hnew; [eauto|].
  destruct (unindex m old) as [r m1]. cbn [fst snd] in *. subst r.
  destruct (live s !! old) as [id|] eqn:Hold; [|eauto]. rewrite Ht.
  destruct (sane_live _ (rep_sane _ _ Hr) _ _ Hold) as (_ & Hslot & _).
  pose proof (CowVec.set_spec _ _ (Z.to_nat id) new (rep_key _ _ Hr)) as Hset.
  destruct (CowVec.set (to_key m) (Z.to_nat id) new) as [v'|];
    [destruct Hset as [_ Hset]|apply lookup_lt_Some in Hslot; lia]. cbn [mbind option_bind].
  destruct (HashIndex.insert_hash_spec hash (to_id m1) (base.delete old (live s)) new id Hi) as (hi & -> & Hhi).
  { rewrite lookup_delete_None. by right. }
  cbn [mbind option_bind]. eexists. split; [done|]. split; cbn [to_id to_key tombstones snd live slots dead].
  - done.
  - done.
  - rewrite Hd. exact (rep_dead _ _ Hr).
  - by apply sane_rename; [exact (rep_sane _ _ Hr)|..].
Qed.

(** *** Sequences *)

Inductive op := OInsert (key : string) | ORename (old new : string) | ODelete (key : string).

(** What an operation answers. *)
Inductive out := RId (r : Result Z) | RDeleted (r : option Z).

Definition step (o : op) (m : t) : option (out * t) :=
  match o with
  | OInsert key => '(r, m) ← try_insert m key; Some (RId r, m)
  | ORename old new => '(r, m) ← rename m old new; Some (RId r, m)
  | ODelete key => '(r, m) ← delete m key; Some (RDeleted r, m)
  end.

Definition spec_step (o : op) (s : spec) : out * spec :=
  match o with
  | OInsert key => let '(r, s) := spec_insert s key in (RId r, s)
  | ORename old new => let '(r, s) := spec_rename s old new in (RId r, s)
  | ODelete key => let '(r, s) := spec_delete s key in (RDeleted r, s)
  end.

Fixpoint run (os : list op) (m : t) : option (list out * t) :=
  match os with
  | [] => Some ([], m)
  | o :: os => '(r, m) ← step o m; '(rs, m) ← run os m; Some (r :: rs, m)
  end.

Fixpoint spec_run (os : list op) (s : spec) : list out * spec :=
  match os with
  | [] => ([], s)
  | o :: os => let '(r, s) := spec_step o s in let '(rs, s) := spec_run os s in (r :: rs, s)
  end.

Lemma rep_step o m s : rep m s → ∃ m', step o m = Some ((spec_step o s).1, m') ∧ rep m' (spec_step o s).2.
Proof.
  intros Hr. destruct o as [key|old new|key]; cbn [step spec_step].
  - destruct (rep_insert _ _ key Hr) as (m' & -> & Hm'). destruct (spec_insert s key). cbn. eauto.
  - destruct (rep_rename _ _ old new Hr) as (m' & -> & Hm'). destruct (spec_rename s old new). cbn. eauto.
  - destruct (rep_delete _ _ key Hr) as (m' & -> & Hm'). destruct (spec_delete s key). cbn. eauto.
Qed.

Lemma rep_run os m s : rep m s → ∃ m', run os m = Some ((spec_run os s).1, m') ∧ rep m' (spec_run os s).2.
Proof.
  revert m s; induction os as [|o os IH]; intros m s Hr; cbn [run spec_run]; [by eauto|].
  destruct (rep_step o m s Hr) as (m1 & -> & Hm1). destruct (spec_step o s) as [r s1]. cbn [fst snd] in *.
  destruct (IH m1 s1 Hm1) as (m2 & Hrun & Hm2). cbn [mbind option_bind]. rewrite Hrun.
  destruct (spec_run os s1) as [rs s2]. cbn [mbind option_bind fst snd] in *. eauto.
Qed.

(** Every read of [m] answers from the abstract map. *)
Record reads_as (m : t) (s : spec) : Prop := {
  reads_get : ∀ key, get m key = live s !! key;
  reads_key_of : ∀ id, 0 ≤ id →
    key_of m id = Some (if decide (id ∈ dead s) then None else slots s !! Z.to_nat id);
  reads_historical : ∀ id, 0 ≤ id → key_of_historical m id = slots s !! Z.to_nat id;
  reads_tombstoned : ∀ id, is_tombstoned m id = Some (bool_decide (id ∈ dead s));
  reads_ids : ∃ ids, tombstoned_ids m = Some ids ∧ sorted ids ∧ ∀ id, id ∈ ids ↔ id ∈ dead s;
  reads_len : len m = length (slots s);
  reads_live_len : live_len m = size (live s);
  reads_keys : all_keys m = slots s;
}.

Lemma rep_reads m s : rep m s → reads_as m s.
Proof.
  intros Hr. split.
  - intros key. by apply rep_get.
  - intros id. by apply rep_key_of.
  - intros id _. unfold key_of_historical. by apply rep_get_slot.
  - intros id. by apply rep_is_tombstoned.
  - by apply rep_tombstoned_ids.
  - by apply rep_len.
  - exact (HashIndex.rep_len _ _ _ (rep_id _ _ Hr)).
  - exact (proj2 (rep_key _ _ Hr)).
Qed.

(** ** Rebuilding *)

Lemma elem_of_enumerate {A} (l : list A) id x :
  Z.of_nat (length l) ≤ 2 ^ 32 → (id, x) ∈ enumerate_u32 l ↔ 0 ≤ id ∧ l !! Z.to_nat id = Some x.
Proof.
  intros Hl. unfold enumerate_u32. rewrite elem_of_lookup_imap. split.
  - intros (i & y & [= -> ->] & Hi). apply lookup_lt_Some in Hi as Hlt.
    rewrite wrap_u_id by (unfold in_u; lia). by rewrite Nat2Z.id; split; [lia|].
  - intros [Hid Hx]. exists (Z.to_nat id), x. apply lookup_lt_Some in Hx as Hlt.
    rewrite wrap_u_id by (unfold in_u; lia). split; [f_equal; lia|done].
Qed.

Lemma NoDup_enumerate {A} (l : list A) : Z.of_nat (length l) ≤ 2 ^ 32 → NoDup (enumerate_u32 l).
Proof.
  intros Hl. apply NoDup_alt. intros i j [id x]. unfold enumerate_u32. rewrite !list_lookup_imap.
  intros (y & Hi & [= E1 E2])%fmap_Some_1 (z & Hj & [= E3 E4])%fmap_Some_1.
  apply lookup_lt_Some in Hi, Hj. rewrite wrap_u_id in E1, E3 by (unfold in_u; lia). lia.
Qed.

Lemma index_all_spec hi m0 l :
  HashIndex.rep hash hi m0 → NoDup l.*2 → (∀ key, key ∈ l.*2 → m0 !! key = None) →
  ∃ hi', index_all hi l = Some hi' ∧ HashIndex.rep hash hi' (foldl (λ acc p, <[p.2 := p.1]> acc) m0 l).
Proof.
  revert hi m0; induction l as [|[id key] l IH]; intros hi m0 Hr Hn Hm; cbn [index_all foldl]; [by eauto|].
  cbn [fmap list_fmap snd] in Hn, Hm. apply NoDup_cons in Hn as [Hk Hn].
  destruct (HashIndex.insert_hash_spec hash hi m0 key id Hr) as (hi1 & -> & Hr1); [apply Hm; by left|].
  cbn [mbind option_bind fst snd]. apply IH; [done|done|]. intros key' Hin.
  rewrite lookup_insert_ne by (intros ->; done). apply Hm. by right.
Qed.

Lemma foldl_insert_lookup (m0 : gmap string Z) l key :
  NoDup l.*2 →
  foldl (λ acc p, <[p.2 := p.1]> acc) m0 l !! key =
  match list_find (λ p : Z * string, p.2 = key) l with Some (_, p) => Some p.1 | None => m0 !! key end.
Proof.
  revert m0; induction l as [|[id k] l IH]; intros m0 Hn; [done|]. cbn [fmap list_fmap snd foldl] in *.
  apply NoDup_cons in Hn as [Hk Hn]. rewrite IH by done. cbn [list_find fst snd].
  destruct (decide (k = key)) as [->|Hne].
  - destruct (list_find _ l) as [[i p]|] eqn:E; [|apply lookup_insert_eq].
    apply list_find_Some in E as (Hi & Hp & _). destruct Hk. rewrite <-Hp.
    apply list_elem_of_fmap_2. by eapply list_elem_of_lookup_2.
  - destruct (list_find _ l) as [[i p]|]; [done|]. by apply lookup_insert_ne.
Qed.

(** The pairs of the live keys, each once, in whatever order, rebuild them. *)
Lemma foldl_live (m : gmap string Z) l :
  NoDup l → (∀ id key, (id, key) ∈ l ↔ m !! key = Some id) →
  NoDup l.*2 ∧ foldl (λ acc p, <[p.2 := p.1]> acc) ∅ l = m.
Proof.
  intros Hn Hl. assert (NoDup l.*2) as Hn2.
  { apply NoDup_fmap_2_strong; [|done]. intros [i1 k1] [i2 k2] H1%Hl H2%Hl He. simpl in He. congruence. }
  split; [done|]. apply map_eq. intros key. rewrite foldl_insert_lookup by done.
  destruct (list_find _ l) as [[i [id k]]|] eqn:E.
  - apply list_find_Some in E as (Hi & Hp & _). simpl in Hp. subst k. symmetry. apply Hl.
    by eapply list_elem_of_lookup_2.
  - apply list_find_None in E. rewrite lookup_empty. destruct (m !! key) as [id|] eqn:Hk; [|done].
    apply Hl in Hk. rewrite Forall_forall in E. by apply E in Hk.
Qed.

Lemma index_live (m : gmap string Z) l :
  NoDup l → (∀ id key, (id, key) ∈ l ↔ m !! key = Some id) →
  ∃ hi, index_all HashIndex.new l = Some hi ∧ HashIndex.rep hash hi m.
Proof.
  intros Hn Hl. destruct (foldl_live m l Hn Hl) as [Hn2 Hf].
  destruct (index_all_spec HashIndex.new ∅ l (HashIndex.new_hash_rep hash) Hn2) as (hi & Hi & Hr).
  { intros. apply lookup_empty. }
  rewrite Hf in Hr. eauto.
Qed.

(** The retired ids in order rebuild the tombstones. *)
Lemma tombstones_of s ids :
  sane s → sorted ids → (∀ id, id ∈ ids ↔ id ∈ dead s) →
  ∃ tm p, CowMapIter.from_sorted ((λ id, (id, ())) <$> ids) = Some tm
          ∧ CowMap.holds tm ((λ id, (id, ())) <$> ids) p.
Proof.
  intros Hs Hsort Hids.
  destruct (CowMapIter.from_sorted_holds ((λ id : Z, (id, ())) <$> ids)) as (tm & Hf & Hm).
  - by rewrite <-list_fmap_compose, list_fmap_id.
  - rewrite length_fmap. assert (length ids ≤ length (seqZ 0 (Z.of_nat (length (slots s)))))%nat as Hlen.
    { apply submseteq_length, NoDup_submseteq; [by apply sorted_NoDup|].
      intros id Hid%Hids%(sane_dead _ Hs). apply elem_of_seqZ. lia. }
    rewrite length_seqZ in Hlen. pose proof (sane_u32 _ Hs). lia.
  - eauto.
Qed.

Lemma tombstones_keys (ids : list Z) : (((λ id, (id, ())) <$> ids) : list (Z * unit)).*1 = ids.
Proof. by rewrite <-list_fmap_compose, list_fmap_id. Qed.

Lemma from_slots_rep s ids :
  sane s → sorted ids → (∀ id, id ∈ ids ↔ id ∈ dead s) → live s !! ""%string = None →
  ∃ m, from_slots (slots s) ids = Some m ∧ rep m s.
Proof.
  intros Hs Hsort Hids Hempty. pose proof (sane_u32 _ Hs) as Hu. unfold from_slots.
  destruct (index_live (live s) (filter (λ p, p.1 ∉ ids ∧ p.2 ≠ ""%string) (enumerate_u32 (slots s))))
    as (hi & -> & Hhi).
  { by apply NoDup_filter, NoDup_enumerate. }
  { intros id key. rewrite list_elem_of_filter, elem_of_enumerate by done. cbn [fst snd]. rewrite Hids. split.
    - intros [[Hd Hk] [Hid Hslot]]. rewrite <-(Z2Nat.id id) in Hd |- * by done. by apply (sane_all _ Hs).
    - intros Hl. destruct (sane_live _ Hs _ _ Hl) as (? & ? & ?). split_and!; [done|congruence|done|done]. }
  cbn [mbind option_bind]. destruct (tombstones_of s ids Hs Hsort Hids) as (tm & p & -> & Htm).
  cbn [mbind option_bind]. eexists. split; [done|]. split; cbn [to_id to_key tombstones].
  - done.
  - apply CowVec.from_vec_spec.
  - eexists _, _. split; [exact Htm|]. by rewrite tombstones_keys.
  - done.
Qed.

Lemma filter_panic_spec {A} (f : A → bool) (g : A → option bool) l :
  (∀ x, g x = Some (f x)) → filter_panic g l = Some (filter (λ x, f x = true) l).
Proof.
  intros Hg. induction l as [|x l IH]; [done|]. cbn [filter_panic]. rewrite Hg, IH. cbn [mbind option_bind].
  rewrite filter_cons. by destruct (f x).
Qed.

Lemma idmap_data_spec m s :
  rep m s → ∃ ids, idmap_to_data m = Some (slots s, ids) ∧ ∀ id, id ∈ ids ↔ id ∈ dead s.
Proof.
  intros Hr. pose proof (rep_sane _ _ Hr) as Hs. pose proof (sane_u32 _ Hs) as Hu. unfold idmap_to_data.
  rewrite (filter_panic_spec (λ id, bool_decide (id ∈ dead s))) by (intros; by apply rep_is_tombstoned).
  unfold all_keys. rewrite (proj2 (rep_key _ _ Hr)). cbn [mbind option_bind]. eexists. split; [done|].
  intros id. rewrite list_elem_of_filter, bool_decide_eq_true, list_elem_of_fmap. split; [by intros [? _]|].
  intros Hd. split; [done|]. destruct (sane_dead _ Hs _ Hd) as [H0 Hlt].
  destruct (lookup_lt_is_Some_2 (slots s) (Z.to_nat id)) as [key Hkey]; [lia|].
  exists (id, key). split; [done|]. by apply elem_of_enumerate.
Qed.

Lemma to_wire_spec m s :
  rep m s → ∃ ids, to_wire m = Some (mk_wire (live s) (slots s) ids) ∧ sorted ids ∧ ∀ id, id ∈ ids ↔ id ∈ dead s.
Proof.
  intros Hr. pose proof (rep_sane _ _ Hr) as Hs. pose proof (sane_u32 _ Hs) as Hu.
  destruct (rep_tombstoned_ids _ _ Hr) as (ids & Hids & Hsort & Hin). exists ids. split; [|done].
  unfold to_wire. rewrite Hids. cbn [mbind option_bind]. unfold all_keys. rewrite (proj2 (rep_key _ _ Hr)).
  do 2 f_equal. apply foldl_live; [by apply NoDup_filter, NoDup_enumerate|]. intros id key.
  rewrite list_elem_of_filter, elem_of_enumerate by done. cbn [fst snd]. rewrite (rep_get _ _ key Hr).
  split; [by intros [? _]|]. intros Hl. destruct (sane_live _ Hs _ _ Hl) as (? & ? & ?). done.
Qed.

Lemma elem_of_sort_by_id (m : gmap string Z) :
  NoDup (sort_by_id m) ∧ ∀ id key, (id, key) ∈ sort_by_id m ↔ m !! key = Some id.
Proof.
  unfold sort_by_id. split.
  - rewrite merge_sort_Permutation. apply NoDup_fmap_2; [intros [? ?] [? ?] [= -> ->]; done|apply NoDup_map_to_list].
  - intros id key. rewrite merge_sort_Permutation, list_elem_of_fmap. split.
    + intros ([k i] & [= -> ->] & Hin). by apply elem_of_map_to_list.
    + intros Hk. exists (key, id). split; [done|]. by apply elem_of_map_to_list.
Qed.

Lemma from_wire_rep s ids :
  sane s → sorted ids → (∀ id, id ∈ ids ↔ id ∈ dead s) →
  ∃ m, from_wire (mk_wire (live s) (slots s) ids) = Some m ∧ rep m s.
Proof.
  intros Hs Hsort Hids. unfold from_wire. cbn [w_to_id w_to_key w_tombstones].
  destruct (tombstones_of s ids Hs Hsort Hids) as (tm & p & -> & Htm). cbn [mbind option_bind].
  destruct (elem_of_sort_by_id (live s)) as [Hn Hin].
  destruct (index_live (live s) (sort_by_id (live s)) Hn Hin) as (hi & -> & Hhi). cbn [mbind option_bind].
  eexists. split; [done|]. split; cbn [to_id to_key tombstones].
  - done.
  - apply CowVec.from_vec_spec.
  - eexists _, _. split; [exact Htm|]. by rewrite tombstones_keys.
  - done.
Qed.

(** ** What is permanent *)

(** Nothing retired comes back, and its slot keeps its key. *)
Definition later (s s' : spec) : Prop :=
  (length (slots s) ≤ length (slots s'))%nat ∧
  ∀ id, id ∈ dead s → id ∈ dead s' ∧ slots s' !! Z.to_nat id = slots s !! Z.to_nat id.

Lemma later_refl s : later s s.
Proof. split; [done|]. auto. Qed.

Lemma later_trans s1 s2 s3 : later s1 s2 → later s2 s3 → later s1 s3.
Proof.
  intros [Hl1 H1] [Hl2 H2]. split; [lia|]. intros id Hd. destruct (H1 id Hd) as [Hd2 E1].
  destruct (H2 id Hd2) as [? E2]. split; [done|]. congruence.
Qed.

Lemma later_step o s : sane s → later s (spec_step o s).2.
Proof.
  intros Hs. destruct o as [key|old new|key]; cbn [spec_step].
  - unfold spec_insert. destruct (live s !! key); [apply later_refl|]. case_decide; [|apply later_refl].
    split; cbn [snd slots dead]; [rewrite length_app; lia|]. intros id Hd. split; [done|].
    apply lookup_app_l. apply (sane_dead _ Hs) in Hd. lia.
  - unfold spec_rename. destruct (live s !! new); [apply later_refl|].
    destruct (live s !! old) as [id|] eqn:Hold; [|apply later_refl].
    split; cbn [snd slots dead]; [by rewrite length_insert|]. intros id' Hd. split; [done|].
    apply list_lookup_insert_ne. destruct (sane_live _ Hs _ _ Hold) as (? & _ & Hnd).
    pose proof (sane_dead _ Hs _ Hd). intros He. destruct Hnd. by replace id with id' by lia.
  - unfold spec_delete. destruct (live s !! key); [|apply later_refl].
    split; cbn [snd slots dead]; [done|]. intros id Hd. split; [set_solver|done].
Qed.

Lemma later_run os m s : rep m s → later s (spec_run os s).2.
Proof.
  revert m s; induction os as [|o os IH]; intros m s Hr; cbn [spec_run]; [apply later_refl|].
  destruct (rep_step o m s Hr) as (m1 & _ & Hm1). pose proof (later_step o s (rep_sane _ _ Hr)) as Hl.
  destruct (spec_step o s) as [r s1]. cbn [fst snd] in *. specialize (IH m1 s1 Hm1).
  destruct (spec_run os s1) as [rs s2]. cbn [snd] in *. by eapply later_trans.
Qed.
End id_map.

(** ** Claims *)

(** C8: whatever the hash function (so whatever keys collide), any sequence of
    inserts, renames and deletes runs without a panic and answers as the
    abstract map does: an insert of a live key gives its id, of any other the
    next id, or the error when the 32-bit id space is exhausted; a rename fails
    on a live target or an unknown source and otherwise keeps the id; a delete
    retires the id.  Every read of the map left agrees with it, and keys and
    ids are in bijection: [get key] is [id] exactly when [key_of id] is
    [key]. *)
Theorem idmap_refines (hash : string → Z) (os : list op) :
  ∃ m, run hash os new = Some ((spec_run os spec_new).1, m)
       ∧ reads_as hash m (spec_run os spec_new).2
       ∧ ∀ key id, 0 ≤ id → get hash m key = Some id ↔ key_of m id = Some (Some key).
Proof.
  destruct (rep_run hash os new spec_new (new_idmap_rep hash)) as (m & Hrun & Hm).
  exists m. split; [done|]. split; [by apply rep_reads|]. intros key id Hid.
  rewrite (rep_get _ _ _ key Hm), (rep_key_of _ _ _ id Hm Hid). pose proof (rep_sane _ _ _ Hm) as Hs. split.
  - intros (_ & Hslot & Hd)%(sane_live _ Hs). rewrite decide_False by done. by f_equal.
  - case_decide as Hd; [done|]. intros [= Hk]. rewrite <-(Z2Nat.id id) in Hd |- * by done. by apply (sane_all _ Hs).
Qed.

(** Retired ids are permanent: after any operations, whatever operations
    follow, an id reported as retired stays retired, its slot keeps the key it
    had when it was retired (which [key_of_historical] still answers), no key
    maps to it again, and the number of slots never shrinks. *)
Theorem idmap_retired_forever (hash : string → Z) (os os' : list op) :
  ∃ rs m rs' m', run hash os new = Some (rs, m) ∧ run hash os' m = Some (rs', m') ∧ (len m ≤ len m')%nat ∧
    ∀ id, 0 ≤ id → is_tombstoned m id = Some true →
      is_tombstoned m' id = Some true ∧ key_of_historical m' id = key_of_historical m id
      ∧ key_of m' id = Some None ∧ ∀ key, get hash m' key ≠ Some id.
Proof.
  destruct (rep_run hash os new spec_new (new_idmap_rep hash)) as (m & Hrun & Hm).
  destruct (rep_run hash os' m _ Hm) as (m' & Hrun' & Hm').
  pose proof (later_run hash os' m _ Hm) as [Hlen Hdead].
  pose proof (rep_reads _ _ _ Hm) as Hr. pose proof (rep_reads _ _ _ Hm') as Hr'.
  eexists _, m, _, m'. split; [exact Hrun|]. split; [exact Hrun'|].
  rewrite (reads_len _ _ _ Hr), (reads_len _ _ _ Hr'). split; [done|]. intros id Hid.
  rewrite (reads_tombstoned _ _ _ Hr). intros [= Hd%bool_decide_eq_true]. destruct (Hdead id Hd) as [Hd' Hslot].
  split_and!.
  - rewrite (reads_tombstoned _ _ _ Hr'). by rewrite bool_decide_eq_true_2.
  - rewrite (reads_historical _ _ _ Hr id Hid), (reads_historical _ _ _ Hr' id Hid). done.
  - rewrite (reads_key_of _ _ _ Hr' id Hid). by rewrite decide_True.
  - intros key. rewrite (reads_get _ _ _ Hr'). intros (_ & _ & Hn)%(sane_live _ (rep_sane _ _ _ Hm')). done.
Qed.

(** An id map written to a snapshot and read back reads exactly as before:
    every key slot, every live key and every retired id, provided no node has
    the empty key. *)
Theorem idmap_snapshot_roundtrip (hash hash' : string → Z) (os : list op) :
  live (spec_run os spec_new).2 !! ""%string = None →
  ∃ m d m', run hash os new = Some ((spec_run os spec_new).1, m)
    ∧ idmap_to_data m = Some d ∧ archived_to_idmap hash' d = Some m'
    ∧ reads_as hash m (spec_run os spec_new).2 ∧ reads_as hash' m' (spec_run os spec_new).2.
Proof.
  intros Hempty. destruct (rep_run hash os new spec_new (new_idmap_rep hash)) as (m & Hrun & Hm).
  destruct (idmap_data_spec _ _ _ Hm) as (ids & Hd & Hids).
  destruct (from_slots_rep hash' _ (dedup (sort_unstable ids)) (rep_sane _ _ _ Hm)) as (m' & Hf & Hm').
  - apply sort_dedup_sorted.
  - intros id. by rewrite elem_of_sort_dedup.
  - done.
  - exists m, (slots (spec_run os spec_new).2, ids), m'. split_and!; [done|done|done|..]; by eapply rep_reads.
Qed.

(** The case the source calls out: delete [b], then rename [a] to [b]. *)
Lemma idmap_snapshot_roundtrip_witness :
  let os := [OInsert "a"; OInsert "b"; ODelete "b"; ORename "a" "b"] in
  ∃ m d m', run (λ _, 7) os new = Some ((spec_run os spec_new).1, m)
    ∧ idmap_to_data m = Some d ∧ archived_to_idmap (λ _, 9) d = Some m'
    ∧ get (λ _, 9) m' "b" = Some 0 ∧ is_tombstoned m' 1 = Some true.
Proof.
  intros os. destruct (idmap_snapshot_roundtrip (λ _, 7) (λ _, 9) os) as (m & d & m' & Hr & Hd & Hm' & _ & Hrd).
  { reflexivity. }
  exists m, d, m'. split; [exact Hr|]. split; [exact Hd|]. split; [exact Hm'|]. split.
  - rewrite (reads_get _ _ _ Hrd). reflexivity.
  - rewrite (reads_tombstoned _ _ _ Hrd). reflexivity.
Defined.

(** The serialized form loses nothing, the empty key included: converting
    to [IdMapWire] and back gives a map whose every read is unchanged. *)
Theorem idmap_wire_roundtrip (hash hash' : string → Z) (os : list op) :
  ∃ m w m', run hash os new = Some ((spec_run os spec_new).1, m)
    ∧ to_wire hash m = Some w ∧ from_wire hash' w = Some m'
    ∧ reads_as hash m (spec_run os spec_new).2 ∧ reads_as hash' m' (spec_run os spec_new).2.
Proof.
  destruct (rep_run hash os new spec_new (new_idmap_rep hash)) as (m & Hrun & Hm).
  destruct (to_wire_spec _ _ _ Hm) as (ids & Hw & Hsort & Hids).
  destruct (from_wire_rep hash' _ ids (rep_sane _ _ _ Hm) Hsort Hids) as (m' & Hf & Hm').
  eexists m, _, m'. split_and!; [done|exact Hw|done|..]; by eapply rep_reads.
Qed.

(** C40: a node with the empty key does not survive a snapshot: [try_insert]
    accepts it and [get] finds it, but [from_slots] skips it, so after the
    reload [get] no longer finds it while [key_of] still answers it. *)
Theorem idmap_empty_key_lost (hash : string → Z) :
  ∃ m d m', run hash [OInsert ""] new = Some ([RId (Ok 0)], m) ∧ get hash m "" = Some 0
    ∧ idmap_to_data m = Some d ∧ archived_to_idmap hash d = Some m'
    ∧ get hash m' "" = None ∧ key_of m' 0 = Some (Some ""%string) ∧ live_len m' = 0%nat.
Proof.
  destruct (rep_run hash [OInsert ""] new spec_new (new_idmap_rep hash)) as (m & Hrun & Hm).
  exists m. destruct (idmap_data_spec _ _ _ Hm) as (ids & Hd & Hids).
  assert (ids = []) as ->.
  { destruct ids as [|id ids]; [done|]. exfalso. apply (not_elem_of_empty (C := gset Z) id), Hids. by left. }
  eexists _, _. split_and!; [exact Hrun|by rewrite (rep_get _ _ _ _ Hm)|exact Hd|reflexivity|..]; reflexivity.
Qed.
End IdMap.
