(* ===== verification/EdgeProps.v ===== *)
(** * Edge properties

    Models [EdgeProps] of [crates/core-storage/src/edge_props.rs] (the overlay),
    [EdgePropsView] of [crates/core-storage/src/v8/seam.rs] (layer over overlay
    over archived base), the snapshot section of
    [crates/core-storage/src/v8/encode.rs], and what a snapshot and a reopening
    in [crates/core-api/src/db.rs] do to the overlay.

    A [BTreeMap] is a [gmap], listed in key order where the code iterates.  The
    archived properties of an edge are an opaque [Blob]: [ser] and [de] stand
    for [bincode::serialize] and [bincode::deserialize]. *)

From S2P Require Import Prelude Order Assoc Topology Types.

Abbreviation props := (gmap string Value.t).

(** [entries.sort_by_key(|e| (e.etype, e.src, e.dst))] *)
Definition by_key {A} (p q : triple * A) : Prop := p.1 ≤ₖ q.1.
#[export] Instance by_key_dec {A} (p q : triple * A) : Decision (by_key p q).
Proof. unfold by_key. apply _. Defined.
Definition sort_by_key {A} (l : list (triple * A)) : list (triple * A) := merge_sort by_key l.

Lemma sort_by_key_perm {A} (l : list (triple * A)) : sort_by_key l ≡ₚ l.
Proof. apply merge_sort_Permutation. Qed.

#[export] Instance by_key_total {A} : Total (@by_key A).
Proof.
  intros p q. unfold by_key, kle. rewrite (cmp_antisym q.1 p.1). destruct (cmp q.1 p.1); simpl; auto.
Qed.
#[export] Instance by_key_trans {A} : Transitive (@by_key A).
Proof. intros p q r. unfold by_key. apply kle_trans. Qed.

Lemma sort_by_key_sorted {A} (l : list (triple * A)) : NoDup l.*1 → sorted (sort_by_key l).*1.
Proof.
  intros Hn. rewrite <-(sort_by_key_perm l) in Hn. unfold sort_by_key in *.
  pose proof (StronglySorted_merge_sort by_key l) as Hs.
  induction (merge_sort by_key l) as [|p m IH]; [constructor|]. cbn [fmap list_fmap] in *.
  apply NoDup_cons in Hn as [Hp Hn]. apply StronglySorted_inv in Hs as [Hs Hall].
  constructor; [by apply IH|]. apply Forall_fmap. rewrite Forall_forall in Hall |- *. intros q Hq. simpl.
  destruct (proj1 (kle_lt_eq p.1 q.1) (Hall q Hq)) as [?|He]; [done|]. destruct Hp. rewrite He.
  by apply list_elem_of_fmap_2.
Qed.

Module EdgeProps.
Record t := mk { map : gmap triple props; tombstones : gset triple; touched : gset triple }.

Definition new : t := mk ∅ ∅ ∅.

(** [EdgeProps::set] *)
Definition set (ep : t) (key : triple) (field : string) (value : Value.t) : t :=
  mk (<[key := <[field := value]> (default ∅ (map ep !! key))]> (map ep))
     (tombstones ep) ({[key]} ∪ touched ep).

(** [EdgeProps::get] *)
Definition get (ep : t) (key : triple) (field : string) : option Value.t :=
  m ← map ep !! key; m !! field.

(** [EdgeProps::props_of] *)
Definition props_of (ep : t) (key : triple) : option props := map ep !! key.

(** [EdgeProps::remove_edge] *)
Definition remove_edge (ep : t) (key : triple) : t :=
  mk (delete key (map ep)) ({[key]} ∪ tombstones ep) ({[key]} ∪ touched ep).

(** [EdgeProps::replace] *)
Definition replace (ep : t) (key : triple) (ps : props) : t :=
  mk (if decide (ps = ∅) then delete key (map ep) else <[key := ps]> (map ep))
     ({[key]} ∪ tombstones ep) ({[key]} ∪ touched ep).

(** [EdgeProps::take_touched] *)
Definition take_touched (ep : t) : gset triple * t := (touched ep, mk (map ep) (tombstones ep) ∅).

(** [EdgeProps::entry] *)
Definition entry (ep : t) (key : triple) : option props * bool :=
  (map ep !! key, bool_decide (key ∈ tombstones ep)).

(** [EdgeProps::restore_entry] *)
Definition restore_entry (ep : t) (key : triple) (e : option props * bool) : t :=
  mk (match e.1 with Some ps => <[key := ps]> (map ep) | None => delete key (map ep) end)
     (if e.2 then {[key]} ∪ tombstones ep else tombstones ep ∖ {[key]})
     (touched ep).

Definition is_tombstoned (ep : t) (key : triple) : bool := bool_decide (key ∈ tombstones ep).

(** [EdgeProps::is_clean] *)
Definition is_clean (ep : t) : bool := bool_decide (map ep = ∅) && bool_decide (tombstones ep = ∅).

(** [EdgeProps::sorted_entries] *)
Definition sorted_entries (ep : t) : list (triple * props) := sort_by_key (map_to_list (map ep)).
End EdgeProps.

Module EdgePropsView.
(** *** What an overlay lays over what is below *)

Definition over (ep : EdgeProps.t) (below : triple → props) (key : triple) : props :=
  if decide (key ∈ EdgeProps.tombstones ep) then EdgeProps.map ep !!! key
  else (EdgeProps.map ep !!! key) ∪ below key.

Lemma default_total (m : gmap triple props) key : default ∅ (m !! key) = m !!! key.
Proof. by rewrite lookup_total_alt. Qed.

Lemma over_ext ep below below' key : below key = below' key → over ep below key = over ep below' key.
Proof. unfold over. by intros ->. Qed.

Lemma over_cases ep below key :
  (if EdgeProps.is_tombstoned ep key then default ∅ (EdgeProps.props_of ep key)
   else match EdgeProps.props_of ep key with Some own => own ∪ below key | None => below key end)
  = over ep below key.
Proof.
  unfold over, EdgeProps.is_tombstoned, EdgeProps.props_of. rewrite default_total.
  case_bool_decide; case_decide; try done. rewrite lookup_total_alt.
  destruct (EdgeProps.map ep !! key); simpl; [done|]. by rewrite (left_id_L ∅ (∪)).
Qed.

Lemma get_over ep below key field (g : option Value.t) :
  g = below key !! field →
  match EdgeProps.get ep key field with
  | Some x => Some x
  | None => if EdgeProps.is_tombstoned ep key then None else g
  end = over ep below key !! field.
Proof.
  intros ->. unfold over, EdgeProps.get, EdgeProps.is_tombstoned. rewrite lookup_total_alt.
  destruct (EdgeProps.map ep !! key) as [m|]; simpl.
  - case_bool_decide; case_decide; try done; [by destruct (m !! field)|].
    rewrite lookup_union. by destruct (m !! field), (below key !! field).
  - case_bool_decide; case_decide; try done. by rewrite (left_id_L ∅ (∪)).
Qed.

(** ** Writes *)

Inductive op :=
| OSet (key : triple) (field : string) (value : Value.t)
| ORemove (key : triple)
| OReplace (key : triple) (ps : props).

Definition op_key (o : op) : triple := match o with OSet k _ _ | ORemove k | OReplace k _ => k end.

Definition write (ep : EdgeProps.t) (o : op) : EdgeProps.t :=
  match o with
  | OSet key field value => EdgeProps.set ep key field value
  | ORemove key => EdgeProps.remove_edge ep key
  | OReplace key ps => EdgeProps.replace ep key ps
  end.

(** What a write does to an edge's whole property map. *)
Definition spec_write (o : op) (ps : props) : props :=
  match o with OSet _ field value => <[field := value]> ps | ORemove _ => ∅ | OReplace _ ps' => ps' end.

Lemma over_write ep below o key :
  over (write ep o) below key =
  if decide (key = op_key o) then spec_write o (over ep below key) else over ep below key.
Proof.
  unfold over. destruct o as [k f v|k|k ps]; cbn [write op_key spec_write EdgeProps.set EdgeProps.remove_edge
    EdgeProps.replace EdgeProps.map EdgeProps.tombstones].
  - destruct (decide (key = k)) as [->|Hne].
    + rewrite lookup_total_insert_eq, default_total. case_decide; [done|]. by rewrite insert_union_l.
    + by rewrite lookup_total_insert_ne.
  - destruct (decide (key = k)) as [->|Hne].
    + rewrite decide_True by set_solver. by rewrite lookup_total_delete_eq.
    + rewrite lookup_total_delete_ne by done. repeat case_decide; try done; set_solver.
  - destruct (decide (key = k)) as [->|Hne].
    + rewrite decide_True by set_solver. case_decide; [subst; by rewrite lookup_total_delete_eq|].
      by rewrite lookup_total_insert_eq.
    + assert ((if decide (ps = ∅) then delete k (EdgeProps.map ep) else <[k := ps]> (EdgeProps.map ep)) !!! key
              = EdgeProps.map ep !!! key) as ->.
      { case_decide; [by rewrite lookup_total_delete_ne|by rewrite lookup_total_insert_ne]. }
      repeat case_decide; try done; set_solver.
Qed.

Definition write_all (ep : EdgeProps.t) (os : list op) : EdgeProps.t := foldl write ep os.

Definition spec_write_all (os : list op) (key : triple) (ps : props) : props :=
  foldl (λ ps o, if decide (key = op_key o) then spec_write o ps else ps) ps os.

Lemma over_write_all ep below os key : over (write_all ep os) below key = spec_write_all os key (over ep below key).
Proof.
  revert ep; induction os as [|o os IH]; intros ep; [done|]. unfold write_all, spec_write_all in *. cbn [foldl].
  by rewrite IH, over_write.
Qed.

Lemma over_new below key : over EdgeProps.new below key = below key.
Proof.
  unfold over. rewrite decide_False by set_solver. cbn [EdgeProps.new EdgeProps.map].
  rewrite lookup_total_empty. apply (left_id_L ∅ (∪)).
Qed.

Lemma write_all_map ep os key :
  (∀ o, o ∈ os → ∃ k f v, o = OSet k f v) →
  EdgeProps.map (write_all ep os) !!! key = spec_write_all os key (EdgeProps.map ep !!! key)
  ∧ EdgeProps.tombstones (write_all ep os) = EdgeProps.tombstones ep.
Proof.
  unfold write_all, spec_write_all. revert ep; induction os as [|o os IH]; intros ep Ho; [done|]. cbn [foldl].
  destruct (Ho o) as (k & f & v & ->); [by left|]. destruct (IH (write ep (OSet k f v))) as [-> ->].
  { intros o Hin. apply Ho. by right. }
  cbn [write op_key spec_write EdgeProps.set EdgeProps.map EdgeProps.tombstones]. split; [|done]. f_equal.
  case_decide as He; [subst; by rewrite lookup_total_insert_eq, default_total|by rewrite lookup_total_insert_ne].
Qed.

Section view.
Context {Blob : Type} (no_blob : Blob) (ser : props → option Blob) (de : Blob → option props).

(** [EdgePropsData]: the entries, sorted by key. *)
Abbreviation data := (list (triple * Blob)).

Record view := mk_view { overlay : EdgeProps.t; base : option data; layer : option EdgeProps.t }.

Definition owned (ov : EdgeProps.t) : view := mk_view ov None None.
Definition with_base (ov : EdgeProps.t) (b : data) : view := mk_view ov (Some b) None.
Definition with_layer (v : view) (tx : EdgeProps.t) : view := mk_view (overlay v) (base v) (Some tx).
Definition below_tx (v : view) : view := mk_view (overlay v) (base v) None.

(** The archived properties of a key: the binary search and the decoding. *)
Definition base_props (b : data) (key : triple) : option props :=
  match binary_search key b.*1 with
  | inl i => '(_, blob) ← b !! i; de blob
  | inr _ => None
  end.

(** [EdgePropsView::get] below the layer. *)
Definition get_below (v : view) (key : triple) (field : string) : option Value.t :=
  match EdgeProps.get (overlay v) key field with
  | Some x => Some x
  | None =>
      if EdgeProps.is_tombstoned (overlay v) key then None
      else b ← base v; ps ← base_props b key; ps !! field
  end.

(** [EdgePropsView::get] *)
Definition get (v : view) (key : triple) (field : string) : option Value.t :=
  match layer v with
  | Some tx =>
      match EdgeProps.get tx key field with
      | Some x => Some x
      | None => if EdgeProps.is_tombstoned tx key then None else get_below (below_tx v) key field
      end
  | None => get_below v key field
  end.

(** [EdgePropsView::props_of] below the layer; [extend] lays the overlay's
    fields over the base's. *)
Definition props_of_below (v : view) (key : triple) : props :=
  if EdgeProps.is_tombstoned (overlay v) key then default ∅ (EdgeProps.props_of (overlay v) key)
  else
    let out := default ∅ (b ← base v; base_props b key) in
    match EdgeProps.props_of (overlay v) key with Some own => own ∪ out | None => out end.

(** [EdgePropsView::props_of] *)
Definition props_of (v : view) (key : triple) : props :=
  match layer v with
  | Some tx =>
      if EdgeProps.is_tombstoned tx key then default ∅ (EdgeProps.props_of tx key)
      else
        let out := props_of_below (below_tx v) key in
        match EdgeProps.props_of tx key with Some own => own ∪ out | None => out end
  | None => props_of_below v key
  end.

(** *** The snapshot section *)

(** [bincode::serialize(..).unwrap_or_default()] *)
Definition ser_blob (ps : props) : Blob := default no_blob (ser ps).

(** [edge_props_to_data] *)
Definition edge_props_to_data (ep : EdgeProps.t) : data :=
  sort_by_key ((λ e, (e.1, ser_blob e.2)) <$> EdgeProps.sorted_entries ep).

(** The first loop of [edge_props_merge_to_data]: the entries copied, and the
    base fields of the keys the overlay also writes. *)
Definition merge_base_step (ov : EdgeProps.t) (acc : data * gmap triple props) (e : triple * Blob) :
    data * gmap triple props :=
  let '(key, blob) := e in
  if EdgeProps.is_tombstoned ov key then acc
  else if decide (is_Some (EdgeProps.map ov !! key)) then (acc.1, <[key := default ∅ (de blob)]> acc.2)
  else (acc.1 ++ [(key, blob)], acc.2).

(** Its second loop: the overlay's entries, over the base fields. *)
Definition merge_overlay_step (acc : data * gmap triple props) (e : triple * props) :
    data * gmap triple props :=
  let '(key, ps) := e in
  let blob := match acc.2 !! key with
              | Some below => ser_blob (ps ∪ below)
              | None => ser_blob ps
              end in
  (acc.1 ++ [(key, blob)], delete key acc.2).

(** [edge_props_merge_to_data] *)
Definition edge_props_merge_to_data (b : data) (ov : EdgeProps.t) : data :=
  let acc := foldl (merge_base_step ov) ([], ∅) b in
  let acc := foldl merge_overlay_step acc (EdgeProps.sorted_entries ov) in
  sort_by_key acc.1.

(** Section 5 of [encode_v8]: passthrough, merge, or fresh encode. *)
Definition edge_props_section (b : option data) (ov : EdgeProps.t) : data :=
  match b with
  | Some b => if EdgeProps.is_clean ov then b else edge_props_merge_to_data b ov
  | None => edge_props_to_data ov
  end.

(** [archived_edge_props_to_owned]; a [BTreeMap] is consumed in key order,
    which the fields being distinct makes irrelevant. *)
Definition archived_edge_props_to_owned (b : data) : EdgeProps.t :=
  foldl (λ ep e,
           foldl (λ ep fv, EdgeProps.set ep e.1 fv.1 fv.2) ep (map_to_list (default ∅ (de e.2))))
    EdgeProps.new b.

(** ** What the views read *)

Definition read_data (b : option data) (key : triple) : props := default ∅ (b ← b; base_props b key).

Lemma props_of_below_over v key : props_of_below v key = over (overlay v) (read_data (base v)) key.
Proof. apply (over_cases (overlay v) (read_data (base v)) key). Qed.

Lemma props_of_layer v tx key : props_of (with_layer v tx) key = over tx (props_of_below (below_tx v)) key.
Proof. apply (over_cases tx (props_of_below (below_tx v)) key). Qed.

Lemma get_below_props v key field : get_below v key field = props_of_below v key !! field.
Proof.
  rewrite props_of_below_over. apply get_over. unfold read_data.
  destruct (base v) as [b|]; simpl; [|by rewrite lookup_empty].
  destruct (base_props b key); simpl; [done|by rewrite lookup_empty].
Qed.

Lemma get_props_of v key field : get v key field = props_of v key !! field.
Proof.
  destruct v as [ov b [tx|]]; [|apply get_below_props].
  change (props_of (mk_view ov b (Some tx)) key) with (props_of (with_layer (mk_view ov b None) tx) key).
  rewrite props_of_layer. apply get_over, get_below_props.
Qed.

(** ** The snapshot section *)

Lemma base_props_alookup (b : data) key : sorted b.*1 → base_props b key = alookup key b ≫= de.
Proof.
  intros Hs. unfold base_props. destruct (binary_search_spec key b.*1 Hs) as [(i & -> & Hi & _)|(i & -> & Hni & _)].
  - apply list_lookup_fmap_Some in Hi as ([k blob] & Hk & Hi). simpl in Hk. subst k. rewrite Hi. simpl.
    rewrite (proj2 (alookup_Some key blob b Hs)); [done|]. by eapply list_elem_of_lookup_2.
  - by rewrite (proj2 (alookup_None key b)).
Qed.

Lemma base_props_elem (b : data) key blob : sorted b.*1 → (key, blob) ∈ b → base_props b key = de blob.
Proof. intros Hs Hin. rewrite base_props_alookup by done. by rewrite (proj2 (alookup_Some key blob b Hs)). Qed.

Lemma base_props_missing (b : data) key : sorted b.*1 → key ∉ b.*1 → base_props b key = None.
Proof. intros Hs Hin. rewrite base_props_alookup by done. by rewrite (proj2 (alookup_None key b)). Qed.

(** A copied base entry: neither hidden nor written by the overlay. *)
Definition copied (ov : EdgeProps.t) (e : triple * Blob) : Prop :=
  e.1 ∉ EdgeProps.tombstones ov ∧ EdgeProps.map ov !! e.1 = None.
#[local] Instance copied_dec ov e : Decision (copied ov e).
Proof. unfold copied. apply _. Defined.

Lemma merge_base_loop ov (b : data) acc mb :
  NoDup b.*1 →
  let r := foldl (merge_base_step ov) (acc, mb) b in
  r.1 = acc ++ filter (copied ov) b ∧
  (∀ key, key ∉ b.*1 ∨ key ∈ EdgeProps.tombstones ov ∨ EdgeProps.map ov !! key = None → r.2 !! key = mb !! key) ∧
  (∀ key blob, (key, blob) ∈ b → key ∉ EdgeProps.tombstones ov → is_Some (EdgeProps.map ov !! key) →
     r.2 !! key = Some (default ∅ (de blob))).
Proof.
  revert acc mb; induction b as [|[k blob] b IH]; intros acc mb Hn; cbn [foldl].
  { rewrite app_nil_r. split_and!; [done|done|]. by intros ?? ?%elem_of_nil. }
  cbn [fmap list_fmap fst] in Hn. apply NoDup_cons in Hn as [Hk Hn].
  assert (∀ blob', (k, blob') ∈ b → False) as Hnk by (intros blob' Hin; by apply Hk, (elem_of_fst _ _ _ Hin)).
  cbn [merge_base_step]. unfold EdgeProps.is_tombstoned. rewrite filter_cons.
  case_bool_decide as Ht; [|case_decide as Hm].
  - rewrite decide_False by (intros [? _]; done). destruct (IH acc mb Hn) as (H1 & H2 & H3). split_and!; [done| |].
    + intros key Hkey. apply H2. set_solver.
    + intros key blob' [[= -> ->]|Hin]%elem_of_cons; [done|]. by apply H3.
  - rewrite decide_False by (intros [_ He]; simpl in He; rewrite He in Hm; by destruct Hm).
    destruct (IH acc (<[k := default ∅ (de blob)]> mb) Hn) as (H1 & H2 & H3). cbn [fst snd]. split_and!; [done| |].
    + intros key Hkey. rewrite H2 by set_solver. rewrite lookup_insert_ne; [done|]. intros <-.
      destruct Hkey as [Hkey|[?|Hkey]]; [set_solver|done|rewrite Hkey in Hm; by destruct Hm].
    + intros key blob' [[= -> ->]|Hin]%elem_of_cons Ht' Hm'; [|by apply H3].
      rewrite H2 by (left; done). by rewrite lookup_insert_eq.
  - apply eq_None_not_Some in Hm. rewrite decide_True by done.
    destruct (IH (acc ++ [(k, blob)]) mb Hn) as (H1 & H2 & H3). cbn [fst snd]. split_and!.
    + by rewrite H1, <-app_assoc.
    + intros key Hkey. apply H2. set_solver.
    + intros key blob' [[= -> ->]|Hin]%elem_of_cons Ht' [? Hm']; [congruence|]. apply H3; eauto.
Qed.

Definition merged_blob (mb : gmap triple props) (key : triple) (ps : props) : Blob :=
  match mb !! key with Some below => ser_blob (ps ∪ below) | None => ser_blob ps end.

Lemma merge_overlay_loop es acc mb :
  NoDup es.*1 →
  (foldl merge_overlay_step (acc, mb) es).1 = acc ++ ((λ e, (e.1, merged_blob mb e.1 e.2)) <$> es).
Proof.
  revert acc mb; induction es as [|[k ps] es IH]; intros acc mb Hn; cbn [foldl merge_overlay_step fst snd].
  { by rewrite app_nil_r. }
  cbn [fmap list_fmap fst] in Hn. apply NoDup_cons in Hn as [Hk Hn]. rewrite IH by done. rewrite <-app_assoc.
  f_equal. cbn [fmap list_fmap app fst snd]. f_equal. apply list_fmap_ext. intros i [k' ps'] Hi. cbn [fst snd].
  f_equal. unfold merged_blob. rewrite lookup_delete_ne; [done|]. intros <-. destruct Hk.
  by eapply elem_of_fst, list_elem_of_lookup_2.
Qed.

Lemma elem_of_sorted_entries ep key ps : (key, ps) ∈ EdgeProps.sorted_entries ep ↔ EdgeProps.map ep !! key = Some ps.
Proof. unfold EdgeProps.sorted_entries. by rewrite sort_by_key_perm, elem_of_map_to_list. Qed.

Lemma NoDup_sorted_entries ep : NoDup (EdgeProps.sorted_entries ep).*1.
Proof. unfold EdgeProps.sorted_entries. rewrite sort_by_key_perm. apply NoDup_fst_map_to_list. Qed.

Lemma elem_of_entries_keys ep key : key ∈ (EdgeProps.sorted_entries ep).*1 ↔ is_Some (EdgeProps.map ep !! key).
Proof.
  rewrite list_elem_of_fmap. split.
  - intros ([k ps] & -> & Hin%elem_of_sorted_entries). by eexists.
  - intros [ps Hps%elem_of_sorted_entries]. by exists (key, ps).
Qed.

(** bincode: serializing succeeds and deserializing inverts it. *)
Definition bincode_ok : Prop := ∀ ps, ∃ blob, ser ps = Some blob ∧ de blob = Some ps.

Lemma de_ser_blob ps : bincode_ok → de (ser_blob ps) = Some ps.
Proof. intros Hb. destruct (Hb ps) as (blob & Hs & Hd). unfold ser_blob. by rewrite Hs. Qed.

Lemma to_data_spec ep :
  bincode_ok → let d := edge_props_to_data ep in
  sorted d.*1 ∧ ∀ key, read_data (Some d) key = EdgeProps.map ep !!! key.
Proof.
  intros Hb d. assert (sorted d.*1) as Hs.
  { apply sort_by_key_sorted. rewrite <-list_fmap_compose. apply NoDup_sorted_entries. }
  split; [done|]. intros key. unfold read_data. simpl. rewrite lookup_total_alt.
  destruct (EdgeProps.map ep !! key) as [ps|] eqn:E; simpl.
  - rewrite (base_props_elem d key (ser_blob ps) Hs), de_ser_blob; [done|done|].
    unfold d, edge_props_to_data. rewrite sort_by_key_perm. apply list_elem_of_fmap.
    exists (key, ps). split; [done|]. by apply elem_of_sorted_entries.
  - rewrite base_props_missing; [done|done|]. unfold d, edge_props_to_data.
    rewrite sort_by_key_perm, <-list_fmap_compose. rewrite elem_of_entries_keys, E. by intros [? ?].
Qed.

Lemma merge_elems (b : data) ov :
  NoDup b.*1 → ∃ mb,
  edge_props_merge_to_data b ov =
    sort_by_key (filter (copied ov) b ++ ((λ e, (e.1, merged_blob mb e.1 e.2)) <$> EdgeProps.sorted_entries ov)) ∧
  (∀ key, key ∉ b.*1 ∨ key ∈ EdgeProps.tombstones ov → mb !! key = None) ∧
  (∀ key blob, (key, blob) ∈ b → key ∉ EdgeProps.tombstones ov → is_Some (EdgeProps.map ov !! key) →
     mb !! key = Some (default ∅ (de blob))).
Proof.
  intros Hn. pose proof (merge_base_loop ov b [] ∅ Hn) as (H1 & H2 & H3). unfold edge_props_merge_to_data.
  destruct (foldl (merge_base_step ov) ([], ∅) b) as [acc mb]. cbn [fst snd] in *. exists mb. split_and!.
  - rewrite merge_overlay_loop by apply NoDup_sorted_entries. by rewrite H1.
  - intros key Hk. rewrite H2; [apply lookup_empty|tauto].
  - done.
Qed.

Lemma merge_data_spec (b : data) ov :
  bincode_ok → sorted b.*1 → let d := edge_props_merge_to_data b ov in
  sorted d.*1 ∧ ∀ key, read_data (Some d) key = over ov (read_data (Some b)) key.
Proof.
  intros Hb Hsb d. pose proof (sorted_NoDup _ Hsb) as Hnb.
  destruct (merge_elems b ov Hnb) as (mb & Hd & Hmb1 & Hmb2). fold d in Hd.
  assert (sorted d.*1) as Hs.
  { rewrite Hd. apply sort_by_key_sorted. rewrite fmap_app, <-list_fmap_compose. apply NoDup_app. split_and!.
    - by apply sorted_NoDup, sorted_fmap_filter.
    - intros k (e & -> & [[_ He] _]%list_elem_of_filter)%list_elem_of_fmap Hk%elem_of_entries_keys.
      rewrite He in Hk. by destruct Hk.
    - apply NoDup_sorted_entries. }
  split; [done|]. intros key. unfold over, read_data at 1. cbn [mbind option_bind]. rewrite lookup_total_alt.
  destruct (EdgeProps.map ov !! key) as [ps|] eqn:E; simpl.
  - rewrite (base_props_elem d key (merged_blob mb key ps) Hs).
    2:{ rewrite Hd, sort_by_key_perm. apply elem_of_app. right. apply list_elem_of_fmap.
        exists (key, ps). split; [done|]. by apply elem_of_sorted_entries. }
    unfold merged_blob. case_decide as Ht.
    + rewrite Hmb1 by by right. by rewrite de_ser_blob.
    + unfold read_data. cbn [mbind option_bind]. destruct (decide (key ∈ b.*1)) as [Hin|Hni].
      * apply list_elem_of_fmap in Hin as ([k blob] & -> & Hin). cbn [fst] in *.
        rewrite (Hmb2 k blob Hin Ht) by by eexists. rewrite de_ser_blob by done.
        by rewrite (base_props_elem b k blob Hsb Hin).
      * rewrite Hmb1 by by left. rewrite de_ser_blob, base_props_missing by done. simpl.
        by rewrite (right_id_L ∅ (∪)).
  - rewrite (left_id_L ∅ (∪)). assert (key ∈ d.*1 → key ∈ b.*1 ∧ key ∉ EdgeProps.tombstones ov) as Hin_d.
    { rewrite Hd, sort_by_key_perm, fmap_app, <-list_fmap_compose. intros [Hk|Hk]%elem_of_app.
      - apply list_elem_of_fmap in Hk as ([k blob] & -> & [[Ht _] Hin]%list_elem_of_filter).
        split; [by eapply elem_of_fst|done].
      - apply elem_of_entries_keys in Hk as [? Hk]. congruence. }
    case_decide as Ht; [rewrite base_props_missing by tauto; done|]. unfold read_data. cbn [mbind option_bind].
    destruct (decide (key ∈ b.*1)) as [Hin|Hni]; [|by rewrite !base_props_missing by tauto].
    apply list_elem_of_fmap in Hin as ([k blob] & -> & Hin). cbn [fst] in *.
    rewrite (base_props_elem b k blob), (base_props_elem d k blob); [done|done| |done|done].
    rewrite Hd, sort_by_key_perm. apply elem_of_app. left. by apply list_elem_of_filter.
Qed.

Lemma section_spec (b : option data) ov :
  bincode_ok → (∀ d, b = Some d → sorted d.*1) → let d := edge_props_section b ov in
  sorted d.*1 ∧ ∀ key, read_data (Some d) key = over ov (read_data b) key.
Proof.
  intros Hb Hsb. unfold edge_props_section. destruct b as [b|].
  - specialize (Hsb b eq_refl). destruct (EdgeProps.is_clean ov) eqn:Hc; [|by apply merge_data_spec].
    split; [done|]. intros key. unfold EdgeProps.is_clean in Hc.
    apply andb_prop in Hc as [Hm%bool_decide_eq_true Ht%bool_decide_eq_true]. unfold over. rewrite Hm, Ht.
    rewrite decide_False by set_solver. rewrite lookup_total_empty. symmetry. apply (left_id_L ∅ (∪)).
  - destruct (to_data_spec ov Hb) as [Hs Hr]. split; [done|]. intros key. rewrite Hr. unfold over.
    case_decide; [done|]. symmetry. apply (right_id_L ∅ (∪)).
Qed.

(** *** Reading the section back into an overlay *)

Definition ops_of (e : triple * Blob) : list op :=
  (λ fv, OSet e.1 fv.1 fv.2) <$> map_to_list (default ∅ (de e.2)).

Lemma to_owned_ops (b : data) : archived_edge_props_to_owned b = write_all EdgeProps.new (b ≫= ops_of).
Proof using Blob de.
  unfold archived_edge_props_to_owned, write_all. rewrite foldl_bind. apply foldl_ext_l. intros ep e.
  unfold ops_of. by rewrite foldl_fmap_l.
Qed.

Lemma spec_write_ops_of e key ps :
  spec_write_all (ops_of e) key ps = if decide (key = e.1) then default ∅ (de e.2) ∪ ps else ps.
Proof using Blob de.
  unfold spec_write_all, ops_of. rewrite foldl_fmap_l. cbn [op_key spec_write]. case_decide as He.
  - rewrite <-(list_to_map_to_list (default ∅ (de e.2))) at 2. by apply foldl_insert_union, NoDup_fst_map_to_list.
  - induction (map_to_list (default ∅ (de e.2))) as [|fv l IH]; [done|]. apply IH.
Qed.

Lemma to_owned_spec (b : data) key :
  sorted b.*1 → EdgeProps.map (archived_edge_props_to_owned b) !!! key = read_data (Some b) key
  ∧ EdgeProps.tombstones (archived_edge_props_to_owned b) = ∅.
Proof using Blob de.
  clear ser no_blob. intros Hs. rewrite to_owned_ops. destruct (write_all_map EdgeProps.new (b ≫= ops_of) key) as [-> ->].
  { intros o (e & Ho & _)%list_elem_of_bind. apply list_elem_of_fmap in Ho as ([f v] & -> & _). eauto. }
  split; [|done]. cbn [EdgeProps.new EdgeProps.map]. rewrite lookup_total_empty.
  unfold spec_write_all. rewrite foldl_bind. change (foldl (λ ps a, spec_write_all (ops_of a) key ps) ∅ b = read_data (Some b) key).
  rewrite (foldl_ext_l _ _ _ _ (λ ps e, spec_write_ops_of e key ps)).
  assert (∀ (m : data) ps, key ∉ m.*1 →
    foldl (λ ps e, if decide (key = e.1) then default ∅ (de e.2) ∪ ps else ps) ps m = ps) as Hskip.
  { intros m. induction m as [|[k x] m IH]; intros ps Hk; [done|]. cbn [foldl fst].
    rewrite decide_False by set_solver. apply IH. set_solver. }
  unfold read_data. cbn [mbind option_bind]. destruct (decide (key ∈ b.*1)) as [Hin|Hni].
  - apply list_elem_of_fmap in Hin as ([k blob] & -> & Hin). cbn [fst] in *. rewrite (base_props_elem b k blob Hs Hin).
    pose proof (sorted_NoDup _ Hs) as Hn. apply list_elem_of_split in Hin as (l1 & l2 & ->).
    rewrite fmap_app in Hn. apply NoDup_app in Hn as (_ & Hd & [Hk _]%NoDup_cons). cbn [fst] in *.
    rewrite foldl_app. cbn [foldl fst snd]. rewrite !Hskip; [|set_solver|set_solver].
    rewrite decide_True by done. apply (right_id_L ∅ (∪)).
  - rewrite Hskip, base_props_missing by done. done.
Qed.

(** ** The store, its snapshots and its reopenings *)

(** A handle's overlay and mapped base, and the log of the writes made since
    the snapshot the base was mapped from. *)
Record store := mk_store { st_overlay : EdgeProps.t; st_base : option data; st_wal : list op }.

Inductive store_op := SWrite (o : op) | SSnapshot | SReopen.

(** A snapshot writes the section, maps it as the new base and empties the log.
    Over an old base the handle keeps its overlay, on top of a base that now
    holds the same entries; without one the overlay is released. A reopening
    starts from an empty overlay over the mapped base and makes the logged
    writes again. *)
Definition store_step (st : store) (o : store_op) : store :=
  match o with
  | SWrite o => mk_store (write (st_overlay st) o) (st_base st) (st_wal st ++ [o])
  | SSnapshot =>
      let section := edge_props_section (st_base st) (st_overlay st) in
      match st_base st with
      | Some _ => mk_store (st_overlay st) (Some section) []
      | None => mk_store EdgeProps.new (Some section) []
      end
  | SReopen => mk_store (write_all EdgeProps.new (st_wal st)) (st_base st) (st_wal st)
  end.

Definition store_run (os : list store_op) : store := foldl store_step (mk_store EdgeProps.new None []) os.

Definition store_view (st : store) : view := mk_view (st_overlay st) (st_base st) None.

(** The writes of a sequence, snapshots and reopenings left out. *)
Definition writes (os : list store_op) : list op :=
  omap (λ o, match o with SWrite o => Some o | SSnapshot | SReopen => None end) os.

Lemma over_idem ep below key : over ep (over ep below) key = over ep below key.
Proof.
  unfold over. case_decide; [done|]. rewrite (assoc_L (∪)). f_equal. apply (idemp_L (∪)).
Qed.

(** The view reads the writes, and so do the logged ones over the base. *)
Definition store_inv (st : store) (ws : list op) : Prop :=
  (∀ d, st_base st = Some d → sorted d.*1) ∧
  ∀ key, over (st_overlay st) (read_data (st_base st)) key = spec_write_all ws key ∅ ∧
         spec_write_all (st_wal st) key (read_data (st_base st) key) = spec_write_all ws key ∅.

Lemma spec_write_all_snoc os o key ps :
  spec_write_all (os ++ [o]) key ps =
  if decide (key = op_key o) then spec_write o (spec_write_all os key ps) else spec_write_all os key ps.
Proof. unfold spec_write_all. by rewrite foldl_app. Qed.

Lemma store_step_inv st ws o :
  bincode_ok → store_inv st ws → store_inv (store_step st o) (ws ++ writes [o]).
Proof.
  intros Hb [Hs Hr]. destruct o as [o| |]; cbn [writes omap list_omap store_step].
  - split; [done|]. intros key. destruct (Hr key) as [Ho Hw]. cbn [st_overlay st_base st_wal].
    by rewrite over_write, !spec_write_all_snoc, Ho, Hw.
  - rewrite app_nil_r. destruct (section_spec (st_base st) (st_overlay st) Hb Hs) as [Hsd Hrd].
    assert (∀ key, read_data (Some (edge_props_section (st_base st) (st_overlay st))) key
                   = spec_write_all ws key ∅) as Hd.
    { intros key. rewrite Hrd. apply (Hr key). }
    destruct (st_base st) as [b|] eqn:Eb; (split; [by intros d [= <-]|]); intros key;
      cbn [st_overlay st_base st_wal]; (split; [|apply Hd]).
    + rewrite (over_ext _ _ (over (st_overlay st) (read_data (Some b))) key) by (by rewrite Hrd).
      rewrite over_idem. apply (Hr key).
    + rewrite over_new. apply Hd.
  - rewrite app_nil_r. split; [done|]. intros key. destruct (Hr key) as [Ho Hw].
    cbn [st_overlay st_base st_wal]. split; [|done]. by rewrite over_write_all, over_new.
Qed.

Lemma store_run_inv os : bincode_ok → store_inv (store_run os) (writes os).
Proof.
  intros Hb. induction os as [|o os IH] using rev_ind.
  { split; [done|]. intros key. split; [apply over_new|done]. }
  unfold store_run, writes in *. rewrite foldl_app, omap_app. by apply store_step_inv.
Qed.

Lemma store_run_reads os key :
  bincode_ok → props_of_below (store_view (store_run os)) key = spec_write_all (writes os) key ∅.
Proof. intros Hb. rewrite props_of_below_over. apply (store_run_inv os Hb). Qed.
End view.

(** ** Claims *)

(** C13: edge properties are a plain map of property maps, whatever snapshots
    and reopenings happen between the writes: [props_of] reads exactly the
    writes applied in order to empty maps, [get] reads the fields of [props_of],
    and an open transaction's layer on top reads as if its writes had been made
    too. A snapshot over a mapped base keeps the overlay above a base that now
    holds its entries; without a base it releases the overlay; a reopening drops
    the overlay and makes the writes logged since the last snapshot again over
    the mapped base. None of it changes what is read. Assumed of bincode: every
    property map serialises and reads back as itself. *)
Theorem edge_props_refines {Blob} (no_blob : Blob) (ser : props → option Blob) (de : Blob → option props)
    (os : list store_op) (tx : list op) :
  bincode_ok ser de →
  let v := store_view (store_run no_blob ser de os) in
  ∀ key,
    props_of de v key = spec_write_all (writes os) key ∅ ∧
    props_of de (with_layer v (write_all EdgeProps.new tx)) key = spec_write_all (writes os ++ tx) key ∅ ∧
    (∀ field, get de v key field = props_of de v key !! field) ∧
    (∀ field, get de (with_layer v (write_all EdgeProps.new tx)) key field =
              props_of de (with_layer v (write_all EdgeProps.new tx)) key !! field).
Proof.
  intros Hb v key. pose proof (store_run_reads no_blob ser de os key Hb) as Hr. split_and!.
  - exact Hr.
  - rewrite props_of_layer, over_write_all, over_new. unfold spec_write_all at 2. rewrite foldl_app.
    unfold spec_write_all at 1. f_equal. exact Hr.
  - intros field. apply get_props_of.
  - intros field. apply get_props_of.
Qed.

Lemma edge_props_refines_witness :
  let os := [SWrite (OSet (1, 2, 3) "w" (Value.Int 5)); SSnapshot; SWrite (OSet (1, 2, 3) "n" (Value.Int 6));
             SWrite (OSet (1, 2, 4) "n" (Value.Int 7)); SSnapshot; SWrite (ORemove (1, 2, 4)); SReopen] in
  let v := store_view (store_run None (λ ps, Some (Some ps)) (λ b, b) os) in
  props_of (λ b : option props, b) v (1, 2, 3) = {[ "n"%string := Value.Int 6; "w"%string := Value.Int 5 ]}
  ∧ props_of (λ b : option props, b) v (1, 2, 4) = ∅.
Proof.
  intros os v.
  assert (bincode_ok (λ ps, Some (Some ps)) (λ b : option props, b)) as Hb.
  { intros ps. exists (Some ps). split; reflexivity. }
  split.
  - pose proof (edge_props_refines None (λ ps, Some (Some ps)) (λ b : option props, b) os [] Hb (1, 2, 3)) as [Hp _].
    unfold v. etransitivity; [exact Hp|reflexivity].
  - pose proof (edge_props_refines None (λ ps, Some (Some ps)) (λ b : option props, b) os [] Hb (1, 2, 4)) as [Hp _].
    unfold v. etransitivity; [exact Hp|reflexivity].
Defined.

(** Decoding a section into an owned overlay loses nothing: for a section
    sorted by key, the owned overlay alone reads as the section did. *)
Theorem edge_props_owned {Blob} (de : Blob → option props) (b : list (triple * Blob)) (key : triple) :
  sorted b.*1 →
  props_of de (owned (archived_edge_props_to_owned de b)) key = props_of de (with_base EdgeProps.new b) key.
Proof.
  intros Hs. change (props_of_below de (owned (archived_edge_props_to_owned de b)) key
                     = props_of_below de (with_base EdgeProps.new b) key).
  rewrite !props_of_below_over. cbn [owned with_base overlay base]. rewrite over_new.
  destruct (to_owned_spec de b key Hs) as [Hm Ht]. unfold over. rewrite Ht, decide_False by set_solver.
  rewrite Hm. apply (right_id_L ∅ (∪)).
Qed.

Lemma edge_props_owned_witness :
  props_of (λ b : props, Some b)
    (owned (archived_edge_props_to_owned (λ b : props, Some b) [((1, 2, 3), {[ "w"%string := Value.Int 5 ]})])) (1, 2, 3)
  = {[ "w"%string := Value.Int 5 ]}.
Proof.
  rewrite (edge_props_owned (λ b : props, Some b) [((1, 2, 3), {[ "w"%string := Value.Int 5 ]})] (1, 2, 3)).
  - reflexivity.
  - repeat constructor.
Defined.
End EdgePropsView.
