(* ===== verification/EdgePropsDelta.v ===== *)
(** * The edge properties of a reader snapshot

    Models how a commit's edge-property writes reach a reader snapshot: the
    record arms of [GraphDb::apply] ([crates/core-api/src/db.rs]) and of
    [DeltaLayer::apply] ([layer.rs]) that touch an edge property, the journal a
    commit drains into its [CommitDelta], and [DeltaLayer::apply_delta].

    The writer and the layer do different things with one record: the writer
    writes a property only where the edge is live and drops an edge's
    properties on [DeleteEdge], the layer does neither; the rule engine writes
    and retracts with no record at all. What makes them read alike is the
    journal. Topology is the set of live edges and the set of live node ids;
    a record's keys and interned field are already resolved. *)

From S2P Require Import Prelude Order Assoc Topology Types EdgeProps.

Module EdgePropsDelta.
Import EdgePropsView.

(** [EDGE_COUNT_PROP] *)
Definition EDGE_COUNT_PROP : string := "count".

(** What a commit does, in order: its records, and between them what the rule
    engine derives, weighs and retracts. *)
Inductive event :=
| InsertNode (id : Z)
| DeleteNode (id : Z)
| InsertEdge (key : triple)
| DeleteEdge (key : triple)
| SetEdgeCount (key : triple) (count : Z)
| SetEdgeProp (key : triple) (field : string) (value : Value.t)
| RemoveEdgeProp (key : triple) (field : string)
| Derive (key : triple)
| Weigh (key : triple) (field : string) (value : Value.t)
| Retract (key : triple).

(** One side's edge properties, live edges and live nodes. *)
Record side := mk_side { eprops : EdgeProps.t; live : gset triple; nodes : gset Z }.

Definition with_eprops (s : side) (ep : EdgeProps.t) : side := mk_side ep (live s) (nodes s).
Definition with_live (s : side) (l : gset triple) : side := mk_side (eprops s) l (nodes s).

(** The edges incident to a node, as both sweeps collect them. *)
Definition incident (n : Z) (e : triple) : Prop := e.1.2 = n ∨ e.2 = n.
#[export] Instance incident_dec n e : Decision (incident n e).
Proof. unfold incident. apply _. Defined.
Definition doomed (s : side) (n : Z) : list triple := elements (filter (incident n) (live s)).

(** A deleted node takes its edges, and their properties, along. *)
Definition sweep (s : side) (n : Z) : side :=
  if decide (n ∈ nodes s)
  then mk_side (foldl EdgeProps.remove_edge (eprops s) (doomed s n))
               (live s ∖ list_to_set (doomed s n)) (nodes s ∖ {[n]})
  else s.

Definition remove_edge_prop (s : side) (ps : props) (key : triple) (field : string) : side :=
  if decide (is_Some (ps !! field)) then with_eprops s (EdgeProps.replace (eprops s) key (delete field ps)) else s.

Section delta.
Context {Blob : Type} (de : Blob → option props) (b : option (list (triple * Blob))).

(** What the writer reads of an edge: its overlay over the base. *)
Definition writer_reads (ov : EdgeProps.t) (key : triple) : props := props_of de (mk_view ov b None) key.

(** What the layer reads: itself, over the folded overlay and the base. *)
Definition layer_reads (ov0 ly : EdgeProps.t) (key : triple) : props :=
  props_of de (with_layer (mk_view ov0 b None) ly) key.

(** The arms of [GraphDb::apply] ([InsertEdgeId], [DeleteEdge], [DeleteNode],
    [SetEdgeCount], [SetEdgePropId], [RemoveEdgePropId]), and the engine's writes
    between them. *)
Definition writer_apply (s : side) (e : event) : side :=
  match e with
  | InsertNode id => mk_side (eprops s) (live s) ({[id]} ∪ nodes s)
  | DeleteNode id => sweep s id
  | InsertEdge key =>
      if decide (key.1.2 ∈ nodes s ∧ key.2 ∈ nodes s) then with_live s ({[key]} ∪ live s) else s
  | DeleteEdge key =>
      if bool_decide (is_Some b) && bool_decide (key ∉ live s) then s
      else mk_side (EdgeProps.remove_edge (eprops s) key) (live s ∖ {[key]}) (nodes s)
  | SetEdgeCount key count =>
      if count =? 0 then s
      else with_eprops s (EdgeProps.set (eprops s) key EDGE_COUNT_PROP (Value.Int (wrap_i 64 count)))
  | SetEdgeProp key field value =>
      if decide (key ∈ live s) then with_eprops s (EdgeProps.set (eprops s) key field value) else s
  | RemoveEdgeProp key field => remove_edge_prop s (writer_reads (eprops s) key) key field
  | Derive key => with_live s ({[key]} ∪ live s)
  | Weigh key field value => with_eprops s (EdgeProps.set (eprops s) key field value)
  | Retract key => mk_side (EdgeProps.remove_edge (eprops s) key) (live s ∖ {[key]}) (nodes s)
  end.

(** The arms of [DeltaLayer::apply], over the folded overlay [ov0]. The engine's
    writes are not records, and reach no arm. *)
Definition layer_apply (ov0 : EdgeProps.t) (s : side) (e : event) : side :=
  match e with
  | InsertNode id => mk_side (eprops s) (live s) ({[id]} ∪ nodes s)
  | DeleteNode id => sweep s id
  | InsertEdge key => with_live s ({[key]} ∪ live s)
  | DeleteEdge key => with_live s (live s ∖ {[key]})
  | SetEdgeCount key count =>
      if 0 <? count
      then with_eprops s (EdgeProps.set (eprops s) key EDGE_COUNT_PROP (Value.Int (wrap_i 64 count)))
      else s
  | SetEdgeProp key field value => with_eprops s (EdgeProps.set (eprops s) key field value)
  | RemoveEdgeProp key field => remove_edge_prop s (layer_reads ov0 (eprops s) key) key field
  | Derive _ | Weigh _ _ _ | Retract _ => s
  end.

(** The edge properties of a [CommitDelta]: each key written since the last
    commit, with its entry as the commit left it. *)
Definition delta_entries (ep : EdgeProps.t) : list (triple * (option props * bool)) * EdgeProps.t :=
  let '(touched, ep) := EdgeProps.take_touched ep in
  ((λ key, (key, EdgeProps.entry ep key)) <$> elements touched, ep).

(** The last loop of [DeltaLayer::apply_delta]. *)
Definition restore_all (ly : EdgeProps.t) (es : list (triple * (option props * bool))) : EdgeProps.t :=
  foldl (λ ly e, EdgeProps.restore_entry ly e.1 e.2) ly es.

(** A commit: the live edges and nodes both sides start it from, and what it does. *)
Record commit := mk_commit { c_live : gset triple; c_nodes : gset Z; c_events : list event }.

(** One commit: the writer applies it and drains its journal; the layer applies
    the records, then the journalled entries. *)
Definition commit_step (ov0 : EdgeProps.t) (s : EdgeProps.t * EdgeProps.t) (c : commit) :
    EdgeProps.t * EdgeProps.t :=
  let w := foldl writer_apply (mk_side s.1 (c_live c) (c_nodes c)) (c_events c) in
  let l := foldl (layer_apply ov0) (mk_side s.2 (c_live c) (c_nodes c)) (c_events c) in
  let '(es, ov) := delta_entries (eprops w) in
  (ov, restore_all (eprops l) es).

(** What planning a commit has checked of its records, where they apply: an
    inserted edge's ends are live nodes, a property is set on a live edge
    ([check_edge_prop_write]), and a count is a [u64]. *)
Definition planned_event (s : side) (e : event) : bool :=
  match e with
  | InsertEdge key => bool_decide (key.1.2 ∈ nodes s ∧ key.2 ∈ nodes s)
  | SetEdgeProp key _ _ => bool_decide (key ∈ live s)
  | SetEdgeCount _ count => 0 <=? count
  | _ => true
  end.

Fixpoint planned (s : side) (es : list event) : bool :=
  match es with
  | [] => true
  | e :: es => planned_event s e && planned (writer_apply s e) es
  end.

(** ** Entries *)

Lemma entry_touched_other ep os key :
  key ∉ op_key <$> os → EdgeProps.entry (write_all ep os) key = EdgeProps.entry ep key.
Proof.
  unfold write_all. revert ep; induction os as [|o os IH]; intros ep Hk; [done|]. cbn [foldl].
  cbn [fmap list_fmap] in Hk. rewrite IH by set_solver. assert (key ≠ op_key o) as Hne by set_solver.
  unfold EdgeProps.entry. destruct o as [k f v|k|k ps]; cbn in Hne |- *.
  - by rewrite lookup_insert_ne.
  - rewrite lookup_delete_ne by done. f_equal. apply bool_decide_ext. set_solver.
  - f_equal; [case_decide; [by rewrite lookup_delete_ne|by rewrite lookup_insert_ne]|].
    apply bool_decide_ext. set_solver.
Qed.

Lemma touched_write_all ep os : EdgeProps.touched (write_all ep os) = list_to_set (op_key <$> os) ∪ EdgeProps.touched ep.
Proof.
  unfold write_all. revert ep; induction os as [|o os IH]; intros ep; cbn [foldl]; [set_solver|].
  rewrite IH. destruct o; cbn; set_solver.
Qed.

Lemma restore_entry_spec ly k e key :
  EdgeProps.entry (EdgeProps.restore_entry ly k e) key = if decide (key = k) then e else EdgeProps.entry ly key.
Proof.
  unfold EdgeProps.entry, EdgeProps.restore_entry. cbn. destruct e as [[ps|] bb]; cbn;
    rewrite ?lookup_insert, ?lookup_delete; repeat case_decide; subst; try done;
    destruct bb; f_equal; (apply bool_decide_eq_true_2 || apply bool_decide_eq_false_2 || apply bool_decide_ext); set_solver.
Qed.

Lemma restore_all_spec ly (f : triple → option props * bool) keys key :
  EdgeProps.entry (restore_all ly ((λ k, (k, f k)) <$> keys)) key =
  if decide (key ∈ keys) then f key else EdgeProps.entry ly key.
Proof.
  unfold restore_all. revert ly; induction keys as [|k keys IH]; intros ly; [done|].
  cbn [fmap list_fmap foldl fst snd]. rewrite IH, restore_entry_spec.
  repeat case_decide; subst; try done; set_solver.
Qed.

(** What an overlay only ever does to an edge: hide what is below for good, or
    add fields. *)
Definition grows (ov0 ov : EdgeProps.t) (key : triple) : Prop :=
  key ∈ EdgeProps.tombstones ov ∨
  (key ∉ EdgeProps.tombstones ov0 ∧ dom (EdgeProps.map ov0 !!! key) ⊆ dom (EdgeProps.map ov !!! key)).

Lemma grows_refl ov key : grows ov ov key.
Proof. unfold grows. destruct (decide (key ∈ EdgeProps.tombstones ov)); auto. Qed.

Lemma grows_write ov0 ov o key : grows ov0 ov key → grows ov0 (write ov o) key.
Proof.
  intros [Ht|[Ht Hd]].
  - left. destruct o; cbn; set_solver.
  - destruct o as [k f v|k|k ps]; cbn; (destruct (decide (key = k)) as [->|Hne]).
    + right. split; [done|]. cbn. rewrite lookup_total_insert_eq, default_total, dom_insert_L. set_solver.
    + right. split; [done|]. cbn. by rewrite lookup_total_insert_ne.
    + left. cbn. set_solver.
    + right. split; [done|]. cbn. by rewrite lookup_total_delete_ne.
    + left. cbn. set_solver.
    + right. split; [done|]. cbn. case_decide; [by rewrite lookup_total_delete_ne|by rewrite lookup_total_insert_ne].
Qed.

Lemma grows_write_all ov0 ov os key : grows ov0 ov key → grows ov0 (write_all ov os) key.
Proof.
  unfold write_all. revert ov; induction os as [|o os IH]; intros ov Hg; [done|]. cbn [foldl]. by apply IH, grows_write.
Qed.

Lemma union_absorb (m m0 m1 : props) : dom m0 ⊆ dom m → m ∪ (m0 ∪ m1) = m ∪ m1.
Proof.
  intros Hd. apply map_eq. intros f. rewrite !lookup_union. destruct (m !! f) eqn:E; [by destruct (m0 !! f), (m1 !! f)|].
  assert (m0 !! f = None) as ->; [|by destruct (m1 !! f)]. apply not_elem_of_dom. intros Hf%Hd. by apply elem_of_dom in Hf as [? ?]; congruence.
Qed.

Lemma entry_over ep ep' below key :
  EdgeProps.entry ep key = EdgeProps.entry ep' key → over ep below key = over ep' below key.
Proof.
  unfold EdgeProps.entry, over. intros [= Hm Ht]. rewrite !lookup_total_alt, Hm.
  destruct (decide (key ∈ EdgeProps.tombstones ep)) as [H1|H1], (decide (key ∈ EdgeProps.tombstones ep')) as [H2|H2];
    try done.
  - by rewrite bool_decide_eq_true_2, bool_decide_eq_false_2 in Ht.
  - by rewrite bool_decide_eq_false_2, bool_decide_eq_true_2 in Ht.
Qed.


(** ** Agreement *)

(** The layer agrees with the writer's overlay on an edge: it copies the entry,
    or has none and the writer has not touched the edge since the fold. *)
Definition agree (ov0 ov ly : EdgeProps.t) (key : triple) : Prop :=
  grows ov0 ov key ∧
  (EdgeProps.entry ly key = EdgeProps.entry ov key ∨
   (EdgeProps.entry ly key = (None, false) ∧ EdgeProps.entry ov key = EdgeProps.entry ov0 key)).

Lemma agree_over ov0 ov ly below key : agree ov0 ov ly key → over ly (over ov0 below) key = over ov below key.
Proof.
  intros [Hg [He|[He He0]]].
  - rewrite (entry_over _ _ _ _ He). unfold over at 1 3. case_decide as Ht; [done|].
    destruct Hg as [?|[Ht0 Hd]]; [done|]. unfold over. rewrite decide_False by done. by apply union_absorb.
  - rewrite (entry_over _ _ below _ He0). rewrite <-(over_new (over ov0 below) key). apply entry_over.
    rewrite He. done.
Qed.

Lemma agree_reads ov0 ov ly key : agree ov0 ov ly key → layer_reads ov0 ly key = writer_reads ov key.
Proof.
  intros Ha. unfold layer_reads, writer_reads. rewrite props_of_layer.
  change (props_of de (mk_view ov b None) key) with (props_of_below de (mk_view ov b None) key).
  rewrite props_of_below_over. cbn [overlay base].
  rewrite <-(agree_over ov0 ov ly _ key Ha). apply over_ext, props_of_below_over.
Qed.

(** ** Inside a commit *)

(** An edge the writer has not written in this commit is as the commit found it
    on both sides, and an edge live in the layer alone is one the writer wrote. *)
Record in_commit (ov0 ov ly : EdgeProps.t) (w l : side) : Prop := {
  ic_untouched key : key ∉ EdgeProps.touched (eprops w) →
    EdgeProps.entry (eprops w) key = EdgeProps.entry ov key ∧
    EdgeProps.entry (eprops l) key = EdgeProps.entry ly key;
  ic_grows key : grows ov0 (eprops w) key;
  ic_live : live l ⊆ live w ∪ EdgeProps.touched (eprops w);
  ic_nodes : nodes l = nodes w }.

Lemma in_commit_ops ov0 ov ly w l w' l' wos los :
  in_commit ov0 ov ly w l →
  eprops w' = write_all (eprops w) wos → eprops l' = write_all (eprops l) los →
  (∀ o, o ∈ los → op_key o ∈ op_key <$> wos ∨ op_key o ∈ EdgeProps.touched (eprops w)) →
  live l' ⊆ live w' ∪ EdgeProps.touched (eprops w') → nodes l' = nodes w' →
  in_commit ov0 ov ly w' l'.
Proof.
  intros [Hu Hg _ _] Hw Hl Hk Hlive Hn. split; [| |done..].
  - intros key. rewrite Hw, Hl, touched_write_all. intros Hkey.
    assert (key ∉ op_key <$> wos) as H1 by set_solver.
    assert (key ∉ op_key <$> los) as H2.
    { intros Hin. apply list_elem_of_fmap in Hin as (o & -> & Ho). destruct (Hk o Ho); set_solver. }
    rewrite !entry_touched_other by done. apply Hu. set_solver.
  - intros key. rewrite Hw. by apply grows_write_all.
Qed.

Lemma sweep_ops s n : n ∈ nodes s → eprops (sweep s n) = write_all (eprops s) (ORemove <$> doomed s n).
Proof.
  intros Hn. unfold sweep. rewrite decide_True by done. cbn [eprops]. unfold write_all.
  generalize (eprops s). induction (doomed s n) as [|k ks IH]; intros ep; [done|]. cbn. apply IH.
Qed.

Lemma elem_of_swept s n key : key ∈ doomed s n ↔ incident n key ∧ key ∈ live s.
Proof. unfold doomed. by rewrite elem_of_elements, elem_of_filter. Qed.

Lemma touched_sweep s n :
  n ∈ nodes s →
  EdgeProps.touched (eprops (sweep s n)) = list_to_set (doomed s n) ∪ EdgeProps.touched (eprops s).
Proof.
  intros Hn. rewrite sweep_ops, touched_write_all by done. f_equal. f_equal. rewrite <-list_fmap_compose.
  rewrite <-(list_fmap_id (doomed s n)) at 2. apply list_fmap_ext. done.
Qed.

Lemma sweep_in_commit ov0 ov ly w l n :
  in_commit ov0 ov ly w l → in_commit ov0 ov ly (sweep w n) (sweep l n).
Proof.
  intros Hc. pose proof (ic_nodes _ _ _ _ _ Hc) as Hn. pose proof (ic_live _ _ _ _ _ Hc) as Hlv.
  destruct (decide (n ∈ nodes w)) as [Hw|Hw].
  2: { unfold sweep. rewrite Hn. by rewrite !decide_False. }
  assert (n ∈ nodes l) as Hl by (by rewrite Hn).
  apply (in_commit_ops _ _ _ w l _ _ (ORemove <$> doomed w n) (ORemove <$> doomed l n) Hc); [by apply sweep_ops..| | |].
  - intros o Ho. apply list_elem_of_fmap in Ho as (k & -> & Hk). cbn [op_key].
    apply elem_of_swept in Hk as [Hi Hk]. destruct (decide (k ∈ live w)) as [Hin|Hin]; [left|right; set_solver].
    apply list_elem_of_fmap. exists (ORemove k). split; [done|]. apply list_elem_of_fmap_2. by apply elem_of_swept.
  - rewrite touched_sweep by done. unfold sweep. rewrite !decide_True by done. cbn [live].
    intros k. rewrite elem_of_difference, elem_of_list_to_set, elem_of_swept, !elem_of_union, elem_of_difference,
      !elem_of_list_to_set, !elem_of_swept. intros [Hk Hni]. specialize (Hlv k Hk). set_solver.
  - unfold sweep. rewrite !decide_True by done. cbn [nodes]. by rewrite Hn.
Qed.

(** Both sides took these writes; the sets follow. *)
Ltac by_ops w l wos los Hc :=
  apply (in_commit_ops _ _ _ w l _ _ wos los Hc);
  [done|done|set_solver
  |cbn; pose proof (ic_live _ _ _ _ _ Hc); set_solver
  |cbn; pose proof (ic_nodes _ _ _ _ _ Hc); set_solver].

Lemma remove_prop_in_commit ov0 ov ly w l key f :
  (∀ key, agree ov0 ov ly key) → in_commit ov0 ov ly w l →
  in_commit ov0 ov ly (remove_edge_prop w (writer_reads (eprops w) key) key f)
                      (remove_edge_prop l (layer_reads ov0 (eprops l) key) key f).
Proof.
  intros Ha Hc. unfold remove_edge_prop. set (psw := writer_reads _ _). set (psl := layer_reads _ _ _).
  destruct (decide (key ∈ EdgeProps.touched (eprops w))) as [Ht|Ht].
  - destruct (decide (is_Some (psw !! f))), (decide (is_Some (psl !! f))).
    + by_ops w l [OReplace key (delete f psw)] [OReplace key (delete f psl)] Hc.
    + by_ops w l [OReplace key (delete f psw)] (@nil op) Hc.
    + by_ops w l (@nil op) [OReplace key (delete f psl)] Hc.
    + done.
  - assert (psl = psw) as ->.
    { apply agree_reads. destruct (ic_untouched _ _ _ _ _ Hc key Ht) as [Hw Hl]. specialize (Ha key) as [_ Ha].
      split; [apply (ic_grows _ _ _ _ _ Hc)|]. by rewrite Hw, Hl. }
    case_decide; [|done]. by_ops w l [OReplace key (delete f psw)] [OReplace key (delete f psw)] Hc.
Qed.

Lemma event_in_commit ov0 ov ly w l e :
  (∀ key, agree ov0 ov ly key) → planned_event w e = true →
  in_commit ov0 ov ly w l → in_commit ov0 ov ly (writer_apply w e) (layer_apply ov0 l e).
Proof.
  intros Ha Hp Hc. destruct e as [id|id|key|key|key count|key f v|key f|key|key f v|key];
    cbn [writer_apply layer_apply planned_event] in *.
  - by_ops w l (@nil op) (@nil op) Hc.
  - by apply sweep_in_commit.
  - apply bool_decide_eq_true in Hp. rewrite decide_True by done. by_ops w l (@nil op) (@nil op) Hc.
  - case_match; [by_ops w l (@nil op) (@nil op) Hc|by_ops w l [ORemove key] (@nil op) Hc].
  - apply Z.leb_le in Hp. destruct (Z.eqb_spec count 0) as [->|Hne]; [done|].
    rewrite (proj2 (Z.ltb_lt 0 count)) by lia. set (v := Value.Int (wrap_i 64 count)).
    by_ops w l [OSet key EDGE_COUNT_PROP v] [OSet key EDGE_COUNT_PROP v] Hc.
  - apply bool_decide_eq_true in Hp. rewrite decide_True by done. by_ops w l [OSet key f v] [OSet key f v] Hc.
  - by apply remove_prop_in_commit.
  - by_ops w l (@nil op) (@nil op) Hc.
  - by_ops w l [OSet key f v] (@nil op) Hc.
  - apply (in_commit_ops _ _ _ w l _ _ [ORemove key] (@nil op) Hc); [done|done|set_solver| |apply Hc].
    intros k Hk%(ic_live _ _ _ _ _ Hc). cbn. destruct (decide (k = key)); set_solver.
Qed.

Lemma events_in_commit ov0 ov ly es w l :
  (∀ key, agree ov0 ov ly key) → planned w es = true → in_commit ov0 ov ly w l →
  in_commit ov0 ov ly (foldl writer_apply w es) (foldl (layer_apply ov0) l es).
Proof.
  intros Ha. revert w l; induction es as [|e es IH]; intros w l Hp Hc; [done|]. cbn [planned foldl] in *.
  apply andb_true_iff in Hp as [He Hp]. apply IH; [done|]. by apply event_in_commit.
Qed.

(** ** From commit to commit *)

Definition tail_inv (ov0 : EdgeProps.t) (s : EdgeProps.t * EdgeProps.t) : Prop :=
  EdgeProps.touched s.1 = ∅ ∧ ∀ key, agree ov0 s.1 s.2 key.

(** The commits of a tail, each planned from the overlay its predecessors left. *)
Fixpoint planned_tail (ov0 : EdgeProps.t) (s : EdgeProps.t * EdgeProps.t) (cs : list commit) : bool :=
  match cs with
  | [] => true
  | c :: cs => planned (mk_side s.1 (c_live c) (c_nodes c)) (c_events c) && planned_tail ov0 (commit_step ov0 s c) cs
  end.

Lemma commit_step_inv ov0 s c :
  planned (mk_side s.1 (c_live c) (c_nodes c)) (c_events c) = true →
  tail_inv ov0 s → tail_inv ov0 (commit_step ov0 s c).
Proof.
  destruct s as [ov ly]. intros Hp [Ht Ha]. cbn [fst snd] in *. unfold commit_step. cbn [fst snd].
  assert (in_commit ov0 ov ly (mk_side ov (c_live c) (c_nodes c)) (mk_side ly (c_live c) (c_nodes c))) as Hc.
  { split; [done| |set_solver|done]. intros key. apply Ha. }
  apply (events_in_commit _ _ _ (c_events c)) in Hc; [|done|done].
  set (w := foldl writer_apply _ _) in *. set (l := foldl (layer_apply ov0) _ _) in *.
  unfold delta_entries, EdgeProps.take_touched. split; [done|]. intros key. cbn [fst snd].
  set (ov' := EdgeProps.mk _ _ _).
  assert (EdgeProps.entry ov' key = EdgeProps.entry (eprops w) key) as Hov by done.
  split; [apply (ic_grows _ _ _ _ _ Hc)|].
  rewrite (restore_all_spec (eprops l) (EdgeProps.entry ov')). case_decide as Hin; [by left|].
  rewrite Hov. destruct (ic_untouched _ _ _ _ _ Hc key) as [-> ->]; [set_solver|]. apply Ha.
Qed.

Lemma tail_run ov0 cs s :
  planned_tail ov0 s cs = true → tail_inv ov0 s → tail_inv ov0 (foldl (commit_step ov0) s cs).
Proof.
  revert s; induction cs as [|c cs IH]; intros s Hp Hi; [done|]. cbn [planned_tail foldl] in *.
  apply andb_true_iff in Hp as [Hc Hp]. apply IH; [done|]. by apply commit_step_inv.
Qed.
End delta.

(** ** Claims *)

(** C33: a reader snapshot reads the edge properties the writer wrote. A commit
    is any sequence of its records (nodes and edges inserted and deleted, counts
    and properties set and removed) with the rule engine's derivations, weights
    and retractions between them; the writer applies them by its own arms, the
    layer the records by its own, and then the entries the writer journalled.
    After any commits since a fold, over any base, every read of an edge's
    properties through the layer over the folded overlay equals the writer's
    own. Each commit starts both sides from the same live edges and nodes, keys
    and fields are resolved, and planning has checked the records: an inserted
    edge's ends are live nodes and a property is set only on an edge the writer
    holds live at that point (the layer, unlike the writer, does not look). *)
Theorem edge_props_delta_tail {Blob} (de : Blob → option props) (b : option (list (triple * Blob)))
    (ov0 : EdgeProps.t) (cs : list commit) :
  EdgeProps.touched ov0 = ∅ → planned_tail de b ov0 (ov0, EdgeProps.new) cs = true →
  let '(ov, ly) := foldl (commit_step de b ov0) (ov0, EdgeProps.new) cs in
  ∀ key, props_of de (with_layer (mk_view ov0 b None) ly) key = props_of de (mk_view ov b None) key.
Proof.
  intros Ht Hp. pose proof (tail_run de b ov0 cs (ov0, EdgeProps.new) Hp) as Hrun.
  destruct (foldl (commit_step de b ov0) (ov0, EdgeProps.new) cs) as [ov ly]. intros key.
  apply (agree_reads de b ov0 ov ly key), Hrun. split; [done|]. intros k.
  split; [apply grows_refl|]. right. split; reflexivity.
Qed.

(** A tail with every kind of record, over a base that holds an edge's property. *)
Definition sample_tail : list commit :=
  [mk_commit {[ (1, 2, 3) ]} {[ 2; 3 ]}
     [SetEdgeCount (1, 2, 3) 2; SetEdgeProp (1, 2, 3) "since" (Value.Int 5); InsertNode 4;
      InsertEdge (1, 3, 4); SetEdgeProp (1, 3, 4) "n" (Value.Int 6); Derive (7, 2, 4);
      Weigh (7, 2, 4) "score" (Value.Int 9); RemoveEdgeProp (1, 2, 3) "old"];
   mk_commit {[ (1, 2, 3); (1, 3, 4); (7, 2, 4) ]} {[ 2; 3; 4 ]}
     [Retract (7, 2, 4); DeleteNode 4; DeleteEdge (1, 2, 3); InsertEdge (1, 2, 3)]].

Lemma edge_props_delta_tail_witness :
  let de := λ m : props, Some m in
  let b := Some [((1, 2, 3), {[ "old"%string := Value.Int 1 ]})] in
  let '(ov, ly) := foldl (commit_step de b EdgeProps.new) (EdgeProps.new, EdgeProps.new) sample_tail in
  ∀ key, props_of de (with_layer (mk_view EdgeProps.new b None) ly) key = props_of de (mk_view ov b None) key.
Proof.
  intros de b. apply (edge_props_delta_tail de b EdgeProps.new sample_tail).
  - reflexivity.
  - vm_compute. reflexivity.
Defined.
End EdgePropsDelta.
