(* ===== verification/Pack.v ===== *)
(** * The packed snapshot image

    Models [crates/core-storage/src/pack.rs] (length-prefixed little-endian
    packing) and [Topology::pack] and [Topology::unpack] of
    [crates/core-storage/src/topology.rs].  Release builds: the
    [debug_assert!] of [push_len] is not there, the length cast wraps. *)

From S2P Require Import Prelude Order Bytes Utf8 Types Topology.

Module Pack.

Definition push_u32 (out : list Z) (v : Z) : list Z := out ++ le_bytes 4 v.
Definition push_u64 (out : list Z) (v : Z) : list Z := out ++ le_bytes 8 v.

(** [push_len] *)
Definition push_len (out : list Z) (n : nat) : list Z := push_u32 out (wrap_u 32 (Z.of_nat n)).

Definition push_u32s (out : list Z) (v : list Z) : list Z := foldl push_u32 (push_len out (length v)) v.

Definition push_str (out : list Z) (s : string) : list Z :=
  let b := as_bytes s in push_len out (length b) ++ b.

(** [read_exact]: [pos] and [n] are [usize]. *)
Definition read_exact (n : Z) : reader GraphError (list Z) := λ src pos,
  match try_u 64 (pos + n) with
  | None => Err (Corrupt "snapshot: packed length overflow")
  | Some end_ =>
      match slice_get src pos n with
      | None => Err (Corrupt "snapshot: truncated packed image")
      | Some s => Ok (s, end_)
      end
  end.

Definition read_u32 : reader GraphError Z := s ← read_exact 4; mret (le_val s).
Definition read_u64 : reader GraphError Z := s ← read_exact 8; mret (le_val s).

(** [n.saturating_mul(k)] on [usize] *)
Definition saturating_mul (n k : Z) : Z := Z.min (n * k) u64_max.

(** [read_u32s] *)
Definition read_u32s : reader GraphError (list Z) :=
  n ← read_u32; bytes ← read_exact (saturating_mul n 4);
  mret (le_val <$> chunks_exact (length bytes) 4 bytes).

(** [read_i64s] *)
Definition read_i64s : reader GraphError (list Z) :=
  n ← read_u32; bytes ← read_exact (saturating_mul n 8);
  mret ((λ c, wrap_i 64 (le_val c)) <$> chunks_exact (length bytes) 8 bytes).

(** [read_f64s], a float as its bits *)
Definition read_f64s : reader GraphError (list Z) :=
  n ← read_u32; bytes ← read_exact (saturating_mul n 8);
  mret (le_val <$> chunks_exact (length bytes) 8 bytes).

(** [read_str]; the detail of the UTF-8 error is left out of the message. *)
Definition read_str : reader GraphError string :=
  n ← read_u32; bytes ← read_exact n;
  lift_result (ok_or (from_utf8 bytes) (Corrupt "snapshot: packed string utf8: ")).

(** ** Topology *)

(** [pack_adj_map]; the indexing panics on a missing key. *)
Definition pack_adj_map (out : list Z) (map : gmap Z AdjList.t) : option (list Z) :=
  let verts := sort_unstable (map_to_list map).*1 in
  foldl (λ acc v, out ← acc; l ← map !! v; Some (push_u32s (push_u32 out v) (AdjList.merged l)))
    (Some (push_u32 out (wrap_u 32 (Z.of_nat (length verts))))) verts.

(** [Topology::pack] *)
Definition pack (out : list Z) (g : Topology.t) : option (list Z) :=
  let etypes := sort_unstable (map_to_list (Topology.by_type g)).*1 in
  out ← foldl (λ acc et,
                 out ← acc; adj ← Topology.by_type g !! et;
                 out ← pack_adj_map (push_u32 out et) (TypedAdjacency.out adj);
                 pack_adj_map out (TypedAdjacency.inn adj))
          (Some (push_u32 out (wrap_u 32 (Z.of_nat (length etypes))))) etypes;
  Some (push_u64 out (Topology.edge_count g)).

(** [unpack_adj_map] *)
Definition unpack_adj_map : reader GraphError (gmap Z AdjList.t) :=
  n ← read_u32;
  rows ← repeat_read (Z.to_nat n) (v ← read_u32; frozen ← read_u32s; mret (v, AdjList.mk frozen []));
  mret (foldl (λ m r, <[r.1 := r.2]> m) ∅ rows).

(** The loop of [Topology::unpack] over the edge types. *)
Definition unpack_types : reader GraphError (gmap Z TypedAdjacency.t) :=
  n ← read_u32;
  types ← repeat_read (Z.to_nat n)
            (et ← read_u32; out ← unpack_adj_map; inn ← unpack_adj_map; mret (et, TypedAdjacency.mk out inn));
  mret (foldl (λ m r, <[r.1 := r.2]> m) ∅ types).

Definition unpack_body : reader GraphError Topology.t :=
  by_type ← unpack_types;
  edge_count ← read_u64;
  mret (Topology.mk by_type edge_count ∅ ∅).

(** [Topology::unpack], the position it returns included. *)
Definition unpack (src : list Z) : Result (Topology.t * Z) := unpack_body src 0.

(** ** Parts *)

Lemma reads_exact bs : len_z bs ≤ isize_max → reads (read_exact (len_z bs)) bs bs.
Proof.
  intros Hb pre rest Hlen. unfold read_exact. rewrite slice_get_mid. rewrite !len_z_app in Hlen.
  pose proof (len_z_nonneg pre). pose proof (len_z_nonneg rest). pose proof (len_z_nonneg bs).
  rewrite try_u_Some by (unfold in_u, isize_max in *; lia). done.
Qed.

Lemma stable_exact n : stable (read_exact n).
Proof.
  intros src pos s pos' Hp. unfold read_exact, try_u. destruct (in_ub 64 (pos + n)); [|done].
  destruct (slice_get src pos n) as [x|] eqn:E; [|done]. intros [= <- <-].
  pose proof (λ rest, slice_get_stable src rest pos n x E) as Hs. split; [destruct (Hs []); lia|].
  intros rest. by destruct (Hs rest) as [-> _].
Qed.

Lemma reads_u32 z : in_u 32 z → reads read_u32 (le_bytes 4 z) z.
Proof.
  intros Hz. unfold read_u32. rewrite <-(le_val_bytes 4 z) at 2 by apply Hz. apply (reads_bind_ret _ le_val).
  change 4 with (len_z (le_bytes 4 z)). by apply reads_exact.
Qed.

Lemma reads_u64 z : in_u 64 z → reads read_u64 (le_bytes 8 z) z.
Proof.
  intros Hz. unfold read_u64. rewrite <-(le_val_bytes 8 z) at 2 by apply Hz. apply (reads_bind_ret _ le_val).
  change 8 with (len_z (le_bytes 8 z)). by apply reads_exact.
Qed.

Lemma stable_u32 : stable read_u32.
Proof. apply stable_bind; [apply stable_exact|]. intros; apply stable_ret. Qed.
Lemma stable_u64 : stable read_u64.
Proof. apply stable_bind; [apply stable_exact|]. intros; apply stable_ret. Qed.

Definition enc_u32s (v : list Z) : list Z := le_bytes 4 (wrap_u 32 (Z.of_nat (length v))) ++ (v ≫= le_bytes 4).

Lemma foldl_push_u32 out v : foldl push_u32 out v = out ++ (v ≫= le_bytes 4).
Proof.
  revert out; induction v as [|x v IH]; intros out; cbn [foldl]; [by rewrite app_nil_r|].
  rewrite IH, bind_cons. unfold push_u32. by rewrite app_assoc.
Qed.

Lemma push_u32s_enc out v : push_u32s out v = out ++ enc_u32s v.
Proof. unfold push_u32s, push_len, push_u32 at 2, enc_u32s. by rewrite foldl_push_u32, app_assoc. Qed.

Lemma length_words k v : length (v ≫= le_bytes k) = (k * length v)%nat.
Proof. induction v as [|x v IH]; [simpl; lia|]. rewrite bind_cons, length_app, length_le_bytes, IH. simpl. lia. Qed.

Lemma chunks_exact_words fuel k v :
  (0 < k)%nat → (k * length v ≤ fuel)%nat → chunks_exact fuel k (v ≫= le_bytes k) = le_bytes k <$> v.
Proof.
  intros Hk. revert fuel; induction v as [|x v IH]; intros fuel Hf.
  - destruct fuel; [done|]. cbn [chunks_exact]. by rewrite (proj2 (Nat.ltb_lt _ _)).
  - cbn [length] in Hf. destruct fuel as [|fuel]; [lia|]. rewrite bind_cons. cbn [chunks_exact fmap list_fmap].
    rewrite (proj2 (Nat.ltb_ge _ _)) by (rewrite length_app, length_le_bytes; lia).
    rewrite take_app_length', drop_app_length' by by rewrite length_le_bytes. f_equal. apply IH. lia.
Qed.

Lemma words_val k v : Forall (λ z, 0 ≤ z < 256 ^ Z.of_nat k) v → le_val <$> (le_bytes k <$> v) = v.
Proof. induction 1 as [|x v Hx Hv IH]; [done|]. cbn [fmap list_fmap] in *. by rewrite le_val_bytes, IH. Qed.

Lemma saturating_mul_id n k : in_u 32 n → in_u 8 k → saturating_mul n k = n * k.
Proof. unfold saturating_mul, in_u, u64_max. intros. nia. Qed.

Lemma reads_u32s v :
  Z.of_nat (length v) < 2 ^ 32 → Forall (in_u 32) v → reads read_u32s (enc_u32s v) v.
Proof.
  intros Hl Hv. unfold read_u32s, enc_u32s. set (n := Z.of_nat (length v)) in *.
  assert (in_u 32 n) as Hn by (unfold in_u; lia). rewrite wrap_u_id by done.
  eapply reads_bind; [by apply reads_u32|]. rewrite saturating_mul_id by (done || (unfold in_u; lia)).
  rewrite <-(words_val 4 v) at 2 by exact Hv.
  rewrite <-(chunks_exact_words (length (v ≫= le_bytes 4)) 4 v) by (rewrite ?length_words; lia).
  apply (reads_bind_ret _ (λ bytes, le_val <$> chunks_exact (length bytes) 4 bytes)).
  assert (n * 4 = len_z (v ≫= le_bytes 4)) as Hlen by (unfold len_z; rewrite length_words; lia).
  rewrite Hlen. apply reads_exact. unfold isize_max. lia.
Qed.

#[local] Hint Resolve stable_exact stable_u32 stable_u64 : mush.

(** A composition of stable readers. *)
Ltac stable_parts := repeat (apply stable_bind; [|intros]); auto with mush.

Lemma stable_u32s : stable read_u32s.
Proof. unfold read_u32s. stable_parts. Qed.
#[local] Hint Resolve stable_u32s : mush.

Lemma stable_adj_map : stable unpack_adj_map.
Proof. unfold unpack_adj_map. stable_parts. Qed.
#[local] Hint Resolve stable_adj_map : mush.

Lemma stable_unpack : stable unpack_body.
Proof. unfold unpack_body, unpack_types. stable_parts. Qed.

Lemma reads_str s : is_str s → len_z (as_bytes s) < 2 ^ 32 →
  reads read_str (push_str [] s) s.
Proof.
  intros Hs Hl. unfold push_str, push_len, push_u32. rewrite app_nil_l.
  assert (in_u 32 (len_z (as_bytes s))) as Hn by (unfold in_u, len_z in *; lia).
  change (Z.of_nat (length (as_bytes s))) with (len_z (as_bytes s)). rewrite wrap_u_id by done.
  unfold read_str. eapply reads_bind; [by apply reads_u32|]. rewrite <-(app_nil_r (as_bytes s)) at 2.
  eapply reads_bind; [apply reads_exact; unfold isize_max; lia|]. rewrite from_utf8_as_bytes by done. apply reads_lift.
Qed.

(** ** Maps in key order *)

Section rows.
Context {A : Type}.

(** The entries of a map in the order the code packs them. *)
Lemma sorted_rows (m : gmap Z A) :
  ∃ rows, sort_unstable (map_to_list m).*1 = rows.*1 ∧ NoDup rows.*1 ∧ list_to_map rows = m
          ∧ (∀ k a, (k, a) ∈ rows → m !! k = Some a) ∧ length rows = size m.
Proof.
  set (rows := omap (λ k, pair k <$> m !! k) (sort_unstable (map_to_list m).*1)).
  destruct (Topology.map_keys_sorted m) as [Hs Hk].
  assert (∀ k a, (k, a) ∈ rows → m !! k = Some a) as Hin.
  { intros k a (k' & _ & (a' & Ha & [= -> ->])%fmap_Some)%list_elem_of_omap. done. }
  assert (rows.*1 = sort_unstable (map_to_list m).*1) as He.
  { unfold rows. clear Hs Hin rows. assert (∀ k, k ∈ sort_unstable (map_to_list m).*1 → is_Some (m !! k)) as Hk' by by intros; apply Hk.
    clear Hk. induction (sort_unstable (map_to_list m).*1) as [|k ks IH]; [done|]. cbn [omap list_omap].
    destruct (Hk' k) as [a Ha]; [by left|]. rewrite Ha. cbn. f_equal. apply IH. intros k' Hin. apply Hk'. by right. }
  assert (NoDup rows.*1) as Hn by (rewrite He; by apply sorted_NoDup).
  exists rows. split_and!; [done|done| |done|].
  - apply map_eq. intros k. apply option_eq. intros a. rewrite <-elem_of_list_to_map by done. split; [apply Hin|].
    intros Ha. apply list_elem_of_omap. exists k. split; [apply Hk; by eexists|]. by rewrite Ha.
  - rewrite <-(length_fmap fst rows), He. unfold sort_unstable. rewrite merge_sort_Permutation, length_fmap.
    apply length_map_to_list.
Qed.

(** Appending one encoded entry per key. *)
Lemma fold_rows (m : gmap Z A) (rows : list (Z * A)) (step : list Z → Z → A → option (list Z)) (enc : Z * A → list Z) out :
  (∀ k a, (k, a) ∈ rows → m !! k = Some a ∧ ∀ out, step out k a = Some (out ++ enc (k, a))) →
  foldl (λ acc k, out ← acc; a ← m !! k; step out k a) (Some out) rows.*1 = Some (out ++ (rows ≫= enc)).
Proof.
  revert out; induction rows as [|[k a] rows IH]; intros out Hr; cbn [fmap list_fmap foldl fst].
  { by rewrite app_nil_r. }
  destruct (Hr k a) as [Hk Hs]; [by left|]. cbn [mbind option_bind]. rewrite Hk. cbn [mbind option_bind].
  rewrite Hs, IH by (intros; apply Hr; by right). by rewrite bind_cons, app_assoc.
Qed.
End rows.

(** Packed row by row, a map reads back as [f] of its rows. *)
Lemma reads_rows {A B} (m : gmap Z A) rows (r : reader GraphError (Z * B)) (enc : Z * A → list Z) (f : A → B) :
  list_to_map rows = m → NoDup rows.*1 → Z.of_nat (length rows) < 2 ^ 32 →
  (∀ k a, (k, a) ∈ rows → reads r (enc (k, a)) (k, f a)) →
  reads (n ← read_u32; l ← repeat_read (Z.to_nat n) r; mret (foldl (λ m r, <[r.1 := r.2]> m) (∅ : gmap Z B) l))
    (le_bytes 4 (wrap_u 32 (Z.of_nat (length rows))) ++ (rows ≫= enc)) (f <$> m).
Proof.
  intros Hm Hn Hl Hr. assert (in_u 32 (Z.of_nat (length rows))) as Hu by (unfold in_u; lia).
  rewrite wrap_u_id by done. eapply reads_bind; [by apply reads_u32|]. rewrite Nat2Z.id.
  set (rows' := (λ p, (p.1, f p.2)) <$> rows).
  assert (rows'.*1 = rows.*1) as He by (unfold rows'; by rewrite <-list_fmap_compose).
  assert (f <$> m = foldl (λ m r, <[r.1 := r.2]> m) ∅ rows') as ->.
  { rewrite foldl_insert_union, (right_id_L ∅ (∪)) by by rewrite He. rewrite <-Hm. unfold rows'.
    by rewrite <-list_to_map_fmap. }
  apply (reads_bind_ret _ (λ l, foldl (λ m r, <[r.1 := r.2]> m) ∅ l)).
  clear -Hr. subst rows'. induction rows as [|[k a] rows IH]; [apply reads_ret|].
  cbn [length repeat_read fmap list_fmap fst snd]. rewrite bind_cons. eapply reads_bind; [apply Hr; by left|].
  apply (reads_bind_ret _ (cons (k, f a))). apply IH. intros. apply Hr. by right.
Qed.

(** ** Bounds and what is read back *)

Definition adj_packable (m : gmap Z AdjList.t) : Prop :=
  Z.of_nat (size m) < 2 ^ 32 ∧
  ∀ v l, m !! v = Some l →
    in_u 32 v ∧ Z.of_nat (length (AdjList.merged l)) < 2 ^ 32 ∧ Forall (in_u 32) (AdjList.merged l).

Definition packable (g : Topology.t) : Prop :=
  Z.of_nat (size (Topology.by_type g)) < 2 ^ 32 ∧ in_u 64 (Topology.edge_count g) ∧
  ∀ et adj, Topology.by_type g !! et = Some adj →
    in_u 32 et ∧ adj_packable (TypedAdjacency.out adj) ∧ adj_packable (TypedAdjacency.inn adj).

Definition norm_list (l : AdjList.t) : AdjList.t := AdjList.mk (AdjList.merged l) [].
Definition norm_adj (a : TypedAdjacency.t) : TypedAdjacency.t :=
  TypedAdjacency.mk (norm_list <$> TypedAdjacency.out a) (norm_list <$> TypedAdjacency.inn a).

(** The topology read back: insert buffers merged, tombstones gone. *)
Definition norm (g : Topology.t) : Topology.t :=
  Topology.mk (norm_adj <$> Topology.by_type g) (Topology.edge_count g) ∅ ∅.

Lemma adj_map_roundtrip m :
  adj_packable m → ∃ enc, (∀ out, pack_adj_map out m = Some (out ++ enc)) ∧ reads unpack_adj_map enc (norm_list <$> m).
Proof.
  intros [Hsz Hm]. destruct (sorted_rows m) as (rows & Hk & Hn & Hmap & Hin & Hlen).
  set (enc := λ p : Z * AdjList.t, le_bytes 4 p.1 ++ enc_u32s (AdjList.merged p.2)).
  eexists. split.
  - intros out. unfold pack_adj_map. rewrite Hk, length_fmap. unfold push_u32 at 2.
    rewrite (fold_rows m rows (λ out v l, Some (push_u32s (push_u32 out v) (AdjList.merged l))) enc).
    { by rewrite <-app_assoc. }
    intros k a Hka. split; [by apply Hin|]. intros out'. rewrite push_u32s_enc. unfold push_u32, enc. by rewrite <-app_assoc.
  - apply reads_rows; [done|done|lia|]. intros k a Hka. destruct (Hm k a (Hin k a Hka)) as (Hk1 & Hl & Hf).
    eapply reads_bind; [by apply reads_u32|].
    apply (reads_bind_ret _ (λ frozen, (k, AdjList.mk frozen []))). by apply reads_u32s.
Qed.

Lemma pack_reads g :
  packable g → ∃ img, (∀ out, pack out g = Some (out ++ img)) ∧ reads unpack_body img (norm g).
Proof.
  intros (Hsz & Hec & Hm). destruct (sorted_rows (Topology.by_type g)) as (rows & Hk & Hn & Hmap & Hin & Hlen).
  assert (∃ enc : Z * TypedAdjacency.t → list Z, ∀ et adj, (et, adj) ∈ rows →
    (∀ out, (out ← pack_adj_map (push_u32 out et) (TypedAdjacency.out adj); pack_adj_map out (TypedAdjacency.inn adj))
            = Some (out ++ enc (et, adj))) ∧
    reads (et ← read_u32; out ← unpack_adj_map; inn ← unpack_adj_map; mret (et, TypedAdjacency.mk out inn))
      (enc (et, adj)) (et, norm_adj adj)) as [enc Henc].
  { exists (λ p, default [] (out ← pack_adj_map (push_u32 [] p.1) (TypedAdjacency.out p.2);
                             pack_adj_map out (TypedAdjacency.inn p.2))).
    intros et adj Hea. destruct (Hm et adj (Hin _ _ Hea)) as (Het & Ho & Hi). cbn [fst snd].
    destruct (adj_map_roundtrip _ Ho) as (eo & Hpo & Hro). destruct (adj_map_roundtrip _ Hi) as (ei & Hpi & Hri).
    rewrite Hpo. cbn [mbind option_bind]. rewrite Hpi. split.
    - intros out. rewrite Hpo. cbn [mbind option_bind]. rewrite Hpi. unfold push_u32. simpl. by rewrite <-!app_assoc.
    - unfold push_u32. cbn [default from_option id]. rewrite app_nil_l, <-app_assoc.
      eapply reads_bind; [by apply reads_u32|]. eapply reads_bind; [done|].
      apply (reads_bind_ret _ (λ inn, (et, TypedAdjacency.mk (norm_list <$> TypedAdjacency.out adj) inn))). done. }
  eexists. split.
  - intros out. unfold pack. rewrite Hk, length_fmap.
    rewrite (fold_rows (Topology.by_type g) rows (λ out et adj,
      out ← pack_adj_map (push_u32 out et) (TypedAdjacency.out adj); pack_adj_map out (TypedAdjacency.inn adj)) enc).
    + cbn [mbind option_bind]. unfold push_u32, push_u64. by rewrite <-!app_assoc.
    + intros et adj Hea. split; [by apply Hin|]. by apply Henc.
  - rewrite app_assoc. eapply reads_bind.
    + apply (reads_rows (Topology.by_type g) rows _ enc norm_adj Hmap Hn ltac:(lia)). intros et adj Hea. by apply Henc.
    + apply (reads_bind_ret _ (λ ec, Topology.mk (norm_adj <$> Topology.by_type g) ec ∅ ∅)). by apply reads_u64.
Qed.

Lemma norm_adj_list g etype dir v :
  Topology.adj_list (norm g) etype dir v = norm_list <$> Topology.adj_list g etype dir v.
Proof.
  unfold Topology.adj_list, norm. cbn [Topology.by_type]. rewrite lookup_fmap.
  destruct (Topology.by_type g !! etype) as [adj|]; [|done]. destruct dir; apply lookup_fmap.
Qed.

Lemma norm_neighbors g etype dir v : Topology.neighbors (norm g) etype dir v = Topology.neighbors g etype dir v.
Proof. unfold Topology.neighbors. rewrite norm_adj_list. by destruct (Topology.adj_list g etype dir v). Qed.

(** Packing a topology and unpacking the image gives the same graph: the
    same neighbour list for every edge type, direction and vertex, the same
    edge count, insert buffers merged and tombstones left out; unpacking stops
    exactly at the end of the image, whatever follows it; and every truncated
    image is refused. The topology's ids and lengths fit [u32], as
    [push_len] asserts. *)
Theorem topology_pack_roundtrip (g : Topology.t) :
  packable g →
  ∃ img, pack [] g = Some img ∧
    (∀ rest, len_z (img ++ rest) ≤ isize_max →
      ∃ g', unpack (img ++ rest) = Ok (g', len_z img) ∧
        (∀ etype dir v, Topology.neighbors g' etype dir v = Topology.neighbors g etype dir v) ∧
        Topology.edge_count g' = Topology.edge_count g ∧ Topology.tombstone_count g' = 0%nat) ∧
    (len_z img ≤ isize_max → ∀ cut, cut `prefix_of` img → cut ≠ img → ∃ e, unpack cut = Err e).
Proof.
  intros Hp. destruct (pack_reads g Hp) as (img & Hpack & Hr). exists img. split; [apply Hpack|]. split.
  - intros rest Hlen. exists (norm g). split; [|split; [apply norm_neighbors|done]].
    pose proof (Hr [] rest Hlen) as H. simpl in H. change (len_z []) with 0 in H. by rewrite Z.add_0_l in H.
  - intros Hlen cut Hc Hne. unfold unpack. eapply reads_truncated; [exact Hr|apply stable_unpack|done|done|done].
Qed.

(** One edge type, one vertex with a frozen neighbour and a buffered one. *)
Definition tiny : Topology.t :=
  Topology.mk {[ 7 := TypedAdjacency.mk {[ 1 := AdjList.mk [2] [3] ]} ∅ ]} 2 ∅ ∅.

Lemma tiny_packable : packable tiny.
Proof.
  unfold packable, adj_packable, tiny. cbn [Topology.by_type Topology.edge_count].
  split; [done|]. split; [done|]. intros et adj [<- <-]%lookup_singleton_Some. cbn [TypedAdjacency.out TypedAdjacency.inn].
  split; [done|]. split; (split; [done|]); intros v l Hv; [|by rewrite lookup_empty in Hv].
  apply lookup_singleton_Some in Hv as [<- <-]. split; [done|]. assert (AdjList.merged (AdjList.mk [2] [3]) = [2; 3]) as -> by done.
  split; [done|]. by repeat constructor.
Qed.

Lemma topology_pack_roundtrip_witness :
  ∃ img, pack [] tiny = Some img ∧ ∀ rest, len_z (img ++ rest) ≤ isize_max →
    ∃ g', unpack (img ++ rest) = Ok (g', len_z img) ∧ Topology.neighbors g' 7 Out 1 = [2; 3].
Proof.
  destruct (topology_pack_roundtrip tiny tiny_packable) as (img & Hp & Hr & _).
  exists img. split; [exact Hp|]. intros rest Hlen. destruct (Hr rest Hlen) as (g' & Hu & Hn & _).
  exists g'. split; [exact Hu|]. rewrite Hn. reflexivity.
Defined.
End Pack.
