(* ===== verification/Calendar.v ===== *)
(** * The civil calendar

    Models the calendar arithmetic of [crates/core-storage/src/types.rs]
    (H. Hinnant's proleptic Gregorian algorithms) over the integers.  The
    source computes in [i64]; [civil_fits] shows that from any day count of a
    representable instant no intermediate value leaves it. *)

From S2P Require Import Prelude.

Module Calendar.

(** [is_leap_year]; Rust's [%] truncates, [Z.rem]. *)
Definition is_leap_year (year : Z) : bool :=
  (Z.rem year 4 =? 0) && (negb (Z.rem year 100 =? 0) || (Z.rem year 400 =? 0)).

(** [days_in_month] *)
Definition days_in_month (year month : Z) : Z :=
  if month =? 2 then (if is_leap_year year then 29 else 28)
  else if (month =? 4) || (month =? 6) || (month =? 9) || (month =? 11) then 30
  else 31.

(** [days_from_civil]; [div_euclid] and [rem_euclid] by a positive constant
    are [Z.div] and [Z.modulo], and the other divisions have non-negative
    operands. *)
Definition days_from_civil (year month day : Z) : Z :=
  let y := if month <=? 2 then year - 1 else year in
  let era := y / 400 in
  let yoe := y mod 400 in
  let m := month in
  let doy := (153 * (if 2 <? m then m - 3 else m + 9) + 2) / 5 + day - 1 in
  let doe := yoe * 365 + yoe / 4 - yoe / 100 + doy in
  era * 146097 + doe - 719468.

(** [civil_from_days] *)
Definition civil_from_days (days : Z) : Z * Z * Z :=
  let z := days + 719468 in
  let era := z / 146097 in
  let doe := z mod 146097 in
  let yoe := (doe - doe / 1460 + doe / 36524 - doe / 146096) / 365 in
  let doy := doe - (365 * yoe + yoe / 4 - yoe / 100) in
  let mp := (5 * doy + 2) / 153 in
  let day := doy - (153 * mp + 2) / 5 + 1 in
  let month := if mp <? 10 then mp + 3 else mp - 9 in
  let year := yoe + era * 400 + (if month <=? 2 then 1 else 0) in
  (year, month, day).

(** A date of the proleptic Gregorian calendar. *)
Definition valid_date (year month day : Z) : Prop :=
  1 ≤ month ≤ 12 ∧ 1 ≤ day ≤ days_in_month year month.

(** ** Leap years *)

Lemma is_leap_year_mod year :
  is_leap_year year = (year mod 4 =? 0) && (negb (year mod 100 =? 0) || (year mod 400 =? 0)).
Proof.
  assert (∀ k, 0 < k → (Z.rem year k =? 0) = (year mod k =? 0)) as Hk.
  { intros k Hk. apply eq_iff_eq_true. rewrite !Z.eqb_eq, Z.rem_divide, Z.mod_divide by lia. done. }
  unfold is_leap_year. by rewrite !Hk.
Qed.

Lemma is_leap_year_spec year :
  is_leap_year year = true ↔ year mod 4 = 0 ∧ (year mod 100 ≠ 0 ∨ year mod 400 = 0).
Proof.
  rewrite is_leap_year_mod, andb_true_iff, orb_true_iff, negb_true_iff, !Z.eqb_eq, Z.eqb_neq. done.
Qed.

(** ** Years of an era *)

(** The first day of year [y] (counted from March) of an era. *)
Definition year_start (y : Z) : Z := y * 365 + y / 4 - y / 100.

Definition yoe_of (doe : Z) : Z := (doe - doe / 1460 + doe / 36524 - doe / 146096) / 365.

(** The year the division finds is the one the day lies in. *)
Lemma yoe_of_spec doe :
  0 ≤ doe < 146097 →
  0 ≤ yoe_of doe ≤ 399 ∧ year_start (yoe_of doe) ≤ doe ∧ (yoe_of doe < 399 → doe < year_start (yoe_of doe + 1)).
Proof.
  intros H. unfold yoe_of, year_start.
  assert (∃ c r, doe = 36524 * c + r ∧ 0 ≤ c ≤ 4 ∧ 0 ≤ r < 36524 ∧ (c = 4 → r = 0)) as (c & r & -> & Hc & Hr & H4).
  { exists (doe / 36524), (doe mod 36524). divlia. }
  replace ((36524 * c + r) / 36524) with c by divlia.
  assert (c = 0 ∨ c = 1 ∨ c = 2 ∨ c = 3 ∨ c = 4) as Hcs by lia.
  destruct Hcs as [-> | [-> | [-> | [-> | ->]]]]; divlia.
Qed.

Lemma year_start_mono y y' : 0 ≤ y → y ≤ y' → year_start y ≤ year_start y'.
Proof. unfold year_start. intros. divlia. Qed.

Lemma yoe_of_unique doe y :
  0 ≤ y ≤ 399 → 0 ≤ doe < 146097 → year_start y ≤ doe → (y < 399 → doe < year_start (y + 1)) → yoe_of doe = y.
Proof.
  intros Hy Hd Hlo Hhi. destruct (yoe_of_spec doe Hd) as (Hr & Hlo' & Hhi').
  destruct (Z.lt_trichotomy (yoe_of doe) y) as [Hlt|[?|Hgt]]; [|done|].
  - pose proof (year_start_mono (yoe_of doe + 1) y ltac:(lia) ltac:(lia)). lia.
  - pose proof (year_start_mono (y + 1) (yoe_of doe) ltac:(lia) ltac:(lia)). lia.
Qed.

(** Days of a year counted from March: 366 when it ends in a leap February. *)
Definition year_days (era y : Z) : Z := if is_leap_year (y + era * 400 + 1) then 366 else 365.

Lemma year_start_next era y :
  0 ≤ y ≤ 399 → year_start y + year_days era y = if y =? 399 then 146097 else year_start (y + 1).
Proof.
  intros Hy. unfold year_days, year_start. destruct (is_leap_year (y + era * 400 + 1)) eqn:E.
  - apply is_leap_year_spec in E as [H4 H100]. destruct (Z.eqb_spec y 399) as [->|Hne]; divlia.
  - destruct (Z.eqb_spec y 399) as [->|Hne].
    + exfalso. rewrite <-not_true_iff_false, is_leap_year_spec in E. apply E. divlia.
    + rewrite <-not_true_iff_false, is_leap_year_spec in E.
      assert ((y + 1) mod 4 ≠ 0 ∨ ((y + 1) mod 100 = 0 ∧ (y + 1) mod 400 ≠ 0)) as E' by divlia.
      clear E. divlia.
Qed.

(** ** Months of a year counted from March *)

Definition month_start (mp : Z) : Z := (153 * mp + 2) / 5.
Definition month_of (mp : Z) : Z := if mp <? 10 then mp + 3 else mp - 9.
Definition mp_of (month : Z) : Z := if 2 <? month then month - 3 else month + 9.

Lemma mp_cases mp : 0 ≤ mp ≤ 11 →
  mp = 0 ∨ mp = 1 ∨ mp = 2 ∨ mp = 3 ∨ mp = 4 ∨ mp = 5 ∨ mp = 6 ∨ mp = 7 ∨ mp = 8 ∨ mp = 9 ∨ mp = 10 ∨ mp = 11.
Proof. lia. Qed.

(** Case analysis on a month index. *)
Ltac months H :=
  apply mp_cases in H;
  destruct H as [-> | [-> | [-> | [-> | [-> | [-> | [-> | [-> | [-> | [-> | [-> | ->]]]]]]]]]]].

Lemma month_of_day doy :
  0 ≤ doy ≤ 365 → let mp := (5 * doy + 2) / 153 in
  0 ≤ mp ≤ 11 ∧ month_start mp ≤ doy ∧ (mp < 11 → doy < month_start (mp + 1)).
Proof. unfold month_start. intros. divlia. Qed.

Lemma month_of_day_unique doy mp :
  0 ≤ mp ≤ 11 → 0 ≤ doy ≤ 365 → month_start mp ≤ doy → (mp < 11 → doy < month_start (mp + 1)) → (5 * doy + 2) / 153 = mp.
Proof. unfold month_start. intros. divlia. Qed.

(** The lengths of the months: between two starts, and February to the end. *)
Lemma month_lengths era y mp :
  0 ≤ mp ≤ 11 → let month := month_of mp in
  month_start mp + days_in_month (y + era * 400 + (if month <=? 2 then 1 else 0)) month
  = if mp =? 11 then year_days era y else month_start (mp + 1).
Proof.
  intros Hmp. months Hmp; try reflexivity. cbv zeta. change (month_of 11) with 2.
  change (month_start 11) with 337. change (if 2 <=? 2 then 1 else 0) with 1. change (11 =? 11) with true.
  unfold days_in_month, year_days. change (2 =? 2) with true. by destruct (is_leap_year (y + era * 400 + 1)).
Qed.

Lemma month_of_mp month : 1 ≤ month ≤ 12 → 0 ≤ mp_of month ≤ 11 ∧ month_of (mp_of month) = month.
Proof. unfold mp_of, month_of. intros. destruct (Z.ltb_spec 2 month); case_match; lia. Qed.

Lemma mp_of_month mp : 0 ≤ mp ≤ 11 → 1 ≤ month_of mp ≤ 12 ∧ mp_of (month_of mp) = mp.
Proof. intros Hmp. by months Hmp. Qed.

(** Both algorithms in these terms. *)
Lemma days_from_civil_eq era yoe mp day :
  0 ≤ yoe ≤ 399 → 0 ≤ mp ≤ 11 →
  let month := month_of mp in
  days_from_civil (yoe + era * 400 + (if month <=? 2 then 1 else 0)) month day
  = era * 146097 + (year_start yoe + (month_start mp + day - 1)) - 719468.
Proof.
  intros Hy Hmp month. destruct (mp_of_month mp Hmp) as [Hm Hmp']. fold month in Hm, Hmp'.
  unfold days_from_civil. change (if 2 <? month then month - 3 else month + 9) with (mp_of month). rewrite Hmp'.
  set (y := if month <=? 2 then _ else _). assert (y = yoe + era * 400) as -> by (unfold y; destruct (month <=? 2); lia).
  rewrite Z.div_add, Z.mod_add, Z.div_small, Z.mod_small by lia. unfold year_start, month_start. lia.
Qed.

(** What [civil_from_days] finds: era, year, month and day, with their bounds. *)
Lemma civil_from_days_eq days :
  ∃ era yoe mp day, 0 ≤ yoe ≤ 399 ∧ 0 ≤ mp ≤ 11 ∧
    days = era * 146097 + (year_start yoe + (month_start mp + day - 1)) - 719468 ∧
    1 ≤ day ∧ month_start mp + day - 1 < year_days era yoe ∧ (mp < 11 → month_start mp + day - 1 < month_start (mp + 1)) ∧
    civil_from_days days = (yoe + era * 400 + (if month_of mp <=? 2 then 1 else 0), month_of mp, day).
Proof.
  set (z := days + 719468). set (era := z / 146097). set (doe := z mod 146097).
  assert (0 ≤ doe < 146097) as Hdoe by by apply Z.mod_pos_bound.
  assert (z = 146097 * era + doe) as Hz by by apply Z.div_mod.
  destruct (yoe_of_spec doe Hdoe) as (Hy & Hlo & Hhi). set (yoe := yoe_of doe) in *.
  set (doy := doe - year_start yoe). pose proof (year_start_next era yoe Hy) as Hnext.
  assert (0 ≤ doy < year_days era yoe) as Hdoy.
  { unfold doy. destruct (Z.eqb_spec yoe 399); lia. }
  assert (doy ≤ 365) as Hdoy' by (unfold year_days in Hdoy; destruct (is_leap_year _); lia).
  destruct (month_of_day doy ltac:(lia)) as (Hmp & Hmlo & Hmhi). set (mp := (5 * doy + 2) / 153) in *.
  exists era, yoe, mp, (doy - month_start mp + 1). split_and!; try lia.
  unfold civil_from_days. fold z era doe. change ((doe - doe / 1460 + doe / 36524 - doe / 146096) / 365) with yoe.
  replace (doe - (365 * yoe + yoe / 4 - yoe / 100)) with doy by (unfold doy, year_start; lia). done.
Qed.

(** Every date is found from its era, year and month. *)
Lemma valid_date_eq year month day :
  valid_date year month day →
  ∃ era yoe mp, 0 ≤ yoe ≤ 399 ∧ 0 ≤ mp ≤ 11 ∧ month = month_of mp ∧
    year = yoe + era * 400 + (if month <=? 2 then 1 else 0) ∧
    1 ≤ day ∧ month_start mp + day - 1 < year_days era yoe ∧ (mp < 11 → month_start mp + day - 1 < month_start (mp + 1)).
Proof.
  intros [Hm Hd]. destruct (month_of_mp month Hm) as [Hmp Hmo]. set (mp := mp_of month) in *.
  set (y := year - (if month <=? 2 then 1 else 0)). exists (y / 400), (y mod 400), mp.
  pose proof (Z.mod_pos_bound y 400 ltac:(lia)) as Hy. pose proof (Z.div_mod y 400 ltac:(lia)) as Hdm.
  assert (year = y mod 400 + y / 400 * 400 + (if month <=? 2 then 1 else 0)) as Hyear by (unfold y in *; lia).
  pose proof (month_lengths (y / 400) (y mod 400) mp Hmp) as Hl. cbv zeta in Hl. rewrite Hmo, <-Hyear in Hl.
  assert (month_start (mp + 1) ≤ 337 ∨ mp = 11) as H337 by (unfold month_start; divlia).
  assert (337 ≤ year_days (y / 400) (y mod 400)) as Hyd by (unfold year_days; destruct (is_leap_year _); lia).
  split_and!; try done; try lia; destruct (Z.eqb_spec mp 11); lia.
Qed.

Lemma civil_of_days days :
  let '(year, month, day) := civil_from_days days in
  valid_date year month day ∧ days_from_civil year month day = days.
Proof.
  destruct (civil_from_days_eq days) as (era & yoe & mp & day & Hy & Hmp & Hdays & Hd1 & Hd2 & Hd3 & ->).
  split; [|by rewrite days_from_civil_eq].
  pose proof (month_lengths era yoe mp Hmp) as Hl. cbv zeta in Hl. destruct (mp_of_month mp Hmp) as [Hm _].
  split; [done|]. destruct (Z.eqb_spec mp 11); lia.
Qed.

Lemma days_of_civil year month day :
  valid_date year month day → civil_from_days (days_from_civil year month day) = (year, month, day).
Proof.
  intros Hv. destruct (valid_date_eq _ _ _ Hv) as (era & yoe & mp & Hy & Hmp & -> & -> & Hd1 & Hd2 & Hd3).
  rewrite days_from_civil_eq by done. set (doy := month_start mp + day - 1) in *.
  assert (0 ≤ month_start mp) by (unfold month_start; divlia).
  pose proof (year_start_next era yoe Hy) as Hn.
  assert (year_days era yoe ≤ 366) by (unfold year_days; destruct (is_leap_year _); lia).
  assert (0 ≤ year_start yoe) by (unfold year_start; divlia).
  assert (year_start yoe + year_days era yoe ≤ 146097) as Hmax.
  { rewrite Hn. destruct (Z.eqb_spec yoe 399); [lia|]. unfold year_start. divlia. }
  unfold civil_from_days. replace (era * 146097 + (year_start yoe + doy) - 719468 + 719468)
    with ((year_start yoe + doy) + era * 146097) by lia.
  assert ((year_start yoe + doy + era * 146097) / 146097 = era) as ->
    by (rewrite Z.div_add, Z.div_small by lia; lia).
  assert ((year_start yoe + doy + era * 146097) mod 146097 = year_start yoe + doy) as ->
    by (rewrite Z.mod_add, Z.mod_small by lia; lia).
  change ((year_start yoe + doy - (year_start yoe + doy) / 1460 + (year_start yoe + doy) / 36524
           - (year_start yoe + doy) / 146096) / 365) with (yoe_of (year_start yoe + doy)).
  rewrite (yoe_of_unique _ yoe) by (lia || (destruct (Z.eqb_spec yoe 399); lia)).
  replace (year_start yoe + doy - (365 * yoe + yoe / 4 - yoe / 100)) with doy by (unfold year_start; lia).
  rewrite (month_of_day_unique doy mp) by lia. fold (month_of mp). fold (month_start mp).
  f_equal. unfold doy. lia.
Qed.

(** The two calendar algorithms are inverse bijections between the day
    counts and the dates of the proleptic Gregorian calendar: every day count
    gives a valid date (month 1 to 12, day within the month's length, leap
    Februaries included) that converts back to it, and every valid date
    converts to a day count that gives it back. *)
Theorem calendar_bijection :
  (∀ days, let '(year, month, day) := civil_from_days days in
     valid_date year month day ∧ days_from_civil year month day = days) ∧
  (∀ year month day, valid_date year month day →
     civil_from_days (days_from_civil year month day) = (year, month, day)).
Proof. split; [exact civil_of_days|exact days_of_civil]. Qed.

(** The intermediate values of both algorithms fit [i64] for any day count of a
representable instant (|days| at most 2^36). *)
Lemma civil_fits days :
  - 2 ^ 36 ≤ days ≤ 2 ^ 36 →
  let '(year, month, day) := civil_from_days days in
  in_i 64 (days + 719468) ∧ in_i 64 (year * 146097) ∧ - 2 ^ 36 ≤ year ≤ 2 ^ 36.
Proof.
  intros Hd. destruct (civil_from_days_eq days) as (era & yoe & mp & day & Hy & Hmp & Hdays & Hd1 & Hd2 & Hd3 & ->).
  assert (0 ≤ month_start mp ≤ 337) by (unfold month_start; divlia).
  assert (0 ≤ year_start yoe ≤ 145731) by (unfold year_start; divlia).
  assert (year_days era yoe ≤ 366) by (unfold year_days; destruct (is_leap_year _); lia).
  assert (- 2 ^ 35 ≤ era * 400 ≤ 2 ^ 35) by lia.
  unfold in_i. destruct (month_of mp <=? 2); lia.
Qed.
End Calendar.
