(* ===== verification/Decimal.v ===== *)
(** * Decimal text

    The text the source prints and parses is ASCII, so a text is its bytes
    ([list Z]); [ch] is the byte of a character.  [dec] is Rust's [{}] of a
    non-negative integer, [pad w] its [{:0w}], and [span_digits], [dec_val] and
    [fixed_digits] are what the parsers do with digits. *)

From Stdlib Require Import Ascii.
From S2P Require Import Prelude Bytes.

Definition ch (c : ascii) : Z := Z.of_N (N_of_ascii c).

Definition is_digit (b : Z) : bool := (48 <=? b) && (b <=? 57).

(** The value of a run of digits. *)
Definition dec_val (l : list Z) : Z := foldl (λ acc b, 10 * acc + (b - 48)) 0 l.

(** The digits of [z], most significant first; 39 digits are enough for [u128]. *)
Fixpoint dec_loop (fuel : nat) (z : Z) (acc : list Z) : list Z :=
  match fuel with
  | O => acc
  | S fuel => let acc := (48 + z mod 10) :: acc in if z <? 10 then acc else dec_loop fuel (z / 10) acc
  end.
Definition dec (z : Z) : list Z := dec_loop 39 z [].

(** [{z:0w}] *)
Definition pad (w : nat) (z : Z) : list Z := replicate (w - length (dec z)) 48 ++ dec z.

(** [s.bytes().take_while(u8::is_ascii_digit).count()], as the two parts the
    string is sliced into there. *)
Fixpoint span_digits (l : list Z) : list Z * list Z :=
  match l with
  | b :: l' => if is_digit b then let '(ds, rest) := span_digits l' in (b :: ds, rest) else ([], l)
  | [] => ([], [])
  end.

(** [digits.parse::<iN>().ok()] and [::<uN>()] of a run of digits *)
Definition parse_i (w : Z) (ds : list Z) : option Z := match ds with [] => None | _ => try_i w (dec_val ds) end.
Definition parse_u (w : Z) (ds : list Z) : option Z := match ds with [] => None | _ => try_u w (dec_val ds) end.

(** [fixed_digits] *)
Definition fixed_digits (s : list Z) (n : nat) : option (Z * list Z) :=
  if (length s <? n)%nat then None
  else if forallb is_digit (take n s) then v ← parse_u 32 (take n s); Some (v, drop n s) else None.

(** [s.strip_prefix(c)] *)
Definition strip_prefix (c : Z) (s : list Z) : option (list Z) :=
  match s with b :: s => if b =? c then Some s else None | [] => None end.

(** No digit comes next. *)
Definition no_digit (l : list Z) : Prop := match l with b :: _ => is_digit b = false | [] => True end.

Lemma is_digit_mod z : is_digit (48 + z mod 10) = true.
Proof. unfold is_digit. pose proof (Z.mod_pos_bound z 10). rewrite andb_true_iff, !Z.leb_le. lia. Qed.

Lemma dec_val_app l1 l2 : dec_val (l1 ++ l2) = dec_val l1 * 10 ^ Z.of_nat (length l2) + dec_val l2.
Proof.
  unfold dec_val. rewrite foldl_app. generalize (foldl (λ acc b, 10 * acc + (b - 48)) 0 l1). intros a.
  assert (∀ l a, foldl (λ acc b, 10 * acc + (b - 48)) a l
                 = a * 10 ^ Z.of_nat (length l) + foldl (λ acc b, 10 * acc + (b - 48)) 0 l) as H; [|apply H].
  intros l. induction l as [|b l IH]; intros x; cbn [foldl length]; [lia|].
  rewrite IH, (IH (10 * 0 + (b - 48))), Nat2Z.inj_succ, Z.pow_succ_r by lia. lia.
Qed.

Lemma dec_loop_app fuel z acc : dec_loop fuel z acc = dec_loop fuel z [] ++ acc.
Proof.
  revert z acc; induction fuel as [|fuel IH]; intros z acc; cbn [dec_loop]; [done|].
  destruct (z <? 10); [done|]. rewrite IH, (IH _ [_]), <-app_assoc. done.
Qed.

Lemma pow10_S n : 10 ^ Z.of_nat (S n) = 10 * 10 ^ Z.of_nat n.
Proof. rewrite Nat2Z.inj_succ, Z.pow_succ_r by lia. done. Qed.

Lemma dec_loop_spec fuel z :
  0 ≤ z < 10 ^ Z.of_nat fuel → (0 < fuel)%nat →
  dec_val (dec_loop fuel z []) = z ∧ Forall (λ b, is_digit b = true) (dec_loop fuel z []) ∧ dec_loop fuel z [] ≠ []
  ∧ (∀ w, (0 < w)%nat → z < 10 ^ Z.of_nat w → (length (dec_loop fuel z []) ≤ w)%nat).
Proof.
  revert z; induction fuel as [|fuel IH]; intros z Hz Hf; [lia|]. cbn [dec_loop].
  destruct (Z.ltb_spec z 10) as [Hlt|Hge].
  - unfold dec_val. cbn [foldl]. rewrite Z.mod_small by lia. split_and!; [lia| |done|simpl; lia].
    constructor; [|constructor]. rewrite <-(Z.mod_small z 10) by lia. apply is_digit_mod.
  - rewrite dec_loop_app, pow10_S in *. assert (0 < fuel)%nat as Hf' by (destruct fuel; [simpl in Hz|]; lia).
    destruct (IH (z / 10)) as (Hv & Hd & Hn & Hw); [split; [apply Z.div_pos; lia|apply Z.div_lt_upper_bound; lia]|done|].
    split_and!.
    + rewrite dec_val_app, Hv. unfold dec_val. cbn [foldl length]. change (10 ^ Z.of_nat 1) with 10. divlia.
    + apply Forall_app. split; [done|]. constructor; [apply is_digit_mod|constructor].
    + by destruct (dec_loop fuel (z / 10) []).
    + intros [|w] Hw0 Hzw; [lia|]. rewrite length_app. rewrite pow10_S in Hzw. simpl.
      destruct w as [|w]; [simpl in Hzw; lia|]. specialize (Hw (S w) ltac:(lia)).
      assert (z / 10 < 10 ^ Z.of_nat (S w)) by (apply Z.div_lt_upper_bound; lia). specialize (Hw ltac:(lia)). lia.
Qed.

Definition digits (l : list Z) : Prop := Forall (λ b, is_digit b = true) l.

Definition dec_max : Z := 10 ^ 39.

Lemma dec_spec z : 0 ≤ z < dec_max → dec_val (dec z) = z ∧ digits (dec z) ∧ dec z ≠ [].
Proof. intros Hz. destruct (dec_loop_spec 39 z Hz ltac:(lia)) as (? & ? & ? & _). done. Qed.

Lemma dec_loop_acc fuel z acc : acc ≠ [] → dec_loop fuel z acc ≠ [].
Proof.
  revert z acc; induction fuel as [|fuel IH]; intros z acc Ha; [done|]. cbn [dec_loop]. case_match; [done|by apply IH].
Qed.

Lemma dec_nonempty z : dec z ≠ [].
Proof. unfold dec. generalize 38%nat. intros fuel. cbn [dec_loop]. case_match; [done|]. by apply dec_loop_acc. Qed.

Lemma dec_length z w : 0 ≤ z < dec_max → (0 < w)%nat → z < 10 ^ Z.of_nat w → (length (dec z) ≤ w)%nat.
Proof. intros Hz. destruct (dec_loop_spec 39 z Hz ltac:(lia)) as (_ & _ & _ & Hw). apply Hw. Qed.

Lemma dec_val_zeros n l : dec_val (replicate n 48 ++ l) = dec_val l.
Proof.
  rewrite dec_val_app. assert (dec_val (replicate n 48) = 0) as ->; [|lia].
  induction n as [|n IH]; [done|]. unfold dec_val in *. cbn [replicate foldl]. exact IH.
Qed.

Lemma pad_spec w z :
  0 ≤ z < dec_max → dec_val (pad w z) = z ∧ digits (pad w z) ∧ pad w z ≠ [] ∧ (w ≤ length (pad w z))%nat
  ∧ ((0 < w)%nat → z < 10 ^ Z.of_nat w → length (pad w z) = w).
Proof.
  intros Hz. destruct (dec_spec z Hz) as (Hv & Hd & Hn). unfold pad. split_and!.
  - by rewrite dec_val_zeros.
  - apply Forall_app. split; [|done]. by apply Forall_replicate.
  - destruct (dec z); [done|]. by destruct (replicate _ _).
  - rewrite length_app, length_replicate. lia.
  - intros Hw Hlt. pose proof (dec_length z w Hz Hw Hlt). rewrite length_app, length_replicate. lia.
Qed.

Lemma span_digits_app ds rest : digits ds → no_digit rest → span_digits (ds ++ rest) = (ds, rest).
Proof.
  intros Hd Hr. induction Hd as [|b ds Hb Hd IH]; cbn [app span_digits].
  - destruct rest as [|b rest]; [done|]. simpl in Hr. cbn [span_digits]. by rewrite Hr.
  - by rewrite Hb, IH.
Qed.

Lemma forallb_digits ds : digits ds → forallb is_digit ds = true.
Proof. induction 1 as [|b ds Hb Hd IH]; [done|]. simpl. by rewrite Hb, IH. Qed.

Lemma fixed_digits_pad n z rest :
  (0 < n)%nat → 0 ≤ z < 10 ^ Z.of_nat n → in_u 32 z → fixed_digits (pad n z ++ rest) n = Some (z, rest).
Proof.
  intros Hn Hz Hu. assert (0 ≤ z < dec_max) as Hm by (unfold in_u, dec_max in *; lia).
  destruct (pad_spec n z Hm) as (Hv & Hd & Hne & _ & Hl). specialize (Hl Hn ltac:(lia)).
  unfold fixed_digits. rewrite length_app, Hl, (proj2 (Nat.ltb_ge _ _)) by lia.
  rewrite take_app_length', drop_app_length', forallb_digits by done. unfold parse_u.
  destruct (pad n z) eqn:E; [done|]. rewrite Hv, try_u_Some by done. done.
Qed.

Lemma strip_prefix_cons c s : strip_prefix c (c :: s) = Some s.
Proof. simpl. by rewrite Z.eqb_refl. Qed.

Lemma strip_prefix_ne c b s : b ≠ c → strip_prefix c (b :: s) = None.
Proof. simpl. by intros ->%Z.eqb_neq. Qed.

#[export] Hint Rewrite strip_prefix_cons : mush.
