(* ===== verification/Iso8601.v ===== *)
(** * ISO 8601 text

    Models the printers and parsers of [crates/core-storage/src/types.rs] for
    dates, date-times, offsets and durations.  A text is its bytes; all the
    forms are ASCII, and a byte outside ASCII is refused wherever the source
    refuses the character it belongs to. *)

From Stdlib Require Import Ascii.
From S2P Require Import Prelude Bytes Decimal Calendar.

Module Iso8601.
Import Calendar.

Definition MICROS_PER_SECOND : Z := 1000000.
Definition SECONDS_PER_DAY : Z := 86400.
Definition NANOS_PER_SECOND : Z := 1000000000.
Definition NANOS_PER_MINUTE : Z := 60 * NANOS_PER_SECOND.
Definition NANOS_PER_HOUR : Z := 60 * NANOS_PER_MINUTE.
Definition MAX_OFFSET_SECONDS : Z := 18 * 3600.
Definition micros_per_day : Z := SECONDS_PER_DAY * MICROS_PER_SECOND.

(** [format_civil] *)
Definition format_civil (days : Z) : list Z :=
  let '(year, month, day) := civil_from_days days in
  let year :=
    if (0 <=? year) && (year <=? 9999) then pad 4 year
    else if year <? 0 then ch "-" :: pad 6 (Z.abs year)
    else ch "+" :: pad 6 year in
  year ++ ch "-" :: pad 2 month ++ ch "-" :: pad 2 day.

(** [parse_civil] *)
Definition parse_civil (s : list Z) : option (Z * list Z) :=
  '(sign, rest) ← match s with
                  | [] => None
                  | c :: s' => Some (if c =? ch "+" then (1, s') else if c =? ch "-" then (-1, s') else (0, s))
                  end;
  let '(year_digits, after) := span_digits rest in
  let year_len := length year_digits in
  if ((sign =? 0) && negb (year_len =? 4)%nat) || negb ((4 <=? year_len)%nat && (year_len <=? 12)%nat) then None
  else
    magnitude ← parse_i 64 year_digits;
    let year := if sign <? 0 then - magnitude else magnitude in
    rest ← strip_prefix (ch "-") after;
    '(month, rest) ← fixed_digits rest 2;
    rest ← strip_prefix (ch "-") rest;
    '(day, rest) ← fixed_digits rest 2;
    if negb ((1 <=? month) && (month <=? 12)) || (day =? 0) || (days_in_month year month <? day) then None
    else Some (days_from_civil year month day, rest).

(** [rest.strip_prefix(['.', ','])] *)
Definition strip_point (s : list Z) : option (list Z) :=
  match strip_prefix (ch ".") s with Some s => Some s | None => strip_prefix (ch ",") s end.

(** The fraction of a second: 1 to 9 digits, in nanoseconds. *)
Definition parse_fraction (after : list Z) : option (Z * list Z) :=
  let '(ds, rest) := span_digits after in
  if (length ds =? 0)%nat || (9 <? length ds)%nat then None
  else digits ← parse_i 64 ds; Some (digits * 10 ^ Z.of_nat (9 - length ds), rest).

(** [parse_time_of_day] *)
Definition parse_time_of_day (s : list Z) : option (Z * list Z) :=
  '(hour, rest) ← fixed_digits s 2;
  rest ← strip_prefix (ch ":") rest;
  '(minute, rest) ← fixed_digits rest 2;
  '(second, frac_nanos, rest) ←
    match strip_prefix (ch ":") rest with
    | None => Some (0, 0, rest)
    | Some after =>
        '(sec, after) ← fixed_digits after 2;
        match strip_point after with
        | None => Some (sec, 0, after)
        | Some after => '(frac, after) ← parse_fraction after; Some (sec, frac, after)
        end
    end;
  if (23 <? hour) || (59 <? minute) || (59 <? second) then None
  else Some ((hour * 3600 + minute * 60 + second) * NANOS_PER_SECOND + frac_nanos, rest).

(** [parse_offset] *)
Definition parse_offset (s : list Z) : option Z :=
  if decide (s = [ch "Z"]) then Some 0
  else
    '(negative, rest) ← match s with
                        | [] => None
                        | c :: s => if c =? ch "+" then Some (false, s)
                                    else if c =? ch "-" then Some (true, s) else None
                        end;
    '(hours, rest) ← fixed_digits rest 2;
    rest ← strip_prefix (ch ":") rest;
    '(minutes, rest) ← fixed_digits rest 2;
    seconds ← match strip_prefix (ch ":") rest with
              | Some after =>
                  '(secs, after) ← fixed_digits after 2;
                  match after with [] => Some secs | _ => None end
              | None => match rest with [] => Some 0 | _ => None end
              end;
    if (59 <? minutes) || (59 <? seconds) then None
    else
      total ← try_i 32 (hours * 3600 + minutes * 60 + seconds);
      if MAX_OFFSET_SECONDS <? total then None
      else Some (if negative : bool then - total else total).

(** [format_local_micros]; the operands of the last divisions are
    non-negative. *)
Definition format_local_micros (micros : Z) : list Z :=
  let days := wrap_i 64 (micros / micros_per_day) in
  let of_day := wrap_i 64 (micros mod micros_per_day) in
  let sub := of_day mod MICROS_PER_SECOND in
  let sod := of_day / MICROS_PER_SECOND in
  let '(h, m, s) := (sod / 3600, sod / 60 mod 60, sod mod 60) in
  format_civil days ++ ch "T" :: pad 2 h ++ ch ":" :: pad 2 m ++ ch ":" :: pad 2 s
    ++ (if sub =? 0 then [] else ch "." :: pad 6 sub).

(** [parse_local_micros] *)
Definition parse_local_micros (s : list Z) : option (Z * list Z) :=
  '(days, rest) ← parse_civil s;
  rest ← strip_prefix (ch "T") rest;
  '(nanos_of_day, rest) ← parse_time_of_day rest;
  Some (days * micros_per_day + nanos_of_day / 1000, rest).

Definition date_to_iso8601 (days : Z) : list Z := format_civil days.

(** [iso8601_to_date] *)
Definition iso8601_to_date (s : list Z) : option Z :=
  '(days, rest) ← parse_civil s; match rest with [] => try_i 32 days | _ => None end.

Definition local_datetime_to_iso8601 (micros : Z) : list Z := format_local_micros micros.

(** [iso8601_to_local_datetime] *)
Definition iso8601_to_local_datetime (s : list Z) : option Z :=
  '(micros, rest) ← parse_local_micros s; match rest with [] => try_i 64 micros | _ => None end.

(** [datetime_to_iso8601]; the error is its message, left abstract. *)
Definition datetime_to_iso8601 (micros_utc offset_seconds : Z) : option (list Z) :=
  if MAX_OFFSET_SECONDS <? Z.abs offset_seconds then None
  else
    let local := micros_utc + offset_seconds * MICROS_PER_SECOND in
    let sign := if offset_seconds <? 0 then ch "-" else ch "+" in
    let off := Z.abs offset_seconds in
    let '(h, m, s) := (off / 3600, off / 60 mod 60, off mod 60) in
    Some (format_local_micros local ++ sign :: pad 2 h ++ ch ":" :: pad 2 m
            ++ (if s =? 0 then [] else ch ":" :: pad 2 s)).

(** [iso8601_to_datetime] *)
Definition iso8601_to_datetime (s : list Z) : option (Z * Z) :=
  '(local, rest) ← parse_local_micros s;
  offset ← parse_offset rest;
  utc ← try_i 64 (local - offset * MICROS_PER_SECOND);
  Some (utc, offset).

(** ** Dates *)

Lemma pow10_2 : 10 ^ Z.of_nat 2 = 100.
Proof. done. Qed.

Lemma pad2_app z rest : 0 ≤ z < 100 → fixed_digits (pad 2 z ++ rest) 2 = Some (z, rest).
Proof. intros Hz. apply fixed_digits_pad; [lia|by rewrite pow10_2|unfold in_u; lia]. Qed.

(** The year as printed is read back, sign and length rules included. *)
Lemma parse_civil_rest year month day rest s :
  s = pad 2 month ++ ch "-" :: pad 2 day ++ rest → valid_date year month day →
  (rest0 ← strip_prefix (ch "-") (ch "-" :: s);
   '(month, rest) ← fixed_digits rest0 2;
   rest ← strip_prefix (ch "-") rest;
   '(day, rest) ← fixed_digits rest 2;
   if negb ((1 <=? month) && (month <=? 12)) || (day =? 0) || (days_in_month year month <? day) then None
   else Some (days_from_civil year month day, rest)) = Some (days_from_civil year month day, rest).
Proof.
  intros -> [Hm Hd]. assert (days_in_month year month ≤ 31) as H31.
  { unfold days_in_month. repeat case_match; lia. }
  rewrite strip_prefix_cons. cbn [mbind option_bind]. rewrite pad2_app by lia. cbn [mbind option_bind].
  rewrite strip_prefix_cons. cbn [mbind option_bind]. rewrite pad2_app by lia. cbn [mbind option_bind].
  rewrite !(proj2 (Z.leb_le _ _)) by lia. rewrite (proj2 (Z.eqb_neq _ _)), (proj2 (Z.ltb_ge _ _)) by lia. done.
Qed.

Lemma year_digits w year rest :
  0 ≤ year < 10 ^ 12 → (4 ≤ w ≤ 6)%nat →
  span_digits (pad w year ++ ch "-" :: rest) = (pad w year, ch "-" :: rest)
  ∧ parse_i 64 (pad w year) = Some year ∧ (4 ≤ length (pad w year) ≤ 12)%nat.
Proof.
  intros Hy Hw. destruct (pad_spec w year) as (Hv & Hd & Hne & Hl & _); [unfold dec_max; lia|].
  split; [by apply span_digits_app|]. split.
  - unfold parse_i. destruct (pad w year); [done|]. rewrite Hv. apply try_i_Some. unfold in_i. lia.
  - split; [lia|]. pose proof (dec_length year 12) as H12. unfold dec_max in H12. specialize (H12 ltac:(lia) ltac:(lia) ltac:(lia)).
    unfold pad. rewrite length_app, length_replicate. lia.
Qed.

(** A digit is neither sign. *)
Lemma digit_not_sign b : is_digit b = true → b ≠ ch "+" ∧ b ≠ ch "-".
Proof. unfold is_digit. rewrite andb_true_iff, !Z.leb_le. change (ch "+") with 43. change (ch "-") with 45. lia. Qed.

(** The rest of [parse_civil] once the sign is read. *)
Definition civil_after_sign (sign : Z) (rest : list Z) : option (Z * list Z) :=
  let '(year_digits, after) := span_digits rest in
  let year_len := length year_digits in
  if ((sign =? 0) && negb (year_len =? 4)%nat) || negb ((4 <=? year_len)%nat && (year_len <=? 12)%nat) then None
  else
    magnitude ← parse_i 64 year_digits;
    let year := if sign <? 0 then - magnitude else magnitude in
    rest ← strip_prefix (ch "-") after;
    '(month, rest) ← fixed_digits rest 2;
    rest ← strip_prefix (ch "-") rest;
    '(day, rest) ← fixed_digits rest 2;
    if negb ((1 <=? month) && (month <=? 12)) || (day =? 0) || (days_in_month year month <? day) then None
    else Some (days_from_civil year month day, rest).

Lemma civil_after_sign_spec sign w magnitude year month day rest :
  year = (if sign <? 0 then - magnitude else magnitude) →
  0 ≤ magnitude < 10 ^ 12 → (4 ≤ w ≤ 6)%nat → (sign = 0 → w = 4%nat ∧ magnitude ≤ 9999) → valid_date year month day →
  civil_after_sign sign (pad w magnitude ++ ch "-" :: pad 2 month ++ ch "-" :: pad 2 day ++ rest)
  = Some (days_from_civil year month day, rest).
Proof.
  intros Hy Hmag Hw H0 Hv. set (tail := pad 2 month ++ ch "-" :: pad 2 day ++ rest).
  destruct (year_digits w magnitude tail Hmag Hw) as (Hs & Hp & Hl). unfold civil_after_sign. rewrite Hs.
  assert (((sign =? 0) && negb (length (pad w magnitude) =? 4)%nat)
          || negb ((4 <=? length (pad w magnitude))%nat && (length (pad w magnitude) <=? 12)%nat) = false) as ->.
  { rewrite !(proj2 (Nat.leb_le _ _)) by lia. destruct (Z.eqb_spec sign 0) as [Hz|]; [|done].
    destruct (H0 Hz) as [-> H9]. destruct (pad_spec 4 magnitude) as (_ & _ & _ & _ & Hl4); [unfold dec_max; lia|].
    rewrite Hl4 by lia. done. }
  rewrite Hp. cbn [mbind option_bind]. rewrite <-Hy. by apply parse_civil_rest.
Qed.

Lemma parse_format_civil days rest :
  - 2 ^ 36 ≤ days ≤ 2 ^ 36 → parse_civil (format_civil days ++ rest) = Some (days, rest).
Proof.
  intros Hd. pose proof (civil_fits days Hd) as Hfit. pose proof (civil_of_days days) as Hcal.
  unfold format_civil. destruct (civil_from_days days) as [[year month] day]. destruct Hcal as [Hv Heq].
  destruct Hfit as (_ & _ & Hyear).
  assert (∀ pre, (pre ++ ch "-" :: pad 2 month ++ ch "-" :: pad 2 day) ++ rest
                 = pre ++ ch "-" :: pad 2 month ++ ch "-" :: pad 2 day ++ rest) as ->.
  { intros pre. rewrite <-app_assoc. cbn [app]. by rewrite <-app_assoc. }
  destruct ((0 <=? year) && (year <=? 9999)) eqn:E4; [|destruct (Z.ltb_spec year 0) as [Hneg|Hpos]].
  - apply andb_prop in E4 as [H0%Z.leb_le H4%Z.leb_le].
    pose proof (civil_after_sign_spec 0 4 year year month day rest eq_refl ltac:(lia) ltac:(lia) ltac:(done) Hv) as H.
    destruct (pad_spec 4 year) as (_ & Hdig & Hne & _); [unfold dec_max; lia|]. rewrite Heq in H.
    unfold parse_civil. destruct (pad 4 year) as [|b ds]; [done|].
    apply Forall_cons in Hdig as [[Hb1 Hb2]%digit_not_sign _].
    cbn [app mbind option_bind]. rewrite (proj2 (Z.eqb_neq _ _) Hb1), (proj2 (Z.eqb_neq _ _) Hb2).
    exact H.
  - rewrite <-Heq. apply (civil_after_sign_spec (-1) 6 (Z.abs year)); [cbn; lia|lia|lia|done|done].
  - rewrite <-Heq. apply (civil_after_sign_spec 1 6 year); [done|lia|lia|done|done].
Qed.

(** ** Times of day *)

(** What may follow a time: nothing, or an offset. *)
Definition time_end (rest : list Z) : Prop :=
  match rest with [] => True | b :: _ => b = ch "+" ∨ b = ch "-" end.

Lemma time_end_no_digit rest : time_end rest → no_digit rest ∧ strip_point rest = None.
Proof. destruct rest as [|b rest]; [done|]. by intros [-> | ->]. Qed.

Lemma parse_fraction_pad6 sub rest :
  0 ≤ sub < 1000000 → no_digit rest → parse_fraction (pad 6 sub ++ rest) = Some (sub * 1000, rest).
Proof.
  intros Hs Hr. destruct (pad_spec 6 sub) as (Hv & Hd & Hne & _ & Hl); [unfold dec_max; lia|].
  unfold parse_fraction. rewrite span_digits_app by done. rewrite Hl by (simpl; lia).
  cbn [Nat.eqb Nat.ltb Nat.leb orb]. unfold parse_i. destruct (pad 6 sub); [done|].
  rewrite Hv, try_i_Some by (unfold in_i; lia). done.
Qed.

Lemma parse_format_time h m s sub rest :
  0 ≤ h ≤ 23 → 0 ≤ m ≤ 59 → 0 ≤ s ≤ 59 → 0 ≤ sub < 1000000 → time_end rest →
  parse_time_of_day (pad 2 h ++ ch ":" :: pad 2 m ++ ch ":" :: pad 2 s
                       ++ (if sub =? 0 then [] else ch "." :: pad 6 sub) ++ rest)
  = Some ((h * 3600 + m * 60 + s) * NANOS_PER_SECOND + sub * 1000, rest).
Proof.
  intros Hh Hm Hs Hsub Hr. destruct (time_end_no_digit rest Hr) as [Hnd Hpoint]. unfold parse_time_of_day.
  rewrite pad2_app by lia. cbn [mbind option_bind]. rewrite strip_prefix_cons. cbn [mbind option_bind].
  rewrite pad2_app by lia. cbn [mbind option_bind]. rewrite strip_prefix_cons, pad2_app by lia. cbn [mbind option_bind].
  destruct (Z.eqb_spec sub 0) as [->|Hne].
  - cbn [app]. rewrite Hpoint. cbn [mbind option_bind]. rewrite !(proj2 (Z.ltb_ge _ _)) by lia. do 2 f_equal; lia.
  - cbn [app]. unfold strip_point. rewrite strip_prefix_cons, parse_fraction_pad6 by (done || lia).
    cbn [mbind option_bind]. rewrite !(proj2 (Z.ltb_ge _ _)) by lia. done.
Qed.

Lemma parse_format_local micros rest :
  - 2 ^ 65 ≤ micros ≤ 2 ^ 65 → time_end rest →
  parse_local_micros (format_local_micros micros ++ rest) = Some (micros, rest).
Proof.
  intros Hm Hr. set (days := micros / micros_per_day). set (of_day := micros mod micros_per_day).
  assert (micros = micros_per_day * days + of_day) as Hdm by by apply Z.div_mod.
  assert (0 ≤ of_day < micros_per_day) as Hod by by apply Z.mod_pos_bound.
  assert (- 2 ^ 36 ≤ days ≤ 2 ^ 36) as Hdays by (unfold micros_per_day, SECONDS_PER_DAY, MICROS_PER_SECOND in *; lia).
  unfold format_local_micros. fold days of_day.
  rewrite !wrap_i_id by (lia || (unfold in_i, micros_per_day, SECONDS_PER_DAY, MICROS_PER_SECOND in *; lia)).
  set (sub := of_day mod MICROS_PER_SECOND). set (sod := of_day / MICROS_PER_SECOND).
  assert (of_day = MICROS_PER_SECOND * sod + sub ∧ 0 ≤ sub < 1000000) as [Hsub Hsub'].
  { split; [by apply Z.div_mod|by apply Z.mod_pos_bound]. }
  unfold micros_per_day, SECONDS_PER_DAY, MICROS_PER_SECOND in *. assert (0 ≤ sod < 86400) as Hsod by lia.
  unfold parse_local_micros. rewrite <-app_assoc, parse_format_civil by done. cbn [mbind option_bind app].
  rewrite strip_prefix_cons. cbn [mbind option_bind]. rewrite <-!app_assoc. cbn [app]. rewrite <-!app_assoc. cbn [app].
  rewrite <-!app_assoc. rewrite parse_format_time; [|divlia|divlia|divlia|done|done].
  cbn [mbind option_bind]. do 2 f_equal. unfold micros_per_day, SECONDS_PER_DAY, MICROS_PER_SECOND, NANOS_PER_SECOND.
  assert (sod / 3600 * 3600 + sod / 60 mod 60 * 60 + sod mod 60 = sod) as -> by divlia.
  replace (sod * 1000000000 + sub * 1000) with ((sod * 1000000 + sub) * 1000) by lia.
  rewrite Z.div_mul by lia. lia.
Qed.

(** ** Offsets *)

Definition format_offset (offset_seconds : Z) : list Z :=
  let sign := if offset_seconds <? 0 then ch "-" else ch "+" in
  let off := Z.abs offset_seconds in
  sign :: pad 2 (off / 3600) ++ ch ":" :: pad 2 (off / 60 mod 60)
    ++ (if off mod 60 =? 0 then [] else ch ":" :: pad 2 (off mod 60)).

Lemma parse_format_offset offset :
  Z.abs offset ≤ MAX_OFFSET_SECONDS → parse_offset (format_offset offset) = Some offset.
Proof.
  intros Ho. set (off := Z.abs offset) in *. change MAX_OFFSET_SECONDS with 64800 in Ho.
  assert (0 ≤ off) by lia. assert (0 ≤ off / 3600 < 100) as Hh by divlia.
  unfold parse_offset, format_offset. fold off. rewrite decide_False by (destruct (offset <? 0); discriminate).
  assert ((if (if offset <? 0 then ch "-" else ch "+") =? ch "+"
           then Some (false, pad 2 (off / 3600) ++ ch ":" :: pad 2 (off / 60 mod 60) ++ (if off mod 60 =? 0 then [] else ch ":" :: pad 2 (off mod 60)))
           else if (if offset <? 0 then ch "-" else ch "+") =? ch "-"
           then Some (true, pad 2 (off / 3600) ++ ch ":" :: pad 2 (off / 60 mod 60) ++ (if off mod 60 =? 0 then [] else ch ":" :: pad 2 (off mod 60)))
           else None)
          = Some (offset <? 0, pad 2 (off / 3600) ++ ch ":" :: pad 2 (off / 60 mod 60) ++ (if off mod 60 =? 0 then [] else ch ":" :: pad 2 (off mod 60)))) as ->
    by by destruct (offset <? 0).
  cbn [mbind option_bind]. rewrite pad2_app by lia. cbn [mbind option_bind]. rewrite strip_prefix_cons.
  cbn [mbind option_bind]. rewrite pad2_app by divlia. cbn [mbind option_bind].
  assert (match strip_prefix (ch ":") (if off mod 60 =? 0 then [] else ch ":" :: pad 2 (off mod 60)) with
          | Some after => '(secs, after) ← fixed_digits after 2; match after with [] => Some secs | _ => None end
          | None => match (if off mod 60 =? 0 then [] else ch ":" :: pad 2 (off mod 60)) with [] => Some 0 | _ => None end
          end = Some (off mod 60)) as ->.
  { destruct (Z.eqb_spec (off mod 60) 0) as [->|Hne]; [done|]. rewrite strip_prefix_cons.
    rewrite <-(app_nil_r (pad 2 _)), pad2_app by divlia. done. }
  cbn [mbind option_bind]. rewrite !(proj2 (Z.ltb_ge _ _)) by divlia. cbn [orb].
  assert (off / 3600 * 3600 + off / 60 mod 60 * 60 + off mod 60 = off) as -> by divlia.
  rewrite try_i_Some by (unfold in_i; lia). cbn [mbind option_bind].
  change MAX_OFFSET_SECONDS with 64800. rewrite (proj2 (Z.ltb_ge _ _)) by lia. f_equal.
  unfold off. destruct (Z.ltb_spec offset 0); lia.
Qed.

Lemma datetime_text micros_utc offset :
  Z.abs offset ≤ MAX_OFFSET_SECONDS →
  datetime_to_iso8601 micros_utc offset
  = Some (format_local_micros (micros_utc + offset * MICROS_PER_SECOND) ++ format_offset offset).
Proof. intros Ho. unfold datetime_to_iso8601. by rewrite (proj2 (Z.ltb_ge _ _)) by lia. Qed.

Lemma date_roundtrip days : in_i 32 days → iso8601_to_date (date_to_iso8601 days) = Some days.
Proof.
  intros Hd. unfold iso8601_to_date, date_to_iso8601. rewrite <-(app_nil_r (format_civil days)).
  rewrite parse_format_civil by (unfold in_i in Hd; lia). cbn [mbind option_bind]. by apply try_i_Some.
Qed.

Lemma local_datetime_roundtrip micros :
  in_i 64 micros → iso8601_to_local_datetime (local_datetime_to_iso8601 micros) = Some micros.
Proof.
  intros Hm. unfold iso8601_to_local_datetime, local_datetime_to_iso8601.
  rewrite <-(app_nil_r (format_local_micros micros)).
  rewrite parse_format_local by (done || (unfold in_i in Hm; lia)). cbn [mbind option_bind]. by apply try_i_Some.
Qed.

Lemma datetime_roundtrip micros_utc offset :
  in_i 64 micros_utc → Z.abs offset ≤ MAX_OFFSET_SECONDS →
  ∃ text, datetime_to_iso8601 micros_utc offset = Some text ∧ iso8601_to_datetime text = Some (micros_utc, offset).
Proof.
  intros Hm Ho. rewrite datetime_text by done. eexists. split; [done|]. unfold iso8601_to_datetime.
  rewrite parse_format_local.
  - cbn [mbind option_bind]. rewrite parse_format_offset by done. cbn [mbind option_bind].
    replace (micros_utc + offset * MICROS_PER_SECOND - offset * MICROS_PER_SECOND) with micros_utc by lia.
    by rewrite try_i_Some.
  - unfold in_i, MAX_OFFSET_SECONDS, MICROS_PER_SECOND in *. lia.
  - unfold format_offset. destruct (offset <? 0); [by right|by left].
Qed.

(** C37: every representable date, local date-time and date-time has text that
    parses back to the same value (years beyond four digits and before 0
    included, and local times past the 64-bit range), and the only date-times
    without text are those whose offset is outside 18 hours. *)
Theorem iso8601_roundtrip :
  (∀ days, in_i 32 days → iso8601_to_date (date_to_iso8601 days) = Some days) ∧
  (∀ micros, in_i 64 micros → iso8601_to_local_datetime (local_datetime_to_iso8601 micros) = Some micros) ∧
  (∀ micros_utc offset, in_i 64 micros_utc → in_i 32 offset →
     if bool_decide (Z.abs offset ≤ MAX_OFFSET_SECONDS) then
       ∃ text, datetime_to_iso8601 micros_utc offset = Some text ∧ iso8601_to_datetime text = Some (micros_utc, offset)
     else datetime_to_iso8601 micros_utc offset = None).
Proof.
  split; [exact date_roundtrip|]. split; [exact local_datetime_roundtrip|]. intros micros offset Hm _.
  case_bool_decide as Ho; [by apply datetime_roundtrip|].
  unfold datetime_to_iso8601. by rewrite (proj2 (Z.ltb_lt _ _)) by lia.
Qed.
End Iso8601.
