(* ===== verification/Duration.v ===== *)
(** * ISO 8601 durations

    Models [duration_to_iso8601], [iso8601_to_duration] and
    [duration_component] of [crates/core-storage/src/types.rs].  The nanosecond
    sums of the parser are [i128]; the three ordered components it can add stay
    far within it, so they are plain integers here. *)

From Stdlib Require Import Ascii.
From S2P Require Import Prelude Bytes Decimal Calendar Iso8601.

Module Duration.
Import Iso8601.

(** [digits.trim_end_matches('0')] *)
Fixpoint trim_zeros (l : list Z) : list Z :=
  match l with
  | [] => []
  | b :: l => match trim_zeros l with [] => if b =? 48 then [] else [b] | l => b :: l end
  end.

(** [{sign}{n}{unit}] *)
Definition component (neg : bool) (n unit : Z) : list Z :=
  (if neg then [ch "-"] else []) ++ dec n ++ [unit].

(** [duration_to_iso8601] *)
Definition duration_to_iso8601 (months days nanos : Z) : list Z :=
  let years := Z.abs months / 12 in
  let rest_months := Z.abs months mod 12 in
  let out := [ch "P"] in
  let out := if years =? 0 then out else out ++ component (months <? 0) years (ch "Y") in
  let out := if rest_months =? 0 then out else out ++ component (months <? 0) rest_months (ch "M") in
  let out := if days =? 0 then out else out ++ component (days <? 0) (Z.abs days) (ch "D") in
  let out :=
    if nanos =? 0 then out
    else
      let neg := nanos <? 0 in
      let abs := Z.abs nanos in
      let hours := abs / NANOS_PER_HOUR in
      let minutes := abs mod NANOS_PER_HOUR / NANOS_PER_MINUTE in
      let seconds := abs mod NANOS_PER_MINUTE / NANOS_PER_SECOND in
      let frac := abs mod NANOS_PER_SECOND in
      let out := out ++ [ch "T"] in
      let out := if hours =? 0 then out else out ++ component neg hours (ch "H") in
      let out := if minutes =? 0 then out else out ++ component neg minutes (ch "M") in
      if (seconds =? 0) && (frac =? 0) then out
      else
        out ++ (if neg then [ch "-"] else []) ++ dec seconds
            ++ (if frac =? 0 then [] else ch "." :: trim_zeros (pad 9 frac)) ++ [ch "S"] in
  if decide (out = [ch "P"]) then out ++ [ch "T"; 48; ch "S"] else out.

(** [duration_component] *)
Definition duration_component (s : list Z) : option (Z * Z * option Z * list Z) :=
  let '(negative, rest) := match strip_prefix (ch "-") s with Some rest => (true, rest) | None => (false, s) end in
  let '(ds, rest) := span_digits rest in
  if (length ds =? 0)%nat then None
  else
    magnitude ← parse_i 64 ds;
    '(frac, rest) ← match strip_point rest with
                    | None => Some (None, rest)
                    | Some after_dot => '(f, rest) ← parse_fraction after_dot; Some (Some f, rest)
                    end;
    match rest with
    | [] => None
    | unit :: rest => Some (if negative : bool then - magnitude else magnitude, unit, frac, rest)
    end.

Definition date_rank (unit : Z) : option Z :=
  if unit =? ch "Y" then Some 1 else if unit =? ch "M" then Some 2
  else if unit =? ch "W" then Some 3 else if unit =? ch "D" then Some 4 else None.

(** The loop over the date part: months, days, whether any component was
    seen. *)
Fixpoint date_loop (fuel : nat) (cursor : list Z) (order months days : Z) (any : bool) : option (Z * Z * bool) :=
  match cursor, fuel with
  | [], _ => Some (months, days, any)
  | _, O => None
  | _, S fuel =>
      '(n, unit, frac, next) ← duration_component cursor;
      match frac with
      | Some _ => None
      | None =>
          rank ← date_rank unit;
          if rank <=? order then None
          else
            '(months, days) ←
              (if unit =? ch "Y" then x ← try_i 64 (n * 12); m ← try_i 64 (months + x); Some (m, days)
               else if unit =? ch "M" then m ← try_i 64 (months + n); Some (m, days)
               else if unit =? ch "W" then x ← try_i 64 (n * 7); d ← try_i 64 (days + x); Some (months, d)
               else d ← try_i 64 (days + n); Some (months, d));
            date_loop fuel next rank months days true
      end
  end.

Definition time_rank (unit : Z) : option Z :=
  if unit =? ch "H" then Some 1 else if unit =? ch "M" then Some 2 else if unit =? ch "S" then Some 3 else None.

(** The loop over the time part. *)
Fixpoint time_loop (fuel : nat) (cursor : list Z) (order nanos : Z) (any : bool) : option (Z * bool) :=
  match cursor, fuel with
  | [], _ => Some (nanos, any)
  | _, O => None
  | _, S fuel =>
      '(n, unit, frac, next) ← duration_component cursor;
      rank ← time_rank unit;
      if (rank <=? order) || (match frac with Some _ => true | None => false end && negb (unit =? ch "S")) then None
      else
        let scale := if unit =? ch "H" then NANOS_PER_HOUR
                     else if unit =? ch "M" then NANOS_PER_MINUTE else NANOS_PER_SECOND in
        let part := n * scale in
        let part := match frac with
                    | Some f => part + (if (n <? 0) || (match cursor with c :: _ => c =? ch "-" | [] => false end) then - f else f)
                    | None => part
                    end in
        time_loop fuel next rank (nanos + part) true
  end.

(** [body.split_once('T')] *)
Fixpoint split_once (c : Z) (l : list Z) : option (list Z * list Z) :=
  match l with
  | [] => None
  | b :: l => if b =? c then Some ([], l) else '(d, t) ← split_once c l; Some (b :: d, t)
  end.

(** [iso8601_to_duration]; each loop is given as much fuel as its input is
    long, and every component takes at least two bytes. *)
Definition iso8601_to_duration (s : list Z) : option (Z * Z * Z) :=
  let '(negate_all, rest) := match strip_prefix (ch "-") s with Some rest => (true, rest) | None => (false, s) end in
  body ← strip_prefix (ch "P") rest;
  let '(date_part, time_part) := match split_once (ch "T") body with
                                 | Some (d, t) => (d, Some t)
                                 | None => (body, None)
                                 end in
  '(months, days, any) ← date_loop (length date_part) date_part 0 0 0 false;
  '(nanos, any) ← match time_part with
                  | None => Some (0, any)
                  | Some [] => None
                  | Some t => time_loop (length t) t 0 0 any
                  end;
  if any : bool then
    '(months, days, nanos) ←
      (if negate_all : bool
       then m ← try_i 64 (- months); d ← try_i 64 (- days); n ← try_i 128 (- nanos); Some (m, d, n)
       else Some (months, days, nanos));
    m ← try_i 32 months; d ← try_i 32 days; n ← try_i 64 nanos; Some (m, d, n)
  else None.

(** ** Components *)

(** A unit letter: what ends a component. *)
Definition is_unit (u : Z) : Prop := is_digit u = false ∧ u ≠ ch "." ∧ u ≠ ch ",".

Lemma strip_point_ne u rest : u ≠ ch "." → u ≠ ch "," → strip_point (u :: rest) = None.
Proof. intros H1 H2. unfold strip_point. by rewrite !strip_prefix_ne. Qed.

Lemma strip_sign (neg : bool) (l : list Z) :
  match l with b :: _ => b ≠ ch "-" | [] => True end →
  match strip_prefix (ch "-") ((if neg then [ch "-"] else []) ++ l) with
  | Some rest => (true, rest) | None => (false, (if neg then [ch "-"] else []) ++ l) end = (neg, l).
Proof.
  intros Hl. destruct neg; cbn [app]; [by rewrite strip_prefix_cons|].
  destruct l as [|b l]; [done|]. by rewrite strip_prefix_ne.
Qed.

Lemma dec_head n rest : 0 ≤ n < dec_max → match dec n ++ rest with b :: _ => b ≠ ch "-" | [] => True end.
Proof.
  intros Hn. destruct (dec_spec n Hn) as (_ & Hd & Hne). destruct (dec n) as [|b ds]; [done|].
  apply Forall_cons in Hd as [Hb _]. by apply digit_not_sign in Hb as [_ ?].
Qed.

Lemma u64_dec n : 0 ≤ n < 2 ^ 64 → 0 ≤ n < dec_max.
Proof. unfold dec_max. lia. Qed.

Lemma parse_i_dec n : 0 ≤ n < 2 ^ 63 → (length (dec n) =? 0)%nat = false ∧ parse_i 64 (dec n) = Some n.
Proof.
  intros Hn. destruct (dec_spec n (u64_dec n ltac:(lia))) as (Hv & _ & Hne). split; [by destruct (dec n)|].
  unfold parse_i. destruct (dec n); [done|]. rewrite Hv. apply try_i_Some. unfold in_i. lia.
Qed.

Lemma component_spec neg n unit rest :
  0 ≤ n < 2 ^ 63 → is_unit unit →
  duration_component (component neg n unit ++ rest) = Some (if neg then - n else n, unit, None, rest).
Proof.
  intros Hn (Hu & Hd & Hc). destruct (parse_i_dec n Hn) as [Hl Hp].
  destruct (dec_spec n (u64_dec n ltac:(lia))) as (_ & Hdig & _).
  unfold duration_component, component. rewrite <-!app_assoc. rewrite strip_sign by (apply dec_head, u64_dec; lia).
  rewrite span_digits_app by done. rewrite Hl, Hp. cbn [mbind option_bind app].
  rewrite strip_point_ne by done. done.
Qed.

Lemma trim_zeros_spec l : ∃ k, l = trim_zeros l ++ replicate k 48.
Proof.
  induction l as [|b l [k IH]]; [by exists 0%nat|]. cbn [trim_zeros]. destruct (trim_zeros l) as [|c t].
  - destruct (Z.eqb_spec b 48) as [->|Hne].
    + exists (S k). cbn [app replicate] in *. by rewrite IH at 1.
    + exists k. cbn [app] in *. by rewrite IH at 1.
  - exists k. cbn [app] in *. by rewrite IH at 1.
Qed.

(** The fraction as printed: 1 to 9 digits worth [frac] nanoseconds. *)
Lemma parse_fraction_trimmed frac rest :
  0 < frac < NANOS_PER_SECOND → no_digit rest → parse_fraction (trim_zeros (pad 9 frac) ++ rest) = Some (frac, rest).
Proof.
  intros Hf Hr. unfold NANOS_PER_SECOND in Hf.
  destruct (pad_spec 9 frac) as (Hv & Hd & _ & _ & Hl); [unfold dec_max; lia|]. specialize (Hl ltac:(lia) ltac:(simpl; lia)).
  destruct (trim_zeros_spec (pad 9 frac)) as [k Hk]. set (t := trim_zeros (pad 9 frac)) in *.
  assert (dec_val t * 10 ^ Z.of_nat k = frac) as Hval.
  { rewrite <-Hv at 1. rewrite Hk, dec_val_app. pose proof (dec_val_zeros k []) as Hz. rewrite app_nil_r in Hz.
    rewrite Hz, length_replicate. change (dec_val []) with 0. lia. }
  assert (length t + k = 9)%nat as Hlen by (rewrite Hk, length_app, length_replicate in Hl; lia).
  assert (digits t) as Hdt by (rewrite Hk in Hd; by apply Forall_app in Hd as [? _]).
  assert (t ≠ []) as Hne by (intros ->; change (dec_val []) with 0 in Hval; lia).
  unfold parse_fraction. rewrite span_digits_app by done.
  assert ((length t =? 0)%nat || (9 <? length t)%nat = false) as ->.
  { rewrite (proj2 (Nat.ltb_ge _ _)) by lia. by destruct t. }
  assert (0 ≤ dec_val t) as H0 by (assert (0 < 10 ^ Z.of_nat k) by lia; nia).
  assert (parse_i 64 t = Some (dec_val t)) as ->.
  { unfold parse_i. destruct t; [done|]. apply try_i_Some. unfold in_i. assert (1 ≤ 10 ^ Z.of_nat k) by lia. nia. }
  cbn [mbind option_bind]. by replace (9 - length t)%nat with k by lia; rewrite Hval.
Qed.

(** ** The parser's loops on printed text *)

(** A component left out when it is zero. *)
Definition opt_component (neg : bool) (n unit : Z) : list Z := if n =? 0 then [] else component neg n unit.

Definition signed (neg : bool) (n : Z) : Z := if neg then - n else n.

Lemma component_cons neg n unit : ∃ b l, component neg n unit = b :: l ∧ (1 ≤ length l)%nat.
Proof.
  unfold component. destruct neg; cbn [app]; [eexists _, _; split; [done|rewrite length_app; simpl; lia]|].
  destruct (dec n) as [|b l] eqn:E; [exfalso|eexists b, (l ++ [unit]); split; [done|rewrite length_app; simpl; lia]].
  by apply dec_nonempty in E.
Qed.

Lemma date_loop_nil fuel order months days any : date_loop fuel [] order months days any = Some (months, days, any).
Proof. by destruct fuel. Qed.

Lemma time_loop_nil fuel order nanos any : time_loop fuel [] order nanos any = Some (nanos, any).
Proof. by destruct fuel. Qed.

Lemma date_step fuel neg n unit rank rest order months days any :
  0 ≤ n < 2 ^ 63 → date_rank unit = Some rank → order < rank →
  (length (component neg n unit ++ rest) ≤ fuel)%nat →
  ∃ fuel', (length rest ≤ fuel')%nat ∧
  date_loop fuel (component neg n unit ++ rest) order months days any =
    '(months, days) ←
      (if unit =? ch "Y" then x ← try_i 64 (signed neg n * 12); m ← try_i 64 (months + x); Some (m, days)
       else if unit =? ch "M" then m ← try_i 64 (months + signed neg n); Some (m, days)
       else if unit =? ch "W" then x ← try_i 64 (signed neg n * 7); d ← try_i 64 (days + x); Some (months, d)
       else d ← try_i 64 (days + signed neg n); Some (months, d));
    date_loop fuel' rest rank months days true.
Proof.
  intros Hn Hr Ho Hf. destruct (component_cons neg n unit) as (b & l & Hc & Hl).
  assert (is_unit unit) as Hu.
  { unfold date_rank in Hr. repeat (case_match; [match goal with H : _ =? _ = true |- _ => apply Z.eqb_eq in H as -> end; by split_and!|]); done. }
  pose proof (component_spec neg n unit rest Hn Hu) as Hcomp. rewrite Hc in *. cbn [app length] in *.
  destruct fuel as [|fuel]; [lia|]. exists fuel. rewrite length_app in Hf. split; [lia|].
  cbn [date_loop]. rewrite Hcomp. cbn [mbind option_bind]. rewrite Hr. cbn [mbind option_bind].
  by rewrite (proj2 (Z.leb_gt _ _)) by lia.
Qed.

Lemma signed_0 neg : signed neg 0 = 0.
Proof. by destruct neg. Qed.

Lemma signed_bound neg n b : 0 ≤ n < b → - b < signed neg n < b.
Proof. unfold signed. destruct neg; lia. Qed.

(** The days of the date part as printed. *)
Lemma date_days fuel negd days order m any :
  let text := opt_component negd days (ch "D") in
  0 ≤ days < 2 ^ 32 → order < 4 → (length text ≤ fuel)%nat →
  date_loop fuel text order m 0 any = Some (m, signed negd days, any || negb (days =? 0)).
Proof.
  cbv zeta. intros Hd Ho Hf. unfold opt_component in *. pose proof (signed_bound negd days _ Hd).
  destruct (Z.eqb_spec days 0) as [->|Hne].
  - by rewrite date_loop_nil, orb_false_r, signed_0.
  - rewrite <-(app_nil_r (component _ _ _)) in Hf |- *.
    destruct (date_step fuel negd days (ch "D") 4 [] order m 0 any ltac:(lia) eq_refl Ho Hf) as (fu' & _ & ->).
    change (ch "D" =? ch "Y") with false. change (ch "D" =? ch "M") with false. change (ch "D" =? ch "W") with false.
    cbv iota. rewrite Z.add_0_l.
    rewrite try_i_Some by (unfold in_i; lia). cbn [mbind option_bind]. by rewrite date_loop_nil, orb_true_r.
Qed.

Lemma date_months fuel negm months negd days order m any :
  let text := opt_component negm months (ch "M") ++ opt_component negd days (ch "D") in
  0 ≤ months < 12 → 0 ≤ days < 2 ^ 32 → order < 2 → - 2 ^ 40 ≤ m ≤ 2 ^ 40 → (length text ≤ fuel)%nat →
  date_loop fuel text order m 0 any
  = Some (m + signed negm months, signed negd days, any || negb (months =? 0) || negb (days =? 0)).
Proof.
  cbv zeta. intros Hm Hd Ho Hb Hf. unfold opt_component at 1 in Hf. unfold opt_component at 1.
  pose proof (signed_bound negm months _ Hm). destruct (Z.eqb_spec months 0) as [->|Hne].
  - cbn [app] in *. rewrite date_days by (lia || done). by rewrite orb_false_r, signed_0, Z.add_0_r.
  - destruct (date_step fuel negm months (ch "M") 2 _ order m 0 any ltac:(lia) eq_refl Ho Hf) as (fu' & Hf' & ->).
    change (ch "M" =? ch "Y") with false. change (ch "M" =? ch "M") with true. cbv iota.
    rewrite try_i_Some by (unfold in_i; lia). cbn [mbind option_bind]. rewrite date_days by (lia || done).
    by rewrite orb_true_r.
Qed.

Lemma date_years fuel negm years months negd days :
  let text := opt_component negm years (ch "Y") ++ opt_component negm months (ch "M") ++ opt_component negd days (ch "D") in
  0 ≤ years < 2 ^ 32 → 0 ≤ months < 12 → 0 ≤ days < 2 ^ 32 → (length text ≤ fuel)%nat →
  date_loop fuel text 0 0 0 false
  = Some (signed negm years * 12 + signed negm months, signed negd days,
          negb (years =? 0) || negb (months =? 0) || negb (days =? 0)).
Proof.
  cbv zeta. intros Hy Hm Hd Hf. unfold opt_component at 1 in Hf. unfold opt_component at 1.
  pose proof (signed_bound negm years _ Hy). destruct (Z.eqb_spec years 0) as [->|Hne].
  - cbn [app] in *. rewrite date_months by (lia || done). by rewrite signed_0.
  - destruct (date_step fuel negm years (ch "Y") 1 _ 0 0 0 false ltac:(lia) eq_refl ltac:(lia) Hf) as (fu' & Hf' & ->).
    change (ch "Y" =? ch "Y") with true. cbv iota.
    rewrite (try_i_Some 64 (signed negm years * 12)) by (unfold in_i; lia). cbn [mbind option_bind].
    rewrite Z.add_0_l, try_i_Some by (unfold in_i; lia). cbn [mbind option_bind].
    rewrite date_months by (done || lia). done.
Qed.

(** *** The time part *)

Lemma time_step fuel neg n unit rank rest order nanos any :
  0 ≤ n < 2 ^ 63 → time_rank unit = Some rank → order < rank →
  (length (component neg n unit ++ rest) ≤ fuel)%nat →
  ∃ fuel', (length rest ≤ fuel')%nat ∧
  time_loop fuel (component neg n unit ++ rest) order nanos any =
    time_loop fuel' rest rank
      (nanos + signed neg n * (if unit =? ch "H" then NANOS_PER_HOUR
                               else if unit =? ch "M" then NANOS_PER_MINUTE else NANOS_PER_SECOND)) true.
Proof.
  intros Hn Hr Ho Hf. destruct (component_cons neg n unit) as (b & l & Hc & Hl).
  assert (is_unit unit) as Hu.
  { unfold time_rank in Hr. repeat (case_match; [match goal with H : _ =? _ = true |- _ => apply Z.eqb_eq in H as -> end; by split_and!|]); done. }
  pose proof (component_spec neg n unit rest Hn Hu) as Hcomp. rewrite Hc in *. cbn [app length] in *.
  destruct fuel as [|fuel]; [lia|]. exists fuel. rewrite length_app in Hf. split; [lia|].
  cbn [time_loop]. rewrite Hcomp. cbn [mbind option_bind]. rewrite Hr. cbn [mbind option_bind].
  by rewrite (proj2 (Z.leb_gt _ _)) by lia.
Qed.

(** The seconds as printed. *)
Definition seconds_text (neg : bool) (seconds frac : Z) : list Z :=
  if (seconds =? 0) && (frac =? 0) then []
  else (if neg then [ch "-"] else []) ++ dec seconds
         ++ (if frac =? 0 then [] else ch "." :: trim_zeros (pad 9 frac)) ++ [ch "S"].

Lemma time_seconds fuel neg seconds frac order nanos any :
  0 ≤ seconds < 60 → 0 ≤ frac < NANOS_PER_SECOND → order < 3 → (length (seconds_text neg seconds frac) ≤ fuel)%nat →
  time_loop fuel (seconds_text neg seconds frac) order nanos any
  = Some (nanos + signed neg (seconds * NANOS_PER_SECOND + frac), any || negb (seconds =? 0) || negb (frac =? 0)).
Proof.
  intros Hs Hfr Ho Hf. destruct (Z.eqb_spec frac 0) as [->|Hne].
  - assert (seconds_text neg seconds 0 = opt_component neg seconds (ch "S")) as Ht.
    { unfold seconds_text, opt_component, component. rewrite Z.eqb_refl, andb_true_r. done. }
    rewrite Ht in *. unfold opt_component in *. destruct (Z.eqb_spec seconds 0) as [->|Hsn].
    + rewrite time_loop_nil. rewrite !orb_false_r, Z.mul_0_l, Z.add_0_l, signed_0. do 2 f_equal. lia.
    + rewrite <-(app_nil_r (component _ _ _)) in Hf |- *.
      destruct (time_step fuel neg seconds (ch "S") 3 [] order nanos any ltac:(lia) eq_refl Ho Hf) as (fu' & _ & ->).
      rewrite time_loop_nil, orb_true_r. change (ch "S" =? ch "H") with false. change (ch "S" =? ch "M") with false.
      do 2 f_equal. unfold signed. destruct neg; lia.
  - unfold seconds_text in *. rewrite (proj2 (Z.eqb_neq frac 0) Hne), andb_false_r in *.
    set (text := _ ++ _) in *.
    assert (duration_component text = Some (signed neg seconds, ch "S", Some frac, [])) as Hc.
    { unfold duration_component, text. destruct (parse_i_dec seconds ltac:(lia)) as [Hl Hp].
      destruct (dec_spec seconds (u64_dec seconds ltac:(lia))) as (_ & Hdig & _).
      rewrite strip_sign by (apply dec_head, u64_dec; lia). cbn [app].
      rewrite span_digits_app by done. rewrite Hl, Hp. cbn [mbind option_bind]. unfold strip_point. rewrite strip_prefix_cons.
      rewrite parse_fraction_trimmed by (done || lia). done. }
    assert (∃ b l, text = b :: l ∧ (b =? ch "-") = neg) as (b & l & Ht & Hb).
    { unfold text. destruct neg; [by eexists _, _|]. cbn [app]. pose proof (dec_head seconds [] (u64_dec seconds ltac:(lia))) as Hh.
      destruct (dec seconds) as [|b l] eqn:E; [by apply dec_nonempty in E|]. eexists _, _. split; [done|]. by apply Z.eqb_neq. }
    rewrite Ht in *. destruct fuel as [|fuel]; [simpl in Hf; lia|]. cbn [time_loop]. rewrite Hc. cbn [mbind option_bind].
    change (time_rank (ch "S")) with (Some 3). cbn [mbind option_bind]. rewrite (proj2 (Z.leb_gt _ _)) by lia.
    change (ch "S" =? ch "S") with true. cbn [negb andb orb]. rewrite time_loop_nil, orb_true_r, Hb.
    change (ch "S" =? ch "H") with false. change (ch "S" =? ch "M") with false. do 2 f_equal. unfold signed.
    destruct neg; [rewrite orb_true_r; lia|]. rewrite (proj2 (Z.ltb_ge _ _)) by lia. simpl. lia.
Qed.

Lemma time_minutes fuel neg minutes seconds frac order nanos any :
  let text := opt_component neg minutes (ch "M") ++ seconds_text neg seconds frac in
  0 ≤ minutes < 60 → 0 ≤ seconds < 60 → 0 ≤ frac < NANOS_PER_SECOND → order < 2 → (length text ≤ fuel)%nat →
  time_loop fuel text order nanos any
  = Some (nanos + signed neg (minutes * NANOS_PER_MINUTE + seconds * NANOS_PER_SECOND + frac),
          any || negb (minutes =? 0) || negb (seconds =? 0) || negb (frac =? 0)).
Proof.
  cbv zeta. intros Hm Hs Hfr Ho Hf. unfold opt_component in *. destruct (Z.eqb_spec minutes 0) as [->|Hne].
  - cbn [app] in *. rewrite time_seconds by (lia || done). by rewrite orb_false_r, Z.mul_0_l, Z.add_0_l.
  - destruct (time_step fuel neg minutes (ch "M") 2 _ order nanos any ltac:(lia) eq_refl Ho Hf) as (fu' & Hf' & ->).
    change (ch "M" =? ch "H") with false. change (ch "M" =? ch "M") with true. cbv iota.
    rewrite time_seconds by (lia || done). rewrite orb_true_r. do 2 f_equal. unfold signed. destruct neg; lia.
Qed.

Lemma time_hours fuel neg hours minutes seconds frac any :
  let text := opt_component neg hours (ch "H") ++ opt_component neg minutes (ch "M") ++ seconds_text neg seconds frac in
  0 ≤ hours < 2 ^ 63 → 0 ≤ minutes < 60 → 0 ≤ seconds < 60 → 0 ≤ frac < NANOS_PER_SECOND → (length text ≤ fuel)%nat →
  time_loop fuel text 0 0 any
  = Some (signed neg (hours * NANOS_PER_HOUR + minutes * NANOS_PER_MINUTE + seconds * NANOS_PER_SECOND + frac),
          any || negb (hours =? 0) || negb (minutes =? 0) || negb (seconds =? 0) || negb (frac =? 0)).
Proof.
  cbv zeta. intros Hh Hm Hs Hfr Hf. unfold opt_component at 1 in Hf. unfold opt_component at 1.
  destruct (Z.eqb_spec hours 0) as [->|Hne].
  - cbn [app] in *. rewrite time_minutes by (lia || done). by rewrite orb_false_r, Z.mul_0_l, !Z.add_0_l.
  - destruct (time_step fuel neg hours (ch "H") 1 _ 0 0 any ltac:(lia) eq_refl ltac:(lia) Hf) as (fu' & Hf' & ->).
    change (ch "H" =? ch "H") with true. cbv iota.
    rewrite time_minutes by (lia || done). rewrite orb_true_r. do 2 f_equal. unfold signed. destruct neg; lia.
Qed.

(** ** The whole text *)

Definition date_text (months days : Z) : list Z :=
  opt_component (months <? 0) (Z.abs months / 12) (ch "Y") ++ opt_component (months <? 0) (Z.abs months mod 12) (ch "M")
    ++ opt_component (days <? 0) (Z.abs days) (ch "D").

Definition time_text (nanos : Z) : list Z :=
  let neg := nanos <? 0 in let abs := Z.abs nanos in
  opt_component neg (abs / NANOS_PER_HOUR) (ch "H") ++ opt_component neg (abs mod NANOS_PER_HOUR / NANOS_PER_MINUTE) (ch "M")
    ++ seconds_text neg (abs mod NANOS_PER_MINUTE / NANOS_PER_SECOND) (abs mod NANOS_PER_SECOND).

Lemma if_app {A} (b : bool) (out l : list A) : (if b then out else out ++ l) = out ++ (if b then [] else l).
Proof. destruct b; [by rewrite app_nil_r|done]. Qed.

Lemma abs_eqb_0 z : (Z.abs z =? 0) = (z =? 0).
Proof. destruct (Z.eqb_spec z 0), (Z.eqb_spec (Z.abs z) 0); lia. Qed.

Lemma duration_text months days nanos :
  duration_to_iso8601 months days nanos =
  let out := ch "P" :: date_text months days ++ (if nanos =? 0 then [] else ch "T" :: time_text nanos) in
  if decide (out = [ch "P"]) then [ch "P"; ch "T"; 48; ch "S"] else out.
Proof.
  unfold duration_to_iso8601, date_text, time_text, opt_component, seconds_text. rewrite abs_eqb_0.
  cbv zeta. rewrite !if_app, <-!app_assoc. destruct (nanos =? 0).
  - rewrite !app_nil_r. change ([ch "P"] ++ ?l) with (ch "P" :: l). case_decide as Ho; [by rewrite Ho|done].
  - rewrite <-?app_assoc. change ([ch "P"] ++ ?l) with (ch "P" :: l). change ([ch "T"] ++ ?l) with (ch "T" :: l).
    case_decide as Ho; [|done]. exfalso. apply (f_equal length) in Ho. cbn [length] in Ho.
    rewrite !length_app in Ho. cbn [length] in Ho. lia.
Qed.

Definition no_T (l : list Z) : Prop := Forall (λ b, b ≠ ch "T") l.

Lemma component_no_T neg n unit : 0 ≤ n < 2 ^ 64 → unit ≠ ch "T" → no_T (component neg n unit).
Proof.
  intros Hn Hu. destruct (dec_spec n (u64_dec n Hn)) as (_ & Hd & _). unfold no_T, component. apply Forall_app. split.
  - destruct neg; [|constructor]. by repeat constructor.
  - apply Forall_app. split; [|by repeat constructor]. eapply Forall_impl; [exact Hd|]. intros b Hb ->. done.
Qed.

Lemma opt_component_no_T neg n unit : 0 ≤ n < 2 ^ 64 → unit ≠ ch "T" → no_T (opt_component neg n unit).
Proof. intros Hn Hu. unfold opt_component. destruct (n =? 0); [constructor|by apply component_no_T]. Qed.

Lemma split_once_none c l : Forall (λ b, b ≠ c) l → split_once c l = None.
Proof. induction 1 as [|b l Hb Hl IH]; [done|]. cbn [split_once]. by rewrite (proj2 (Z.eqb_neq _ _) Hb), IH. Qed.

Lemma split_once_at c l t : Forall (λ b, b ≠ c) l → split_once c (l ++ c :: t) = Some (l, t).
Proof.
  induction 1 as [|b l Hb Hl IH]; cbn [app split_once]; [by rewrite Z.eqb_refl|].
  by rewrite (proj2 (Z.eqb_neq _ _) Hb), IH.
Qed.

Lemma signed_abs z : signed (z <? 0) (Z.abs z) = z.
Proof. unfold signed. destruct (Z.ltb_spec z 0); lia. Qed.

Lemma date_text_spec months days :
  in_i 32 months → in_i 32 days →
  no_T (date_text months days) ∧
  date_loop (length (date_text months days)) (date_text months days) 0 0 0 false
  = Some (months, days, negb (months =? 0) || negb (days =? 0)).
Proof.
  unfold in_i. intros Hm Hd. assert (0 ≤ Z.abs months / 12 < 2 ^ 32) by divlia.
  assert (0 ≤ Z.abs months mod 12 < 12) by divlia. split.
  - apply Forall_app. split; [apply opt_component_no_T; [lia|done]|]. apply Forall_app.
    split; (apply opt_component_no_T; [lia|done]).
  - unfold date_text. rewrite date_years by (done || lia). rewrite signed_abs, abs_eqb_0. do 3 f_equal.
    + pose proof (Z.div_mod (Z.abs months) 12 ltac:(lia)). unfold signed. destruct (Z.ltb_spec months 0); lia.
    + destruct (Z.eqb_spec (Z.abs months / 12) 0), (Z.eqb_spec (Z.abs months mod 12) 0), (Z.eqb_spec months 0);
        try done; exfalso; divlia.
Qed.

Lemma time_text_spec nanos any :
  in_i 64 nanos → nanos ≠ 0 →
  time_text nanos ≠ [] ∧ time_loop (length (time_text nanos)) (time_text nanos) 0 0 any = Some (nanos, true).
Proof.
  unfold in_i. intros Hn Hne. set (abs := Z.abs nanos). assert (0 < abs ≤ 2 ^ 63) as Ha by lia.
  unfold NANOS_PER_HOUR, NANOS_PER_MINUTE, NANOS_PER_SECOND in *.
  assert (time_loop (length (time_text nanos)) (time_text nanos) 0 0 any = Some (nanos, true)) as Hl.
  { unfold time_text. fold abs. rewrite time_hours; [|unfold NANOS_PER_HOUR, NANOS_PER_MINUTE, NANOS_PER_SECOND; divlia..|done].
    unfold NANOS_PER_HOUR, NANOS_PER_MINUTE, NANOS_PER_SECOND. do 2 f_equal.
    - rewrite <-(signed_abs nanos) at 2. fold abs. f_equal. divlia.
    - destruct any; [done|]. rewrite orb_false_l. rewrite <-!negb_andb. apply negb_true_iff. rewrite <-not_true_iff_false.
      rewrite !andb_true_iff, !Z.eqb_eq. divlia. }
  split; [|done]. intros He. rewrite He in Hl. cbn in Hl. congruence.
Qed.

Lemma duration_text_parses (months days nanos : Z) :
  in_i 32 months → in_i 32 days → in_i 64 nanos →
  iso8601_to_duration (duration_to_iso8601 months days nanos) = Some (months, days, nanos).
Proof.
  intros Hm Hd Hn. destruct (date_text_spec months days Hm Hd) as [HT Hdate]. rewrite duration_text. cbv zeta.
  case_decide as Hp.
  - assert (date_text months days = [] ∧ nanos = 0) as [Hdt ->].
    { injection Hp as Hp. destruct (date_text months days); [|done]. split; [done|].
      destruct (Z.eqb_spec nanos 0); [done|discriminate]. }
    rewrite Hdt in Hdate. injection Hdate as <- <-. reflexivity.
  - assert (negb (months =? 0) || negb (days =? 0) = true ∨ nanos ≠ 0) as Hany.
    { destruct (Z.eqb_spec nanos 0) as [->|?]; [left|by right]. destruct (Z.eqb_spec months 0) as [->|]; [|done].
      destruct (Z.eqb_spec days 0) as [->|]; [|done]. done. }
    unfold iso8601_to_duration. rewrite strip_prefix_ne by done. rewrite strip_prefix_cons. cbn [mbind option_bind].
    destruct (Z.eqb_spec nanos 0) as [->|Hne].
    + rewrite app_nil_r, split_once_none by done. rewrite Hdate. cbn [mbind option_bind].
      destruct Hany as [->|?]; [|done]. by rewrite !try_i_Some.
    + rewrite split_once_at, Hdate by done. cbn [mbind option_bind].
      destruct (time_text_spec nanos (negb (months =? 0) || negb (days =? 0)) Hn Hne) as [Htne Htime].
      destruct (time_text nanos) as [|b l]; [done|]. rewrite Htime. cbn [mbind option_bind]. by rewrite !try_i_Some.
Qed.

(** Every duration (any 32-bit months and days, any 64-bit nanoseconds, of
    any signs) prints as text that parses back to exactly it. *)
Theorem duration_roundtrip (months days nanos : Z) :
  in_i 32 months → in_i 32 days → in_i 64 nanos →
  iso8601_to_duration (duration_to_iso8601 months days nanos) = Some (months, days, nanos).
Proof. exact (duration_text_parses months days nanos). Qed.

(** Months of one sign, days of the other, and a negative half second. *)
Lemma duration_roundtrip_witness :
  iso8601_to_duration (duration_to_iso8601 (-14) 3 (-500000000)) = Some (-14, 3, -500000000).
Proof. apply duration_roundtrip; unfold in_i; lia. Defined.
End Duration.
