(* ===== verification/Base64.v ===== *)
(** * Base64

    Models [base64_encode] and [base64_decode] of
    [crates/core-storage/src/types.rs]: standard padded base64, decoded
    strictly.  Bytes and text are lists of bytes; an index out of range is a
    panic ([None]). *)

From Stdlib Require Import Ascii.
From S2P Require Import Prelude Bytes Utf8 Decimal.

Module Base64.

Definition BASE64_ALPHABET : list Z :=
  as_bytes "ABCDEFGHIJKLMNOPQRSTUVWXYZabcdefghijklmnopqrstuvwxyz0123456789+/".

(** The body of the loop of [base64_encode]. *)
Definition encode_chunk (chunk : list Z) : option (list Z) :=
  b0 ← chunk !! 0%nat;
  let b1 := default 0 (chunk !! 1%nat) in
  let b2 := default 0 (chunk !! 2%nat) in
  let n := Z.lor (Z.lor (Z.shiftl b0 16) (Z.shiftl b1 8)) b2 in
  mapM (λ i, if (i <=? length chunk)%nat
             then BASE64_ALPHABET !! Z.to_nat (Z.land (Z.shiftr n (18 - 6 * Z.of_nat i)) 63)
             else Some (ch "=")) (seq 0 4).

(** [base64_encode] *)
Definition base64_encode (bytes : list Z) : option (list Z) :=
  quads ← mapM encode_chunk (chunks (length bytes) 3 bytes); Some (List.concat quads).

Definition sextet (c : Z) : option Z :=
  if (ch "A" <=? c) && (c <=? ch "Z") then Some (c - ch "A")
  else if (ch "a" <=? c) && (c <=? ch "z") then Some (c - ch "a" + 26)
  else if (ch "0" <=? c) && (c <=? ch "9") then Some (c - ch "0" + 52)
  else if c =? ch "+" then Some 62
  else if c =? ch "/" then Some 63
  else None.

(** [quad.iter().rev().take_while(|&&c| c == b'=').count()] *)
Fixpoint count_while (p : Z → bool) (l : list Z) : nat :=
  match l with b :: l => if p b then S (count_while p l) else 0%nat | [] => 0%nat end.

Definition pad_count (quad : list Z) : nat := count_while (λ c, c =? ch "=") (reverse quad).

(** The body of the loop of [base64_decode]; [last] is [i + 1 == quads]. *)
Definition decode_quad (last : bool) (quad : list Z) : option (list Z) :=
  let pad := pad_count quad in
  if (2 <? pad)%nat || ((0 <? pad)%nat && negb last) then None
  else
    n ← foldl (λ acc c, n ← acc; v ← sextet c; Some (Z.lor (Z.shiftl n 6) v)) (Some 0) (take (4 - pad) quad);
    let n := wrap_u 32 (Z.shiftl n (6 * Z.of_nat pad)) in
    let produced := (3 - pad)%nat in
    if negb (Z.land n (Z.shiftl 1 (8 * Z.of_nat pad) - 1) =? 0) then None
    else Some (take produced (drop 1 (be_bytes 4 n))).

Fixpoint decode_quads (i quads : nat) (l : list (list Z)) : option (list Z) :=
  match l with
  | [] => Some []
  | quad :: l =>
      bs ← decode_quad (S i =? quads)%nat quad;
      out ← decode_quads (S i) quads l;
      Some (bs ++ out)
  end.

(** [base64_decode] *)
Definition base64_decode (s : list Z) : option (list Z) :=
  if negb (length s mod 4 =? 0)%nat then None
  else decode_quads 0 (length s / 4) (chunks (length s) 4 s).

(** ** Bits *)

Lemma land_63 z : Z.land z 63 = z mod 64.
Proof. change 63 with (Z.ones 6). rewrite Z.land_ones by lia. done. Qed.

(** The 24 bits of up to three bytes. *)
Definition word (b0 b1 b2 : Z) : Z := b0 * 65536 + b1 * 256 + b2.

Lemma word_lor b0 b1 b2 :
  is_byte b1 → is_byte b2 → Z.lor (Z.lor (Z.shiftl b0 16) (Z.shiftl b1 8)) b2 = word b0 b1 b2.
Proof.
  unfold is_byte. intros H1 H2. assert (Z.lor (Z.shiftl b0 16) (Z.shiftl b1 8) = Z.shiftl (b0 * 256 + b1) 8) as ->.
  { rewrite lor_add by (rewrite ?Z.shiftl_mul_pow2; lia). rewrite !Z.shiftl_mul_pow2 by lia. lia. }
  rewrite lor_add by lia. unfold word. lia.
Qed.

Definition digit_at (n : Z) (i : nat) : Z := Z.land (Z.shiftr n (18 - 6 * Z.of_nat i)) 63.

Lemma digit_at_val n :
  0 ≤ n < 2 ^ 24 →
  digit_at n 0 = n / 262144 ∧ digit_at n 1 = n / 4096 mod 64 ∧ digit_at n 2 = n / 64 mod 64 ∧ digit_at n 3 = n mod 64.
Proof.
  intros Hn. unfold digit_at. rewrite !land_63, !Z.shiftr_div_pow2 by lia.
  split_and!; [|done|done|by rewrite Z.div_1_r]. change (2 ^ (18 - 6 * Z.of_nat 0)) with 262144. rewrite Z.mod_small; [done|]. divlia.
Qed.

(** ** The alphabet *)

Lemma alphabet_sextet i : 0 ≤ i < 64 → ∃ c, BASE64_ALPHABET !! Z.to_nat i = Some c ∧ sextet c = Some i ∧ c ≠ ch "=".
Proof.
  intros Hi. assert (forallb (λ k, match BASE64_ALPHABET !! k with
                                   | Some c => bool_decide (sextet c = Some (Z.of_nat k)) && negb (c =? ch "=")
                                   | None => false end) (seq 0 64) = true) as Hall by reflexivity.
  rewrite forallb_forall in Hall. specialize (Hall (Z.to_nat i)). rewrite in_seq in Hall. specialize (Hall ltac:(lia)).
  destruct (BASE64_ALPHABET !! Z.to_nat i) as [c|]; [|done]. apply andb_prop in Hall as [H1%bool_decide_eq_true H2].
  exists c. split_and!; [done|by rewrite H1, Z2Nat.id by lia|]. intros ->. by rewrite Z.eqb_refl in H2.
Qed.

Lemma sextet_alphabet c v : sextet c = Some v → 0 ≤ v < 64 ∧ BASE64_ALPHABET !! Z.to_nat v = Some c ∧ c ≠ ch "=".
Proof.
  intros Hs. assert (0 ≤ c < 128) as Hc.
  { unfold sextet in Hs. repeat (case_match; [match goal with H : _ = true |- _ => rewrite ?andb_true_iff, ?Z.leb_le, ?Z.eqb_eq in H end;
      unfold ch in *; simpl in *; lia|]). done. }
  assert (forallb (λ k, match sextet (Z.of_nat k) with
                        | Some v => (0 <=? v) && (v <? 64) && bool_decide (BASE64_ALPHABET !! Z.to_nat v = Some (Z.of_nat k))
                                    && negb (Z.of_nat k =? ch "=")
                        | None => true end) (seq 0 128) = true) as Hall by reflexivity.
  rewrite forallb_forall in Hall. specialize (Hall (Z.to_nat c)). rewrite in_seq in Hall. specialize (Hall ltac:(lia)).
  rewrite Z2Nat.id, Hs in Hall by lia. apply andb_prop in Hall as [[[H1%Z.leb_le H2%Z.ltb_lt]%andb_prop H3%bool_decide_eq_true]%andb_prop H4].
  split_and!; [done|done|done|]. intros ->. by rewrite Z.eqb_refl in H4.
Qed.

(** ** One quad *)

Lemma fold_sextets cs n0 :
  foldl (λ acc c, n ← acc; v ← sextet c; Some (Z.lor (Z.shiftl n 6) v)) (Some n0) cs =
  vs ← mapM sextet cs; Some (foldl (λ n v, n * 64 + v) n0 vs).
Proof.
  revert n0; induction cs as [|c cs IH]; intros n0; cbn [foldl mapM]; [done|].
  destruct (sextet c) as [v|] eqn:E; cbn [mbind option_bind].
  - apply sextet_alphabet in E as (Hv & _ & _). rewrite lor_add by (lia || done). change (2 ^ 6) with 64. rewrite IH.
    by destruct (mapM sextet cs).
  - clear IH. induction cs as [|c' cs IH]; [done|]. exact IH.
Qed.

Lemma three_bytes n :
  0 ≤ n < 2 ^ 24 → drop 1 (be_bytes 4 n) = [n / 65536; n / 256 mod 256; n mod 256].
Proof.
  intros Hn. unfold be_bytes. cbn [le_bytes]. rewrite (Z.div_div n 256 256) by lia. change (256 * 256) with 65536.
  rewrite (Z.mod_small (n / 65536)) by divlia. done.
Qed.

Lemma mask_0 n p : (p ≤ 2)%nat → Z.land n (Z.shiftl 1 (8 * Z.of_nat p) - 1) = n mod 2 ^ (8 * Z.of_nat p).
Proof.
  intros Hp. rewrite Z.shiftl_1_l. rewrite <-Z.land_ones by lia. f_equal. rewrite Z.ones_equiv. lia.
Qed.

(** A quad without padding, with one and with two padding characters. *)
Definition quad_word (p : nat) (vs : list Z) : Z := foldl (λ n v, n * 64 + v) 0 vs * 64 ^ Z.of_nat p.

Definition decoded (p : nat) (n : Z) : list Z := take (3 - p) [n / 65536; n / 256 mod 256; n mod 256].

Lemma quad_word_bound p vs :
  (length vs + p = 4)%nat → Forall (λ v, 0 ≤ v < 64) vs → 0 ≤ quad_word p vs < 2 ^ 24.
Proof.
  intros Hl Hv. assert (∀ n0, 0 ≤ n0 → 0 ≤ foldl (λ n v, n * 64 + v) n0 vs < (n0 + 1) * 64 ^ Z.of_nat (length vs)) as H.
  { clear Hl. induction Hv as [|v vs Hv Hvs IH]; intros n0 Hn; cbn [foldl length]; [simpl; lia|].
    rewrite Nat2Z.inj_succ, Z.pow_succ_r by lia. specialize (IH (n0 * 64 + v) ltac:(lia)).
    assert (0 < 64 ^ Z.of_nat (length vs)) by lia. nia. }
  specialize (H 0 ltac:(lia)). unfold quad_word. assert (0 < 64 ^ Z.of_nat p) by lia.
  assert (64 ^ Z.of_nat (length vs) * 64 ^ Z.of_nat p = 2 ^ 24) as Hp.
  { rewrite <-Z.pow_add_r, <-Nat2Z.inj_add, Hl by lia. done. }
  nia.
Qed.

Lemma decode_quad_spec last cs p :
  (length cs + p = 4)%nat → (p ≤ 2)%nat → Forall (λ c, c ≠ ch "=") cs →
  decode_quad last (cs ++ replicate p (ch "=")) =
  if (0 <? p)%nat && negb last then None
  else vs ← mapM sextet cs;
       if quad_word p vs mod 2 ^ (8 * Z.of_nat p) =? 0 then Some (decoded p (quad_word p vs)) else None.
Proof.
  intros Hl Hp Hc. unfold decode_quad.
  assert (pad_count (cs ++ replicate p (ch "=")) = p) as ->.
  { unfold pad_count. rewrite reverse_app, reverse_replicate. assert (∀ k l, match l with c :: _ => c ≠ ch "=" | [] => True end →
      count_while (λ c, c =? ch "=") (replicate k (ch "=") ++ l) = k) as H.
    { intros k l Hh. induction k as [|k IH]; cbn [replicate app count_while]; [|by rewrite Z.eqb_refl, IH].
      destruct l as [|c l]; [done|]. cbn [count_while]. by rewrite (proj2 (Z.eqb_neq _ _) Hh). }
    apply H. destruct (reverse cs) as [|c l] eqn:E; [done|]. rewrite Forall_forall in Hc. apply Hc.
    apply elem_of_reverse. rewrite E. by left. }
  rewrite (proj2 (Nat.ltb_ge 2 p)) by lia. cbn [orb]. destruct ((0 <? p)%nat && negb last); [done|].
  rewrite take_app_length' by lia. rewrite fold_sextets. destruct (mapM sextet cs) as [vs|] eqn:Hm; [|done].
  cbn [mbind option_bind]. apply mapM_Some in Hm as Hm'.
  assert (length vs = length cs) as Hlv by (symmetry; by eapply Forall2_length).
  assert (Forall (λ v, 0 ≤ v < 64) vs) as Hv.
  { clear -Hm'. induction Hm' as [|c v cs vs Hs _ IH]; constructor; [|done]. by apply sextet_alphabet in Hs as [? _]. }
  pose proof (quad_word_bound p vs ltac:(lia) Hv) as Hb.
  rewrite Z.shiftl_mul_pow2 by lia. replace (2 ^ (6 * Z.of_nat p)) with (64 ^ Z.of_nat p) by (rewrite <-(Z.pow_mul_r 2 6) by lia; done).
  fold (quad_word p vs). rewrite wrap_u_id by (unfold in_u; lia). rewrite mask_0, three_bytes by done.
  by destruct (quad_word p vs mod 2 ^ (8 * Z.of_nat p) =? 0).
Qed.

Lemma mapM_padded (f : nat → option Z) (k p : nat) cs :
  mapM f (seq 0 k) = Some cs →
  mapM (λ i, if (i <? k)%nat then f i else Some (ch "=")) (seq 0 (k + p)) = Some (cs ++ replicate p (ch "=")).
Proof.
  intros Hf%mapM_Some. apply mapM_Some. rewrite seq_app. apply Forall2_app.
  - apply Forall2_same_length_lookup_2; [by eapply Forall2_length|]. intros i j c Hi Hc.
    apply lookup_seq in Hi as Hi'. destruct Hi' as [-> Hlt]. rewrite (proj2 (Nat.ltb_lt _ _)) by lia.
    exact (Forall2_lookup_lr _ _ _ _ _ _ Hf Hi Hc).
  - apply Forall2_same_length_lookup_2; [by rewrite length_seq, length_replicate|]. intros i j c Hi Hc.
    apply lookup_seq in Hi as [-> Hlt]. apply lookup_replicate in Hc as [-> _].
    by rewrite (proj2 (Nat.ltb_ge _ _)) by lia.
Qed.

(** What a chunk of one, two or three bytes is encoded as. *)
Definition chunk_word (chunk : list Z) : Z :=
  word (default 0 (chunk !! 0%nat)) (default 0 (chunk !! 1%nat)) (default 0 (chunk !! 2%nat)).

Lemma encode_chunk_spec (chunk : list Z) cs p :
  (length chunk + p = 3)%nat → (p ≤ 2)%nat → Forall is_byte chunk →
  mapM (λ i, BASE64_ALPHABET !! Z.to_nat (digit_at (chunk_word chunk) i)) (seq 0 (4 - p)) = Some cs →
  encode_chunk chunk = Some (cs ++ replicate p (ch "=")).
Proof.
  intros Hl Hp Hb Hcs. apply (mapM_padded _ _ p) in Hcs. replace (4 - p + p)%nat with 4%nat in Hcs by lia.
  assert (∀ i, is_byte (default 0 (chunk !! i))) as Hd.
  { intros i. destruct (chunk !! i) as [b|] eqn:E; [|by unfold is_byte]. rewrite Forall_forall in Hb. apply Hb. by eapply list_elem_of_lookup_2. }
  unfold encode_chunk. destruct (chunk !! 0%nat) as [b0|] eqn:E0; [|apply lookup_ge_None in E0; lia].
  cbn [mbind option_bind]. rewrite word_lor by apply Hd. rewrite <-Hcs. apply mapM_ext. intros i.
  unfold chunk_word. rewrite E0. cbn [default from_option id].
  destruct (Nat.leb_spec i (length chunk)), (Nat.ltb_spec i (4 - p)); try lia; done.
Qed.

Lemma digit_at_range n i : 0 ≤ digit_at n i < 64.
Proof. unfold digit_at. rewrite land_63. by apply Z.mod_pos_bound. Qed.

(** The characters of a list of sextets. *)
Lemma alphabet_all vs :
  Forall (λ v, 0 ≤ v < 64) vs →
  ∃ cs, mapM (λ v, BASE64_ALPHABET !! Z.to_nat v) vs = Some cs ∧ mapM sextet cs = Some vs
        ∧ Forall (λ c, c ≠ ch "=") cs ∧ length cs = length vs.
Proof.
  induction 1 as [|v vs Hv Hvs (cs & H1 & H2 & H3 & H4)]; [by exists []|].
  destruct (alphabet_sextet v Hv) as (c & Hc & Hs & Hne). exists (c :: cs).
  cbn [mapM]. rewrite Hc, Hs, H1, H2. cbn. split_and!; [done|done|by constructor|by rewrite H4].
Qed.

Lemma chunk_word_range chunk : Forall is_byte chunk → 0 ≤ chunk_word chunk < 2 ^ 24.
Proof.
  intros Hb. assert (∀ i, is_byte (default 0 (chunk !! i))) as Hd.
  { intros i. destruct (chunk !! i) as [b|] eqn:E; [|by unfold is_byte]. rewrite Forall_forall in Hb. apply Hb. by eapply list_elem_of_lookup_2. }
  unfold chunk_word, word. pose proof (Hd 0%nat) as H0. pose proof (Hd 1%nat) as H1. pose proof (Hd 2%nat) as H2.
  unfold is_byte in *. lia.
Qed.

Lemma three_chunks (chunk : list Z) p :
  (length chunk + p = 3)%nat → (p ≤ 2)%nat →
  (p = 0%nat ∧ ∃ a b c, chunk = [a; b; c]) ∨ (p = 1%nat ∧ ∃ a b, chunk = [a; b]) ∨ (p = 2%nat ∧ ∃ a, chunk = [a]).
Proof. intros Hl Hp. destruct chunk as [|a [|b [|c [|]]]]; simpl in Hl; try lia; [right; right|right; left|left]; split; eauto; lia. Qed.

(** The sextets of a chunk recompose its word. *)
Lemma chunk_digits chunk p :
  (length chunk + p = 3)%nat → (p ≤ 2)%nat → Forall is_byte chunk →
  quad_word p (digit_at (chunk_word chunk) <$> seq 0 (4 - p)) = chunk_word chunk
  ∧ chunk_word chunk mod 2 ^ (8 * Z.of_nat p) = 0 ∧ decoded p (chunk_word chunk) = chunk.
Proof.
  intros Hl Hp Hb. destruct (digit_at_val (chunk_word chunk) (chunk_word_range chunk Hb)) as (H0 & H1 & H2 & H3).
  unfold quad_word, decoded.
  destruct (three_chunks chunk p Hl Hp) as [(-> & a & b & c & ->)|[(-> & a & b & ->)|(-> & a & ->)]];
    repeat match goal with H : Forall is_byte (_ :: _) |- _ => apply Forall_cons in H as [? H] end; unfold is_byte in *;
    cbn [Nat.sub seq fmap list_fmap foldl]; rewrite ?H0, ?H1, ?H2, ?H3; unfold chunk_word, word in *;
    cbn [lookup list_lookup default from_option id take Z.of_nat Z.mul Pos.mul] in *;
    (split; [simpl (64 ^ _); divlia|]); (split; [simpl (2 ^ _); divlia|]); repeat (apply (f_equal2 cons); [divlia|]); done.
Qed.

Lemma quad_roundtrip chunk p :
  (length chunk + p = 3)%nat → (p ≤ 2)%nat → Forall is_byte chunk →
  ∃ quad, encode_chunk chunk = Some quad ∧ length quad = 4%nat ∧
          ∀ last : bool, (p = 0%nat ∨ last = true) → decode_quad last quad = Some chunk.
Proof.
  intros Hl Hp Hb. set (vs := digit_at (chunk_word chunk) <$> seq 0 (4 - p)).
  destruct (alphabet_all vs) as (cs & H1 & H2 & H3 & H4).
  { apply Forall_fmap, Forall_true. intros i. apply digit_at_range. }
  unfold vs in H1, H4. rewrite length_fmap, length_seq in H4.
  exists (cs ++ replicate p (ch "=")). split; [|split].
  - apply encode_chunk_spec; [done|done|done|]. rewrite <-H1. clear.
    generalize (seq 0 (4 - p)). intros l. induction l as [|i l IH]; [done|]. cbn [mapM fmap list_fmap]. by rewrite IH.
  - rewrite length_app, length_replicate. lia.
  - intros last Hlast. rewrite decode_quad_spec by (done || lia).
    assert ((0 <? p)%nat && negb last = false) as -> by by destruct Hlast as [-> | ->]; [|rewrite andb_false_r].
    rewrite H2. cbn [mbind option_bind]. destruct (chunk_digits chunk p Hl Hp Hb) as (E1 & E2 & E3). fold vs in E1.
    by rewrite E1, E2, E3.
Qed.

(** ** Canonical text *)

Lemma quad_split quad :
  quad = take (length quad - pad_count quad) quad ++ replicate (pad_count quad) (ch "=")
  ∧ (pad_count quad ≤ length quad)%nat.
Proof.
  unfold pad_count.
  assert (∀ l, ∃ l', l = replicate (count_while (λ c, c =? ch "=") l) (ch "=") ++ l') as H.
  { intros l. induction l as [|c l [l' IH]]; cbn [count_while]; [by exists []|].
    destruct (Z.eqb_spec c (ch "=")) as [->|Hne]; [|by exists (c :: l)]. exists l'. cbn [replicate app]. by rewrite IH at 1. }
  destruct (H (reverse quad)) as [l' Hl]. set (k := count_while _ _) in *.
  assert (quad = reverse l' ++ replicate k (ch "=")) as Hq.
  { rewrite <-(reverse_involutive quad), Hl, reverse_app, reverse_replicate. done. }
  assert (length quad = length l' + k)%nat as Hlen by (rewrite Hq, length_app, length_reverse, length_replicate; done).
  split; [|lia]. replace (length quad - k)%nat with (length (reverse l')) by (rewrite length_reverse; lia).
  clearbody k. subst quad. by rewrite take_app_length.
Qed.

Lemma sextets_not_pad cs vs : mapM sextet cs = Some vs → Forall (λ c, c ≠ ch "=") cs.
Proof.
  intros H%mapM_Some. induction H as [|c v cs vs Hs _ IH]; constructor; [|done].
  by apply sextet_alphabet in Hs as (_ & _ & ?).
Qed.

Lemma sextets_alphabet cs vs :
  mapM sextet cs = Some vs → mapM (λ v, BASE64_ALPHABET !! Z.to_nat v) vs = Some cs ∧ Forall (λ v, 0 ≤ v < 64) vs.
Proof.
  intros H%mapM_Some. induction H as [|c v cs vs Hs _ [IH IH']]; [done|]. apply sextet_alphabet in Hs as (Hv & Hc & _).
  cbn [mapM]. rewrite Hc, IH. split; [done|by constructor].
Qed.

(** A quad accepted: its characters before the padding, and what they hold. *)
Lemma decode_quad_inv last quad out :
  length quad = 4%nat → decode_quad last quad = Some out →
  ∃ p cs vs, (p ≤ 2)%nat ∧ (length cs + p = 4)%nat ∧ quad = cs ++ replicate p (ch "=") ∧ mapM sextet cs = Some vs
    ∧ (p = 0%nat ∨ last = true) ∧ quad_word p vs mod 2 ^ (8 * Z.of_nat p) = 0 ∧ out = decoded p (quad_word p vs).
Proof.
  intros Hl Hd. destruct (quad_split quad) as [Hq Hk]. set (p := pad_count quad) in *. rewrite Hl in Hq, Hk.
  assert (p ≤ 2)%nat as Hp.
  { unfold decode_quad in Hd. fold p in Hd. destruct (Nat.ltb_spec 2 p); [done|lia]. }
  set (cs := take (4 - p) quad) in *. assert (length cs + p = 4)%nat as Hlc by (unfold cs; rewrite length_take; lia).
  assert (Forall (λ c, c ≠ ch "=") cs) as Hne.
  { unfold decode_quad in Hd. fold p in Hd. destruct ((2 <? p)%nat || _); [done|]. fold cs in Hd. rewrite fold_sextets in Hd.
    destruct (mapM sextet cs) eqn:E; [|done]. by eapply sextets_not_pad. }
  rewrite Hq, decode_quad_spec in Hd by done. destruct ((0 <? p)%nat && negb last) eqn:E1; [done|].
  destruct (mapM sextet cs) as [vs|] eqn:E2; [|done]. cbn [mbind option_bind] in Hd.
  destruct (Z.eqb_spec (quad_word p vs mod 2 ^ (8 * Z.of_nat p)) 0) as [E3|]; [|done]. injection Hd as <-.
  exists p, cs, vs. split_and!; try done. destruct p; [by left|]. right. by destruct last.
Qed.

(** The word of an accepted quad determines its sextets and its bytes. *)
Lemma word_digits p vs :
  (p ≤ 2)%nat → (length vs + p = 4)%nat → Forall (λ v, 0 ≤ v < 64) vs →
  quad_word p vs mod 2 ^ (8 * Z.of_nat p) = 0 →
  digit_at (quad_word p vs) <$> seq 0 (4 - p) = vs ∧ chunk_word (decoded p (quad_word p vs)) = quad_word p vs
  ∧ length (decoded p (quad_word p vs)) = (3 - p)%nat ∧ Forall is_byte (decoded p (quad_word p vs)).
Proof.
  intros Hp Hl Hv Hm. pose proof (quad_word_bound p vs Hl Hv) as Hb.
  destruct (digit_at_val _ Hb) as (H0 & H1 & H2 & H3).
  assert (Forall is_byte [quad_word p vs / 65536; quad_word p vs / 256 mod 256; quad_word p vs mod 256]) as Hbytes.
  { repeat constructor; try (apply Z.mod_pos_bound; lia); divlia. }
  split; [|split; [|split]].
  - destruct p as [|[|[|]]]; [..|lia]; destruct vs as [|v0 [|v1 [|v2 [|v3 [|]]]]]; simpl in Hl; try lia;
      repeat match goal with H : Forall (λ v, 0 ≤ v < 64) (_ :: _) |- _ => apply Forall_cons in H as [? H] end;
      cbn [Nat.sub seq fmap list_fmap]; rewrite ?H0, ?H1, ?H2, ?H3; unfold quad_word; cbn [foldl]; simpl (64 ^ _);
      repeat (apply (f_equal2 cons); [divlia|]); done.
  - unfold decoded, chunk_word, word. destruct p as [|[|[|]]]; [..|lia];
      cbn [Nat.sub take lookup list_lookup default from_option id]; simpl (2 ^ _) in Hm; divlia.
  - unfold decoded. rewrite length_take. simpl. lia.
  - by apply Forall_take.
Qed.

Lemma quad_canonical last quad out :
  length quad = 4%nat → decode_quad last quad = Some out →
  encode_chunk out = Some quad ∧ Forall is_byte out ∧ (1 ≤ length out ≤ 3)%nat ∧ (length out = 3%nat ∨ last = true).
Proof.
  intros Hl Hd. destruct (decode_quad_inv last quad out Hl Hd) as (p & cs & vs & Hp & Hlc & -> & Hs & Hlast & Hm & ->).
  apply sextets_alphabet in Hs as Ha. destruct Ha as [Ha Hv].
  assert (length vs = length cs) as Hlv by (symmetry; eapply Forall2_length; by apply mapM_Some).
  destruct (word_digits p vs Hp ltac:(lia) Hv Hm) as (E1 & E2 & E3 & E4). split_and!; [|done|lia|lia|destruct Hlast; [left; lia|by right]].
  apply encode_chunk_spec; [lia|done|done|]. rewrite E2, <-Ha.
  trans (mapM (λ v, BASE64_ALPHABET !! Z.to_nat v) (digit_at (quad_word p vs) <$> seq 0 (4 - p))); [|by rewrite E1]. clear.
  generalize (seq 0 (4 - p)) (quad_word p vs). intros l n. induction l as [|i l IH]; [done|]. cbn [mapM fmap list_fmap]. by rewrite IH.
Qed.

(** ** Whole texts *)

Lemma chunked_4 cs : chunked 4 cs → (length (concat cs) mod 4 = 0)%nat → Forall (λ c, length c = 4%nat) cs.
Proof.
  induction 1 as [|c Hl|c cs Hl Hc IH Hne]; intros Hm; constructor.
  - cbn [concat] in Hm. rewrite app_nil_r in Hm. destruct (length c) as [|[|[|[|[|]]]]]; simpl in Hm; try lia; done.
  - constructor.
  - done.
  - apply IH. cbn [concat] in Hm. rewrite length_app, Hl in Hm.
    replace (4 + length (concat cs))%nat with (length (concat cs) + 1 * 4)%nat in Hm by lia. by rewrite Nat.Div0.mod_add in Hm.
Qed.

Lemma all_4_chunked cs : Forall (λ c, length c = 4%nat) cs → chunked 4 cs ∧ length (concat cs) = (4 * length cs)%nat.
Proof.
  induction 1 as [|c cs Hc Hcs [IH Hl]]; [split; [constructor|done]|]. cbn [concat length]. rewrite length_app, Hc, Hl. split; [|lia].
  destruct cs; [constructor; lia|by constructor].
Qed.

(** Quads of chunks, decoded one by one. *)
Lemma encode_quads chs i :
  chunked 3 chs → Forall is_byte (concat chs) →
  ∃ quads, mapM encode_chunk chs = Some quads ∧ Forall (λ q, length q = 4%nat) quads ∧ length quads = length chs
    ∧ decode_quads i (i + length quads) quads = Some (concat chs).
Proof.
  intros Hc. revert i; induction Hc as [|c Hl|c cs Hl Hc IH Hne]; intros i Hb; cbn [concat] in Hb.
  - exists []. done.
  - rewrite app_nil_r in Hb. destruct (quad_roundtrip c (3 - length c)) as (q & He & Hq & Hd); [lia|lia|done|].
    exists [q]. cbn [mapM]. rewrite He. split_and!; [done|by constructor|done|]. cbn [decode_quads length concat].
    rewrite (proj2 (Nat.eqb_eq _ _)) by lia. by rewrite Hd by by right.
  - apply Forall_app in Hb as [Hb1 Hb2]. destruct (quad_roundtrip c 0) as (q & He & Hq & Hd); [lia|lia|done|].
    destruct (IH (S i) Hb2) as (quads & Hm & H4 & Hlen & Hdec). exists (q :: quads). cbn [mapM]. rewrite He, Hm. cbn [mbind option_bind mret option_ret].
    split_and!; [done|by constructor|simpl; lia|]. cbn [decode_quads length]. rewrite Hd by by left. cbn [mbind option_bind].
    replace (i + S (length quads))%nat with (S i + length quads)%nat by lia. by rewrite Hdec.
Qed.

Lemma decode_quads_inv quads i out :
  Forall (λ q, length q = 4%nat) quads → decode_quads i (i + length quads) quads = Some out →
  ∃ chs, mapM encode_chunk chs = Some quads ∧ chunked 3 chs ∧ concat chs = out ∧ Forall is_byte out.
Proof.
  intros H4. revert i out; induction H4 as [|q quads Hq H4 IH]; intros i out Hd.
  { injection Hd as <-. exists []. split_and!; [done|constructor|done|done]. }
  cbn [decode_quads length] in Hd. destruct (decode_quad _ q) as [bs|] eqn:E1; [|done]. cbn [mbind option_bind] in Hd.
  replace (i + S (length quads))%nat with (S i + length quads)%nat in Hd by lia.
  destruct (decode_quads (S i) (S i + length quads) quads) as [rest|] eqn:E2; [|done]. injection Hd as <-.
  destruct (IH (S i) rest E2) as (chs & Hm & Hc & Hcat & Hb).
  destruct (quad_canonical _ q bs Hq E1) as (He & Hbb & Hl & Hlast). exists (bs :: chs). cbn [mapM concat]. rewrite He, Hm, Hcat.
  split_and!; [done| |done|by apply Forall_app]. destruct chs as [|c chs]; [by constructor|].
  constructor; [|done|done]. destruct Hlast as [?|Hlast%Nat.eqb_eq]; [done|].
  destruct quads; [|simpl in Hlast; lia]. cbn [mapM] in Hm. destruct (encode_chunk c); [|done]. cbn [mbind option_bind] in Hm.
  by destruct (mapM encode_chunk chs).
Qed.

Lemma base64_roundtrip bytes :
  Forall is_byte bytes → ∃ text, base64_encode bytes = Some text ∧ base64_decode text = Some bytes.
Proof.
  intros Hb. destruct (chunks_chunked (length bytes) 3 bytes ltac:(lia) ltac:(lia)) as [Hc Hcat].
  rewrite <-Hcat in Hb. destruct (encode_quads _ 0 Hc Hb) as (quads & Hm & H4 & Hl & Hd).
  unfold base64_encode. rewrite Hm. eexists. split; [done|].
  destruct (all_4_chunked quads H4) as [Hc4 Hl4]. unfold base64_decode. rewrite Hl4.
  replace (4 * length quads)%nat with (length quads * 4)%nat by lia. rewrite Nat.Div0.mod_mul, Nat.div_mul by lia. cbn [Nat.eqb negb].
  rewrite chunks_concat by (done || lia). rewrite <-Hcat. exact Hd.
Qed.

Lemma base64_canonical text bytes :
  base64_decode text = Some bytes → base64_encode bytes = Some text ∧ Forall is_byte bytes.
Proof.
  unfold base64_decode. destruct (Nat.eqb_spec (length text mod 4) 0) as [Hm|]; [|done]. cbn [negb]. intros Hd.
  destruct (chunks_chunked (length text) 4 text ltac:(lia) ltac:(lia)) as [Hc Hcat].
  set (quads := chunks (length text) 4 text) in *. assert (Forall (λ q, length q = 4%nat) quads) as H4.
  { apply chunked_4; [done|by rewrite Hcat]. }
  destruct (all_4_chunked quads H4) as [_ Hl4]. rewrite Hcat in Hl4.
  replace (length text / 4)%nat with (0 + length quads)%nat in Hd by (rewrite Hl4, Nat.mul_comm, Nat.div_mul by lia; lia).
  destruct (decode_quads_inv quads 0 bytes H4 Hd) as (chs & Hme & Hc3 & Hcb & Hb). split; [|done].
  unfold base64_encode. rewrite <-Hcb, chunks_concat by (done || lia). rewrite Hme. cbn [mbind option_bind]. f_equal. exact Hcat.
Qed.

(** Base64 is a bijection between byte strings and the texts the decoder
    accepts: every byte string encodes, without a panic, to text that decodes
    to it, and every accepted text is exactly the encoding of what it decodes
    to (so wrong lengths, misplaced padding, foreign characters and non-zero
    unused bits are all refused). *)
Theorem base64_bijection :
  (∀ bytes, Forall is_byte bytes → ∃ text, base64_encode bytes = Some text ∧ base64_decode text = Some bytes) ∧
  (∀ text bytes, base64_decode text = Some bytes → base64_encode bytes = Some text ∧ Forall is_byte bytes).
Proof. split; [exact base64_roundtrip|exact base64_canonical]. Qed.
End Base64.
