(* ===== verification/Tagged.v ===== *)
(** * The wire tags of the V11 values

    Models [tagged_text], [v11_display_text] and [value_from_tagged_text] of
    [crates/core-storage/src/types.rs]: the one place that names the JSON tags
    and text forms every encoder writes. *)

From Stdlib Require Import Init.Byte Strings.Byte Ascii.
From S2P Require Import Prelude Bytes Utf8 Decimal Calendar Iso8601 Duration Base64 Types.

Module Tagged.

Definition TAG_DATE : string := "$date".
Definition TAG_LOCAL_DATETIME : string := "$ldt".
Definition TAG_DATETIME : string := "$dt".
Definition TAG_DURATION : string := "$dur".
Definition TAG_BINARY : string := "$binary".

(** The errors, by what their messages name. *)
Inductive tag_error :=
| OffsetOutside (offset_seconds : Z)
| NotAValueTag (tag : string)
| BadPayload (tag : string) (text : list Z).

Definition u8s (bs : list byte) : list Z := (λ b, Z.of_N (Byte.to_N b)) <$> bs.
Definition of_u8s (l : list Z) : list byte := omap (λ z, Byte.of_N (Z.to_N z)) l.

(** [tagged_text] *)
Definition tagged_text (v : Value.t) : option (result tag_error (option (string * list Z))) :=
  match v with
  | Value.Int _ | Value.Float _ | Value.Str _ | Value.Bool _ | Value.List _ | Value.Map _ | Value.Null => Some (Ok None)
  | Value.Date days => Some (Ok (Some (TAG_DATE, Iso8601.date_to_iso8601 days)))
  | Value.LocalDateTime us => Some (Ok (Some (TAG_LOCAL_DATETIME, Iso8601.local_datetime_to_iso8601 us)))
  | Value.DateTime micros_utc offset_seconds =>
      match Iso8601.datetime_to_iso8601 micros_utc offset_seconds with
      | Some text => Some (Ok (Some (TAG_DATETIME, text)))
      | None => Some (Err (OffsetOutside offset_seconds))
      end
  | Value.Duration months days nanos => Some (Ok (Some (TAG_DURATION, Duration.duration_to_iso8601 months days nanos)))
  | Value.Binary bytes => text ← Base64.base64_encode (u8s bytes); Some (Ok (Some (TAG_BINARY, text)))
  end.

(** [v11_display_text]; an invalid date-time displays as its offset. *)
Definition v11_display_text (v : Value.t) : option (option (Z + list Z)) :=
  r ← tagged_text v;
  Some match r with
       | Ok tagged => (λ t, inr t.2) <$> tagged
       | Err (OffsetOutside off) => Some (inl off)
       | Err _ => None
       end.

(** [value_from_tagged_text] *)
Definition value_from_tagged_text (tag : string) (text : list Z) : result tag_error Value.t :=
  let bad := BadPayload tag text in
  if String.eqb tag TAG_DATE then ok_or (Value.Date <$> Iso8601.iso8601_to_date text) bad
  else if String.eqb tag TAG_LOCAL_DATETIME then ok_or (Value.LocalDateTime <$> Iso8601.iso8601_to_local_datetime text) bad
  else if String.eqb tag TAG_DATETIME then
    ok_or ((λ p, Value.DateTime p.1 p.2) <$> Iso8601.iso8601_to_datetime text) bad
  else if String.eqb tag TAG_DURATION then
    ok_or ((λ p, Value.Duration p.1.1 p.1.2 p.2) <$> Duration.iso8601_to_duration text) bad
  else if String.eqb tag TAG_BINARY then ok_or ((λ b, Value.Binary (of_u8s b)) <$> Base64.base64_decode text) bad
  else Err (NotAValueTag tag).

(** The integers of a value are within their types. *)
Definition fits (v : Value.t) : Prop :=
  match v with
  | Value.Date days => in_i 32 days
  | Value.LocalDateTime us => in_i 64 us
  | Value.DateTime us off => in_i 64 us ∧ in_i 32 off
  | Value.Duration months days nanos => in_i 32 months ∧ in_i 32 days ∧ in_i 64 nanos
  | _ => True
  end.

(** The one value without text. *)
Definition textless (v : Value.t) : Prop :=
  match v with Value.DateTime _ off => Iso8601.MAX_OFFSET_SECONDS < Z.abs off | _ => False end.

Lemma u8s_are_bytes bs : Forall is_byte (u8s bs).
Proof.
  unfold u8s. apply Forall_fmap, Forall_true. intros b. unfold is_byte. simpl.
  pose proof (Byte.to_N_bounded b). lia.
Qed.

Lemma of_u8s_u8s bs : of_u8s (u8s bs) = bs.
Proof.
  unfold of_u8s, u8s. induction bs as [|b bs IH]; [done|]. cbn [fmap list_fmap omap list_omap].
  rewrite N2Z.id, Byte.of_to_N. f_equal. exact IH.
Qed.

(** Every tag written reads back: a V11 value within its types has a tag
    and a text that [value_from_tagged_text] turns back into exactly it, the
    only exception being a date-time with an offset beyond 18 hours, which is
    an error; every other value has no tag; and encoding never panics. *)
Theorem tagged_roundtrip (v : Value.t) :
  fits v →
  (¬ Value.is_v11 v ∧ tagged_text v = Some (Ok None)) ∨
  (textless v ∧ ∃ off, tagged_text v = Some (Err (OffsetOutside off))) ∨
  (Value.is_v11 v ∧ ∃ tag text, tagged_text v = Some (Ok (Some (tag, text))) ∧ value_from_tagged_text tag text = Ok v).
Proof.
  intros Hf. destruct v as [| | | | | |days|us|us off|months days nanos|bytes|]; try (left; split; [by intros []|reflexivity]).
  - right. right. split; [exact I|]. eexists _, _. split; [reflexivity|]. unfold value_from_tagged_text.
    by rewrite Iso8601.date_roundtrip.
  - right. right. split; [exact I|]. eexists _, _. split; [reflexivity|]. unfold value_from_tagged_text.
    by rewrite Iso8601.local_datetime_roundtrip.
  - right. destruct Hf as [Hus Hoff]. destruct (decide (Z.abs off ≤ Iso8601.MAX_OFFSET_SECONDS)) as [Ho|Ho].
    + right. split; [exact I|]. destruct (Iso8601.datetime_roundtrip us off Hus Ho) as (text & Ht & Hp).
      exists TAG_DATETIME, text. cbn [tagged_text]. rewrite Ht. split; [done|]. unfold value_from_tagged_text. by rewrite Hp.
    + left. split; [simpl; lia|]. exists off. cbn [tagged_text].
      assert (Iso8601.datetime_to_iso8601 us off = None) as ->; [|done].
      unfold Iso8601.datetime_to_iso8601. by rewrite (proj2 (Z.ltb_lt _ _)) by lia.
  - right. right. split; [exact I|]. destruct Hf as (Hm & Hd & Hn). eexists _, _. split; [reflexivity|].
    unfold value_from_tagged_text. by rewrite Duration.duration_text_parses.
  - right. right. split; [exact I|]. destruct (Base64.base64_roundtrip (u8s bytes) (u8s_are_bytes bytes)) as (text & Ht & Hp).
    exists TAG_BINARY, text. cbn [tagged_text]. rewrite Ht. split; [done|].
    unfold value_from_tagged_text. rewrite Hp.
    change (ok_or (Some (Value.Binary (of_u8s (u8s bytes)))) (BadPayload TAG_BINARY text) = Ok (Value.Binary bytes)).
    by rewrite of_u8s_u8s.
Qed.

Lemma tagged_roundtrip_witness :
  ∃ tag text, tagged_text (Value.Duration (-14) 3 5) = Some (Ok (Some (tag, text)))
              ∧ value_from_tagged_text tag text = Ok (Value.Duration (-14) 3 5).
Proof.
  destruct (tagged_roundtrip (Value.Duration (-14) 3 5)) as [[H _]|[[H _]|[_ H]]].
  - cbn. unfold in_i. lia.
  - exfalso. apply H. exact I.
  - destruct H.
  - exact H.
Defined.
End Tagged.
