(* ===== verification/Wal.v ===== *)
(** * The write-ahead log

    Models [crates/core-storage/src/wal.rs]: the records, the frames
    ([len u32][crc u32][payload]) and the decoder that stops at the first torn
    or corrupt frame.

    bincode and crc32fast are parameters: [ser] and [de] stand for
    [bincode::serialize] and [bincode::deserialize] of a [WalRecord], [crc] for
    [crc32fast::hash].  Release builds: the [debug_assert!] on nested batches is
    not there. *)

From Stdlib Require Import Init.Byte.
From S2P Require Import Prelude Bytes Utf8 Types.

Module Wal.

Inductive WalRecord :=
| InsertNode (label key : string) (props : list (string * Value.t))
| InsertEdge (edge_type src_key dst_key : string)
| SetProp (key field : string) (value : Value.t)
| CreateRule (def_bytes : list byte)
| DeleteRule (name : string)
| RemoveProp (key field : string)
| DeleteEdge (edge_type src_key dst_key : string)
| DeleteNode (key : string)
| Batch (inner : list WalRecord)
| RebuildRule (name : string)
| CreateView (def_bytes : list byte)
| DeleteView (name : string)
| EnableFulltext (label field : string)
| DisableFulltext (label field : string)
| InsertNodeId (label : Z) (key : string) (props : list (Z * Value.t))
| SetPropId (id field : Z) (value : Value.t)
| InsertEdgeId (etype src dst : Z)
| Intern (id : Z) (text : string)
| DerivedEdgeAdded (rule edge_type src_key dst_key : string)
| DerivedEdgeRetracted (rule edge_type src_key dst_key : string)
| RenameNode (old_key new_key : string)
| EnableIndex (label field : string)
| DisableIndex (label field : string)
| SetEdgeCount (etype src dst count : Z)
| CreateConstraint (name label field : string)
| DropConstraint (name : string)
| EnableRangeIndex (name label field : string)
| DisableRangeIndex (name : string)
| SetEdgePropId (etype src dst field : Z) (value : Value.t)
| RemoveEdgePropId (etype src dst field : Z).

Definition MULTIPLICITY_ENABLED : WalRecord := SetEdgeCount u32_max u32_max u32_max 0.

(** [WalRecord::is_multiplicity_decl] *)
Definition is_multiplicity_decl (r : WalRecord) : bool :=
  match r with SetEdgeCount _ _ _ count => count =? 0 | _ => false end.

(** [WalRecord::carries_null] *)
Fixpoint carries_null (r : WalRecord) : bool :=
  match r with
  | InsertNode _ _ props => existsb (λ p, Value.contains_null p.2) props
  | InsertNodeId _ _ props => existsb (λ p, Value.contains_null p.2) props
  | SetProp _ _ value | SetPropId _ _ value | SetEdgePropId _ _ _ _ value => Value.contains_null value
  | Batch inner => existsb carries_null inner
  | _ => false
  end.

Definition is_batch (r : WalRecord) : bool := match r with Batch _ => true | _ => false end.

(** A batch holding a batch. *)
Definition nested (r : WalRecord) : bool := match r with Batch inner => existsb is_batch inner | _ => false end.

Section wal.
Context (ser : WalRecord → option (list Z)) (de : list Z → option WalRecord) (crc : list Z → Z).

(** [frame] *)
Definition frame (payload : list Z) : list Z :=
  le_bytes 4 (wrap_u 32 (len_z payload)) ++ le_bytes 4 (crc payload) ++ payload.

(** [try_encode_record] *)
Definition try_encode_record (r : WalRecord) : Result (list Z) :=
  if carries_null r then Err (Corrupt "refusing to write a WAL frame whose property value holds a null")
  else match ser r with
       | None => Err (Corrupt "WAL record failed to encode: ")
       | Some payload => Ok (frame payload)
       end.

(** [encode_record]; the [expect] panics. *)
Definition encode_record (r : WalRecord) : option (list Z) := ok (try_encode_record r).

(** One round of the loop of [decode_all]: the record of the frame at [pos] and
    the position after it, or [None] where the loop returns. *)
Definition decode_frame (bytes : list Z) (pos : nat) : option (WalRecord * nat) :=
  if (length bytes <? pos + 8)%nat then None
  else
    let len := Z.to_nat (le_val (take 4 (drop pos bytes))) in
    let sum := le_val (take 4 (drop (pos + 4) bytes)) in
    let start := (pos + 8)%nat in
    if (length bytes <? start + len)%nat then None
    else
      let payload := take len (drop start bytes) in
      if negb (crc payload =? sum) then None
      else match de payload with
           | Some (Batch inner) => if existsb is_batch inner then None else Some (Batch inner, (start + len)%nat)
           | Some r => Some (r, (start + len)%nat)
           | None => None
           end.

Fixpoint decode_loop (fuel : nat) (bytes : list Z) (recs : list WalRecord) (pos : nat) : list WalRecord * nat :=
  match fuel with
  | O => (recs, pos)
  | S fuel =>
      match decode_frame bytes pos with
      | None => (recs, pos)
      | Some (r, pos) => decode_loop fuel bytes (recs ++ [r]) pos
      end
  end.

(** [decode_all]; a frame takes at least eight bytes, so there are fewer rounds
    than bytes. *)
Definition decode_all (bytes : list Z) : list WalRecord * nat := decode_loop (S (length bytes)) bytes [] 0.

(** [wal_commits] *)
Definition wal_commits (bytes : list Z) : Z := wrap_u 64 (Z.of_nat (length (decode_all bytes).1)).

(** ** Frames *)

(** The record a payload is accepted as. *)
Definition accepts (payload : list Z) (r : WalRecord) : Prop :=
  de payload = Some r ∧ nested r = false ∧ len_z payload < 2 ^ 32 ∧ in_u 32 (crc payload).

(** The frame at the head of a slice. *)
Definition head_frame (l : list Z) : option (WalRecord * nat) := decode_frame l 0.

Lemma decode_frame_drop bytes pos :
  (pos ≤ length bytes)%nat →
  decode_frame bytes pos = '(r, n) ← head_frame (drop pos bytes); Some (r, (pos + n)%nat).
Proof.
  intros Hp. unfold head_frame, decode_frame. rewrite !drop_drop, length_drop. rewrite !Nat.add_0_r, !Nat.add_0_l.
  destruct (Nat.ltb_spec (length bytes) (pos + 8)), (Nat.ltb_spec (length bytes - pos) 8); try lia; [done|].
  set (len := Z.to_nat _).
  destruct (Nat.ltb_spec (length bytes) (pos + 8 + len)), (Nat.ltb_spec (length bytes - pos) (8 + len)); try lia; [done|].
  destruct (negb _); [done|]. destruct (de _) as [r|]; [|done].
  destruct r; try (cbn [mbind option_bind]; do 2 f_equal; lia).
  destruct (existsb is_batch inner); [done|]. cbn [mbind option_bind]. do 2 f_equal. lia.
Qed.

(** Frames one after another from the head of a slice. *)
Fixpoint scan (fuel : nat) (l : list Z) : list WalRecord * nat :=
  match fuel with
  | O => ([], 0%nat)
  | S fuel =>
      match head_frame l with
      | None => ([], 0%nat)
      | Some (r, n) => let '(rs, k) := scan fuel (drop n l) in (r :: rs, (n + k)%nat)
      end
  end.

Lemma head_frame_bound l r n : head_frame l = Some (r, n) → (8 ≤ n ≤ length l)%nat.
Proof.
  unfold head_frame, decode_frame. destruct (Nat.ltb_spec (length l) (0 + 8)); [done|].
  destruct (Nat.ltb_spec (length l) (0 + 8 + Z.to_nat (le_val (take 4 (drop 0 l))))); [done|].
  destruct (negb _); [done|]. destruct (de _) as [r'|]; [|done].
  destruct r'; try (intros [= <- <-]; lia). destruct (existsb _ _); [done|]. intros [= <- <-]; lia.
Qed.

Lemma decode_loop_scan fuel bytes recs pos :
  (pos ≤ length bytes)%nat →
  decode_loop fuel bytes recs pos = let '(rs, k) := scan fuel (drop pos bytes) in (recs ++ rs, (pos + k)%nat).
Proof.
  revert recs pos; induction fuel as [|fuel IH]; intros recs pos Hp; cbn [decode_loop scan].
  { by rewrite app_nil_r, Nat.add_0_r. }
  rewrite decode_frame_drop by done. destruct (head_frame (drop pos bytes)) as [[r n]|] eqn:E; cbn [mbind option_bind].
  - apply head_frame_bound in E. rewrite length_drop in E. rewrite IH by lia. rewrite drop_drop.
    destruct (scan fuel (drop (pos + n) bytes)) as [rs k]. rewrite <-app_assoc. f_equal. lia.
  - by rewrite app_nil_r, Nat.add_0_r.
Qed.

Lemma decode_all_scan bytes : decode_all bytes = scan (S (length bytes)) bytes.
Proof.
  unfold decode_all. rewrite decode_loop_scan by lia. rewrite drop_0. by destruct (scan _ bytes).
Qed.

Lemma scan_fuel f1 f2 l : (length l < f1)%nat → (length l < f2)%nat → scan f1 l = scan f2 l.
Proof.
  revert f2 l; induction f1 as [|f1 IH]; intros [|f2] l H1 H2; try lia. cbn [scan].
  destruct (head_frame l) as [[r n]|] eqn:E; [|done]. apply head_frame_bound in E.
  by rewrite (IH f2) by (rewrite length_drop; lia).
Qed.

(** Decoding, frame by frame. *)
Lemma decode_all_step bytes :
  decode_all bytes =
  match head_frame bytes with
  | None => ([], 0%nat)
  | Some (r, n) => let '(rs, k) := decode_all (drop n bytes) in (r :: rs, (n + k)%nat)
  end.
Proof.
  rewrite decode_all_scan. cbn [scan]. destruct (head_frame bytes) as [[r n]|] eqn:E; [|done].
  apply head_frame_bound in E. rewrite decode_all_scan. rewrite (scan_fuel _ (S (length (drop n bytes)))); [done|..];
    rewrite length_drop; lia.
Qed.

Lemma length_frame payload : length (frame payload) = (8 + length payload)%nat.
Proof. unfold frame. rewrite !length_app, !length_le_bytes. lia. Qed.

(** The header of a frame whose payload may be cut short. *)
Lemma frame_header payload cut :
  len_z payload < 2 ^ 32 → in_u 32 (crc payload) →
  let l := le_bytes 4 (wrap_u 32 (len_z payload)) ++ le_bytes 4 (crc payload) ++ cut in
  Z.to_nat (le_val (take 4 (drop 0 l))) = length payload ∧ le_val (take 4 (drop 4 l)) = crc payload ∧ drop 8 l = cut.
Proof.
  cbv zeta. intros Hp Hc. pose proof (len_z_nonneg payload). rewrite wrap_u_id by (unfold in_u; lia).
  set (l := _ ++ _). split_and!.
  - rewrite drop_0. unfold l. rewrite take_app_length' by by rewrite length_le_bytes.
    rewrite le_val_bytes by (change (256 ^ Z.of_nat 4) with (2 ^ 32); lia). unfold len_z. lia.
  - unfold l. rewrite drop_app_length' by by rewrite length_le_bytes. rewrite take_app_length' by by rewrite length_le_bytes.
    rewrite le_val_bytes by exact Hc. done.
  - unfold l. rewrite app_assoc, drop_app_length' by (by rewrite length_app, !length_le_bytes). done.
Qed.

Lemma head_frame_of payload r rest :
  accepts payload r → head_frame (frame payload ++ rest) = Some (r, length (frame payload)).
Proof.
  intros (Hd & Hn & Hp & Hc). destruct (frame_header payload (payload ++ rest) Hp Hc) as (H1 & H2 & H3).
  assert (frame payload ++ rest = le_bytes 4 (wrap_u 32 (len_z payload)) ++ le_bytes 4 (crc payload) ++ payload ++ rest) as El
    by (unfold frame; by rewrite <-!app_assoc).
  unfold head_frame, decode_frame. cbn [Nat.add]. rewrite length_app, length_frame.
  rewrite (proj2 (Nat.ltb_ge _ _)) by lia. rewrite El, H1, H2, H3, (proj2 (Nat.ltb_ge _ _)) by lia.
  rewrite take_app_length, Z.eqb_refl, Hd. cbn [negb].
  destruct r; try done. simpl in Hn. by rewrite Hn.
Qed.

(** A frame cut short is not a frame. *)
Lemma head_frame_torn payload cut :
  len_z payload < 2 ^ 32 → in_u 32 (crc payload) → cut `prefix_of` frame payload → cut ≠ frame payload →
  head_frame cut = None.
Proof.
  intros Hp Hc [rest Hcut] Hne. assert (length cut < 8 + length payload)%nat as Hlt.
  { rewrite <-length_frame, Hcut, length_app. destruct rest; [|simpl; lia]. by rewrite app_nil_r in Hcut. }
  unfold head_frame, decode_frame. cbn [Nat.add]. destruct (Nat.ltb_spec (length cut) 8); [done|].
  assert (cut = le_bytes 4 (wrap_u 32 (len_z payload)) ++ le_bytes 4 (crc payload) ++ drop 8 cut) as Ecut.
  { assert (take 8 cut = le_bytes 4 (wrap_u 32 (len_z payload)) ++ le_bytes 4 (crc payload)) as E.
    { assert (take 8 (frame payload) = take 8 cut) as <- by (rewrite Hcut, take_app_le by lia; done).
      unfold frame. rewrite app_assoc, take_app_length' by (by rewrite length_app, !length_le_bytes). done. }
    rewrite app_assoc, <-E. by rewrite take_drop. }
  destruct (frame_header payload (drop 8 cut) Hp Hc) as (H1 & _ & _). rewrite <-Ecut in H1. rewrite H1.
  by rewrite (proj2 (Nat.ltb_lt _ _)) by lia.
Qed.

(** What is accepted was a frame. *)
Lemma head_frame_inv l r n :
  Forall is_byte l → head_frame l = Some (r, n) →
  ∃ payload, l = frame payload ++ drop n l ∧ n = length (frame payload) ∧ accepts payload r.
Proof.
  intros Hb Hh. pose proof (head_frame_bound _ _ _ Hh) as Hn. unfold head_frame, decode_frame in Hh.
  change (0 + 8)%nat with 8%nat in Hh. change (0 + 4)%nat with 4%nat in Hh.
  destruct (Nat.ltb_spec (length l) 8) as [|H8]; [done|]. rewrite drop_0 in Hh.
  set (lb := take 4 l) in *. set (cb := take 4 (drop 4 l)) in *. set (len := Z.to_nat (le_val lb)) in *.
  destruct (Nat.ltb_spec (length l) (8 + len)) as [|Hlen]; [done|].
  set (payload := take len (drop 8 l)) in *. destruct (Z.eqb_spec (crc payload) (le_val cb)) as [Hc|]; [|done]. cbn [negb] in Hh.
  assert (length lb = 4%nat ∧ length cb = 4%nat) as [Hlb Hcb] by (unfold lb, cb; rewrite !length_take, length_drop; lia).
  assert (length payload = len) as Hpl by (unfold payload; rewrite length_take, length_drop; lia).
  assert (Forall is_byte lb ∧ Forall is_byte cb) as [Hbl Hbc] by (unfold lb, cb; split; [by apply Forall_take|by apply Forall_take, Forall_drop]).
  pose proof (le_val_range lb Hbl) as Hr. pose proof (le_val_range cb Hbc) as Hrc. rewrite Hlb in Hr. rewrite Hcb in Hrc.
  change (256 ^ Z.of_nat 4) with (2 ^ 32) in Hr, Hrc.
  assert (len_z payload = le_val lb) as Hlz by (unfold len_z; rewrite Hpl; unfold len; lia).
  assert (n = (8 + len)%nat ∧ de payload = Some r ∧ nested r = false) as (-> & Hd & Hnest).
  { destruct (de payload) as [r'|]; [|done]. destruct r'; try (injection Hh as <- <-; by split_and!).
    destruct (existsb is_batch inner) eqn:E; [done|]. injection Hh as <- <-. by split_and!. }
  exists payload. split_and!; [|rewrite length_frame; lia|].
  - unfold frame. rewrite Hlz, wrap_u_id by (unfold in_u; lia). rewrite Hc.
    replace (le_bytes 4 (le_val lb)) with lb by (rewrite <-Hlb at 1; by rewrite le_bytes_val).
    replace (le_bytes 4 (le_val cb)) with cb by (rewrite <-Hcb at 1; by rewrite le_bytes_val).
    unfold payload. rewrite <-!app_assoc. rewrite <-drop_drop, take_drop. unfold cb. change 8%nat with (4 + 4)%nat. rewrite <-drop_drop, take_drop. unfold lb. by rewrite take_drop.
  - split_and!; [done|done|lia|]. rewrite Hc. exact Hrc.
Qed.

Lemma decode_all_frame payload r rest :
  accepts payload r →
  decode_all (frame payload ++ rest) =
  let '(rs, k) := decode_all rest in (r :: rs, (length (frame payload) + k)%nat).
Proof. intros Ha. rewrite decode_all_step, (head_frame_of payload r rest) by done. by rewrite drop_app_length. Qed.

Lemma decode_all_torn payload cut :
  len_z payload < 2 ^ 32 → in_u 32 (crc payload) → cut `prefix_of` frame payload → cut ≠ frame payload →
  decode_all cut = ([], 0%nat).
Proof. intros. rewrite decode_all_step. by erewrite head_frame_torn. Qed.

(** The log of a list of payloads. *)
Definition log (payloads : list (list Z)) : list Z := payloads ≫= frame.

Lemma decode_all_log payloads rs rest :
  Forall2 accepts payloads rs →
  decode_all (log payloads ++ rest) =
  let '(rs', k) := decode_all rest in (rs ++ rs', (length (log payloads) + k)%nat).
Proof.
  unfold log. induction 1 as [|p r ps rs Ha _ IH]; [simpl; by destruct (decode_all rest)|].
  rewrite bind_cons, <-app_assoc, (decode_all_frame p r), IH by done.
  destruct (decode_all rest) as [rs' k]. cbn [app]. f_equal. rewrite length_app. lia.
Qed.

(** Any slice is a log and a tail that holds no frame. *)
Lemma decode_all_inv_len n bytes rs k :
  (length bytes ≤ n)%nat → Forall is_byte bytes → decode_all bytes = (rs, k) →
  ∃ payloads, Forall2 accepts payloads rs ∧ bytes = log payloads ++ drop k bytes ∧ k = length (log payloads)
    ∧ decode_all (drop k bytes) = ([], 0%nat).
Proof.
  revert bytes rs k. induction n as [|n IH]; intros bytes rs k Hn Hb Hd; rewrite decode_all_step in Hd;
    (destruct (head_frame bytes) as [[r m]|] eqn:Eh; cycle 1;
     [injection Hd as <- <-; exists []; rewrite drop_0; split_and!; [constructor|done|done|rewrite decode_all_step; by rewrite Eh]|]).
  { apply head_frame_bound in Eh. lia. }
  pose proof (head_frame_bound _ _ _ Eh) as Hm. destruct (head_frame_inv _ _ _ Hb Eh) as (p & Hl & Hp & Ha).
  destruct (decode_all (drop m bytes)) as [rs' k'] eqn:E. injection Hd as <- <-.
  destruct (IH (drop m bytes) rs' k') as (ps & Hps & Hbytes & Hk & Hstop); [rewrite length_drop; lia|by apply Forall_drop|done|].
  exists (p :: ps). unfold log in *. rewrite bind_cons, length_app. rewrite drop_drop in Hbytes, Hstop.
  split_and!; [by constructor| |lia|done]. rewrite <-app_assoc, <-Hbytes. exact Hl.
Qed.

Lemma decode_all_inv bytes :
  Forall is_byte bytes → let '(rs, k) := decode_all bytes in
  ∃ payloads, Forall2 accepts payloads rs ∧ bytes = log payloads ++ drop k bytes ∧ k = length (log payloads)
    ∧ decode_all (drop k bytes) = ([], 0%nat).
Proof. intros Hb. destruct (decode_all bytes) as [rs k] eqn:E. by eapply decode_all_inv_len. Qed.

(** ** What bincode and crc32 promise *)

Definition codec_ok : Prop :=
  (∀ r payload, ser r = Some payload → de payload = Some r) ∧ (∀ payload, in_u 32 (crc payload)).

(** [r] was encoded as [f]: no null, no nested batch, a length that fits. *)
Definition encoded (r : WalRecord) (f : list Z) : Prop :=
  try_encode_record r = Ok f ∧ nested r = false ∧ len_z f < 2 ^ 32.

Lemma encoded_accepts r f :
  codec_ok → encoded r f → carries_null r = false ∧ ∃ payload, f = frame payload ∧ accepts payload r.
Proof.
  intros [Hs Hc] (He & Hn & Hl). unfold try_encode_record in He. destruct (carries_null r); [done|].
  destruct (ser r) as [payload|] eqn:E; [|done]. injection He as <-. split; [done|]. exists payload. split; [done|].
  split_and!; [by apply Hs|done| |apply Hc]. unfold len_z in *. rewrite length_frame in Hl. lia.
Qed.

Lemma encoded_all rs fs :
  codec_ok → Forall2 encoded rs fs → ∃ payloads, concat fs = log payloads ∧ Forall2 accepts payloads rs.
Proof.
  intros Hok. induction 1 as [|r f rs fs He _ (ps & Hc & Ha)]; [by exists []|].
  destruct (encoded_accepts r f Hok He) as (_ & p & -> & Hp). exists (p :: ps). unfold log in *. cbn [concat].
  rewrite bind_cons, Hc. split; [done|by constructor].
Qed.

Lemma decode_all_nil : decode_all [] = ([], 0%nat).
Proof. done. Qed.

(** C7: a crash in the middle of a write loses only the torn frame: cutting the
    log anywhere, the decoder returns exactly the records of the whole frames
    before the cut and the offset where they end, the offset at which the log
    can be truncated and written on. *)
Theorem wal_torn_tail (rs : list WalRecord) (fs : list (list Z)) (n : nat) :
  codec_ok → Forall2 encoded rs fs →
  ∃ k, decode_all (take n (concat fs)) = (take k rs, length (concat (take k fs)))
       ∧ (k ≤ length rs)%nat ∧ (length (concat (take k fs)) ≤ n)%nat
       ∧ ((k < length rs)%nat → (n < length (concat (take (S k) fs)))%nat).
Proof.
  intros Hok Hf. revert n; induction Hf as [|r f rs fs He Hf IH]; intros n.
  { exists 0%nat. cbn [concat]. rewrite take_nil, decode_all_nil. split_and!; [done|done|simpl; lia|simpl; lia]. }
  destruct (encoded_accepts r f Hok He) as (_ & p & -> & Ha). cbn [concat].
  destruct (decide (length (frame p) ≤ n)%nat) as [Hle|Hgt].
  - rewrite take_app_ge by done. rewrite (decode_all_frame p r) by done.
    destruct (IH (n - length (frame p))%nat) as (k & -> & Hk & Hn & Hs). exists (S k). cbn [take concat length].
    rewrite !length_app in *. split_and!; [done|lia|lia|]. intros Hlt. specialize (Hs ltac:(lia)). cbn [take] in Hs. lia.
  - exists 0%nat. rewrite take_app_le by lia. destruct Ha as (_ & _ & Hp & Hc).
    rewrite (decode_all_torn p); [|done|done|by exists (drop n (frame p)); rewrite take_drop|].
    + cbn [take concat length]. split_and!; [done|lia|lia|]. intros _. rewrite app_nil_r. lia.
    + intros Heq. apply (f_equal length) in Heq. rewrite length_take in Heq. lia.
Qed.
End wal.

(** C34: what was appended is what is read back: encoding records one after
    another (none refused, none holding a nested batch, each frame below 4
    GiB) and decoding the log gives exactly those records and the log's
    length, the commit count is their number, and no record on disk carries a
    null property value. *)
Theorem wal_roundtrip ser de crc (rs : list WalRecord) (fs : list (list Z)) :
  codec_ok ser de crc → Forall2 (encoded ser crc) rs fs →
  decode_all de crc (concat fs) = (rs, length (concat fs)) ∧
  (Z.of_nat (length rs) < 2 ^ 64 → wal_commits de crc (concat fs) = Z.of_nat (length rs)) ∧
  Forall (λ r, carries_null r = false) rs.
Proof.
  intros Hok Hf. destruct (encoded_all ser de crc rs fs Hok Hf) as (ps & Hc & Ha).
  assert (decode_all de crc (concat fs) = (rs, length (concat fs))) as Hd.
  { rewrite Hc. rewrite <-(app_nil_r (log crc ps)) at 1. rewrite (decode_all_log de crc ps rs) by done.
    rewrite decode_all_nil, app_nil_r, Nat.add_0_r. done. }
  split_and!; [done| |].
  - intros Hl. unfold wal_commits. rewrite Hd. cbn [fst]. apply wrap_u_id. unfold in_u. lia.
  - clear -Hok Hf. induction Hf as [|r f rs fs He _ IH]; constructor; [|done]. by destruct (encoded_accepts ser de crc r f Hok He).
Qed.

(** A codec for node deletions alone, and a constant checksum. *)
Definition toy_ser (r : WalRecord) : option (list Z) := match r with DeleteNode key => Some (as_bytes key) | _ => None end.
Definition toy_de (l : list Z) : option WalRecord := Some (DeleteNode (of_bytes l)).
Definition toy_crc (_ : list Z) : Z := 5.
Definition toy_frames : list (list Z) := [[1; 0; 0; 0; 5; 0; 0; 0; 97]; [2; 0; 0; 0; 5; 0; 0; 0; 98; 99]].

Lemma toy_ok : codec_ok toy_ser toy_de toy_crc.
Proof.
  split; [|done]. intros r payload. destruct r; try done. intros [= <-]. unfold toy_de. by rewrite of_bytes_as_bytes.
Qed.

Lemma toy_encoded : Forall2 (encoded toy_ser toy_crc) [DeleteNode "a"; DeleteNode "bc"] toy_frames.
Proof. by repeat constructor. Qed.

Lemma wal_roundtrip_witness :
  decode_all toy_de toy_crc (concat toy_frames) = ([DeleteNode "a"; DeleteNode "bc"], length (concat toy_frames)).
Proof. exact (proj1 (wal_roundtrip toy_ser toy_de toy_crc _ _ toy_ok toy_encoded)). Defined.

Lemma wal_torn_tail_witness :
  ∃ k, decode_all toy_de toy_crc (take 15 (concat toy_frames))
       = (take k [DeleteNode "a"; DeleteNode "bc"], length (concat (take k toy_frames)))
       ∧ (length (concat (take k toy_frames)) ≤ 15)%nat.
Proof.
  destruct (wal_torn_tail toy_ser toy_de toy_crc _ _ 15 toy_ok toy_encoded) as (k & Hd & _ & Hn & _).
  exists k. split; [exact Hd|exact Hn].
Defined.

(** C10: recovery is stable on any bytes at all, whatever corruption they hold:
    the offset the decoder reports lies within them, truncating there and
    decoding again gives the same records and the same offset, and a record
    appended after the truncation is read back right after them. *)
Theorem wal_recovery ser de crc (bytes : list Z) (r : WalRecord) (f : list Z) :
  codec_ok ser de crc → Forall is_byte bytes → encoded ser crc r f →
  let '(rs, k) := decode_all de crc bytes in
  (k ≤ length bytes)%nat ∧
  decode_all de crc (take k bytes) = (rs, k) ∧
  decode_all de crc (take k bytes ++ f) = (rs ++ [r], (k + length f)%nat).
Proof.
  intros Hok Hb He. pose proof (decode_all_inv de crc bytes Hb) as Hinv.
  destruct (decode_all de crc bytes) as [rs k]. destruct Hinv as (ps & Ha & Hbytes & Hk & _).
  assert (take k bytes = log crc ps) as Htake by (rewrite Hbytes, Hk; by rewrite take_app_length).
  split; [rewrite Hbytes, length_app; lia|]. rewrite Htake. split.
  - rewrite <-(app_nil_r (log crc ps)). rewrite (decode_all_log de crc ps rs), decode_all_nil by done.
    by rewrite app_nil_r, Nat.add_0_r, Hk.
  - rewrite (decode_all_log de crc ps rs) by done. destruct (encoded_accepts ser de crc r f Hok He) as (_ & p & -> & Hp).
    rewrite <-(app_nil_r (frame crc p)) at 1. rewrite (decode_all_frame de crc p r), decode_all_nil by done.
    rewrite Nat.add_0_r, Hk. done.
Qed.

Lemma wal_recovery_witness :
  decode_all toy_de toy_crc (take 9 [1; 0; 0; 0; 5; 0; 0; 0; 97; 255; 255; 3])
  = ([DeleteNode "a"], 9%nat).
Proof.
  pose proof (wal_recovery toy_ser toy_de toy_crc [1; 0; 0; 0; 5; 0; 0; 0; 97; 255; 255; 3] (DeleteNode "a")
    [1; 0; 0; 0; 5; 0; 0; 0; 97] toy_ok) as H.
  destruct H as (_ & H & _).
  - repeat constructor; discriminate.
  - repeat constructor.
  - exact H.
Defined.
End Wal.
