(* ===== verification/Rfc3339.v ===== *)
(** * Dates in queries

    Models the RFC 3339 parser of [crates/core-storage/src/commit_times.rs],
    through which every surface turns a date into an instant.

    A [&str] is the list of its characters, each its Unicode scalar value;
    [byte_len] is [str::len].  A function that returns [Option] and can panic
    has the type [result stop]: [Err NoValue] is [None], [Err Panic] a panic.
    The arithmetic is [i64]'s with overflow checks ([chk]); without them an
    overflow wraps. *)

From Stdlib Require Import Ascii.
From S2P Require Import Prelude Bytes Calendar Decimal.

Module Rfc3339.

Inductive stop := NoValue | Panic.

(** One [i64] operation. *)
Definition chk (z : Z) : result stop Z := if in_ib 64 z then Ok z else Err Panic.
(** [e?] on an [Option] *)
Definition try_ {A} (o : option A) : result stop A := ok_or o NoValue.
Definition ensure (b : bool) : result stop unit := if b then Ok tt else Err NoValue.

(** ** [str] *)

(** [char::len_utf8] *)
Definition len_utf8 (c : Z) : Z := if c <? 128 then 1 else if c <? 2048 then 2 else if c <? 65536 then 3 else 4.
Definition byte_len (s : list Z) : Z := foldr (λ c n, len_utf8 c + n) 0 s.

(** [char::is_whitespace]: the Unicode property [White_Space]. *)
Definition is_whitespace (c : Z) : bool :=
  ((9 <=? c) && (c <=? 13)) || (c =? 32) || (c =? 133) || (c =? 160) || (c =? 5760)
  || ((8192 <=? c) && (c <=? 8202)) || (c =? 8232) || (c =? 8233) || (c =? 8239) || (c =? 8287) || (c =? 12288).

Fixpoint trim_start (s : list Z) : list Z :=
  match s with c :: s' => if is_whitespace c then trim_start s' else s | [] => [] end.
(** [str::trim] *)
Definition trim (s : list Z) : list Z := reverse (trim_start (reverse (trim_start s))).

(** The text before and after the first character of a class: [find] with the
    two slices around the match, and [split_once]. *)
Fixpoint split_once (p : Z → bool) (s : list Z) : option (list Z * list Z) :=
  match s with
  | [] => None
  | c :: s => if p c then Some ([], s) else (λ '(a, b), (c :: a, b)) <$> split_once p s
  end.

(** [rfind] and [split_at]: the second part starts with the match. *)
Fixpoint split_last (p : Z → bool) (s : list Z) : option (list Z * list Z) :=
  match s with
  | [] => None
  | c :: s =>
      match split_last p s with
      | Some (a, b) => Some (c :: a, b)
      | None => if p c then Some ([], c :: s) else None
      end
  end.

(** [str::split] on a character; never empty. *)
Fixpoint split (sep : Z) (s : list Z) : list (list Z) :=
  match s with
  | [] => [[]]
  | c :: s =>
      if c =? sep then [] :: split sep s
      else match split sep s with piece :: pieces => (c :: piece) :: pieces | [] => [[c]] end
  end.

(** [str::strip_suffix] *)
Definition strip_suffix (c : Z) (s : list Z) : option (list Z) :=
  match reverse s with x :: r => if x =? c then Some (reverse r) else None | [] => None end.

(** [&s[..n]] and [&s[n..]]; a panic when byte [n] is not a character boundary. *)
Fixpoint split_at_byte (fuel : nat) (n : Z) (s : list Z) : result stop (list Z * list Z) :=
  if n =? 0 then Ok ([], s)
  else
    match fuel, s with
    | S fuel, c :: s =>
        if n <? len_utf8 c then Err Panic
        else '(a, b) ← split_at_byte fuel (n - len_utf8 c) s; Ok (c :: a, b)
    | _, _ => Err Panic
    end.

(** ** The parser *)

(** [digits]; the bytes of a string are all ASCII digits exactly when its
    characters are. *)
Definition digits (s : list Z) : option Z :=
  if match s with [] => true | _ => false end || negb (forallb is_digit s) then None else parse_i 64 s.

(** [days_from_civil] *)
Definition days_from_civil (y m d : Z) : result stop Z :=
  y ← if m <=? 2 then chk (y - 1) else Ok y;
  n ← if 0 <=? y then Ok y else chk (y - 399);
  let era := Z.quot n 400 in
  e ← chk (era * 400); yoe ← chk (y - e);
  m9 ← chk (m + 9);
  let mp := Z.rem m9 12 in
  a ← chk (153 * mp); a ← chk (a + 2); a ← chk (Z.quot a 5 + d); doy ← chk (a - 1);
  b ← chk (yoe * 365); b ← chk (b + Z.quot yoe 4); b ← chk (b - Z.quot yoe 100); doe ← chk (b + doy);
  c ← chk (era * 146097); c ← chk (c + doe); chk (c - 719468).

Definition is_sep (c : Z) : bool := (c =? ch "T") || (c =? ch "t") || (c =? ch " ").
Definition is_sign (c : Z) : bool := (c =? ch "+") || (c =? ch "-").

Definition in_range (lo hi z : Z) : bool := (lo <=? z) && (z <=? hi).

(** The date: three fields of digits, months 1 to 12, days 1 to 31, years from 1. *)
Definition parse_date (date : list Z) : result stop Z :=
  match split (ch "-") date with
  | [y; mo; d] =>
      y ← try_ (digits y); mo ← try_ (digits mo); d ← try_ (digits d);
      _ ← ensure (in_range 1 12 mo && in_range 1 31 d && (1 <=? y));
      days_from_civil y mo d
  | _ => Err NoValue
  end.

(** The hours and minutes of an offset. *)
Definition offset_fields (off : list Z) : result stop (Z * Z) :=
  match split_once (λ c, c =? ch ":") off with
  | Some (a, b) => a ← try_ (digits a); b ← try_ (digits b); Ok (a, b)
  | None =>
      if byte_len off =? 4 then
        '(a, _) ← split_at_byte (length off) 2 off; a ← try_ (digits a);
        '(_, b) ← split_at_byte (length off) 2 off; b ← try_ (digits b); Ok (a, b)
      else Err NoValue
  end.

Definition offset_ms (sign oh om : Z) : result stop Z :=
  a ← chk (oh * 3600000); b ← chk (om * 60000); ab ← chk (a + b); chk (sign * ab).

(** The offset and the text of the time of day before it. *)
Definition parse_zone (rest : list Z) : result stop (list Z * Z) :=
  match (match strip_suffix (ch "Z") rest with Some t => Some t | None => strip_suffix (ch "z") rest end) with
  | Some t => Ok (t, 0)
  | None =>
      match split_last is_sign rest with
      | Some (t, off) =>
          let sign := match off with c :: _ => if c =? ch "-" then -1 else 1 | [] => 1 end in
          let off := drop 1 off in
          '(oh, om) ← offset_fields off;
          _ ← ensure (in_range 0 23 oh && in_range 0 59 om);
          off_ms ← offset_ms sign oh om;
          Ok (t, off_ms)
      | None => Ok (rest, 0)
      end
  end.

(** The milliseconds of up to three digits of a fraction. *)
Fixpoint frac_ms (i : Z) (frac : list Z) : Z :=
  match frac with
  | [] => 0
  | b :: frac => if 3 <=? i then 0 else (b - 48) * 10 ^ (2 - i) + frac_ms (i + 1) frac
  end.

(** The seconds field. *)
Definition parse_seconds (field : list Z) : result stop (Z * Z) :=
  match split_once (λ c, c =? ch ".") field with
  | None => s ← try_ (digits field); Ok (s, 0)
  | Some (whole, frac) =>
      _ ← ensure (negb (match frac with [] => true | _ => false end || negb (forallb is_digit frac)));
      s ← try_ (digits whole); Ok (s, frac_ms 0 frac)
  end.

(** The time of day: hours, minutes, seconds and milliseconds. *)
Definition parse_time (time : list Z) : result stop (Z * Z * Z * Z) :=
  match split (ch ":") time with
  | h :: mi :: more =>
      h ← try_ (digits h); mi ← try_ (digits mi);
      '(sec, frac) ← match more with [] => Ok (0, 0) | field :: _ => parse_seconds field end;
      _ ← ensure (match more with _ :: _ :: _ => false | _ => true end);
      _ ← ensure (in_range 0 23 h && in_range 0 59 mi && in_range 0 60 sec);
      Ok (h, mi, sec, frac)
  | h :: [] => _ ← try_ (digits h); Err NoValue
  | [] => Err NoValue
  end.

(** The sum at the end of [parse_rfc3339_ms]. *)
Definition instant_ms (days h mi sec frac offset_ms : Z) : result stop Z :=
  a ← chk (days * 86400000); b ← chk (h * 3600000); ab ← chk (a + b);
  c ← chk (mi * 60000); abc ← chk (ab + c); d ← chk (sec * 1000); abcd ← chk (abc + d);
  e ← chk (abcd + frac); chk (e - offset_ms).

(** [parse_rfc3339_ms] *)
Definition parse_rfc3339_ms (s : list Z) : result stop Z :=
  let s := trim s in
  let '(date, rest) := match split_once is_sep s with Some (date, rest) => (date, Some rest) | None => (s, None) end in
  days ← parse_date date;
  match rest with
  | None => chk (days * 86400000)
  | Some rest =>
      '(time, offset_ms) ← parse_zone rest;
      '(h, mi, sec, frac) ← parse_time time;
      instant_ms days h mi sec frac offset_ms
  end.

(** [parse_rfc3339_end_ms] *)
Definition parse_rfc3339_end_ms (s : list Z) : result stop Z :=
  let t := trim s in
  ms ← parse_rfc3339_ms t;
  let date_only := negb (existsb (λ c, (c =? ch "T") || (c =? ch "t")) t) && negb (existsb (λ c, c =? ch " ") t) in
  if date_only then e ← chk (ms + 86400000); chk (e - 1) else Ok ms.

Fixpoint text (s : string) : list Z :=
  match s with EmptyString => [] | String c s => ch c :: text s end.

(** ** Strings *)

Section classes.
Context (p : Z → bool).

Lemma split_once_Some s a b : split_once p s = Some (a, b) ↔ ∃ c, s = a ++ c :: b ∧ p c = true ∧ Forall (λ c, p c = false) a.
Proof.
  split.
  - revert a; induction s as [|c s IH]; intros a; [done|]. cbn [split_once]. destruct (p c) eqn:Ec.
    + intros [= <- <-]. exists c. split_and!; [done|done|constructor].
    + intros ([a' b'] & Hs & [= -> ->])%fmap_Some. destruct (IH a' Hs) as (c' & -> & Hc & Ha). exists c'. split_and!; [done|done|by constructor].
  - intros (c & -> & Hc & Ha). induction Ha as [|x a Hx Ha IH]; cbn [app split_once]; [by rewrite Hc|]. by rewrite Hx, IH.
Qed.

Lemma split_once_None s : split_once p s = None ↔ Forall (λ c, p c = false) s.
Proof.
  induction s as [|c s IH]; cbn [split_once]; [split; [constructor|done]|]. rewrite Forall_cons. destruct (p c) eqn:Ec; [split; [done|by intros [? _]]|].
  rewrite fmap_None, IH. tauto.
Qed.

Lemma split_last_None s : split_last p s = None ↔ Forall (λ c, p c = false) s.
Proof.
  induction s as [|c s IH]; cbn [split_last]; [split; [constructor|done]|]. rewrite Forall_cons.
  destruct (split_last p s) as [[a b]|]; [split; [done|intros [_ H%IH]; done]|]. destruct (p c); [split; [done|by intros [? _]]|]. tauto.
Qed.

Lemma split_last_Some s a b : split_last p s = Some (a, b) ↔ ∃ c b', b = c :: b' ∧ s = a ++ b ∧ p c = true ∧ Forall (λ c, p c = false) b'.
Proof.
  split.
  - revert a; induction s as [|c s IH]; intros a; [done|]. cbn [split_last]. destruct (split_last p s) as [[a' b'']|] eqn:E.
    + intros [= <- ->]. destruct (IH a' eq_refl) as (c' & b' & -> & -> & ?). by exists c', b'.
    + destruct (p c) eqn:Ec; [|done]. intros [= <- <-]. exists c, s. by rewrite <-split_last_None.
  - intros (c & b' & -> & -> & Hc & Hb). induction a as [|x a IH]; cbn [app split_last].
    + rewrite (proj2 (split_last_None _) Hb). by rewrite Hc.
    + by rewrite IH.
Qed.
End classes.

Definition without (sep : Z) (s : list Z) : Prop := Forall (λ c, c ≠ sep) s.

Lemma split_nonempty sep s : split sep s ≠ [].
Proof. destruct s as [|c s]; [done|]. cbn [split]. case_match; [done|]. by case_match. Qed.

Lemma split_without sep s : without sep s → split sep s = [s].
Proof. induction 1 as [|c s Hc Hs IH]; [done|]. cbn [split]. rewrite (proj2 (Z.eqb_neq _ _)) by done. by rewrite IH. Qed.

Lemma split_app sep a b : without sep a → split sep (a ++ sep :: b) = a :: split sep b.
Proof.
  induction 1 as [|c a Hc Ha IH]; cbn [app split]; [by rewrite Z.eqb_refl|]. rewrite (proj2 (Z.eqb_neq _ _)) by done. by rewrite IH.
Qed.

Lemma split_inv sep s x l : split sep s = x :: l →
  without sep x ∧ ((l = [] ∧ s = x) ∨ ∃ rest, s = x ++ sep :: rest ∧ split sep rest = l).
Proof.
  revert x; induction s as [|c s IH]; intros x; cbn [split].
  - intros [= <- <-]. split; [constructor|by left].
  - destruct (Z.eqb_spec c sep) as [->|Hc].
    + intros [= <- <-]. split; [constructor|]. right. by exists s.
    + destruct (split sep s) as [|piece pieces] eqn:E; [by apply split_nonempty in E|]. intros [= <- <-].
      destruct (IH piece eq_refl) as [Hp [[-> ->]|(rest & -> & <-)]]; (split; [by constructor|]); [by left|right; by exists rest].
Qed.

Lemma strip_suffix_Some c s a : strip_suffix c s = Some a ↔ s = a ++ [c].
Proof.
  unfold strip_suffix. split.
  - destruct (reverse s) as [|x r] eqn:E; [done|]. destruct (Z.eqb_spec x c) as [->|]; [|done]. intros [= <-].
    by rewrite <-(reverse_involutive s), E, reverse_cons.
  - intros ->. rewrite reverse_snoc, Z.eqb_refl. by rewrite reverse_involutive.
Qed.

Definition blanks (s : list Z) : Prop := Forall (λ c, is_whitespace c = true) s.

Lemma trim_start_spec s : ∃ pre, blanks pre ∧ s = pre ++ trim_start s.
Proof.
  induction s as [|c s (pre & Hp & Hs)]; [exists []; split; [constructor|done]|]. cbn [trim_start]. destruct (is_whitespace c) eqn:E.
  - exists (c :: pre). split; [by constructor|]. cbn. by f_equal.
  - exists []. split; [constructor|done].
Qed.

Lemma trim_spec s : ∃ pre post, blanks pre ∧ blanks post ∧ s = pre ++ trim s ++ post.
Proof.
  destruct (trim_start_spec s) as (pre & Hpre & Hs). destruct (trim_start_spec (reverse (trim_start s))) as (post & Hpost & Ht).
  exists pre, (reverse post). split_and!; [done|by apply Forall_reverse|]. rewrite Hs at 1. f_equal. unfold trim.
  by rewrite <-reverse_app, <-Ht, reverse_involutive.
Qed.

Lemma trim_start_app pre s : blanks pre → trim_start (pre ++ s) = trim_start s.
Proof. induction 1 as [|c pre Hc Hp IH]; [done|]. cbn [app trim_start]. by rewrite Hc. Qed.

Definition starts_black (s : list Z) : Prop := match s with c :: _ => is_whitespace c = false | [] => False end.

Lemma trim_start_black s t : starts_black s → trim_start (s ++ t) = s ++ t.
Proof. destruct s as [|c s]; [done|]. intros Hc. cbn in *. by rewrite Hc. Qed.

Lemma trim_core pre s post : blanks pre → blanks post → starts_black s → starts_black (reverse s) → trim (pre ++ s ++ post) = s.
Proof.
  intros Hpre Hpost H1 H2. unfold trim. rewrite trim_start_app, trim_start_black by done.
  rewrite reverse_app, trim_start_app by by apply Forall_reverse. rewrite <-(app_nil_r (reverse s)), trim_start_black by done.
  by rewrite app_nil_r, reverse_involutive.
Qed.

(** ** Numbers *)

Definition number (s : list Z) (v : Z) : Prop := s ≠ [] ∧ Decimal.digits s ∧ dec_val s = v ∧ v ≤ i64_max.

Lemma is_digit_range c : is_digit c = true ↔ 48 ≤ c ≤ 57.
Proof. unfold is_digit. by rewrite andb_true_iff, !Z.leb_le. Qed.

Lemma dec_val_nonneg s : Decimal.digits s → 0 ≤ dec_val s.
Proof.
  induction s as [|c s IH] using rev_ind; [done|]. intros [Hs Hc]%Forall_app. rewrite dec_val_app.
  apply Forall_singleton, is_digit_range in Hc. specialize (IH Hs). unfold dec_val at 2. cbn. lia.
Qed.

Lemma all_digits s : forallb is_digit s = true → Decimal.digits s.
Proof. induction s as [|c s IH]; [constructor|]. cbn [forallb]. intros [Hc Hs]%andb_true_iff. constructor; [done|by apply IH]. Qed.

Lemma digits_spec s v : digits s = Some v ↔ number s v.
Proof.
  unfold digits, number, parse_i. destruct s as [|c s]; [split; [done|by intros [? _]]|]. cbn [orb].
  destruct (forallb is_digit (c :: s)) eqn:E; cbn [negb].
  - assert (Decimal.digits (c :: s)) as Hd by by apply all_digits. pose proof (dec_val_nonneg _ Hd) as Hn. unfold try_i.
    destruct (in_ib 64 (dec_val (c :: s))) eqn:Ei.
    + apply in_ib_spec in Ei as [_ Hi]. change (2 ^ (64 - 1)) with (i64_max + 1) in Hi. split; [intros [= <-]; split_and!; done || lia|by intros (_ & _ & -> & _)].
    + split; [done|]. intros (_ & _ & <- & Hm). assert (in_ib 64 (dec_val (c :: s)) = true) as Ht; [|congruence].
      apply in_ib_spec. split; change (2 ^ (64 - 1)) with (i64_max + 1); unfold i64_max in *; lia.
  - split; [done|]. intros (_ & Hd & _). by rewrite forallb_digits in E.
Qed.

Lemma number_nonneg s v : number s v → 0 ≤ v.
Proof. intros (_ & Hd & <- & _). by apply dec_val_nonneg. Qed.

Lemma number_free (p : Z → bool) s v : number s v → (∀ c, 48 ≤ c ≤ 57 → p c = false) → Forall (λ c, p c = false) s.
Proof. intros (_ & Hd & _) Hp. eapply Forall_impl; [exact Hd|]. intros c Hc%is_digit_range. by apply Hp. Qed.

Lemma number_without sep s v : number s v → ¬ 48 ≤ sep ≤ 57 → without sep s.
Proof. intros (_ & Hd & _) Hsep. eapply Forall_impl; [exact Hd|]. intros c Hc%is_digit_range ->. done. Qed.

Lemma digit_black c : is_digit c = true → is_whitespace c = false.
Proof. intros Hc%is_digit_range. unfold is_whitespace. rewrite !orb_false_iff, !andb_false_iff, !Z.leb_gt, !Z.eqb_neq. lia. Qed.

Lemma number_black s v t : number s v → starts_black (s ++ t) ∧ starts_black (reverse (t ++ s)).
Proof.
  intros (Hn & Hd & _). split.
  - destruct s as [|c s]; [done|]. apply Forall_cons in Hd as [Hc _]. by apply digit_black.
  - apply Forall_reverse in Hd. rewrite reverse_app. destruct (reverse s) as [|c r] eqn:E; [by apply (f_equal reverse) in E; rewrite reverse_involutive in E|].
    apply Forall_cons in Hd as [Hc _]. by apply digit_black.
Qed.

(** ** Arithmetic *)

Lemma chk_ok z : i64_min ≤ z ≤ i64_max → chk z = Ok z.
Proof. intros Hz. unfold chk. rewrite (proj2 (in_ib_spec 64 z)); [done|]. unfold in_i, i64_min, i64_max in *. lia. Qed.

Lemma chk_inv z v : chk z = Ok v → v = z.
Proof. unfold chk. case_match; congruence. Qed.

Lemma bind_Ok {A B} (m : result stop A) (f : A → result stop B) v : (m ≫= f) = Ok v → ∃ a, m = Ok a ∧ f a = Ok v.
Proof. destruct m as [a|e]; [by exists a|done]. Qed.

Lemma try_Ok {A} (o : option A) v : try_ o = Ok v ↔ o = Some v.
Proof. destruct o; cbn; split; congruence. Qed.

Lemma ensure_Ok b u : ensure b = Ok u → b = true.
Proof. by destruct b. Qed.

(** Take a computation that returned apart, step by step. *)
Ltac steps H :=
  repeat (let a := fresh "x" in let E := fresh "E" in
          apply bind_Ok in H as (a & E & H);
          lazymatch type of E with
          | chk _ = _ => apply chk_inv in E as ->
          | try_ _ = _ => apply try_Ok in E
          | ensure _ = _ => apply ensure_Ok in E; clear a
          | _ => idtac
          end).

(** A year whose instants fit in [i64] milliseconds, with room to spare. *)
Definition year_max : Z := 200000000.

Lemma era_split y : 0 ≤ y → Z.quot y 400 = y / 400 ∧ y - Z.quot y 400 * 400 = y mod 400 ∧ 0 ≤ y mod 400 < 400 ∧ (0 ≤ y / 400 ∧ 400 * (y / 400) ≤ y).
Proof.
  intros Hy. rewrite Z.quot_div_nonneg by lia. pose proof (Z.div_mod y 400 ltac:(lia)). pose proof (Z.mod_pos_bound y 400 ltac:(lia)).
  split_and!; [done|lia|lia|lia|lia|lia].
Qed.

Lemma month_index m : 1 ≤ m ≤ 12 → Z.rem (m + 9) 12 = Calendar.mp_of m.
Proof. intros Hm. unfold Calendar.mp_of. rewrite Z.rem_mod_nonneg by lia. destruct (Z.ltb_spec 2 m); divlia. Qed.

Lemma days_from_civil_ok y m d : 1 ≤ y ≤ year_max → 1 ≤ m ≤ 12 → 1 ≤ d ≤ 31 →
  days_from_civil y m d = Ok (Calendar.days_from_civil y m d) ∧ -719500 ≤ Calendar.days_from_civil y m d ≤ 100000000000.
Proof.
  intros Hy Hm Hd. unfold year_max in Hy. unfold days_from_civil, Calendar.days_from_civil. fold (Calendar.mp_of m).
  assert (∃ y', (if m <=? 2 then chk (y - 1) else Ok y) = Ok y' ∧ (if m <=? 2 then y - 1 else y) = y' ∧ 0 ≤ y' ≤ 200000000) as (y' & -> & -> & Hy').
  { destruct (Z.leb_spec m 2); [exists (y - 1)|exists y]; (split; [by rewrite ?chk_ok by (unfold i64_min, i64_max; lia)|lia]). }
  destruct (era_split y') as (Eq & Em & Hm4 & Hd4); [lia|]. pose proof (Calendar.month_of_mp m Hm) as [Hmp _].
  cbn [mbind result_bind]. rewrite (proj2 (Z.leb_le 0 y')) by lia. cbn [mbind result_bind]. cbv zeta.
  rewrite (chk_ok (Z.quot y' 400 * 400)) by (unfold i64_min, i64_max; lia). cbn [mbind result_bind]. rewrite Em, Eq.
  set (yoe := y' mod 400) in *. set (era := y' / 400) in *.
  assert (Z.quot yoe 4 = yoe / 4 ∧ Z.quot yoe 100 = yoe / 100 ∧ 0 ≤ yoe / 4 ≤ 100 ∧ 0 ≤ yoe / 100 ≤ 4) as (Q4 & Q100 & ? & ?).
  { rewrite !Z.quot_div_nonneg by lia. split_and!; try done; divlia. }
  rewrite (chk_ok yoe), (chk_ok (m + 9)) by (unfold i64_min, i64_max; lia). cbn [mbind result_bind]. rewrite month_index by done.
  set (mp := Calendar.mp_of m) in *.
  rewrite (chk_ok (153 * mp)) by (unfold i64_min, i64_max; lia). cbn [mbind result_bind].
  rewrite (chk_ok (153 * mp + 2)) by (unfold i64_min, i64_max; lia). cbn [mbind result_bind].
  rewrite (Z.quot_div_nonneg (153 * mp + 2) 5), Q4, Q100 by lia.
  assert (0 ≤ (153 * mp + 2) / 5 ≤ 337) as Hmp5 by divlia.
  repeat (rewrite chk_ok by (unfold i64_min, i64_max; lia); cbn [mbind result_bind]). split; [done|lia].
Qed.

Lemma days_from_civil_inv y m d v : 1 ≤ y → 1 ≤ m ≤ 12 → days_from_civil y m d = Ok v → v = Calendar.days_from_civil y m d.
Proof.
  intros Hy Hm. unfold days_from_civil, Calendar.days_from_civil. fold (Calendar.mp_of m). intros H.
  apply bind_Ok in H as (y' & Ey & H).
  assert ((if m <=? 2 then y - 1 else y) = y' ∧ 0 ≤ y') as [-> Hy'] by (destruct (m <=? 2); [apply chk_inv in Ey|injection Ey]; lia).
  rewrite (proj2 (Z.leb_le 0 y')) in H by lia. cbn [mbind result_bind] in H. steps H. apply chk_inv in H as ->.
  destruct (era_split y' Hy') as (Eq & Em & Hm4 & Hd4). rewrite Em, Eq, month_index by done. pose proof (Calendar.month_of_mp m Hm) as [Hmp _].
  rewrite !Z.quot_div_nonneg by lia. lia.
Qed.

(** ** The grammar *)

(** A date and its year: any number of digits to a field, no month checked for
    its length. *)
Inductive date_text : list Z → Z → Z → Prop :=
| date_fields ys ms ds y m d : number ys y → number ms m → number ds d → 1 ≤ y → 1 ≤ m ≤ 12 → 1 ≤ d ≤ 31 →
    date_text (ys ++ ch "-" :: ms ++ ch "-" :: ds) y (Calendar.days_from_civil y m d).

(** Hours and minutes, with a colon or two digits each. *)
Inductive fields_text : list Z → Z → Z → Prop :=
| fields_colon a b oh om : number a oh → number b om → fields_text (a ++ ch ":" :: b) oh om
| fields_plain a b oh om : number a oh → number b om → length a = 2%nat → length b = 2%nat → fields_text (a ++ b) oh om.

Definition offset_of (c oh om : Z) : Z := (if c =? ch "-" then -1 else 1) * (oh * 3600000 + om * 60000).

(** A zone: none, [Z] or an offset with or without a colon. *)
Inductive zone_text : list Z → Z → Prop :=
| zone_naive : zone_text [] 0
| zone_utc c : c = ch "Z" ∨ c = ch "z" → zone_text [c] 0
| zone_offset c off oh om : is_sign c = true → fields_text off oh om → oh ≤ 23 → om ≤ 59 → zone_text (c :: off) (offset_of c oh om).

(** A time of day: the seconds and their fraction may be left out, and a
    fraction counts up to its third digit. *)
Inductive time_text : list Z → Z → Prop :=
| time_minutes hs ms h m : number hs h → number ms m → h ≤ 23 → m ≤ 59 →
    time_text (hs ++ ch ":" :: ms) (h * 3600000 + m * 60000)
| time_seconds hs ms ss h m s : number hs h → number ms m → number ss s → h ≤ 23 → m ≤ 59 → s ≤ 60 →
    time_text (hs ++ ch ":" :: ms ++ ch ":" :: ss) (h * 3600000 + m * 60000 + s * 1000)
| time_fraction hs ms ss fs h m s : number hs h → number ms m → number ss s → h ≤ 23 → m ≤ 59 → s ≤ 60 → fs ≠ [] → Decimal.digits fs →
    time_text (hs ++ ch ":" :: ms ++ ch ":" :: ss ++ ch "." :: fs)
      (h * 3600000 + m * 60000 + s * 1000 + dec_val (take 3 (fs ++ text "00"))).

(** The accepted texts, with their year, the instant they denote, and whether
    they name a day rather than an instant of it. *)
Inductive rfc3339 : list Z → Z → Z → bool → Prop :=
| rfc3339_date pre post date y days : blanks pre → blanks post → date_text date y days →
    rfc3339 (pre ++ date ++ post) y (days * 86400000) true
| rfc3339_instant pre post date sep time zone y days ms off : blanks pre → blanks post → date_text date y days → is_sep sep = true →
    time_text time ms → zone_text zone off → rfc3339 (pre ++ (date ++ sep :: time ++ zone) ++ post) y (days * 86400000 + ms - off) false.

(** ** The date *)

Lemma in_range_spec lo hi z : in_range lo hi z = true ↔ lo ≤ z ≤ hi.
Proof. unfold in_range. by rewrite andb_true_iff, !Z.leb_le. Qed.

Lemma ensure_true b : b = true → ensure b = Ok tt.
Proof. by intros ->. Qed.

Lemma try_number s v : number s v → try_ (digits s) = Ok v.
Proof. intros Hn. apply try_Ok. by apply digits_spec. Qed.

Lemma split_date ys ms ds y m d : number ys y → number ms m → number ds d →
  split (ch "-") (ys ++ ch "-" :: ms ++ ch "-" :: ds) = [ys; ms; ds].
Proof.
  intros Hy Hm Hd. rewrite !split_app, split_without by (eapply number_without; [eassumption|by vm_compute; intuition]). done.
Qed.

Lemma parse_date_ok s y days : date_text s y days → y ≤ year_max → parse_date s = Ok days ∧ -719500 ≤ days ≤ 100000000000.
Proof.
  intros [ys ms ds y' m d Hy Hm Hd H1 H2 H3] Hmax. unfold parse_date. rewrite (split_date _ _ _ y' m d) by done.
  rewrite (try_number ys y'), (try_number ms m), (try_number ds d) by done. cbn [mbind result_bind].
  rewrite ensure_true by (rewrite !andb_true_iff, !in_range_spec, Z.leb_le; lia). cbn [mbind result_bind]. by apply days_from_civil_ok.
Qed.

(** What [parse_date] reads: its three fields, then the day count. *)
Lemma parse_date_cases s :
  parse_date s = Err NoValue
  ∨ ∃ ys ms ds y m d, s = ys ++ ch "-" :: ms ++ ch "-" :: ds ∧ number ys y ∧ number ms m ∧ number ds d ∧ 1 ≤ y ∧ 1 ≤ m ≤ 12 ∧ 1 ≤ d ≤ 31
      ∧ parse_date s = days_from_civil y m d.
Proof.
  unfold parse_date. destruct (split (ch "-") s) as [|ys [|ms [|ds [|x l]]]] eqn:E; try (by left).
  destruct (digits ys) as [y|] eqn:Ey; [|by left]. destruct (digits ms) as [m|] eqn:Em; [|by left]. destruct (digits ds) as [d|] eqn:Ed; [|by left].
  cbn [try_ ok_or mbind result_bind]. unfold ensure. destruct (in_range 1 12 m && in_range 1 31 d && (1 <=? y)) eqn:Er; [|by left].
  rewrite !andb_true_iff, !in_range_spec, Z.leb_le in Er. destruct Er as [[H1 H2] H3]. right. exists ys, ms, ds, y, m, d.
  rewrite <-!digits_spec. split_and!; try done; try lia.
  apply split_inv in E as [_ [[? _]|(r1 & -> & E1)]]; [done|]. apply split_inv in E1 as [_ [[? _]|(r2 & -> & E2)]]; [done|].
  apply split_inv in E2 as [_ [[_ ->]|(r3 & _ & E3)]]; [done|]. by apply split_nonempty in E3.
Qed.

Lemma parse_date_inv s v : parse_date s = Ok v → ∃ y, date_text s y v.
Proof.
  intros H. destruct (parse_date_cases s) as [E|(ys & ms & ds & y & m & d & -> & Hy & Hm & Hd & H1 & H2 & H3 & E)]; [congruence|].
  rewrite E in H. apply days_from_civil_inv in H as ->; [|done|done]. exists y. by constructor.
Qed.

(** The year field of a text. *)
Definition year_field (s : list Z) : option Z := head (split (ch "-") s) ≫= digits.

Lemma date_year s y days rest : date_text s y days → year_field (s ++ rest) = Some y.
Proof.
  intros [ys ms ds y' m d Hy _ _ _ _ _]. unfold year_field. rewrite <-app_assoc, <-app_comm_cons, split_app; [by apply digits_spec|].
  eapply number_without; [exact Hy|]. vm_compute (ch _). lia.
Qed.

Lemma parse_date_panic s : parse_date s = Err Panic → ∃ y, (∀ rest, year_field (s ++ rest) = Some y) ∧ year_max < y.
Proof.
  intros H. destruct (parse_date_cases s) as [E|(ys & ms & ds & y & m & d & -> & Hy & Hm & Hd & H1 & H2 & H3 & E)]; [congruence|].
  exists y. split.
  - intros rest. by eapply date_year, date_fields.
  - destruct (Z.le_gt_cases y year_max); [|done]. destruct (days_from_civil_ok y m d) as [E' _]; [done..|]. congruence.
Qed.

(** ** The zone *)

Definition is_ascii (c : Z) : Prop := 0 ≤ c < 128.

(** The characters of a time of day. *)
Definition time_char (c : Z) : Prop := 48 ≤ c ≤ 58 ∨ c = 46.

Lemma split_at_byte_inv fuel n s a b : split_at_byte fuel n s = Ok (a, b) → s = a ++ b ∧ byte_len a = n.
Proof.
  revert n s a; induction fuel as [|fuel IH]; intros n s a; cbn [split_at_byte]; destruct (Z.eqb_spec n 0) as [->|]; try by intros [= <- <-].
  destruct s as [|c s]; [done|]. destruct (n <? len_utf8 c); [done|]. intros H. apply bind_Ok in H as ([a' b'] & H & [= <- <-]).
  apply IH in H as [-> Hb]. split; [done|]. cbn [byte_len foldr]. fold (byte_len a'). lia.
Qed.

Lemma byte_len_app a b : byte_len (a ++ b) = byte_len a + byte_len b.
Proof. induction a as [|c a IH]; [done|]. cbn [app byte_len foldr] in *. fold (byte_len (a ++ b)) (byte_len a). lia. Qed.

Lemma byte_len_ascii s : Forall is_ascii s → byte_len s = len_z s.
Proof.
  induction 1 as [|c s Hc Hs IH]; [done|]. cbn [byte_len foldr]. fold (byte_len s). rewrite IH. unfold len_z, len_utf8, is_ascii in *. cbn [length].
  rewrite (proj2 (Z.ltb_lt _ _)) by lia. lia.
Qed.

Lemma split_at_ascii s : Forall is_ascii s → byte_len s = 4 → split_at_byte (length s) 2 s = Ok (take 2 s, drop 2 s).
Proof.
  intros Hs Hl. rewrite byte_len_ascii in Hl by done. unfold len_z in Hl.
  destruct s as [|a [|b [|c [|d [|e s]]]]]; cbn [length] in Hl; try lia. rewrite !Forall_cons in Hs. destruct Hs as (Ha & Hb & _).
  cbn [length split_at_byte]. unfold len_utf8, is_ascii in *. rewrite !(proj2 (Z.ltb_lt _ 128)) by lia. done.
Qed.

Lemma number_ascii s v : number s v → Forall is_ascii s.
Proof. intros (_ & Hd & _). eapply Forall_impl; [exact Hd|]. intros c Hc%is_digit_range. unfold is_ascii. lia. Qed.

Lemma offset_chk sign oh om : sign = 1 ∨ sign = -1 → 0 ≤ oh ≤ 23 → 0 ≤ om ≤ 59 →
  offset_ms sign oh om = Ok (sign * (oh * 3600000 + om * 60000)).
Proof.
  intros Hs Hh Hm. unfold offset_ms. assert (∀ z, -100000000 ≤ z ≤ 100000000 → chk z = Ok z) as Hc by (intros z Hz; apply chk_ok; unfold i64_min, i64_max; lia).
  rewrite !Hc by lia. cbn [mbind result_bind]. rewrite Hc by lia. cbn [mbind result_bind]. rewrite Hc; [done|]. destruct Hs as [-> | ->]; lia.
Qed.

Lemma offset_fields_ok off oh om : fields_text off oh om → offset_fields off = Ok (oh, om).
Proof.
  intros [a b oh' om' Ha Hb|a b oh' om' Ha Hb La Lb]; unfold offset_fields.
  - rewrite (proj2 (split_once_Some _ _ a b)).
    + by rewrite (try_number a oh'), (try_number b om').
    + exists (ch ":"). split_and!; [done|done|]. eapply number_free; [exact Ha|]. intros c Hc. apply Z.eqb_neq. vm_compute (ch _). lia.
  - rewrite (proj2 (split_once_None _ _)).
    + pose proof (number_ascii _ _ Ha) as Aa. pose proof (number_ascii _ _ Hb) as Ab.
      assert (Forall is_ascii (a ++ b)) as Aab by by apply Forall_app.
      assert (byte_len (a ++ b) = 4) as L4 by (rewrite byte_len_ascii by done; unfold len_z; rewrite length_app, La, Lb; done).
      rewrite L4. cbn [Z.eqb Pos.eqb]. rewrite split_at_ascii, take_app_length', drop_app_length' by done. cbn [mbind result_bind].
      rewrite (try_number a oh') by done. cbn [mbind result_bind]. by rewrite (try_number b om').
    + apply Forall_app. split; eapply number_free; try eassumption; intros c Hc; apply Z.eqb_neq; vm_compute (ch _); lia.
Qed.

Lemma offset_fields_inv off oh om : offset_fields off = Ok (oh, om) → fields_text off oh om.
Proof.
  unfold offset_fields. destruct (split_once _ off) as [[a b]|] eqn:E.
  - intros H. steps H. injection H as -> ->. apply split_once_Some in E as (c & -> & ->%Z.eqb_eq & _). by constructor; apply digits_spec.
  - destruct (Z.eqb_spec (byte_len off) 4) as [L4|]; [|done]. intros H. apply bind_Ok in H as ([a b] & Es & H). steps H. destruct x0 as [a' b'].
    rewrite Es in E1. injection E1 as <- <-. steps H. injection H as -> ->.
    apply digits_spec in E0, E1. apply split_at_byte_inv in Es as [-> La]. rewrite byte_len_app in L4.
    rewrite !byte_len_ascii in * by by eapply number_ascii. unfold len_z in *. constructor; done || lia.
Qed.

Lemma offset_fields_panic off : offset_fields off = Err Panic → ¬ Forall is_ascii off.
Proof.
  unfold offset_fields. intros H Ha. revert H. destruct (split_once _ off) as [[a b]|].
  - destruct (digits a), (digits b); done.
  - destruct (Z.eqb_spec (byte_len off) 4); [|done]. rewrite split_at_ascii by done. cbn [mbind result_bind].
    by destruct (digits (take 2 off)), (digits (drop 2 off)).
Qed.

Definition zone_char (c : Z) : Prop := time_char c ∨ is_sign c = true.

Lemma time_char_sign c : time_char c → is_sign c = false.
Proof. intros Hc. unfold is_sign, time_char in *. rewrite orb_false_iff, !Z.eqb_neq. vm_compute (ch _). lia. Qed.

Lemma strip_suffix_None c s : Forall zone_char s → ¬ zone_char c → strip_suffix c s = None.
Proof.
  intros Hs Hc. destruct (strip_suffix c s) as [a|] eqn:E; [|done]. apply strip_suffix_Some in E as ->.
  apply Forall_app in Hs as [_ Hs]. by apply Forall_cons in Hs as [Hs _].
Qed.

Lemma not_zone_char c : c = ch "Z" ∨ c = ch "z" → ¬ zone_char c.
Proof. intros [-> | ->] [[H|H]|H]; vm_compute in H; intuition congruence. Qed.

Lemma number_time_char s v : number s v → Forall time_char s.
Proof. intros (_ & Hd & _). eapply Forall_impl; [exact Hd|]. intros c Hc%is_digit_range. left. lia. Qed.

Lemma fields_time_char off oh om : fields_text off oh om → Forall time_char off.
Proof.
  intros [a b oh' om' Ha Hb|a b oh' om' Ha Hb _ _]; apply Forall_app; (split; [by eapply number_time_char|]); [|by eapply number_time_char].
  constructor; [left; vm_compute (ch _); lia|by eapply number_time_char].
Qed.

Lemma fields_nonneg off oh om : fields_text off oh om → 0 ≤ oh ∧ 0 ≤ om.
Proof. intros [a b oh' om' Ha Hb|a b oh' om' Ha Hb _ _]; split; by eapply number_nonneg. Qed.

Lemma zone_chars z off : zone_text z off → (z = [] ∨ ∃ c, z = [c] ∧ (c = ch "Z" ∨ c = ch "z")) ∨ Forall zone_char z.
Proof.
  intros [|c Hc|c f oh om Hc Hf _ _]; [left; by left|left; right; by exists c|right]. constructor; [by right|].
  eapply Forall_impl; [by eapply fields_time_char|]. by left.
Qed.

Lemma sign_of c (s : Z) : (if c =? ch "-" then -1 else 1) = s → s = 1 ∨ s = -1.
Proof. case_match; intros <-; auto. Qed.

Lemma parse_zone_ok t z off : Forall time_char t → zone_text z off → parse_zone (t ++ z) = Ok (t, off).
Proof.
  intros Ht Hz. assert (Forall zone_char t) as Htz by (eapply Forall_impl; [exact Ht|by left]).
  assert (∀ s, Forall zone_char s → match strip_suffix (ch "Z") s with Some t => Some t | None => strip_suffix (ch "z") s end = None) as Hstrip.
  { intros s Hs. by rewrite !strip_suffix_None by (done || apply not_zone_char; auto). }
  unfold parse_zone. destruct Hz as [|c Hc|c f oh om Hc Hf Ho Hm].
  - rewrite app_nil_r, Hstrip by done. rewrite (proj2 (split_last_None _ _)); [done|]. eapply Forall_impl; [exact Ht|]. apply time_char_sign.
  - assert (match strip_suffix (ch "Z") (t ++ [c]) with Some t => Some t | None => strip_suffix (ch "z") (t ++ [c]) end = Some t) as ->; [|done].
    destruct Hc as [-> | ->]; [by rewrite (proj2 (strip_suffix_Some _ _ t))|].
    rewrite (proj2 (strip_suffix_Some (ch "z") _ t)) by done. destruct (strip_suffix (ch "Z") (t ++ [ch "z"])) as [t'|] eqn:E; [|done].
    apply strip_suffix_Some, app_inj_2 in E as [_ E]; [by vm_compute in E|done].
  - pose proof (fields_time_char _ _ _ Hf) as Hft. rewrite Hstrip.
    2:{ apply Forall_app. split; [done|]. constructor; [by right|]. eapply Forall_impl; [exact Hft|by left]. }
    rewrite (proj2 (split_last_Some is_sign _ t (c :: f))).
    2:{ exists c, f. split_and!; [done|done|done|]. eapply Forall_impl; [exact Hft|]. apply time_char_sign. }
    change (drop 1 (c :: f)) with f. rewrite (offset_fields_ok f oh om) by done. cbn [mbind result_bind]. destruct (fields_nonneg _ _ _ Hf) as [? ?].
    rewrite ensure_true by (rewrite andb_true_iff, !in_range_spec; lia). cbn [mbind result_bind]. unfold offset_of.
    by rewrite offset_chk; [|by apply sign_of with c|lia|lia].
Qed.

(** What [parse_zone] reads: the time of day before a zone, or the zone's fields. *)
Lemma parse_zone_cases rest :
  (∃ t z, rest = t ++ z ∧ zone_text z 0 ∧ parse_zone rest = Ok (t, 0))
  ∨ (∃ t c off e, rest = t ++ c :: off ∧ offset_fields off = Err e ∧ parse_zone rest = Err e)
  ∨ (∃ t c off oh om, rest = t ++ c :: off ∧ is_sign c = true ∧ offset_fields off = Ok (oh, om)
       ∧ parse_zone rest = (if in_range 0 23 oh && in_range 0 59 om then Ok (t, offset_of c oh om) else Err NoValue)).
Proof.
  unfold parse_zone. destruct (match strip_suffix (ch "Z") rest with Some t => Some t | None => strip_suffix (ch "z") rest end) as [t|] eqn:E.
  - left. destruct (strip_suffix (ch "Z") rest) as [t'|] eqn:E1.
    + injection E as ->. apply strip_suffix_Some in E1 as ->. exists t, [ch "Z"]. split_and!; [done|constructor; by left|done].
    + apply strip_suffix_Some in E as ->. exists t, [ch "z"]. split_and!; [done|constructor; by right|done].
  - clear E. destruct (split_last is_sign rest) as [[t b]|] eqn:E.
    + apply split_last_Some in E as (c & off & -> & -> & Hc & _). right. change (drop 1 (c :: off)) with off.
      destruct (offset_fields off) as [[oh om]|e] eqn:Ef; [|left; by exists t, c, off, e].
      right. exists t, c, off, oh, om. split_and!; [done..|]. cbn [mbind result_bind]. unfold ensure.
      destruct (in_range 0 23 oh && in_range 0 59 om) eqn:Er; [|done]. rewrite andb_true_iff, !in_range_spec in Er. cbn [mbind result_bind].
      by rewrite offset_chk; [|by apply sign_of with c|lia|lia].
    + left. exists rest, []. rewrite app_nil_r. split_and!; [done|constructor|done].
Qed.

Lemma parse_zone_inv rest t off : parse_zone rest = Ok (t, off) → ∃ z, rest = t ++ z ∧ zone_text z off.
Proof.
  intros H. destruct (parse_zone_cases rest) as [(t' & z & -> & Hz & E)|[(? & ? & ? & ? & _ & _ & E)|(t' & c & f & oh & om & -> & Hc & Hf & E)]]; [|congruence|].
  - rewrite E in H. injection H as -> <-. by exists z.
  - rewrite E in H. destruct (in_range 0 23 oh && in_range 0 59 om) eqn:Er; [|done]. injection H as -> <-.
    rewrite andb_true_iff, !in_range_spec in Er. exists (c :: f). split; [done|]. constructor; [done|by apply offset_fields_inv|lia|lia].
Qed.

Lemma parse_zone_panic rest : parse_zone rest = Err Panic → ¬ Forall is_ascii rest.
Proof.
  intros H. destruct (parse_zone_cases rest) as [(? & ? & _ & _ & E)|[(t & c & f & e & -> & Hf & E)|(? & ? & ? & ? & ? & _ & _ & _ & E)]]; [congruence| |].
  - rewrite E in H. injection H as ->. intros [_ [_ Ha]%Forall_cons]%Forall_app. by apply (offset_fields_panic f).
  - rewrite E in H. by case_match.
Qed.

(** ** The time of day *)

Lemma frac_past fs : frac_ms 3 fs = 0.
Proof. by destruct fs. Qed.

Lemma frac_value fs : fs ≠ [] → Decimal.digits fs → frac_ms 0 fs = dec_val (take 3 (fs ++ text "00")) ∧ 0 ≤ frac_ms 0 fs ≤ 999.
Proof.
  intros Hn Hd. unfold Decimal.digits in Hd.
  destruct fs as [|a [|b [|c fs]]]; [done|..]; rewrite !Forall_cons, ?is_digit_range in Hd; cbn; unfold dec_val; cbn;
    change (3 <=? 0 + 1) with false; change (3 <=? 0 + 1 + 1) with false; change (10 ^ (2 - 0)) with 100; change (10 ^ (2 - (0 + 1))) with 10;
    change (10 ^ (2 - (0 + 1 + 1))) with 1; change (ch "0") with 48; change (0 + 1 + 1 + 1) with 3; rewrite ?take_0, ?frac_past; cbn [foldl]; lia.
Qed.

Lemma number_colon s v : number s v → without (ch ":") s.
Proof. intros Hs. eapply number_without; [exact Hs|]. vm_compute (ch _). lia. Qed.

Lemma number_point s v : number s v → split_once (λ c, c =? ch ".") s = None.
Proof. intros Hs. apply split_once_None. eapply number_free; [exact Hs|]. intros c Hc. apply Z.eqb_neq. vm_compute (ch _). lia. Qed.

(** The seconds field, whole or with a fraction. *)
Inductive seconds_text : list Z → Z → Z → Prop :=
| seconds_whole ss s : number ss s → seconds_text ss s 0
| seconds_fraction ss s fs : number ss s → fs ≠ [] → Decimal.digits fs →
    seconds_text (ss ++ ch "." :: fs) s (dec_val (take 3 (fs ++ text "00"))).

Lemma parse_seconds_ok f s ms : seconds_text f s ms → parse_seconds f = Ok (s, ms).
Proof.
  intros [ss s' Hs|ss s' fs Hs Hn Hd]; unfold parse_seconds.
  - by rewrite (number_point _ s'), (try_number ss s').
  - rewrite (proj2 (split_once_Some _ _ ss fs)).
    + rewrite forallb_digits by done. destruct (frac_value fs Hn Hd) as [<- _].
      destruct fs; [done|]. cbn [negb orb ensure mbind result_bind]. by rewrite (try_number ss s').
    + exists (ch "."). split_and!; [done|done|]. apply split_once_None. by eapply number_point.
Qed.

Lemma parse_seconds_inv f s ms : parse_seconds f = Ok (s, ms) → seconds_text f s ms.
Proof.
  unfold parse_seconds. destruct (split_once _ f) as [[ss fs]|] eqn:E; intros H; steps H.
  - injection H as -> <-. apply split_once_Some in E as (c & -> & ->%Z.eqb_eq & _).
    rewrite negb_true_iff, orb_false_iff, negb_false_iff in E0. destruct E0 as [Hn Hd%all_digits].
    assert (fs ≠ []) as Hne by by intros ->. destruct (frac_value fs Hne Hd) as [-> _]. constructor; [by apply digits_spec|done|done].
  - injection H as -> <-. constructor. by apply digits_spec.
Qed.

Lemma seconds_chars f s ms : seconds_text f s ms → without (ch ":") f ∧ Forall time_char f ∧ 0 ≤ ms ≤ 999.
Proof.
  intros [ss s' Hs|ss s' fs Hs Hn Hd]; [split_and!; [by eapply number_colon|by eapply number_time_char|lia..]|].
  destruct (frac_value fs Hn Hd) as [Ef ?]. rewrite Ef in *. split_and!; [| |lia|lia].
  - apply Forall_app. split; [by eapply number_colon|]. constructor; [done|]. eapply Forall_impl; [exact Hd|].
    intros c Hc%is_digit_range ->. change (ch ":") with 58 in Hc. lia.
  - apply Forall_app. split; [by eapply number_time_char|]. constructor; [by right|]. eapply Forall_impl; [exact Hd|].
    intros c Hc%is_digit_range. left. lia.
Qed.

(** The time of day by its fields. *)
Inductive clock_text : list Z → Z → Z → Z → Z → Prop :=
| clock_minutes hs ms h m : number hs h → number ms m → h ≤ 23 → m ≤ 59 → clock_text (hs ++ ch ":" :: ms) h m 0 0
| clock_seconds hs ms f h m s fr : number hs h → number ms m → seconds_text f s fr → h ≤ 23 → m ≤ 59 → 0 ≤ s ≤ 60 →
    clock_text (hs ++ ch ":" :: ms ++ ch ":" :: f) h m s fr.

Lemma clock_time t h m s fr : clock_text t h m s fr →
  time_text t (h * 3600000 + m * 60000 + s * 1000 + fr) ∧ Forall time_char t ∧ 0 ≤ h ≤ 23 ∧ 0 ≤ m ≤ 59 ∧ 0 ≤ s ≤ 60 ∧ 0 ≤ fr ≤ 999.
Proof.
  assert (time_char (ch ":")) as Hcolon by (left; vm_compute (ch _); lia).
  intros [hs ms h' m' Hh Hm H1 H2|hs ms f h' m' s' fr' Hh Hm Hs H1 H2 H3].
  - pose proof (number_nonneg _ _ Hh). pose proof (number_nonneg _ _ Hm). split_and!; try lia.
    + replace (h' * 3600000 + m' * 60000 + 0 * 1000 + 0) with (h' * 3600000 + m' * 60000) by lia. by constructor.
    + apply Forall_app; split; [by eapply number_time_char|]. constructor; [done|by eapply number_time_char].
  - pose proof (number_nonneg _ _ Hh). pose proof (number_nonneg _ _ Hm). destruct (seconds_chars _ _ _ Hs) as (_ & Hf & ?). split_and!; try lia.
    + destruct Hs as [ss s'' Hs|ss s'' fs Hs Hn Hd].
      * rewrite Z.add_0_r. constructor; done || lia.
      * constructor; done || lia.
    + apply Forall_app; split; [by eapply number_time_char|]. constructor; [done|]. apply Forall_app; split; [by eapply number_time_char|]. by constructor.
Qed.

Lemma time_clock t ms : time_text t ms → ∃ h m s fr, clock_text t h m s fr ∧ ms = h * 3600000 + m * 60000 + s * 1000 + fr.
Proof.
  intros [hs mm h m Hh Hm H1 H2|hs mm ss h m s Hh Hm Hs H1 H2 H3|hs mm ss fs h m s Hh Hm Hs H1 H2 H3 Hn Hd].
  - exists h, m, 0, 0. split; [by constructor|lia].
  - exists h, m, s, 0. pose proof (number_nonneg _ _ Hs). split; [constructor; try done; by constructor|lia].
  - exists h, m, s, (dec_val (take 3 (fs ++ text "00"))). pose proof (number_nonneg _ _ Hs). split; [constructor; try done; by constructor|done].
Qed.

Lemma parse_time_ok t h m s fr : clock_text t h m s fr → parse_time t = Ok (h, m, s, fr).
Proof.
  intros Hc. destruct (clock_time _ _ _ _ _ Hc) as (_ & _ & Rh & Rm & Rs & _). unfold parse_time.
  assert (in_range 0 23 h && in_range 0 59 m && in_range 0 60 s = true) as Hr by (rewrite !andb_true_iff, !in_range_spec; lia).
  destruct Hc as [hs ms h' m' Hh Hm _ _|hs ms f h' m' s' fr' Hh Hm Hs _ _ _].
  - rewrite split_app, split_without by by eapply number_colon. rewrite (try_number hs h'), (try_number ms m') by done. cbn [mbind result_bind ensure]. by rewrite Hr.
  - rewrite !split_app by by eapply number_colon. rewrite split_without by by eapply seconds_chars.
    rewrite (try_number hs h'), (try_number ms m'), (parse_seconds_ok f s' fr') by done. cbn [mbind result_bind ensure]. by rewrite Hr.
Qed.

Lemma parse_time_inv t h m s fr : parse_time t = Ok (h, m, s, fr) → clock_text t h m s fr.
Proof.
  unfold parse_time. destruct (split (ch ":") t) as [|hs [|ms more]] eqn:E; [done|intros H; by steps H|].
  apply split_inv in E as [_ [[? _]|(r1 & -> & E)]]; [done|]. apply split_inv in E as [_ E].
  intros H. steps H. destruct x1 as [sec frac]. steps H. injection H as -> -> -> ->. apply digits_spec in E0, E1.
  rewrite !andb_true_iff, !in_range_spec in E4. destruct E4 as [[? ?] ?].
  destruct more as [|f [|x more]]; [| |done].
  - injection E2 as <- <-. destruct E as [[_ ->]|(r & _ & E)]; [|by apply split_nonempty in E]. constructor; done || lia.
  - destruct E as [[? _]|(r & -> & E)]; [done|]. apply split_inv in E as [_ [[_ ->]|(r' & _ & E)]]; [|by apply split_nonempty in E].
    constructor; try done; [by apply parse_seconds_inv|lia|lia].
Qed.

Lemma parse_time_no_panic t : parse_time t ≠ Err Panic.
Proof.
  unfold parse_time, parse_seconds. repeat (case_match; try done); unfold try_, ensure, ok_or in *; cbn [mbind result_bind] in *; repeat (case_match; simplify_eq/=; try done).
Qed.

(** ** The whole text *)

Lemma instant_ok days h mi sec frac off : -719500 ≤ days ≤ 100000000000 → 0 ≤ h ≤ 23 → 0 ≤ mi ≤ 59 → 0 ≤ sec ≤ 60 → 0 ≤ frac ≤ 999 →
  -100000000 ≤ off ≤ 100000000 →
  instant_ms days h mi sec frac off = Ok (days * 86400000 + (h * 3600000 + mi * 60000 + sec * 1000 + frac) - off).
Proof.
  intros. unfold instant_ms. repeat (rewrite chk_ok by (unfold i64_min, i64_max; lia); cbn [mbind result_bind]). f_equal. lia.
Qed.

Lemma instant_inv days h mi sec frac off v : instant_ms days h mi sec frac off = Ok v →
  v = days * 86400000 + (h * 3600000 + mi * 60000 + sec * 1000 + frac) - off.
Proof. unfold instant_ms. intros H. steps H. apply chk_inv in H. lia. Qed.

Lemma zone_range z off : zone_text z off → -100000000 ≤ off ≤ 100000000.
Proof.
  intros [|c Hc|c f oh om Hc Hf Ho Hm]; [lia|lia|]. destruct (fields_nonneg _ _ _ Hf). unfold offset_of. case_match; lia.
Qed.

Lemma date_no_sep s y days : date_text s y days → Forall (λ c, is_sep c = false) s.
Proof.
  assert (∀ c, 48 ≤ c ≤ 57 → is_sep c = false) as Hd.
  { intros c Hc. unfold is_sep. rewrite !orb_false_iff, !Z.eqb_neq. vm_compute (ch _). lia. }
  intros [ys ms ds y' m d Hy Hm Hds _ _ _]. rewrite !Forall_app, !Forall_cons, !Forall_app, !Forall_cons. split_and!; try done; by eapply number_free.
Qed.

Lemma time_black c : time_char c → is_whitespace c = false.
Proof. intros Hc. unfold is_whitespace, time_char in *. rewrite !orb_false_iff, !andb_false_iff, !Z.leb_gt, !Z.eqb_neq. lia. Qed.

Lemma zone_black z off : zone_text z off → Forall (λ c, is_whitespace c = false) z.
Proof.
  intros [|c [-> | ->]|c f oh om Hc Hf _ _]; [constructor|by constructor|by constructor|]. constructor.
  - unfold is_sign in Hc. apply orb_true_iff in Hc as [->%Z.eqb_eq| ->%Z.eqb_eq]; done.
  - eapply Forall_impl; [by eapply fields_time_char|]. apply time_black.
Qed.

Lemma black_end a t : t ≠ [] → Forall (λ c, is_whitespace c = false) t → starts_black (reverse (a ++ t)).
Proof.
  intros Hn Ht. rewrite reverse_app. apply Forall_reverse in Ht. destruct (reverse t) as [|c r] eqn:E.
  - by apply (f_equal reverse) in E; rewrite reverse_involutive in E.
  - by apply Forall_cons in Ht as [? _].
Qed.

Lemma time_nonempty t h m s fr : clock_text t h m s fr → t ≠ [].
Proof. intros [hs ? ? ? (? & _) _ _ _|hs ? ? ? ? ? ? (? & _) _ _ _ _ _]; by destruct hs. Qed.

Lemma trim_date pre post date y days : blanks pre → blanks post → date_text date y days → trim (pre ++ date ++ post) = date.
Proof.
  intros Hpre Hpost [ys ms ds ? ? ? Hys _ Hds _ _ _]. apply trim_core; [done|done|by eapply number_black|].
  pose proof (number_black ds _ (ys ++ ch "-" :: ms ++ [ch "-"]) Hds) as [_ Hb].
  by rewrite <-!app_assoc, <-app_comm_cons, <-!app_assoc in Hb.
Qed.

Lemma trim_instant pre post date y days sep time h m sec fr zone off : blanks pre → blanks post → date_text date y days →
  clock_text time h m sec fr → zone_text zone off → trim (pre ++ (date ++ sep :: time ++ zone) ++ post) = date ++ sep :: time ++ zone.
Proof.
  intros Hpre Hpost Hd Hc Hz. apply trim_core; [done|done|..].
  - destruct Hd as [ys ms' ds ? ? ? Hys _ _ _ _ _]. rewrite <-app_assoc. by eapply number_black.
  - rewrite cons_middle, app_assoc. apply black_end.
    + pose proof (time_nonempty _ _ _ _ _ Hc). by destruct time.
    + destruct (clock_time _ _ _ _ _ Hc) as (_ & Htc & _). apply Forall_app. split; [|by eapply zone_black].
      eapply Forall_impl; [exact Htc|]. apply time_black.
Qed.

Lemma parse_accepts s y v day : rfc3339 s y v day → y ≤ year_max → parse_rfc3339_ms s = Ok v.
Proof.
  intros Hr Hy. unfold parse_rfc3339_ms.
  destruct Hr as [pre post date y' days Hpre Hpost Hd|pre post date sep time zone y' days ms off Hpre Hpost Hd Hsep Ht Hz];
    pose proof (parse_date_ok _ _ _ Hd Hy) as [Ed Rd]; pose proof (date_no_sep _ _ _ Hd) as Hns.
  - rewrite (trim_date _ _ _ y' days), (proj2 (split_once_None _ _)), Ed by done. cbn [mbind result_bind].
    apply chk_ok. unfold i64_min, i64_max. lia.
  - destruct (time_clock _ _ Ht) as (h & m & sec & fr & Hc & ->). destruct (clock_time _ _ _ _ _ Hc) as (_ & Htc & Rh & Rm & Rs & Rf).
    rewrite (trim_instant _ _ _ y' days _ _ h m sec fr _ off) by done.
    rewrite (proj2 (split_once_Some _ _ date (time ++ zone))) by by exists sep. rewrite Ed. cbn [mbind result_bind].
    rewrite (parse_zone_ok time zone off) by done. cbn [mbind result_bind]. rewrite (parse_time_ok _ _ _ _ _ Hc). cbn [mbind result_bind].
    apply instant_ok; try done. by eapply zone_range.
Qed.

Lemma parse_refuses s v : parse_rfc3339_ms s = Ok v → ∃ y day, rfc3339 s y v day.
Proof.
  destruct (trim_spec s) as (pre & post & Hpre & Hpost & Hs). unfold parse_rfc3339_ms. cbv zeta.
  set (core := trim s) in *. clearbody core. subst s.
  destruct (split_once is_sep core) as [[date rest]|] eqn:E; intros H; apply bind_Ok in H as (days & Hd & H); apply parse_date_inv in Hd as [y Hd]; exists y; eexists.
  - apply split_once_Some in E as (sep & -> & Hsep & _). apply bind_Ok in H as ([time off] & Hz & H). apply bind_Ok in H as ([[[h m] sec] fr] & Ht & H).
    apply instant_inv in H as ->. apply parse_zone_inv in Hz as (z & -> & Hz). apply parse_time_inv, clock_time in Ht as [Ht _]. by constructor.
  - apply chk_inv in H as ->. by constructor.
Qed.

(** A panic needs a character outside ASCII or a year out of range. *)
Lemma parse_panics s : parse_rfc3339_ms s = Err Panic → ¬ Forall is_ascii s ∨ ∃ y, year_field (trim s) = Some y ∧ year_max < y.
Proof.
  intros H. destruct (decide (Exists (λ c, ¬ is_ascii c) s)) as [Hx|Hx]; [left; by apply Exists_not_Forall|].
  assert (Forall is_ascii s) as Ha.
  { apply Forall_forall. intros c Hc. destruct (decide (0 ≤ c < 128)); [done|]. destruct Hx. apply Exists_exists. by exists c. }
  right. destruct (trim_spec s) as (pre & post & _ & _ & Hs). rewrite Hs, !Forall_app in Ha. destruct Ha as (_ & Ha & _).
  revert H. unfold parse_rfc3339_ms. cbv zeta. set (core := trim s) in *. clearbody core. clear Hs Hx s.
  assert (∃ date tail rest, core = date ++ tail ∧ (match split_once is_sep core with Some (date, rest) => (date, Some rest) | None => (core, None) end) = (date, rest)
    ∧ ∀ r, rest = Some r → Forall is_ascii r) as (date & tail & rest & -> & -> & Hr).
  { destruct (split_once is_sep core) as [[date r]|] eqn:E.
    - apply split_once_Some in E as (c & -> & _). exists date, (c :: r), (Some r). split_and!; [done|done|]. intros ? [= <-].
      apply Forall_app in Ha as [_ Ha]. by apply Forall_cons in Ha as [_ ?].
    - exists core, [], None. by rewrite app_nil_r. }
  destruct (parse_date date) as [days|[]] eqn:Ed; cbn [mbind result_bind]; [|done|].
  2:{ intros _. destruct (parse_date_panic date Ed) as (y & Hy & Hm). by exists y. }
  destruct (parse_date_inv _ _ Ed) as [y Hd]. intros H. exists y. split; [by eapply date_year|].
  destruct (Z.le_gt_cases y year_max) as [Hle|]; [exfalso|done]. destruct (parse_date_ok _ _ _ Hd Hle) as [_ Rd].
  destruct rest as [rest|]; [|rewrite chk_ok in H by (unfold i64_min, i64_max; lia); done].
  destruct (parse_zone rest) as [[time off]|[]] eqn:Ez; cbn [mbind result_bind] in H; [|done|by apply (parse_zone_panic rest Ez), Hr].
  destruct (parse_time time) as [[[[h m] sec] fr]|[]] eqn:Et; cbn [mbind result_bind] in H; [|done|by apply parse_time_no_panic in Et].
  destruct (parse_zone_inv _ _ _ Ez) as (z & _ & Hz). apply parse_time_inv, clock_time in Et as (_ & _ & Rh & Rm & Rs & Rf).
  rewrite instant_ok in H; try done. by eapply zone_range.
Qed.

(** The end of what a text denotes. *)
Lemma rfc3339_core s y v day : rfc3339 s y v day → rfc3339 (trim s) y v day ∧ existsb is_sep (trim s) = negb day.
Proof.
  assert (blanks []) as Hnil by constructor.
  intros [pre post date y' days Hpre Hpost Hd|pre post date sep time zone y' days ms off Hpre Hpost Hd Hsep Ht Hz].
  - rewrite (trim_date _ _ _ y' days) by done. split.
    + pose proof (rfc3339_date [] [] date y' days Hnil Hnil Hd) as H. by rewrite app_nil_r in H.
    + pose proof (date_no_sep _ _ _ Hd) as Hns. clear Hd. induction Hns as [|c date Hc _ IH]; [done|]. cbn [existsb]. by rewrite Hc, IH.
  - destruct (time_clock _ _ Ht) as (h & m & sec & fr & Hc & _). rewrite (trim_instant _ _ _ y' days _ _ h m sec fr _ off) by done. split.
    + pose proof (rfc3339_instant [] [] date sep time zone y' days ms off Hnil Hnil Hd Hsep Ht Hz) as H. by rewrite app_nil_r in H.
    + rewrite existsb_app. cbn [existsb]. by rewrite Hsep, orb_true_r.
Qed.

Lemma existsb_sep t : existsb is_sep t = existsb (λ c, (c =? ch "T") || (c =? ch "t")) t || existsb (λ c, c =? ch " ") t.
Proof. induction t as [|c t IH]; [done|]. cbn [existsb]. rewrite IH. unfold is_sep. by repeat destruct (_ =? _); rewrite ?orb_true_r. Qed.

Lemma parse_end s y v day : rfc3339 s y v day → y ≤ year_max → parse_rfc3339_end_ms s = Ok (if day then v + 86399999 else v).
Proof.
  intros Hr Hy. destruct (rfc3339_core _ _ _ _ Hr) as [Ht Hs]. unfold parse_rfc3339_end_ms. rewrite (parse_accepts _ y v day) by done. cbn [mbind result_bind].
  rewrite existsb_sep in Hs. rewrite <-negb_orb, Hs, negb_involutive. destruct day; [|done].
  inversion Ht as [pre post date y' days _ _ Hd|]; subst. destruct (parse_date_ok _ _ _ Hd Hy) as [_ Rd].
  rewrite chk_ok by (unfold i64_min, i64_max; lia). cbn [mbind result_bind]. rewrite chk_ok by (unfold i64_min, i64_max; lia). f_equal. lia.
Qed.

(** ** The claim *)

(** C28: the date parser accepts a grammar and nothing else.  Every text of the
    grammar (blanks around a date of three digit fields, or that, a separator,
    a time of day to the minute, second or fraction, and no zone, [Z] or an
    offset) whose year is at most [year_max] parses to the instant the civil
    calendar gives it, and its end is that instant, or for a bare date the last
    millisecond of the day.  Whatever parses is such a text with its instant, at
    any year.  And a panic needs a character outside ASCII or a year above
    [year_max]. *)
Theorem rfc3339_parser :
  (∀ s y v day, rfc3339 s y v day → y ≤ year_max →
     parse_rfc3339_ms s = Ok v ∧ parse_rfc3339_end_ms s = Ok (if day then v + 86399999 else v))
  ∧ (∀ s v, parse_rfc3339_ms s = Ok v → ∃ y day, rfc3339 s y v day)
  ∧ (∀ s, parse_rfc3339_ms s = Err Panic → ¬ Forall is_ascii s ∨ ∃ y, year_field (trim s) = Some y ∧ year_max < y).
Proof.
  split_and!; [|apply parse_refuses|apply parse_panics].
  intros s y v day Hr Hy. split; [by eapply parse_accepts|by eapply parse_end].
Qed.

(** A text of the grammar, read with its offset and its fraction cut to milliseconds. *)
Lemma rfc3339_parser_witness :
  parse_rfc3339_ms (text " 2026-06-19T12:00:01.9999+01:00") = Ok 1781866801999.
Proof.
  assert (∀ s v, digits (text s) = Some v → number (text s) v) as N by (intros s v; apply digits_spec).
  assert (rfc3339 (text " 2026-06-19T12:00:01.9999+01:00") 2026
    (Calendar.days_from_civil 2026 6 19 * 86400000 + (12 * 3600000 + 0 * 60000 + 1 * 1000 + dec_val (take 3 (text "9999" ++ text "00"))) - offset_of (ch "+") 1 0) false) as Hr.
  { apply (rfc3339_instant (text " ") [] (text "2026" ++ ch "-" :: text "06" ++ ch "-" :: text "19") (ch "T")
      (text "12" ++ ch ":" :: text "00" ++ ch ":" :: text "01" ++ ch "." :: text "9999") (ch "+" :: text "01" ++ ch ":" :: text "00")).
    - by repeat constructor.
    - constructor.
    - constructor; try (apply N; vm_compute; reflexivity); lia.
    - reflexivity.
    - constructor; try (apply N; vm_compute; reflexivity); try lia; [done|]. by repeat constructor.
    - constructor; [reflexivity|constructor; apply N; vm_compute; reflexivity|lia|lia]. }
  destruct (proj1 rfc3339_parser _ _ _ _ Hr) as [Hp _]; [unfold year_max; lia|]. rewrite Hp. vm_compute. reflexivity.
Defined.

(** The three ways it departs from what its comments say: a day the month does
    not have counts on into the next month, *)
Lemma day_overflows : parse_rfc3339_ms (text "2026-02-31") = parse_rfc3339_ms (text "2026-03-03").
Proof. vm_compute. reflexivity. Qed.

(** an offset whose second byte is inside a character panics, *)
Lemma offset_panics : parse_rfc3339_ms (text "2026-06-19T12:00:00+a" ++ [233] ++ text "b") = Err Panic.
Proof. vm_compute. reflexivity. Qed.

(** and so does the day count of a year [i64] holds. *)
Lemma year_overflows : digits (text "9223372036854775807") = Some i64_max ∧ parse_rfc3339_ms (text "9223372036854775807-01-01") = Err Panic.
Proof. split; vm_compute; reflexivity. Qed.

End Rfc3339.
