(* ===== verification/CommitTimes.v ===== *)
(** * The commit-time sidecar

    Models the map of [crates/core-storage/src/commit_times.rs]: which commit
    (a WAL frame index) happened at which wall-clock millisecond.  [encode] and
    [decode] are the file [commit_times.bin], [encode_entry] what one commit
    appends to it, [resolve_instant] the commit a date denotes.

    A [u64] is a [Z] in [0, 2^64), an [i64] one in [-2^63, 2^63); a value that
    can panic is an [option].  The error texts of [GraphError::Corrupt] are the
    constructors of [corrupt]. *)

From S2P Require Import Prelude Order Bytes.

Module CommitTimes.

Definition COMMIT_TIMES_MAGIC : list Z := [77; 84; 77; 83].
Definition COMMIT_TIMES_VERSION : Z := 2.
Definition COMMIT_TIMES_SUPERSEDED_VERSIONS : list Z := [1].
Definition HEADER_LEN : nat := 4 + 2 + 8.
Definition ENTRY_LEN : nat := 8 + 8.

(** The details a [Corrupt] error of this file names. *)
Inductive corrupt :=
| ShortHeader (len : Z)
| BadMagic (got : list Z)
| UnsupportedVersion (version : Z)
| TornAppend (body_len : Z)
| NotAscending (commit prev : Z)
| WillNotDecode.

(** The errors of [GraphError] that the date surface returns. *)
Inductive graph_error :=
| NoRecordedTime
| TimeBeforeFloor (floor_ms floor_commit : Z)
| CommitOutOfRange (commit total floor : Z)
| Corrupt (detail : corrupt)
| ReadOnly
| CommitTimeNotMonotonic (supplied_ms newest_ms : Z)
| QueryError (unparsed : list Z).

(** [struct CommitTimes] *)
Record t := Mk { floor_commit : Z; entries : list (Z * Z) }.

(** [CommitTimes::default()] *)
Definition new : t := Mk 0 [].

(** [floor_ms] *)
Definition floor_ms (m : t) : option Z := snd <$> head (entries m).
(** [newest_commit] *)
Definition newest_commit (m : t) : option Z := fst <$> last (entries m).
(** [is_empty] *)
Definition is_empty (m : t) : bool := match entries m with [] => true | _ => false end.

(** [max_ms]: [Iterator::max] over the recorded times. *)
Definition max_ms (m : t) : option Z :=
  match (entries m).*2 with [] => None | ms :: rest => Some (foldl Z.max ms rest) end.

(** [time_of] *)
Definition time_of (m : t) (commit : Z) : option Z :=
  match binary_search commit (entries m).*1 with
  | inl i => snd <$> entries m !! i
  | inr _ => None
  end.

(** [push] *)
Definition push (m : t) (commit unix_ms : Z) : t :=
  match newest_commit m with
  | Some newest =>
      if commit <=? newest then m else Mk (floor_commit m) (entries m ++ [(commit, unix_ms)])
  | None => Mk commit (entries m ++ [(commit, unix_ms)])
  end.

(** [truncate_below] *)
Definition truncate_below (m : t) (commit : Z) : t :=
  let kept := filter (λ e, commit ≤ e.1) (entries m) in
  Mk (default commit (fst <$> head kept)) kept.

(** [resolve_instant]; [c + 1] overflows, a panic with overflow checks, on the
    frame index [u64::MAX]. *)
Definition resolve_instant (m : t) (unix_ms wal_horizon_floor : Z) : option (result graph_error Z) :=
  match entries m with
  | [] => Some (Err NoRecordedTime)
  | (first, first_ms) :: _ =>
      if unix_ms <? first_ms then Some (Err (TimeBeforeFloor first_ms (floor_commit m)))
      else
        let answer := foldl (λ answer e, if e.2 <=? unix_ms then e.1 else answer) first (entries m) in
        if answer <? wal_horizon_floor then
          total ← match newest_commit m with Some c => try_u 64 (c + 1) | None => Some 0 end;
          Some (Err (CommitOutOfRange answer total wal_horizon_floor))
        else Some (Ok answer)
  end.

(** [encode_entry] *)
Definition encode_entry (commit unix_ms : Z) : list Z :=
  le_bytes 8 commit ++ le_bytes 8 (wrap_u 64 unix_ms).

(** [encode] *)
Definition encode (m : t) : list Z :=
  COMMIT_TIMES_MAGIC ++ le_bytes 2 COMMIT_TIMES_VERSION ++ le_bytes 8 (floor_commit m)
  ++ concat ((λ e, encode_entry e.1 e.2) <$> entries m).

(** [superseded_version] *)
Definition superseded_version (bytes : list Z) : option Z :=
  if (length bytes <? HEADER_LEN)%nat || negb (bool_decide (take 4 bytes = COMMIT_TIMES_MAGIC)) then None
  else
    let version := le_val (take 2 (drop 4 bytes)) in
    if bool_decide (version ∈ COMMIT_TIMES_SUPERSEDED_VERSIONS) then Some version else None.

(** The loop of [decode] over the body's chunks; [acc] is [entries] so far. *)
Fixpoint decode_entries (chunks : list (list Z)) (prev : option Z) (acc : list (Z * Z))
    : result graph_error (list (Z * Z)) :=
  match chunks with
  | [] => Ok acc
  | chunk :: chunks =>
      let commit := le_val (take 8 chunk) in
      let ms := wrap_i 64 (le_val (drop 8 chunk)) in
      match prev with
      | Some p =>
          if commit <=? p then Err (Corrupt (NotAscending commit p))
          else decode_entries chunks (Some commit) (acc ++ [(commit, ms)])
      | None => decode_entries chunks (Some commit) (acc ++ [(commit, ms)])
      end
  end.

(** [decode]; the conversion of [bytes[6..14]] to an array cannot fail. *)
Definition decode (bytes : list Z) : result graph_error t :=
  if (length bytes <? HEADER_LEN)%nat then Err (Corrupt (ShortHeader (len_z bytes)))
  else if negb (bool_decide (take 4 bytes = COMMIT_TIMES_MAGIC)) then Err (Corrupt (BadMagic (take 4 bytes)))
  else
    let version := le_val (take 2 (drop 4 bytes)) in
    if negb (version =? COMMIT_TIMES_VERSION) then Err (Corrupt (UnsupportedVersion version))
    else
      let floor_commit := le_val (take 8 (drop 6 bytes)) in
      let body := drop HEADER_LEN bytes in
      if negb (Nat.modulo (length body) ENTRY_LEN =? 0)%nat then Err (Corrupt (TornAppend (len_z body)))
      else
        entries ← decode_entries (chunks_exact (length body) ENTRY_LEN body) None [];
        mret (Mk floor_commit entries).

(** ** Well-formed maps *)

(** Ascending by commit, every field within its machine type. *)
Record wf (m : t) : Prop := {
  wf_floor : in_u 64 (floor_commit m);
  wf_entries : Forall (λ e, in_u 64 e.1 ∧ in_i 64 e.2) (entries m);
  wf_sorted : sorted (entries m).*1;
}.

Lemma new_wf : wf new.
Proof. split; [by split|constructor|constructor]. Qed.

(** Everything already recorded is below [c]. *)
Definition below (m : t) (c : Z) : Prop := ∀ e, e ∈ entries m → e.1 < c.

Lemma newest_below m c : sorted (entries m).*1 → (∀ n, newest_commit m = Some n → n < c) → below m c.
Proof.
  unfold newest_commit, below. destruct (entries m) as [|x l _] using rev_ind; [set_solver|].
  rewrite last_snoc, fmap_app, sorted_app. cbn. intros (_ & _ & Hl) Hn e [He|He]%elem_of_app.
  - specialize (Hn _ eq_refl). specialize (Hl e.1 x.1). unfold klt, cmp, Z_ord in Hl.
    rewrite Z.compare_lt_iff in Hl. etransitivity; [apply Hl|done]; [|set_solver]. by apply list_elem_of_fmap_2.
  - apply list_elem_of_singleton in He as ->. by apply Hn.
Qed.

Lemma below_newest m c n : below m c → newest_commit m = Some n → n < c.
Proof.
  unfold newest_commit, below. intros Hb Hn. apply fmap_Some in Hn as (e & He & ->).
  apply Hb. by eapply last_Some_elem_of.
Qed.

Lemma push_below m c ms : below m c →
  entries (push m c ms) = entries m ++ [(c, ms)] ∧ floor_commit (push m c ms) = (if is_empty m then c else floor_commit m).
Proof.
  intros Hb. unfold push, is_empty. destruct (newest_commit m) as [n|] eqn:En.
  - pose proof (below_newest _ _ _ Hb En). rewrite (proj2 (Z.leb_gt _ _)) by lia.
    split; [done|]. cbn. unfold newest_commit in En. by destruct (entries m).
  - unfold newest_commit in En. destruct (entries m) as [|? ? _] using rev_ind; [done|]. by rewrite last_snoc in En.
Qed.

Lemma push_stale m c ms n : newest_commit m = Some n → c ≤ n → push m c ms = m.
Proof. intros En Hc. unfold push. rewrite En. by rewrite (proj2 (Z.leb_le _ _)). Qed.

(** ** The file *)

Definition entry_ok (e : Z * Z) : Prop := in_u 64 e.1 ∧ in_i 64 e.2.

Lemma length_entry c ms : length (encode_entry c ms) = ENTRY_LEN.
Proof. unfold encode_entry. by rewrite length_app, !length_le_bytes. Qed.

Lemma entries_sized l : Forall (λ r, length r = ENTRY_LEN) ((λ e : Z * Z, encode_entry e.1 e.2) <$> l).
Proof. apply Forall_fmap, Forall_true. intros e. apply length_entry. Qed.

Lemma signed_u64 z : in_i 64 z → wrap_i 64 (le_val (le_bytes 8 (wrap_u 64 z))) = z.
Proof.
  intros Hz. rewrite le_val_bytes by (apply Z.mod_pos_bound; done).
  rewrite wrap_i_wrap_u by done. by apply wrap_i_id.
Qed.

(** The two halves of a 16-byte record are a commit and a time, and back. *)
Lemma entry_read c ms : in_u 64 c → in_i 64 ms →
  le_val (take 8 (encode_entry c ms)) = c ∧ wrap_i 64 (le_val (drop 8 (encode_entry c ms))) = ms.
Proof.
  intros Hc Hms. unfold encode_entry. rewrite take_app_length', drop_app_length' by by rewrite length_le_bytes.
  split; [by apply le_val_bytes|by apply signed_u64].
Qed.

Lemma entry_written r : Forall is_byte r → length r = ENTRY_LEN →
  encode_entry (le_val (take 8 r)) (wrap_i 64 (le_val (drop 8 r))) = r ∧ entry_ok (le_val (take 8 r), wrap_i 64 (le_val (drop 8 r))).
Proof.
  intros Hb Hl. pose proof (Forall_take _ 8 _ Hb) as H1. pose proof (Forall_drop _ 8 _ Hb) as H2.
  assert (length (take 8 r) = 8%nat) as L1 by (rewrite length_take, Hl; done).
  assert (length (drop 8 r) = 8%nat) as L2 by (rewrite length_drop, Hl; done).
  pose proof (le_val_range _ H1) as R1. pose proof (le_val_range _ H2) as R2. rewrite L1 in R1. rewrite L2 in R2.
  change (256 ^ Z.of_nat 8) with (2 ^ 64) in R1, R2. set (v := le_val (drop 8 r)) in *.
  assert (wrap_u 64 (wrap_i 64 v) = v) as Hv.
  { unfold wrap_u, wrap_i. rewrite Zminus_mod_idemp_l. replace (v + 2 ^ (64 - 1) - 2 ^ (64 - 1)) with v by lia. by apply Z.mod_small. }
  split.
  - pose proof (le_bytes_val _ H1) as B1. pose proof (le_bytes_val _ H2) as B2. rewrite L1 in B1. rewrite L2 in B2.
    unfold encode_entry. rewrite Hv, B1. unfold v. rewrite B2. apply take_drop.
  - split; [done|]. cbn [snd]. by apply wrap_i_range.
Qed.

(** What the loop reads back: the entries, when each is above the one before. *)
Lemma decode_entries_sorted l prev acc :
  Forall entry_ok l → sorted l.*1 → (∀ p e, prev = Some p → e ∈ l → p < e.1) →
  decode_entries ((λ e, encode_entry e.1 e.2) <$> l) prev acc = Ok (acc ++ l).
Proof.
  revert prev acc; induction l as [|[c ms] l IH]; intros prev acc Hok Hs Hp; [cbn; by rewrite app_nil_r|].
  apply Forall_cons in Hok as [[Hc Hms] Hok]. rewrite fmap_cons in Hs. apply sorted_cons in Hs as [Hs Hl].
  cbn [fmap list_fmap decode_entries fst snd] in *. destruct (entry_read c ms Hc Hms) as [-> ->].
  assert (decode_entries ((λ e, encode_entry e.1 e.2) <$> l) (Some c) (acc ++ [(c, ms)]) = Ok (acc ++ (c, ms) :: l)) as E.
  { rewrite IH; [by rewrite <-app_assoc|done|done|]. intros p e [= <-] He.
    apply Z.compare_lt_iff, Hl. by apply list_elem_of_fmap_2. }
  destruct prev as [p|]; [|done]. rewrite (proj2 (Z.leb_gt _ _)); [done|]. apply (Hp p (c, ms)); [done|by left].
Qed.

Lemma decode_entries_Ok rs prev acc l :
  Forall (λ r, length r = ENTRY_LEN) rs → Forall (Forall is_byte) rs → decode_entries rs prev acc = Ok l →
  ∃ l', l = acc ++ l' ∧ rs = (λ e, encode_entry e.1 e.2) <$> l' ∧ Forall entry_ok l' ∧ sorted l'.*1
    ∧ (∀ p e, prev = Some p → e ∈ l' → p < e.1).
Proof.
  revert prev acc; induction rs as [|r rs IH]; intros prev acc Hl Hb Hd.
  - injection Hd as <-. exists []. rewrite app_nil_r. split_and!; [done..|constructor|constructor|set_solver].
  - apply Forall_cons in Hl as [Hr Hl], Hb as [Hrb Hb]. cbn [decode_entries] in Hd.
    destruct (entry_written r Hrb Hr) as [Er Hok]. set (e := (le_val (take 8 r), _)) in Hok.
    assert (decode_entries rs (Some e.1) (acc ++ [e]) = Ok l ∧ (∀ p, prev = Some p → p < e.1)) as [Hd' Hp].
    { destruct prev as [p|]; [|done]. destruct (Z.leb_spec (le_val (take 8 r)) p); [done|]. split; [done|]. by intros ? [= <-]. }
    destruct (IH _ _ Hl Hb Hd') as (l' & -> & -> & Ho & Hs & Hpr). exists (e :: l'). rewrite <-app_assoc.
    split_and!; [done| |by constructor| |].
    + cbn [fmap list_fmap]. by rewrite <-Er at 1.
    + rewrite fmap_cons, sorted_cons. split; [done|]. intros y (e' & -> & He')%list_elem_of_fmap.
      apply Z.compare_lt_iff. by apply (Hpr e.1 e').
    + intros p e' Ep [->|He']%elem_of_cons; [by apply Hp|]. etransitivity; [by apply Hp|by apply (Hpr e.1 e')].
Qed.

(** The header, whatever follows it. *)
Lemma header_read floor body : in_u 64 floor →
  let bytes := COMMIT_TIMES_MAGIC ++ le_bytes 2 COMMIT_TIMES_VERSION ++ le_bytes 8 floor ++ body in
  (length bytes <? HEADER_LEN)%nat = false ∧ take 4 bytes = COMMIT_TIMES_MAGIC
  ∧ le_val (take 2 (drop 4 bytes)) = COMMIT_TIMES_VERSION ∧ le_val (take 8 (drop 6 bytes)) = floor ∧ drop HEADER_LEN bytes = body.
Proof.
  intros Hf bytes.
  assert (drop 6 bytes = le_bytes 8 floor ++ body) as E by done. split_and!; [|done|done| |].
  - apply Nat.ltb_ge. unfold bytes. rewrite !length_app, !length_le_bytes. unfold HEADER_LEN. cbn [length COMMIT_TIMES_MAGIC]. lia.
  - rewrite E, take_app_length' by by rewrite length_le_bytes. by apply le_val_bytes.
  - change HEADER_LEN with (6 + 8)%nat. rewrite <-drop_drop, E. apply drop_app_length'. by rewrite length_le_bytes.
Qed.

(** A file is the header and the body it came with. *)
Lemma header_written bytes : Forall is_byte bytes → (length bytes <? HEADER_LEN)%nat = false →
  take 4 bytes = COMMIT_TIMES_MAGIC → le_val (take 2 (drop 4 bytes)) = COMMIT_TIMES_VERSION →
  in_u 64 (le_val (take 8 (drop 6 bytes)))
  ∧ bytes = COMMIT_TIMES_MAGIC ++ le_bytes 2 COMMIT_TIMES_VERSION ++ le_bytes 8 (le_val (take 8 (drop 6 bytes))) ++ drop HEADER_LEN bytes.
Proof.
  intros Hb Hl%Nat.ltb_ge Hm Hv. unfold HEADER_LEN in Hl.
  assert (Forall is_byte (take 2 (drop 4 bytes)) ∧ Forall is_byte (take 8 (drop 6 bytes))) as [B2 B8] by (split; by apply Forall_take, Forall_drop).
  assert (length (take 2 (drop 4 bytes)) = 2%nat) as L2 by (rewrite length_take, length_drop; lia).
  assert (length (take 8 (drop 6 bytes)) = 8%nat) as L8 by (rewrite length_take, length_drop; lia).
  pose proof (le_bytes_val _ B2) as E2. pose proof (le_bytes_val _ B8) as E8. rewrite L2, Hv in E2. rewrite L8 in E8.
  split; [pose proof (le_val_range _ B8) as R; by rewrite L8 in R|].
  rewrite E2, E8, <-Hm. change HEADER_LEN with (6 + 8)%nat. rewrite <-drop_drop, take_drop.
  change 6%nat with (4 + 2)%nat. by rewrite <-drop_drop, take_drop, take_drop.
Qed.

Lemma decode_encode m : wf m → decode (encode m) = Ok m.
Proof.
  intros [Hf He Hs]. unfold decode, encode. destruct (header_read (floor_commit m) (concat ((λ e, encode_entry e.1 e.2) <$> entries m)) Hf) as (-> & -> & -> & -> & ->).
  rewrite bool_decide_true, Z.eqb_refl by done. cbn [negb]. pose proof (entries_sized (entries m)) as Hr.
  rewrite (length_records ENTRY_LEN) by done. rewrite Nat.mul_comm at 1. rewrite Nat.Div0.mod_mul. cbn [Nat.eqb negb].
  rewrite chunks_exact_records by (done || unfold ENTRY_LEN; lia).
  rewrite decode_entries_sorted; [|done|done|by intros ? ? [=]]. by destruct m.
Qed.

Lemma encode_decode bytes m : Forall is_byte bytes → decode bytes = Ok m → wf m ∧ encode m = bytes.
Proof.
  unfold decode. intros Hb Hd. destruct (length bytes <? HEADER_LEN)%nat eqn:El; [done|].
  case_bool_decide as Hm; [|done]. destruct (Z.eqb_spec (le_val (take 2 (drop 4 bytes))) COMMIT_TIMES_VERSION) as [Hv|]; [|done].
  cbn [negb] in Hd. destruct (Nat.eqb_spec (length (drop HEADER_LEN bytes) mod ENTRY_LEN) 0) as [Hmod|]; [|done]. cbn [negb] in Hd.
  apply Nat.Div0.mod_divides in Hmod as [n Hn].
  destruct (chunks_exact_concat (length (drop HEADER_LEN bytes)) ENTRY_LEN (drop HEADER_LEN bytes) n) as [Hc Hr]; [unfold ENTRY_LEN; lia|done|done|].
  set (rs := chunks_exact _ _ _) in *. destruct (decode_entries rs None []) as [l|] eqn:E; [|done]. injection Hd as <-.
  assert (Forall (Forall is_byte) rs) as Hrb by (apply Forall_concat; rewrite Hc; by apply Forall_drop).
  destruct (decode_entries_Ok _ _ _ _ Hr Hrb E) as (l' & -> & Hrs & Ho & Hs & _).
  destruct (header_written bytes Hb El Hm Hv) as [Hf Hbytes]. split; [by split|].
  unfold encode. cbn [floor_commit entries app]. by rewrite <-Hrs, Hc.
Qed.

(** An append is the rewrite of the extended map; a part of one is refused. *)
Lemma encode_push m c ms : below m c → is_empty m = false → encode (push m c ms) = encode m ++ encode_entry c ms.
Proof.
  intros Hb Hn. destruct (push_below m c ms Hb) as [He Hf]. rewrite Hn in Hf. unfold encode. rewrite He, Hf, fmap_app, concat_app.
  cbn [fmap list_fmap concat fst snd]. by rewrite app_nil_r, <-!app_assoc.
Qed.

Lemma decode_torn m tail : wf m → (0 < length tail < ENTRY_LEN)%nat →
  decode (encode m ++ tail) = Err (Corrupt (TornAppend (Z.of_nat ENTRY_LEN * len_z (entries m) + len_z tail))).
Proof.
  intros [Hf He Hs] Ht. unfold decode, encode. rewrite <-!app_assoc.
  destruct (header_read (floor_commit m) (concat ((λ e, encode_entry e.1 e.2) <$> entries m) ++ tail) Hf) as (-> & -> & -> & _ & ->).
  rewrite bool_decide_true, Z.eqb_refl by done. cbn [negb].
  assert (length (concat ((λ e, encode_entry e.1 e.2) <$> entries m) ++ tail) = (length tail + length (entries m) * ENTRY_LEN)%nat) as Hl.
  { rewrite length_app, (length_records ENTRY_LEN), length_fmap by apply entries_sized. lia. }
  unfold len_z. rewrite Hl, Nat.Div0.mod_add, Nat.mod_small by lia.
  rewrite (proj2 (Nat.eqb_neq _ _)) by lia. cbn [negb]. do 3 f_equal. lia.
Qed.

(** An entry that does not ascend is refused, whatever came before it. *)
Lemma decode_entries_stale l prev acc c ms n :
  Forall entry_ok l → sorted l.*1 → (∀ p e, prev = Some p → e ∈ l → p < e.1) → in_u 64 c → in_i 64 ms →
  (last l = None → prev = Some n) → (∀ e, last l = Some e → e.1 = n) → c ≤ n →
  decode_entries (((λ e, encode_entry e.1 e.2) <$> l) ++ [encode_entry c ms]) prev acc = Err (Corrupt (NotAscending c n)).
Proof.
  revert prev acc; induction l as [|[c' ms'] l IH]; intros prev acc Hok Hs Hp Hc Hms Hnone Hlast Hle.
  - rewrite Hnone by done. cbn [fmap list_fmap app decode_entries]. destruct (entry_read c ms Hc Hms) as [-> _].
    by rewrite (proj2 (Z.leb_le _ _)).
  - apply Forall_cons in Hok as [[Hc' Hms'] Hok]. rewrite fmap_cons in Hs. apply sorted_cons in Hs as [Hs Hl].
    cbn [fmap list_fmap app decode_entries fst snd] in *. destruct (entry_read c' ms' Hc' Hms') as [-> ->].
    assert (∀ acc, decode_entries (((λ e, encode_entry e.1 e.2) <$> l) ++ [encode_entry c ms]) (Some c') acc = Err (Corrupt (NotAscending c n))) as E.
    { intros acc'. apply IH; [done|done| |done|done| |intros e He; apply Hlast; by destruct l|done].
      - intros p e [= <-] He. apply Z.compare_lt_iff, Hl. by apply list_elem_of_fmap_2.
      - intros ->%last_None. f_equal. by apply (Hlast (c', ms')). }
    destruct prev as [p|]; [|done]. rewrite (proj2 (Z.leb_gt _ _)); [done|]. apply (Hp p (c', ms')); [done|by left].
Qed.

Lemma decode_stale m c ms n : wf m → in_u 64 c → in_i 64 ms → newest_commit m = Some n → c ≤ n →
  decode (encode m ++ encode_entry c ms) = Err (Corrupt (NotAscending c n)).
Proof.
  intros [Hf He Hs] Hc Hms Hn Hle. unfold decode, encode. rewrite <-!app_assoc.
  assert (concat ((λ e, encode_entry e.1 e.2) <$> entries m) ++ encode_entry c ms
    = concat (((λ e, encode_entry e.1 e.2) <$> entries m) ++ [encode_entry c ms])) as -> by (rewrite concat_app; cbn [concat]; by rewrite app_nil_r).
  set (rs := ((λ e, encode_entry e.1 e.2) <$> entries m) ++ [encode_entry c ms]).
  assert (Forall (λ r, length r = ENTRY_LEN) rs) as Hr by (apply Forall_app; split; [apply entries_sized|apply Forall_singleton, length_entry]).
  destruct (header_read (floor_commit m) (concat rs) Hf) as (-> & -> & -> & -> & ->).
  rewrite bool_decide_true, Z.eqb_refl by done. cbn [negb]. rewrite (length_records ENTRY_LEN) by done. rewrite Nat.mul_comm at 1. rewrite Nat.Div0.mod_mul. cbn [Nat.eqb negb].
  rewrite chunks_exact_records by (done || unfold ENTRY_LEN; lia). unfold rs.
  unfold newest_commit in Hn. apply fmap_Some in Hn as (e & Hl & ->).
  by rewrite (decode_entries_stale _ _ _ c ms e.1); [|done|done|by intros ? ? [=]|done|done|rewrite Hl|rewrite Hl; by intros ? [= <-]|].
Qed.

Lemma encode_are_bytes m : Forall is_byte (encode m).
Proof.
  unfold encode. rewrite !Forall_app. split_and!; [|apply le_bytes_are_bytes..|].
  - repeat constructor; unfold is_byte; lia.
  - apply Forall_concat, Forall_fmap, Forall_true. intros e. apply Forall_app. split; apply le_bytes_are_bytes.
Qed.

(** ** Keeping the map *)

Lemma push_wf m c ms : wf m → in_u 64 c → in_i 64 ms → wf (push m c ms).
Proof.
  intros Hw Hc Hms. destruct (newest_commit m) as [n|] eqn:En; [destruct (Z.le_gt_cases c n)|].
  { by rewrite (push_stale m c ms n). }
  all: assert (below m c) as Hb by (apply newest_below; [apply Hw|intros n' Hn'; rewrite En in Hn'; by simplify_eq]).
  all: destruct (push_below m c ms Hb) as [He Hf], Hw as [Wf We Ws]; split; rewrite ?He, ?Hf; [by destruct (is_empty m)|apply Forall_app; split; [done|by apply Forall_singleton]|].
  all: rewrite fmap_app, sorted_app; split_and!; [done|by apply SSorted_cons; constructor|].
  all: intros x y (e & -> & He')%list_elem_of_fmap ->%list_elem_of_singleton; apply Z.compare_lt_iff; by apply Hb.
Qed.

Lemma truncate_wf m c : wf m → in_u 64 c → wf (truncate_below m c).
Proof.
  intros [Wf We Ws] Hc. unfold truncate_below. set (kept := filter _ _).
  assert (Forall (λ e, in_u 64 e.1 ∧ in_i 64 e.2) kept) as Hk.
  { apply Forall_forall. intros e [_ He]%list_elem_of_filter. by apply (proj1 (Forall_forall _ _) We). }
  split; cbn [floor_commit entries]; [|done|].
  - destruct kept as [|e kept]; [done|]. by apply Forall_cons in Hk as [[He _] _].
  - unfold kept. clear Hk kept We Wf. induction (entries m) as [|e l IH]; [constructor|].
    rewrite fmap_cons in Ws. apply sorted_cons in Ws as [Ws Hl]. rewrite filter_cons. case_decide; [|by apply IH].
    rewrite fmap_cons, sorted_cons. split; [by apply IH|]. intros y (e' & -> & He')%list_elem_of_fmap.
    apply Hl, list_elem_of_fmap_2. by apply list_elem_of_filter in He' as [_ ?].
Qed.

(** ** Reading it *)

Lemma time_of_spec m c ms : wf m → time_of m c = Some ms ↔ (c, ms) ∈ entries m.
Proof.
  intros [_ _ Hs]. unfold time_of. pose proof (sorted_NoDup _ Hs) as Hn. split.
  - destruct (binary_search c (entries m).*1) as [i|] eqn:E; [|done]. apply binary_search_inl in E.
    rewrite list_lookup_fmap in E. destruct (entries m !! i) as [[c' ms']|] eqn:Ei; [|done]. cbn in *.
    intros [= <-]. injection E as <-. by eapply list_elem_of_lookup_2.
  - intros [j Hj]%list_elem_of_lookup. destruct (binary_search_spec c _ Hs) as [(i & -> & Hi & _)|(i & _ & Hni & _)].
    + assert ((entries m).*1 !! j = Some c) as Hj' by by rewrite list_lookup_fmap, Hj.
      rewrite (NoDup_lookup _ i j c Hn Hi Hj'), Hj. done.
    + destruct Hni. apply list_elem_of_lookup_2 in Hj. by apply elem_of_fst in Hj.
Qed.

Lemma foldl_max_spec l a : (∀ x, x ∈ a :: l → x ≤ foldl Z.max a l) ∧ foldl Z.max a l ∈ a :: l.
Proof.
  revert a; induction l as [|b l IH]; intros a; cbn [foldl]; [split; [intros x ->%list_elem_of_singleton; lia|by left]|].
  destruct (IH (Z.max a b)) as [Hle Hin]. split.
  - pose proof (Hle (Z.max a b) ltac:(by left)). intros x [->|[->|Hx]%elem_of_cons]%elem_of_cons; [lia|lia|]. apply Hle. by right.
  - destruct (Z.max_spec a b) as [[? E]|[? E]]; rewrite E in *; set_solver.
Qed.

Lemma max_ms_spec m :
  match max_ms m with
  | Some x => (∃ c, (c, x) ∈ entries m) ∧ ∀ e, e ∈ entries m → e.2 ≤ x
  | None => entries m = []
  end.
Proof.
  unfold max_ms. destruct ((entries m).*2) as [|a l] eqn:E; [by apply fmap_nil_inv in E|].
  destruct (foldl_max_spec l a) as [Hle Hin]. rewrite <-E in *. split.
  - apply list_elem_of_fmap in Hin as ([c x] & Ex & Hin). cbn in Ex. rewrite Ex. by exists c.
  - intros e He. by apply Hle, list_elem_of_fmap_2.
Qed.

(** [c] is the last commit of [l] recorded at or before [unix_ms]. *)
Definition latest (l : list (Z * Z)) (unix_ms c : Z) : Prop :=
  (∃ ms, (c, ms) ∈ l ∧ ms ≤ unix_ms) ∧ ∀ e, e ∈ l → e.2 ≤ unix_ms → e.1 ≤ c.

Lemma latest_unique l u c c' : latest l u c → latest l u c' → c = c'.
Proof. intros [(ms & Hin & Hms) Hmax] [(ms' & Hin' & Hms') Hmax']. pose proof (Hmax _ Hin' Hms'). pose proof (Hmax' _ Hin Hms). cbn in *. lia. Qed.

Lemma scan_latest l u a e : sorted l.*1 → e ∈ l → e.2 ≤ u →
  latest l u (foldl (λ answer e, if e.2 <=? u then e.1 else answer) a l).
Proof.
  revert a e; induction l as [|x l IH] using rev_ind; intros a e Hs He Hu; [set_solver|].
  rewrite fmap_app, sorted_app in Hs. destruct Hs as (Hs & _ & Hx). rewrite foldl_snoc.
  destruct (Z.leb_spec x.2 u).
  - split; [exists x.2; destruct x; cbn in *; split; [set_solver|done]|].
    intros e' [He'| ->%list_elem_of_singleton]%elem_of_app _; [|lia]. apply Z.lt_le_incl, Z.compare_lt_iff.
    apply Hx; [by apply list_elem_of_fmap_2|by left].
  - assert (e ∈ l) as Hel by (apply elem_of_app in He as [| ->%list_elem_of_singleton]; [done|lia]).
    destruct (IH a e Hs Hel Hu) as [(ms & Hin & Hms) Hmax]. split; [exists ms; set_solver|].
    intros e' [He'| ->%list_elem_of_singleton]%elem_of_app He'u; [by apply Hmax|lia].
Qed.

(** What a date denotes: refused by name, or the latest commit recorded by then. *)
Inductive resolution (m : t) (unix_ms floor : Z) : result graph_error Z → Prop :=
| resolved_none : entries m = [] → resolution m unix_ms floor (Err NoRecordedTime)
| resolved_before first : head (entries m) = Some first → unix_ms < first.2 →
    resolution m unix_ms floor (Err (TimeBeforeFloor first.2 (floor_commit m)))
| resolved_pruned first c newest : head (entries m) = Some first → first.2 ≤ unix_ms → latest (entries m) unix_ms c →
    c < floor → newest_commit m = Some newest → resolution m unix_ms floor (Err (CommitOutOfRange c (newest + 1) floor))
| resolved_at first c : head (entries m) = Some first → first.2 ≤ unix_ms → latest (entries m) unix_ms c → floor ≤ c →
    resolution m unix_ms floor (Ok c).

Lemma resolve_resolution m unix_ms floor : wf m → below m u64_max →
  ∃ r, resolve_instant m unix_ms floor = Some r ∧ resolution m unix_ms floor r.
Proof.
  intros Hw Hb. unfold resolve_instant. destruct (entries m) as [|[first first_ms] l] eqn:E; [eexists; split; [done|by constructor]|].
  destruct (Z.ltb_spec unix_ms first_ms); [eexists; split; [done|]; apply (resolved_before _ _ _ (first, first_ms)); [by rewrite E|done]|].
  assert (latest (entries m) unix_ms (foldl (λ answer e, if e.2 <=? unix_ms then e.1 else answer) first (entries m))) as Hl.
  { apply (scan_latest _ _ _ (first, first_ms)); [apply Hw|rewrite E; by left|done]. }
  rewrite <-E. set (c := foldl _ _ _) in *. assert (head (entries m) = Some (first, first_ms)) as Hh by by rewrite E.
  destruct (Z.ltb_spec c floor); [|eexists; split; [done|by eapply resolved_at]].
  destruct (newest_commit m) as [n|] eqn:En; [|unfold newest_commit in En; rewrite E in En; apply fmap_None, last_None in En; done].
  assert (n ∈ (entries m).*1) as Hn by (unfold newest_commit in En; apply fmap_Some in En as (e & He & ->); by apply list_elem_of_fmap_2; eapply last_Some_elem_of).
  apply list_elem_of_fmap in Hn as (e & -> & He). pose proof (Hb e He). destruct Hw as [_ We _]. rewrite Forall_forall in We. destruct (We e He) as [[? ?] _].
  rewrite try_u_Some by (unfold in_u, u64_max in *; lia). eexists; split; [done|]. by eapply resolved_pruned.
Qed.

(** ** The claim *)

(** C27: the sidecar file is read exactly as it was written, appends included.
    Of all byte strings, [decode] accepts the encodings of maps that ascend by
    commit and nothing else, each as the map it encodes.  Appending the entry
    of a later commit to the file of a non-empty map gives the file a rewrite
    would; appending any proper part of it is refused as torn, and appending
    the entry of a commit that is not later is refused as not ascending. *)
Theorem sidecar_codec bytes m : Forall is_byte bytes →
  (decode bytes = Ok m ↔ wf m ∧ bytes = encode m)
  ∧ ∀ c ms, wf m → is_empty m = false → in_u 64 c → in_i 64 ms →
      (below m c → decode (encode m ++ encode_entry c ms) = Ok (push m c ms) ∧ encode m ++ encode_entry c ms = encode (push m c ms))
      ∧ (∀ n, (0 < n < ENTRY_LEN)%nat → decode (encode m ++ take n (encode_entry c ms))
           = Err (Corrupt (TornAppend (Z.of_nat ENTRY_LEN * len_z (entries m) + Z.of_nat n))))
      ∧ (∀ n, newest_commit m = Some n → c ≤ n → decode (encode m ++ encode_entry c ms) = Err (Corrupt (NotAscending c n))).
Proof.
  intros Hb. split.
  - split; [intros Hd; by destruct (encode_decode bytes m Hb Hd)|]. intros [Hw ->]. by apply decode_encode.
  - intros c ms Hw Hn Hc Hms. split_and!.
    + intros Hlt. rewrite <-encode_push by done. split; [|done]. by apply decode_encode, push_wf.
    + intros n Hl. rewrite decode_torn; unfold len_z; rewrite ?length_take, ?length_entry; [|done|lia]. by rewrite Nat.min_l by lia.
    + intros n En Hle. by apply decode_stale.
Qed.

Definition sample_map : t := push (push (push new 3 (-5)) 4 1000) 7 900.

Lemma sidecar_codec_witness :
  Forall is_byte (encode sample_map) ∧ wf sample_map ∧ decode (encode sample_map) = Ok sample_map
  ∧ decode (encode sample_map ++ encode_entry 9 1234) = Ok (push sample_map 9 1234).
Proof.
  assert (Forall is_byte (encode sample_map)) as Hb by apply encode_are_bytes.
  assert (wf sample_map) as Hw.
  { assert (∀ m c ms, wf m → in_ub 64 c = true → in_ib 64 ms = true → wf (push m c ms)) as Hp.
    { intros m c ms Hm Hc%in_ub_spec Hms%in_ib_spec. by apply push_wf. }
    repeat apply Hp; [apply new_wf|reflexivity..]. }
  assert (below sample_map 9) as Hlt.
  { intros e He. cbn in He. repeat (apply elem_of_cons in He as [->|He]; [cbn; lia|]). by apply not_elem_of_nil in He. }
  destruct (sidecar_codec (encode sample_map) sample_map Hb) as [Hd Ha]. split; [exact Hb|]. split; [exact Hw|].
  split; [exact (proj2 Hd (conj Hw eq_refl))|].
  exact (proj1 (proj1 (Ha 9 1234 Hw eq_refl (proj1 (in_ub_spec 64 9) eq_refl) (proj1 (in_ib_spec 64 1234) eq_refl)) Hlt)).
Defined.

End CommitTimes.
