(* ===== verification/CommitClock.v ===== *)
(** * Stamping commits and resolving dates

    Models what a database handle does with the commit-time sidecar
    ([crates/core-api/src/db.rs]): the frames and the stamp of each commit, the
    reload at open, the three kinds of snapshot with what they do to the WAL, its
    archives and the horizon floor, the asserted time of a backfill, and the date
    queries.

    The file system is [RealFs] of [crates/core-storage/src/fs.rs] reduced to the
    sidecar's bytes ([file]; an absent file reads as empty), the persisted floor,
    and the numbers of frames a decode finds in the archives and in the live WAL.
    Each call takes its outcome: an append that fails has written some first
    bytes, an atomic write or a rename that fails either left things as they were
    or, when only the last directory sync failed, has done its work. Where the
    code returns early on a failure, so does the model. The wall clock is an
    argument too.

    [run] executes a sequence of operations and keeps, beside the handle, the
    history of every stamp.  One claim is about any run, whatever fails in it, one
    about the runs in which nothing does. *)

From S2P Require Import Prelude Order Bytes Rfc3339 CommitTimes.

Module CommitClock.
Import CommitTimes.

(** ** The file system *)

(** How a write ended: done, or failed after [n] bytes. *)
Inductive outcome := Done | Failed (n : nat).

(** [RealFs::append] *)
Definition append (o : outcome) (file data : list Z) : list Z * bool :=
  match o with Done => (file ++ data, true) | Failed n => (file ++ take n data, false) end.

(** A replacement by rename: a failure before the rename leaves the old state, one
    after it (the sync of the directory) the new one. *)
Definition renamed {A} (o : outcome) (old new : A) : A * bool :=
  match o with Done => (new, true) | Failed O => (old, false) | Failed (S _) => (new, false) end.

(** [RealFs::write_atomic] *)
Definition write_atomic (o : outcome) (file data : list Z) : list Z * bool := renamed o file data.

(** ** The handle *)

(** The fields of [GraphDb] the dates depend on, and on disk the sidecar, the
    persisted horizon floor, and the frames found in the archives and in the live
    WAL; [torn] when the live WAL ends in part of a frame, behind which nothing is
    found. *)
Record handle := Handle {
  commit_times : CommitTimes.t;
  commit_times_poisoned : bool;
  commit_time_override : option Z;
  wal_horizon_floor : Z;
  wal_frames_written : Z;
  read_only : bool;
  file : list Z;
  disk_floor : Z;
  archived : Z;
  live : Z;
  torn : bool;
}.

Definition with_times (h : handle) (m : CommitTimes.t) : handle :=
  Handle m (commit_times_poisoned h) (commit_time_override h) (wal_horizon_floor h) (wal_frames_written h) (read_only h) (file h) (disk_floor h) (archived h) (live h) (torn h).
Definition poison (h : handle) : handle :=
  Handle (commit_times h) true (commit_time_override h) (wal_horizon_floor h) (wal_frames_written h) (read_only h) (file h) (disk_floor h) (archived h) (live h) (torn h).
Definition with_override (h : handle) (ms : option Z) : handle :=
  Handle (commit_times h) (commit_times_poisoned h) ms (wal_horizon_floor h) (wal_frames_written h) (read_only h) (file h) (disk_floor h) (archived h) (live h) (torn h).
Definition with_frames (h : handle) (n : Z) : handle :=
  Handle (commit_times h) (commit_times_poisoned h) (commit_time_override h) (wal_horizon_floor h) n (read_only h) (file h) (disk_floor h) (archived h) (live h) (torn h).
Definition with_floor (h : handle) (floor on_disk : Z) : handle :=
  Handle (commit_times h) (commit_times_poisoned h) (commit_time_override h) floor (wal_frames_written h) (read_only h) (file h) on_disk (archived h) (live h) (torn h).
Definition with_wal (h : handle) (in_archives in_wal : Z) (cut : bool) : handle :=
  Handle (commit_times h) (commit_times_poisoned h) (commit_time_override h) (wal_horizon_floor h) (wal_frames_written h) (read_only h) (file h) (disk_floor h) in_archives in_wal cut.

(** The end of a write of the sidecar: the file as it is now, poisoned unless it
    succeeded. *)
Definition wrote (h : handle) (r : list Z * bool) : handle :=
  Handle (commit_times h) (commit_times_poisoned h || negb r.2) (commit_time_override h) (wal_horizon_floor h) (wal_frames_written h) (read_only h) r.1 (disk_floor h) (archived h) (live h) (torn h).

(** [wal_total_commits]: the floor on disk and every frame found above it. *)
Definition wal_total_commits (h : handle) : Z := disk_floor h + archived h + live h.

(** The time a stamp records; [None] is a clock before 1970. *)
Definition stamp_ms (h : handle) (clock : option Z) : option Z :=
  match commit_time_override h with
  | Some ms => Some ms
  | None => wrap_i 64 <$> clock
  end.

(** [stamp_commit_time] *)
Definition stamp_commit_time (h : handle) (frame_index : Z) (clock : option Z) (o : outcome) : handle :=
  if commit_times_poisoned h then h
  else
    match stamp_ms h clock with
    | None => poison h
    | Some unix_ms =>
        let first := is_empty (commit_times h) in
        let h := with_times h (push (commit_times h) frame_index unix_ms) in
        wrote h (if first then write_atomic o (file h) (encode (commit_times h))
                 else append o (file h) (encode_entry frame_index unix_ms))
    end.

(** [load_commit_times_from_fs]; [readable] is whether [fs.read] succeeds. *)
Definition load_commit_times_from_fs (h : handle) (readable : bool) : handle :=
  if readable then
    match file h with
    | [] => h
    | bytes =>
        if superseded_version bytes then h
        else match decode bytes with Ok m => with_times h m | Err _ => poison h end
    end
  else h.

(** [rewrite_commit_times] *)
Definition rewrite_commit_times (h : handle) (o : outcome) : handle :=
  if commit_times_poisoned h then h
  else wrote h (write_atomic o (file h) (encode (commit_times h))).

(** [GraphDb::resolve_instant]; [total] is what [wal_total_commits] answers. *)
Definition resolve_instant (h : handle) (total unix_ms : Z) : option (result graph_error Z) :=
  if commit_times_poisoned h then Some (Err (Corrupt WillNotDecode))
  else
    r ← CommitTimes.resolve_instant (commit_times h) unix_ms (wal_horizon_floor h);
    Some (at_ ← r;
          if total <=? at_ then Err (CommitOutOfRange at_ total (wal_horizon_floor h)) else Ok at_).

(** [resolve_date] *)
Definition resolve_date (h : handle) (total : Z) (s : list Z) : option (result graph_error Z) :=
  match Rfc3339.parse_rfc3339_end_ms s with
  | Ok ms => resolve_instant h total ms
  | Err Rfc3339.NoValue => Some (Err (QueryError s))
  | Err Rfc3339.Panic => None
  end.

(** [record_commits_at] *)
Definition record_commits_at (h : handle) (unix_ms : option Z) : result graph_error handle :=
  if read_only h then Err ReadOnly
  else
    match unix_ms with
    | Some ms =>
        if commit_times_poisoned h then Err (Corrupt WillNotDecode)
        else
          match max_ms (commit_times h) with
          | Some newest =>
              if ms <? newest then Err (CommitTimeNotMonotonic ms newest) else Ok (with_override h unix_ms)
          | None => Ok (with_override h unix_ms)
          end
    | None => Ok (with_override h unix_ms)
    end.

(** [commit_time_ms] *)
Definition commit_time_ms (h : handle) (commit : Z) : option Z :=
  if commit_times_poisoned h then None else time_of (commit_times h) commit.

(** ** Where the engine calls them *)

(** An append to the WAL of one frame. *)
Definition append_frame (h : handle) (o : outcome) : handle * bool :=
  match o with
  | Done => (with_wal h (archived h) (if torn h then live h else live h + 1) (torn h), true)
  | Failed O => (h, false)
  | Failed (S _) => (with_wal h (archived h) (live h) true, false)
  end.

Definition count_frame (h : handle) : handle := with_frames h (wal_frames_written h + 1).

(** The frames of one commit in [log_then_apply_with]: its record, then the sync
    the policy may ask for, then, when its rules fired, the marker of its derived
    edges, whose append may fail. The answer is whether the stamp is reached. *)
Definition log_frames (h : handle) (record : outcome) (synced : bool) (marker : option outcome) : handle * bool :=
  if read_only h then (h, false)
  else
    let '(h, ok) := append_frame h record in
    if negb ok then (h, false)
    else
      let h := count_frame h in
      if negb synced then (h, false)
      else
        match marker with
        | None => (h, true)
        | Some o => let '(h, ok) := append_frame h o in (if ok then count_frame h else h, true)
        end.

(** [log_then_apply_with] *)
Definition commit (h : handle) (record : outcome) (synced : bool) (marker : option outcome) (clock : option Z) (o : outcome) : handle :=
  let '(h, reached) := log_frames h record synced marker in
  if reached then stamp_commit_time h (wal_frames_written h - 1) clock o else h.

(** The end of [snapshot]: the intent is emptied and the frames are counted again
    from disk, unless one of the calls in between fails. *)
Definition recount (h : handle) (settled : bool) : handle :=
  if settled then with_frames h (wal_total_commits h) else h.

(** [archive_wal] *)
Definition archive_wal (h : handle) (o : outcome) : handle * bool :=
  renamed o h (with_wal h (archived h + live h) 0 false).

(** [write_atomic] of a WAL of [baseline] frames. *)
Definition replace_wal (h : handle) (baseline : Z) (o : outcome) : handle * bool :=
  renamed o h (with_wal h (archived h) baseline false).

(** [write_horizon_floor] *)
Definition write_horizon_floor (h : handle) (floor : Z) (o : outcome) : handle * bool :=
  renamed o h (with_floor h (wal_horizon_floor h) floor).

(** Archives of [frames] frames are deleted, all of the intended ones or, after a
    failure, some. *)
Definition delete_archives (h : handle) (frames : Z) (complete : bool) : handle * bool :=
  (with_wal h (archived h - frames) (live h) (torn h), complete).

(** The retention sweep: [pruned] frames in the surplus archives. The floor moves in
    the handle, then on disk; then the map; then the genesis marker and the
    archives go. *)
Record sweep := Sweep {
  pruned : Z; floor_write : outcome; map_write : outcome;
  marker_gone : bool; deleted : Z; all_deleted : bool;
}.

Definition retain (h : handle) (s : sweep) : handle * bool :=
  let floor := wal_horizon_floor h + pruned s in
  let h := with_floor h floor (disk_floor h) in
  let '(h, ok) := write_horizon_floor h floor (floor_write s) in
  if negb ok then (h, false)
  else
    let h := rewrite_commit_times (with_times h (truncate_below (commit_times h) floor)) (map_write s) in
    if negb (marker_gone s) then (h, false)
    else delete_archives h (deleted s) (all_deleted s).

(** The WAL's part of the archiving [snapshot]: nothing to archive, and the WAL
    rewritten if it is not the baseline; or the rename and the baseline. *)
Inductive archiving :=
| Nothing (rewrite : option outcome)
| Rename (rename replace : outcome).

Definition archive_step (h : handle) (baseline : Z) (a : archiving) : handle * bool :=
  match a with
  | Nothing None => (h, true)
  | Nothing (Some o) => replace_wal h baseline o
  | Rename rename replace =>
      let '(h, ok) := archive_wal h rename in
      if negb ok then (h, false) else replace_wal h baseline replace
  end.

(** [snapshot] with [archive_wal] *)
Definition snapshot_archive (h : handle) (baseline : Z) (a : archiving) (s : option sweep) (settled : bool) : handle :=
  let '(h, ok) := archive_step h baseline a in
  if negb ok then h
  else
    let '(h, ok) := match s with None => (h, true) | Some s => retain h s end in
    if negb ok then h else recount h settled.

(** The truncating [snapshot]: everything addressable moves below the floor, on
    disk first, *)
Definition raise_floor (h : handle) (total : Z) (o : outcome) : handle * bool :=
  if wal_horizon_floor h <? total then
    let '(h, ok) := write_horizon_floor h total o in
    if ok then (with_floor h total (disk_floor h), true) else (h, false)
  else (h, true).
(** the map is dropped, *)
Definition drop_times (h : handle) (o : outcome) : handle :=
  rewrite_commit_times (with_times h CommitTimes.new) o.
(** and the frames of the replacement WAL are counted from the floor; [kept]
    frames stay in archives. *)
Definition truncate_wal (h : handle) (floor_write : outcome) (baseline : Z) (replace : outcome) (kept : Z) (complete : bool)
    (o : outcome) (settled : bool) : handle :=
  let '(h, ok) := raise_floor h (wal_total_commits h) floor_write in
  if negb ok then h
  else
    let '(h, ok) := replace_wal h baseline replace in
    if negb ok then h
    else
      let '(h, ok) := delete_archives h (archived h - kept) complete in
      if negb ok then h else recount (drop_times h o) settled.

(** [reset_for_reload]'s fields, and what the reload reads from disk: the floor
    and the frames it finds, behind which it repairs the WAL. *)
Definition reset_for_reload (h : handle) : handle :=
  Handle CommitTimes.new false None 0 0 (read_only h) (file h) (disk_floor h) (archived h) (live h) (torn h).
Definition reopen (h : handle) (in_archives in_wal : Z) (readable : bool) : handle :=
  let h := with_wal (reset_for_reload h) in_archives in_wal false in
  let h := with_floor h (disk_floor h) (disk_floor h) in
  load_commit_times_from_fs (with_frames h (wal_total_commits h)) readable.

Definition new_handle (bytes : list Z) : handle := Handle CommitTimes.new false None 0 0 false bytes 0 0 0 false.

Inductive op :=
| Commit (record : outcome) (synced : bool) (marker : option outcome) (clock : option Z) (o : outcome)
| RecordAt (unix_ms : option Z)
| Archive (baseline : Z) (a : archiving) (s : option sweep) (settled : bool)
| KeepWal (settled : bool)
| Truncate (floor_write : outcome) (baseline : Z) (replace : outcome) (kept : Z) (complete : bool) (o : outcome) (settled : bool)
| Reopen (gone lost : Z) (readable : bool).

Definition apply (h : handle) (x : op) : handle :=
  match x with
  | Commit record synced marker clock o => commit h record synced marker clock o
  | RecordAt ms => default h (ok (record_commits_at h ms))
  | Archive baseline a s settled => snapshot_archive h baseline a s settled
  | KeepWal settled => recount h settled
  | Truncate fw baseline replace kept complete o settled => truncate_wal h fw baseline replace kept complete o settled
  | Reopen gone lost readable => reopen h (archived h - gone) (live h - lost) readable
  end.

(** The stamps of a run: which frame, and the time that was taken for it. *)
Definition stamped (h : handle) (x : op) : list (Z * Z) :=
  match x with
  | Commit record synced marker clock _ =>
      let '(h, reached) := log_frames h record synced marker in
      if negb reached || commit_times_poisoned h then []
      else match stamp_ms h clock with
           | Some ms => [(wal_frames_written h - 1, ms)]
           | None => []
           end
  | _ => []
  end.

Fixpoint run (s : handle * list (Z * Z)) (ops : list op) : handle * list (Z * Z) :=
  match ops with
  | [] => s
  | x :: ops => run (apply s.1 x, s.2 ++ stamped s.1 x) ops
  end.

(** The floors and the frame counts are [u64]s that have not overflowed. *)
Definition fits (h : handle) : bool :=
  in_ub 64 (wal_horizon_floor h) && in_ub 64 (wal_frames_written h) && in_ub 64 (disk_floor h)
  && in_ub 64 (archived h) && in_ub 64 (live h) && in_ub 64 (wal_total_commits h).

(** What is known of the arguments: an asserted time is an [i64], an archiving
    snapshot finds nothing to archive only in a WAL that is empty or is the
    baseline, a sweep prunes frames there are, and no number overflows. *)
Definition admissible (h : handle) (x : op) : bool :=
  match x with
  | RecordAt (Some ms) => in_ib 64 ms
  | Archive baseline a s _ =>
      match a with Nothing _ => (live h =? 0) || (live h =? baseline) | Rename _ _ => true end
      && match s with Some s => 0 <=? pruned s | None => true end
  | _ => true
  end && fits (apply h x).

Fixpoint admissible_run (s : handle * list (Z * Z)) (ops : list op) : bool :=
  match ops with
  | [] => true
  | x :: ops => admissible s.1 x && admissible_run (apply s.1 x, s.2 ++ stamped s.1 x) ops
  end.

Definition done (o : outcome) : bool := match o with Done => true | Failed _ => false end.

(** Nothing fails, and nothing is lost between two opens. *)
Definition flawless (x : op) : bool :=
  match x with
  | Commit record synced marker clock o =>
      done record && synced && match marker with Some m => done m | None => true end
      && bool_decide (is_Some clock) && done o
  | RecordAt _ => true
  | Archive _ a s settled =>
      match a with Nothing None => true | Nothing (Some o) => done o | Rename o o' => done o && done o' end
      && match s with
         | Some s => done (floor_write s) && done (map_write s) && marker_gone s && all_deleted s && (deleted s =? pruned s)
         | None => true
         end && settled
  | KeepWal settled => settled
  | Truncate fw _ replace kept complete o settled => done fw && done replace && (kept =? 0) && complete && done o && settled
  | Reopen gone lost readable => (gone =? 0) && (lost =? 0) && readable
  end.

(** A store without a usable sidecar: none, or one of a superseded version. *)
Definition blank (bytes : list Z) : Prop := bytes = [] ∨ is_Some (superseded_version bytes).

(** ** The invariant *)

(** The entries of a map in the order they were written, ascending or not. *)
Definition image (floor : Z) (l : list (Z * Z)) : list Z := encode (Mk floor l).

Record stamps (hist l : list (Z * Z)) : Prop := {
  stamps_ok : Forall entry_ok l;
  stamps_taken e : e ∈ l → e ∈ hist;
}.

(** What the disk may hold: nothing usable, or stamps that were taken, followed,
    after a torn append, by a part of an entry. *)
Definition file_ok (hist : list (Z * Z)) (bytes : list Z) : Prop :=
  blank bytes ∨ ∃ f l tail, in_u 64 f ∧ stamps hist l ∧ Forall is_byte tail ∧ bytes = image f l ++ tail ∧ (length tail < ENTRY_LEN)%nat.

Record inv (h : handle) (hist : list (Z * Z)) : Prop := {
  inv_hist : Forall entry_ok hist ∧ ∀ e, e ∈ hist → e.1 < u64_max;
  inv_override : ∀ ms, commit_time_override h = Some ms → in_i 64 ms;
  inv_times : wf (commit_times h) ∧ ∀ e, e ∈ entries (commit_times h) → e ∈ hist;
  inv_file : file_ok hist (file h);
  inv_open : commit_times_poisoned h = false → is_empty (commit_times h) = false →
    ∃ f l, in_u 64 f ∧ stamps hist l ∧ file h = image f l;
  inv_synced : sorted hist.*1 → commit_times_poisoned h = false → is_empty (commit_times h) = false →
    file h = encode (commit_times h);
}.

Lemma wf_stamps hist m : wf m → (∀ e, e ∈ entries m → e ∈ hist) → stamps hist (entries m).
Proof. intros [_ He _] Hs. by split. Qed.

Lemma image_snoc f l c ms : image f (l ++ [(c, ms)]) = image f l ++ encode_entry c ms.
Proof.
  unfold image, encode. cbn [floor_commit entries]. rewrite fmap_app, concat_app. cbn [fmap list_fmap concat fst snd].
  by rewrite app_nil_r, <-!app_assoc.
Qed.

Lemma superseded_image f l tail : in_u 64 f → superseded_version (image f l ++ tail) = None.
Proof.
  intros Hf. unfold superseded_version, image, encode. cbn [floor_commit entries]. rewrite <-!app_assoc.
  destruct (header_read f (concat ((λ e, encode_entry e.1 e.2) <$> l) ++ tail) Hf) as (-> & -> & -> & _ & _).
  by rewrite bool_decide_true.
Qed.

Lemma superseded_encode m tail : wf m → superseded_version (encode m ++ tail) = None.
Proof. intros [Hf _ _]. destruct m as [f l]. by apply superseded_image. Qed.

(** An image says what it holds. *)
Lemma entry_inj e e' : entry_ok e → entry_ok e' → encode_entry e.1 e.2 = encode_entry e'.1 e'.2 → e = e'.
Proof.
  intros [Hc Hm] [Hc' Hm'] E. pose proof (entry_read e.1 e.2 Hc Hm) as [R1 R2]. pose proof (entry_read e'.1 e'.2 Hc' Hm') as [R1' R2'].
  rewrite E in R1, R2. destruct e, e'; cbn in *; congruence.
Qed.

Lemma entries_inj l l' rest : Forall entry_ok l → Forall entry_ok l' → (length rest < ENTRY_LEN)%nat →
  concat ((λ e, encode_entry e.1 e.2) <$> l') = concat ((λ e, encode_entry e.1 e.2) <$> l) ++ rest → l' = l.
Proof.
  intros Hl. revert l'. induction Hl as [|e l He _ IH]; intros l' Hl' Hr; destruct Hl' as [|e' l' He' Hl']; cbn [fmap list_fmap concat].
  - done.
  - intros E%(f_equal length). rewrite !length_app, length_entry in E. unfold ENTRY_LEN in *. cbn in E. lia.
  - intros E%(f_equal length). rewrite !length_app, length_entry in E. unfold ENTRY_LEN in *. cbn in E. lia.
  - rewrite <-app_assoc. intros E. apply app_inj_1 in E as [E1 E2]; [|by rewrite !length_entry]. f_equal; [by apply entry_inj|by apply IH].
Qed.

Lemma decode_stamps f l tail m : in_u 64 f → Forall entry_ok l → Forall is_byte tail → (length tail < ENTRY_LEN)%nat →
  decode (image f l ++ tail) = Ok m → wf m ∧ entries m = l ∧ image f l ++ tail = encode m.
Proof.
  intros Hf Hl Hb Ht Hd.
  destruct (encode_decode (image f l ++ tail) m) as [Hw E]; [apply Forall_app; split; [apply encode_are_bytes|done]|done|].
  split; [done|]. split; [|done]. destruct Hw as [_ Hm _]. revert E. unfold image, encode. cbn [floor_commit entries]. rewrite <-!app_assoc.
  intros E. apply app_inv_head, app_inv_head in E. apply app_inj_1 in E as [_ E]; [|by rewrite !length_le_bytes]. by eapply entries_inj.
Qed.

(** A map of stamps on disk. *)
Lemma file_ok_image hist f l : in_u 64 f → stamps hist l → file_ok hist (image f l).
Proof. intros Hf Hs. right. exists f, l, []. rewrite app_nil_r. split_and!; [done|done|constructor|done|]. unfold ENTRY_LEN. cbn. lia. Qed.

Lemma file_ok_encode hist m : wf m → (∀ e, e ∈ entries m → e ∈ hist) → file_ok hist (encode m).
Proof. intros Hw Hs. destruct m as [f l]. apply file_ok_image; [apply Hw|by apply (wf_stamps hist (Mk f l))]. Qed.

Lemma stamps_app hist hist' l : stamps hist l → stamps (hist ++ hist') l.
Proof. intros [? Ht]. split; [done|]. intros e He. apply elem_of_app. left. by apply Ht. Qed.

Lemma file_ok_app hist hist' bytes : file_ok hist bytes → file_ok (hist ++ hist') bytes.
Proof.
  intros [?|(f & l & tail & ? & ? & ? & ? & ?)]; [by left|right]. exists f, l, tail. split_and!; [done|by apply stamps_app|done..].
Qed.

Lemma stamps_snoc hist l c ms : stamps hist l → in_u 64 c → in_i 64 ms → stamps (hist ++ [(c, ms)]) (l ++ [(c, ms)]).
Proof.
  intros [Ho Ht] Hc Hms. split; [apply Forall_app; split; [done|by apply Forall_singleton]|].
  intros e [He|He]%elem_of_app; apply elem_of_app; [left; by apply Ht|by right].
Qed.

(** *** What the operations keep *)

(** The two handles have the same dates: only floors and frames differ. *)
Record same_times (h h' : handle) : Prop := {
  st_times : commit_times h' = commit_times h;
  st_poisoned : commit_times_poisoned h' = commit_times_poisoned h;
  st_override : commit_time_override h' = commit_time_override h;
  st_file : file h' = file h;
}.

Lemma inv_same h h' hist : same_times h h' → inv h hist → inv h' hist.
Proof. intros [E1 E2 E3 E4] []. split; rewrite ?E1, ?E2, ?E3, ?E4; done. Qed.

#[local] Instance same_times_refl : Reflexive same_times.
Proof. by split. Qed.
#[local] Instance same_times_trans : Transitive same_times.
Proof. intros h1 h2 h3 [] []. split; congruence. Qed.

Lemma same_append h o : same_times h (append_frame h o).1.
Proof. destruct o as [|[|n]]; by split. Qed.
Lemma same_replace h n o : same_times h (replace_wal h n o).1.
Proof. destruct o as [|[|]]; by split. Qed.
Lemma same_archive h o : same_times h (archive_wal h o).1.
Proof. destruct o as [|[|]]; by split. Qed.
Lemma same_write_floor h f o : same_times h (write_horizon_floor h f o).1.
Proof. destruct o as [|[|]]; by split. Qed.
Lemma same_recount h b : same_times h (recount h b).
Proof. destruct b; by split. Qed.

Lemma same_log h record synced marker : same_times h (log_frames h record synced marker).1.
Proof.
  unfold log_frames. destruct (read_only h); [done|]. pose proof (same_append h record) as H1.
  destruct (append_frame h record) as [h1 []]; cbn [negb fst] in *; [|done].
  destruct synced; cbn [negb]; [|by destruct H1]. destruct marker as [o|]; cbn; [|by destruct H1].
  pose proof (same_append (count_frame h1) o) as H2. destruct (append_frame (count_frame h1) o) as [h2 []]; cbn in *;
    destruct H1, H2; split; cbn in *; congruence.
Qed.

Lemma same_archive_step h n a : same_times h (archive_step h n a).1.
Proof.
  destruct a as [[o|]|o o']; cbn; [apply same_replace|done|]. pose proof (same_archive h o) as H1.
  destruct (archive_wal h o) as [h1 []]; cbn in *; [|done]. etransitivity; [done|apply same_replace].
Qed.

(** A write that leaves stamps that were taken, and, when it succeeds and they
    ascend, the map. *)
Lemma wrote_inv h hist r :
  Forall entry_ok hist ∧ (∀ e, e ∈ hist → e.1 < u64_max) → (∀ ms, commit_time_override h = Some ms → in_i 64 ms) →
  wf (commit_times h) ∧ (∀ e, e ∈ entries (commit_times h) → e ∈ hist) → file_ok hist r.1 →
  (r.2 = true → ∃ f l, in_u 64 f ∧ stamps hist l ∧ r.1 = image f l) →
  (r.2 = true → sorted hist.*1 → r.1 = encode (commit_times h)) → inv (wrote h r) hist.
Proof.
  intros Hh Ho Ht Hf Hop Hsy. split; cbn [wrote commit_times commit_times_poisoned commit_time_override file]; try done.
  - intros [_ E%negb_false_iff]%orb_false_iff _. by apply Hop.
  - intros Hs [_ E%negb_false_iff]%orb_false_iff _. by apply Hsy.
Qed.

(** A rewrite of the file by a map of recorded stamps. *)
Lemma atomic_inv h hist o :
  Forall entry_ok hist ∧ (∀ e, e ∈ hist → e.1 < u64_max) → (∀ ms, commit_time_override h = Some ms → in_i 64 ms) →
  wf (commit_times h) ∧ (∀ e, e ∈ entries (commit_times h) → e ∈ hist) → file_ok hist (file h) →
  inv (wrote h (write_atomic o (file h) (encode (commit_times h)))) hist.
Proof.
  intros Hh Ho [Hw Hs] Hf. pose proof (file_ok_encode hist _ Hw Hs) as Hm. apply wrote_inv; try done.
  - by destruct o as [|[|n]].
  - destruct o as [|[|n]]; cbn [write_atomic renamed fst snd]; try done. intros _. pose proof (wf_stamps hist _ Hw Hs) as Hst.
    pose proof (wf_floor _ Hw) as Hfl. destruct (commit_times h) as [f l]. by exists f, l.
  - by destruct o as [|[|n]].
Qed.

Lemma rewrite_inv h hist m o : inv h hist → wf m → (∀ e, e ∈ entries m → e ∈ hist) →
  inv (rewrite_commit_times (with_times h m) o) hist.
Proof.
  intros [Hh Ho _ Hf _ _] Hw Hs. unfold rewrite_commit_times.
  destruct (commit_times_poisoned (with_times h m)) eqn:Ep; [|by apply atomic_inv].
  split; rewrite ?Ep; done.
Qed.

Lemma stamp_ms_range h hist clock ms : inv h hist → stamp_ms h clock = Some ms → in_i 64 ms.
Proof.
  intros Hi. unfold stamp_ms. destruct (commit_time_override h) as [ms'|] eqn:E.
  - intros [= <-]. by apply (inv_override h hist Hi).
  - intros (z & _ & ->)%fmap_Some. by apply wrap_i_range.
Qed.

Lemma hist_snoc hist c ms : Forall entry_ok hist ∧ (∀ e, e ∈ hist → e.1 < u64_max) → in_i 64 ms → 0 ≤ c < u64_max →
  Forall entry_ok (hist ++ [(c, ms)]) ∧ ∀ e, e ∈ hist ++ [(c, ms)] → e.1 < u64_max.
Proof.
  intros [Hok Hlt] Hms Hc. split.
  - apply Forall_app. split; [done|]. apply Forall_singleton. split; [|done]. unfold in_u, u64_max in *. cbn. lia.
  - intros e [He| ->%list_elem_of_singleton]%elem_of_app; [by apply Hlt|cbn; lia].
Qed.

Lemma sorted_snoc_below hist c ms m : sorted (hist ++ [(c, ms)]).*1 → (∀ e, e ∈ entries m → e ∈ hist) → below m c.
Proof.
  rewrite fmap_app, sorted_app. intros (_ & _ & Hlt) Hs e He. apply Z.compare_lt_iff, Hlt; [|by left].
  apply list_elem_of_fmap_2. by apply Hs.
Qed.

Lemma sorted_prefix (hist hist' : list (Z * Z)) : sorted (hist ++ hist').*1 → sorted hist.*1.
Proof. rewrite fmap_app, sorted_app. by intros (? & _). Qed.

Lemma push_entries m c ms e : e ∈ entries (push m c ms) → e ∈ entries m ∨ e = (c, ms).
Proof. unfold push. repeat case_match; cbn; set_solver. Qed.

Lemma push_empty m c ms : is_empty m = true → is_empty (push m c ms) = false ∧ entries (push m c ms) = [(c, ms)].
Proof. unfold is_empty, push, newest_commit. destruct (entries m); [done|discriminate]. Qed.

(** An append of the next stamp, whole or in part. *)
Lemma append_stamp_ok o hist f l c ms : in_u 64 f → stamps hist l → in_u 64 c → in_i 64 ms →
  file_ok (hist ++ [(c, ms)]) (append o (image f l) (encode_entry c ms)).1.
Proof.
  intros Hf Hl Hc Hms. pose proof (file_ok_image _ f _ Hf (stamps_snoc hist l c ms Hl Hc Hms)) as Hfull. rewrite image_snoc in Hfull.
  destruct o as [|n]; cbn [append fst]; [done|].
  destruct (decide (ENTRY_LEN ≤ n)%nat); [by rewrite take_ge by by rewrite length_entry|].
  right. exists f, l, (take n (encode_entry c ms)). split_and!; [done|by apply stamps_app| |done|rewrite length_take, length_entry; lia].
  apply Forall_take. unfold encode_entry. apply Forall_app. split; apply le_bytes_are_bytes.
Qed.

Lemma stamp_inv h hist c clock o : inv h hist → 0 ≤ c < u64_max →
  inv (stamp_commit_time h c clock o)
      (hist ++ (if commit_times_poisoned h then [] else match stamp_ms h clock with Some ms => [(c, ms)] | None => [] end)).
Proof.
  intros Hi Hc. pose proof Hi as [Hh Ho (Hw & Hs) Hf Hop Hsy]. unfold stamp_commit_time.
  destruct (commit_times_poisoned h) eqn:Ep; [by rewrite app_nil_r|].
  destruct (stamp_ms h clock) as [ms|] eqn:Ems; [|rewrite app_nil_r; by split].
  pose proof (stamp_ms_range _ _ _ _ Hi Ems) as Hms. assert (in_u 64 c) as Hcu by (unfold in_u, u64_max in *; lia).
  set (m := push (commit_times h) c ms). assert (wf m) as Hwm by by apply push_wf.
  assert (∀ e, e ∈ entries m → e ∈ hist ++ [(c, ms)]) as Hsm by (intros e [He| ->]%push_entries; [specialize (Hs e He)|]; set_solver).
  pose proof (hist_snoc hist c ms Hh Hms Hc) as Hh'. cbn [with_times commit_times file].
  destruct (is_empty (commit_times h)) eqn:Ee.
  - apply (atomic_inv (with_times h m)); try done. by apply file_ok_app.
  - destruct (Hop eq_refl eq_refl) as (f & l & Hfu & Hl & Ef). pose proof (stamps_snoc hist l c ms Hl Hcu Hms) as Hl'.
    apply (wrote_inv (with_times h m)); try done; cbn [with_times commit_times]; rewrite Ef.
    + by apply append_stamp_ok.
    + destruct o; [|done]. intros _. exists f, (l ++ [(c, ms)]). by rewrite image_snoc.
    + destruct o; [|done]. intros _ Hsort. pose proof (sorted_snoc_below _ _ _ _ Hsort Hs) as Hb. unfold m. rewrite encode_push by done.
      rewrite <-Hsy; [by rewrite Ef|by eapply sorted_prefix|done|done].
Qed.

(** *** The numbers *)

Lemma fits_spec h : fits h = true ↔
  0 ≤ wal_horizon_floor h ≤ u64_max ∧ 0 ≤ wal_frames_written h ≤ u64_max ∧ 0 ≤ disk_floor h ≤ u64_max ∧
  0 ≤ archived h ≤ u64_max ∧ 0 ≤ live h ≤ u64_max ∧ 0 ≤ wal_total_commits h ≤ u64_max.
Proof.
  unfold fits. rewrite !andb_true_iff, !in_ub_spec. unfold in_u, u64_max. split; intros; destruct_and?; split_and?; lia.
Qed.

Lemma stamp_frames h c clock o : wal_frames_written (stamp_commit_time h c clock o) = wal_frames_written h.
Proof. unfold stamp_commit_time. by repeat case_match. Qed.

Lemma log_counts h record synced marker h' : log_frames h record synced marker = (h', true) →
  wal_frames_written h + 1 ≤ wal_frames_written h' ≤ wal_frames_written h + 2.
Proof.
  unfold log_frames, append_frame. repeat case_match; intros; simplify_eq/=; lia.
Qed.

Lemma retain_floor h s : wal_horizon_floor (retain h s).1 = wal_horizon_floor h + pruned s.
Proof.
  unfold retain, write_horizon_floor, rewrite_commit_times. by destruct (floor_write s) as [|[|]]; cbn; repeat case_match.
Qed.

Lemma archive_step_floor h n a : wal_horizon_floor (archive_step h n a).1 = wal_horizon_floor h.
Proof. destruct a as [[[|[|]]|]|[|[|]] [|[|]]]; done. Qed.

Lemma recount_floor h b : wal_horizon_floor (recount h b) = wal_horizon_floor h.
Proof. by destruct b. Qed.

Lemma retain_inv h hist s : inv h hist → 0 ≤ wal_horizon_floor h + pruned s ≤ u64_max → inv (retain h s).1 hist.
Proof.
  intros Hi Hn. unfold retain. set (floor := wal_horizon_floor h + pruned s) in *. set (h1 := with_floor h floor _).
  assert (inv h1 hist) as Hi1 by (apply (inv_same h); [by split|done]).
  pose proof (same_write_floor h1 floor (floor_write s)) as Hw.
  destruct (write_horizon_floor h1 floor (floor_write s)) as [h2 []]; cbn [negb fst] in *; [|by apply (inv_same h1)].
  assert (inv h2 hist) as Hi2 by by apply (inv_same h1). pose proof (inv_times _ _ Hi2) as [Hwf Hs].
  assert (inv (rewrite_commit_times (with_times h2 (truncate_below (commit_times h2) floor)) (map_write s)) hist) as Hi3.
  { apply rewrite_inv; [done|apply truncate_wf; [done|unfold in_u, u64_max in *; lia]|]. intros e. cbn [truncate_below entries].
    rewrite list_elem_of_filter. intros [_ He]. by apply Hs. }
  destruct (marker_gone s); cbn [negb delete_archives fst]; [|done]. eapply inv_same; [|done]. by split.
Qed.

Lemma archive_inv h hist n a s b : inv h hist → fits (snapshot_archive h n a s b) = true → inv (snapshot_archive h n a s b) hist.
Proof.
  intros Hi Hfit%fits_spec. destruct Hfit as [Hfl _]. revert Hfl. unfold snapshot_archive. pose proof (same_archive_step h n a) as H1.
  destruct (archive_step h n a) as [h1 []]; cbn [negb fst] in *; [|intros _; by apply (inv_same h)].
  assert (inv h1 hist) as Hi1 by by apply (inv_same h). destruct s as [s|]; cbn [negb].
  - pose proof (retain_floor h1 s) as Hfl. pose proof (retain_inv h1 hist s Hi1) as Hr. destruct (retain h1 s) as [h2 []]; cbn [negb fst] in *.
    + rewrite recount_floor, Hfl. intros Hb. eapply inv_same; [apply same_recount|]. by apply Hr.
    + rewrite Hfl. by apply Hr.
  - intros _. eapply inv_same; [apply same_recount|done].
Qed.

Lemma same_raise h t o : same_times h (raise_floor h t o).1.
Proof. unfold raise_floor. destruct (_ <? _); [|done]. destruct o as [|[|]]; by split. Qed.

Lemma same_delete h n b : same_times h (delete_archives h n b).1.
Proof. by split. Qed.

Lemma truncate_inv h hist fw n replace kept complete o b : inv h hist → inv (truncate_wal h fw n replace kept complete o b) hist.
Proof.
  intros Hi. unfold truncate_wal. pose proof (same_raise h (wal_total_commits h) fw) as H1.
  destruct (raise_floor h (wal_total_commits h) fw) as [h1 []]; cbn [negb fst] in *; [|by apply (inv_same h)].
  pose proof (same_replace h1 n replace) as H2. destruct (replace_wal h1 n replace) as [h2 []]; cbn [negb fst] in *;
    [|apply (inv_same h); [by etransitivity|done]].
  pose proof (same_delete h2 (archived h2 - kept) complete) as H3. unfold delete_archives in *. cbn [fst] in H3. set (h3 := with_wal _ _ _ _) in *.
  assert (inv h3 hist) as Hi3 by (apply (inv_same h); [do 2 (etransitivity; [done|]); done|done]).
  destruct complete; cbn [negb]; [|done]. eapply inv_same; [apply same_recount|].
  apply rewrite_inv; [done|apply new_wf|]. intros e He. by apply not_elem_of_nil in He.
Qed.

(** *** Reloading *)

Lemma load_blank h : blank (file h) → load_commit_times_from_fs h true = h.
Proof.
  unfold load_commit_times_from_fs. intros Hb. destruct (file h) as [|b l] eqn:E; [done|].
  destruct Hb as [?|[v Hv]]; [done|]. by rewrite Hv.
Qed.

Lemma load_image h f l tail : in_u 64 f → file h = image f l ++ tail →
  load_commit_times_from_fs h true = match decode (file h) with Ok m => with_times h m | Err _ => poison h end.
Proof.
  unfold load_commit_times_from_fs. intros Hf Ef. destruct (file h) as [|b rest] eqn:E; [done|].
  by rewrite Ef, superseded_image.
Qed.

Lemma load_encoded h m tail : wf m → file h = encode m ++ tail →
  load_commit_times_from_fs h true = match decode (file h) with Ok m => with_times h m | Err _ => poison h end.
Proof. intros Hw Ef. destruct m as [f l]. by apply (load_image h f l tail); [apply Hw|]. Qed.

Lemma load_map h m : wf m → file h = encode m → load_commit_times_from_fs h true = with_times h m.
Proof. intros Hw Ef. rewrite (load_encoded h m []), Ef, decode_encode by (rewrite ?app_nil_r; done). done. Qed.

(** What a reload finds: nothing usable, the stamps the file holds, or damage. *)
Lemma load_cases h hist : file_ok hist (file h) →
  load_commit_times_from_fs h true = h
  ∨ (∃ m, wf m ∧ (∀ e, e ∈ entries m → e ∈ hist) ∧ file h = encode m ∧ load_commit_times_from_fs h true = with_times h m)
  ∨ load_commit_times_from_fs h true = poison h.
Proof.
  intros [Hb|(f & l & tail & Hf & [Hl Hs] & Hb & Ef & Ht)]; [left; by apply load_blank|right].
  rewrite (load_image h f l tail Hf Ef). destruct (decode (file h)) as [m|] eqn:Ed; [left|by right].
  rewrite Ef in Ed. destruct (decode_stamps f l tail m Hf Hl Hb Ht Ed) as (Hw & El & Em).
  exists m. split_and!; [done|by rewrite El|by rewrite Ef|done].
Qed.

Lemma reopen_inv h hist a l readable : inv h hist → inv (reopen h a l readable) hist.
Proof.
  intros [Hh Ho (Hw & Hs) Hf _ _]. unfold reopen. set (h' := with_frames _ _).
  assert (inv h' hist) as Hi.
  { split; try done. split; [apply new_wf|]. intros e He. by apply not_elem_of_nil in He. }
  destruct readable; [|done]. destruct (load_cases h' hist) as [->|[(m & Hm & Hms & Ef & ->)| ->]]; [done|done| |].
  - destruct Hi. split; [done|done|done|done| |done]. intros _ _. destruct m as [f l']. exists f, l'. split_and!; [apply Hm|by apply (wf_stamps hist (Mk f l'))|done].
  - destruct Hi. by split.
Qed.

Lemma record_at_inv h hist ms : inv h hist → (∀ x, ms = Some x → in_i 64 x) → inv (default h (ok (record_commits_at h ms))) hist.
Proof.
  intros Hi Hms. assert (inv (with_override h ms) hist) as Hi' by (destruct Hi; by split).
  unfold record_commits_at. repeat case_match; done.
Qed.

Lemma commit_inv h hist record synced marker clock o : inv h hist → fits h = true → fits (commit h record synced marker clock o) = true →
  inv (commit h record synced marker clock o) (hist ++ stamped h (Commit record synced marker clock o)).
Proof.
  intros Hi Hfit%fits_spec. unfold commit, stamped. pose proof (same_log h record synced marker) as Hsame.
  pose proof (log_counts h record synced marker) as Hn. destruct (log_frames h record synced marker) as [h1 []]; cbn [negb orb fst] in *.
  - intros Hf%fits_spec. destruct Hf as (_ & Hfr & _). rewrite stamp_frames in Hfr. specialize (Hn h1 eq_refl).
    apply stamp_inv; [by apply (inv_same h)|lia].
  - intros _. rewrite app_nil_r. by apply (inv_same h).
Qed.

Lemma apply_inv h hist x : inv h hist → fits h = true → admissible h x = true → inv (apply h x) (hist ++ stamped h x).
Proof.
  intros Hi Hf [Ha Hfit]%andb_true_iff.
  destruct x as [record synced marker clock o|ms|n a s b|b|fw n replace kept complete o b|gone lost readable]; cbn [apply] in *;
    [by apply commit_inv|cbn [stamped]; rewrite app_nil_r..].
  - apply record_at_inv; [done|]. intros x ->. by apply in_ib_spec.
  - by apply archive_inv.
  - eapply inv_same; [apply same_recount|done].
  - by apply truncate_inv.
  - by apply reopen_inv.
Qed.

Lemma admissible_fits h x : admissible h x = true → fits (apply h x) = true.
Proof. by intros [_ ?]%andb_true_iff. Qed.

Lemma run_kept ops s : inv s.1 s.2 → fits s.1 = true → admissible_run s ops = true → inv (run s ops).1 (run s ops).2.
Proof.
  revert s; induction ops as [|x ops IH]; intros s Hi Hf Ha; [done|]. cbn [admissible_run run] in *.
  apply andb_true_iff in Ha as [Hx Ha]. apply IH; [by apply apply_inv|by apply admissible_fits|done].
Qed.

Lemma new_kept bytes : blank bytes → inv (new_handle bytes) [].
Proof.
  intros Hb. split; cbn; try done; [split; [constructor|set_solver]|split; [apply new_wf|done]|by left].
Qed.

(** ** Runs in which nothing fails *)

(** The map is the live part of the history, on disk as in memory, and every stamp
    is below [n] and so below the frames on disk. *)
Record clean (n : Z) (h : handle) (hist : list (Z * Z)) : Prop := {
  cl_sorted : sorted hist.*1;
  cl_bound : ∀ e, e ∈ hist → e.1 < n;
  cl_total : n ≤ wal_total_commits h;
  cl_ok : commit_times_poisoned h = false;
  cl_write : read_only h = false;
  cl_entries : entries (commit_times h) = filter (λ e, wal_horizon_floor h ≤ e.1) hist;
  cl_first : ∀ e, head (entries (commit_times h)) = Some e → floor_commit (commit_times h) = e.1;
  cl_floor : disk_floor h = wal_horizon_floor h;
  cl_torn : torn h = false;
  cl_file : file h = encode (commit_times h) ∨ blank (file h) ∧ commit_times h = new;
}.

Record exact (h : handle) (hist : list (Z * Z)) : Prop := {
  ex_inv : inv h hist;
  ex_fits : fits h = true;
  ex_clean : clean (wal_frames_written h) h hist;
  ex_total : wal_frames_written h = wal_total_commits h;
}.

(** Only frames are added. *)
Lemma clean_frames n n' h h' hist : clean n h hist → same_times h h' → n ≤ n' ≤ wal_total_commits h' →
  wal_horizon_floor h' = wal_horizon_floor h → disk_floor h' = disk_floor h → read_only h' = read_only h → torn h' = false →
  clean n' h' hist.
Proof.
  intros [] [E1 E2 E3 E4] Hn Ef Ed Er Et. split; rewrite ?E1, ?E2, ?E4, ?Ef, ?Ed, ?Er; try done; [|lia].
  intros e He. specialize (cl_bound0 e He). lia.
Qed.

Lemma recount_clean n h hist : clean n h hist → clean (wal_frames_written (recount h true)) (recount h true) hist
  ∧ wal_frames_written (recount h true) = wal_total_commits (recount h true).
Proof.
  intros Hc. split; [|done]. apply (clean_frames n _ h); [done|apply same_recount| |done..|apply Hc].
  pose proof (cl_total _ _ _ Hc). split; [done|reflexivity].
Qed.

(** One commit's frames, none of them lost. *)
Lemma log_exact h hist marker : exact h hist → match marker with Some m => done m | None => true end = true →
  ∃ h1, log_frames h Done true marker = (h1, true) ∧ clean (wal_frames_written h) h1 hist
    ∧ wal_frames_written h1 = wal_total_commits h1 ∧ wal_frames_written h < wal_frames_written h1
    ∧ wal_horizon_floor h1 = wal_horizon_floor h.
Proof.
  intros [_ _ Hc Ht] Hm. pose proof (cl_torn _ _ _ Hc) as Et. pose proof (cl_write _ _ _ Hc) as Er.
  unfold log_frames. rewrite Er. destruct marker as [[|]|]; [|done|]; eexists; (split; [reflexivity|]);
    cbn [append_frame with_wal count_frame with_frames torn negb]; rewrite Et.
  all: unfold wal_total_commits in *; cbn; (split; [|lia]).
  all: apply (clean_frames (wal_frames_written h) _ h); [done|by split|unfold wal_total_commits; cbn; lia|done..].
Qed.

Lemma stamp_clean n h hist c z : clean n h hist → inv h hist → n ≤ c < wal_total_commits h → wal_horizon_floor h ≤ c →
  ∃ ms, stamp_ms h (Some z) = Some ms ∧ clean (c + 1) (stamp_commit_time h c (Some z) Done) (hist ++ [(c, ms)]).
Proof.
  intros [Hso Hb Ht Hp Hr He Hfi Hd Hto Hf] Hi Hc Hfl.
  assert (∃ ms, stamp_ms h (Some z) = Some ms) as [ms Ems] by (unfold stamp_ms; case_match; eauto).
  exists ms. split; [done|]. pose proof (inv_times _ _ Hi) as [Hw Hs].
  assert (below (commit_times h) c) as Hbe by (intros e Hin; specialize (Hb e (Hs e Hin)); lia).
  destruct (push_below _ c ms Hbe) as [Ee Efc]. unfold stamp_commit_time. rewrite Hp, Ems.
  split; cbn [wrote with_times commit_times wal_horizon_floor disk_floor read_only torn file commit_times_poisoned]; try done.
  - rewrite fmap_app, sorted_app. split_and!; [done|by apply SSorted_cons; constructor|].
    intros x y (e & -> & Hin)%list_elem_of_fmap ->%list_elem_of_singleton. apply Z.compare_lt_iff. specialize (Hb e Hin). cbn. lia.
  - intros e [Hin| ->%list_elem_of_singleton]%elem_of_app; [specialize (Hb e Hin); lia|cbn; lia].
  - change (c + 1 ≤ wal_total_commits h). lia.
  - rewrite Hp. by destruct (is_empty (commit_times h)).
  - rewrite Ee, He, filter_app. f_equal. by rewrite filter_cons_True.
  - rewrite Ee, Efc. unfold is_empty. intros e. destruct (entries (commit_times h)) as [|e0 l] eqn:E0; [by intros [= <-]|].
    cbn. intros [= <-]. by apply Hfi.
  - left. destruct (is_empty (commit_times h)) eqn:E0; [done|]. cbn [append fst]. rewrite encode_push by done.
    destruct Hf as [->|[_ Hnew]]; [done|]. by rewrite Hnew in E0.
Qed.

Lemma stamp_total h c clock o : wal_total_commits (stamp_commit_time h c clock o) = wal_total_commits h.
Proof. unfold stamp_commit_time. by repeat case_match. Qed.

Lemma commit_clean h hist marker z : exact h hist → match marker with Some m => done m | None => true end = true →
  let h' := commit h Done true marker (Some z) Done in
  clean (wal_frames_written h') h' (hist ++ stamped h (Commit Done true marker (Some z) Done))
  ∧ wal_frames_written h' = wal_total_commits h'.
Proof.
  intros He Hm. destruct (log_exact h hist marker He Hm) as (h1 & El & Hc1 & Ht1 & Hn & Hfl).
  pose proof (same_log h Done true marker) as Hsame. unfold commit, stamped. rewrite El in *. cbn [fst negb orb] in *. cbv zeta.
  assert (inv h1 hist) as Hi1 by (apply (inv_same h); [done|apply He]). rewrite (cl_ok _ _ _ Hc1).
  pose proof (cl_floor _ _ _ (ex_clean _ _ He)) as Hd. pose proof (ex_total _ _ He) as Ht. pose proof (ex_fits _ _ He) as Hfit.
  apply fits_spec in Hfit. unfold wal_total_commits in Ht.
  destruct (stamp_clean _ h1 hist (wal_frames_written h1 - 1) z Hc1 Hi1) as (ms & -> & Hc); [lia|lia|].
  rewrite stamp_frames, stamp_total. split; [|done]. by replace (wal_frames_written h1) with (wal_frames_written h1 - 1 + 1) at 1 by lia.
Qed.

(** A sweep. *)
Lemma retain_clean n h hist s : clean n h hist → 0 ≤ pruned s →
  done (floor_write s) && done (map_write s) && marker_gone s && all_deleted s && (deleted s =? pruned s) = true →
  clean n (retain h s).1 hist ∧ (retain h s).2 = true ∧ live (retain h s).1 = live h.
Proof.
  intros [Hso Hb Ht Hp Hr He Hfi Hd Hto Hf] Hn. rewrite !andb_true_iff, Z.eqb_eq. destruct s as [p [|] [|] [] d []]; cbn; try (intros; by destruct_and?).
  intros (_ & ->). cbn [pruned] in Hn. unfold retain, rewrite_commit_times. cbn [pruned floor_write map_write marker_gone deleted all_deleted write_horizon_floor renamed negb
    with_floor with_times commit_times_poisoned wal_horizon_floor commit_times]. rewrite Hp.
  split; [|done]. split; cbn [delete_archives with_wal wrote write_atomic renamed with_times with_floor commit_times wal_horizon_floor
    commit_times_poisoned disk_floor read_only torn file fst snd]; try done.
  - unfold wal_total_commits in *. cbn. lia.
  - by rewrite Hp.
  - cbn [truncate_below entries]. rewrite He, list_filter_filter. apply list_filter_iff. intros e. lia.
  - intros e. cbn [truncate_below entries floor_commit]. by intros ->.
  - by left.
Qed.

Lemma retain_live h s : live (retain h s).1 = live h.
Proof. unfold retain, write_horizon_floor, rewrite_commit_times. by destruct (floor_write s) as [|[|]]; cbn; repeat case_match. Qed.

Lemma snapshot_live h n a s b : live (snapshot_archive h n a s b) = live (archive_step h n a).1.
Proof.
  unfold snapshot_archive. destruct (archive_step h n a) as [h1 []]; [|done]. cbn [negb fst]. destruct s as [s|]; [|by destruct b].
  rewrite <-(retain_live h1 s). destruct (retain h1 s) as [h2 []]; [|done]. cbn. by destruct b.
Qed.

(** The WAL archived, or left as the baseline it is. *)
Lemma archive_step_clean n h hist baseline a : clean n h hist →
  match a with Nothing None => true | Nothing (Some o) => done o | Rename o o' => done o && done o' end = true →
  match a with Nothing _ => (live h =? 0) || (live h =? baseline) | Rename _ _ => true end = true →
  0 ≤ live (archive_step h baseline a).1 →
  clean n (archive_step h baseline a).1 hist ∧ (archive_step h baseline a).2 = true.
Proof.
  intros Hc Hf Ha Hl. pose proof (cl_torn _ _ _ Hc). pose proof (cl_total _ _ _ Hc) as Ht.
  destruct a as [[[|]|]|[|] [|]]; try done; cbn in Hl |- *; (split; [|done]).
  - apply (clean_frames n _ h); [done|by split| |done..]. unfold wal_total_commits in *. cbn.
    apply orb_true_iff in Ha as [?%Z.eqb_eq|?%Z.eqb_eq]; lia.
  - apply (clean_frames n _ h); [done|by split| |done..]. unfold wal_total_commits in *. cbn. lia.
Qed.

Lemma archive_clean h hist n a s b : exact h hist → admissible h (Archive n a s b) = true → flawless (Archive n a s b) = true →
  let h' := snapshot_archive h n a s b in clean (wal_frames_written h') h' hist ∧ wal_frames_written h' = wal_total_commits h'.
Proof.
  intros He [Ha Hfit]%andb_true_iff Hfl. cbn [apply flawless] in *. rewrite !andb_true_iff in Hfl. destruct Hfl as [[Hfa Hfs] ->].
  apply andb_true_iff in Ha as [Ha Hs]. apply fits_spec in Hfit as (_ & _ & _ & _ & Hlive & _). rewrite snapshot_live in Hlive.
  destruct (archive_step_clean _ h hist n a (ex_clean _ _ He) Hfa Ha) as [Hc1 E1]; [lia|]. unfold snapshot_archive.
  destruct (archive_step h n a) as [h1 ok1]. cbn [fst snd] in *. subst ok1. cbn [negb]. destruct s as [s|]; [|by eapply recount_clean].
  destruct (retain_clean _ h1 hist s Hc1) as (Hc2 & E2 & _); [by apply Z.leb_le|done|].
  destruct (retain h1 s) as [h2 ok2]. cbn [fst snd] in *. subst ok2. cbn [negb]. by eapply recount_clean.
Qed.

Lemma truncate_clean h hist fw n replace kept complete o b : exact h hist →
  flawless (Truncate fw n replace kept complete o b) = true → 0 ≤ live (truncate_wal h fw n replace kept complete o b) →
  let h' := truncate_wal h fw n replace kept complete o b in clean (wal_frames_written h') h' hist ∧ wal_frames_written h' = wal_total_commits h'.
Proof.
  intros [Hi Hfit Hc Ht] Hfl. cbn [flawless] in Hfl. rewrite !andb_true_iff, Z.eqb_eq in Hfl.
  destruct fw as [|], replace as [|], complete, o as [|], b; destruct_and?; try done. subst kept.
  pose proof (cl_floor _ _ _ Hc) as Hd. apply fits_spec in Hfit as (? & ? & ? & ? & ? & ?).
  assert (∃ h1, raise_floor h (wal_total_commits h) Done = (h1, true) ∧ wal_horizon_floor h1 = wal_total_commits h ∧ disk_floor h1 = wal_total_commits h
    ∧ commit_times_poisoned h1 = false ∧ read_only h1 = false) as (h1 & E1 & Ef & Ed & Ep & Er).
  { unfold raise_floor. destruct (Z.ltb_spec (wal_horizon_floor h) (wal_total_commits h)); cbn; eexists; (split; [reflexivity|]); cbn;
      (split_and!; try apply Hc; try done); unfold wal_total_commits in *; lia. }
  unfold truncate_wal. rewrite E1. cbn [negb replace_wal renamed delete_archives]. set (h3 := with_wal _ _ _ _).
  intros Hl. apply (recount_clean (wal_total_commits h)). revert Hl. unfold drop_times, rewrite_commit_times.
  replace (commit_times_poisoned (with_times h3 new)) with false by done. intros Hl.
  split; cbn [wrote write_atomic renamed with_times h3 with_wal commit_times wal_horizon_floor commit_times_poisoned disk_floor read_only torn file fst snd]; try done.
  - apply Hc.
  - intros e Hin. rewrite <-Ht. by apply (cl_bound _ _ _ Hc).
  - unfold wal_total_commits in *. cbn in *. lia.
  - by rewrite Ep.
  - symmetry. rewrite Ef. apply filter_none. intros e Hin. pose proof (cl_bound _ _ _ Hc e Hin). lia.
  - by rewrite Ed, Ef.
  - by left.
Qed.

Lemma reopen_same h hist : exact h hist → reopen h (archived h) (live h) true = with_override h None.
Proof.
  intros [Hi _ [_ _ _ Hp _ _ _ Hd Hto Hf] Ht]. unfold reopen. set (h' := with_frames _ _).
  assert (with_times h' (commit_times h) = with_override h None) as <-.
  { unfold h', with_times, with_override, wal_total_commits in *. cbn in *. by rewrite Hp, Hto, <-Hd, Ht. }
  destruct Hf as [Hf|[Hb Hn]]; [by apply load_map; [apply Hi|]|]. rewrite (load_blank h'), Hn by done. done.
Qed.

Lemma apply_clean h hist x : exact h hist → admissible h x = true → flawless x = true →
  clean (wal_frames_written (apply h x)) (apply h x) (hist ++ stamped h x) ∧ wal_frames_written (apply h x) = wal_total_commits (apply h x).
Proof.
  intros He Ha Hx. pose proof (admissible_fits h x Ha) as Hfit. pose proof He as [Hi _ Hc Ht].
  destruct x as [record synced marker clock o|ms|n a s b|b|fw n replace kept complete o b|gone lost readable]; cbn [apply] in *;
    [|cbn [stamped]; rewrite app_nil_r..].
  - cbn [flawless] in Hx. rewrite !andb_true_iff in Hx. destruct Hx as [[[[Hr ->] Hm] Hcl] Ho]. destruct record, o; try done.
    apply bool_decide_eq_true in Hcl as [z ->]. by apply commit_clean.
  - unfold record_commits_at. repeat case_match; try done; (split; [destruct Hc; by split|done]).
  - by apply archive_clean.
  - cbn in Hx. subst b. by eapply recount_clean.
  - apply truncate_clean; [done|done|]. apply fits_spec in Hfit. lia.
  - cbn [flawless] in Hx. rewrite !andb_true_iff, !Z.eqb_eq in Hx. destruct Hx as [[-> ->] ->]. rewrite !Z.sub_0_r, (reopen_same h hist He).
    split; [destruct Hc; by split|done].
Qed.

Lemma run_exact ops s : exact s.1 s.2 → admissible_run s ops = true → forallb flawless ops = true → exact (run s ops).1 (run s ops).2.
Proof.
  revert s; induction ops as [|x ops IH]; intros s He Ha Hx; [done|]. cbn [admissible_run run forallb] in *.
  apply andb_true_iff in Ha as [Ha1 Ha], Hx as [Hx1 Hx]. apply IH; [|done|done]. destruct (apply_clean s.1 s.2 x He Ha1 Hx1).
  split; [apply apply_inv; [apply He..|done]|by apply admissible_fits|done|done].
Qed.

Lemma new_exact bytes : blank bytes → exact (new_handle bytes) [].
Proof.
  intros Hb. split; [by apply new_kept|done| |done]. split; cbn; try done; [constructor|set_solver|by right].
Qed.

(** ** Dates *)

(** The date a list of stamps, ascending by commit, gives an instant. *)
Definition date_of (live : list (Z * Z)) (unix_ms : Z) : result graph_error Z :=
  match live with
  | [] => Err NoRecordedTime
  | (first, first_ms) :: _ =>
      if unix_ms <? first_ms then Err (TimeBeforeFloor first_ms first)
      else ok_or (fst <$> last (filter (λ e, e.2 ≤ unix_ms) live)) NoRecordedTime
  end.

Lemma last_latest l u e : sorted l.*1 → last (filter (λ e, e.2 ≤ u) l) = Some e → latest l u e.1.
Proof.
  intros Hs. induction l as [|x l IH] using rev_ind; [done|]. rewrite fmap_app, sorted_app in Hs. destruct Hs as (Hs & _ & Hx).
  rewrite filter_app, filter_cons, filter_nil. case_decide as Hu.
  - rewrite last_snoc. intros [= ->]. split; [exists e.2; split; [destruct e; set_solver|done]|].
    intros e' [He'| ->%list_elem_of_singleton]%elem_of_app _; [|lia]. apply Z.lt_le_incl, Z.compare_lt_iff, Hx; [by apply list_elem_of_fmap_2|by left].
  - rewrite app_nil_r. intros Hl. destruct (IH Hs Hl) as [(ms & Hin & Hms) Hmax]. split; [exists ms; set_solver|].
    intros e' [He'| ->%list_elem_of_singleton]%elem_of_app He'u; [by apply Hmax|done].
Qed.

Lemma date_of_latest l u c : sorted l.*1 → (∃ e, head l = Some e ∧ e.2 ≤ u) → latest l u c → date_of l u = Ok c.
Proof.
  intros Hs ([c0 ms0] & Hh & Hu) Hl. destruct l as [|x l]; [done|]. injection Hh as ->. cbn in Hu. unfold date_of.
  rewrite (proj2 (Z.ltb_ge _ _)) by done. destruct (last (filter (λ e : Z * Z, e.2 ≤ u) ((c0, ms0) :: l))) as [e|] eqn:E.
  - cbn. f_equal. eapply latest_unique; [|done]. by apply last_latest.
  - apply last_None in E. rewrite filter_cons_True in E by done. done.
Qed.

Lemma inv_below h hist : inv h hist → below (commit_times h) u64_max.
Proof. intros [(_ & Hlt) _ (_ & Hs) _ _ _] e He. by apply Hlt, Hs. Qed.

(** ** Claims *)

(** C17: whatever fails, a date query never guesses.  Start from a store with no
    usable sidecar and let any operations follow: commits under any clock
    (running backwards, or before 1970), asserted times, archiving snapshots with
    or without a retention sweep, snapshots that keep the WAL, truncating ones,
    and reopens.  Each step may fail and end its operation there, having done
    nothing, part or all of its work: the append of a frame or of its marker,
    the sync, the write of the floor, the rename of the WAL, its replacement, the
    deletions of the genesis marker and of the archives, the recount, the
    sidecar's own writes; a reopen may find frames lost or archives gone and may
    fail to read the sidecar.  Every date query, its count of the frames on disk
    succeeding, then returns without a panic; it answers [Corrupt] while the handle knows a time was lost; and a commit it
    does answer lies between the handle's floor and the frames on disk and was
    stamped, under that number, at or before the instant asked for (a number may
    have been used twice where a failure left floor and frames in disagreement).
    A time reported for a commit is one it was stamped with; and as long as the
    numbers stamped ascend, a map in use is the one a reopen reads back.
    Assumed: floors and counts stay within 64 bits, and an archiving snapshot
    finds nothing to archive only in a WAL that is empty or the baseline. *)
Theorem dates_sound bytes ops : blank bytes → admissible_run (new_handle bytes, []) ops = true →
  let s := run (new_handle bytes, []) ops in
  (∀ unix_ms, ∃ r, resolve_instant s.1 (wal_total_commits s.1) unix_ms = Some r
    ∧ (commit_times_poisoned s.1 = true → r = Err (Corrupt WillNotDecode))
    ∧ (∀ c, r = Ok c → wal_horizon_floor s.1 ≤ c < wal_total_commits s.1 ∧ ∃ ms, (c, ms) ∈ s.2 ∧ ms ≤ unix_ms))
  ∧ (∀ c ms, commit_time_ms s.1 c = Some ms → (c, ms) ∈ s.2)
  ∧ (sorted s.2.*1 → commit_times_poisoned s.1 = false → is_empty (commit_times s.1) = false →
      commit_times (reopen s.1 (archived s.1) (live s.1) true) = commit_times s.1).
Proof.
  intros Hb Ha s. pose proof (run_kept ops (new_handle bytes, []) (new_kept bytes Hb) eq_refl Ha) as Hi. fold s in Hi.
  pose proof (inv_below _ _ Hi) as Hmax. destruct Hi as [_ _ (Hw & Hs) _ _ Hsy]. split_and!.
  - intros u. unfold resolve_instant. destruct (commit_times_poisoned s.1); [eexists; split_and!; [done|done|by intros ? [=]]|].
    destruct (resolve_resolution _ u (wal_horizon_floor s.1) Hw Hmax) as (r & -> & Hr). cbn. eexists; split_and!; [done|done|].
    intros c. destruct Hr as [?|?|? ? ?|first c' ? ? [(ms & Hin & Hms) _] ?]; try done. cbn.
    destruct (Z.leb_spec (wal_total_commits s.1) c'); [done|]. intros [= <-]. split; [done|]. exists ms. split; [by apply Hs|done].
  - intros c ms. unfold commit_time_ms. destruct (commit_times_poisoned s.1); [done|]. rewrite time_of_spec by done. apply Hs.
  - intros Hso Hp He. unfold reopen. by rewrite (load_map _ (commit_times s.1)) by auto.
Qed.

(** Commits under a clock that steps back, a torn append, a sweep whose floor is not
    persisted, a truncation that fails after the floor and one that fails at the
    WAL's replacement, a commit whose sync fails, and what follows them. *)
Definition faulty_ops : list op :=
  [Commit Done true None (Some 1000) Done; Commit Done true (Some Done) (Some 800) Done; Reopen 0 0 true;
   Archive 0 (Rename Done Done) None true; Commit Done true None (Some 1100) Done;
   Archive 0 (Rename Done Done) (Some (Sweep 3 (Failed 0) Done true 0 true)) true;
   Commit Done true None (Some 1200) (Failed 5); Commit Done true (Some (Failed 3)) (Some 1300) Done; Reopen 0 0 true;
   Truncate (Failed 1) 2 Done 0 true Done true; Commit Done false None (Some 1350) Done;
   Truncate Done 2 (Failed 0) 0 true Done true; Truncate Done 2 Done 0 true Done true; Reopen 0 0 false;
   Commit Done true (Some Done) (Some 1400) Done].

Lemma dates_sound_witness :
  let s := run (new_handle [], []) faulty_ops in
  blank [] ∧ admissible_run (new_handle [], []) faulty_ops = true
  ∧ ∃ r, resolve_instant s.1 (wal_total_commits s.1) 1500 = Some r
      ∧ (∀ c, r = Ok c → wal_horizon_floor s.1 ≤ c < wal_total_commits s.1 ∧ ∃ ms, (c, ms) ∈ s.2 ∧ ms ≤ 1500).
Proof.
  intros s. assert (blank []) as Hb by by left. assert (admissible_run (new_handle [], []) faulty_ops = true) as Ha by (vm_compute; reflexivity).
  split; [exact Hb|]. split; [exact Ha|].
  destruct (proj1 (dates_sound [] faulty_ops Hb Ha) 1500) as (r & Hr & _ & Hc).
  exists r. split; [exact Hr|exact Hc].
Defined.

(** C16: while nothing fails, a date is the commit history's.  Over any run of
    commits, asserted times, snapshots of every kind and reopens whose writes and
    reads succeed, let the live stamps be those at or above the horizon floor.  The date query answers exactly what they do: nothing
    recorded when there are none, refused by the oldest one's time and number
    before it, and from then on the last commit stamped at or before the
    instant, however the clock stepped.  A date in text is the instant it names
    or, when it names a day, the day's last millisecond.  A commit has a
    recorded time exactly when it is live, a reopen changes none of it, and the
    handle's frame count is what is on disk. *)
Theorem dates_exact bytes ops : blank bytes → admissible_run (new_handle bytes, []) ops = true → forallb flawless ops = true →
  let s := run (new_handle bytes, []) ops in
  let live_stamps := filter (λ e, wal_horizon_floor s.1 ≤ e.1) s.2 in
  (∀ unix_ms, resolve_instant s.1 (wal_total_commits s.1) unix_ms = Some (date_of live_stamps unix_ms))
  ∧ (∀ str y v day, Rfc3339.rfc3339 str y v day → y ≤ Rfc3339.year_max →
      resolve_date s.1 (wal_total_commits s.1) str = Some (date_of live_stamps (if day then v + 86399999 else v)))
  ∧ (∀ c ms, commit_time_ms s.1 c = Some ms ↔ (c, ms) ∈ live_stamps)
  ∧ reopen s.1 (archived s.1) (live s.1) true = with_override s.1 None
  ∧ wal_total_commits s.1 = wal_frames_written s.1.
Proof.
  intros Hb Ha Hx s live_stamps. pose proof (run_exact ops (new_handle bytes, []) (new_exact bytes Hb) Ha Hx) as He. fold s in He.
  pose proof (reopen_same _ _ He) as Hre. destruct He as [Hi _ [_ Hbound _ Hp _ Ee Hfi _ _ _] Ht]. fold live_stamps in Ee.
  pose proof (inv_below _ _ Hi) as Hmax. destruct Hi as [_ _ (Hw & Hs) _ _ _].
  assert (∀ unix_ms, resolve_instant s.1 (wal_total_commits s.1) unix_ms = Some (date_of live_stamps unix_ms)) as Hdate.
  { intros u. unfold resolve_instant. rewrite Hp. destruct (resolve_resolution _ u (wal_horizon_floor s.1) Hw Hmax) as (r & -> & Hr).
    cbn. f_equal. pose proof (wf_sorted _ Hw) as Hsort. destruct Hr as [E|first Hh Hu|first c newest Hh Hu Hl Hc|first c Hh Hu Hl Hc].
    + by rewrite <-Ee, E.
    + rewrite (Hfi _ Hh). rewrite <-Ee. unfold date_of. destruct (entries (commit_times s.1)) as [|[c0 ms0] l]; [done|]. injection Hh as <-.
      by rewrite (proj2 (Z.ltb_lt _ _)).
    + destruct Hl as [(ms & Hin & _) _]. rewrite Ee in Hin. apply list_elem_of_filter in Hin as [Hin _]. cbn in Hin. lia.
    + rewrite <-Ee, (date_of_latest _ _ c); [|done|by exists first|done]. destruct Hl as [(ms & Hin & _) _].
      specialize (Hbound _ (Hs _ Hin)). cbn in *. by rewrite (proj2 (Z.leb_gt _ _)) by lia. }
  split_and!; [done| | |done|done].
  - intros str y v day Hr Hy. unfold resolve_date. by rewrite (Rfc3339.parse_end _ y v day).
  - intros c ms. unfold commit_time_ms. rewrite Hp, <-Ee. by apply time_of_spec.
Qed.

(** A superseded file, a clock that steps back, a backfill, an archiving snapshot
    with a sweep, a reopen, a truncating snapshot. *)
Definition v1_file : list Z := COMMIT_TIMES_MAGIC ++ [1; 0; 0; 0; 0; 0; 0; 0; 0; 0].
Definition clean_ops : list op :=
  [Commit Done true None (Some 1000) Done; Commit Done true (Some Done) (Some 5000) Done; Archive 1 (Rename Done Done) None true;
   Commit Done true None (Some 3000) Done; RecordAt (Some 5000); Commit Done true (Some Done) (Some 9000) Done; Reopen 0 0 true;
   Archive 1 (Rename Done Done) (Some (Sweep 3 Done Done true 3 true)) true; KeepWal true;
   Commit Done true None (Some 6000) Done].

Lemma dates_exact_witness :
  let s := run (new_handle v1_file, []) clean_ops in
  let live_stamps := filter (λ e, wal_horizon_floor s.1 ≤ e.1) s.2 in
  blank v1_file ∧ live_stamps = [(4, 3000); (6, 5000); (8, 6000)] ∧ date_of live_stamps 5500 = Ok 6
  ∧ resolve_instant s.1 (wal_total_commits s.1) 5500 = Some (date_of live_stamps 5500).
Proof.
  intros s live_stamps. assert (blank v1_file) as Hb by (right; exists 1; vm_compute; reflexivity).
  assert (admissible_run (new_handle v1_file, []) clean_ops = true) as Ha by (vm_compute; reflexivity).
  assert (forallb flawless clean_ops = true) as Hx by reflexivity.
  split; [exact Hb|]. split; [vm_compute; reflexivity|]. split; [vm_compute; reflexivity|].
  exact (proj1 (dates_exact v1_file clean_ops Hb Ha Hx) 5500).
Defined.

End CommitClock.
