(* ===== verification/CommitGaps.v ===== *)
(** * Where the commit-time sidecar loses dates

    Three ways [crates/core-api/src/db.rs] loses recorded times that its
    comments rule out: a stamp [push] ignores is appended to the file all the
    same, a read error at open is taken for an absent file, and the poison that
    reports a lost stamp does not outlive the handle. *)

From S2P Require Import Prelude Order Bytes CommitTimes CommitClock.

Module CommitGaps.
Import CommitTimes CommitClock.

(** C38: a stamp that does not ascend makes the sidecar unreadable for good.  A
    handle whose frame count fell back to or below the newest stamped frame (a
    WAL whose last frames did not survive a crash, under a sidecar that did)
    stamps its next commit: [push] ignores the entry, the append writes it.  A
    reopen then finds a file that does not decode and refuses every date, and
    neither a commit nor a rewrite of the map touches the file any more. *)
Theorem stale_stamp_unreadable h c ms clock n : commit_times_poisoned h = false → wf (commit_times h) → file h = encode (commit_times h) →
  newest_commit (commit_times h) = Some n → c ≤ n → in_u 64 c → in_i 64 ms → stamp_ms h clock = Some ms →
  let h' := stamp_commit_time h c clock Done in
  commit_times h' = commit_times h ∧ commit_times_poisoned h' = false
  ∧ decode (file h') = Err (Corrupt (NotAscending c n))
  ∧ ∀ in_archives in_wal total unix_ms record synced marker clock' o,
      let h'' := reopen h' in_archives in_wal true in
      resolve_instant h'' total unix_ms = Some (Err (Corrupt WillNotDecode))
      ∧ file (commit h'' record synced marker clock' o) = file h' ∧ file (rewrite_commit_times h'' o) = file h'.
Proof.
  intros Hp Hw Hf Hn Hle Hc Hms Hst h'.
  assert (is_empty (commit_times h) = false) as He by (unfold is_empty, newest_commit in *; by destruct (entries (commit_times h))).
  assert (h' = wrote h (encode (commit_times h) ++ encode_entry c ms, true)) as Eh.
  { unfold h', stamp_commit_time. rewrite Hp, Hst, He. cbn [with_times file append commit_times]. rewrite Hf.
    unfold wrote, with_times. cbn. by rewrite (push_stale _ _ _ n). }
  pose proof (decode_stale _ c ms n Hw Hc Hms Hn Hle) as Hd. rewrite Eh. cbn [wrote commit_times commit_times_poisoned file fst snd]. rewrite Hp.
  split_and!; [done|done|done|]. intros a l total u record synced marker clock' o. set (h'' := reopen _ _ _ _).
  assert (commit_times_poisoned h'' = true ∧ file h'' = encode (commit_times h) ++ encode_entry c ms) as [Hp' Hf'].
  { unfold h'', reopen. rewrite (load_encoded _ (commit_times h) (encode_entry c ms)) by done. cbn [with_frames with_floor with_wal reset_for_reload wrote file fst].
    rewrite Hd. done. }
  pose proof (same_log h'' record synced marker) as [_ Hsp _ Hsf].
  unfold resolve_instant, commit, stamp_commit_time, rewrite_commit_times. destruct (log_frames h'' record synced marker) as [h1 []]; cbn [fst] in *;
    rewrite ?Hsp, Hp', ?Hsf; done.
Qed.

(** Frame 2 of three is lost with the crash, and its number is stamped again. *)
Definition three_commits : handle :=
  (run (new_handle [], []) [Commit Done true None (Some 1000) Done; Commit Done true None (Some 2000) Done; Commit Done true None (Some 3000) Done]).1.

Lemma stale_stamp_unreadable_witness :
  let h := reopen three_commits 0 2 true in
  commit_times (stamp_commit_time h 2 (Some 4000) Done) = commit_times h
  ∧ decode (file (stamp_commit_time h 2 (Some 4000) Done)) = Err (Corrupt (NotAscending 2 2)).
Proof.
  intros h. assert (commit_times_poisoned h = false) as Hp by (vm_compute; reflexivity).
  assert (wf (commit_times h)) as Hw.
  { assert (decode (file h) = Ok (commit_times h)) as Hd by (vm_compute; reflexivity).
    apply (encode_decode (file h)); [|exact Hd]. change (file h) with (file three_commits).
    assert (file three_commits = encode (commit_times three_commits)) as -> by (vm_compute; reflexivity). apply encode_are_bytes. }
  assert (file h = encode (commit_times h)) as Hf by (vm_compute; reflexivity).
  assert (newest_commit (commit_times h) = Some 2) as Hn by (vm_compute; reflexivity).
  destruct (stale_stamp_unreadable h 2 4000 (Some 4000) 2 Hp Hw Hf Hn) as (H1 & _ & H2 & _);
    [lia|by apply in_ub_spec|by apply in_ib_spec|vm_compute; reflexivity|]. split; [exact H1|exact H2].
Defined.

(** A sidecar that cannot be read at open is not recorded as unreadable: date
    queries say that none was recorded, and the next commit replaces the file,
    whatever it held, by a map of that commit alone. *)
Lemma read_error_forgets h in_archives in_wal total z unix_ms : read_only h = false →
  let h1 := reopen h in_archives in_wal false in
  let h2 := commit h1 Done true None (Some z) Done in
  commit_times_poisoned h1 = false ∧ resolve_instant h1 total unix_ms = Some (Err NoRecordedTime)
  ∧ commit_times_poisoned h2 = false ∧ file h2 = encode (commit_times h2) ∧ length (entries (commit_times h2)) = 1%nat.
Proof. intros Hr. unfold commit, log_frames. cbn. by rewrite Hr. Qed.

(** A stamp whose append failed before its first byte: the handle reports it,
    the next one does not, and a date after the lost commit resolves to the
    commit before it. *)
Lemma gap_resolved_across :
  let lost := (run (new_handle [], []) [Commit Done true None (Some 1000) Done; Commit Done true None (Some 2000) (Failed 0)]).1 in
  let next := apply lost (Reopen 0 0 true) in
  resolve_instant lost 2 2500 = Some (Err (Corrupt WillNotDecode)) ∧ resolve_instant next 2 2500 = Some (Ok 0).
Proof. split; vm_compute; reflexivity. Qed.

End CommitGaps.
