(* ===== verification/Packstream.v ===== *)
(** * PackStream

    Models [crates/bolt/src/packstream.rs], the serialization Bolt messages are
    built from: the encoder writes the smallest form, the decoder accepts any
    form and bounds its nesting.  A float is its bits. *)

From S2P Require Import Prelude Bytes Utf8.

Module Packstream.

Definition MAX_DEPTH : nat := 128.

Inductive PackValue :=
| Null
| Bool (b : bool)
| Int (i : Z)
| Float (bits : Z)
| Bytes (b : list Z)
| String_ (s : string)
| List (items : list PackValue)
| Map (entries : list (string * PackValue))
| Struct (tag : Z) (fields : list PackValue).

Inductive PackError := Truncated | ReservedMarker (m : Z) | InvalidUtf8 | NonStringKey | TooDeep.

(** ** Encoding *)

(** [pack_int] *)
Definition pack_int (i : Z) (buf : list Z) : list Z :=
  if (-16 <=? i) && (i <=? 127) then buf ++ [wrap_u 8 i]
  else if in_ib 8 i then buf ++ [200; wrap_u 8 i]
  else if in_ib 16 i then buf ++ [201] ++ be_bytes 2 (wrap_u 16 i)
  else if in_ib 32 i then buf ++ [202] ++ be_bytes 4 (wrap_u 32 i)
  else buf ++ [203] ++ be_bytes 8 (wrap_u 64 i).

(** [pack_size] *)
Definition pack_size (len : nat) (m8 m16 m32 : Z) (tiny : option Z) (buf : list Z) : list Z :=
  let n := Z.of_nat len in
  let sized := if n <=? 255 then buf ++ [m8; wrap_u 8 n]
               else if n <=? 65535 then buf ++ [m16] ++ be_bytes 2 (wrap_u 16 n)
               else buf ++ [m32] ++ be_bytes 4 (wrap_u 32 n) in
  match tiny with
  | Some base => if n <? 16 then buf ++ [Z.lor base (wrap_u 8 n)] else sized
  | None => sized
  end.

Definition pack_str (s : string) (buf : list Z) : list Z :=
  pack_size (length (as_bytes s)) 208 209 210 (Some 128) buf ++ as_bytes s.

(** [pack] *)
Fixpoint pack (v : PackValue) (buf : list Z) : list Z :=
  match v with
  | Null => buf ++ [192]
  | Bool false => buf ++ [194]
  | Bool true => buf ++ [195]
  | Int i => pack_int i buf
  | Float bits => buf ++ [193] ++ be_bytes 8 bits
  | Bytes b => pack_size (length b) 204 205 206 None buf ++ b
  | String_ s => pack_str s buf
  | List items =>
      foldl (λ buf item, pack item buf) (pack_size (length items) 212 213 214 (Some 144) buf) items
  | Map entries =>
      foldl (λ buf e, pack e.2 (pack_str e.1 buf)) (pack_size (length entries) 216 217 218 (Some 160) buf) entries
  | Struct tag fields =>
      let n := Z.of_nat (length fields) in
      let buf := if n <? 16 then buf ++ [Z.lor 176 (wrap_u 8 n)]
                 else if n <=? 255 then buf ++ [220; wrap_u 8 n]
                 else buf ++ [221] ++ be_bytes 2 (wrap_u 16 n) in
      foldl (λ buf field, pack field buf) (buf ++ [tag]) fields
  end.

(** ** Decoding *)

Abbreviation R := (reader PackError).

(** [Cursor::take] *)
Definition take_ (n : Z) : R (list Z) := λ buf pos,
  match try_u 64 (pos + n) with
  | None => Err Truncated
  | Some end_ => match slice_get buf pos n with Some s => Ok (s, end_) | None => Err Truncated end
  end.

(** [Cursor::byte]; [take(1)] has one byte. *)
Definition byte : R Z := s ← take_ 1; mret (default 0 (head s)).

(** [Cursor::uint] *)
Definition uint (width : Z) : R Z :=
  bytes ← take_ width;
  let n := foldl (λ acc b, Z.lor (Z.shiftl acc 8) b) 0 bytes in
  lift_result (ok_or (try_u 64 n) Truncated).

(** [Cursor::sized] *)
Definition sized (marker m8 m16 : Z) : R Z :=
  uint (if marker =? m8 then 1 else if marker =? m16 then 2 else 4).

(** [Cursor::string] *)
Definition string_ (len : Z) : R string :=
  bytes ← take_ len; lift_result (ok_or (from_utf8 bytes) InvalidUtf8).

(** [Cursor::check_count] *)
Definition check_count (count : Z) : R unit := λ buf pos,
  if len_z buf - pos <? count then Err Truncated else Ok (tt, pos).

(** [Cursor::list], [map] and [structure], over the reader of their elements. *)
Definition list_ (elem : R PackValue) (count : Z) : R PackValue :=
  _ ← check_count count; items ← repeat_read (Z.to_nat count) elem; mret (List items).

Definition map_entry (elem : R PackValue) : R (string * PackValue) :=
  k ← elem;
  key ← lift_result (match k with String_ s => Ok s | _ => Err NonStringKey end);
  v ← elem; mret (key, v).

Definition map_ (elem : R PackValue) (count : Z) : R PackValue :=
  _ ← check_count count; entries ← repeat_read (Z.to_nat count) (map_entry elem); mret (Map entries).

Definition structure (elem : R PackValue) (count : Z) : R PackValue :=
  tag ← byte; _ ← check_count count;
  fields ← repeat_read (Z.to_nat count) elem; mret (Struct tag fields).

(** The [match marker] of [Cursor::value], over the reader of the elements one
    level down. *)
Definition dispatch (elem : R PackValue) (marker : Z) : R PackValue :=
  if marker <=? 127 then mret (Int marker)
  else if 240 <=? marker then mret (Int (wrap_i 8 marker))
  else if between 128 143 marker then s ← string_ (Z.land marker 15); mret (String_ s)
  else if between 144 159 marker then list_ elem (Z.land marker 15)
  else if between 160 175 marker then map_ elem (Z.land marker 15)
  else if between 176 191 marker then structure elem (Z.land marker 15)
  else if marker =? 192 then mret Null
  else if marker =? 193 then b ← take_ 8; mret (Float (be_val b))
  else if marker =? 194 then mret (Bool false)
  else if marker =? 195 then mret (Bool true)
  else if marker =? 200 then b ← byte; mret (Int (wrap_i 8 b))
  else if marker =? 201 then b ← take_ 2; mret (Int (wrap_i 16 (be_val b)))
  else if marker =? 202 then b ← take_ 4; mret (Int (wrap_i 32 (be_val b)))
  else if marker =? 203 then b ← take_ 8; mret (Int (wrap_i 64 (be_val b)))
  else if between 204 206 marker then len ← sized marker 204 205; b ← take_ len; mret (Bytes b)
  else if between 208 210 marker then len ← sized marker 208 209; s ← string_ len; mret (String_ s)
  else if between 212 214 marker then count ← sized marker 212 213; list_ elem count
  else if between 216 218 marker then count ← sized marker 216 217; map_ elem count
  else if marker =? 220 then count ← uint 1; structure elem count
  else if marker =? 221 then count ← uint 2; structure elem count
  else lift_result (Err (ReservedMarker marker)).

(** [Cursor::value]; [room] is [MAX_DEPTH + 1 - depth], so the guard
    [depth > MAX_DEPTH] is [room = 0]. *)
Fixpoint value (room : nat) : R PackValue :=
  match room with
  | O => lift_result (Err TooDeep)
  | S room => marker ← byte; dispatch (value room) marker
  end.

(** [unpack] *)
Definition unpack (buf : list Z) : result PackError (PackValue * Z) := value (S MAX_DEPTH) buf 0.

(** ** What the format can carry *)

(** The sizes the markers can state: 32 bits for strings, bytes, lists and maps,
    16 for the fields of a structure.  A struct's wider size is cut by the
    encoder's cast. *)
Fixpoint packable (v : PackValue) : bool :=
  match v with
  | Null | Bool _ => true
  | Int i => in_ib 64 i
  | Float bits => in_ub 64 bits
  | Bytes b => in_ub 32 (len_z b)
  | String_ s => in_ub 32 (len_z (as_bytes s)) && utf8_valid (as_bytes s)
  | List items => in_ub 32 (len_z items) && forallb packable items
  | Map entries =>
      in_ub 32 (len_z entries) &&
      forallb (λ e, in_ub 32 (len_z (as_bytes e.1)) && utf8_valid (as_bytes e.1) && packable e.2) entries
  | Struct _ fields => in_ub 16 (len_z fields) && forallb packable fields
  end.

(** How many levels of the decoder a value takes. *)
Fixpoint height (v : PackValue) : nat :=
  match v with
  | List items | Struct _ items => S (foldr (λ v n, Nat.max (height v) n) 0%nat items)
  | Map entries => S (foldr (λ e n, Nat.max (height e.2) n) 0%nat entries)
  | _ => 1%nat
  end.

(** [r] on the encoding [enc] answers the value, or, without one, [TooDeep]. *)
Definition answers {A} (r : R A) (enc : list Z) (o : option A) : Prop :=
  ∀ pre rest, len_z (pre ++ enc ++ rest) ≤ isize_max →
    r (pre ++ enc ++ rest) (len_z pre) =
    match o with Some a => Ok (a, len_z pre + len_z enc) | None => Err TooDeep end.

(** ** Parts *)

Lemma answers_reads {A} (r : R A) enc a : reads r enc a ↔ answers r enc (Some a).
Proof. done. Qed.

Lemma answers_bind {A B} (r : R A) (f : A → R B) enc1 enc2 a o :
  reads r enc1 a → answers (f a) enc2 o → answers (r ≫= f) (enc1 ++ enc2) o.
Proof.
  intros H1 H2 pre rest Hlen. unfold mbind, reader_bind. rewrite <-!app_assoc in *. rewrite H1 by done.
  rewrite app_assoc in Hlen |- *. pose proof (H2 (pre ++ enc1) rest Hlen) as H. rewrite len_z_app in H.
  rewrite H. destruct o; [|done]. rewrite len_z_app. do 2 f_equal. lia.
Qed.

Lemma answers_map {A B} (r : R A) (f : A → B) enc o :
  answers r enc o → answers (a ← r; mret (f a)) enc (f <$> o).
Proof. intros H pre rest Hlen. unfold mbind, reader_bind. rewrite H by done. by destruct o. Qed.

Lemma answers_deep {A B} (r : R A) (f : A → R B) enc1 enc2 :
  answers r enc1 None → answers (r ≫= f) (enc1 ++ enc2) None.
Proof.
  intros H1 pre rest Hlen. unfold mbind, reader_bind. rewrite <-!app_assoc in *. by rewrite H1.
Qed.

Lemma answers_repeat {A} (r : R A) (enc : A → list Z) (fits : A → bool) (l : list A) :
  (∀ a, a ∈ l → answers r (enc a) (if fits a then Some a else None)) →
  answers (repeat_read (length l) r) (l ≫= enc) (if forallb fits l then Some l else None).
Proof.
  induction l as [|a l IH]; intros Hl; cbn [repeat_read length forallb]; [apply reads_ret|]. rewrite bind_cons.
  pose proof (Hl a ltac:(by left)) as Ha. destruct (fits a); cbn [andb]; [|by apply answers_deep].
  eapply answers_bind; [exact Ha|]. specialize (IH ltac:(intros x Hx; apply Hl; by right)).
  apply (answers_map _ (cons a)) in IH. by destruct (forallb fits l).
Qed.

Lemma reads_take bs : reads (take_ (len_z bs)) bs bs.
Proof.
  intros pre rest Hlen. unfold take_. rewrite slice_get_mid. rewrite !len_z_app in Hlen.
  pose proof (len_z_nonneg pre). pose proof (len_z_nonneg rest). pose proof (len_z_nonneg bs).
  rewrite try_u_Some by (unfold in_u, isize_max in *; lia). done.
Qed.

Lemma reads_byte b : reads byte [b] b.
Proof. apply (reads_bind_ret _ (λ s, default 0 (head s)) [b] [b]). apply (reads_take [b]). Qed.

Lemma reads_uint k n : (k ≤ 4)%nat → 0 ≤ n < 256 ^ Z.of_nat k → reads (uint (Z.of_nat k)) (be_bytes k n) n.
Proof.
  intros Hk Hn. rewrite <-(app_nil_r (be_bytes k n)). eapply reads_bind.
  { pose proof (reads_take (be_bytes k n)) as H. unfold len_z in H. rewrite length_be_bytes in H. exact H. }
  cbv zeta. rewrite foldl_be, be_val_bytes by (apply be_bytes_are_bytes || done).
  assert (256 ^ Z.of_nat k ≤ 256 ^ 4) by (apply Z.pow_le_mono_r; lia).
  rewrite try_u_Some by (unfold in_u; lia). apply reads_lift.
Qed.

Lemma reads_string s : is_str s → reads (string_ (len_z (as_bytes s))) (as_bytes s) s.
Proof.
  intros Hs. assert (reads (string_ (len_z (as_bytes s))) (as_bytes s ++ []) s) as H; [|by rewrite app_nil_r in H].
  eapply reads_bind; [apply reads_take|]. rewrite from_utf8_as_bytes by done. apply reads_lift.
Qed.

Lemma answers_check {A} (r : R A) enc count o :
  count ≤ len_z enc → answers r enc o → answers (_ ← check_count count; r) enc o.
Proof.
  intros Hc H pre rest Hlen. unfold mbind, reader_bind, check_count. rewrite <-H by done. rewrite !len_z_app.
  pose proof (len_z_nonneg rest). by rewrite (proj2 (Z.ltb_ge _ _)) by lia.
Qed.

(** ** Appending *)

Lemma pack_size_app n m8 m16 m32 tiny buf :
  pack_size n m8 m16 m32 tiny buf = buf ++ pack_size n m8 m16 m32 tiny [].
Proof. unfold pack_size. case_all. Qed.

Lemma pack_str_app s buf : pack_str s buf = buf ++ pack_str s [].
Proof. unfold pack_str. by rewrite (pack_size_app _ _ _ _ _ buf), app_assoc. Qed.

Lemma foldl_writes {A} (w : A → list Z → list Z) l buf :
  (∀ a buf, a ∈ l → w a buf = buf ++ w a []) → foldl (λ buf a, w a buf) buf l = buf ++ (l ≫= λ a, w a []).
Proof.
  revert buf. induction l as [|a l IH]; intros buf Hw; [by rewrite app_nil_r|]. cbn [foldl]. rewrite IH.
  - rewrite bind_cons, (Hw a buf) by (by left). by rewrite app_assoc.
  - intros x b Hx. apply Hw. by right.
Qed.

Lemma height_max {A} (h : A → nat) l a : a ∈ l → (h a ≤ foldr (λ x n, Nat.max (h x) n) 0 l)%nat.
Proof. induction 1; simpl; lia. Qed.

Lemma height_fits {A} (h : A → nat) l room :
  (foldr (λ x n, Nat.max (h x) n) 0 l <=? room)%nat = forallb (λ x, (h x <=? room)%nat) l.
Proof.
  induction l as [|x l IH]; [done|]. cbn [foldr forallb]. rewrite <-IH. apply eq_true_iff_eq.
  rewrite andb_true_iff, !Nat.leb_le. lia.
Qed.

Lemma height_pos v : (1 ≤ height v)%nat.
Proof. destruct v; simpl; lia. Qed.

Lemma pack_app n v buf : (height v ≤ n)%nat → pack v buf = buf ++ pack v [].
Proof.
  revert v buf. induction n as [|n IH]; intros v buf Hn; [pose proof (height_pos v); lia|].
  destruct v as [|[]|i|bits|b|s|items|entries|tag fields]; cbn [pack height] in *; try done.
  - unfold pack_int. case_all.
  - by rewrite (pack_size_app _ _ _ _ _ buf), app_assoc.
  - apply pack_str_app.
  - assert (∀ v b, v ∈ items → pack v b = b ++ pack v []) as Hw.
    { intros v b Hv. apply IH. pose proof (height_max height items v Hv). lia. }
    rewrite !(foldl_writes pack) by done. by rewrite (pack_size_app _ _ _ _ _ buf), app_assoc.
  - pose (w := λ (e : string * PackValue) buf, pack e.2 (pack_str e.1 buf)).
    assert (∀ e b, e ∈ entries → w e b = b ++ w e []) as Hw.
    { intros e b He. unfold w. pose proof (height_max (height ∘ snd) entries e He). simpl in *.
      rewrite (IH e.2 (pack_str e.1 b)), (IH e.2 (pack_str e.1 [])) by lia. by rewrite pack_str_app, app_assoc. }
    rewrite !(foldl_writes w) by done. by rewrite (pack_size_app _ _ _ _ _ buf), app_assoc.
  - assert (∀ v b, v ∈ fields → pack v b = b ++ pack v []) as Hw.
    { intros v b Hv. apply IH. pose proof (height_max height fields v Hv). lia. }
    rewrite !(foldl_writes pack) by done. rewrite !app_assoc. f_equal. case_all; by rewrite <-!app_assoc.
Qed.

Lemma pack_writes v buf : pack v buf = buf ++ pack v [].
Proof. by apply (pack_app (height v)). Qed.

Definition pack_entry (e : string * PackValue) : list Z := pack_str e.1 [] ++ pack e.2 [].

Lemma pack_list items :
  pack (List items) [] = pack_size (length items) 212 213 214 (Some 144) [] ++ (items ≫= λ v, pack v []).
Proof. cbn [pack]. apply (foldl_writes pack). intros. apply pack_writes. Qed.

Lemma pack_map entries :
  pack (Map entries) [] = pack_size (length entries) 216 217 218 (Some 160) [] ++ (entries ≫= pack_entry).
Proof.
  cbn [pack]. rewrite (foldl_writes (λ e buf, pack e.2 (pack_str e.1 buf))).
  - f_equal. apply list_bind_ext; [|done]. intros e. apply pack_writes.
  - intros e b _. rewrite pack_writes, pack_str_app, (pack_writes _ (pack_str e.1 [])). by rewrite app_assoc.
Qed.

Lemma pack_nonempty v : (1 ≤ length (pack v []))%nat.
Proof.
  assert (∀ n m8 m16 m32 tiny, (1 ≤ length (pack_size n m8 m16 m32 tiny []))%nat) as Hs.
  { intros. unfold pack_size. case_all; simpl; lia. }
  destruct v as [|[]|i|bits|b|s|items|entries|tag fields]; rewrite ?pack_list, ?pack_map; cbn [pack];
    unfold pack_str; rewrite ?length_app; try (simpl; lia); try (etrans; [apply Hs|apply Nat.le_add_r]).
  - unfold pack_int. case_all; simpl; lia.
  - rewrite (foldl_writes pack) by (intros; apply pack_writes). rewrite !length_app. simpl. lia.
Qed.

Lemma length_bind_ge {A} (f : A → list Z) l : (∀ a, (1 ≤ length (f a))%nat) → len_z l ≤ len_z (l ≫= f).
Proof.
  intros Hf. unfold len_z. induction l as [|a l IH]; [done|]. rewrite bind_cons, length_app. simpl. specialize (Hf a). lia.
Qed.

(** ** The decoder inverts the encoder *)

Lemma answers_marker elem marker enc o :
  answers (dispatch elem marker) enc o → answers (marker ← byte; dispatch elem marker) (marker :: enc) o.
Proof. intros H. apply (answers_bind byte _ [marker] enc marker o); [apply reads_byte|done]. Qed.

(** A size header, whichever of its forms the encoder picks. *)
Lemma answers_size elem (body : Z → R PackValue) len m8 m16 m32 tiny enc o :
  in_u 32 (Z.of_nat len) →
  dispatch elem m8 = (n ← uint 1; body n) →
  dispatch elem m16 = (n ← uint 2; body n) →
  dispatch elem m32 = (n ← uint 4; body n) →
  (∀ b n, tiny = Some b → 0 ≤ n < 16 → dispatch elem (Z.lor b n) = body n) →
  answers (body (Z.of_nat len)) enc o →
  answers (marker ← byte; dispatch elem marker) (pack_size len m8 m16 m32 tiny [] ++ enc) o.
Proof.
  unfold in_u. intros Hlen H8 H16 H32 Ht Hb.
  assert (∀ k marker, (k ≤ 4)%nat → Z.of_nat len < 256 ^ Z.of_nat k → dispatch elem marker = (n ← uint (Z.of_nat k); body n) →
            answers (marker ← byte; dispatch elem marker) (marker :: be_bytes k (Z.of_nat len) ++ enc) o) as Hk.
  { intros k marker Hk Hn Hd. apply answers_marker. rewrite Hd. eapply answers_bind; [apply reads_uint; lia|done]. }
  assert (answers (marker ← byte; dispatch elem marker)
            ((if Z.of_nat len <=? 255 then [] ++ [m8; wrap_u 8 (Z.of_nat len)]
              else if Z.of_nat len <=? 65535 then [] ++ [m16] ++ be_bytes 2 (wrap_u 16 (Z.of_nat len))
              else [] ++ [m32] ++ be_bytes 4 (wrap_u 32 (Z.of_nat len))) ++ enc) o) as Hs.
  { destruct (Z.leb_spec (Z.of_nat len) 255); [|destruct (Z.leb_spec (Z.of_nat len) 65535)];
      rewrite wrap_u_id by (unfold in_u; lia).
    - specialize (Hk 1%nat m8 ltac:(lia) ltac:(lia) H8). cbn in Hk. by rewrite Z.mod_small in Hk by lia.
    - apply (Hk 2%nat); [lia|lia|done].
    - apply (Hk 4%nat); [lia|lia|done]. }
  unfold pack_size. destruct tiny as [b|]; [|done]. destruct (Z.ltb_spec (Z.of_nat len) 16); [|done].
  rewrite wrap_u_id by (unfold in_u; lia). apply answers_marker. rewrite (Ht b) by (done || lia). done.
Qed.

(** The sixteen inline sizes. *)
Lemma sixteen (P : Z → Prop) :
  P 0 → P 1 → P 2 → P 3 → P 4 → P 5 → P 6 → P 7 → P 8 → P 9 → P 10 → P 11 → P 12 → P 13 → P 14 → P 15 →
  ∀ n, 0 ≤ n < 16 → P n.
Proof.
  intros. assert (n = 0 ∨ n = 1 ∨ n = 2 ∨ n = 3 ∨ n = 4 ∨ n = 5 ∨ n = 6 ∨ n = 7 ∨ n = 8 ∨ n = 9 ∨ n = 10 ∨ n = 11
    ∨ n = 12 ∨ n = 13 ∨ n = 14 ∨ n = 15) by lia. intuition (subst; done).
Qed.

Lemma value_int elem i : in_i 64 i → answers (marker ← byte; dispatch elem marker) (pack_int i []) (Some (Int i)).
Proof.
  intros Hi.
  assert (∀ k marker, (0 < k)%nat → in_i (8 * Z.of_nat k) i →
    dispatch elem marker = (b ← take_ (Z.of_nat k); mret (Int (wrap_i (8 * Z.of_nat k) (be_val b)))) →
    answers (marker ← byte; dispatch elem marker) (marker :: be_bytes k (wrap_u (8 * Z.of_nat k) i)) (Some (Int i))) as Hk.
  { intros k marker Hpos Hk Hd. apply answers_marker. rewrite Hd.
    assert (Int i = Int (wrap_i (8 * Z.of_nat k) (be_val (be_bytes k (wrap_u (8 * Z.of_nat k) i))))) as ->.
    { rewrite be_val_bytes.
      - rewrite wrap_i_wrap_u, wrap_i_id by (done || lia). done.
      - unfold wrap_u. change 256 with (2 ^ 8). rewrite <-Z.pow_mul_r by lia. apply Z.mod_pos_bound. lia. }
    apply (reads_bind_ret _ (λ b, Int (wrap_i (8 * Z.of_nat k) (be_val b)))).
    pose proof (reads_take (be_bytes k (wrap_u (8 * Z.of_nat k) i))) as H. unfold len_z in H.
    by rewrite length_be_bytes in H. }
  unfold pack_int. destruct ((-16 <=? i) && (i <=? 127)) eqn:Et; [|destruct (in_ib 8 i) eqn:E8;
    [|destruct (in_ib 16 i) eqn:E16; [|destruct (in_ib 32 i) eqn:E32]]]; cbn [app].
  - apply andb_prop in Et as [H1%Z.leb_le H2%Z.leb_le]. apply answers_marker. unfold dispatch.
    destruct (Z.leb_spec 0 i).
    + rewrite wrap_u_id by (unfold in_u; lia). rewrite (proj2 (Z.leb_le _ _)) by lia. apply reads_ret.
    + assert (wrap_u 8 i = i + 256) as -> by (unfold wrap_u; change (2 ^ 8) with 256; divlia).
      rewrite (proj2 (Z.leb_gt _ _)), (proj2 (Z.leb_le _ _)) by lia.
      assert (wrap_i 8 (i + 256) = i) as -> by (unfold wrap_i; change (2 ^ 8) with 256; change (2 ^ (8 - 1)) with 128; divlia).
      apply reads_ret.
  - apply in_ib_spec in E8. apply answers_marker.
    assert (Int i = Int (wrap_i 8 (wrap_u 8 i))) as -> by (by rewrite wrap_i_wrap_u, wrap_i_id).
    apply (reads_bind_ret byte (λ b, Int (wrap_i 8 b))), reads_byte.
  - apply in_ib_spec in E16. by apply (Hk 2%nat 201); [lia|..].
  - apply in_ib_spec in E32. by apply (Hk 4%nat 202); [lia|..].
  - by apply (Hk 8%nat 203); [lia|..].
Qed.

Lemma value_str elem s :
  in_u 32 (len_z (as_bytes s)) → is_str s →
  answers (marker ← byte; dispatch elem marker) (pack_str s []) (Some (String_ s)).
Proof.
  intros Hlen Hs. unfold pack_str. apply (answers_size _ (λ n, s ← string_ n; mret (String_ s))); try done.
  - intros b n [= <-]. revert n. by apply sixteen.
  - apply (reads_bind_ret _ String_). by apply reads_string.
Qed.

(** The values at most [room] levels high. *)
Definition within (room : nat) (v : PackValue) : option PackValue :=
  if (height v <=? room)%nat then Some v else None.

Section elements.
Context (room : nat) (IH : ∀ v, packable v = true → answers (value room) (pack v []) (within room v)).

Lemma value_elems (f : list PackValue → PackValue) l :
  forallb packable l = true →
  answers (items ← repeat_read (length l) (value room); mret (f items)) (l ≫= λ v, pack v [])
    (if forallb (λ v, (height v <=? room)%nat) l then Some (f l) else None).
Proof using IH.
  intros Hp. pose proof (answers_repeat (value room) (λ v, pack v []) (λ v, (height v <=? room)%nat) l) as H.
  apply (answers_map _ f) in H; [by destruct (forallb (λ v, (height v <=? room)%nat) l)|]. intros v Hv. apply IH.
  rewrite forallb_forall in Hp. by apply Hp, list_elem_of_In.
Qed.

Lemma value_list items :
  packable (List items) = true →
  answers (list_ (value room) (len_z items)) (items ≫= λ v, pack v [])
    (if forallb (λ v, (height v <=? room)%nat) items then Some (List items) else None).
Proof using IH.
  cbn [packable]. intros [_ Hp]%andb_prop. apply answers_check; [by apply length_bind_ge, pack_nonempty|].
  unfold len_z. rewrite Nat2Z.id. by apply value_elems.
Qed.

Lemma value_fields tag fields :
  packable (Struct tag fields) = true →
  answers (structure (value room) (len_z fields)) (tag :: (fields ≫= λ v, pack v []))
    (if forallb (λ v, (height v <=? room)%nat) fields then Some (Struct tag fields) else None).
Proof using IH.
  cbn [packable]. intros [_ Hp]%andb_prop. apply (answers_bind byte _ [tag] _ tag); [apply reads_byte|].
  apply answers_check; [by apply length_bind_ge, pack_nonempty|]. unfold len_z. rewrite Nat2Z.id.
  by apply (value_elems (Struct tag)).
Qed.

Lemma value_entry k v :
  in_u 32 (len_z (as_bytes k)) → is_str k → packable v = true →
  answers (map_entry (value room)) (pack_entry (k, v)) (if (height v <=? room)%nat then Some (k, v) else None).
Proof using IH.
  intros Hk Hs Hv. unfold map_entry, pack_entry. cbn [fst snd]. destruct (decide (room = 0%nat)) as [->|Hr].
  { pose proof (height_pos v). rewrite (proj2 (Nat.leb_gt _ _)) by lia. by apply answers_deep. }
  assert (reads (value room) (pack_str k []) (String_ k)) as Hkey.
  { destruct room as [|r]; [done|]. by apply value_str. }
  eapply answers_bind; [exact Hkey|]. apply (answers_bind (lift_result (Ok k)) _ [] _ k); [apply reads_lift|].
  pose proof (answers_map _ (pair k) _ _ (IH v Hv)) as H. unfold within in H. by destruct (height v <=? room)%nat.
Qed.

Lemma value_map entries :
  packable (Map entries) = true →
  answers (map_ (value room) (len_z entries)) (entries ≫= pack_entry)
    (if forallb (λ e, (height e.2 <=? room)%nat) entries then Some (Map entries) else None).
Proof using IH.
  cbn [packable]. intros [_ Hp]%andb_prop. apply answers_check.
  { apply length_bind_ge. intros e. unfold pack_entry. rewrite length_app. pose proof (pack_nonempty e.2). lia. }
  unfold len_z. rewrite Nat2Z.id.
  pose proof (answers_repeat (map_entry (value room)) pack_entry (λ e, (height e.2 <=? room)%nat) entries) as H.
  apply (answers_map _ Map) in H; [by destruct (forallb (λ e, (height e.2 <=? room)%nat) entries)|]. intros [k v] Hv. rewrite forallb_forall in Hp.
  apply list_elem_of_In, Hp in Hv. cbn [fst snd] in Hv. apply andb_prop in Hv as [[H1%in_ub_spec H2]%andb_prop H3].
  by apply value_entry.
Qed.
End elements.

Lemma pack_struct tag fields :
  pack (Struct tag fields) [] =
  (let n := len_z fields in
   if n <? 16 then [Z.lor 176 (wrap_u 8 n)]
   else if n <=? 255 then [220; wrap_u 8 n] else 221 :: be_bytes 2 (wrap_u 16 n))
  ++ tag :: (fields ≫= λ v, pack v []).
Proof.
  cbn [pack]. rewrite (foldl_writes pack) by (intros; apply pack_writes). unfold len_z. cbv zeta.
  rewrite <-app_assoc. case_all.
Qed.

Lemma value_struct elem tag fields o :
  in_u 16 (len_z fields) →
  answers (structure elem (len_z fields)) (tag :: (fields ≫= λ v, pack v [])) o →
  answers (marker ← byte; dispatch elem marker) (pack (Struct tag fields) []) o.
Proof.
  unfold in_u. intros Hlen H. rewrite pack_struct. cbv zeta. pose proof (len_z_nonneg fields).
  destruct (Z.ltb_spec (len_z fields) 16); [|destruct (Z.leb_spec (len_z fields) 255)];
    rewrite wrap_u_id by (unfold in_u; lia); cbn [app]; apply answers_marker.
  - assert (∀ n, 0 ≤ n < 16 → dispatch elem (Z.lor 176 n) = structure elem n) as Ht by (by apply sixteen).
    by rewrite Ht by lia.
  - assert ([len_z fields] = be_bytes 1 (len_z fields)) as Hb by (cbn; by rewrite Z.mod_small by lia).
    change (len_z fields :: ?l) with ([len_z fields] ++ l). rewrite Hb.
    apply (answers_bind (uint 1) _ _ _ (len_z fields)); [apply (reads_uint 1); lia|done].
  - apply (answers_bind (uint 2) _ _ _ (len_z fields)); [apply (reads_uint 2); lia|done].
Qed.

Lemma value_pack room v : packable v = true → answers (value room) (pack v []) (within room v).
Proof.
  revert v. induction room as [|room IH]; intros v Hp; cbn [value]; unfold within.
  { pose proof (height_pos v). by rewrite (proj2 (Nat.leb_gt _ _)) by lia. }
  destruct v as [|b|i|bits|b|s|items|entries|tag fields].
  - by apply answers_marker, reads_ret.
  - by destruct b; apply answers_marker, reads_ret.
  - by apply value_int, in_ib_spec.
  - apply in_ub_spec in Hp. unfold in_u in Hp. apply answers_marker. cbn [height Nat.leb].
    rewrite <-(be_val_bytes 8 bits) at 2 by lia. apply (reads_bind_ret _ (λ b, Float (be_val b))).
    apply (reads_take (be_bytes 8 bits)).
  - apply in_ub_spec in Hp. apply (answers_size _ (λ n, b ← take_ n; mret (Bytes b))); try done.
    apply (reads_bind_ret _ Bytes), reads_take.
  - apply andb_prop in Hp as [Hl%in_ub_spec Hs]. by apply value_str.
  - rewrite pack_list. cbn [height]. change (S ?n <=? S room)%nat with (n <=? room)%nat. rewrite (height_fits height).
    apply (answers_size _ (list_ (value room))); try done.
    + cbn [packable] in Hp. by apply andb_prop in Hp as [Hl%in_ub_spec _].
    + intros b n [= <-]. revert n. by apply sixteen.
    + by apply value_list.
  - rewrite pack_map. cbn [height]. change (S ?n <=? S room)%nat with (n <=? room)%nat.
    rewrite (height_fits (λ e, height e.2)).
    apply (answers_size _ (map_ (value room))); try done.
    + cbn [packable] in Hp. by apply andb_prop in Hp as [Hl%in_ub_spec _].
    + intros b n [= <-]. revert n. by apply sixteen.
    + by apply value_map.
  - cbn [height]. change (S ?n <=? S room)%nat with (n <=? room)%nat. rewrite (height_fits height).
    apply value_struct; [|by apply value_fields]. cbn [packable] in Hp. by apply andb_prop in Hp as [Hl%in_ub_spec _].
Qed.

(** ** The decoder looks at nothing behind what it answers from *)

Lemma stable_take n : stable (take_ n).
Proof.
  intros src pos s pos' Hp. unfold take_, try_u. destruct (in_ub 64 (pos + n)); [|done].
  destruct (slice_get src pos n) as [x|] eqn:E; [|done]. intros [= <- <-].
  pose proof (λ rest, slice_get_stable src rest pos n x E) as Hs. split; [destruct (Hs []); lia|].
  intros rest. by destruct (Hs rest) as [-> _].
Qed.
#[local] Hint Resolve stable_take : mush.

Lemma stable_check count : stable (check_count count).
Proof.
  intros src pos u pos' Hp. unfold check_count. destruct (Z.ltb_spec (len_z src - pos) count); [done|].
  intros [= <- <-]. split; [lia|]. intros rest. rewrite len_z_app. pose proof (len_z_nonneg rest).
  by rewrite (proj2 (Z.ltb_ge _ _)) by lia.
Qed.
#[local] Hint Resolve stable_check : mush.

Lemma stable_value room : stable (value room).
Proof.
  induction room as [|room IH]; cbn [value]; [apply stable_lift|].
  assert (stable byte) as Hb by (apply stable_bind; auto with mush).
  apply stable_bind; [done|]. intros marker. unfold dispatch, string_, list_, map_, map_entry, structure, sized, uint.
  repeat case_match; repeat (apply stable_bind; [|intros]); auto with mush.
  all: apply stable_repeat; repeat (apply stable_bind; [|intros]); auto with mush.
Qed.

(** ** What the decoder can answer *)

Definition yields {A} (r : R A) (P : A → Prop) : Prop :=
  ∀ buf pos a pos', Forall is_byte buf → r buf pos = Ok (a, pos') → P a.

Lemma yields_ret {A} (a : A) (P : A → Prop) : P a → yields (mret a) P.
Proof. by intros H buf pos x pos' _ [= <- _]. Qed.

Lemma yields_lift {A} (x : result PackError A) (P : A → Prop) : (∀ a, x = Ok a → P a) → yields (lift_result x) P.
Proof. intros H buf pos a pos' _. unfold lift_result. destruct x; [|done]. intros [= -> _]. by apply H. Qed.

Lemma yields_bind {A B} (r : R A) (f : A → R B) (P : A → Prop) (Q : B → Prop) :
  yields r P → (∀ a, P a → yields (f a) Q) → yields (r ≫= f) Q.
Proof.
  intros Hr Hf buf pos b pos' Hb. unfold mbind, reader_bind. destruct (r buf pos) as [[a p]|] eqn:E; [|done].
  intros H. by apply (Hf a (Hr _ _ _ _ Hb E) buf p b pos').
Qed.

Lemma yields_repeat {A} n (r : R A) (P : A → Prop) :
  yields r P → yields (repeat_read n r) (λ l, length l = n ∧ Forall P l).
Proof.
  intros Hr. induction n as [|n IH]; cbn [repeat_read]; [by apply yields_ret|].
  apply (yields_bind _ _ P); [done|]. intros a Ha. apply (yields_bind _ _ _ _ IH). intros l [Hl HP].
  apply yields_ret. simpl. auto.
Qed.

Lemma yields_take n : yields (take_ n) (λ s, len_z s = n ∧ Forall is_byte s).
Proof.
  intros buf pos s pos' Hb. unfold take_. destruct (try_u 64 (pos + n)); [|done].
  destruct (slice_get buf pos n) as [x|] eqn:E; [|done]. intros [= <- _].
  split; [by destruct (slice_get_stable buf [] pos n x E) as (_ & _ & _ & _ & Hl)|].
  unfold slice_get in E. case_match; simplify_eq. by apply Forall_take, Forall_drop.
Qed.

Lemma yields_byte : yields byte is_byte.
Proof.
  apply (yields_bind _ _ _ _ (yields_take 1)). intros [|b s] [Hl Hs]; [done|]. apply yields_ret. by inversion Hs.
Qed.

Lemma yields_uint k : yields (uint (Z.of_nat k)) (λ n, in_u (8 * Z.of_nat k) n).
Proof.
  apply (yields_bind _ _ _ _ (yields_take _)). intros s [Hl Hs]. cbv zeta. rewrite foldl_be by done.
  apply yields_lift. intros n. unfold try_u. case_match; [|done]. intros [= <-].
  pose proof (be_val_range s Hs) as Hr. unfold len_z in Hl. rewrite Hl in Hr. unfold in_u.
  change 256 with (2 ^ 8) in Hr. by rewrite <-Z.pow_mul_r in Hr by lia.
Qed.

Lemma yields_sized marker m8 m16 : yields (sized marker m8 m16) (in_u 32).
Proof.
  assert (∀ k, (k ≤ 4)%nat → yields (uint (Z.of_nat k)) (in_u 32)) as H.
  { intros k Hk buf pos n pos' Hb E. apply yields_uint in E; [|done]. unfold in_u in *.
    assert (2 ^ (8 * Z.of_nat k) ≤ 2 ^ 32) by (apply Z.pow_le_mono_r; lia). lia. }
  unfold sized. case_match; [by apply (H 1%nat); lia|]. case_match; [by apply (H 2%nat); lia|]. by apply (H 4%nat).
Qed.

Lemma yields_string n : yields (string_ n) (λ s, len_z (as_bytes s) = n ∧ utf8_valid (as_bytes s) = true).
Proof.
  apply (yields_bind _ _ _ _ (yields_take _)). intros b [Hl Hb]. apply yields_lift. intros s. unfold from_utf8.
  destruct (utf8_valid b) eqn:E; [|done]. intros [= <-]. by rewrite as_bytes_of_bytes.
Qed.

Lemma height_all {A} (h : A → nat) l n : Forall (λ a, (h a ≤ n)%nat) l → (foldr (λ x m, Nat.max (h x) m) 0 l ≤ n)%nat.
Proof. induction 1; simpl; lia. Qed.

(** A value that came out of [room] levels, and can go back in. *)
Definition good (room : nat) (v : PackValue) : Prop := packable v = true ∧ (height v ≤ room)%nat.

Lemma good_items room l : Forall (good room) l → forallb packable l = true ∧ Forall (λ v, (height v ≤ room)%nat) l.
Proof.
  intros Hl. split; [|by apply (Forall_impl _ _ _ Hl); intros v []]. apply forallb_forall. intros v Hv%list_elem_of_In.
  rewrite Forall_forall in Hl. by apply Hl.
Qed.

Section levels.
Context (room : nat) (IH : yields (value room) (good room)).

Lemma yields_list count : in_u 32 count → yields (list_ (value room) count) (good (S room)).
Proof using IH.
  intros Hc. apply (yields_bind _ _ (λ _, True)); [done|]. intros _ _.
  apply (yields_bind _ _ _ _ (yields_repeat _ _ _ IH)). intros l [Hl [Hp Hh]%good_items]. apply yields_ret.
  split; cbn [packable height]; [|by apply le_n_S, height_all]. unfold in_u in Hc.
  rewrite Hp, andb_true_r. apply in_ub_spec. unfold in_u, len_z. lia.
Qed.

Lemma yields_structure count : in_u 16 count → yields (structure (value room) count) (good (S room)).
Proof using IH.
  intros Hc. apply (yields_bind _ _ _ _ yields_byte). intros tag _. apply (yields_bind _ _ (λ _, True)); [done|].
  intros _ _. apply (yields_bind _ _ _ _ (yields_repeat _ _ _ IH)). intros l [Hl [Hp Hh]%good_items]. apply yields_ret.
  split; cbn [packable height]; [|by apply le_n_S, height_all]. unfold in_u in Hc.
  rewrite Hp, andb_true_r. apply in_ub_spec. unfold in_u, len_z. lia.
Qed.

Lemma yields_map count : in_u 32 count → yields (map_ (value room) count) (good (S room)).
Proof using IH.
  intros Hc. apply (yields_bind _ _ (λ _, True)); [done|]. intros _ _.
  eapply yields_bind; [apply (yields_repeat _ _ (λ e, packable (String_ e.1) = true ∧ good room e.2))|].
  - unfold map_entry. apply (yields_bind _ _ _ _ IH). intros k [Hk _]. eapply (yields_bind _ _ (λ s, packable (String_ s) = true)).
    { apply yields_lift. destruct k; try done. by intros ? [= <-]. }
    intros s Hs. apply (yields_bind _ _ _ _ IH). intros v Hv. by apply yields_ret.
  - intros l [Hl He]. apply yields_ret. unfold in_u in Hc. split; cbn [packable height].
    + apply andb_true_intro. split; [apply in_ub_spec; unfold in_u, len_z; lia|]. apply forallb_forall.
      intros e Hin%list_elem_of_In. rewrite Forall_forall in He. destruct (He e Hin) as [Hs [Hv _]].
      cbn [packable] in Hs. by rewrite Hs, Hv.
    + apply le_n_S, (height_all (λ e, height e.2)). apply (Forall_impl _ _ _ He). by intros e [_ []].
Qed.

Lemma yields_str len : in_u 32 len → yields (s ← string_ len; mret (String_ s)) (good (S room)).
Proof.
  intros Hl. apply (yields_bind _ _ _ _ (yields_string len)). intros s [Hs Hv]. apply yields_ret.
  split; [|simpl; lia]. cbn [packable]. rewrite Hv, Hs, andb_true_r. by apply in_ub_spec.
Qed.

Lemma yields_int w b : 0 < w ≤ 64 → yields (mret (Int (wrap_i w b))) (good (S room)).
Proof.
  intros Hw. apply yields_ret. split; [|simpl; lia].
  apply in_ib_spec. pose proof (wrap_i_range w b ltac:(lia)) as H. unfold in_i in *.
  assert (2 ^ (w - 1) ≤ 2 ^ (64 - 1)) by (apply Z.pow_le_mono_r; lia). lia.
Qed.
End levels.

Lemma land_15 z : 0 ≤ Z.land z 15 < 16.
Proof. change 15 with (Z.ones 4). rewrite Z.land_ones by lia. apply Z.mod_pos_bound. lia. Qed.

Lemma yields_value room : yields (value room) (good room).
Proof.
  induction room as [|room IH]; cbn [value]; [by apply yields_lift|].
  apply (yields_bind _ _ _ _ yields_byte). unfold is_byte. intros marker Hm.
  assert (∀ w, 4 ≤ w → in_u w (Z.land marker 15)) as Hland.
  { intros w Hw. pose proof (land_15 marker). unfold in_u. assert (2 ^ 4 ≤ 2 ^ w) by (apply Z.pow_le_mono_r; lia). lia. }
  assert (∀ v, packable v = true → height v = 1%nat → yields (mret v) (good (S room))) as Hret.
  { intros v Hp Hh. apply yields_ret. split; [done|]. lia. }
  unfold dispatch. case_match; [by apply Hret; [apply in_ib_spec; unfold in_i; lia|]|].
  case_match; [by apply yields_int|].
  case_match; [by apply yields_str, Hland|]. case_match; [by apply yields_list, Hland|].
  case_match; [by apply yields_map, Hland|]. case_match; [by apply yields_structure, Hland|].
  case_match; [by apply Hret|]. case_match.
  { apply (yields_bind _ _ _ _ (yields_take 8)). intros b [Hl Hb]. apply Hret; [|done]. apply in_ub_spec.
    pose proof (be_val_range b Hb) as Hr. unfold len_z in Hl. by rewrite Hl in Hr. }
  case_match; [by apply Hret|]. case_match; [by apply Hret|].
  case_match; [by apply (yields_bind _ _ _ _ yields_byte); intros; apply yields_int|].
  do 3 (case_match; [by apply (yields_bind _ _ _ _ (yields_take _)); intros b _; apply yields_int|]).
  case_match.
  { apply (yields_bind _ _ _ _ (yields_sized _ _ _)). intros n Hn. apply (yields_bind _ _ _ _ (yields_take _)).
    intros b [Hl _]. apply Hret; [|done]. cbn [packable]. rewrite Hl. by apply in_ub_spec. }
  case_match; [by apply (yields_bind _ _ _ _ (yields_sized _ _ _)); intros; apply yields_str|].
  case_match; [by apply (yields_bind _ _ _ _ (yields_sized _ _ _)); intros; apply yields_list|].
  case_match; [by apply (yields_bind _ _ _ _ (yields_sized _ _ _)); intros; apply yields_map|].
  case_match; [apply (yields_bind _ _ _ _ (yields_uint 1)); intros n Hn; apply yields_structure; [done|]; unfold in_u in *; lia|].
  case_match; [by apply (yields_bind _ _ _ _ (yields_uint 2)); intros; apply yields_structure|].
  by apply yields_lift.
Qed.

(** C29: what the encoder wrote of a value within the format's sizes is what the
    decoder reads back, whatever follows it on the wire, with the number of bytes
    it took; such a value nested deeper than [MAX_DEPTH] is refused as [TooDeep]
    and nothing else is; a message cut anywhere is refused. Within the sizes
    means, at every level: fewer than 2^32 items, entries or bytes in a list, map,
    text or byte string, fewer than 2^16 fields in a structure, 64-bit integers
    and floats, text and map keys in UTF-8; and the whole buffer no longer than
    [isize::MAX]. Beyond them the encoder casts the size and writes another
    value: a structure of 65536 fields is announced as having none. *)
Theorem packstream_roundtrip (v : PackValue) (rest : list Z) :
  packable v = true → len_z (pack v [] ++ rest) ≤ isize_max →
  (∀ buf, pack v buf = buf ++ pack v []) ∧
  unpack (pack v [] ++ rest) =
    (if (height v <=? S MAX_DEPTH)%nat then Ok (v, len_z (pack v [])) else Err TooDeep) ∧
  ((height v ≤ S MAX_DEPTH)%nat → ∀ cut, cut `prefix_of` pack v [] → cut ≠ pack v [] → ∃ e, unpack cut = Err e).
Proof.
  intros Hp Hlen. pose proof (value_pack (S MAX_DEPTH) v Hp) as H. split_and!; [apply pack_writes|..].
  - specialize (H [] rest Hlen). unfold unpack. change (len_z []) with 0 in H. cbn [app] in H. rewrite H.
    unfold within. by destruct (height v <=? S MAX_DEPTH)%nat.
  - intros Hh cut Hcut Hne. unfold within in H. rewrite (proj2 (Nat.leb_le _ _) Hh) in H.
    apply (reads_truncated (value (S MAX_DEPTH)) (pack v []) v); [done|apply stable_value| |done|done].
    rewrite len_z_app in Hlen. pose proof (len_z_nonneg rest). lia.
Qed.

(** C35: whatever bytes arrive, a decoded value lies within the buffer, is at
    most [MAX_DEPTH] levels below the top, ignores what follows it, and has a
    canonical encoding that decodes to it again. *)
Theorem packstream_decoded (buf : list Z) (v : PackValue) (pos : Z) :
  Forall is_byte buf → unpack buf = Ok (v, pos) →
  0 ≤ pos ≤ len_z buf ∧ (height v ≤ S MAX_DEPTH)%nat ∧
  (∀ rest, unpack (buf ++ rest) = Ok (v, pos)) ∧
  (len_z (pack v []) ≤ isize_max → unpack (pack v []) = Ok (v, len_z (pack v []))).
Proof.
  intros Hb E. destruct (yields_value _ _ _ _ _ Hb E) as [Hp Hh].
  destruct (stable_value (S MAX_DEPTH) buf 0 v pos) as [Hpos Hs]; [pose proof (len_z_nonneg buf); lia|done|]. split_and!; try done; try lia.
  intros Hlen. pose proof (value_pack (S MAX_DEPTH) v Hp [] []) as H. rewrite app_nil_r in H. specialize (H Hlen).
  unfold within in H. by rewrite (proj2 (Nat.leb_le _ _) Hh) in H.
Qed.

Definition sample : PackValue :=
  Struct 78 [Int (-17); List [String_ "Person"; Null]; Map [("age", Int 300); ("ok", Bool true)]].

Lemma packstream_roundtrip_witness : unpack (pack sample [] ++ [1; 2]) = Ok (sample, len_z (pack sample [])).
Proof. apply (packstream_roundtrip sample [1; 2]); [reflexivity|vm_compute; discriminate]. Defined.

Lemma packstream_decoded_witness : (height (Int 5) ≤ 129)%nat ∧ unpack (pack (Int 5) []) = Ok (Int 5, 1).
Proof.
  assert (Forall is_byte [200; 5]) as Hb by (repeat constructor; unfold is_byte; lia).
  destruct (packstream_decoded [200; 5] (Int 5) 2 Hb ltac:(reflexivity)) as (_ & Hh & _ & Hr).
  split; [exact Hh|apply Hr; vm_compute; discriminate].
Defined.
End Packstream.
