(* ===== verification/Framing.v ===== *)
(** * Bolt framing and handshake

    Models [crates/bolt/src/framing.rs] (chunked messages), the read loop's
    message splitting in [crates/bolt/src/connection.rs] ([keepalive_len], the
    parse loop of [serve_connection], [holds_reset]) and
    [crates/bolt/src/handshake.rs] (version negotiation). *)

From S2P Require Import Prelude Bytes.

Module Framing.

Definition MAX_CHUNK : Z := 65535.

Inductive FrameError := Incomplete.

(** [frame] *)
Definition frame (msg buf : list Z) : list Z :=
  foldl (λ buf chunk, (buf ++ be_bytes 2 (wrap_u 16 (len_z chunk))) ++ chunk) buf
    (chunks (length msg) (Z.to_nat MAX_CHUNK) msg)
  ++ [0; 0].

(** The loop of [deframe]; without fuel there is no answer. *)
Fixpoint deframe_loop (fuel : nat) (stream message : list Z) (pos : Z) : option (result FrameError (list Z * Z)) :=
  match fuel with
  | O => None
  | S fuel =>
      match slice_get stream pos 2 with
      | None => Some (Err Incomplete)
      | Some header =>
          let len := be_val header in
          let pos := pos + 2 in
          if len =? 0 then
            match message with
            | [] => deframe_loop fuel stream message pos
            | _ => Some (Ok (message, pos))
            end
          else
            match slice_get stream pos len with
            | None => Some (Err Incomplete)
            | Some body => deframe_loop fuel stream (message ++ body) (pos + len)
            end
      end
  end.

(** [deframe]; every turn of the loop moves on by two bytes or more, so the
    length of the stream is fuel enough ([deframe_total]). *)
Definition deframe (stream : list Z) : option (result FrameError (list Z * Z)) :=
  deframe_loop (S (length stream)) stream [] 0.

(** [Iterator::take_while(..).count()] *)
Fixpoint count_while {A} (p : A → bool) (l : list A) : nat :=
  match l with a :: l => if p a then S (count_while p l) else 0%nat | [] => 0%nat end.

(** [keepalive_len] *)
Definition keepalive_len (buf : list Z) : Z :=
  Z.of_nat (count_while (λ pair, (default 1 (pair !! 0%nat) =? 0) && (default 1 (pair !! 1%nat) =? 0))
              (chunks_exact (length buf) 2 buf)) * 2.

(** The parse loop of [serve_connection]: the payloads handed to
    [ClientMessage::decode], the cursor, and [oversized]. *)
Fixpoint parse_loop (fuel : nat) (cap : Z) (buf : list Z) (decoded : list (list Z)) (pos : Z) :
    option (list (list Z) * Z * bool) :=
  match fuel with
  | O => None
  | S fuel =>
      let pos := pos + keepalive_len (drop (Z.to_nat pos) buf) in
      r ← deframe (drop (Z.to_nat pos) buf);
      match r with
      | Ok (message, used) =>
          let pos := pos + used in
          if cap <? len_z message then Some (decoded, pos, true)
          else parse_loop fuel cap buf (decoded ++ [message]) pos
      | Err Incomplete => Some (decoded, pos, false)
      end
  end.

Definition parse (cap : Z) (buf : list Z) : option (list (list Z) * Z * bool) :=
  parse_loop (S (length buf)) cap buf [] 0.

Definition RESET_MESSAGE : list Z := [176; 15].

(** [holds_reset], with [*scanned] returned *)
Fixpoint holds_reset_loop (fuel : nat) (buf : list Z) (found : bool) (scanned : Z) : option (bool * Z) :=
  match fuel with
  | O => None
  | S fuel =>
      let from := scanned + keepalive_len (drop (Z.to_nat scanned) buf) in
      r ← deframe (drop (Z.to_nat from) buf);
      match r with
      | Ok (message, used) =>
          holds_reset_loop fuel buf (found || bool_decide (message = RESET_MESSAGE)) (from + used)
      | Err Incomplete => Some (found, from)
      end
  end.

Definition holds_reset (buf : list Z) (scanned : Z) : option (bool * Z) :=
  holds_reset_loop (S (length buf)) buf false scanned.

(** ** The loop of [deframe] *)

Lemma deframe_loop_mono f f' stream m pos r :
  (f ≤ f')%nat → deframe_loop f stream m pos = Some r → deframe_loop f' stream m pos = Some r.
Proof.
  revert f' m pos. induction f as [|f IH]; intros f' m pos Hf; [done|]. destruct f' as [|f']; [lia|].
  cbn [deframe_loop]. destruct (slice_get stream pos 2); [|done]. cbv zeta. case_match.
  - destruct m; [|done]. apply IH. lia.
  - case_match; [|done]. apply IH. lia.
Qed.

Lemma deframe_loop_det f f' stream m pos r r' :
  deframe_loop f stream m pos = Some r → deframe_loop f' stream m pos = Some r' → r = r'.
Proof.
  intros H1 H2. destruct (Nat.le_ge_cases f f') as [Hle|Hle].
  - apply (deframe_loop_mono _ f') in H1; [|done]. congruence.
  - apply (deframe_loop_mono _ f) in H2; [|done]. congruence.
Qed.

Lemma slice_get_bounds src pos n s : slice_get src pos n = Some s → 0 ≤ pos ∧ 0 ≤ n ∧ pos + n ≤ len_z src ∧ len_z s = n.
Proof. intros H. by destruct (slice_get_stable src [] pos n s H) as (_ & ? & ? & ? & ?). Qed.

(** Enough fuel answers, and the answer lies within the stream. *)
Lemma deframe_loop_total f stream m pos :
  0 ≤ pos ≤ len_z stream → len_z stream - pos < Z.of_nat f →
  ∃ r, deframe_loop f stream m pos = Some r ∧
       match r with Ok (_, used) => pos + 2 ≤ used ≤ len_z stream | Err _ => True end.
Proof.
  revert m pos. induction f as [|f IH]; intros m pos Hp Hf; [lia|]. cbn [deframe_loop].
  destruct (slice_get stream pos 2) as [h|] eqn:Eh; [|by eexists]. apply slice_get_bounds in Eh. cbv zeta.
  destruct (Z.eqb_spec (be_val h) 0).
  - destruct m; [|eexists; split; [done|simpl; lia]]. destruct (IH [] (pos + 2)) as (r & -> & Hr); [lia|lia|].
    exists r. split; [done|]. destruct r as [[]|]; [lia|done].
  - destruct (slice_get stream (pos + 2) (be_val h)) as [body|] eqn:Eb; [|by eexists]. apply slice_get_bounds in Eb.
    destruct (IH (m ++ body) (pos + 2 + be_val h)) as (r & -> & Hr); [lia|lia|].
    exists r. split; [done|]. destruct r as [[]|]; [lia|done].
Qed.

(** An answer does not depend on what follows it. *)
Lemma deframe_loop_stable f stream rest m pos x :
  deframe_loop f stream m pos = Some (Ok x) → deframe_loop f (stream ++ rest) m pos = Some (Ok x).
Proof.
  revert m pos. induction f as [|f IH]; intros m pos; [done|]. cbn [deframe_loop].
  destruct (slice_get stream pos 2) as [h|] eqn:Eh; [|done]. apply (slice_get_stable _ rest) in Eh as [-> _]. cbv zeta.
  case_match; [destruct m; [apply IH|done]|].
  destruct (slice_get stream (pos + 2) (be_val h)) as [b|] eqn:Eb; [|done].
  apply (slice_get_stable _ rest) in Eb as [-> _]. apply IH.
Qed.

Lemma deframe_total stream :
  ∃ r, deframe stream = Some r ∧ match r with Ok (_, used) => 2 ≤ used ≤ len_z stream | Err _ => True end.
Proof. unfold deframe. apply (deframe_loop_total _ stream [] 0); unfold len_z; lia. Qed.

Lemma deframe_stable stream rest x : deframe stream = Some (Ok x) → deframe (stream ++ rest) = Some (Ok x).
Proof.
  unfold deframe. intros H%(deframe_loop_stable _ _ rest). eapply deframe_loop_mono; [|exact H]. rewrite length_app. lia.
Qed.

Lemma deframe_run f stream r : deframe_loop f stream [] 0 = Some r → deframe stream = Some r.
Proof.
  intros H. destruct (deframe_total stream) as (r' & E & _). rewrite E. f_equal. by apply (deframe_loop_det _ _ _ _ _ _ _ E H).
Qed.

(** ** Steps over one chunk *)

Lemma slice_get_header pre n rest : slice_get (pre ++ be_bytes 2 n ++ rest) (len_z pre) 2 = Some (be_bytes 2 n).
Proof. exact (slice_get_mid pre (be_bytes 2 n) rest). Qed.

Lemma step_chunk f pre chunk rest m :
  (1 ≤ length chunk)%nat → len_z chunk ≤ MAX_CHUNK →
  deframe_loop (S f) (pre ++ (be_bytes 2 (len_z chunk) ++ chunk) ++ rest) m (len_z pre) =
  deframe_loop f (pre ++ (be_bytes 2 (len_z chunk) ++ chunk) ++ rest) (m ++ chunk) (len_z (pre ++ be_bytes 2 (len_z chunk) ++ chunk)).
Proof.
  unfold MAX_CHUNK. intros H1 H2. rewrite <-!app_assoc. cbn [deframe_loop]. rewrite slice_get_header. cbv zeta.
  rewrite be_val_bytes by (unfold len_z in *; lia). rewrite (proj2 (Z.eqb_neq _ _)) by (unfold len_z; lia).
  assert (len_z pre + 2 = len_z (pre ++ be_bytes 2 (len_z chunk))) as ->.
  { by rewrite len_z_app. }
  pose proof (slice_get_mid (pre ++ be_bytes 2 (len_z chunk)) chunk rest) as Hb. rewrite <-app_assoc in Hb. rewrite Hb.
  f_equal. by rewrite !len_z_app, !Z.add_assoc.
Qed.

Lemma slice_get_zeros pre rest : slice_get (pre ++ 0 :: 0 :: rest) (len_z pre) 2 = Some [0; 0].
Proof. exact (slice_get_mid pre [0; 0] rest). Qed.

Lemma step_noop f pre rest :
  deframe_loop (S f) (pre ++ 0 :: 0 :: rest) [] (len_z pre) = deframe_loop f (pre ++ 0 :: 0 :: rest) [] (len_z pre + 2).
Proof. cbn [deframe_loop]. by rewrite slice_get_zeros. Qed.

Lemma step_end f pre rest m :
  m ≠ [] → deframe_loop (S f) (pre ++ 0 :: 0 :: rest) m (len_z pre) = Some (Ok (m, len_z pre + 2)).
Proof. intros Hm. cbn [deframe_loop]. rewrite slice_get_zeros. by destruct m. Qed.

(** ** A frame *)

Definition chunk_bytes (chunk : list Z) : list Z := be_bytes 2 (len_z chunk) ++ chunk.
Definition small (chunk : list Z) : Prop := (1 ≤ length chunk)%nat ∧ len_z chunk ≤ MAX_CHUNK.

Lemma chunked_small cs : chunked (Z.to_nat MAX_CHUNK) cs → Forall small cs.
Proof. unfold small, MAX_CHUNK, len_z. induction 1; repeat constructor; try done; try lia. Qed.

Lemma frame_chunks msg :
  ∃ cs, Forall small cs ∧ concat cs = msg ∧ ∀ buf, frame msg buf = buf ++ (cs ≫= chunk_bytes) ++ [0; 0].
Proof.
  destruct (chunks_chunked (length msg) (Z.to_nat MAX_CHUNK) msg) as [Hc%chunked_small Hcat]; [unfold MAX_CHUNK; lia|lia|].
  exists (chunks (length msg) (Z.to_nat MAX_CHUNK) msg). split_and!; [done|done|]. intros buf. unfold frame. rewrite app_assoc.
  f_equal. clear Hcat. revert buf. induction Hc as [|c cs [H1 H2] Hc IH]; intros buf; [by rewrite app_nil_r|].
  cbn [foldl]. rewrite IH, bind_cons. unfold chunk_bytes at 2. unfold MAX_CHUNK, len_z in *.
  rewrite wrap_u_id by (unfold in_u; lia). by rewrite <-!app_assoc.
Qed.

Lemma run_chunks cs pre rest m :
  Forall small cs → m ++ concat cs ≠ [] →
  ∃ f, deframe_loop f (pre ++ (cs ≫= chunk_bytes) ++ 0 :: 0 :: rest) m (len_z pre)
       = Some (Ok (m ++ concat cs, len_z pre + len_z (cs ≫= chunk_bytes) + 2)).
Proof.
  intros Hs. revert pre m. induction Hs as [|c cs [H1 H2] Hs IH]; intros pre m Hne.
  { cbn [concat] in *. rewrite app_nil_r in *. exists 1%nat.
    pose proof (step_end 0 pre rest m Hne) as H. cbn [app mbind list_bind]. rewrite H. by rewrite Z.add_0_r. }
  destruct (IH (pre ++ chunk_bytes c) (m ++ c)) as [f Hf].
  { by rewrite <-app_assoc. }
  exists (S f). rewrite bind_cons. cbn [concat]. rewrite <-!app_assoc in *. unfold chunk_bytes at 1.
  rewrite step_chunk by done. fold (chunk_bytes c). rewrite Hf. do 3 f_equal. rewrite !len_z_app. lia.
Qed.

Lemma deframe_frame msg rest :
  msg ≠ [] → deframe (frame msg [] ++ rest) = Some (Ok (msg, len_z (frame msg []))).
Proof.
  intros Hne. destruct (frame_chunks msg) as (cs & Hs & <- & Hf). rewrite Hf. cbn [app]. rewrite <-app_assoc.
  destruct (run_chunks cs [] rest [] Hs Hne) as [f H]. cbn [app] in *. rewrite (deframe_run f _ _ H).
  by rewrite (len_z_app _ [0; 0]).
Qed.

(** A leading keep-alive only moves the answer. *)
Definition moved (by_ : Z) (r : result FrameError (list Z * Z)) : result FrameError (list Z * Z) :=
  match r with Ok (m, used) => Ok (m, by_ + used) | Err e => Err e end.

Lemma deframe_loop_shift f pre stream m pos :
  0 ≤ pos → deframe_loop f (pre ++ stream) m (len_z pre + pos) = moved (len_z pre) <$> deframe_loop f stream m pos.
Proof.
  assert (∀ p n, 0 ≤ p → slice_get (pre ++ stream) (len_z pre + p) n = slice_get stream p n) as Hsl.
  { intros p n Hp. unfold slice_get. rewrite len_z_app. pose proof (len_z_nonneg pre).
    rewrite (proj2 (Z.leb_le 0 (len_z pre + p))), (proj2 (Z.leb_le 0 p)) by lia. cbn [andb].
    destruct (0 <=? n); [|done]. cbn [andb].
    replace (len_z pre + p + n <=? len_z pre + len_z stream) with (p + n <=? len_z stream)
      by (apply eq_true_iff_eq; rewrite !Z.leb_le; lia).
    case_match; [|done]. f_equal. f_equal. rewrite Z2Nat.inj_add by lia. unfold len_z. rewrite Nat2Z.id.
    by rewrite <-drop_drop, drop_app_length. }
  revert m pos. induction f as [|f IH]; intros m pos Hp; [done|]. cbn [deframe_loop]. rewrite Hsl by done.
  destruct (slice_get stream pos 2) as [h|]; [|done]. cbv zeta. rewrite <-!Z.add_assoc. rewrite Hsl by lia.
  case_match; [destruct m; [apply IH; lia|done]|].
  destruct (slice_get stream (pos + 2) (be_val h)) as [b|] eqn:Eb; [|done]. apply slice_get_bounds in Eb.
  apply (IH (m ++ b)). lia.
Qed.

Lemma deframe_noop stream : deframe (0 :: 0 :: stream) = moved 2 <$> deframe stream.
Proof.
  destruct (deframe_total stream) as (r & E & _). rewrite E. cbn. apply (deframe_run (S (S (length stream)))).
  pose proof (step_noop (S (length stream)) [] stream) as H. change (len_z []) with 0 in H. cbn [app] in H. rewrite H.
  rewrite (deframe_loop_shift _ [0; 0] stream [] 0) by done. unfold deframe in E. by rewrite E.
Qed.

(** ** Keep-alives *)

Lemma keepalive_cons b0 b1 buf :
  keepalive_len (b0 :: b1 :: buf) = if (b0 =? 0) && (b1 =? 0) then 2 + keepalive_len buf else 0.
Proof.
  assert (∀ f f' l, (length l ≤ f)%nat → (length l ≤ f')%nat → chunks_exact f 2 l = chunks_exact f' 2 l) as Hf.
  { induction f as [|f IH]; intros [|f'] l Hl Hl'; destruct l as [|x l]; try done; try (simpl in *; lia).
    cbn [chunks_exact]. destruct (Nat.ltb_spec (length (x :: l)) 2); [done|]. f_equal.
    apply IH; rewrite length_drop; simpl in *; lia. }
  unfold keepalive_len. change (chunks_exact (length (b0 :: b1 :: buf)) 2 (b0 :: b1 :: buf))
    with ([b0; b1] :: chunks_exact (S (length buf)) 2 buf).
  rewrite (Hf (S (length buf)) (length buf)) by lia. cbn [count_while]. cbn [lookup list_lookup default from_option].
  destruct ((b0 =? 0) && (b1 =? 0)) eqn:E; cbn in E |- *; rewrite E; lia.
Qed.

Lemma keepalive_short buf : (length buf < 2)%nat → keepalive_len buf = 0.
Proof. by destruct buf as [|b0 [|b1 buf]]; simpl; intros; [| |lia]. Qed.

(** Two bytes at a time. *)
Lemma pairs_ind (P : list Z → Prop) :
  P [] → (∀ b, P [b]) → (∀ b0 b1 l, P l → P (b0 :: b1 :: l)) → ∀ l, P l.
Proof.
  intros H0 H1 H2 l. assert (P l ∧ ∀ b, P (b :: l)) as [? _]; [|done]. induction l as [|b l [IH1 IH2]]; auto.
Qed.

Lemma keepalive_range buf : 0 ≤ keepalive_len buf ≤ len_z buf.
Proof.
  induction buf as [|b|b0 b1 buf IH] using pairs_ind; [done|done|]. rewrite keepalive_cons. unfold len_z in *.
  cbn [length]. case_match; lia.
Qed.

Abbreviation skip buf := (drop (Z.to_nat (keepalive_len buf)) buf).

(** More bytes: the keep-alives of the front, then those of what is left. *)
Lemma keepalive_app buf rest : keepalive_len (buf ++ rest) = keepalive_len buf + keepalive_len (skip buf ++ rest).
Proof.
  induction buf as [|b|b0 b1 buf IH] using pairs_ind; [done|done|]. cbn [app]. rewrite !keepalive_cons.
  destruct ((b0 =? 0) && (b1 =? 0)) eqn:E; [|]. 2:{ simpl. by rewrite keepalive_cons, E. }
  rewrite IH. pose proof (keepalive_range buf).
  replace (Z.to_nat (2 + keepalive_len buf)) with (S (S (Z.to_nat (keepalive_len buf)))) by lia. cbn [drop]. lia.
Qed.

Lemma keepalive_skip buf : keepalive_len (skip buf) = 0.
Proof. pose proof (keepalive_app buf []) as H. rewrite !app_nil_r in H. lia. Qed.

Lemma drop_skip buf rest n : 0 ≤ n → drop (Z.to_nat (keepalive_len buf + n)) (buf ++ rest) = drop (Z.to_nat n) (skip buf ++ rest).
Proof.
  intros Hn. pose proof (keepalive_range buf) as Hk. rewrite Z2Nat.inj_add by lia. rewrite <-drop_drop. f_equal.
  apply drop_app_le. unfold len_z in Hk. lia.
Qed.

(** ** The parse loop *)

(** What the loop does from a message boundary: [used] bytes read, [ms] found. *)
Inductive parses (cap : Z) : list Z → list (list Z) → Z → bool → Prop :=
| parses_stop s : deframe (skip s) = Some (Err Incomplete) → parses cap s [] (keepalive_len s) false
| parses_over s m used :
    deframe (skip s) = Some (Ok (m, used)) → cap < len_z m → parses cap s [] (keepalive_len s + used) true
| parses_more s m used ms e o :
    deframe (skip s) = Some (Ok (m, used)) → len_z m ≤ cap →
    parses cap (drop (Z.to_nat (keepalive_len s + used)) s) ms e o →
    parses cap s (m :: ms) (keepalive_len s + used + e) o.

Lemma deframe_used s m used : deframe s = Some (Ok (m, used)) → 2 ≤ used ≤ len_z s.
Proof. intros H. destruct (deframe_total s) as (r & E & Hr). rewrite E in H. by simplify_eq. Qed.

Lemma len_z_drop {A} n (l : list A) : 0 ≤ n ≤ len_z l → len_z (drop (Z.to_nat n) l) = len_z l - n.
Proof. unfold len_z. intros H. rewrite length_drop. lia. Qed.

Lemma skip_len s : len_z (skip s) = len_z s - keepalive_len s.
Proof. apply len_z_drop, keepalive_range. Qed.

Lemma parses_range cap s ms e o : parses cap s ms e o → 0 ≤ e ≤ len_z s.
Proof.
  induction 1 as [s Hd|s m used Hd Hc|s m used ms e o Hd Hc Hp IH]; pose proof (keepalive_range s); [done|..];
    apply deframe_used in Hd; rewrite skip_len in Hd; [lia|]. rewrite len_z_drop in IH by lia. lia.
Qed.

(** The loop finds what the relation says, from any cursor. *)
Lemma parse_loop_parses cap f s pos decoded :
  0 ≤ pos ≤ len_z s → len_z s - pos < Z.of_nat f →
  ∃ ms e o, parses cap (drop (Z.to_nat pos) s) ms e o ∧ parse_loop f cap s decoded pos = Some (decoded ++ ms, pos + e, o).
Proof.
  revert pos decoded. induction f as [|f IH]; intros pos decoded Hp Hf; [lia|]. cbn [parse_loop]. cbv zeta.
  set (t := drop (Z.to_nat pos) s). pose proof (keepalive_range t) as Hk.
  assert (len_z t = len_z s - pos) as Ht by (by apply len_z_drop).
  assert (∀ n, 0 ≤ n → drop (Z.to_nat n) t = drop (Z.to_nat (pos + n)) s) as Hd.
  { intros n Hn. unfold t. rewrite drop_drop. f_equal. lia. }
  rewrite <-Hd by lia.
  destruct (deframe_total (skip t)) as (r & E & Hr). rewrite E. cbn [mbind option_bind].
  destruct r as [[m used]|[]].
  2:{ exists [], (keepalive_len t), false. rewrite app_nil_r. split; [by constructor|done]. }
  rewrite skip_len in Hr. destruct (Z.ltb_spec cap (len_z m)).
  { exists [], (keepalive_len t + used), true. rewrite app_nil_r. split; [by eapply parses_over|]. by rewrite Z.add_assoc. }
  destruct (IH (pos + keepalive_len t + used) (decoded ++ [m])) as (ms & e & o & Hps & ->); [lia|lia|].
  exists (m :: ms), (keepalive_len t + used + e), o. split.
  - eapply parses_more; [done|done|]. rewrite Hd by lia. by rewrite Z.add_assoc.
  - rewrite <-app_assoc. do 3 f_equal. lia.
Qed.

Lemma parses_det cap s ms e o ms' e' o' :
  parses cap s ms e o → parses cap s ms' e' o' → ms = ms' ∧ e = e' ∧ o = o'.
Proof.
  intros H. revert ms' e' o'. induction H as [s Hd|s m used Hd Hc|s m used ms e o Hd Hc Hp IH]; intros ms' e' o' H2;
    inversion H2; simplify_eq; try done; try lia; try (rewrite Hd in *; simplify_eq; lia).
  match goal with H : parses cap (drop _ s) _ _ _ |- _ => apply IH in H as (-> & -> & ->) end. done.
Qed.

Lemma parse_parses cap s ms e o : parse cap s = Some (ms, e, o) ↔ parses cap s ms e o.
Proof.
  destruct (parse_loop_parses cap (S (length s)) s 0 []) as (ms' & e' & o' & Hp & Hl); [unfold len_z; lia|unfold len_z; lia|].
  unfold parse. rewrite Hl. cbn [app Z.add] in *. split.
  - by intros [= <- <- <-].
  - intros H. destruct (parses_det _ _ _ _ _ _ _ _ H Hp) as (-> & -> & ->). done.
Qed.

(** A message behind its keep-alives. *)
Lemma deframe_skip s : deframe s = moved (keepalive_len s) <$> deframe (skip s).
Proof.
  assert (∀ t, moved 0 <$> deframe t = deframe t) as H0 by (intros t; by destruct (deframe t) as [[[]|]|]).
  induction s as [|b|b0 b1 s IH] using pairs_ind; [done|done|]. rewrite keepalive_cons.
  destruct ((b0 =? 0) && (b1 =? 0)) eqn:E; [|by rewrite H0].
  apply andb_prop in E as [->%Z.eqb_eq ->%Z.eqb_eq]. pose proof (keepalive_range s).
  replace (Z.to_nat (2 + keepalive_len s)) with (S (S (Z.to_nat (keepalive_len s)))) by lia. cbn [drop].
  rewrite deframe_noop, IH. destruct (deframe (skip s)) as [[[]|]|]; cbn; rewrite ?Z.add_assoc; done.
Qed.

Lemma skip_app s rest : skip (s ++ rest) = skip (skip s ++ rest).
Proof. rewrite keepalive_app. apply drop_skip, keepalive_range. Qed.

Lemma deframe_app s rest : deframe (s ++ rest) = moved (keepalive_len s) <$> deframe (skip s ++ rest).
Proof.
  rewrite (deframe_skip (s ++ rest)), (deframe_skip (skip s ++ rest)), skip_app, keepalive_app.
  destruct (deframe (skip (skip s ++ rest))) as [[[]|]|]; cbn; rewrite ?Z.add_assoc; done.
Qed.

Lemma parses_deframe cap s m used ms e o :
  deframe s = Some (Ok (m, used)) → len_z m ≤ cap → parses cap (drop (Z.to_nat used) s) ms e o →
  parses cap s (m :: ms) (used + e) o.
Proof.
  rewrite deframe_skip. destruct (deframe (skip s)) as [[[m' u']|]|] eqn:E; try done. cbn. intros [= -> <-].
  intros Hc Hp. by apply (parses_more cap s m u').
Qed.

Lemma parses_app cap s rest ms e ms' e' o :
  parses cap s ms e false → parses cap (drop (Z.to_nat e) s ++ rest) ms' e' o →
  parses cap (s ++ rest) (ms ++ ms') (e + e') o.
Proof.
  intros H. remember false as o0 eqn:Ho. revert ms' e' o. induction H as [s Hd|s m used Hd Hc|s m used ms e o0 Hd Hc Hp IH];
    intros ms' e' o H2; simplify_eq.
  - inversion H2; simplify_eq; cbn [app]; rewrite ?Z.add_assoc, <-keepalive_app.
    + constructor. by rewrite skip_app.
    + eapply parses_over; [by rewrite skip_app|done].
    + eapply parses_more; [by rewrite skip_app|done|].
      rewrite keepalive_app, <-Z.add_assoc, drop_skip; [done|]. pose proof (keepalive_range (skip s ++ rest)).
      match goal with H : deframe _ = Some (Ok (_, ?u)) |- 0 ≤ _ + ?u => apply deframe_used in H end. lia.
  - pose proof (deframe_used _ _ _ Hd) as Hu. rewrite skip_len in Hu. pose proof (keepalive_range s). pose proof (parses_range _ _ _ _ _ Hp).
    cbn [app]. rewrite <-Z.add_assoc. apply parses_deframe; [|done|].
    + rewrite deframe_app. by rewrite (deframe_stable _ rest _ Hd).
    + rewrite drop_app_le by (unfold len_z in Hu; lia). apply (IH eq_refl). rewrite drop_drop.
      replace (Z.to_nat (keepalive_len s + used) + Z.to_nat e)%nat with (Z.to_nat (keepalive_len s + used + e)) by lia. done.
Qed.

(** ** What a client sends *)

(** Keep-alives, then a message. *)
Definition sent (m : nat * list Z) : list Z := replicate (2 * m.1) 0 ++ frame m.2 [].

Lemma deframe_sent k msg rest :
  msg ≠ [] → deframe (sent (k, msg) ++ rest) = Some (Ok (msg, len_z (sent (k, msg)))).
Proof.
  intros Hne. unfold sent. cbn [fst snd]. induction k as [|k IH]; [by apply deframe_frame|].
  replace (2 * S k)%nat with (S (S (2 * k))) by lia. cbn [replicate app]. rewrite deframe_noop, IH.
  cbn [fmap option_fmap option_map moved]. unfold len_z. cbn [length]. do 3 f_equal. lia.
Qed.

Lemma parses_sent cap ms :
  Forall (λ m, m.2 ≠ [] ∧ len_z m.2 ≤ cap) ms → parses cap (ms ≫= sent) (snd <$> ms) (len_z (ms ≫= sent)) false.
Proof.
  induction 1 as [|[k msg] ms [Hne Hc] Hms IH]; [by apply (parses_stop cap [])|]. rewrite bind_cons. cbn [fmap list_fmap].
  rewrite len_z_app. apply parses_deframe; [by apply deframe_sent|done|].
  unfold len_z at 1. by rewrite Nat2Z.id, drop_app_length.
Qed.

Lemma holds_reset_parses cap f s pos found ms e :
  0 ≤ pos ≤ len_z s → len_z s - pos < Z.of_nat f → parses cap (drop (Z.to_nat pos) s) ms e false →
  holds_reset_loop f s found pos = Some (found || bool_decide (RESET_MESSAGE ∈ ms), pos + e).
Proof.
  revert pos found ms e. induction f as [|f IH]; intros pos found ms e Hp Hf; [lia|]. cbn [holds_reset_loop]. cbv zeta.
  set (t := drop (Z.to_nat pos) s). pose proof (keepalive_range t) as Hk.
  assert (len_z t = len_z s - pos) as Ht by (by apply len_z_drop).
  assert (∀ n, 0 ≤ n → drop (Z.to_nat n) t = drop (Z.to_nat (pos + n)) s) as Hd.
  { intros n Hn. unfold t. rewrite drop_drop. f_equal. lia. }
  rewrite <-Hd by lia. intros H. inversion H as [? E|? m used E Hc|? m used ms' e' o E Hc Hps]; simplify_eq; rewrite E;
    cbn [mbind option_bind].
  - rewrite bool_decide_eq_false_2 by apply not_elem_of_nil. by rewrite orb_false_r.
  - apply deframe_used in E. rewrite skip_len in E. rewrite Hd in Hps by lia. rewrite Z.add_assoc in Hps.
    rewrite (IH (pos + keepalive_len t + used) _ ms' e'); [|lia|lia|exact Hps]. rewrite <-orb_assoc. f_equal. f_equal; [|lia]. f_equal.
    apply eq_true_iff_eq. rewrite orb_true_iff, !bool_decide_eq_true, elem_of_cons. naive_solver.
Qed.

(** C36: a framed non-empty message is reassembled from its chunks wherever it
    lies, behind any number of keep-alives and in front of anything; cut short it
    is [Incomplete]; the empty message is framed as a keep-alive, which the reader
    skips; each chunk's length fits its two-byte header; the reader always
    returns. *)
Theorem framing_roundtrip (k : nat) (msg rest : list Z) :
  (∀ buf, frame msg buf = buf ++ frame msg []) ∧
  (∀ stream, deframe stream ≠ None) ∧
  (∃ cs, Forall small cs ∧ concat cs = msg ∧ frame msg [] = (cs ≫= chunk_bytes) ++ [0; 0]) ∧
  deframe (frame [] [] ++ rest) = moved 2 <$> deframe rest ∧
  (msg ≠ [] →
   deframe (sent (k, msg) ++ rest) = Some (Ok (msg, len_z (sent (k, msg)))) ∧
   ∀ cut, cut `prefix_of` sent (k, msg) → cut ≠ sent (k, msg) → deframe cut = Some (Err Incomplete)).
Proof.
  destruct (frame_chunks msg) as (cs & Hs & Hcat & Hf). split_and!.
  - intros buf. by rewrite Hf, (Hf []).
  - intros stream. destruct (deframe_total stream) as (r & -> & _). done.
  - exists cs. split_and!; [done|done|apply (Hf [])].
  - apply deframe_noop.
  - intros Hne. split; [by apply deframe_sent|]. intros cut [tail Htail] Hcut.
    destruct (deframe_total cut) as (r & E & Hr). rewrite E. destruct r as [[m used]|[]]; [exfalso|done].
    pose proof (deframe_stable _ tail _ E) as H. rewrite <-Htail in H.
    pose proof (deframe_sent k msg [] Hne) as H2. rewrite app_nil_r in H2. rewrite H in H2. simplify_eq.
    rewrite Htail, len_z_app in Hr. destruct tail; [by rewrite app_nil_r in Htail|]. unfold len_z in Hr. simpl in Hr. lia.
Qed.

(** How the network cuts the stream does not matter: the messages parsed
    from a buffer and then, after draining what was consumed, from what is left
    and the bytes that follow, are those parsed from all the bytes at once; and a
    stream of framed messages, with keep-alives between them, parses to exactly
    those messages; a [RESET] among them is what [holds_reset] reports. *)
Theorem stream_parsing (cap : Z) (buf rest : list Z) (ms : list (list Z)) (pos : Z) (msgs : list (nat * list Z)) :
  parse cap buf = Some (ms, pos, false) →
  Forall (λ m, m.2 ≠ [] ∧ len_z m.2 ≤ cap) msgs →
  (∃ ms' pos' o, parse cap (drop (Z.to_nat pos) buf ++ rest) = Some (ms', pos', o) ∧
                 parse cap (buf ++ rest) = Some (ms ++ ms', pos + pos', o)) ∧
  parse cap (msgs ≫= sent) = Some (snd <$> msgs, len_z (msgs ≫= sent), false) ∧
  holds_reset buf 0 = Some (bool_decide (RESET_MESSAGE ∈ ms), pos).
Proof.
  rewrite parse_parses. intros Hp Hm. split_and!.
  - destruct (parse_loop_parses cap (S (length (drop (Z.to_nat pos) buf ++ rest))) (drop (Z.to_nat pos) buf ++ rest) 0 [])
      as (ms' & e' & o & Hps & _); [unfold len_z; lia|unfold len_z; lia|].
    exists ms', e', o. rewrite !parse_parses. split; [exact Hps|]. by apply parses_app.
  - by apply parse_parses, parses_sent.
  - by apply (holds_reset_parses cap _ buf 0 false ms pos); [unfold len_z; lia|unfold len_z; lia|].
Qed.

Lemma stream_parsing_witness :
  ∃ ms' pos' o, parse 100 (drop 5 [0; 1; 9; 0; 0; 0; 2; 176] ++ [15; 0; 0]) = Some (ms', pos', o) ∧
                parse 100 ([0; 1; 9; 0; 0; 0; 2; 176] ++ [15; 0; 0]) = Some ([[9]] ++ ms', 5 + pos', o).
Proof.
  refine (proj1 (stream_parsing 100 [0; 1; 9; 0; 0; 0; 2; 176] [15; 0; 0] [[9]] 5 [(1%nat, [7])] _ _)).
  - reflexivity.
  - constructor; [split; [discriminate|vm_compute; discriminate]|constructor].
Defined.
End Framing.

Module Handshake.

Definition MAGIC : list Z := [96; 96; 176; 23].
Definition HANDSHAKE_LEN : Z := 20.
Definition MANIFEST_SLOT : Z := 511.
Definition SERVER_VERSIONS : list (Z * Z) := [(5, 0); (4, 4)].

Inductive HandshakeError := Incomplete | BadMagic.

(** [parse_request]; the request is long enough for every index. *)
Definition parse_request (bytes : list Z) : result HandshakeError (list Z) :=
  if len_z bytes <? HANDSHAKE_LEN then Err Incomplete
  else if negb (bool_decide (take 4 bytes = MAGIC)) then Err BadMagic
  else Ok ((λ index, be_val (take 4 (drop (4 + index * 4) bytes))) <$> seq 0 4).

(** The body of the loop of [negotiate], the inner loop's early return. *)
Definition accepts (slot : Z) (version : Z * Z) : bool :=
  let range := wrap_i 16 (Z.land (Z.shiftr slot 16) 255) in
  let minor := wrap_i 16 (Z.land (Z.shiftr slot 8) 255) in
  let major := wrap_u 8 (Z.land slot 255) in
  let '(server_major, server_minor) := version in
  (server_major =? major) && (server_minor <=? minor) && (minor - range <=? server_minor).

(** [negotiate] *)
Fixpoint negotiate (client_offer : list Z) : option (Z * Z) :=
  match client_offer with
  | [] => None
  | slot :: client_offer =>
      if (slot =? MANIFEST_SLOT) || (slot =? 0) then negotiate client_offer
      else match find (accepts slot) SERVER_VERSIONS with
           | Some v => Some v
           | None => negotiate client_offer
           end
  end.

(** [response] *)
Definition response (agreed : option (Z * Z)) : list Z :=
  match agreed with
  | Some (major, minor) => [0; 0; minor; major]
  | None => [0; 0; 0; 0]
  end.

(** The slot [[pad, range, minor, major]] of the protocol's description. *)
Definition slot_of (pad range minor major : Z) : Z := be_val [pad; range; minor; major].

(** A slot's version set, as the protocol words it. *)
Definition offers (pad range minor major : Z) (v : Z * Z) : Prop :=
  v.1 = major ∧ minor - range ≤ v.2 ≤ minor.

Definition live (slot : Z) : bool := negb ((slot =? MANIFEST_SLOT) || (slot =? 0)).

Lemma slot_fields pad range minor major :
  is_byte pad → is_byte range → is_byte minor → is_byte major →
  let slot := slot_of pad range minor major in
  Z.land (Z.shiftr slot 16) 255 = range ∧ Z.land (Z.shiftr slot 8) 255 = minor ∧ Z.land slot 255 = major.
Proof.
  unfold is_byte. intros H1 H2 H3 H4.
  assert (slot_of pad range minor major = pad * 16777216 + range * 65536 + minor * 256 + major) as ->.
  { unfold slot_of, be_val. change (reverse [pad; range; minor; major]) with [major; minor; range; pad]. cbn [le_val]. lia. }
  change 255 with (Z.ones 8). rewrite !Z.land_ones, !Z.shiftr_div_pow2 by lia.
  change (2 ^ 16) with 65536. change (2 ^ 8) with 256. split_and!; divlia.
Qed.

Lemma accepts_offers pad range minor major v :
  is_byte pad → is_byte range → is_byte minor → is_byte major →
  accepts (slot_of pad range minor major) v = true ↔ offers pad range minor major v.
Proof.
  intros H1 H2 H3 H4. unfold accepts, offers. cbv zeta.
  destruct (slot_fields pad range minor major H1 H2 H3 H4) as (-> & -> & ->). unfold is_byte in *.
  rewrite !wrap_i_id by (done || unfold in_i; lia). rewrite wrap_u_id by (unfold in_u; lia).
  destruct v as [ma mi]. cbn [fst snd]. rewrite !andb_true_iff, Z.eqb_eq, !Z.leb_le. tauto.
Qed.

Lemma find_none_iff {A} (p : A → bool) l : find p l = None ↔ ∀ x, x ∈ l → p x = false.
Proof.
  split; [intros H x Hx%list_elem_of_In; by apply (find_none _ _ H)|]. intros H. destruct (find p l) eqn:E; [|done].
  apply find_some in E as [Hin%list_elem_of_In E]. by rewrite H in E.
Qed.

Lemma parse_request_ok slots rest :
  length slots = 4%nat → Forall (in_u 32) slots → parse_request (MAGIC ++ (slots ≫= be_bytes 4) ++ rest) = Ok slots.
Proof.
  intros H4 Hs. destruct slots as [|a [|b [|c [|d [|]]]]]; try done. rewrite !Forall_cons in Hs.
  destruct Hs as (Ha & Hb & Hc & Hd & _). unfold in_u in *. unfold parse_request. rewrite (proj2 (Z.ltb_ge _ _)).
  2:{ unfold HANDSHAKE_LEN, len_z. rewrite !bind_cons, !length_app, !length_be_bytes. simpl. lia. }
  rewrite bool_decide_eq_true_2 by done. cbn [negb]. f_equal.
  trans (be_val <$> [be_bytes 4 a; be_bytes 4 b; be_bytes 4 c; be_bytes 4 d]); [done|].
  cbn [fmap list_fmap]. by rewrite !be_val_bytes.
Qed.

(** What the answer to an offer must be: a version of the server's, from the
    first live slot that accepts one. *)
Definition agreed (offer : list Z) (answer : option (Z * Z)) : Prop :=
  match answer with
  | Some v => v ∈ SERVER_VERSIONS ∧
      ∃ before slot after, offer = before ++ slot :: after ∧ live slot = true ∧ accepts slot v = true ∧
        ∀ s v', s ∈ before → live s = true → v' ∈ SERVER_VERSIONS → accepts s v' = false
  | None => ∀ s v', s ∈ offer → live s = true → v' ∈ SERVER_VERSIONS → accepts s v' = false
  end.

Lemma agreed_next slot offer answer :
  (∀ v, live slot = true → v ∈ SERVER_VERSIONS → accepts slot v = false) → agreed offer answer → agreed (slot :: offer) answer.
Proof.
  intros Hslot. unfold agreed. destruct answer as [w|].
  - intros (Hw & before & s & after & -> & Hl & Ha & Hbefore). split; [done|].
    exists (slot :: before), s, after. split_and!; [done|done|done|].
    intros s' v' [->|Hin]%elem_of_cons; [apply Hslot|by apply Hbefore].
  - intros IH s v' [->|Hin]%elem_of_cons; [apply Hslot|by apply IH].
Qed.

Lemma negotiate_agreed offer : agreed offer (negotiate offer).
Proof.
  induction offer as [|slot offer IH]; cbn [negotiate]; [intros s v' Hin; by apply not_elem_of_nil in Hin|].
  destruct ((slot =? MANIFEST_SLOT) || (slot =? 0)) eqn:E.
  { apply agreed_next; [|done]. unfold live. by rewrite E. }
  destruct (find (accepts slot) SERVER_VERSIONS) as [w|] eqn:Ef.
  - apply find_some in Ef as [Hin%list_elem_of_In Ha]. split; [done|]. exists [], slot, offer. split_and!; [done| |done|].
    + unfold live. by rewrite E.
    + intros s v' Hin'. by apply not_elem_of_nil in Hin'.
  - apply agreed_next; [|done]. intros v' _ Hin. by apply (proj1 (find_none_iff _ _) Ef).
Qed.

(** The handshake reads the four slots behind the magic, in order, and
    agrees on a version the server speaks that the first acceptable slot of the
    client offers (the slot's own range of minors), trying the slots in the
    client's order; it answers none only when no slot, the manifest indicator and
    the empty ones left out, offers a version of the server's.  A short request is
    incomplete. *)
Theorem handshake_negotiates (slots rest offer : list Z) (pad range minor major : Z) (v : Z * Z) :
  length slots = 4%nat → Forall (in_u 32) slots → Forall is_byte [pad; range; minor; major] →
  parse_request (MAGIC ++ (slots ≫= be_bytes 4) ++ rest) = Ok slots ∧
  (∀ bytes, len_z bytes < HANDSHAKE_LEN → parse_request bytes = Err Incomplete) ∧
  (accepts (slot_of pad range minor major) v = true ↔ offers pad range minor major v) ∧
  agreed offer (negotiate offer).
Proof.
  intros H4 Hs Hb. split_and!; [by apply parse_request_ok| | |apply negotiate_agreed].
  - intros bytes Hl. unfold parse_request. by rewrite (proj2 (Z.ltb_lt _ _)).
  - rewrite !Forall_cons in Hb. destruct Hb as (? & ? & ? & ? & _). by apply accepts_offers.
Qed.

Lemma handshake_negotiates_witness :
  parse_request (MAGIC ++ ([511; 526341; 132100; 3] ≫= be_bytes 4) ++ []) = Ok [511; 526341; 132100; 3]
  ∧ agreed [511; 526341; 132100; 3] (Some (5, 0)).
Proof.
  destruct (handshake_negotiates [511; 526341; 132100; 3] [] [511; 526341; 132100; 3] 0 8 8 5 (5, 0))
    as (Hp & _ & _ & Ha).
  - reflexivity.
  - repeat constructor; lia.
  - repeat constructor; unfold is_byte; lia.
  - split; [exact Hp|exact Ha].
Defined.
End Handshake.
