(* ===== verification/VisibleSet.v ===== *)
(** * Visibility masks

    Models [VisibleSet] of [crates/core-query/src/visible.rs]: the set of node
    ids a masked read may see, as a hash set or as a bitset, whichever the
    module's memory rule picks.  A word is a 64-bit [Z], an id a 32-bit one,
    [usize] is 64 bits wide. *)

From S2P Require Import Prelude Order.

Module VisibleSet.

Inductive t :=
| Sparse (set : gset Z)
| Dense (words : list Z) (len : Z).

(** [n.saturating_add(k)] and [n.saturating_mul(k)] on [usize] *)
Definition saturating_add (n k : Z) : Z := Z.min (n + k) u64_max.
Definition saturating_mul (n k : Z) : Z := Z.min (n * k) u64_max.

(** [(0..64).filter(|b| word >> b & 1 == 1)] *)
Definition word_bits (word : Z) : list Z := filter (λ b, Z.land (Z.shiftr word b) 1 = 1) (seqZ 0 64).

(** [bits]; the [u32] addition is a release build's. *)
Definition bits (words : list Z) : list Z :=
  concat (imap (λ w word, (λ b, wrap_u 32 (wrap_u 32 (Z.of_nat w * 64) + b)) <$> word_bits word) words).

(** [while words.last() == Some(&0) { words.pop() }] *)
Fixpoint pop_zeros (rev_words : list Z) : list Z :=
  match rev_words with
  | w :: ws => if w =? 0 then pop_zeros ws else rev_words
  | [] => []
  end.

(** [w.leading_zeros()] of a 64-bit word *)
Definition leading_zeros (w : Z) : Z := if w =? 0 then 64 else 63 - Z.log2 w.

(** [from_words] *)
Definition from_words (words : list Z) (len : Z) : t :=
  let words := reverse (pop_zeros (reverse words)) in
  match last words with
  | None => Sparse ∅
  | Some top =>
      let span := (Z.of_nat (length words) - 1) * 64 + (64 - leading_zeros top) in
      if span <=? saturating_mul len 64 then Dense words len else Sparse (list_to_set (bits words))
  end.

(** The loop of [from_ids]; the index panics out of range. *)
Definition set_bit (st : list Z * Z) (id : Z) : option (list Z * Z) :=
  let '(words, len) := st in
  let bit := Z.shiftl 1 (id mod 64) in
  word ← words !! Z.to_nat (id / 64);
  if Z.land word bit =? 0 then Some (<[Z.to_nat (id / 64) := Z.lor word bit]> words, len + 1)
  else Some (words, len).

(** [ids.iter().max()] *)
Definition max_id (ids : list Z) : option Z :=
  match ids with [] => None | id :: ids => Some (foldl Z.max id ids) end.

(** [n.div_ceil(64)] *)
Definition div_ceil64 (n : Z) : Z := (n + 63) / 64.

(** [VisibleSet::from_ids] *)
Definition from_ids (ids : list Z) : option t :=
  match max_id ids with
  | None => Some (Sparse ∅)
  | Some max =>
      let span := saturating_add max 1 in
      if saturating_mul (Z.of_nat (length ids)) 64 <? span then Some (Sparse (list_to_set ids))
      else
        '(words, len) ← foldl (λ st id, st ← st; set_bit st id)
                          (Some (replicate (Z.to_nat (div_ceil64 span)) 0, 0)) ids;
        Some (from_words words len)
  end.

(** [VisibleSet::contains] *)
Definition contains (self : t) (id : Z) : bool :=
  match self with
  | Sparse set => bool_decide (id ∈ set)
  | Dense words _ =>
      match words !! Z.to_nat (id / 64) with
      | Some w => Z.land (Z.shiftr w (id mod 64)) 1 =? 1
      | None => false
      end
  end.

(** [VisibleSet::len] *)
Definition len (self : t) : Z :=
  match self with Sparse set => Z.of_nat (size set) | Dense _ len => len end.

Definition is_empty (self : t) : bool := len self =? 0.

(** [VisibleSet::iter]; a hash set's order is not specified. *)
Definition iter (self : t) : list Z :=
  match self with Sparse set => elements set | Dense words _ => bits words end.

(** [w.count_ones()] *)
Definition count_ones (w : Z) : Z := Z.of_nat (length (word_bits w)).

(** [VisibleSet::intersect] *)
Definition intersect (self other : t) : option t :=
  match self, other with
  | Dense a _, Dense b _ =>
      let words := zip_with Z.land a b in
      let len := foldl Z.add 0 (count_ones <$> words) in
      Some (from_words words len)
  | _, _ =>
      let '(small, large) := if len self <=? len other then (self, other) else (other, self) in
      from_ids (filter (λ id, contains large id = true) (iter small))
  end.

(** ** Bits *)

Lemma land_1_testbit w k : 0 ≤ k → Z.land (Z.shiftr w k) 1 = 1 ↔ Z.testbit w k = true.
Proof.
  intros Hk. pose proof (Z.testbit_spec' w k Hk) as Hb. change 1 with (Z.ones 1) at 1. rewrite Z.land_ones by lia.
  change (2 ^ 1) with 2. rewrite Z.shiftr_div_pow2 by done. rewrite <-Hb. by destruct (Z.testbit w k).
Qed.

Lemma elem_of_word_bits w b : b ∈ word_bits w ↔ 0 ≤ b < 64 ∧ Z.testbit w b = true.
Proof.
  unfold word_bits. rewrite list_elem_of_filter, elem_of_seqZ. split.
  - intros [H1 H2]. rewrite land_1_testbit in H1 by lia. split; [lia|done].
  - intros [H1 H2]. rewrite land_1_testbit by lia. split; [done|lia].
Qed.

(** Words whose ids are 32-bit. *)
Definition small (words : list Z) : Prop := Z.of_nat (length words) * 64 ≤ 2 ^ 32.

(** The bit of an id. *)
Definition bit_at (words : list Z) (id : Z) : Prop :=
  ∃ w, words !! Z.to_nat (id / 64) = Some w ∧ Z.testbit w (id mod 64) = true.

Lemma block_id w b : Z.of_nat w * 64 + 64 ≤ 2 ^ 32 → 0 ≤ b < 64 →
  wrap_u 32 (wrap_u 32 (Z.of_nat w * 64) + b) = Z.of_nat w * 64 + b.
Proof. intros Hw Hb. rewrite !wrap_u_id; unfold in_u; [done|lia|]. rewrite wrap_u_id; unfold in_u; lia. Qed.

Lemma elem_of_bits words id : small words → id ∈ bits words ↔ 0 ≤ id ∧ bit_at words id.
Proof.
  unfold small. intros Hs. unfold bits. rewrite list_elem_of_In, in_concat. split.
  - intros (l & Hl%list_elem_of_In & Hid%list_elem_of_In). apply elem_of_lookup_imap in Hl as (w & word & -> & Hw).
    apply list_elem_of_fmap in Hid as (b & -> & [Hb Ht]%elem_of_word_bits). pose proof (lookup_lt_Some _ _ _ Hw).
    rewrite block_id by lia. split; [lia|]. exists word.
    replace ((Z.of_nat w * 64 + b) / 64) with (Z.of_nat w) by divlia.
    replace ((Z.of_nat w * 64 + b) mod 64) with b by divlia. by rewrite Nat2Z.id.
  - intros [Hpos (word & Hw & Ht)]. pose proof (lookup_lt_Some _ _ _ Hw) as Hlt.
    pose proof (Z.mod_pos_bound id 64 ltac:(lia)). pose proof (Z.div_pos id 64 Hpos ltac:(lia)).
    eexists. rewrite <-!list_elem_of_In. split.
    + apply elem_of_lookup_imap. by exists (Z.to_nat (id / 64)), word.
    + apply list_elem_of_fmap. exists (id mod 64). split; [|by apply elem_of_word_bits].
      rewrite block_id by lia. rewrite Z2Nat.id by done. divlia.
Qed.

Lemma bits_snoc words word :
  bits (words ++ [word]) =
  bits words ++ ((λ b, wrap_u 32 (wrap_u 32 (Z.of_nat (length words) * 64) + b)) <$> word_bits word).
Proof.
  unfold bits. rewrite imap_app, concat_app. f_equal. cbn [imap concat].
  by rewrite app_nil_r, Nat.add_0_r.
Qed.

Lemma sorted_seqZ_filter (P : Z → Prop) `{∀ x, Decision (P x)} n m : sorted (filter P (seqZ n m)).
Proof.
  apply sorted_filter. unfold seqZ. generalize 0%nat as s, (Z.to_nat m) as k. intros s k. revert s.
  induction k as [|k IH]; intros s; [constructor|]. cbn [seq fmap list_fmap]. apply sorted_cons. split; [apply IH|].
  intros y (i & -> & Hi%elem_of_seq)%list_elem_of_fmap. unfold klt, cmp, Z_ord. rewrite Z.compare_lt_iff. lia.
Qed.

Lemma sorted_bits words : small words → sorted (bits words).
Proof.
  unfold small. induction words as [|word words IH] using rev_ind; intros Hs; [constructor|].
  rewrite length_app in Hs. cbn [length] in Hs. rewrite bits_snoc. apply sorted_app.
  assert (∀ b, b ∈ word_bits word → wrap_u 32 (wrap_u 32 (Z.of_nat (length words) * 64) + b) = Z.of_nat (length words) * 64 + b) as Hb.
  { intros b [Hb _]%elem_of_word_bits. apply block_id; lia. }
  split_and!; [apply IH; lia| |].
  - assert (sorted (word_bits word)) as Hw by apply sorted_seqZ_filter. revert Hb Hw. generalize (word_bits word) as l.
    induction l as [|b l IHl]; intros Hb Hw; [constructor|]. apply sorted_cons in Hw as [Hw Hf]. cbn [fmap list_fmap].
    apply sorted_cons. split; [apply IHl; [intros; apply Hb; by right|done]|].
    intros y (b' & -> & Hb')%list_elem_of_fmap. rewrite !Hb by (by left || by right). specialize (Hf b' Hb').
    unfold klt, cmp, Z_ord in *. rewrite Z.compare_lt_iff in *. lia.
  - intros x y Hx (b & -> & Hy)%list_elem_of_fmap. rewrite Hb by done. apply elem_of_bits in Hx as [Hx (w & Hw%lookup_lt_Some & _)];
      [|unfold small; lia]. apply elem_of_word_bits in Hy as [Hy _].
    unfold klt, cmp, Z_ord. rewrite Z.compare_lt_iff. divlia.
Qed.

(** ** The set a bitset holds *)

Definition ids_of (words : list Z) : gset Z := list_to_set (bits words).

Lemma elem_of_ids_of words id : small words → id ∈ ids_of words ↔ 0 ≤ id ∧ bit_at words id.
Proof. intros Hs. unfold ids_of. rewrite elem_of_list_to_set. by apply elem_of_bits. Qed.

Lemma size_ids_of words : small words → size (ids_of words) = length (bits words).
Proof. intros Hs. unfold ids_of. apply size_list_to_set, sorted_NoDup, sorted_bits, Hs. Qed.

Lemma testbit_bit k n : 0 ≤ k → Z.testbit (Z.shiftl 1 k) n = (k =? n).
Proof. intros Hk. rewrite Z.shiftl_1_l. by apply Z.pow2_bits_eqb. Qed.

Lemma land_bit w k : 0 ≤ k → (Z.land w (Z.shiftl 1 k) =? 0) = negb (Z.testbit w k).
Proof.
  intros Hk. destruct (Z.testbit w k) eqn:E; simpl.
  - apply Z.eqb_neq. intros H. apply (f_equal (λ z, Z.testbit z k)) in H.
    by rewrite Z.land_spec, testbit_bit, Z.eqb_refl, E, Z.bits_0 in H.
  - apply Z.eqb_eq, Z.bits_inj'. intros n Hn. rewrite Z.land_spec, testbit_bit, Z.bits_0 by done.
    destruct (Z.eqb_spec k n) as [->|]; [by rewrite E|by rewrite andb_false_r].
Qed.

Lemma in_u_bits w : 0 ≤ w → in_u 64 w ↔ ∀ l, 64 ≤ l → Z.testbit w l = false.
Proof. intros Hw. unfold in_u. rewrite <-Z.bounded_iff_bits_nonneg by lia. lia. Qed.

Lemma in_u_lor a k : in_u 64 a → 0 ≤ k < 64 → in_u 64 (Z.lor a (Z.shiftl 1 k)).
Proof.
  intros Ha Hk. assert (0 ≤ a) by apply Ha. assert (0 ≤ Z.shiftl 1 k) by (apply Z.shiftl_nonneg; lia).
  apply in_u_bits; [by apply Z.lor_nonneg|]. intros l Hl. rewrite Z.lor_spec, testbit_bit by lia.
  rewrite (proj1 (in_u_bits a ltac:(done)) Ha) by done. by rewrite (proj2 (Z.eqb_neq _ _)) by lia.
Qed.

Lemma bit_at_insert words id w x :
  0 ≤ id → 0 ≤ x → words !! Z.to_nat (id / 64) = Some w →
  bit_at (<[Z.to_nat (id / 64) := Z.lor w (Z.shiftl 1 (id mod 64))]> words) x ↔ x = id ∨ bit_at words x.
Proof.
  intros Hid Hx Hw. pose proof (Z.mod_pos_bound id 64 ltac:(lia)). pose proof (Z.mod_pos_bound x 64 ltac:(lia)).
  pose proof (Z.div_pos id 64 Hid ltac:(lia)). pose proof (Z.div_pos x 64 Hx ltac:(lia)). unfold bit_at.
  destruct (decide (Z.to_nat (id / 64) = Z.to_nat (x / 64))) as [E|E].
  - rewrite <-E, list_lookup_insert_eq by (by eapply lookup_lt_Some). rewrite Hw. split.
    + intros (w' & [= <-] & Ht). rewrite Z.lor_spec, testbit_bit in Ht by lia. apply orb_prop in Ht as [Ht|Ht%Z.eqb_eq]; [by right; exists w|].
      left. assert (id / 64 = x / 64) by lia. divlia.
    + intros H'. eexists. split; [done|]. rewrite Z.lor_spec, testbit_bit by lia. apply orb_true_iff.
      destruct H' as [->|(w' & [= <-] & Ht)]; [right; apply Z.eqb_refl|by left].
  - rewrite list_lookup_insert_ne by done. split; [by right|]. intros [->|?]; done.
Qed.

(** A bitset under construction: [len] counts its members. *)
Record filled (n : nat) (st : list Z * Z) (S : gset Z) : Prop := {
  filled_length : length st.1 = n;
  filled_words : Forall (in_u 64) st.1;
  filled_ids : ids_of st.1 = S;
  filled_len : st.2 = Z.of_nat (size S);
}.

Lemma set_bit_filled n st S id :
  Z.of_nat n * 64 ≤ 2 ^ 32 → 0 ≤ id → id / 64 < Z.of_nat n → filled n st S →
  ∃ st', set_bit st id = Some st' ∧ filled n st' ({[id]} ∪ S).
Proof.
  intros Hn Hid Hlt [Hl Hw Hi Hc]. destruct st as [words len]. cbn [fst snd] in *. unfold set_bit.
  pose proof (Z.mod_pos_bound id 64 ltac:(lia)). pose proof (Z.div_pos id 64 Hid ltac:(lia)).
  destruct (lookup_lt_is_Some_2 words (Z.to_nat (id / 64))) as [w Hlook]; [lia|]. rewrite Hlook. cbn [mbind option_bind].
  assert (small words) as Hs by (unfold small; lia). rewrite land_bit by lia.
  assert (id ∈ S ↔ Z.testbit w (id mod 64) = true) as Hin.
  { rewrite <-Hi, elem_of_ids_of by done. unfold bit_at. rewrite Hlook. naive_solver. }
  destruct (Z.testbit w (id mod 64)) eqn:E; simpl.
  - exists (words, len). split; [done|]. replace ({[id]} ∪ S) with S; [done|]. apply set_eq. intros x.
    rewrite elem_of_union, elem_of_singleton. naive_solver.
  - eexists. split; [done|]. assert (id ∉ S) as Hnin by (intros ?%Hin; done). split; cbn [fst snd].
    + by rewrite length_insert.
    + apply Forall_insert; [done|]. apply in_u_lor; [|lia]. by apply (Forall_lookup_1 _ _ _ _ Hw Hlook).
    + apply set_eq. intros x. rewrite elem_of_union, elem_of_singleton, <-Hi, !elem_of_ids_of
        by (unfold small; rewrite ?length_insert; lia).
      split; [intros [Hx H']; apply bit_at_insert in H' as [?|?]; auto|]. intros [->|[Hx ?]]; (split; [done|]); apply bit_at_insert; auto.
    + rewrite size_union, size_singleton by set_solver. lia.
Qed.

Lemma set_bits_filled n ids st S :
  Z.of_nat n * 64 ≤ 2 ^ 32 → Forall (λ id, 0 ≤ id ∧ id / 64 < Z.of_nat n) ids → filled n st S →
  ∃ st', foldl (λ st id, st ← st; set_bit st id) (Some st) ids = Some st' ∧ filled n st' (list_to_set ids ∪ S).
Proof.
  intros Hn Hids. revert st S. induction Hids as [|id ids [H1 H2] Hids IH]; intros st S Hf.
  { exists st. split; [done|]. by rewrite list_to_set_nil, (left_id_L ∅ (∪)). }
  destruct (set_bit_filled n st S id Hn H1 H2 Hf) as (st1 & E & Hf1). cbn [foldl mbind option_bind]. rewrite E.
  destruct (IH st1 _ Hf1) as (st2 & E2 & Hf2). exists st2. split; [done|]. rewrite list_to_set_cons.
  replace ({[id]} ∪ list_to_set ids ∪ S) with (list_to_set ids ∪ ({[id]} ∪ S)) by set_solver. done.
Qed.

(** ** Wrapping a bitset *)

(** The module's rule: a bitset exactly when it is no larger than the set. *)
Definition rule (S : gset Z) : Prop :=
  ∃ M, M ∈ S ∧ (∀ x, x ∈ S → x ≤ M) ∧ M + 1 ≤ Z.of_nat (size S) * 64.

(** [v] is [S], in the shape the rule picks. *)
Definition wf (v : t) (S : gset Z) : Prop :=
  (∀ x, x ∈ S → in_u 32 x) ∧
  match v with
  | Sparse set => set = S ∧ ¬ rule S
  | Dense words len => small words ∧ Forall (in_u 64) words ∧ ids_of words = S ∧ len = Z.of_nat (size S) ∧ rule S
  end.

Lemma pop_zeros_spec rev_words :
  ∃ k, rev_words = replicate k 0 ++ pop_zeros rev_words ∧ (∀ w ws, pop_zeros rev_words = w :: ws → w ≠ 0).
Proof.
  induction rev_words as [|w ws (k & IH & Hh)]; [by exists 0%nat|]. cbn [pop_zeros]. destruct (Z.eqb_spec w 0) as [->|Hw].
  - exists (S k). cbn [replicate app]. by rewrite <-IH.
  - exists 0%nat. split; [done|]. by intros ? ? [= <- <-].
Qed.

Lemma bits_zeros words k : bits (words ++ replicate k 0) = bits words.
Proof.
  induction k as [|k IH]; [by rewrite app_nil_r|]. rewrite replicate_S_end, app_assoc, bits_snoc, IH.
  change (word_bits 0) with (@nil Z). by rewrite app_nil_r.
Qed.

(** The highest bit. *)
Lemma ids_of_max words top :
  small (words ++ [top]) → in_u 64 top → top ≠ 0 →
  let M := Z.of_nat (length words) * 64 + Z.log2 top in
  M ∈ ids_of (words ++ [top]) ∧ ∀ x, x ∈ ids_of (words ++ [top]) → x ≤ M.
Proof.
  intros Hs [H0 H64] Hne M. assert (0 ≤ Z.log2 top < 64) as Hlog by (split; [apply Z.log2_nonneg|apply Z.log2_lt_pow2; lia]).
  assert ((words ++ [top]) !! length words = Some top) as Hlast by (by rewrite lookup_app_r, Nat.sub_diag by lia).
  split.
  - apply elem_of_ids_of; [done|]. split; [unfold M; lia|]. exists top. unfold M.
    replace ((Z.of_nat (length words) * 64 + Z.log2 top) / 64) with (Z.of_nat (length words)) by divlia.
    replace ((Z.of_nat (length words) * 64 + Z.log2 top) mod 64) with (Z.log2 top) by divlia.
    rewrite Nat2Z.id. split; [done|]. apply Z.bit_log2. lia.
  - intros x [Hx (w & Hw & Ht)]%elem_of_ids_of; [|done]. pose proof (Z.div_pos x 64 Hx ltac:(lia)).
    pose proof (Z.mod_pos_bound x 64 ltac:(lia)). pose proof (lookup_lt_Some _ _ _ Hw) as Hlt. rewrite length_app in Hlt. cbn [length] in Hlt.
    destruct (decide (Z.to_nat (x / 64) = length words)) as [E|E]; [|unfold M; divlia].
    rewrite E, Hlast in Hw. injection Hw as <-. assert (x mod 64 ≤ Z.log2 top); [|unfold M; divlia].
    destruct (Z.le_gt_cases (x mod 64) (Z.log2 top)) as [|Hgt]; [done|]. rewrite Z.bits_above_log2 in Ht; done.
Qed.

Lemma rule_max S M : M ∈ S → (∀ x, x ∈ S → x ≤ M) → rule S ↔ M + 1 ≤ Z.of_nat (size S) * 64.
Proof.
  intros Hin Hmax. split; [|by exists M]. intros (M' & Hin' & Hmax' & Hle). specialize (Hmax _ Hin'). specialize (Hmax' _ Hin). lia.
Qed.

Lemma saturating_mul_le n k : n ≤ u64_max → n ≤ saturating_mul k 64 ↔ n ≤ k * 64.
Proof. unfold saturating_mul. lia. Qed.

Lemma saturating_mul_lt k m : m ≤ u64_max → saturating_mul k 64 < m → k * 64 < m.
Proof. unfold saturating_mul. lia. Qed.

Lemma from_words_wf words len S :
  small words → Forall (in_u 64) words → ids_of words = S → len = Z.of_nat (size S) → wf (from_words words len) S.
Proof.
  intros Hs Hw Hi Hl. destruct (pop_zeros_spec (reverse words)) as (k & Hk & Hhead).
  assert (words = reverse (pop_zeros (reverse words)) ++ replicate k 0) as Hwords.
  { rewrite <-(reverse_involutive words) at 1. rewrite Hk at 1. by rewrite reverse_app, reverse_replicate. }
  unfold from_words. cbv zeta. set (ws := reverse (pop_zeros (reverse words))) in *.
  assert (ids_of ws = S) as Hi' by (rewrite <-Hi, Hwords; unfold ids_of; by rewrite bits_zeros).
  assert (small ws ∧ Forall (in_u 64) ws) as [Hs' Hw'].
  { unfold small in *. rewrite Hwords in Hs, Hw. rewrite length_app in Hs. apply Forall_app in Hw. split; [lia|tauto]. }
  assert (∀ x, x ∈ S → in_u 32 x) as H32.
  { rewrite <-Hi'. intros x [Hx (w & Hlt%lookup_lt_Some & _)]%elem_of_ids_of; [|done]. unfold small, in_u in *. divlia. }
  split; [done|]. destruct (last ws) as [top|] eqn:Elast.
  - apply last_Some in Elast as [ws0 Ews]. assert (top ≠ 0) as Hne.
    { apply (Hhead top (reverse ws0)). apply (inj reverse). fold ws. by rewrite Ews, reverse_cons, reverse_involutive. }
    rewrite Ews in *. pose proof Hw' as [_ Hu%Forall_inv]%Forall_app.
    destruct (ids_of_max ws0 top Hs' Hu Hne) as [Hin Hmax]. rewrite Hi' in Hin, Hmax. pose proof (rule_max S _ Hin Hmax) as Hr.
    pose proof (H32 _ Hin) as H1. unfold in_u in H1. unfold leading_zeros. rewrite (proj2 (Z.eqb_neq _ _)) by done.
    rewrite length_app. cbn [length].
    replace ((Z.of_nat (length ws0 + 1) - 1) * 64 + (64 - (63 - Z.log2 top)))
      with (Z.of_nat (length ws0) * 64 + Z.log2 top + 1) by lia.
    destruct (Z.leb_spec (Z.of_nat (length ws0) * 64 + Z.log2 top + 1) (saturating_mul len 64)) as [Hle|Hgt].
    + rewrite saturating_mul_le in Hle by (unfold u64_max; lia). split_and!; try done. apply Hr. lia.
    + split; [by rewrite <-Hi'|]. rewrite Hr. intros Hle.
      assert (Z.of_nat (length ws0) * 64 + Z.log2 top + 1 ≤ saturating_mul len 64); [|lia].
      rewrite saturating_mul_le by (unfold u64_max; lia). lia.
  - apply last_None in Elast. rewrite Elast in Hi'. subst S. rewrite <-Hi'. split; [done|]. intros (M & Hin & _). done.
Qed.

(** ** Construction, reads and intersection *)

Lemma max_id_spec ids M : max_id ids = Some M → M ∈ ids ∧ ∀ x, x ∈ ids → x ≤ M.
Proof.
  destruct ids as [|a ids]; [done|]. cbn [max_id]. intros [= <-]. revert a. induction ids as [|b ids IH]; intros a; cbn [foldl].
  { split; [by left|]. intros x [->|Hx%not_elem_of_nil]%elem_of_cons; done. }
  destruct (IH (Z.max a b)) as [Hin Hmax]. split.
  - apply elem_of_cons in Hin as [->|Hin]; [|by right; right]. destruct (Z.max_spec a b) as [[_ ->]|[_ ->]]; [by right; left|by left].
  - intros x Hx. rewrite !elem_of_cons in Hx. pose proof (Hmax (Z.max a b) ltac:(by left)).
    destruct Hx as [->|[->|Hx]]; [lia|lia|]. apply Hmax. by right.
Qed.

Lemma size_list_le (ids : list Z) : (size (list_to_set ids : gset Z) ≤ length ids)%nat.
Proof.
  induction ids as [|a ids IH]; [done|]. rewrite list_to_set_cons. cbn [length].
  destruct (decide (a ∈@{gset Z} list_to_set ids)) as [Hin|Hin].
  - replace ({[a]} ∪ list_to_set ids : gset Z) with (list_to_set ids : gset Z) by set_solver. lia.
  - rewrite size_union, size_singleton by set_solver. lia.
Qed.

(** The bitset built from ids below [n] words. *)
Lemma set_bits_wf n ids :
  Z.of_nat n * 64 ≤ 2 ^ 32 → Forall (λ id, 0 ≤ id ∧ id / 64 < Z.of_nat n) ids →
  ∃ words len, foldl (λ st id, st ← st; set_bit st id) (Some (replicate n 0, 0)) ids = Some (words, len)
               ∧ wf (from_words words len) (list_to_set ids).
Proof.
  intros Hn Hids. destruct (set_bits_filled n ids (replicate n 0, 0) ∅ Hn Hids) as ([words len] & E & [Hl Hw Hi Hc]).
  - split; cbn [fst snd]; [by rewrite length_replicate|by apply Forall_replicate| |by rewrite size_empty].
    unfold ids_of. pose proof (bits_zeros [] n) as Hz. cbn [app] in Hz. by rewrite Hz.
  - exists words, len. split; [exact E|]. cbn [fst snd] in *. rewrite (right_id_L ∅ (∪)) in Hi, Hc.
    apply from_words_wf; [|exact Hw|exact Hi|exact Hc]. unfold small. by rewrite Hl.
Qed.

Lemma from_ids_wf ids : Forall (in_u 32) ids → ∃ v, from_ids ids = Some v ∧ wf v (list_to_set ids).
Proof.
  intros H32. assert (∀ x, x ∈ (list_to_set ids : gset Z) → in_u 32 x) as HS.
  { intros x Hx%elem_of_list_to_set. rewrite Forall_forall in H32. by apply H32. }
  unfold from_ids. destruct (max_id ids) as [M|] eqn:EM.
  2:{ destruct ids; [|done]. eexists. split; [done|]. split; [done|]. split; [done|]. intros (M & Hin & _). done. }
  apply max_id_spec in EM as [Hin Hmax]. assert (in_u 32 M) as HM by (apply HS; by apply elem_of_list_to_set). unfold in_u in HM.
  cbv zeta. assert (saturating_add M 1 = M + 1) as -> by (unfold saturating_add, u64_max; lia).
  destruct (Z.ltb_spec (saturating_mul (Z.of_nat (length ids)) 64) (M + 1)) as [Hlt|Hge].
  - exists (Sparse (list_to_set ids)). split; [reflexivity|]. split; [exact HS|]. split; [reflexivity|].
    intros (M' & Hin'%elem_of_list_to_set & Hmax' & Hle). specialize (Hmax' M ltac:(by apply elem_of_list_to_set)).
    apply saturating_mul_lt in Hlt; [|unfold u64_max; lia]. pose proof (size_list_le ids). lia.
  - unfold div_ceil64. pose proof (Z.div_pos (M + 1 + 63) 64 ltac:(lia) ltac:(lia)) as Hdiv.
    generalize (Z2Nat.id _ Hdiv). generalize (Z.to_nat ((M + 1 + 63) / 64)) as n. intros n Hn.
    destruct (set_bits_wf n ids) as (words & len & E & Hwf).
    + rewrite Hn. divlia.
    + rewrite Forall_forall in H32 |- *. intros x Hx. rewrite Hn. specialize (H32 x Hx). specialize (Hmax x Hx).
      unfold in_u in H32. split; [lia|divlia].
    + rewrite E. exists (from_words words len). split; [reflexivity|exact Hwf].
Qed.

Lemma contains_wf v S id : wf v S → in_u 32 id → contains v id = bool_decide (id ∈ S).
Proof.
  intros [_ H] Hid. unfold in_u in Hid. destruct v as [set|words l]; [by destruct H as [-> _]|].
  destruct H as (Hs & _ & <- & _). cbn [contains]. apply eq_true_iff_eq.
  rewrite bool_decide_eq_true, elem_of_ids_of by done. pose proof (Z.mod_pos_bound id 64 ltac:(lia)). unfold bit_at.
  destruct (words !! Z.to_nat (id / 64)) as [w|]; [|naive_solver].
  pose proof (land_1_testbit w (id mod 64) ltac:(lia)) as Hb. rewrite Z.eqb_eq. naive_solver lia.
Qed.

Lemma len_wf v S : wf v S → len v = Z.of_nat (size S).
Proof. intros [_ H]. destruct v; [by destruct H as [-> _]|]. by destruct H as (_ & _ & _ & -> & _). Qed.

Lemma iter_wf v S : wf v S → NoDup (iter v) ∧ ∀ x, x ∈ iter v ↔ x ∈ S.
Proof.
  intros [_ H]. destruct v as [set|words l]; cbn [iter].
  - destruct H as [-> _]. split; [apply NoDup_elements|]. intros x. apply elem_of_elements.
  - destruct H as (Hs & _ & <- & _). split; [by apply sorted_NoDup, sorted_bits|]. intros x. unfold ids_of. by rewrite elem_of_list_to_set.
Qed.

Lemma bits_zip a b : small a → small b →
  ids_of (zip_with Z.land a b) = ids_of a ∩ ids_of b.
Proof.
  intros Ha Hb. assert (small (zip_with Z.land a b)) as Hab by (unfold small in *; rewrite length_zip_with; lia).
  apply set_eq. intros x. rewrite elem_of_intersection, !elem_of_ids_of by done. unfold bit_at. split.
  - intros [Hx (w & (wa & wb & -> & H1 & H2)%lookup_zip_with_Some & Ht)]. rewrite Z.land_spec in Ht. apply andb_prop in Ht as [? ?].
    naive_solver.
  - intros [[Hx (wa & H1 & T1)] [_ (wb & H2 & T2)]]. split; [done|]. exists (Z.land wa wb).
    rewrite lookup_zip_with, H1, H2. split; [done|]. by rewrite Z.land_spec, T1, T2.
Qed.

Lemma sum_count_ones words : foldl Z.add 0 (count_ones <$> words) = Z.of_nat (length (bits words)).
Proof.
  induction words as [|w words IH] using rev_ind; [done|]. rewrite fmap_app, foldl_app, IH, bits_snoc, length_app, length_fmap.
  cbn [fmap list_fmap foldl]. unfold count_ones. lia.
Qed.

Lemma in_u_land a b : in_u 64 a → in_u 64 b → in_u 64 (Z.land a b).
Proof.
  intros Ha Hb. assert (0 ≤ a) by apply Ha. assert (0 ≤ b) by apply Hb. apply in_u_bits; [apply Z.land_nonneg; by left|].
  intros l Hl. by rewrite Z.land_spec, (proj1 (in_u_bits a ltac:(done)) Ha).
Qed.

Lemma intersect_dense a la b lb S1 S2 :
  wf (Dense a la) S1 → wf (Dense b lb) S2 → ∃ v, intersect (Dense a la) (Dense b lb) = Some v ∧ wf v (S1 ∩ S2).
Proof.
  intros (_ & Ha & Hua & <- & _) (_ & Hb & Hub & <- & _). eexists. split; [reflexivity|].
  assert (small (zip_with Z.land a b)) as Hab by (unfold small in *; rewrite length_zip_with; lia).
  rewrite <-bits_zip by done. apply from_words_wf; [done| |done|].
  - apply Forall_lookup. intros i w (wa & wb & -> & H1 & H2)%lookup_zip_with_Some.
    apply in_u_land; [by apply (Forall_lookup_1 _ _ _ _ Hua H1)|by apply (Forall_lookup_1 _ _ _ _ Hub H2)].
  - rewrite sum_count_ones. by rewrite size_ids_of.
Qed.

Lemma intersect_probe small large S1 S2 :
  wf small S1 → wf large S2 → ∃ v, from_ids (filter (λ id, contains large id = true) (iter small)) = Some v ∧ wf v (S1 ∩ S2).
Proof.
  intros H1 H2. destruct (iter_wf small S1 H1) as [Hnd Hit].
  destruct (from_ids_wf (filter (λ id, contains large id = true) (iter small))) as (v & E & Hv).
  - rewrite Forall_forall. intros x [_ Hx%Hit]%list_elem_of_filter. by apply (proj1 H1).
  - exists v. split; [exact E|]. replace (S1 ∩ S2) with (list_to_set (filter (λ id, contains large id = true) (iter small)) : gset Z); [exact Hv|].
    apply set_eq. intros x. rewrite elem_of_list_to_set, list_elem_of_filter, elem_of_intersection, Hit. split.
    + intros [Hc Hx]. rewrite (contains_wf large S2) in Hc by (done || by apply (proj1 H1)). by apply bool_decide_eq_true in Hc.
    + intros [Hx Hy]. rewrite (contains_wf large S2) by (done || by apply (proj1 H1)). split; [by apply bool_decide_eq_true|done].
Qed.

Lemma intersect_wf v1 v2 S1 S2 : wf v1 S1 → wf v2 S2 → ∃ v, intersect v1 v2 = Some v ∧ wf v (S1 ∩ S2).
Proof.
  intros H1 H2. assert (∃ v, (let '(small, large) := if len v1 <=? len v2 then (v1, v2) else (v2, v1) in
      from_ids (filter (λ id, contains large id = true) (iter small))) = Some v ∧ wf v (S1 ∩ S2)) as Hp.
  { destruct (len v1 <=? len v2); [by apply intersect_probe|]. rewrite (comm_L (∩)). by apply intersect_probe. }
  destruct v1 as [s1|a la], v2 as [s2|b lb]; [exact Hp|exact Hp|exact Hp|]. by apply intersect_dense.
Qed.

(** ** Masks as they are built *)

(** A mask: a role's ids, or a scope narrowed by another. *)
Inductive mask := Ids (ids : list Z) | And (m1 m2 : mask).

Fixpoint build (m : mask) : option t :=
  match m with
  | Ids ids => from_ids ids
  | And m1 m2 => v1 ← build m1; v2 ← build m2; intersect v1 v2
  end.

Fixpoint meaning (m : mask) : gset Z :=
  match m with Ids ids => list_to_set ids | And m1 m2 => meaning m1 ∩ meaning m2 end.

Fixpoint u32_ids (m : mask) : Prop :=
  match m with Ids ids => Forall (in_u 32) ids | And m1 m2 => u32_ids m1 ∧ u32_ids m2 end.

Lemma build_wf m : u32_ids m → ∃ v, build m = Some v ∧ wf v (meaning m).
Proof.
  induction m as [ids|m1 IH1 m2 IH2]; cbn [u32_ids build meaning]; [apply from_ids_wf|]. intros [H1 H2].
  destruct (IH1 H1) as (v1 & -> & W1). destruct (IH2 H2) as (v2 & -> & W2). cbn [mbind option_bind]. by apply intersect_wf.
Qed.

Definition is_dense (v : t) : bool := match v with Dense _ _ => true | Sparse _ => false end.

(** C25: a visibility mask is the set it was built from, whichever shape it
    takes: any nesting of id lists (repeats included) and intersections builds
    without a panic; membership, size and iteration are those of the set (each id
    once, ascending for a bitset), and the bitset is chosen exactly when the
    distinct ids earn it, [len * 64 >= span]. *)
Theorem visible_set_refines (m : mask) :
  u32_ids m →
  ∃ v, build m = Some v
    ∧ (∀ id, in_u 32 id → contains v id = bool_decide (id ∈ meaning m))
    ∧ len v = Z.of_nat (size (meaning m)) ∧ (is_empty v = true ↔ meaning m = ∅)
    ∧ NoDup (iter v) ∧ (∀ x, x ∈ iter v ↔ x ∈ meaning m) ∧ (is_dense v = true → sorted (iter v))
    ∧ (is_dense v = true ↔ rule (meaning m)).
Proof.
  intros Hm. destruct (build_wf m Hm) as (v & E & W). exists v. pose proof (len_wf v _ W) as Hl. destruct (iter_wf v _ W) as [Hn Hi].
  split_and!; [exact E|intros id Hid; by apply contains_wf|done| |done|exact Hi|..].
  - unfold is_empty. rewrite Hl, Z.eqb_eq. split; [|intros ->; by rewrite size_empty].
    intros H0. apply leibniz_equiv, size_empty_inv. lia.
  - destruct v as [|words l]; [done|]. intros _. apply sorted_bits, W.
  - destruct W as [_ W]. destruct v as [s|words l]; cbn [is_dense]; [|tauto]. destruct W as [_ W]. split; [done|tauto].
Qed.

Lemma visible_set_refines_witness :
  ∃ v, build (And (Ids [3; 1; 3; 70]) (Ids [70; 3; 4000000000])) = Some v ∧ contains v 3 = true ∧ contains v 1 = false.
Proof.
  destruct (visible_set_refines (And (Ids [3; 1; 3; 70]) (Ids [70; 3; 4000000000]))) as (v & E & Hc & _).
  - split; repeat constructor; lia.
  - exists v. split; [exact E|]. rewrite !Hc by (split; lia). split; reflexivity.
Defined.
End VisibleSet.
