(* ===== verification/NodeLayer.v ===== *)
(** * Node identity under a layer

    Models [NodeLayer], [LabelSyms] and the identity reads of [GraphView]
    ([crates/core-query/src/view.rs]), the node arms of [DeltaLayer::apply]
    ([crates/core-api/src/layer.rs]) and those of the writer's own [apply]
    ([crates/core-api/src/db.rs]): keys, ids, labels and symbols, read through a
    reader's unfolded delta tail or an open transaction.

    A message's formatted details are left out of the errors. *)

From S2P Require Import Prelude Order Types CowVec HashIndex Interner IdMap VisibleSet Wal.

Module NodeLayer.
Import Wal.

(** The label of a retired or unlabelled slot. *)
Definition NO_LABEL : Z := u32_max.

Record t := mk {
  id_floor : Z;
  keys : list string;
  labels : list Z;
  by_key : gmap string Z;
  deleted : gset Z;
  relabeled : gmap Z Z;
  renamed : gmap Z string;
  sym_floor : Z;
  syms : list string;
  by_sym : gmap string Z;
}.

(** [x.len() as u32] *)
Definition len_u32 {A} (l : list A) : Z := wrap_u 32 (Z.of_nat (length l)).

(** [x.checked_sub(y)] on [u32] *)
Definition checked_sub (x y : Z) : option Z := if y <=? x then Some (x - y) else None.

(** [NodeLayer::new] *)
Definition new (ids : IdMap.t) (below : Interner.t) : t :=
  mk (wrap_u 32 (Z.of_nat (IdMap.len ids))) [] [] ∅ ∅ ∅ ∅ (wrap_u 32 (Z.of_nat (Interner.len below))) [] ∅.

(** [NodeLayer::intern]; the [u32] addition is a release build's. *)
Definition intern (self : t) (below : Interner.t) (name : string) : Z * t :=
  match Interner.get below name with
  | Some sym => (sym, self)
  | None =>
      match by_sym self !! name with
      | Some sym => (sym, self)
      | None =>
          let sym := wrap_u 32 (sym_floor self + len_u32 (syms self)) in
          (sym, mk (id_floor self) (keys self) (labels self) (by_key self) (deleted self) (relabeled self) (renamed self)
                   (sym_floor self) (syms self ++ [name]) (<[name := sym]> (by_sym self)))
      end
  end.

(** [NodeLayer::insert] *)
Definition insert (self : t) (key : string) (label_sym : Z) : Z * t :=
  let id := wrap_u 32 (id_floor self + len_u32 (keys self)) in
  (id, mk (id_floor self) (keys self ++ [key]) (labels self ++ [label_sym]) (<[key := id]> (by_key self)) (deleted self)
          (relabeled self) (renamed self) (sym_floor self) (syms self) (by_sym self)).

(** [v[i] = x], which panics out of range. *)
Definition index_set {A} (i : Z) (x : A) (l : list A) : option (list A) :=
  if bool_decide (Z.to_nat i < length l)%nat then Some (<[Z.to_nat i := x]> l) else None.

(** [NodeLayer::relabel] *)
Definition relabel (self : t) (id label_sym : Z) : option t :=
  match checked_sub id (id_floor self) with
  | Some i =>
      labels ← index_set i label_sym (labels self);
      Some (mk (id_floor self) (keys self) labels (by_key self) (deleted self) (relabeled self) (renamed self)
               (sym_floor self) (syms self) (by_sym self))
  | None =>
      Some (mk (id_floor self) (keys self) (labels self) (by_key self) (deleted self) (<[id := label_sym]> (relabeled self))
               (renamed self) (sym_floor self) (syms self) (by_sym self))
  end.

(** [if self.by_key.get(key) == Some(&id) { self.by_key.remove(key) }] *)
Definition forget (by_key : gmap string Z) (key : string) (id : Z) : gmap string Z :=
  if bool_decide (by_key !! key = Some id) then base.delete key by_key else by_key.

(** [NodeLayer::rename] *)
Definition rename (self : t) (id : Z) (old new : string) : option t :=
  let by_key := forget (by_key self) old id in
  '(keys, renamed) ← match checked_sub id (id_floor self) with
    | Some i => keys ← index_set i new (keys self); Some (keys, renamed self)
    | None => Some (keys self, <[id := new]> (renamed self))
    end;
  Some (mk (id_floor self) keys (labels self) (<[new := id]> by_key) (deleted self) (relabeled self) renamed
           (sym_floor self) (syms self) (by_sym self)).

(** [NodeLayer::delete] *)
Definition delete (self : t) (key : string) (id : Z) : t :=
  mk (id_floor self) (keys self) (labels self) (forget (by_key self) key id) ({[id]} ∪ deleted self) (relabeled self)
     (renamed self) (sym_floor self) (syms self) (by_sym self).

(** [NodeLayer::is_deleted] *)
Definition is_deleted (self : t) (id : Z) : bool :=
  negb (bool_decide (deleted self = ∅)) && bool_decide (id ∈ deleted self).

(** [NodeLayer::below_label] *)
Definition below_label (self : t) (id below : Z) : Z :=
  if is_deleted self id then NO_LABEL
  else if bool_decide (relabeled self = ∅) then below
  else default below (relabeled self !! id).
End NodeLayer.

Module GraphView.
Import Wal.
Section graph_view.
Context (hash : string → Z).

(** The identity part of [GraphView]. *)
Record t := mk {
  ids : IdMap.t;
  syms : Interner.t;
  labels : list Z;
  mask : option VisibleSet.t;
  layer : option NodeLayer.t;
}.

(** [GraphView::visible] *)
Definition visible (self : t) (id : Z) : bool :=
  match mask self with None => true | Some m => VisibleSet.contains m id end.

(** [GraphView::node_id] *)
Definition node_id (self : t) (key : string) : option Z :=
  match layer self with
  | None => IdMap.get hash (ids self) key
  | Some layer =>
      match NodeLayer.by_key layer !! key with
      | Some id => Some id
      | None =>
          match IdMap.get hash (ids self) key with
          | Some id =>
              if negb (NodeLayer.is_deleted layer id) && bool_decide (NodeLayer.renamed layer !! id = None)
              then Some id else None
          | None => None
          end
      end
  end.

(** [GraphView::try_key_of]; the outer [option] is [IdMap::key_of]'s. *)
Definition try_key_of (self : t) (id : Z) : option (option string) :=
  match layer self with
  | None => IdMap.key_of (ids self) id
  | Some layer =>
      if NodeLayer.is_deleted layer id then Some None
      else
        match NodeLayer.checked_sub id (NodeLayer.id_floor layer) with
        | Some i => Some (NodeLayer.keys layer !! Z.to_nat i)
        | None =>
            match NodeLayer.renamed layer !! id with
            | Some key => Some (Some key)
            | None => IdMap.key_of (ids self) id
            end
        end
  end.

(** [GraphView::id_bound] *)
Definition id_bound (self : t) : Z :=
  match layer self with
  | None => wrap_u 32 (Z.of_nat (IdMap.len (ids self)))
  | Some layer => wrap_u 32 (NodeLayer.id_floor layer + NodeLayer.len_u32 (NodeLayer.keys layer))
  end.

(** [GraphView::sym] *)
Definition sym (self : t) (name : string) : option Z :=
  match Interner.get (syms self) name with
  | Some s => Some s
  | None => l ← layer self; NodeLayer.by_sym l !! name
  end.

(** [GraphView::sym_name] *)
Definition sym_name (self : t) (s : Z) : option string :=
  match (l ← layer self; i ← NodeLayer.checked_sub s (NodeLayer.sym_floor l); Some (l, i)) with
  | Some (layer, i) => NodeLayer.syms layer !! Z.to_nat i
  | None => Interner.resolve (syms self) s
  end.

(** [LabelSyms::next], over its three fields *)
Definition label_next (layer : option NodeLayer.t) (below : list Z) (next : nat) : option (Z * list Z) :=
  match below with
  | sym :: below =>
      Some (match layer with None => sym | Some l => NodeLayer.below_label l (wrap_u 32 (Z.of_nat next)) sym end, below)
  | [] =>
      l ← layer;
      let floor := Z.to_nat (NodeLayer.id_floor l) in
      if (next <? floor)%nat then Some (NodeLayer.NO_LABEL, [])
      else
        sym ← NodeLayer.labels l !! (next - floor)%nat;
        Some (if NodeLayer.is_deleted l (wrap_u 32 (Z.of_nat next)) then NodeLayer.NO_LABEL else sym, [])
  end.

Fixpoint label_collect (fuel : nat) (layer : option NodeLayer.t) (below : list Z) (next : nat) : option (list Z) :=
  match fuel with
  | O => None
  | S fuel =>
      match label_next layer below next with
      | None => Some []
      | Some (s, below) => l ← label_collect fuel layer below (S next); Some (s :: l)
      end
  end.

(** [GraphView::label_syms], run to its end *)
Definition label_syms (self : t) : option (list Z) :=
  let more := match layer self with
    | None => 0%nat
    | Some l => (Z.to_nat (NodeLayer.id_floor l) + length (NodeLayer.labels l))%nat
    end in
  label_collect (S (length (labels self) + more)) (layer self) (labels self) 0.

(** [GraphView::label_sym] *)
Definition label_sym (self : t) (id : Z) : option Z :=
  s ← match layer self with
      | None => labels self !! Z.to_nat id
      | Some layer =>
          match NodeLayer.checked_sub id (NodeLayer.id_floor layer) with
          | Some i => if negb (NodeLayer.is_deleted layer id) then NodeLayer.labels layer !! Z.to_nat i else None
          | None => NodeLayer.below_label layer id <$> labels self !! Z.to_nat id
          end
      end;
  if bool_decide (s ≠ NodeLayer.NO_LABEL) then Some s else None.

(** [GraphView::label_of] *)
Definition label_of (self : t) (id : Z) : option string := s ← label_sym self id; sym_name self s.

(** [iter.enumerate().filter_map(..)], the index cast to [u32] *)
Definition select (p : Z → Z → bool) (l : list Z) : list Z :=
  concat (imap (λ i s, if p (wrap_u 32 (Z.of_nat i)) s then [wrap_u 32 (Z.of_nat i)] else []) l).

(** [GraphView::nodes_with_label] *)
Definition nodes_with_label (self : t) (label : string) : option (list Z) :=
  match sym self label with
  | None => Some []
  | Some sym =>
      match layer self with
      | None => Some (select (λ _ s, s =? sym) (labels self))
      | Some _ => select (λ _ s, s =? sym) <$> label_syms self
      end
  end.

(** [GraphView::nodes_all] *)
Definition nodes_all (self : t) : option (list Z) :=
  let live := λ i s, bool_decide (s ≠ NodeLayer.NO_LABEL) && visible self i in
  match layer self with
  | None => Some (select live (labels self))
  | Some _ => select live <$> label_syms self
  end.

(** ** The node arms of [DeltaLayer::apply]

    [state] is the fold below ([layer] is not its field). *)

(** [DeltaLayer::insert_node] *)
Definition layer_insert_node (state : t) (nodes : NodeLayer.t) (key : string) (label_sym : Z) : option NodeLayer.t :=
  match node_id (mk (ids state) (syms state) (labels state) None (Some nodes)) key with
  | Some id => NodeLayer.relabel nodes id label_sym
  | None => Some (NodeLayer.insert nodes key label_sym).2
  end.

(** The view a record is laid over: the fold below with the layer, no mask. *)
Definition layer_view (state : t) (nodes : NodeLayer.t) : t := mk (ids state) (syms state) (labels state) None (Some nodes).

(** [WalRecord::Intern] *)
Definition layer_intern (state : t) (id : Z) (text : string) (nodes : NodeLayer.t) : option (Result NodeLayer.t) :=
  let '(got, nodes) := NodeLayer.intern nodes (syms state) text in
  Some (if bool_decide (got ≠ id) then Err (Corrupt "mvcc delta intern mismatch") else Ok nodes).

(** [WalRecord::InsertNodeId]: the property writes go to another store, but each
    field must name a symbol. *)
Definition layer_insert_node_id (state : t) (label : Z) (key : string) (props : list (Z * Value.t))
    (nodes : NodeLayer.t) : option (Result NodeLayer.t) :=
  match sym_name (layer_view state nodes) label with
  | None => Some (Err (Corrupt "mvcc delta: unknown label sym"))
  | Some _ =>
      nodes ← layer_insert_node state nodes key label;
      Some (if forallb (λ p, bool_decide (is_Some (sym_name (layer_view state nodes) p.1))) props then Ok nodes
            else Err (Corrupt "mvcc delta: unknown field sym"))
  end.

(** [WalRecord::InsertNode] *)
Definition layer_insert_node_named (state : t) (label key : string) (nodes : NodeLayer.t) : option (Result NodeLayer.t) :=
  let '(label_sym, nodes) := NodeLayer.intern nodes (syms state) label in
  nodes ← layer_insert_node state nodes key label_sym; Some (Ok nodes).

(** [DeltaLayer::delete_node], its node table; the edges are [EdgeStore.Layer_sweep_node]'s *)
Definition layer_delete_node (state : t) (key : string) (nodes : NodeLayer.t) : NodeLayer.t :=
  match node_id (layer_view state nodes) key with Some id => NodeLayer.delete nodes key id | None => nodes end.

(** [WalRecord::RenameNode] *)
Definition layer_rename_node (state : t) (old_key new_key : string) (nodes : NodeLayer.t) : option (Result NodeLayer.t) :=
  match node_id (layer_view state nodes) old_key with
  | None => Some (Ok nodes)
  | Some id =>
      match node_id (layer_view state nodes) new_key with
      | Some _ => Some (Err (Corrupt "mvcc delta RenameNode failed"))
      | None => nodes ← NodeLayer.rename nodes id old_key new_key; Some (Ok nodes)
      end
  end.

(** [DeltaLayer::apply] on the node table: [InsertEdge] interns its type, the
    other records leave the node table alone. *)
Definition layer_apply1 (state : t) (rec : WalRecord) (nodes : NodeLayer.t) : option (Result NodeLayer.t) :=
  match rec with
  | Intern id text => layer_intern state id text nodes
  | InsertNodeId label key props => layer_insert_node_id state label key props nodes
  | InsertNode label key _ => layer_insert_node_named state label key nodes
  | DeleteNode key => Some (Ok (layer_delete_node state key nodes))
  | InsertEdge edge_type _ _ => Some (Ok (NodeLayer.intern nodes (syms state) edge_type).2)
  | RenameNode old_key new_key => layer_rename_node state old_key new_key nodes
  | _ => Some (Ok nodes)
  end.

(** ** The node arms of the writer's [apply] *)

(** [labels.resize(id + 1, u32::MAX)] when short, then [labels[id] = sym] *)
Definition put_label (labels : list Z) (id sym : Z) : list Z :=
  let labels := if (length labels <=? Z.to_nat id)%nat then resize (S (Z.to_nat id)) NodeLayer.NO_LABEL labels else labels in
  <[Z.to_nat id := sym]> labels.

(** [WalRecord::InsertNode] *)
Definition apply_insert_node (label key : string) (db : t) : option (Result t) :=
  '(r, ids) ← IdMap.try_insert hash (ids db) key;
  match r with
  | Err e => Some (Err e)
  | Ok id =>
      let '(sym, syms) := Interner.intern (syms db) label in
      Some (Ok (mk ids syms (put_label (labels db) id sym) (mask db) (layer db)))
  end.

(** [WalRecord::InsertEdge] up to its edge type's symbol *)
Definition apply_insert_edge (edge_type src_key dst_key : string) (db : t) : option (Result t) :=
  match IdMap.get hash (ids db) src_key, IdMap.get hash (ids db) dst_key with
  | Some _, Some _ =>
      Some (Ok (mk (ids db) (Interner.intern (syms db) edge_type).2 (labels db) (mask db) (layer db)))
  | _, _ => Some (Err (Corrupt "wal replay references unknown key"))
  end.

(** [WalRecord::Intern] *)
Definition apply_intern (id : Z) (text : string) (db : t) : option (Result t) :=
  match Interner.get (syms db) text with
  | Some existing =>
      Some (if bool_decide (existing ≠ id) then Err (Corrupt "wal intern mismatch") else Ok db)
  | None =>
      let '(got, syms) := Interner.intern (syms db) text in
      Some (if bool_decide (got ≠ id) then Err (Corrupt "wal intern assigned")
            else Ok (mk (ids db) syms (labels db) (mask db) (layer db)))
  end.

(** [WalRecord::InsertNodeId], every field naming a symbol *)
Definition apply_insert_node_id (label : Z) (key : string) (props : list (Z * Value.t)) (db : t) : option (Result t) :=
  '(r, ids) ← IdMap.try_insert hash (ids db) key;
  match r with
  | Err e => Some (Err e)
  | Ok id =>
      match Interner.resolve (syms db) label with
      | None => Some (Err (Corrupt "wal InsertNodeId unknown label intern"))
      | Some _ =>
          Some (if forallb (λ p, bool_decide (is_Some (Interner.resolve (syms db) p.1))) props
                then Ok (mk ids (syms db) (put_label (labels db) id label) (mask db) (layer db))
                else Err (Corrupt "wal InsertNodeId unknown field intern"))
      end
  end.

(** [WalRecord::DeleteNode], step (4): retire the id, stamp the label sentinel *)
Definition apply_delete_node (key : string) (db : t) : option (Result t) :=
  match IdMap.get hash (ids db) key with
  | None => Some (Ok db)
  | Some n =>
      '(_, ids) ← IdMap.delete hash (ids db) key;
      Some (Ok (mk ids (syms db) (<[Z.to_nat n := NodeLayer.NO_LABEL]> (labels db)) (mask db) (layer db)))
  end.

(** [WalRecord::RenameNode] *)
Definition apply_rename_node (old_key new_key : string) (db : t) : option (Result t) :=
  match IdMap.get hash (ids db) old_key with
  | None => Some (Ok db)
  | Some _ =>
      '(r, ids) ← IdMap.rename hash (ids db) old_key new_key;
      match r with
      | Err _ => Some (Err (Corrupt "wal replay RenameNode"))
      | Ok _ => Some (Ok (mk ids (syms db) (labels db) (mask db) (layer db)))
      end
  end.

Definition apply1 (rec : WalRecord) (db : t) : option (Result t) :=
  match rec with
  | InsertNode label key _ => apply_insert_node label key db
  | InsertEdge edge_type src_key dst_key => apply_insert_edge edge_type src_key dst_key db
  | Intern id text => apply_intern id text db
  | InsertNodeId label key props => apply_insert_node_id label key props db
  | DeleteNode key => apply_delete_node key db
  | RenameNode old_key new_key => apply_rename_node old_key new_key db
  | _ => Some (Ok db)
  end.

(** Records in order, stopping at the first error ([?]). *)
Fixpoint run_all {A} (f : WalRecord → A → option (Result A)) (recs : list WalRecord) (a : A) : option (Result A) :=
  match recs with
  | [] => Some (Ok a)
  | rec :: recs =>
      r ← f rec a;
      match r with Ok a => run_all f recs a | Err e => Some (Err e) end
  end.

(** The records that name nodes, labels or symbols, each symbol being 32-bit;
    a batch is its records. *)
Definition names_nodes (rec : WalRecord) : bool :=
  match rec with
  | InsertNodeId label _ props => in_ub 32 label && forallb (λ p, in_ub 32 p.1) props
  | Intern _ _ | InsertNode _ _ _ | DeleteNode _ | InsertEdge _ _ _ | RenameNode _ _ => true
  | _ => false
  end.

(** ** The simulation

    The layer [nl] over the fold [(base, names, lab0)] reads as the writer's
    [(s, y, lab)]. *)

Lemma is_deleted_eq nl id : NodeLayer.is_deleted nl id = bool_decide (id ∈ NodeLayer.deleted nl).
Proof. unfold NodeLayer.is_deleted. case_bool_decide as E; [|done]. rewrite E. symmetry. by apply bool_decide_eq_false, not_elem_of_empty. Qed.

Lemma below_label_eq nl id x :
  NodeLayer.below_label nl id x =
  if decide (id ∈ NodeLayer.deleted nl) then NodeLayer.NO_LABEL else default x (NodeLayer.relabeled nl !! id).
Proof.
  unfold NodeLayer.below_label. rewrite is_deleted_eq. case_bool_decide; [by rewrite decide_True|]. rewrite decide_False by done.
  case_bool_decide as E; [|done]. by rewrite E, lookup_empty.
Qed.

Section simulation.
Context (base : IdMap.spec) (names : list string) (lab0 : list Z).
Abbreviation n0 := (length (IdMap.slots base)).

(** What is left of a key of the fold below. *)
Definition shows (nl : NodeLayer.t) (id : Z) : Prop :=
  id ∉ NodeLayer.deleted nl ∧ NodeLayer.renamed nl !! id = None.
#[local] Instance shows_dec nl id : Decision (shows nl id).
Proof. unfold shows. apply _. Defined.

Record sim_syms (nl : NodeLayer.t) (y : list string) : Prop := {
  sim_sym_floor : NodeLayer.sym_floor nl = Z.of_nat (length names);
  sim_names : y = names ++ NodeLayer.syms nl;
  sim_by_sym : ∀ n k, NodeLayer.by_sym nl !! n = Some k ↔
    ∃ i, NodeLayer.syms nl !! i = Some n ∧ k = Z.of_nat (length names + i);
}.

Record sim_keys (nl : NodeLayer.t) (s : IdMap.spec) : Prop := {
  sim_floor : NodeLayer.id_floor nl = Z.of_nat n0;
  sim_count : length (IdMap.slots s) = (n0 + length (NodeLayer.keys nl))%nat;
  sim_low : ∀ i, (i < n0)%nat → IdMap.slots s !! i =
    match NodeLayer.renamed nl !! Z.of_nat i with Some k => Some k | None => IdMap.slots base !! i end;
  sim_high : ∀ i, IdMap.slots s !! (n0 + i)%nat = NodeLayer.keys nl !! i;
  sim_dead : IdMap.dead s = NodeLayer.deleted nl ∪ IdMap.dead base;
  sim_live : ∀ key, IdMap.live s !! key =
    match NodeLayer.by_key nl !! key with
    | Some id => Some id
    | None => id ← IdMap.live base !! key; if decide (shows nl id) then Some id else None
    end;
  sim_renamed : ∀ id k, NodeLayer.renamed nl !! id = Some k → 0 ≤ id < Z.of_nat n0 ∧ id ∉ IdMap.dead base;
  sim_sane : IdMap.sane s;
}.

Record sim_labels (nl : NodeLayer.t) (lab : list Z) : Prop := {
  sim_lab_base : length lab0 = n0;
  sim_lab_count : length (NodeLayer.labels nl) = length (NodeLayer.keys nl);
  sim_lab_len : length lab = (n0 + length (NodeLayer.labels nl))%nat;
  sim_lab_low : ∀ i x, lab0 !! i = Some x → lab !! i = Some (NodeLayer.below_label nl (Z.of_nat i) x);
  sim_lab_high : ∀ i x, NodeLayer.labels nl !! i = Some x →
    lab !! (n0 + i)%nat = Some (if decide (Z.of_nat (n0 + i) ∈ NodeLayer.deleted nl) then NodeLayer.NO_LABEL else x);
}.

Record sim (nl : NodeLayer.t) (s : IdMap.spec) (y : list string) (lab : list Z) : Prop := {
  sim_1 : sim_syms nl y;
  sim_2 : sim_keys nl s;
  sim_3 : sim_labels nl lab;
}.

(** An id of the fold that still shows is live under its old key. *)
Lemma sim_shows nl s key id :
  IdMap.sane base → sim_keys nl s → IdMap.live base !! key = Some id → shows nl id → IdMap.live s !! key = Some id.
Proof.
  intros Hb Hs Hk [Hd Hr]. destruct (IdMap.sane_live _ Hb _ _ Hk) as (H0 & Hslot & Hdead).
  pose proof (lookup_lt_Some _ _ _ Hslot) as Hlt. pose proof (sim_low _ _ Hs _ Hlt) as Hl. rewrite Z2Nat.id, Hr, Hslot in Hl by done.
  replace id with (Z.of_nat (Z.to_nat id)) by lia. apply (IdMap.sane_all _ (sim_sane _ _ Hs)); [done|].
  rewrite Z2Nat.id, (sim_dead _ _ Hs) by done. set_solver.
Qed.

(** A live id is bounded, and its slot holds its key. *)
Lemma sim_live_slot nl s key id :
  sim_keys nl s → IdMap.live s !! key = Some id →
  0 ≤ id < Z.of_nat (n0 + length (NodeLayer.keys nl)) ∧ IdMap.slots s !! Z.to_nat id = Some key ∧ id ∉ NodeLayer.deleted nl
  ∧ id ∉ IdMap.dead base.
Proof.
  intros Hs Hk. destruct (IdMap.sane_live _ (sim_sane _ _ Hs) _ _ Hk) as (H0 & Hslot & Hdead).
  pose proof (lookup_lt_Some _ _ _ Hslot) as Hlt. rewrite (sim_count _ _ Hs) in Hlt. rewrite (sim_dead _ _ Hs) in Hdead.
  split_and!; [lia|lia|done|set_solver|set_solver].
Qed.

Lemma node_id_live nl s mask' ids0 syms0 key :
  IdMap.rep hash ids0 base → sim_keys nl s → node_id (mk ids0 syms0 lab0 mask' (Some nl)) key = IdMap.live s !! key.
Proof.
  intros Hr Hs. unfold node_id. cbn [layer ids]. rewrite (sim_live _ _ Hs). destruct (NodeLayer.by_key nl !! key); [done|].
  rewrite (IdMap.rep_get _ _ _ _ Hr). destruct (IdMap.live base !! key) as [id|]; [|done]. cbn [mbind option_bind].
  rewrite is_deleted_eq. unfold shows. repeat case_bool_decide; case_decide; simpl; naive_solver.
Qed.

(** *** Interning *)

Lemma sim_intern nl s y lab below syms name :
  Interner.rep below names → Interner.rep syms y → Z.of_nat (length y) < 2 ^ 32 → sim nl s y lab →
  ∃ sym nl' syms' y', NodeLayer.intern nl below name = (sym, nl') ∧ Interner.intern syms name = (sym, syms')
    ∧ Interner.rep syms' y' ∧ sim nl' s y' lab ∧ (length y' ≤ S (length y))%nat.
Proof.
  intros Hb Hr Hlt [Hy Hk Hl]. assert (Interner.get below name = Interner.to_sym below !! name) as Hg by done.
  destruct (Interner.intern_spec syms y name Hr Hlt) as [(i & Hi & E)|(Hnin & it' & E & Hr')].
  - assert (NodeLayer.intern nl below name = (Z.of_nat i, nl)) as El.
    { unfold NodeLayer.intern. rewrite Hg. rewrite (sim_names _ _ Hy) in Hi. apply lookup_app_Some in Hi as [Hi|[Hge Hi]].
      - assert (Interner.to_sym below !! name = Some (Z.of_nat i)) as -> by (apply (Interner.rep_sym _ _ Hb); eauto). done.
      - destruct (Interner.to_sym below !! name) as [sym|] eqn:E2.
        { apply (Interner.rep_sym _ _ Hb) in E2 as (j & Hj & _). pose proof (Interner.rep_NoDup _ _ Hr) as Hnd.
          rewrite (sim_names _ _ Hy) in Hnd. apply NoDup_app in Hnd as (_ & Hnd & _). destruct (Hnd name).
          - by eapply list_elem_of_lookup_2.
          - by eapply list_elem_of_lookup_2. }
        assert (NodeLayer.by_sym nl !! name = Some (Z.of_nat i)) as ->; [|done].
        apply (sim_by_sym _ _ Hy). exists (i - length names)%nat. split; [done|]. f_equal. lia. }
    exists (Z.of_nat i), nl, syms, y. split_and!; [done|done|done|by split|lia].
  - rewrite (sim_names _ _ Hy) in Hnin, Hlt, Hr', E. rewrite length_app in Hlt, E.
    assert (Interner.to_sym below !! name = None) as En.
    { destruct (Interner.to_sym below !! name) as [sym|] eqn:E2; [|done]. apply (Interner.rep_sym _ _ Hb) in E2 as (j & Hj & _).
      destruct Hnin. apply elem_of_app. left. by eapply list_elem_of_lookup_2. }
    assert (NodeLayer.by_sym nl !! name = None) as En2.
    { destruct (NodeLayer.by_sym nl !! name) as [sym|] eqn:E2; [|done]. apply (sim_by_sym _ _ Hy) in E2 as (j & Hj & _).
      destruct Hnin. apply elem_of_app. right. by eapply list_elem_of_lookup_2. }
    set (sym := Z.of_nat (length names + length (NodeLayer.syms nl))).
    assert (NodeLayer.intern nl below name = (sym, (NodeLayer.intern nl below name).2)) as El.
    { unfold NodeLayer.intern, NodeLayer.len_u32. rewrite Hg, En, En2. cbn [snd]. f_equal. rewrite (sim_sym_floor _ _ Hy).
      rewrite !wrap_u_id; unfold in_u, sym; [lia|lia|]. rewrite wrap_u_id; unfold in_u; lia. }
    assert (sim (NodeLayer.intern nl below name).2 s ((names ++ NodeLayer.syms nl) ++ [name]) lab) as Hsim.
    { unfold NodeLayer.intern in El |- *. rewrite Hg, En, En2 in *. cbn [snd] in *.
      injection El as Esym. split; [|by destruct Hk; split|by destruct Hl; split]. split; cbn [NodeLayer.syms NodeLayer.by_sym NodeLayer.sym_floor].
      - apply (sim_sym_floor _ _ Hy).
      - by rewrite app_assoc.
      - intros n k. rewrite lookup_insert. rewrite Esym. case_decide as He.
        + subst n. split.
          * intros [= <-]. exists (length (NodeLayer.syms nl)). split; [by apply list_lookup_middle|done].
          * intros (i & Hi & ->). apply lookup_app_Some in Hi as [Hi|[Hge Hi]].
            { destruct Hnin. apply elem_of_app. right. by eapply list_elem_of_lookup_2. }
            apply list_lookup_singleton_Some in Hi as [? _]. f_equal. unfold sym. f_equal. lia.
        + rewrite (sim_by_sym _ _ Hy). split; intros (i & Hi & ->); exists i; (split; [|done]).
          * by apply lookup_app_l_Some.
          * apply lookup_app_Some in Hi as [?|[_ Hi]]; [done|]. by apply list_lookup_singleton_Some in Hi as [_ ->]. }
    eexists sym, _, it', _. split_and!; [exact El|exact E|exact Hr'|exact Hsim|].
    rewrite (sim_names _ _ Hy), !length_app. simpl. lia.
Qed.

(** *** Inserting *)

Lemma put_label_new lab id sym : Z.to_nat id = length lab → put_label lab id sym = lab ++ [sym].
Proof.
  intros E. unfold put_label. rewrite E, Nat.leb_refl. cbv zeta. rewrite resize_ge by lia.
  replace (S (length lab) - length lab)%nat with 1%nat by lia. cbn [replicate].
  rewrite insert_app_r_alt by lia. by rewrite Nat.sub_diag.
Qed.

Lemma put_label_old lab id sym : (Z.to_nat id < length lab)%nat → put_label lab id sym = <[Z.to_nat id := sym]> lab.
Proof. intros Hlt. unfold put_label. by rewrite (proj2 (Nat.leb_gt _ _)). Qed.

Lemma sim_insert nl s y lab key sym :
  IdMap.sane base → sim nl s y lab → IdMap.live s !! key = None → Z.of_nat (length (IdMap.slots s)) < 2 ^ 32 →
  sim (NodeLayer.insert nl key sym).2 (IdMap.spec_insert s key).2 y (put_label lab (Z.of_nat (length (IdMap.slots s))) sym).
Proof.
  intros Hb [Hy Hk Hl] Hkey Hlt. pose proof (sim_count _ _ Hk) as Hn. pose proof (sim_lab_len _ _ Hl) as Hlen.
  pose proof (sim_lab_count _ _ Hl) as Hlc. rewrite put_label_new by lia.
  unfold NodeLayer.insert, IdMap.spec_insert, NodeLayer.len_u32. rewrite Hkey, decide_True by done. cbn [snd].
  assert (wrap_u 32 (NodeLayer.id_floor nl + wrap_u 32 (Z.of_nat (length (NodeLayer.keys nl)))) = Z.of_nat (length (IdMap.slots s))) as ->.
  { rewrite (sim_floor _ _ Hk). rewrite !wrap_u_id; unfold in_u; [lia|lia|]. rewrite wrap_u_id; unfold in_u; lia. }
  assert (Z.of_nat (length (IdMap.slots s)) ∉ IdMap.dead s) as Hnd.
  { intros Hd%(IdMap.sane_dead _ (sim_sane _ _ Hk)). lia. }
  split; [by destruct Hy; split| |].
  - split; cbn; [apply Hk|rewrite !length_app; simpl; lia| | |apply Hk| |apply Hk|apply IdMap.sane_insert; [apply Hk|done|done]].
    + intros i Hi. rewrite lookup_app_l by lia. by apply (sim_low _ _ Hk).
    + intros i. destruct (decide (i < length (NodeLayer.keys nl))%nat).
      * rewrite !lookup_app_l by lia. apply (sim_high _ _ Hk).
      * rewrite !lookup_app_r by lia. f_equal. lia.
    + intros key'. rewrite !lookup_insert. case_decide; [done|]. apply (sim_live _ _ Hk).
  - split; cbn; [apply Hl|rewrite !length_app; simpl; lia|rewrite !length_app; simpl; lia| |].
    + intros i x Hx. apply lookup_app_l_Some. by apply (sim_lab_low _ _ Hl).
    + intros i x Hx. apply lookup_app_Some in Hx as [Hx|[Hge Hx]].
      * apply lookup_app_l_Some. by apply (sim_lab_high _ _ Hl).
      * apply list_lookup_singleton_Some in Hx as [Hi <-]. rewrite lookup_app_r by lia.
        replace (n0 + i - length lab)%nat with 0%nat by lia. simpl. rewrite decide_False; [done|].
        intros Hd. apply Hnd. rewrite (sim_dead _ _ Hk), Hn. replace (length (NodeLayer.keys nl)) with i by lia. set_solver.
Qed.

Lemma index_set_ok {A} i (x : A) l : (Z.to_nat i < length l)%nat → NodeLayer.index_set i x l = Some (<[Z.to_nat i := x]> l).
Proof. intros H. unfold NodeLayer.index_set. by rewrite bool_decide_eq_true_2. Qed.

Lemma sim_relabel nl s y lab key id sym :
  IdMap.sane base → sim nl s y lab → IdMap.live s !! key = Some id →
  ∃ nl', NodeLayer.relabel nl id sym = Some nl' ∧ sim nl' s y (put_label lab id sym).
Proof.
  intros Hb [Hy Hk Hl] Hkey. destruct (sim_live_slot nl s key id Hk Hkey) as (Hid & Hslot & Hd & Hdb).
  pose proof (sim_count _ _ Hk) as Hn. pose proof (sim_lab_len _ _ Hl) as Hlen. pose proof (sim_lab_count _ _ Hl) as Hlc.
  rewrite put_label_old by lia. unfold NodeLayer.relabel, NodeLayer.checked_sub. rewrite (sim_floor _ _ Hk).
  destruct (Z.leb_spec (Z.of_nat n0) id) as [Hge|Hlt].
  - rewrite index_set_ok by lia. eexists. split; [reflexivity|]. split; [by destruct Hy; split|by destruct Hk; split|].
    split; cbn; [apply Hl|by rewrite length_insert|by rewrite !length_insert| |].
    + intros i x Hx. pose proof (lookup_lt_Some _ _ _ Hx) as Hi. rewrite (sim_lab_base _ _ Hl) in Hi.
      rewrite list_lookup_insert_ne by lia. rewrite (sim_lab_low _ _ Hl _ _ Hx). by rewrite !below_label_eq.
    + intros i x. destruct (decide (i = Z.to_nat (id - Z.of_nat n0))) as [->|Hne].
      * rewrite list_lookup_insert_eq by lia. intros [= <-].
        replace (n0 + Z.to_nat (id - Z.of_nat n0))%nat with (Z.to_nat id) by lia. rewrite list_lookup_insert_eq by lia.
        rewrite Z2Nat.id by lia. by rewrite decide_False.
      * rewrite list_lookup_insert_ne by done. intros Hx. rewrite list_lookup_insert_ne by lia. by apply (sim_lab_high _ _ Hl).
  - eexists. split; [reflexivity|]. split; [by destruct Hy; split|by destruct Hk; split|].
    split; cbn; [apply Hl|done|by rewrite length_insert| |].
    + intros i x Hx. destruct (decide (i = Z.to_nat id)) as [->|Hne].
      * rewrite list_lookup_insert_eq by lia. rewrite below_label_eq. cbn. rewrite Z2Nat.id by lia.
        rewrite decide_False by done. by rewrite lookup_insert_eq.
      * rewrite list_lookup_insert_ne by done. rewrite (sim_lab_low _ _ Hl _ _ Hx). rewrite !below_label_eq. cbn.
        rewrite lookup_insert_ne by lia. done.
    + intros i x Hx. rewrite list_lookup_insert_ne by lia. by apply (sim_lab_high _ _ Hl).
Qed.

(** *** Retiring a key *)

(** Dropping a live key from the layer's own keys leaves nothing behind once the
    fold's id no longer shows. *)
Lemma forget_live nl s key id key' (by_key' := NodeLayer.forget (NodeLayer.by_key nl) key id) (shown : Z → Prop)
    `{∀ i, Decision (shown i)} :
  IdMap.sane base → sim_keys nl s → IdMap.live s !! key = Some id →
  (∀ i k, IdMap.live base !! k = Some i → shown i ↔ i ≠ id ∧ shows nl i) →
  match by_key' !! key' with
  | Some i => Some i
  | None => i ← IdMap.live base !! key'; if decide (shown i) then Some i else None
  end = base.delete key (IdMap.live s) !! key'.
Proof.
  intros Hb Hs Hk Hsh. unfold by_key', NodeLayer.forget. pose proof (sim_live _ _ Hs) as Hlive. rewrite lookup_delete. case_decide as He.
  - subst key'. assert ((if bool_decide (NodeLayer.by_key nl !! key = Some id) then base.delete key (NodeLayer.by_key nl)
                         else NodeLayer.by_key nl) !! key = None) as ->.
    { case_bool_decide as Eb; [by rewrite lookup_delete_eq|]. specialize (Hlive key). rewrite Hk in Hlive.
      destruct (NodeLayer.by_key nl !! key); [congruence|done]. }
    destruct (IdMap.live base !! key) as [i|] eqn:Ei; [|done]. cbn [mbind option_bind]. rewrite decide_False; [done|].
    rewrite (Hsh i key Ei). intros [Hne Hi]. pose proof (sim_shows nl s key i Hb Hs Ei Hi). congruence.
  - rewrite Hlive. assert ((if bool_decide (NodeLayer.by_key nl !! key = Some id) then base.delete key (NodeLayer.by_key nl)
                            else NodeLayer.by_key nl) !! key' = NodeLayer.by_key nl !! key') as ->.
    { case_bool_decide; [by rewrite lookup_delete_ne|done]. }
    destruct (NodeLayer.by_key nl !! key'); [done|]. destruct (IdMap.live base !! key') as [i|] eqn:Ei; [|done]. cbn [mbind option_bind].
    specialize (Hsh i key' Ei). case_decide as H1; case_decide as H2; try tauto. exfalso. apply H1, Hsh. split; [|done]. intros ->.
    pose proof (sim_shows nl s key' id Hb Hs Ei H2) as Hk'.
    destruct (sim_live_slot nl s key id Hs Hk) as (_ & Hslot & _). destruct (sim_live_slot nl s key' id Hs Hk') as (_ & Hslot' & _). congruence.
Qed.

Lemma sim_delete nl s y lab key id :
  IdMap.sane base → sim nl s y lab → IdMap.live s !! key = Some id →
  sim (NodeLayer.delete nl key id) (IdMap.spec_delete s key).2 y (<[Z.to_nat id := NodeLayer.NO_LABEL]> lab).
Proof.
  intros Hb [Hy Hk Hl] Hkey. destruct (sim_live_slot nl s key id Hk Hkey) as (Hid & Hslot & Hd & Hdb).
  pose proof (sim_count _ _ Hk) as Hn. pose proof (sim_lab_len _ _ Hl) as Hlen. pose proof (sim_lab_count _ _ Hl) as Hlc.
  unfold NodeLayer.delete, IdMap.spec_delete. rewrite Hkey. cbn [snd]. split; [by destruct Hy; split| |].
  - split; cbn; [apply Hk|apply Hk|apply Hk|apply Hk| | |apply Hk|exact (IdMap.sane_delete hash _ _ _ (sim_sane _ _ Hk) Hkey)].
    + rewrite (sim_dead _ _ Hk). set_solver.
    + intros key'. symmetry. apply (forget_live nl s key id key' (shows (NodeLayer.delete nl key id)) Hb Hk Hkey).
      intros i k _. unfold shows. cbn. set_solver.
  - split; cbn; [apply Hl|apply Hl|by rewrite length_insert| |].
    + intros i x Hx. rewrite below_label_eq. cbn. destruct (decide (i = Z.to_nat id)) as [->|Hne].
      * rewrite list_lookup_insert_eq by lia. rewrite decide_True; [done|]. rewrite Z2Nat.id by lia. set_solver.
      * rewrite list_lookup_insert_ne by done. rewrite (sim_lab_low _ _ Hl _ _ Hx), below_label_eq.
        assert (Z.of_nat i ≠ id) by lia. repeat case_decide; set_solver.
    + intros i x Hx. destruct (decide (n0 + i = Z.to_nat id)%nat) as [E|Hne].
      * rewrite <-E, list_lookup_insert_eq by (apply lookup_lt_Some in Hx; lia). rewrite decide_True; [done|].
        rewrite E, Z2Nat.id by lia. set_solver.
      * rewrite list_lookup_insert_ne by done. rewrite (sim_lab_high _ _ Hl _ _ Hx).
        assert (Z.of_nat (n0 + i) ≠ id) by lia. repeat case_decide; set_solver.
Qed.

Lemma sim_rename nl s y lab old new id :
  IdMap.sane base → sim nl s y lab → IdMap.live s !! old = Some id → IdMap.live s !! new = None →
  ∃ nl', NodeLayer.rename nl id old new = Some nl' ∧ sim nl' (IdMap.spec_rename s old new).2 y lab.
Proof.
  intros Hb [Hy Hk Hl] Hold Hnew. destruct (sim_live_slot nl s old id Hk Hold) as (Hid & Hslot & Hd & Hdb).
  pose proof (sim_count _ _ Hk) as Hn. pose proof (sim_lab_count _ _ Hl) as Hlc.
  unfold NodeLayer.rename, NodeLayer.checked_sub, IdMap.spec_rename. rewrite Hold, Hnew, (sim_floor _ _ Hk). cbn [snd].
  pose proof (IdMap.sane_rename s old new id (sim_sane _ _ Hk) Hold Hnew) as Hsane.
  destruct (Z.leb_spec (Z.of_nat n0) id) as [Hge|Hlt].
  - rewrite index_set_ok by lia. cbn [mbind option_bind]. eexists. split; [reflexivity|]. split; [by destruct Hy; split| |].
    + split; cbn; [done|by rewrite !length_insert| | |apply Hk| |apply Hk|done].
      * intros i Hi. rewrite list_lookup_insert_ne by lia. by apply (sim_low _ _ Hk).
      * intros i. destruct (decide (i = Z.to_nat (id - Z.of_nat n0))) as [->|Hne].
        -- rewrite list_lookup_insert_eq by lia. replace (n0 + Z.to_nat (id - Z.of_nat n0))%nat with (Z.to_nat id) by lia.
           by rewrite list_lookup_insert_eq by lia.
        -- rewrite !list_lookup_insert_ne by lia. apply (sim_high _ _ Hk).
      * intros key'. rewrite !lookup_insert. case_decide; [done|]. symmetry. apply (forget_live nl s old id key' (shows nl) Hb Hk Hold).
        intros i k (_ & Hi%lookup_lt_Some & _)%(IdMap.sane_live _ Hb). split; [|tauto]. intros ?. split; [lia|done].
    + by destruct Hl; split; cbn; rewrite ?length_insert.
  - cbn [mbind option_bind]. eexists. split; [reflexivity|]. split; [by destruct Hy; split| |by destruct Hl; split].
    split; cbn; [done|by rewrite length_insert| | |apply Hk| | |done].
    + intros i Hi. destruct (decide (i = Z.to_nat id)) as [->|Hne].
      * rewrite list_lookup_insert_eq by lia. rewrite Z2Nat.id by lia. by rewrite lookup_insert_eq.
      * rewrite list_lookup_insert_ne by done. rewrite lookup_insert_ne by lia. by apply (sim_low _ _ Hk).
    + intros i. rewrite list_lookup_insert_ne by lia. apply (sim_high _ _ Hk).
    + intros key'. rewrite !lookup_insert. case_decide; [done|]. symmetry.
      set (nl' := NodeLayer.mk _ _ _ _ _ _ _ _ _ _). apply (forget_live nl s old id key' (shows nl') Hb Hk Hold).
      intros i k _. unfold shows, nl'. cbn. rewrite lookup_insert_None. naive_solver.
    + intros i k. rewrite lookup_insert_Some. intros [[<- _]|[_ Hi]]; [split; [lia|done]|]. by apply (sim_renamed _ _ Hk _ _ Hi).
Qed.

(** *** One record *)

Context (state : t).

(** The writer [db] and the layer [nl] over the fold [state], in step. *)
Record in_step (db : t) (nl : NodeLayer.t) (s : IdMap.spec) (y : list string) : Prop := {
  step_ids : IdMap.rep hash (ids db) s;
  step_syms : Interner.rep (syms db) y;
  step_sim : sim nl s y (labels db);
  step_mask : mask db = mask state;
  step_layer : layer db = None;
}.

Definition room (s : IdMap.spec) (y : list string) (n : nat) : Prop :=
  Z.of_nat (length (IdMap.slots s) + n) < 2 ^ 32 ∧ Z.of_nat (length y + n) < 2 ^ 32.

Context (Hids : IdMap.rep hash (ids state) base) (Hsyms : Interner.rep (syms state) names) (Hlab : labels state = lab0).

Lemma base_sane : IdMap.sane base.
Proof using Hids. exact (IdMap.rep_sane _ _ _ Hids). Qed.

Lemma node_id_layer nl s key :
  sim_keys nl s → node_id (mk (ids state) (syms state) (labels state) None (Some nl)) key = IdMap.live s !! key.
Proof using Hids Hlab. intros Hs. rewrite Hlab. by apply (node_id_live nl s). Qed.

Lemma sym_name_layer nl y mask' m :
  sim_syms nl y → 0 ≤ m → sym_name (mk (ids state) (syms state) (labels state) mask' (Some nl)) m = y !! Z.to_nat m.
Proof using Hsyms.
  intros Hy Hm. unfold sym_name, NodeLayer.checked_sub. cbn [layer syms mbind option_bind].
  rewrite (sim_sym_floor _ _ Hy), (sim_names _ _ Hy). destruct (Z.leb_spec (Z.of_nat (length names)) m); cbn [mbind option_bind].
  - rewrite lookup_app_r by lia. f_equal. lia.
  - unfold Interner.resolve. rewrite (Interner.rep_str _ _ Hsyms), lookup_app_l by lia. done.
Qed.

(** The writer's insert against the layer's, the label symbol at hand. *)
Lemma step_insert db nl s y key label :
  in_step db nl s y → Z.of_nat (length (IdMap.slots s)) < 2 ^ 32 →
  ∃ id ids' nl' s', IdMap.try_insert hash (ids db) key = Some (Ok id, ids')
    ∧ layer_insert_node state nl key label = Some nl'
    ∧ in_step (mk ids' (syms db) (put_label (labels db) id label) (mask db) (layer db)) nl' s' y
    ∧ (length (IdMap.slots s') ≤ S (length (IdMap.slots s)))%nat.
Proof using Hids Hlab.
  intros Hst Hr. pose proof (step_sim _ _ _ _ Hst) as Hsim. unfold layer_insert_node.
  rewrite (node_id_layer nl s key (sim_2 _ _ _ _ Hsim)).
  destruct (IdMap.rep_insert hash (ids db) s key (step_ids _ _ _ _ Hst)) as (ids' & E & Hrep'). rewrite E.
  destruct (IdMap.live s !! key) as [id|] eqn:Ek.
  - destruct (sim_relabel nl s y (labels db) key id label base_sane Hsim Ek) as (nl' & El & Hsim').
    unfold IdMap.spec_insert in *. rewrite Ek in *. cbn [fst snd] in *. exists id, ids', nl', s.
    split_and!; [done|done| |lia]. split; [done|apply Hst|done|apply Hst|apply Hst].
  - pose proof (sim_insert nl s y (labels db) key label base_sane Hsim Ek Hr) as Hs3.
    exists (Z.of_nat (length (IdMap.slots s))), ids', (NodeLayer.insert nl key label).2, (IdMap.spec_insert s key).2.
    split_and!; [|done|by split; [|apply Hst| |apply Hst|apply Hst]|]; unfold IdMap.spec_insert; rewrite Ek, decide_True by done; [done|].
    cbn. rewrite length_app. simpl. lia.
Qed.

Lemma step_intern db nl s y name :
  in_step db nl s y → Z.of_nat (length y) < 2 ^ 32 →
  ∃ sym nl' syms' y', NodeLayer.intern nl (syms state) name = (sym, nl') ∧ Interner.intern (syms db) name = (sym, syms')
    ∧ in_step (mk (ids db) syms' (labels db) (mask db) (layer db)) nl' s y' ∧ (length y' ≤ S (length y))%nat.
Proof using Hsyms.
  intros Hst Hlt.
  destruct (sim_intern nl s y (labels db) (syms state) (syms db) name Hsyms (step_syms _ _ _ _ Hst) Hlt (step_sim _ _ _ _ Hst))
    as (sym & nl1 & syms1 & y1 & E1 & E2 & Hr' & Hs' & Hl').
  exists sym, nl1, syms1, y1. split_and!; [done|done| |done]. by split; [apply Hst|..|apply Hst|apply Hst].
Qed.

Lemma step_delete db nl s y key id :
  in_step db nl s y → IdMap.live s !! key = Some id →
  ∃ r ids' s', IdMap.delete hash (ids db) key = Some (r, ids') ∧ length (IdMap.slots s') = length (IdMap.slots s)
    ∧ in_step (mk ids' (syms db) (<[Z.to_nat id := NodeLayer.NO_LABEL]> (labels db)) (mask db) (layer db)) (NodeLayer.delete nl key id) s' y.
Proof using Hids.
  intros Hst Ek. destruct (IdMap.rep_delete hash (ids db) s key (step_ids _ _ _ _ Hst)) as (ids' & E & Hrep').
  pose proof (sim_delete nl s y (labels db) key id base_sane (step_sim _ _ _ _ Hst) Ek) as Hs'.
  eexists _, ids', (IdMap.spec_delete s key).2. split_and!; [exact E| |by split; [|apply Hst| |apply Hst|apply Hst]].
  unfold IdMap.spec_delete. by rewrite Ek.
Qed.

Lemma step_rename db nl s y old new id :
  in_step db nl s y → IdMap.live s !! old = Some id → IdMap.live s !! new = None →
  ∃ ids' nl' s', IdMap.rename hash (ids db) old new = Some (Ok id, ids') ∧ NodeLayer.rename nl id old new = Some nl'
    ∧ length (IdMap.slots s') = length (IdMap.slots s)
    ∧ in_step (mk ids' (syms db) (labels db) (mask db) (layer db)) nl' s' y.
Proof using Hids.
  intros Hst Ek En. destruct (IdMap.rep_rename hash (ids db) s old new (step_ids _ _ _ _ Hst)) as (ids' & E & Hrep').
  destruct (sim_rename nl s y (labels db) old new id base_sane (step_sim _ _ _ _ Hst) Ek En) as (nl' & El & Hs').
  exists ids', nl', (IdMap.spec_rename s old new).2. split_and!; [|done| |by split; [|apply Hst| |apply Hst|apply Hst]];
    unfold IdMap.spec_rename in *; rewrite En, Ek in *; [done|]. cbn. by rewrite length_insert.
Qed.

Lemma step_intern_record id text db nl s y db' :
  in_step db nl s y → Z.of_nat (length y) < 2 ^ 32 → apply1 (Intern id text) db = Some (Ok db') →
  ∃ nl' y', layer_apply1 state (Intern id text) nl = Some (Ok nl') ∧ in_step db' nl' s y' ∧ (length y' ≤ S (length y))%nat.
Proof using Hsyms.
  intros Hst Hlt Ha. destruct (step_intern db nl s y text Hst Hlt) as (sym & nl1 & syms1 & y1 & E1 & E2 & Hst1 & Hl1).
  cbn [layer_apply1 apply1] in *. unfold layer_intern, apply_intern in *. rewrite E1. rewrite E2 in Ha. unfold Interner.intern in E2. unfold Interner.get in Ha.
  destruct db as [ids0 syms0 labels0 mask0 layer0]. cbn [ids syms labels mask layer] in *.
  destruct (Interner.to_sym syms0 !! text) as [e|].
  - injection E2 as -> <-. case_bool_decide; [done|]. injection Ha as <-. exists nl1, y1. done.
  - case_bool_decide; [done|]. injection Ha as <-. exists nl1, y1. done.
Qed.

(** Where layer and writer agree, a 32-bit symbol has the same name. *)
Lemma sym_names db nl s y m : in_step db nl s y → in_ub 32 m = true → sym_name (layer_view state nl) m = Interner.resolve (syms db) m.
Proof using Hsyms.
  intros Hst Hm%in_ub_spec. unfold in_u in Hm. unfold layer_view.
  rewrite (sym_name_layer nl y None m (sim_1 _ _ _ _ (step_sim _ _ _ _ Hst)) ltac:(lia)).
  unfold Interner.resolve. by rewrite (Interner.rep_str _ _ (step_syms _ _ _ _ Hst)).
Qed.

Lemma step_insert_id label key props db nl s y db' :
  names_nodes (InsertNodeId label key props) = true → in_step db nl s y → Z.of_nat (length (IdMap.slots s)) < 2 ^ 32 →
  apply_insert_node_id label key props db = Some (Ok db') →
  ∃ nl' s', layer_insert_node_id state label key props nl = Some (Ok nl') ∧ in_step db' nl' s' y
    ∧ (length (IdMap.slots s') ≤ S (length (IdMap.slots s)))%nat.
Proof using Hids Hsyms Hlab.
  intros [Hlabel Hprops]%andb_true_iff Hst Hlt Ha. unfold apply_insert_node_id, layer_insert_node_id in *.
  destruct (step_insert db nl s y key label Hst Hlt) as (id & ids' & nl' & s' & E3 & E4 & Hst' & Hl').
  rewrite E3 in Ha. cbn [mbind option_bind] in Ha. rewrite (sym_names db nl s y label Hst Hlabel).
  destruct (Interner.resolve (syms db) label); [|done]. rewrite E4. cbn [mbind option_bind].
  destruct (forallb _ _) eqn:Ef in Ha; [|done]. injection Ha as <-. exists nl', s'. split_and!; [|done|lia].
  replace (forallb _ _) with true; [done|]. symmetry. apply forallb_forall. intros p Hp.
  pose proof (proj1 (forallb_forall _ _) Ef p Hp) as Hf. pose proof (proj1 (forallb_forall _ _) Hprops p Hp) as Hs.
  cbn beta in *. by rewrite (sym_names _ nl' s' y p.1 Hst' Hs).
Qed.

Lemma step_record rec db nl s y db' n :
  names_nodes rec = true → in_step db nl s y → room s y (S n) → apply1 rec db = Some (Ok db') →
  ∃ nl' s' y', layer_apply1 state rec nl = Some (Ok nl') ∧ in_step db' nl' s' y' ∧ room s' y' n.
Proof using Hids Hsyms Hlab.
  intros Hrec Hst [Hr1 Hr2] Ha. pose proof (sim_2 _ _ _ _ (step_sim _ _ _ _ Hst)) as Hk.
  pose proof (λ key, IdMap.rep_get hash (ids db) s key (step_ids _ _ _ _ Hst)) as Hget. unfold room.
  destruct rec as [label key props|etype src dst| | | | | |key| | | | | | |label key props| | |id text| | |old new| | | | | | | | |];
    try done; cbn [layer_apply1 apply1] in *;
    unfold layer_insert_node_named, layer_delete_node, layer_rename_node, layer_view, apply_insert_node, apply_insert_edge, apply_delete_node, apply_rename_node in *.
  - destruct (step_intern db nl s y label Hst ltac:(lia)) as (sym & nl1 & syms1 & y1 & -> & E2 & Hst1 & Hl1).
    destruct (step_insert _ nl1 s y1 key sym Hst1 ltac:(lia)) as (id & ids' & nl' & s' & E3 & E4 & Hst' & Hl').
    cbn [ids syms labels mask layer] in E3, Hst'. rewrite E3 in Ha. cbn [mbind option_bind] in Ha. rewrite E2 in Ha. injection Ha as <-.
    exists nl', s', y1. rewrite E4. split_and!; [done|done|lia|lia].
  - destruct (step_intern db nl s y etype Hst ltac:(lia)) as (sym & nl1 & syms1 & y1 & -> & E2 & Hst1 & Hl1). rewrite E2 in Ha.
    destruct (IdMap.get hash (ids db) src), (IdMap.get hash (ids db) dst); try done. injection Ha as <-.
    exists nl1, s, y1. split_and!; [done|done|lia|lia].
  - rewrite (node_id_layer nl s key Hk). rewrite Hget in Ha. destruct (IdMap.live s !! key) as [id|] eqn:Ek.
    2:{ injection Ha as <-. exists nl, s, y. split_and!; [done|done|lia|lia]. }
    destruct (step_delete db nl s y key id Hst Ek) as (r & ids' & s' & E & Hl & Hst'). rewrite E in Ha. injection Ha as <-.
    exists (NodeLayer.delete nl key id), s', y. split_and!; [done|done|lia|lia].
  - destruct (step_insert_id label key props db nl s y db' Hrec Hst ltac:(lia) Ha) as (nl' & s' & E & Hst' & Hl').
    exists nl', s', y. split_and!; [exact E|done|lia|lia].
  - destruct (step_intern_record id text db nl s y db' Hst ltac:(lia) Ha) as (nl' & y' & E & Hst' & Hl').
    exists nl', s, y'. split_and!; [exact E|done|lia|lia].
  - rewrite !(node_id_layer nl s _ Hk). rewrite Hget in Ha. destruct (IdMap.live s !! old) as [id|] eqn:Ek.
    2:{ injection Ha as <-. exists nl, s, y. split_and!; [done|done|lia|lia]. }
    destruct (IdMap.live s !! new) as [id2|] eqn:En.
    { destruct (IdMap.rep_rename hash (ids db) s old new (step_ids _ _ _ _ Hst)) as (ids' & E & _). rewrite E in Ha.
      unfold IdMap.spec_rename in Ha. by rewrite En in Ha. }
    destruct (step_rename db nl s y old new id Hst Ek En) as (ids' & nl' & s' & E & El & Hl & Hst').
    rewrite E in Ha. injection Ha as <-. rewrite El. exists nl', s', y. split_and!; [done|done|lia|lia].
Qed.

Lemma step_records recs db nl s y db' :
  Forall (λ rec, names_nodes rec = true) recs → in_step db nl s y → room s y (length recs) →
  run_all apply1 recs db = Some (Ok db') →
  ∃ nl' s' y', run_all (layer_apply1 state) recs nl = Some (Ok nl') ∧ in_step db' nl' s' y' ∧ room s' y' 0.
Proof using Hids Hsyms Hlab.
  intros Hrecs. revert db nl s y. induction Hrecs as [|rec recs Hrec Hrecs IH]; intros db nl s y Hst Hr; cbn [run_all].
  { intros [= <-]. by exists nl, s, y. }
  destruct (apply1 rec db) as [[db1|]|] eqn:E1; try done. cbn [mbind option_bind]. intros E2.
  destruct (step_record rec db nl s y db1 (length recs) Hrec Hst Hr E1) as (nl1 & s1 & y1 & -> & Hst1 & Hr1).
  cbn [mbind option_bind]. by apply (IH db1 nl1 s1 y1).
Qed.

(** *** Reads *)

(** Every identity read of [v] is that of [v']. *)
Record same_reads (v v' : t) : Prop := {
  same_node_id : ∀ key, node_id v key = node_id v' key;
  same_key_of : ∀ id, 0 ≤ id → try_key_of v id = try_key_of v' id;
  same_id_bound : id_bound v = id_bound v';
  same_sym : ∀ name, sym v name = sym v' name;
  same_sym_name : ∀ m, 0 ≤ m → sym_name v m = sym_name v' m;
  same_label_syms : label_syms v = label_syms v';
  same_label_sym : ∀ id, 0 ≤ id → label_sym v id = label_sym v' id;
  same_label_of : ∀ id, 0 ≤ id → (∀ m, label_sym v' id = Some m → 0 ≤ m) → label_of v id = label_of v' id;
  same_nodes_with_label : ∀ label, nodes_with_label v label = nodes_with_label v' label;
  same_nodes_all : nodes_all v = nodes_all v';
  same_visible : ∀ id, visible v id = visible v' id;
}.

Section reads.
Context (db : t) (nl : NodeLayer.t) (s : IdMap.spec) (y : list string) (Hst : in_step db nl s y) (Hroom : room s y 0).
Abbreviation view := (mk (ids state) (syms state) (labels state) (mask state) (Some nl)).

Lemma read_key_of id : 0 ≤ id → try_key_of view id = try_key_of db id.
Proof using All.
  intros H0. pose proof (sim_2 _ _ _ _ (step_sim _ _ _ _ Hst)) as Hk. unfold try_key_of. rewrite (step_layer _ _ _ _ Hst). cbn [layer ids].
  rewrite (IdMap.rep_key_of _ _ _ _ (step_ids _ _ _ _ Hst) H0), (IdMap.rep_key_of _ _ _ _ Hids H0), is_deleted_eq, (sim_dead _ _ Hk).
  unfold NodeLayer.checked_sub. rewrite (sim_floor _ _ Hk). case_bool_decide as Hd.
  { by rewrite decide_True by set_solver. }
  destruct (Z.leb_spec (Z.of_nat n0) id) as [Hge|Hlt].
  - rewrite decide_False.
    + pose proof (sim_high _ _ Hk (Z.to_nat (id - Z.of_nat n0))) as E. by replace (n0 + Z.to_nat (id - Z.of_nat n0))%nat with (Z.to_nat id) in E by lia; rewrite E.
    + intros [?|Hdd]%elem_of_union; [done|]. apply (IdMap.sane_dead _ base_sane) in Hdd. lia.
  - pose proof (sim_low _ _ Hk (Z.to_nat id) ltac:(lia)) as E. rewrite Z2Nat.id in E by done.
    destruct (NodeLayer.renamed nl !! id) as [k|] eqn:Er.
    + rewrite decide_False; [by rewrite E|]. apply (sim_renamed _ _ Hk) in Er as [_ Hdd]. set_solver.
    + rewrite E. f_equal. repeat case_decide; set_solver.
Qed.

Lemma read_sym name : sym view name = sym db name.
Proof using All.
  pose proof (sim_1 _ _ _ _ (step_sim _ _ _ _ Hst)) as Hy. pose proof (step_syms _ _ _ _ Hst) as Hr.
  unfold sym. rewrite (step_layer _ _ _ _ Hst). cbn [layer syms mbind option_bind]. unfold Interner.get. apply option_eq. intros k.
  assert ((match Interner.to_sym (syms db) !! name with Some s => Some s | None => None end) = Interner.to_sym (syms db) !! name) as ->
    by (by destruct (Interner.to_sym (syms db) !! name)).
  rewrite (Interner.rep_sym _ _ Hr), (sim_names _ _ Hy).
  destruct (Interner.to_sym (syms state) !! name) as [k0|] eqn:E0.
  - apply (Interner.rep_sym _ _ Hsyms) in E0 as (i & Hi & ->). split.
    + intros [= <-]. exists i. split; [by apply lookup_app_l_Some|done].
    + intros (j & Hj & ->). f_equal. f_equal. pose proof (Interner.rep_NoDup _ _ Hr) as Hnd. rewrite (sim_names _ _ Hy) in Hnd.
      eapply NoDup_lookup; [exact Hnd|by apply lookup_app_l_Some|done].
  - rewrite (sim_by_sym _ _ Hy). split.
    + intros (i & Hi & ->). exists (length names + i)%nat. split; [|done]. rewrite lookup_app_r by lia. by replace (length names + i - length names)%nat with i by lia.
    + intros (j & Hj & ->). apply lookup_app_Some in Hj as [Hj|[Hge Hj]].
      * assert (Interner.to_sym (syms state) !! name = Some (Z.of_nat j)) by (apply (Interner.rep_sym _ _ Hsyms); eauto). congruence.
      * exists (j - length names)%nat. split; [done|]. f_equal. lia.
Qed.

Lemma read_sym_name m : 0 ≤ m → sym_name view m = sym_name db m.
Proof using All.
  intros Hm. rewrite (sym_name_layer nl y (mask state) m (sim_1 _ _ _ _ (step_sim _ _ _ _ Hst)) Hm). unfold sym_name.
  rewrite (step_layer _ _ _ _ Hst). cbn [mbind option_bind]. unfold Interner.resolve. by rewrite (Interner.rep_str _ _ (step_syms _ _ _ _ Hst)).
Qed.

Lemma label_collect_plain f below i : (length below < f)%nat → label_collect f None below i = Some below.
Proof.
  revert below i. induction f as [|f IH]; intros below i Hf; [lia|]. cbn [label_collect]. destruct below as [|x below]; [done|].
  cbn [label_next]. rewrite IH by (simpl in Hf; lia). done.
Qed.

Lemma label_collect_layer f i :
  (length (labels db) - i < f)%nat → label_collect f (Some nl) (drop i lab0) i = Some (drop i (labels db)).
Proof using All.
  pose proof (sim_3 _ _ _ _ (step_sim _ _ _ _ Hst)) as Hl. pose proof (sim_2 _ _ _ _ (step_sim _ _ _ _ Hst)) as Hk.
  pose proof (sim_lab_base _ _ Hl) as H0. pose proof (sim_lab_len _ _ Hl) as H1. pose proof (sim_lab_count _ _ Hl) as H2.
  pose proof (sim_count _ _ Hk) as H3. destruct Hroom as [H4 _]. revert i. induction f as [|f IH]; intros i Hf; [lia|]. cbn [label_collect].
  destruct (decide (i < n0)%nat) as [Hlt|Hge].
  - destruct (lookup_lt_is_Some_2 lab0 i) as [x Hx]; [lia|]. rewrite (drop_S _ _ _ Hx). cbn [label_next].
    rewrite (drop_S _ _ _ (sim_lab_low _ _ Hl _ _ Hx)). rewrite wrap_u_id by (unfold in_u; lia). rewrite IH by lia. done.
  - rewrite (drop_ge lab0) by lia. cbn [label_next mbind option_bind]. rewrite (sim_floor _ _ Hk), Nat2Z.id.
    rewrite (proj2 (Nat.ltb_ge _ _)) by lia. destruct (NodeLayer.labels nl !! (i - n0)%nat) as [x|] eqn:Ex; cbn [mbind option_bind].
    + pose proof (lookup_lt_Some _ _ _ Ex). pose proof (sim_lab_high _ _ Hl _ _ Ex) as Hi. replace (n0 + (i - n0))%nat with i in Hi by lia.
      rewrite (drop_S _ _ _ Hi), is_deleted_eq, wrap_u_id by (unfold in_u; lia).
      assert (drop (S i) lab0 = []) as Hnil by (apply drop_ge; lia). rewrite <-Hnil, IH by lia.
      cbn [mbind option_bind]. by case_bool_decide; case_decide.
    + apply lookup_ge_None in Ex. by rewrite drop_ge by lia.
Qed.

Lemma read_label_syms : label_syms view = Some (labels db) ∧ label_syms db = Some (labels db).
Proof using All.
  split; unfold label_syms; rewrite ?(step_layer _ _ _ _ Hst); cbn [layer labels]; [|apply label_collect_plain; lia].
  rewrite Hlab. change lab0 with (drop 0 lab0) at 2. change (labels db) with (drop 0 (labels db)). apply label_collect_layer.
  pose proof (sim_3 _ _ _ _ (step_sim _ _ _ _ Hst)) as Hl. pose proof (sim_lab_base _ _ Hl). pose proof (sim_lab_len _ _ Hl). lia.
Qed.

Lemma read_label_sym id : 0 ≤ id → label_sym view id = label_sym db id.
Proof using All.
  intros Hid. pose proof (sim_3 _ _ _ _ (step_sim _ _ _ _ Hst)) as Hl. pose proof (sim_2 _ _ _ _ (step_sim _ _ _ _ Hst)) as Hk.
  unfold label_sym. rewrite (step_layer _ _ _ _ Hst). cbn [layer labels]. rewrite Hlab. unfold NodeLayer.checked_sub. rewrite (sim_floor _ _ Hk).
  pose proof (sim_lab_base _ _ Hl). pose proof (sim_lab_len _ _ Hl). rewrite is_deleted_eq.
  destruct (Z.leb_spec (Z.of_nat n0) id) as [Hge|Hlt].
  - destruct (NodeLayer.labels nl !! Z.to_nat (id - Z.of_nat n0)) as [x|] eqn:Ex.
    + apply (sim_lab_high _ _ Hl) in Ex. replace (n0 + Z.to_nat (id - Z.of_nat n0))%nat with (Z.to_nat id) in Ex by lia.
      rewrite Ex. rewrite Z2Nat.id by lia. clear Ex. case_bool_decide.
      * rewrite decide_True by done. cbn. by rewrite bool_decide_eq_false_2 by tauto.
      * by rewrite decide_False.
    + apply lookup_ge_None in Ex. rewrite (proj2 (lookup_ge_None (labels db) _)) by lia. by case_bool_decide.
  - destruct (lookup_lt_is_Some_2 lab0 (Z.to_nat id)) as [x Ex]; [lia|]. rewrite Ex. apply (sim_lab_low _ _ Hl) in Ex.
    rewrite Z2Nat.id in Ex by done. by rewrite Ex.
Qed.

Lemma read_all : same_reads view db.
Proof using All.
  pose proof (step_sim _ _ _ _ Hst) as Hsim. pose proof (sim_2 _ _ _ _ Hsim) as Hk. destruct read_label_syms as [Hs1 Hs2].
  assert (∀ id, visible view id = visible db id) as Hvis by (intros id; unfold visible; by rewrite (step_mask _ _ _ _ Hst)).
  split; [| |..|done].
  - intros key. rewrite Hlab. rewrite (node_id_live nl s _ _ _ key Hids Hk). unfold node_id. rewrite (step_layer _ _ _ _ Hst).
    by rewrite (IdMap.rep_get _ _ _ _ (step_ids _ _ _ _ Hst)).
  - apply read_key_of.
  - unfold id_bound, NodeLayer.len_u32. rewrite (step_layer _ _ _ _ Hst). cbn [layer]. destruct Hroom as [H4 _].
    unfold IdMap.len. rewrite (IdMap.rep_len _ _ _ (step_ids _ _ _ _ Hst)), (sim_count _ _ Hk), (sim_floor _ _ Hk).
    pose proof (sim_count _ _ Hk). rewrite (wrap_u_id 32 (Z.of_nat (length _))) by (unfold in_u; lia). f_equal. lia.
  - apply read_sym.
  - apply read_sym_name.
  - by rewrite Hs1, Hs2.
  - apply read_label_sym.
  - intros id Hid Hm. unfold label_of. rewrite read_label_sym by done. destruct (label_sym db id) as [m|] eqn:Em; [|done].
    by apply read_sym_name, Hm.
  - intros label. unfold nodes_with_label. rewrite read_sym, Hs1, (step_layer _ _ _ _ Hst). cbn [layer]. by destruct (sym db label).
  - unfold nodes_all. rewrite Hs1, (step_layer _ _ _ _ Hst). cbn [layer fmap option_fmap option_map]. f_equal.
    unfold select. f_equal. apply imap_ext. intros i x _. by rewrite Hvis.
Qed.
End reads.

Lemma new_in_step :
  layer state = None → length (labels state) = n0 → Z.of_nat n0 < 2 ^ 32 → Z.of_nat (length names) < 2 ^ 32 →
  in_step state (NodeLayer.new (ids state) (syms state)) base names.
Proof using All.
  intros Hlay Hlen H1 H2. split; [done|done| |done|done]. unfold NodeLayer.new, Interner.len, IdMap.len.
  rewrite (IdMap.rep_len _ _ _ Hids), (Interner.rep_str _ _ Hsyms), !wrap_u_id by (unfold in_u; lia). rewrite Hlab in *. split.
  - split; cbn; [done|by rewrite app_nil_r|]. intros n k. rewrite lookup_empty. split; [done|]. by intros (i & Hi & _).
  - split; cbn; [done|lia| | |set_solver| |done|apply base_sane].
    + intros i Hi. by rewrite lookup_empty.
    + intros i. apply lookup_ge_None. lia.
    + intros key. rewrite lookup_empty. destruct (IdMap.live base !! key) as [id|]; [|done]. cbn [mbind option_bind].
      rewrite decide_True; [done|]. split; cbn; [set_solver|apply lookup_empty].
  - split; cbn; [done|done|lia| |done]. intros i x Hx. rewrite below_label_eq. cbn. rewrite decide_False by set_solver. by rewrite lookup_empty.
Qed.
End simulation.

(** ** Claims *)

(** A store as it is opened: a well-formed id table and symbol table, one label
    per id slot, no layer. *)
Record store_ok (db : t) : Prop := {
  ok_ids : ∃ s, IdMap.rep hash (ids db) s ∧ length (labels db) = length (IdMap.slots s);
  ok_syms : ∃ l, Interner.rep (syms db) l;
  ok_layer : layer db = None;
}.

(** C23: a layer reads as the writer: whatever node records a writer applied to a
    store (interning, inserting, relabelling through a repeated insert, renaming,
    deleting, in any order), a layer fed the same records over the store as it
    was before accepts them too, without a panic, and every identity read
    through it, keys to ids and back, symbols, labels, label scans and node
    scans, masked or not, is the writer's own. *)
Theorem node_layer_refines (db db' : t) (recs : list WalRecord) :
  store_ok db → Forall (λ rec, names_nodes rec = true) recs →
  Z.of_nat (IdMap.len (ids db) + length recs) < 2 ^ 32 → Z.of_nat (Interner.len (syms db) + length recs) < 2 ^ 32 →
  run_all apply1 recs db = Some (Ok db') →
  ∃ nl, run_all (layer_apply1 db) recs (NodeLayer.new (ids db) (syms db)) = Some (Ok nl)
    ∧ same_reads (mk (ids db) (syms db) (labels db) (mask db) (Some nl)) db'.
Proof.
  intros [(base & Hids & Hlen) (names & Hsyms) Hlay] Hrecs H1 H2 Hrun. unfold IdMap.len in H1. rewrite (IdMap.rep_len _ _ _ Hids) in H1.
  unfold Interner.len in H2. rewrite (Interner.rep_str _ _ Hsyms) in H2.
  destruct (step_records base names (labels db) db Hids Hsyms eq_refl recs db (NodeLayer.new (ids db) (syms db)) base names db')
    as (nl & s & y & E & Hst & Hroom); [done|by apply new_in_step; try lia|by split|done|].
  exists nl. split; [exact E|]. by apply (read_all base names (labels db) db Hids Hsyms eq_refl db' nl s y).
Qed.
End graph_view.

Definition toy_hash (_ : string) : Z := 0.
Definition toy_db : t := mk IdMap.new Interner.new [] None None.
Definition toy_recs : list WalRecord :=
  [InsertNode "L" "a" []; InsertNode "M" "b" []; RenameNode "a" "c"; DeleteNode "b"; InsertNode "L" "a" []].

Lemma node_layer_refines_witness :
  ∃ db' nl, run_all (apply1 toy_hash) toy_recs toy_db = Some (Ok db')
    ∧ same_reads toy_hash (mk IdMap.new Interner.new [] None (Some nl)) db' ∧ node_id toy_hash db' "a" = Some 2.
Proof.
  destruct (run_all (apply1 toy_hash) toy_recs toy_db) as [[db'|]|] eqn:E; [|vm_compute in E; discriminate..].
  destruct (node_layer_refines toy_hash toy_db db' toy_recs) as (nl & _ & Hs).
  - split; [exists IdMap.spec_new; split; [apply IdMap.new_idmap_rep|reflexivity]|exists []; apply Interner.new_interner_rep|reflexivity].
  - repeat constructor.
  - vm_compute. reflexivity.
  - vm_compute. reflexivity.
  - exact E.
  - exists db', nl. split; [reflexivity|]. split; [exact Hs|]. vm_compute in E. injection E as <-. vm_compute. reflexivity.
Defined.
End GraphView.
