(* ===== verification/Traverse.v ===== *)
(** * Traversal

    Models [crates/core-query/src/traverse.rs]: one-hop expansion and the
    breadth-first neighbourhood query, over any adjacency that keeps the promise
    of [Adjacency] and any visibility mask.  [TopologyView] keeps it
    ([topology_view_reads]), so the theorems hold over the whole edge store. *)

From S2P Require Import Prelude Order Topology Csr TopologyView EdgeStore VisibleSet.

(** ** The promise of an adjacency *)

(** What a traversal calls: neighbour lists, edge types, the edge count. *)
Class Adjacency (V : Type) := {
  adj_neighbors : V → Z → Direction → Z → list Z;
  adj_etypes : V → list Z;
  adj_count : V → Z;
}.

(** [v] shows the edges [S]. *)
Class AdjacencyReads {V} `{Adjacency V} (v : V) (S : gset triple) : Prop := {
  adj_edges : ∀ etype dir x w, w ∈ adj_neighbors v etype dir x ↔ Topology.edge_at etype dir x w ∈ S;
  adj_types : ∀ etype src dst, (etype, src, dst) ∈ S → etype ∈ adj_etypes v;
  adj_size : adj_count v = Z.of_nat (size S);
  adj_sorted : ∀ etype dir x, sorted (adj_neighbors v etype dir x);
  adj_types_sorted : sorted (adj_etypes v);
}.

#[export] Instance topology_view_adjacency : Adjacency TopologyView.t := {
  adj_neighbors := TopologyView.neighbors;
  adj_etypes := TopologyView.etypes;
  adj_count := TopologyView.edge_count;
}.

Lemma topology_view_reads v S : EdgeStore.reads_as v S → AdjacencyReads v S.
Proof. intros []. by split. Qed.

Module Traverse.

Inductive Dir := DOut | DIn | DBoth.

Section traverse.
Context {V : Type} `{Adjacency V} (v : V) (mask : option VisibleSet.t).

(** [GraphView::visible] *)
Definition visible (id : Z) : bool := match mask with None => true | Some m => VisibleSet.contains m id end.

(** [push_unique]; [seen] holds what [out] does. *)
Definition push_unique (st : list triple * gset triple) (e : triple) : list triple * gset triple :=
  let '(out, seen) := st in
  if bool_decide (e ∈ seen) then (out, seen) else (out ++ [e], {[e]} ∪ seen).

(** [expand] *)
Definition expand (id : Z) (etypes : option (list Z)) (dir : Dir) : list triple :=
  let types := match etypes with
    | Some ts => dedup (sort_unstable ts)
    | None => adj_etypes v
    end in
  (foldl (λ st etype,
     let st := match dir with
       | DIn => st
       | _ => foldl (λ st dst, push_unique st (etype, id, dst)) st (adj_neighbors v etype Out id)
       end in
     match dir with
     | DOut => st
     | _ => foldl (λ st src, push_unique st (etype, src, id)) st (adj_neighbors v etype In id)
     end) ([], ∅) types).1.

(** The mutable variables of [neighborhood]. *)
Record bfs := mk_bfs {
  visited : gset Z;
  queue : list (Z * Z);
  nodes : list (Z * Z);
  edges : gset triple;
}.

(** The body of the [for] loop, at the node [id] of depth [d]. *)
Definition visit (id d : Z) (st : bfs) (e : triple) : bfs :=
  let '(etype, src, dst) := e in
  let nbr := if src =? id then dst else src in
  if negb (visible nbr) then st
  else
    let edges := {[e]} ∪ edges st in
    if bool_decide (nbr ∈ visited st) then mk_bfs (visited st) (queue st) (nodes st) edges
    else mk_bfs ({[nbr]} ∪ visited st) (queue st ++ [(nbr, d + 1)]) (nodes st ++ [(nbr, d + 1)]) edges.

(** The [while let] loop; without fuel there is no answer. *)
Fixpoint bfs_loop (fuel : nat) (depth : Z) (etypes : option (list Z)) (dir : Dir) (st : bfs) : option bfs :=
  match fuel with
  | O => None
  | S fuel =>
      match queue st with
      | [] => Some st
      | (id, d) :: queue =>
          let st := mk_bfs (visited st) queue (nodes st) (edges st) in
          if depth <=? d then bfs_loop fuel depth etypes dir st
          else bfs_loop fuel depth etypes dir (foldl (visit id d) st (expand id etypes dir))
      end
  end.

(** [neighborhood]: each node is queued once, and all but the start are ends of
    edges, so twice the edges and two is fuel enough ([neighborhood_correct]). *)
Definition neighborhood (start depth : Z) (etypes : option (list Z)) (dir : Dir) : option (list (Z * Z) * list triple) :=
  st ← bfs_loop (2 * Z.to_nat (adj_count v) + 2) depth etypes dir (mk_bfs {[start]} [(start, 0)] [] ∅);
  Some (nodes st, sort_unstable (elements (edges st))).

(** ** Specification *)

Context (S : gset triple) `{!AdjacencyReads v S} (etypes : option (list Z)) (dir : Dir).

(** The edge types followed. *)
Definition followed (etype : Z) : Prop := match etypes with Some ts => etype ∈ ts | None => True end.

(** An edge as it is walked from [x] to [y]. *)
Definition walks (x y : Z) (e : triple) : Prop :=
  e ∈ S ∧ followed e.1.1 ∧ ((dir ≠ DIn ∧ e = (e.1.1, x, y)) ∨ (dir ≠ DOut ∧ e = (e.1.1, y, x))).

(** One hop to a visible node. *)
Definition hop (x y : Z) : Prop := visible y = true ∧ ∃ e, walks x y e.

(** Reachable in [n] hops. *)
Inductive reach (start : Z) : nat → Z → Prop :=
| reach_start : reach start 0 start
| reach_hop n x y : reach start n x → hop x y → reach start (Datatypes.S n) y.

(** [d] is the distance of [x]. *)
Definition distance (start x : Z) (d : Z) : Prop :=
  0 ≤ d ∧ reach start (Z.to_nat d) x ∧ ∀ n, reach start n x → d ≤ Z.of_nat n.

(** ** Expansion *)

(** The elements of [l], the first of each. *)
Lemma push_unique_all {A} (f : A → triple) l out seen :
  NoDup out → (∀ e, e ∈ seen ↔ e ∈ out) →
  let st := foldl (λ st a, push_unique st (f a)) (out, seen) l in
  NoDup st.1 ∧ (∀ e, e ∈ st.2 ↔ e ∈ st.1) ∧ (∀ e, e ∈ st.1 ↔ e ∈ out ∨ ∃ a, a ∈ l ∧ e = f a).
Proof.
  revert out seen. induction l as [|a l IH]; intros out seen Hn Hs; cbn [foldl].
  { cbn. split_and!; [done|done|]. intros e. split; [by left|]. by intros [?|(a & Ha%not_elem_of_nil & _)]. }
  change (push_unique (out, seen) (f a))
    with (if bool_decide (f a ∈ seen) then (out, seen) else (out ++ [f a], {[f a]} ∪ seen)). case_bool_decide as Hin.
  - destruct (IH out seen Hn Hs) as (H1 & H2 & H3). split_and!; [done|done|]. intros e. rewrite H3. apply Hs in Hin. set_solver.
  - destruct (IH (out ++ [f a]) ({[f a]} ∪ seen)) as (H1 & H2 & H3).
    + apply NoDup_app. split_and!; [done| |apply NoDup_singleton]. intros e He ->%list_elem_of_singleton. by apply Hin, Hs.
    + intros e. rewrite elem_of_union, elem_of_singleton, elem_of_app, list_elem_of_singleton, Hs. tauto.
    + split_and!; [done|done|]. intros e. rewrite H3, elem_of_app, list_elem_of_singleton. set_solver.
Qed.

(** One edge type of [expand]. *)
Definition expand_type (id : Z) (st : list triple * gset triple) (etype : Z) : list triple * gset triple :=
  let st := match dir with
    | DIn => st
    | _ => foldl (λ st dst, push_unique st (etype, id, dst)) st (adj_neighbors v etype Out id)
    end in
  match dir with
  | DOut => st
  | _ => foldl (λ st src, push_unique st (etype, src, id)) st (adj_neighbors v etype In id)
  end.

(** The edges of one type at a node, in the direction asked for. *)
Definition at_node (id etype : Z) (e : triple) : Prop :=
  (dir ≠ DIn ∧ ∃ w, w ∈ adj_neighbors v etype Out id ∧ e = (etype, id, w)) ∨
  (dir ≠ DOut ∧ ∃ w, w ∈ adj_neighbors v etype In id ∧ e = (etype, w, id)).

Lemma expand_type_spec id out seen etype :
  NoDup out → (∀ e, e ∈ seen ↔ e ∈ out) →
  let st := expand_type id (out, seen) etype in
  NoDup st.1 ∧ (∀ e, e ∈ st.2 ↔ e ∈ st.1) ∧ (∀ e, e ∈ st.1 ↔ e ∈ out ∨ at_node id etype e).
Proof.
  intros Hn Hs. unfold expand_type, at_node. cbv zeta.
  pose proof (push_unique_all (λ w, (etype, id, w)) (adj_neighbors v etype Out id) out seen Hn Hs) as (A1 & A2 & A3).
  set (st1 := foldl _ (out, seen) (adj_neighbors v etype Out id)) in *. destruct dir.
  - split_and!; [done|done|]. intros e. rewrite A3. naive_solver.
  - destruct (push_unique_all (λ w, (etype, w, id)) (adj_neighbors v etype In id) out seen Hn Hs) as (B1 & B2 & B3).
    split_and!; [done|done|]. intros e. rewrite B3. naive_solver.
  - destruct st1 as [out1 seen1]. cbn [fst snd] in *.
    destruct (push_unique_all (λ w, (etype, w, id)) (adj_neighbors v etype In id) out1 seen1 A1 A2) as (B1 & B2 & B3).
    split_and!; [done|done|]. intros e. rewrite B3, A3. naive_solver.
Qed.

Lemma expand_types_spec id types out seen :
  NoDup out → (∀ e, e ∈ seen ↔ e ∈ out) →
  let st := foldl (expand_type id) (out, seen) types in
  NoDup st.1 ∧ (∀ e, e ∈ st.2 ↔ e ∈ st.1) ∧ (∀ e, e ∈ st.1 ↔ e ∈ out ∨ ∃ etype, etype ∈ types ∧ at_node id etype e).
Proof.
  revert out seen. induction types as [|et types IH]; intros out seen Hn Hs; cbn [foldl].
  { cbn. split_and!; [done|done|]. set_solver. }
  destruct (expand_type_spec id out seen et Hn Hs) as (A1 & A2 & A3). destruct (expand_type id (out, seen) et) as [out1 seen1].
  cbn [fst snd] in *. destruct (IH out1 seen1 A1 A2) as (B1 & B2 & B3). split_and!; [done|done|]. intros e. rewrite B3, A3. set_solver.
Qed.

Lemma at_node_walks id etype e : followed etype → at_node id etype e → ∃ y, walks id y e.
Proof.
  intros Hf Hat. unfold walks. destruct Hat as [(Hd & w & Hw & ->)|(Hd & w & Hw & ->)]; exists w; apply adj_edges in Hw; cbn in *; auto.
Qed.

(** [expand] is the edges that can be walked from the node, each once. *)
Lemma expand_spec id : NoDup (expand id etypes dir) ∧ ∀ e, e ∈ expand id etypes dir ↔ ∃ y, walks id y e.
Proof.
  unfold expand. set (types := match etypes with Some ts => _ | None => _ end).
  destruct (expand_types_spec id types [] ∅) as (A1 & _ & A3); [constructor|set_solver|]. split; [exact A1|]. intros e.
  change (λ st etype, _) with (expand_type id). rewrite A3.
  assert (∀ etype, etype ∈ types → followed etype) as Ht1.
  { intros etype Het. unfold followed, types in *. destruct etypes; [|done]. by apply (proj1 (elem_of_sort_dedup _ _)). }
  split.
  - intros [Hnil%not_elem_of_nil|(etype & Het & Hat)]; [done|]. apply (at_node_walks id etype); [by apply Ht1|done].
  - intros (y & Hin & Hf & Hw). right. exists e.1.1. split.
    + unfold followed, types in *. destruct etypes; [by apply (proj2 (elem_of_sort_dedup _ _))|]. destruct e as [[et s] d]. by apply adj_types in Hin.
    + unfold at_node. destruct Hw as [[Hd He]|[Hd He]]; [left|right]; (split; [done|]); exists y; (split; [|done]); apply adj_edges; cbn;
        by rewrite <-He.
Qed.

(** ** Breadth-first search *)

Section search.
Context (start depth : Z).

(** Every node found so far, the start first. *)
Abbreviation found st := ((start, 0) :: nodes st).

(** What a stage of the search knows: [dn] are the nodes taken off the queue and
    [front] those still to take, one of which may be half expanded. *)
Record stage (dn front : list (Z * Z)) (st : bfs) : Prop := {
  st_split : found st = dn ++ front;
  st_visited : ∀ y, y ∈ visited st ↔ y ∈ (found st).*1;
  st_NoDup : NoDup (found st).*1;
  st_sorted : StronglySorted Z.le (found st).*2;
  st_exact : ∀ y d, (y, d) ∈ found st → distance start y d ∧ d ≤ Z.max 0 depth;
  st_near : ∀ x d q, front = (x, d) :: q → ∀ y d', (y, d') ∈ found st → d' ≤ d + 1;
  st_closed : ∀ x d y, (x, d) ∈ dn → d < depth → hop x y → ∃ d', (y, d') ∈ found st ∧ d' ≤ d + 1;
}.

(** The edges walked from the nodes [dn]. *)
Definition walked (dn : list (Z * Z)) (e : triple) : Prop :=
  ∃ x d y, (x, d) ∈ dn ∧ d < depth ∧ walks x y e ∧ visible y = true.

Lemma start_distance : distance start start 0.
Proof. split_and!; [done|constructor|lia]. Qed.

Lemma first_stage : stage [] [(start, 0)] (mk_bfs {[start]} [(start, 0)] [] ∅).
Proof.
  split; cbn.
  - done.
  - intros y. rewrite elem_of_singleton, list_elem_of_singleton. done.
  - apply NoDup_singleton.
  - repeat constructor.
  - intros y d [= -> ->]%list_elem_of_singleton. split; [apply start_distance|lia].
  - intros x d q [= <- <- <-] y d' [= -> ->]%list_elem_of_singleton. lia.
  - intros x d y Hx%not_elem_of_nil. done.
Qed.

(** Depths do not go down along the list. *)
Lemma depth_order dn front st x d :
  stage dn front st → (x, d) ∈ found st → (∀ y d', (y, d') ∈ front → d < d') → (x, d) ∈ dn.
Proof.
  intros Hs Hin Hlt. rewrite (st_split _ _ _ Hs) in Hin. apply elem_of_app in Hin as [?|Hin]; [done|]. specialize (Hlt _ _ Hin). lia.
Qed.

Lemma front_depths dn x d q st y d' : stage dn ((x, d) :: q) st → (y, d') ∈ (x, d) :: q → d ≤ d'.
Proof.
  intros Hs Hin. pose proof (st_sorted _ _ _ Hs) as Hso. rewrite (st_split _ _ _ Hs), fmap_app in Hso.
  apply StronglySorted_app_1_r in Hso. cbn in Hso. apply StronglySorted_inv in Hso as [_ Hf]. rewrite Forall_forall in Hf.
  apply elem_of_cons in Hin as [[= -> ->]|Hin]; [done|]. apply Hf. by apply (list_elem_of_fmap_2 snd) in Hin.
Qed.

(** Whatever is nearer than the head of the queue is found. *)
Lemma stage_early dn x d q st n z :
  stage dn ((x, d) :: q) st → d < depth → Z.of_nat n ≤ d → reach start n z → ∃ d', (z, d') ∈ found st ∧ d' ≤ Z.of_nat n.
Proof.
  intros Hs Hd Hn Hr. revert Hn. induction Hr as [|n w z Hr IH Hh]; intros Hn.
  { exists 0. split; [by left|lia]. }
  destruct IH as (dw & Hw & Hdw); [lia|].
  destruct (st_closed _ _ _ Hs w dw z) as (d' & Hz & Hd'); [|lia|done|exists d'; split; [done|lia]].
  apply (depth_order _ _ _ _ _ Hs Hw). intros y d' Hy%(front_depths _ _ _ _ _ _ _ Hs). lia.
Qed.

(** A neighbour not seen before is one further than the head. *)
Lemma stage_new dn x d q st y :
  stage dn ((x, d) :: q) st → d < depth → hop x y → y ∉ visited st → distance start y (d + 1).
Proof.
  intros Hs Hd Hh Hnew. assert ((x, d) ∈ found st) as Hx by (rewrite (st_split _ _ _ Hs); apply elem_of_app; right; by left).
  destruct (st_exact _ _ _ Hs _ _ Hx) as [(H0 & Hr & _) _]. split_and!; [lia| |].
  - replace (Z.to_nat (d + 1)) with (Datatypes.S (Z.to_nat d)) by lia. by apply (reach_hop start _ x).
  - intros n Hn. destruct (Z.le_gt_cases (d + 1) (Z.of_nat n)); [done|]. exfalso.
    destruct (stage_early dn x d q st n y Hs Hd ltac:(lia) Hn) as (d' & Hy & _).
    apply Hnew, (st_visited _ _ _ Hs). by apply (list_elem_of_fmap_2 fst) in Hy.
Qed.

Lemma sorted_snoc (l : list Z) a : StronglySorted Z.le l → (∀ b, b ∈ l → b ≤ a) → StronglySorted Z.le (l ++ [a]).
Proof.
  induction 1 as [|b l Hl IH Hf]; intros Ha; cbn [app]; [repeat constructor|]. constructor.
  - apply IH. intros c Hc. apply Ha. by right.
  - apply Forall_app. split; [done|]. constructor; [|done]. apply Ha. by left.
Qed.

(** Queueing a neighbour of the head. *)
Lemma stage_push dn x d q st y es :
  stage dn ((x, d) :: q) st → d < depth → hop x y → y ∉ visited st →
  stage dn ((x, d) :: q ++ [(y, d + 1)]) (mk_bfs ({[y]} ∪ visited st) (queue st ++ [(y, d + 1)]) (nodes st ++ [(y, d + 1)]) es).
Proof.
  intros Hs Hd Hh Hnew. pose proof (stage_new _ _ _ _ _ _ Hs Hd Hh Hnew) as Hdist.
  assert (∀ z d', (z, d') ∈ found st → d' ≤ d + 1) as Hnear by (by eapply st_near).
  assert ((start, 0) :: nodes st ++ [(y, d + 1)] = found st ++ [(y, d + 1)]) as Eapp by done.
  split; cbn [nodes visited queue]; rewrite ?Eapp.
  - rewrite (st_split _ _ _ Hs), <-app_assoc. done.
  - intros z. rewrite elem_of_union, elem_of_singleton, (st_visited _ _ _ Hs), fmap_app, elem_of_app.
    change ([(y, d + 1)].*1) with [y]. rewrite list_elem_of_singleton. tauto.
  - rewrite fmap_app. apply NoDup_app. split_and!; [apply Hs| |apply NoDup_singleton].
    intros z Hz ->%list_elem_of_singleton. by apply Hnew, (st_visited _ _ _ Hs).
  - rewrite fmap_app. apply sorted_snoc; [apply Hs|]. intros b ([z d'] & -> & Hz)%list_elem_of_fmap. by eapply Hnear.
  - intros z d' [Hz|[= -> ->]%list_elem_of_singleton]%elem_of_app; [by apply (st_exact _ _ _ Hs)|]. split; [done|lia].
  - intros x' d' q' [= <- <- _] z dz [Hz|[= -> ->]%list_elem_of_singleton]%elem_of_app; [by eapply Hnear|lia].
  - intros a b c Hin Hlt Hhop. destruct (st_closed _ _ _ Hs a b c Hin Hlt Hhop) as (d' & Hc & ?). exists d'. split; [|done].
    apply elem_of_app. by left.
Qed.

(** ** One turn of the loop *)

Lemma nbr_of x y e : walks x y e → (if e.1.2 =? x then e.2 else e.1.2) = y.
Proof.
  intros (_ & _ & [[_ ->]|[_ ->]]); cbn; [by rewrite Z.eqb_refl|]. destruct (Z.eqb_spec y x); done.
Qed.

(** The [for] loop at the head: the stage goes on, the queue's own tail with it,
    every neighbour is found and the edges to visible ones are kept. *)
Lemma visit_all dn x d q st es :
  stage dn ((x, d) :: q) st → queue st = q → d < depth → Forall (λ e, ∃ y, walks x y e) es →
  let st' := foldl (visit x d) st es in
  ∃ q', stage dn ((x, d) :: q') st' ∧ queue st' = q'
    ∧ (∀ y, y ∈ visited st → y ∈ visited st')
    ∧ (∀ e y, e ∈ es → walks x y e → visible y = true → y ∈ visited st')
    ∧ (∀ e, e ∈ edges st' ↔ e ∈ edges st ∨ e ∈ es ∧ ∃ y, walks x y e ∧ visible y = true).
Proof.
  intros Hs Hq Hd Hes. revert q st Hs Hq. induction Hes as [|e es (y & Hy) Hes IH]; intros q st Hs Hq; cbn [foldl].
  { exists q. split_and!; [done|done|done|set_solver|set_solver]. }
  assert (visit x d st e = (if negb (visible y) then st
            else if bool_decide (y ∈ visited st) then mk_bfs (visited st) (queue st) (nodes st) ({[e]} ∪ edges st)
            else mk_bfs ({[y]} ∪ visited st) (queue st ++ [(y, d + 1)]) (nodes st ++ [(y, d + 1)]) ({[e]} ∪ edges st))) as Ev.
  { pose proof (nbr_of x y e Hy) as En. destruct e as [[et s] t]. cbn in En. unfold visit. by rewrite En. }
  assert (∀ y', walks x y' e → y' = y) as Huniq.
  { intros y' Hy'. apply nbr_of in Hy as <-. by apply nbr_of in Hy' as <-. }
  assert (∃ q1, stage dn ((x, d) :: q1) (visit x d st e) ∧ queue (visit x d st e) = q1
    ∧ (∀ z, z ∈ visited st → z ∈ visited (visit x d st e)) ∧ (visible y = true → y ∈ visited (visit x d st e))
    ∧ (∀ e', e' ∈ edges (visit x d st e) ↔ e' ∈ edges st ∨ e' = e ∧ visible y = true)) as (q1 & Hs1 & Hq1 & Hm1 & Hv1 & He1).
  { rewrite Ev. destruct (visible y) eqn:Evis; cbn [negb].
    - case_bool_decide as Hin.
      + exists q. split_and!; [by destruct Hs; split|done|done|done|]. cbn. set_solver.
      + exists (q ++ [(y, d + 1)]). cbn [visited edges queue]. split_and!; [|by rewrite Hq|set_solver|set_solver|set_solver].
        apply stage_push; [done|done| |done]. split; [done|by exists e].
    - exists q. split_and!; [done|done|done|done|]. naive_solver. }
  destruct (IH q1 _ Hs1 Hq1) as (q' & Hs' & Hq' & Hm' & Hv' & He'). exists q'. split_and!; [done|done|auto| |].
  - intros e' y' [->|Hin]%elem_of_cons Hw Hvis; [|by eapply Hv']. rewrite (Huniq y' Hw) in *. auto.
  - intros e'. rewrite He', He1, elem_of_cons. split.
    + intros [[?|[-> Hvis]]|[? ?]]; [by left|right; split; [by left|by exists y]|right; split; [by right|done]].
    + intros [?|[[->|?] (y' & Hw & Hvis)]]; [by left; left| |by right; eauto]. left. right. by rewrite (Huniq y' Hw) in Hvis.
Qed.

(** Taking the head off. *)
Lemma stage_pop dn x d q st :
  stage dn ((x, d) :: q) st → (d < depth → ∀ y, hop x y → y ∈ visited st) → stage (dn ++ [(x, d)]) q st.
Proof.
  intros Hs Hall. pose proof (λ y d', front_depths dn x d q st y d' Hs) as Hf. split; try apply Hs.
  - rewrite (st_split _ _ _ Hs), <-app_assoc. done.
  - intros x' d' q' -> y dy Hy. pose proof (st_near _ _ _ Hs _ _ _ eq_refl _ _ Hy). pose proof (Hf x' d' ltac:(right; by left)). lia.
  - intros a b c [Hin|[= -> ->]%list_elem_of_singleton]%elem_of_app Hlt Hhop; [by apply (st_closed _ _ _ Hs a b c)|].
    specialize (Hall Hlt c Hhop). apply (st_visited _ _ _ Hs), list_elem_of_fmap in Hall as ([c' d'] & -> & Hc). cbn.
    exists d'. split; [done|]. by apply (st_near _ _ _ Hs _ _ _ eq_refl _ _ Hc).
Qed.

(** ** The whole loop *)

(** A node is the start or the end of an edge: there are not many. *)
Lemma found_few dn front st : stage dn front st → (length (found st) ≤ 2 * size S + 1)%nat.
Proof.
  intros Hs. set (ends := elements S ≫= λ e : triple, [e.1.2; e.2]).
  assert (length ends = (2 * size S)%nat) as Hlen.
  { unfold ends. change (size S) with (length (elements S)). generalize (elements S). intros l.
    induction l as [|e l IH]; [done|]. rewrite bind_cons, length_app, IH. simpl. lia. }
  assert ((found st).*1 ⊆+ start :: ends) as Hsub.
  { apply NoDup_submseteq; [apply Hs|]. intros y ([y' d] & -> & Hy)%list_elem_of_fmap. cbn.
    destruct (st_exact _ _ _ Hs _ _ Hy) as [(_ & Hr & _) _]. apply elem_of_cons. destruct Hr as [|n x y Hr [_ (e & Hin & _ & Hw)]]; [by left|right].
    apply list_elem_of_bind. exists e. split; [|by apply elem_of_elements]. destruct Hw as [[_ ->]|[_ ->]]; cbn; set_solver. }
  apply submseteq_length in Hsub. rewrite length_fmap in Hsub. cbn [length] in *. lia.
Qed.

Lemma bfs_loop_done f dn st :
  stage dn (queue st) st → (∀ e, e ∈ edges st ↔ walked dn e) → (2 * size S + 1 - length dn < f)%nat →
  ∃ st' dn', bfs_loop f depth etypes dir st = Some st' ∧ stage dn' [] st' ∧ (∀ e, e ∈ edges st' ↔ walked dn' e).
Proof.
  revert dn st. induction f as [|f IH]; intros dn st Hs He Hf; [lia|]. cbn [bfs_loop].
  destruct (queue st) as [|[x d] q] eqn:Eq; [by exists st, dn|].
  assert (length dn < 2 * size S + 1)%nat as Hlt.
  { pose proof (found_few _ _ _ Hs) as Hl. rewrite (st_split _ _ _ Hs), length_app in Hl. simpl in Hl. lia. }
  assert (stage dn ((x, d) :: q) (mk_bfs (visited st) q (nodes st) (edges st))) as Hs0 by (by destruct Hs; split).
  destruct (Z.leb_spec depth d) as [Hge|Hd].
  - apply (IH (dn ++ [(x, d)])); [apply stage_pop; [done|lia]| |rewrite length_app; simpl; lia]. intros e. cbn [edges]. rewrite He.
    unfold walked. split; intros (a & b & c & Hin & Hb & Hw & Hv); exists a, b, c; (split; [|done]); [apply elem_of_app; by left|].
    apply elem_of_app in Hin as [?|[= -> ->]%list_elem_of_singleton]; [done|lia].
  - destruct (expand_spec x) as [_ Hex].
    destruct (visit_all dn x d q _ (expand x etypes dir) Hs0 eq_refl Hd) as (q' & Hs' & Hq' & _ & Hv' & He').
    { rewrite Forall_forall. intros e He1. by apply Hex. }
    apply (IH (dn ++ [(x, d)])); [|intros e|rewrite length_app; simpl; lia].
    + rewrite Hq'. apply stage_pop; [done|]. intros _ y [Hvis (e & Hw)]. apply (Hv' e y); [apply Hex; by exists y|done|done].
    + rewrite He'. cbn [edges]. rewrite He. unfold walked. split.
      * intros [(a & b & c & Hin & Hb & Hw & Hv)|[Hin (y & Hw & Hvis)]].
        -- exists a, b, c. split; [apply elem_of_app; by left|done].
        -- exists x, d, y. split; [apply elem_of_app; right; by left|done].
      * intros (a & b & c & [Hin|[= -> ->]%list_elem_of_singleton]%elem_of_app & Hb & Hw & Hv); [left; by exists a, b, c|].
        right. split; [apply Hex; by exists c|by exists c].
Qed.

Lemma distance_inj x d d' : distance start x d → distance start x d' → d = d'.
Proof.
  intros (H1 & H2 & H3) (H1' & H2' & H3'). specialize (H3 _ H2'). specialize (H3' _ H2). lia.
Qed.

(** Nothing left to take: everything near enough is found. *)
Lemma stage_complete dn st n y :
  stage dn [] st → Z.of_nat n ≤ depth → reach start n y → ∃ d, (y, d) ∈ found st ∧ d ≤ Z.of_nat n.
Proof.
  intros Hs Hn Hr. revert Hn. induction Hr as [|n w z Hr IH Hh]; intros Hn; [exists 0; split; [by left|lia]|].
  destruct IH as (dw & Hw & Hdw); [lia|]. pose proof (st_split _ _ _ Hs) as Hsp. rewrite app_nil_r in Hsp.
  destruct (st_closed _ _ _ Hs w dw z) as (d' & Hz & Hd'); [by rewrite <-Hsp|lia|done|]. exists d'. split; [done|lia].
Qed.

(** What [neighborhood] promises: the nodes in breadth-first order with their
    distances, and the edges between them that were walked. *)
Record is_neighborhood (ns : list (Z * Z)) (es : list triple) : Prop := {
  nb_NoDup : NoDup ns.*1;
  nb_order : StronglySorted Z.le ns.*2;
  nb_nodes : ∀ y d, (y, d) ∈ ns ↔ y ≠ start ∧ d ≤ depth ∧ distance start y d;
  nb_sorted : sorted es;
  nb_edges : ∀ e, e ∈ es ↔ ∃ x d y, distance start x d ∧ d < depth ∧ walks x y e ∧ visible y = true;
}.

Lemma neighborhood_spec :
  0 ≤ depth → ∃ ns es, neighborhood start depth etypes dir = Some (ns, es) ∧ is_neighborhood ns es.
Proof.
  intros H0. unfold neighborhood.
  destruct (bfs_loop_done (2 * Z.to_nat (adj_count v) + 2) [] (mk_bfs {[start]} [(start, 0)] [] ∅)) as (st & dn & -> & Hs & He).
  - apply first_stage.
  - intros e. cbn. split; [by intros ?%not_elem_of_empty|]. by intros (x & d & y & Hin%not_elem_of_nil & _).
  - rewrite adj_size, Nat2Z.id. cbn [length]. lia.
  - cbn [mbind option_bind]. eexists _, _. split; [done|]. pose proof (st_split _ _ _ Hs) as Hsp. rewrite app_nil_r in Hsp.
    assert (∀ y d, (y, d) ∈ found st ↔ d ≤ depth ∧ distance start y d) as Hall.
    { intros y d. split; [intros Hin; destruct (st_exact _ _ _ Hs _ _ Hin); split; [lia|done]|]. intros [Hd Hdist].
      pose proof Hdist as (Hpos & Hr & _). destruct (stage_complete dn st (Z.to_nat d) y Hs ltac:(lia) Hr) as (d' & Hin & _).
      destruct (st_exact _ _ _ Hs _ _ Hin) as [Hdist' _]. by rewrite (distance_inj y d d'). }
    pose proof (st_NoDup _ _ _ Hs) as Hnd. cbn in Hnd. apply NoDup_cons in Hnd as [Hst Hnd]. split.
    + done.
    + pose proof (st_sorted _ _ _ Hs) as Hso. cbn in Hso. by apply StronglySorted_inv in Hso as [Hso _].
    + intros y d. rewrite <-Hall, elem_of_cons. split.
      * intros Hin. split; [|by right]. intros ->. apply (list_elem_of_fmap_2 fst) in Hin. by apply Hst.
      * intros [Hne [[= -> ->]|Hin]]; done.
    + apply sort_NoDup_sorted, NoDup_elements.
    + intros e. rewrite elem_of_sort, elem_of_elements, He. unfold walked. rewrite <-Hsp. setoid_rewrite Hall.
      split; intros (x & d & y & H1 & H2 & H3); exists x, d, y; (split; [|done]); [by destruct H1|split; [lia|done]].
Qed.
End search.
End traverse.

(** C24: the neighbourhood query is breadth-first search: over any adjacency that
    shows the edge set [S] and any mask it terminates (within the fuel of its
    model) and returns each visible node other than the start reachable from it
    within [depth] hops exactly once, with its distance, in order of distance, no walk
    leading through a hidden node; and, sorted, exactly the edges of the
    followed types and direction that lead from such a node below the depth limit
    to a visible one.  One-hop expansion is exactly the edges that can be walked
    from a node, each once. *)
Theorem neighborhood_correct {V} `{Adjacency V} (v : V) (mask : option VisibleSet.t) (S : gset triple)
    (start depth : Z) (etypes : option (list Z)) (dir : Dir) :
  AdjacencyReads v S → 0 ≤ depth →
  (∃ ns es, neighborhood v mask start depth etypes dir = Some (ns, es) ∧ is_neighborhood mask S etypes dir start depth ns es) ∧
  (∀ id, NoDup (expand v id etypes dir) ∧ ∀ e, e ∈ expand v id etypes dir ↔ ∃ y, walks S etypes dir id y e).
Proof. intros Hr H0. split; [by apply neighborhood_spec|intros id; by apply expand_spec]. Qed.

Lemma neighborhood_correct_witness :
  ∃ st ns es, EdgeStore.run [EdgeStore.DerivedAdd (7, 1, 2); EdgeStore.Snapshot; EdgeStore.DerivedAdd (7, 2, 3)] EdgeStore.empty_store = Some st
    ∧ neighborhood (EdgeStore.topo_view st) None 1 2 None DOut = Some (ns, es)
    ∧ is_neighborhood None {[(7, 1, 2); (7, 2, 3)]} None DOut 1 2 ns es.
Proof.
  destruct (EdgeStore.run_reads_as [EdgeStore.DerivedAdd (7, 1, 2); EdgeStore.Snapshot; EdgeStore.DerivedAdd (7, 2, 3)])
    as (st & E & _ & Hr); [vm_compute; reflexivity|].
  destruct (neighborhood_correct (EdgeStore.topo_view st) None {[(7, 1, 2); (7, 2, 3)]} 1 2 None DOut) as [(ns & es & En & Hn) _].
  - apply topology_view_reads. replace ({[(7, 1, 2); (7, 2, 3)]} : gset triple)
      with (EdgeStore.spec_run [EdgeStore.DerivedAdd (7, 1, 2); EdgeStore.Snapshot; EdgeStore.DerivedAdd (7, 2, 3)]); [exact Hr|].
    cbn. set_solver.
  - lia.
  - exists st, ns, es. split; [exact E|]. split; [exact En|exact Hn].
Defined.
End Traverse.
