(* ===== verification/Lease.v ===== *)
(** The bucket lease of the backup worker ([backup/src/lease.rs], and the part of
    [backup/src/worker.rs] that sequences its calls).

    The asynchronous functions are programs in a small monad ([prog]) whose
    effects are the requests to the object store, the readings of the two clocks
    and the critical sections on the shared [Held].  The object store
    (object_store), the RFC 3339 text of a time (time) and JSON (serde_json) are
    parameters; [ObjectStore] is the store's interface, [ConditionalStore] what a
    service with conditional PUT promises.

    [World] is the system: processes that run these programs against one service,
    interleaved request by request, with answers that get lost, requests that
    land late or twice, calls that are cancelled and clocks that disagree.

    Times are nanoseconds. *)

From S2P Require Import Prelude.
Open Scope Z_scope.

(** ** The object store's interface *)

(** [object_store::UpdateVersion] *)
Record UpdateVersion := mk_version { e_tag : option string; version : option string }.

(** [object_store::PutMode] *)
Inductive PutMode := Create | Overwrite | Update (v : UpdateVersion).

(** [object_store::Error], the variants the lease tells apart *)
Inductive StoreError := AlreadyExists | Precondition | NotFound | NotImplemented | Generic.

#[export] Instance UpdateVersion_eq_dec : EqDecision UpdateVersion.
Proof. solve_decision. Defined.
#[export] Instance StoreError_eq_dec : EqDecision StoreError.
Proof. solve_decision. Defined.
#[export] Instance UpdateVersion_countable : Countable UpdateVersion.
Proof.
  refine (inj_countable' (λ v, (e_tag v, version v)) (λ p, mk_version p.1 p.2) _). by intros [? ?].
Defined.

(** A store, seen at the lease's key: the object there, with the version its last
    write left, and the two requests that change it.  A GET answers [os_object]. *)
Class ObjectStore (B St : Type) := {
  os_object : St → option (B * UpdateVersion);
  os_put : St → B → PutMode → result StoreError UpdateVersion * St;
  os_delete : St → result StoreError unit * St;
}.

(** What a PUT asks for. *)
Definition precondition {B St} `{ObjectStore B St} (st : St) (m : PutMode) : Prop :=
  match m with
  | Create => os_object st = None
  | Overwrite => True
  | Update v => ∃ b, os_object st = Some (b, v)
  end.

(** What a service with conditional PUT promises: a PUT whose precondition holds
    is accepted under a version no earlier write had, one whose precondition does
    not hold is refused and changes nothing. *)
Class ConditionalStore (B St : Type) `{ObjectStore B St} (issued : St → UpdateVersion → Prop) : Prop := {
  put_accepted st b m :
    precondition st m →
    ∃ v st', os_put st b m = (Ok v, st') ∧ os_object st' = Some (b, v)
      ∧ ¬ issued st v ∧ ∀ u, issued st' u ↔ u = v ∨ issued st u;
  create_refused st b o :
    os_object st = Some o → ∃ e, os_put st b Create = (Err e, st) ∧ (e = AlreadyExists ∨ e = Precondition);
  update_refused st b v :
    ¬ precondition st (Update v) → ∃ e, os_put st b (Update v) = (Err e, st) ∧ (e = Precondition ∨ e = NotFound ∧ os_object st = None);
  delete_clears st :
    ∃ r st', os_delete st = (r, st') ∧ os_object st' = None ∧ (r = Ok tt ∨ r = Err NotFound) ∧ ∀ u, issued st' u ↔ issued st u;
  object_issued st b v : os_object st = Some (b, v) → issued st v;
}.

(** What a service without conditional PUT does: it answers [NotImplemented] to
    one, changing nothing, and accepts a plain PUT. *)
Class PlainStore (B St : Type) `{ObjectStore B St} : Prop := {
  create_unsupported st b : os_put st b Create = (Err NotImplemented, st);
  update_unsupported st b v : os_put st b (Update v) = (Err NotImplemented, st);
  overwrite_accepted st b : ∃ v st', os_put st b Overwrite = (Ok v, st') ∧ os_object st' = Some (b, v);
}.

#[export] Instance precondition_dec {B St} `{ObjectStore B St} (st : St) m : Decision (precondition st m).
Proof.
  destruct m as [| |v]; cbn.
  - destruct (os_object st); [right|left]; congruence.
  - left. exact I.
  - destruct (os_object st) as [[b u]|]; [|right; naive_solver].
    destruct (decide (u = v)) as [->|]; [left; by exists b|right; naive_solver].
Defined.

(** A refused PUT says so and changes nothing. *)
Lemma put_refused {B St} `{ConditionalStore B St issued} (st : St) b m :
  ¬ precondition st m → ∃ e, os_put st b m = (Err e, st) ∧ (e = AlreadyExists ∨ e = Precondition ∨ e = NotFound).
Proof.
  destruct m as [| |v]; cbn [precondition]; [|naive_solver|].
  - intros Ho. destruct (os_object st) as [o|] eqn:Eo; [|done]. destruct (create_refused st b o Eo) as (e & ? & ?). exists e. naive_solver.
  - intros Ho. destruct (update_refused st b v Ho) as (e & ? & ?). exists e. naive_solver.
Qed.

(** ** A service in memory *)

Module MemStore.

Fixpoint pos_text (p : positive) : string :=
  match p with
  | xH => EmptyString
  | xO p => String Ascii.zero (pos_text p)
  | xI p => String Ascii.one (pos_text p)
  end.
Fixpoint text_pos (s : string) : positive :=
  match s with
  | EmptyString => xH
  | String c s => if Ascii.eqb c Ascii.zero then xO (text_pos s) else xI (text_pos s)
  end.

Lemma text_pos_text p : text_pos (pos_text p) = p.
Proof. induction p as [p IH|p IH|]; cbn; [by rewrite IH|by rewrite IH|done]. Qed.

(** The object, and how many writes there were: its ETag is that number. *)
Section mem.
Context {B : Type}.
Definition mem_store : Type := option B * nat.
Definition mem_tag (n : nat) : UpdateVersion := mk_version (Some (pos_text (encode n))) None.
Definition mem_issued (st : mem_store) (v : UpdateVersion) : Prop := ∃ n, (n ≤ st.2)%nat ∧ v = mem_tag n.
Definition mem_object (st : mem_store) : option (B * UpdateVersion) := (.,mem_tag st.2) <$> st.1.

Definition mem_put (st : mem_store) (b : B) (m : PutMode) : result StoreError UpdateVersion * mem_store :=
  let accept := (Ok (mem_tag (S st.2)), (Some b, S st.2)) in
  match m with
  | Create => if st.1 then (Err AlreadyExists, st) else accept
  | Overwrite => accept
  | Update v => if bool_decide (snd <$> mem_object st = Some v) then accept else (Err Precondition, st)
  end.

#[export] Instance mem_object_store : ObjectStore B mem_store := {
  os_object := mem_object;
  os_put := mem_put;
  os_delete st := (Ok tt, (None, st.2));
}.

Lemma mem_tag_inj n m : mem_tag n = mem_tag m → n = m.
Proof.
  unfold mem_tag. intros [= E]. apply (f_equal text_pos) in E. rewrite !text_pos_text in E. by apply (inj encode) in E.
Qed.

#[export] Instance mem_conditional : ConditionalStore B mem_store mem_issued.
Proof.
  split.
  - intros [o n] b m Hpre. exists (mem_tag (S n)), (Some b, S n). cbn. split_and!.
    + destruct m as [| |v]; cbn in *; [destruct o; done|done|]. destruct Hpre as [b0 E]. by rewrite E, bool_decide_true.
    + done.
    + intros (k & Hk & E). cbn in Hk. apply mem_tag_inj in E. lia.
    + intros u. unfold mem_issued. cbn. split.
      * intros (k & Hk & ->). destruct (decide (k = S n)) as [->|]; [by left|]. right. exists k. split; [lia|done].
      * intros [->|(k & Hk & ->)]; [exists (S n)|exists k]; (split; [lia|done]).
  - intros [[b0|] n] b o E; [|done]. exists AlreadyExists. split; [done|by left].
  - intros [o n] b v Hno. exists Precondition. split; [|by left]. cbn. rewrite bool_decide_false; [done|].
    intros E. apply Hno. destruct o as [b0|]; [|done]. exists b0. cbn in *. congruence.
  - intros [o n]. exists (Ok tt), (None, n). cbn. split_and!; [done|done|by left|done].
  - intros [[b0|] n] b v E; [|done]. cbn in E. injection E as <- <-. by exists n.
Qed.
End mem.
#[global] Arguments mem_store : clear implicits.
End MemStore.

Module Lease.

Definition ACQUIRE_RACES : nat := 3.
Definition MAX_SANE_TTL_S : Z := 3600.

(** The text of [PROBE_ETAG] is quoted. *)
Definition PROBE_ETAG : string := String (Ascii.ascii_of_nat 34) ("mushroomdb-lease-probe-not-an-etag" +:+ String (Ascii.ascii_of_nat 34) EmptyString).

Definition SECOND : Z := 1000000000.
Definition MILLI : Z := 1000000.

Record LeaseRecord := mk_record {
  instance_id : string;
  acquired_at : string;
  renewed_at : string;
  ttl_s : Z;
}.

Inductive Exclusion := Conditional | BestEffort.

Inductive LeaseError :=
| ForeignActive (instance_id : string)
| Lost (instance_id : option string)
| PreconditionsIgnored (header : string)
| Store (e : StoreError).

(** [LeaseWatch::seen]: the tag of a suspect record, and since when. *)
Definition LeaseWatch : Type := option (string * Z).

Record Held := mk_held {
  h_version : UpdateVersion;
  confirmed : Z;
  confirmed_wall : Z;
  exclusion : Exclusion;
  lost : bool;
}.

Record BucketLease := mk_lease {
  bl_instance_id : string;
  bl_ttl_s : Z;
  bl_acquired_at : string;
  held : Held;
}.

#[export] Instance Exclusion_eq_dec : EqDecision Exclusion.
Proof. solve_decision. Defined.

Definition set_lost (h : Held) : Held := mk_held (h_version h) (confirmed h) (confirmed_wall h) (exclusion h) true.
Definition set_exclusion (x : Exclusion) (h : Held) : Held := mk_held (h_version h) (confirmed h) (confirmed_wall h) x (lost h).
Definition set_confirmed (v : UpdateVersion) (c cw : Z) (h : Held) : Held := mk_held v c cw (exclusion h) (lost h).
Definition set_held (h : Held) (l : BucketLease) : BucketLease := mk_lease (bl_instance_id l) (bl_ttl_s l) (bl_acquired_at l) h.

(** ** Programs *)

(** What an asynchronous function does between its awaits: requests with what to
    do with the answer, [Instant::now()] and [SystemTime::now()], and critical
    sections on the lease's [Held] ([Lock f k] stores [f h] and goes on with [k h]). *)
Inductive prog (B A : Type) :=
| Ret (a : A)
| InstantNow (k : Z → prog B A)
| SystemNow (k : Z → prog B A)
| Lock (f : Held → Held) (k : Held → prog B A)
| Get (k : result StoreError (B * UpdateVersion) → prog B A)
| Put (b : B) (mode : PutMode) (k : result StoreError UpdateVersion → prog B A)
| Delete (k : result StoreError unit → prog B A).
#[global] Arguments Ret {B A}.
#[global] Arguments InstantNow {B A}.
#[global] Arguments SystemNow {B A}.
#[global] Arguments Lock {B A}.
#[global] Arguments Get {B A}.
#[global] Arguments Put {B A}.
#[global] Arguments Delete {B A}.

#[export] Instance prog_bind {B} : MBind (prog B) :=
  λ A C f, fix go p :=
    match p with
    | Ret a => f a
    | InstantNow k => InstantNow (λ x, go (k x))
    | SystemNow k => SystemNow (λ x, go (k x))
    | Lock g k => Lock g (λ x, go (k x))
    | Get k => Get (λ x, go (k x))
    | Put b m k => Put b m (λ x, go (k x))
    | Delete k => Delete (λ x, go (k x))
    end.

(** [await?] in a function that returns a [Result] *)
Definition try_bind {B A C} (p : prog B (result LeaseError A)) (f : A → prog B (result LeaseError C)) : prog B (result LeaseError C) :=
  p ≫= λ r, match r with Ok a => f a | Err e => Ret (Err e) end.
Notation "x ←? p ; k" := (try_bind p (λ x, k)) (at level 20, p at level 100, k at level 200, right associativity).

Section lease.
Context {B : Type} (to_vec : LeaseRecord → B) (from_slice : B → option LeaseRecord).
Context (format : Z → option string) (parse : string → option Z).
Local Notation Prog := (prog B).
Local Notation Answer A := (result LeaseError A).

(** [rfc3339] *)
Definition rfc3339 (t : Z) : string := default "" (format t).

(** ** Records *)

(** [LeaseRecord::is_fresh] *)
Definition is_fresh (self : LeaseRecord) (now : Z) : bool :=
  match parse (renewed_at self) with
  | None => false
  | Some renewed =>
      let ttl := default i64_max (try_i 64 (ttl_s self)) * SECOND in
      now - renewed <? ttl
  end.

(** [LeaseRecord::is_suspect] *)
Definition is_suspect (self : LeaseRecord) (now : Z) : bool :=
  if MAX_SANE_TTL_S <? ttl_s self then true
  else
    match parse (renewed_at self) with
    | None => false
    | Some renewed => ttl_s self * SECOND <? renewed - now
    end.

(** ** Requests *)

(** [read] *)
Definition read : Prog (Answer (option (option LeaseRecord * UpdateVersion))) :=
  Get (λ got,
    match got with
    | Ok (bytes, v) => Ret (Ok (Some (from_slice bytes, v)))
    | Err NotFound => Ret (Ok None)
    | Err e => Ret (Err (Store e))
    end).

(** [put] *)
Definition put (record : LeaseRecord) (mode : PutMode) : Prog (result StoreError UpdateVersion) :=
  Put (to_vec record) mode Ret.

(** [probe_verdict] *)
Definition probe_verdict (answer : result StoreError UpdateVersion) (header : string) : Answer Exclusion :=
  match answer with
  | Err AlreadyExists | Err Precondition => Ok Conditional
  | Err NotImplemented => Ok BestEffort
  | Ok _ => Err (PreconditionsIgnored header)
  | Err e => Err (Store e)
  end.

(** [foreign_blocks] *)
Definition foreign_blocks (rec : LeaseRecord) (v : UpdateVersion) (ttl : Z) (watch : LeaseWatch) : Prog (Answer unit * LeaseWatch) :=
  SystemNow (λ now,
    let blocked := Err (ForeignActive (instance_id rec)) in
    if negb (is_fresh rec now) then Ret (Ok tt, watch)
    else if negb (is_suspect rec now) then Ret (blocked, None)
    else
      let tag := default "" (e_tag v) +:+ "|" +:+ default "" (version v) +:+ "|" +:+ renewed_at rec in
      match watch with
      | Some (seen, since) =>
          if String.eqb seen tag then
            InstantNow (λ t, if ttl * SECOND <=? t - since then Ret (Ok tt, watch) else Ret (blocked, watch))
          else InstantNow (λ t, Ret (blocked, Some (tag, t)))
      | None => InstantNow (λ t, Ret (blocked, Some (tag, t)))
      end).

(** [release_own_record] *)
Definition release_own_record (me : string) : Prog (Answer unit) :=
  current ←? read;
  match current with
  | Some (Some record, _) =>
      if String.eqb (instance_id record) me then
        Delete (λ r,
          match r with
          | Ok _ | Err NotFound => Ret (Ok tt)
          | Err error => Ret (Err (Store error))
          end)
      else Ret (Ok tt)
  | _ => Ret (Ok tt)
  end.

(** ** Taking the lease *)

(** [BucketLease::probe]: the lease is not shared yet, so its [Held] is passed on. *)
Fixpoint probe_all (record : LeaseRecord) (probes : list (PutMode * string)) (h : Held) : Prog (Answer Held) :=
  match probes with
  | [] => Ret (Ok h)
  | (mode, header) :: probes =>
      answer ← put record mode;
      match probe_verdict answer header with
      | Ok Conditional => probe_all record probes h
      | Ok BestEffort => probe_all record probes (set_exclusion BestEffort h)
      | Err e => Ret (Err e)
      end
  end.

Definition probe (record : LeaseRecord) (h : Held) : Prog (Answer Held) :=
  probe_all record [(Create, "If-None-Match"); (Update (mk_version (Some PROBE_ETAG) None), "If-Match")] h.

(** [acquire_as], from a successful PUT on *)
Definition acquired (me : string) (ttl : Z) (record : LeaseRecord) (stamp : string) (c cw : Z) (watch : LeaseWatch)
    (v : UpdateVersion) (x : Exclusion) : Prog (Answer BucketLease * LeaseWatch) :=
  let lease := mk_lease me ttl stamp (mk_held v c cw x false) in
  match x with
  | BestEffort => Ret (Ok lease, None)
  | Conditional =>
      r ← probe record (held lease);
      match r with
      | Ok h => Ret (Ok (set_held h lease), None)
      | Err (PreconditionsIgnored header) =>
          _ ← release_own_record me;
          Ret (Err (PreconditionsIgnored header), watch)
      | Err e => Ret (Err e, watch)
      end
  end.

(** One race of [acquire_as], the foreign record out of the way: stamp a record and
    PUT it over what was read; [again] is the next race. *)
Definition race (again : LeaseWatch → Prog (Answer BucketLease * LeaseWatch)) (ttl : Z) (me : string)
    (current : option (option LeaseRecord * UpdateVersion)) (watch : LeaseWatch) : Prog (Answer BucketLease * LeaseWatch) :=
  InstantNow (λ c, SystemNow (λ cw,
    let stamp := rfc3339 cw in
    let record := mk_record me stamp stamp ttl in
    let mode := match current with None => Create | Some (_, v) => Update v end in
    answer ← put record mode;
    match answer with
    | Ok v => acquired me ttl record stamp c cw watch v Conditional
    | Err AlreadyExists | Err Precondition => again watch
    | Err NotImplemented =>
        answer ← put record Overwrite;
        match answer with
        | Ok v => acquired me ttl record stamp c cw watch v BestEffort
        | Err e => Ret (Err (Store e), watch)
        end
    | Err e => Ret (Err (Store e), watch)
    end)).

(** [BucketLease::acquire_as], [n] races left *)
Fixpoint acquire_races (n : nat) (ttl : Z) (me : string) (watch : LeaseWatch) : Prog (Answer BucketLease * LeaseWatch) :=
  match n with
  | O =>
      holder ← read;
      match holder with
      | Err e => Ret (Err e, watch)
      | Ok holder =>
          let name := match holder with Some (Some r, _) => instance_id r | _ => "unknown" end in
          Ret (Err (ForeignActive name), watch)
      end
  | S n =>
      r ← read;
      match r with
      | Err e => Ret (Err e, watch)
      | Ok current =>
          '(r, watch) ← match current with
            | Some (Some rec, v) =>
                if String.eqb (instance_id rec) me then Ret (Ok tt, watch) else foreign_blocks rec v ttl watch
            | _ => Ret (Ok tt, watch)
            end;
          match r with
          | Err e => Ret (Err e, watch)
          | Ok _ => race (acquire_races n ttl me) ttl me current watch
          end
      end
  end.

Definition acquire_as (ttl : Z) (me : string) (watch : LeaseWatch) : Prog (Answer BucketLease * LeaseWatch) :=
  acquire_races ACQUIRE_RACES (Z.max ttl 1) me watch.

(** ** Holding it *)

(** [write_deadline] at the readings [t] and [wall] of the two clocks *)
Definition write_deadline (self : BucketLease) (t wall : Z) : option Z :=
  let h := held self in
  let fence := wrap_u 64 (bl_ttl_s self * 2000) / 3 * MILLI in
  let wall_ok := if confirmed_wall h <=? wall then wall - confirmed_wall h <? fence else true in
  let deadline := confirmed h + fence in
  if negb (lost h) && wall_ok && (t <? deadline) then Some deadline else None.

Definition may_write (self : BucketLease) (t wall : Z) : bool := bool_decide (is_Some (write_deadline self t wall)).

(** [lose] *)
Definition lose (me : string) : Prog LeaseError :=
  Lock set_lost (λ _,
    r ← read;
    Ret (Lost (match r with
      | Ok (Some (Some r, _)) => if String.eqb (instance_id r) me then None else Some (instance_id r)
      | _ => None
      end))).

(** [reconcile] *)
Definition reconcile (me : string) (record : LeaseRecord) : Prog (Answer UpdateVersion) :=
  current ←? read;
  match current with
  | Some (Some r, v) =>
      if String.eqb (instance_id r) me then
        answer ← put record (Update v);
        match answer with
        | Ok w => Ret (Ok w)
        | Err Precondition | Err NotFound => e ← lose me; Ret (Err e)
        | Err e => Ret (Err (Store e))
        end
      else e ← lose me; Ret (Err e)
  | _ => e ← lose me; Ret (Err e)
  end.

(** [renew_best_effort] *)
Definition renew_best_effort (me : string) (record : LeaseRecord) : Prog (Answer UpdateVersion) :=
  current ←? read;
  match current with
  | Some (Some r, _) =>
      if String.eqb (instance_id r) me then
        answer ← put record Overwrite;
        match answer with Ok w => Ret (Ok w) | Err e => Ret (Err (Store e)) end
      else e ← lose me; Ret (Err e)
  | _ => e ← lose me; Ret (Err e)
  end.

(** [renew]; of the lease only [held] changes *)
Definition renew (self : BucketLease) : Prog (Answer unit) :=
  let me := bl_instance_id self in
  Lock id (λ h,
    if lost h then Ret (Err (Lost None))
    else
      InstantNow (λ c, SystemNow (λ cw,
        let record := mk_record me (bl_acquired_at self) (rfc3339 cw) (bl_ttl_s self) in
        written ←? match exclusion h with
          | Conditional =>
              answer ← put record (Update (h_version h));
              match answer with
              | Err NotImplemented => Lock (set_exclusion BestEffort) (λ _, renew_best_effort me record)
              | Err Precondition | Err NotFound => reconcile me record
              | Ok w => Ret (Ok w)
              | Err e => Ret (Err (Store e))
              end
          | BestEffort => renew_best_effort me record
          end;
        Lock (set_confirmed written c cw) (λ _, Ret (Ok tt))))).

(** [release] *)
Definition release (self : BucketLease) : Prog (Answer unit) :=
  if lost (held self) then Ret (Ok tt) else release_own_record (bl_instance_id self).

(** ** A call by itself *)

Context {St : Type} `{ObjectStore B St}.

(** Run a program with every request answered. Effects are numbered from [n]: the
    [n]-th happens at [clk n] on the monotonic clock and [wall n] on the other;
    [h] is behind the lock. *)
Fixpoint run {A} (clk wall : nat → Z) (n : nat) (st : St) (h : Held) (q : Prog A) : A * nat * St * Held :=
  match q with
  | Ret a => (a, n, st, h)
  | InstantNow k => run clk wall (S n) st h (k (clk n))
  | SystemNow k => run clk wall (S n) st h (k (wall n))
  | Lock f k => run clk wall (S n) st (f h) (k h)
  | Get k => run clk wall (S n) st h (k (ok_or (os_object st) NotFound))
  | Put b m k => let '(a, st) := os_put st b m in run clk wall (S n) st h (k a)
  | Delete k => let '(a, st) := os_delete st in run clk wall (S n) st h (k a)
  end.

Lemma run_bind {A C} clk wall n st h (q : Prog A) (f : A → Prog C) :
  run clk wall n st h (q ≫= f) = let '(a, n, st, h) := run clk wall n st h q in run clk wall n st h (f a).
Proof.
  revert n st h. induction q as [a|k IH|k IH|g k IH|k IH|b m k IH|k IH]; intros n st h; cbn; [done|apply IH..| |].
  - destruct (os_put st b m). apply IH.
  - destruct (os_delete st). apply IH.
Qed.

(** What a read at [st] sees. *)
Definition seen (st : St) : option (option LeaseRecord * UpdateVersion) := (λ o, (from_slice o.1, o.2)) <$> os_object st.

(** Whom the lease object names. *)
Definition names (st : St) : option string := '(b, _) ← os_object st; instance_id <$> from_slice b.

Section clocks.
Context (clk wall : nat → Z).

Lemma run_read n st h : run clk wall n st h read = (Ok (seen st), S n, st, h).
Proof. unfold seen. cbn. by destruct (os_object st) as [[b v]|]. Qed.

Lemma run_lose n st h me :
  names st ≠ Some me → run clk wall n st h (lose me) = (Lost (names st), S (S n), st, set_lost h).
Proof.
  unfold lose, names. cbn. intros Hn. destruct (os_object st) as [[b v]|]; [|done]. cbn in *.
  destruct (from_slice b) as [r|]; [|done]. cbn in *. destruct (String.eqb_spec (instance_id r) me); [congruence|done].
Qed.

(** A read of the own record and a PUT over it: [reconcile] and
    [renew_best_effort] differ in the PUT. *)
Definition over_own (q : Prog (Answer UpdateVersion)) (me : string) (record : LeaseRecord) : Prop :=
  ∀ n st h,
    (names st = Some me → ∃ v m st', run clk wall n st h q = (Ok v, m, st', h) ∧ os_object st' = Some (to_vec record, v)) ∧
    (names st ≠ Some me → ∃ m, run clk wall n st h q = (Err (Lost (names st)), m, st, set_lost h)).

Lemma over_own_intro me record (f : UpdateVersion → Prog (Answer UpdateVersion)) :
  (∀ n st h b v, os_object st = Some (b, v) →
     ∃ w m st', run clk wall n st h (f v) = (Ok w, m, st', h) ∧ os_object st' = Some (to_vec record, w)) →
  over_own (current ←? read;
            match current with
            | Some (Some r, v) => if String.eqb (instance_id r) me then f v else e ← lose me; Ret (Err e)
            | _ => e ← lose me; Ret (Err e)
            end) me record.
Proof.
  intros Hf n st h. unfold try_bind. rewrite run_bind, run_read. pose proof (run_lose (S n) st h me) as Hlose. unfold names, seen in *.
  destruct (os_object st) as [[b v]|] eqn:Eo; cbn -[run lose] in *; [|split; [done|intros Hn; rewrite run_bind, Hlose by done; by eexists]].
  destruct (from_slice b) as [r|]; cbn -[run lose] in *; [|split; [done|intros Hn; rewrite run_bind, Hlose by done; by eexists]].
  destruct (String.eqb_spec (instance_id r) me) as [<-|Hne]; (split; [|intros Hn]); try congruence.
  - intros _. by apply (Hf _ _ _ b).
  - rewrite run_bind, Hlose by done. by eexists.
Qed.

(** Which of the two kinds a service is. *)
Definition service (issued : St → UpdateVersion → Prop) (kind : Exclusion) : Prop :=
  match kind with Conditional => ConditionalStore B St issued | BestEffort => PlainStore B St end.

Context (issued : St → UpdateVersion → Prop) (kind : Exclusion) (Hkind : service issued kind).

Lemma overwrites st b : ∃ v st', os_put st b Overwrite = (Ok v, st') ∧ os_object st' = Some (b, v).
Proof.
  destruct kind; cbn in Hkind; [|by apply overwrite_accepted].
  destruct (put_accepted st b Overwrite) as (v & st' & ? & ? & _); [done|]. by exists v, st'.
Qed.

Lemma best_effort_over_own me record : over_own (renew_best_effort me record) me record.
Proof.
  apply over_own_intro. intros n st h b v _. destruct (overwrites st (to_vec record)) as (w & st' & E & Ho).
  cbn [put mbind prog_bind run]. rewrite E. cbn. by eexists _, _, _.
Qed.

Lemma reconcile_over_own me record : kind = Conditional → over_own (reconcile me record) me record.
Proof.
  intros Hk. rewrite Hk in Hkind. cbn in Hkind. apply (over_own_intro me record (λ v,
    answer ← put record (Update v);
    match answer with
    | Ok w => Ret (Ok w)
    | Err Precondition | Err NotFound => e ← lose me; Ret (Err e)
    | Err e => Ret (Err (Store e))
    end)). intros n st h b v Ho. cbn [put mbind prog_bind run].
  destruct (put_accepted st (to_vec record) (Update v)) as (w & st' & E & Ho' & _); [by exists b|].
  rewrite E. cbn. by eexists _, _, _.
Qed.

(** The exclusion a lease has after talking to the service. *)
Definition effective (h : Held) : Exclusion :=
  match kind, exclusion h with Conditional, Conditional => Conditional | _, _ => BestEffort end.

(** Is the object the holder's: named after it, or, where versions are compared,
    the version it last wrote? *)
Definition own (l : BucketLease) (st : St) : Prop :=
  names st = Some (bl_instance_id l) ∨
  effective (held l) = Conditional ∧ snd <$> os_object st = Some (h_version (held l)).

(** The PUT of a renewal: done over the own object, lost otherwise. *)
Definition renewed (l : BucketLease) (record : LeaseRecord) (q : Prog (Answer UpdateVersion)) : Prop :=
  ∀ n st,
    (own l st → ∃ v m st', run clk wall n st (held l) q = (Ok v, m, st', set_exclusion (effective (held l)) (held l))
       ∧ os_object st' = Some (to_vec record, v)) ∧
    (¬ own l st → ∃ m, run clk wall n st (held l) q
       = (Err (Lost (names st)), m, st, set_lost (set_exclusion (effective (held l)) (held l)))).

Lemma over_own_renewed l record q :
  over_own q (bl_instance_id l) record → exclusion (held l) = BestEffort → renewed l record q.
Proof.
  intros Hq Hx n st. destruct (Hq n st (held l)) as [H1 H2].
  assert (effective (held l) = BestEffort) as He by (unfold effective; rewrite Hx; by destruct kind).
  unfold own. rewrite He. replace (set_exclusion BestEffort (held l)) with (held l) by (destruct (held l); cbn in *; by subst).
  split; [intros [Hn|[? ?]]; [by apply H1|done]|]. intros Hno. apply H2. tauto.
Qed.

(** What [renew] does under its lock, with the exclusion the lease has. *)
Definition renewal (l : BucketLease) (record : LeaseRecord) : Prog (Answer UpdateVersion) :=
  let me := bl_instance_id l in
  match exclusion (held l) with
  | Conditional =>
      answer ← put record (Update (h_version (held l)));
      match answer with
      | Err NotImplemented => Lock (set_exclusion BestEffort) (λ _, renew_best_effort me record)
      | Err Precondition | Err NotFound => reconcile me record
      | Ok w => Ret (Ok w)
      | Err e => Ret (Err (Store e))
      end
  | BestEffort => renew_best_effort me record
  end.

Lemma conditional_renewed l record :
  kind = Conditional → exclusion (held l) = Conditional → renewed l record (renewal l record).
Proof.
  intros Hk Hx n st. pose proof (reconcile_over_own (bl_instance_id l) record Hk (S n) st (held l)) as [Hme Hnot].
  assert (effective (held l) = Conditional) as He by (unfold effective; by rewrite Hk, Hx).
  unfold own, renewal. rewrite He, Hx. cbn [put mbind prog_bind run].
  replace (set_exclusion Conditional (held l)) with (held l) by (destruct (held l); cbn in *; by subst).
  rewrite Hk in Hkind. cbn in Hkind.
  destruct (decide (precondition st (Update (h_version (held l))))) as [Hpre|Hpre].
  - destruct (put_accepted st (to_vec record) _ Hpre) as (v & st' & E & Ho & _). rewrite E. cbn.
    split; [intros _; by exists v, (S n), st'|]. intros []. right. split; [done|]. destruct Hpre as [b ->]. done.
  - destruct (update_refused st (to_vec record) _ Hpre) as (e & E & Hwhy). rewrite E.
    assert (snd <$> os_object st ≠ Some (h_version (held l))) as Hv.
    { intros Ho. apply Hpre. destruct (os_object st) as [[b v]|] eqn:Eo; [|done]. exists b. cbn in Ho. congruence. }
    replace (match e with NotImplemented => _ | _ => _ end) with (reconcile (bl_instance_id l) record)
      by (destruct Hwhy as [->|[-> _]]; done).
    split; [intros [?|[_ ?]]; [by apply Hme|done]|]. intros Hno. apply Hnot. tauto.
Qed.

Lemma unsupported_renewed l record :
  kind = BestEffort → exclusion (held l) = Conditional → renewed l record (renewal l record).
Proof.
  intros Hk Hx n st.
  pose proof (best_effort_over_own (bl_instance_id l) record (S (S n)) st (set_exclusion BestEffort (held l))) as [Hme Hnot].
  assert (effective (held l) = BestEffort) as He by (unfold effective; by rewrite Hk).
  unfold own, renewal. rewrite He, Hx. cbn [put mbind prog_bind run]. rewrite Hk in Hkind. cbn in Hkind.
  rewrite update_unsupported. cbn [run].
  split; [intros [?|[? ?]]; [by apply Hme|done]|]. intros Hno. apply Hnot. tauto.
Qed.

Lemma renewal_renewed l record : renewed l record (renewal l record).
Proof.
  destruct (exclusion (held l)) eqn:Hx.
  - assert (kind = Conditional ∨ kind = BestEffort) as [Hk|Hk] by (clear; destruct kind; auto);
      [by apply conditional_renewed|by apply unsupported_renewed].
  - apply over_own_renewed; [|done]. unfold renewal. rewrite Hx. apply best_effort_over_own.
Qed.

(** C32: a renewal by itself, every request answered, on a service with conditional
    PUT or one that answers [NotImplemented] to it, of a lease held with either
    exclusion. A lease known to be lost is refused and nothing is touched.
    Otherwise, where the object is the holder's (it names the holder; or, where
    both sides are conditional, it is the version the holder last wrote), the
    lease is renewed: the object becomes its new record, and the times it counts
    from are the readings of the two clocks at the second and third effect of the
    call, before any request is sent. In every other case, the object deleted
    included, the bucket is left alone and the lease is lost for good, naming its
    new holder if there is one. A service that turns out not to have conditional
    PUT makes the lease best-effort. *)
Theorem renew_outcome (l : BucketLease) (st : St) :
  let record := mk_record (bl_instance_id l) (bl_acquired_at l) (rfc3339 (wall 2)) (bl_ttl_s l) in
  let result := run clk wall 0 st (held l) (renew l) in
  (lost (held l) = true → result = (Err (Lost None), 1%nat, st, held l)) ∧
  (lost (held l) = false → own l st →
     ∃ v n st', result = (Ok tt, n, st', mk_held v (clk 1) (wall 2) (effective (held l)) false)
       ∧ os_object st' = Some (to_vec record, v)) ∧
  (lost (held l) = false → ¬ own l st →
     ∃ n, result = (Err (Lost (names st)), n, st, set_lost (set_exclusion (effective (held l)) (held l)))).
Proof.
  cbv zeta. set (record := mk_record _ _ _ _). destruct (renewal_renewed l record 3%nat st) as [Hown Hnot].
  unfold renew. cbn [run]. unfold id. split; [by intros ->|]. split; intros Hl; rewrite Hl; cbn [run]; fold record;
    unfold try_bind; rewrite run_bind; fold (renewal l record).
  - intros (v & m & st' & -> & Ho)%Hown. cbn. unfold set_confirmed. cbn. rewrite Hl. by eexists _, _, _.
  - intros (m & ->)%Hnot. by eexists.
Qed.
End clocks.

End lease.

Import MemStore.

(** The in-memory service without its preconditions. *)
Definition plain_put {B} (st : mem_store B) (b : B) (m : PutMode) : result StoreError UpdateVersion * mem_store B :=
  match m with Overwrite => mem_put st b Overwrite | _ => (Err NotImplemented, st) end.
Definition plain_object_store {B} : ObjectStore B (mem_store B) :=
  {| os_object := mem_object; os_put := plain_put; os_delete := os_delete |}.

Lemma plain_service {B} : @service B (mem_store B) plain_object_store mem_issued BestEffort.
Proof.
  split; [done|done|]. intros [o n] b. exists (mem_tag (S n)), (Some b, S n). done.
Qed.

(** The lease "ann" took was deleted by a release that raced with it; on a service
    without conditional PUT it is still there, under a version she never saw. *)
Lemma renew_outcome_witness :
  let l := mk_lease "ann" 30 "" (mk_held (mem_tag 1) 0 0 Conditional false) in
  let gone : mem_store LeaseRecord := (None, 1%nat) in
  let there : mem_store LeaseRecord := (Some (mk_record "ann" "" "" 30), 2%nat) in
  (∃ n, run Z.of_nat Z.of_nat 0 gone (held l) (renew id Some (λ _, None) l)
        = (Err (Lost None), n, gone, set_lost (held l))) ∧
  (∃ v n st', run (H := plain_object_store) Z.of_nat Z.of_nat 0 there (held l) (renew id Some (λ _, None) l)
              = (Ok tt, n, st', mk_held v 1 2 BestEffort false)).
Proof.
  intros l gone there. split.
  - destruct (renew_outcome id Some (λ _, None) Z.of_nat Z.of_nat mem_issued Conditional mem_conditional l gone) as (_ & _ & Hlost).
    apply Hlost; [reflexivity|]. intros [E|[_ E]]; discriminate E.
  - destruct (renew_outcome (H := plain_object_store) id Some (λ _, None) Z.of_nat Z.of_nat mem_issued BestEffort plain_service l there)
      as (_ & Hown & _). destruct Hown as (v & n & st' & E & _); [reflexivity|by left|]. exists v, n, st'. exact E.
Defined.
End Lease.
