(* ===== verification/LeaseWorld.v ===== *)
(** The bucket lease under concurrency: processes that take, renew, lose and give
    back the lease of [Lease] against one object store, and the two facts the
    lease is for.  At most one process may write at any moment ([lease_exclusion]);
    an acquisition is refused while another process may write, and by itself
    takes the lease once its record has lapsed ([lease_handover]).

    A step is one request, one clock reading or one critical section of one
    process.  Between any two of them time passes, a request may land late, twice
    or never, its answer may be lost, and a call may be cancelled. *)

From S2P Require Import Prelude Lease.
Open Scope Z_scope.
Import Lease.

Module LeaseWorld.

(** A request that changes the store, once sent. *)
Inductive request (B : Type) := ReqPut (b : B) (mode : PutMode) | ReqDelete.
#[global] Arguments ReqPut {B}.
#[global] Arguments ReqDelete {B}.

(** What a call of the worker comes back with. *)
Inductive outcome :=
| Acquired (r : result LeaseError BucketLease) (watch : LeaseWatch)
| Renewed (r : result LeaseError unit)
| Released (r : result LeaseError unit).

(** The worker's state: its TTL, its lease if it holds one, whether it is shutting
    down, and the call it is in.  It is in one call at a time: it takes a lease,
    then a task renews it, and it stops that task before it takes another lease or
    gives this one back. *)
Record process (B : Type) := mk_process {
  p_ttl : Z;
  p_watch : LeaseWatch;
  p_lease : option BucketLease;
  p_done : bool;
  p_task : option (prog B outcome);
}.
#[global] Arguments mk_process {B}.
#[global] Arguments p_ttl {B}.
#[global] Arguments p_watch {B}.
#[global] Arguments p_lease {B}.
#[global] Arguments p_done {B}.
#[global] Arguments p_task {B}.

Record world (B St : Type) := mk_world {
  w_now : Z;
  w_store : St;
  w_net : list (string * request B);   (** requests that may still land, any number of times *)
  w_procs : gmap string (process B);
}.
#[global] Arguments mk_world {B St}.
#[global] Arguments w_now {B St}.
#[global] Arguments w_store {B St}.
#[global] Arguments w_net {B St}.
#[global] Arguments w_procs {B St}.

(** What a step did to the lease object, as far as exclusion cares: a DELETE of
    [i]'s landed, [late] when [i] no longer waits for it. *)
Inductive event := Quiet | Deleted (i : string) (late : bool).

Section world.
Context {B St : Type} `{ObjectStore B St} (to_vec : LeaseRecord → B) (from_slice : B → option LeaseRecord).
Context (format : Z → option string) (parse : string → option Z).
(** [wall i t]: what [i]'s wall clock reads at time [t]; its monotonic clock reads [t]. *)
Context (wall : string → Z → Z).

(** ** Steps *)

Definition task_acquire (i : string) (p : process B) : prog B outcome :=
  acquire_as to_vec from_slice format parse (p_ttl p) i (p_watch p) ≫= λ '(r, watch), Ret (Acquired r watch).
Definition task_renew (l : BucketLease) : prog B outcome :=
  renew to_vec from_slice format l ≫= λ r, Ret (Renewed r).
Definition task_release (i : string) (l : option BucketLease) : prog B outcome :=
  match l with
  | Some l => release from_slice l
  | None => release_own_record from_slice i
  end ≫= λ r, Ret (Released r).

(** The call returns. *)
Definition finish (o : outcome) (p : process B) : process B :=
  match o with
  | Acquired (Ok l) watch => mk_process (p_ttl p) watch (Some l) (p_done p) None
  | Acquired (Err _) watch => mk_process (p_ttl p) watch (p_lease p) (p_done p) None
  | _ => mk_process (p_ttl p) (p_watch p) (p_lease p) (p_done p) None
  end.

Definition with_task (q : prog B outcome) (p : process B) : process B :=
  mk_process (p_ttl p) (p_watch p) (p_lease p) (p_done p) (Some q).

(** The answer to a GET. *)
Definition get_answer (st : St) : result StoreError (B * UpdateVersion) := ok_or (os_object st) NotFound.

(** The request [q] waits on, if it changes the store. *)
Definition pending {A} (q : prog B A) : list (request B) :=
  match q with Put b m _ => [ReqPut b m] | Delete _ => [ReqDelete] | _ => [] end.

Definition send {A} (i : string) (q : prog B A) (net : list (string * request B)) : list (string * request B) :=
  ((i,.) <$> pending q) ++ net.

Inductive step : world B St → event → world B St → Prop :=
| step_tick t t' st net ps :
    t ≤ t' → step (mk_world t st net ps) Quiet (mk_world t' st net ps)
(** The worker starts a call. *)
| step_acquire t st net ps i p :
    ps !! i = Some p → p_task p = None → p_done p = false →
    (∀ l, p_lease p = Some l → lost (held l) = true) →
    step (mk_world t st net ps) Quiet
      (mk_world t st net (<[i := mk_process (p_ttl p) None None false (Some (task_acquire i p))]> ps))
| step_renew t st net ps i p l :
    ps !! i = Some p → p_task p = None → p_lease p = Some l →
    step (mk_world t st net ps) Quiet (mk_world t st net (<[i := with_task (task_renew l) p]> ps))
| step_release t st net ps i p :
    ps !! i = Some p → p_task p = None →
    step (mk_world t st net ps) Quiet
      (mk_world t st net (<[i := mk_process (p_ttl p) None None true (Some (task_release i (p_lease p)))]> ps))
(** A write elsewhere showed another writer ([mark_lost]). *)
| step_mark_lost t st net ps i p l :
    ps !! i = Some p → p_lease p = Some l →
    step (mk_world t st net ps) Quiet
      (mk_world t st net (<[i := mk_process (p_ttl p) (p_watch p) (Some (set_held (set_lost (held l)) l)) (p_done p) (p_task p)]> ps))
(** The call goes on. *)
| step_instant t st net ps i p k :
    ps !! i = Some p → p_task p = Some (InstantNow k) →
    step (mk_world t st net ps) Quiet (mk_world t st net (<[i := with_task (k t) p]> ps))
| step_system t st net ps i p k :
    ps !! i = Some p → p_task p = Some (SystemNow k) →
    step (mk_world t st net ps) Quiet (mk_world t st net (<[i := with_task (k (wall i t)) p]> ps))
| step_lock t st net ps i p l f k :
    ps !! i = Some p → p_task p = Some (Lock f k) → p_lease p = Some l →
    step (mk_world t st net ps) Quiet
      (mk_world t st net (<[i := mk_process (p_ttl p) (p_watch p) (Some (set_held (f (held l)) l)) (p_done p) (Some (k (held l)))]> ps))
| step_return t st net ps i p o :
    ps !! i = Some p → p_task p = Some (Ret o) →
    step (mk_world t st net ps) Quiet (mk_world t st net (<[i := finish o p]> ps))
(** A request lands and is answered, or its answer is lost. *)
| step_get t st net ps i p k a :
    ps !! i = Some p → p_task p = Some (Get k) → a = get_answer st ∨ a = Err Generic →
    step (mk_world t st net ps) Quiet (mk_world t st net (<[i := with_task (k a) p]> ps))
| step_put t st net ps i p b m k a st' a' :
    ps !! i = Some p → p_task p = Some (Put b m k) → os_put st b m = (a, st') → a' = a ∨ a' = Err Generic →
    step (mk_world t st net ps) Quiet (mk_world t st' net (<[i := with_task (k a') p]> ps))
| step_delete t st net ps i p k a st' a' :
    ps !! i = Some p → p_task p = Some (Delete k) → os_delete st = (a, st') → a' = a ∨ a' = Err Generic →
    step (mk_world t st net ps) (Deleted i false) (mk_world t st' net (<[i := with_task (k a') p]> ps))
(** A request fails at the client, and may land later. *)
| step_put_fails t st net ps i p b m k :
    ps !! i = Some p → p_task p = Some (Put b m k) →
    step (mk_world t st net ps) Quiet (mk_world t st ((i, ReqPut b m) :: net) (<[i := with_task (k (Err Generic)) p]> ps))
| step_delete_fails t st net ps i p k :
    ps !! i = Some p → p_task p = Some (Delete k) →
    step (mk_world t st net ps) Quiet (mk_world t st ((i, ReqDelete) :: net) (<[i := with_task (k (Err Generic)) p]> ps))
(** The client sends the request again without telling the caller. *)
| step_resend t st net ps i p q :
    ps !! i = Some p → p_task p = Some q →
    step (mk_world t st net ps) Quiet (mk_world t st (send i q net) ps)
(** The call is cancelled (a timeout, an abort); an acquisition leaves what it saw. *)
| step_cancel t st net ps i p q watch :
    ps !! i = Some p → p_task p = Some q →
    step (mk_world t st net ps) Quiet
      (mk_world t st (send i q net) (<[i := mk_process (p_ttl p) watch (p_lease p) (p_done p) None]> ps))
(** A request nobody waits for lands. *)
| step_late_put t st net ps i b m a st' :
    (i, ReqPut b m) ∈ net → os_put st b m = (a, st') →
    step (mk_world t st net ps) Quiet (mk_world t st' net ps)
| step_late_delete t st net ps i a st' :
    (i, ReqDelete) ∈ net → os_delete st = (a, st') →
    step (mk_world t st net ps) (Deleted i true) (mk_world t st' net ps).

(** [release] reads and then deletes, in two requests.  In a calm step a DELETE
    that lands is one its sender still waits for, and finds its sender's own
    record, or none: no takeover came between. *)
Definition calm (w : world B St) (e : event) : Prop :=
  match e with
  | Quiet => True
  | Deleted i late =>
      late = false ∧
      ∀ b v, os_object (w_store w) = Some (b, v) → ∃ r, from_slice b = Some r ∧ instance_id r = i
  end.

Definition calm_step (w w' : world B St) : Prop := ∃ e, step w e w' ∧ calm w e.

(** [i] may write to the bucket. *)
Definition writes (w : world B St) (i : string) : Prop :=
  ∃ p l, w_procs w !! i = Some p ∧ p_lease p = Some l ∧ may_write l (w_now w) (wall i (w_now w)) = true.

(** Processes that were just started, over an empty key. *)
Definition fresh_start (w : world B St) : Prop :=
  os_object (w_store w) = None ∧ w_net w = [] ∧
  ∀ i p, w_procs w !! i = Some p → p_lease p = None ∧ p_task p = None.

(** ** Exclusion *)

(** *** What a process relies on

    The proof keeps a history: every version the store ever issued, with the
    record written under it and the time that record was stamped; which of these
    records still protect their holder; and when each process last read its wall
    clock. *)
Record ghost := mk_ghost {
  g_now : Z;
  g_log : gmap UpdateVersion (LeaseRecord * Z);
  g_live : gset UpdateVersion;
  g_last : string → Z;
}.

Context (issued : St → UpdateVersion → Prop) `{!ConditionalStore B St issued}.
Context (ttl_of : string → Z) (skew : Z).

(** The assumptions: JSON and RFC 3339 give back what they were given, no service
    issues the probe's ETag, TTLs are sane, and the readings of any two wall
    clocks differ by at most a third of any TTL. *)
Record environment : Prop := {
  env_json r : from_slice (to_vec r) = Some r;
  env_rfc3339 i t : ∃ s, format (wall i t) = Some s ∧ parse s = Some (wall i t);
  env_probe st : ¬ issued st (mk_version (Some PROBE_ETAG) None);
  env_ttl i : 1 ≤ ttl_of i ≤ MAX_SANE_TTL_S;
  env_skew i : 3 * skew ≤ ttl_of i * SECOND;
  env_clocks i j t t' : Z.abs ((wall i t - t) - (wall j t' - t')) ≤ skew;
}.
Context (Henv : environment).

(** A record of [i]'s, stamped at [t]. *)
Definition stamped (i : string) (r : LeaseRecord) (t : Z) : Prop :=
  instance_id r = i ∧ ttl_s r = ttl_of i ∧ parse (renewed_at r) = Some (wall i t).

Record ghost_ok (G : ghost) : Prop := {
  ok_log v r t : g_log G !! v = Some (r, t) → stamped (instance_id r) r t ∧ t ≤ g_last G (instance_id r);
  ok_last i : g_last G i ≤ g_now G;
}.

(** What may have happened while [i] waited: others wrote, its own requests landed. *)
Record later (i : string) (G G' : ghost) : Prop := {
  later_ok : ghost_ok G';
  later_now : g_now G ≤ g_now G';
  later_log : g_log G ⊆ g_log G';
  later_last : g_last G' i = g_last G i;
}.
Record ext (i : string) (G G' : ghost) : Prop := {
  ext_later : later i G G';
  ext_live v r t : g_log G !! v = Some (r, t) → instance_id r = i → v ∈ g_live G → v ∈ g_live G';
}.

(** [i] reads its wall clock. *)
Definition stamp (i : string) (G : ghost) : ghost :=
  mk_ghost (g_now G) (g_log G) (g_live G) (λ j, if bool_decide (j = i) then g_now G else g_last G j).

(** The record of [i]'s at [v] is stamped at [t] and still protects it. *)
Definition mine (i : string) (G : ghost) (v : UpdateVersion) (t : Z) : Prop :=
  ∃ r, g_log G !! v = Some (r, t) ∧ instance_id r = i ∧ v ∈ g_live G.

Definition held_ok (i : string) (G : ghost) (h : Held) : Prop :=
  exclusion h = Conditional ∧ ∃ t, mine i G (h_version h) t ∧ confirmed h ≤ t.

Definition lease_ok (i : string) (G : ghost) (l : BucketLease) : Prop :=
  bl_ttl_s l = ttl_of i ∧ bl_instance_id l = i ∧ held_ok i G (held l).

(** A PUT of [i]'s with a stamp of time [t] may land any time from now on: over a
    record of its own it carries a stamp at least as late, and over another's
    that record had expired. *)
Definition put_ok (i : string) (G : ghost) (b : B) (m : PutMode) (t : Z) : Prop :=
  (∃ r, b = to_vec r ∧ stamped i r t) ∧ t ≤ g_last G i ∧
  match m with
  | Create => True
  | Overwrite => False
  | Update v =>
      v = mk_version (Some PROBE_ETAG) None ∨
      ∃ rv tv, g_log G !! v = Some (rv, tv) ∧ (instance_id rv = i → tv ≤ t) ∧
        (instance_id rv ≠ i → ∃ tc, tc ≤ g_now G ∧ is_fresh parse rv (wall i tc) = false)
  end.

(** *** What a program guarantees

    [wp i hold G q Q]: run by [i] in history [G], with ([hold]) or without a
    lease, [q] sends only PUTs that may land at any time, deletes only without a
    lease, keeps its lease well-formed, and returns with [Q]. *)
Fixpoint wp {A} (i : string) (hold : bool) (G : ghost) (q : prog B A) (Q : ghost → A → Prop) : Prop :=
  match q with
  | Ret a => ∀ G', ext i G G' → Q G' a
  | InstantNow k => ∀ G', ext i G G' → wp i hold G' (k (g_now G')) Q
  | SystemNow k => ∀ G', ext i G G' → wp i hold (stamp i G') (k (wall i (g_now G'))) Q
  | Lock f k => hold = true ∧ ∀ G' h, ext i G G' → held_ok i G' h → held_ok i G' (f h) ∧ wp i hold G' (k h) Q
  | Get k =>
      ∀ G' a, ext i G G' →
      (∀ b v, a = Ok (b, v) → ∃ r t, b = to_vec r ∧ g_log G' !! v = Some (r, t)) → wp i hold G' (k a) Q
  | Put b m k =>
      ∃ t, put_ok i G b m t ∧
      ∀ G' a, ext i G G' → (∀ v, a = Ok v → mine i G' v t) → a ≠ Err NotImplemented → wp i hold G' (k a) Q
  | Delete k => hold = false ∧ ∀ G' a, later i G G' → wp i hold G' (k a) Q
  end.

Lemma ghost_later_trans i G1 G2 G3 : later i G1 G2 → later i G2 G3 → later i G1 G3.
Proof. intros [? ? ? E1] [? ? ? E2]. split; [done|lia|by etrans|congruence]. Qed.

Lemma ext_trans i G1 G2 G3 : ext i G1 G2 → ext i G2 G3 → ext i G1 G3.
Proof.
  intros [L1 E1] [L2 E2]. split; [by eapply ghost_later_trans|]. intros v r t Hl Hr Hv.
  apply (E2 v r t); [|done|by apply (E1 v r t)]. eapply lookup_weaken; [done|apply L1].
Qed.

Lemma ext_refl i G : ghost_ok G → ext i G G.
Proof. intros Hok. split; [by split|done]. Qed.

Lemma put_ok_later i G G' b m t : put_ok i G b m t → later i G G' → put_ok i G' b m t.
Proof.
  intros (Hr & Ht & Hm) [_ Hn Hl Hlast]. split; [done|]. split; [lia|]. destruct m as [| |v]; [done|done|].
  destruct Hm as [->|(rv & tv & Hv & H1 & H2)]; [by left|right]. exists rv, tv. split; [by eapply lookup_weaken|]. split; [done|].
  intros Hne. destruct (H2 Hne) as (tc & ? & ?). exists tc. split; [lia|done].
Qed.

Lemma mine_ext i G G' v t : mine i G v t → ext i G G' → mine i G' v t.
Proof.
  intros (r & Hv & Hr & Hlive) [[_ _ Hl _] He]. exists r. split; [by eapply lookup_weaken|]. split; [done|by eapply He].
Qed.

Lemma held_ok_ext i G G' h : held_ok i G h → ext i G G' → held_ok i G' h.
Proof. intros (? & t & Hm & ?) He. split; [done|]. exists t. split; [by eapply mine_ext|done]. Qed.

Lemma wp_ext {A} i hold G G' (q : prog B A) Q : wp i hold G q Q → ext i G G' → wp i hold G' q Q.
Proof.
  intros Hq He. destruct q as [a|k|k|f k|k|b m k|k]; cbn in *.
  - intros G2 H2. apply Hq. by eapply ext_trans.
  - intros G2 H2. apply Hq. by eapply ext_trans.
  - intros G2 H2. apply Hq. by eapply ext_trans.
  - destruct Hq as [-> Hq]. split; [done|]. intros G2 h H2. apply Hq. by eapply ext_trans.
  - intros G2 a H2. apply Hq. by eapply ext_trans.
  - destruct Hq as (t & Hput & Hq). exists t. split; [by eapply put_ok_later; [|apply He]|].
    intros G2 a H2. apply Hq. by eapply ext_trans.
  - destruct Hq as [-> Hq]. split; [done|]. intros G2 a H2. apply Hq. eapply ghost_later_trans; [apply He|done].
Qed.

Lemma wp_mono {A} i hold G (q : prog B A) (Q Q' : ghost → A → Prop) :
  (∀ G a, Q G a → Q' G a) → wp i hold G q Q → wp i hold G q Q'.
Proof.
  intros HQ. revert G. induction q as [a|k IH|k IH|f k IH|k IH|b m k IH|k IH]; intros G; cbn; [by eauto| | |..].
  - intros Hq G' H'. by apply IH, Hq.
  - intros Hq G' H'. by apply IH, Hq.
  - intros [-> Hq]. split; [done|]. intros G' h H' Hh. destruct (Hq G' h H' Hh). split; [done|]. by apply IH.
  - intros Hq G' a H' Ha. by apply IH, Hq.
  - intros (t & Hp & Hq). exists t. split; [done|]. intros G' a H' Ha Hn. by apply IH, Hq.
  - intros [-> Hq]. split; [done|]. intros G' a H'. by apply IH, Hq.
Qed.

Lemma stamp_ok i G : ghost_ok G → ghost_ok (stamp i G).
Proof.
  intros [O1 O2]. split; cbn.
  - intros v r t Hv. destruct (O1 v r t Hv) as [? Ht]. split; [done|]. case_bool_decide; [|done]. subst. specialize (O2 (instance_id r)). lia.
  - intros j. case_bool_decide; [done|apply O2].
Qed.

Lemma wp_bind {A C} i hold G (q : prog B A) (f : A → prog B C) Q :
  wp i hold G q (λ G' a, wp i hold G' (f a) Q) → ghost_ok G → wp i hold G (q ≫= f) Q.
Proof.
  revert G. induction q as [a|k IH|k IH|g k IH|k IH|b m k IH|k IH]; intros G Hq Hok; cbn in *.
  - apply Hq. by apply ext_refl.
  - intros G2 H2. apply IH; [by apply Hq|apply H2].
  - intros G2 H2. apply IH; [by apply Hq|apply stamp_ok, H2].
  - destruct Hq as [-> Hq]. split; [done|]. intros G2 h H2 Hh. destruct (Hq G2 h H2 Hh). split; [done|]. apply IH; [done|apply H2].
  - intros G2 a H2 Ha. apply IH; [by apply Hq|apply H2].
  - destruct Hq as (t & Hput & Hq). exists t. split; [done|]. intros G2 a H2 Ha Hn. apply IH; [by apply Hq|apply H2].
  - destruct Hq as [-> Hq]. split; [done|]. intros G2 a H2. apply IH; [by apply Hq|apply H2].
Qed.

(** *** The programs *)

Lemma ext_ok i G G' : ext i G G' → ghost_ok G'.
Proof. intros [[? _ _ _] _]. done. Qed.
Hint Resolve ext_ok stamp_ok : core.

(** What a read saw is in the history. *)
Definition read_ok (G : ghost) (r : result LeaseError (option (option LeaseRecord * UpdateVersion))) : Prop :=
  ∀ o v, r = Ok (Some (o, v)) → ∃ rec t, o = Some rec ∧ g_log G !! v = Some (rec, t).

Lemma wp_read i hold G Q :
  (∀ G' r, ext i G G' → read_ok G' r → Q G' r) → wp i hold G (read from_slice) Q.
Proof.
  intros HQ G1 a H1 Ha. destruct a as [[b v]|e].
  - intros G2 H2. apply HQ; [by eapply ext_trans|]. intros o u [= <- <-].
    destruct (Ha b v eq_refl) as (r & t & -> & Hv). exists r, t. split; [apply (env_json Henv)|].
    eapply lookup_weaken; [done|apply H2].
  - destruct e; intros G2 H2; (apply HQ; [by eapply ext_trans|done]).
Qed.

Lemma wp_put {A} i hold G record m t (f : result StoreError UpdateVersion → prog B A) Q :
  put_ok i G (to_vec record) m t →
  (∀ G' a, ext i G G' → (∀ v, a = Ok v → mine i G' v t) → a ≠ Err NotImplemented → wp i hold G' (f a) Q) →
  wp i hold G (put to_vec record m ≫= f) Q.
Proof. intros Hp Hf. exists t. split; [done|]. intros G1 a H1 Ha Hn. by apply Hf. Qed.

Lemma wp_release i G Q :
  ghost_ok G → (∀ G' r, later i G G' → Q G' r) → wp i false G (release_own_record from_slice i) Q.
Proof.
  intros Hok HQ. apply wp_bind; [|done]. apply wp_read. intros G1 r H1 _.
  assert (∀ r, wp i false G1 (Ret r) Q) as Hret.
  { intros r' G2 H2. apply HQ. eapply ghost_later_trans; [apply H1|apply H2]. }
  destruct r as [[[[rec|] v]|]|e]; [|apply Hret..]. destruct (String.eqb _ _); [|apply Hret]. split; [done|].
  intros G2 a H2. assert (∀ r, wp i false G2 (Ret r) Q) as Hret2.
  { intros r' G3 H3. apply HQ. eapply ghost_later_trans; [apply H1|]. eapply ghost_later_trans; [apply H2|apply H3]. }
  destruct a as [|[]]; apply Hret2.
Qed.

(** The stamp of a record made right after a clock reading. *)
Lemma stamped_now i acq t : stamped i (mk_record i acq (rfc3339 format (wall i t)) (ttl_of i)) t.
Proof.
  split; [done|]. split; [done|]. cbn. unfold rfc3339. by destruct (env_rfc3339 Henv i t) as (s & -> & ?).
Qed.

(** A record of the history is not suspect: clocks differ by less than its TTL. *)
Lemma not_suspect i G v r t :
  ghost_ok G → g_log G !! v = Some (r, t) → is_suspect parse r (wall i (g_now G)) = false.
Proof.
  intros [O1 O2] Hv. destruct (O1 v r t Hv) as [(_ & Httl & Hp) Ht]. specialize (O2 (instance_id r)).
  pose proof (env_ttl Henv (instance_id r)). pose proof (env_skew Henv (instance_id r)).
  pose proof (env_clocks Henv (instance_id r) i t (g_now G)).
  unfold is_suspect. rewrite Httl, Hp. unfold SECOND in *. destruct (Z.ltb_spec MAX_SANE_TTL_S (ttl_of (instance_id r))); [lia|].
  apply Z.ltb_ge. lia.
Qed.

(** The verdict on a foreign record: it passes only once expired. *)
Lemma wp_foreign i hold G rec v t ttl watch Q :
  ghost_ok G → g_log G !! v = Some (rec, t) →
  (∀ G' r w, ghost_ok G' → g_log G' !! v = Some (rec, t) →
    (∀ u, r = Ok u → ∃ tc, tc ≤ g_now G' ∧ is_fresh parse rec (wall i tc) = false) → Q G' (r, w)) →
  wp i hold G (foreign_blocks parse rec v ttl watch) Q.
Proof.
  intros Hok Hv HQ G1 H1. assert (g_log G1 !! v = Some (rec, t)) as Hv1 by (eapply lookup_weaken; [done|apply H1]).
  rewrite (not_suspect i G1 v rec t) by eauto. cbn [negb].
  destruct (is_fresh parse rec (wall i (g_now G1))) eqn:Ef; cbn [negb]; intros G2 H2.
  - apply HQ; [eauto|eapply lookup_weaken; [done|apply H2]|done].
  - apply HQ; [eauto|eapply lookup_weaken; [done|apply H2]|]. intros _ _. exists (g_now G1). split; [apply H2|done].
Qed.

Lemma wp_probe i hold G record h t Q :
  stamped i record t → t ≤ g_last G i → ghost_ok G →
  (∀ G' r, ext i G G' → (∀ h', r = Ok h' → h' = h) → Q G' r) →
  wp i hold G (probe to_vec record h) Q.
Proof.
  intros Hs Ht Hok HQ. assert (∀ probes G1, ext i G G1 →
    Forall (λ p, p.1 = Create ∨ p.1 = Update (mk_version (Some PROBE_ETAG) None)) probes → wp i hold G1 (probe_all to_vec record probes h) Q) as Hall.
  { intros probes. induction probes as [|[m header] probes IH]; intros G1 H1 Hp; cbn [probe_all].
    { intros G2 H2. apply HQ; [by eapply ext_trans|]. by intros h' [= <-]. }
    apply Forall_cons in Hp as [Hm Hp]. apply wp_put with t.
    - split; [by eauto|]. split; [by rewrite (later_last _ _ _ (ext_later _ _ _ H1))|]. destruct Hm as [Hm|Hm]; cbn in Hm; subst m; [done|by left].
    - intros G2 a H2 _ Hn. assert (ext i G G2) as H02 by (by eapply ext_trans).
      assert (∀ e, wp i hold G2 (Ret (Err e)) Q) as Herr by (intros e G3 H3; apply HQ; [by eapply ext_trans|done]).
      destruct a as [v|[]]; cbn [probe_verdict]; [apply Herr|by apply IH|by apply IH|apply Herr|done|apply Herr]. }
  apply Hall; [by apply ext_refl|]. constructor; [by left|]. constructor; [by right|constructor].
Qed.

Definition acquired_ok (i : string) (G : ghost) (a : result LeaseError BucketLease * LeaseWatch) : Prop :=
  ∀ l, a.1 = Ok l → lease_ok i G l.

Lemma wp_acquired i G record st c cw watch v t :
  stamped i record t → t ≤ g_last G i → ghost_ok G → mine i G v t → c ≤ t →
  wp i false G (acquired to_vec from_slice i (ttl_of i) record st c cw watch v Conditional) (acquired_ok i).
Proof.
  intros Hs Ht Hok Hv Hc. apply wp_bind; [|done]. eapply wp_probe; [done|done|done|]. intros G1 r H1 Hr.
  destruct r as [h|[]]; try (intros G2 H2; done).
  - intros G2 H2 l [= <-]. rewrite (Hr h eq_refl). split; [done|]. split; [done|]. split; [done|]. exists t. split; [|done].
    eapply mine_ext; [done|]. by eapply ext_trans.
  - apply wp_bind; [|by eauto]. apply wp_release; [by eauto|]. intros G2 r H2 G3 H3. done.
Qed.

(** What a race may rely on: the record it read, if any, was its own or has expired. *)
Definition race_ok (i : string) (G : ghost) (current : option (option LeaseRecord * UpdateVersion)) : Prop :=
  ∀ o v, current = Some (o, v) → ∃ rv tv, o = Some rv ∧ g_log G !! v = Some (rv, tv) ∧
    (instance_id rv ≠ i → ∃ tc, tc ≤ g_now G ∧ is_fresh parse rv (wall i tc) = false).

Lemma wp_race i G again current watch :
  ghost_ok G → race_ok i G current → (∀ G' w, ghost_ok G' → wp i false G' (again w) (acquired_ok i)) →
  wp i false G (race to_vec from_slice format again (ttl_of i) i current watch) (acquired_ok i).
Proof.
  intros Hok Hcur IH G1 H1 G2 H2. cbv zeta. apply wp_put with (g_now G2).
  - split; [eexists; split; [done|apply stamped_now]|]. split; [cbn; by rewrite bool_decide_true|].
    destruct current as [[o v]|]; [|done]. right. destruct (Hcur o v eq_refl) as (rv & tv & -> & Hv & Hstale).
    assert (g_log G2 !! v = Some (rv, tv)) as Hv2 by (eapply lookup_weaken; [done|]; etrans; [apply H1|apply H2]).
    exists rv, tv. split; [done|]. split.
    + intros Hi. destruct (ok_log _ (ext_ok _ _ _ H2) v rv tv Hv2) as [_ Hle]. pose proof (ok_last _ (ext_ok _ _ _ H2) (instance_id rv)). lia.
    + intros Hi. destruct (Hstale Hi) as (tc & Htc & Hf). exists tc. split; [|done]. cbn.
      pose proof (later_now _ _ _ (ext_later _ _ _ H1)). pose proof (later_now _ _ _ (ext_later _ _ _ H2)). lia.
  - intros G3 a H3 Ha Hn. destruct a as [v|[]]; try (intros G4 H4; done); [|apply IH; by eauto|apply IH; by eauto|done].
    eapply (wp_acquired i G3 _ _ _ _ _ _ (g_now G2)); [apply stamped_now| |by eauto|by apply Ha|apply H2].
    rewrite (later_last _ _ _ (ext_later _ _ _ H3)). cbn. by rewrite bool_decide_true.
Qed.

Lemma wp_acquire_races i n G watch :
  ghost_ok G → wp i false G (acquire_races to_vec from_slice format parse n (ttl_of i) i watch) (acquired_ok i).
Proof.
  revert G watch. induction n as [|n IH]; intros G watch Hok; cbn [acquire_races].
  { apply wp_bind; [|done]. apply wp_read. intros G1 r H1 _. destruct r; intros G2 H2; done. }
  apply wp_bind; [|done]. apply wp_read. intros G1 r H1 Hr. destruct r as [current|e]; [|intros G2 H2; done].
  apply wp_bind; [|by eauto]. destruct current as [[o v]|]; [|intros G2 H2; apply wp_race; [by eauto|done|done]].
  destruct (Hr o v eq_refl) as (rec & t & -> & Hv). destruct (String.eqb_spec (instance_id rec) i) as [Heq|Hne].
  - intros G2 H2. apply wp_race; [by eauto| |done]. intros o v' [= <- <-]. exists rec, t. split; [done|].
    split; [eapply lookup_weaken; [done|apply H2]|done].
  - eapply wp_foreign; [by eauto|done|]. intros G2 r w Hok2 Hv2 Hst. destruct r as [u|e]; [|intros G3 H3; done].
    apply wp_race; [done| |done]. intros o v' [= <- <-]. exists rec, t. split; [done|]. split; [done|]. intros _. by eapply Hst.
Qed.

Lemma wp_lose i G Q : (∀ G' e, ghost_ok G' → Q G' e) → wp i true G (lose from_slice i) Q.
Proof.
  intros HQ. split; [done|]. intros G1 h H1 Hh. split; [done|]. apply wp_bind; [|by eauto]. apply wp_read. intros G2 r H2 _ G3 H3.
  apply HQ. by eauto.
Qed.

(** A swap that was refused is tried again over a record of its own. *)
Lemma wp_reconcile i G record t Q :
  ghost_ok G → stamped i record t → g_last G i = t →
  (∀ G' r, ghost_ok G' → (∀ v, r = Ok v → mine i G' v t) → Q G' r) →
  wp i true G (reconcile to_vec from_slice i record) Q.
Proof.
  intros Hok Hs Ht HQ. apply wp_bind; [|done]. apply wp_read. intros G1 r H1 Hr.
  assert (∀ G', ghost_ok G' → wp i true G' (e ← lose from_slice i; Ret (Err e)) Q) as Hlose.
  { intros G' Hok'. apply wp_bind; [|done]. apply wp_lose. intros G2 e H2 G3 H3. apply HQ; [by eauto|done]. }
  destruct r as [[[o v]|]|e]; [|apply Hlose; by eauto|intros G2 H2; apply HQ; [by eauto|done]].
  destruct (Hr o v eq_refl) as (rec & tv & -> & Hv). destruct (String.eqb_spec (instance_id rec) i) as [Heq|Hne]; [|apply Hlose; by eauto].
  pose proof (later_last _ _ _ (ext_later _ _ _ H1)) as Hl. apply wp_put with t.
  - split; [by eauto|]. split; [lia|]. right. exists rec, tv. split; [done|]. split; [|done]. intros _.
    destruct (ok_log _ (ext_ok _ _ _ H1) v rec tv Hv) as [_ Hle]. rewrite Heq in Hle. lia.
  - intros G2 a H2 Ha Hn. destruct a as [w|[]]; try (apply Hlose; by eauto); intros G3 H3; (apply HQ; [by eauto|]); try done.
    intros v' [= <-]. eapply mine_ext; [by apply Ha|done].
Qed.

(** The end of a renewal stores the version and the readings of its write. *)
Lemma wp_confirmed i G (r : result LeaseError UpdateVersion) c cw t :
  (∀ v, r = Ok v → mine i G v t) → c ≤ t →
  wp i true G (match r with
    | Ok written => Lock (set_confirmed written c cw) (λ _, Ret (Ok tt))
    | Err e => Ret (Err e)
    end : prog B (result LeaseError unit)) (λ _ _, True).
Proof.
  intros Hr Hc. destruct r as [w|e]; [|by intros]. split; [done|]. intros G1 h H1 Hh. split; [|by intros].
  split; [apply Hh|]. exists t. split; [eapply mine_ext; [by apply Hr|done]|done].
Qed.

Lemma wp_renew i G l :
  ghost_ok G → bl_instance_id l = i → bl_ttl_s l = ttl_of i → wp i true G (renew to_vec from_slice format l) (λ _ _, True).
Proof.
  intros Hok <- Httl. split; [done|]. intros G1 h H1 Hh. split; [done|]. destruct (lost h); [by intros G2 H2|].
  intros G2 H2 G3 H3. cbv zeta. set (i := bl_instance_id l) in *. rewrite Httl.
  destruct (held_ok_ext _ _ _ _ Hh (ext_trans _ _ _ _ H2 H3)) as (-> & t0 & (r0 & Hv0 & Hi0 & Hlive0) & _).
  apply wp_bind; [|by eauto]. apply wp_put with (g_now G3).
  - split; [eexists; split; [done|apply stamped_now]|]. split; [cbn; by rewrite bool_decide_true|]. right. exists r0, t0.
    split; [done|]. split; [|done]. intros _. destruct (ok_log _ (ext_ok _ _ _ H3) _ _ _ Hv0) as [_ Hle].
    pose proof (ok_last _ (ext_ok _ _ _ H3) (instance_id r0)). lia.
  - intros G4 a H4 Ha Hn. assert (g_last G4 i = g_now G3) as Hl.
    { rewrite (later_last _ _ _ (ext_later _ _ _ H4)). cbn. by rewrite bool_decide_true. }
    assert (wp i true G4 (reconcile to_vec from_slice i (mk_record i (bl_acquired_at l) (rfc3339 format (wall i (g_now G3))) (ttl_of i)))
      (λ G' r, wp i true G' (match r with
         | Ok written => Lock (set_confirmed written (g_now G2) (wall i (g_now G3))) (λ _, Ret (Ok tt))
         | Err e => Ret (Err e)
         end : prog B (result LeaseError unit)) (λ _ _, True))) as Hrec.
    { eapply wp_reconcile; [by eauto|apply stamped_now|done|]. intros G5 r _ Hr. apply (wp_confirmed i G5 r _ _ (g_now G3) Hr), H3. }
    destruct a as [w|[]]; [intros G5 H5|by intros|exact Hrec|exact Hrec|done|by intros].
    apply (wp_confirmed i G5 (Ok w) _ _ (g_now G3)); [|apply H3]. intros v [= <-]. eapply mine_ext; [by apply Ha|done].
Qed.

(** *** The invariant *)

(** The store against the history: its object is the latest record, and a live
    record less than a TTL (and the skew) old keeps the object its holder's. *)
Record store_inv (st : St) (G : ghost) : Prop := {
  st_ok : ghost_ok G;
  st_issued v : is_Some (g_log G !! v) → issued st v;
  st_object b v : os_object st = Some (b, v) → ∃ r t, b = to_vec r ∧ g_log G !! v = Some (r, t);
  st_window v r t :
    v ∈ g_live G → g_log G !! v = Some (r, t) → g_now G < t + ttl_of (instance_id r) * SECOND - skew →
    ∃ b v' r' t', os_object st = Some (b, v') ∧ g_log G !! v' = Some (r', t') ∧ instance_id r' = instance_id r ∧ t ≤ t';
}.

Definition outcome_ok (i : string) (G : ghost) (o : outcome) : Prop :=
  match o with Acquired (Ok l) _ => lease_ok i G l | _ => True end.

Record proc_ok (i : string) (G : ghost) (p : process B) : Prop := {
  pr_ttl : Z.max (p_ttl p) 1 = ttl_of i;
  pr_lease l : p_lease p = Some l → lease_ok i G l;
  pr_task q : p_task p = Some q → wp i (bool_decide (is_Some (p_lease p))) G q (outcome_ok i);
}.

Record inv (w : world B St) (G : ghost) : Prop := {
  inv_now : g_now G = w_now w;
  inv_store : store_inv (w_store w) G;
  inv_net i b m : (i, ReqPut b m) ∈ w_net w → ∃ t, put_ok i G b m t;
  inv_procs i p : w_procs w !! i = Some p → proc_ok i G p;
}.

Lemma lease_ok_ext i G G' l : lease_ok i G l → ext i G G' → lease_ok i G' l.
Proof. intros (? & ? & ?) He. split; [done|]. split; [done|]. by eapply held_ok_ext. Qed.

Lemma proc_ok_ext i G G' p : proc_ok i G p → ext i G G' → proc_ok i G' p.
Proof.
  intros [? Hl Hq] He. split; [done|..].
  - intros l ?. eapply lease_ok_ext; [by apply Hl|done].
  - intros q ?. eapply wp_ext; [by apply Hq|done].
Qed.

(** A PUT of [i]'s that lands where a live record still has time left is over a
    record of [i]'s own, stamped no later. *)
Lemma window_own st G i b m t u ru tu :
  store_inv st G → put_ok i G b m t → precondition st m →
  u ∈ g_live G → g_log G !! u = Some (ru, tu) → g_now G < tu + ttl_of (instance_id ru) * SECOND - skew →
  instance_id ru = i ∧ tu ≤ t.
Proof.
  intros Hst (_ & _ & Hm) Hpre Hlive Hu Hnow.
  destruct (st_window _ _ Hst u ru tu Hlive Hu Hnow) as (b0 & v0 & r0 & t0 & Ho & Hv0 & Hi0 & Ht0).
  destruct m as [| |v]; cbn in Hpre, Hm; [congruence|done|]. destruct Hpre as [b1 Ho1]. rewrite Ho in Ho1. injection Ho1 as <- <-.
  destruct Hm as [->|(rv & tv & Hv & Hmine & Hstale)]; [exfalso; eapply (env_probe Henv st), object_issued, Ho|].
  rewrite Hv0 in Hv. injection Hv as <- <-. rewrite <-Hi0 in *. destruct (decide (instance_id r0 = i)) as [Hri|Hne].
  { split; [done|]. specialize (Hmine Hri). lia. }
  exfalso. destruct (Hstale Hne) as (tc & Htc & Hf). destruct (ok_log _ (st_ok _ _ Hst) v0 r0 t0 Hv0) as [(_ & Httl & Hp) _].
  pose proof (env_ttl Henv (instance_id r0)). pose proof (env_clocks Henv i (instance_id r0) tc t0).
  unfold is_fresh in Hf. rewrite Hp, Httl, try_i_Some in Hf by (unfold in_i, MAX_SANE_TTL_S in *; lia).
  apply Z.ltb_ge in Hf. cbn in Hf. lia.
Qed.

(** A PUT that lands, answered with [a]. *)
Lemma write_inv st G i b m t a st' :
  store_inv st G → put_ok i G b m t → os_put st b m = (a, st') →
  ∃ G', (∀ j, ext j G G') ∧ store_inv st' G' ∧ g_now G' = g_now G ∧ (∀ v, a = Ok v → mine i G' v t) ∧ a ≠ Err NotImplemented.
Proof.
  intros Hst Hput E. pose proof (st_ok _ _ Hst) as Hok. destruct (decide (precondition st m)) as [Hpre|Hpre].
  2:{ destruct (put_refused st b m Hpre) as (e & E2 & He). rewrite E in E2. injection E2 as -> ->.
      exists G. split; [intros j; by apply ext_refl|]. split; [done|]. split; [done|]. split; [done|naive_solver]. }
  destruct (put_accepted st b m Hpre) as (v & st1 & E2 & Hobj & Hfresh & Hiss). rewrite E in E2. injection E2 as -> ->.
  pose proof Hput as ((r & -> & Hs) & Ht & _).
  assert (g_log G !! v = None) as Hnew. { apply eq_None_not_Some. intros Hv. by apply Hfresh, (st_issued _ _ Hst). }
  set (G' := mk_ghost (g_now G) (<[v := (r, t)]> (g_log G)) ({[v]} ∪ g_live G) (g_last G)).
  assert (ghost_ok G') as Hok'.
  { split; [|apply Hok]. cbn. intros u ru tu. rewrite lookup_insert. case_decide; [|apply Hok].
    intros [= <- <-]. destruct Hs as (Hi & ? & ?). by rewrite Hi. }
  assert (∀ j, ext j G G') as Hext.
  { intros j. split; [split; [done|done|by apply insert_subseteq|done]|]. cbn. intros. set_solver. }
  exists G'. split; [done|]. split; [|split; [done|split; [|done]]].
  2:{ intros v' [= <-]. exists r. cbn. rewrite lookup_insert_eq. split; [done|]. split; [apply Hs|set_solver]. }
  split; [done|..].
  - intros u. cbn. rewrite lookup_insert. rewrite Hiss. case_decide; [by left|]. intros Hu. right. by apply (st_issued _ _ Hst).
  - intros b u Hu. rewrite Hobj in Hu. injection Hu as <- <-. exists r, t. split; [done|]. cbn. by rewrite lookup_insert_eq.
  - cbn. intros u ru tu Hlive Hu Hnow. exists (to_vec r), v, r, t. rewrite lookup_insert_eq. split; [done|]. split; [done|].
    rewrite lookup_insert in Hu. case_decide as Hvu. { injection Hu as <- <-. done. }
    destruct (window_own st G i _ m t u ru tu Hst Hput Hpre) as [Hi Hle]; [set_solver|done|done|].
    destruct Hs as (Hi' & _ & _). split; [congruence|lia].
Qed.

(** A DELETE of [i]'s that lands on a record of its own, or none. *)
Lemma delete_inv st G i a st' :
  store_inv st G → os_delete st = (a, st') →
  (∀ b v, os_object st = Some (b, v) → ∃ r, from_slice b = Some r ∧ instance_id r = i) →
  ∃ G', later i G G' ∧ (∀ j, j ≠ i → ext j G G') ∧ store_inv st' G' ∧ g_now G' = g_now G.
Proof.
  intros Hst E Hown. pose proof (st_ok _ _ Hst) as Hok. destruct (delete_clears st) as (r & st1 & E2 & Hobj & _ & Hiss).
  rewrite E in E2. injection E2 as -> ->.
  set (G' := mk_ghost (g_now G) (g_log G) (filter (λ v, instance_id ∘ fst <$> g_log G !! v ≠ Some i) (g_live G)) (g_last G)).
  assert (ghost_ok G') as Hok' by (split; apply Hok). exists G'. split; [by split|]. split.
  { intros j Hj. split; [by split|]. cbn. intros v r0 t Hv Hr Hl. apply elem_of_filter. split; [|done].
    rewrite Hv. cbn. congruence. }
  split; [|done]. split; [done|..].
  - intros v Hv. apply Hiss. by apply (st_issued _ _ Hst).
  - intros b v Hb. congruence.
  - cbn. intros v r0 t Hl Hv Hnow. apply elem_of_filter in Hl as [Hne Hl].
    destruct (st_window _ _ Hst v r0 t Hl Hv Hnow) as (b0 & v0 & r1 & t0 & Ho & Hv0 & Hi0 & Ht0).
    destruct (Hown b0 v0 Ho) as (r2 & Hr2 & Hi2). destruct (st_object _ _ Hst b0 v0 Ho) as (r3 & t3 & -> & Hv3).
    rewrite Hv0 in Hv3. injection Hv3 as <- <-. rewrite (env_json Henv) in Hr2. injection Hr2 as <-.
    exfalso. apply Hne. rewrite Hv. cbn. congruence.
Qed.

(** *** Steps keep the invariant *)

Lemma put_ok_stamp i j G b m t : ghost_ok G → put_ok i G b m t → put_ok i (stamp j G) b m t.
Proof.
  intros Hok (Hr & Ht & Hm). split; [done|]. split; [|exact Hm]. cbn. case_bool_decide; [|done]. pose proof (ok_last _ Hok i). lia.
Qed.

Lemma stamp_ext i j G : ghost_ok G → j ≠ i → ext j G (stamp i G).
Proof. intros Hok Hj. split; [|done]. split; [by apply stamp_ok|done|done|]. cbn. by rewrite bool_decide_false. Qed.

Lemma stamp_store st i G : store_inv st G → store_inv st (stamp i G).
Proof. intros [Hok ? ? Hw]. split; [by apply stamp_ok|done|done|exact Hw]. Qed.

Lemma inv_update t st net ps G t' st' net' G' i p :
  inv (mk_world t st net ps) G → (∀ j, j ≠ i → ext j G G') →
  (∀ j b m t, put_ok j G b m t → put_ok j G' b m t) → g_now G' = t' → store_inv st' G' →
  (∀ j b m, (j, ReqPut b m) ∈ net' → (j, ReqPut b m) ∈ net ∨ ∃ t, put_ok j G' b m t) → proc_ok i G' p →
  inv (mk_world t' st' net' (<[i := p]> ps)) G'.
Proof.
  intros Hinv Hext Hput Hnow Hst Hnet Hp. split; [done|done|..]; cbn.
  - intros j b m Hj. destruct (Hnet j b m Hj) as [Hold|]; [|done]. destruct (inv_net _ _ Hinv j b m Hold) as [t0 ?]. eauto.
  - intros j q Hj. rewrite lookup_insert in Hj. case_decide as Hij; [by injection Hj as <-; subst|].
    eapply proc_ok_ext; [by apply (inv_procs _ _ Hinv j q)|]. apply Hext. congruence.
Qed.

(** A step that leaves the store alone. *)
Lemma inv_local t st net ps G net' i p :
  inv (mk_world t st net ps) G →
  (∀ j b m, (j, ReqPut b m) ∈ net' → (j, ReqPut b m) ∈ net ∨ ∃ t, put_ok j G b m t) → proc_ok i G p →
  inv (mk_world t st net' (<[i := p]> ps)) G.
Proof.
  intros Hinv Hnet Hp. pose proof (st_ok _ _ (inv_store _ _ Hinv)) as Hok.
  eapply inv_update; [done|intros; by apply ext_refl|done|apply (inv_now _ _ Hinv)|apply (inv_store _ _ Hinv)|done|done].
Qed.

Lemma proc_with_task i G p q :
  proc_ok i G p → wp i (bool_decide (is_Some (p_lease p))) G q (outcome_ok i) → proc_ok i G (with_task q p).
Proof. intros [? Hl _] Hq. split; [done|done|]. cbn. by intros q' [= <-]. Qed.

(** Calls as the worker starts them. *)
Lemma wp_task_acquire i G p : ghost_ok G → Z.max (p_ttl p) 1 = ttl_of i → wp i false G (task_acquire i p) (outcome_ok i).
Proof.
  intros Hok Httl. apply wp_bind; [|done]. unfold acquire_as. rewrite Httl.
  eapply wp_mono; [|by apply wp_acquire_races]. intros G1 [r w] Ha G2 H2. destruct r as [l|e]; [|done].
  eapply lease_ok_ext; [by apply Ha|done].
Qed.

Lemma wp_task_renew i G l : ghost_ok G → lease_ok i G l → wp i true G (task_renew l) (outcome_ok i).
Proof.
  intros Hok (Httl & Hi & _). apply wp_bind; [|done]. eapply wp_mono; [|by apply wp_renew]. intros G1 r _ G2 H2. done.
Qed.

Lemma wp_task_release i G l : ghost_ok G → (∀ l', l = Some l' → lease_ok i G l') → wp i false G (task_release i l) (outcome_ok i).
Proof.
  intros Hok Hl. unfold task_release. apply wp_bind; [|done].
  assert (wp i false G (release_own_record from_slice i) (λ G' a, wp i false G' (Ret (Released a)) (outcome_ok i))) as Hrel.
  { apply wp_release; [done|]. by intros G1 r _ G2 _. }
  destruct l as [l|]; [|done]. destruct (Hl l eq_refl) as (_ & Hi & _). unfold release. rewrite Hi. destruct (lost _); [by intros G1 H1 G2 H2|done].
Qed.

Lemma finish_ok i G p o : proc_ok i G p → p_task p = Some (Ret o) → ghost_ok G → proc_ok i G (finish o p).
Proof.
  intros [Httl Hl Hq] Ht Hok. pose proof (Hq _ Ht G (ext_refl i G Hok)) as Ho.
  destruct o as [[l|e] w|r|r]; cbn in *; split; cbn; try done. by intros l' [= <-].
Qed.

(** A request in the net is one its sender could make. *)
Lemma sent_ok {A} i hold G (q : prog B A) net Q : wp i hold G q Q →
  ∀ j b m, (j, ReqPut b m) ∈ send i q net → (j, ReqPut b m) ∈ net ∨ ∃ t, put_ok j G b m t.
Proof.
  intros Hq j b m. unfold send. rewrite elem_of_app. intros [Hin|]; [right|by left].
  apply list_elem_of_fmap in Hin as (r & [= <- <-] & Hr). destruct q as [| | | | |b' m' k|k]; cbn in Hr; try by apply not_elem_of_nil in Hr.
  - apply list_elem_of_singleton in Hr as [= -> ->]. destruct Hq as (t & ? & _). by exists t.
  - apply list_elem_of_singleton in Hr. done.
Qed.

Lemma inv_tick t t' st net ps G : inv (mk_world t st net ps) G → t ≤ t' → ∃ G', inv (mk_world t' st net ps) G'.
Proof.
  intros Hinv Hle. pose proof (inv_now _ _ Hinv) as Hnow. cbn in Hnow. destruct (inv_store _ _ Hinv) as [Hok ? ? Hw].
  set (G' := mk_ghost t' (g_log G) (g_live G) (g_last G)).
  assert (ghost_ok G') as Hok'. { split; [apply Hok|]. intros i. cbn. pose proof (ok_last _ Hok i). lia. }
  assert (∀ j, ext j G G') as Hext. { intros j. split; [|done]. split; [done|cbn; lia|done|done]. }
  exists G'. split; [done| |..]; cbn.
  - split; [done|done|done|]. cbn. intros v r t0 Hl Hv Hlt. apply (Hw v r t0 Hl Hv). lia.
  - intros i b m Hin. destruct (inv_net _ _ Hinv i b m Hin) as (t0 & Hput). exists t0. eapply put_ok_later; [done|apply Hext].
  - intros i p Hp. eapply proc_ok_ext; [by apply (inv_procs _ _ Hinv i p)|done].
Qed.

Lemma lock_ok i G p l f k :
  ghost_ok G → proc_ok i G p → p_task p = Some (Lock f k) → p_lease p = Some l →
  proc_ok i G (mk_process (p_ttl p) (p_watch p) (Some (set_held (f (held l)) l)) (p_done p) (Some (k (held l)))).
Proof.
  intros Hok [Httl Hl Hq] Ht El. destruct (Hl l El) as (H1 & H2 & Hh). specialize (Hq _ Ht) as [_ Hq].
  destruct (Hq G (held l) (ext_refl i G Hok) Hh) as [Hf Hk]. split; cbn; [done| |].
  - by intros l' [= <-].
  - intros q [= <-]. by rewrite El in Hk.
Qed.

(** A PUT lands that its sender waits for. *)
Lemma inv_put t st net ps G i p b m k a st' a' :
  inv (mk_world t st net ps) G → ps !! i = Some p → p_task p = Some (Put b m k) →
  os_put st b m = (a, st') → a' = a ∨ a' = Err Generic → ∃ G', inv (mk_world t st' net (<[i := with_task (k a') p]> ps)) G'.
Proof.
  intros Hinv Hp Ht E Ha. pose proof (inv_procs _ _ Hinv i p Hp) as Hpr. destruct (pr_task _ _ _ Hpr _ Ht) as (t0 & Hput & Hk).
  destruct (write_inv st G i b m t0 a st' (inv_store _ _ Hinv) Hput E) as (G' & Hext & Hst' & Hn & Hmine & Hni).
  exists G'. eapply inv_update; [done|done|intros; eapply put_ok_later; [done|apply Hext]|rewrite Hn; apply (inv_now _ _ Hinv)|done|by left|].
  apply proc_with_task; [by eapply proc_ok_ext|]. apply Hk; [done|destruct Ha as [->| ->]; done|destruct Ha as [->| ->]; done].
Qed.

(** A PUT lands that nobody waits for. *)
Lemma inv_land t st net ps G i b m t0 a st' :
  inv (mk_world t st net ps) G → put_ok i G b m t0 → os_put st b m = (a, st') → ∃ G', inv (mk_world t st' net ps) G'.
Proof.
  intros Hinv Hput E. destruct (write_inv st G i b m t0 a st' (inv_store _ _ Hinv) Hput E) as (G' & Hext & Hst' & Hn & _ & _).
  exists G'. split; [rewrite Hn; apply (inv_now _ _ Hinv)|done|..]; cbn.
  - intros j b' m' Hin. destruct (inv_net _ _ Hinv j b' m' Hin) as (t1 & ?). exists t1. eapply put_ok_later; [done|apply Hext].
  - intros j p Hj. eapply proc_ok_ext; [by apply (inv_procs _ _ Hinv j p)|done].
Qed.

(** A DELETE lands that its sender waits for, on a record of its own or none. *)
Lemma inv_delete t st net ps G i p k a st' a' :
  inv (mk_world t st net ps) G → ps !! i = Some p → p_task p = Some (Delete k) → os_delete st = (a, st') →
  (∀ b v, os_object st = Some (b, v) → ∃ r, from_slice b = Some r ∧ instance_id r = i) →
  ∃ G', inv (mk_world t st' net (<[i := with_task (k a') p]> ps)) G'.
Proof.
  intros Hinv Hp Ht E Hown. pose proof (inv_procs _ _ Hinv i p Hp) as Hpr. destruct (pr_task _ _ _ Hpr _ Ht) as (Hh & Hk).
  destruct (delete_inv st G i a st' (inv_store _ _ Hinv) E Hown) as (G' & Hlater & Hext & Hst' & Hn).
  exists G'. eapply inv_update; [done|done| |rewrite Hn; apply (inv_now _ _ Hinv)|done|by left|].
  - intros j b m t0 Hput. eapply put_ok_later; [done|]. destruct (decide (j = i)) as [->|Hj]; [done|apply Hext, Hj].
  - split; [apply Hpr| |]; cbn.
    + intros l El. rewrite El in Hh. by rewrite bool_decide_true in Hh by by eexists.
    + intros q [= <-]. by apply Hk.
Qed.

Lemma calm_step_inv w w' G : inv w G → calm_step w w' → ∃ G', inv w' G'.
Proof.
  intros Hinv (e & Hstep & Hcalm). destruct Hstep as
    [t t' st net ps Hle
    |t st net ps i p Hp Ht Hd Hlost|t st net ps i p l Hp Ht Hl|t st net ps i p Hp Ht|t st net ps i p l Hp Hl
    |t st net ps i p k Hp Ht|t st net ps i p k Hp Ht|t st net ps i p l f k Hp Ht Hl|t st net ps i p o Hp Ht
    |t st net ps i p k a Hp Ht Ha|t st net ps i p b m k a st' a' Hp Ht E Ha|t st net ps i p k a st' a' Hp Ht E Ha
    |t st net ps i p b m k Hp Ht|t st net ps i p k Hp Ht|t st net ps i p q Hp Ht|t st net ps i p q watch Hp Ht
    |t st net ps i b m a st' Hin E|t st net ps i a st' Hin E]; cbn in Hcalm;
    pose proof (inv_store _ _ Hinv) as Hst; pose proof (st_ok _ _ Hst) as Hok; pose proof (inv_now _ _ Hinv) as Hnow; cbn in Hst, Hnow;
    try (pose proof (inv_procs _ _ Hinv i p Hp) as Hpr; pose proof (pr_task _ _ _ Hpr) as Htask).
  - by apply inv_tick with t G.
  - exists G. eapply inv_local; [done|by left|]. split; [apply Hpr|done|]. cbn. intros q [= <-]. by apply wp_task_acquire; [|apply Hpr].
  - exists G. eapply inv_local; [done|by left|]. apply proc_with_task; [done|]. rewrite bool_decide_true by by eexists.
    apply wp_task_renew; [done|]. by apply Hpr.
  - exists G. eapply inv_local; [done|by left|]. split; [apply Hpr|done|]. cbn. intros q [= <-].
    apply wp_task_release; [done|apply Hpr].
  - exists G. eapply inv_local; [done|by left|]. destruct (pr_lease _ _ _ Hpr l Hl) as (? & ? & ? & ?).
    split; [apply Hpr| |].
    + cbn. intros l' [= <-]. done.
    + cbn. intros q Hq. specialize (Htask q Hq). by rewrite Hl in Htask.
  - exists G. eapply inv_local; [done|by left|]. apply proc_with_task; [done|]. rewrite <-Hnow. apply (Htask _ Ht), ext_refl, Hok.
  - exists (stamp i G). eapply inv_update; [done|intros; by apply stamp_ext|intros; by apply put_ok_stamp|done|by apply stamp_store|by left|].
    split; [apply Hpr|apply Hpr|]. cbn. intros q [= <-]. rewrite <-Hnow. apply (Htask _ Ht), ext_refl, Hok.
  - exists G. eapply inv_local; [done|by left|]. by eapply lock_ok.
  - exists G. eapply inv_local; [done|by left|]. by apply finish_ok.
  - exists G. eapply inv_local; [done|by left|]. apply proc_with_task; [done|]. apply (Htask _ Ht); [by apply ext_refl|].
    intros b v ->. apply (st_object _ _ Hst). destruct Ha as [Ha|Ha]; [|done]. unfold get_answer in Ha. destruct (os_object st); cbn in Ha; congruence.
  - by eapply inv_put.
  - by eapply inv_delete; try apply Hcalm.
  - exists G. destruct (Htask _ Ht) as (t0 & Hput & Hk). eapply inv_local; [done| |].
    + intros j b' m' [[= -> -> ->]|Hj]%elem_of_cons; [right; by exists t0|by left].
    + apply proc_with_task; [done|]. apply Hk; [by apply ext_refl|done|done].
  - exists G. destruct (Htask _ Ht) as (Hh & Hk). eapply inv_local; [done| |].
    + intros j b' m' [?|Hj]%elem_of_cons; [done|by left].
    + apply proc_with_task; [done|]. apply Hk. by split.
  - exists G. rewrite <-(insert_id ps i p Hp). eapply inv_local; [done| |done]. by eapply sent_ok; apply Htask.
  - exists G. eapply inv_local; [done|by eapply sent_ok; apply Htask|]. split; [apply Hpr|apply Hpr|done].
  - destruct (inv_net _ _ Hinv i b m Hin) as (t0 & Hput). by eapply inv_land.
  - by destruct Hcalm.
Qed.

Lemma fresh_start_inv w : fresh_start w → (∀ i p, w_procs w !! i = Some p → Z.max (p_ttl p) 1 = ttl_of i) → ∃ G, inv w G.
Proof.
  intros (Ho & Hnet & Hps) Httl. exists (mk_ghost (w_now w) ∅ ∅ (λ _, w_now w)). split; [done| |..].
  - split.
    + split; [|done]. cbn. intros v r t. by rewrite lookup_empty.
    + intros v. cbn. rewrite lookup_empty. by intros [? ?].
    + intros b v. by rewrite Ho.
    + intros v r t Hv. by apply not_elem_of_empty in Hv.
  - intros i b m. rewrite Hnet. by intros ?%not_elem_of_nil.
  - intros i p Hp. destruct (Hps i p Hp) as [Hl Ht]. split; [by apply Httl|by rewrite Hl|by rewrite Ht].
Qed.

Lemma reachable_inv w w' : rtc calm_step w w' → (∃ G, inv w G) → ∃ G, inv w' G.
Proof. induction 1 as [|w1 w2 w3 Hs _ IH]; [done|]. intros [G HG]. apply IH. by eapply calm_step_inv. Qed.

(** A writer is within the window of its lease's record, so the object names it. *)
Lemma writes_object w G i : inv w G → writes w i →
  ∃ b v r t, os_object (w_store w) = Some (b, v) ∧ g_log G !! v = Some (r, t) ∧ instance_id r = i ∧
    w_now w + skew < t + ttl_of i * SECOND.
Proof.
  intros Hinv (p & l & Hp & Hl & Hm). pose proof (inv_procs _ _ Hinv i p Hp) as Hpr.
  destruct (pr_lease _ _ _ Hpr l Hl) as (Httl & _ & _ & t & (r & Hv & Hi & Hlive) & Hc).
  unfold may_write in Hm. apply bool_decide_eq_true in Hm as [d Hd]. unfold write_deadline in Hd. rewrite Httl in Hd.
  pose proof (env_ttl Henv i). pose proof (env_skew Henv i).
  rewrite wrap_u_id in Hd by (unfold in_u, MAX_SANE_TTL_S in *; lia).
  destruct (negb _ && _) in Hd; [|done]. cbn [andb] in Hd. destruct (Z.ltb_spec (w_now w) (confirmed (held l) + ttl_of i * 2000 / 3 * MILLI)); [|done].
  destruct (st_window _ _ (inv_store _ _ Hinv) (h_version (held l)) r t Hlive Hv) as (b & v' & r' & t' & Ho & Hv' & Hi' & Ht').
  { rewrite (inv_now _ _ Hinv), Hi. unfold SECOND, MILLI in *. divlia. }
  exists b, v', r', t'. split; [done|]. split; [done|]. split; [congruence|]. unfold SECOND, MILLI in *. divlia.
Qed.

(** ** Progress *)

(** One process runs a call by itself, at one moment: every request is answered. *)
Inductive alone (i : string) (t : Z) {A} : St → prog B A → St → A → Prop :=
| alone_ret st a : alone i t st (Ret a) st a
| alone_instant st k st' a : alone i t st (k t) st' a → alone i t st (InstantNow k) st' a
| alone_system st k st' a : alone i t st (k (wall i t)) st' a → alone i t st (SystemNow k) st' a
| alone_get st k st' a : alone i t st (k (get_answer st)) st' a → alone i t st (Get k) st' a
| alone_put st b m k x st1 st' a : os_put st b m = (x, st1) → alone i t st1 (k x) st' a → alone i t st (Put b m k) st' a.

Lemma alone_bind {A C} i t st (q : prog B A) (f : A → prog B C) st1 a st2 c :
  alone i t st q st1 a → alone i t st1 (f a) st2 c → alone i t st (q ≫= f) st2 c.
Proof. induction 1; intros Hf; cbn; [done|..]; try (constructor; by auto). econstructor; [done|]. by auto. Qed.

Lemma alone_steps i t st q st' o net ps p :
  alone i t st q st' o → ps !! i = Some p → p_task p = Some q →
  rtc calm_step (mk_world t st net ps) (mk_world t st' net (<[i := finish o p]> ps)).
Proof.
  intros Ha. revert ps p. induction Ha as [st o|st k st' o _ IH|st k st' o _ IH|st k st' o _ IH|st b m k x st1 st' o E _ IH]; intros ps p Hp Ht.
  1:{ apply rtc_once. exists Quiet. split; [by apply step_return|done]. }
  all: assert (∀ q', <[i := finish o p]> ps = <[i := finish o (with_task q' p)]> (<[i := with_task q' p]> ps)) as Hfin
    by (intros q'; rewrite insert_insert_eq; by destruct o as [[] ?| |]).
  - eapply rtc_l; [exists Quiet; split; [by eapply step_instant|done]|]. rewrite (Hfin (k t)). apply IH; [by rewrite lookup_insert_eq|done].
  - eapply rtc_l; [exists Quiet; split; [by eapply step_system|done]|]. rewrite (Hfin (k (wall i t))). apply IH; [by rewrite lookup_insert_eq|done].
  - eapply rtc_l; [exists Quiet; split; [by eapply step_get; [..|by left]|done]|]. rewrite (Hfin (k (get_answer st))). apply IH; [by rewrite lookup_insert_eq|done].
  - eapply rtc_l; [exists Quiet; split; [by eapply step_put; [..|by left]|done]|]. rewrite (Hfin (k x)). apply IH; [by rewrite lookup_insert_eq|done].
Qed.

(** The same, as a run of the program. *)
Lemma alone_run {A} i t st (q : prog B A) st' a :
  alone i t st q st' a → ∀ n h, ∃ m, run (λ _, t) (λ _, wall i t) n st h q = (a, m, st', h).
Proof.
  induction 1 as [st a|st k st' a _ IH|st k st' a _ IH|st k st' a _ IH|st b m k x st1 st' a E _ IH]; intros n h; cbn;
    [by eexists|apply IH..|]. rewrite E. apply IH.
Qed.

(** And computed, for a call that takes no lock and deletes nothing. *)
Fixpoint compute_alone {A} (i : string) (t : Z) (st : St) (q : prog B A) : option (St * A) :=
  match q with
  | Ret a => Some (st, a)
  | InstantNow k => compute_alone i t st (k t)
  | SystemNow k => compute_alone i t st (k (wall i t))
  | Get k => compute_alone i t st (k (get_answer st))
  | Put b m k => let '(x, st) := os_put st b m in compute_alone i t st (k x)
  | Lock _ _ | Delete _ => None
  end.

Lemma compute_alone_sound {A} i t st (q : prog B A) st' a : compute_alone i t st q = Some (st', a) → alone i t st q st' a.
Proof.
  revert st; induction q as [x|k IH|k IH|g k IH|k IH|b m k IH|k IH]; intros st; cbn; try done.
  - intros [= <- <-]. constructor.
  - intros E. by apply alone_instant, IH.
  - intros E. by apply alone_system, IH.
  - intros E. by apply alone_get, IH.
  - destruct (os_put st b m) as [x st1] eqn:Ep. intros E. by eapply alone_put, IH.
Qed.

Lemma computed_acquisition t st net ps i p st' o :
  ps !! i = Some p → p_task p = None → p_done p = false → p_lease p = None →
  compute_alone i t st (task_acquire i p) = Some (st', o) →
  rtc calm_step (mk_world t st net ps) (mk_world t st' net (<[i := finish o (mk_process (p_ttl p) None None false None)]> ps)).
Proof.
  intros Hp Ht Hd Hl E. set (q := mk_process (p_ttl p) None None false (Some (task_acquire i p))).
  eapply rtc_l; [exists Quiet; split; [apply (step_acquire t st net ps i p); [done..|by rewrite Hl]|done]|]. fold q.
  assert (<[i := finish o (mk_process (p_ttl p) None None false None)]> ps = <[i := finish o q]> (<[i := q]> ps)) as ->.
  { rewrite insert_insert_eq. by destruct o as [[] ?| |]. }
  eapply alone_steps; [by apply compute_alone_sound|by rewrite lookup_insert_eq|done].
Qed.

(** A probe meets the lease it was sent after. *)
Lemma alone_probe i t st o record h : os_object st = Some o → alone i t st (probe to_vec record h) st (Ok h).
Proof.
  intros Ho. unfold probe. cbn [probe_all]. destruct (create_refused st (to_vec record) o Ho) as (e & E & He).
  eapply alone_put; [exact E|]. replace (probe_verdict (Err e) "If-None-Match") with (Ok Conditional : result LeaseError Exclusion) by (destruct He as [-> | ->]; done).
  destruct (update_refused st (to_vec record) (mk_version (Some PROBE_ETAG) None)) as (e' & E' & He').
  { intros [b Hb]. by apply (env_probe Henv st), (object_issued st b). }
  eapply alone_put; [exact E'|]. destruct He' as [->|[_ ?]]; [constructor|congruence].
Qed.

(** A race that meets what was read is won. *)
Lemma alone_race i t st again current watch :
  match current with None => os_object st = None | Some (_, v) => ∃ b, os_object st = Some (b, v) end →
  ∃ v st', alone i t st (race to_vec from_slice format again (ttl_of i) i current watch) st'
    (Ok (mk_lease i (ttl_of i) (rfc3339 format (wall i t)) (mk_held v t (wall i t) Conditional false)), None)
    ∧ names from_slice st' = Some i.
Proof.
  intros Hcur. set (record := mk_record i (rfc3339 format (wall i t)) (rfc3339 format (wall i t)) (ttl_of i)).
  destruct (put_accepted st (to_vec record) (match current with None => Create | Some (_, v) => Update v end)) as (v & st' & E & Ho & _).
  { by destruct current as [[? ?]|]. }
  exists v, st'. split; [|unfold names; rewrite Ho; cbn; by rewrite (env_json Henv)].
  apply alone_instant, alone_system. eapply alone_put; [exact E|]. eapply alone_bind; [by eapply alone_probe|]. constructor.
Qed.

(** The lease can be taken while its record is absent, its own, or expired. *)
Lemma alone_acquire i t st watch :
  (∀ b v, os_object st = Some (b, v) → ∃ r, from_slice b = Some r ∧ (instance_id r ≠ i → is_fresh parse r (wall i t) = false)) →
  ∃ v st' w, alone i t st (acquire_races to_vec from_slice format parse ACQUIRE_RACES (ttl_of i) i watch) st'
    (Ok (mk_lease i (ttl_of i) (rfc3339 format (wall i t)) (mk_held v t (wall i t) Conditional false)), w)
    ∧ names from_slice st' = Some i.
Proof.
  intros Hobj. unfold ACQUIRE_RACES. generalize 2%nat as n. intros n. cbn [acquire_races].
  destruct (os_object st) as [[b v]|] eqn:Eo.
  - destruct (Hobj b v eq_refl) as (r & Hr & Hf).
    destruct (alone_race i t st (acquire_races to_vec from_slice format parse n (ttl_of i) i) (Some (Some r, v)) watch) as (v' & st' & Ha & Hn).
    { by exists b. }
    exists v', st', None. split; [|done]. apply alone_get. unfold get_answer. rewrite Eo. cbn. rewrite Hr.
    destruct (String.eqb_spec (instance_id r) i) as [_|Hne]; [exact Ha|]. cbn. apply alone_system. rewrite (Hf Hne). exact Ha.
  - destruct (alone_race i t st (acquire_races to_vec from_slice format parse n (ttl_of i) i) None watch Eo) as (v' & st' & Ha & Hn).
    exists v', st', None. split; [|done]. apply alone_get. unfold get_answer. rewrite Eo. exact Ha.
Qed.

(** A record of the history has expired once its TTL and the skew have passed. *)
Lemma expired G v r t i T :
  ghost_ok G → g_log G !! v = Some (r, t) → t + ttl_of (instance_id r) * SECOND + skew ≤ T → is_fresh parse r (wall i T) = false.
Proof.
  intros Hok Hv HT. destruct (ok_log _ Hok v r t Hv) as [(_ & Httl & Hp) _].
  pose proof (env_ttl Henv (instance_id r)). pose proof (env_clocks Henv i (instance_id r) T t).
  unfold is_fresh. rewrite Hp, Httl, try_i_Some by (unfold in_i, MAX_SANE_TTL_S in *; lia). apply Z.ltb_ge. cbn. lia.
Qed.

Lemma fresh_lease_writes i st v t : may_write (mk_lease i (ttl_of i) st (mk_held v t (wall i t) Conditional false)) t (wall i t) = true.
Proof.
  pose proof (env_ttl Henv i) as Httl. apply bool_decide_eq_true. unfold write_deadline. cbn.
  rewrite wrap_u_id by (unfold in_u, MAX_SANE_TTL_S in *; lia). rewrite Z.leb_refl, Z.sub_diag.
  assert (0 < ttl_of i * 2000 / 3) by (apply Z.div_str_pos; lia). unfold MILLI.
  destruct (Z.ltb_spec 0 (ttl_of i * 2000 / 3 * 1000000)); [|lia]. destruct (Z.ltb_spec t (t + ttl_of i * 2000 / 3 * 1000000)); [|lia]. by eexists.
Qed.

(** A process with nothing to do and no live lease. *)
Record may_start (w : world B St) (i : string) (p : process B) : Prop := {
  ms_proc : w_procs w !! i = Some p;
  ms_idle : p_task p = None;
  ms_open : p_done p = false;
  ms_lease l : p_lease p = Some l → lost (held l) = true;
}.

(** By [T] no other process's record in the object can be fresh on any clock: its
    own TTL and the skew have passed since now. *)
Definition lapsed (w : world B St) (i : string) (T : Z) : Prop :=
  w_now w ≤ T ∧
  ∀ b v r, os_object (w_store w) = Some (b, v) → from_slice b = Some r → instance_id r ≠ i →
    w_now w + ttl_s r * SECOND + skew ≤ T.

Definition acquisition (i : string) (p : process B) : prog B (result LeaseError BucketLease * LeaseWatch) :=
  acquire_as to_vec from_slice format parse (p_ttl p) i (p_watch p).

Lemma takes_lease w G i p T : inv w G → may_start w i p → lapsed w i T →
  ∃ l watch st', alone i T (w_store w) (acquisition i p) st' (Ok l, watch) ∧ names from_slice st' = Some i ∧
    may_write l T (wall i T) = true ∧
    rtc calm_step w (mk_world T st' (w_net w) (<[i := mk_process (p_ttl p) watch (Some l) false None]> (w_procs w))).
Proof.
  intros Hinv [Hp Ht Hd Hl] [HT Hlap]. destruct w as [t st net ps]. cbn [w_now w_store w_net w_procs] in *.
  pose proof (inv_store _ _ Hinv) as Hst. pose proof (st_ok _ _ Hst) as Hok. pose proof (inv_now _ _ Hinv) as Hnow. cbn [w_now w_store] in *.
  destruct (alone_acquire i T st (p_watch p)) as (v & st' & w' & Ha & Hn).
  { intros b v Ho. destruct (st_object _ _ Hst b v Ho) as (r & t0 & -> & Hv). exists r. split; [apply (env_json Henv)|]. intros Hne.
    specialize (Hlap _ v r Ho (env_json Henv r) Hne). destruct (ok_log _ Hok v r t0 Hv) as [(_ & Httl & _) Ht0].
    pose proof (ok_last _ Hok (instance_id r)). eapply expired; [done|done|]. rewrite <-Httl. lia. }
  assert (acquisition i p = acquire_races to_vec from_slice format parse ACQUIRE_RACES (ttl_of i) i (p_watch p)) as Eacq.
  { unfold acquisition, acquire_as. by rewrite (pr_ttl _ _ _ (inv_procs _ _ Hinv i p Hp)). }
  eexists _, w', st'. rewrite Eacq. split; [exact Ha|]. split; [done|]. split; [apply fresh_lease_writes|].
  set (q := mk_process (p_ttl p) None None false (Some (task_acquire i p))).
  eapply rtc_l; [exists Quiet; split; [by apply (step_tick t T)|done]|].
  eapply rtc_l; [exists Quiet; split; [by apply (step_acquire T st net ps i p)|done]|]. fold q.
  assert (∀ l, mk_world T st' net (<[i := mk_process (p_ttl p) w' (Some l) false None]> ps)
               = mk_world T st' net (<[i := finish (Acquired (Ok l) w') q]> (<[i := q]> ps))) as Efin.
  { intros l. by rewrite insert_insert_eq. }
  rewrite Efin. eapply alone_steps; [|by rewrite lookup_insert_eq|done].
  unfold acquisition in Eacq. unfold task_acquire. rewrite Eacq. eapply alone_bind; [exact Ha|constructor].
Qed.

(** What the record of a writing process is to any other: fresh, and to be trusted. *)
Lemma writer_blocks w G i j : inv w G → writes w j →
  ∃ b v r, os_object (w_store w) = Some (b, v) ∧ from_slice b = Some r ∧ instance_id r = j ∧
    is_fresh parse r (wall i (w_now w)) = true ∧ is_suspect parse r (wall i (w_now w)) = false.
Proof.
  intros Hinv Hw. destruct (writes_object w G j Hinv Hw) as (b & v & r & t & Ho & Hv & Hj & Hage).
  pose proof (inv_store _ _ Hinv) as Hst. pose proof (st_ok _ _ Hst) as Hok. pose proof (inv_now _ _ Hinv) as Hnow.
  destruct (st_object _ _ Hst b v Ho) as (r' & t' & -> & Hv'). rewrite Hv in Hv'. injection Hv' as <- <-.
  exists (to_vec r), v, r. split; [done|]. split; [apply (env_json Henv)|]. split; [done|].
  destruct (ok_log _ Hok v r t Hv) as [(_ & Httl & Hparse) Ht]. pose proof (ok_last _ Hok (instance_id r)).
  pose proof (env_ttl Henv (instance_id r)). pose proof (env_skew Henv (instance_id r)).
  pose proof (env_clocks Henv i (instance_id r) (w_now w) t). unfold is_fresh, is_suspect. rewrite Hparse, Httl.
  rewrite try_i_Some by (unfold in_i, MAX_SANE_TTL_S in *; lia). rewrite Hj in *.
  split; [apply Z.ltb_lt; cbn; lia|]. destruct (Z.ltb_spec MAX_SANE_TTL_S (ttl_of j)); [lia|]. apply Z.ltb_ge.
  unfold SECOND in *. lia.
Qed.

Lemma alone_blocked i t st b v r ttl watch n :
  os_object st = Some (b, v) → from_slice b = Some r → instance_id r ≠ i →
  is_fresh parse r (wall i t) = true → is_suspect parse r (wall i t) = false →
  alone i t st (acquire_races to_vec from_slice format parse (S n) ttl i watch) st (Err (ForeignActive (instance_id r)), None).
Proof.
  intros Ho Hr Hne Hf Hs. cbn [acquire_races]. apply alone_get. unfold get_answer. rewrite Ho. cbn. rewrite Hr.
  destruct (String.eqb_spec (instance_id r) i) as [|_]; [done|]. cbn. apply alone_system. rewrite Hf, Hs. constructor.
Qed.

(** C14: the bucket lease excludes. On a service with conditional PUT, however the
    requests of any number of processes are interleaved, delayed, repeated,
    cancelled or left unanswered, at most one process may write at any moment, and
    then the lease object names it. Assumed: every process's TTL is between 1 s and
    3600 s ([MAX_SANE_TTL_S]; the configuration takes any positive TTL, and past
    this bound exclusion fails, see [long_ttl_two_writers]); any two wall clocks
    differ by at most a third of every TTL; a DELETE lands only while its sender
    waits for it and finds the sender's own record or none (no takeover between
    the read and the DELETE of a release, and none that lands after its sender
    gave it up); records and times survive JSON and RFC 3339; no service issues
    the probe's ETag; and the processes start without a lease over an empty key. *)
Theorem lease_exclusion (w0 w : world B St) (i j : string) :
  fresh_start w0 → (∀ i p, w_procs w0 !! i = Some p → Z.max (p_ttl p) 1 = ttl_of i) → rtc calm_step w0 w →
  writes w i →
  (∃ b v r, os_object (w_store w) = Some (b, v) ∧ from_slice b = Some r ∧ instance_id r = i) ∧ (writes w j → i = j).
Proof.
  intros H0 Httl Hr Hi. destruct (reachable_inv w0 w Hr) as [G Hinv]; [by apply fresh_start_inv|].
  destruct (writes_object w G i Hinv Hi) as (b & v & r & t & Ho & Hv & Hri & _).
  destruct (st_object _ _ (inv_store _ _ Hinv) b v Ho) as (r' & t' & -> & Hv'). rewrite Hv in Hv'. injection Hv' as <- <-. split.
  - exists (to_vec r), v, r. split; [done|]. split; [apply (env_json Henv)|done].
  - intros Hj. destruct (writes_object w G j Hinv Hj) as (b2 & v2 & r2 & t2 & Ho2 & Hv2 & Hrj & _). congruence.
Qed.

(** C15: the lease is refused while it is in use and taken once it lapses, by the
    acquisition alone. From any state the processes of C14 can reach, crashed or
    silent holders and abandoned requests included, let a process with no call
    and no live lease run an acquisition with its requests answered and nobody
    else moving. While another process may write, it returns [ForeignActive]
    naming that process and leaves the store as it is. From the moment the TTL
    stated in the object's record and the clock skew have passed (at once, if the
    object is absent or the process's own), it returns a lease that may be
    written under there and then, the object names it, and the state in which
    only this process and the object have changed is one the processes can reach.
    Assumed as for C14. *)
Theorem lease_handover (w0 w : world B St) (i : string) (p : process B) (h : Held) :
  fresh_start w0 → (∀ i p, w_procs w0 !! i = Some p → Z.max (p_ttl p) 1 = ttl_of i) → rtc calm_step w0 w → may_start w i p →
  let attempt t := run (λ _, t) (λ _, wall i t) 0 (w_store w) h (acquisition i p) in
  (∀ j, j ≠ i → writes w j → ∃ n, attempt (w_now w) = (Err (ForeignActive j), None, n, w_store w, h)) ∧
  (∀ T, lapsed w i T → ∃ l watch n st',
     attempt T = (Ok l, watch, n, st', h) ∧ names from_slice st' = Some i ∧ may_write l T (wall i T) = true ∧
     rtc calm_step w (mk_world T st' (w_net w) (<[i := mk_process (p_ttl p) watch (Some l) false None]> (w_procs w)))).
Proof.
  intros H0 Httl Hr Hs attempt. destruct (reachable_inv w0 w Hr) as [G Hinv]; [by apply fresh_start_inv|]. split.
  - intros j Hne Hj. destruct (writer_blocks w G i j Hinv Hj) as (b & v & r & Ho & Hb & <- & Hf & Hsus).
    destruct (alone_run i (w_now w) (w_store w) (acquisition i p) (w_store w) (Err (ForeignActive (instance_id r)), None)
                (alone_blocked i _ _ b v r _ _ _ Ho Hb Hne Hf Hsus) 0 h) as [n E]. by exists n.
  - intros T HT. destruct (takes_lease w G i p T Hinv Hs HT) as (l & watch & st' & Ha & Hn & Hw & Hrtc).
    destruct (alone_run _ _ _ _ _ _ Ha 0 h) as [n E]. by exists l, watch, n, st'.
Qed.

End world.

(** ** A cluster of two *)

Import MemStore.
Definition mem_format (t : Z) : option string := Some (pos_text (encode t)).
Definition mem_parse (s : string) : option Z := decode (text_pos s).

(** Two processes with a 30 s TTL, one of them with its clock 10 s ahead. *)
Definition mem_wall (i : string) (t : Z) : Z := if String.eqb i "bob" then t + 10 * SECOND else t.
Definition two : world LeaseRecord (mem_store LeaseRecord) :=
  mk_world 0 (None, 0%nat) [] {["ann" := mk_process 30 None None false None; "bob" := mk_process 30 None None false None]}.

Lemma mem_environment : environment id Some mem_format mem_parse mem_wall (@mem_issued LeaseRecord) (λ _, 30) (10 * SECOND).
Proof.
  split.
  - done.
  - intros i t. eexists. split; [done|]. unfold mem_parse. rewrite text_pos_text. apply decode_encode.
  - intros st (n & _ & E). unfold mem_tag in E. injection E as E. by destruct (encode n).
  - intros i. unfold MAX_SANE_TTL_S. lia.
  - intros i. unfold SECOND. lia.
  - intros i j t t'. unfold mem_wall, SECOND. destruct (String.eqb i "bob"), (String.eqb j "bob"); lia.
Qed.

Lemma two_fresh : fresh_start two.
Proof.
  split; [done|]. split; [done|]. intros i p. cbn.
  rewrite lookup_insert. case_decide; [by intros [= <-]|]. rewrite lookup_singleton. case_decide; [by intros [= <-]|done].
Qed.

Lemma two_ttl i p : w_procs two !! i = Some p → Z.max (p_ttl p) 1 = 30.
Proof.
  cbn. rewrite lookup_insert. case_decide; [by intros [= <-]|]. rewrite lookup_singleton. case_decide; [by intros [= <-]|done].
Qed.

Definition idle : process LeaseRecord := mk_process 30 None None false None.

Lemma two_start i : i = "ann" ∨ i = "bob" → may_start two i idle.
Proof. intros [-> | ->]; (split; [reflexivity|reflexivity|reflexivity|done]). Qed.

(** ** Past the longest trusted TTL *)

(** "ann" is configured with two hours, "bob" with 30 s, their clocks agree. *)
Definition two_hours : world LeaseRecord (mem_store LeaseRecord) :=
  mk_world 0 (None, 0%nat) [] {["ann" := mk_process 7200 None None false None; "bob" := idle]}.

(** A process with no call and no lease tries to take it by itself at [t]. *)
Definition acquire_at (t : Z) (i : string) (w : world LeaseRecord (mem_store LeaseRecord)) :
    option (world LeaseRecord (mem_store LeaseRecord)) :=
  p ← w_procs w !! i;
  match p_task p, p_done p, p_lease p with
  | None, false, None =>
      '(st, o) ← compute_alone (λ _, id) i t (w_store w) (task_acquire id Some mem_format mem_parse i p);
      if w_now w <=? t
      then Some (mk_world t st (w_net w) (<[i := finish o (mk_process (p_ttl p) None None false None)]> (w_procs w)))
      else None
  | _, _, _ => None
  end.

Lemma acquire_at_steps t i w w' :
  acquire_at t i w = Some w' → rtc (calm_step id Some mem_format mem_parse (λ _, id)) w w'.
Proof.
  destruct w as [t0 st net ps]. unfold acquire_at. cbn [w_now w_store w_net w_procs].
  destruct (ps !! i) as [p|] eqn:Ep; [|done]. cbn [mbind option_bind].
  destruct (p_task p) eqn:Ht; [done|]. destruct (p_done p) eqn:Hd; [done|]. destruct (p_lease p) eqn:Hl; [done|].
  destruct (compute_alone _ _ _ _ _) as [[st' o]|] eqn:E; [|done]. cbn [mbind option_bind].
  destruct (Z.leb_spec t0 t); [|done]. intros [= <-].
  eapply rtc_l; [exists Quiet; split; [by apply step_tick|done]|].
  by apply (computed_acquisition id Some mem_format mem_parse (λ _, id) t st net ps i p).
Qed.

(** "bob" looks at "ann"'s lease at once, and again after his own TTL. *)
Definition takeover : option (world LeaseRecord (mem_store LeaseRecord)) :=
  w ← acquire_at 0 "ann" two_hours; w ← acquire_at 0 "bob" w; acquire_at (30 * SECOND) "bob" w.

Definition may_write_in (w : world LeaseRecord (mem_store LeaseRecord)) (i : string) : bool :=
  match p ← w_procs w !! i; p_lease p with Some l => may_write l (w_now w) (w_now w) | None => false end.

Lemma may_write_in_writes w i : may_write_in w i = true → writes (λ _, id) w i.
Proof.
  unfold may_write_in, writes. destruct (w_procs w !! i) as [p|] eqn:Ep; [|done]. cbn.
  destruct (p_lease p) as [l|] eqn:El; [|done]. intros Hw. by exists p, l.
Qed.

(** The bound on TTLs in [lease_exclusion] is needed: the configuration accepts a
    TTL of two hours, a record that states it is suspect however fresh, and a
    contender that has seen it unchanged for its own 30 s takes it over, while
    the holder, who renews every 40 minutes, may write for 80. Both then may. *)
Theorem long_ttl_two_writers :
  ∃ w, rtc (calm_step id Some mem_format mem_parse (λ _, id)) two_hours w
    ∧ writes (λ _, id) w "ann" ∧ writes (λ _, id) w "bob".
Proof.
  assert (match takeover with Some w => may_write_in w "ann" && may_write_in w "bob" | None => false end = true) as Hw
    by (vm_compute; reflexivity).
  destruct takeover as [w3|] eqn:E3; [|done]. unfold takeover in E3.
  destruct (acquire_at 0 "ann" two_hours) as [w1|] eqn:E1; [|done]. cbn [mbind option_bind] in E3.
  destruct (acquire_at 0 "bob" w1) as [w2|] eqn:E2; [|done]. cbn [mbind option_bind] in E3.
  apply andb_true_iff in Hw as [Ha Hb]. exists w3. split; [|split; by apply may_write_in_writes].
  etransitivity; [by eapply acquire_at_steps|]. etransitivity; by eapply acquire_at_steps.
Qed.

Lemma lease_exclusion_witness :
  ∃ w, rtc (calm_step id Some mem_format mem_parse mem_wall) two w ∧ writes mem_wall w "ann"
    ∧ ∀ j, writes mem_wall w j → j = "ann".
Proof.
  destruct (fresh_start_inv id mem_parse mem_wall mem_issued (λ _, 30) (10 * SECOND) two two_fresh two_ttl) as [G HG].
  destruct (takes_lease id Some mem_format mem_parse mem_wall mem_issued (λ _, 30) (10 * SECOND) mem_environment two G "ann" idle 0 HG)
    as (l & watch & st' & _ & _ & Hl & Hr).
  { apply two_start. by left. }
  { split; [done|]. intros b v r E. discriminate E. }
  eexists. split; [exact Hr|]. assert (writes mem_wall (mk_world 0 st' (w_net two)
    (<["ann" := mk_process (p_ttl idle) watch (Some l) false None]> (w_procs two))) "ann") as Hw.
  { eexists _, l. split; [apply lookup_insert_eq|]. split; [reflexivity|exact Hl]. }
  split; [exact Hw|]. intros j Hj. symmetry.
  apply (lease_exclusion id Some mem_format mem_parse mem_wall mem_issued (λ _, 30) (10 * SECOND) mem_environment two _ "ann" j two_fresh two_ttl Hr Hw).
  exact Hj.
Defined.

Lemma lease_handover_witness :
  ∃ w, rtc (calm_step id Some mem_format mem_parse mem_wall) two w ∧ writes mem_wall w "bob".
Proof.
  destruct (lease_handover id Some mem_format mem_parse mem_wall mem_issued (λ _, 30) (10 * SECOND) mem_environment two two "bob" idle
              (mk_held (mem_tag 0) 0 0 Conditional false) two_fresh two_ttl) as [_ Htake];
    [reflexivity|apply two_start; by right|].
  destruct (Htake 0) as (l & watch & n & st' & _ & _ & Hl & Hr).
  { split; [done|]. intros b v r E. discriminate E. }
  eexists. split; [exact Hr|]. eexists _, l. split; [apply lookup_insert_eq|]. split; [reflexivity|exact Hl].
Defined.
End LeaseWorld.
