(* ===== verification/Float64.v ===== *)
(** * [f64] as the index and the comparisons use it

    A float is its 64 bits.  What the code does with floats never rounds, except
    [i64 as f64]: it compares them ([==], [total_cmp]), steps to a neighbour
    ([next_up], [next_down]), rounds to an integer and converts to and from [i64].
    All of it is integer arithmetic on the bits, and the order used throughout is
    [total_cmp]'s, which is the order of [key]. *)

From S2P Require Import Prelude.
Open Scope Z_scope.

Module F64.

Definition SIGN : Z := 2 ^ 63.
Definition INF : Z := 2047 * 2 ^ 52.

(** The sign bit, and the rest. *)
Definition neg (x : Z) : bool := Z.testbit x 63.
Definition mag (x : Z) : Z := Z.land x (2 ^ 63 - 1).

Definition is_nan (x : Z) : bool := INF <? mag x.
Definition is_finite (x : Z) : bool := mag x <? INF.

(** [==] *)
Definition eq (x y : Z) : bool :=
  negb (is_nan x) && negb (is_nan y) && ((x =? y) || ((mag x =? 0) && (mag y =? 0))).

(** [f64::total_cmp], which flips the lower bits of a negative float's [i64] *)
Definition total_bits (x : Z) : Z :=
  let left := wrap_i 64 x in
  Z.lxor left (Z.shiftr (wrap_u 64 (Z.shiftr left 63)) 1).
Definition total_cmp (x y : Z) : comparison := (total_bits x ?= total_bits y).

(** [next_up], [next_down] *)
Definition next_up (x : Z) : Z :=
  if is_nan x || (x =? INF) then x
  else if mag x =? 0 then 1
  else if x =? mag x then x + 1 else x - 1.
Definition next_down (x : Z) : Z :=
  if is_nan x || (x =? SIGN + INF) then x
  else if mag x =? 0 then SIGN + 1
  else if x =? mag x then x - 1 else x + 1.

(** The magnitude of a float is [mantissa * 2 ^ exponent]. *)
Definition mantissa (x : Z) : Z :=
  let e := Z.shiftr (mag x) 52 in
  let f := Z.land (mag x) (2 ^ 52 - 1) in
  if e =? 0 then f else 2 ^ 52 + f.
Definition exponent (x : Z) : Z := Z.max (Z.shiftr (mag x) 52) 1 - 1075.

(** The magnitude's integer part, and whether it is all of it.  An infinity counts
    as [2 ^ 1024], beyond any [i64]. *)
Definition int_part (x : Z) : Z := Z.shiftl (mantissa x) (exponent x).
Definition integral (x : Z) : bool := Z.shiftl (int_part x) (- exponent x) =? mantissa x.
Definition int_above (x : Z) : Z := if integral x then int_part x else int_part x + 1.

(** [x.fract() == 0.0 && x.is_finite()] *)
Definition is_integer (x : Z) : bool := is_finite x && integral x.

Definition saturate (z : Z) : Z := Z.max i64_min (Z.min z i64_max).

(** [x as i64], [x.floor() as i64], [x.ceil() as i64] *)
Definition to_i64 (x : Z) : Z :=
  if is_nan x then 0 else saturate (if neg x then - int_part x else int_part x).
Definition floor_i64 (x : Z) : Z :=
  if is_nan x then 0 else saturate (if neg x then - int_above x else int_part x).
Definition ceil_i64 (x : Z) : Z :=
  if is_nan x then 0 else saturate (if neg x then - int_part x else int_above x).

(** The 53-bit mantissa of a positive integer, rounded to nearest, ties to even. *)
Definition rounded (a : Z) : Z :=
  let e := Z.log2 a in
  if e <=? 52 then Z.shiftl a (52 - e)
  else
    let s := e - 52 in
    let q := Z.shiftr a s in
    let r := Z.land a (2 ^ s - 1) in
    let half := 2 ^ (s - 1) in
    if (half <? r) || ((r =? half) && Z.odd q) then q + 1 else q.

(** Its bits; a mantissa that rounds up to [2 ^ 53] carries into the exponent. *)
Definition round_bits (a : Z) : Z := (Z.log2 a + 1022) * 2 ^ 52 + rounded a.

(** [n as f64] *)
Definition of_i64 (n : Z) : Z :=
  if n =? 0 then 0
  else if n <? 0 then SIGN + round_bits (- n)
  else round_bits n.

(** ** The order *)

(** Magnitude for a positive float, below zero and reversed for a negative one. *)
Definition key (x : Z) : Z := if neg x then - 1 - mag x else mag x.

Lemma bits_split x : in_u 64 x → 0 ≤ mag x < SIGN ∧ x = (if neg x then SIGN else 0) + mag x.
Proof.
  intros Hx. unfold mag, neg, SIGN in *. change (2 ^ 63 - 1) with (Z.ones 63). rewrite Z.land_ones by lia.
  unfold in_u in Hx. pose proof (Z.mod_pos_bound x (2 ^ 63) ltac:(lia)). split; [lia|].
  rewrite Z.testbit_eqb by lia. pose proof (Z.div_mod x (2 ^ 63) ltac:(lia)) as Hd.
  assert (0 ≤ x / 2 ^ 63 < 2) by (split; [apply Z.div_pos; lia|apply Z.div_lt_upper_bound; lia]).
  destruct (Z.eqb_spec ((x / 2 ^ 63) mod 2) 1) as [E|E]; rewrite (Z.mod_small (x / 2 ^ 63) 2) in E by lia; lia.
Qed.

Lemma mag_range x : in_u 64 x → 0 ≤ mag x < SIGN.
Proof. intros Hx. apply (bits_split x Hx). Qed.

Lemma key_inj x y : in_u 64 x → in_u 64 y → key x = key y → x = y.
Proof.
  intros Hx Hy. destruct (bits_split x Hx) as [Hm Ex]. destruct (bits_split y Hy) as [Hn Ey]. unfold key, SIGN in *.
  destruct (neg x), (neg y); lia.
Qed.

Lemma lxor_ones63 m : 0 ≤ m < SIGN → Z.lxor m (2 ^ 63 - 1) = 2 ^ 63 - 1 - m.
Proof.
  intros Hm. change (2 ^ 63 - 1) with (Z.ones 63). rewrite Z.sub_nocarry_ldiff.
  - apply Z.bits_inj'. intros n Hn. rewrite Z.lxor_spec, Z.ldiff_spec, Z.testbit_ones by lia.
    destruct (Z.leb_spec 0 n), (Z.ltb_spec n 63); cbn; try lia; [by destruct (Z.testbit m n)|].
    rewrite Z.bits_above_log2; [done|lia|]. destruct (Z.eq_dec m 0) as [->|]; [cbn; lia|]. apply Z.log2_lt_pow2; unfold SIGN in Hm; [lia|].
    eapply Z.lt_le_trans; [apply Hm|]. apply Z.pow_le_mono_r; lia.
  - destruct (Z.eq_dec m 0) as [->|]; [done|]. apply Z.ldiff_ones_r_low; [lia|]. apply Z.log2_lt_pow2; unfold SIGN in Hm; lia.
Qed.

(** [total_cmp] compares keys. *)
Lemma total_bits_key x : in_u 64 x → total_bits x = key x.
Proof.
  intros Hx. destruct (bits_split x Hx) as [Hm Ex]. unfold total_bits, key, wrap_i. unfold SIGN in *. destruct (neg x).
  - replace ((x + 2 ^ (64 - 1)) mod 2 ^ 64 - 2 ^ (64 - 1)) with (mag x - 2 ^ 63).
    2:{ replace (x + 2 ^ (64 - 1)) with (mag x + 1 * 2 ^ 64) by lia. rewrite Z.mod_add, Z.mod_small by lia. lia. }
    rewrite (Z.shiftr_div_pow2 (mag x - 2 ^ 63) 63) by lia. replace ((mag x - 2 ^ 63) / 2 ^ 63) with (-1).
    2:{ apply Z.div_unique_pos with (mag x); lia. }
    change (Z.shiftr (wrap_u 64 (-1)) 1) with (2 ^ 63 - 1). replace (mag x - 2 ^ 63) with (Z.lnot (2 ^ 63 - 1 - mag x)) by (unfold Z.lnot; lia).
    rewrite <-Z.lnot_lxor_l.
    rewrite lxor_ones63 by (unfold SIGN; lia). unfold Z.lnot. lia.
  - replace ((x + 2 ^ (64 - 1)) mod 2 ^ 64 - 2 ^ (64 - 1)) with (mag x).
    2:{ rewrite Z.mod_small by lia. lia. }
    rewrite (Z.shiftr_div_pow2 (mag x) 63), (Z.div_small (mag x)) by lia. cbn. apply Z.lxor_0_r.
Qed.

Lemma total_cmp_key x y : in_u 64 x → in_u 64 y → total_cmp x y = (key x ?= key y).
Proof. intros Hx Hy. unfold total_cmp. by rewrite !total_bits_key. Qed.

Lemma neg_key x : in_u 64 x → neg x = (key x <? 0).
Proof. intros Hx. pose proof (mag_range x Hx). unfold key. destruct (neg x); lia. Qed.

(** The bits of a magnitude with a sign. *)
Lemma bits_of (s : bool) m : 0 ≤ m < SIGN →
  in_u 64 ((if s then SIGN else 0) + m) ∧ neg ((if s then SIGN else 0) + m) = s ∧ mag ((if s then SIGN else 0) + m) = m.
Proof.
  intros Hm. assert (in_u 64 ((if s then SIGN else 0) + m)) as Hx by (unfold in_u, SIGN in *; destruct s; lia). split; [done|].
  destruct (bits_split _ Hx) as [Hb E]. unfold SIGN in *. destruct s, (neg _); lia.
Qed.

Lemma key_of (s : bool) m : 0 ≤ m < SIGN → key ((if s then SIGN else 0) + m) = if s then -1 - m else m.
Proof. intros Hm. destruct (bits_of s m Hm) as (_ & E1 & E2). unfold key. by rewrite E1, E2. Qed.

(** ** Neighbours *)

(** A step towards zero or away from it, on the magnitude. *)
Lemma next_up_bits x : in_u 64 x → is_nan x = false → x ≠ INF →
  next_up x = if mag x =? 0 then 1 else (if neg x then SIGN else 0) + (if neg x then mag x - 1 else mag x + 1).
Proof.
  intros Hx Hn Hi. destruct (bits_split x Hx) as [Hm Ex]. unfold next_up. rewrite Hn. unfold SIGN in *.
  destruct (Z.eqb_spec x INF); [done|]. cbn [orb].
  destruct (Z.eqb_spec (mag x) 0); [done|]. destruct (Z.eqb_spec x (mag x)); destruct (neg x); lia.
Qed.

Lemma next_down_bits x : in_u 64 x → is_nan x = false → x ≠ SIGN + INF →
  next_down x = if mag x =? 0 then SIGN + 1 else (if neg x then SIGN else 0) + (if neg x then mag x + 1 else mag x - 1).
Proof.
  intros Hx Hn Hi. destruct (bits_split x Hx) as [Hm Ex]. unfold next_down. rewrite Hn.
  destruct (Z.eqb_spec x (SIGN + INF)); [done|]. cbn [orb]. unfold SIGN in *.
  destruct (Z.eqb_spec (mag x) 0); [done|]. destruct (Z.eqb_spec x (mag x)); destruct (neg x); lia.
Qed.

Lemma step_ok (s : bool) m : 0 ≤ m ≤ INF →
  let y := (if s then SIGN else 0) + m in in_u 64 y ∧ is_nan y = false ∧ key y = if s then -1 - m else m.
Proof.
  intros Hm y. assert (0 ≤ m < SIGN) as Hm' by (unfold INF, SIGN in *; lia). destruct (bits_of s m Hm') as (H1 & _ & H3).
  split; [done|]. split; [|by apply key_of]. unfold y, is_nan. rewrite H3. lia.
Qed.

Lemma next_up_key x : in_u 64 x → is_nan x = false → x ≠ INF → in_u 64 (next_up x) ∧ is_nan (next_up x) = false ∧ key x < key (next_up x).
Proof.
  intros Hx Hn Hi. rewrite next_up_bits by done. destruct (bits_split x Hx) as [Hm Ex]. unfold is_nan in Hn. apply Z.ltb_ge in Hn.
  destruct (Z.eqb_spec (mag x) 0) as [E|E].
  - destruct (step_ok false 1) as (H1 & H2 & H3); [unfold INF; lia|]. rewrite Z.add_0_l in *. rewrite H3. split_and!; [done|done|].
    unfold key. destruct (neg x); lia.
  - destruct (step_ok (neg x) (if neg x then mag x - 1 else mag x + 1)) as (H1 & H2 & H3); [destruct (neg x); lia|].
    rewrite H3. split_and!; [done|done|]. unfold key. destruct (neg x); lia.
Qed.

Lemma next_down_key x : in_u 64 x → is_nan x = false → x ≠ SIGN + INF →
  in_u 64 (next_down x) ∧ is_nan (next_down x) = false ∧ key (next_down x) < key x.
Proof.
  intros Hx Hn Hi. rewrite next_down_bits by done. destruct (bits_split x Hx) as [Hm Ex]. unfold is_nan in Hn. apply Z.ltb_ge in Hn.
  destruct (Z.eqb_spec (mag x) 0) as [E|E].
  - destruct (step_ok true 1) as (H1 & H2 & H3); [unfold INF; lia|]. rewrite H3. split_and!; [done|done|].
    unfold key. destruct (neg x); lia.
  - destruct (step_ok (neg x) (if neg x then mag x + 1 else mag x - 1)) as (H1 & H2 & H3); [unfold SIGN in *; destruct (neg x); lia|].
    rewrite H3. split_and!; [done|done|]. unfold key. destruct (neg x); lia.
Qed.

(** ** Integers *)

Lemma rounded_small a : 0 < a → Z.log2 a ≤ 52 → rounded a = a * 2 ^ (52 - Z.log2 a).
Proof. intros Ha He. unfold rounded. destruct (Z.leb_spec (Z.log2 a) 52); [|lia]. apply Z.shiftl_mul_pow2. lia. Qed.

(** The quotient and remainder [rounded] looks at. *)
Lemma rounded_big a (s := Z.log2 a - 52) : 0 < a → 0 < s →
  rounded a = (if (2 ^ (s - 1) <? a mod 2 ^ s) || ((a mod 2 ^ s =? 2 ^ (s - 1)) && Z.odd (a / 2 ^ s)) then a / 2 ^ s + 1 else a / 2 ^ s)
  ∧ 2 ^ 52 ≤ a / 2 ^ s < 2 ^ 53.
Proof.
  intros Ha Hs. unfold rounded. destruct (Z.leb_spec (Z.log2 a) 52); [lia|]. fold s.
  rewrite Z.shiftr_div_pow2 by lia. replace (2 ^ s - 1) with (Z.ones s) by (rewrite Z.ones_equiv; lia). rewrite Z.land_ones by lia. split; [done|].
  destruct (Z.log2_spec a Ha) as [H1 H2]. split; [apply Z.div_le_lower_bound|apply Z.div_lt_upper_bound]; try lia.
  - rewrite <-Z.pow_add_r by lia. replace (s + 52) with (Z.log2 a) by lia. done.
  - rewrite <-Z.pow_add_r by lia. replace (s + 53) with (Z.succ (Z.log2 a)) by lia. done.
Qed.

Lemma rounded_range a : 0 < a → 2 ^ 52 ≤ rounded a ≤ 2 ^ 53.
Proof.
  intros Ha. destruct (Z.log2_spec a Ha) as [H1 H2]. pose proof (Z.log2_nonneg a). destruct (Z.le_gt_cases (Z.log2 a) 52) as [He|He].
  - rewrite rounded_small by lia. replace (2 ^ 52) with (2 ^ Z.log2 a * 2 ^ (52 - Z.log2 a)) by (rewrite <-Z.pow_add_r by lia; f_equal; lia).
    replace (2 ^ 53) with (2 ^ Z.succ (Z.log2 a) * 2 ^ (52 - Z.log2 a)) by (rewrite <-Z.pow_add_r by lia; f_equal; lia).
    split; apply Z.mul_le_mono_nonneg_r; lia.
  - destruct (rounded_big a Ha ltac:(lia)) as [-> ?]. destruct (_ || _); lia.
Qed.

Lemma rounded_mono a b : 0 < a ≤ b → Z.log2 a = Z.log2 b → rounded a ≤ rounded b.
Proof.
  intros [Ha Hab] He. destruct (Z.le_gt_cases (Z.log2 a) 52) as [H52|H52].
  - rewrite !rounded_small by lia. rewrite He. apply Z.mul_le_mono_nonneg_r; lia.
  - destruct (rounded_big a Ha ltac:(lia)) as [-> _]. destruct (rounded_big b ltac:(lia) ltac:(lia)) as [-> _]. rewrite He.
    set (s := Z.log2 b - 52). assert (0 < 2 ^ s) as Hs by (apply Z.pow_pos_nonneg; lia).
    pose proof (Z.div_mod a (2 ^ s) ltac:(lia)) as Da. pose proof (Z.div_mod b (2 ^ s) ltac:(lia)) as Db.
    pose proof (Z.div_le_mono a b (2 ^ s) Hs Hab) as Hq. destruct (Z.eq_dec (a / 2 ^ s) (b / 2 ^ s)) as [E|E].
    + rewrite <-E in *. destruct (Z.ltb_spec (2 ^ (s - 1)) (a mod 2 ^ s)), (Z.ltb_spec (2 ^ (s - 1)) (b mod 2 ^ s)); cbn [orb]; try lia;
        destruct (Z.eqb_spec (a mod 2 ^ s) (2 ^ (s - 1))), (Z.eqb_spec (b mod 2 ^ s) (2 ^ (s - 1))); cbn [andb]; try lia; destruct (Z.odd _); lia.
    + destruct (_ || _), (_ || _); lia.
Qed.

Lemma round_bits_mono a b : 0 < a ≤ b → round_bits a ≤ round_bits b.
Proof.
  intros [Ha Hab]. unfold round_bits. pose proof (rounded_range a Ha). pose proof (rounded_range b ltac:(lia)).
  pose proof (Z.log2_le_mono a b Hab). destruct (Z.eq_dec (Z.log2 a) (Z.log2 b)) as [E|E]; [|lia].
  pose proof (rounded_mono a b ltac:(lia) E). rewrite E. lia.
Qed.

Lemma round_bits_small a e : 0 ≤ e ≤ 52 → 2 ^ e ≤ a < 2 ^ (e + 1) → round_bits a = (e + 1022) * 2 ^ 52 + a * 2 ^ (52 - e).
Proof.
  intros He Ha. assert (0 < a) by (pose proof (Z.pow_pos_nonneg 2 e); lia). assert (Z.log2 a = e) as El by (apply Z.log2_unique; [lia|done]).
  unfold round_bits. rewrite rounded_small by lia. by rewrite El.
Qed.

Lemma round_bits_exact m k : 2 ^ 52 ≤ m < 2 ^ 53 → 0 ≤ k → round_bits (m * 2 ^ k) = (k + 1074) * 2 ^ 52 + m.
Proof.
  intros Hm Hk. assert (0 < 2 ^ k) by (apply Z.pow_pos_nonneg; lia). assert (Z.log2 (m * 2 ^ k) = 52 + k) as El.
  { rewrite Z.log2_mul_pow2 by lia. assert (Z.log2 m = 52) as ->; [apply Z.log2_unique; lia|lia]. }
  unfold round_bits. rewrite El. destruct (Z.eq_dec k 0) as [->|Hk0].
  - rewrite rounded_small by lia. rewrite El. cbn. lia.
  - destruct (rounded_big (m * 2 ^ k) ltac:(lia) ltac:(lia)) as [-> _]. rewrite El. replace (52 + k - 52) with k by lia.
    rewrite Z.mod_mul, Z.div_mul by lia. assert (0 < 2 ^ (k - 1)) by (apply Z.pow_pos_nonneg; lia).
    destruct (Z.ltb_spec (2 ^ (k - 1)) 0); [lia|]. destruct (Z.eqb_spec 0 (2 ^ (k - 1))); [lia|]. cbn. lia.
Qed.

(** The bits of a magnitude that is an integer, zero included. *)
Definition int_bits (a : Z) : Z := if a =? 0 then 0 else round_bits a.

Lemma int_bits_mono a b : 0 ≤ a ≤ b → int_bits a ≤ int_bits b.
Proof.
  intros H. unfold int_bits. destruct (Z.eqb_spec a 0), (Z.eqb_spec b 0); try lia; [|apply round_bits_mono; lia].
  unfold round_bits. pose proof (rounded_range b ltac:(lia)). pose proof (Z.log2_nonneg b). lia.
Qed.

(** The magnitude taken apart. *)
Lemma mag_parts x (E := mag x / 2 ^ 52) (f := mag x mod 2 ^ 52) : in_u 64 x →
  0 ≤ E ∧ 0 ≤ f < 2 ^ 52 ∧ mag x = E * 2 ^ 52 + f
  ∧ mantissa x = (if E =? 0 then f else 2 ^ 52 + f) ∧ exponent x = Z.max E 1 - 1075.
Proof.
  intros Hx. pose proof (mag_range x Hx). unfold mantissa, exponent. rewrite Z.shiftr_div_pow2 by lia.
  change (2 ^ 52 - 1) with (Z.ones 52). rewrite Z.land_ones by lia. fold E f. unfold E, f.
  pose proof (Z.div_mod (mag x) (2 ^ 52) ltac:(lia)). pose proof (Z.mod_pos_bound (mag x) (2 ^ 52) ltac:(lia)).
  pose proof (Z.div_pos (mag x) (2 ^ 52) ltac:(lia) ltac:(lia)). split_and!; [done|lia|lia|lia|done|done].
Qed.

(** The floats around the integer part bracket the magnitude. *)
Lemma int_part_mid m k : 2 ^ 52 ≤ m < 2 ^ 53 → 1 ≤ k ≤ 52 →
  let i := m / 2 ^ k in
  0 < i ∧ round_bits i ≤ (1074 - k) * 2 ^ 52 + m ∧ (i * 2 ^ k = m → (1074 - k) * 2 ^ 52 + m ≤ round_bits i)
  ∧ (1074 - k) * 2 ^ 52 + m ≤ round_bits (i + 1).
Proof.
  intros Hm Hk i. assert (0 < 2 ^ k) as Hp by (apply Z.pow_pos_nonneg; lia).
  assert (2 ^ 52 = 2 ^ (52 - k) * 2 ^ k) as E52 by (rewrite <-Z.pow_add_r by lia; f_equal; lia).
  assert (2 ^ 53 = 2 ^ (53 - k) * 2 ^ k) as E53 by (rewrite <-Z.pow_add_r by lia; f_equal; lia).
  pose proof (Z.div_mod m (2 ^ k) ltac:(lia)) as Dm. pose proof (Z.mod_pos_bound m (2 ^ k) Hp). fold i in Dm.
  assert (2 ^ (52 - k) ≤ i) as Hi1 by (apply Z.div_le_lower_bound; lia).
  assert (i < 2 ^ (53 - k)) as Hi2 by (apply Z.div_lt_upper_bound; lia).
  assert (0 < 2 ^ (52 - k)) by (apply Z.pow_pos_nonneg; lia).
  assert (∀ j, 2 ^ (52 - k) ≤ j < 2 ^ (53 - k) → round_bits j = (1074 - k) * 2 ^ 52 + j * 2 ^ k) as Hr.
  { intros j Hj. rewrite (round_bits_small j (52 - k)) by (try (replace (52 - k + 1) with (53 - k) by lia); lia).
    replace (52 - (52 - k)) with k by lia. lia. }
  split_and!; [lia|rewrite Hr by lia; lia|intros E; rewrite Hr by lia; lia|].
  destruct (Z.eq_dec (i + 1) (2 ^ (53 - k))) as [E|E]; [|rewrite Hr by lia; lia].
  rewrite E, (round_bits_small _ (53 - k)); [|lia|split; [lia|apply Z.pow_lt_mono_r; lia]].
  replace (52 - (53 - k)) with (k - 1) by lia.
  assert (2 ^ (53 - k) * 2 ^ (k - 1) = 2 ^ 52) as -> by (rewrite <-Z.pow_add_r by lia; f_equal; lia). lia.
Qed.

Lemma int_part_brackets x : in_u 64 x → mag x ≤ INF →
  0 ≤ int_part x ≤ int_above x ∧ int_bits (int_part x) ≤ mag x ≤ int_bits (int_above x).
Proof.
  intros Hx Hinf. destruct (mag_parts x Hx) as (HE & Hf & Em & Hmant & Hexp). set (E := mag x / 2 ^ 52) in *. set (f := mag x mod 2 ^ 52) in *.
  unfold int_above, integral, int_part. rewrite Hmant, Hexp. destruct (Z.eqb_spec E 0) as [E0|E0].
  { rewrite E0 in *. change (Z.max 0 1 - 1075) with (- 1074). rewrite Z.shiftl_div_pow2 by lia. rewrite Z.div_small by lia.
    rewrite Z.shiftl_0_l. destruct (Z.eqb_spec 0 f) as [<-|]; [cbn; lia|]. split; [lia|]. change (int_bits (0 + 1)) with (1023 * 2 ^ 52). cbn [int_bits Z.eqb]. lia. }
  rewrite Z.max_l by lia. destruct (Z.le_gt_cases E 1022) as [H1|H1].
  { replace (E - 1075) with (- (1075 - E)) by lia. rewrite Z.shiftl_div_pow2 by lia.
    assert (2 ^ 53 ≤ 2 ^ (- - (1075 - E))) by (apply Z.pow_le_mono_r; lia). rewrite Z.div_small by lia.
    rewrite Z.shiftl_0_l. destruct (Z.eqb_spec 0 (2 ^ 52 + f)) as [|_]; [lia|]. split; [lia|]. change (int_bits (0 + 1)) with (1023 * 2 ^ 52).
    cbn [int_bits Z.eqb]. lia. }
  destruct (Z.le_gt_cases E 1074) as [H2|H2].
  { replace (E - 1075) with (- (1075 - E)) by lia. rewrite Z.shiftl_div_pow2 by lia. rewrite Z.opp_involutive. set (k := 1075 - E).
    destruct (int_part_mid (2 ^ 52 + f) k) as (Hi & H3 & H4 & H5); [lia|lia|]. rewrite Z.shiftl_mul_pow2 by lia.
    replace (mag x) with ((1074 - k) * 2 ^ 52 + (2 ^ 52 + f)) by lia. unfold int_bits.
    destruct (Z.eqb_spec ((2 ^ 52 + f) / 2 ^ k * 2 ^ k) (2 ^ 52 + f)) as [Ei|Ei]; (split; [lia|]);
      (destruct (Z.eqb_spec ((2 ^ 52 + f) / 2 ^ k) 0); [lia|]); [specialize (H4 Ei); lia|].
    destruct (Z.eqb_spec ((2 ^ 52 + f) / 2 ^ k + 1) 0); [lia|]. lia. }
  rewrite Z.shiftl_mul_pow2 by lia. assert (0 < 2 ^ (E - 1075)) by (apply Z.pow_pos_nonneg; lia).
  rewrite Z.shiftl_div_pow2 by lia. rewrite Z.opp_involutive, Z.div_mul, Z.eqb_refl by lia. split; [lia|].
  unfold int_bits. destruct (Z.eqb_spec ((2 ^ 52 + f) * 2 ^ (E - 1075)) 0); [lia|]. rewrite round_bits_exact by lia. lia.
Qed.

(** ** Conversion to [f64] *)

Lemma round_bits_range a : 0 < a ≤ 2 ^ 63 → 0 < round_bits a < INF.
Proof.
  intros Ha. pose proof (rounded_range a ltac:(lia)). pose proof (Z.log2_nonneg a). pose proof (Z.log2_le_mono a (2 ^ 63) ltac:(lia)) as Hl.
  rewrite Z.log2_pow2 in Hl by lia. unfold round_bits, INF. lia.
Qed.

Lemma of_i64_spec n : in_i 64 n →
  in_u 64 (of_i64 n) ∧ is_finite (of_i64 n) = true ∧ key (of_i64 n) = (if n <? 0 then - 1 - round_bits (- n) else int_bits n)
  ∧ (mag (of_i64 n) = 0 ↔ n = 0).
Proof.
  unfold in_i. intros Hn. unfold of_i64, int_bits. destruct (Z.eqb_spec n 0) as [->|Hn0]; [done|].
  assert (∀ (b : bool) a, 0 < a ≤ 2 ^ 63 → let x := (if b then SIGN else 0) + round_bits a in
    in_u 64 x ∧ is_finite x = true ∧ key x = (if b then -1 - round_bits a else round_bits a) ∧ (mag x = 0 ↔ n = 0)) as Hgo.
  { intros b a Ha x. pose proof (round_bits_range a Ha). assert (0 ≤ round_bits a < SIGN) as Hm by (unfold INF, SIGN in *; lia).
    destruct (bits_of b (round_bits a) Hm) as (H1 & _ & H3). split; [done|]. unfold x, is_finite. rewrite H3, key_of by done. split; [lia|]. split; [by destruct b|]. lia. }
  destruct (Z.ltb_spec n 0); [apply (Hgo true)|apply (Hgo false)]; lia.
Qed.

Lemma of_i64_mono n m : in_i 64 n → in_i 64 m → n ≤ m → key (of_i64 n) ≤ key (of_i64 m).
Proof.
  intros Hn Hm Hle. destruct (of_i64_spec n Hn) as (_ & _ & -> & _). destruct (of_i64_spec m Hm) as (_ & _ & -> & _). unfold in_i in *.
  destruct (Z.ltb_spec n 0), (Z.ltb_spec m 0); try lia.
  - pose proof (round_bits_mono (- m) (- n) ltac:(lia)). lia.
  - pose proof (round_bits_range (- n) ltac:(lia)). pose proof (int_bits_mono 0 m ltac:(lia)). change (int_bits 0) with 0 in *. lia.
  - apply int_bits_mono. lia.
Qed.

(** ** Conversion from [f64], as bounds *)

Lemma saturate_below j z : in_i 64 j → j < saturate z → j < z.
Proof. unfold in_i, saturate, i64_min, i64_max. lia. Qed.
Lemma saturate_above j z : in_i 64 j → saturate z < j → z < j.
Proof. unfold in_i, saturate, i64_min, i64_max. lia. Qed.

(** An integer below a bound of a float is below the float, and above likewise;
    [lo] and [hi] are any roundings of the float's magnitude to an integer. *)
Lemma int_below p j i : in_u 64 p → is_nan p = false → in_i 64 j →
  int_part p ≤ i ≤ int_above p → j < (if neg p then - i else i) → key (of_i64 j) ≤ key p.
Proof.
  intros Hp Hn Hj Hi Hlt. destruct (of_i64_spec j Hj) as (_ & _ & -> & _). unfold is_nan in Hn. apply Z.ltb_ge in Hn.
  destruct (int_part_brackets p Hp Hn) as [Hr Hb]. pose proof (mag_range p Hp). unfold key, in_i in *. destruct (neg p).
  - destruct (Z.ltb_spec j 0); [|lia]. assert (int_above p ≤ - j) as Hle by (unfold int_above in *; destruct (integral p); lia).
    pose proof (int_bits_mono (int_above p) (- j) ltac:(lia)) as Hm. replace (int_bits (- j)) with (round_bits (- j)) in Hm; [lia|].
    unfold int_bits. destruct (Z.eqb_spec (- j) 0); [lia|done].
  - destruct (Z.ltb_spec j 0); [pose proof (round_bits_range (- j) ltac:(lia)); lia|].
    assert (j ≤ int_part p) as Hle by (unfold int_above in *; destruct (integral p); lia). pose proof (int_bits_mono j (int_part p) ltac:(lia)). lia.
Qed.

Lemma int_above_key p j i : in_u 64 p → is_nan p = false → in_i 64 j →
  int_part p ≤ i ≤ int_above p → (if neg p then - i else i) < j → key p ≤ key (of_i64 j).
Proof.
  intros Hp Hn Hj Hi Hlt. destruct (of_i64_spec j Hj) as (_ & _ & -> & _). unfold is_nan in Hn. apply Z.ltb_ge in Hn.
  destruct (int_part_brackets p Hp Hn) as [Hr Hb]. pose proof (mag_range p Hp). unfold key, in_i in *. destruct (neg p).
  - destruct (Z.ltb_spec j 0); [|pose proof (int_bits_mono 0 j ltac:(lia)); change (int_bits 0) with 0 in *; lia].
    assert (- j ≤ int_part p) as Hle by (unfold int_above in *; destruct (integral p); lia).
    pose proof (int_bits_mono (- j) (int_part p) ltac:(lia)) as Hm. unfold int_bits in Hm at 1. destruct (Z.eqb_spec (- j) 0); lia.
  - destruct (Z.ltb_spec j 0); [lia|]. assert (int_above p ≤ j) as Hle by (unfold int_above in *; destruct (integral p); lia).
    pose proof (int_bits_mono (int_above p) j ltac:(lia)). lia.
Qed.

(** *** The bounds the index computes *)

(** Integers below the floor of a bound's lower neighbour convert to less than the bound. *)
Lemma below_floor b j : in_u 64 b → is_nan b = false → in_i 64 j → j < floor_i64 (next_down b) → key (of_i64 j) < key b.
Proof.
  intros Hb Hn Hj Hlt. destruct (Z.eq_dec b (SIGN + INF)) as [->|Hinf].
  { change (floor_i64 (next_down (SIGN + INF))) with i64_min in Hlt. unfold in_i, i64_min in *. lia. }
  destruct (next_down_key b Hb Hn Hinf) as (Hp & Hpn & Hk). unfold floor_i64 in Hlt. rewrite Hpn in Hlt. apply saturate_below in Hlt; [|done].
  destruct (int_part_brackets (next_down b) Hp) as [Hr _]; [unfold is_nan in Hpn; lia|].
  assert (key (of_i64 j) ≤ key (next_down b)); [|lia]. destruct (neg (next_down b)) eqn:En;
    [apply (int_below _ j (int_above (next_down b)))|apply (int_below _ j (int_part (next_down b)))]; rewrite ?En; done || lia.
Qed.

(** Integers above the ceiling of a bound's upper neighbour convert to more than the bound. *)
Lemma above_ceil b j : in_u 64 b → is_nan b = false → in_i 64 j → ceil_i64 (next_up b) < j → key b < key (of_i64 j).
Proof.
  intros Hb Hn Hj Hlt. destruct (Z.eq_dec b INF) as [->|Hinf].
  { change (ceil_i64 (next_up INF)) with i64_max in Hlt. unfold in_i, i64_max in *. lia. }
  destruct (next_up_key b Hb Hn Hinf) as (Hp & Hpn & Hk). unfold ceil_i64 in Hlt. rewrite Hpn in Hlt. apply saturate_above in Hlt; [|done].
  destruct (int_part_brackets (next_up b) Hp) as [Hr _]; [unfold is_nan in Hpn; lia|].
  assert (key (next_up b) ≤ key (of_i64 j)); [|lia]. destruct (neg (next_up b)) eqn:En;
    [apply (int_above_key _ j (int_part (next_up b)))|apply (int_above_key _ j (int_above (next_up b)))]; rewrite ?En; done || lia.
Qed.

(** The integers that convert to a finite float lie between its neighbours' truncations. *)
Lemma equal_between f j : in_u 64 f → is_finite f = true → in_i 64 j → eq (of_i64 j) f = true →
  to_i64 (next_down f) ≤ j ≤ to_i64 (next_up f).
Proof.
  intros Hf Hfin Hj Heq. destruct (of_i64_spec j Hj) as (Hx & Hxf & _ & Hx0). unfold eq in Heq.
  assert (is_nan f = false) as Hn by (unfold is_nan, is_finite in *; lia).
  assert (f ≠ INF ∧ f ≠ SIGN + INF) as [Hi1 Hi2].
  { split; intros ->; [by change (is_finite INF) with false in Hfin|by change (is_finite (SIGN + INF)) with false in Hfin]. }
  destruct (decide (mag f = 0)) as [E0|E0].
  { assert (j = 0) as ->. { apply Hx0. destruct (Z.eqb_spec (of_i64 j) f) as [->|]; [done|]. destruct (Z.eqb_spec (mag (of_i64 j)) 0); [done|].
      cbn in Heq. by rewrite !andb_false_r in Heq. }
    rewrite next_down_bits, next_up_bits by done. rewrite E0. done. }
  assert (of_i64 j = f) as <-.
  { apply Z.eqb_eq. destruct (of_i64 j =? f); [done|]. destruct (Z.eqb_spec (mag f) 0); [done|]. cbn in Heq. by rewrite !andb_false_r in Heq. }
  destruct (next_down_key _ Hf Hn Hi2) as (Hp & Hpn & Hk). destruct (next_up_key _ Hf Hn Hi1) as (Hq & Hqn & Hl).
  set (p := next_down _) in *. set (q := next_up _) in *.
  destruct (int_part_brackets p Hp) as [Hrp _]; [unfold is_nan in Hpn; lia|]. destruct (int_part_brackets q Hq) as [Hrq _]; [unfold is_nan in Hqn; lia|].
  unfold to_i64. rewrite Hpn, Hqn. split; apply Z.nlt_ge; intros Hlt.
  - apply saturate_below in Hlt; [|done]. pose proof (int_below p j (int_part p) Hp Hpn Hj ltac:(lia) Hlt). lia.
  - apply saturate_above in Hlt; [|done]. pose proof (int_above_key q j (int_part q) Hq Hqn Hj ltac:(lia) Hlt). lia.
Qed.

(** ** Equality *)

Lemma eq_refl_finite x : is_nan x = false → eq x x = true.
Proof. intros Hn. unfold eq. by rewrite Hn, Z.eqb_refl. Qed.

Lemma eq_sym x y : eq x y = eq y x.
Proof. unfold eq. rewrite (Z.eqb_sym x y). destruct (is_nan x), (is_nan y), (mag x =? 0), (mag y =? 0); done. Qed.

(** [x == y] on bits: the same float, or two zeros. *)
Lemma eq_bits x y : in_u 64 x → in_u 64 y →
  eq x y = true ↔ is_nan x = false ∧ (x = y ∨ (x = 0 ∨ x = SIGN) ∧ (y = 0 ∨ y = SIGN)).
Proof.
  intros Hx Hy. destruct (bits_split x Hx) as [Hmx Ex]. destruct (bits_split y Hy) as [Hmy Ey]. unfold eq.
  assert (∀ z, in_u 64 z → (mag z =? 0) = true ↔ z = 0 ∨ z = SIGN) as Hz.
  { intros z Hz. destruct (bits_split z Hz) as [Hm E]. unfold SIGN in *. rewrite Z.eqb_eq. split; [destruct (neg z); lia|]. intros [-> | ->]; done. }
  assert (∀ z, z = 0 ∨ z = SIGN → is_nan z = false) as Hz0 by (intros z [-> | ->]; done).
  rewrite !andb_true_iff, !orb_true_iff, !andb_true_iff, !negb_true_iff, Z.eqb_eq, !Hz by done. split.
  - intros [[Hn _] H]. by split.
  - intros [Hn [->|[H1 H2]]]; split; auto.
Qed.

Lemma nan_key x : in_u 64 x → is_nan x = true → ∀ j, in_i 64 j →
  if neg x then key x < key (of_i64 j) else key (of_i64 j) < key x.
Proof.
  intros Hx Hn j Hj. destruct (of_i64_spec j Hj) as (_ & _ & -> & _). unfold is_nan in Hn. apply Z.ltb_lt in Hn. unfold key, in_i, int_bits in *.
  pose proof (mag_range x Hx). destruct (neg x), (Z.ltb_spec j 0), (Z.eqb_spec j 0); try lia;
    first [pose proof (round_bits_range (- j) ltac:(lia))|pose proof (round_bits_range j ltac:(lia))|idtac]; unfold INF in *; lia.
Qed.

(** ** Conversions keep the order, and integers convert to integers *)

Lemma int_part_mono x y : in_u 64 x → in_u 64 y → mag x ≤ mag y ≤ INF → int_part x ≤ int_part y.
Proof.
  intros Hx Hy Hm. destruct (int_part_brackets x Hx ltac:(lia)) as [H1 H2]. destruct (int_part_brackets y Hy ltac:(lia)) as [H3 H4].
  destruct (Z.le_gt_cases (int_part x) (int_part y)) as [|Hgt]; [done|].
  assert (int_above y ≤ int_part y + 1) by (unfold int_above; destruct (integral y); lia).
  pose proof (int_bits_mono (int_above y) (int_part x) ltac:(lia)). assert (mag x = mag y) as E by lia.
  assert (int_part x = int_part y) by (unfold int_part, mantissa, exponent; by rewrite E). lia.
Qed.

Lemma to_i64_mono x y : in_u 64 x → in_u 64 y → is_nan x = false → is_nan y = false → key x ≤ key y → to_i64 x ≤ to_i64 y.
Proof.
  intros Hx Hy Hnx Hny Hk. unfold to_i64. rewrite Hnx, Hny. unfold is_nan in *. unfold key in Hk.
  pose proof (mag_range x Hx). pose proof (mag_range y Hy).
  destruct (int_part_brackets x Hx ltac:(lia)) as [H1 _]. destruct (int_part_brackets y Hy ltac:(lia)) as [H2 _].
  assert (∀ a b, a ≤ b → saturate a ≤ saturate b) as Hs by (unfold saturate; lia). apply Hs.
  destruct (neg x), (neg y); [|lia|lia|].
  - pose proof (int_part_mono y x Hy Hx ltac:(lia)). lia.
  - pose proof (int_part_mono x y Hx Hy ltac:(lia)). lia.
Qed.

Lemma neighbours_ordered f : in_u 64 f → is_finite f = true → to_i64 (next_down f) ≤ to_i64 (next_up f).
Proof.
  intros Hf Hfin. assert (is_nan f = false) as Hn by (unfold is_nan, is_finite in *; lia).
  assert (f ≠ INF ∧ f ≠ SIGN + INF) as [Hi1 Hi2].
  { split; intros ->; [by change (is_finite INF) with false in Hfin|by change (is_finite (SIGN + INF)) with false in Hfin]. }
  destruct (next_down_key f Hf Hn Hi2) as (? & ? & ?). destruct (next_up_key f Hf Hn Hi1) as (? & ? & ?). apply to_i64_mono; done || lia.
Qed.

Lemma integral_spec x : in_u 64 x →
  integral x = (Z.shiftl (Z.shiftl (mantissa x) (exponent x)) (- exponent x) =? mantissa x).
Proof. done. Qed.

(** The bits of an integer's magnitude are those of an integer. *)
Lemma round_bits_integral (s : bool) a : 0 < a ≤ 2 ^ 63 → integral ((if s then SIGN else 0) + round_bits a) = true.
Proof.
  intros Ha. pose proof (round_bits_range a Ha). assert (0 ≤ round_bits a < SIGN) as Hm by (unfold INF, SIGN in *; lia).
  destruct (bits_of s (round_bits a) Hm) as (Hx & _ & Hmag). set (x := (if s then SIGN else 0) + round_bits a) in *.
  destruct (mag_parts x Hx) as (HE & Hf & Em & Hmant & Hexp). rewrite Hmag in *. set (E := round_bits a / 2 ^ 52) in *. set (f := round_bits a mod 2 ^ 52) in *.
  pose proof (rounded_range a ltac:(lia)) as Hr. pose proof (Z.log2_nonneg a). rewrite integral_spec, Hmant, Hexp by done. unfold round_bits in Em.
  assert (Z.log2 a + 1023 ≤ E ≤ Z.log2 a + 1024) as HEr by lia. destruct (Z.eqb_spec E 0); [lia|]. rewrite Z.max_l by lia. apply Z.eqb_eq.
  destruct (Z.le_gt_cases 1075 E) as [Hbig|Hsmall].
  - rewrite (Z.shiftl_div_pow2 _ (- _)), Z.shiftl_mul_pow2 by lia. rewrite Z.opp_involutive. apply Z.div_mul. assert (0 < 2 ^ (E - 1075)) by (apply Z.pow_pos_nonneg; lia). lia.
  - assert (Z.log2 a ≤ 51) as Hl by lia. rewrite rounded_small in * by lia. destruct (Z.log2_spec a ltac:(lia)) as [_ H2].
    assert (a * 2 ^ (52 - Z.log2 a) < 2 ^ 53).
    { replace (2 ^ 53) with (2 ^ Z.succ (Z.log2 a) * 2 ^ (52 - Z.log2 a)) by (rewrite <-Z.pow_add_r by lia; f_equal; lia). apply Z.mul_lt_mono_pos_r; [lia|done]. }
    assert (E = Z.log2 a + 1023) as -> by lia. replace (2 ^ 52 + f) with (a * 2 ^ (52 - Z.log2 a)) by lia.
    replace (Z.log2 a + 1023 - 1075) with (- (52 - Z.log2 a)) by lia. rewrite (Z.shiftl_div_pow2 _ (- (52 - _))), !Z.opp_involutive by lia.
    rewrite Z.div_mul, Z.shiftl_mul_pow2 by lia. done.
Qed.

Lemma of_i64_integer n : in_i 64 n → is_integer (of_i64 n) = true.
Proof.
  intros Hn. destruct (of_i64_spec n Hn) as (_ & Hf & _). unfold is_integer. rewrite Hf. cbn [andb]. unfold of_i64, in_i in *.
  destruct (Z.eqb_spec n 0); [done|]. destruct (Z.ltb_spec n 0); [apply (round_bits_integral true)|apply (round_bits_integral false)]; lia.
Qed.

Lemma eq_integer f j : in_u 64 f → in_i 64 j → eq (of_i64 j) f = true → is_integer f = true.
Proof.
  intros Hf Hj. destruct (of_i64_spec j Hj) as (Hx & _). rewrite eq_bits by done. intros [_ [<-|[_ [-> | ->]]]]; [by apply of_i64_integer|done..].
Qed.

End F64.
