(* ===== verification/ValueOps.v ===== *)
(** * Comparing values

    Models [crates/core-query/src/value_ops.rs] (equality, its three-valued form,
    the order of [ORDER BY]) and the comparisons of
    [crates/core-query/src/filter.rs].  [cmp_values] is a total preorder on all
    values, [equality] is [values_equal] with "unknown" where a null leaves the
    answer open.

    [x as f64], [==] and [total_cmp] are [Float64]'s. *)

From Stdlib Require Import Init.Byte Strings.Byte.
From S2P Require Import Prelude Order Utf8 Types Float64.
Open Scope Z_scope.

(** ** Lexicographic orders *)

(** [Ordering::then]: the first that is not [Equal] *)
Definition then_cmp (c d : comparison) : comparison := match c with Eq => d | _ => c end.

Section lex.
Context {A : Type} (c : A → A → comparison).

(** Slices: the first pair that differs, then the lengths *)
Fixpoint lex_cmp (l1 l2 : list A) : comparison :=
  match l1, l2 with
  | [], [] => Eq
  | [], _ :: _ => Lt
  | _ :: _, [] => Gt
  | x :: l1, y :: l2 => then_cmp (c x y) (lex_cmp l1 l2)
  end.

End lex.

(** What three comparisons of three things by one preorder look like. *)
Definition chain (xy yz xz : comparison) : Prop :=
  match xy, yz with
  | Eq, _ => xz = yz
  | _, Eq => xz = xy
  | Lt, Lt => xz = Lt
  | Gt, Gt => xz = Gt
  | _, _ => True
  end.

(** A comparison function that is a total preorder at [x]. *)
Definition preorder_at {A} (c : A → A → comparison) (x : A) : Prop :=
  c x x = Eq ∧ (∀ y, c y x = CompOpp (c x y)) ∧ ∀ y z, chain (c x y) (c y z) (c x z).

Lemma chain_then a1 a2 a3 b1 b2 b3 : chain a1 a2 a3 → chain b1 b2 b3 → chain (then_cmp a1 b1) (then_cmp a2 b2) (then_cmp a3 b3).
Proof. destruct a1, a2; cbn; intros; subst; cbn; try done; by destruct b1, b2; cbn in *; subst. Qed.

Lemma opp_then a b : CompOpp (then_cmp a b) = then_cmp (CompOpp a) (CompOpp b).
Proof. by destruct a. Qed.

Lemma chain_Z x y z : chain (x ?= y) (y ?= z) (x ?= z).
Proof.
  destruct (Z.compare_spec x y), (Z.compare_spec y z); cbn; subst; try done; rewrite ?Z.compare_refl; try done;
    first [by apply Z.compare_eq_iff|apply Z.compare_lt_iff; lia|apply Z.compare_gt_iff; lia].
Qed.

Lemma chain_lex {A} (c : A → A → comparison) l1 :
  (∀ x, x ∈ l1 → ∀ y z, chain (c x y) (c y z) (c x z)) → ∀ l2 l3, chain (lex_cmp c l1 l2) (lex_cmp c l2 l3) (lex_cmp c l1 l3).
Proof.
  induction l1 as [|x l1 IH]; intros Hc [|y l2] [|z l3]; cbn; try done.
  - by destruct (then_cmp _ _).
  - by destruct (then_cmp _ _).
  - apply chain_then; [apply Hc; by left|]. apply IH. intros w Hw. apply Hc. by right.
Qed.

Lemma lex_opp {A} (c : A → A → comparison) l1 :
  (∀ x, x ∈ l1 → ∀ y, c y x = CompOpp (c x y)) → ∀ l2, lex_cmp c l2 l1 = CompOpp (lex_cmp c l1 l2).
Proof.
  induction l1 as [|x l1 IH]; intros Hc [|y l2]; cbn; try done. rewrite opp_then, (Hc x) by by left.
  rewrite IH; [done|]. intros w Hw. apply Hc. by right.
Qed.

Lemma lex_eq {A} (c : A → A → comparison) l1 :
  (∀ x, x ∈ l1 → ∀ y, c x y = Eq ↔ x = y) → ∀ l2, lex_cmp c l1 l2 = Eq ↔ l1 = l2.
Proof.
  induction l1 as [|x l1 IH]; intros Hc [|y l2]; cbn; try done.
  assert (lex_cmp c l1 l2 = Eq ↔ l1 = l2) as Hl by (apply IH; intros w Hw; apply Hc; by right).
  assert (c x y = Eq ↔ x = y) as Hx by (apply Hc; by left). destruct (c x y); cbn; naive_solver.
Qed.

(** A lawful [Ord] from its comparisons. *)
Lemma ord_laws {K} `{RustOrd K} :
  (∀ x y, cmp x y = Eq ↔ x = y) → (∀ x y, cmp y x = CompOpp (cmp x y)) → (∀ x y z, chain (cmp x y) (cmp y z) (cmp x z)) → RustOrdLaws K.
Proof. intros H1 H2 H3. split; [done|done|]. intros x y z E1 E2. specialize (H3 x y z). by rewrite E1, E2 in H3. Qed.

Lemma chain_cmp {K} `{RustOrdLaws K} (x y z : K) : chain (cmp x y) (cmp y z) (cmp x z).
Proof.
  destruct (cmp x y) eqn:E1; cbn.
  - by apply cmp_eq in E1 as ->.
  - destruct (cmp y z) eqn:E2; [apply cmp_eq in E2 as <-; done|by eapply cmp_trans|done].
  - destruct (cmp y z) eqn:E2; [apply cmp_eq in E2 as <-; done|done|].
    rewrite cmp_antisym. rewrite cmp_antisym in E1, E2. destruct (cmp y x) eqn:E3, (cmp z y) eqn:E4; try done.
    by rewrite (cmp_trans z y x).
Qed.

#[export] Instance bool_ord : RustOrd bool := λ a b, match a, b with false, true => Lt | true, false => Gt | _, _ => Eq end.
#[export] Instance bool_ord_laws : RustOrdLaws bool.
Proof. apply ord_laws; [intros [] []|intros [] []|intros [] [] []]; done. Qed.

#[export] Instance list_ord {A} `{RustOrd A} : RustOrd (list A) := lex_cmp cmp.
#[export] Instance list_ord_laws {A} `{RustOrdLaws A} : RustOrdLaws (list A).
Proof.
  apply ord_laws; unfold cmp at 1; unfold list_ord.
  - intros l1 l2. apply lex_eq. intros x _ y. apply cmp_eq.
  - intros l1 l2. apply lex_opp. intros x _ y. apply cmp_antisym.
  - intros l1 l2 l3. apply chain_lex. intros x _ y z. apply chain_cmp.
Qed.

(** An order through an injection. *)
Lemma ord_laws_inj {A K} `{RustOrdLaws K} (f : A → K) `{!Inj (=) (=) f} (o : RustOrd A) :
  (∀ x y, o x y = cmp (f x) (f y)) → @RustOrdLaws A o.
Proof.
  intros Ho. apply ord_laws; unfold cmp at 1.
  - intros x y. rewrite Ho, cmp_eq. split; [apply inj, _|by intros ->].
  - intros x y. unfold cmp. rewrite !Ho. apply cmp_antisym.
  - intros x y z. unfold cmp. rewrite !Ho. apply chain_cmp.
Qed.

(** [u8] and [str] order by their bytes. *)
Definition byte_Z (b : byte) : Z := Z.of_N (Byte.to_N b).
#[export] Instance byte_eq_dec : EqDecision byte := Byte.byte_eq_dec.
#[export] Instance byte_ord : RustOrd byte := λ a b, byte_Z a ?= byte_Z b.
#[export] Instance byte_Z_inj : Inj (=) (=) byte_Z.
Proof. intros a b E%N2Z.inj. apply (f_equal Byte.of_N) in E. rewrite !Byte.of_to_N in E. congruence. Qed.
#[export] Instance byte_ord_laws : RustOrdLaws byte.
Proof. by apply (ord_laws_inj byte_Z). Qed.

#[export] Instance string_ord : RustOrd string := λ s t, cmp (as_bytes s) (as_bytes t).
#[export] Instance as_bytes_inj : Inj (=) (=) as_bytes.
Proof. intros s t E. apply (f_equal of_bytes) in E. by rewrite !of_bytes_as_bytes in E. Qed.
#[export] Instance string_ord_laws : RustOrdLaws string.
Proof. by apply (ord_laws_inj as_bytes). Qed.

(** [#[derive(Ord)]] on [ValueKey]: by variant, then by value *)
Definition key_rank (k : ValueKey.t) : Z :=
  match k with
  | ValueKey.Int _ => 0
  | ValueKey.FloatBits _ => 1
  | ValueKey.Str _ => 2
  | ValueKey.Bool _ => 3
  | ValueKey.DateDays _ => 4
  | ValueKey.LocalDateTimeMicros _ => 5
  | ValueKey.DateTimeMicrosUtc _ => 6
  | ValueKey.BinaryBytes _ => 7
  end.

#[export] Instance key_ord : RustOrd ValueKey.t := λ a b,
  match a, b with
  | ValueKey.Int x, ValueKey.Int y | ValueKey.FloatBits x, ValueKey.FloatBits y
  | ValueKey.DateDays x, ValueKey.DateDays y | ValueKey.LocalDateTimeMicros x, ValueKey.LocalDateTimeMicros y
  | ValueKey.DateTimeMicrosUtc x, ValueKey.DateTimeMicrosUtc y => cmp x y
  | ValueKey.Str x, ValueKey.Str y => cmp x y
  | ValueKey.Bool x, ValueKey.Bool y => cmp x y
  | ValueKey.BinaryBytes x, ValueKey.BinaryBytes y => cmp x y
  | _, _ => cmp (key_rank a) (key_rank b)
  end.

(** A key as its variant and a list of numbers that orders as the value does. *)
Definition key_code (k : ValueKey.t) : Z * list Z :=
  (key_rank k,
   match k with
   | ValueKey.Int x | ValueKey.FloatBits x | ValueKey.DateDays x | ValueKey.LocalDateTimeMicros x | ValueKey.DateTimeMicrosUtc x => [x]
   | ValueKey.Str s => as_bytes s
   | ValueKey.Bool b => [if b then 1 else 0]
   | ValueKey.BinaryBytes l => byte_Z <$> l
   end).

#[export] Instance key_code_inj : Inj (=) (=) key_code.
Proof.
  intros a b. destruct a, b; unfold key_code; cbn; intros [= E]; subst; try done.
  - by apply (inj as_bytes) in E as ->.
  - by destruct b0, b.
  - by apply (inj (fmap byte_Z)) in E as ->.
Qed.

Lemma lex_fmap {A} `{RustOrd A} (f : A → Z) l1 l2 : (∀ x y, cmp x y = (f x ?= f y)) → cmp l1 l2 = cmp (f <$> l1) (f <$> l2).
Proof. intros Hf. revert l2. induction l1 as [|x l1 IH]; intros [|y l2]; cbn; try done. rewrite (Hf x y). unfold cmp, Z_ord in *. f_equal. apply IH. Qed.

#[export] Instance key_ord_laws : RustOrdLaws ValueKey.t.
Proof.
  apply (ord_laws_inj key_code). intros a b. unfold cmp at 1, prod_ord, key_code. cbn [fst snd].
  assert (∀ x y : Z, cmp [x] [y] = cmp x y) as H1 by (intros x y; unfold cmp, list_ord, cmp, Z_ord; cbn; by destruct (x ?= y)).
  destruct a as [x|x|x|x|x|x|x|x], b as [y|y|y|y|y|y|y|y]; try done; cbn [key_rank]; rewrite (cmp_refl (_ : Z)), ?H1; try done.
  - by destruct x, y.
  - by apply lex_fmap.
Qed.

(** ** Equality *)
Section zip.
Context {A : Type}.

(** [x.iter().zip(y.iter()).all(..)] *)
Definition zip_all (f : A → A → bool) : list A → list A → bool :=
  fix go l1 l2 := match l1, l2 with x :: l1, y :: l2 => f x y && go l1 l2 | _, _ => true end.

(** [all_equal] over [x.iter().zip(y.iter())] *)
Definition all_equal (f : A → A → option bool) : bool → list A → list A → option bool :=
  fix go unknown l1 l2 :=
    match l1, l2 with
    | x :: l1, y :: l2 =>
        match f x y with
        | Some false => Some false
        | None => go true l1 l2
        | Some true => go unknown l1 l2
        end
    | _, _ => if unknown then None else Some true
    end.

(** [for (l, r) in x.iter().zip(y.iter())], the first difference *)
Definition first_diff (c : A → A → comparison) : list A → list A → comparison :=
  fix go l1 l2 := match l1, l2 with x :: l1, y :: l2 => then_cmp (c x y) (go l1 l2) | _, _ => Eq end.
End zip.

Definition len_eq {A} (x y : list A) : bool := (length x =? length y)%nat.

Fixpoint values_equal (a b : Value.t) : bool :=
  match a, b with
  | Value.Int x, Value.Int y => x =? y
  | Value.Float x, Value.Float y => F64.eq x y
  | Value.Int x, Value.Float y => F64.eq (F64.of_i64 x) y
  | Value.Float x, Value.Int y => F64.eq x (F64.of_i64 y)
  | Value.Str x, Value.Str y => String.eqb x y
  | Value.Bool x, Value.Bool y => Bool.eqb x y
  | Value.List x, Value.List y => len_eq x y && zip_all values_equal x y
  | Value.Map x, Value.Map y => len_eq x y && zip_all (λ p q, String.eqb p.1 q.1 && values_equal p.2 q.2) x y
  | Value.Date x, Value.Date y => x =? y
  | Value.LocalDateTime x, Value.LocalDateTime y => x =? y
  | Value.DateTime x _, Value.DateTime y _ => x =? y
  | Value.Duration m1 d1 n1, Value.Duration m2 d2 n2 => (m1 =? m2) && (d1 =? d2) && (n1 =? n2)
  | Value.Binary x, Value.Binary y => bool_decide (x = y)
  | _, _ => false
  end.

Fixpoint equality (a b : Value.t) : option bool :=
  match a, b with
  | Value.Null, _ | _, Value.Null => None
  | Value.List x, Value.List y => if negb (len_eq x y) then Some false else all_equal equality false x y
  | Value.Map x, Value.Map y =>
      if negb (len_eq x y) || negb (zip_all (λ p q, String.eqb p.1 q.1) x y) then Some false
      else all_equal (λ p q, equality p.2 q.2) false x y
  | _, _ => Some (values_equal a b)
  end.

(** ** Order *)

Definition class_rank (v : Value.t) : Z :=
  match v with
  | Value.Int _ | Value.Float _ => 0
  | Value.Str _ => 1
  | Value.Bool _ => 2
  | Value.List _ => 3
  | Value.Date _ => 4
  | Value.LocalDateTime _ => 5
  | Value.DateTime _ _ => 6
  | Value.Duration _ _ _ => 7
  | Value.Binary _ => 8
  | Value.Map _ => 9
  | Value.Null => 10
  end.

(** [as_f64], only called on numbers *)
Definition as_f64 (v : Value.t) : Z :=
  match v with Value.Int i => F64.of_i64 i | Value.Float f => f | _ => 0 end.

(** The last arm is the source's [unreachable!]: equal ranks are equal variants. *)
Fixpoint cmp_values (a b : Value.t) : comparison :=
  if negb (class_rank a =? class_rank b) then class_rank a ?= class_rank b
  else
    match a, b with
    | (Value.Int _ | Value.Float _), (Value.Int _ | Value.Float _) => F64.total_cmp (as_f64 a) (as_f64 b)
    | Value.Str x, Value.Str y => cmp x y
    | Value.Bool x, Value.Bool y => cmp x y
    | Value.List x, Value.List y => then_cmp (first_diff cmp_values x y) (Nat.compare (length x) (length y))
    | Value.Map x, Value.Map y =>
        then_cmp (first_diff (λ p q, then_cmp (cmp p.1 q.1) (cmp_values p.2 q.2)) x y) (Nat.compare (length x) (length y))
    | Value.Date x, Value.Date y => cmp x y
    | Value.LocalDateTime x, Value.LocalDateTime y => cmp x y
    | Value.DateTime x ox, Value.DateTime y oy => cmp (x, ox) (y, oy)
    | Value.Duration m1 d1 n1, Value.Duration m2 d2 n2 => cmp (m1, d1, n1) (m2, d2, n2)
    | Value.Binary x, Value.Binary y => cmp x y
    | _, _ => Eq
    end.

(** [a.filter(|v| !matches!(v, Value::Null))] *)
Definition non_null (v : option Value.t) : option Value.t :=
  match v with Some Value.Null => None | _ => v end.

Definition cmp_optional (a b : option Value.t) (descending : bool) : comparison :=
  let ascending :=
    match non_null a, non_null b with
    | None, None => Eq
    | None, Some _ => Gt
    | Some _, None => Lt
    | Some x, Some y => cmp_values x y
    end in
  if descending then CompOpp ascending else ascending.

(** ** Comparisons in a query *)

Inductive CmpOp := OpEq | OpNe | OpLt | OpLe | OpGt | OpGe.

Definition is_orderable_pair (lhs rhs : Value.t) : bool :=
  match lhs, rhs with
  | (Value.Int _ | Value.Float _), (Value.Int _ | Value.Float _) => true
  | Value.Str _, Value.Str _ | Value.Bool _, Value.Bool _ | Value.Date _, Value.Date _
  | Value.LocalDateTime _, Value.LocalDateTime _ | Value.DateTime _ _, Value.DateTime _ _ | Value.Binary _, Value.Binary _ => true
  | _, _ => false
  end.

(** The four ordering operators on an [Ordering]; the source's inner match. *)
Definition ord_holds (op : CmpOp) (c : comparison) : bool :=
  match op, c with
  | OpLt, Lt | OpLe, (Lt | Eq) | OpGt, Gt | OpGe, (Gt | Eq) => true
  | _, _ => false
  end.

Definition eval_cmp (op : CmpOp) (lhs rhs : Value.t) : bool :=
  match op with
  | OpEq => bool_decide (equality lhs rhs = Some true)
  | OpNe => bool_decide (equality lhs rhs = Some false)
  | _ => if negb (is_orderable_pair lhs rhs) then false else ord_holds op (cmp_values lhs rhs)
  end.

Definition eval_cmp3 (op : CmpOp) (lhs rhs : Value.t) : option bool :=
  match op with
  | OpEq => equality lhs rhs
  | OpNe => negb <$> equality lhs rhs
  | _ => if negb (is_orderable_pair lhs rhs) then None else Some (ord_holds op (cmp_values lhs rhs))
  end.

Inductive Filter :=
| Cmp (field : string) (op : CmpOp) (value : Value.t)
| And (parts : list Filter)
| Or (parts : list Filter)
| Not (inner : Filter).

Fixpoint eval_filter (f : Filter) (get : string → option Value.t) : bool :=
  match f with
  | Cmp field op value => match get field with None => false | Some lhs => eval_cmp op lhs value end
  | And parts => forallb (λ p, eval_filter p get) parts
  | Or parts => existsb (λ p, eval_filter p get) parts
  | Not inner => negb (eval_filter inner get)
  end.

(** ** The order is a total preorder *)

Lemma diff_lex {A} (c : A → A → comparison) l1 l2 :
  then_cmp (first_diff c l1 l2) (Nat.compare (length l1) (length l2)) = lex_cmp c l1 l2.
Proof.
  revert l2. induction l1 as [|x l1 IH]; intros [|y l2]; cbn; try done. destruct (c x y); cbn; [apply IH|done|done].
Qed.

Lemma cmp_values_ranks a b : class_rank a ≠ class_rank b → cmp_values a b = (class_rank a ?= class_rank b).
Proof. intros Hr. apply Z.eqb_neq in Hr. destruct a; cbn [cmp_values]; rewrite Hr; done. Qed.

(** Comparing entries of a map: by key, then by value. *)
Definition entry_cmp (p q : string * Value.t) : comparison := then_cmp (cmp p.1 q.1) (cmp_values p.2 q.2).

Lemma cmp_values_list x y : cmp_values (Value.List x) (Value.List y) = lex_cmp cmp_values x y.
Proof. apply diff_lex. Qed.
Lemma cmp_values_map x y : cmp_values (Value.Map x) (Value.Map y) = lex_cmp entry_cmp x y.
Proof. apply diff_lex. Qed.

Lemma cmp_values_opp a b : cmp_values b a = CompOpp (cmp_values a b).
Proof.
  revert b. induction a using Value.value_ind; intros v;
    match goal with |- cmp_values v ?a = _ =>
      (destruct (decide (class_rank v = class_rank a)) as [Hr|Hr]; [|rewrite !cmp_values_ranks by congruence; apply Z.compare_antisym]) end;
    destruct v; try done; clear Hr;
    try (cbn [cmp_values class_rank Z.eqb negb]; first [apply Z.compare_antisym|apply cmp_antisym]).
  - rewrite !cmp_values_list. apply lex_opp. rewrite Forall_forall in H. intros x Hx y. by apply H.
  - rewrite !cmp_values_map. apply lex_opp. rewrite Forall_forall in H. intros x Hx y. unfold entry_cmp.
    rewrite opp_then, <-cmp_antisym. f_equal. by apply H.
Qed.

Lemma chain_ranks a b c : ¬ (class_rank a = class_rank b ∧ class_rank b = class_rank c) →
  chain (cmp_values a b) (cmp_values b c) (cmp_values a c).
Proof.
  intros Hr. destruct (Z.eq_dec (class_rank a) (class_rank b)) as [E1|E1], (Z.eq_dec (class_rank b) (class_rank c)) as [E2|E2]; [naive_solver|..].
  - rewrite (cmp_values_ranks b c), (cmp_values_ranks a c) by congruence. rewrite E1.
    destruct (class_rank b ?= class_rank c) eqn:E; [by apply Z.compare_eq in E|by destruct (cmp_values a b)..].
  - rewrite (cmp_values_ranks a b), (cmp_values_ranks a c) by congruence. rewrite <-E2.
    destruct (class_rank a ?= class_rank b) eqn:E; [by apply Z.compare_eq in E|by destruct (cmp_values b c)..].
  - rewrite (cmp_values_ranks a b), (cmp_values_ranks b c) by congruence. destruct (Z.eq_dec (class_rank a) (class_rank c)) as [E3|E3].
    + rewrite <-E3, (Z.compare_antisym (class_rank a) (class_rank b)). destruct (class_rank a ?= class_rank b) eqn:E; try done. by apply Z.compare_eq in E.
    + rewrite cmp_values_ranks by done. apply chain_Z.
Qed.

Lemma cmp_values_chain a b c : chain (cmp_values a b) (cmp_values b c) (cmp_values a c).
Proof.
  revert b c. induction a using Value.value_ind; intros v w;
    match goal with |- chain (cmp_values ?a v) _ _ =>
      (destruct (decide (class_rank a = class_rank v ∧ class_rank v = class_rank w)) as [[Hr1 Hr2]|Hr]; [|by apply chain_ranks]) end;
    destruct v; try done; destruct w; try done; clear Hr1 Hr2;
    try (cbn [cmp_values class_rank Z.eqb negb]; first [apply chain_Z|apply chain_cmp|done]).
  - rewrite !cmp_values_list. apply chain_lex. rewrite Forall_forall in H. intros x Hx y z. by apply H.
  - rewrite !cmp_values_map. apply chain_lex. rewrite Forall_forall in H. intros x Hx y z. unfold entry_cmp.
    apply chain_then; [apply chain_cmp|]. by apply H.
Qed.

Lemma cmp_values_refl a : cmp_values a a = Eq.
Proof. pose proof (cmp_values_opp a a) as H. by destruct (cmp_values a a). Qed.

(** Missing values and nulls as one class above all others. *)
Lemma cmp_optional_chain a b c d : chain (cmp_optional a b d) (cmp_optional b c d) (cmp_optional a c d).
Proof.
  unfold cmp_optional.
  assert (∀ c1 c2 c3, chain c1 c2 c3 → chain (CompOpp c1) (CompOpp c2) (CompOpp c3)) as Hopp by (by intros [] [] []).
  assert (∀ c1 c2 c3, chain c1 c2 c3 → chain (if d then CompOpp c1 else c1) (if d then CompOpp c2 else c2) (if d then CompOpp c3 else c3)) as Hd
    by (intros; destruct d; auto).
  apply Hd. destruct (non_null a) as [x|], (non_null b) as [y|], (non_null c) as [z|]; try done; [apply cmp_values_chain|by destruct (cmp_values _ _)..].
Qed.

(** C30: the order behind [ORDER BY] and the range index is a total preorder on all
    values, nested lists and maps, mixed types, NaNs and signed zeros included, so
    sorting by it never meets an inconsistent comparison; and the order of rows,
    ascending or descending, is one too, with nulls and missing values together at
    the top. *)
Theorem cmp_values_total (a b c : Value.t) (x y z : option Value.t) (descending : bool) :
  (cmp_values a a = Eq ∧ cmp_values b a = CompOpp (cmp_values a b) ∧ chain (cmp_values a b) (cmp_values b c) (cmp_values a c)) ∧
  (cmp_optional x x descending = Eq ∧ cmp_optional y x descending = CompOpp (cmp_optional x y descending)
   ∧ chain (cmp_optional x y descending) (cmp_optional y z descending) (cmp_optional x z descending)) ∧
  (non_null x = None → cmp_optional y x false ≠ Gt).
Proof.
  split; [split; [apply cmp_values_refl|split; [apply cmp_values_opp|apply cmp_values_chain]]|].
  split; [split; [|split; [|apply cmp_optional_chain]]|]; unfold cmp_optional.
  - destruct (non_null x); [rewrite cmp_values_refl|]; by destruct descending.
  - destruct (non_null x) as [v|], (non_null y) as [w|]; try (by destruct descending). rewrite (cmp_values_opp v w). by destruct descending.
  - intros ->. by destruct (non_null y).
Qed.

(** ** Three-valued equality *)

Definition is_list (v : Value.t) : bool := match v with Value.List _ => true | _ => false end.
Definition is_map (v : Value.t) : bool := match v with Value.Map _ => true | _ => false end.
Definition is_null (v : Value.t) : bool := match v with Value.Null => true | _ => false end.

(** Two values that are different whatever their nulls stand for. *)
Inductive differs : Value.t → Value.t → Prop :=
| differs_scalar a b :
    is_null a = false → is_null b = false → is_list a && is_list b = false → is_map a && is_map b = false →
    values_equal a b = false → differs a b
| differs_length x y : length x ≠ length y → differs (Value.List x) (Value.List y)
| differs_element x y i a b : x !! i = Some a → y !! i = Some b → differs a b → differs (Value.List x) (Value.List y)
| differs_keys x y : x.*1 ≠ y.*1 → differs (Value.Map x) (Value.Map y)
| differs_entry x y i k a k' b : x !! i = Some (k, a) → y !! i = Some (k', b) → differs a b → differs (Value.Map x) (Value.Map y).

Section all_equal.
Context {A : Type} (f : A → A → option bool).

Lemma all_equal_true u l1 l2 :
  all_equal f u l1 l2 = Some true ↔ u = false ∧ zip_all (λ x y, bool_decide (f x y = Some true)) l1 l2 = true.
Proof.
  revert u l2. induction l1 as [|x l1 IH]; intros u [|y l2]; cbn; try (split; [by destruct u|by intros [-> _]]).
  destruct (f x y) as [[]|]; cbn; [apply IH|by split; [|intros [_ ?]]|]. rewrite IH. by split; intros [? ?].
Qed.

Lemma all_equal_false u l1 l2 :
  all_equal f u l1 l2 = Some false ↔ ∃ i x y, l1 !! i = Some x ∧ l2 !! i = Some y ∧ f x y = Some false.
Proof.
  revert u l2. induction l1 as [|x l1 IH]; intros u l2.
  { cbn. split; [by destruct u|]. intros (i & a & b & E & _). by rewrite lookup_nil in E. }
  destruct l2 as [|y l2]. { cbn. split; [by destruct u|]. intros (i & a & b & _ & E & _). by rewrite lookup_nil in E. }
  cbn [all_equal]. assert (∀ u, f x y ≠ Some false → all_equal f u l1 l2 = Some false ↔
    ∃ i a b, (x :: l1) !! i = Some a ∧ (y :: l2) !! i = Some b ∧ f a b = Some false) as Hgo.
  { intros u' Hne. rewrite IH. split; [intros (i & ?); by exists (S i)|]. intros (i & a & b & E1 & E2 & E3).
    destruct i as [|i]; [cbn in *; simplify_eq|by exists i, a, b]. }
  destruct (f x y) as [[]|] eqn:E; [by apply Hgo| |by apply Hgo]. split; [|done]. intros _. by exists 0%nat, x, y.
Qed.
End all_equal.

Lemma zip_all_and {A} (f g : A → A → bool) l1 l2 : zip_all (λ x y, f x y && g x y) l1 l2 = zip_all f l1 l2 && zip_all g l1 l2.
Proof.
  revert l2. induction l1 as [|x l1 IH]; intros [|y l2]; cbn; try done. rewrite IH.
  destruct (f x y), (g x y); cbn; try done; by rewrite ?andb_false_r.
Qed.

Lemma zip_all_ext {A} (f g : A → A → bool) l1 l2 : (∀ x, x ∈ l1 → ∀ y, f x y = g x y) → zip_all f l1 l2 = zip_all g l1 l2.
Proof.
  revert l2. induction l1 as [|x l1 IH]; intros [|y l2] H; cbn; try done. rewrite (H x), IH; [done| |by left]. intros w Hw. apply H. by right.
Qed.

Lemma zip_keys (x y : list (string * Value.t)) :
  len_eq x y && zip_all (λ p q, String.eqb p.1 q.1) x y = bool_decide (x.*1 = y.*1).
Proof.
  unfold len_eq. revert y. induction x as [|[k a] x IH]; intros [|[k' b] y]; cbn; try done.
  specialize (IH y). destruct (String.eqb_spec k k') as [->|Hk]; cbn.
  - rewrite IH. apply bool_decide_ext. split; [by intros ->|by intros [= ?]].
  - rewrite andb_false_r. symmetry. apply bool_decide_eq_false. by intros [= ? _].
Qed.

(** Two lists, two maps, a null, or neither. *)
Lemma equality_cases a b :
  (∃ x y, a = Value.List x ∧ b = Value.List y) ∨ (∃ x y, a = Value.Map x ∧ b = Value.Map y)
  ∨ (is_null a || is_null b = true ∧ equality a b = None ∧ values_equal a b = false)
  ∨ ((is_null a = false ∧ is_null b = false ∧ is_list a && is_list b = false ∧ is_map a && is_map b = false)
     ∧ equality a b = Some (values_equal a b)).
Proof. destruct a, b; first [by left; eexists _, _|by right; left; eexists _, _|by right; right; left|by right; right; right]. Qed.

(** Equality is certain exactly when [values_equal] says so. *)
Lemma equality_true a b : equality a b = Some true ↔ values_equal a b = true.
Proof.
  revert b. induction a as [| | | |l H|m H| | | | | |] using Value.value_ind; intros v;
    match goal with |- equality ?a v = _ ↔ _ => destruct (equality_cases a v) as [(x & y & E & ->)|[(x & y & E & ->)|[(_ & E1 & E2)|[_ E1]]]] end;
    try done; try (rewrite E1, ?E2; clear; split; congruence); injection E as <-.
  - cbn [equality values_equal]. destruct (len_eq l y) eqn:El; cbn [negb andb]; [|split; congruence]. rewrite all_equal_true.
    rewrite (zip_all_ext _ values_equal); [split; [by intros [_ ?]|done]|]. rewrite Forall_forall in H. intros x Hx z. apply eq_bool_prop_intro.
    rewrite bool_decide_spec, Is_true_true. by apply H.
  - cbn [equality values_equal]. rewrite zip_all_and, andb_assoc. destruct (len_eq m y); cbn [negb andb orb]; [|split; congruence].
    destruct (zip_all (λ p q, String.eqb p.1 q.1) m y); cbn [negb andb]; [|split; congruence]. rewrite all_equal_true.
    rewrite (zip_all_ext _ (λ p q, values_equal p.2 q.2)); [split; [by intros [_ ?]|done]|]. rewrite Forall_forall in H. intros x Hx z. apply eq_bool_prop_intro.
    rewrite bool_decide_spec, Is_true_true. by apply H.
Qed.

Lemma equality_false a b : equality a b = Some false ↔ differs a b.
Proof.
  revert b. induction a as [| | | |l H|m H| | | | | |] using Value.value_ind; intros v;
    match goal with |- equality ?a v = _ ↔ _ => destruct (equality_cases a v) as [(x & y & E & ->)|[(x & y & E & ->)|[(Hn & E1 & E2)|[(H1 & H2 & H3 & H4) E1]]]] end;
    try done; try (injection E as <-);
    try (rewrite E1; split; [done|inversion 1; subst; cbn in *; try congruence; by destruct v]);
    try (rewrite E1; split; [intros [= ?]; by apply differs_scalar|inversion 1; subst; cbn in *; congruence]).
  - cbn [equality]. destruct (len_eq l y) eqn:El; unfold len_eq in El; cbn [negb].
    + apply Nat.eqb_eq in El. rewrite all_equal_false. rewrite Forall_forall in H. split.
      * intros (i & x & z & E1 & E2 & E3). apply (differs_element _ _ i x z); [done|done|]. apply H; [|done]. by eapply list_elem_of_lookup_2.
      * inversion 1; subst; [done|done|]. exists i, a, b. split_and!; [done|done|]. apply H; [|done]. by eapply list_elem_of_lookup_2.
    + apply Nat.eqb_neq in El. split; [intros _; by apply differs_length|done].
  - cbn [equality]. pose proof (zip_keys m y) as Hk. destruct (len_eq m y); cbn [negb andb orb] in *.
    2:{ symmetry in Hk. apply bool_decide_eq_false in Hk. split; [intros _; by apply differs_keys|done]. }
    rewrite Hk. case_bool_decide as Hkeys; cbn [negb]; [|split; [intros _; by apply differs_keys|done]].
    rewrite all_equal_false. rewrite Forall_forall in H. split.
    + intros (i & [k x] & [k' z] & E1 & E2 & E3). apply (differs_entry _ _ i k x k' z); [done|done|]. apply (H (k, x)); [|done]. by eapply list_elem_of_lookup_2.
    + inversion 1; subst; [done|done|]. exists i, (k, a), (k', b). split_and!; [done|done|]. apply (H (k, a)); [|done]. by eapply list_elem_of_lookup_2.
Qed.

Lemma all_equal_none {A} (f : A → A → option bool) u l1 l2 :
  all_equal f u l1 l2 = None → u = true ∨ ∃ x y, x ∈ l1 ∧ y ∈ l2 ∧ f x y = None.
Proof.
  revert u l2. induction l1 as [|x l1 IH]; intros u [|y l2]; cbn; try (destruct u; [by left|done]).
  assert (∀ u, all_equal f u l1 l2 = None → u = true ∨ ∃ a b, a ∈ x :: l1 ∧ b ∈ y :: l2 ∧ f a b = None) as Hgo.
  { intros u' E. destruct (IH u' l2 E) as [|(a & b & ? & ? & ?)]; [by left|right]. exists a, b. split_and!; [by right|by right|done]. }
  destruct (f x y) as [[]|] eqn:E; [apply Hgo|done|]. intros _. right. exists x, y. split_and!; [by left|by left|done].
Qed.

(** Only nulls leave an equality open. *)
Lemma equality_none a b : equality a b = None → Value.contains_null a = true ∨ Value.contains_null b = true.
Proof.
  revert b. induction a as [| | | |l H|m H| | | | | |] using Value.value_ind; intros v;
    match goal with |- equality ?a v = _ → _ => destruct (equality_cases a v) as [(x & y & E & ->)|[(x & y & E & ->)|[(Hn & E1 & E2)|[_ E1]]]] end;
    try done; try (injection E as <-); try (by rewrite E1);
    try (intros _; apply orb_true_iff in Hn as [Hn|Hn]; [done|right; by destruct v]).
  - cbn [equality]. destruct (negb _); [done|]. intros [|(x & z & Hx & Hz & E)]%all_equal_none; [done|]. rewrite Forall_forall in H.
    destruct (H x Hx z E); [left|right]; cbn; apply Value.existsb_within; eauto.
  - cbn [equality]. destruct (_ || _); [done|]. intros [|(x & z & Hx & Hz & E)]%all_equal_none; [done|]. rewrite Forall_forall in H.
    destruct (H x Hx z.2 E); [left|right]; cbn; apply Value.existsb_within; eauto.
  - intros _. by left.
Qed.

Lemma zip_all_sym {A} (f g : A → A → bool) l1 l2 : (∀ x, x ∈ l1 → ∀ y, f x y = g y x) → zip_all f l1 l2 = zip_all g l2 l1.
Proof.
  revert l2. induction l1 as [|x l1 IH]; intros [|y l2] H; cbn; try done. rewrite (H x), IH; [done| |by left]. intros w Hw. apply H. by right.
Qed.

Lemma values_equal_sym a b : values_equal a b = values_equal b a.
Proof.
  revert b. induction a as [| | | |l H|m H| | | | | |] using Value.value_ind; intros v; destruct v; try done; cbn [values_equal].
  all: try apply Z.eqb_sym; try apply F64.eq_sym; try apply String.eqb_sym.
  - by repeat match goal with b : bool |- _ => destruct b end.
  - unfold len_eq. rewrite Nat.eqb_sym. f_equal. rewrite Forall_forall in H. apply zip_all_sym. intros x Hx y. by apply H.
  - unfold len_eq. rewrite Nat.eqb_sym. f_equal. rewrite Forall_forall in H. apply zip_all_sym. intros x Hx y. rewrite String.eqb_sym. f_equal. by apply H.
  - by rewrite (Z.eqb_sym m), (Z.eqb_sym d), (Z.eqb_sym n).
  - apply bool_decide_ext. split; congruence.
Qed.

Lemma differs_sym a b : differs a b → differs b a.
Proof.
  induction 1 as [a b H1 H2 H3 H4 H5|x y Hl|x y i a b E1 E2 _ IH|x y Hk|x y i k a k' b E1 E2 _ IH].
  - apply differs_scalar; [done|done|by rewrite andb_comm|by rewrite andb_comm|by rewrite values_equal_sym].
  - by apply differs_length.
  - by apply (differs_element _ _ i b a).
  - apply differs_keys. congruence.
  - by apply (differs_entry _ _ i k' b k a).
Qed.

(** C31: equality in a query is three-valued and exact: it is true when the values
    are equal ([values_equal]), false when they differ wherever their nulls are
    looked past (another type, length or key, or an element pair that differs at
    any depth), unknown only if a null is involved, certain when none is, and
    symmetric.  A [WHERE] keeps a row exactly when the three-valued comparison is
    true, and of [<] and [>=] (and [<=] and [>]) on a pair that orders exactly one
    holds. *)
Theorem three_valued (a b : Value.t) (op : CmpOp) :
  (equality a b = Some true ↔ values_equal a b = true) ∧ (equality a b = Some false ↔ differs a b) ∧
  (equality a b = None → Value.contains_null a = true ∨ Value.contains_null b = true) ∧
  (Value.contains_null a = false → Value.contains_null b = false → equality a b = Some (values_equal a b)) ∧
  equality a b = equality b a ∧ (eval_cmp op a b = true ↔ eval_cmp3 op a b = Some true) ∧
  (is_orderable_pair a b = true → eval_cmp OpLt a b = negb (eval_cmp OpGe a b) ∧ eval_cmp OpGt a b = negb (eval_cmp OpLe a b)).
Proof.
  pose proof (equality_true a b) as Ht. pose proof (equality_false a b) as Hf. pose proof (equality_none a b) as Hn.
  split; [done|]. split; [done|]. split; [done|]. split; [|split; [|split]].
  - intros Ha Hb. destruct (equality a b) as [[]|] eqn:E.
    + by rewrite (proj1 Ht).
    + destruct (values_equal a b); [|done]. by specialize (proj2 Ht eq_refl).
    + destruct (Hn eq_refl); congruence.
  - pose proof (equality_true b a) as Ht'. pose proof (equality_false b a) as Hf'. rewrite values_equal_sym in Ht'.
    assert (differs a b ↔ differs b a) as Hd by (split; apply differs_sym). rewrite Hd in Hf.
    destruct (equality a b) as [[]|] eqn:E, (equality b a) as [[]|] eqn:E'; try done;
      first [by specialize (proj2 Ht' (proj1 Ht eq_refl))|by specialize (proj2 Ht (proj1 Ht' eq_refl))
            |by specialize (proj2 Hf' (proj1 Hf eq_refl))|by specialize (proj2 Hf (proj1 Hf' eq_refl))].
  - unfold eval_cmp, eval_cmp3. destruct op; rewrite ?bool_decide_eq_true; try done.
    1: by destruct (equality a b) as [[]|].
    all: destruct (negb _); [done|]; destruct (ord_holds _ _); done.
  - intros Ho. unfold eval_cmp. rewrite Ho. cbn [negb]. by destruct (cmp_values a b).
Qed.
