(* ===== verification/RangeIndex.v ===== *)
(** * The index over scalar properties: declarations and maintenance

    Models the state and the writes of [crates/core-storage/src/range_index.rs]:
    the declared [(label, field)] pairs and, for each, the postings (index key to
    the nodes holding it), the reverse map (node to its key) and the offsets of
    the [DateTime]s.  The maps are [CowMap]s and the posting lists [IdSet]s, so
    every write can panic where they can; that it does not is proved here, with
    what the index stands for: per declared pair, the value last written for each
    node.  The lookups are in [RangeLookup.v]. *)

From S2P Require Import Prelude Order Assoc CowMap CowMapIter IdSet Utf8 Types Float64 ValueOps.

Module UnifiedIndex.

Inductive IndexKind := Equality | Range.
#[export] Instance IndexKind_eq_dec : EqDecision IndexKind.
Proof. solve_decision. Defined.

(** A label and a field. *)
Definition Pair : Type := string * string.
#[export] Instance Pair_eq_dec : EqDecision Pair.
Proof. unfold Pair. apply _. Defined.
#[export] Instance Pair_countable : Countable Pair.
Proof. unfold Pair. apply _. Defined.

Abbreviation Postings := (@CowMap.t ValueKey.t IdSet.t).

(** [under] is the base of a layered index and the nodes it no longer answers for. *)
Inductive t := mk {
  enabled : gset Pair;
  forward : gmap Pair Postings;
  reverse : gmap Pair (@CowMap.t Z ValueKey.t);
  offsets : gmap Pair (@CowMap.t Z Z);
  kind : gmap Pair IndexKind;
  equality : gset Pair;
  range_names : gmap string Pair;
  under : option (t * gset Z);
}.

Definition new : t := mk ∅ ∅ ∅ ∅ ∅ ∅ ∅ None.

(** ** Declarations *)

Definition is_enabled (ix : t) (p : Pair) : bool := bool_decide (p ∈ enabled ix).
Definition is_equality_declared (ix : t) (p : Pair) : bool := bool_decide (p ∈ equality ix).
Definition kind_of (ix : t) (p : Pair) : option IndexKind := kind ix !! p.

Definition drop_pair (ix : t) (p : Pair) : t :=
  mk (enabled ix ∖ {[p]}) (delete p (forward ix)) (delete p (reverse ix)) (delete p (offsets ix))
     (delete p (kind ix)) (equality ix) (range_names ix) (under ix).

Definition enable (ix : t) (p : Pair) : bool * t :=
  let kind := match kind ix !! p with Some _ => kind ix | None => <[p := Equality]> (kind ix) end in
  (bool_decide (p ∉ equality ix),
   mk ({[p]} ∪ enabled ix) (forward ix) (reverse ix) (offsets ix) kind ({[p]} ∪ equality ix) (range_names ix) (under ix)).

Definition disable (ix : t) (p : Pair) : bool * t :=
  let was := bool_decide (p ∈ equality ix) in
  let ix := mk (enabled ix) (forward ix) (reverse ix) (offsets ix) (kind ix) (equality ix ∖ {[p]}) (range_names ix) (under ix) in
  (was, if bool_decide (kind ix !! p = Some Range) then ix else drop_pair ix p).

Definition enable_range (ix : t) (name : string) (p : Pair) : t :=
  mk ({[p]} ∪ enabled ix) (forward ix) (reverse ix) (offsets ix) (<[p := Range]> (kind ix)) (equality ix)
     (<[name := p]> (range_names ix)) (under ix).

Definition disable_range (ix : t) (name : string) : option Pair * t :=
  match range_names ix !! name with
  | None => (None, ix)
  | Some p =>
      let ix := mk (enabled ix) (forward ix) (reverse ix) (offsets ix) (kind ix) (equality ix) (delete name (range_names ix)) (under ix) in
      (Some p,
       if bool_decide (map_Exists (λ _ other, other = p) (range_names ix)) then ix
       else if bool_decide (p ∈ equality ix) then
         mk (enabled ix) (forward ix) (reverse ix) (offsets ix) (<[p := Equality]> (kind ix)) (equality ix) (range_names ix) (under ix)
       else drop_pair ix p)
  end.

(** ** Entries *)

(** A set holding [id] alone. *)
Definition single (id : Z) : option IdSet.t := '(_, ids) ← IdSet.insert IdSet.new id; Some ids.

Definition remove_posting (by_value : Postings) (old : ValueKey.t) (id : Z) : option Postings :=
  r ← CowMap.get_mut by_value old;
  match r with
  | None => Some by_value
  | Some (ids, store) =>
      '(_, ids) ← IdSet.remove ids id;
      let by_value := store ids in
      if IdSet.is_empty ids then '(_, by_value) ← CowMap.remove by_value old; Some by_value else Some by_value
  end.

(** [if let Some(a) = m.get_mut(p) { f(a) }] *)
Definition get_mut_with {A} (f : A → option A) (m : gmap Pair A) (p : Pair) : option (gmap Pair A) :=
  match m !! p with None => Some m | Some a => a ← f a; Some (<[p := a]> m) end.

Definition remove_entry (ix : t) (p : Pair) (id : Z) : option (option ValueKey.t * t) :=
  match reverse ix !! p with
  | None => Some (None, ix)
  | Some by_id =>
      '(old, by_id) ← CowMap.remove by_id id;
      let reverse := <[p := by_id]> (reverse ix) in
      match old with
      | None => Some (None, mk (enabled ix) (forward ix) reverse (offsets ix) (kind ix) (equality ix) (range_names ix) (under ix))
      | Some old =>
          forward ← get_mut_with (λ by_value, remove_posting by_value old id) (forward ix) p;
          offsets ← get_mut_with (λ m, '(_, m) ← CowMap.remove m id; Some m) (offsets ix) p;
          Some (Some old, mk (enabled ix) forward reverse offsets (kind ix) (equality ix) (range_names ix) (under ix))
      end
  end.

Definition remove_node (ix : t) (p : Pair) (id : Z) : option t := snd <$> remove_entry ix p id.

(** The loop goes over the pairs of [reverse]; its body is [remove_entry]'s. *)
Definition remove_node_all (ix : t) (id : Z) : option t :=
  foldl (λ ix p, ix ← ix; remove_node ix p id) (Some ix) (map_to_list (reverse ix)).*1.

Definition is_datetime_key (k : ValueKey.t) : bool :=
  match k with ValueKey.DateTimeMicrosUtc _ => true | _ => false end.

(** The posting of [put]: into the bucket of [vk], or into a new one. *)
Definition add_posting (postings : Postings) (vk : ValueKey.t) (id : Z) : option Postings :=
  r ← CowMap.get_mut postings vk;
  match r with
  | Some (ids, store) => '(_, ids) ← IdSet.insert ids id; Some (store ids)
  | None => ids ← single id; '(_, postings) ← CowMap.insert postings vk ids; Some postings
  end.

Definition put (ix : t) (p : Pair) (id : Z) (new : option ValueKey.t) (offset : Z) : option (option ValueKey.t * t) :=
  if negb (is_enabled ix p) then Some (None, ix)
  else
    '(current, ix) ← remove_entry ix p id;
    match new with
    | None => Some (current, ix)
    | Some vk =>
        offsets ← (if negb (offset =? 0) && is_datetime_key vk then
                     '(_, m) ← CowMap.insert (default CowMap.new (offsets ix !! p)) id offset;
                     Some (<[p := m]> (offsets ix))
                   else Some (offsets ix));
        postings ← add_posting (default CowMap.new (forward ix !! p)) vk id;
        '(_, by_id) ← CowMap.insert (default CowMap.new (reverse ix !! p)) id vk;
        Some (current, mk (enabled ix) (<[p := postings]> (forward ix)) (<[p := by_id]> (reverse ix)) offsets
                          (kind ix) (equality ix) (range_names ix) (under ix))
    end.

Definition set (ix : t) (p : Pair) (id : Z) (value : Value.t) : option t :=
  let offset := match value with Value.DateTime _ offset_seconds => offset_seconds | _ => 0 end in
  snd <$> put ix p id (ValueKey.from_value value) offset.

(** [update]; [old] is looked at in debug builds only. *)
Definition update (ix : t) (p : Pair) (id : Z) (new : option ValueKey.t) : option t := snd <$> put ix p id new 0.

(** ** Layers *)

Definition layered_over (base : t) (stale : gset Z) : t :=
  mk (enabled base) ∅ ∅ ∅ (kind base) (equality base) (range_names base) (Some (base, stale)).

Definition restale (ix : t) (id : Z) : option t :=
  match under ix with
  | None => Some ix
  | Some (base, stale) =>
      let ix := mk (enabled ix) (forward ix) (reverse ix) (offsets ix) (kind ix) (equality ix) (range_names ix)
                   (Some (base, {[id]} ∪ stale)) in
      foldl (λ ix p, ix ← ix; remove_node ix p id) (Some ix) (elements (enabled ix))
  end.

(** ** What the maps of a pair stand for *)

(** The values of a pair: what was last written for each node. *)
Abbreviation content := (gmap Z Value.t).

(** A node's index key, and its offset if it is not zero. *)
Definition key_at (c : content) (id : Z) : option ValueKey.t := c !! id ≫= ValueKey.from_value.
Definition offset_of (v : Value.t) : option Z :=
  match v with Value.DateTime _ o => if o =? 0 then None else Some o | _ => None end.
Definition offset_at (c : content) (id : Z) : option Z := c !! id ≫= offset_of.

(** The nodes whose value has the key [k]. *)
Definition holders (c : content) (k : ValueKey.t) : gset Z := dom (filter (λ iv, ValueKey.from_value iv.2 = Some k) c).

(** A bucket exists exactly while a node has its key, and then holds those nodes. *)
Definition bucket_ok (s : option IdSet.t) (ids : gset Z) (n : Z) : Prop :=
  match s with None => ids = ∅ | Some s => IdSet.holds s ids n ∧ ids ≠ ∅ end.

Definition potential (n : Z) : Z := CowMapIter.built_potential + n.

Record pair_ok (fw : option Postings) (rv : option (@CowMap.t Z ValueKey.t)) (os : option (@CowMap.t Z Z)) (c : content) (n : Z) : Prop := {
  ok_forward : ∃ es, CowMap.holds (default CowMap.new fw) es (potential n) ∧ ∀ k, bucket_ok (alookup k es) (holders c k) n;
  ok_reverse : ∃ es, CowMap.holds (default CowMap.new rv) es (potential n) ∧ ∀ id, alookup id es = key_at c id;
  ok_offsets : ∃ es, CowMap.holds (default CowMap.new os) es (potential n) ∧ ∀ id, alookup id es = offset_at c id;
}.

Lemma elem_of_holders c k id : id ∈ holders c k ↔ key_at c id = Some k.
Proof.
  unfold holders, key_at. rewrite elem_of_dom. split.
  - intros [v [Hv Hk]%map_lookup_filter_Some]. by rewrite Hv.
  - intros Hk. destruct (c !! id) as [v|] eqn:E; [|done]. exists v. by apply map_lookup_filter_Some.
Qed.

Lemma offset_key c id : is_Some (offset_at c id) → is_Some (key_at c id).
Proof. unfold offset_at, key_at. destruct (c !! id) as [[]|]; cbn; by intros [x Hx]. Qed.

Lemma id_holds_weaken s ids n n' : IdSet.holds s ids n → n ≤ n' → IdSet.holds s ids n'.
Proof.
  intros (l & [Hs Hr] & Hl & Hn & Hlen) Hle. exists l. split_and!; [|done|lia|lia]. split; [done|].
  destruct s; [done|done|]. eapply CowMap.holds_weaken; [done|lia].
Qed.

Lemma bucket_weaken s ids n n' : bucket_ok s ids n → n ≤ n' → bucket_ok s ids n'.
Proof. destruct s; [|done]. intros [H ?] ?. split; [by eapply id_holds_weaken|done]. Qed.

Lemma map_weaken {K V} `{RustOrdLaws K} (m : @CowMap.t K V) es n n' :
  CowMap.holds m es (potential n) → n ≤ n' → CowMap.holds m es (potential n').
Proof. intros Hm Hle. eapply CowMap.holds_weaken; [done|]. unfold potential. lia. Qed.

(** Two contents with the same keys and offsets are represented alike. *)
Lemma pair_ok_ext fw rv os c c' n n' :
  pair_ok fw rv os c n → (∀ id, key_at c' id = key_at c id) → (∀ id, offset_at c' id = offset_at c id) → n ≤ n' →
  pair_ok fw rv os c' n'.
Proof.
  intros [(ef & Hf & Hb) (er & Hr & Hk) (eo & Ho & Hof)] Hkeys Hoffs Hle. split.
  - exists ef. split; [by eapply map_weaken|]. intros k. replace (holders c' k) with (holders c k).
    2:{ apply leibniz_equiv. intros id. by rewrite !elem_of_holders, Hkeys. }
    eapply bucket_weaken; [apply Hb|done].
  - exists er. split; [by eapply map_weaken|]. intros id. by rewrite Hkeys.
  - exists eo. split; [by eapply map_weaken|]. intros id. by rewrite Hoffs.
Qed.

Lemma pair_ok_weaken fw rv os c n n' : pair_ok fw rv os c n → n ≤ n' → pair_ok fw rv os c n'.
Proof. intros H ?. by eapply pair_ok_ext. Qed.

Lemma new_ok {K V} `{RustOrdLaws K} n : 0 ≤ n → CowMap.holds (K:=K) (V:=V) CowMap.new [] (potential n).
Proof. intros Hn. eapply CowMap.holds_weaken; [apply CowMap.new_holds|]. unfold potential, CowMapIter.built_potential. lia. Qed.

Lemma empty_ok n : 0 ≤ n → pair_ok None None None ∅ n.
Proof.
  intros Hn. split; exists []; (split; [by apply new_ok|]); [|done..].
  intros k. apply leibniz_equiv. intros id. by rewrite elem_of_holders.
Qed.

(** ** Postings *)

Lemma get_mut_ok {K V} `{RustOrdLaws K} (m : @CowMap.t K V) es n k :
  CowMap.holds m es (potential n) → n < 2 ^ 64 →
  match alookup k es with
  | None => CowMap.get_mut m k = Some None
  | Some v => ∃ store, CowMap.get_mut m k = Some (Some (v, store)) ∧ ∀ v', CowMap.holds (store v') (ainsert k v' es) (potential n)
  end.
Proof. intros Hm Hn. apply CowMap.get_mut_holds; [done|]. unfold potential, CowMapIter.built_potential, CowMap.depth_budget. lia. Qed.

Lemma map_remove_ok {K V} `{RustOrdLaws K} (m : @CowMap.t K V) es n k :
  CowMap.holds m es (potential n) → n < 2 ^ 64 →
  ∃ m', CowMap.remove m k = Some (alookup k es, m') ∧ CowMap.holds m' (adelete k es) (potential n).
Proof. intros Hm Hn. apply CowMap.remove_holds; [done|]. unfold potential, CowMapIter.built_potential, CowMap.depth_budget. lia. Qed.

Lemma map_insert_ok {K V} `{RustOrdLaws K} (m : @CowMap.t K V) es n k v :
  CowMap.holds m es (potential n) →
  ∃ m', CowMap.insert m k v = Some (alookup k es, m') ∧ CowMap.holds m' (ainsert k v es) (potential (n + 1)).
Proof. intros Hm. unfold potential. rewrite Z.add_assoc. by apply CowMap.insert_holds. Qed.

Lemma id_is_empty s ids n : IdSet.holds s ids n → IdSet.is_empty s = bool_decide (ids = ∅).
Proof.
  intros (l & Hr & Hl & _). unfold IdSet.is_empty. rewrite (IdSet.len_spec s l n Hr). destruct l as [|x l]; cbn.
  - symmetry. apply bool_decide_eq_true_2. set_solver.
  - symmetry. apply bool_decide_eq_false_2. intros ->. apply (not_elem_of_empty (C := gset Z) x), Hl. by left.
Qed.

Lemma single_ok id n : 0 ≤ n → ∃ s, single id = Some s ∧ IdSet.holds s {[id]} (n + 1).
Proof.
  intros Hn. unfold single. destruct (IdSet.id_step_holds (IdSet.OInsert id) IdSet.new ∅ 0 IdSet.new_holds_ids) as (s & E & Hs); [lia|].
  cbn [IdSet.step] in E. rewrite E. cbn. exists s. split; [done|]. eapply id_holds_weaken; [|instantiate (1 := 0 + 1); lia].
  cbn [IdSet.spec_step snd] in Hs. by rewrite right_id_L in Hs by apply _.
Qed.

(** Lookups after an insert or a delete, by equality of keys. *)
Lemma alookup_insert {K V} `{RustOrdLaws K, EqDecision K} (es : list (K * V)) k v x :
  alookup x (ainsert k v es) = if decide (x = k) then Some v else alookup x es.
Proof. rewrite alookup_ainsert. pose proof (cmp_eq x k). destruct (cmp x k), (decide (x = k)); naive_solver. Qed.

Lemma alookup_delete {K V} `{RustOrdLaws K, EqDecision K} (es : list (K * V)) k x :
  sorted es.*1 → alookup x (adelete k es) = if decide (x = k) then None else alookup x es.
Proof. intros Hs. rewrite alookup_adelete by done. pose proof (cmp_eq x k). destruct (cmp x k), (decide (x = k)); naive_solver. Qed.

Lemma remove_posting_ok m es n (D : ValueKey.t → gset Z) old id :
  CowMap.holds m es (potential n) → n + 1 < 2 ^ 64 → (∀ k, bucket_ok (alookup k es) (D k) n) →
  ∃ m' es', remove_posting m old id = Some m' ∧ CowMap.holds m' es' (potential (n + 1)) ∧
    ∀ k, bucket_ok (alookup k es') (if decide (k = old) then D k ∖ {[id]} else D k) (n + 1).
Proof.
  intros Hm Hn Hb. unfold remove_posting. pose proof (get_mut_ok m es n old Hm ltac:(lia)) as Hg. pose proof (Hb old) as Hold.
  destruct (alookup old es) as [s|] eqn:Es; cbn [bucket_ok] in Hold.
  - destruct Hg as (store & -> & Hstore). destruct Hold as [Hs Hne].
    destruct (IdSet.id_step_holds (IdSet.ORemove id) s (D old) n Hs Hn) as (s' & E & Hs'). cbn [IdSet.step] in E. cbn [mbind option_bind]. rewrite E.
    cbn [mbind option_bind IdSet.spec_step fst snd] in *. rewrite (id_is_empty _ _ _ Hs').
    pose proof (map_weaken _ _ _ (n + 1) (Hstore s') ltac:(lia)) as Hst. clear E. case_bool_decide as Hemp.
    + destruct (map_remove_ok _ _ _ old Hst Hn) as (m' & -> & Hm'). cbn. eexists m', _. split; [done|]. split; [done|]. intros k.
      rewrite alookup_delete by by eapply CowMap.holds_sorted. rewrite alookup_insert. destruct (decide (k = old)) as [->|]; [done|].
      eapply bucket_weaken; [apply Hb|lia].
    + eexists _, _. split; [done|]. split; [done|]. intros k. rewrite alookup_insert. destruct (decide (k = old)) as [->|]; [by split|].
      eapply bucket_weaken; [apply Hb|lia].
  - rewrite Hg. cbn. exists m, es. split; [done|]. split; [eapply map_weaken; [done|lia]|]. intros k.
    eapply bucket_weaken; [|instantiate (1 := n); lia]. destruct (decide (k = old)) as [->|]; [|apply Hb]. rewrite Es. cbn. set_solver.
Qed.

Lemma add_posting_ok m es n (D : ValueKey.t → gset Z) vk id :
  CowMap.holds m es (potential n) → 0 ≤ n → n + 1 < 2 ^ 64 → (∀ k, bucket_ok (alookup k es) (D k) n) →
  ∃ m' es', add_posting m vk id = Some m' ∧ CowMap.holds m' es' (potential (n + 1)) ∧
    ∀ k, bucket_ok (alookup k es') (if decide (k = vk) then {[id]} ∪ D k else D k) (n + 1).
Proof.
  intros Hm H0 Hn Hb. unfold add_posting. pose proof (get_mut_ok m es n vk Hm ltac:(lia)) as Hg. pose proof (Hb vk) as Hvk.
  destruct (alookup vk es) as [s|] eqn:Es; cbn [bucket_ok] in Hvk.
  - destruct Hg as (store & -> & Hstore). destruct Hvk as [Hs Hne].
    destruct (IdSet.id_step_holds (IdSet.OInsert id) s (D vk) n Hs Hn) as (s' & E & Hs'). cbn [IdSet.step] in E. cbn [mbind option_bind]. rewrite E.
    cbn [mbind option_bind IdSet.spec_step fst snd] in *. eexists _, _. split; [done|]. split; [eapply map_weaken; [apply Hstore|lia]|].
    intros k. rewrite alookup_insert. destruct (decide (k = vk)) as [->|]; [|eapply bucket_weaken; [apply Hb|lia]]. split; [done|set_solver].
  - rewrite Hg. cbn [mbind option_bind]. destruct (single_ok id n H0) as (s & -> & Hs). cbn [mbind option_bind].
    destruct (map_insert_ok m es n vk s Hm) as (m' & -> & Hm'). cbn. eexists _, _. split; [done|]. split; [done|].
    intros k. rewrite alookup_insert. destruct (decide (k = vk)) as [->|]; [|eapply bucket_weaken; [apply Hb|lia]].
    rewrite Hvk, right_id_L by apply _. split; [done|set_solver].
Qed.

(** ** Entries of one pair *)

Definition at_pair (ix : t) (p : Pair) (c : content) (n : Z) : Prop :=
  pair_ok (forward ix !! p) (reverse ix !! p) (offsets ix !! p) c n.

(** [ix'] declares what [ix] does, and differs from it in the entries of [p] alone. *)
Definition decls (ix : t) := (enabled ix, kind ix, equality ix, range_names ix, under ix).
Record frame (p : Pair) (ix ix' : t) : Prop := {
  frame_decls : decls ix' = decls ix;
  frame_others : ∀ q, q ≠ p →
    forward ix' !! q = forward ix !! q ∧ reverse ix' !! q = reverse ix !! q ∧ offsets ix' !! q = offsets ix !! q;
}.

Lemma frame_refl p ix : frame p ix ix.
Proof. by split. Qed.

Lemma frame_trans p ix1 ix2 ix3 : frame p ix1 ix2 → frame p ix2 ix3 → frame p ix1 ix3.
Proof. intros [D1 O1] [D2 O2]. split; [congruence|]. intros q Hq. destruct (O1 q Hq) as (?&?&?), (O2 q Hq) as (?&?&?). split_and!; congruence. Qed.

Lemma frame_at p q ix ix' c n : frame p ix ix' → q ≠ p → at_pair ix q c n → at_pair ix' q c n.
Proof. intros [_ Ho] Hq. destruct (Ho q Hq) as (E1 & E2 & E3). unfold at_pair. by rewrite E1, E2, E3. Qed.

(** A map of maps after [get_mut] on one of them. *)
Lemma get_mut_with_ok {A} (f : A → option A) (m : gmap Pair A) p (P : option A → Prop) :
  (m !! p = None → P None) → (∀ a, m !! p = Some a → ∃ a', f a = Some a' ∧ P (Some a')) →
  ∃ m', get_mut_with f m p = Some m' ∧ P (m' !! p) ∧ ∀ q, q ≠ p → m' !! q = m !! q.
Proof.
  intros HN HS. unfold get_mut_with. destruct (m !! p) as [a|] eqn:E.
  - destruct (HS a eq_refl) as (a' & -> & Ha'). cbn. eexists. split; [done|]. rewrite lookup_insert_eq. split; [done|].
    intros q Hq. by rewrite lookup_insert_ne.
  - exists m. rewrite E. auto.
Qed.

Lemma key_at_delete c id x : key_at (delete id c) x = if decide (x = id) then None else key_at c x.
Proof. unfold key_at. destruct (decide (x = id)) as [->|]; [by rewrite lookup_delete_eq|by rewrite lookup_delete_ne]. Qed.
Lemma offset_at_delete c id x : offset_at (delete id c) x = if decide (x = id) then None else offset_at c x.
Proof. unfold offset_at. destruct (decide (x = id)) as [->|]; [by rewrite lookup_delete_eq|by rewrite lookup_delete_ne]. Qed.

Lemma holders_delete c id old k : key_at c id = Some old →
  holders (delete id c) k = if decide (k = old) then holders c k ∖ {[id]} else holders c k.
Proof.
  intros Hold. apply leibniz_equiv. intros x. rewrite elem_of_holders, key_at_delete.
  destruct (decide (k = old)) as [->|Hk]; rewrite ?elem_of_difference, ?elem_of_singleton, elem_of_holders; destruct (decide (x = id)) as [->|]; naive_solver congruence.
Qed.

Lemma remove_entry_ok ix p id c n :
  at_pair ix p c n → n + 1 < 2 ^ 64 →
  ∃ ix', remove_entry ix p id = Some (key_at c id, ix') ∧ frame p ix ix' ∧ at_pair ix' p (delete id c) (n + 1).
Proof.
  intros [(ef & Hf & Hb) (er & Hr & Hk) (eo & Ho & Hof)] Hn. unfold remove_entry.
  assert (key_at c id = None → pair_ok (forward ix !! p) (reverse ix !! p) (offsets ix !! p) (delete id c) (n + 1)) as Hnone.
  { intros Hno. eapply pair_ok_ext; [split; eauto| | |lia].
    - intros x. rewrite key_at_delete. destruct (decide (x = id)) as [->|]; [by rewrite Hno|done].
    - intros x. rewrite offset_at_delete. destruct (decide (x = id)) as [->|]; [|done]. symmetry. apply eq_None_not_Some.
      intros Hs%offset_key. rewrite Hno in Hs. by destruct Hs. }
  destruct (reverse ix !! p) as [by_id|] eqn:Er; cbn [default] in Hr.
  2:{ destruct (CowMap.holds_len _ _ _ Hr) as [_ He]. cbn in He. subst er. specialize (Hk id). cbn in Hk. exists ix. rewrite <-Hk. split; [done|].
      split; [apply frame_refl|]. unfold at_pair. rewrite Er. auto. }
  destruct (map_remove_ok by_id er n id Hr ltac:(lia)) as (by_id' & -> & Hr'). cbn [mbind option_bind]. rewrite Hk.
  pose proof (CowMap.holds_sorted _ _ _ Hr) as Hsr. pose proof (CowMap.holds_sorted _ _ _ Ho) as Hso.
  destruct (key_at c id) as [old|] eqn:Eold.
  2:{ eexists. split; [done|]. split; [split; [done|]; intros q Hq; cbn; by rewrite lookup_insert_ne|].
      unfold at_pair. cbn. rewrite lookup_insert_eq. destruct (Hnone eq_refl) as [H1 _ H3]. split; [done| |done]. exists (adelete id er). split.
      - eapply map_weaken; [done|lia].
      - intros x. rewrite alookup_delete, key_at_delete by done. by rewrite Hk. }
  destruct (get_mut_with_ok (λ by_value, remove_posting by_value old id) (forward ix) p
    (λ fw, ∃ es, CowMap.holds (default CowMap.new fw) es (potential (n + 1)) ∧ ∀ k, bucket_ok (alookup k es) (holders (delete id c) k) (n + 1)))
    as (fw & -> & Hfw & Hfo).
  { intros E. rewrite E in Hf. exfalso. destruct (CowMap.holds_len _ _ _ Hf) as [_ He]. cbn in He. subst ef. specialize (Hb old). cbn in Hb.
    apply elem_of_holders in Eold. set_solver. }
  { intros m E. rewrite E in Hf. cbn in Hf. destruct (remove_posting_ok m ef n (holders c) old id Hf Hn Hb) as (m' & es' & E' & Hm' & Hb').
    exists m'. split; [done|]. exists es'. split; [done|]. intros k. rewrite (holders_delete _ _ _ _ Eold). apply Hb'. }
  destruct (get_mut_with_ok (λ m, '(_, m) ← CowMap.remove m id; Some m) (offsets ix) p
    (λ os, ∃ es, CowMap.holds (default CowMap.new os) es (potential (n + 1)) ∧ ∀ x, alookup x es = offset_at (delete id c) x))
    as (os & Eos & Hos & Hoo).
  { intros E. rewrite E in Ho. destruct (CowMap.holds_len _ _ _ Ho) as [_ He]. cbn in He. subst eo. exists []. split; [by eapply map_weaken, Z.le_succ_diag_r|].
    intros x. rewrite offset_at_delete, <-Hof. by destruct (decide (x = id)). }
  { intros m E. rewrite E in Ho. cbn in Ho. destruct (map_remove_ok m eo n id Ho ltac:(lia)) as (m' & -> & Hm'). cbn. exists m'. split; [done|].
    exists (adelete id eo). split; [eapply map_weaken; [done|lia]|]. intros x. by rewrite alookup_delete, offset_at_delete, Hof. }
  cbn [mbind option_bind]. rewrite Eos. cbn. eexists. split; [done|]. split.
  - split; [done|]. intros q Hq. cbn. rewrite lookup_insert_ne by done. auto.
  - unfold at_pair. cbn. rewrite lookup_insert_eq. split; [done| |done]. exists (adelete id er). split; [eapply map_weaken; [done|lia]|].
    intros x. by rewrite alookup_delete, key_at_delete, Hk.
Qed.

(** What [put] leaves: the new key and offset for [id], every other node as it was. *)
Record updated (c c' : content) (id : Z) (new : option ValueKey.t) (offset : Z) : Prop := {
  upd_others x : x ≠ id → c' !! x = c !! x;
  upd_key : key_at c' id = new;
  upd_offset : offset_at c' id =
    match new with Some k => if negb (offset =? 0) && is_datetime_key k then Some offset else None | None => None end;
}.

Lemma updated_key c c' id new offset x : updated c c' id new offset → key_at c' x = if decide (x = id) then new else key_at (delete id c) x.
Proof. intros [Ho Hk _]. rewrite key_at_delete. destruct (decide (x = id)) as [->|Hx]; [done|]. unfold key_at. by rewrite Ho. Qed.
Lemma updated_offset c c' id new offset x :
  updated c c' id new offset → offset_at c' x = if decide (x = id) then offset_at c' id else offset_at (delete id c) x.
Proof. intros [Ho _ _]. rewrite offset_at_delete. destruct (decide (x = id)) as [->|Hx]; [done|]. unfold offset_at. by rewrite Ho. Qed.

Lemma updated_holders c c' id vk offset k : updated c c' id (Some vk) offset →
  holders c' k = if decide (k = vk) then {[id]} ∪ holders (delete id c) k else holders (delete id c) k.
Proof.
  intros Hu. apply leibniz_equiv. intros x. rewrite elem_of_holders, (updated_key _ _ _ _ _ _ Hu).
  destruct (decide (k = vk)) as [->|Hk]; rewrite ?elem_of_union, ?elem_of_singleton, elem_of_holders; destruct (decide (x = id)) as [->|];
    rewrite ?key_at_delete, ?decide_True by done; naive_solver congruence.
Qed.

Lemma put_ok ix p id new offset c c' n :
  at_pair ix p c n → p ∈ enabled ix → 0 ≤ n → n + 2 < 2 ^ 64 → updated c c' id new offset →
  ∃ ix', put ix p id new offset = Some (key_at c id, ix') ∧ frame p ix ix' ∧ at_pair ix' p c' (n + 2).
Proof.
  intros Hp He H0 Hn Hu. unfold put, is_enabled. rewrite bool_decide_eq_true_2 by done. cbn [negb].
  destruct (remove_entry_ok ix p id c n Hp ltac:(lia)) as (ix1 & -> & Hfr & Hp1). cbn [mbind option_bind].
  pose proof (upd_offset _ _ _ _ _ Hu) as Hoff. destruct new as [vk|].
  2:{ exists ix1. split; [done|]. split; [done|]. eapply pair_ok_ext; [apply Hp1| | |lia]; intros x.
      - rewrite (updated_key _ _ _ _ _ _ Hu), key_at_delete. by destruct (decide (x = id)).
      - rewrite (updated_offset _ _ _ _ _ _ Hu), Hoff, offset_at_delete. by destruct (decide (x = id)). }
  destruct Hp1 as [(ef & Hf & Hb) (er & Hr & Hk) (eo & Ho & Hof)].
  assert (∃ os, (if negb (offset =? 0) && is_datetime_key vk then
             '(_, m) ← CowMap.insert (default CowMap.new (offsets ix1 !! p)) id offset; Some (<[p := m]> (offsets ix1))
           else Some (offsets ix1)) = Some os ∧ (∀ q, q ≠ p → os !! q = offsets ix1 !! q) ∧
      ∃ es, CowMap.holds (default CowMap.new (os !! p)) es (potential (n + 2)) ∧ ∀ x, alookup x es = offset_at c' x) as (os & -> & Hoo & Hos).
  { destruct (negb (offset =? 0) && is_datetime_key vk).
    - destruct (map_insert_ok _ eo (n + 1) id offset Ho) as (m & -> & Hm). cbn. eexists. split; [done|]. split; [intros q Hq; by rewrite lookup_insert_ne|].
      rewrite lookup_insert_eq. eexists. split; [replace (n + 2) with (n + 1 + 1) by lia; done|]. intros x.
      rewrite alookup_insert, (updated_offset _ _ _ _ _ _ Hu), Hoff, Hof. done.
    - eexists. split; [done|]. split; [done|]. exists eo. split; [eapply map_weaken; [done|lia]|]. intros x.
      rewrite Hof, (updated_offset _ _ _ _ _ _ Hu), Hoff, offset_at_delete. by destruct (decide (x = id)). }
  cbn [mbind option_bind]. destruct (add_posting_ok _ ef (n + 1) _ vk id Hf ltac:(lia) ltac:(lia) Hb) as (m & es & -> & Hm & Hb').
  cbn [mbind option_bind]. destruct (map_insert_ok _ er (n + 1) id vk Hr) as (by_id & -> & Hby). cbn. eexists. split; [done|].
  replace (n + 2) with (n + 1 + 1) in * by lia. split.
  - eapply frame_trans; [exact Hfr|]. split; [done|]. intros q Hq. cbn. rewrite !lookup_insert_ne by done. auto.
  - unfold at_pair. cbn. rewrite !lookup_insert_eq. split; [|eexists; split; [done|]|done].
    + exists es. split; [done|]. intros k. rewrite (updated_holders _ _ _ _ _ k Hu). apply Hb'.
    + intros x. by rewrite alookup_insert, (updated_key _ _ _ _ _ _ Hu), Hk.
Qed.

Lemma put_disabled ix p id new offset : p ∉ enabled ix → put ix p id new offset = Some (None, ix).
Proof. intros Hp. unfold put, is_enabled. by rewrite bool_decide_eq_false_2. Qed.

(** The value a bare key stands for. *)
Definition value_of_key (k : ValueKey.t) : Value.t :=
  match k with
  | ValueKey.Int i => Value.Int i
  | ValueKey.FloatBits f => Value.Float f
  | ValueKey.Str s => Value.Str s
  | ValueKey.Bool b => Value.Bool b
  | ValueKey.DateDays d => Value.Date d
  | ValueKey.LocalDateTimeMicros us => Value.LocalDateTime us
  | ValueKey.DateTimeMicrosUtc us => Value.DateTime us 0
  | ValueKey.BinaryBytes b => Value.Binary b
  end.

Lemma set_updated c id v :
  updated c (<[id := v]> c) id (ValueKey.from_value v) (match v with Value.DateTime _ o => o | _ => 0 end).
Proof.
  split.
  - intros x Hx. by rewrite lookup_insert_ne.
  - unfold key_at. by rewrite lookup_insert_eq.
  - unfold offset_at. rewrite lookup_insert_eq. destruct v; try done. cbn. by rewrite andb_true_r; destruct (_ =? _).
Qed.

Definition update_content (c : content) (id : Z) (new : option ValueKey.t) : content :=
  match new with Some k => <[id := value_of_key k]> c | None => delete id c end.

Lemma update_updated c id new : updated c (update_content c id new) id new 0.
Proof.
  destruct new as [k|]; split; cbn [update_content].
  - intros x Hx. by rewrite lookup_insert_ne.
  - unfold key_at. rewrite lookup_insert_eq. by destruct k.
  - unfold offset_at. rewrite lookup_insert_eq. by destruct k.
  - intros x Hx. by rewrite lookup_delete_ne.
  - rewrite key_at_delete. by rewrite decide_True.
  - rewrite offset_at_delete. by rewrite decide_True.
Qed.

(** The sweep of [remove_node_all] and [restale]: each pair once. *)
Lemma remove_list_ok ps ix id (C : Pair → content) n :
  NoDup ps → n + 1 < 2 ^ 64 → (∀ p, at_pair ix p (C p) (if decide (p ∈ ps) then n else n + 1)) →
  ∃ ix', foldl (λ ix p, ix ← ix; remove_node ix p id) (Some ix) ps = Some ix' ∧ decls ix' = decls ix ∧
    ∀ p, at_pair ix' p (if decide (p ∈ ps) then delete id (C p) else C p) (n + 1).
Proof.
  revert ix C. induction ps as [|p ps IH]; intros ix C Hnd Hn Hat; cbn [foldl].
  { exists ix. split; [done|]. split; [done|]. intros p. specialize (Hat p). by destruct (decide (p ∈ [])) as [[]%not_elem_of_nil|]. }
  apply NoDup_cons in Hnd as [Hp Hnd]. pose proof (Hat p) as Hatp. destruct (decide (p ∈ p :: ps)) as [_|[]]; [|by left].
  destruct (remove_entry_ok ix p id (C p) n Hatp Hn) as (ix1 & E & Hfr & Hp1). cbn [mbind option_bind]. unfold remove_node at 2. rewrite E. cbn [fmap option_fmap option_map snd].
  destruct (IH ix1 (λ q, if decide (q = p) then delete id (C q) else C q) Hnd Hn) as (ix' & -> & Hd & Hat').
  { intros q. destruct (decide (q = p)) as [->|Hq]; [by destruct (decide (p ∈ ps))|]. eapply frame_at; [done|done|]. specialize (Hat q).
    destruct (decide (q ∈ ps)), (decide (q ∈ p :: ps)) as [|Hnq]; try done; set_solver. }
  exists ix'. split; [done|]. split; [rewrite Hd; apply (frame_decls _ _ _ Hfr)|]. intros q. specialize (Hat' q). revert Hat'.
  destruct (decide (q = p)) as [->|Hq]; [destruct (decide (p ∈ ps)), (decide (p ∈ p :: ps)) as [|[]]; (done || by left)|].
  destruct (decide (q ∈ ps)), (decide (q ∈ p :: ps)) as [|Hnq]; try done; set_solver.
Qed.

(** ** The index *)

(** What is declared, and the values of each declared pair. *)
Record spec := mk_spec { s_equality : gset Pair; s_names : gmap string Pair; s_content : gmap Pair content }.

Definition covered (names : gmap string Pair) (p : Pair) : Prop := map_Exists (λ _ other, other = p) names.
#[export] Instance covered_dec names p : Decision (covered names p).
Proof. unfold covered. apply _. Defined.

Definition values_of (s : spec) (p : Pair) : content := default ∅ (s_content s !! p).

Record models (ix : t) (s : spec) (n : Z) : Prop := {
  m_nonneg : 0 ≤ n;
  m_enabled : enabled ix = dom (s_content s);
  m_equality : equality ix = s_equality s;
  m_names : range_names ix = s_names s;
  m_declared p : p ∈ enabled ix ↔ p ∈ equality ix ∨ covered (range_names ix) p;
  m_kind p : kind ix !! p =
    if decide (p ∈ enabled ix) then Some (if decide (covered (range_names ix) p) then Range else Equality) else None;
  m_pairs p : at_pair ix p (values_of s p) n;
}.

Lemma models_weaken ix s n n' : models ix s n → n ≤ n' → models ix s n'.
Proof. intros [? ? ? ? ? ? Hp] Hle. split; try done; [lia|]. intros p. eapply pair_ok_weaken; [apply Hp|done]. Qed.

Lemma index_new_models : models new (mk_spec ∅ ∅ ∅) 0.
Proof.
  split; try done.
  - intros p. cbn. split; [set_solver|]. intros [|(name & q & Hq & _)]; [set_solver|]. by rewrite lookup_empty in Hq.
  - intros p. unfold at_pair. cbn. by apply empty_ok.
Qed.

(** Declaring a pair that is not maintained starts it empty. *)
Definition declare (p : Pair) (m : gmap Pair content) : gmap Pair content :=
  match m !! p with Some _ => m | None => <[p := ∅]> m end.

Inductive op :=
| OEnable (p : Pair)
| ODisable (p : Pair)
| OEnableRange (name : string) (p : Pair)
| ODisableRange (name : string)
| OSet (p : Pair) (id : Z) (v : Value.t)
| OUpdate (p : Pair) (id : Z) (new : option ValueKey.t)
| ORemoveNode (p : Pair) (id : Z)
| ORemoveNodeAll (id : Z).

(** The database declares a range index only under a name that is free. *)
Definition declare_range (ix : t) (name : string) (p : Pair) : t :=
  match range_names ix !! name with Some _ => ix | None => enable_range ix name p end.

Definition step (o : op) (ix : t) : option t :=
  match o with
  | OEnable p => Some (enable ix p).2
  | ODisable p => Some (disable ix p).2
  | OEnableRange name p => Some (declare_range ix name p)
  | ODisableRange name => Some (disable_range ix name).2
  | OSet p id v => set ix p id v
  | OUpdate p id new => update ix p id new
  | ORemoveNode p id => remove_node ix p id
  | ORemoveNodeAll id => remove_node_all ix id
  end.

Definition spec_step (o : op) (s : spec) : spec :=
  let '(mk_spec eqs names c) := s in
  match o with
  | OEnable p => mk_spec ({[p]} ∪ eqs) names (declare p c)
  | ODisable p => mk_spec (eqs ∖ {[p]}) names (if decide (covered names p) then c else delete p c)
  | OEnableRange name p => match names !! name with Some _ => s | None => mk_spec eqs (<[name := p]> names) (declare p c) end
  | ODisableRange name =>
      match names !! name with
      | None => s
      | Some p => mk_spec eqs (delete name names) (if decide (covered (delete name names) p ∨ p ∈ eqs) then c else delete p c)
      end
  | OSet p id v => mk_spec eqs names (alter (insert id v) p c)
  | OUpdate p id new => mk_spec eqs names (alter (λ m, update_content m id new) p c)
  | ORemoveNode p id => mk_spec eqs names (alter (delete id) p c)
  | ORemoveNodeAll id => mk_spec eqs names (delete id <$> c)
  end.

Definition run (os : list op) (ix : t) : option t := foldl (λ ix o, ix ← ix; step o ix) (Some ix) os.
Definition spec_run (os : list op) (s : spec) : spec := foldl (flip spec_step) s os.

(** *** Declarations *)

Lemma values_declare p q m : default ∅ (declare p m !! q) = (default ∅ (m !! q) : content).
Proof.
  unfold declare. destruct (m !! p) eqn:E; [done|]. destruct (decide (q = p)) as [->|]; [by rewrite lookup_insert_eq, E|by rewrite lookup_insert_ne].
Qed.
Lemma dom_declare p m : dom (declare p m) = {[p]} ∪ dom m.
Proof.
  unfold declare. destruct (m !! p) eqn:E; [|by rewrite dom_insert_L]. symmetry. apply subseteq_union_1_L, singleton_subseteq_l, elem_of_dom. eauto.
Qed.
Lemma covered_insert name p names q : names !! name = None → covered (<[name := p]> names) q ↔ q = p ∨ covered names q.
Proof.
  intros Hn. unfold covered. rewrite map_Exists_insert by done. naive_solver.
Qed.

Lemma models_decl ix s n : models ix s n → ∀ p, kind ix !! p = Some Range ↔ covered (range_names ix) p.
Proof.
  intros Hm p. rewrite (m_kind _ _ _ Hm). pose proof (m_declared _ _ _ Hm p). destruct (decide (p ∈ enabled ix)), (decide (covered (range_names ix) p)); naive_solver.
Qed.

Lemma dropped_at ix p n : 0 ≤ n → at_pair (drop_pair ix p) p ∅ n.
Proof. intros Hn. unfold at_pair, drop_pair. cbn. rewrite !lookup_delete_eq. by apply empty_ok. Qed.

(** A pair that is no longer declared, or whose declaration changed, with its entries dropped. *)
Lemma drop_pair_models ix s n p eqs names :
  models ix s n → p ∉ eqs → ¬ covered names p →
  (∀ q, q ≠ p → (q ∈ eqs ↔ q ∈ s_equality s) ∧ (covered names q ↔ covered (s_names s) q)) →
  models (mk (enabled ix ∖ {[p]}) (delete p (forward ix)) (delete p (reverse ix)) (delete p (offsets ix)) (delete p (kind ix)) eqs names (under ix))
    (mk_spec eqs names (delete p (s_content s))) n.
Proof.
  intros Hm Hp Hc Ho. pose proof (m_equality _ _ _ Hm) as Hq. pose proof (m_names _ _ _ Hm) as Hn. split; cbn; try done.
  - apply Hm.
  - rewrite dom_delete_L. by rewrite (m_enabled _ _ _ Hm).
  - intros q. rewrite elem_of_difference, elem_of_singleton, (m_declared _ _ _ Hm), Hq, Hn. destruct (decide (q = p)) as [->|Hne]; [naive_solver|].
    destruct (Ho q Hne) as [-> ->]. naive_solver.
  - intros q. destruct (decide (q = p)) as [->|Hne].
    + rewrite lookup_delete_eq, decide_False; [done|set_solver].
    + rewrite lookup_delete_ne, (m_kind _ _ _ Hm), Hn by done. destruct (Ho q Hne) as [_ Hcov].
      destruct (decide (q ∈ enabled ix)), (decide (q ∈ enabled ix ∖ {[p]})), (decide (covered (s_names s) q)), (decide (covered names q)); try done; set_solver.
  - intros q. unfold values_of. cbn. destruct (decide (q = p)) as [->|Hne].
    + rewrite lookup_delete_eq. apply (dropped_at ix), Hm.
    + rewrite lookup_delete_ne by done. unfold at_pair. cbn. rewrite !lookup_delete_ne by done. apply (m_pairs _ _ _ Hm).
Qed.

(** Declarations that keep every entry. *)
Lemma keep_models ix s n en k eqs names c :
  models ix s n → en = dom c → (∀ p, default ∅ (c !! p) = values_of s p) → (∀ p, p ∈ en ↔ p ∈ eqs ∨ covered names p) →
  (∀ p, k !! p = if decide (p ∈ en) then Some (if decide (covered names p) then Range else Equality) else None) →
  models (mk en (forward ix) (reverse ix) (offsets ix) k eqs names (under ix)) (mk_spec eqs names c) n.
Proof.
  intros Hm He Hv Hd Hk. split; cbn; try done; [apply Hm|]. intros p. unfold values_of. cbn. rewrite Hv. apply (m_pairs _ _ _ Hm).
Qed.

Lemma enable_models ix s n p : models ix s n → models (enable ix p).2 (spec_step (OEnable p) s) n.
Proof.
  intros Hm. destruct s as [eqs names c]. pose proof (m_enabled _ _ _ Hm) as He. pose proof (m_equality _ _ _ Hm) as Hq. pose proof (m_names _ _ _ Hm) as Hn.
  cbn in He, Hq, Hn. unfold enable. cbn [snd spec_step]. rewrite Hq, Hn. apply (keep_models ix (mk_spec eqs names c)); [done|..].
  - by rewrite dom_declare, He.
  - intros q. apply values_declare.
  - intros q. rewrite !elem_of_union, (m_declared _ _ _ Hm), Hq, Hn. naive_solver.
  - intros q. rewrite <-Hn. destruct (kind ix !! p) as [k|] eqn:E.
    + replace ({[p]} ∪ enabled ix) with (enabled ix); [apply (m_kind _ _ _ Hm)|]. symmetry. apply subseteq_union_1_L, singleton_subseteq_l.
      rewrite (m_kind _ _ _ Hm) in E. by destruct (decide (p ∈ enabled ix)).
    + destruct (decide (q = p)) as [->|Hne].
      * rewrite lookup_insert_eq, decide_True by set_solver. rewrite decide_False; [done|]. intros Hc%(models_decl _ _ _ Hm). congruence.
      * rewrite lookup_insert_ne, (m_kind _ _ _ Hm) by done. destruct (decide (q ∈ enabled ix)), (decide (q ∈ {[p]} ∪ enabled ix)); try done; set_solver.
Qed.

Lemma disable_models ix s n p : models ix s n → models (disable ix p).2 (spec_step (ODisable p) s) n.
Proof.
  intros Hm. destruct s as [eqs names c]. pose proof (m_enabled _ _ _ Hm) as He. pose proof (m_equality _ _ _ Hm) as Hq. pose proof (m_names _ _ _ Hm) as Hn.
  cbn in He, Hq, Hn. unfold disable. cbn [snd spec_step kind]. rewrite Hq, Hn. rewrite (bool_decide_ext _ _ (models_decl _ _ _ Hm p)), Hn.
  case_bool_decide as Hc; [rewrite decide_True by done|rewrite decide_False by done].
  - apply (keep_models ix (mk_spec eqs names c)); try done.
    + intros q. rewrite elem_of_difference, elem_of_singleton, (m_declared _ _ _ Hm), Hq, Hn. destruct (decide (q = p)) as [->|]; naive_solver.
    + rewrite <-Hn. apply (m_kind _ _ _ Hm).
  - apply (drop_pair_models ix (mk_spec eqs names c)); [done|set_solver|done|]. intros q Hne. cbn. split; [set_solver|done].
Qed.

Lemma declare_range_models ix s n name p : models ix s n → models (declare_range ix name p) (spec_step (OEnableRange name p) s) n.
Proof.
  intros Hm. destruct s as [eqs names c]. pose proof (m_enabled _ _ _ Hm) as He. pose proof (m_equality _ _ _ Hm) as Hq. pose proof (m_names _ _ _ Hm) as Hn.
  cbn in He, Hq, Hn. unfold declare_range, enable_range. cbn [spec_step]. rewrite Hn. destruct (names !! name) eqn:E; [done|]. rewrite Hq.
  apply (keep_models ix (mk_spec eqs names c)); [done|..].
  - by rewrite dom_declare, He.
  - intros q. apply values_declare.
  - intros q. rewrite elem_of_union, elem_of_singleton, (m_declared _ _ _ Hm), Hq, Hn, covered_insert by done. naive_solver.
  - intros q. pose proof (covered_insert name p names q E) as Hc. destruct (decide (q = p)) as [->|Hne].
    + rewrite lookup_insert_eq, !decide_True by set_solver. done.
    + rewrite lookup_insert_ne, (m_kind _ _ _ Hm), Hn by done.
      destruct (decide (q ∈ enabled ix)), (decide (q ∈ {[p]} ∪ enabled ix)), (decide (covered names q)), (decide (covered (<[name:=p]> names) q)); try done; set_solver.
Qed.

Lemma covered_delete name p names q : names !! name = Some p → q ≠ p → covered (delete name names) q ↔ covered names q.
Proof.
  intros E Hq. unfold covered, map_Exists. setoid_rewrite lookup_delete_Some. split; [naive_solver|].
  intros (x & r & Hr & ->). exists x, q. split; [|done]. split; [congruence|done].
Qed.

Lemma disable_range_models ix s n name : models ix s n → models (disable_range ix name).2 (spec_step (ODisableRange name) s) n.
Proof.
  intros Hm. destruct s as [eqs names c]. pose proof (m_enabled _ _ _ Hm) as He. pose proof (m_equality _ _ _ Hm) as Hq. pose proof (m_names _ _ _ Hm) as Hn.
  cbn in He, Hq, Hn. unfold disable_range. cbn [spec_step]. rewrite Hn. destruct (names !! name) as [p|] eqn:E; [|done].
  cbn [snd enabled kind forward reverse offsets under range_names equality]. rewrite Hq. change (map_Exists (λ _ other, other = p) (delete name names)) with (covered (delete name names) p).
  assert (∀ q, q ≠ p → covered (delete name names) q ↔ covered names q) as Hothers by (intros; by eapply covered_delete).
  assert (covered names p) as Hcov by by exists name, p.
  case_bool_decide as Hc; [|case_bool_decide as Hpe].
  - rewrite decide_True by by left. apply (keep_models ix (mk_spec eqs names c)); try done.
    + intros q. rewrite (m_declared _ _ _ Hm), Hq, Hn. destruct (decide (q = p)) as [->|]; [naive_solver|by rewrite Hothers].
    + intros q. rewrite (m_kind _ _ _ Hm), Hn. destruct (decide (q ∈ enabled ix)); [|done]. f_equal.
      destruct (decide (q = p)) as [->|Hne]; [by rewrite !decide_True|]. specialize (Hothers q Hne).
      destruct (decide (covered names q)), (decide (covered (delete name names) q)); try done; naive_solver.
  - rewrite decide_True by by right. apply (keep_models ix (mk_spec eqs names c)); try done.
    + intros q. rewrite (m_declared _ _ _ Hm), Hq, Hn. destruct (decide (q = p)) as [->|]; [naive_solver|by rewrite Hothers].
    + intros q. destruct (decide (q = p)) as [->|Hne].
      * rewrite lookup_insert_eq, decide_True; [by rewrite decide_False|]. apply (m_declared _ _ _ Hm). left. by rewrite Hq.
      * rewrite lookup_insert_ne, (m_kind _ _ _ Hm), Hn by done. destruct (decide (q ∈ enabled ix)); [|done]. f_equal. specialize (Hothers q Hne).
        destruct (decide (covered names q)), (decide (covered (delete name names) q)); try done; naive_solver.
  - rewrite decide_False by naive_solver. apply (drop_pair_models ix (mk_spec eqs names c)); [done|done|done|]. intros q Hne. split; [done|by apply Hothers].
Qed.

(** *** Entries *)

Lemma models_frame ix ix' s n n' c' :
  models ix s n → decls ix' = decls ix → n ≤ n' → dom c' = dom (s_content s) → (∀ p, at_pair ix' p (default ∅ (c' !! p)) n') →
  models ix' (mk_spec (s_equality s) (s_names s) c') n'.
Proof.
  intros [H0 H1 H2 H3 H4 H5 H6] Hd Hle Hdom Hp. unfold decls in Hd. injection Hd as E1 E2 E3 E4 E5.
  split; cbn; rewrite ?E1, ?E2, ?E3, ?E4; try done; [lia|congruence].
Qed.

(** An operation on one pair's entries. *)
Lemma entry_models ix ix' s n n' p (f : content → content) :
  models ix s n → n ≤ n' → frame p ix ix' → p ∈ enabled ix → at_pair ix' p (f (values_of s p)) n' →
  models ix' (mk_spec (s_equality s) (s_names s) (alter f p (s_content s))) n'.
Proof.
  intros Hm Hle Hfr Hp Hat. rewrite (m_enabled _ _ _ Hm) in Hp. apply elem_of_dom in Hp as [c Hc].
  apply (models_frame ix ix' s n); [done|apply (frame_decls _ _ _ Hfr)|done|apply dom_alter_L|]. intros q. destruct (decide (q = p)) as [->|Hq].
  - unfold values_of in Hat. rewrite Hc in Hat. by rewrite lookup_alter_eq, Hc.
  - rewrite lookup_alter_ne by done. eapply frame_at; [done|done|]. eapply pair_ok_weaken; [apply (m_pairs _ _ _ Hm)|done].
Qed.

(** On a pair that is not declared nothing happens. *)
Lemma undeclared_models ix s n p (f : content → content) : models ix s n → p ∉ enabled ix →
  mk_spec (s_equality s) (s_names s) (alter f p (s_content s)) = s.
Proof.
  intros Hm Hp. rewrite (m_enabled _ _ _ Hm) in Hp. apply not_elem_of_dom in Hp. destruct s as [eqs names c]. cbn in *. f_equal.
  apply map_eq. intros q. destruct (decide (q = p)) as [->|]; [by rewrite lookup_alter_eq, Hp|by rewrite lookup_alter_ne].
Qed.

Lemma put_models ix s n p id new offset (f : content → content) :
  models ix s n → n + 2 < 2 ^ 64 → (∀ c, updated c (f c) id new offset) →
  ∃ ix', snd <$> put ix p id new offset = Some ix' ∧ models ix' (mk_spec (s_equality s) (s_names s) (alter f p (s_content s))) (n + 2) ∧ under ix' = under ix.
Proof.
  intros Hm Hn Hf. destruct (decide (p ∈ enabled ix)) as [Hp|Hp].
  - destruct (put_ok ix p id new offset _ (f (values_of s p)) n (m_pairs _ _ _ Hm p) Hp (m_nonneg _ _ _ Hm) Hn (Hf _)) as (ix' & -> & Hfr & Hat).
    exists ix'. split; [done|]. split; [eapply entry_models; [done|lia|done..]|]. pose proof (frame_decls _ _ _ Hfr) as Hd. unfold decls in Hd. congruence.
  - rewrite put_disabled, (undeclared_models _ _ _ _ _ Hm) by done. exists ix. split; [done|]. split; [eapply models_weaken; [done|lia]|done].
Qed.

Lemma remove_node_models ix s n p id : models ix s n → n + 1 < 2 ^ 64 →
  ∃ ix', remove_node ix p id = Some ix' ∧ models ix' (spec_step (ORemoveNode p id) s) (n + 1) ∧ under ix' = under ix.
Proof.
  intros Hm Hn. unfold remove_node. destruct (remove_entry_ok ix p id _ n (m_pairs _ _ _ Hm p) Hn) as (ix' & -> & Hfr & Hat). cbn [fmap option_fmap option_map snd].
  exists ix'. split; [done|]. pose proof (frame_decls _ _ _ Hfr) as Hd. split; [|unfold decls in Hd; congruence]. destruct s as [eqs names c]. cbn [spec_step].
  destruct (decide (p ∈ enabled ix)) as [Hp|Hp]; [by apply (entry_models ix ix' (mk_spec eqs names c) n (n + 1) p (delete id)); [|lia|..]|].
  pose proof (undeclared_models _ _ _ _ (delete id) Hm Hp) as E. cbn in E. rewrite E.
  apply (models_frame ix ix' (mk_spec eqs names c) n); [done|done|lia|done|]. intros q. destruct (decide (q = p)) as [->|Hq].
  - rewrite (m_enabled _ _ _ Hm) in Hp. apply not_elem_of_dom in Hp. unfold values_of in Hat. cbn in Hp, Hat. rewrite Hp in *. cbn in *. by rewrite delete_empty in Hat.
  - eapply frame_at; [done|done|]. eapply pair_ok_weaken; [apply (m_pairs _ _ _ Hm)|lia].
Qed.

Lemma remove_node_all_models ix s n id : models ix s n → n + 1 < 2 ^ 64 →
  ∃ ix', remove_node_all ix id = Some ix' ∧ models ix' (spec_step (ORemoveNodeAll id) s) (n + 1) ∧ under ix' = under ix.
Proof.
  intros Hm Hn. unfold remove_node_all. destruct (remove_list_ok (map_to_list (reverse ix)).*1 ix id (values_of s) n) as (ix' & -> & Hd & Hat); [apply NoDup_fst_map_to_list|done| |].
  { intros p. eapply pair_ok_weaken; [apply (m_pairs _ _ _ Hm)|]. destruct (decide _); lia. }
  exists ix'. split; [done|]. split; [|unfold decls in Hd; congruence]. destruct s as [eqs names c]. cbn [spec_step].
  apply (models_frame ix ix' (mk_spec eqs names c) n); [done|done|lia|apply dom_fmap_L|]. intros p. specialize (Hat p). revert Hat.
  assert (default ∅ ((delete id <$> c) !! p) = delete id (values_of (mk_spec eqs names c) p)) as ->.
  { unfold values_of. cbn. rewrite lookup_fmap. destruct (c !! p); [done|]. cbn. by rewrite delete_empty. }
  destruct (decide _) as [|Hnp]; [done|]. intros Hat. pose proof (m_pairs _ _ _ Hm p) as [_ (er & Hr & Hk) _].
  assert (∀ x, key_at (values_of (mk_spec eqs names c) p) x = None) as Hno.
  { intros x. rewrite <-Hk. destruct (reverse ix !! p) as [m|] eqn:E.
    - destruct Hnp. apply list_elem_of_fmap. exists (p, m). split; [done|]. by apply elem_of_map_to_list.
    - destruct (CowMap.holds_len _ _ _ Hr) as [_ He]. cbn in He. by subst er. }
  eapply pair_ok_ext; [apply Hat| | |done].
  - intros x. rewrite key_at_delete, Hno. by destruct (decide (x = id)).
  - intros x. rewrite offset_at_delete. destruct (decide (x = id)); [|done]. symmetry. apply eq_None_not_Some. intros Hs%offset_key. rewrite Hno in Hs. by destruct Hs.
Qed.

Lemma index_step_models o ix s n : models ix s n → n + 2 < 2 ^ 64 →
  ∃ ix', step o ix = Some ix' ∧ models ix' (spec_step o s) (n + 2) ∧ under ix' = under ix.
Proof.
  intros Hm Hn. destruct o as [p|p|name p|name|p id v|p id new|p id|id]; cbn [step].
  - eexists. split; [done|]. split; [|done]. eapply models_weaken; [by apply enable_models|lia].
  - eexists. split; [done|]. split; [eapply models_weaken; [by apply disable_models|lia]|]. unfold disable. cbn. by case_bool_decide.
  - eexists. split; [done|]. split; [eapply models_weaken; [by apply declare_range_models|lia]|]. unfold declare_range. by destruct (_ !! _).
  - eexists. split; [done|]. split; [eapply models_weaken; [by apply disable_range_models|lia]|]. unfold disable_range.
    destruct (_ !! _); [|done]. cbn. case_bool_decide; [done|]. by case_bool_decide.
  - destruct s as [eqs names c]. cbn [spec_step]. apply (put_models ix (mk_spec eqs names c)); [done|done|]. intros m. apply set_updated.
  - destruct s as [eqs names c]. cbn [spec_step]. apply (put_models ix (mk_spec eqs names c)); [done|done|]. intros m. apply update_updated.
  - destruct (remove_node_models ix s n p id Hm ltac:(lia)) as (ix' & -> & Hm' & Hu). exists ix'. split; [done|]. split; [eapply models_weaken; [done|lia]|done].
  - destruct (remove_node_all_models ix s n id Hm ltac:(lia)) as (ix' & -> & Hm' & Hu). exists ix'. split; [done|]. split; [eapply models_weaken; [done|lia]|done].
Qed.

Lemma index_run_models os ix s n : models ix s n → n + 2 * Z.of_nat (length os) < 2 ^ 64 →
  ∃ ix', run os ix = Some ix' ∧ models ix' (spec_run os s) (n + 2 * Z.of_nat (length os)) ∧ under ix' = under ix.
Proof.
  unfold run, spec_run. revert ix s n. induction os as [|o os IH]; intros ix s n Hm Hn; cbn [foldl length] in *.
  { exists ix. split; [done|]. split; [eapply models_weaken; [done|lia]|done]. }
  destruct (index_step_models o ix s n Hm ltac:(lia)) as (ix1 & E & Hm1 & Hu). cbn [mbind option_bind]. rewrite E.
  destruct (IH ix1 _ _ Hm1 ltac:(lia)) as (ix' & -> & Hm' & Hu'). exists ix'. split; [done|]. split; [|congruence].
  replace (n + 2 * Z.of_nat (S (length os))) with (n + 2 + 2 * Z.of_nat (length os)) by lia. done.
Qed.

End UnifiedIndex.
