(* ===== verification/RangeLookup.v ===== *)
(** * The index over scalar properties: lookups

    Models the reads of [crates/core-storage/src/range_index.rs]: equality
    ([lookup], with the layered base), ranges ([lookup_range]: by key, over the
    numbers, over the date-times) and prefixes.  An iterator is the list it yields,
    [None] if reading it panics.  The theorems compare each answer with the scan
    it replaces: the nodes whose value [values_equal] or [eval_cmp] accepts. *)

From S2P Require Import Prelude Order Assoc CowMap CowMapIter IdSet Utf8 Types Float64 ValueOps RangeIndex.

Module RangeLookup.
Import UnifiedIndex.

(** The entries of [postings.range((start, end_))] *)
Definition entries_in (postings : Postings) (start end_ : Bound ValueKey.t) : option (list (ValueKey.t * IdSet.t)) :=
  it ← CowMapIter.range postings start end_;
  CowMapIter.collect (S (CowMap.len postings)) it.

(** [entries.flat_map(f)], where reading an entry may panic *)
Definition flat_map {A B} (f : A → option (list B)) (l : list A) : option (list B) := ls ← mapM f l; Some (concat ls).

Definition ids_of (entries : list (ValueKey.t * IdSet.t)) : option (list Z) :=
  flat_map (λ e, IdSet.iter e.2) entries.

Definition postings (ix : t) (p : Pair) : option Postings := forward ix !! p.

(** ** Equality *)

Definition answers_eq (value : Value.t) : bool := bool_decide (is_Some (ValueKey.from_value value)).

Definition with_other_zero (x : Z) : list Z := if F64.eq x 0 then [0; F64.SIGN] else [x].

(** The closure [take] of [own_lookup] *)
Definition take_key (postings : Postings) (key : ValueKey.t) : option (list Z) :=
  r ← CowMap.get postings key;
  match r with Some ids => IdSet.iter ids | None => Some [] end.

Definition take_floats (postings : Postings) (xs : list Z) : option (list Z) :=
  flat_map (λ x, take_key postings (ValueKey.FloatBits x)) xs.

(** [matches!(key, ValueKey::Int(j) if *j as f64 == *f)] *)
Definition converts_to (f : Z) (key : ValueKey.t) : bool :=
  match key with ValueKey.Int j => F64.eq (F64.of_i64 j) f | _ => false end.

(** What [own_lookup] collects into [out] *)
Definition gather (postings : Postings) (value : Value.t) : option (list Z) :=
  match value with
  | Value.Int i =>
      ints ← take_key postings (ValueKey.Int i);
      floats ← take_floats postings (with_other_zero (F64.of_i64 i));
      Some (ints ++ floats)
  | Value.Float f =>
      if F64.is_nan f then Some []
      else
        floats ← take_floats postings (with_other_zero f);
        ints ← (if F64.is_integer f then
                  let lo := F64.to_i64 (F64.next_down f) in
                  let hi := F64.to_i64 (F64.next_up f) in
                  entries ← entries_in postings (Included (ValueKey.Int lo)) (Included (ValueKey.Int hi));
                  ids_of (filter (λ e, converts_to f e.1 = true) entries)
                else Some []);
        Some (floats ++ ints)
  | other => match ValueKey.from_value other with Some key => take_key postings key | None => Some [] end
  end.

Definition own_lookup (ix : t) (p : Pair) (value : Value.t) : option (list Z) :=
  match postings ix p with
  | None => Some []
  | Some postings => out ← gather postings value; Some (dedup (sort_unstable out))
  end.

Fixpoint lookup (ix : t) (p : Pair) (value : Value.t) : option (list Z) :=
  own ← own_lookup ix p value;
  match under ix with
  | None => Some own
  | Some (base, stale) =>
      below ← lookup base p value;
      Some (dedup (sort_unstable (filter (λ id, id ∉ stale) below ++ own)))
  end.

Definition lookup_eq (ix : t) (p : Pair) (key : ValueKey.t) : option (option IdSet.t) :=
  match postings ix p with None => Some None | Some postings => CowMap.get postings key end.

(** ** Ranges *)

Inductive OrderClass := CNumeric | CStr | CDate | CLocalDateTime | CDateTime | CBinary | CBool.
#[export] Instance OrderClass_eq_dec : EqDecision OrderClass.
Proof. solve_decision. Defined.

Definition order_class (v : Value.t) : option OrderClass :=
  match v with
  | Value.Int _ | Value.Float _ => Some CNumeric
  | Value.Str _ => Some CStr
  | Value.Date _ => Some CDate
  | Value.LocalDateTime _ => Some CLocalDateTime
  | Value.DateTime _ _ => Some CDateTime
  | Value.Binary _ => Some CBinary
  | Value.Bool _ => Some CBool
  | Value.List _ | Value.Map _ | Value.Duration _ _ _ | Value.Null => None
  end.

Definition same_variant (a b : ValueKey.t) : bool := key_rank a =? key_rank b.

Definition admits (ord : comparison) (lower inclusive : bool) : bool :=
  match ord, lower with Eq, _ => inclusive | Gt, true | Lt, false => true | _, _ => false end.

(** [lo.is_none_or(|(b, incl)| admits(c(b), true, incl)) && hi.is_none_or(..)] *)
Definition admitted {A} (c : A → comparison) (lo hi : option (A * bool)) : bool :=
  match lo with None => true | Some (b, incl) => admits (c b) true incl end &&
  match hi with None => true | Some (b, incl) => admits (c b) false incl end.

Definition variant_min (k : ValueKey.t) : ValueKey.t :=
  match k with
  | ValueKey.Int _ => ValueKey.Int i64_min
  | ValueKey.FloatBits _ => ValueKey.FloatBits 0
  | ValueKey.Str _ => ValueKey.Str ""
  | ValueKey.Bool _ => ValueKey.Bool false
  | ValueKey.DateDays _ => ValueKey.DateDays (- 2 ^ 31)
  | ValueKey.LocalDateTimeMicros _ => ValueKey.LocalDateTimeMicros i64_min
  | ValueKey.DateTimeMicrosUtc _ => ValueKey.DateTimeMicrosUtc i64_min
  | ValueKey.BinaryBytes _ => ValueKey.BinaryBytes []
  end.

(** A bound: a value, and whether it is included.  [f] is [expect]ed to answer. *)
Definition Limit : Type := option (Value.t * bool).
Definition map_limit {A} (f : Value.t → option A) (b : Limit) : option (option (A * bool)) :=
  match b with None => Some None | Some (v, incl) => a ← f v; Some (Some (a, incl)) end.

Definition to_bound (b : ValueKey.t * bool) : Bound ValueKey.t := if b.2 then Included b.1 else Excluded b.1.

(** [iter.take_while(f)] *)
Fixpoint take_while {A} (f : A → bool) (l : list A) : list A :=
  match l with [] => [] | x :: l => if f x then x :: take_while f l else [] end.

(** Whether two bounds leave nothing between them. *)
Definition inverted (lo hi : option (ValueKey.t * bool)) : bool :=
  match lo, hi with
  | Some (l, li), Some (h, hincl) => bool_decide (h <ₖ l) || (bool_decide (l = h) && negb (li && hincl))
  | _, _ => false
  end.

Definition key_range (postings : Postings) (lo hi : Limit) : option (list Z) :=
  lo ← map_limit ValueKey.from_value lo;
  hi ← map_limit ValueKey.from_value hi;
  if inverted lo hi then Some []
  else
    variant ← fst <$> match lo with Some _ => lo | None => hi end;
    let start := match lo with Some b => to_bound b | None => Included (variant_min variant) end in
    let end_ := match hi with Some b => to_bound b | None => Unbounded end in
    entries ← entries_in postings start end_;
    ids_of (take_while (λ e, same_variant e.1 variant) entries).

Definition as_number (v : Value.t) : option Z :=
  match v with Value.Int i => Some (F64.of_i64 i) | Value.Float f => Some f | _ => None end.

(** [!x] on [u64] *)
Definition u64_not (x : Z) : Z := Z.lxor x u64_max.

Definition total_order (bits : Z) : Z :=
  if negb (Z.land bits F64.SIGN =? 0) then u64_not bits else Z.lor bits F64.SIGN.

Definition int_lo (lo : option (Z * bool)) : option Z :=
  match lo with
  | None => Some i64_min
  | Some (b, _) =>
      if F64.is_nan b then (if F64.neg b then Some i64_min else None)
      else Some (F64.floor_i64 (F64.next_down b))
  end.
Definition int_hi (hi : option (Z * bool)) : option Z :=
  match hi with
  | None => Some i64_max
  | Some (b, _) =>
      if F64.is_nan b then (if negb (F64.neg b) then Some i64_max else None)
      else Some (F64.ceil_i64 (F64.next_up b))
  end.

(** The loop over one run of keys, and its body; [number] matches the run's variant. *)
Definition bucket_hits (number : ValueKey.t → option Z) (within : Z → bool) (e : ValueKey.t * IdSet.t) : option (list (Z * Z)) :=
  match number e.1 with
  | Some x => if within x then fmap (M := list) (pair x) <$> IdSet.iter e.2 else Some []
  | None => Some []
  end.
Definition hits_in (postings : Postings) (number : ValueKey.t → option Z) (within : Z → bool)
    (start end_ : ValueKey.t) : option (list (Z * Z)) :=
  entries ← entries_in postings (Included start) (Included end_);
  flat_map (bucket_hits number within) entries.

Definition int_number (k : ValueKey.t) : option Z :=
  match k with ValueKey.Int j => Some (F64.of_i64 j) | _ => None end.
Definition float_number (k : ValueKey.t) : option Z :=
  match k with ValueKey.FloatBits bits => Some bits | _ => None end.

(** The float runs between two places in total order: those with a clear sign bit,
    then those with a set one, which run backwards. *)
Definition float_runs (t_lo t_hi : Z) : list (Z * Z) :=
  (if F64.SIGN <=? t_hi then [(Z.lxor (Z.max t_lo F64.SIGN) F64.SIGN, Z.lxor t_hi F64.SIGN)] else []) ++
  (if t_lo <? F64.SIGN then [(u64_not (Z.min t_hi (F64.SIGN - 1)), u64_not t_lo)] else []).

(** [a.0.total_cmp(&b.0).then(a.1.cmp(&b.1))] *)
Definition hit_cmp (a b : Z * Z) : comparison := then_cmp (F64.total_cmp a.1 b.1) (cmp a.2 b.2).

Definition numeric_range (postings : Postings) (lo hi : Limit) : option (list Z) :=
  lo ← map_limit as_number lo;
  hi ← map_limit as_number hi;
  let within := λ x, admitted (F64.total_cmp x) lo hi in
  ints ← match int_lo lo, int_hi hi with
    | Some a, Some b =>
        if a <=? b then hits_in postings int_number within (ValueKey.Int a) (ValueKey.Int b) else Some []
    | _, _ => Some []
    end;
  let t_lo := match lo with None => 0 | Some (b, _) => total_order b end in
  let t_hi := match hi with None => u64_max | Some (b, _) => total_order b end in
  floats ← (if t_lo <=? t_hi then
              flat_map (λ r, hits_in postings float_number within (ValueKey.FloatBits r.1) (ValueKey.FloatBits r.2)) (float_runs t_lo t_hi)
            else Some []);
  Some (merge_sort (λ a b, hit_cmp a b ≠ Gt) (ints ++ floats)).*2.

Definition as_datetime (v : Value.t) : option (Z * Z) :=
  match v with Value.DateTime micros_utc offset_seconds => Some (micros_utc, offset_seconds) | _ => None end.

(** The filter on one node, and the closure over one bucket. *)
Definition datetime_hit (offsets : option (@CowMap.t Z Z)) (lo hi : option (Z * Z * bool)) (us id : Z) : option (list Z) :=
  offset ← match offsets with None => Some None | Some m => CowMap.get m id end;
  Some (if admitted (cmp (us, default 0 offset)) lo hi then [id] else []).
Definition datetime_hits (offsets : option (@CowMap.t Z Z)) (lo hi : option (Z * Z * bool)) (e : ValueKey.t * IdSet.t) : option (list Z) :=
  match e.1 with
  | ValueKey.DateTimeMicrosUtc us => ids ← IdSet.iter e.2; flat_map (datetime_hit offsets lo hi us) ids
  | _ => None
  end.

Definition datetime_range (postings : Postings) (offsets : option (@CowMap.t Z Z)) (lo hi : Limit) : option (list Z) :=
  lo ← map_limit as_datetime lo;
  hi ← map_limit as_datetime hi;
  let start := match lo with None => i64_min | Some (b, _) => b.1 end in
  let end_ := match hi with None => i64_max | Some (b, _) => b.1 end in
  if end_ <? start then Some []
  else
    entries ← entries_in postings (Included (ValueKey.DateTimeMicrosUtc start)) (Included (ValueKey.DateTimeMicrosUtc end_));
    flat_map (datetime_hits offsets lo hi) entries.

Definition class_range (postings : Postings) (offsets : option (@CowMap.t Z Z)) (class : OrderClass) (lo hi : Limit) : option (list Z) :=
  match class with
  | CNumeric => numeric_range postings lo hi
  | CDateTime => datetime_range postings offsets lo hi
  | CStr | CDate | CLocalDateTime | CBinary | CBool => key_range postings lo hi
  end.

Definition lookup_range (ix : t) (p : Pair) (lo hi : Limit) : option (list Z) :=
  match postings ix p with
  | None => Some []
  | Some postings =>
      match order_class ∘ fst <$> lo, order_class ∘ fst <$> hi with
      | None, None => entries ← entries_in postings Unbounded Unbounded; ids_of entries
      | Some None, _ | _, Some None => Some []
      | Some (Some a), None | None, Some (Some a) => class_range postings (offsets ix !! p) a lo hi
      | Some (Some a), Some (Some b) =>
          if bool_decide (a ≠ b) then Some [] else class_range postings (offsets ix !! p) a lo hi
      end
  end.

(** [s.starts_with(prefix)] on a string key *)
Definition has_prefix (prefix : string) (k : ValueKey.t) : bool :=
  match k with ValueKey.Str s => String.prefix prefix s | _ => false end.

Definition lookup_prefix (ix : t) (p : Pair) (prefix : string) : option (list Z) :=
  match postings ix p with
  | None => Some []
  | Some postings =>
      entries ← entries_in postings (Included (ValueKey.Str prefix)) Unbounded;
      ids_of (take_while (λ e, has_prefix prefix e.1) entries)
  end.

(** ** Buckets *)

Definition inside (start end_ : Bound ValueKey.t) (k : ValueKey.t) : Prop :=
  CowMapIter.past_start start k = false ∧ CowMapIter.past_end end_ k = false.
#[export] Instance inside_dec start end_ k : Decision (inside start end_ k).
Proof. unfold inside. apply _. Defined.

Lemma entries_in_spec m es n start end_ : CowMap.holds m es (potential n) → CowMapIter.range_ok start end_ = true →
  entries_in m start end_ = Some (filter (λ e, inside start end_ e.1) es).
Proof.
  intros Hm Hok. destruct (CowMapIter.range_spec m es _ start end_ Hm Hok) as (it & E & Hio & Hb & Hrem). unfold entries_in. rewrite E. cbn [mbind option_bind].
  destruct (CowMap.holds_len m _ _ Hm) as [Hl _]. pose proof (CowMap.holds_sorted m _ _ Hm) as Hs.
  rewrite CowMapIter.collect_spec; [|done|rewrite Hrem, Hl; pose proof (length_filter (λ q, CowMapIter.past_start start q.1 = false) es); lia].
  rewrite Hb, Hrem, CowMapIter.take_until_filter by by apply sorted_fmap_filter. rewrite list_filter_filter. f_equal. apply list_filter_iff. intros [k s]. unfold inside. cbn. tauto.
Qed.

Lemma flat_map_spec {A B} (f : A → option (list B)) (g : A → list B) l : (∀ x, x ∈ l → f x = Some (g x)) → flat_map f l = Some (l ≫= g).
Proof.
  intros H. unfold flat_map. rewrite (proj2 (mapM_Some f l (g <$> l))).
  - cbn. f_equal. clear H. induction l as [|x l IH]; [done|]. cbn. by rewrite IH.
  - apply Forall2_fmap_r, Forall_Forall2_diag, Forall_forall. done.
Qed.

(** The ids of a bucket. *)
Definition bucket_ids (e : ValueKey.t * IdSet.t) : list Z := default [] (IdSet.iter e.2).

(** [m] has the buckets [es]: one for every key a value of [c] has, with the nodes that have it. *)
Record buckets (m : Postings) (c : content) (es : list (ValueKey.t * IdSet.t)) (n : Z) : Prop := {
  bk_holds : CowMap.holds m es (potential n);
  bk_iter e : e ∈ es → IdSet.iter e.2 = Some (bucket_ids e);
  bk_sorted e : e ∈ es → sorted (bucket_ids e);
  bk_ids e id : e ∈ es → id ∈ bucket_ids e ↔ key_at c id = Some e.1;
  bk_all id k : key_at c id = Some k → k ∈ es.*1;
}.

Lemma pair_buckets ix p c n : at_pair ix p c n →
  match postings ix p with Some m => ∃ es, buckets m c es n | None => ∀ id, key_at c id = None end.
Proof.
  intros [(es & Hm & Hb) _ _]. unfold postings. destruct (forward ix !! p) as [m|]; cbn [default] in Hm.
  - exists es. pose proof (CowMap.holds_sorted _ _ _ Hm) as Hs.
    assert (∀ e, e ∈ es → ∃ l, IdSet.iter e.2 = Some l ∧ sorted l ∧ ∀ id, id ∈ l ↔ key_at c id = Some e.1) as He.
    { intros [k s] Hin. specialize (Hb k). rewrite (proj2 (alookup_Some k s es Hs) Hin) in Hb. destruct Hb as [(l & Hr & Hl & _) _].
      exists l. split; [by eapply IdSet.iter_spec|]. split; [apply Hr|]. intros id. by rewrite Hl, elem_of_holders. }
    split; [done|..]; unfold bucket_ids.
    + intros e (l & -> & _)%He. done.
    + intros e (l & -> & ? & _)%He. done.
    + intros e id (l & -> & _ & ?)%He. done.
    + intros id k Hk. destruct (alookup k es) as [s|] eqn:E.
      * apply alookup_Some in E; [|done]. apply list_elem_of_fmap. by exists (k, s).
      * specialize (Hb k). rewrite E in Hb. cbn in Hb. apply elem_of_holders in Hk. set_solver.
  - destruct (CowMap.holds_len _ _ _ Hm) as [_ E]. cbn in E. subst es. intros id. destruct (key_at c id) as [k|] eqn:E; [|done].
    specialize (Hb k). cbn in Hb. apply elem_of_holders in E. set_solver.
Qed.

(** The ids of some buckets with their keys, in key order. *)
Definition pairs_of (es : list (ValueKey.t * IdSet.t)) : list (ValueKey.t * Z) := es ≫= λ e, pair e.1 <$> bucket_ids e.

Lemma pairs_sorted es : sorted es.*1 → (∀ e, e ∈ es → sorted (bucket_ids e)) → sorted (pairs_of es).
Proof.
  induction es as [|e es IH]; [constructor|]. cbn [fmap list_fmap]. intros [Hs Hlt]%sorted_cons Hb. unfold pairs_of. cbn [mbind list_bind]. apply sorted_app. split_and!.
  - specialize (Hb e ltac:(by left)). induction (bucket_ids e) as [|x l IHl]; [constructor|]. apply sorted_cons in Hb as [Hl Hx]. cbn [fmap list_fmap]. apply sorted_cons.
    split; [by apply IHl|]. intros y (id & -> & Hid)%list_elem_of_fmap. unfold klt, cmp, prod_ord. cbn. rewrite cmp_refl. by apply Hx.
  - apply IH; [done|]. intros x Hx. apply Hb. by right.
  - intros x y (i & -> & Hi)%list_elem_of_fmap (e' & (j & -> & Hj)%list_elem_of_fmap & He')%list_elem_of_bind. unfold klt, cmp, prod_ord. cbn.
    rewrite (Hlt e'.1); [done|]. apply list_elem_of_fmap. by exists e'.
Qed.

(** Two filters on keys are one. *)
Lemma filter_keys (P Q R : ValueKey.t → Prop) `{!∀ k, Decision (R k)} (es : list (ValueKey.t * IdSet.t))
    {dP : ∀ e : ValueKey.t * IdSet.t, Decision (P e.1)} {dQ : ∀ e : ValueKey.t * IdSet.t, Decision (Q e.1)} :
  (∀ k, R k ↔ Q k ∧ P k) → filter (λ e, Q e.1) (filter (λ e, P e.1) es) = filter (λ e, R e.1) es.
Proof. intros HR. rewrite list_filter_filter. apply list_filter_iff. intros e. by rewrite HR. Qed.

Section some_buckets.
Context (m : Postings) (c : content) (es : list (ValueKey.t * IdSet.t)) (n : Z) (Hbk : buckets m c es n).
Context (P : ValueKey.t → Prop) `{!∀ k, Decision (P k)}.

Lemma ids_of_filter : ids_of (filter (λ e, P e.1) es) = Some (pairs_of (filter (λ e, P e.1) es)).*2.
Proof.
  unfold ids_of. rewrite (flat_map_spec _ bucket_ids).
  - f_equal. unfold pairs_of. induction (filter _ es) as [|e l IH]; [done|]. cbn [mbind list_bind]. rewrite fmap_app, IH. f_equal.
    rewrite <-list_fmap_compose. symmetry. apply list_fmap_id.
  - intros e [_ He]%list_elem_of_filter. by apply (bk_iter _ _ _ _ Hbk).
Qed.

Lemma filtered_sorted : sorted (pairs_of (filter (λ e, P e.1) es)).
Proof.
  apply pairs_sorted.
  - apply sorted_fmap_filter. eapply CowMap.holds_sorted, Hbk.
  - intros e [_ He]%list_elem_of_filter. by apply (bk_sorted _ _ _ _ Hbk).
Qed.

Lemma elem_of_filtered k id : (k, id) ∈ pairs_of (filter (λ e, P e.1) es) ↔ P k ∧ key_at c id = Some k.
Proof.
  unfold pairs_of. rewrite list_elem_of_bind. split.
  - intros (e & (x & [= -> ->] & Hx)%list_elem_of_fmap & [HP He]%list_elem_of_filter). split; [done|]. by apply (bk_ids _ _ _ _ Hbk).
  - intros [HP Hk]. pose proof (bk_all _ _ _ _ Hbk id k Hk) as (e & -> & He)%list_elem_of_fmap. exists e. split.
    + apply list_elem_of_fmap. exists id. split; [done|]. by apply (bk_ids _ _ _ _ Hbk).
    + by apply list_elem_of_filter.
Qed.

Lemma elem_of_filtered_ids id : id ∈ (pairs_of (filter (λ e, P e.1) es)).*2 ↔ ∃ k, key_at c id = Some k ∧ P k.
Proof.
  rewrite list_elem_of_fmap. split.
  - intros ([k x] & -> & [HP Hk]%elem_of_filtered). eauto.
  - intros (k & Hk & HP). exists (k, id). split; [done|]. by apply elem_of_filtered.
Qed.
End some_buckets.

Lemma take_key_spec m c es n k : buckets m c es n → ∃ l, take_key m k = Some l ∧ ∀ id, id ∈ l ↔ key_at c id = Some k.
Proof.
  intros Hbk. pose proof (bk_holds _ _ _ _ Hbk) as Hm. pose proof (CowMap.holds_sorted _ _ _ Hm) as Hs. unfold take_key. rewrite (CowMap.get_holds m es _ k Hm). cbn [mbind option_bind].
  destruct (alookup k es) as [s|] eqn:E.
  - apply alookup_Some in E; [|done]. change s with (k, s).2 at 1. rewrite (bk_iter _ _ _ _ Hbk (k, s) E). eexists. split; [done|]. intros id. by apply (bk_ids _ _ _ _ Hbk (k, s)).
  - exists []. split; [done|]. intros id. split; [by intros ?%not_elem_of_nil|]. intros Hk%(bk_all _ _ _ _ Hbk). by apply alookup_None in E.
Qed.

Lemma take_floats_spec m c es n xs : buckets m c es n →
  ∃ l, take_floats m xs = Some l ∧ ∀ id, id ∈ l ↔ ∃ x, x ∈ xs ∧ key_at c id = Some (ValueKey.FloatBits x).
Proof.
  intros Hbk. set (g x := default [] (take_key m (ValueKey.FloatBits x))).
  assert (∀ x, take_key m (ValueKey.FloatBits x) = Some (g x) ∧ ∀ id, id ∈ g x ↔ key_at c id = Some (ValueKey.FloatBits x)) as Hg.
  { intros x. unfold g. destruct (take_key_spec m c es n (ValueKey.FloatBits x) Hbk) as (l & -> & Hl). done. }
  unfold take_floats. rewrite (flat_map_spec _ g) by (intros x _; apply Hg). eexists. split; [done|]. intros id. rewrite list_elem_of_bind. split.
  - intros (x & Hx%Hg & ?). eauto.
  - intros (x & Hx & Hk). exists x. split; [by apply Hg|done].
Qed.

(** ** Equality as the scan judges it *)

(** The numbers of a value are within their types. *)
Definition scalar_ok (v : Value.t) : Prop :=
  match v with
  | Value.Int i => in_i 64 i
  | Value.Float f => in_u 64 f
  | Value.Date d => in_i 32 d
  | Value.LocalDateTime us | Value.DateTime us _ => in_i 64 us
  | _ => True
  end.

Definition contents_ok (c : content) : Prop := ∀ id v, c !! id = Some v → scalar_ok v.

Lemma other_zero x y : in_u 64 x → in_u 64 y → F64.is_nan y = false → F64.eq x y = true ↔ x ∈ with_other_zero y.
Proof.
  intros Hx Hy Hn. assert (in_u 64 0) as H0 by (unfold in_u; lia). rewrite F64.eq_sym, F64.eq_bits by done. unfold with_other_zero.
  pose proof (F64.eq_bits y 0 Hy H0) as Hz. destruct (F64.eq y 0).
  - rewrite !list_elem_of_cons || rewrite !elem_of_cons. destruct Hz as [[_ Hz] _]; [done|]. split.
    + intros [_ [<-|[_ H]]]; naive_solver.
    + intros H. split; [done|]. right. split; [naive_solver|]. destruct H as [|[|H%not_elem_of_nil]]; naive_solver.
  - rewrite list_elem_of_singleton. split; [|intros ->; split; [done|by left]]. intros [_ [->|[H _]]]; [done|]. destruct Hz as [_ Hz]. discriminate Hz.
    split; [done|]. right. split; [done|by left].
Qed.

(** The keys [own_lookup] reads for an operand. *)
Definition eq_key (v : Value.t) (k : ValueKey.t) : Prop :=
  match v with
  | Value.Int i => k = ValueKey.Int i ∨ ∃ x, x ∈ with_other_zero (F64.of_i64 i) ∧ k = ValueKey.FloatBits x
  | Value.Float f => F64.is_nan f = false ∧ ((∃ x, x ∈ with_other_zero f ∧ k = ValueKey.FloatBits x) ∨ converts_to f k = true)
  | _ => ValueKey.from_value v = Some k
  end.

Lemma eq_nan x f : F64.is_nan f = true → F64.eq x f = false.
Proof. intros Hn. unfold F64.eq. rewrite Hn. cbn. by rewrite andb_false_r. Qed.

(** A value of another type than the operand: it is not equal, and its key is not read. *)
Ltac other_key :=
  solve [split; [done|]; intros (k & Hk & Hq); try done; injection Hk as <-; cbn in Hq;
         first [done|by destruct Hq as [?|(x & _ & ?)]|by destruct Hq as (_ & [(x & _ & ?)|?])]].

Lemma equal_keys w v : scalar_ok w → scalar_ok v → answers_eq v = true →
  values_equal w v = true ↔ ∃ k, ValueKey.from_value w = Some k ∧ eq_key v k.
Proof.
  intros Hw Hv Ha. assert (∀ i, in_i 64 i → in_u 64 (F64.of_i64 i) ∧ F64.is_nan (F64.of_i64 i) = false) as Hint.
  { intros i Hi. destruct (F64.of_i64_spec i Hi) as (? & Hf & _). split; [done|]. unfold F64.is_finite, F64.is_nan in *. lia. }
  destruct v as [i|f|s|b| | |d|u|u o| |b|]; try done.
  - destruct w as [j|g| | | | | | | | | |]; cbn [values_equal ValueKey.from_value eq_key]; try other_key.
    + rewrite Z.eqb_eq. naive_solver.
    + destruct (Hint i Hv). rewrite (other_zero g (F64.of_i64 i)) by done. naive_solver.
  - cbn [scalar_ok eq_key] in *. destruct (F64.is_nan f) eqn:Hn.
    { split; [|naive_solver]. destruct w; cbn; try done; by rewrite (eq_nan _ _ Hn). }
    destruct w as [j|g| | | | | | | | | |]; cbn [values_equal ValueKey.from_value converts_to]; try other_key.
    + split; [intros Hq; eexists; split; [done|]; split; [done|by right]|]. intros (k & [= <-] & _ & [(x & _ & ?)|?]); done.
    + rewrite (other_zero g f) by done. split; [intros Hq; eexists; split; [done|]; split; [done|left; eauto]|].
      by intros (k & [= <-] & _ & [(x & ? & [= ->])|?]).
  - destruct w; cbn; try other_key. rewrite String.eqb_eq. split; [intros ->; eauto|]. by intros (k & [= <-] & [= ->]).
  - destruct w; cbn; try other_key. rewrite eqb_true_iff. split; [intros ->; eauto|]. by intros (k & [= <-] & [= ->]).
  - destruct w; cbn; try other_key. rewrite Z.eqb_eq. split; [intros ->; eauto|]. by intros (k & [= <-] & [= ->]).
  - destruct w; cbn; try other_key. rewrite Z.eqb_eq. split; [intros ->; eauto|]. by intros (k & [= <-] & [= ->]).
  - destruct w; cbn; try other_key. rewrite Z.eqb_eq. split; [intros ->; eauto|]. by intros (k & [= <-] & [= ->]).
  - destruct w; cbn; try other_key. rewrite bool_decide_eq_true. split; [intros ->; eauto|]. by intros (k & [= <-] & [= ->]).
Qed.

(** *** Runs of keys *)

Lemma range_ok_incl a b : CowMapIter.range_ok (Included a) (Included b) = bool_decide (a ≤ₖ b).
Proof.
  cbn. rewrite <-bool_decide_or. apply bool_decide_ext. rewrite kle_lt_eq, cmp_eq. done.
Qed.

Lemma inside_incl a b k : inside (Included a) (Included b) k ↔ a ≤ₖ k ∧ k ≤ₖ b.
Proof. unfold inside. cbn. by rewrite !bool_decide_eq_false, !not_klt. Qed.

Lemma kle_rank a b : a ≤ₖ b → key_rank a ≤ key_rank b.
Proof.
  unfold kle. destruct a, b; cbn; try lia; done.
Qed.

Lemma kle_Z a b (f : Z → ValueKey.t) : (∀ x y, cmp (f x) (f y) = (x ?= y)) → f a ≤ₖ f b ↔ a ≤ b.
Proof. intros Hf. unfold kle. rewrite Hf. done. Qed.

(** The keys between two of one variant that orders as integers do. *)
Lemma inside_run (f : Z → ValueKey.t) a b k :
  (∀ x y, cmp (f x) (f y) = (x ?= y)) → (∀ x, key_rank k = key_rank (f x) → ∃ j, k = f j) → (∀ x y, key_rank (f x) = key_rank (f y)) →
  inside (Included (f a)) (Included (f b)) k ↔ ∃ j, k = f j ∧ a ≤ j ≤ b.
Proof.
  intros Hf Hk Hr. rewrite inside_incl. split.
  - intros [H1 H2]. destruct (Hk a) as [j ->]; [|exists j; rewrite !(kle_Z _ _ f Hf) in *; done].
    apply kle_rank in H1, H2. rewrite (Hr b a) in H2. lia.
  - intros (j & -> & ? & ?). by rewrite !(kle_Z _ _ f Hf).
Qed.

Lemma inside_int a b k : inside (Included (ValueKey.Int a)) (Included (ValueKey.Int b)) k ↔ ∃ j, k = ValueKey.Int j ∧ a ≤ j ≤ b.
Proof. apply inside_run; [done| |done]. destruct k; cbn; try done. eauto. Qed.
Lemma inside_float a b k : inside (Included (ValueKey.FloatBits a)) (Included (ValueKey.FloatBits b)) k ↔ ∃ j, k = ValueKey.FloatBits j ∧ a ≤ j ≤ b.
Proof. apply inside_run; [done| |done]. destruct k; cbn; try done. eauto. Qed.
Lemma inside_datetime a b k :
  inside (Included (ValueKey.DateTimeMicrosUtc a)) (Included (ValueKey.DateTimeMicrosUtc b)) k ↔ ∃ j, k = ValueKey.DateTimeMicrosUtc j ∧ a ≤ j ≤ b.
Proof. apply inside_run; [done| |done]. destruct k; cbn; try done. eauto. Qed.

Lemma run_ok (f : Z → ValueKey.t) a b : (∀ x y, cmp (f x) (f y) = (x ?= y)) → a ≤ b → CowMapIter.range_ok (Included (f a)) (Included (f b)) = true.
Proof. intros Hf Hle. rewrite range_ok_incl. apply bool_decide_eq_true_2. by apply (kle_Z _ _ f Hf). Qed.

(** ** [lookup] *)

(** The integers of a run that convert to [f]. *)
Definition int_hit (f lo hi : Z) (k : ValueKey.t) : Prop :=
  converts_to f k = true ∧ inside (Included (ValueKey.Int lo)) (Included (ValueKey.Int hi)) k.
#[export] Instance int_hit_dec f lo hi k : Decision (int_hit f lo hi k).
Proof. unfold int_hit. apply _. Defined.

Lemma gather_spec m c es n v : buckets m c es n → contents_ok c → scalar_ok v →
  ∃ l, gather m v = Some l ∧ (answers_eq v = true → ∀ id, id ∈ l ↔ ∃ k, key_at c id = Some k ∧ eq_key v k) ∧ (answers_eq v = false → l = []).
Proof.
  intros Hbk Hc Hv. assert (∀ k, ∃ l, take_key m k = Some l ∧ ∀ id, id ∈ l ↔ ∃ k', key_at c id = Some k' ∧ Some k = Some k') as Hkey.
  { intros k. destruct (take_key_spec m c es n k Hbk) as (l & -> & Hl). exists l. split; [done|]. intros id. rewrite Hl. naive_solver. }
  destruct v as [i|f|s|b| | |d|u|u o| |b|]; cbn [gather ValueKey.from_value]; try (by exists []);
    try match goal with |- ∃ l, take_key m ?k = _ ∧ _ => destruct (Hkey k) as (l & E & Hl); exists l; split; [exact E|split; [intros _; apply Hl|done]] end.
  - destruct (take_key_spec m c es n (ValueKey.Int i) Hbk) as (l1 & -> & H1). cbn [mbind option_bind].
    destruct (take_floats_spec m c es n (with_other_zero (F64.of_i64 i)) Hbk) as (l2 & -> & H2). cbn. eexists. split; [done|]. split; [|done]. intros _ id.
    rewrite elem_of_app, H1, H2. naive_solver.
  - cbn [scalar_ok eq_key] in *. destruct (F64.is_nan f) eqn:Hn.
    { exists []. split; [done|]. split; [|done]. intros _ id. split; [by intros ?%not_elem_of_nil|naive_solver]. }
    destruct (take_floats_spec m c es n (with_other_zero f) Hbk) as (l1 & -> & H1). cbn [mbind option_bind].
    set (lo := F64.to_i64 (F64.next_down f)). set (hi := F64.to_i64 (F64.next_up f)).
    assert (∀ id k, key_at c id = Some k → converts_to f k = true → F64.is_integer f = true ∧
      inside (Included (ValueKey.Int lo)) (Included (ValueKey.Int hi)) k) as Hconv.
    { intros id k Hk Hcv. destruct k as [j| | | | | | |]; try done. cbn in Hcv. assert (in_i 64 j) as Hj.
      { unfold key_at in Hk. destruct (c !! id) as [w|] eqn:E; [|done]. apply Hc in E. destruct w; try done. cbn in *. congruence. }
      pose proof (F64.eq_integer f j Hv Hj Hcv) as Hint. split; [done|]. apply inside_int. exists j. split; [done|].
      apply F64.equal_between; try done. unfold F64.is_integer in Hint. by apply andb_true_iff in Hint as [? _]. }
    destruct (F64.is_integer f) eqn:Hint.
    + rewrite (entries_in_spec m es n); [|apply Hbk|apply run_ok; [done|]].
      2:{ apply F64.neighbours_ordered; [done|]. unfold F64.is_integer in Hint. by apply andb_true_iff in Hint as [? _]. }
      cbn [mbind option_bind]. rewrite (filter_keys (inside (Included (ValueKey.Int lo)) (Included (ValueKey.Int hi))) (λ k, converts_to f k = true) (int_hit f lo hi)) by done.
      rewrite (ids_of_filter m c es n Hbk (int_hit f lo hi)).
      cbn. eexists. split; [done|]. split; [|done]. intros _ id. rewrite elem_of_app, H1, (elem_of_filtered_ids m c es n Hbk). split.
      { intros [(x & Hx & Hk)|(k & Hk & Hcv & _)]; eexists; (split; [exact Hk|]); (split; [done|]); [left; eauto|by right]. }
      intros (k & Hk & _ & [(x & Hx & ->)|Hcv]); [left; eauto|]. right. exists k. split; [done|]. split; [done|]. by apply (Hconv id k).
    + cbn. eexists. split; [done|]. split; [|done]. intros _ id. rewrite app_nil_r, H1. split.
      { intros (x & Hx & Hk). eexists. split; [exact Hk|]. split; [done|]. left. eauto. }
      intros (k & Hk & _ & [(x & Hx & ->)|Hcv]); [eauto|]. by destruct (Hconv id k Hk Hcv).
Qed.

(** The nodes a scan finds equal to [v]. *)
Definition scan_eq (c : content) (v : Value.t) (id : Z) : Prop := ∃ w, c !! id = Some w ∧ values_equal w v = true.

Lemma scan_eq_keys c v id : contents_ok c → scalar_ok v → answers_eq v = true →
  scan_eq c v id ↔ ∃ k, key_at c id = Some k ∧ eq_key v k.
Proof.
  intros Hc Hv Ha. unfold scan_eq, key_at. split.
  - intros (w & Hw & (k & Hk & Hq)%(equal_keys w v (Hc _ _ Hw) Hv Ha)). exists k. by rewrite Hw.
  - intros (k & Hk & Hq). destruct (c !! id) as [w|] eqn:Hw; [|done]. exists w. split; [done|]. apply (equal_keys w v (Hc _ _ Hw) Hv Ha). eauto.
Qed.

Lemma own_lookup_spec ix p c n v : at_pair ix p c n → contents_ok c → scalar_ok v →
  ∃ l, own_lookup ix p v = Some l ∧ sorted l ∧ (answers_eq v = true → ∀ id, id ∈ l ↔ scan_eq c v id) ∧ (answers_eq v = false → l = []).
Proof.
  intros Hp Hc Hv. pose proof (pair_buckets ix p c n Hp) as Hb. unfold own_lookup. destruct (postings ix p) as [m|].
  - destruct Hb as [es Hbk]. destruct (gather_spec m c es n v Hbk Hc Hv) as (l & -> & Hl & Hno). cbn. eexists. split; [done|]. split; [apply sort_dedup_sorted|]. split.
    + intros Ha id. rewrite elem_of_sort_dedup, Hl, scan_eq_keys by done. done.
    + intros Ha. by rewrite Hno.
  - exists []. split; [done|]. split; [constructor|]. split; [|done]. intros Ha id. rewrite scan_eq_keys by done. setoid_rewrite Hb.
    split; [by intros ?%not_elem_of_nil|naive_solver].
Qed.

(** *** The values the operations write *)

Definition op_ok (o : op) : Prop :=
  match o with
  | OSet _ _ v => scalar_ok v
  | OUpdate _ _ (Some k) => scalar_ok (value_of_key k)
  | _ => True
  end.

Definition spec_ok (s : spec) : Prop := ∀ p, contents_ok (values_of s p).

Lemma contents_insert c id v : contents_ok c → scalar_ok v → contents_ok (<[id := v]> c).
Proof. intros Hc Hv x w. rewrite lookup_insert_Some. intros [[_ <-]|[_ Hw]]; [done|by eapply Hc]. Qed.
Lemma contents_delete c id : contents_ok c → contents_ok (delete id c).
Proof. intros Hc x w [_ Hw]%lookup_delete_Some. by eapply Hc. Qed.

Lemma alter_ok (s : spec) eqs names p (f : content → content) :
  spec_ok s → (∀ c, contents_ok c → contents_ok (f c)) → spec_ok (mk_spec eqs names (alter f p (s_content s))).
Proof.
  intros Hs Hf q. specialize (Hs q). unfold values_of in *. cbn. destruct (decide (q = p)) as [->|]; [|by rewrite lookup_alter_ne].
  rewrite lookup_alter_eq. destruct (s_content s !! p); cbn in *; auto.
Qed.

Lemma delete_pair_ok (s : spec) eqs names p : spec_ok s → spec_ok (mk_spec eqs names (delete p (s_content s))).
Proof.
  intros Hs q. specialize (Hs q). unfold values_of in *. cbn. destruct (decide (q = p)) as [->|]; [by rewrite lookup_delete_eq|by rewrite lookup_delete_ne].
Qed.

Lemma declare_ok (s : spec) eqs names p : spec_ok s → spec_ok (mk_spec eqs names (declare p (s_content s))).
Proof. intros Hs q. unfold values_of. cbn. rewrite values_declare. apply Hs. Qed.

Lemma spec_step_ok o s : spec_ok s → op_ok o → spec_ok (spec_step o s).
Proof.
  intros Hs Ho. destruct s as [eqs names c].
  assert (∀ e n, spec_ok (mk_spec e n c)) as Hsame by (intros e n q; apply (Hs q)).
  destruct o as [p|p|name p|name|p id v|p id new|p id|id]; cbn [spec_step op_ok] in *; pose (s := mk_spec eqs names c).
  - by apply (declare_ok s).
  - destruct (decide (covered names p)); [apply Hsame|by apply (delete_pair_ok s)].
  - destruct (names !! name); [done|]. by apply (declare_ok s).
  - destruct (names !! name); [|done]. case_decide; [apply Hsame|by apply (delete_pair_ok s)].
  - apply (alter_ok s); [done|]. intros. by apply contents_insert.
  - apply (alter_ok s); [done|]. intros. destruct new; [by apply contents_insert|by apply contents_delete].
  - apply (alter_ok s); [done|]. intros. by apply contents_delete.
  - intros p. specialize (Hs p). unfold values_of in *. cbn in *. rewrite lookup_fmap. destruct (c !! p); cbn; [by apply contents_delete|done].
Qed.

Lemma run_ok_values os s : spec_ok s → Forall op_ok os → spec_ok (spec_run os s).
Proof. intros Hs Hos. unfold spec_run. revert s Hs. induction Hos as [|o os Ho _ IH]; intros s Hs; [done|]. apply IH. by apply spec_step_ok. Qed.

Definition no_decls : spec := mk_spec ∅ ∅ ∅.
Lemma no_decls_ok : spec_ok no_decls.
Proof. intros p id v Hv. unfold values_of in Hv. cbn in Hv. by rewrite lookup_empty in Hv. Qed.

(** What any sequence of operations reaches. *)
Lemma run_new os : 2 * Z.of_nat (length os) < 2 ^ 64 → Forall op_ok os →
  ∃ ix n, run os new = Some ix ∧ models ix (spec_run os no_decls) n ∧ under ix = None ∧ spec_ok (spec_run os no_decls).
Proof.
  intros Hn Hos. destruct (index_run_models os new no_decls 0 index_new_models) as (ix & Hr & Hm & Hu); [lia|]. eexists ix, _. split; [done|]. split; [done|]. split; [done|].
  apply run_ok_values; [apply no_decls_ok|done].
Qed.

(** C18: the property index refines what it indexes: after any sequence of
    declarations, withdrawals, writes, key updates and removals, without a panic,
    a pair is maintained exactly while an equality or a range declaration covers
    it, as [Range] while a range index does, and an equality lookup answers, in
    ascending order, exactly the nodes whose last written value a scan finds equal
    to the operand: integers and floats across each other, both zeros, no NaN,
    date-times whatever their offset.  An operand without an index key finds
    nothing. *)
Theorem index_lookup_scan (os : list op) (p : Pair) (v : Value.t) :
  2 * Z.of_nat (length os) < 2 ^ 64 → Forall op_ok os → scalar_ok v →
  let s := spec_run os no_decls in
  let declared := p ∈ s_equality s ∨ covered (s_names s) p in
  ∃ ix l, run os new = Some ix ∧
    is_enabled ix p = bool_decide declared ∧
    kind_of ix p = (if decide declared then Some (if decide (covered (s_names s) p) then Range else Equality) else None) ∧
    lookup ix p v = Some l ∧ sorted l ∧
    (if answers_eq v then ∀ id, id ∈ l ↔ scan_eq (values_of s p) v id else l = []).
Proof.
  intros Hn Hos Hv s declared. destruct (run_new os Hn Hos) as (ix & n & Hr & Hm & Hu & Hok). fold s in Hm, Hok.
  destruct (own_lookup_spec ix p (values_of s p) n v (m_pairs _ _ _ Hm p) (Hok p) Hv) as (l & Hl & Hs & Hin & Hno). exists ix, l. split; [done|].
  assert (p ∈ enabled ix ↔ declared) as Hd by (unfold declared; rewrite (m_declared _ _ _ Hm), (m_equality _ _ _ Hm), (m_names _ _ _ Hm); done).
  split; [by apply bool_decide_ext|]. split.
  - unfold kind_of. rewrite (m_kind _ _ _ Hm), (m_names _ _ _ Hm). destruct (decide (p ∈ enabled ix)), (decide declared); try done; naive_solver.
  - split; [|split; [done|by destruct (answers_eq v); auto]]. destruct ix as [? ? ? ? ? ? ? u]. cbn in Hu. subst u. cbn [lookup under]. by rewrite Hl.
Qed.

(** *** Layers *)

Inductive layer_op := LSet (p : Pair) (id : Z) (v : Value.t) | LRestale (id : Z).

Definition layer_step (o : layer_op) (ix : t) : option t :=
  match o with LSet p id v => set ix p id v | LRestale id => restale ix id end.
Definition layer_run (os : list layer_op) (ix : t) : option t := foldl (λ ix o, ix ← ix; layer_step o ix) (Some ix) os.

(** What the same does to the base's values: a restaled node starts anew. *)
Definition layer_spec (o : layer_op) : op :=
  match o with LSet p id v => OSet p id v | LRestale id => ORemoveNodeAll id end.

(** A layer writes the values of stale nodes only. *)
Fixpoint layer_ops_ok (stale : gset Z) (os : list layer_op) : Prop :=
  match os with
  | [] => True
  | LSet p id v :: os => id ∈ stale ∧ scalar_ok v ∧ layer_ops_ok stale os
  | LRestale id :: os => layer_ops_ok ({[id]} ∪ stale) os
  end.

(** [own]: the layer's values; [s]: the base's values with the layer's over them. *)
Record layer_models (ix base : t) (sb s own : spec) (stale : gset Z) (n : Z) : Prop := {
  lm_under : under ix = Some (base, stale);
  lm_own : models ix own n;
  lm_ok : spec_ok own;
  lm_dom : dom (s_content own) = dom (s_content s);
  lm_values p id : values_of s p !! id = if decide (id ∈ stale) then values_of own p !! id else values_of sb p !! id;
  lm_stale p id : id ∉ stale → values_of own p !! id = None;
}.

Lemma layered_lookup ix base sb s own stale n nb p v :
  layer_models ix base sb s own stale n → models base sb nb → under base = None → spec_ok sb → scalar_ok v →
  ∃ l, lookup ix p v = Some l ∧ sorted l ∧ (answers_eq v = true → ∀ id, id ∈ l ↔ scan_eq (values_of s p) v id).
Proof.
  intros Hl Hb Hub Hsb Hv. destruct (own_lookup_spec ix p _ n v (m_pairs _ _ _ (lm_own _ _ _ _ _ _ _ Hl) p) (lm_ok _ _ _ _ _ _ _ Hl p) Hv) as (own_l & Hown & _ & Hino & _).
  destruct (own_lookup_spec base p _ nb v (m_pairs _ _ _ Hb p) (Hsb p) Hv) as (base_l & Hbase & _ & Hinb & _).
  pose proof (lm_under _ _ _ _ _ _ _ Hl) as Hu. destruct ix as [e1 e2 e3 e4 e5 e6 e7 u]. cbn in Hu. subst u. cbn [lookup under]. rewrite Hown. cbn [mbind option_bind].
  assert (lookup base p v = Some base_l) as ->.
  { destruct base as [f1 f2 f3 f4 f5 f6 f7 ub]. cbn in Hub. subst ub. cbn [lookup under]. by rewrite Hbase. }
  cbn. eexists. split; [done|]. split; [apply sort_dedup_sorted|]. intros Ha id. rewrite elem_of_sort_dedup, elem_of_app, list_elem_of_filter, Hino, Hinb by done.
  unfold scan_eq. rewrite (lm_values _ _ _ _ _ _ _ Hl). pose proof (lm_stale _ _ _ _ _ _ _ Hl p id) as Hst. destruct (decide (id ∈ stale)); naive_solver congruence.
Qed.

Lemma values_set s p id v q x :
  values_of (spec_step (OSet p id v) s) q !! x = if decide (q = p ∧ x = id ∧ p ∈ dom (s_content s)) then Some v else values_of s q !! x.
Proof.
  destruct s as [eqs names c]. unfold values_of. cbn. destruct (decide (q = p)) as [->|Hq].
  - rewrite lookup_alter_eq. destruct (c !! p) as [m|] eqn:E; cbn.
    + rewrite lookup_insert. assert (p ∈ dom c) by (apply elem_of_dom; eauto). destruct (decide (id = x)), (decide (p = p ∧ x = id ∧ p ∈ dom c)); naive_solver.
    + rewrite decide_False; [done|]. intros (_ & _ & [? ?]%elem_of_dom). congruence.
  - rewrite lookup_alter_ne by done. rewrite decide_False by naive_solver. done.
Qed.

Lemma values_remove_all s id q x :
  values_of (spec_step (ORemoveNodeAll id) s) q !! x = if decide (x = id) then None else values_of s q !! x.
Proof.
  destruct s as [eqs names c]. unfold values_of. cbn. rewrite lookup_fmap. destruct (c !! q); cbn; [|by destruct (decide (x = id))].
  rewrite lookup_delete. by destruct (decide (x = id)), (decide (id = x)).
Qed.

Lemma dom_remove_all s id : dom (s_content (spec_step (ORemoveNodeAll id) s)) = dom (s_content s).
Proof. destruct s. cbn. apply dom_fmap_L. Qed.
Lemma dom_set s p id v : dom (s_content (spec_step (OSet p id v) s)) = dom (s_content s).
Proof. destruct s. cbn. apply dom_alter_L. Qed.

Lemma removed_values ids s p x :
  values_of (spec_run (ORemoveNodeAll <$> ids) s) p !! x = (if decide (x ∈ ids) then None else values_of s p !! x) ∧
  dom (s_content (spec_run (ORemoveNodeAll <$> ids) s)) = dom (s_content s).
Proof.
  unfold spec_run. revert s. induction ids as [|id ids IH]; intros s; cbn [fmap list_fmap foldl].
  { by destruct (decide (x ∈ [])) as [[]%not_elem_of_nil|]. }
  destruct (IH (spec_step (ORemoveNodeAll id) s)) as [E D]. unfold flip at 2 4. rewrite E, D, dom_remove_all, values_remove_all. split; [|done].
  destruct (decide (x ∈ ids)), (decide (x ∈ id :: ids)) as [|Hn], (decide (x = id)); try done; set_solver.
Qed.

Lemma layered_init base sb nb stale : models base sb nb →
  layer_models (layered_over base stale) base sb (spec_run (ORemoveNodeAll <$> elements stale) sb)
    (mk_spec (s_equality sb) (s_names sb) ((λ _, ∅) <$> s_content sb)) stale 0.
Proof.
  intros Hb. assert (∀ p, values_of (mk_spec (s_equality sb) (s_names sb) ((λ _, ∅) <$> s_content sb)) p = ∅) as Hv.
  { intros p. unfold values_of. cbn. rewrite lookup_fmap. by destruct (s_content sb !! p). }
  split; [done|..].
  - split; cbn; try done; try apply Hb.
    + by rewrite dom_fmap_L, (m_enabled _ _ _ Hb).
    + intros p. rewrite Hv. by apply empty_ok.
  - intros p. rewrite Hv. intros id v. by rewrite lookup_empty.
  - cbn. rewrite dom_fmap_L. symmetry. apply (removed_values (elements stale) sb ("", "")%string 0).
  - intros p id. destruct (removed_values (elements stale) sb p id) as [-> _]. rewrite Hv, lookup_empty.
    destruct (decide (id ∈ elements stale)) as [Hin|Hin], (decide (id ∈ stale)); try done; by rewrite elem_of_elements in Hin.
  - intros p id _. by rewrite Hv.
Qed.

Lemma restale_models ix base stale s n id : models ix s n → under ix = Some (base, stale) → n + 1 < 2 ^ 64 →
  ∃ ix', restale ix id = Some ix' ∧ models ix' (spec_step (ORemoveNodeAll id) s) (n + 1) ∧ under ix' = Some (base, {[id]} ∪ stale).
Proof.
  intros Hm Hu Hn. unfold restale. rewrite Hu. set (ix1 := mk _ _ _ _ _ _ _ _).
  assert (models ix1 s n) as Hm1 by (destruct Hm; split; done).
  destruct (remove_list_ok (elements (enabled ix1)) ix1 id (values_of s) n) as (ix' & -> & Hd & Hat); [apply NoDup_elements|done| |].
  { intros p. eapply pair_ok_weaken; [apply (m_pairs _ _ _ Hm1)|]. destruct (decide _); lia. }
  exists ix'. split; [done|]. split; [|unfold decls in Hd; by injection Hd]. destruct s as [eqs names c]. cbn [spec_step].
  apply (models_frame ix1 ix' (mk_spec eqs names c) n); [done|done|lia|apply dom_fmap_L|]. intros p. specialize (Hat p). revert Hat.
  unfold values_of. cbn. rewrite lookup_fmap, (m_enabled _ _ _ Hm). cbn. destruct (c !! p) as [m|] eqn:E; cbn.
  - rewrite decide_True; [done|]. apply elem_of_elements, elem_of_dom. eauto.
  - rewrite decide_False; [done|]. intros [? ?]%elem_of_elements%elem_of_dom. congruence.
Qed.

Lemma layer_step_models o ix base sb s own stale n :
  layer_models ix base sb s own stale n → n + 2 < 2 ^ 64 → layer_ops_ok stale [o] →
  ∃ ix', layer_step o ix = Some ix' ∧
    layer_models ix' base sb (spec_step (layer_spec o) s) (spec_step (layer_spec o) own)
      (match o with LRestale id => {[id]} ∪ stale | _ => stale end) (n + 2).
Proof.
  intros [Hu Hm Hok Hdom Hval Hst] Hn Ho. destruct o as [p id v|id]; cbn [layer_step layer_spec layer_ops_ok] in *.
  - destruct Ho as (Hid & Hv & _). destruct (index_step_models (OSet p id v) ix own n Hm Hn) as (ix' & E & Hm' & Hu'). exists ix'. split; [done|]. split.
    + congruence.
    + done.
    + by apply spec_step_ok.
    + by rewrite !dom_set.
    + intros q x. rewrite !values_set, Hval, Hdom. case_decide as Hc; [|done]. destruct Hc as (_ & -> & _). by rewrite decide_True.
    + intros q x Hx. rewrite values_set. rewrite decide_False by naive_solver. by apply Hst.
  - destruct (restale_models ix base stale own n id Hm Hu ltac:(lia)) as (ix' & E & Hm' & Hu'). exists ix'. split; [done|]. split.
    + done.
    + eapply models_weaken; [done|lia].
    + by apply spec_step_ok.
    + by rewrite !dom_remove_all.
    + intros q x. rewrite !values_remove_all, Hval. destruct (decide (x = id)) as [->|Hx]; [by destruct (decide (id ∈ {[id]} ∪ stale)); set_solver|].
      destruct (decide (x ∈ stale)), (decide (x ∈ {[id]} ∪ stale)); try done; set_solver.
    + intros q x Hx. rewrite values_remove_all. destruct (decide (x = id)); [done|]. apply Hst. set_solver.
Qed.

Lemma layer_run_models os ix base sb s own stale n :
  layer_models ix base sb s own stale n → n + 2 * Z.of_nat (length os) < 2 ^ 64 → layer_ops_ok stale os →
  ∃ ix' own' stale' n', layer_run os ix = Some ix' ∧ layer_models ix' base sb (spec_run (layer_spec <$> os) s) own' stale' n'.
Proof.
  unfold layer_run, spec_run. revert ix s own stale n. induction os as [|o os IH]; intros ix s own stale n Hm Hn Hos; cbn [foldl fmap list_fmap length] in *.
  { eauto 10. }
  destruct (layer_step_models o ix base sb s own stale n Hm ltac:(lia)) as (ix1 & E & Hm1).
  { destruct o; cbn in *; naive_solver. }
  cbn [mbind option_bind]. rewrite E. unfold flip at 2. eapply IH; [done|lia|]. destruct o; cbn in *; naive_solver.
Qed.

(** C20: a layered index answers as its base would after the stale nodes were
    re-indexed: over a base reached by any operations, with any set of stale nodes
    and any sequence of restaling nodes and setting stale nodes' values, an
    equality lookup answers, in ascending order, exactly what a scan of the base's
    values, without the stale nodes' and with the layer's in their place, finds. *)
Theorem layered_lookup_scan (os : list op) (stale : gset Z) (ls : list layer_op) (p : Pair) (v : Value.t) :
  2 * Z.of_nat (length os) < 2 ^ 64 → Forall op_ok os → 2 * Z.of_nat (length ls) < 2 ^ 64 → layer_ops_ok stale ls → scalar_ok v →
  let s := spec_run (layer_spec <$> ls) (spec_run (ORemoveNodeAll <$> elements stale) (spec_run os no_decls)) in
  ∃ base ix l, run os new = Some base ∧ layer_run ls (layered_over base stale) = Some ix ∧
    lookup ix p v = Some l ∧ sorted l ∧ (answers_eq v = true → ∀ id, id ∈ l ↔ scan_eq (values_of s p) v id).
Proof.
  intros Hn Hos Hln Hls Hv s. destruct (run_new os Hn Hos) as (base & nb & Hr & Hb & Hub & Hok).
  pose proof (layered_init base _ nb stale Hb) as Hinit.
  destruct (layer_run_models ls _ _ _ _ _ _ _ Hinit Hln Hls) as (ix & own & stale' & n & Hlr & Hlm).
  destruct (layered_lookup ix base _ _ own stale' n nb p v Hlm Hb Hub Hok Hv) as (l & Hl & Hs & Hin). by exists base, ix, l.
Qed.

(** ** An index over ages *)

Definition ages : Pair := ("Person", "age")%string.

(** Two persons of age 2, one as an [Int] and one as the [Float] 2.0, and one that moved on. *)
Definition aging : list op :=
  [OEnable ages; OSet ages 7 (Value.Int 2); OSet ages 3 (Value.Float (2 ^ 62)); OSet ages 5 (Value.Int 2); OSet ages 5 (Value.Str "old")].

Lemma aging_ok : Forall op_ok aging.
Proof. by repeat constructor. Qed.

Lemma index_lookup_scan_witness :
  ∃ ix l, run aging new = Some ix ∧ kind_of ix ages = Some Equality ∧ lookup ix ages (Value.Int 2) = Some l ∧ sorted l ∧ 3 ∈ l ∧ 5 ∉ l.
Proof.
  destruct (index_lookup_scan aging ages (Value.Int 2) eq_refl aging_ok) as (ix & l & Hr & _ & Hk & Hl & Hs & Hin); [by vm_compute|].
  exists ix, l. split; [exact Hr|]. split; [rewrite Hk; reflexivity|]. split; [exact Hl|]. split; [exact Hs|]. split.
  - apply Hin. eexists. split; reflexivity.
  - intros Hn. apply Hin in Hn. destruct Hn as (w & Hw & He). vm_compute in Hw. injection Hw as <-. discriminate He.
Defined.

Example aging_lookup : (run aging new ≫= λ ix, lookup ix ages (Value.Int 2)) = Some [3; 7].
Proof. vm_compute. reflexivity. Qed.

(** A layer in which node 7 turned 3. *)
Lemma layered_lookup_scan_witness :
  ∃ base ix l, run aging new = Some base ∧ layer_run [LRestale 7; LSet ages 7 (Value.Int 3)] (layered_over base ∅) = Some ix ∧
    lookup ix ages (Value.Int 2) = Some l ∧ 3 ∈ l ∧ 7 ∉ l.
Proof.
  destruct (layered_lookup_scan aging ∅ [LRestale 7; LSet ages 7 (Value.Int 3)] ages (Value.Int 2) eq_refl aging_ok eq_refl) as (base & ix & l & Hb & Hr & Hl & _ & Hin).
  - split; [set_solver|]. by split; [vm_compute|].
  - by vm_compute.
  - exists base, ix, l. split; [exact Hb|]. split; [exact Hr|]. split; [exact Hl|]. specialize (Hin eq_refl). split.
    + apply Hin. exists (Value.Float (2 ^ 62)). split; reflexivity.
    + intros Hn. apply Hin in Hn. destruct Hn as (w & Hw & He). vm_compute in Hw. injection Hw as <-. discriminate He.
Defined.

End RangeLookup.
