(* ===== verification/RangeScan.v ===== *)
(** * The index over scalar properties: ranges against the scan

    The range and prefix lookups of [RangeLookup.v] compared with the scan: the
    answers are exactly the nodes whose value [eval_cmp] puts within the limits,
    in value order, for every class of values, numbers across [Int] and [Float]
    included. *)

From S2P Require Import Prelude Order Assoc CowMap CowMapIter IdSet Utf8 Types Float64 ValueOps RangeIndex RangeLookup.

Module RangeScan.
Import UnifiedIndex RangeLookup.

(** ** Ranges as the scan judges them *)

(** A value within the limits: what [eval_cmp] says of [field >= lo], [field > lo],
    [field <= hi], [field < hi]. *)
Definition above (lo : Limit) (w : Value.t) : bool :=
  match lo with None => true | Some (b, incl) => eval_cmp (if incl : bool then OpGe else OpGt) w b end.
Definition below (hi : Limit) (w : Value.t) : bool :=
  match hi with None => true | Some (b, incl) => eval_cmp (if incl : bool then OpLe else OpLt) w b end.

Definition scan_range (c : content) (lo hi : Limit) (id : Z) : Prop :=
  ∃ w, c !! id = Some w ∧ is_Some (ValueKey.from_value w) ∧ above lo w = true ∧ below hi w = true.

(** The order of values, the date-times of one instant alike, and the order of their keys. *)
Definition value_order (w w' : Value.t) : comparison :=
  match w, w' with
  | Value.DateTime u _, Value.DateTime u' _ => cmp u u'
  | _, _ => cmp_values w w'
  end.
Definition key_order (w w' : Value.t) : comparison :=
  match ValueKey.from_value w, ValueKey.from_value w' with Some k, Some k' => cmp k k' | _, _ => Eq end.

(** The order of the answers: by value, without limits by key. *)
Definition range_order (lo hi : Limit) : Value.t → Value.t → comparison :=
  match lo, hi with None, None => key_order | _, _ => value_order end.

Definition before (c : content) (lo hi : Limit) (i j : Z) : Prop :=
  ∃ wi wj, c !! i = Some wi ∧ c !! j = Some wj ∧ then_cmp (range_order lo hi wi wj) (cmp i j) = Lt.

Lemma above_admits b incl w : above (Some (b, incl)) w = is_orderable_pair w b && admits (cmp_values w b) true incl.
Proof. unfold above. destruct incl; unfold eval_cmp; destruct (is_orderable_pair w b); cbn; try done; by destruct (cmp_values w b). Qed.
Lemma below_admits b incl w : below (Some (b, incl)) w = is_orderable_pair w b && admits (cmp_values w b) false incl.
Proof. unfold below. destruct incl; unfold eval_cmp; destruct (is_orderable_pair w b); cbn; try done; by destruct (cmp_values w b). Qed.

Lemma sorted_second {A} (S : A * Z → A * Z → Prop) (R : Z → Z → Prop) (l : list (A * Z)) :
  StronglySorted S l → (∀ a b, a ∈ l → b ∈ l → S a b → R a.2 b.2) → StronglySorted R l.*2.
Proof.
  induction 1 as [|a l Hs IH Ha]; intros HR; [constructor|]. cbn [fmap list_fmap]. constructor.
  - apply IH. intros x y Hx Hy. apply HR; by right.
  - rewrite Forall_forall in Ha. apply Forall_forall. intros i (b & -> & Hb)%list_elem_of_fmap. apply HR; [by left|by right|by apply Ha].
Qed.

(** Pairs of keys and ids in key order are in the order of the answers. *)
Lemma pairs_before c lo hi (prs : list (ValueKey.t * Z)) :
  sorted prs →
  (∀ k id, (k, id) ∈ prs → key_at c id = Some k) →
  (∀ i j wi wj ki kj, (ki, i) ∈ prs → (kj, j) ∈ prs → c !! i = Some wi → c !! j = Some wj → range_order lo hi wi wj = cmp ki kj) →
  StronglySorted (before c lo hi) prs.*2.
Proof.
  intros Hs Hk Ho. eapply sorted_second; [exact Hs|]. intros [ki i] [kj j] Hi Hj Hlt. cbn. pose proof (Hk _ _ Hi) as Ki. pose proof (Hk _ _ Hj) as Kj.
  unfold key_at in Ki, Kj. destruct (c !! i) as [wi|] eqn:Ei; [|done]. destruct (c !! j) as [wj|] eqn:Ej; [|done]. exists wi, wj. split; [done|]. split; [done|].
  rewrite (Ho i j wi wj ki kj) by done. revert Hlt. unfold klt, cmp at 1, prod_ord. cbn [fst snd]. by destruct (cmp ki kj).
Qed.

(** *** Classes whose keys order as the values do *)

Definition key_ordered (a : OrderClass) : bool := match a with CNumeric | CDateTime => false | _ => true end.

Lemma class_key a v : order_class v = Some a → is_Some (ValueKey.from_value v).
Proof. by destruct v. Qed.

Lemma key_orders a w v kv : order_class v = Some a → key_ordered a = true → ValueKey.from_value v = Some kv →
  (is_orderable_pair w v = true ↔ ∃ kw, ValueKey.from_value w = Some kw ∧ same_variant kw kv = true) ∧
  ∀ kw, ValueKey.from_value w = Some kw → same_variant kw kv = true → cmp_values w v = cmp kw kv ∧ value_order w v = cmp kw kv.
Proof.
  intros Ha Hk Hv. destruct v; cbn in *; simplify_eq; try done; destruct w; cbn; unfold same_variant; cbn; (split; [naive_solver|]); intros kw Hw Hs; by simplify_eq.
Qed.

Lemma take_while_filter (f : ValueKey.t → bool) (es : list (ValueKey.t * IdSet.t)) :
  sorted es.*1 → (∀ k k', k ∈ es.*1 → k' ∈ es.*1 → k <ₖ k' → f k' = true → f k = true) →
  take_while (λ e, f e.1) es = filter (λ e, f e.1 = true) es.
Proof.
  induction es as [|e es IH]; [done|]. cbn [fmap list_fmap take_while]. intros [Hs Hlt]%sorted_cons Hf. rewrite filter_cons.
  destruct (f e.1) eqn:E; [rewrite decide_True by done; f_equal; apply IH; [done|]; intros k k' Hk Hk'; apply Hf; by right|].
  rewrite decide_False by done. symmetry. apply (filter_none (λ e, f e.1 = true)). intros e' He' Hf'.
  rewrite (Hf e.1 e'.1) in E; [done|by left|right; apply list_elem_of_fmap; by exists e'|apply Hlt, list_elem_of_fmap; by exists e'|done].
Qed.

Lemma admits_lower {K} `{RustOrdLaws K} (k b : K) incl : admits (cmp k b) true incl = true ↔ if incl then b ≤ₖ k else b <ₖ k.
Proof. unfold kle, klt. rewrite (cmp_antisym k b). destruct incl, (cmp k b); cbn; naive_solver. Qed.
Lemma admits_upper {K} `{RustOrdLaws K} (k b : K) incl : admits (cmp k b) false incl = true ↔ if incl then k ≤ₖ b else k <ₖ b.
Proof. unfold kle, klt. destruct incl, (cmp k b); cbn; naive_solver. Qed.

Definition limit_class (a : OrderClass) (b : Limit) : Prop := match b with None => True | Some (v, _) => order_class v = Some a ∧ scalar_ok v end.

(** A key within a limit given as a key. *)
Definition key_admits (b : option (ValueKey.t * bool)) (lower : bool) (k : ValueKey.t) : bool :=
  match b with None => true | Some (kb, incl) => same_variant k kb && admits (cmp k kb) lower incl end.

Lemma limit_key a b : limit_class a b → key_ordered a = true →
  ∃ kb, map_limit ValueKey.from_value b = Some kb ∧ (kb = None ↔ b = None) ∧
    (∀ k incl, kb = Some (k, incl) → ∃ v, b = Some (v, incl) ∧ ValueKey.from_value v = Some k) ∧
    ∀ w kw, ValueKey.from_value w = Some kw → above b w = key_admits kb true kw ∧ below b w = key_admits kb false kw.
Proof.
  destruct b as [[v incl]|]; [|exists None; naive_solver]. intros [Hc _] Ha. destruct (class_key a v Hc) as [kv Hkv]. cbn [map_limit]. rewrite Hkv. cbn [mbind option_bind].
  eexists. split; [done|]. split; [done|]. split; [naive_solver|]. intros w kw Hw. destruct (key_orders a w v kv Hc Ha Hkv) as [Ho Hcmp].
  rewrite above_admits, below_admits. unfold key_admits. destruct (same_variant kw kv) eqn:Es.
  - destruct (Hcmp kw Hw Es) as [-> _]. by rewrite (proj2 Ho) by eauto.
  - destruct (is_orderable_pair w v) eqn:Eo; [|done]. destruct (proj1 Ho eq_refl) as (kw' & Hw' & ?). congruence.
Qed.

Lemma same_variant_sym a b : same_variant a b = same_variant b a.
Proof. apply Z.eqb_sym. Qed.
Lemma same_variant_trans a b c : same_variant a b = true → same_variant b c = same_variant a c.
Proof. unfold same_variant. intros ->%Z.eqb_eq. done. Qed.

(** The keys of values within their types are at least their variant's minimum. *)
Lemma variant_min_le w k k' : scalar_ok w → ValueKey.from_value w = Some k → same_variant k' k = true → variant_min k' ≤ₖ k.
Proof.
  unfold same_variant. intros Hw Hk Hs%Z.eqb_eq. destruct w; cbn in Hk; simplify_eq; destruct k'; try done; cbn [variant_min scalar_ok] in *; unfold in_i, in_u in Hw.
  - apply (kle_Z _ _ ValueKey.Int); [done|]. unfold i64_min. lia.
  - apply (kle_Z _ _ ValueKey.FloatBits); [done|]. lia.
  - unfold kle, cmp, key_ord, cmp, string_ord, cmp, list_ord. cbn. by destruct (as_bytes s).
  - by destruct b.
  - apply (kle_Z _ _ ValueKey.DateDays); [done|]. lia.
  - apply (kle_Z _ _ ValueKey.LocalDateTimeMicros); [done|]. unfold i64_min. lia.
  - apply (kle_Z _ _ ValueKey.DateTimeMicrosUtc); [done|]. unfold i64_min. lia.
  - unfold kle, cmp, key_ord, cmp, list_ord. by destruct bytes.
Qed.

(** The start and end of [key_range], for the keys of its variant. *)
Lemma start_admits lo variant k : variant_min variant ≤ₖ k → same_variant k variant = true →
  (∀ b incl, lo = Some (b, incl) → same_variant b variant = true) →
  CowMapIter.past_start (match lo with Some b => to_bound b | None => Included (variant_min variant) end) k = negb (key_admits lo true k).
Proof.
  intros Hmin Hk Hlo. destruct lo as [[b incl]|]; cbn [key_admits].
  - specialize (Hlo b incl eq_refl). rewrite same_variant_sym in Hlo. rewrite <-(same_variant_trans k variant b Hk), Hlo. cbn [andb].
    pose proof (admits_lower k b incl) as Ha. unfold to_bound. destruct incl; cbn; destruct (admits _ _ _); cbn;
      [apply bool_decide_eq_false_2; rewrite not_klt; by apply Ha|apply bool_decide_eq_true_2; rewrite <-not_kle; intros ?%Ha; done
      |apply bool_decide_eq_false_2; rewrite not_kle; by apply Ha|apply bool_decide_eq_true_2; rewrite <-not_klt; intros ?%Ha; done].
  - cbn. apply bool_decide_eq_false_2. by rewrite not_klt.
Qed.

Lemma end_admits hi variant k : same_variant k variant = true →
  (∀ b incl, hi = Some (b, incl) → same_variant b variant = true) →
  CowMapIter.past_end (match hi with Some b => to_bound b | None => Unbounded end) k = negb (key_admits hi false k).
Proof.
  intros Hk Hhi. destruct hi as [[b incl]|]; cbn [key_admits]; [|done].
  specialize (Hhi b incl eq_refl). rewrite same_variant_sym in Hhi. rewrite <-(same_variant_trans k variant b Hk), Hhi. cbn [andb].
  pose proof (admits_upper k b incl) as Ha. unfold to_bound. destruct incl; cbn; destruct (admits _ _ _); cbn;
    [apply bool_decide_eq_false_2; rewrite not_klt; by apply Ha|apply bool_decide_eq_true_2; rewrite <-not_kle; intros ?%Ha; done
    |apply bool_decide_eq_false_2; rewrite not_kle; by apply Ha|apply bool_decide_eq_true_2; rewrite <-not_klt; intros ?%Ha; done].
Qed.

Lemma inverted_none lo hi k : inverted lo hi = true → key_admits lo true k = true → key_admits hi false k = false.
Proof.
  destruct lo as [[l li]|], hi as [[h hincl]|]; try done. cbn. intros Hi [_ Hl]%andb_true_iff. apply not_true_iff_false. intros [_ Hh]%andb_true_iff.
  apply admits_lower in Hl. apply admits_upper in Hh.
  assert (l ≤ₖ k) as Hl' by (destruct li; [done|by apply klt_kle]). assert (k ≤ₖ h) as Hh' by (destruct hincl; [done|by apply klt_kle]).
  apply orb_true_iff in Hi as [Hi%bool_decide_eq_true|[->%bool_decide_eq_true Hn]%andb_true_iff].
  - apply (klt_irrefl h). eapply klt_kle_trans; [exact Hi|]. by eapply kle_trans.
  - apply (klt_irrefl h). destruct li; [destruct hincl; [done|by eapply kle_klt_trans]|by eapply klt_kle_trans].
Qed.

Lemma bounds_ok lo hi variant : inverted lo hi = false → (∀ b incl, hi = Some (b, incl) → variant_min variant ≤ₖ b) →
  CowMapIter.range_ok (match lo with Some b => to_bound b | None => Included (variant_min variant) end)
    (match hi with Some b => to_bound b | None => Unbounded end) = true.
Proof.
  intros Hi Hmin. destruct lo as [[l li]|], hi as [[h hincl]|]; unfold to_bound; cbn [fst snd]; [|by destruct li| |done].
  - cbn in Hi. apply orb_false_iff in Hi as [Hhl%bool_decide_eq_false He]. apply not_klt, kle_lt_eq in Hhl as [Hlt| ->].
    + destruct li, hincl; cbn; rewrite bool_decide_eq_true_2 by done; done.
    + rewrite bool_decide_eq_true_2 in He by done. destruct li, hincl; try done. cbn. rewrite (bool_decide_eq_true_2 (cmp h h = Eq)) by apply cmp_refl. apply orb_true_r.
  - specialize (Hmin h hincl eq_refl). apply kle_lt_eq in Hmin as [Hlt|He]; destruct hincl; cbn; try (by rewrite bool_decide_eq_true_2); rewrite (bool_decide_eq_true_2 (cmp _ h = Eq)) by by apply cmp_eq. all: apply orb_true_r.
Qed.

Lemma range_order_value lo hi : ¬ (lo = None ∧ hi = None) → range_order lo hi = value_order.
Proof. intros Hn. destruct lo, hi; try done. by destruct Hn. Qed.

Lemma class_variant a v v' k k' : key_ordered a = true → order_class v = Some a → ValueKey.from_value v = Some k → ValueKey.from_value v' = Some k' →
  order_class v' = Some a ↔ same_variant k' k = true.
Proof.
  intros Ha Hv Hk Hk'. unfold same_variant. destruct v; cbn in *; simplify_eq; try done; destruct v'; cbn in *; simplify_eq; cbn; naive_solver.
Qed.

(** The variant a key range is about. *)
Definition range_variant (lo hi : option (ValueKey.t * bool)) : option ValueKey.t := fst <$> match lo with Some _ => lo | None => hi end.

Lemma limits_variant a lo hi klo khi : key_ordered a = true → limit_class a lo → limit_class a hi → ¬ (lo = None ∧ hi = None) →
  map_limit ValueKey.from_value lo = Some klo → map_limit ValueKey.from_value hi = Some khi →
  ∃ v variant, range_variant klo khi = Some variant ∧ order_class v = Some a ∧ ValueKey.from_value v = Some variant ∧
    (∀ b incl, klo = Some (b, incl) ∨ khi = Some (b, incl) → same_variant b variant = true ∧ variant_min variant ≤ₖ b).
Proof.
  intros Ha Hlo Hhi Hn El Eh.
  assert (∀ b kb x incl, limit_class a b → map_limit ValueKey.from_value b = Some kb → kb = Some (x, incl) →
    ∃ v, order_class v = Some a ∧ scalar_ok v ∧ ValueKey.from_value v = Some x) as Hb.
  { intros [[v i]|] kb x incl Hb E ->; cbn in *; [|done]. destruct Hb as [Hc Hs]. destruct (ValueKey.from_value v) eqn:Ev; cbn in E; [|done]. simplify_eq. eauto. }
  assert (∃ variant, range_variant klo khi = Some variant ∧ ∃ incl, klo = Some (variant, incl) ∨ khi = Some (variant, incl)) as (variant & Ev & incl & Hv).
  { unfold range_variant. destruct klo as [[k i]|]; [cbn; eauto 10|]. destruct khi as [[k i]|]; [cbn; eauto 10|]. destruct Hn.
    destruct lo as [[v ?]|]; [cbn in El; by destruct (ValueKey.from_value v)|]. destruct hi as [[v ?]|]; [cbn in Eh; by destruct (ValueKey.from_value v)|done]. }
  assert (∀ x i, klo = Some (x, i) ∨ khi = Some (x, i) → ∃ v, order_class v = Some a ∧ scalar_ok v ∧ ValueKey.from_value v = Some x) as Hx.
  { intros x i [->| ->]; [by eapply (Hb lo)|by eapply (Hb hi)]. }
  destruct (Hx variant incl Hv) as (v & Hc & _ & Hk). exists v, variant. split; [done|]. split; [done|]. split; [done|]. intros b i Hbi.
  destruct (Hx b i Hbi) as (v' & Hc' & Hs' & Hk'). pose proof (proj1 (class_variant a v v' variant b Ha Hc Hk Hk') Hc') as Hsame. split; [done|].
  eapply variant_min_le; [done..|]. by rewrite same_variant_sym.
Qed.

Definition in_variant_run (variant : ValueKey.t) (start end_ : Bound ValueKey.t) (k : ValueKey.t) : Prop :=
  same_variant k variant = true ∧ inside start end_ k.
#[export] Instance in_variant_run_dec variant start end_ k : Decision (in_variant_run variant start end_ k).
Proof. unfold in_variant_run. apply _. Defined.

(** From a start of the variant on, the keys of the variant come first. *)
Lemma take_variant variant start end_ (es : list (ValueKey.t * IdSet.t)) s : sorted es.*1 → start = Included s ∨ start = Excluded s → same_variant s variant = true →
  take_while (λ e, same_variant e.1 variant) (filter (λ e, inside start end_ e.1) es) = filter (λ e, in_variant_run variant start end_ e.1) es.
Proof.
  intros Hs Hst Hv. rewrite (take_while_filter (λ k, same_variant k variant)); [by apply (filter_keys (inside start end_) (λ k, same_variant k variant = true))|by apply sorted_fmap_filter|].
  intros k k' Hk _ Hlt%klt_kle%kle_rank Hk'. apply list_elem_of_fmap in Hk as (e & -> & [[Hin _] _]%list_elem_of_filter).
  assert (s ≤ₖ e.1) as Hle%kle_rank.
  { destruct Hst as [->| ->]; cbn in Hin; apply bool_decide_eq_false in Hin; [by apply not_klt|by apply klt_kle, not_kle]. }
  unfold same_variant in *. rewrite Z.eqb_eq in *. lia.
Qed.

(** What a lookup with limits answers: pairs of keys and nodes in order, exactly those the scan admits. *)
Definition scan_pairs (c : content) (lo hi : Limit) (prs : list (ValueKey.t * Z)) : Prop :=
  ∀ k id, (k, id) ∈ prs ↔ ∃ w, c !! id = Some w ∧ ValueKey.from_value w = Some k ∧ above lo w = true ∧ below hi w = true.

Lemma key_at_value c id k : key_at c id = Some k ↔ ∃ w, c !! id = Some w ∧ ValueKey.from_value w = Some k.
Proof. unfold key_at. destruct (c !! id) as [w|]; cbn; naive_solver. Qed.

Lemma key_range_spec m c es n a lo hi :
  buckets m c es n → contents_ok c → key_ordered a = true → limit_class a lo → limit_class a hi → ¬ (lo = None ∧ hi = None) →
  ∃ prs, key_range m lo hi = Some prs.*2 ∧ sorted prs ∧ scan_pairs c lo hi prs ∧ ∀ k id, (k, id) ∈ prs → ∃ v kv, order_class v = Some a ∧ ValueKey.from_value v = Some kv ∧ same_variant k kv = true.
Proof.
  intros Hbk Hc Ha Hlo Hhi Hn. destruct (limit_key a lo Hlo Ha) as (klo & El & Hl0 & _ & Hl). destruct (limit_key a hi Hhi Ha) as (khi & Eh & Hh0 & _ & Hh).
  destruct (limits_variant a lo hi klo khi Ha Hlo Hhi Hn El Eh) as (v & variant & Ev & Hcv & Hkv & Hb).
  unfold key_range. rewrite El, Eh. cbn [mbind option_bind]. destruct (inverted klo khi) eqn:Hinv.
  { exists []. split; [done|]. split; [constructor|]. split; [|by intros ? ? ?%not_elem_of_nil]. intros k id. split; [by intros ?%not_elem_of_nil|].
    intros (w & _ & Hk & Hab & Hbe). destruct (Hl w k Hk) as [E1 _]. destruct (Hh w k Hk) as [_ E2]. rewrite E1 in Hab. rewrite E2 in Hbe.
    by rewrite (inverted_none klo khi k) in Hbe. }
  unfold range_variant in Ev. rewrite Ev. cbn [mbind option_bind].
  set (start := match klo with Some b => to_bound b | None => Included (variant_min variant) end).
  set (end_ := match khi with Some b => to_bound b | None => Unbounded end).
  rewrite (entries_in_spec m es n start end_); [|apply Hbk|apply bounds_ok; [done|]; intros b i E; by apply (Hb b i); right]. cbn [mbind option_bind].
  pose proof (CowMap.holds_sorted _ _ _ (bk_holds _ _ _ _ Hbk)) as Hs.
  assert (∃ s, (start = Included s ∨ start = Excluded s) ∧ same_variant s variant = true) as (s & Hst & Hsv).
  { unfold start. destruct klo as [[b []]|]; cbn; [exists b|exists b|exists (variant_min variant)]; (split; [eauto|]); [by apply (Hb b true); left|by apply (Hb b false); left|].
    unfold same_variant. apply Z.eqb_eq. by destruct variant. }
  rewrite (take_variant variant start end_ es s Hs Hst Hsv), (ids_of_filter m c es n Hbk (in_variant_run variant start end_)).
  eexists. split; [done|]. split; [by eapply filtered_sorted|]. split.
  - intros k id. rewrite (elem_of_filtered m c es n Hbk), key_at_value.
    assert (∀ w, c !! id = Some w → ValueKey.from_value w = Some k → in_variant_run variant start end_ k ↔ above lo w = true ∧ below hi w = true) as Hw.
    { intros w Hcw Hkw. destruct (Hl w k Hkw) as [-> _]. destruct (Hh w k Hkw) as [_ ->]. unfold in_variant_run, inside. destruct (same_variant k variant) eqn:Esv.
      - unfold start, end_. rewrite (start_admits klo variant k), (end_admits khi variant k); try done.
        + rewrite !negb_false_iff. tauto.
        + intros b i E. by apply (Hb b i); right.
        + eapply variant_min_le; [by eapply Hc|done|]. by rewrite same_variant_sym.
        + intros b i E. by apply (Hb b i); left.
      - split; [by intros [? _]|]. intros [H1 H2]. exfalso. unfold range_variant in Ev.
        assert (∀ b i, same_variant k b && i = true → same_variant b variant = true → False) as Hcon.
        { intros b i [E1 _]%andb_true_iff E2. rewrite (same_variant_trans k b variant E1) in E2. congruence. }
        destruct klo as [[b i]|]; [eapply Hcon; [exact H1|by apply (Hb b i); left]|]. destruct khi as [[b i]|]; [eapply Hcon; [exact H2|by apply (Hb b i); right]|done]. }
    split.
    + intros [Hr (w & Hcw & Hkw)]. exists w. split; [done|]. split; [done|]. by apply Hw.
    + intros (w & Hcw & Hkw & Hr). split; [by apply (Hw w)|eauto].
  - intros k id [[Hk _] _]%(elem_of_filtered m c es n Hbk). eauto.
Qed.

Lemma key_range_order m c es n a lo hi :
  buckets m c es n → contents_ok c → key_ordered a = true → limit_class a lo → limit_class a hi → ¬ (lo = None ∧ hi = None) →
  ∃ l, key_range m lo hi = Some l ∧ StronglySorted (before c lo hi) l ∧ ∀ id, id ∈ l ↔ scan_range c lo hi id.
Proof.
  intros Hbk Hc Ha Hlo Hhi Hn. destruct (key_range_spec m c es n a lo hi Hbk Hc Ha Hlo Hhi Hn) as (prs & -> & Hs & Hsc & Hv).
  eexists. split; [done|]. split.
  - apply pairs_before; [done|intros k id Hk; apply key_at_value; apply Hsc in Hk; naive_solver|]. intros i j wi wj ki kj Hi Hj Ei Ej. rewrite range_order_value by done.
    apply Hsc in Hi as Hi'. apply Hsc in Hj as Hj'. destruct Hi' as (? & ? & Ki & _). destruct Hj' as (? & ? & Kj & _). simplify_eq.
    destruct (Hv _ _ Hi) as (v & kv & Hcv & Hkv & Hsi). destruct (Hv _ _ Hj) as (v2 & kv2 & Hcv2 & Hkv2 & Hsj).
    pose proof (proj2 (class_variant a v wi kv ki Ha Hcv Hkv Ki) Hsi) as Hci. pose proof (proj2 (class_variant a v2 wj kv2 kj Ha Hcv2 Hkv2 Kj) Hsj) as Hcj.
    destruct (key_orders a wi wj kj Hcj Ha Kj) as [_ Ho]. apply (Ho ki Ki). by apply (class_variant a wj wi kj ki Ha Hcj Kj Ki).
  - intros id. rewrite list_elem_of_fmap. unfold scan_range. split.
    + intros ([k x] & -> & (w & Hw & Hk & ? & ?)%Hsc). exists w. split_and!; [done|by eexists|done|done].
    + intros (w & Hw & [k Hk] & ? & ?). exists (k, id). split; [done|]. apply Hsc. eauto 10.
Qed.

(** *** Numbers *)

(** A hit of a run: a key of the run whose number is within the limits. *)
Definition numbered (number : ValueKey.t → option Z) (within : Z → bool) (k : ValueKey.t) : bool :=
  match number k with Some x => within x | None => false end.
Definition hit_key (number : ValueKey.t → option Z) (within : Z → bool) (start end_ : ValueKey.t) (k : ValueKey.t) : Prop :=
  numbered number within k = true ∧ inside (Included start) (Included end_) k.
#[export] Instance hit_key_dec number within start end_ k : Decision (hit_key number within start end_ k).
Proof. unfold hit_key. apply _. Defined.

Definition numbered_pair (number : ValueKey.t → option Z) (e : ValueKey.t * Z) : Z * Z := (default 0 (number e.1), e.2).

Lemma hits_in_spec m c es n number within start end_ : buckets m c es n → start ≤ₖ end_ →
  hits_in m number within start end_ = Some (numbered_pair number <$> pairs_of (filter (λ e, hit_key number within start end_ e.1) es)).
Proof.
  intros Hbk Hle. unfold hits_in. rewrite (entries_in_spec m es n); [|apply Hbk|rewrite range_ok_incl; by apply bool_decide_eq_true_2]. cbn [mbind option_bind].
  rewrite (flat_map_spec _ (λ e, if numbered number within e.1 then pair (default 0 (number e.1)) <$> bucket_ids e else [])).
  - f_equal. rewrite <-(filter_keys (inside (Included start) (Included end_)) (λ k, numbered number within k = true) (hit_key number within start end_) es) by done.
    induction (filter (λ e, inside (Included start) (Included end_) e.1) es) as [|e l IH]; [done|]. cbn [mbind list_bind]. rewrite filter_cons, IH. destruct (numbered number within e.1) eqn:E.
    + rewrite decide_True by done. unfold pairs_of. cbn [mbind list_bind]. rewrite fmap_app. f_equal. rewrite <-list_fmap_compose. apply list_fmap_ext. done.
    + by rewrite decide_False.
  - intros e [_ He]%list_elem_of_filter. unfold bucket_hits, numbered. destruct (number e.1); [|done]. destruct (within z); [|done]. by rewrite (bk_iter _ _ _ _ Hbk e He).
Qed.

(** Pairs of disjoint sets of keys name each node once. *)
Lemma pairs_NoDup m c es n (P : ValueKey.t → Prop) `{!∀ k, Decision (P k)} : buckets m c es n → NoDup (pairs_of (filter (λ e, P e.1) es)).
Proof. intros Hbk. eapply sorted_NoDup, (filtered_sorted m c es n Hbk P). Qed.

Lemma numbered_NoDup c number (prs : list (ValueKey.t * Z)) : NoDup prs → (∀ k id, (k, id) ∈ prs → key_at c id = Some k) → NoDup (numbered_pair number <$> prs).
Proof.
  intros Hnd Hk. apply NoDup_fmap_2_strong; [|done]. intros [k i] [k' j] Hi Hj [= _ ->]. apply Hk in Hi, Hj. congruence.
Qed.

(** A numeric limit is a float; a number is compared with it, anything else is outside it. *)
Lemma number_limit b : limit_class CNumeric b →
  ∃ nb, map_limit as_number b = Some nb ∧ (∀ x incl, nb = Some (x, incl) → in_u 64 x) ∧
    (∀ w x, as_number w = Some x →
       above b w = match nb with None => true | Some (y, incl) => admits (F64.total_cmp x y) true incl end ∧
       below b w = match nb with None => true | Some (y, incl) => admits (F64.total_cmp x y) false incl end) ∧
    (∀ w, as_number w = None → b ≠ None → above b w = false ∧ below b w = false).
Proof.
  destruct b as [[v incl]|]; [|exists None; naive_solver]. intros [Hc Hs].
  assert (∃ y, as_number v = Some y ∧ in_u 64 y) as (y & Ey & Hy).
  { destruct v; try done; cbn in *; [|eauto]. eexists. split; [done|]. by apply F64.of_i64_spec. }
  cbn [map_limit]. rewrite Ey. cbn [mbind option_bind]. eexists. split; [done|]. split; [naive_solver|]. split.
  - intros w x Hx. rewrite above_admits, below_admits. destruct w; try done; destruct v; try done; cbn in *; simplify_eq; done.
  - intros w Hw _. rewrite above_admits, below_admits. destruct w; try done; destruct v; done.
Qed.

Section numbers.
Context (lo hi : option (Z * bool)).
Context (Hlo : ∀ x incl, lo = Some (x, incl) → in_u 64 x) (Hhi : ∀ x incl, hi = Some (x, incl) → in_u 64 x).

Definition within_numbers (x : Z) : bool := admitted (F64.total_cmp x) lo hi.

Lemma within_keys x : in_u 64 x → within_numbers x = true →
  (∀ b incl, lo = Some (b, incl) → F64.key b ≤ F64.key x) ∧ (∀ b incl, hi = Some (b, incl) → F64.key x ≤ F64.key b).
Proof.
  intros Hx [H1 H2]%andb_true_iff. split; intros b incl E; subst.
  - rewrite F64.total_cmp_key in H1 by eauto. destruct (Z.compare_spec (F64.key x) (F64.key b)); [lia|done|lia].
  - rewrite F64.total_cmp_key in H2 by eauto. destruct (Z.compare_spec (F64.key x) (F64.key b)); [lia|lia|done].
Qed.

Lemma int_run j : in_i 64 j → within_numbers (F64.of_i64 j) = true → ∃ a b, int_lo lo = Some a ∧ int_hi hi = Some b ∧ a ≤ j ≤ b.
Proof.
  intros Hj Hw. destruct (F64.of_i64_spec j Hj) as (Hx & _). destruct (within_keys _ Hx Hw) as [H1 H2].
  assert (∃ a, int_lo lo = Some a ∧ a ≤ j) as (a & Ea & Ha).
  { unfold int_lo. destruct lo as [[b incl]|]; [|eexists; split; [done|]; unfold in_i, i64_min in *; lia]. specialize (H1 b incl eq_refl). pose proof (Hlo b incl eq_refl) as Hb.
    destruct (F64.is_nan b) eqn:Hn.
    - pose proof (F64.nan_key b Hb Hn j Hj). destruct (F64.neg b); [|lia]. eexists. split; [done|]. unfold in_i, i64_min in *. lia.
    - eexists. split; [done|]. apply Z.nlt_ge. intros Hlt. pose proof (F64.below_floor b j Hb Hn Hj Hlt). lia. }
  assert (∃ b, int_hi hi = Some b ∧ j ≤ b) as (b & Eb & Hb); [|eauto 10].
  unfold int_hi. destruct hi as [[b incl]|]; [|eexists; split; [done|]; unfold in_i, i64_max in *; lia]. specialize (H2 b incl eq_refl). pose proof (Hhi b incl eq_refl) as Hb.
  destruct (F64.is_nan b) eqn:Hn.
  - pose proof (F64.nan_key b Hb Hn j Hj). destruct (F64.neg b); cbn; [lia|]. eexists. split; [done|]. unfold in_i, i64_max in *. lia.
  - eexists. split; [done|]. apply Z.nlt_ge. intros Hlt. pose proof (F64.above_ceil b j Hb Hn Hj Hlt). lia.
Qed.

Lemma u64_not_sub x : in_u 64 x → u64_not x = 2 ^ 64 - 1 - x.
Proof.
  intros Hx. unfold u64_not, in_u in *. change u64_max with (Z.ones 64). change (2 ^ 64 - 1) with (Z.ones 64).
  assert (x = Z.land x (Z.ones 64)) as El by (rewrite Z.land_ones by lia; symmetry; apply Z.mod_small; lia).
  rewrite Z.sub_nocarry_ldiff.
  - apply Z.bits_inj'. intros i Hi. rewrite El, !Z.lxor_spec, Z.ldiff_spec, Z.land_spec. by destruct (Z.testbit x i), (Z.testbit (Z.ones 64) i).
  - apply Z.bits_inj'. intros i Hi. rewrite El, Z.ldiff_spec, Z.land_spec, Z.bits_0. by destruct (Z.testbit x i), (Z.testbit (Z.ones 64) i).
Qed.

Lemma total_order_key b : in_u 64 b → total_order b = F64.key b + F64.SIGN.
Proof.
  intros Hb. destruct (F64.bits_split b Hb) as [Hm Eb]. unfold total_order, F64.key.
  assert (Z.land b F64.SIGN = if F64.neg b then F64.SIGN else 0) as El.
  { apply Z.bits_inj'. intros i Hi. rewrite Z.land_spec. change F64.SIGN with (2 ^ 63). rewrite Z.pow2_bits_eqb by lia. unfold F64.neg.
    destruct (Z.eqb_spec 63 i) as [<-|Hne]; [rewrite andb_true_r|rewrite andb_false_r]; destruct (Z.testbit b 63); rewrite ?Z.pow2_bits_eqb by lia; rewrite ?Z.bits_0; try done.
    by destruct (Z.eqb_spec 63 i). }
  rewrite El. destruct (F64.neg b); cbn [negb Z.eqb F64.SIGN].
  - change (negb (F64.SIGN =? 0)) with true. rewrite u64_not_sub by done. unfold F64.SIGN in *. lia.
  - cbn. rewrite <-Z.lxor_lor by (by rewrite El). rewrite <-Z.add_nocarry_lxor by (by rewrite El). lia.
Qed.

Definition t_lo : Z := match lo with None => 0 | Some (b, _) => total_order b end.
Definition t_hi : Z := match hi with None => u64_max | Some (b, _) => total_order b end.

Lemma key_range_u64 x : in_u 64 x → 0 ≤ F64.key x + F64.SIGN < 2 ^ 64.
Proof. intros Hx. pose proof (F64.mag_range x Hx). unfold F64.key, F64.SIGN in *. destruct (F64.neg x); lia. Qed.

Lemma t_range : 0 ≤ t_lo < 2 ^ 64 ∧ 0 ≤ t_hi < 2 ^ 64.
Proof.
  unfold t_lo, t_hi. split.
  - destruct lo as [[b incl]|]; [|lia]. rewrite total_order_key by eauto. apply key_range_u64. eauto.
  - destruct hi as [[b incl]|]; [|unfold u64_max; lia]. rewrite total_order_key by eauto. apply key_range_u64. eauto.
Qed.

Lemma within_total x : in_u 64 x → within_numbers x = true → t_lo ≤ F64.key x + F64.SIGN ≤ t_hi.
Proof.
  intros Hx Hw. destruct (within_keys x Hx Hw) as [H1 H2]. pose proof (key_range_u64 x Hx). unfold t_lo, t_hi. split.
  - destruct lo as [[b incl]|]; [|lia]. rewrite total_order_key by eauto. specialize (H1 b incl eq_refl). lia.
  - destruct hi as [[b incl]|]; [|unfold u64_max; lia]. rewrite total_order_key by eauto. specialize (H2 b incl eq_refl). lia.
Qed.
End numbers.

(** Flipping the top bit of a number that has it. *)
Lemma lxor_sign x : F64.SIGN ≤ x < 2 ^ 64 → Z.lxor x F64.SIGN = x - F64.SIGN.
Proof.
  intros Hx. assert (in_u 64 x) as Hu by (unfold in_u, F64.SIGN in *; lia). destruct (F64.bits_split x Hu) as [Hm Ex].
  destruct (F64.neg x) eqn:En; [|unfold F64.SIGN in *; lia]. rewrite Z.sub_nocarry_ldiff.
  - apply Z.bits_inj'. intros i Hi. rewrite Z.lxor_spec, Z.ldiff_spec. change F64.SIGN with (2 ^ 63). rewrite Z.pow2_bits_eqb by lia.
    destruct (Z.eqb_spec 63 i) as [<-|]; [|by destruct (Z.testbit x i)]. unfold F64.neg in En. by rewrite En.
  - apply Z.bits_inj'. intros i Hi. rewrite Z.ldiff_spec, Z.bits_0. change F64.SIGN with (2 ^ 63). rewrite Z.pow2_bits_eqb by lia.
    destruct (Z.eqb_spec 63 i) as [<-|]; [|done]. unfold F64.neg in En. by rewrite En.
Qed.

(** The float runs between two places of the total order: each is a range, they are disjoint, and
    a float between the places lies in one of them. *)
Lemma float_runs_spec tl th : 0 ≤ tl → tl ≤ th → th < 2 ^ 64 →
  ∃ pos neg : list (Z * Z), float_runs tl th = pos ++ neg ∧
    (∀ r, r ∈ pos → 0 ≤ r.1 ∧ r.1 ≤ r.2 ∧ r.2 < F64.SIGN) ∧ (∀ r, r ∈ neg → F64.SIGN ≤ r.1 ∧ r.1 ≤ r.2 ∧ r.2 < 2 ^ 64) ∧
    (length pos ≤ 1)%nat ∧ (length neg ≤ 1)%nat ∧
    ∀ x, in_u 64 x → tl ≤ F64.key x + F64.SIGN ≤ th → ∃ r, r ∈ pos ++ neg ∧ r.1 ≤ x ≤ r.2.
Proof.
  intros H0 Hle Hth. unfold float_runs. eexists _, _. split; [done|].
  rewrite !u64_not_sub by (unfold in_u, F64.SIGN; lia). destruct (Z.leb_spec F64.SIGN th) as [Hs|Hs]; [rewrite !lxor_sign by (unfold F64.SIGN in *; lia)|];
    (destruct (Z.ltb_spec tl F64.SIGN) as [Ht|Ht]); (split; [|split; [|split; [cbn; lia|split; [cbn; lia|]]]]);
    try (intros r ?%list_elem_of_singleton; subst r; cbn [fst snd]; unfold F64.SIGN in *; lia); try (by intros r ?%not_elem_of_nil);
    intros x Hx Hk; destruct (F64.bits_split x Hx) as [Hm Ex]; unfold F64.key, F64.SIGN in *; cbn [app].
  - destruct (F64.neg x); [eexists; split; [right; by left|]|eexists; split; [by left|]]; cbn; lia.
  - destruct (F64.neg x); [lia|eexists; split; [by left|]]; cbn; lia.
  - destruct (F64.neg x); [eexists; split; [by left|]; cbn; lia|lia].
  - lia.
Qed.

Section numeric.
Context (m : Postings) (c : content) (es : list (ValueKey.t * IdSet.t)) (n : Z) (Hbk : buckets m c es n) (Hc : contents_ok c).
Context (lo hi : option (Z * bool)).
Context (Hlo : ∀ x incl, lo = Some (x, incl) → in_u 64 x) (Hhi : ∀ x incl, hi = Some (x, incl) → in_u 64 x).

Abbreviation within := (within_numbers lo hi).

(** The pairs behind the hits of a variant: every node with a number of the variant within the limits, once. *)
Definition hit_pairs (number : ValueKey.t → option Z) (prs : list (ValueKey.t * Z)) : Prop :=
  NoDup prs ∧ ∀ k id, (k, id) ∈ prs ↔ key_at c id = Some k ∧ numbered number within k = true.

Lemma stored_ok id k : key_at c id = Some k → ∃ w, c !! id = Some w ∧ ValueKey.from_value w = Some k ∧ scalar_ok w.
Proof. intros (w & Hw & Hk)%key_at_value. exists w. split; [done|]. split; [done|]. by eapply Hc. Qed.

Lemma ints_spec : ∃ prs,
  match int_lo lo, int_hi hi with
  | Some a, Some b => if a <=? b then hits_in m int_number within (ValueKey.Int a) (ValueKey.Int b) else Some []
  | _, _ => Some []
  end = Some (numbered_pair int_number <$> prs) ∧ hit_pairs int_number prs.
Proof using Hbk Hc Hlo Hhi.
  assert (∀ id k, key_at c id = Some k → numbered int_number within k = true →
    ∃ a b j, int_lo lo = Some a ∧ int_hi hi = Some b ∧ k = ValueKey.Int j ∧ a ≤ j ≤ b) as Hin.
  { intros id k (w & _ & Hk & Hw)%stored_ok Hnum. destruct k as [j| | | | | | |]; try done. cbn in Hnum. destruct w; try done. cbn in Hk, Hw. simplify_eq.
    destruct (int_run lo hi Hlo Hhi j Hw Hnum) as (a & b & ? & ? & ?). eauto 10. }
  assert ((∀ id k, key_at c id = Some k → numbered int_number within k = true → False) → hit_pairs int_number []) as Hnil.
  { intros Hno. split; [constructor|]. intros k id. split; [by intros ?%not_elem_of_nil|]. intros [? ?]. exfalso. eauto. }
  destruct (int_lo lo) as [a|]; [destruct (int_hi hi) as [b|]; [destruct (Z.leb_spec a b) as [Hab|Hab]|]|].
  - rewrite (hits_in_spec m c es n) by (done || by apply (kle_Z a b ValueKey.Int)). eexists. split; [done|]. split; [by eapply pairs_NoDup|].
    intros k id. rewrite (elem_of_filtered m c es n Hbk). unfold hit_key. split; [naive_solver|]. intros [Hk Hnum]. split; [|done]. split; [done|].
    destruct (Hin id k Hk Hnum) as (a' & b' & j & [= <-] & [= <-] & -> & ?). apply inside_int. eauto.
  - exists []. split; [done|]. apply Hnil. intros id k Hk Hnum. destruct (Hin id k Hk Hnum) as (a' & b' & j & [= <-] & [= <-] & -> & ?). lia.
  - exists []. split; [done|]. apply Hnil. intros id k Hk Hnum. by destruct (Hin id k Hk Hnum) as (a' & b' & j & _ & ? & _).
  - exists []. split; [done|]. apply Hnil. intros id k Hk Hnum. by destruct (Hin id k Hk Hnum) as (a' & b' & j & ? & _).
Qed.

(** The pairs of one float run. *)
Definition run_pairs (r : Z * Z) : list (ValueKey.t * Z) :=
  pairs_of (filter (λ e, hit_key float_number within (ValueKey.FloatBits r.1) (ValueKey.FloatBits r.2) e.1) es).

Lemma elem_of_run r k id : (k, id) ∈ run_pairs r ↔ key_at c id = Some k ∧ numbered float_number within k = true ∧ ∃ x, k = ValueKey.FloatBits x ∧ r.1 ≤ x ≤ r.2.
Proof using Hbk. unfold run_pairs. rewrite (elem_of_filtered m c es n Hbk). unfold hit_key. rewrite inside_float. tauto. Qed.

Lemma floats_spec : ∃ prs,
  (if t_lo lo <=? t_hi hi then
     flat_map (λ r, hits_in m float_number within (ValueKey.FloatBits r.1) (ValueKey.FloatBits r.2)) (float_runs (t_lo lo) (t_hi hi))
   else Some []) = Some (numbered_pair float_number <$> prs) ∧ hit_pairs float_number prs.
Proof using Hbk Hc Hlo Hhi.
  assert (∀ id k, key_at c id = Some k → numbered float_number within k = true →
    ∃ x, k = ValueKey.FloatBits x ∧ in_u 64 x ∧ t_lo lo ≤ F64.key x + F64.SIGN ≤ t_hi hi) as Hin.
  { intros id k (w & _ & Hk & Hw)%stored_ok Hnum. destruct k as [|x| | | | | |]; try done. cbn in Hnum. destruct w; try done. cbn in Hk, Hw. simplify_eq.
    exists x. split; [done|]. split; [done|]. by apply within_total. }
  destruct (t_range lo hi Hlo Hhi) as [Htl Hth]. destruct (Z.leb_spec (t_lo lo) (t_hi hi)) as [Hle|Hgt].
  2:{ exists []. split; [done|]. split; [constructor|]. intros k id. split; [by intros ?%not_elem_of_nil|]. intros [Hk Hnum]. destruct (Hin id k Hk Hnum) as (x & _ & _ & ?). lia. }
  destruct (float_runs_spec (t_lo lo) (t_hi hi)) as (pos & neg & -> & Hpos & Hneg & Hlp & Hln & Hcov); [lia|lia|lia|].
  rewrite (flat_map_spec _ (λ r, numbered_pair float_number <$> run_pairs r)).
  2:{ intros r Hr. apply (hits_in_spec m c es n); [done|]. apply (kle_Z _ _ ValueKey.FloatBits); [done|]. apply elem_of_app in Hr as [Hr|Hr]; [apply Hpos in Hr|apply Hneg in Hr]; lia. }
  exists ((pos ++ neg) ≫= run_pairs). split; [f_equal; clear; induction (pos ++ neg) as [|r l IH]; [done|]; cbn [mbind list_bind]; by rewrite fmap_app, IH|]. split.
  - assert (∀ l, (length l ≤ 1)%nat → NoDup (l ≫= run_pairs)) as Hone.
    { intros [|r [|]] Hl; [constructor| |cbn in Hl; lia]. cbn [mbind list_bind]. rewrite app_nil_r. by eapply pairs_NoDup. }
    rewrite bind_app. apply NoDup_app. split; [by apply Hone|]. split; [|by apply Hone].
    intros [k id] (r & (_ & _ & x & -> & Hx)%elem_of_run & Hr)%list_elem_of_bind (r' & (_ & _ & x' & [= <-] & Hx')%elem_of_run & Hr')%list_elem_of_bind.
    apply Hpos in Hr. apply Hneg in Hr'. lia.
  - intros k id. rewrite list_elem_of_bind. setoid_rewrite elem_of_run. split; [naive_solver|]. intros [Hk Hnum].
    destruct (Hin id k Hk Hnum) as (x & -> & Hx & Ht). destruct (Hcov x Hx Ht) as (r & Hr & Hrx). eauto 10.
Qed.
End numeric.

(** The sort of the hits: by total order, then by id. *)
Lemma hit_cmp_lex a b : hit_cmp a b = cmp (F64.total_bits a.1, a.2) (F64.total_bits b.1, b.2).
Proof. unfold hit_cmp, F64.total_cmp, cmp at 2, prod_ord, then_cmp. cbn [fst snd]. unfold cmp at 2, Z_ord. by destruct (_ ?= _). Qed.

#[local] Instance hit_trans : Transitive (λ a b : Z * Z, hit_cmp a b ≠ Gt).
Proof. intros a b d. rewrite !hit_cmp_lex. apply kle_trans. Qed.
#[local] Instance hit_total : Total (λ a b : Z * Z, hit_cmp a b ≠ Gt).
Proof.
  intros a b. rewrite !hit_cmp_lex. destruct (decide ((F64.total_bits a.1, a.2) ≤ₖ (F64.total_bits b.1, b.2))) as [|Hn]; [by left|right].
  apply not_kle in Hn. by apply klt_kle.
Qed.

Lemma sorted_distinct {A} (R : A → A → Prop) l : StronglySorted R l → NoDup l → StronglySorted (λ a b, R a b ∧ a ≠ b) l.
Proof.
  induction 1 as [|x l Hs IH Hx]; intros Hnd; [constructor|]. apply NoDup_cons in Hnd as [Hn Hnd]. constructor; [by apply IH|].
  rewrite Forall_forall in Hx. apply Forall_forall. intros y Hy. split; [by apply Hx|]. by intros ->.
Qed.

(** What [numeric_range] collects: each number within the limits once, with its node. *)
Lemma numeric_hits m c es n nlo nhi :
  buckets m c es n → contents_ok c → (∀ x incl, nlo = Some (x, incl) → in_u 64 x) → (∀ x incl, nhi = Some (x, incl) → in_u 64 x) →
  ∃ ints floats,
    match int_lo nlo, int_hi nhi with
    | Some a, Some b => if a <=? b then hits_in m int_number (within_numbers nlo nhi) (ValueKey.Int a) (ValueKey.Int b) else Some []
    | _, _ => Some []
    end = Some ints ∧
    (if t_lo nlo <=? t_hi nhi then
       flat_map (λ r, hits_in m float_number (within_numbers nlo nhi) (ValueKey.FloatBits r.1) (ValueKey.FloatBits r.2)) (float_runs (t_lo nlo) (t_hi nhi))
     else Some []) = Some floats ∧
    NoDup (ints ++ floats) ∧
    ∀ x id, (x, id) ∈ ints ++ floats ↔ ∃ w, c !! id = Some w ∧ as_number w = Some x ∧ within_numbers nlo nhi x = true.
Proof.
  intros Hbk Hc Hul Huh. destruct (ints_spec m c es n Hbk Hc nlo nhi Hul Huh) as (ip & -> & Hnd1 & Hip).
  destruct (floats_spec m c es n Hbk Hc nlo nhi Hul Huh) as (fp & -> & Hnd2 & Hfp). eexists _, _. split; [done|]. split; [done|]. split.
  - apply NoDup_app. split; [eapply numbered_NoDup; [done|by intros k i [? _]%Hip]|]. split; [|eapply numbered_NoDup; [done|by intros k i [? _]%Hfp]].
    intros [x id] ([k i] & [= _ ->] & [Hk Hn1]%Hip)%list_elem_of_fmap ([k' i'] & [= _ ->] & [Hk' Hn2]%Hfp)%list_elem_of_fmap. rewrite Hk in Hk'. injection Hk' as <-. by destruct k.
  - intros x id. rewrite elem_of_app, !list_elem_of_fmap. split.
    + intros [([k i] & [= -> ->] & [Hk Hnum]%Hip)|([k i] & [= -> ->] & [Hk Hnum]%Hfp)]; apply key_at_value in Hk as (w & Hw & Hk); exists w; (split; [done|]);
        destruct w; cbn in Hk; simplify_eq; done.
    + intros (w & Hw & Hx & Hwi). destruct w as [j|f| | | | | | | | | |]; try done; cbn in Hx; injection Hx as <-.
      * left. exists (ValueKey.Int j, id). split; [done|]. apply Hip. split; [|done]. apply key_at_value. eauto.
      * right. exists (ValueKey.FloatBits f, id). split; [done|]. apply Hfp. split; [|done]. apply key_at_value. eauto.
Qed.

Lemma numeric_range_order m c es n lo hi :
  buckets m c es n → contents_ok c → limit_class CNumeric lo → limit_class CNumeric hi → ¬ (lo = None ∧ hi = None) →
  ∃ l, numeric_range m lo hi = Some l ∧ StronglySorted (before c lo hi) l ∧ ∀ id, id ∈ l ↔ scan_range c lo hi id.
Proof.
  intros Hbk Hc Hlo Hhi Hn. destruct (number_limit lo Hlo) as (nlo & El & Hul & Hwl & Hol). destruct (number_limit hi Hhi) as (nhi & Eh & Huh & Hwh & Hoh).
  unfold numeric_range. rewrite El, Eh. cbn [mbind option_bind]. change (λ x, admitted (F64.total_cmp x) nlo nhi) with (within_numbers nlo nhi).
  fold (t_lo nlo) (t_hi nhi). destruct (numeric_hits m c es n nlo nhi Hbk Hc Hul Huh) as (ints & floats & -> & Ef & Hnd & Hhits). cbn [mbind option_bind]. rewrite Ef. cbn [mbind option_bind].
  eexists. split; [done|]. split.
  - eapply sorted_second; [apply sorted_distinct; [apply StronglySorted_merge_sort; apply _|by rewrite merge_sort_Permutation]|].
    intros [x i] [y j] Hi Hj [Hle Hne]. cbn. rewrite merge_sort_Permutation in Hi, Hj. apply Hhits in Hi as (wi & Hwi & Hxi & _). apply Hhits in Hj as (wj & Hwj & Hxj & _).
    exists wi, wj. split; [done|]. split; [done|]. rewrite range_order_value by done.
    assert (value_order wi wj = F64.total_cmp x y) as -> by (destruct wi, wj; cbn in Hxi, Hxj; simplify_eq; done).
    assert (∀ w z id, c !! id = Some w → as_number w = Some z → in_u 64 z) as Hu.
    { intros w z id Hw Hz. apply Hc in Hw. destruct w; cbn in *; simplify_eq; [by apply F64.of_i64_spec|done]. }
    unfold hit_cmp in Hle. cbn in Hle. destruct (then_cmp (F64.total_cmp x y) (cmp i j)) eqn:E; [|done|done]. destruct Hne.
    unfold then_cmp in E. destruct (F64.total_cmp x y) eqn:Ex; try done. apply cmp_eq in E as ->. rewrite F64.total_cmp_key in Ex by eauto.
    apply Z.compare_eq, F64.key_inj in Ex as ->; eauto.
  - intros id. rewrite list_elem_of_fmap. unfold scan_range. split.
    + intros ([x i] & -> & Hi). rewrite merge_sort_Permutation in Hi. apply Hhits in Hi as (w & Hw & Hx & [H1 H2]%andb_true_iff). exists w. split; [done|].
      split; [by destruct w|]. destruct (Hwl w x Hx) as [-> _]. destruct (Hwh w x Hx) as [_ ->]. done.
    + intros (w & Hw & _ & Ha & Hb). destruct (as_number w) as [x|] eqn:Hx.
      * exists (x, id). split; [done|]. rewrite merge_sort_Permutation. apply Hhits. exists w. split; [done|]. split; [done|].
        destruct (Hwl w x Hx) as [Ea _]. destruct (Hwh w x Hx) as [_ Eb]. rewrite Ea in Ha. rewrite Eb in Hb. apply andb_true_iff. done.
      * exfalso. destruct lo; [by destruct (Hol w Hx) as [? _]; congruence|]. destruct hi; [by destruct (Hoh w Hx) as [_ ?]; congruence|by destruct Hn].
Qed.

(** *** Date-times *)

Lemma datetime_limit b : limit_class CDateTime b →
  ∃ nb, map_limit as_datetime b = Some nb ∧ (∀ x incl, nb = Some (x, incl) → in_i 64 x.1) ∧
    (∀ u o,
       above b (Value.DateTime u o) = match nb with None => true | Some (y, incl) => admits (cmp (u, o) y) true incl end ∧
       below b (Value.DateTime u o) = match nb with None => true | Some (y, incl) => admits (cmp (u, o) y) false incl end) ∧
    (∀ w, as_datetime w = None → b ≠ None → above b w = false ∧ below b w = false).
Proof.
  destruct b as [[v incl]|]; [|exists None; naive_solver]. intros [Hc Hs]. destruct v as [| | | | | | | |u o| | |]; try done. cbn [map_limit as_datetime mbind option_bind].
  eexists. split; [done|]. split; [intros x i [= <- <-]; exact Hs|]. split.
  - intros u' o'. by rewrite above_admits, below_admits.
  - intros w Hw _. rewrite above_admits, below_admits. by destruct w.
Qed.

Lemma admits_instant (u o : Z) (b : Z * Z) incl lower : admits (cmp (u, o) b) lower incl = true → if lower then b.1 ≤ u else u ≤ b.1.
Proof.
  unfold cmp, prod_ord. cbn [fst snd]. unfold cmp at 1, Z_ord. destruct lower, (Z.compare_spec u b.1); cbn; try done; lia.
Qed.

Section datetimes.
Context (m : Postings) (c : content) (es : list (ValueKey.t * IdSet.t)) (n : Z) (Hbk : buckets m c es n) (Hc : contents_ok c).
Context (os : option (@CowMap.t Z Z)) (eo : list (Z * Z)) (Ho : CowMap.holds (default CowMap.new os) eo (potential n)) (Hof : ∀ id, alookup id eo = offset_at c id).
Context (lo hi : option (Z * Z * bool)).

(** A stored date-time within the limits, by its key's instant and its own offset. *)
Definition instant_ok (e : ValueKey.t * Z) : bool :=
  match e.1 with ValueKey.DateTimeMicrosUtc us => admitted (cmp (us, default 0 (offset_at c e.2))) lo hi | _ => false end.

Lemma datetime_hit_spec us id : datetime_hit os lo hi us id = Some (if instant_ok (ValueKey.DateTimeMicrosUtc us, id) then [id] else []).
Proof using Ho Hof.
  unfold datetime_hit. assert (match os with None => Some None | Some m => CowMap.get m id end = Some (offset_at c id)) as ->; [|done].
  rewrite <-Hof. destruct os as [o|]; cbn [default] in Ho; [by eapply CowMap.get_holds|]. destruct (CowMap.holds_len _ _ _ Ho) as [_ E]. cbn in E. by subst eo.
Qed.

Lemma datetime_hits_spec a b : a ≤ b →
  (entries ← entries_in m (Included (ValueKey.DateTimeMicrosUtc a)) (Included (ValueKey.DateTimeMicrosUtc b)); flat_map (datetime_hits os lo hi) entries) =
  Some (filter (λ e, instant_ok e = true)
    (pairs_of (filter (λ e, inside (Included (ValueKey.DateTimeMicrosUtc a)) (Included (ValueKey.DateTimeMicrosUtc b)) e.1) es))).*2.
Proof using Hbk Ho Hof.
  intros Hab. rewrite (entries_in_spec m es n); [|apply Hbk|by apply (run_ok ValueKey.DateTimeMicrosUtc)]. cbn [mbind option_bind].
  rewrite (flat_map_spec _ (λ e, (filter (λ p, instant_ok p = true) (pair e.1 <$> bucket_ids e)).*2)).
  - f_equal. unfold pairs_of. induction (filter (λ e, inside _ _ e.1) es) as [|e l IH]; [done|]. cbn [mbind list_bind]. by rewrite filter_app, fmap_app, IH.
  - intros e [(us & Hk & _)%inside_datetime He]%list_elem_of_filter. unfold datetime_hits. rewrite Hk, (bk_iter _ _ _ _ Hbk e He). cbn [mbind option_bind].
    rewrite (flat_map_spec _ (λ id, if instant_ok (ValueKey.DateTimeMicrosUtc us, id) then [id] else [])) by (intros; apply datetime_hit_spec). f_equal.
    induction (bucket_ids e) as [|x l IH]; [done|]. cbn [mbind list_bind fmap list_fmap]. rewrite IH, filter_cons.
    destruct (instant_ok (ValueKey.DateTimeMicrosUtc us, x)); [by rewrite decide_True|by rewrite decide_False].
Qed.
End datetimes.

Lemma datetime_range_order m c es n os lo hi :
  buckets m c es n → contents_ok c → (∃ eo, CowMap.holds (default CowMap.new os) eo (potential n) ∧ ∀ id, alookup id eo = offset_at c id) →
  limit_class CDateTime lo → limit_class CDateTime hi → ¬ (lo = None ∧ hi = None) →
  ∃ l, datetime_range m os lo hi = Some l ∧ StronglySorted (before c lo hi) l ∧ ∀ id, id ∈ l ↔ scan_range c lo hi id.
Proof.
  intros Hbk Hc (eo & Ho & Hof) Hlo Hhi Hn. destruct (datetime_limit lo Hlo) as (nlo & El & Hul & Hwl & Hol). destruct (datetime_limit hi Hhi) as (nhi & Eh & Huh & Hwh & Hoh).
  unfold datetime_range. rewrite El, Eh. cbn [mbind option_bind].
  set (a := match nlo with None => i64_min | Some (b, _) => b.1 end). set (b := match nhi with None => i64_max | Some (b, _) => b.1 end).
  assert (∀ id w, c !! id = Some w → above lo w = true → below hi w = true → ∃ u o, w = Value.DateTime u o ∧ a ≤ u ≤ b ∧ admitted (cmp (u, o)) nlo nhi = true) as Hadm.
  { intros id w Hw Ha Hb. destruct (as_datetime w) as [[u o]|] eqn:Ew.
    2:{ exfalso. destruct lo; [by destruct (Hol w Ew) as [? _]; congruence|]. destruct hi; [by destruct (Hoh w Ew) as [_ ?]; congruence|by destruct Hn]. }
    destruct w; try done. cbn in Ew. simplify_eq. exists u, o. split; [done|]. destruct (Hwl u o) as [Ea _]. destruct (Hwh u o) as [_ Eb]. rewrite Ea in Ha. rewrite Eb in Hb.
    split; [|by apply andb_true_iff]. pose proof (Hc _ _ Hw) as Hu. cbn in Hu. unfold a, b. split.
    - destruct nlo as [[x i]|]; [by apply admits_instant in Ha|unfold in_i, i64_min in *; lia].
    - destruct nhi as [[x i]|]; [by apply admits_instant in Hb|unfold in_i, i64_max in *; lia]. }
  destruct (Z.ltb_spec b a) as [Hlt|Hle].
  { exists []. split; [done|]. split; [constructor|]. intros id. split; [by intros ?%not_elem_of_nil|]. intros (w & Hw & _ & Ha & Hb). destruct (Hadm id w Hw Ha Hb) as (u & o & _ & ? & _). lia. }
  rewrite (datetime_hits_spec m c es n Hbk os eo Ho Hof nlo nhi a b Hle). set (prs := filter (λ e, instant_ok c nlo nhi e = true) _).
  assert (∀ k id, (k, id) ∈ prs ↔ ∃ u o, k = ValueKey.DateTimeMicrosUtc u ∧ c !! id = Some (Value.DateTime u o) ∧ above lo (Value.DateTime u o) = true ∧ below hi (Value.DateTime u o) = true) as Hprs.
  { intros k id. unfold prs. rewrite list_elem_of_filter, (elem_of_filtered m c es n Hbk), key_at_value. split.
    - intros (Hok & (u & -> & _)%inside_datetime & w & Hw & Hk). destruct w as [| | | | | | | |u' o| | |]; try done. cbn in Hk. injection Hk as ->. exists u, o. split; [done|]. split; [done|].
      unfold instant_ok, offset_at in Hok. cbn in Hok. rewrite Hw in Hok. cbn in Hok. replace (default 0 (if o =? 0 then None else Some o)) with o in Hok by (by destruct (Z.eqb_spec o 0)).
      apply andb_true_iff in Hok as [H1 H2]. destruct (Hwl u o) as [-> _]. destruct (Hwh u o) as [_ ->]. done.
    - intros (u & o & -> & Hw & Ha & Hb). destruct (Hadm id _ Hw Ha Hb) as (u' & o' & [= <- <-] & Hr & Had). split; [|split; [apply inside_datetime; eauto|by eexists]].
      unfold instant_ok, offset_at. cbn. rewrite Hw. cbn. replace (default 0 (if o =? 0 then None else Some o)) with o by (by destruct (Z.eqb_spec o 0)). done. }
  eexists. split; [done|]. split.
  - apply pairs_before; [by eapply sorted_filter, filtered_sorted|..].
    + intros k id (u & o & -> & Hw & _)%Hprs. apply key_at_value. eauto.
    + intros i j wi wj ki kj (u & o & -> & Hi & _)%Hprs (u' & o' & -> & Hj & _)%Hprs Ei Ej. rewrite range_order_value by done. simplify_eq. done.
  - intros id. rewrite list_elem_of_fmap. unfold scan_range. split.
    + intros ([k x] & -> & (u & o & -> & Hw & ? & ?)%Hprs). eexists. split; [done|]. by split; [eexists|].
    + intros (w & Hw & _ & Ha & Hb). destruct (Hadm id w Hw Ha Hb) as (u & o & -> & _). exists (ValueKey.DateTimeMicrosUtc u, id). split; [done|]. apply Hprs. eauto 10.
Qed.

(** *** Any range *)

Definition limit_ok (b : Limit) : Prop := match b with None => True | Some (v, _) => scalar_ok v end.

Lemma orderable_class w v : is_orderable_pair w v = true → is_Some (order_class v) ∧ order_class w = order_class v.
Proof. by destruct w, v. Qed.

Lemma limit_class_of c lo hi id : scan_range c lo hi id → ∃ w, c !! id = Some w ∧
  (∀ v incl, lo = Some (v, incl) → is_Some (order_class v) ∧ order_class w = order_class v) ∧
  (∀ v incl, hi = Some (v, incl) → is_Some (order_class v) ∧ order_class w = order_class v).
Proof.
  intros (w & Hw & _ & Ha & Hb). exists w. split; [done|]. split; intros v incl ->.
  - rewrite above_admits in Ha. apply andb_true_iff in Ha as [Ha _]. by apply orderable_class.
  - rewrite below_admits in Hb. apply andb_true_iff in Hb as [Hb _]. by apply orderable_class.
Qed.

Lemma class_range_order ix p c n m a lo hi : at_pair ix p c n → contents_ok c → postings ix p = Some m →
  limit_class a lo → limit_class a hi → ¬ (lo = None ∧ hi = None) →
  ∃ l, class_range m (offsets ix !! p) a lo hi = Some l ∧ StronglySorted (before c lo hi) l ∧ ∀ id, id ∈ l ↔ scan_range c lo hi id.
Proof.
  intros Hp Hc Hm Hlo Hhi Hn. pose proof (pair_buckets ix p c n Hp) as Hb. rewrite Hm in Hb. destruct Hb as [es Hbk]. unfold class_range.
  destruct (key_ordered a) eqn:Ha; [pose proof (key_range_order m c es n a lo hi Hbk Hc Ha Hlo Hhi Hn); by destruct a|]. destruct a; try done.
  - by eapply (numeric_range_order m c es n).
  - eapply (datetime_range_order m c es n); try done. apply Hp.
Qed.

(** Buckets read in key order. *)
Lemma keys_before m c es n (P : ValueKey.t → Prop) `{!∀ k, Decision (P k)} : buckets m c es n →
  StronglySorted (before c None None) (pairs_of (filter (λ e, P e.1) es)).*2.
Proof.
  intros Hbk. apply pairs_before; [by eapply filtered_sorted|by intros k id [_ Hk]%(elem_of_filtered m c es n Hbk)|].
  intros i j wi wj ki kj [_ Hi]%(elem_of_filtered m c es n Hbk) [_ Hj]%(elem_of_filtered m c es n Hbk) Ei Ej.
  apply key_at_value in Hi as (? & ? & Hi). apply key_at_value in Hj as (? & ? & Hj). simplify_eq. cbn. unfold key_order. by rewrite Hi, Hj.
Qed.

Lemma unbounded_order m c es n : buckets m c es n →
  ∃ l, (entries ← entries_in m Unbounded Unbounded; ids_of entries) = Some l ∧ StronglySorted (before c None None) l ∧ ∀ id, id ∈ l ↔ scan_range c None None id.
Proof.
  intros Hbk. rewrite (entries_in_spec m es n) by (done || apply Hbk). cbn [mbind option_bind]. rewrite (ids_of_filter m c es n Hbk (inside Unbounded Unbounded)).
  eexists. split; [done|]. split.
  - by eapply keys_before.
  - intros id. rewrite (elem_of_filtered_ids m c es n Hbk). setoid_rewrite key_at_value. unfold scan_range. split.
    + intros (k & (w & Hw & Hk) & _). exists w. by split_and!; [|eexists|..].
    + intros (w & Hw & [k Hk] & _). exists k. split; [eauto|done].
Qed.

Lemma lookup_range_order ix p c n lo hi : at_pair ix p c n → contents_ok c → limit_ok lo → limit_ok hi →
  ∃ l, lookup_range ix p lo hi = Some l ∧ StronglySorted (before c lo hi) l ∧ ∀ id, id ∈ l ↔ scan_range c lo hi id.
Proof.
  intros Hp Hc Hlo Hhi. pose proof (pair_buckets ix p c n Hp) as Hb. unfold lookup_range.
  assert ((∀ id, ¬ scan_range c lo hi id) → ∃ l, Some [] = Some l ∧ StronglySorted (before c lo hi) l ∧ ∀ id, id ∈ l ↔ scan_range c lo hi id) as Hnil.
  { intros Hno. exists []. split; [done|]. split; [constructor|]. intros id. split; [by intros ?%not_elem_of_nil|]. by intros ?%Hno. }
  destruct (postings ix p) as [m|] eqn:Em.
  2:{ apply Hnil. intros id (w & Hw & [k Hk] & _). specialize (Hb id). unfold key_at in Hb. rewrite Hw in Hb. cbn in Hb. congruence. }
  destruct lo as [[vl il]|], hi as [[vh ih]|]; cbn [fmap option_fmap option_map compose fst]; cbn in Hlo, Hhi.
  - destruct (order_class vl) as [a|] eqn:Ea; cbn.
    2:{ apply Hnil. intros id (w & Hw & H1 & _)%limit_class_of. destruct (H1 vl il eq_refl) as [Hs _]. rewrite Ea in Hs. by destruct Hs. }
    destruct (order_class vh) as [b|] eqn:Eb; cbn.
    2:{ apply Hnil. intros id (w & Hw & _ & H2)%limit_class_of. destruct (H2 vh ih eq_refl) as [Hs _]. rewrite Eb in Hs. by destruct Hs. }
    case_bool_decide as Hab.
    + apply Hnil. intros id (w & Hw & H1 & H2)%limit_class_of. destruct (H1 vl il eq_refl) as [_ E1]. destruct (H2 vh ih eq_refl) as [_ E2]. congruence.
    + destruct (decide (a = b)) as [->|]; [|done]. by eapply class_range_order; [..|intros [? ?]].
  - destruct (order_class vl) as [a|] eqn:Ea; cbn.
    + by eapply class_range_order; [..|intros [? ?]].
    + apply Hnil. intros id (w & Hw & H1 & _)%limit_class_of. destruct (H1 vl il eq_refl) as [Hs _]. rewrite Ea in Hs. by destruct Hs.
  - destruct (order_class vh) as [a|] eqn:Ea; cbn.
    + by eapply class_range_order; [..|intros [? ?]].
    + apply Hnil. intros id (w & Hw & _ & H2)%limit_class_of. destruct (H2 vh ih eq_refl) as [Hs _]. rewrite Ea in Hs. by destruct Hs.
  - destruct Hb as [es Hbk]. by eapply unbounded_order.
Qed.

(** C19: a range lookup answers as the scan does: after any sequence of
    declarations, writes and removals, for any pair and any limits, inclusive or
    not or absent, it returns without a panic exactly the nodes whose value a
    scan's [eval_cmp] puts within the limits: numbers across [Int] and [Float] by
    the total order of their conversions, infinities and NaNs of both signs as
    limits included, strings, booleans, dates, date-times by instant and offset,
    binaries; limits of another class, of two classes, or inverted match nothing;
    no limits, every indexed node.  The nodes come once each, in value order
    (date-times of one instant alike), ties by id. *)
Theorem index_range_scan (os : list op) (p : Pair) (lo hi : Limit) :
  2 * Z.of_nat (length os) < 2 ^ 64 → Forall op_ok os → limit_ok lo → limit_ok hi →
  let c := values_of (spec_run os no_decls) p in
  ∃ ix l, run os new = Some ix ∧ lookup_range ix p lo hi = Some l ∧
    StronglySorted (before c lo hi) l ∧ ∀ id, id ∈ l ↔ scan_range c lo hi id.
Proof.
  intros Hn Hos Hlo Hhi c. destruct (run_new os Hn Hos) as (ix & n & Hr & Hm & _ & Hok).
  destruct (lookup_range_order ix p c n lo hi (m_pairs _ _ _ Hm p) (Hok p) Hlo Hhi) as (l & Hl & Hs & Hin). by exists ix, l.
Qed.

(** *** Prefixes *)

Lemma prefix_bytes p s : String.prefix p s = true ↔ as_bytes p `prefix_of` as_bytes s.
Proof.
  revert s. induction p as [|a p IH]; intros s; [split; [intros _; apply prefix_nil|by destruct s]|]. destruct s as [|b s]; cbn [String.prefix as_bytes].
  - split; [done|]. by intros ?%prefix_nil_not.
  - destruct (Ascii.ascii_dec a b) as [->|Hne].
    + rewrite IH. split; [apply prefix_cons|apply prefix_cons_inv_2].
    + split; [done|]. intros E%prefix_cons_inv_1. destruct Hne. apply N2Z.inj in E. apply (f_equal Ascii.ascii_of_N) in E. by rewrite !Ascii.ascii_N_embedding in E.
Qed.

(** What lies between a list and one it is a prefix of has it as a prefix. *)
Lemma prefix_convex (p x y : list Z) : p ≤ₖ x → x ≤ₖ y → p `prefix_of` y → p `prefix_of` x.
Proof.
  revert x y. induction p as [|a p IH]; intros x y Hpx Hxy Hp; [apply prefix_nil|]. destruct y as [|b y]; [by apply prefix_nil_not in Hp|].
  pose proof (prefix_cons_inv_1 _ _ _ _ Hp) as <-. apply prefix_cons_inv_2 in Hp. destruct x as [|d x]; [done|].
  unfold kle, cmp, list_ord in Hpx, Hxy. cbn in Hpx, Hxy. unfold cmp, Z_ord, then_cmp in Hpx, Hxy.
  destruct (Z.compare_spec a d) as [<-|Hlt|Hgt]; [|rewrite (proj2 (Z.compare_gt_iff d a)) in Hxy by lia; done|done].
  rewrite Z.compare_refl in Hxy. apply prefix_cons. by apply (IH x y).
Qed.

Lemma prefix_le (p x : list Z) : p `prefix_of` x → p ≤ₖ x.
Proof.
  revert x. induction p as [|a p IH]; intros x Hp; [by destruct x|]. destruct x as [|b x]; [by apply prefix_nil_not in Hp|].
  pose proof (prefix_cons_inv_1 _ _ _ _ Hp) as <-. apply prefix_cons_inv_2, IH in Hp. unfold kle, cmp, list_ord in *. cbn. by rewrite cmp_refl.
Qed.

Lemma str_le a b : ValueKey.Str a ≤ₖ ValueKey.Str b ↔ as_bytes a ≤ₖ as_bytes b.
Proof. done. Qed.

Definition prefix_hit (p : string) (k : ValueKey.t) : Prop := has_prefix p k = true ∧ inside (Included (ValueKey.Str p)) Unbounded k.
#[export] Instance prefix_hit_dec p k : Decision (prefix_hit p k).
Proof. unfold prefix_hit. apply _. Defined.

Lemma inside_from a k : inside (Included a) Unbounded k ↔ a ≤ₖ k.
Proof. unfold inside. cbn. rewrite bool_decide_eq_false, not_klt. naive_solver. Qed.

Lemma take_prefix p (es : list (ValueKey.t * IdSet.t)) : sorted es.*1 →
  take_while (λ e, has_prefix p e.1) (filter (λ e, inside (Included (ValueKey.Str p)) Unbounded e.1) es) = filter (λ e, prefix_hit p e.1) es.
Proof.
  intros Hs. rewrite (take_while_filter (has_prefix p)); [by apply (filter_keys (inside (Included (ValueKey.Str p)) Unbounded) (λ k, has_prefix p k = true))|by apply sorted_fmap_filter|].
  intros k k' Hk _ Hlt%klt_kle Hk'. apply list_elem_of_fmap in Hk as (e & -> & [Hin%inside_from _]%list_elem_of_filter). destruct k' as [| |s'| | | | |]; try done.
  pose proof (kle_rank _ _ Hin). pose proof (kle_rank _ _ Hlt). destruct (e.1) as [| |s| | | | |]; cbn in *; try lia. rewrite !prefix_bytes in *.
  by apply (prefix_convex _ _ (as_bytes s')).
Qed.

(** A prefix lookup answers as the scan does: after any sequence of operations
    it returns, without a panic, exactly the nodes whose value is a string starting
    with the prefix, once each, in the order of the strings' bytes, ties by id. *)
Theorem index_prefix_scan (os : list op) (p : Pair) (prefix : string) :
  2 * Z.of_nat (length os) < 2 ^ 64 → Forall op_ok os →
  let c := values_of (spec_run os no_decls) p in
  ∃ ix l, run os new = Some ix ∧ lookup_prefix ix p prefix = Some l ∧ StronglySorted (before c None None) l ∧
    ∀ id, id ∈ l ↔ ∃ s, c !! id = Some (Value.Str s) ∧ String.prefix prefix s = true.
Proof.
  intros Hn Hos c. destruct (run_new os Hn Hos) as (ix & n & Hr & Hm & _ & Hok). exists ix. pose proof (pair_buckets ix p c n (m_pairs _ _ _ Hm p)) as Hb.
  unfold lookup_prefix. destruct (postings ix p) as [m|].
  2:{ exists []. split; [done|]. split; [done|]. split; [constructor|]. intros id. split; [by intros ?%not_elem_of_nil|]. intros (s & Hs & _). specialize (Hb id). unfold key_at in Hb. by rewrite Hs in Hb. }
  destruct Hb as [es Hbk]. rewrite (entries_in_spec m es n) by (done || apply Hbk). cbn [mbind option_bind].
  rewrite (take_prefix prefix es), (ids_of_filter m c es n Hbk (prefix_hit prefix)) by (eapply CowMap.holds_sorted, Hbk).
  eexists. split; [done|]. split; [done|]. split.
  - by eapply keys_before.
  - intros id. rewrite (elem_of_filtered_ids m c es n Hbk). setoid_rewrite key_at_value. split.
    + intros (k & (w & Hw & Hk) & Hp & _). destruct k as [| |s| | | | |]; try done. destruct w; try done. cbn in Hk. simplify_eq. eauto.
    + intros (s & Hw & Hp). exists (ValueKey.Str s). split; [eauto|]. split; [done|]. apply inside_from, str_le, prefix_le. by apply prefix_bytes.
Qed.

(** ** Ranges of ages *)

Lemma index_range_scan_witness :
  ∃ ix l, run aging new = Some ix ∧ lookup_range ix ages (Some (Value.Int 1, true)) (Some (Value.Float (2 ^ 62), true)) = Some l ∧ 3 ∈ l ∧ 7 ∈ l ∧ 5 ∉ l.
Proof.
  destruct (index_range_scan aging ages (Some (Value.Int 1, true)) (Some (Value.Float (2 ^ 62), true)) eq_refl aging_ok) as (ix & l & Hr & Hl & _ & Hin); [by vm_compute..|].
  exists ix, l. split; [exact Hr|]. split; [exact Hl|]. split; [|split].
  - apply Hin. exists (Value.Float (2 ^ 62)). split; [reflexivity|]. split; [eexists; reflexivity|split; reflexivity].
  - apply Hin. exists (Value.Int 2). split; [reflexivity|]. split; [eexists; reflexivity|split; reflexivity].
  - intros Hn. apply Hin in Hn. destruct Hn as (w & Hw & _ & Hlo & _). vm_compute in Hw. injection Hw as <-. discriminate Hlo.
Defined.

Lemma index_prefix_scan_witness :
  ∃ ix l, run aging new = Some ix ∧ lookup_prefix ix ages "ol" = Some l ∧ 5 ∈ l ∧ 3 ∉ l.
Proof.
  destruct (index_prefix_scan aging ages "ol" eq_refl aging_ok) as (ix & l & Hr & Hl & _ & Hin).
  exists ix, l. split; [exact Hr|]. split; [exact Hl|]. split.
  - apply Hin. exists "old"%string. split; reflexivity.
  - intros Hn. apply Hin in Hn. destruct Hn as (s & Hs & _). discriminate Hs.
Defined.

End RangeScan.
