(* ===== verification/Bitmap.v ===== *)
(** * Presence bitmaps

    Models the [Bitmap] of [crates/core-storage/src/columns.rs] over the chunked
    vector, and the loop that visits the set bits of a run of words, which
    [crates/core-storage/src/v8/encode.rs] has again for archived words.  A word is a
    64-bit [Z], a node id a 32-bit one. *)

From S2P Require Import Prelude Order Bytes Types CowVec VisibleSet Pack.

Module Bitmap.
Import VisibleSet.

Record t := mk { bits : CowVec.t Z }.

Definition new : t := mk CowVec.new.

Definition word_of (i : Z) : nat := Z.to_nat (i / 64).
Definition mask_of (i : Z) : Z := Z.shiftl 1 (i mod 64).
(** [!mask] *)
Definition not64 (w : Z) : Z := Z.lxor u64_max w.

Definition contains (self : t) (i : Z) : bool :=
  match CowVec.get (bits self) (word_of i) with
  | Some w => negb (Z.land w (mask_of i) =? 0)
  | None => false
  end.

Definition set (self : t) (i : Z) : option (bool * t) :=
  bs ← (if (CowVec.len (bits self) <=? word_of i)%nat then CowVec.grow_to (bits self) (S (word_of i)) 0 else Some (bits self));
  w ← CowVec.get bs (word_of i);
  if negb (Z.land w (mask_of i) =? 0) then Some (false, mk bs)
  else
    bs ← CowVec.set bs (word_of i) (Z.lor w (mask_of i));
    Some (true, mk bs).

Definition clear (self : t) (i : Z) : option (bool * t) :=
  match CowVec.get (bits self) (word_of i) with
  | None => Some (false, self)
  | Some w =>
      if Z.land w (mask_of i) =? 0 then Some (false, self)
      else
        bs ← CowVec.set (bits self) (word_of i) (Z.land w (not64 (mask_of i)));
        Some (true, mk bs)
  end.

(** [w.trailing_zeros()] of a 64-bit word *)
Fixpoint pos_ctz (p : positive) : Z := match p with xO p => 1 + pos_ctz p | _ => 0 end.
Definition trailing_zeros (w : Z) : Z := match w with Zpos p => pos_ctz p | _ => 64 end.

(** [while w != 0 { f(w.trailing_zeros()); w &= w - 1; }]: a word has 64 bits. *)
Fixpoint word_loop (fuel : nat) (w : Z) : list Z :=
  match fuel with
  | O => []
  | S fuel => if w =? 0 then [] else trailing_zeros w :: word_loop fuel (Z.land w (w - 1))
  end.

(** [bitmap_for_each]: the ids in the order they are visited. *)
Definition words_for_each (words : list Z) : list Z :=
  concat (imap (λ wi w, (λ b, wrap_u 32 (wrap_u 32 (Z.of_nat wi * 64) + b)) <$> word_loop 64 w) words).

Definition for_each (self : t) : list Z := words_for_each (CowVec.iter (bits self)).

Definition live_count (self : t) : Z := foldl Z.add 0 (count_ones <$> CowVec.iter (bits self)).

Definition pack (self : t) (out : list Z) : list Z :=
  foldl (λ out w, out ++ le_bytes 8 w) (Pack.push_u32 out (wrap_u 32 (Z.of_nat (CowVec.len (bits self))))) (CowVec.iter (bits self)).

(** The words of a packed bitmap; [unpack_bitmap] of [encode.rs] reads the same. *)
Definition unpack_words : reader GraphError (list Z) :=
  n ← Pack.read_u32;
  bytes ← Pack.read_exact (Pack.saturating_mul n 8);
  mret (le_val <$> chunks_exact (length bytes) 8 bytes).

Definition unpack : reader GraphError t :=
  words ← unpack_words;
  mret (mk (CowVec.from_vec words)).

(** ** The bits of a word *)

Lemma word_high w k : in_u 64 w → 64 ≤ k → Z.testbit w k = false.
Proof. intros Hw. apply in_u_bits; [apply Hw|done]. Qed.

Lemma mask_bit i k : 0 ≤ i → Z.testbit (mask_of i) k = (i mod 64 =? k).
Proof. intros Hi. apply testbit_bit. pose proof (Z.mod_pos_bound i 64). lia. Qed.

Lemma mask_u64 i : 0 ≤ i → in_u 64 (mask_of i).
Proof.
  intros Hi. apply in_u_bits; [unfold mask_of; by apply Z.shiftl_nonneg|]. intros k Hk. rewrite mask_bit by done.
  pose proof (Z.mod_pos_bound i 64). lia.
Qed.

Lemma masked w i : 0 ≤ i → negb (Z.land w (mask_of i) =? 0) = Z.testbit w (i mod 64).
Proof. intros Hi. unfold mask_of. rewrite land_bit by (pose proof (Z.mod_pos_bound i 64); lia). apply negb_involutive. Qed.

Lemma lor_mask_u64 w i : in_u 64 w → 0 ≤ i → in_u 64 (Z.lor w (mask_of i)).
Proof.
  intros Hw Hi. pose proof (mask_u64 i Hi) as Hm. apply in_u_bits; [apply Z.lor_nonneg; split; [apply Hw|apply Hm]|].
  intros k Hk. by rewrite Z.lor_spec, !word_high.
Qed.

Lemma not64_bit w k : 0 ≤ k < 64 → Z.testbit (not64 w) k = negb (Z.testbit w k).
Proof.
  intros Hk. unfold not64. rewrite Z.lxor_spec. change u64_max with (Z.ones 64). rewrite Z.ones_spec_low by done. apply xorb_true_l.
Qed.

Lemma land_u64 w v : in_u 64 w → in_u 64 (Z.land w v).
Proof.
  intros Hw. apply in_u_bits; [apply Z.land_nonneg; left; apply Hw|]. intros k Hk. by rewrite Z.land_spec, word_high.
Qed.

(** [w & (w - 1)] clears the lowest bit set, [w.trailing_zeros()]. *)
Lemma clear_lowest p k : 0 ≤ k →
  Z.testbit (Z.land (Zpos p) (Zpos p - 1)) k = Z.testbit (Zpos p) k && negb (k =? pos_ctz p).
Proof.
  intros Hk. rewrite Z.land_spec. destruct (Z.testbit (Z.pos p) k) eqn:Hb; [|done]. rewrite andb_true_l. revert k Hk Hb.
  induction p as [p IH|p IH|]; intros k Hk Hb; cbn [pos_ctz].
  - replace (Z.pos p~1 - 1) with (2 * Z.pos p) by lia. destruct (Z.eqb_spec k 0) as [->|Hk0]; [apply Z.testbit_even_0|].
    rewrite Z.double_bits. rewrite <-(Z.succ_pred k), Pos2Z.inj_xI, Z.testbit_odd_succ in Hb by lia. cbn [negb]. exact Hb.
  - replace (Z.pos p~0 - 1) with (2 * (Z.pos p - 1) + 1) by lia. destruct (decide (k = 0)) as [->|Hk0].
    { by rewrite Pos2Z.inj_xO, Z.testbit_even_0 in Hb. }
    rewrite <-(Z.succ_pred k) in Hb |- *. rewrite Pos2Z.inj_xO, Z.testbit_even_succ in Hb by lia. rewrite Z.testbit_odd_succ by lia.
    rewrite IH by (done || lia). apply (f_equal negb). apply eq_iff_eq_true. rewrite !Z.eqb_eq. lia.
  - destruct (decide (k = 0)) as [->|Hk0]; [done|]. rewrite <-(Z.succ_pred k) in Hb.
    change (Z.testbit 1 (Z.succ (Z.pred k)) = true) in Hb. change 1 with (2 * 0 + 1) in Hb. rewrite Z.testbit_odd_succ, Z.bits_0 in Hb; [done|lia].
Qed.

Lemma lowest_bit p : Z.testbit (Zpos p) (pos_ctz p) = true ∧ 0 ≤ pos_ctz p.
Proof.
  induction p as [p IH|p [IH1 IH2]|]; cbn [pos_ctz]; [by rewrite Pos2Z.inj_xI, Z.testbit_odd_0| |done].
  split; [|lia]. rewrite Pos2Z.inj_xO. replace (1 + pos_ctz p) with (Z.succ (pos_ctz p)) by lia. by rewrite Z.testbit_even_succ.
Qed.

Lemma lowest_bit_least p k : 0 ≤ k → Z.testbit (Zpos p) k = true → pos_ctz p ≤ k.
Proof.
  revert k; induction p as [p IH|p IH|]; intros k Hk Hb; cbn [pos_ctz]; [lia| |lia].
  destruct (decide (k = 0)) as [->|Hk0]; [by rewrite Pos2Z.inj_xO, Z.testbit_even_0 in Hb|].
  rewrite <-(Z.succ_pred k), Pos2Z.inj_xO, Z.testbit_even_succ in Hb by lia. pose proof (IH (Z.pred k) ltac:(lia) Hb). lia.
Qed.

(** The loop visits the bits of a word from the lowest. *)
Lemma word_loop_spec fuel w lo : in_u 64 w → 0 ≤ lo ≤ 64 → 64 - lo ≤ Z.of_nat fuel → (∀ k, 0 ≤ k < lo → Z.testbit w k = false) →
  sorted (word_loop fuel w) ∧ (∀ b, b ∈ word_loop fuel w ↔ 0 ≤ b < 64 ∧ Z.testbit w b = true).
Proof.
  revert w lo; induction fuel as [|fuel IH]; intros w lo Hw Hlo Hf Hz.
  - split; [constructor|]. intros b. cbn [word_loop]. split; [by intros ?%elem_of_nil|]. intros [? Hb]. rewrite Hz in Hb by lia. done.
  - cbn [word_loop]. destruct (Z.eqb_spec w 0) as [->|Hne].
    { split; [constructor|]. intros b. rewrite Z.bits_0. split; [by intros ?%elem_of_nil|naive_solver]. }
    destruct w as [|p|p]; [done| |by destruct Hw]. cbn [trailing_zeros]. destruct (lowest_bit p) as [Hl Hp].
    assert (lo ≤ pos_ctz p) as Hle. { destruct (decide (lo ≤ pos_ctz p)); [done|]. rewrite Hz in Hl by lia. done. }
    assert (pos_ctz p < 64) as Hlt. { destruct (decide (pos_ctz p < 64)); [done|]. rewrite word_high in Hl by (done || lia). done. }
    destruct (IH (Z.land (Z.pos p) (Z.pos p - 1)) (pos_ctz p + 1)) as [Hs He].
    + by apply land_u64.
    + lia.
    + lia.
    + intros k Hk. rewrite clear_lowest by lia. destruct (Z.testbit (Z.pos p) k) eqn:Hb; [|done].
      pose proof (lowest_bit_least p k ltac:(lia) Hb). rewrite (proj2 (Z.eqb_eq _ _)) by lia. done.
    + assert (∀ b, b ∈ word_loop fuel (Z.land (Z.pos p) (Z.pos p - 1)) ↔ 0 ≤ b < 64 ∧ Z.testbit (Z.pos p) b = true ∧ b ≠ pos_ctz p) as He'.
      { intros b. rewrite He. split.
        - intros [Hb H]. rewrite clear_lowest in H by lia. apply andb_prop in H as [H1 H2%negb_true_iff%Z.eqb_neq]. done.
        - intros (Hb & H1 & H2). split; [done|]. rewrite clear_lowest, H1 by lia. apply negb_true_iff. by apply Z.eqb_neq. }
      split.
      * apply sorted_cons. split; [done|]. intros y (Hy & Hb & Hn)%He'. pose proof (lowest_bit_least p y ltac:(lia) Hb).
        unfold klt, cmp, Z_ord. rewrite Z.compare_lt_iff. lia.
      * intros b. rewrite elem_of_cons, He'. destruct (decide (b = pos_ctz p)) as [->|]; naive_solver.
Qed.

Lemma word_loop_bits w : in_u 64 w → word_loop 64 w = word_bits w.
Proof.
  intros Hw. destruct (word_loop_spec 64 w 0 Hw) as [Hs He]; [lia|lia|lia|].
  apply sorted_ext; [done|apply sorted_seqZ_filter|]. intros b. by rewrite He, elem_of_word_bits.
Qed.

Lemma words_for_each_bits words : Forall (in_u 64) words → words_for_each words = VisibleSet.bits words.
Proof.
  intros Hw. unfold words_for_each, VisibleSet.bits. f_equal. apply imap_ext. intros i w Hi. cbv beta. rewrite word_loop_bits; [done|].
  by eapply Forall_lookup_1.
Qed.

(** ** The set a bitmap holds *)

Definition rep (self : t) (S : gset Z) : Prop :=
  ∃ words, CowVec.rep (bits self) words ∧ Forall (in_u 64) words ∧ small words ∧ ids_of words = S.

Lemma rep_bit self S i : rep self S → 0 ≤ i →
  ∃ words, CowVec.rep (bits self) words ∧ Forall (in_u 64) words ∧ small words ∧ ids_of words = S ∧ (i ∈ S ↔ bit_at words i).
Proof.
  intros (words & Hr & Hw & Hs & <-) Hi. exists words. split_and!; [done..|]. rewrite elem_of_ids_of by done. naive_solver.
Qed.

Lemma new_bitmap_rep : rep new ∅.
Proof. exists []. split_and!; [apply CowVec.new_rep|done|done|done]. Qed.

Lemma contains_bit_spec self S i : rep self S → 0 ≤ i → contains self i = bool_decide (i ∈ S).
Proof.
  intros Hr Hi. destruct (rep_bit self S i Hr Hi) as (words & Hv & _ & _ & _ & Hin). unfold contains. rewrite (CowVec.get_spec _ words) by done. unfold bit_at in Hin.
  unfold word_of in *. destruct (words !! Z.to_nat (i / 64)) as [w|].
  - rewrite masked by done. apply eq_iff_eq_true. rewrite bool_decide_eq_true. naive_solver.
  - symmetry. apply bool_decide_eq_false. naive_solver.
Qed.

Lemma small_grown words i : small words → in_u 32 i → small (words ++ replicate (S (word_of i) - length words) 0).
Proof. unfold small, in_u, word_of. intros Hs Hi. rewrite length_app, length_replicate. divlia. Qed.

Lemma rep_of_words (v : CowVec.t Z) words S : CowVec.rep v words → Forall (in_u 64) words → small words → (∀ x, 0 ≤ x → bit_at words x ↔ x ∈ S) → (∀ x, x ∈ S → 0 ≤ x) → rep (mk v) S.
Proof.
  intros Hv Hw Hs Hb Hn. exists words. split_and!; [done..|]. apply set_eq. intros x. rewrite elem_of_ids_of by done. naive_solver.
Qed.

Lemma rep_nonneg self S x : rep self S → x ∈ S → 0 ≤ x.
Proof. intros (words & _ & _ & Hs & <-). rewrite elem_of_ids_of by done. naive_solver. Qed.

Lemma set_bit_spec self S i : rep self S → in_u 32 i → ∃ self', set self i = Some (bool_decide (i ∉ S), self') ∧ rep self' ({[i]} ∪ S).
Proof.
  intros Hr Hi. pose proof (rep_nonneg self S) as Hnn. specialize (λ x, Hnn x Hr). assert (0 ≤ i) as Hi0 by apply Hi. destruct Hr as (words & Hv & Hw & Hs & HS). unfold set.
  set (words1 := words ++ replicate (Datatypes.S (word_of i) - length words) 0).
  assert (∃ bs, (if (CowVec.len (bits self) <=? word_of i)%nat then CowVec.grow_to (bits self) (Datatypes.S (word_of i)) 0 else Some (bits self)) = Some bs ∧ CowVec.rep bs words1) as (bs & -> & Hbs).
  { assert (CowVec.len (bits self) = length words) as Hl by (destruct Hv as [(-> & _) <-]; done). rewrite Hl. destruct (Nat.leb_spec (length words) (word_of i)) as [Hle|Hgt].
    - destruct (CowVec.grow_loop_spec (Datatypes.S (word_of i) - CowVec.len (bits self)) (bits self) words (Datatypes.S (word_of i)) 0 Hv) as (v & Hg & Hv'); [lia|]. unfold CowVec.grow_to. eauto.
    - exists (bits self). split; [done|]. unfold words1. replace (Datatypes.S (word_of i) - length words)%nat with 0%nat by lia. by rewrite app_nil_r. }
  assert (ids_of words1 = S) as HS1 by (unfold ids_of, words1; rewrite bits_zeros; exact HS).
  assert (small words1) as Hs1 by by apply small_grown.
  assert (Forall (in_u 64) words1) as Hw1 by (apply Forall_app; split; [done|]; by apply Forall_replicate).
  cbn [mbind option_bind]. rewrite (CowVec.get_spec _ words1) by done.
  destruct (lookup_lt_is_Some_2 words1 (word_of i)) as [w Hlk]; [unfold words1; rewrite length_app, length_replicate; lia|]. rewrite Hlk. cbn [mbind option_bind]. rewrite masked by done.
  assert (i ∈ S ↔ Z.testbit w (i mod 64) = true) as Hin. { rewrite <-HS1, elem_of_ids_of by done. unfold bit_at. unfold word_of in Hlk. rewrite Hlk. naive_solver. }
  destruct (Z.testbit w (i mod 64)) eqn:E.
  - exists (mk bs). rewrite bool_decide_eq_false_2 by tauto. split; [done|]. exists words1. split_and!; [done..|]. rewrite HS1. set_solver.
  - pose proof (CowVec.set_spec bs words1 (word_of i) (Z.lor w (mask_of i)) Hbs) as Hset. destruct (CowVec.set bs _ _) as [bs'|]; [|apply lookup_lt_Some in Hlk; lia].
    destruct Hset as [_ Hset]. cbn [mbind option_bind]. exists (mk bs'). rewrite bool_decide_eq_true_2 by (rewrite Hin; done). split; [done|].
    eapply rep_of_words; [done| | | |].
    + apply Forall_insert; [done|]. apply lor_mask_u64; [|done]. by eapply Forall_lookup_1.
    + unfold small. by rewrite length_insert.
    + intros x Hx. unfold mask_of, word_of in *. rewrite bit_at_insert by done. rewrite elem_of_union, elem_of_singleton, <-HS1, elem_of_ids_of by done. naive_solver.
    + set_solver.
Qed.

Lemma bit_at_clear words i w x : Forall (in_u 64) words → 0 ≤ i → 0 ≤ x → words !! word_of i = Some w →
  bit_at (<[word_of i := Z.land w (not64 (mask_of i))]> words) x ↔ x ≠ i ∧ bit_at words x.
Proof.
  intros Hw Hi Hx Hlk. pose proof (Z.mod_pos_bound i 64 ltac:(lia)). pose proof (Z.mod_pos_bound x 64 ltac:(lia)). unfold bit_at, word_of in *.
  destruct (decide (Z.to_nat (i / 64) = Z.to_nat (x / 64))) as [E|E].
  - rewrite <-E, list_lookup_insert_eq by (by eapply lookup_lt_Some). rewrite Hlk.
    assert (Z.testbit (Z.land w (not64 (mask_of i))) (x mod 64) = true ↔ Z.testbit w (x mod 64) = true ∧ x ≠ i) as Hb.
    { rewrite Z.land_spec, not64_bit, mask_bit, andb_true_iff, negb_true_iff, Z.eqb_neq by done. assert (i / 64 = x / 64) by divlia. split; intros [? ?]; (split; [done|]); divlia. }
    split; [intros (w' & [= <-] & Ht%Hb); naive_solver|]. intros (Hne & w' & [= <-] & Ht). eexists. split; [done|]. by apply Hb.
  - rewrite list_lookup_insert_ne by done. split; [|tauto]. intros H'. split; [|done]. intros ->. done.
Qed.

Lemma clear_spec self S i : rep self S → 0 ≤ i → ∃ self', clear self i = Some (bool_decide (i ∈ S), self') ∧ rep self' (S ∖ {[i]}).
Proof.
  intros Hr Hi. pose proof (rep_nonneg self S) as Hnn. specialize (λ x, Hnn x Hr). pose proof Hr as Hr0. destruct (rep_bit self S i Hr Hi) as (words & Hv & Hw & Hs & HS & Hin). unfold clear. rewrite (CowVec.get_spec _ words) by done.
  assert (i ∉ S → rep self (S ∖ {[i]})) as Hsame. { intros Hni. by replace (S ∖ {[i]}) with S by set_solver. } unfold bit_at in Hin.
  destruct (words !! word_of i) as [w|] eqn:Hlk; unfold word_of in Hlk; rewrite Hlk in Hin.
  - rewrite <-(negb_involutive (_ =? 0)), masked by done. destruct (Z.testbit w (i mod 64)) eqn:E; cbn [negb].
    + pose proof (CowVec.set_spec (bits self) words (word_of i) (Z.land w (not64 (mask_of i))) Hv) as Hset. destruct (CowVec.set _ _ _) as [bs'|]; [|apply lookup_lt_Some in Hlk; unfold word_of in *; lia].
      destruct Hset as [_ Hset]. cbn [mbind option_bind]. exists (mk bs'). rewrite bool_decide_eq_true_2 by naive_solver. split; [done|]. eapply rep_of_words; [done| | | |].
      * apply Forall_insert; [done|]. apply land_u64. by eapply Forall_lookup_1.
      * unfold small. by rewrite length_insert.
      * intros x Hx. rewrite bit_at_clear by done. rewrite elem_of_difference, not_elem_of_singleton, <-HS, elem_of_ids_of by done. naive_solver.
      * set_solver.
    + assert (i ∉ S) by (intros (? & ? & ?)%Hin; congruence). exists self. rewrite bool_decide_eq_false_2 by done. eauto.
  - assert (i ∉ S) by (intros (? & ? & ?)%Hin; congruence). exists self. rewrite bool_decide_eq_false_2 by done. eauto.
Qed.

Lemma for_each_spec self S : rep self S → sorted (for_each self) ∧ (∀ x, x ∈ for_each self ↔ x ∈ S) ∧ length (for_each self) = size S.
Proof.
  intros (words & [_ Hv] & Hw & Hs & HS). unfold for_each. rewrite Hv, words_for_each_bits by done. split; [by apply sorted_bits|]. rewrite <-HS. split; [|by rewrite size_ids_of].
  intros x. unfold ids_of. by rewrite elem_of_list_to_set.
Qed.

Lemma count_words words acc : foldl Z.add acc (count_ones <$> words) = acc + Z.of_nat (length (VisibleSet.bits words)).
Proof.
  revert acc; induction words as [|w words IH] using rev_ind; intros acc; [cbn; lia|]. rewrite fmap_app, foldl_app, IH, bits_snoc, length_app, length_fmap. cbn [foldl fmap list_fmap]. unfold count_ones. lia.
Qed.

Lemma live_count_spec self S : rep self S → live_count self = Z.of_nat (size S).
Proof. intros (words & [_ Hv] & Hw & Hs & <-). unfold live_count. by rewrite Hv, count_words, size_ids_of. Qed.

(** ** The packed form *)

Definition enc (words : list Z) : list Z := le_bytes 4 (wrap_u 32 (Z.of_nat (length words))) ++ (words ≫= le_bytes 8).

Lemma pack_enc self S out : rep self S → ∃ words, CowVec.rep (bits self) words ∧ Forall (in_u 64) words ∧ small words ∧ ids_of words = S ∧ pack self out = out ++ enc words.
Proof.
  intros (words & Hv & Hw & Hs & HS). exists words. split_and!; [done..|]. destruct Hv as [(Hl & _) Hi]. unfold pack, enc. rewrite Hi, Hl. change (concat (CowVec.chunks (bits self))) with (CowVec.iter (bits self)). rewrite Hi.
  unfold Pack.push_u32. rewrite app_assoc. generalize (out ++ le_bytes 4 (wrap_u 32 (Z.of_nat (length words)))) as o. clear. induction words as [|w words IH]; intros o; cbn [foldl]; [by rewrite app_nil_r|]. by rewrite IH, bind_cons, app_assoc.
Qed.

Lemma reads_words words : Forall (in_u 64) words → small words → reads unpack_words (enc words) words.
Proof.
  intros Hw Hs. unfold unpack_words, enc. set (n := Z.of_nat (length words)) in *. assert (in_u 32 n) as Hn by (unfold small, in_u in *; lia). rewrite wrap_u_id by done.
  eapply reads_bind; [by apply Pack.reads_u32|]. rewrite Pack.saturating_mul_id by (done || (unfold in_u; lia)). rewrite <-(Pack.words_val 8 words) at 2 by exact Hw.
  rewrite <-(Pack.chunks_exact_words (length (words ≫= le_bytes 8)) 8 words) by (rewrite ?Pack.length_words; lia). apply (reads_bind_ret _ (λ bytes, le_val <$> chunks_exact (length bytes) 8 bytes)).
  assert (n * 8 = len_z (words ≫= le_bytes 8)) as Hlen by (unfold len_z; rewrite Pack.length_words; lia). rewrite Hlen. apply Pack.reads_exact. unfold isize_max, small in *. lia.
Qed.

Lemma reads_bitmap words : Forall (in_u 64) words → small words → reads unpack (enc words) (mk (CowVec.from_vec words)).
Proof. intros Hw Hs. unfold unpack. apply (reads_bind_ret _ (λ words, mk (CowVec.from_vec words))). by apply reads_words. Qed.

End Bitmap.
