(* ===== verification/Columns.v ===== *)
(** * Property columns

    Models [crates/core-storage/src/columns.rs]: a column per field, typed while its
    values have one type (a dense vector and a presence bitmap), a B+tree from node to
    value once they do not; a table of the strings; tombstones over the snapshot's
    columns; and the packed form.  A [HashMap] is a [gmap], a [BTreeSet<String>] a
    [gset].  [None] is a panic.  The hash of a string is a parameter ([hash]), as are
    [bincode]'s encoder and decoder of a node-to-value map. *)

From Stdlib Require Import Init.Byte.
From S2P Require Import Prelude Order Assoc Bytes Utf8 Types CowVec CowMap CowMapIter HashIndex Pack VisibleSet Bitmap Tagged.
Open Scope Z_scope.

(** ** The strings *)

Module StrIntern.
Section intern.
Context (hash : string → Z).

Record t := mk { index : HashIndex.t; values : CowVec.t Value.t }.

Definition new : t := mk HashIndex.new CowVec.new.

Definition text_of (self : t) (id : Z) : option string :=
  match CowVec.get (values self) (Z.to_nat id) with Some (Value.Str x) => Some x | _ => None end.

Definition find (self : t) (s : string) (h : Z) : option Z := HashIndex.get_hashed (index self) s h (text_of self).

Definition intern (self : t) (s : string) : option (Z * t) :=
  let h := hash s in
  match find self s h with
  | Some id => Some (id, self)
  | None =>
      let id := wrap_u 32 (Z.of_nat (CowVec.len (values self))) in
      index ← HashIndex.insert_hashed (index self) s h id;
      Some (id, mk index (CowVec.push (values self) (Value.Str s)))
  end.

(** The index panics out of range. *)
Definition get (self : t) (id : Z) : option Value.t := CowVec.get (values self) (Z.to_nat id).

(** One string of the table; a value that is not a string is [unreachable!]. *)
Definition pack_value (out : list Z) (v : Value.t) : option (list Z) :=
  match v with Value.Str s => Some (Pack.push_str out s) | _ => None end.

Definition pack (self : t) (out : list Z) : option (list Z) :=
  foldl (λ out v, out ← out; pack_value out v) (Some (Pack.push_u32 out (wrap_u 32 (Z.of_nat (CowVec.len (values self)))))) (CowVec.iter (values self)).

(** The [i]-th string of a packed table; a string listed twice keeps its first id. *)
Definition unpack_value (self : t) (i : Z) (s : string) : option t :=
  let h := hash s in
  index ← match find self s h with
          | None => HashIndex.insert_hashed (index self) s h (wrap_u 32 i)
          | Some _ => Some (index self)
          end;
  Some (mk index (CowVec.push (values self) (Value.Str s))).

Definition unpack_table (ss : list string) : option t :=
  foldl (λ st '(i, s), self ← st; unpack_value self i s) (Some new) (imap (λ i s, (Z.of_nat i, s)) ss).

End intern.
End StrIntern.

(** ** Types of fixed width *)

Module Fixed.

Inductive t := Int | Float | Bool | Date | Ldt | Dt | Dur.
#[global] Instance fixed_eq_dec : EqDecision t.
Proof. solve_decision. Defined.

Definition of_value (value : Value.t) : option t :=
  match value with
  | Value.Int _ => Some Int
  | Value.Float _ => Some Float
  | Value.Bool _ => Some Bool
  | Value.Date _ => Some Date
  | Value.LocalDateTime _ => Some Ldt
  | Value.DateTime _ _ => Some Dt
  | Value.Duration _ _ _ => Some Dur
  | _ => None
  end.

Definition filler (self : t) : Value.t :=
  match self with
  | Int => Value.Int 0
  | Float => Value.Float 0
  | Bool => Value.Bool false
  | Date => Value.Date 0
  | Ldt => Value.LocalDateTime 0
  | Dt => Value.DateTime 0 0
  | Dur => Value.Duration 0 0 0
  end.

Definition tag (self : t) : Z :=
  match self with Int => 0 | Float => 1 | Bool => 2 | Date => 5 | Ldt => 6 | Dt => 7 | Dur => 8 end.

Definition width (self : t) : nat :=
  match self with Bool => 1 | Date => 4 | Int | Float | Ldt => 8 | Dt => 12 | Dur => 16 end.

(** The raw little-endian form; a value of another type is [unreachable!]. *)
Definition raw (self : t) (v : Value.t) : option (list Z) :=
  match self, v with
  | Int, Value.Int i | Ldt, Value.LocalDateTime i => Some (le_bytes 8 (wrap_u 64 i))
  | Float, Value.Float f => Some (le_bytes 8 f)
  | Bool, Value.Bool b => Some [if b then 1 else 0]
  | Date, Value.Date d => Some (le_bytes 4 (wrap_u 32 d))
  | Dt, Value.DateTime micros_utc offset_seconds => Some (le_bytes 8 (wrap_u 64 micros_utc) ++ le_bytes 4 (wrap_u 32 offset_seconds))
  | Dur, Value.Duration months days nanos => Some (le_bytes 4 (wrap_u 32 months) ++ le_bytes 4 (wrap_u 32 days) ++ le_bytes 8 (wrap_u 64 nanos))
  | _, _ => None
  end.

Definition push_raw (self : t) (v : Value.t) (out : list Z) : option (list Z) := app out <$> raw self v.

Definition le_i32 (b : list Z) : Z := wrap_i 32 (le_val (take 4 b)).
Definition le_i64 (b : list Z) : Z := wrap_i 64 (le_val (take 8 b)).

Definition read_raw (self : t) (b : list Z) : Value.t :=
  match self with
  | Int => Value.Int (le_i64 b)
  | Float => Value.Float (le_val (take 8 b))
  | Bool => Value.Bool (negb (hd 0 b =? 0))
  | Date => Value.Date (le_i32 b)
  | Ldt => Value.LocalDateTime (le_i64 b)
  | Dt => Value.DateTime (le_i64 (take 8 b)) (le_i32 (drop 8 b))
  | Dur => Value.Duration (le_i32 (take 4 b)) (le_i32 (take 4 (drop 4 b))) (le_i64 (drop 8 b))
  end.

(** The type of a column's pack tag. *)
Definition of_tag (tag : Z) : option t :=
  match tag with
  | 0 => Some Int | 1 => Some Float | 2 => Some Bool | 5 => Some Date | 6 => Some Ldt | 7 => Some Dt | 8 => Some Dur
  | _ => None
  end.

End Fixed.

(** ** A column *)

Module Column.
Section column.
Context (hash : string → Z).

Inductive t :=
| Fixed_ (kind : Fixed.t) (values : CowVec.t Value.t) (present : Bitmap.t) (live : Z)
| Str_ (ids : CowVec.t Z) (present : Bitmap.t) (live : Z)
| Binary_ (data : CowVec.t Value.t) (present : Bitmap.t) (live : Z)
| Mixed (map : CowMap.t Z Value.t).

Definition empty_binary : Value.t := Value.Binary [].

Definition accepts (self : t) (value : Value.t) : bool :=
  match self with
  | Fixed_ kind _ _ _ => bool_decide (Fixed.of_value value = Some kind)
  | Str_ _ _ _ => match value with Value.Str _ => true | _ => false end
  | Binary_ _ _ _ => match value with Value.Binary _ => true | _ => false end
  | Mixed _ => true
  end.

(** The write of a dense column: grown to the slot, set, marked, counted. *)
Definition dense_set {A} (vec : CowVec.t A) (filler x : A) (present : Bitmap.t) (live node : Z) : option (CowVec.t A * Bitmap.t * Z) :=
  let i := Z.to_nat node in
  vec ← (if (CowVec.len vec <=? i)%nat then CowVec.grow_to vec (S i) filler else Some vec);
  vec ← CowVec.set vec i x;
  '(fresh, present) ← Bitmap.set present node;
  Some (vec, present, if fresh : bool then live + 1 else live).

(** [values[i as usize]] for every node present. *)
Definition dense_map {A} (read : A → option Value.t) (vec : CowVec.t A) (present : Bitmap.t) : option (gmap Z Value.t) :=
  foldl (λ m i, m ← m; x ← CowVec.get vec (Z.to_nat i); v ← read x; Some (<[i := v]> m)) (Some ∅) (Bitmap.for_each present).

(** [map.iter()] run to its end *)
Definition map_entries {K V} `{RustOrd K} (m : CowMap.t K V) : option (list (K * V)) :=
  it ← CowMapIter.range m Unbounded Unbounded; CowMapIter.collect (S (CowMap.len m)) it.

Definition to_map (self : t) (intern : StrIntern.t) : option (gmap Z Value.t) :=
  match self with
  | Mixed map => list_to_map <$> map_entries map
  | Fixed_ _ values present _ | Binary_ values present _ => dense_map Some values present
  | Str_ ids present _ => dense_map (StrIntern.get intern) ids present
  end.

(** [entries.sort_unstable_by_key(|(node, _)| *node)] of a map's entries *)
Definition sorted_entries (m : gmap Z Value.t) : list (Z * Value.t) :=
  omap (λ node, pair node <$> m !! node) (sort_unstable (map_to_list m).*1).

Definition take_map (self : t) (intern : StrIntern.t) : option (CowMap.t Z Value.t) :=
  match self with
  | Mixed map => Some map
  | other => m ← to_map other intern; CowMapIter.from_sorted (sorted_entries m)
  end.

Definition set (self : t) (node : Z) (value : Value.t) (intern : StrIntern.t) : option (t * StrIntern.t) :=
  if negb (accepts self value) then
    map ← take_map self intern;
    '(_, map) ← CowMap.insert map node value;
    Some (Mixed map, intern)
  else
    match self, value with
    | Fixed_ kind values present live, v =>
        '(values, present, live) ← dense_set values (Fixed.filler kind) v present live node;
        Some (Fixed_ kind values present live, intern)
    | Str_ ids present live, Value.Str s =>
        '(id, intern) ← StrIntern.intern hash intern s;
        '(ids, present, live) ← dense_set ids 0 id present live node;
        Some (Str_ ids present live, intern)
    | Binary_ data present live, v =>
        '(data, present, live) ← dense_set data empty_binary v present live node;
        Some (Binary_ data present live, intern)
    | Mixed map, v =>
        '(_, map) ← CowMap.insert map node v;
        Some (Mixed map, intern)
    | _, _ => None
    end.

Definition from_first (node : Z) (value : Value.t) (intern : StrIntern.t) : option (t * StrIntern.t) :=
  let col := match value with
             | Value.Str _ => Str_ CowVec.new Bitmap.new 0
             | Value.Binary _ => Binary_ CowVec.new Bitmap.new 0
             | other => match Fixed.of_value other with
                        | Some kind => Fixed_ kind CowVec.new Bitmap.new 0
                        | None => Mixed CowMap.new
                        end
             end in
  set col node value intern.

Definition get (self : t) (node : Z) (intern : StrIntern.t) : option (option Value.t) :=
  match self with
  | Fixed_ _ values present _ | Binary_ values present _ =>
      Some (if Bitmap.contains present node then CowVec.get values (Z.to_nat node) else None)
  | Str_ ids present _ =>
      if Bitmap.contains present node then id ← CowVec.get ids (Z.to_nat node); Some <$> StrIntern.get intern id
      else Some None
  | Mixed map => CowMap.get map node
  end.

Definition remove (self : t) (node : Z) (intern : StrIntern.t) : option (option Value.t * t) :=
  match self with
  | Fixed_ kind values present live =>
      '(was, cleared) ← Bitmap.clear present node;
      if was : bool then v ← CowVec.get values (Z.to_nat node); Some (Some v, Fixed_ kind values cleared (live - 1))
      else Some (None, Fixed_ kind values cleared live)
  | Str_ ids present live =>
      '(was, cleared) ← Bitmap.clear present node;
      if was : bool then id ← CowVec.get ids (Z.to_nat node); v ← StrIntern.get intern id; Some (Some v, Str_ ids cleared (live - 1))
      else Some (None, Str_ ids cleared live)
  | Binary_ data present live =>
      '(was, cleared) ← Bitmap.clear present node;
      if was : bool then '(v, data) ← CowVec.replace data (Z.to_nat node) empty_binary; Some (Some v, Binary_ data cleared (live - 1))
      else Some (None, Binary_ data cleared live)
  | Mixed map => '(old, map) ← CowMap.remove map node; Some (old, Mixed map)
  end.

Definition is_empty (self : t) : bool :=
  match self with
  | Mixed map => CowMap.is_empty map
  | Fixed_ _ _ _ live | Str_ _ _ live | Binary_ _ _ live => live =? 0
  end.

End column.
End Column.

(** ** The store *)

Module ColumnStore.
Section store.
Context (hash : string → Z).

Record t := mk {
  cols : gmap string Column.t;
  intern : StrIntern.t;
  prop_tombstones : CowMap.t Z (gset string);
}.

Definition new : t := mk ∅ StrIntern.new CowMap.new.

Definition set (self : t) (node : Z) (field : string) (value : Value.t) : option t :=
  '(col, intern') ← match cols self !! field with
                    | Some col => Column.set hash col node value (intern self)
                    | None => Column.from_first hash node value (intern self)
                    end;
  Some (mk (<[field := col]> (cols self)) intern' (prop_tombstones self)).

Definition get (self : t) (node : Z) (field : string) : option (option Value.t) :=
  match cols self !! field with
  | Some col => Column.get col node (intern self)
  | None => Some None
  end.

Definition fields (self : t) : gset string := dom (cols self).

Definition remove (self : t) (node : Z) (field : string) : option (option Value.t * t) :=
  match cols self !! field with
  | None => Some (None, self)
  | Some col =>
      here ← Column.get col node (intern self);
      match here with
      | None => Some (None, self)
      | Some _ =>
          '(old, col) ← Column.remove col node (intern self);
          match old with
          | None => Some (None, mk (<[field := col]> (cols self)) (intern self) (prop_tombstones self))
          | Some old =>
              Some (Some old, mk (if Column.is_empty col then delete field (cols self) else <[field := col]> (cols self)) (intern self) (prop_tombstones self))
          end
      end
  end.

(** What [remove_all] makes of one column: [None] when it is dropped. *)
Definition forget (self : t) (node : Z) (col : Column.t) : option (option Column.t) :=
  here ← Column.get col node (intern self);
  col ← match here with
        | Some _ => snd <$> Column.remove col node (intern self)
        | None => Some col
        end;
  Some (if Column.is_empty col then None else Some col).

Definition remove_all (self : t) (node : Z) : option t :=
  cols ← foldl (λ acc '(field, col),
                  acc ← acc; kept ← forget self node col;
                  Some (match kept with Some col => <[field := col]> acc | None => acc end))
           (Some ∅) (map_to_list (cols self));
  Some (mk cols (intern self) (prop_tombstones self)).

Definition is_tombstoned (self : t) (node : Z) (field : string) : option bool :=
  fs ← CowMap.get (prop_tombstones self) node;
  Some (match fs with Some fs => bool_decide (field ∈ fs) | None => false end).

Definition record_prop_tombstone (self : t) (node : Z) (field : string) : option t :=
  '(fs, store) ← CowMap.get_or_insert_with (prop_tombstones self) node ∅;
  Some (mk (cols self) (intern self) (store ({[field]} ∪ fs))).

Definition to_wire (self : t) : option (gmap string (gmap Z Value.t)) :=
  foldl (λ acc '(field, col), acc ← acc; m ← Column.to_map col (intern self); Some (<[field := m]> acc)) (Some ∅) (map_to_list (cols self)).

(** The writes of a nested map, in the order the hash maps are walked. *)
Definition set_all (self : option t) (field : string) (values : gmap Z Value.t) : option t :=
  foldl (λ self '(node, value), self ← self; set self node field value) self (map_to_list values).
Definition from_wire (cols : gmap string (gmap Z Value.t)) : option t :=
  foldl (λ self '(field, values), set_all self field values) (Some new) (map_to_list cols).

End store.
End ColumnStore.
