(* ===== verification/ColumnsRep.v ===== *)
(** * Property columns: what they represent

    The representation of the string table, of a dense run of slots and of a column,
    and that every operation of a column keeps it: a column is a finite map from nodes
    to values whatever its shape. *)

From S2P Require Import Prelude Order Assoc Bytes Utf8 Types CowVec CowMap CowMapIter HashIndex VisibleSet Bitmap RangeIndex Columns.
Open Scope Z_scope.

(** How many slots a dense column may have: all that 32-bit ids need, or what a packed
    length can count. *)
Class SlotCap := { cap : Z; cap_u32 : cap ≤ 2 ^ 32 }.

Module ColumnsRep.
Import UnifiedIndex.

(** ** The string table *)

Section intern.
Context (hash : string → Z).

Record strings_ok (it : StrIntern.t) (strs : list string) : Prop := {
  so_values : CowVec.rep (StrIntern.values it) (Value.Str <$> strs);
  so_index : ∃ m, HashIndex.rep hash (StrIntern.index it) m ∧ ∀ s id, m !! s = Some id ↔ 0 ≤ id ∧ strs !! Z.to_nat id = Some s;
  so_u32 : Z.of_nat (length strs) ≤ 2 ^ 32;
}.

Lemma new_strings : strings_ok StrIntern.new [].
Proof.
  split; [apply CowVec.new_rep| |done]. exists ∅. split; [apply HashIndex.new_hash_rep|]. intros s id. rewrite lookup_empty. naive_solver.
Qed.

Lemma strings_get it strs id : strings_ok it strs → StrIntern.get it id = Value.Str <$> strs !! Z.to_nat id.
Proof. intros [Hv _ _]. unfold StrIntern.get. by rewrite (CowVec.get_spec _ _ _ Hv), list_lookup_fmap. Qed.

Lemma strings_resolve it strs id : strings_ok it strs → StrIntern.text_of it id = strs !! Z.to_nat id.
Proof. intros Hs. unfold StrIntern.text_of. rewrite (CowVec.get_spec _ _ _ (so_values _ _ Hs)), list_lookup_fmap. by destruct (strs !! Z.to_nat id). Qed.

Lemma strings_find it strs s : strings_ok it strs →
  match StrIntern.find it s (hash s) with Some id => 0 ≤ id ∧ strs !! Z.to_nat id = Some s | None => s ∉ strs end.
Proof.
  intros Hs. destruct (so_index _ _ Hs) as (m & Hm & Hlk). unfold StrIntern.find.
  assert (HashIndex.resolves (StrIntern.text_of it) m) as Hr by (intros k id [_ Hk]%Hlk; by rewrite (strings_resolve it strs)).
  change (HashIndex.get_hashed (StrIntern.index it) s (hash s) (StrIntern.text_of it)) with (HashIndex.get hash (StrIntern.index it) s (StrIntern.text_of it)).
  rewrite (HashIndex.get_hash_spec hash _ m _ s Hm Hr). destruct (m !! s) as [id|] eqn:E; [by apply Hlk|]. intros [i Hi]%list_elem_of_lookup.
  assert (m !! s = Some (Z.of_nat i)) by (apply Hlk; rewrite Nat2Z.id; split; [lia|done]). congruence.
Qed.

(** The table with [s] added under the next id. *)
Lemma strings_push it strs s : strings_ok it strs → s ∉ strs → Z.of_nat (length strs) < 2 ^ 32 →
  ∃ ix, HashIndex.insert_hashed (StrIntern.index it) s (hash s) (Z.of_nat (length strs)) = Some ix ∧
        strings_ok (StrIntern.mk ix (CowVec.push (StrIntern.values it) (Value.Str s))) (strs ++ [s]).
Proof.
  intros Hs Hn Hlt. destruct (so_index _ _ Hs) as (m & Hm & Hlk). assert (m !! s = None) as Hnone.
  { destruct (m !! s) as [id|] eqn:E; [|done]. apply Hlk in E as [_ E%list_elem_of_lookup_2]. done. }
  destruct (HashIndex.insert_hash_spec hash _ m s (Z.of_nat (length strs)) Hm Hnone) as (ix & Hix & Hrep). exists ix. split; [exact Hix|].
  split; cbn [StrIntern.values StrIntern.index].
  - rewrite fmap_app. apply CowVec.vec_push_spec, (so_values _ _ Hs).
  - exists (<[s := Z.of_nat (length strs)]> m). split; [done|]. intros s' id. rewrite lookup_insert. case_decide as E.
    + subst s'. split.
      * intros [= <-]. rewrite Nat2Z.id. split; [lia|]. by apply list_lookup_middle.
      * intros [Hid [Hi|[Hge Hi]]%lookup_app_Some]; [by apply list_elem_of_lookup_2 in Hi|]. apply list_lookup_singleton_Some in Hi as [Hi _]. f_equal. lia.
    + rewrite Hlk. split; intros [Hid Hi]; (split; [done|]); [by apply lookup_app_l_Some|]. apply lookup_app_Some in Hi as [?|[_ Hi]]; [done|].
      apply list_lookup_singleton_Some in Hi as [_ ?]. done.
  - rewrite length_app. cbn. lia.
Qed.

Lemma table_len it strs : strings_ok it strs → CowVec.len (StrIntern.values it) = length strs.
Proof. intros Hs. destruct (so_values _ _ Hs) as [(-> & _) Hi]. unfold CowVec.iter in Hi. by rewrite Hi, length_fmap. Qed.

Lemma interned it strs s : strings_ok it strs → Z.of_nat (length strs) < 2 ^ 32 →
  ∃ id it' strs', StrIntern.intern hash it s = Some (id, it') ∧ strings_ok it' strs' ∧ strs `prefix_of` strs' ∧ (length strs' ≤ S (length strs))%nat ∧
    (∀ x, x ∈ strs' → x ∈ strs ∨ x = s) ∧ in_u 32 id ∧ strs' !! Z.to_nat id = Some s.
Proof.
  intros Hs Hlt. unfold StrIntern.intern. pose proof (strings_find it strs s Hs) as Hf. destruct (StrIntern.find it s (hash s)) as [id|].
  - exists id, it, strs. destruct Hf as [Hid Hi]. pose proof (lookup_lt_Some _ _ _ Hi). split_and!; [done|done|done|lia|by left|unfold in_u; lia|done].
  - rewrite (table_len it strs), wrap_u_id by (done || unfold in_u; lia). destruct (strings_push it strs s Hs Hf Hlt) as (ix & -> & Hs'). cbn [mbind option_bind].
    eexists _, _, (strs ++ [s]). split_and!; [done|done|by apply prefix_app_r|rewrite length_app; cbn; lia| |unfold in_u; lia|].
    + intros x [?|?%list_elem_of_singleton]%elem_of_app; auto.
    + rewrite Nat2Z.id. by apply list_lookup_middle.
Qed.

End intern.

(** ** Dense slots *)

Section dense.
Context {slots : SlotCap} {A : Type}.

(** [slot] holds of every slot, filled or not; a present node's slot reads as its value. *)
Definition dense (slot : A → Prop) (read : A → option Value.t) (vec : CowVec.t A) (present : Bitmap.t) (live : Z) (m : gmap Z Value.t) : Prop :=
  ∃ l, CowVec.rep vec l ∧ Forall slot l ∧ Z.of_nat (length l) ≤ Z.max 0 cap ∧ Bitmap.rep present (dom m) ∧ live = Z.of_nat (size m) ∧
       ∀ id v, m !! id = Some v → in_u 32 id ∧ ∃ x, l !! Z.to_nat id = Some x ∧ read x = Some v.

Lemma dense_new slot read : dense slot read CowVec.new Bitmap.new 0 ∅.
Proof.
  exists []. split_and!; [apply CowVec.new_rep|done|cbn; lia|rewrite dom_empty_L; apply Bitmap.new_bitmap_rep|done|]. intros id v. by rewrite lookup_empty.
Qed.

Lemma dense_mono slot (read read' : A → option Value.t) vec present live m : (∀ x v, read x = Some v → read' x = Some v) →
  dense slot read vec present live m → dense slot read' vec present live m.
Proof. intros Hr (l & ? & ? & ? & ? & ? & Hm). exists l. split_and!; [done..|]. intros id v (? & x & ? & ?)%Hm. eauto. Qed.

Lemma vec_len (vec : CowVec.t A) l : CowVec.rep vec l → CowVec.len vec = length l.
Proof. intros [(-> & _) <-]. done. Qed.

Lemma grown (vec : CowVec.t A) l i fill : CowVec.rep vec l →
  ∃ vec', (if (CowVec.len vec <=? i)%nat then CowVec.grow_to vec (S i) fill else Some vec) = Some vec' ∧ CowVec.rep vec' (l ++ replicate (S i - length l) fill).
Proof.
  intros Hr. rewrite (vec_len vec l Hr). destruct (Nat.leb_spec (length l) i) as [Hle|Hgt].
  - destruct (CowVec.grow_loop_spec (S i - CowVec.len vec) vec l (S i) fill Hr) as (v & Hg & Hv); [lia|]. eauto.
  - exists vec. split; [done|]. replace (S i - length l)%nat with 0%nat by lia. by rewrite app_nil_r.
Qed.

Lemma dense_set_spec slot read vec present live m filler x node v :
  dense slot read vec present live m → slot filler → slot x → read x = Some v → in_u 32 node → node < cap →
  ∃ vec' present' live', Column.dense_set vec filler x present live node = Some (vec', present', live') ∧ dense slot read vec' present' live' (<[node := v]> m).
Proof.
  intros (l & Hv & Hsl & Hlen & Hp & -> & Hm) Hf Hx Hrd Hn Hcap. unfold Column.dense_set.
  destruct (grown vec l (Z.to_nat node) filler Hv) as (vec1 & -> & Hv1). cbn [mbind option_bind]. set (l1 := l ++ _) in *.
  assert (Z.to_nat node < length l1)%nat as Hin by (unfold l1; rewrite length_app, length_replicate; lia).
  pose proof (CowVec.set_spec vec1 l1 (Z.to_nat node) x Hv1) as Hset. destruct (CowVec.set vec1 (Z.to_nat node) x) as [vec2|]; [|lia]. destruct Hset as [_ Hv2]. cbn [mbind option_bind].
  destruct (Bitmap.set_bit_spec present (dom m) node Hp Hn) as (p2 & -> & Hp2). cbn [mbind option_bind]. eexists _, _, _. split; [done|].
  exists (<[Z.to_nat node := x]> l1). split_and!.
  - done.
  - apply Forall_insert; [|done]. apply Forall_app. split; [done|]. by apply Forall_replicate.
  - rewrite length_insert. unfold l1, in_u in *. rewrite length_app, length_replicate. lia.
  - by rewrite dom_insert_L.
  - destruct (m !! node) as [w|] eqn:E.
    + rewrite bool_decide_eq_false_2 by (intros Hn'; apply Hn', elem_of_dom; eauto). by rewrite map_size_insert_Some by eauto.
    + rewrite bool_decide_eq_true_2 by by apply not_elem_of_dom. rewrite map_size_insert_None by done. lia.
  - intros id w. rewrite lookup_insert. case_decide as E; [subst id|].
    + intros [= <-]. split; [done|]. exists x. split; [by apply list_lookup_insert_eq|done].
    + intros (Hid & y & Hy & ?)%Hm. split; [done|]. exists y. split; [|done]. rewrite list_lookup_insert_ne by (unfold in_u in *; lia). by apply lookup_app_l_Some.
Qed.

Lemma dense_contains slot read vec present live m node : dense slot read vec present live m → in_u 32 node → Bitmap.contains present node = bool_decide (is_Some (m !! node)).
Proof.
  intros (l & _ & _ & _ & Hp & _) Hn. rewrite (Bitmap.contains_bit_spec present (dom m)) by (done || apply Hn). apply bool_decide_ext. by rewrite elem_of_dom.
Qed.

Lemma dense_get slot read vec present live m node v : dense slot read vec present live m → m !! node = Some v →
  ∃ x, CowVec.get vec (Z.to_nat node) = Some x ∧ read x = Some v.
Proof. intros (l & Hv & _ & _ & _ & _ & Hm) (_ & x & Hx & Hr)%Hm. exists x. by rewrite (CowVec.get_spec vec l). Qed.

Lemma dense_clear slot read vec present live m node : dense slot read vec present live m → in_u 32 node →
  ∃ cleared, Bitmap.clear present node = Some (bool_decide (is_Some (m !! node)), cleared) ∧
    dense slot read vec cleared (if bool_decide (is_Some (m !! node)) then live - 1 else live) (delete node m).
Proof.
  intros (l & Hv & Hsl & Hlen & Hp & -> & Hm) Hn. destruct (Bitmap.clear_spec present (dom m) node Hp) as (cleared & Hc & Hcl); [apply Hn|]. exists cleared. split.
  { rewrite Hc. do 2 f_equal. apply bool_decide_ext. by rewrite elem_of_dom. }
  exists l. split_and!; [done|done|done|by rewrite dom_delete_L| |].
  - rewrite map_size_delete. destruct (m !! node) as [w|] eqn:E; cbn.
    + assert (size m ≠ 0%nat) by (intros Hz%map_size_empty_inv; by rewrite Hz, lookup_empty in E). lia.
    + done.
  - intros id v [_ ?]%lookup_delete_Some. by apply Hm.
Qed.

(** The slot of an absent node may hold anything. *)
Lemma dense_replace slot read vec present live m node x : dense slot read vec present live m → slot x → m !! node = None →
  ∀ w, CowVec.get vec (Z.to_nat node) = Some w → in_u 32 node → ∃ vec', CowVec.replace vec (Z.to_nat node) x = Some (w, vec') ∧ dense slot read vec' present live m.
Proof.
  intros (l & Hv & Hsl & Hlen & Hp & -> & Hm) Hx Hnone w Hw Hn. rewrite (CowVec.get_spec vec l) in Hw by done. pose proof (CowVec.get_mut_spec vec l (Z.to_nat node) Hv) as Hg. rewrite Hw in Hg.
  destruct Hg as (store & Hs & Hst). unfold CowVec.replace. rewrite Hs. cbn [mbind option_bind]. eexists. split; [done|]. exists (<[Z.to_nat node := x]> l).
  split_and!; [apply Hst|by apply Forall_insert|by rewrite length_insert|done|done|]. intros id u Hid. destruct (Hm id u Hid) as (Hi & y & Hy & ?). split; [done|]. exists y. split; [|done].
  rewrite list_lookup_insert_ne; [done|]. intros E. assert (node = id) as -> by (unfold in_u in *; lia). congruence.
Qed.

(** Walking the present nodes gives the map back. *)
Lemma dense_map_spec slot read vec present live m : dense slot read vec present live m → Column.dense_map read vec present = Some m.
Proof.
  intros (l & Hv & _ & _ & Hp & _ & Hm). destruct (Bitmap.for_each_spec present (dom m) Hp) as (Hs & He & _). unfold Column.dense_map.
  assert (∀ (ids : list Z) (acc : gmap Z Value.t), (∀ x, x ∈ ids → x ∈ dom m) → (∀ x, x ∈ dom acc → acc !! x = m !! x) →
    ∃ m' : gmap Z Value.t, foldl (λ (m : option (gmap Z Value.t)) i, m ← m; x ← CowVec.get vec (Z.to_nat i); v ← read x; Some (<[i := v]> m)) (Some acc) ids = Some m' ∧ dom m' = dom acc ∪ list_to_set ids ∧ ∀ x, x ∈ dom m' → m' !! x = m !! x) as Hloop.
  { clear Hs He. induction ids as [|i ids IH]; intros acc Hids Hacc; cbn [foldl].
    - exists acc. split; [done|]. split; [set_solver|done].
    - destruct (elem_of_dom m i) as [[v Hi] _]; [apply Hids; by left|]. destruct (Hm i v Hi) as (_ & x & Hx & Hr). cbn [mbind option_bind]. rewrite (CowVec.get_spec vec l), Hx by done. cbn [mbind option_bind]. rewrite Hr. cbn [mbind option_bind].
      destruct (IH (<[i := v]> acc)) as (m' & -> & Hd & Hl); [intros; apply Hids; by right| |].
      + intros x'. rewrite dom_insert_L. intros Hx'. rewrite lookup_insert. case_decide; [by subst|]. apply Hacc. set_solver.
      + exists m'. split; [done|]. split; [|done]. rewrite Hd, dom_insert_L. set_solver. }
  destruct (Hloop (Bitmap.for_each present) ∅) as (m' & -> & Hd & Hl); [intros x; apply He|intros x Hx; rewrite dom_empty_L in Hx; by apply not_elem_of_empty in Hx|]. f_equal. rewrite dom_empty_L, (left_id_L ∅ (∪)) in Hd.
  assert (dom m' = dom m) as Hdd. { rewrite Hd. apply set_eq. intros x. rewrite elem_of_list_to_set. apply He. }
  apply map_eq. intros x. destruct (decide (x ∈ dom m')) as [?|Hn]; [by apply Hl|]. rewrite (proj1 (not_elem_of_dom m' x)) by done. symmetry. apply not_elem_of_dom. by rewrite <-Hdd.
Qed.

End dense.

(** ** Columns *)

Lemma sorted_entries_keys m : (Column.sorted_entries m).*1 = sort_unstable (map_to_list m).*1.
Proof.
  unfold Column.sorted_entries. assert (∀ x, x ∈ sort_unstable (map_to_list m).*1 → is_Some (m !! x)) as Hin.
  { intros x. rewrite elem_of_sort, list_elem_of_fmap. intros ([k v] & -> & Hk%elem_of_map_to_list). by eexists. }
  revert Hin. generalize (sort_unstable (map_to_list m).*1) as l. induction l as [|x l IH]; intros Hin; [done|]. destruct (Hin x) as [v Hv]; [by left|].
  cbn [omap list_omap]. rewrite Hv. cbn [fmap option_fmap option_map list_fmap fst]. f_equal. apply IH. intros y Hy. apply Hin. by right.
Qed.

Lemma sorted_entries_sorted m : sorted (Column.sorted_entries m).*1.
Proof. rewrite sorted_entries_keys. apply sort_NoDup_sorted, NoDup_fst_map_to_list. Qed.

Lemma alookup_sorted_entries m id : alookup id (Column.sorted_entries m) = m !! id.
Proof.
  destruct (m !! id) as [v|] eqn:E.
  - apply alookup_Some; [apply sorted_entries_sorted|]. unfold Column.sorted_entries. apply list_elem_of_omap. exists id. rewrite E. split; [|done].
    rewrite elem_of_sort. apply list_elem_of_fmap. exists (id, v). split; [done|]. by apply elem_of_map_to_list.
  - apply alookup_None. rewrite sorted_entries_keys, elem_of_sort, list_elem_of_fmap. intros ([k v] & -> & Hk%elem_of_map_to_list). cbn in E. congruence.
Qed.

Lemma length_sorted_entries m : length (Column.sorted_entries m) = size m.
Proof.
  rewrite <-(length_fmap fst), sorted_entries_keys. unfold sort_unstable. rewrite merge_sort_Permutation, length_fmap. apply length_map_to_list.
Qed.

(** A map of 32-bit keys has at most [2^32] of them. *)
Lemma size_u32 (m : gmap Z Value.t) : (∀ id, id ∈ dom m → in_u 32 id) → Z.of_nat (size m) ≤ 2 ^ 32.
Proof.
  intros Hm. rewrite <-size_dom. assert (dom m ⊆ list_to_set (seqZ 0 (2 ^ 32))) as Hs.
  { intros x Hx%Hm. apply elem_of_list_to_set, elem_of_seqZ. unfold in_u in Hx. lia. }
  apply subseteq_size in Hs. rewrite size_list_to_set in Hs by apply NoDup_seqZ. rewrite length_seqZ in Hs. lia.
Qed.

Section column.
Context {slots : SlotCap} (hash : string → Z) (fine : Value.t → Prop).

Definition is_binary (v : Value.t) : Prop := match v with Value.Binary _ => True | _ => False end.

(** The column holds [m]; [n] bounds the writes to its tree. *)
Definition col_ok (n : Z) (strs : list string) (col : Column.t) (m : gmap Z Value.t) : Prop :=
  (∀ id v, m !! id = Some v → in_u 32 id ∧ fine v) ∧
  match col with
  | Column.Fixed_ kind values present live => dense (λ v, Fixed.of_value v = Some kind ∧ fine v) Some values present live m
  | Column.Str_ ids present live => dense (in_u 32) (λ id, Value.Str <$> strs !! Z.to_nat id) ids present live m
  | Column.Binary_ data present live => dense (λ v, is_binary v ∧ fine v) Some data present live m
  | Column.Mixed map => ∃ es, CowMap.holds map es (potential n) ∧ ∀ id, alookup id es = m !! id
  end.

Lemma col_ok_weaken n n' strs strs' col m : n ≤ n' → strs `prefix_of` strs' → col_ok n strs col m → col_ok n' strs' col m.
Proof.
  intros Hn [rest ->] [Hk Hc]. split; [done|]. destruct col as [kind values present live|ids present live|data present live|map]; [done| |done|].
  - eapply dense_mono; [|done]. intros x v. cbn. destruct (strs !! Z.to_nat x) as [s|] eqn:E; [|done]. intros [= <-]. by rewrite (lookup_app_l_Some _ _ _ _ E).
  - destruct Hc as (es & Hh & Hl). exists es. split; [|done]. eapply CowMap.holds_weaken; [done|]. unfold potential. lia.
Qed.

Lemma col_keys n strs col m : col_ok n strs col m → ∀ id, id ∈ dom m → in_u 32 id.
Proof. intros [Hk _] id [v Hv]%elem_of_dom. by destruct (Hk id v Hv). Qed.

(** ** Its map *)

Lemma map_entries_spec {K V} `{RustOrdLaws K} (map : CowMap.t K V) es p : CowMap.holds map es p → Column.map_entries map = Some es.
Proof. intros Hh. unfold Column.map_entries. destruct (CowMapIter.iter_all map es p Hh) as (it & -> & Hc). exact Hc. Qed.

Lemma alookup_list_to_map (es : list (Z * Value.t)) id : sorted es.*1 → (list_to_map es : gmap Z Value.t) !! id = alookup id es.
Proof.
  intros Hs. destruct (alookup id es) as [v|] eqn:E.
  - apply elem_of_list_to_map; [by apply sorted_NoDup|]. by apply alookup_Some.
  - apply not_elem_of_list_to_map_1. by apply alookup_None.
Qed.

Lemma to_map_spec n strs it col m : strings_ok hash it strs → col_ok n strs col m → Column.to_map col it = Some m.
Proof.
  intros Hit [Hk Hc]. destruct col as [kind values present live|ids present live|data present live|map]; cbn [Column.to_map].
  - by eapply dense_map_spec.
  - eapply (dense_map_spec (in_u 32) (StrIntern.get it)). eapply dense_mono; [|done]. intros x v Hx. by rewrite (strings_get hash it strs).
  - by eapply dense_map_spec.
  - destruct Hc as (es & Hh & Hl). rewrite (map_entries_spec map es _ Hh). cbn. f_equal. apply map_eq. intros id. rewrite alookup_list_to_map; [done|]. by eapply CowMap.holds_sorted.
Qed.

Lemma take_map_spec n strs it col m : 0 ≤ n → strings_ok hash it strs → col_ok n strs col m →
  ∃ map es, Column.take_map col it = Some map ∧ CowMap.holds map es (potential n) ∧ ∀ id, alookup id es = m !! id.
Proof.
  intros Hn Hit Hc. assert ((∃ map, col = Column.Mixed map) ∨ Column.take_map col it = (m ← Column.to_map col it; CowMapIter.from_sorted (Column.sorted_entries m))) as [[map ->]|Htm].
  { destruct col; eauto. }
  - destruct Hc as [_ (es & Hh & Hl)]. exists map, es. done.
  - rewrite Htm, (to_map_spec n strs it col m) by done. cbn [mbind option_bind].
    destruct (CowMapIter.from_sorted_holds (Column.sorted_entries m)) as (map & Hf & Hh); [apply sorted_entries_sorted| |].
    + rewrite length_sorted_entries. pose proof (size_u32 m (col_keys n strs col m Hc)). lia.
    + exists map, (Column.sorted_entries m). split; [done|]. split; [|apply alookup_sorted_entries]. eapply CowMap.holds_weaken; [done|]. unfold potential. lia.
Qed.

(** ** Its operations *)

Lemma get_col_spec n strs it col m node : strings_ok hash it strs → col_ok n strs col m → in_u 32 node → Column.get col node it = Some (m !! node).
Proof.
  intros Hit [Hk Hc] Hn. destruct col as [kind values present live|ids present live|data present live|map]; cbn [Column.get].
  - rewrite (dense_contains _ _ _ _ _ _ _ Hc Hn). destruct (m !! node) as [v|] eqn:E; [|done]. rewrite bool_decide_eq_true_2 by (by eexists). by destruct (dense_get _ _ _ _ _ _ _ _ Hc E) as (x & -> & [= ->]).
  - rewrite (dense_contains _ _ _ _ _ _ _ Hc Hn). destruct (m !! node) as [v|] eqn:E; [|done]. rewrite bool_decide_eq_true_2 by (by eexists). destruct (dense_get _ _ _ _ _ _ _ _ Hc E) as (x & -> & Hx). cbn [mbind option_bind].
    by rewrite (strings_get hash it strs), Hx.
  - rewrite (dense_contains _ _ _ _ _ _ _ Hc Hn). destruct (m !! node) as [v|] eqn:E; [|done]. rewrite bool_decide_eq_true_2 by (by eexists). by destruct (dense_get _ _ _ _ _ _ _ _ Hc E) as (x & -> & [= ->]).
  - destruct Hc as (es & Hh & Hl). by rewrite (CowMap.get_holds map es _ node Hh), Hl.
Qed.

Lemma col_is_empty_spec n strs col m : col_ok n strs col m → Column.is_empty col = bool_decide (m = ∅).
Proof.
  intros [_ Hc]. assert (∀ live, live = Z.of_nat (size m) → (live =? 0) = bool_decide (m = ∅)) as Hlive.
  { intros live ->. apply eq_iff_eq_true. rewrite Z.eqb_eq, bool_decide_eq_true, <-map_size_empty_iff. lia. }
  destruct col as [kind values present live|ids present live|data present live|map]; cbn [Column.is_empty]; [destruct Hc as (l & _ & _ & _ & _ & ? & _); by apply Hlive..|].
  destruct Hc as (es & Hh & Hl). unfold CowMap.is_empty. destruct (CowMap.holds_len map es _ Hh) as [-> _]. apply eq_iff_eq_true. rewrite Nat.eqb_eq, bool_decide_eq_true. split.
  - intros ->%nil_length_inv. apply map_eq. intros id. by rewrite <-Hl.
  - intros ->. destruct es as [|[k v] es]; [done|]. specialize (Hl k). rewrite lookup_empty in Hl. apply alookup_None in Hl. destruct Hl. cbn. by left.
Qed.

Lemma set_keys (m : gmap Z Value.t) node v : (∀ id w, m !! id = Some w → in_u 32 id ∧ fine w) → in_u 32 node → fine v → ∀ id w, <[node := v]> m !! id = Some w → in_u 32 id ∧ fine w.
Proof. intros Hk Hn Hv id w. rewrite lookup_insert. case_decide; [subst; by intros [= <-]|apply Hk]. Qed.

Lemma mixed_insert n map es (m : gmap Z Value.t) node v : CowMap.holds map es (potential n) → (∀ id, alookup id es = m !! id) →
  ∃ map', CowMap.insert map node v = Some (m !! node, map') ∧ CowMap.holds map' (ainsert node v es) (potential (n + 1)) ∧ ∀ id, alookup id (ainsert node v es) = <[node := v]> m !! id.
Proof.
  intros Hh Hl. destruct (map_insert_ok map es n node v Hh) as (map' & Hi & Hh'). exists map'. rewrite <-Hl. split; [done|]. split; [done|].
  intros id. rewrite alookup_ainsert. destruct (decide (id = node)) as [->|Hne]; [by rewrite cmp_refl, lookup_insert_eq|]. rewrite lookup_insert_ne by done. destruct (cmp id node) eqn:E; [by apply cmp_eq in E|apply Hl..].
Qed.

Context (fine_filler : ∀ kind, fine (Fixed.filler kind)) (fine_binary : fine Column.empty_binary).

Lemma filler_kind kind : Fixed.of_value (Fixed.filler kind) = Some kind.
Proof. by destruct kind. Qed.

(** Writing: the string table may grow by one string. *)
Lemma set_col_spec n strs it col m node v : 0 ≤ n → strings_ok hash it strs → col_ok n strs col m → in_u 32 node → node < cap → fine v → Z.of_nat (length strs) < 2 ^ 32 →
  ∃ col' it' strs', Column.set hash col node v it = Some (col', it') ∧ strings_ok hash it' strs' ∧ strs `prefix_of` strs' ∧ (length strs' ≤ S (length strs))%nat ∧
    (∀ x, x ∈ strs' → x ∈ strs ∨ v = Value.Str x) ∧ col_ok (n + 1) strs' col' (<[node := v]> m).
Proof.
  intros Hn0 Hit Hc Hn Hcap Hv Hlt. unfold Column.set. destruct (Column.accepts col v) eqn:Ha; cbn [negb].
  2:{ destruct (take_map_spec n strs it col m Hn0 Hit Hc) as (map & es & -> & Hh & Hl). cbn [mbind option_bind]. destruct (mixed_insert n map es m node v Hh Hl) as (map' & -> & Hh' & Hl').
      cbn [mbind option_bind]. eexists _, it, strs. split_and!; [done|done|done|lia|by left|]. split; [by apply set_keys; [apply Hc|..]|]. eauto. }
  destruct Hc as [Hk Hc]. pose proof (set_keys m node v Hk Hn Hv) as Hk'.
  destruct col as [kind values present live|ids present live|data present live|map]; cbn [Column.accepts] in Ha.
  - apply bool_decide_eq_true in Ha.
    destruct (dense_set_spec _ _ _ _ _ _ (Fixed.filler kind) v node v Hc) as (vec & p & lv & -> & Hd); [split; [apply filler_kind|apply fine_filler]|done|done|done|done|]. cbn [mbind option_bind].
    eexists _, it, strs. split_and!; [done|done|done|lia|by left|]. done.
  - destruct v as [| |s| | | | | | | | |]; try done. destruct (interned hash it strs s Hit Hlt) as (id & it' & strs' & -> & Hit' & Hpre & Hlen & Hsub & Hid & Hs). cbn [mbind option_bind].
    assert (dense (in_u 32) (λ id, Value.Str <$> strs' !! Z.to_nat id) ids present live m) as Hc'.
    { destruct (col_ok_weaken n n strs strs' (Column.Str_ ids present live) m) as [_ ?]; [lia|done|by split|done]. }
    destruct (dense_set_spec _ _ _ _ _ _ 0 id node (Value.Str s) Hc') as (vec & p & lv & -> & Hd); [done|done|by rewrite Hs|done|done|]. cbn [mbind option_bind].
    eexists _, it', strs'. split_and!; [done|done|done|done|intros x [?| ->]%Hsub; auto|]. done.
  - destruct v as [| | | | | | | | | |bytes|]; try done.
    destruct (dense_set_spec _ _ _ _ _ _ Column.empty_binary (Value.Binary bytes) node (Value.Binary bytes) Hc) as (vec & p & lv & -> & Hd); [done|done|done|done|done|]. cbn [mbind option_bind].
    eexists _, it, strs. split_and!; [done|done|done|lia|by left|]. done.
  - destruct Hc as (es & Hh & Hl). destruct (mixed_insert n map es m node v Hh Hl) as (map' & -> & Hh' & Hl'). cbn [mbind option_bind].
    eexists _, it, strs. split_and!; [done|done|done|lia|by left|]. split; [done|]. eauto.
Qed.

Lemma new_col_ok n strs v : 0 ≤ n →
  col_ok n strs (match v with
                 | Value.Str _ => Column.Str_ CowVec.new Bitmap.new 0
                 | Value.Binary _ => Column.Binary_ CowVec.new Bitmap.new 0
                 | other => match Fixed.of_value other with
                            | Some kind => Column.Fixed_ kind CowVec.new Bitmap.new 0
                            | None => Column.Mixed CowMap.new
                            end
                 end) ∅.
Proof.
  intros Hn. split; [intros id w; by rewrite lookup_empty|]. destruct v; cbn [Fixed.of_value]; try apply dense_new; (exists []; split; [by apply new_ok|done]).
Qed.

Lemma remove_col_spec n strs it col m node : 0 ≤ n < 2 ^ 64 → strings_ok hash it strs → col_ok n strs col m → in_u 32 node →
  ∃ col', Column.remove col node it = Some (m !! node, col') ∧ col_ok n strs col' (delete node m).
Proof.
  intros Hn0 Hit [Hk Hc] Hn. assert (∀ id v, delete node m !! id = Some v → in_u 32 id ∧ fine v) as Hk' by (intros id v [_ ?]%lookup_delete_Some; eauto).
  destruct col as [kind values present live|ids present live|data present live|map]; cbn [Column.remove].
  - destruct (dense_clear _ _ _ _ _ _ node Hc Hn) as (cleared & -> & Hd). cbn [mbind option_bind]. destruct (m !! node) as [v|] eqn:E.
    + rewrite bool_decide_eq_true_2 in Hd |- * by (by eexists). destruct (dense_get _ _ _ _ _ _ _ _ Hc E) as (x & -> & [= ->]). cbn [mbind option_bind]. eexists. split; [done|]. done.
    + eexists. split; [done|]. done.
  - destruct (dense_clear _ _ _ _ _ _ node Hc Hn) as (cleared & -> & Hd). cbn [mbind option_bind]. destruct (m !! node) as [v|] eqn:E.
    + rewrite bool_decide_eq_true_2 in Hd |- * by (by eexists). destruct (dense_get _ _ _ _ _ _ _ _ Hc E) as (x & -> & Hx). cbn [mbind option_bind]. rewrite (strings_get hash it strs), Hx by done. cbn [mbind option_bind].
      eexists. split; [done|]. done.
    + eexists. split; [done|]. done.
  - destruct (dense_clear _ _ _ _ _ _ node Hc Hn) as (cleared & -> & Hd). cbn [mbind option_bind]. destruct (m !! node) as [v|] eqn:E.
    + rewrite bool_decide_eq_true_2 in Hd |- * by (by eexists). destruct (dense_get _ _ _ _ _ _ _ _ Hc E) as (x & Hx & [= ->]).
      destruct (dense_replace _ _ _ _ _ _ node Column.empty_binary Hd) with (w := v) as (data' & -> & Hd'); [done|apply lookup_delete_eq|done|done|]. cbn [mbind option_bind]. eexists. split; [done|]. done.
    + eexists. split; [done|]. done.
  - destruct Hc as (es & Hh & Hl). destruct (map_remove_ok map es n node Hh) as (map' & -> & Hh'); [lia|]. cbn [mbind option_bind]. eexists. split; [by rewrite Hl|]. split; [done|].
    exists (adelete node es). split; [done|]. intros id. rewrite alookup_adelete by (by eapply CowMap.holds_sorted). destruct (decide (id = node)) as [->|Hne]; [by rewrite cmp_refl, lookup_delete_eq|]. rewrite lookup_delete_ne by done. destruct (cmp id node) eqn:D; [by apply cmp_eq in D|apply Hl..].
Qed.

End column.

End ColumnsRep.
