(* ===== verification/ColumnsStore.v ===== *)
(** * The property store

    The column store as one finite map from node and field to value, and its
    tombstones as a set: every operation keeps the correspondence.  [n] bounds the
    writes so far, and with them the strings and the depth of the trees. *)

From S2P Require Import Prelude Order Assoc Bytes Utf8 Types CowVec CowMap CowMapIter HashIndex Bitmap RangeIndex Columns ColumnsRep.
Open Scope Z_scope.

Module ColumnsStore.
Import UnifiedIndex ColumnsRep.

Abbreviation Props := (gmap (Z * string) Value.t).
Abbreviation Marks := (gset (Z * string)).

Section store.
Context {slots : SlotCap} (hash : string → Z) (fine : Value.t → Prop).
Context (fine_filler : ∀ kind, fine (Fixed.filler kind)) (fine_binary : fine Column.empty_binary).

(** [m] is [M]'s column of a field. *)
Definition column_of (M : Props) (f : string) (m : gmap Z Value.t) : Prop := ∀ id, m !! id = M !! (id, f).

Record store_ok (n : Z) (s : ColumnStore.t) (M : Props) (T : Marks) : Prop := {
  st_n : 0 ≤ n ≤ 2 ^ 32;
  st_cols : ∃ strs, strings_ok hash (ColumnStore.intern s) strs ∧ Z.of_nat (length strs) ≤ n ∧ (∀ x, x ∈ strs → fine (Value.Str x)) ∧
    ∀ f, match ColumnStore.cols s !! f with
         | Some col => ∃ m, m ≠ ∅ ∧ col_ok fine n strs col m ∧ column_of M f m
         | None => column_of M f ∅
         end;
  st_marks : ∃ es, CowMap.holds (ColumnStore.prop_tombstones s) es (potential n) ∧ ∀ id f, (id, f) ∈ T ↔ ∃ fs, alookup id es = Some fs ∧ f ∈ fs;
}.

Lemma new_store_ok : store_ok 0 ColumnStore.new ∅ ∅.
Proof.
  split; [lia| |].
  - exists []. split; [apply new_strings|]. split; [done|]. split; [by intros x ?%elem_of_nil|]. intros f. cbn. rewrite lookup_empty. intros id. by rewrite !lookup_empty.
  - exists []. split; [by apply new_ok|]. intros id f. cbn. set_solver.
Qed.

Lemma marks_weaken s es n n' : CowMap.holds (ColumnStore.prop_tombstones s) es (potential n) → n ≤ n' → CowMap.holds (ColumnStore.prop_tombstones s) es (potential n').
Proof. intros Hh Hle. eapply CowMap.holds_weaken; [done|]. unfold potential. lia. Qed.

(** ** Reads *)

Lemma get_store n s M T node f : store_ok n s M T → in_u 32 node → ColumnStore.get s node f = Some (M !! (node, f)).
Proof.
  intros Hs Hn. destruct (st_cols _ _ _ _ Hs) as (strs & Hit & _ & _ & Hc). specialize (Hc f). unfold ColumnStore.get. destruct (ColumnStore.cols s !! f) as [col|].
  - destruct Hc as (m & _ & Hcol & Ho). by rewrite (get_col_spec hash fine n strs _ col m), Ho.
  - by rewrite <-Hc.
Qed.

Lemma fields_store n s M T f : store_ok n s M T → f ∈ ColumnStore.fields s ↔ ∃ node, is_Some (M !! (node, f)).
Proof.
  intros Hs. destruct (st_cols _ _ _ _ Hs) as (strs & _ & _ & _ & Hc). specialize (Hc f). unfold ColumnStore.fields. rewrite elem_of_dom. destruct (ColumnStore.cols s !! f) as [col|].
  - destruct Hc as (m & (id & v & Hv)%map_choose & _ & Ho). split; [intros _|by eexists]. exists id. rewrite <-Ho. by eexists.
  - split; [by intros [? ?]|]. intros (node & v & Hv). rewrite <-Hc, lookup_empty in Hv. done.
Qed.

Lemma marked_store n s M T node f : store_ok n s M T → ColumnStore.is_tombstoned s node f = Some (bool_decide ((node, f) ∈ T)).
Proof.
  intros Hs. destruct (st_marks _ _ _ _ Hs) as (es & Hh & Ht). unfold ColumnStore.is_tombstoned. rewrite (CowMap.get_holds _ es _ node Hh). cbn [mbind option_bind]. f_equal. specialize (Ht node f).
  destruct (alookup node es) as [fs|].
  - apply bool_decide_ext. rewrite Ht. naive_solver.
  - symmetry. apply bool_decide_eq_false. rewrite Ht. naive_solver.
Qed.

(** ** Writes *)

Lemma column_of_insert M f m node v : column_of M f m → column_of (<[(node, f) := v]> M) f (<[node := v]> m).
Proof. intros Hm id. destruct (decide (id = node)) as [->|Hne]; [by rewrite !lookup_insert_eq|]. by rewrite !lookup_insert_ne by congruence. Qed.

Lemma column_of_other M f f' m node v : column_of M f' m → f' ≠ f → column_of (<[(node, f) := v]> M) f' m.
Proof. intros Hm Hne id. rewrite lookup_insert_ne by congruence. apply Hm. Qed.

Lemma set_store n s M T node f v : store_ok n s M T → n < 2 ^ 32 → in_u 32 node → node < cap → fine v →
  ∃ s', ColumnStore.set hash s node f v = Some s' ∧ store_ok (n + 1) s' (<[(node, f) := v]> M) T.
Proof.
  intros Hs Hlt Hn Hcap Hv. pose proof (st_n _ _ _ _ Hs) as Hn0. destruct (st_cols _ _ _ _ Hs) as (strs & Hit & Hlen & Hfs & Hc). unfold ColumnStore.set.
  assert (∃ m col0, col_ok fine n strs col0 m ∧ column_of M f m ∧
    match ColumnStore.cols s !! f with Some col => Column.set hash col node v (ColumnStore.intern s) | None => Column.from_first hash node v (ColumnStore.intern s) end = Column.set hash col0 node v (ColumnStore.intern s)) as (m & col0 & Hcol & Ho & ->).
  { pose proof (Hc f) as Hf. destruct (ColumnStore.cols s !! f) as [col|]; [destruct Hf as (m & _ & ? & ?); by exists m, col|]. eexists ∅, _. split; [apply (new_col_ok fine n strs v); lia|]. split; [done|]. by destruct v. }
  destruct (set_col_spec hash fine fine_filler fine_binary n strs (ColumnStore.intern s) col0 m node v) as (col' & it' & strs' & -> & Hit' & Hpre & Hlen' & Hsub & Hcol'); [lia|done|done|done|done|done|lia|].
  cbn [mbind option_bind]. eexists. split; [done|]. split; cbn [ColumnStore.cols ColumnStore.intern ColumnStore.prop_tombstones]; [lia| |].
  - exists strs'. split; [done|]. split; [lia|]. split; [intros x [?| ->]%Hsub; auto|]. intros f'. rewrite lookup_insert. case_decide as E.
    + subst f'. exists (<[node := v]> m). split; [apply insert_non_empty|]. split; [done|]. by apply column_of_insert.
    + specialize (Hc f'). destruct (ColumnStore.cols s !! f') as [c|].
      * destruct Hc as (m' & ? & Hc' & ?). exists m'. split; [done|]. split; [eapply col_ok_weaken; [|done|done]; lia|]. by apply column_of_other.
      * by apply column_of_other.
  - destruct (st_marks _ _ _ _ Hs) as (es & Hh & Ht). exists es. split; [eapply marks_weaken; [done|lia]|done].
Qed.

Lemma column_of_delete M f m node : column_of M f m → column_of (delete (node, f) M) f (delete node m).
Proof. intros Hm id. destruct (decide (id = node)) as [->|Hne]; [by rewrite !lookup_delete_eq|]. by rewrite !lookup_delete_ne by congruence. Qed.

Lemma column_of_delete_other M f f' m node : column_of M f' m → f' ≠ f → column_of (delete (node, f) M) f' m.
Proof. intros Hm Hne id. rewrite lookup_delete_ne by congruence. apply Hm. Qed.

Lemma column_of_empty M f m : column_of M f m → m = ∅ → column_of M f ∅.
Proof. by intros Hm <-. Qed.

Lemma remove_store n s M T node f : store_ok n s M T → in_u 32 node →
  ∃ s', ColumnStore.remove s node f = Some (M !! (node, f), s') ∧ store_ok n s' (delete (node, f) M) T.
Proof.
  intros Hs Hn. pose proof (st_n _ _ _ _ Hs) as Hn0. destruct (st_cols _ _ _ _ Hs) as (strs & Hit & Hlen & Hfs & Hc). pose proof (Hc f) as Hf. unfold ColumnStore.remove.
  assert (M !! (node, f) = None → store_ok n s (delete (node, f) M) T) as Hsame by (intros; by rewrite delete_id).
  destruct (ColumnStore.cols s !! f) as [col|].
  2:{ exists s. rewrite <-Hf, lookup_empty. split; [done|]. apply Hsame. by rewrite <-Hf, lookup_empty. }
  destruct Hf as (m & Hne & Hcol & Ho). rewrite (get_col_spec hash fine n strs _ col m) by done. cbn [mbind option_bind]. rewrite <-Ho. destruct (m !! node) as [v|] eqn:E.
  2:{ exists s. split; [done|]. apply Hsame. by rewrite <-Ho. }
  destruct (remove_col_spec hash fine fine_binary n strs (ColumnStore.intern s) col m node) as (col' & -> & Hcol'); [lia|done|done|done|]. cbn [mbind option_bind]. rewrite E. eexists. split; [done|].
  split; cbn [ColumnStore.cols ColumnStore.intern ColumnStore.prop_tombstones]; [done| |exact (st_marks _ _ _ _ Hs)]. exists strs. split_and!; [done..|]. intros f'.
  rewrite (col_is_empty_spec fine n strs col' (delete node m) Hcol'). destruct (decide (f' = f)) as [->|Hf'].
  - case_bool_decide as D; [rewrite lookup_delete_eq; eapply column_of_empty; [by apply column_of_delete|done]|]. rewrite lookup_insert_eq. exists (delete node m). split_and!; [done|done|by apply column_of_delete].
  - assert ((if bool_decide (delete node m = ∅) then delete f (ColumnStore.cols s) else <[f := col']> (ColumnStore.cols s)) !! f' = ColumnStore.cols s !! f') as ->.
    { case_bool_decide; [by rewrite lookup_delete_ne|by rewrite lookup_insert_ne]. }
    specialize (Hc f'). destruct (ColumnStore.cols s !! f') as [c|]; [|by apply column_of_delete_other]. destruct Hc as (m' & ? & ? & ?). exists m'. split_and!; [done|done|by apply column_of_delete_other].
Qed.

(** A node's properties forgotten. *)
Definition without (M : Props) (node : Z) : Props := filter (λ kv, kv.1.1 ≠ node) M.

Lemma lookup_without M node id f : without M node !! (id, f) = if decide (id = node) then None else M !! (id, f).
Proof.
  unfold without. case_decide as E.
  - apply map_lookup_filter_None_2. right. intros v _. cbn. tauto.
  - destruct (M !! (id, f)) as [v|] eqn:Hm; [by apply map_lookup_filter_Some_2|]. apply map_lookup_filter_None_2. by left.
Qed.

Lemma column_of_without M f m node : column_of M f m → column_of (without M node) f (delete node m).
Proof. intros Hm id. rewrite lookup_without. case_decide as E; [subst; by rewrite lookup_delete_eq|]. by rewrite lookup_delete_ne. Qed.

Lemma forget_spec n s strs node col m : 0 ≤ n ≤ 2 ^ 32 → strings_ok hash (ColumnStore.intern s) strs → col_ok fine n strs col m → in_u 32 node →
  ∃ kept, ColumnStore.forget s node col = Some kept ∧ match kept with Some col' => delete node m ≠ ∅ ∧ col_ok fine n strs col' (delete node m) | None => delete node m = ∅ end.
Proof.
  intros Hn0 Hit Hcol Hn. unfold ColumnStore.forget. rewrite (get_col_spec hash fine n strs _ col m) by done. cbn [mbind option_bind].
  assert (∃ col', match m !! node with Some _ => snd <$> Column.remove col node (ColumnStore.intern s) | None => Some col end = Some col' ∧ col_ok fine n strs col' (delete node m)) as (col' & -> & Hcol').
  { destruct (m !! node) eqn:E; [|exists col; split; [done|]; by rewrite delete_id]. destruct (remove_col_spec hash fine fine_binary n strs (ColumnStore.intern s) col m node) as (col' & -> & Hcol'); [lia|done|done|done|]. eauto. }
  cbn [mbind option_bind]. eexists. split; [done|]. rewrite (col_is_empty_spec fine n strs col' (delete node m) Hcol'). by case_bool_decide.
Qed.

(** A loop over the entries of a map that keeps, changes or drops each of them. *)
Lemma fold_kept {A B} (step : A → option (option B)) (out : string → A → option B) (m : gmap string A) :
  (∀ f a, m !! f = Some a → step a = Some (out f a)) →
  foldl (λ acc '(f, a), acc ← acc; kept ← step a; Some (match kept with Some b => <[f := b]> acc | None => acc end)) (Some (∅ : gmap string B)) (map_to_list m) = Some (map_imap out m).
Proof.
  intros Hs. assert (∀ l (acc : gmap string B), NoDup l.*1 → (∀ f a, (f, a) ∈ l → m !! f = Some a) → (∀ f, f ∈ l.*1 → acc !! f = None) →
    foldl (λ acc '(f, a), acc ← acc; kept ← step a; Some (match kept with Some b => <[f := b]> acc | None => acc end)) (Some acc) l = Some (map_imap out (list_to_map l) ∪ acc)) as Hloop.
  { induction l as [|[f a] l IH]; intros acc Hnd Hin Hacc; cbn [foldl]. { f_equal. cbn. by rewrite map_imap_empty, (left_id_L ∅ (∪)). }
    cbn [fmap list_fmap fst] in Hnd, Hacc. apply NoDup_cons in Hnd as [Hf Hnd]. cbn [mbind option_bind]. rewrite (Hs f a) by (apply Hin; by left). cbn [mbind option_bind].
    rewrite IH; [|done|intros; apply Hin; by right|].
    - f_equal. apply map_eq. intros g. rewrite !lookup_union, !map_lookup_imap. cbn [list_to_map foldr fst snd uncurry curry]. rewrite lookup_insert. case_decide as E.
      + subst g. rewrite (not_elem_of_list_to_map_1 _ _ Hf). cbn. rewrite (left_id_L None (∪)). destruct (out f a) as [b|].
        * rewrite lookup_insert_eq. by destruct (acc !! f).
        * by rewrite Hacc by by left.
      + f_equal. destruct (out f a); [|done]. by rewrite lookup_insert_ne.
    - intros g Hg. destruct (out f a) as [b|]; [|apply Hacc; by right]. rewrite lookup_insert_ne by (intros ->; done). apply Hacc. by right. }
  rewrite Hloop; [|apply NoDup_fst_map_to_list|intros f a; by rewrite elem_of_map_to_list|by intros]. by rewrite list_to_map_to_list, (right_id_L ∅ (∪)).
Qed.

Lemma remove_all_store n s M T node : store_ok n s M T → in_u 32 node → ∃ s', ColumnStore.remove_all s node = Some s' ∧ store_ok n s' (without M node) T.
Proof.
  intros Hs Hn. pose proof (st_n _ _ _ _ Hs) as Hn0. destruct (st_cols _ _ _ _ Hs) as (strs & Hit & Hlen & Hfs & Hc). unfold ColumnStore.remove_all.
  rewrite (fold_kept (ColumnStore.forget s node) (λ _ col, default None (ColumnStore.forget s node col))).
  2:{ intros f col Hf. specialize (Hc f). rewrite Hf in Hc. destruct Hc as (m & _ & Hcol & _). by destruct (forget_spec n s strs node col m Hn0 Hit Hcol Hn) as (kept & -> & _). }
  cbn [mbind option_bind]. eexists. split; [done|]. split; cbn [ColumnStore.cols ColumnStore.intern ColumnStore.prop_tombstones]; [done| |exact (st_marks _ _ _ _ Hs)].
  exists strs. split_and!; [done..|]. intros f. rewrite map_lookup_imap. specialize (Hc f). destruct (ColumnStore.cols s !! f) as [col|]; cbn [mbind option_bind].
  - destruct Hc as (m & _ & Hcol & Ho). destruct (forget_spec n s strs node col m Hn0 Hit Hcol Hn) as ([col'|] & -> & Hk); cbn [default].
    + destruct Hk as [? ?]. exists (delete node m). split_and!; [done|done|by apply column_of_without].
    + eapply column_of_empty; [by apply column_of_without|done].
  - eapply column_of_empty; [by apply column_of_without|]. by rewrite delete_empty.
Qed.

Lemma mark_store n s M T node f : store_ok n s M T → n < 2 ^ 32 →
  ∃ s', ColumnStore.record_prop_tombstone s node f = Some s' ∧ store_ok (n + 1) s' M ({[(node, f)]} ∪ T).
Proof.
  intros Hs Hlt. pose proof (st_n _ _ _ _ Hs) as Hn0. destruct (st_marks _ _ _ _ Hs) as (es & Hh & Ht). unfold ColumnStore.record_prop_tombstone.
  destruct (CowMap.get_or_insert_with_holds _ es (potential n) node ∅ Hh) as (store & -> & Hst); [unfold potential, CowMapIter.built_potential, CowMap.depth_budget; lia|]. cbn [mbind option_bind]. eexists. split; [done|].
  split; cbn [ColumnStore.cols ColumnStore.intern ColumnStore.prop_tombstones]; [lia| |].
  - destruct (st_cols _ _ _ _ Hs) as (strs & Hit & Hlen & Hfs & Hc). exists strs. split_and!; [done|lia|done|]. intros f'. specialize (Hc f'). destruct (ColumnStore.cols s !! f') as [col|]; [|done].
    destruct Hc as (m & ? & ? & ?). exists m. split_and!; [done|eapply col_ok_weaken; [|done|done]; lia|done].
  - eexists. split; [replace (potential (n + 1)) with (potential n + 1) by (unfold potential; lia); apply Hst|]. intros id f'. rewrite elem_of_union, elem_of_singleton, Ht, alookup_ainsert.
    destruct (decide (id = node)) as [->|Hne].
    + rewrite cmp_refl. split.
      * intros [[= ->]|(fs & -> & ?)]; eexists; (split; [done|]); set_solver.
      * intros (fs & [= <-] & Hf). apply elem_of_union in Hf as [->%elem_of_singleton|Hf]; [by left|]. right. destruct (alookup node es) as [fs|]; [by exists fs|]. by apply not_elem_of_empty in Hf.
    + destruct (cmp id node) eqn:E; [by apply cmp_eq in E|..]; (split; [intros [[= -> ->]|?]; done|by right]).
Qed.

(** ** The nested map of a snapshot *)

Definition nested (W : gmap string (gmap Z Value.t)) (id : Z) (f : string) : option Value.t := m ← W !! f; m !! id.

Lemma to_wire_store n s M T : store_ok n s M T → ∃ W, ColumnStore.to_wire s = Some W ∧ ∀ id f, nested W id f = M !! (id, f).
Proof.
  intros Hs. destruct (st_cols _ _ _ _ Hs) as (strs & Hit & _ & _ & Hc). unfold ColumnStore.to_wire.
  set (out := λ (_ : string) (col : Column.t), Column.to_map col (ColumnStore.intern s)). pose proof (fold_kept (λ col, Some <$> Column.to_map col (ColumnStore.intern s)) out (ColumnStore.cols s)) as Hf.
  exists (map_imap out (ColumnStore.cols s)). split.
  - rewrite <-Hf.
    + apply foldl_ext_l. intros acc [f col]. destruct acc; [|done]. cbn. by destruct (Column.to_map col (ColumnStore.intern s)).
    + intros f col Hcol. specialize (Hc f). rewrite Hcol in Hc. destruct Hc as (m & _ & Hok & _). unfold out. by rewrite (to_map_spec hash fine n strs _ col m).
  - intros id f. unfold nested. rewrite map_lookup_imap. specialize (Hc f). destruct (ColumnStore.cols s !! f) as [col|]; cbn [mbind option_bind].
    + destruct Hc as (m & _ & Hok & Ho). unfold out. rewrite (to_map_spec hash fine n strs _ col m) by done. apply Ho.
    + by rewrite <-Hc, lookup_empty.
Qed.

(** Writing the properties [M] field by field over a store that holds [B]: every write is
    to a slot of [M] not written yet, so the bound grows by the number written. *)
Definition rebuilt (n : Z) (B : Props) (T : Marks) (M N : Props) (s : ColumnStore.t) : Prop := store_ok (n + Z.of_nat (size N)) s (N ∪ B) T ∧ N ⊆ M.

Definition storable_map (M : Props) : Prop := ∀ id f v, M !! (id, f) = Some v → (in_u 32 id ∧ id < cap) ∧ fine v.

Section rebuild.
Context (n : Z) (B : Props) (T : Marks) (M : Props) (storable_M : storable_map M) (room : n + Z.of_nat (size M) ≤ 2 ^ 32).

Lemma set_rebuilt N s node f v : rebuilt n B T M N s → M !! (node, f) = Some v → N !! (node, f) = None →
  ∃ s', ColumnStore.set hash s node f v = Some s' ∧ rebuilt n B T M (<[(node, f) := v]> N) s'.
Proof.
  intros [Hs Hsub] HM HN. destruct (storable_M _ _ _ HM) as [[Hn Hc] Hv].
  assert (<[(node, f) := v]> N ⊆ M) as Hsub' by by apply insert_subseteq_l. pose proof (map_subseteq_size _ _ Hsub') as Hle. rewrite map_size_insert_None in Hle by done.
  destruct (set_store _ s (N ∪ B) T node f v Hs) as (s' & He & Hs'); [lia|done|done|done|]. exists s'. split; [done|]. split; [|done]. rewrite map_size_insert_None, <-insert_union_l by done.
  by replace (n + Z.of_nat (S (size N))) with (n + Z.of_nat (size N) + 1) by lia.
Qed.

Lemma set_all_rebuilt f l : ∀ N s, rebuilt n B T M N s → NoDup l.*1 → (∀ node v, (node, v) ∈ l → M !! (node, f) = Some v ∧ N !! (node, f) = None) →
  ∃ s' N', foldl (λ self '(node, value), self ← self; ColumnStore.set hash self node f value) (Some s) l = Some s' ∧ rebuilt n B T M N' s' ∧
    (∀ node v, (node, v) ∈ l → N' !! (node, f) = Some v) ∧ N ⊆ N' ∧ ∀ node f', f' ≠ f → N' !! (node, f') = N !! (node, f').
Proof.
  induction l as [|[node v] l IH]; intros N s HN Hnd Hl; cbn [foldl].
  { exists s, N. split_and!; [done|done|by intros ?? ?%elem_of_nil|done|done]. }
  apply NoDup_cons in Hnd as [Hnew Hnd]. destruct (Hl node v) as [Hv Hf]; [by left|]. destruct (set_rebuilt N s node f v) as (s1 & He & Hs1); [done..|]. cbn [mbind option_bind]. rewrite He.
  destruct (IH (<[(node, f) := v]> N) s1) as (s' & N' & Hrun & Hs' & Hin & Hsub & Hout); [done|done| |].
  { intros k w Hk. destruct (Hl k w) as [? ?]; [by right|]. split; [done|]. rewrite lookup_insert_ne; [done|]. intros [= <-]. apply Hnew. apply list_elem_of_fmap. by exists (node, w). }
  exists s', N'. split_and!; [done|done| | |].
  - intros k w [[= -> ->]|Hk]%elem_of_cons; [|by apply Hin]. eapply lookup_weaken; [apply lookup_insert_eq|done].
  - etrans; [by apply insert_subseteq|done].
  - intros k f' Hne. rewrite Hout by done. rewrite lookup_insert_ne by congruence. done.
Qed.

(** The writes of every field of [M]. *)
Definition writes_of (l : list (string * list (Z * Value.t))) : Prop :=
  NoDup l.*1 ∧ (∀ f ws, (f, ws) ∈ l → NoDup ws.*1 ∧ ∀ id v, (id, v) ∈ ws ↔ M !! (id, f) = Some v) ∧ ∀ id f, is_Some (M !! (id, f)) → f ∈ l.*1.

Definition write_fields (self : option ColumnStore.t) (l : list (string * list (Z * Value.t))) : option ColumnStore.t :=
  foldl (λ self '(f, ws), foldl (λ self '(node, value), self ← self; ColumnStore.set hash self node f value) self ws) self l.

Lemma fields_rebuilt l : ∀ N s, rebuilt n B T M N s → NoDup l.*1 → (∀ f ws, (f, ws) ∈ l → (NoDup ws.*1 ∧ ∀ id v, (id, v) ∈ ws ↔ M !! (id, f) = Some v) ∧ ∀ id, N !! (id, f) = None) →
  ∃ s' N', write_fields (Some s) l = Some s' ∧ rebuilt n B T M N' s' ∧ N ⊆ N' ∧ ∀ f id v, f ∈ l.*1 → M !! (id, f) = Some v → N' !! (id, f) = Some v.
Proof.
  unfold write_fields. induction l as [|[f ws] l IH]; intros N s HN Hnd Hl; cbn [foldl]. { exists s, N. split_and!; [done|done|done|by intros ??? ?%elem_of_nil]. }
  cbn [fmap list_fmap fst] in Hnd |- *. apply NoDup_cons in Hnd as [Hnew Hnd]. destruct (Hl f ws) as [[Hws Hm] Hf]; [by left|]. destruct (set_all_rebuilt f ws N s) as (s1 & N1 & -> & Hs1 & Hin & Hsub & Hout); [done|done| |].
  { intros node v ?%Hm. done. }
  destruct (IH N1 s1) as (s' & N' & -> & Hs' & Hsub' & Hin'); [done|done| |].
  { intros f' ws' Hf'. destruct (Hl f' ws') as [? Hnone]; [by right|]. split; [done|]. intros id. rewrite Hout; [done|]. intros ->. apply Hnew. apply list_elem_of_fmap. by exists (f, ws'). }
  exists s', N'. split_and!; [done|done|by etrans|]. intros f' id v [->|Hf']%elem_of_cons Hv; [|by apply Hin']. eapply lookup_weaken; [|done]. apply Hin. by apply Hm.
Qed.

Lemma writes_rebuilt s l : store_ok n s B T → writes_of l → ∃ s', write_fields (Some s) l = Some s' ∧ store_ok (n + Z.of_nat (size M)) s' (M ∪ B) T.
Proof.
  intros Hs (Hnd & Hl & Hall). destruct (fields_rebuilt l ∅ s) as (s' & N & He & [Hs' Hsub] & _ & Hin); [|done|intros f ws ?; split; [by apply Hl|intros id; apply lookup_empty]|].
  - split; [|apply map_empty_subseteq]. by rewrite map_size_empty, Z.add_0_r, (left_id_L ∅ (∪)).
  - exists s'. split; [done|]. assert (N = M) as ->; [|done]. apply map_eq. intros [id f]. destruct (M !! (id, f)) as [v|] eqn:E; [by eapply Hin; [apply (Hall id)|]|].
    destruct (N !! (id, f)) as [w|] eqn:D; [|done]. apply (lookup_weaken _ _ _ _ D) in Hsub. congruence.
Qed.

(** A nested map's writes. *)
Lemma nested_writes W : (∀ id f, nested W id f = M !! (id, f)) → writes_of ((λ fm, (fm.1, map_to_list fm.2)) <$> map_to_list W).
Proof.
  intros HW. assert (((λ fm : string * gmap Z Value.t, (fm.1, map_to_list fm.2)) <$> map_to_list W).*1 = (map_to_list W).*1) as Hk by (by rewrite <-list_fmap_compose). split_and!.
  - rewrite Hk. apply NoDup_fst_map_to_list.
  - intros f ws ([g m] & [= -> ->] & Hg%elem_of_map_to_list)%list_elem_of_fmap. split; [apply NoDup_fst_map_to_list|]. intros id v. rewrite elem_of_map_to_list, <-HW. unfold nested. by rewrite Hg.
  - intros id f [v Hv]. rewrite Hk. rewrite <-HW in Hv. unfold nested in Hv. destruct (W !! f) as [m|] eqn:E; [|done]. apply list_elem_of_fmap. exists (f, m). split; [done|]. by apply elem_of_map_to_list.
Qed.

End rebuild.

Lemma write_wire self W : foldl (λ self '(field, values), ColumnStore.set_all hash self field values) self (map_to_list W) = write_fields self ((λ fm, (fm.1, map_to_list fm.2)) <$> map_to_list W).
Proof. unfold write_fields, ColumnStore.set_all. rewrite foldl_fmap. apply foldl_ext_l. by intros acc [f m]. Qed.

Lemma from_wire_rebuilt M W : storable_map M → Z.of_nat (size M) ≤ 2 ^ 32 → (∀ id f, nested W id f = M !! (id, f)) → ∃ s, ColumnStore.from_wire hash W = Some s ∧ store_ok (Z.of_nat (size M)) s M ∅.
Proof.
  intros HM Hsz HW. unfold ColumnStore.from_wire. rewrite write_wire. destruct (writes_rebuilt 0 ∅ ∅ M HM ltac:(lia) ColumnStore.new _ new_store_ok (nested_writes M W HW)) as (s & -> & Hs). exists s. split; [done|].
  by rewrite (right_id_L ∅ (∪)) in Hs.
Qed.

(** ** Sequences of operations *)

Inductive op :=
| OSet (node : Z) (field : string) (value : Value.t)
| ORemove (node : Z) (field : string)
| ORemoveAll (node : Z)
| OMark (node : Z) (field : string).

Definition step (s : ColumnStore.t) (o : op) : option (option Value.t * ColumnStore.t) :=
  match o with
  | OSet node field value => pair None <$> ColumnStore.set hash s node field value
  | ORemove node field => ColumnStore.remove s node field
  | ORemoveAll node => pair None <$> ColumnStore.remove_all s node
  | OMark node field => pair None <$> ColumnStore.record_prop_tombstone s node field
  end.

Fixpoint run (s : ColumnStore.t) (ops : list op) : option (list (option Value.t) * ColumnStore.t) :=
  match ops with
  | [] => Some ([], s)
  | o :: ops => '(out, s) ← step s o; '(outs, s) ← run s ops; Some (out :: outs, s)
  end.

(** The same operations on a map of properties and a set of marks. *)
Definition spec_step (M : Props) (T : Marks) (o : op) : option Value.t * Props * Marks :=
  match o with
  | OSet node field value => (None, <[(node, field) := value]> M, T)
  | ORemove node field => (M !! (node, field), delete (node, field) M, T)
  | ORemoveAll node => (None, without M node, T)
  | OMark node field => (None, M, {[(node, field)]} ∪ T)
  end.

Fixpoint spec_run (M : Props) (T : Marks) (ops : list op) : list (option Value.t) * Props * Marks :=
  match ops with
  | [] => ([], M, T)
  | o :: ops => let '(out, M, T) := spec_step M T o in let '(outs, M, T) := spec_run M T ops in (out :: outs, M, T)
  end.

Definition op_ok (o : op) : Prop :=
  match o with OSet node _ value => (in_u 32 node ∧ node < cap) ∧ fine value | ORemove node _ | ORemoveAll node => in_u 32 node | OMark _ _ => True end.

(** A reachable state: what the store shows, and what a rebuild of it needs. *)
Definition sound (n : Z) (s : ColumnStore.t) (M : Props) (T : Marks) : Prop :=
  store_ok n s M T ∧ Z.of_nat (size M) ≤ n ∧ ∀ id f v, M !! (id, f) = Some v → (in_u 32 id ∧ id < cap) ∧ fine v.

Lemma sound_sub n s s' M M' T : sound n s M T → store_ok n s' M' T → M' ⊆ M → sound n s' M' T.
Proof.
  intros (_ & Hsz & Hk) Hs Hsub. pose proof (map_subseteq_size _ _ Hsub). split_and!; [done|lia|]. intros id f v Hv. by eapply Hk, lookup_weaken.
Qed.

Lemma store_ok_weaken n n' s M T : store_ok n s M T → n ≤ n' ≤ 2 ^ 32 → store_ok n' s M T.
Proof.
  intros Hs Hle. pose proof (st_n _ _ _ _ Hs). split; [lia| |].
  - destruct (st_cols _ _ _ _ Hs) as (strs & ? & ? & ? & Hc). exists strs. split_and!; [done|lia|done|]. intros f. specialize (Hc f). destruct (ColumnStore.cols s !! f); [|done].
    destruct Hc as (m & ? & ? & ?). exists m. split_and!; [done| |done]. eapply col_ok_weaken; [|done|done]. lia.
  - destruct (st_marks _ _ _ _ Hs) as (es & ? & ?). exists es. split; [|done]. eapply marks_weaken; [done|lia].
Qed.

Lemma step_sound n s M T o : sound n s M T → n < 2 ^ 32 → op_ok o →
  let '(out, M', T') := spec_step M T o in ∃ s', step s o = Some (out, s') ∧ sound (n + 1) s' M' T'.
Proof.
  intros Hs Hlt Ho. destruct Hs as (Hst & Hsz & Hk) eqn:E. clear E. pose proof (st_n _ _ _ _ Hst). destruct o as [node f v|node f|node|node f]; cbn [spec_step step op_ok] in *.
  - destruct Ho as [[? ?] ?]. destruct (set_store n s M T node f v) as (s' & -> & Hs'); [done..|]. exists s'. split; [done|]. split_and!; [done| |].
    + pose proof (map_size_insert (M := gmap (Z * string)) (node, f) v M) as Hz. rewrite Hz. destruct (M !! (node, f)); cbn; lia.
    + intros id g w. rewrite lookup_insert. case_decide as D; [by intros [= <-]; simplify_eq|apply Hk].
  - destruct (remove_store n s M T node f) as (s' & -> & Hs'); [done..|]. exists s'. split; [done|]. apply (sound_sub _ s _ M); [|eapply store_ok_weaken; [done|lia]|apply delete_subseteq].
    split_and!; [eapply store_ok_weaken; [done|lia]|lia|done].
  - destruct (remove_all_store n s M T node) as (s' & -> & Hs'); [done..|]. exists s'. split; [done|]. apply (sound_sub _ s _ M); [|eapply store_ok_weaken; [done|lia]|apply map_filter_subseteq].
    split_and!; [eapply store_ok_weaken; [done|lia]|lia|done].
  - destruct (mark_store n s M T node f) as (s' & -> & Hs'); [done..|]. exists s'. split; [done|]. split_and!; [done|lia|done].
Qed.

Lemma run_sound ops : ∀ n s M T, sound n s M T → n + Z.of_nat (length ops) ≤ 2 ^ 32 → Forall op_ok ops →
  let '(outs, M', T') := spec_run M T ops in ∃ s', run s ops = Some (outs, s') ∧ sound (n + Z.of_nat (length ops)) s' M' T'.
Proof.
  induction ops as [|o ops IH]; intros n s M T Hs Hle Hops; cbn [spec_run run length]. { exists s. split; [done|]. by rewrite Z.add_0_r. }
  inversion_clear Hops. cbn [length] in Hle. pose proof (step_sound n s M T o Hs) as Hst. destruct (spec_step M T o) as [[out M1] T1]. destruct Hst as (s1 & -> & Hs1); [lia|done|].
  specialize (IH (n + 1) s1 M1 T1 Hs1). destruct (spec_run M1 T1 ops) as [[outs M2] T2]. destruct IH as (s2 & He & Hs2); [lia|done|]. cbn [mbind option_bind]. rewrite He. exists s2. split; [done|].
  by replace (n + Z.of_nat (S (length ops))) with (n + 1 + Z.of_nat (length ops)) by lia.
Qed.

(** What a reader of the store sees. *)
Definition shows (s : ColumnStore.t) (M : Props) (T : Marks) : Prop :=
  (∀ node f, in_u 32 node → ColumnStore.get s node f = Some (M !! (node, f))) ∧
  (∀ f, f ∈ ColumnStore.fields s ↔ ∃ node, is_Some (M !! (node, f))) ∧
  ∀ node f, ColumnStore.is_tombstoned s node f = Some (bool_decide ((node, f) ∈ T)).

Lemma store_shows n s M T : store_ok n s M T → shows s M T.
Proof. intros Hs. split_and!; intros; [by eapply get_store|by eapply fields_store|by eapply marked_store]. Qed.

End store.

#[local] Instance every_slot : SlotCap := {| cap := 2 ^ 32; cap_u32 := ltac:(done) |}.

(** C21: The property columns are a map.  Up to 2^32 writes, removals, removals of a
    whole node and tombstones on an empty store all run without a panic, whatever mix of
    types the columns are given and whatever the hash function; each removal returns
    exactly the value that was there; afterwards [get] is the lookup of the map the
    operations describe, the fields are those with a value left, and the tombstones are
    the marks made.  The nested map written out for a snapshot rebuilds a store with the
    same properties. *)
Theorem column_store_refines (hash : string → Z) (ops : list op) :
  Z.of_nat (length ops) ≤ 2 ^ 32 → Forall (op_ok (λ _, True)) ops →
  let '(outs, M, T) := spec_run ∅ ∅ ops in
  ∃ s, run hash ColumnStore.new ops = Some (outs, s) ∧ shows s M T ∧
    ∃ W s', ColumnStore.to_wire s = Some W ∧ ColumnStore.from_wire hash W = Some s' ∧ shows s' M ∅.
Proof.
  intros Hlen Hops. pose proof (run_sound hash (λ _, True) (λ _, I) I ops 0 ColumnStore.new ∅ ∅) as Hrun. destruct (spec_run ∅ ∅ ops) as [[outs M] T].
  destruct Hrun as (s & Hr & Hs & Hsz & Hk); [|lia|done|].
  { split; [by apply new_store_ok|]. split; [done|]. intros id f v Hv. by rewrite lookup_empty in Hv. }
  exists s. split; [done|]. split; [by eapply store_shows|]. destruct (to_wire_store _ _ _ _ _ _ Hs) as (W & HW & Hn). exists W.
  destruct (from_wire_rebuilt hash (λ _, True) (λ _, I) I M W) as (s' & Hf & Hs'); [done|lia|done|]. exists s'. split_and!; [done|done|by eapply store_shows].
Qed.

Definition sample_ops : list op :=
  [OSet 70 "age" (Value.Int 4); OSet 3 "age" (Value.Int 9); OSet 3 "name" (Value.Str "ann"); ORemove 70 "age"; OSet 3 "age" (Value.Str "old"); OMark 5 "age"; ORemove 9 "name"; OSet 70 "name" (Value.Str "ann"); ORemoveAll 3].

Lemma column_store_refines_witness :
  (spec_run ∅ ∅ sample_ops).1.1 !! 3%nat = Some (Some (Value.Int 4)) ∧
  ∃ s, fst <$> run (λ _, 7) ColumnStore.new sample_ops = Some (spec_run ∅ ∅ sample_ops).1.1 ∧ ColumnStore.get s 70 "name" = Some (Some (Value.Str "ann")).
Proof.
  split; [vm_compute; reflexivity|]. pose proof (column_store_refines (λ _, 7) sample_ops) as H. destruct (spec_run ∅ ∅ sample_ops) as [[outs M] T] eqn:E. destruct H as (s & Hr & (Hg & _) & _).
  - vm_compute. discriminate.
  - repeat constructor; cbn; lia.
  - exists s. split; [by rewrite Hr|]. rewrite Hg by (vm_compute; split; [discriminate|reflexivity]). f_equal. change M with (outs, M, T).1.2. rewrite <-E. vm_compute. reflexivity.
Defined.

End ColumnsStore.
