(* ===== verification/ColumnsPack.v ===== *)
(** * The packed and the archived form of the columns

    Models [pack] and [unpack] of [crates/core-storage/src/columns.rs] and, of
    [crates/core-storage/src/v8/encode.rs], the columns section of a snapshot: packing a
    store, decoding the packed form into typed archived columns ([decode_all_columns]),
    promoting columns of equally long float lists to vectors, merging a base with an
    overlay and loading a base back.  An archived structure is the structure; an error
    keeps the first words of its message.  [ser] and [de] are [bincode]'s encoder and
    decoder of a node-to-value map. *)

From Stdlib Require Import Init.Byte.
From S2P Require Import Prelude Order Assoc Bytes Utf8 Types CowVec CowMap CowMapIter HashIndex Pack Float64 ValueOps Bitmap Tagged Columns.
Open Scope Z_scope.

Module ColumnsPack.
Import Tagged.

(** ** The archived section *)

Inductive ColumnData :=
| DInt (data present : list Z)
| DFloat (data present : list Z)
| DBool (data present : list Z)
| DStr (ids present : list Z) (strings : list string)
| DMixed (blob : list Z)
| DVector (dim : Z) (data present : list Z).

Record FieldEntry := mk_entry { name : string; col : ColumnData }.
Abbreviation ColumnsData := (list FieldEntry).

Section pack.
Context (hash : string → Z).
Context (ser : gmap Z Value.t → result string (list Z)) (de : list Z → result string (gmap Z Value.t)).

(** ** Packing *)

Definition null_in_column : GraphError := Corrupt "refusing to encode a column whose property value holds a null".

(** One value of a column's dense run. *)
Definition pack_binary (out : list Z) (v : Value.t) : option (list Z) :=
  match v with
  | Value.Binary bytes => Some (Pack.push_u32 out (wrap_u 32 (Z.of_nat (length bytes))) ++ u8s bytes)
  | _ => None
  end.

Definition pack_all {A} (step : list Z → A → option (list Z)) (out : list Z) (l : list A) : option (list Z) := foldl (λ out x, out ← out; step out x) (Some out) l.

Definition pack_column (self : Column.t) (out : list Z) : option (Result (list Z)) :=
  match self with
  | Column.Fixed_ kind values present _ =>
      out ← pack_all (λ out v, Fixed.push_raw kind v out) (Pack.push_u32 (out ++ [Fixed.tag kind]) (wrap_u 32 (Z.of_nat (CowVec.len values)))) (CowVec.iter values);
      Some (Ok (Bitmap.pack present out))
  | Column.Str_ ids present _ =>
      let out := foldl Pack.push_u32 (Pack.push_u32 (out ++ [3]) (wrap_u 32 (Z.of_nat (CowVec.len ids)))) (CowVec.iter ids) in
      Some (Ok (Bitmap.pack present out))
  | Column.Binary_ data present _ =>
      out ← pack_all pack_binary (Pack.push_u32 (out ++ [9]) (wrap_u 32 (Z.of_nat (CowVec.len data)))) (CowVec.iter data);
      Some (Ok (Bitmap.pack present out))
  | Column.Mixed map =>
      es ← Column.map_entries map;
      if existsb (λ e, Value.contains_null e.2) es then Some (Err null_in_column)
      else Some (match ser (list_to_map es) with
                 | Err _ => Err (Corrupt "mixed column failed to encode: ")
                 | Ok blob => Ok (Pack.push_u32 (out ++ [4]) (wrap_u 32 (Z.of_nat (length blob))) ++ blob)
                 end)
  end.

(** One field of the store's columns, by name. *)
Definition pack_field (cols : gmap string Column.t) (acc : option (Result (list Z))) (f : string) : option (Result (list Z)) :=
  out ← acc;
  match out with
  | Err e => Some (Err e)
  | Ok out => col ← cols !! f; pack_column col (Pack.push_str out f)
  end.

Definition pack (self : ColumnStore.t) (out : list Z) : option (Result (list Z)) :=
  out ← StrIntern.pack (ColumnStore.intern self) out;
  let fields := sort_unstable (map_to_list (ColumnStore.cols self)).*1 in
  foldl (pack_field (ColumnStore.cols self)) (Some (Ok (Pack.push_u32 out (wrap_u 32 (Z.of_nat (length fields)))))) fields.

(** ** Unpacking *)

(** [read_records] *)
Definition read_records (width : nat) : reader GraphError (list (list Z)) :=
  n ← Pack.read_u32;
  len ← lift_result (ok_or (try_u 64 (n * Z.of_nat width)) (Corrupt "snapshot: packed length overflow"));
  bytes ← Pack.read_exact len;
  mret (chunks_exact (length bytes) width bytes).

Definition read_byte : reader GraphError Z := b ← Pack.read_exact 1; mret (hd 0 b).

(** The slots of a packed column of bytes. *)
Definition read_binaries : reader GraphError (list Value.t) :=
  n ← Pack.read_u32;
  repeat_read (Z.to_nat n) (len ← Pack.read_u32; bytes ← Pack.read_exact len; mret (Value.Binary (of_u8s bytes))).

(** [Column::unpack]; building the tree of a mixed column may panic. *)
Definition unpack_column : reader GraphError (option Column.t) :=
  tag ← read_byte;
  match Fixed.of_tag tag with
  | Some kind =>
      records ← read_records (Fixed.width kind);
      present ← Bitmap.unpack;
      mret (Some (Column.Fixed_ kind (CowVec.from_iter (Fixed.read_raw kind <$> records)) present (Bitmap.live_count present)))
  | None =>
      match tag with
      | 3 =>
          ids ← Pack.read_u32s;
          present ← Bitmap.unpack;
          mret (Some (Column.Str_ (CowVec.from_vec ids) present (Bitmap.live_count present)))
      | 4 =>
          n ← Pack.read_u32;
          blob ← Pack.read_exact n;
          m ← lift_result (match de blob with Ok m => Ok m | Err _ => Err (Corrupt "snapshot: mixed column: ") end);
          mret (Column.Mixed <$> CowMapIter.from_sorted (Column.sorted_entries m))
      | 9 =>
          data ← read_binaries;
          present ← Bitmap.unpack;
          mret (Some (Column.Binary_ (CowVec.from_vec data) present (Bitmap.live_count present)))
      | _ => lift_result (Err (Corrupt "snapshot: unknown column tag "))
      end
  end.

Definition unpack_field : reader GraphError (string * option Column.t) :=
  name ← Pack.read_str; col ← unpack_column; mret (name, col).

(** The string table and the fields as they are read. *)
Definition unpack_parts : reader GraphError (list string * list (string * option Column.t)) :=
  n ← Pack.read_u32;
  strings ← repeat_read (Z.to_nat n) Pack.read_str;
  n ← Pack.read_u32;
  fields ← repeat_read (Z.to_nat n) unpack_field;
  mret (strings, fields).

(** What is read put together. *)
Definition assemble (strings : list string) (fields : list (string * option Column.t)) : option ColumnStore.t :=
  intern ← StrIntern.unpack_table hash strings;
  cols ← foldl (λ cols '(name, col), cols ← cols; col ← col; Some (<[name := col]> cols)) (Some ∅) fields;
  Some (ColumnStore.mk cols intern CowMap.new).

(** [ColumnStore::unpack], with the position it stops at *)
Definition unpack (src : list Z) : option (Result (ColumnStore.t * Z)) :=
  match unpack_parts src 0 with
  | Err e => Some (Err e)
  | Ok (strings, fields, pos) => self ← assemble strings fields; Some (Ok (self, pos))
  end.

(** ** Decoding for the archive *)

(** [r.map_err(|_| GraphError::Corrupt { .. })] *)
Definition or_corrupt {A} (detail : string) (r : reader GraphError A) : reader GraphError A := λ src pos,
  match r src pos with Ok x => Ok x | Err _ => Err (Corrupt detail) end.

Definition typed_tag (tag : Z) : bool := (5 <=? tag) && (tag <=? 9).

(** [unpack_typed_column_map]: no string column comes through here. *)
Definition unpack_typed_column_map : reader GraphError (option (gmap Z Value.t)) := λ src pos,
  if match slice_get src pos 1 with Some (tag :: _) => typed_tag tag | _ => false end then
    match unpack_column src pos with
    | Err e => Err e
    | Ok (col, pos) => Ok (col ← col; Column.to_map col StrIntern.new, pos)
    end
  else Err (Corrupt "columns: expected a typed-value column tag 5-9, found ").

(** One column of [decode_all_columns], its tag read already. *)
Definition decode_column (v11 : bool) (tag : Z) : reader GraphError (option ColumnData) :=
  match tag with
  | 0 => data ← or_corrupt "v8: column pack decode: truncated Int data" Pack.read_i64s;
         present ← or_corrupt "v8: column pack decode: truncated Int bitmap" Bitmap.unpack_words;
         mret (Some (DInt data present))
  | 1 => data ← or_corrupt "v8: column pack decode: truncated Float data" Pack.read_f64s;
         present ← or_corrupt "v8: column pack decode: truncated Float bitmap" Bitmap.unpack_words;
         mret (Some (DFloat data present))
  | 2 => n ← or_corrupt "v8: column pack decode: truncated Bool length" Pack.read_u32;
         raw ← or_corrupt "v8: column pack decode: truncated Bool data" (Pack.read_exact n);
         present ← or_corrupt "v8: column pack decode: truncated Bool bitmap" Bitmap.unpack_words;
         mret (Some (DBool raw present))
  | 3 => ids ← or_corrupt "v8: column pack decode: truncated Str ids" Pack.read_u32s;
         present ← or_corrupt "v8: column pack decode: truncated Str bitmap" Bitmap.unpack_words;
         mret (Some (DStr ids present []))
  | 4 => n ← or_corrupt "v8: column pack decode: truncated Mixed length" Pack.read_u32;
         blob ← or_corrupt "v8: column pack decode: truncated Mixed data" (Pack.read_exact n);
         mret (Some (DMixed blob))
  | _ =>
      if typed_tag tag then
        if negb v11 then lift_result (Err (Corrupt "v8: column holds values which only a V11 snapshot can store"))
        else λ src pos,
          (m ← or_corrupt "v8: column pack decode: " unpack_typed_column_map;
           match m with
           | None => mret None
           | Some m => blob ← lift_result (match ser m with Ok blob => Ok blob | Err _ => Err (Corrupt "v8: column encode: ") end); mret (Some (DMixed blob))
           end) src (pos - 1)
      else lift_result (Err (Corrupt "v8: column pack decode: unknown tag byte"))
  end.

Definition decode_field (v11 : bool) : reader GraphError (string * option ColumnData) :=
  fname ← or_corrupt "v8: columns pack: truncated field name" Pack.read_str;
  tag ← or_corrupt "v8: column pack decode: truncated tag byte" read_byte;
  col ← decode_column v11 tag;
  mret (fname, col).

Definition decode_all_columns (v11 : bool) : reader GraphError (list string * list (string * option ColumnData)) :=
  n ← or_corrupt "v8: columns pack: truncated intern-string count" Pack.read_u32;
  strings ← repeat_read (Z.to_nat n) (or_corrupt "v8: columns pack: truncated intern-string" Pack.read_str);
  n ← or_corrupt "v8: columns pack: truncated field count" Pack.read_u32;
  fields ← repeat_read (Z.to_nat n) (decode_field v11);
  mret (strings, fields).

(** ** Vectors *)

Definition float_bits (v : Value.t) : option Z := match v with Value.Float f => Some f | _ => None end.

(** The floats of a list of floats. *)
Definition floats_of (v : Value.t) : option (list Z) := match v with Value.List items => mapM float_bits items | _ => None end.

(** [data[start + i] = f] for every element; panics out of range. *)
Definition put_floats (data : option (list Z)) (start : nat) (fs : list Z) : option (list Z) :=
  foldl (λ data '(i, f), data ← data; if (start + i <? length data)%nat then Some (<[(start + i)%nat := f]> data) else None) data (imap pair fs).

Definition put_bit (words : option (list Z)) (id : Z) : option (list Z) :=
  words ← words; w ← words !! Bitmap.word_of id; Some (<[Bitmap.word_of id := Z.lor w (Bitmap.mask_of id)]> words).

(** One entry of the map, laid out. *)
Definition put_entry (dim : nat) (acc : option (list Z) * option (list Z)) (e : Z * list Z) : option (list Z) * option (list Z) :=
  (put_floats acc.1 (Z.to_nat e.1 * dim) e.2, put_bit acc.2 e.1).

(** [map.keys().max()] *)
Definition max_key (ids : list Z) : Z := foldl Z.max 0 ids.

Definition try_promote_to_vector (map : gmap Z Value.t) : option (option ColumnData) :=
  match mapM (λ e, pair e.1 <$> floats_of e.2) (map_to_list map) with
  | Some ((id, fs) :: rest) =>
      let dim := length fs in
      if (dim =? 0)%nat || negb (forallb (λ e, (length e.2 =? dim)%nat) rest) then Some None
      else
        let n_nodes := S (Z.to_nat (max_key ((id, fs) :: rest).*1)) in
        let '(data, present) := foldl (put_entry dim) (Some (replicate (n_nodes * dim) 0), Some (replicate ((n_nodes + 63) / 64) 0)) ((id, fs) :: rest) in
        data ← data; present ← present;
        Some (Some (DVector (wrap_u 32 (Z.of_nat dim)) data present))
  | _ => Some None
  end.

(** The post-processing of one field. *)
Definition promote_field (v11 : bool) (fname : string) (cd : ColumnData) : option (Result ColumnData) :=
  match cd with
  | DMixed blob =>
      let map := match de blob with Ok m => m | Err _ => ∅ end in
      p ← try_promote_to_vector map;
      Some (match p with
            | Some vec_col => Ok vec_col
            | None => if negb v11 && existsb (λ e, bool_decide (is_Some (Value.v11_only_type e.2))) (map_to_list map)
                      then Err (Corrupt "v8: column holds values which only a V11 snapshot can store") else Ok cd
            end)
  | cd => Some (Ok cd)
  end.

(** The fields in name order, each post-processed, up to the first error. *)
Fixpoint promote_all (v11 : bool) (fields : list (string * ColumnData)) : option (Result ColumnsData) :=
  match fields with
  | [] => Some (Ok [])
  | (fname, cd) :: fields =>
      r ← promote_field v11 fname cd;
      match r with
      | Err e => Some (Err e)
      | Ok cd => rest ← promote_all v11 fields; Some (match rest with Ok rest => Ok (mk_entry fname cd :: rest) | Err e => Err e end)
      end
  end.

(** [fields.sort_by(|a, b| a.name.cmp(&b.name))] *)
Definition by_name (a b : string * ColumnData) : Prop := a.1 ≤ₖ b.1.
#[global] Instance by_name_dec a b : Decision (by_name a b).
Proof. unfold by_name. apply _. Defined.

Definition columnstore_to_data (store : ColumnStore.t) (v11 : bool) : option (Result (ColumnsData * list string)) :=
  buf ← pack store [];
  match buf with
  | Err e => Some (Err e)
  | Ok buf =>
      match decode_all_columns v11 buf 0 with
      | Err e => Some (Err e)
      | Ok (strings, fields, _) =>
          fields ← mapM (λ e : string * option ColumnData, cd ← e.2; Some (e.1, cd)) fields;
          r ← promote_all v11 (merge_sort by_name fields);
          Some (match r with Ok data => Ok (data, strings) | Err e => Err e end)
      end
  end.

(** ** Loading a base *)

(** The value an archived column holds for [id], read in place. *)
Definition bitmap_test (words : list Z) (id : Z) : bool :=
  match words !! Bitmap.word_of id with Some w => Z.land (Z.shiftr w (id mod 64)) 1 =? 1 | None => false end.

(** The slots [start..start + dim] as a list of floats. *)
Definition vector_at (dim : Z) (data : list Z) (id : Z) : option Value.t :=
  let start := (Z.to_nat id * Z.to_nat dim)%nat in
  let stop := (start + Z.to_nat dim)%nat in
  if (length data <? stop)%nat then None else Some (Value.List (Value.Float <$> take (Z.to_nat dim) (drop start data))).

Definition str_at (table : list string) (ids : list Z) (id : Z) : option Value.t :=
  sid ← ids !! Z.to_nat id; Value.Str <$> table !! Z.to_nat sid.

(** What the loop over a column's present nodes finds at one of them. *)
Definition slot_at (shared : option (list string)) (cd : ColumnData) (id : Z) : option Value.t :=
  match cd with
  | DInt data _ => Value.Int <$> data !! Z.to_nat id
  | DFloat data _ => Value.Float <$> data !! Z.to_nat id
  | DBool data _ => (λ b, Value.Bool (negb (b =? 0))) <$> data !! Z.to_nat id
  | DStr ids _ strings => str_at (default strings shared) ids id
  | DVector dim data _ => vector_at dim data id
  | DMixed _ => None
  end.

Definition present_of (cd : ColumnData) : list Z :=
  match cd with DInt _ p | DFloat _ p | DBool _ p | DStr _ p _ | DVector _ _ p => p | DMixed _ => [] end.

(** The writes of one archived column. *)
Definition column_writes (shared : option (list string)) (cd : ColumnData) : list (Z * Value.t) :=
  match cd with
  | DMixed blob => map_to_list (match de blob with Ok m => m | Err _ => ∅ end)
  | cd => omap (λ id, pair id <$> slot_at shared cd id) (Bitmap.words_for_each (present_of cd))
  end.

Definition load_column (shared : option (list string)) (store : option ColumnStore.t) (e : FieldEntry) : option ColumnStore.t :=
  foldl (λ store '(id, v), store ← store; ColumnStore.set hash store id (name e) v) store (column_writes shared (col e)).

Definition archived_to_columnstore (archived : ColumnsData) (shared : option (list string)) : option ColumnStore.t :=
  foldl (load_column shared) (Some ColumnStore.new) archived.

(** ** Merging *)

Definition apply_tombstones (overlay merged : ColumnStore.t) : option ColumnStore.t :=
  es ← Column.map_entries (ColumnStore.prop_tombstones overlay);
  foldl (λ m '(node, fields), foldl (λ m f, m ← m; snd <$> ColumnStore.remove m node f) m (elements fields)) (Some merged) es.

Definition apply_overlay (wire : gmap string (gmap Z Value.t)) (merged : option ColumnStore.t) : option ColumnStore.t :=
  foldl (λ self '(field, values), ColumnStore.set_all hash self field values) merged (map_to_list wire).

(** The base with the tombstones and the writes of the overlay applied. *)
Definition merge_columns (base : ColumnsData) (base_strings : option (list string)) (overlay : ColumnStore.t) : option ColumnStore.t :=
  merged ← archived_to_columnstore base base_strings;
  merged ← apply_tombstones overlay merged;
  wire ← ColumnStore.to_wire overlay;
  apply_overlay wire (Some merged).

Definition columns_merge_to_data (base : ColumnsData) (base_strings : option (list string)) (overlay : ColumnStore.t) (v11 : bool)
    : option (Result (ColumnsData * list string)) :=
  merged ← merge_columns base base_strings overlay;
  columnstore_to_data merged v11.

End pack.
End ColumnsPack.
