(* ===== verification/ColumnsRoundtrip.v ===== *)
(** * Columns: the packed form read back

    What [pack] writes of a column is read back by [unpack] and by the snapshot
    encoder's [decode_all_columns] as a column of the same map. *)

From Stdlib Require Import Init.Byte.
From S2P Require Import Prelude Order Assoc Bytes Utf8 Types CowVec CowMap CowMapIter HashIndex Pack Float64 ValueOps VisibleSet Bitmap Tagged RangeIndex Columns ColumnsRep ColumnsStore ColumnsPack.
Open Scope Z_scope.

Module ColumnsRoundtrip.
Import Tagged ColumnsRep ColumnsStore ColumnsPack.

(** ** Values that can be stored *)

(** What a value of the store is: its numbers fit their types, its text is UTF-8, its
    parts are shorter than the packed lengths count, and it holds no null. *)
Definition storable (v : Value.t) : Prop :=
  Value.contains_null v = false ∧
  match v with
  | Value.Int z | Value.LocalDateTime z => in_i 64 z
  | Value.Float b => in_u 64 b
  | Value.Str s => is_str s ∧ len_z (as_bytes s) < 2 ^ 32
  | Value.Date d => in_i 32 d
  | Value.DateTime u o => in_i 64 u ∧ in_i 32 o
  | Value.Duration m d n => in_i 32 m ∧ in_i 32 d ∧ in_i 64 n
  | Value.Binary b => len_z b < 2 ^ 32
  | Value.List items => len_z items < 2 ^ 32
  | _ => True
  end.

Lemma storable_filler kind : storable (Fixed.filler kind).
Proof. destruct kind; split; cbn; try done; unfold in_i, in_u; cbn; repeat split; lia. Qed.

Lemma storable_binary : storable Column.empty_binary.
Proof. done. Qed.

(** ** Raw scalars *)

Lemma le_signed k w z : w = 8 * Z.of_nat k → 0 < w → in_i w z → wrap_i w (le_val (le_bytes k (wrap_u w z))) = z.
Proof.
  intros -> Hw Hz. rewrite le_val_bytes; [rewrite wrap_i_wrap_u by done; by apply wrap_i_id|]. unfold wrap_u. replace (256 ^ Z.of_nat k) with (2 ^ (8 * Z.of_nat k)) by (by rewrite Z.pow_mul_r by lia). apply Z.mod_pos_bound. lia.
Qed.

Lemma take_le k z l : take k (le_bytes k z ++ l) = le_bytes k z.
Proof. apply take_app_length'. by rewrite length_le_bytes. Qed.
Lemma drop_le k z l : drop k (le_bytes k z ++ l) = l.
Proof. apply drop_app_length'. by rewrite length_le_bytes. Qed.
Lemma take_le_all k z : take k (le_bytes k z) = le_bytes k z.
Proof. apply take_ge. by rewrite length_le_bytes. Qed.

(** A fixed-width value as its bytes. *)
Definition raw_of (kind : Fixed.t) (v : Value.t) : list Z := match Fixed.raw kind v with Some b => b | None => [] end.

Lemma raw_spec kind v : Fixed.of_value v = Some kind → storable v → Fixed.raw kind v = Some (raw_of kind v) ∧ length (raw_of kind v) = Fixed.width kind ∧ Fixed.read_raw kind (raw_of kind v) = v.
Proof.
  intros Hk [_ Hv]. destruct v; cbn in Hk; simplify_eq; unfold raw_of; cbn [Fixed.raw Fixed.read_raw Fixed.width]; (split; [done|]).
  - rewrite length_le_bytes. split; [done|]. unfold Fixed.le_i64. rewrite take_le_all. by rewrite (le_signed 8 64).
  - rewrite length_le_bytes. split; [done|]. rewrite take_le_all, le_val_bytes by exact Hv. done.
  - split; [done|]. by destruct b.
  - rewrite length_le_bytes. split; [done|]. unfold Fixed.le_i32. rewrite take_le_all. by rewrite (le_signed 4 32).
  - rewrite length_le_bytes. split; [done|]. unfold Fixed.le_i64. rewrite take_le_all. by rewrite (le_signed 8 64).
  - destruct Hv as [H1 H2]. rewrite length_app, !length_le_bytes. split; [done|]. unfold Fixed.le_i64, Fixed.le_i32. rewrite take_le, drop_le, !take_le_all. by rewrite (le_signed 8 64), (le_signed 4 32).
  - destruct Hv as (H1 & H2 & H3). rewrite !length_app, !length_le_bytes. split; [done|]. unfold Fixed.le_i64, Fixed.le_i32.
    rewrite !take_le, drop_le, take_le, !take_le_all. change (drop 8 ?l) with (drop 4 (drop 4 l)). rewrite !drop_le, take_le_all. by rewrite !(le_signed 4 32), (le_signed 8 64).
Qed.

(** ** Runs of records *)

Definition enc_count (n : nat) : list Z := le_bytes 4 (wrap_u 32 (Z.of_nat n)).

Lemma reads_count n : Z.of_nat n < 2 ^ 32 → reads Pack.read_u32 (enc_count n) (Z.of_nat n).
Proof. intros Hn. unfold enc_count. rewrite wrap_u_id by (unfold in_u; lia). apply Pack.reads_u32. unfold in_u. lia. Qed.

(** A count, then records of [k] bytes. *)
Lemma reads_chunked {B} (len : Z → Z) k (f : list Z → B) (recs : list (list Z)) : (0 < k ≤ 16)%nat → Forall (λ r, length r = k) recs → Z.of_nat (length recs) < 2 ^ 32 →
  (∀ n, 0 ≤ n < 2 ^ 32 → len n = n * Z.of_nat k) →
  reads (n ← Pack.read_u32; bytes ← Pack.read_exact (len n); mret (f <$> chunks_exact (length bytes) k bytes)) (enc_count (length recs) ++ concat recs) (f <$> recs).
Proof.
  intros Hk Hr Hn Hlen. eapply reads_bind; [by apply reads_count|]. rewrite Hlen by lia. pose proof (length_records k recs Hr) as Hl.
  rewrite <-(chunks_exact_records (length (concat recs)) k recs) at 3 by (done || lia). apply (reads_bind_ret _ (λ bytes, f <$> chunks_exact (length bytes) k bytes)).
  replace (Z.of_nat (length recs) * Z.of_nat k) with (len_z (concat recs)) by (unfold len_z; lia). apply Pack.reads_exact. unfold len_z, isize_max. nia.
Qed.

Lemma saturated k n : (0 < k ≤ 16)%nat → 0 ≤ n < 2 ^ 32 → Pack.saturating_mul n (Z.of_nat k) = n * Z.of_nat k.
Proof. intros Hk Hn. apply Pack.saturating_mul_id; unfold in_u; lia. Qed.

Lemma reads_records k (recs : list (list Z)) : (0 < k ≤ 16)%nat → Forall (λ r, length r = k) recs → Z.of_nat (length recs) < 2 ^ 32 →
  reads (read_records k) (enc_count (length recs) ++ concat recs) recs.
Proof.
  intros Hk Hr Hn. rewrite <-(list_fmap_id recs) at 3. intros pre rest Hlen. rewrite <-(reads_chunked (λ n, n * Z.of_nat k) k id recs Hk Hr Hn ltac:(done) pre rest Hlen).
  unfold read_records, mbind, reader_bind. destruct (Pack.read_u32 _ _) as [[n pos]|e] eqn:E; [|done]. pose proof (reads_count (length recs) Hn pre (concat recs ++ rest)) as Hc. rewrite <-app_assoc in E. rewrite Hc in E by (by rewrite <-app_assoc in Hlen). simplify_eq.
  rewrite try_u_Some by (unfold in_u; nia). cbn [ok_or lift_result]. destruct (Pack.read_exact _ _ _) as [[bytes pos]|]; [|done]. unfold mret, reader_ret. by rewrite list_fmap_id.
Qed.

Lemma bind_concat {A B} (f : A → list B) l : l ≫= f = concat (f <$> l).
Proof. induction l as [|x l IH]; [done|]. by rewrite bind_cons, IH. Qed.

(** ** Packing value by value *)

Lemma pack_all_app {A} (step : list Z → A → option (list Z)) (enc : A → list Z) l out :
  (∀ x o, x ∈ l → step o x = Some (o ++ enc x)) → pack_all step out l = Some (out ++ (l ≫= enc)).
Proof.
  unfold pack_all. revert out; induction l as [|x l IH]; intros out Hs; cbn [foldl]; [by rewrite app_nil_r|]. cbn [mbind option_bind]. rewrite Hs by by left.
  rewrite IH by (intros; apply Hs; by right). by rewrite bind_cons, app_assoc.
Qed.

Lemma reads_tag_byte b : reads read_byte [b] b.
Proof. unfold read_byte. apply (reads_bind_ret _ (hd 0) [b] [b]). change 1 with (len_z [b]). by apply Pack.reads_exact. Qed.

Lemma reads_or {A} d (r : reader GraphError A) enc a : reads r enc a → reads (or_corrupt d r) enc a.
Proof. intros Hr pre rest Hlen. unfold or_corrupt. by rewrite Hr. Qed.

(** A reader that fails on [enc], wherever it lies. *)
Definition refuses {A} (r : reader GraphError A) (enc : list Z) (e : GraphError) : Prop :=
  ∀ pre rest, len_z (pre ++ enc ++ rest) ≤ isize_max → r (pre ++ enc ++ rest) (len_z pre) = Err e.

Lemma refuses_here {A B} (r : reader GraphError A) (f : A → reader GraphError B) enc e : refuses r enc e → refuses (r ≫= f) enc e.
Proof. intros Hr pre rest Hlen. unfold mbind, reader_bind. by rewrite Hr. Qed.

Lemma refuses_later {A B} (r : reader GraphError A) (f : A → reader GraphError B) enc enc' a e : reads r enc a → refuses (f a) enc' e → refuses (r ≫= f) (enc ++ enc') e.
Proof.
  intros Hr Hf pre rest Hlen. unfold mbind, reader_bind. rewrite <-!app_assoc in *. rewrite Hr by done. rewrite app_assoc in Hlen |- *. pose proof (Hf (pre ++ enc) rest Hlen) as H. by rewrite len_z_app in H.
Qed.

Lemma refuses_more {A} (r : reader GraphError A) enc enc' e : refuses r enc e → refuses r (enc ++ enc') e.
Proof. intros Hr pre rest Hlen. rewrite <-app_assoc in Hlen |- *. by apply Hr. Qed.

(** One of several readings fails and those before it do not. *)
Lemma refuses_repeat {A B} (r : reader GraphError A) (enc : B → list Z) (val : B → A) e l :
  (∀ x, x ∈ l → reads r (enc x) (val x) ∨ refuses r (enc x) e) → (∃ x, x ∈ l ∧ refuses r (enc x) e) → refuses (repeat_read (length l) r) (l ≫= enc) e.
Proof.
  induction l as [|x l IH]; intros Hl (y & Hy & Hr). { by apply elem_of_nil in Hy. }
  cbn [repeat_read length]. rewrite bind_cons. assert (refuses r (enc x) e → refuses (a ← r; l0 ← repeat_read (length l) r; mret (a :: l0)) (enc x ++ (l ≫= enc)) e) as Hx by (intros; by apply refuses_here, refuses_more).
  apply elem_of_cons in Hy as [->|Hy]; [by apply Hx|]. destruct (Hl x) as [Hrd|?]; [by left| |by apply Hx]. eapply refuses_later; [done|]. apply refuses_here. apply IH; [intros; apply Hl; by right|eauto].
Qed.

Lemma reads_repeat_val {A B} (r : reader GraphError A) (enc : B → list Z) (val : B → A) l :
  (∀ x, x ∈ l → reads r (enc x) (val x)) → reads (repeat_read (length l) r) (l ≫= enc) (val <$> l).
Proof.
  induction l as [|x l IH]; intros Hl; cbn [repeat_read length]; [apply reads_ret|]. rewrite bind_cons. eapply reads_bind; [apply Hl; by left|]. apply (reads_bind_ret _ (cons (val x))). apply IH. intros y Hy. apply Hl. by right.
Qed.

(** ** A packed column *)

Section columns.
Context {slots : SlotCap} (narrow : cap < 2 ^ 32).
Context (hash : string → Z) (ser : gmap Z Value.t → result string (list Z)) (de : list Z → result string (gmap Z Value.t)).

(** The documented behaviour of the codec: what it encodes it decodes. *)
Definition codec_ok : Prop := ∀ m, (∀ id v, m !! id = Some v → Value.contains_null v = false) → ∃ blob, ser m = Ok blob ∧ de blob = Ok m.
Context (codec : codec_ok).

(** What packing a dense column writes, and that a column with the same slots and bits
    is the same column. *)
Lemma dense_packed {A} slot read (vec : CowVec.t A) present live m : dense slot read vec present live m →
  ∃ l words, CowVec.iter vec = l ∧ CowVec.len vec = length l ∧ Forall slot l ∧ Z.of_nat (length l) < 2 ^ 32 ∧ (∀ out, Bitmap.pack present out = out ++ Bitmap.enc words) ∧
    Forall (in_u 64) words ∧ VisibleSet.small words ∧ VisibleSet.ids_of words = dom m ∧ (∀ id v, m !! id = Some v → in_u 32 id ∧ ∃ x, l !! Z.to_nat id = Some x ∧ read x = Some v) ∧
    ∀ vec', CowVec.rep vec' l → let bm := Bitmap.mk (CowVec.from_vec words) in dense slot read vec' bm (Bitmap.live_count bm) m.
Proof.
  intros (l & Hv & Hsl & Hlen & Hp & -> & Hm). destruct (Bitmap.pack_enc present (dom m) [] Hp) as (words & Hw & Hw64 & Hsm & Hids & _).
  assert (∀ vec', CowVec.rep vec' l → let bm := Bitmap.mk (CowVec.from_vec words) in dense slot read vec' bm (Bitmap.live_count bm) m) as Hagain.
  { intros vec' Hv' bm. assert (Bitmap.rep bm (dom m)) as Hbm by (exists words; split_and!; [apply CowVec.from_vec_spec|done..]). exists l. split_and!; [done..| |done]. by rewrite (Bitmap.live_count_spec _ (dom m)), size_dom. }
  exists l, words. split_and!; [apply Hv|by apply vec_len|done|lia| |done..]. intros out. destruct (Bitmap.pack_enc present (dom m) out Hp) as (words' & [_ Hi'] & _ & _ & _ & ->). destruct Hw as [_ <-]. by rewrite Hi'.
Qed.

Lemma raw_records kind l : Forall (λ v, Fixed.of_value v = Some kind ∧ storable v) l → Forall (λ r, length r = Fixed.width kind) (raw_of kind <$> l) ∧ Fixed.read_raw kind <$> (raw_of kind <$> l) = l.
Proof. induction 1 as [|v l [Hk Hv] _ [IH1 IH2]]; [done|]. destruct (raw_spec kind v Hk Hv) as (_ & Hl & Hr). split; [by constructor|]. cbn [fmap list_fmap]. rewrite Hr. f_equal. exact IH2. Qed.

Lemma width_bounds kind : (0 < Fixed.width kind ≤ 16)%nat.
Proof. destruct kind; cbn; lia. Qed.

Definition enc_fixed (kind : Fixed.t) (l : list Value.t) : list Z := enc_count (length l) ++ (l ≫= raw_of kind).
Definition enc_binary (v : Value.t) : list Z := match v with Value.Binary b => enc_count (length b) ++ u8s b | _ => [] end.

(** [enc] is what packing [col] appends. *)
Definition packs (col : Column.t) (enc : list Z) : Prop := ∀ out, pack_column ser col out = Some (Ok (out ++ enc)).

Lemma packs_fixed kind vec present live m : dense (λ v, Fixed.of_value v = Some kind ∧ storable v) Some vec present live m →
  ∃ l words, CowVec.iter vec = l ∧ Forall (λ v, Fixed.of_value v = Some kind ∧ storable v) l ∧ Z.of_nat (length l) < 2 ^ 32 ∧ packs (Column.Fixed_ kind vec present live) (Fixed.tag kind :: enc_fixed kind l ++ Bitmap.enc words) ∧
    Forall (in_u 64) words ∧ VisibleSet.small words ∧ VisibleSet.ids_of words = dom m ∧ (∀ id v, m !! id = Some v → in_u 32 id ∧ l !! Z.to_nat id = Some v) ∧
    ∀ vec', CowVec.rep vec' l → let bm := Bitmap.mk (CowVec.from_vec words) in dense (λ v, Fixed.of_value v = Some kind ∧ storable v) Some vec' bm (Bitmap.live_count bm) m.
Proof.
  intros Hd. destruct (dense_packed _ _ _ _ _ _ Hd) as (l & words & Hi & Hl & Hsl & Hlen & Hp & Hw & Hsm & Hids & Hm & Hag). exists l, words. split_and!; [done|done|done| |done|done|done| |done].
  - intros out. cbn [pack_column]. rewrite Hi, Hl, (pack_all_app _ (raw_of kind)).
    + cbn [mbind option_bind]. rewrite Hp. do 2 f_equal. unfold Pack.push_u32, enc_fixed, enc_count. rewrite <-!app_assoc. done.
    + intros v o Hv. rewrite Forall_forall in Hsl. destruct (Hsl v Hv) as [Hk Hs]. unfold Fixed.push_raw. by destruct (raw_spec kind v Hk Hs) as (-> & _).
  - intros id v (? & x & ? & [= ->])%Hm. done.
Qed.

Lemma packs_str vec present live (strs : list string) m : dense (in_u 32) (λ id, Value.Str <$> strs !! Z.to_nat id) vec present live m →
  ∃ l words, Forall (in_u 32) l ∧ Z.of_nat (length l) < 2 ^ 32 ∧ packs (Column.Str_ vec present live) (3 :: Pack.enc_u32s l ++ Bitmap.enc words) ∧
    Forall (in_u 64) words ∧ VisibleSet.small words ∧ VisibleSet.ids_of words = dom m ∧ (∀ id v, m !! id = Some v → in_u 32 id ∧ ∃ x, l !! Z.to_nat id = Some x ∧ Value.Str <$> strs !! Z.to_nat x = Some v) ∧
    ∀ vec', CowVec.rep vec' l → let bm := Bitmap.mk (CowVec.from_vec words) in dense (in_u 32) (λ id, Value.Str <$> strs !! Z.to_nat id) vec' bm (Bitmap.live_count bm) m.
Proof.
  intros Hd. destruct (dense_packed _ _ _ _ _ _ Hd) as (l & words & Hi & Hl & Hsl & Hlen & Hp & Hw & Hsm & Hids & Hm & Hag). exists l, words. split_and!; [done|done| |done..].
  intros out. cbn [pack_column]. rewrite Hi, Hl, Hp, Pack.foldl_push_u32. do 2 f_equal. unfold Pack.push_u32, Pack.enc_u32s. rewrite <-!app_assoc. done.
Qed.

Lemma packs_binary vec present live m : dense (λ v, is_binary v ∧ storable v) Some vec present live m →
  ∃ l words, Forall (λ v, is_binary v ∧ storable v) l ∧ Z.of_nat (length l) < 2 ^ 32 ∧ packs (Column.Binary_ vec present live) (9 :: (enc_count (length l) ++ (l ≫= enc_binary)) ++ Bitmap.enc words) ∧
    Forall (in_u 64) words ∧ VisibleSet.small words ∧ (∀ vec', CowVec.rep vec' l → let bm := Bitmap.mk (CowVec.from_vec words) in dense (λ v, is_binary v ∧ storable v) Some vec' bm (Bitmap.live_count bm) m).
Proof.
  intros Hd. destruct (dense_packed _ _ _ _ _ _ Hd) as (l & words & Hi & Hl & Hsl & Hlen & Hp & Hw & Hsm & Hids & Hm & Hag). exists l, words. split_and!; [done|done| |done..].
  intros out. cbn [pack_column]. rewrite Hi, Hl, (pack_all_app _ enc_binary).
  - cbn [mbind option_bind]. rewrite Hp. do 2 f_equal. unfold Pack.push_u32, enc_count. rewrite <-!app_assoc. done.
  - intros v o Hv. rewrite Forall_forall in Hsl. destruct (Hsl v Hv) as [Hb _]. destruct v; try done. cbn [pack_binary enc_binary]. unfold Pack.push_u32, enc_count. by rewrite <-app_assoc.
Qed.

Lemma mixed_codec n strs map m : col_ok storable n strs (Column.Mixed map) m → ∃ blob, ser m = Ok blob ∧ de blob = Ok m.
Proof. intros [Hk _]. apply codec. intros id v Hv. by destruct (Hk id v Hv) as [_ [? _]]. Qed.

Lemma packs_mixed n strs map m blob : col_ok storable n strs (Column.Mixed map) m → ser m = Ok blob → packs (Column.Mixed map) (4 :: enc_count (length blob) ++ blob).
Proof.
  intros [Hk (es & Hh & Hl)] Hser out. cbn [pack_column]. rewrite (map_entries_spec map es _ Hh). cbn [mbind option_bind]. pose proof (CowMap.holds_sorted _ _ _ Hh) as Hsort.
  assert (list_to_map es = m) as Hm. { apply map_eq. intros id. by rewrite alookup_list_to_map, Hl. }
  assert (existsb (λ e : Z * Value.t, Value.contains_null e.2) es = false) as ->.
  { apply not_true_iff_false. rewrite existsb_exists. intros ([id v] & Hin%list_elem_of_In & Hnull). apply alookup_Some in Hin; [|done]. rewrite Hl in Hin. destruct (Hk id v Hin) as [_ [Hn _]]. cbn in Hnull. congruence. }
  rewrite Hm, Hser. do 2 f_equal. unfold Pack.push_u32, enc_count. by rewrite <-!app_assoc.
Qed.

End columns.
End ColumnsRoundtrip.
