(* ===== verification/ColumnsDecode.v ===== *)
(** * Columns: one packed column read back

    What packing a column writes is read by [Column::unpack] as a column of the same map
    and by the snapshot encoder's [decode_all_columns] as an archived column of the same
    map; a column of a type only a V11 snapshot can hold is refused before V11. *)

From Stdlib Require Import Init.Byte.
From S2P Require Import Prelude Order Assoc Bytes Utf8 Types CowVec CowMap CowMapIter HashIndex Pack Float64 ValueOps VisibleSet Bitmap Tagged RangeIndex Columns ColumnsRep ColumnsStore ColumnsPack ColumnsRoundtrip.
Open Scope Z_scope.

Module ColumnsDecode.
Import Tagged ColumnsRep ColumnsStore ColumnsPack ColumnsRoundtrip.

Lemma reads_assoc {A B C} (r : reader GraphError A) (f : A → reader GraphError B) (g : B → reader GraphError C) enc c : reads ((r ≫= f) ≫= g) enc c → reads (a ← r; f a ≫= g) enc c.
Proof. intros Hr pre rest Hlen. rewrite <-(Hr pre rest Hlen). unfold mbind, reader_bind. by destruct (r _ _) as [[a p]|]. Qed.

Lemma refuses_assoc {A B C} (r : reader GraphError A) (f : A → reader GraphError B) (g : B → reader GraphError C) enc e : refuses ((r ≫= f) ≫= g) enc e → refuses (a ← r; f a ≫= g) enc e.
Proof. intros Hr pre rest Hlen. rewrite <-(Hr pre rest Hlen). unfold mbind, reader_bind. by destruct (r _ _) as [[a p]|]. Qed.

(** The value is one that only a V11 snapshot may hold. *)
Definition v11_value (v : Value.t) : Prop := is_Some (Value.v11_only_type v).
#[global] Instance v11_value_dec v : Decision (v11_value v).
Proof. unfold v11_value. apply _. Defined.

Definition v11_error : GraphError := Corrupt "v8: column holds values which only a V11 snapshot can store".

Section columns.
Context {slots : SlotCap} (narrow : cap < 2 ^ 32).
Context (hash : string → Z) (ser : gmap Z Value.t → result string (list Z)) (de : list Z → result string (gmap Z Value.t)).
Context (codec : codec_ok ser de).

(** The encoding of a mixed column is within its packed length. *)
Definition blob_fits (col : Column.t) (m : gmap Z Value.t) : Prop :=
  match col with Column.Mixed _ => ∀ blob, ser m = Ok blob → len_z blob < 2 ^ 32 | _ => True end.

(** ** [Column::unpack] *)

Lemma reads_tagged {A} tag (f : Z → reader GraphError A) enc a : reads (f tag) enc a → reads (t ← read_byte; f t) (tag :: enc) a.
Proof. intros Hf. change (tag :: enc) with ([tag] ++ enc). eapply reads_bind; [apply reads_tag_byte|done]. Qed.

Lemma of_tag_tag kind : Fixed.of_tag (Fixed.tag kind) = Some kind.
Proof. by destruct kind. Qed.

Lemma reads_fixed kind l words : Forall (λ v, Fixed.of_value v = Some kind ∧ storable v) l → Z.of_nat (length l) < 2 ^ 32 → Forall (in_u 64) words → VisibleSet.small words →
  reads (unpack_column de) (Fixed.tag kind :: enc_fixed kind l ++ Bitmap.enc words)
    (let bm := Bitmap.mk (CowVec.from_vec words) in Some (Column.Fixed_ kind (CowVec.from_iter l) bm (Bitmap.live_count bm))).
Proof.
  intros Hl Hlen Hw Hs. unfold unpack_column. apply reads_tagged. rewrite of_tag_tag. destruct (raw_records kind l Hl) as [Hr He]. eapply reads_bind.
  - unfold enc_fixed. rewrite bind_concat, <-(length_fmap (raw_of kind) l). apply reads_records; [apply width_bounds|done|by rewrite length_fmap].
  - cbv beta. rewrite He. apply (reads_bind_ret _ (λ bm, Some (Column.Fixed_ kind (CowVec.from_iter l) bm (Bitmap.live_count bm)))). by apply Bitmap.reads_bitmap.
Qed.

Lemma reads_str_column l words : Forall (in_u 32) l → Z.of_nat (length l) < 2 ^ 32 → Forall (in_u 64) words → VisibleSet.small words →
  reads (unpack_column de) (3 :: Pack.enc_u32s l ++ Bitmap.enc words)
    (let bm := Bitmap.mk (CowVec.from_vec words) in Some (Column.Str_ (CowVec.from_vec l) bm (Bitmap.live_count bm))).
Proof.
  intros Hl Hlen Hw Hs. unfold unpack_column. apply reads_tagged. cbn [Fixed.of_tag]. eapply reads_bind; [by apply Pack.reads_u32s|].
  apply (reads_bind_ret _ (λ bm, Some (Column.Str_ (CowVec.from_vec l) bm (Bitmap.live_count bm)))). by apply Bitmap.reads_bitmap.
Qed.

Lemma reads_binary l : Forall (λ v, is_binary v ∧ storable v) l → Z.of_nat (length l) < 2 ^ 32 → reads read_binaries (enc_count (length l) ++ (l ≫= enc_binary)) l.
Proof.
  intros Hl Hlen. unfold read_binaries. eapply reads_bind; [by apply reads_count|]. rewrite Nat2Z.id. apply reads_repeat. rewrite Forall_forall in Hl. intros v Hv. destruct (Hl v Hv) as [Hb [_ Hs]]. destruct v as [| | | | | | | | | |b|]; try done. cbn [enc_binary]. change (len_z b < 2 ^ 32) in Hs.
  eapply reads_bind; [by apply reads_count|]. rewrite <-(of_u8s_u8s b) at 3. apply (reads_bind_ret _ (λ bytes, Value.Binary (of_u8s bytes))).
  replace (Z.of_nat (length b)) with (len_z (u8s b)) by (unfold len_z, u8s; by rewrite length_fmap). apply Pack.reads_exact. unfold len_z, u8s, isize_max in *. rewrite length_fmap. lia.
Qed.

Lemma reads_binary_column l words : Forall (λ v, is_binary v ∧ storable v) l → Z.of_nat (length l) < 2 ^ 32 → Forall (in_u 64) words → VisibleSet.small words →
  reads (unpack_column de) (9 :: (enc_count (length l) ++ (l ≫= enc_binary)) ++ Bitmap.enc words)
    (let bm := Bitmap.mk (CowVec.from_vec words) in Some (Column.Binary_ (CowVec.from_vec l) bm (Bitmap.live_count bm))).
Proof.
  intros Hl Hlen Hw Hs. unfold unpack_column. apply reads_tagged. cbn [Fixed.of_tag]. eapply reads_bind; [by apply reads_binary|].
  apply (reads_bind_ret _ (λ bm, Some (Column.Binary_ (CowVec.from_vec l) bm (Bitmap.live_count bm)))). by apply Bitmap.reads_bitmap.
Qed.

Lemma reads_blob blob : len_z blob < 2 ^ 32 → reads (n ← Pack.read_u32; Pack.read_exact n) (enc_count (length blob) ++ blob) blob.
Proof. intros Hb. eapply reads_bind; [by apply reads_count|]. apply Pack.reads_exact. unfold isize_max. lia. Qed.

Lemma reads_mixed_column blob m map : len_z blob < 2 ^ 32 → de blob = Ok m → CowMapIter.from_sorted (Column.sorted_entries m) = Some map → reads (unpack_column de) (4 :: enc_count (length blob) ++ blob) (Some (Column.Mixed map)).
Proof.
  intros Hb Hde Hf. unfold unpack_column. apply reads_tagged. cbn [Fixed.of_tag]. rewrite <-(app_nil_r (enc_count _ ++ blob)). apply reads_assoc with (f := λ n, Pack.read_exact n) (g := λ blob, m ← lift_result (match de blob with Ok m => Ok m | Err _ => Err (Corrupt "snapshot: mixed column: ") end); mret (Column.Mixed <$> CowMapIter.from_sorted (Column.sorted_entries m))).
  eapply reads_bind; [by apply reads_blob|]. cbv beta. rewrite Hde, <-(app_nil_r []). eapply reads_bind; [apply reads_lift|]. rewrite Hf. apply reads_ret.
Qed.

(** Unpacking a packed column gives a column of the same map and shape. *)
Lemma unpacked n strs col m : 0 ≤ n → col_ok storable n strs col m → blob_fits col m →
  ∃ enc col', packs ser col enc ∧ reads (unpack_column de) enc (Some col') ∧ col_ok storable n strs col' m.
Proof.
  intros Hn Hcol Hfit. pose proof Hcol as [Hk Hc]. destruct col as [kind vec present live|vec present live|vec present live|map].
  - destruct (packs_fixed narrow ser kind vec present live m Hc) as (l & words & _ & Hl & Hlen & Hp & Hw & Hs & _ & _ & Hag). eexists _, _. split; [done|]. split; [by apply reads_fixed|]. split; [done|]. apply Hag, CowVec.from_iter_spec.
  - destruct (packs_str narrow ser vec present live strs m Hc) as (l & words & Hl & Hlen & Hp & Hw & Hs & _ & _ & Hag). eexists _, _. split; [done|]. split; [by apply reads_str_column|]. split; [done|]. apply Hag, CowVec.from_vec_spec.
  - destruct (packs_binary narrow ser vec present live m Hc) as (l & words & Hl & Hlen & Hp & Hw & Hs & Hag). eexists _, _. split; [done|]. split; [by apply reads_binary_column|]. split; [done|]. apply Hag, CowVec.from_vec_spec.
  - destruct (mixed_codec ser de codec n strs map m Hcol) as (blob & Hser & Hde). destruct (CowMapIter.from_sorted_holds (Column.sorted_entries m)) as (map' & Hf & Hh); [apply sorted_entries_sorted| |].
    { rewrite length_sorted_entries. pose proof (size_u32 m (col_keys storable n strs _ m Hcol)). lia. }
    eexists _, _. split; [by eapply packs_mixed|]. split; [by eapply reads_mixed_column; [apply Hfit|..]|]. split; [done|]. exists (Column.sorted_entries m). split; [|apply alookup_sorted_entries].
    eapply CowMap.holds_weaken; [done|]. unfold UnifiedIndex.potential. lia.
Qed.

(** ** [decode_all_columns] *)

(** The tag and the column behind it. *)
Definition decode_tagged (v11 : bool) : reader GraphError (option ColumnData) :=
  tag ← or_corrupt "v8: column pack decode: truncated tag byte" read_byte; decode_column ser de v11 tag.

Lemma reads_decode v11 tag enc cd : reads (decode_column ser de v11 tag) enc cd → reads (decode_tagged v11) (tag :: enc) cd.
Proof. intros Hr. change (tag :: enc) with ([tag] ++ enc). eapply reads_bind; [apply reads_or, reads_tag_byte|done]. Qed.

(** An archived column holds a map: its bits are the map's nodes and each one's slot
    reads as its value; a mixed one decodes to it. *)
Definition cdata_ok (table : option (list string)) (cd : ColumnData) (m : gmap Z Value.t) : Prop :=
  match cd with
  | DMixed blob => de blob = Ok m
  | _ => Forall (in_u 64) (present_of cd) ∧ VisibleSet.small (present_of cd) ∧ VisibleSet.ids_of (present_of cd) = dom m ∧ ∀ id v, m !! id = Some v → slot_at table cd id = Some v
  end.

Definition is_typed (col : Column.t) : bool :=
  match col with Column.Fixed_ kind _ _ _ => typed_tag (Fixed.tag kind) | Column.Binary_ _ _ _ => true | _ => false end.

Lemma reads_typed tag enc col m : typed_tag tag = true → reads (unpack_column de) (tag :: enc) (Some col) → Column.to_map col StrIntern.new = Some m → reads (unpack_typed_column_map de) (tag :: enc) (Some m).
Proof.
  intros Ht Hr Hm pre rest Hlen. unfold unpack_typed_column_map.
  assert (slice_get (pre ++ (tag :: enc) ++ rest) (len_z pre) 1 = Some [tag]) as ->. { change (pre ++ (tag :: enc) ++ rest) with (pre ++ [tag] ++ (enc ++ rest)). change 1 with (len_z [tag]). apply slice_get_mid. }
  rewrite Ht, (Hr pre rest Hlen). cbn [mbind option_bind]. by rewrite Hm.
Qed.

Lemma typed_tags tag : typed_tag tag = true → tag = 5 ∨ tag = 6 ∨ tag = 7 ∨ tag = 8 ∨ tag = 9.
Proof. unfold typed_tag. lia. Qed.

Lemma reads_decode_typed tag enc m blob : typed_tag tag = true → reads (unpack_typed_column_map de) (tag :: enc) (Some m) → ser m = Ok blob → reads (decode_tagged true) (tag :: enc) (Some (DMixed blob)).
Proof.
  intros Ht Hr Hser pre rest Hlen. unfold decode_tagged, mbind, reader_bind. pose proof (reads_or "v8: column pack decode: truncated tag byte" _ [tag] tag (reads_tag_byte tag) pre (enc ++ rest)) as Hb.
  change ([tag] ++ enc ++ rest) with ((tag :: enc) ++ rest) in Hb. rewrite Hb by done. pose proof (reads_or "v8: column pack decode: " _ _ _ Hr pre rest Hlen) as Hm. change (len_z [tag]) with 1.
  apply typed_tags in Ht as [->|[->|[->|[->| ->]]]]; cbn [decode_column typed_tag negb Z.leb andb Z.compare Pos.compare Pos.compare_cont]; unfold mbind, reader_bind; rewrite Z.add_simpl_r, Hm; by rewrite Hser.
Qed.

Lemma refuses_decode_typed tag enc : typed_tag tag = true → refuses (decode_tagged false) (tag :: enc) v11_error.
Proof.
  intros Ht. change (tag :: enc) with ([tag] ++ enc). unfold decode_tagged. eapply refuses_later; [apply reads_or, reads_tag_byte|]. intros pre rest _. by apply typed_tags in Ht as [->|[->|[->|[->| ->]]]].
Qed.

(** Scalars of eight bytes. *)
Lemma reads_scalars (f : list Z → Z) (enc1 : Z → list Z) l : (∀ z, z ∈ l → length (enc1 z) = 8%nat ∧ f (enc1 z) = z) → Z.of_nat (length l) < 2 ^ 32 →
  reads (n ← Pack.read_u32; bytes ← Pack.read_exact (Pack.saturating_mul n 8); mret (f <$> chunks_exact (length bytes) 8 bytes)) (enc_count (length l) ++ (l ≫= enc1)) l.
Proof.
  intros Hl Hlen. assert (f <$> (enc1 <$> l) = l) as He. { clear Hlen. induction l as [|z l IH]; [done|]. cbn [fmap list_fmap]. destruct (Hl z) as [_ ->]; [by left|]. f_equal. apply IH. intros; apply Hl; by right. }
  rewrite <-He at 3. rewrite bind_concat, <-(length_fmap enc1 l). apply (reads_chunked (λ n, Pack.saturating_mul n 8)); [lia| |by rewrite length_fmap|intros; by apply (saturated 8); [lia|]].
  apply Forall_fmap, Forall_forall. intros z Hz. by destruct (Hl z Hz).
Qed.

Lemma fixed_slots {P : Z → Prop} kind (mk : Z → Value.t) (get : Value.t → Z) l : (∀ v, Fixed.of_value v = Some kind → storable v → v = mk (get v) ∧ P (get v)) → Forall (λ v, Fixed.of_value v = Some kind ∧ storable v) l →
  ∃ data, l = mk <$> data ∧ Forall P data.
Proof.
  intros Hv. induction 1 as [|v l [Hk Hs] _ (data & -> & Hd)]; [by exists []|]. destruct (Hv v Hk Hs) as [He Hp]. exists (get v :: data). split; [by rewrite He at 1|by constructor].
Qed.

Lemma bind_fmap_list {A B C} (g : A → B) (f : B → list C) l : (g <$> l) ≫= f = l ≫= (f ∘ g).
Proof. induction l as [|x l IH]; [done|]. cbn [fmap list_fmap]. by rewrite !bind_cons, IH. Qed.

(** What a dense archived column of scalars holds. *)
Lemma scalars_ok table (mk : Z → Value.t) (l : list Z) words (m : gmap Z Value.t) cd :
  present_of cd = words → (∀ id, slot_at table cd id = mk <$> l !! Z.to_nat id) → (∀ blob, cd ≠ DMixed blob) →
  Forall (in_u 64) words → VisibleSet.small words → VisibleSet.ids_of words = dom m → (∀ id v, m !! id = Some v → in_u 32 id ∧ (mk <$> l) !! Z.to_nat id = Some v) → cdata_ok table cd m.
Proof.
  intros Hp Hsl Hnb Hw Hs Hid Hm. assert (Forall (in_u 64) (present_of cd) ∧ VisibleSet.small (present_of cd) ∧ VisibleSet.ids_of (present_of cd) = dom m ∧ ∀ id v, m !! id = Some v → slot_at table cd id = Some v) as H.
  { rewrite Hp. split_and!; [done..|]. intros id v [_ Hv]%Hm. by rewrite Hsl, <-list_lookup_fmap. }
  destruct cd; (exact H || by destruct (Hnb blob)).
Qed.

Definition fixed_data (kind : Fixed.t) (l : list Value.t) (words : list Z) (m : gmap Z Value.t) : Prop :=
  Forall (λ v, Fixed.of_value v = Some kind ∧ storable v) l ∧ Z.of_nat (length l) < 2 ^ 32 ∧ Forall (in_u 64) words ∧ VisibleSet.small words ∧ VisibleSet.ids_of words = dom m ∧
  ∀ id v, m !! id = Some v → in_u 32 id ∧ l !! Z.to_nat id = Some v.

Lemma decoded_int table l words m : fixed_data Fixed.Int l words m →
  ∃ cd, (∀ v11, reads (decode_tagged v11) (0 :: enc_fixed Fixed.Int l ++ Bitmap.enc words) (Some cd)) ∧ cdata_ok table cd m.
Proof.
  intros (Hl & Hlen & Hw & Hs & Hid & Hm). destruct (fixed_slots (P := in_i 64) Fixed.Int Value.Int (λ v, match v with Value.Int z => z | _ => 0 end) l) as (data & -> & Hd); [|done|].
  { intros v Hk [_ Hv]. destruct v; simplify_eq. done. }
  exists (DInt data words). split; [|by eapply (scalars_ok table Value.Int data)]. intros v11. apply reads_decode. cbn [decode_column]. rewrite length_fmap in Hlen. unfold enc_fixed. rewrite length_fmap, bind_fmap_list. eapply reads_bind.
  - apply reads_or, reads_scalars; [|done]. rewrite Forall_forall in Hd. intros z Hz%Hd. unfold compose, raw_of. cbn [Fixed.raw]. split; [apply length_le_bytes|]. by apply (le_signed 8 64).
  - apply (reads_bind_ret _ (λ present, Some (DInt data present))). by apply reads_or, Bitmap.reads_words.
Qed.

Lemma decoded_float table l words m : fixed_data Fixed.Float l words m →
  ∃ cd, (∀ v11, reads (decode_tagged v11) (1 :: enc_fixed Fixed.Float l ++ Bitmap.enc words) (Some cd)) ∧ cdata_ok table cd m.
Proof.
  intros (Hl & Hlen & Hw & Hs & Hid & Hm). destruct (fixed_slots (P := in_u 64) Fixed.Float Value.Float (λ v, match v with Value.Float z => z | _ => 0 end) l) as (data & -> & Hd); [|done|].
  { intros v Hk [_ Hv]. destruct v; simplify_eq. done. }
  exists (DFloat data words). split; [|by eapply (scalars_ok table Value.Float data)]. intros v11. apply reads_decode. cbn [decode_column]. rewrite length_fmap in Hlen. unfold enc_fixed. rewrite length_fmap, bind_fmap_list. eapply reads_bind.
  - apply reads_or, reads_scalars; [|done]. rewrite Forall_forall in Hd. intros z Hz%Hd. unfold compose, raw_of. cbn [Fixed.raw]. split; [apply length_le_bytes|]. by apply le_val_bytes.
  - apply (reads_bind_ret _ (λ present, Some (DFloat data present))). by apply reads_or, Bitmap.reads_words.
Qed.

Lemma bool_bytes data : Forall (λ b, b = 0 ∨ b = 1) data → data ≫= raw_of Fixed.Bool ∘ (λ b, Value.Bool (negb (b =? 0))) = data.
Proof. induction 1 as [|b data Hb _ IH]; [done|]. rewrite bind_cons, IH. by destruct Hb as [-> | ->]. Qed.

Lemma decoded_bool table l words m : fixed_data Fixed.Bool l words m →
  ∃ cd, (∀ v11, reads (decode_tagged v11) (2 :: enc_fixed Fixed.Bool l ++ Bitmap.enc words) (Some cd)) ∧ cdata_ok table cd m.
Proof.
  intros (Hl & Hlen & Hw & Hs & Hid & Hm). set (mk := λ b, Value.Bool (negb (b =? 0))). destruct (fixed_slots (P := λ b, b = 0 ∨ b = 1) Fixed.Bool mk (λ v, match v with Value.Bool true => 1 | _ => 0 end) l) as (data & -> & Hd); [|done|].
  { intros v Hk _. destruct v as [|[]| | | | | | | | | |]; simplify_eq; auto. destruct b; auto. }
  exists (DBool data words). split; [|by eapply (scalars_ok table mk data)]. intros v11. apply reads_decode. cbn [decode_column]. rewrite length_fmap in Hlen. unfold enc_fixed. rewrite length_fmap, bind_fmap_list.
  pose proof (bool_bytes data Hd) as Hb. fold mk in Hb. rewrite Hb.
  rewrite <-app_assoc. eapply reads_bind; [by apply reads_or, reads_count|]. eapply reads_bind.
  - apply reads_or. change (Z.of_nat (length data)) with (len_z data). apply Pack.reads_exact. unfold len_z, isize_max. lia.
  - apply (reads_bind_ret _ (λ present, Some (DBool data present))). by apply reads_or, Bitmap.reads_words.
Qed.

Lemma decoded_str strs l words m : Forall (in_u 32) l → Z.of_nat (length l) < 2 ^ 32 → Forall (in_u 64) words → VisibleSet.small words → VisibleSet.ids_of words = dom m →
  (∀ id v, m !! id = Some v → in_u 32 id ∧ ∃ x, l !! Z.to_nat id = Some x ∧ Value.Str <$> strs !! Z.to_nat x = Some v) →
  ∃ cd, (∀ v11, reads (decode_tagged v11) (3 :: Pack.enc_u32s l ++ Bitmap.enc words) (Some cd)) ∧ cdata_ok (Some strs) cd m.
Proof.
  intros Hl Hlen Hw Hs Hid Hm. exists (DStr l words []). split.
  - intros v11. apply reads_decode. cbn [decode_column]. eapply reads_bind; [by apply reads_or, Pack.reads_u32s|]. apply (reads_bind_ret _ (λ present, Some (DStr l present []))). by apply reads_or, Bitmap.reads_words.
  - split_and!; [done..|]. intros id v (_ & x & Hx & Hv)%Hm. cbn [slot_at default]. unfold str_at. by rewrite Hx.
Qed.

Lemma decoded_mixed blob m : len_z blob < 2 ^ 32 → de blob = Ok m → ∀ v11, reads (decode_tagged v11) (4 :: enc_count (length blob) ++ blob) (Some (DMixed blob)).
Proof.
  intros Hb Hde v11. apply reads_decode. cbn [decode_column]. eapply reads_bind; [by apply reads_or, reads_count|]. apply (reads_bind_ret _ (λ blob, Some (DMixed blob))). apply reads_or, Pack.reads_exact. unfold isize_max. lia.
Qed.

(** A column of dates, times, durations or bytes: the archive holds its map. *)
Lemma decoded_typed n strs col col' m tag body : 0 ≤ n → typed_tag tag = true → col_ok storable n strs col m → reads (unpack_column de) (tag :: body) (Some col') → col_ok storable n [] col' m →
  ∃ cd, cdata_ok (Some strs) cd m ∧ reads (decode_tagged true) (tag :: body) (Some cd) ∧ refuses (decode_tagged false) (tag :: body) v11_error.
Proof.
  intros Hn Ht [Hk _] Hr Hok. destruct (codec m) as (blob & Hser & Hde); [intros id v Hv; by destruct (Hk id v Hv) as [_ [? _]]|]. exists (DMixed blob). split; [done|]. split; [|by apply refuses_decode_typed].
  eapply reads_decode_typed; [done| |done]. eapply reads_typed; [done|done|]. apply (to_map_spec hash storable n [] StrIntern.new col' m); [apply new_strings|done].
Qed.

Lemma typed_v11 kind v : Fixed.of_value v = Some kind → typed_tag (Fixed.tag kind) = true → v11_value v.
Proof. intros Hk Ht. destruct v; cbn in Hk; simplify_eq; try done; by eexists. Qed.

(** One packed column and its readers. *)
Definition decodes (strs : list string) (m : gmap Z Value.t) (enc : list Z) : Prop :=
  ∃ cd, cdata_ok (Some strs) cd m ∧ reads (decode_tagged true) enc (Some cd) ∧
    (reads (decode_tagged false) enc (Some cd) ∨ refuses (decode_tagged false) enc v11_error ∧ ∃ id v, m !! id = Some v ∧ v11_value v).

Lemma decodes_any strs m enc cd : cdata_ok (Some strs) cd m → (∀ v11, reads (decode_tagged v11) enc (Some cd)) → decodes strs m enc.
Proof. intros Hc Hr. exists cd. auto. Qed.

Lemma decoded n strs col m : 0 ≤ n → col_ok storable n strs col m → m ≠ ∅ → blob_fits col m → ∃ enc, packs ser col enc ∧ decodes strs m enc.
Proof.
  intros Hn Hcol Hne Hfit. pose proof Hcol as [Hk Hc]. destruct (map_choose m Hne) as (id0 & v0 & Hv0). destruct col as [kind vec present live|vec present live|vec present live|map].
  - destruct (packs_fixed narrow ser kind vec present live m Hc) as (l & words & _ & Hl & Hlen & Hp & Hw & Hs & Hid & Hm & Hag). eexists. split; [done|]. assert (fixed_data kind l words m) as Hfd by by split_and!.
    destruct (typed_tag (Fixed.tag kind)) eqn:Ht.
    + destruct (decoded_typed n strs _ _ m (Fixed.tag kind) _ Hn Ht Hcol (reads_fixed kind l words Hl Hlen Hw Hs)) as (cd & Hcd & Hr1 & Hr2); [split; [done|]; apply Hag, CowVec.from_iter_spec|]. exists cd. split_and!; [done|done|]. right. split; [done|]. exists id0, v0. split; [done|].
      destruct (Hm id0 v0 Hv0) as [_ Hi]. rewrite Forall_forall in Hl. eapply typed_v11; [by eapply Hl, list_elem_of_lookup_2|done].
    + destruct kind; try done; [destruct (decoded_int (Some strs) l words m Hfd) as (cd & ? & ?)|destruct (decoded_float (Some strs) l words m Hfd) as (cd & ? & ?)|destruct (decoded_bool (Some strs) l words m Hfd) as (cd & ? & ?)]; by eapply decodes_any.
  - destruct (packs_str narrow ser vec present live strs m Hc) as (l & words & Hl & Hlen & Hp & Hw & Hs & Hid & Hm & _). eexists. split; [done|]. destruct (decoded_str strs l words m) as (cd & ? & ?); [done..|]. by eapply decodes_any.
  - destruct (packs_binary narrow ser vec present live m Hc) as (l & words & Hl & Hlen & Hp & Hw & Hs & Hag). eexists. split; [done|].
    destruct (decoded_typed n strs _ _ m 9 _ Hn eq_refl Hcol (reads_binary_column l words Hl Hlen Hw Hs)) as (cd & Hcd & Hr1 & Hr2); [split; [done|]; apply Hag, CowVec.from_vec_spec|]. exists cd. split_and!; [done|done|]. right. split; [done|]. exists id0, v0. split; [done|].
    destruct Hc as (l' & _ & Hl' & _ & _ & _ & Hm'). destruct (Hm' id0 v0 Hv0) as (_ & x & Hx & [= ->]). rewrite Forall_forall in Hl'. destruct (Hl' v0) as [Hb _]; [by eapply list_elem_of_lookup_2|]. destruct v0; try done. by eexists.
  - destruct (mixed_codec ser de codec n strs map m Hcol) as (blob & Hser & Hde). eexists. split; [by eapply packs_mixed|]. eapply (decodes_any _ _ _ (DMixed blob)); [done|]. by eapply decoded_mixed; [apply Hfit|].
Qed.

End columns.
End ColumnsDecode.
