(* ===== verification/ColumnsImage.v ===== *)
(** * Columns: the whole packed image

    What packing a store writes is the string table and the fields by name;
    [ColumnStore::unpack] and [decode_all_columns] read the same properties from it. *)

From Stdlib Require Import Init.Byte.
From S2P Require Import Prelude Order Assoc Bytes Utf8 Types CowVec CowMap CowMapIter HashIndex Pack Float64 ValueOps VisibleSet Bitmap Tagged RangeIndex Columns ColumnsRep ColumnsStore ColumnsPack ColumnsRoundtrip ColumnsDecode.
Open Scope Z_scope.

Module ColumnsImage.
Import Tagged ColumnsRep ColumnsStore ColumnsPack ColumnsRoundtrip ColumnsDecode.

(** A choice for every element of a list. *)
Lemma choose_all {A B} (P : A → B → Prop) (l : list A) : (∀ x, x ∈ l → ∃ y, P x y) → ∃ ps : list (A * B), ps.*1 = l ∧ ∀ x y, (x, y) ∈ ps → P x y.
Proof.
  induction l as [|x l IH]; intros Hl. { exists []. split; [done|]. by intros x y ?%elem_of_nil. }
  destruct (Hl x) as [y Hy]; [by left|]. destruct IH as (ps & He & Hps); [intros; apply Hl; by right|]. exists ((x, y) :: ps). split; [cbn; by rewrite He|]. intros x' y' [[= -> ->]|?]%elem_of_cons; auto.
Qed.

Lemma all_or_some {A} (P Q : A → Prop) (l : list A) : (∀ x, x ∈ l → P x ∨ Q x) → (∀ x, x ∈ l → P x) ∨ ∃ x, x ∈ l ∧ Q x.
Proof.
  induction l as [|x l IH]; intros Hl. { left. by intros x ?%elem_of_nil. }
  destruct IH as [IH|(y & ? & ?)]; [intros; apply Hl; by right| |right; exists y; split; [by right|done]]. destruct (Hl x) as [?|?]; [by left| |right; exists x; split; [by left|done]].
  left. by intros y [->|?]%elem_of_cons; auto.
Qed.

(** A name or a text that a packed length can count. *)
Definition text_ok (s : string) : Prop := is_str s ∧ len_z (as_bytes s) < 2 ^ 32.

(** The properties are few enough for a snapshot, and under names it can hold. *)
Definition names_ok (M : Props) : Prop := ∀ id f v, M !! (id, f) = Some v → text_ok f.

(** Ids below [u32::MAX]: a packed column's length must fit its 32 bits. *)
Definition packed_slots : SlotCap := {| cap := u32_max; cap_u32 := ltac:(done) |}.

Lemma packed_narrow : @cap packed_slots < 2 ^ 32.
Proof. done. Qed.

Section image.
Context {slots : SlotCap} (narrow : cap < 2 ^ 32).
Context (hash : string → Z) (ser : gmap Z Value.t → result string (list Z)) (de : list Z → result string (gmap Z Value.t)).
Context (codec : codec_ok ser de).

Definition fits_store (s : ColumnStore.t) (M : Props) : Prop := ∀ f col m, ColumnStore.cols s !! f = Some col → column_of M f m → blob_fits ser col m.

(** The same, computed. *)
Definition column_fits (col : Column.t) : bool :=
  match col with
  | Column.Mixed map => match Column.map_entries map with Some es => match ser (list_to_map es) with Ok blob => len_z blob <? 2 ^ 32 | Err _ => true end | None => true end
  | _ => true
  end.

(** The encodings of the mixed columns are within their packed lengths. *)
Definition columns_fit (s : ColumnStore.t) : bool := forallb (λ fc, column_fits fc.2) (map_to_list (ColumnStore.cols s)).

Lemma store_fits n s M T : store_ok hash storable n s M T → columns_fit s = true → fits_store s M.
Proof.
  intros Hs Hf f col m Hc Hof. unfold columns_fit in Hf. rewrite forallb_forall in Hf. specialize (Hf (f, col) (proj1 (list_elem_of_In _ _) (proj2 (elem_of_map_to_list _ _ _) Hc))). destruct (st_cols _ _ _ _ _ _ Hs) as (strs & _ & _ & _ & Hcols). specialize (Hcols f). rewrite Hc in Hcols.
  destruct Hcols as (m' & _ & Hok & Hof'). assert (m = m') as -> by (apply map_eq; intros id; by rewrite Hof, Hof'). destruct col as [| | |map]; try done. cbn [snd column_fits] in Hf. destruct Hok as [_ (es & Hh & Hl)]. rewrite (map_entries_spec map es _ Hh) in Hf.
  assert (list_to_map es = m') as Hm. { apply map_eq. intros id. rewrite alookup_list_to_map, Hl by (by eapply CowMap.holds_sorted). done. } rewrite Hm in Hf. intros blob Hb. rewrite Hb in Hf. lia.
Qed.

(** What a column packs to. *)
Definition enc_col (col : Column.t) : list Z := match pack_column ser col [] with Some (Ok e) => e | _ => [] end.

Lemma packs_enc_col col enc : packs ser col enc → enc = enc_col col.
Proof. intros Hp. unfold enc_col. by rewrite Hp. Qed.

Definition enc_str (s : string) : list Z := Pack.push_str [] s.

Lemma push_str_app out s : Pack.push_str out s = out ++ enc_str s.
Proof. unfold enc_str, Pack.push_str, Pack.push_len, Pack.push_u32. by rewrite <-!app_assoc. Qed.

Definition enc_strings (strs : list string) : list Z := enc_count (length strs) ++ (strs ≫= enc_str).

Lemma pack_strings it strs out : strings_ok hash it strs → StrIntern.pack it out = Some (out ++ enc_strings strs).
Proof.
  intros Hs. unfold StrIntern.pack. rewrite (table_len hash it strs Hs). destruct (so_values _ _ _ Hs) as [_ ->]. unfold enc_strings. rewrite app_assoc. change (out ++ enc_count (length strs)) with (Pack.push_u32 out (wrap_u 32 (Z.of_nat (length strs)))).
  generalize (Pack.push_u32 out (wrap_u 32 (Z.of_nat (length strs)))) as o. clear. induction strs as [|s strs IH]; intros o; [by rewrite app_nil_r|]. cbn [fmap list_fmap foldl mbind option_bind StrIntern.pack_value]. rewrite IH, push_str_app, bind_cons. by rewrite app_assoc.
Qed.

Lemma reads_texts (r : reader GraphError string) strs : (∀ x, text_ok x → reads r (enc_str x) x) → (∀ x, x ∈ strs → text_ok x) → reads (repeat_read (length strs) r) (strs ≫= enc_str) strs.
Proof. intros Hr Hs. apply reads_repeat. intros x ?%Hs. by apply Hr. Qed.

Lemma reads_text x : text_ok x → reads Pack.read_str (enc_str x) x.
Proof. intros [? ?]. by apply Pack.reads_str. Qed.

(** The fields in the order they are packed. *)
Definition field_list (cols : gmap string Column.t) : list string := sort_unstable (map_to_list cols).*1.

Lemma elem_of_field_list cols f : f ∈ field_list cols ↔ is_Some (cols !! f).
Proof.
  unfold field_list. rewrite elem_of_sort, list_elem_of_fmap. split.
  - intros ([g col] & -> & ?%elem_of_map_to_list). by eexists.
  - intros [col Hc]. exists (f, col). split; [done|]. by apply elem_of_map_to_list.
Qed.

Lemma NoDup_field_list cols : NoDup (field_list cols).
Proof. unfold field_list, sort_unstable. rewrite merge_sort_Permutation. apply NoDup_fst_map_to_list. Qed.

Definition enc_field (cols : gmap string Column.t) (f : string) : list Z := enc_str f ++ match cols !! f with Some col => enc_col col | None => [] end.
Definition image (strs : list string) (cols : gmap string Column.t) : list Z := enc_strings strs ++ enc_count (length (field_list cols)) ++ (field_list cols ≫= enc_field cols).

Lemma pack_fields cols l out : (∀ f, f ∈ l → ∃ col, cols !! f = Some col ∧ packs ser col (enc_col col)) → foldl (pack_field ser cols) (Some (Ok out)) l = Some (Ok (out ++ (l ≫= enc_field cols))).
Proof.
  revert out; induction l as [|f l IH]; intros out Hl; cbn [foldl]; [by rewrite app_nil_r|]. destruct (Hl f) as (col & Hc & Hp); [by left|]. unfold pack_field at 2. cbn [mbind option_bind]. rewrite Hc. cbn [mbind option_bind]. rewrite Hp, IH by (intros; apply Hl; by right).
  rewrite bind_cons, push_str_app. unfold enc_field at 2. rewrite Hc. by rewrite <-!app_assoc.
Qed.

(** What every column of a store satisfies. *)
Definition column_packed (strs : list string) (n : Z) (M : Props) (col : Column.t) (f : string) : Prop :=
  ∃ m, m ≠ ∅ ∧ column_of M f m ∧ packs ser col (enc_col col) ∧ decodes ser de strs m (enc_col col) ∧ ∃ col', reads (unpack_column de) (enc_col col) (Some col') ∧ col_ok storable n strs col' m.

Lemma columns_packed n s M T : store_ok hash storable n s M T → fits_store s M →
  ∃ strs, strings_ok hash (ColumnStore.intern s) strs ∧ Z.of_nat (length strs) ≤ n ∧ (∀ x, x ∈ strs → text_ok x) ∧ ∀ f col, ColumnStore.cols s !! f = Some col → column_packed strs n M col f.
Proof.
  intros Hs Hfit. pose proof (st_n _ _ _ _ _ _ Hs) as Hn. destruct (st_cols _ _ _ _ _ _ Hs) as (strs & Hit & Hlen & Hfs & Hc). exists strs. split_and!; [done|done|by intros x [_ ?]%Hfs|]. intros f col Hf. specialize (Hc f). rewrite Hf in Hc. destruct Hc as (m & Hne & Hcol & Hof).
  assert (blob_fits ser col m) as Hbf by by eapply Hfit. destruct (decoded narrow hash ser de codec n strs col m) as (enc & Hp & Hd); [lia|done..|]. destruct (unpacked narrow ser de codec n strs col m) as (enc' & col' & Hp' & Hr & Hok); [lia|done..|].
  pose proof (packs_enc_col _ _ Hp) as ->. pose proof (packs_enc_col _ _ Hp') as ->. exists m. split_and!; [done..|]. eauto.
Qed.

Lemma pack_image n s M T strs : store_ok hash storable n s M T → strings_ok hash (ColumnStore.intern s) strs → (∀ f col, ColumnStore.cols s !! f = Some col → column_packed strs n M col f) →
  pack ser s [] = Some (Ok (image strs (ColumnStore.cols s))).
Proof.
  intros Hs Hit Hc. unfold pack. rewrite (pack_strings _ strs) by done. cbn [mbind option_bind]. change (sort_unstable _) with (field_list (ColumnStore.cols s)). unfold Pack.push_u32. rewrite app_nil_l.
  rewrite pack_fields; [unfold image, enc_count; by rewrite <-!app_assoc|]. intros f [col Hf]%elem_of_field_list. exists col. split; [done|]. by destruct (Hc f col Hf) as (m & _ & _ & ? & _).
Qed.

(** No more fields than properties. *)
Lemma fields_bound n s M T : store_ok hash storable n s M T → (length (field_list (ColumnStore.cols s)) ≤ size M)%nat.
Proof.
  intros Hs. transitivity (length ((map_to_list M).*1).*2); [|by rewrite !length_fmap, length_map_to_list].
  apply submseteq_length, NoDup_submseteq; [apply NoDup_field_list|]. intros f. rewrite elem_of_field_list, <-elem_of_dom. intros (node & v & Hv)%(fields_store hash storable n s M T f Hs).
  apply list_elem_of_fmap. exists (node, f). split; [done|]. apply list_elem_of_fmap. exists ((node, f), v). split; [done|]. by apply elem_of_map_to_list.
Qed.

(** ** Decoding the image *)

(** The archived fields decoded from a store: one for every field, holding its map. *)
Definition fields_ok (strs : list string) (M : Props) (fcs : list (string * ColumnData)) : Prop :=
  NoDup fcs.*1 ∧ (∀ f, f ∈ fcs.*1 ↔ ∃ id, is_Some (M !! (id, f))) ∧ ∀ f cd, (f, cd) ∈ fcs → ∃ m, m ≠ ∅ ∧ column_of M f m ∧ cdata_ok de (Some strs) cd m.

Lemma reads_decode_field v11 f enc cd : text_ok f → reads (decode_tagged ser de v11) enc (Some cd) → reads (decode_field ser de v11) (enc_str f ++ enc) (f, Some cd).
Proof.
  intros Hf Hr. unfold decode_field. eapply reads_bind; [by apply reads_or, reads_text|]. apply reads_assoc. by apply (reads_bind_ret (decode_tagged ser de v11) (pair f)).
Qed.

Lemma refuses_decode_field v11 f enc e : text_ok f → refuses (decode_tagged ser de v11) enc e → refuses (decode_field ser de v11) (enc_str f ++ enc) e.
Proof. intros Hf Hr. unfold decode_field. eapply refuses_later; [by apply reads_or, reads_text|]. apply refuses_assoc. by apply (refuses_here (decode_tagged ser de v11)). Qed.

(** The table and the count of fields read, then the fields. *)
Lemma reads_decode_all v11 strs cols fields : (∀ x, x ∈ strs → text_ok x) → Z.of_nat (length strs) < 2 ^ 32 → Z.of_nat (length (field_list cols)) < 2 ^ 32 →
  reads (repeat_read (length (field_list cols)) (decode_field ser de v11)) (field_list cols ≫= enc_field cols) fields → reads (decode_all_columns ser de v11) (image strs cols) (strs, fields).
Proof.
  intros Hs Hls Hlf Hr. unfold decode_all_columns, image, enc_strings. rewrite <-app_assoc. eapply reads_bind; [by apply reads_or, reads_count|]. eapply reads_bind; [rewrite Nat2Z.id; apply reads_texts; [intros; by apply reads_or, reads_text|done]|].
  eapply reads_bind; [by apply reads_or, reads_count|]. rewrite Nat2Z.id. by apply (reads_bind_ret _ (pair strs)).
Qed.

Lemma refuses_decode_all v11 strs cols e : (∀ x, x ∈ strs → text_ok x) → Z.of_nat (length strs) < 2 ^ 32 → Z.of_nat (length (field_list cols)) < 2 ^ 32 →
  refuses (repeat_read (length (field_list cols)) (decode_field ser de v11)) (field_list cols ≫= enc_field cols) e → refuses (decode_all_columns ser de v11) (image strs cols) e.
Proof.
  intros Hs Hls Hlf Hr. unfold decode_all_columns, image, enc_strings. rewrite <-app_assoc. eapply refuses_later; [by apply reads_or, reads_count|]. eapply refuses_later; [rewrite Nat2Z.id; apply reads_texts; [intros; by apply reads_or, reads_text|done]|].
  eapply refuses_later; [by apply reads_or, reads_count|]. rewrite Nat2Z.id. by apply refuses_here.
Qed.

Lemma decode_image n s M T : store_ok hash storable n s M T → n < 2 ^ 32 → Z.of_nat (size M) < 2 ^ 32 → names_ok M → fits_store s M →
  ∃ img strs fcs, pack ser s [] = Some (Ok img) ∧ fields_ok strs M fcs ∧ reads (decode_all_columns ser de true) img (strs, (λ p, (p.1, Some p.2)) <$> fcs) ∧
    (reads (decode_all_columns ser de false) img (strs, (λ p, (p.1, Some p.2)) <$> fcs) ∨ refuses (decode_all_columns ser de false) img v11_error ∧ ∃ id f v, M !! (id, f) = Some v ∧ v11_value v).
Proof.
  intros Hs Hn Hsz Hnames Hfit. destruct (columns_packed n s M T Hs Hfit) as (strs & Hit & Hlen & Htx & Hc). pose proof (pack_image n s M T strs Hs Hit Hc) as Hpack. pose proof (fields_bound n s M T Hs) as Hbound. set (cols := ColumnStore.cols s) in *.
  assert (∀ f, f ∈ field_list cols ↔ ∃ id, is_Some (M !! (id, f))) as Hfl by (intros f; rewrite elem_of_field_list, <-elem_of_dom; by apply (fields_store hash storable n s M T)).
  assert (∀ f, f ∈ field_list cols → text_ok f) as Hft by (intros f (id & v & Hv)%Hfl; by eapply Hnames).
  destruct (choose_all (λ f cd, ∃ m enc, m ≠ ∅ ∧ column_of M f m ∧ cdata_ok de (Some strs) cd m ∧ enc_field cols f = enc_str f ++ enc ∧ reads (decode_tagged ser de true) enc (Some cd) ∧
    (reads (decode_tagged ser de false) enc (Some cd) ∨ refuses (decode_tagged ser de false) enc v11_error ∧ ∃ id v, m !! id = Some v ∧ v11_value v)) (field_list cols)) as (fcs & He & Hfcs).
  { intros f [col Hf]%elem_of_field_list. destruct (Hc f col Hf) as (m & Hne & Hof & _ & (cd & Hcd & Hr & Hd) & _). exists cd, m, (enc_col col). split_and!; [done..| |done|done]. unfold enc_field. by rewrite Hf. }
  exists (image strs cols), strs, fcs. split; [done|]. assert (∀ x : string * ColumnData, x ∈ fcs → text_ok x.1) as Htf by (intros x Hx; apply Hft; rewrite <-He; by apply list_elem_of_fmap_2).
  assert (∀ v11, (∀ p, p ∈ fcs → reads (decode_field ser de v11) (enc_field cols p.1) (p.1, Some p.2)) → reads (decode_all_columns ser de v11) (image strs cols) (strs, (λ p, (p.1, Some p.2)) <$> fcs)) as Hall.
  { intros v11 Hr. apply reads_decode_all; [done|lia|lia|]. rewrite <-He, length_fmap, bind_fmap_list. apply (reads_repeat_val _ (enc_field cols ∘ fst) (λ p, (p.1, Some p.2))). exact Hr. }
  split_and!.
  - split_and!; [rewrite He; apply NoDup_field_list|intros f; by rewrite He|]. intros f cd Hin. destruct (Hfcs f cd Hin) as (m & enc & ? & ? & ? & _). eauto.
  - apply Hall. intros [f cd] Hin. cbn [fst snd]. destruct (Hfcs f cd Hin) as (m & enc & _ & _ & _ & -> & Hr & _). by apply reads_decode_field; [apply (Htf (f, cd))|].
  - destruct (all_or_some (λ p, reads (decode_field ser de false) (enc_field cols p.1) (p.1, Some p.2)) (λ p, refuses (decode_field ser de false) (enc_field cols p.1) v11_error ∧ ∃ id v, M !! (id, p.1) = Some v ∧ v11_value v) fcs) as [Hr|([f cd] & Hin & Href & Hv)].
    + intros [f cd] Hin. cbn [fst snd]. destruct (Hfcs f cd Hin) as (m & enc & _ & Hof & _ & -> & _ & [Hr|(Hr & id & v & Hv & ?)]); [left; by apply reads_decode_field; [apply (Htf (f, cd))|]|right].
      split; [by apply refuses_decode_field; [apply (Htf (f, cd))|]|]. exists id, v. by rewrite <-Hof.
    + left. by apply Hall.
    + right. destruct Hv as (id & v & Hv & ?). split; [|by exists id, f, v]. apply refuses_decode_all; [done|lia|lia|]. rewrite <-He, length_fmap, bind_fmap_list. apply (refuses_repeat _ (enc_field cols ∘ fst) (λ p, (p.1, Some p.2))); [|by exists (f, cd)].
      intros [g cg] Hg. destruct (Hfcs g cg Hg) as (m & enc & _ & _ & _ & E & _ & Hor). unfold compose. cbn [fst snd]. rewrite E. destruct Hor as [Hr|[Hr _]]; [left|right]; [by apply reads_decode_field; [apply (Htf (g, cg))|]|by apply refuses_decode_field; [apply (Htf (g, cg))|]].
Qed.

(** ** Unpacking the image *)

Lemma strings_NoDup it strs : strings_ok hash it strs → NoDup strs.
Proof.
  intros Hs. destruct (so_index _ _ _ Hs) as (m & _ & Hlk). apply NoDup_alt. intros i j x Hi Hj. assert (m !! x = Some (Z.of_nat i)) as Hmi by (apply Hlk; rewrite Nat2Z.id; split; [lia|done]).
  assert (m !! x = Some (Z.of_nat j)) as Hmj by (apply Hlk; rewrite Nat2Z.id; split; [lia|done]). rewrite Hmi in Hmj. injection Hmj. lia.
Qed.

Lemma table_unpacked strs : NoDup strs → Z.of_nat (length strs) ≤ 2 ^ 32 → ∃ it, StrIntern.unpack_table hash strs = Some it ∧ strings_ok hash it strs.
Proof.
  induction strs as [|x strs IH] using rev_ind; intros Hnd Hlen. { exists StrIntern.new. split; [done|apply new_strings]. }
  apply NoDup_app in Hnd as (Hnd & Hx & _). rewrite length_app in Hlen. cbn in Hlen. destruct IH as (it & He & Hit); [done|lia|]. unfold StrIntern.unpack_table in *. rewrite imap_app, foldl_app, He. cbn [imap foldl mbind option_bind]. unfold compose. rewrite Nat.add_0_r. unfold StrIntern.unpack_value.
  pose proof (strings_find hash it strs x Hit) as Hf. assert (x ∉ strs) as Hnx by (intros Hin; apply (Hx x Hin); by left). destruct (StrIntern.find it x (hash x)) as [id|]; [destruct Hf as [_ Hf%list_elem_of_lookup_2]; done|].
  rewrite wrap_u_id by (unfold in_u; lia). destruct (strings_push hash it strs x Hit Hnx) as (ix & -> & Hok); [lia|]. cbn [mbind option_bind]. eauto.
Qed.

Lemma columns_assembled (fcs : list (string * Column.t)) : NoDup fcs.*1 →
  foldl (λ (cols : option (gmap string Column.t)) '(name, col), cols ← cols; col ← col; Some (<[name := col]> cols)) (Some ∅) ((λ p, (p.1, Some p.2)) <$> fcs) = Some (list_to_map fcs).
Proof.
  intros Hnd. assert (∀ acc, foldl (λ (cols : option (gmap string Column.t)) '(name, col), cols ← cols; col ← col; Some (<[name := col]> cols)) (Some acc) ((λ p, (p.1, Some p.2)) <$> fcs) = Some (foldl (λ m r, <[r.1 := r.2]> m) acc fcs)) as Hf.
  { clear Hnd. induction fcs as [|[f col] fcs IH]; intros acc; [done|]. cbn [fmap list_fmap foldl fst snd mbind option_bind]. apply IH. }
  rewrite Hf, foldl_insert_union by done. by rewrite (right_id_L ∅ (∪)).
Qed.

Lemma reads_unpack_field f enc col : text_ok f → reads (unpack_column de) enc (Some col) → reads (unpack_field de) (enc_str f ++ enc) (f, Some col).
Proof. intros Hf Hr. unfold unpack_field. eapply reads_bind; [by apply reads_text|]. by apply (reads_bind_ret _ (pair f)). Qed.

Lemma reads_unpack_parts strs cols fields : (∀ x, x ∈ strs → text_ok x) → Z.of_nat (length strs) < 2 ^ 32 → Z.of_nat (length (field_list cols)) < 2 ^ 32 →
  reads (repeat_read (length (field_list cols)) (unpack_field de)) (field_list cols ≫= enc_field cols) fields → reads (unpack_parts de) (image strs cols) (strs, fields).
Proof.
  intros Hs Hls Hlf Hr. unfold unpack_parts, image, enc_strings. rewrite <-app_assoc. eapply reads_bind; [by apply reads_count|]. eapply reads_bind; [rewrite Nat2Z.id; by apply reads_texts; [apply reads_text|]|].
  eapply reads_bind; [by apply reads_count|]. rewrite Nat2Z.id. by apply (reads_bind_ret _ (pair strs)).
Qed.

Lemma unpack_read img strs (fcs : list (string * Column.t)) it rest : reads (unpack_parts de) img (strs, (λ p, (p.1, Some p.2)) <$> fcs) → NoDup fcs.*1 → StrIntern.unpack_table hash strs = Some it → len_z (img ++ rest) ≤ isize_max →
  unpack hash de (img ++ rest) = Some (Ok (ColumnStore.mk (list_to_map fcs) it CowMap.new, len_z img)).
Proof.
  intros Hr Hnd Htab Hlen. unfold unpack. pose proof (Hr [] rest Hlen) as Hp. cbn [app] in Hp. change (len_z []) with 0 in Hp. rewrite Z.add_0_l in Hp. rewrite Hp. unfold assemble. rewrite Htab. cbn [mbind option_bind]. by rewrite columns_assembled.
Qed.

Lemma unpack_image n s M T : store_ok hash storable n s M T → n < 2 ^ 32 → Z.of_nat (size M) < 2 ^ 32 → names_ok M → fits_store s M →
  ∃ img s', pack ser s [] = Some (Ok img) ∧ store_ok hash storable n s' M ∅ ∧ ∀ rest, len_z (img ++ rest) ≤ isize_max → unpack hash de (img ++ rest) = Some (Ok (s', len_z img)).
Proof.
  intros Hs Hn Hsz Hnames Hfit. pose proof (st_n _ _ _ _ _ _ Hs) as Hn0. destruct (columns_packed n s M T Hs Hfit) as (strs & Hit & Hlen & Htx & Hc). pose proof (pack_image n s M T strs Hs Hit Hc) as Hpack. pose proof (fields_bound n s M T Hs) as Hbound.
  pose proof (fields_store hash storable n s M T) as Hfs. set (cols := ColumnStore.cols s) in *.
  destruct (choose_all (λ f col, text_ok f ∧ ∃ m enc, m ≠ ∅ ∧ column_of M f m ∧ enc_field cols f = enc_str f ++ enc ∧ reads (unpack_column de) enc (Some col) ∧ col_ok storable n strs col m) (field_list cols)) as (fcs & He & Hfcs).
  { intros f [col Hf]%elem_of_field_list. destruct (Hc f col Hf) as (m & Hne & Hof & _ & _ & col' & Hr & Hok). exists col'. split.
    - destruct (proj1 (Hfs f Hs)) as (id & v & Hv); [by apply elem_of_dom_2 in Hf|]. by eapply Hnames.
    - exists m, (enc_col col). split_and!; [done..| |done|done]. unfold enc_field. by rewrite Hf. }
  assert (NoDup fcs.*1) as Hnd by (rewrite He; apply NoDup_field_list). destruct (table_unpacked strs) as (it & Htab & Hit'); [by eapply strings_NoDup|lia|].
  exists (image strs cols), (ColumnStore.mk (list_to_map fcs) it CowMap.new). split; [done|]. split.
  - split; cbn [ColumnStore.cols ColumnStore.intern ColumnStore.prop_tombstones]; [lia| |].
    + exists strs. split_and!; [done|done| |].
      * destruct (st_cols _ _ _ _ _ _ Hs) as (strs' & Hit'' & _ & Hx & _). intros x Hin. apply Hx. destruct (so_values _ _ _ Hit) as [_ E1], (so_values _ _ _ Hit'') as [_ E2]. rewrite E1 in E2. apply (list_fmap_eq_inj _) in E2; [by rewrite <-E2|congruence].
      * intros f. destruct (list_to_map fcs !! f) as [col|] eqn:E.
        -- apply elem_of_list_to_map_2 in E. destruct (Hfcs f col E) as (_ & m & enc & ? & ? & _ & _ & ?). eauto.
        -- intros id. rewrite lookup_empty. symmetry. destruct (M !! (id, f)) as [v|] eqn:D; [|done]. apply not_elem_of_list_to_map_2 in E. destruct E. rewrite He, elem_of_field_list, <-elem_of_dom. apply Hfs; [done|]. exists id. by eexists.
    + exists []. split; [apply UnifiedIndex.new_ok; lia|]. intros id f. cbn. set_solver.
  - intros rest Hl. eapply unpack_read; [|done..]. apply reads_unpack_parts; [done|lia|lia|]. rewrite <-He, length_fmap, bind_fmap_list. apply (reads_repeat_val _ (enc_field cols ∘ fst) (λ p, (p.1, Some p.2))).
    intros [f col] Hin. unfold compose. cbn [fst snd]. destruct (Hfcs f col Hin) as (Hf & m & enc & _ & _ & -> & Hr & _). by apply reads_unpack_field.
Qed.

End image.
End ColumnsImage.
