(* ===== verification/ColumnsVector.v ===== *)
(** * Columns: promotion to vectors

    A column whose values are all lists of the same number of floats, at least one, is
    archived as one dense block; the block reads back as the same map. *)

From S2P Require Import Prelude Order Assoc Bytes Utf8 Types CowVec CowMap CowMapIter HashIndex Pack Float64 ValueOps VisibleSet Bitmap Tagged RangeIndex Columns ColumnsRep ColumnsStore ColumnsPack ColumnsRoundtrip ColumnsDecode.
Open Scope Z_scope.

Module ColumnsVector.
Import ColumnsRep ColumnsStore ColumnsPack ColumnsRoundtrip ColumnsDecode.

(** ** Writing a block *)

Lemma put_floats_spec data start fs : (start + length fs ≤ length data)%nat →
  ∃ data', put_floats (Some data) start fs = Some data' ∧ length data' = length data ∧
    ∀ j, data' !! j = if decide (start ≤ j < start + length fs)%nat then fs !! (j - start)%nat else data !! j.
Proof.
  unfold put_floats. induction fs as [|f fs IH] using rev_ind; intros Hle.
  { exists data. split_and!; [done|done|]. intros j. cbn. by rewrite decide_False by lia. }
  rewrite length_app in Hle |- *. cbn [length] in Hle |- *. destruct IH as (data' & He & Hl & Hd); [lia|]. rewrite imap_app, foldl_app, He. cbn [imap foldl mbind option_bind]. unfold compose. rewrite Nat.add_0_r, (proj2 (Nat.ltb_lt _ _)) by lia.
  eexists. split; [done|]. split; [by rewrite length_insert|]. intros j. destruct (decide (j = start + length fs)%nat) as [->|Hj].
  - rewrite list_lookup_insert_eq by lia. rewrite decide_True by lia. symmetry. apply list_lookup_middle. lia.
  - rewrite list_lookup_insert_ne by lia. rewrite Hd. repeat case_decide; try lia; [|done]. rewrite lookup_app_l by lia. done.
Qed.

Lemma block_room (a N dim : nat) : (a < N)%nat → (a * dim + dim ≤ N * dim)%nat.
Proof. intros Ha. pose proof (Nat.mul_le_mono_r (S a) N dim Ha). lia. Qed.

Lemma blocks_apart (a b dim i : nat) : a ≠ b → (i < dim)%nat → ¬ (a * dim ≤ b * dim + i < a * dim + dim)%nat.
Proof. intros Hne Hi. destruct (decide (a < b)%nat) as [Hlt|]; [pose proof (block_room a b dim Hlt)|pose proof (block_room b a dim ltac:(lia))]; lia. Qed.

(** The slots of one node. *)
Definition slots_of (dim : nat) (data : list Z) (id : Z) (fs : list Z) : Prop := ∀ i, (i < dim)%nat → data !! (Z.to_nat id * dim + i)%nat = fs !! i.

Lemma put_all_floats dim N l : ∀ data, length data = (N * dim)%nat → NoDup l.*1 → (∀ id fs, (id, fs) ∈ l → 0 ≤ id ∧ (Z.to_nat id < N)%nat ∧ length fs = dim) →
  ∃ data', foldl (λ d e, put_floats d (Z.to_nat e.1 * dim) e.2) (Some data) l = Some data' ∧ length data' = (N * dim)%nat ∧ (∀ id fs, (id, fs) ∈ l → slots_of dim data' id fs) ∧
    ∀ id fs, 0 ≤ id → id ∉ l.*1 → slots_of dim data id fs → slots_of dim data' id fs.
Proof.
  induction l as [|[id fs] l IH]; intros data Hlen Hnd Hl; cbn [foldl]. { exists data. split_and!; [done|done|by intros ?? ?%elem_of_nil|done]. }
  cbn [fmap list_fmap fst] in Hnd. apply NoDup_cons in Hnd as [Hnew Hnd]. destruct (Hl id fs) as (Hid & Hlt & Hfs); [by left|]. cbn [fst snd]. destruct (put_floats_spec data (Z.to_nat id * dim) fs) as (d1 & -> & Hl1 & Hd1); [rewrite Hlen, Hfs; by apply block_room|].
  destruct (IH d1) as (data' & He & Hlen' & Hin & Hout); [congruence|done|intros; apply Hl; by right|]. assert (slots_of dim d1 id fs) as H1. { intros i Hi. rewrite Hd1, decide_True by lia. by replace (Z.to_nat id * dim + i - Z.to_nat id * dim)%nat with i by lia. }
  exists data'. split_and!; [done|done| |].
  - intros id' fs' [[= -> ->]|?]%elem_of_cons; [|by apply Hin]. by apply Hout.
  - intros id' fs' Hid' Hn Hs. apply not_elem_of_cons in Hn as [Hne Hn]. apply Hout; [done|done|]. intros i Hi. rewrite Hd1, decide_False; [by apply Hs|]. cbn [fst] in Hne. rewrite Hfs. apply blocks_apart; [lia|done].
Qed.

Lemma put_all_bits N l : ∀ words, Forall (in_u 64) words → VisibleSet.small words → length words = ((N + 63) / 64)%nat → (∀ id, id ∈ l → 0 ≤ id ∧ (Z.to_nat id < N)%nat) →
  ∃ words', foldl (λ w id, put_bit w id) (Some words) l = Some words' ∧ Forall (in_u 64) words' ∧ VisibleSet.small words' ∧ VisibleSet.ids_of words' = list_to_set l ∪ VisibleSet.ids_of words.
Proof.
  induction l as [|id l IH]; intros words Hw Hs Hlen Hl; cbn [foldl]. { exists words. split_and!; [done..|]. cbn. by rewrite (left_id_L ∅ (∪)). }
  destruct (Hl id) as [Hid Hlt]; [by left|]. destruct (lookup_lt_is_Some_2 words (Bitmap.word_of id)) as [w Hlk].
  { rewrite Hlen. unfold Bitmap.word_of. rewrite Z2Nat.inj_div by lia. change (Z.to_nat 64) with 64%nat. apply Nat.div_lt_upper_bound; [lia|]. pose proof (Nat.div_mod (N + 63) 64 ltac:(lia)). pose proof (Nat.mod_upper_bound (N + 63) 64 ltac:(lia)). lia. }
  unfold put_bit at 2. cbn [mbind option_bind]. rewrite Hlk. cbn [mbind option_bind]. destruct (IH (<[Bitmap.word_of id := Z.lor w (Bitmap.mask_of id)]> words)) as (words' & He & Hw' & Hs' & Hids).
  - apply Forall_insert; [done|]. apply Bitmap.lor_mask_u64; [|done]. by eapply Forall_lookup_1.
  - unfold VisibleSet.small. by rewrite length_insert.
  - by rewrite length_insert.
  - intros; apply Hl; by right.
  - exists words'. split_and!; [done..|]. rewrite Hids. assert (∀ x, x ∈ VisibleSet.ids_of (<[Bitmap.word_of id := Z.lor w (Bitmap.mask_of id)]> words) ↔ x = id ∨ x ∈ VisibleSet.ids_of words) as Hx; [|apply set_eq; intros x; rewrite elem_of_union, Hx, list_to_set_cons, !elem_of_union, elem_of_singleton; tauto].
    intros x. rewrite !VisibleSet.elem_of_ids_of by (done || unfold VisibleSet.small; by rewrite length_insert). unfold Bitmap.mask_of, Bitmap.word_of in *. split.
    + intros [Hx Hb]. rewrite VisibleSet.bit_at_insert in Hb by done. naive_solver.
    + intros [->|[Hx Hb]]; (split; [done|]); rewrite VisibleSet.bit_at_insert by done; auto.
Qed.

(** ** What can be promoted *)

Lemma floats_of_spec v fs : floats_of v = Some fs ↔ v = Value.List (Value.Float <$> fs).
Proof.
  split.
  - destruct v; try done. cbn [floats_of]. revert fs. induction items as [|v items IH]; intros fs; cbn [mapM]; [by intros [= <-]|]. destruct v; try done. cbn [float_bits mbind option_bind]. destruct (mapM float_bits items) as [gs|]; [|done]. intros [= <-]. specialize (IH gs eq_refl). injection IH as ->. done.
  - intros ->. cbn [floats_of]. induction fs as [|f fs IH]; [done|]. cbn [fmap list_fmap mapM float_bits mbind option_bind]. by rewrite IH.
Qed.

Lemma float_entries (m : gmap Z Value.t) es : mapM (λ e, pair e.1 <$> floats_of e.2) (map_to_list m) = Some es →
  es.*1 = (map_to_list m).*1 ∧ ∀ id fs, (id, fs) ∈ es ↔ m !! id = Some (Value.List (Value.Float <$> fs)).
Proof.
  intros He. assert (∀ l, mapM (λ e : Z * Value.t, pair e.1 <$> floats_of e.2) l = Some es → es.*1 = l.*1 ∧ ∀ id fs, (id, fs) ∈ es ↔ (id, Value.List (Value.Float <$> fs)) ∈ l) as Hl.
  { clear He. revert es. intros es l. revert es. induction l as [|[id v] l IH]; intros es; cbn [mapM]. { intros [= <-]. split; [done|]. intros id fs. by rewrite !elem_of_nil. }
    cbn [fst snd]. destruct (floats_of v) as [fs|] eqn:Hf; [|done]. cbn [fmap option_fmap option_map mbind option_bind]. destruct (mapM _ l) as [gs|]; [|done]. intros [= <-]. destruct (IH gs eq_refl) as [H1 H2]. apply floats_of_spec in Hf as ->. split; [cbn; by rewrite H1|].
    intros id' fs'. rewrite !elem_of_cons, H2. split; (intros [E|?]; [left|by right]); [by simplify_eq|]. injection E as -> E. apply (list_fmap_eq_inj _) in E; [by subst|congruence]. }
  destruct (Hl _ He) as [H1 H2]. split; [done|]. intros id fs. by rewrite H2, elem_of_map_to_list.
Qed.

Lemma max_key_ge ids id : id ∈ ids → id ≤ max_key ids ∧ 0 ≤ max_key ids.
Proof.
  unfold max_key. assert (∀ acc, 0 ≤ acc → acc ≤ foldl Z.max acc ids ∧ ∀ x, x ∈ ids → x ≤ foldl Z.max acc ids) as Hm.
  { clear. induction ids as [|y ids IH]; intros acc Ha; cbn [foldl]; [split; [lia|by intros x ?%elem_of_nil]|]. destruct (IH (Z.max acc y)) as [H1 H2]; [lia|]. split; [lia|]. intros x [->|?]%elem_of_cons; [lia|auto]. }
  intros Hin. destruct (Hm 0 ltac:(lia)) as [H1 H2]. split; [auto|lia].
Qed.

Lemma max_key_u32 ids : (∀ id, id ∈ ids → in_u 32 id) → in_u 32 (max_key ids).
Proof.
  unfold max_key. intros Hu. assert (∀ acc, in_u 32 acc → in_u 32 (foldl Z.max acc ids)) as Hm; [|by apply Hm].
  induction ids as [|y ids IH]; intros acc Ha; cbn [foldl]; [done|]. apply IH; [intros; apply Hu; by right|]. assert (in_u 32 y) by (apply Hu; by left). unfold in_u in *. lia.
Qed.

Lemma split_entry dim l : ∀ a b, foldl (put_entry dim) (a, b) l = (foldl (λ d e, put_floats d (Z.to_nat e.1 * dim) e.2) a l, foldl (λ w id, put_bit w id) b l.*1).
Proof. induction l as [|e l IH]; intros a b; [done|]. cbn [foldl fmap list_fmap]. unfold put_entry at 2. by rewrite IH. Qed.

(** The block of a list of entries. *)
Lemma vector_block dim l : NoDup l.*1 → (∀ id fs, (id, fs) ∈ l → in_u 32 id ∧ length fs = dim) → let N := S (Z.to_nat (max_key l.*1)) in
  ∃ data words, foldl (put_entry dim) (Some (replicate (N * dim) 0), Some (replicate ((N + 63) / 64) 0)) l = (Some data, Some words) ∧ length data = (N * dim)%nat ∧
    (∀ id fs, (id, fs) ∈ l → slots_of dim data id fs ∧ (Z.to_nat id < N)%nat) ∧ Forall (in_u 64) words ∧ VisibleSet.small words ∧ VisibleSet.ids_of words = list_to_set l.*1.
Proof.
  intros Hnd Hl N. assert (∀ id, id ∈ l.*1 → in_u 32 id) as Hu. { intros id ([id' fs] & -> & Hin)%list_elem_of_fmap. by destruct (Hl _ _ Hin). }
  assert (∀ id, id ∈ l.*1 → 0 ≤ id ∧ (Z.to_nat id < N)%nat) as Hlt. { intros id Hin. pose proof (max_key_ge l.*1 id Hin). destruct (Hu id Hin). unfold N. lia. } pose proof (max_key_u32 l.*1 Hu) as Hmax.
  destruct (put_all_floats dim N l (replicate (N * dim) 0)) as (data & Hd & Hlen & Hin & _); [apply length_replicate|done| |].
  { intros id fs Hif. destruct (Hl id fs Hif). destruct (Hlt id) as [? ?]; [by apply (list_elem_of_fmap_2 fst) in Hif|]. done. }
  destruct (put_all_bits N l.*1 (replicate ((N + 63) / 64) 0)) as (words & Hw & Hw64 & Hs & Hids); [by apply Forall_replicate| |apply length_replicate|done|].
  { unfold VisibleSet.small. rewrite length_replicate. rewrite Nat2Z.inj_div. unfold in_u, N in *. pose proof (Z.div_lt_upper_bound (Z.of_nat (S (Z.to_nat (max_key l.*1)) + 63)) 64 (2 ^ 26 + 1)). change (Z.of_nat 64) with 64. lia. }
  exists data, words. rewrite split_entry, Hd, Hw. split_and!; [done|done| |done|done|].
  - intros id fs Hif. split; [by apply Hin|]. apply Hlt. by apply (list_elem_of_fmap_2 fst) in Hif.
  - rewrite Hids. unfold VisibleSet.ids_of. rewrite <-(app_nil_l (replicate _ 0)), VisibleSet.bits_zeros. cbn. by rewrite (right_id_L ∅ (∪)).
Qed.

(** Every value is a list of [dim] floats, and there is one. *)
Definition all_vectors (m : gmap Z Value.t) (dim : nat) : Prop :=
  m ≠ ∅ ∧ dim ≠ 0%nat ∧ ∀ id v, m !! id = Some v → ∃ fs, v = Value.List (Value.Float <$> fs) ∧ length fs = dim.

Lemma vector_at_slots N dim data id fs : slots_of dim data id fs → length data = (N * dim)%nat → (Z.to_nat id < N)%nat → length fs = dim → Z.of_nat dim < 2 ^ 32 →
  vector_at (wrap_u 32 (Z.of_nat dim)) data id = Some (Value.List (Value.Float <$> fs)).
Proof.
  intros Hs Hlen Hid Hfs Hd. unfold vector_at. rewrite wrap_u_id by (unfold in_u; lia). rewrite Nat2Z.id. pose proof (block_room (Z.to_nat id) N dim Hid) as Hroom. rewrite (proj2 (Nat.ltb_ge _ _)) by lia. do 3 f_equal. apply list_eq. intros i.
  destruct (decide (i < dim)%nat) as [Hi|Hi].
  - rewrite lookup_take_lt, lookup_drop by done. by apply Hs.
  - rewrite lookup_take_ge by lia. symmetry. apply lookup_ge_None. lia.
Qed.

(** Promotion always returns; it happens exactly when every value is a list of the same
    number of floats, and the block then holds the same map. *)
Lemma promoted de table (m : gmap Z Value.t) : (∀ id v, m !! id = Some v → in_u 32 id ∧ storable v) →
  ∃ r, try_promote_to_vector m = Some r ∧ match r with Some cd => (∃ dim, all_vectors m dim) ∧ cdata_ok de table cd m ∧ (∀ blob, cd ≠ DMixed blob) | None => ¬ ∃ dim, all_vectors m dim end.
Proof.
  intros Hm. unfold try_promote_to_vector. destruct (mapM _ (map_to_list m)) as [es|] eqn:He.
  2:{ eexists. split; [done|]. intros (dim & _ & _ & Hv). apply eq_None_not_Some in He. apply He. apply mapM_is_Some. apply Forall_forall. intros [id v] Hin%elem_of_map_to_list. destruct (Hv id v Hin) as (fs & Hf & _). unfold compose. cbn [fst snd]. rewrite (proj2 (floats_of_spec v fs) Hf). by eexists. }
  destruct (float_entries m es He) as [Hk He']. assert (∀ dim, all_vectors m dim → ∀ id fs, (id, fs) ∈ es → length fs = dim) as Hdims.
  { intros dim (_ & _ & Hv) id fs Hin%He'. destruct (Hv _ _ Hin) as (fs' & E & Hl). injection E as E. apply (list_fmap_eq_inj _) in E; [by subst|congruence]. }
  destruct es as [|[id0 fs0] rest]. { eexists. split; [done|]. intros (dim & Hne & _). destruct (map_choose m Hne) as (id & v & Hv). apply elem_of_map_to_list in Hv. apply (list_elem_of_fmap_2 fst) in Hv. rewrite <-Hk in Hv. by apply elem_of_nil in Hv. }
  set (es := (id0, fs0) :: rest) in *. destruct (_ || _) eqn:Hb.
  { eexists. split; [done|]. intros (dim & Hall). pose proof Hall as (_ & Hd0 & _). pose proof (Hdims dim Hall) as Hlen. apply orb_true_iff in Hb as [Hb%Nat.eqb_eq|Hb%negb_true_iff].
    - rewrite (Hlen id0 fs0) in Hb by by left. done.
    - apply not_true_iff_false in Hb. apply Hb, forallb_forall. intros [id fs] Hin%list_elem_of_In. cbn [snd]. apply Nat.eqb_eq. rewrite (Hlen id fs), (Hlen id0 fs0); [done|by left|by right]. }
  apply orb_false_iff in Hb as [Hd%Nat.eqb_neq Hall%negb_false_iff]. rewrite forallb_forall in Hall.
  assert (∀ id fs, (id, fs) ∈ es → length fs = length fs0) as Hlen. { intros id fs [[= -> ->]|Hin]%elem_of_cons; [done|]. apply Nat.eqb_eq. apply (Hall (id, fs)). by apply list_elem_of_In. }
  destruct (vector_block (length fs0) es) as (data & words & -> & Hl & Hs & Hw & Hsm & Hids); [rewrite Hk; apply NoDup_fst_map_to_list| |].
  { intros id fs Hin. split; [|by eapply Hlen]. apply He' in Hin. by destruct (Hm _ _ Hin). }
  cbn [mbind option_bind]. eexists. split; [done|]. assert (∀ id v, m !! id = Some v → ∃ fs, v = Value.List (Value.Float <$> fs) ∧ (id, fs) ∈ es) as Hvs.
  { intros id v Hv. pose proof Hv as Hin. apply elem_of_map_to_list, (list_elem_of_fmap_2 fst) in Hin. cbn [fst] in Hin. rewrite <-Hk in Hin. apply list_elem_of_fmap in Hin as ([id' fs] & -> & Hin). exists fs. split; [|done]. apply He' in Hin. cbn [fst] in Hv. congruence. }
  assert (m !! id0 = Some (Value.List (Value.Float <$> fs0))) as H0 by (apply He'; by left). split_and!.
  - exists (length fs0). split; [intros ->; by rewrite lookup_empty in H0|]. split; [done|]. intros id v (fs & -> & Hin)%Hvs. eauto.
  - cbn [cdata_ok present_of]. split_and!; [done|done| |].
    + rewrite Hids, Hk. apply set_eq. intros id. rewrite elem_of_list_to_set, elem_of_dom, list_elem_of_fmap. split; [intros ([? ?] & -> & ?%elem_of_map_to_list); by eexists|intros [v Hv]; exists (id, v); split; [done|by apply elem_of_map_to_list]].
    + intros id v (fs & -> & Hin)%Hvs. destruct (Hs id fs Hin) as [Hsl Hid]. eapply vector_at_slots; [done|done|done|by eapply Hlen|]. destruct (Hm _ _ H0) as [_ [_ Hz]]. unfold len_z in Hz. rewrite length_fmap in Hz. done.
  - done.
Qed.

Lemma vectors_plain m dim id v : all_vectors m dim → m !! id = Some v → ¬ v11_value v.
Proof.
  intros (_ & _ & Hv) (fs & -> & _)%Hv [x Hx]. cbn in Hx. induction fs as [|f fs IH]; [done|]. apply IH. exact Hx.
Qed.

End ColumnsVector.
