(* ===== verification/ColumnsArchive.v ===== *)
(** * Columns: the archived section

    The columns section a snapshot writes holds exactly the store's properties, a V11
    value apart that an older snapshot cannot hold and that is refused; loading the
    section back and merging it with what was written since give exactly the properties
    they should. *)

From S2P Require Import Prelude Order Assoc Bytes Utf8 Types CowVec CowMap CowMapIter HashIndex Pack Float64 ValueOps VisibleSet Bitmap Tagged RangeIndex Columns ColumnsRep ColumnsStore ColumnsPack ColumnsRoundtrip ColumnsDecode ColumnsImage ColumnsVector.
Open Scope Z_scope.

Module ColumnsArchive.
Import ColumnsRep ColumnsStore ColumnsPack ColumnsRoundtrip ColumnsDecode ColumnsImage ColumnsVector.

Lemma floats_plain fs : ¬ v11_value (Value.List (Value.Float <$> fs)).
Proof. intros [x Hx]. cbn in Hx. induction fs as [|f fs IH]; [done|]. apply IH. exact Hx. Qed.

(** No dense archived column holds a value only V11 knows. *)
Lemma slot_plain table cd id v : slot_at table cd id = Some v → ¬ v11_value v.
Proof.
  destruct cd; cbn [slot_at].
  1-3: (intros (? & _ & ->)%fmap_Some; by intros [? ?]).
  - unfold str_at. intros (sid & _ & (x & _ & ->)%fmap_Some)%bind_Some. by intros [? ?].
  - done.
  - unfold vector_at. case_match; [done|]. intros [= <-]. apply floats_plain.
Qed.

(** The properties hold a value of the five types of V11. *)
Definition holds_v11 (M : Props) : Prop := ∃ id f v, M !! (id, f) = Some v ∧ v11_value v.

Section archive.
Context {slots : SlotCap} (narrow : cap < 2 ^ 32).
Context (hash : string → Z) (ser : gmap Z Value.t → result string (list Z)) (de : list Z → result string (gmap Z Value.t)).
Context (codec : codec_ok ser de).

(** An archived section holds the properties [M]. *)
Definition arch_ok (table : option (list string)) (data : ColumnsData) (M : Props) : Prop :=
  NoDup (name <$> data) ∧ (∀ e, e ∈ data → ∃ m, m ≠ ∅ ∧ column_of M (name e) m ∧ cdata_ok de table (col e) m) ∧ ∀ id f, is_Some (M !! (id, f)) → f ∈ name <$> data.

(** ** Promotion *)

Definition column_storable (m : gmap Z Value.t) : Prop := ∀ id v, m !! id = Some v → in_u 32 id ∧ storable v.

Lemma promoted_field v11 table f cd m : cdata_ok de table cd m → column_storable m →
  ∃ r, promote_field de v11 f cd = Some r ∧
    match r with Ok cd' => cdata_ok de table cd' m ∧ (v11 = false → ∀ id v, m !! id = Some v → ¬ v11_value v) | Err e => e = v11_error ∧ v11 = false ∧ ∃ id v, m !! id = Some v ∧ v11_value v end.
Proof.
  intros Hcd Hm. assert ((∃ blob, cd = DMixed blob) ∨ ¬ ∃ blob, cd = DMixed blob) as [[blob ->]|Hno] by (destruct cd; ((right; by intros [? ?]) || (left; by eexists))).
  2:{ exists (Ok cd). assert (∀ id v, m !! id = Some v → ¬ v11_value v) as Hp. { intros id v Hv. destruct cd; try (destruct Hcd as (_ & _ & _ & Hs); by eapply slot_plain, Hs). by destruct Hno; eexists. }
      destruct cd; try done. by destruct Hno; eexists. }
  cbn [cdata_ok] in Hcd. cbn [promote_field]. rewrite Hcd. destruct (promoted de table m Hm) as (r & -> & Hr). cbn [mbind option_bind]. destruct r as [cd|].
  - destruct Hr as ((dim & Hv) & Hok & _). eexists. split; [done|]. split; [done|]. intros _ id v Hl. by eapply vectors_plain.
  - destruct v11; cbn [negb andb]; [by eexists|]. destruct (existsb _ _) eqn:E.
    + eexists. split; [done|]. split_and!; [done|done|]. apply existsb_exists in E as ([id v] & Hin%list_elem_of_In%elem_of_map_to_list & Hb%bool_decide_eq_true). by exists id, v.
    + eexists. split; [done|]. split; [done|]. intros _ id v Hv Hb. apply not_true_iff_false in E. apply E, existsb_exists. exists (id, v). split; [apply list_elem_of_In; by apply elem_of_map_to_list|]. by apply bool_decide_eq_true.
Qed.

(** Every field promoted, or the first refusal. *)
Lemma promoted_all v11 table M fcs : storable_map storable M → (∀ f cd, (f, cd) ∈ fcs → ∃ m, m ≠ ∅ ∧ column_of M f m ∧ cdata_ok de table cd m) →
  ∃ r, promote_all de v11 fcs = Some r ∧
    match r with
    | Ok data => name <$> data = fcs.*1 ∧ (∀ e, e ∈ data → ∃ m, m ≠ ∅ ∧ column_of M (name e) m ∧ cdata_ok de table (col e) m) ∧ (v11 = false → ∀ id f v, f ∈ fcs.*1 → M !! (id, f) = Some v → ¬ v11_value v)
    | Err e => e = v11_error ∧ v11 = false ∧ holds_v11 M
    end.
Proof.
  intros HM. induction fcs as [|[f cd] fcs IH]; intros Hl; cbn [promote_all]. { eexists. split; [done|]. split_and!; [done|by intros e ?%elem_of_nil|by intros ? ??? ?%elem_of_nil]. }
  destruct (Hl f cd) as (m & Hne & Hof & Hcd); [by left|]. destruct (promoted_field v11 table f cd m Hcd) as (r & -> & Hr). { intros id v Hv. rewrite Hof in Hv. by destruct (HM _ _ _ Hv) as [[? _] ?]. }
  cbn [mbind option_bind]. destruct r as [cd'|e].
  2:{ eexists. split; [done|]. destruct Hr as (-> & ? & id & v & Hv & ?). split_and!; [done..|]. exists id, f, v. by rewrite <-Hof. }
  destruct IH as (r & -> & Hrest); [intros; apply Hl; by right|]. cbn [mbind option_bind]. destruct r as [data|e]; (eexists; split; [done|]); [|done]. destruct Hr as [Hcd' Hp]. destruct Hrest as (Hn & Hd & Hp').
  cbn [fmap list_fmap name fst]. split_and!; [by rewrite Hn| |].
  - intros e [->|?]%elem_of_cons; [|by apply Hd]. by exists m.
  - intros Hv11 id g v [->|Hg]%elem_of_cons Hv; [|by eapply Hp']. rewrite <-Hof in Hv. by eapply Hp.
Qed.

(** ** Encoding *)

Lemma decoded_present fcs : mapM (λ e : string * option ColumnData, cd ← e.2; Some (e.1, cd)) ((λ p, (p.1, Some p.2)) <$> fcs) = Some fcs.
Proof. induction fcs as [|[f cd] fcs IH]; [done|]. cbn [fmap list_fmap mapM fst snd mbind option_bind]. by rewrite IH. Qed.

(** The packed image is within what a slice can be long. *)
Definition image_fits (s : ColumnStore.t) : Prop := ∀ img, pack ser s [] = Some (Ok img) → len_z img ≤ isize_max.

Lemma encoded n s M T v11 : store_ok hash storable n s M T → n < 2 ^ 32 → Z.of_nat (size M) < 2 ^ 32 → storable_map storable M → names_ok M → fits_store ser s M → image_fits s →
  ∃ r, columnstore_to_data ser de s v11 = Some r ∧ match r with Ok (data, strs) => arch_ok (Some strs) data M ∧ (v11 = false → ¬ holds_v11 M) | Err e => e = v11_error ∧ v11 = false ∧ holds_v11 M end.
Proof.
  intros Hs Hn Hsz HM Hnames Hfit Himg. destruct (decode_image narrow hash ser de codec n s M T Hs Hn Hsz Hnames Hfit) as (img & strs & fcs & Hp & (Hnd & Hall & Hcds) & Ht & Hf). pose proof (Himg img Hp) as Hlen. unfold columnstore_to_data. rewrite Hp. cbn [mbind option_bind].
  assert (decode_all_columns ser de v11 img 0 = Ok (strs, (λ p, (p.1, Some p.2)) <$> fcs, len_z img) ∨ decode_all_columns ser de v11 img 0 = Err v11_error ∧ v11 = false ∧ holds_v11 M) as [->|(-> & ? & ?)].
  - assert (∀ A (r : reader GraphError A) a, reads r img a → r img 0 = Ok (a, len_z img)) as Hread. { intros A r a Hr. pose proof (Hr [] []) as Hnil. rewrite app_nil_r in Hnil. by apply Hnil. }
    destruct v11; [left; by apply Hread|]. destruct Hf as [Hr|[Hr ?]]; [left; by apply Hread|right]. split_and!; [|done|done]. pose proof (Hr [] []) as Hnil. rewrite app_nil_r in Hnil. by apply Hnil.
  - rewrite decoded_present. cbn [mbind option_bind]. pose proof (merge_sort_Permutation by_name fcs) as Hperm. destruct (promoted_all v11 (Some strs) M (merge_sort by_name fcs) HM) as (r & -> & Hr). { intros f cd. rewrite Hperm. apply Hcds. }
    cbn [mbind option_bind]. destruct r as [data|e]; (eexists; split; [done|]); [|done]. destruct Hr as (Hk & Hd & Hv). split; [split_and!|].
    + rewrite Hk, Hperm. done.
    + done.
    + intros id f Hv'. rewrite Hk, Hperm. apply Hall. by exists id.
    + intros Hv11 (id & f & v & Hm & Hval). eapply Hv; [done| |done|done]. rewrite Hperm. apply Hall. exists id. by eexists.
  - by eexists.
Qed.

(** ** Loading *)

Lemma column_written table cd m : cdata_ok de table cd m → NoDup (column_writes de table cd).*1 ∧ ∀ id v, (id, v) ∈ column_writes de table cd ↔ m !! id = Some v.
Proof.
  intros Hcd. assert ((∃ blob, cd = DMixed blob) ∨ column_writes de table cd = omap (λ id, pair id <$> slot_at table cd id) (Bitmap.words_for_each (present_of cd)) ∧
    Forall (in_u 64) (present_of cd) ∧ VisibleSet.small (present_of cd) ∧ VisibleSet.ids_of (present_of cd) = dom m ∧ ∀ id v, m !! id = Some v → slot_at table cd id = Some v) as [[blob ->]|(-> & Hw & Hs & Hids & Hsl)] by (destruct cd; eauto).
  { cbn [cdata_ok] in Hcd. cbn [column_writes]. rewrite Hcd. split; [apply NoDup_fst_map_to_list|]. intros id v. apply elem_of_map_to_list. }
  rewrite Bitmap.words_for_each_bits by done. assert (∀ id, id ∈ VisibleSet.bits (present_of cd) ↔ id ∈ dom m) as Hin by (intros id; rewrite <-Hids; unfold VisibleSet.ids_of; by rewrite elem_of_list_to_set).
  pose proof (sorted_NoDup _ (VisibleSet.sorted_bits _ Hs)) as Hnd. split.
  - assert (∀ l : list Z, NoDup l → NoDup (omap (λ id, pair id <$> slot_at table cd id) l).*1) as Ho; [|by apply Ho]. clear. induction 1 as [|id l Hn _ IH]; [constructor|]. cbn [omap list_omap]. destruct (slot_at table cd id) as [v|]; cbn [fmap option_fmap option_map list_fmap fst]; [|done]. constructor; [|done].
    intros ([id' v'] & -> & (id'' & Hi & (w & _ & [= -> ->])%fmap_Some)%list_elem_of_omap)%list_elem_of_fmap. done.
  - intros id v. rewrite list_elem_of_omap. split.
    + intros (id' & Hi%Hin%elem_of_dom & (w & Hw' & [= -> ->])%fmap_Some). destruct Hi as [u Hu]. rewrite (Hsl id' u Hu) in Hw'. by injection Hw' as ->.
    + intros Hv. exists id. split; [apply Hin, elem_of_dom; by eexists|]. by rewrite (Hsl id v Hv).
Qed.

Lemma loaded table data M : arch_ok table data M → storable_map storable M → Z.of_nat (size M) ≤ 2 ^ 32 → ∃ s, archived_to_columnstore hash de data table = Some s ∧ store_ok hash storable (Z.of_nat (size M)) s M ∅.
Proof.
  intros (Hnd & Hd & Hall) HM Hsz. unfold archived_to_columnstore. set (ws := (λ e, (name e, column_writes de table (col e))) <$> data). assert (ws.*1 = name <$> data) as Hk by (unfold ws; by rewrite <-list_fmap_compose).
  assert (foldl (load_column hash de table) (Some ColumnStore.new) data = write_fields hash (Some ColumnStore.new) ws) as ->. { unfold write_fields, ws. rewrite foldl_fmap. by apply foldl_ext_l. }
  destruct (writes_rebuilt hash storable storable_filler storable_binary 0 ∅ ∅ M HM ltac:(lia) ColumnStore.new ws) as (s & -> & Hs); [apply new_store_ok; [apply storable_filler|apply storable_binary]| |exists s; split; [done|]; by rewrite (right_id_L ∅ (∪)) in Hs]. split_and!.
  - by rewrite Hk.
  - intros f l (e & [= -> ->] & He)%list_elem_of_fmap. destruct (Hd e He) as (m & _ & Hof & Hcd). destruct (column_written table (col e) m Hcd) as [? Hw]. split; [done|]. intros id v. rewrite Hw. by rewrite Hof.
  - intros id f Hv. rewrite Hk. by eapply Hall.
Qed.

(** ** Merging *)

(** The properties without those marked. *)
Definition unmarked (B : Props) (T : Marks) : Props := filter (λ kv, kv.1 ∉ T) B.

Lemma lookup_unmarked B T k : unmarked B T !! k = if decide (k ∈ T) then None else B !! k.
Proof.
  unfold unmarked. case_decide as E.
  - apply map_lookup_filter_None_2. right. intros v _ Hn. by apply Hn.
  - destruct (B !! k) as [v|] eqn:D; [by apply map_lookup_filter_Some_2|apply map_lookup_filter_None_2; by left].
Qed.

Lemma removed_all n T0 ks : ∀ s B, store_ok hash storable n s B T0 → (∀ k, k ∈ ks → in_u 32 k.1) →
  ∃ s', foldl (λ m (k : Z * string), m ← m; snd <$> ColumnStore.remove m k.1 k.2) (Some s) ks = Some s' ∧ store_ok hash storable n s' (unmarked B (list_to_set ks)) T0.
Proof.
  induction ks as [|[id f] ks IH]; intros s B Hs Hks; cbn [foldl].
  - exists s. split; [done|]. replace (unmarked B (list_to_set [])) with B; [done|]. apply map_eq. intros k. rewrite lookup_unmarked, decide_False; [done|]. apply not_elem_of_empty.
  - cbn [mbind option_bind fst snd]. destruct (remove_store hash storable storable_binary n s B T0 id f Hs) as (s1 & -> & Hs1); [apply (Hks (id, f)); by left|]. cbn [fmap option_fmap option_map snd].
    destruct (IH s1 _ Hs1) as (s' & He & Hs'); [intros; apply Hks; by right|]. exists s'. split; [done|]. replace (unmarked B (list_to_set ((id, f) :: ks))) with (unmarked (delete (id, f) B) (list_to_set ks)); [done|].
    apply map_eq. intros k. rewrite !lookup_unmarked, list_to_set_cons. destruct (decide (k = (id, f))) as [->|Hne]; [rewrite lookup_delete_eq; repeat case_decide; set_solver|]. rewrite lookup_delete_ne by done. repeat case_decide; set_solver.
Qed.

Lemma cleared n n' overlay Mo T s B T0 : store_ok hash storable n overlay Mo T → (∀ k, k ∈ T → in_u 32 k.1) → store_ok hash storable n' s B T0 →
  ∃ s', apply_tombstones overlay s = Some s' ∧ store_ok hash storable n' s' (unmarked B T) T0.
Proof.
  intros Ho HT Hs. destruct (st_marks _ _ _ _ _ _ Ho) as (es & Hh & Hm). unfold apply_tombstones. rewrite (map_entries_spec _ es _ Hh). cbn [mbind option_bind]. set (ks := es ≫= λ e : Z * gset string, pair e.1 <$> elements e.2).
  assert (∀ k, k ∈ ks ↔ k ∈ T) as Hk.
  { intros [id f]. rewrite Hm. unfold ks. rewrite list_elem_of_bind. split.
    - intros ([id' fs] & (f' & [= -> ->] & Hf)%list_elem_of_fmap & Hin). cbn [snd] in Hf. exists fs. split; [|by apply elem_of_elements]. apply alookup_Some; [by eapply CowMap.holds_sorted|done].
    - intros (fs & Ha & Hf). exists (id, fs). split; [apply list_elem_of_fmap; exists f; split; [done|by apply elem_of_elements]|]. apply alookup_Some; [by eapply CowMap.holds_sorted|done]. }
  destruct (removed_all n' T0 ks s B Hs) as (s' & He & Hs'); [intros k ?%Hk; by apply HT|]. exists s'. split.
  - rewrite <-He. unfold ks. rewrite foldl_bind. apply foldl_ext_l. intros acc [node fs]. rewrite foldl_fmap_l. done.
  - replace T with (list_to_set ks : Marks); [done|]. apply set_eq. intros k. rewrite elem_of_list_to_set. apply Hk.
Qed.

(** The base under what was written since. *)
Definition layered (Mo : Props) (T : Marks) (B : Props) : Props := Mo ∪ unmarked B T.

Lemma merged n overlay Mo T table data B : store_ok hash storable n overlay Mo T → (∀ k, k ∈ T → in_u 32 k.1) → storable_map storable Mo → arch_ok table data B → storable_map storable B → Z.of_nat (size B) + Z.of_nat (size Mo) ≤ 2 ^ 32 →
  ∃ s, merge_columns hash de data table overlay = Some s ∧ store_ok hash storable (Z.of_nat (size B) + Z.of_nat (size Mo)) s (layered Mo T B) ∅.
Proof.
  intros Ho HT HMo Ha HB Hsz. unfold merge_columns. destruct (loaded table data B Ha HB ltac:(lia)) as (s0 & -> & Hs0). cbn [mbind option_bind]. destruct (cleared n _ overlay Mo T s0 B ∅ Ho HT Hs0) as (s1 & -> & Hs1). cbn [mbind option_bind].
  destruct (to_wire_store hash storable n overlay Mo T Ho) as (W & -> & HW). cbn [mbind option_bind]. unfold apply_overlay. rewrite write_wire.
  destruct (writes_rebuilt hash storable storable_filler storable_binary _ (unmarked B T) ∅ Mo HMo Hsz s1 _ Hs1 (nested_writes Mo W HW)) as (s & -> & Hs). by exists s.
Qed.

End archive.
End ColumnsArchive.
