(* ===== verification/ColumnsView.v ===== *)
(** * The view over columns

    Models [ColumnsView], [ViewColumn], [PropLayer] and [MixedCache] of
    [crates/core-storage/src/v8/seam.rs]: a layer of writes over the columns in memory
    over the archived columns of a snapshot; and, of [crates/core-api/src/db.rs] and
    [v8/encode.rs], what a database does to its properties: writing one, removing one
    (with a tombstone when the snapshot still holds it), and writing a snapshot and
    opening it.  A read may fill the cache of decoded columns, so it returns the view it
    leaves.  [None] is a panic. *)

From S2P Require Import Prelude Order Assoc Bytes Utf8 Types CowVec CowMap CowMapIter HashIndex Pack Float64 ValueOps VisibleSet Bitmap Tagged RangeIndex Columns ColumnsPack.
Open Scope Z_scope.

(** ** The cache of decoded columns *)

Module MixedCache.
Section cache.
Context (de : list Z → result string (gmap Z Value.t)).

Abbreviation t := (gmap string (gmap Z Value.t)).

(** [bincode::deserialize(blob).unwrap_or_default()] *)
Definition decoded (blob : list Z) : gmap Z Value.t := match de blob with Ok m => m | Err _ => ∅ end.

Definition get_or_decode (self : t) (field : string) (blob : list Z) : gmap Z Value.t * t :=
  match self !! field with
  | Some hit => (hit, self)
  | None => (decoded blob, <[field := decoded blob]> self)
  end.

End cache.
End MixedCache.

(** ** A layer of writes *)

Module PropLayer.

Record t := mk {
  nodes : gmap Z (gmap string (option Value.t));
  fields : gset string;
}.

Definition new : t := mk ∅ ∅.

Definition entry (self : t) (node : Z) (field : string) (value : option Value.t) : t :=
  mk (<[node := <[field := value]> (default ∅ (nodes self !! node))]> (nodes self))
     (if decide (field ∈ fields self) then fields self else {[field]} ∪ fields self).

Definition set (self : t) (node : Z) (field : string) (value : Value.t) : t := entry self node field (Some value).
Definition remove (self : t) (node : Z) (field : string) : t := entry self node field None.
Definition remove_all (self : t) (node : Z) : t := mk (delete node (nodes self)) (fields self).

(** [None]: no say; [Some None]: removed. *)
Definition get (self : t) (node : Z) (field : string) : option (option Value.t) := own ← nodes self !! node; own !! field.

End PropLayer.

(** ** The view *)

Module ColumnsView.
Import ColumnsPack.
Section view.
Context (de : list Z → result string (gmap Z Value.t)).

Record t := mk {
  overlay : ColumnStore.t;
  base : option ColumnsData;
  mixed : option (gmap string (gmap Z Value.t));
  strings : option (list string);
  layer : option PropLayer.t;
}.

Definition owned (overlay : ColumnStore.t) : t := mk overlay None None None None.
Definition with_base_cached (overlay : ColumnStore.t) (base : ColumnsData) (mixed : gmap string (gmap Z Value.t)) : t := mk overlay (Some base) (Some mixed) None None.
Definition with_shared_strings (self : t) (strings : option (list string)) : t := mk (overlay self) (base self) (mixed self) strings (layer self).
Definition with_layer (self : t) (tx : PropLayer.t) : t := mk (overlay self) (base self) (mixed self) (strings self) (Some tx).
Definition with_cache (self : t) (cache : gmap string (gmap Z Value.t)) : t := mk (overlay self) (base self) (Some cache) (strings self) (layer self).

(** [base.fields.iter().find(|e| e.name.as_str() == field)] *)
Definition find_field (data : ColumnsData) (field : string) : option FieldEntry := find (λ e, String.eqb (name e) field) data.

Definition base_value (self : t) (field : string) (cd : ColumnData) (id : Z) : option Value.t * t :=
  match cd with
  | DMixed blob =>
      match mixed self with
      | Some cache => let '(m, cache) := MixedCache.get_or_decode de cache field blob in (m !! id, with_cache self cache)
      | None => (match de blob with Ok m => m !! id | Err _ => None end, self)
      end
  | cd => (if bitmap_test (present_of cd) id then slot_at (strings self) cd id else None, self)
  end.

(** The say of the layer. *)
Definition layer_get (self : t) (id : Z) (field : string) : option (option Value.t) := tx ← layer self; PropLayer.get tx id field.

Definition get (self : t) (id : Z) (field : string) : option (option Value.t * t) :=
  match layer_get self id field with
  | Some own => Some (own, self)
  | None =>
      here ← ColumnStore.get (overlay self) id field;
      match here with
      | Some v => Some (Some v, self)
      | None =>
          dead ← ColumnStore.is_tombstoned (overlay self) id field;
          if dead : bool then Some (None, self)
          else
            match base self ≫= λ data, find_field data field with
            | None => Some (None, self)
            | Some entry => Some (base_value self field (col entry) id)
            end
      end
  end.

(** The names a node's fields are looked for under, in order; a name may come twice. *)
Definition candidate_names (self : t) : list string :=
  match layer self with Some tx => elements (PropLayer.fields tx) | None => [] end ++ elements (ColumnStore.fields (overlay self))
  ++ match base self with Some data => name <$> data | None => [] end.

(** One name of the loop. *)
Definition add_prop (id : Z) (acc : option (gmap string Value.t * t)) (field : string) : option (gmap string Value.t * t) :=
  '(out, self) ← acc;
  match out !! field with
  | Some _ => Some (out, self)
  | None => '(v, self) ← get self id field; Some (match v with Some v => <[field := v]> out | None => out end, self)
  end.

Definition props_of (self : t) (id : Z) : option (gmap string Value.t * t) := foldl (add_prop id) (Some (∅, self)) (candidate_names self).

(** The raw floats of a base vector. *)
Definition vector (self : t) (id : Z) (field : string) : option (option (list Z)) :=
  match layer_get self id field with
  | Some _ => Some None
  | None =>
      here ← ColumnStore.get (overlay self) id field;
      match here with
      | Some _ => Some None
      | None =>
          dead ← ColumnStore.is_tombstoned (overlay self) id field;
          if dead : bool then Some None
          else
            Some (data ← base self; entry ← find_field data field;
                  match col entry with
                  | DVector dim data present =>
                      if negb (bitmap_test present id) then None
                      else if dim =? 0 then None
                      else
                        let start := (Z.to_nat id * Z.to_nat dim)%nat in
                        if (length data <? start + Z.to_nat dim)%nat then None else Some (take (Z.to_nat dim) (drop start data))
                  | _ => None
                  end)
      end
  end.

Definition field_names (self : t) : list string :=
  sort_unstable (elements (ColumnStore.fields (overlay self) ∪ match layer self with Some tx => PropLayer.fields tx | None => ∅ end
                           ∪ match base self with Some data => list_to_set (name <$> data) | None => ∅ end : gset string)).

End view.
End ColumnsView.

(** ** A column's handle *)

Module ViewColumn.
Import ColumnsPack ColumnsView.
Section handle.
Context (de : list Z → result string (gmap Z Value.t)).

Inductive BaseColumn := Typed (cd : ColumnData) | Mixed (map : gmap Z Value.t).

Record t := mk {
  view : ColumnsView.t;
  field : string;
  tx : option PropLayer.t;
  overlay : option Column.t * StrIntern.t;
  base : option BaseColumn;
}.

(** [ColumnsView::column]; with the view it leaves *)
Definition column (self : ColumnsView.t) (field : string) : t * ColumnsView.t :=
  let '(base, self') :=
    match ColumnsView.base self ≫= λ data, find_field data field with
    | None => (None, self)
    | Some entry =>
        match col entry with
        | DMixed blob =>
            match ColumnsView.mixed self with
            | Some cache => let '(m, cache) := MixedCache.get_or_decode de cache field blob in (Some (Mixed m), with_cache self cache)
            | None => (Some (Mixed (MixedCache.decoded de blob)), self)
            end
        | cd => (Some (Typed cd), self)
        end
    end in
  let o := ColumnsView.overlay self in
  (mk self' field (ColumnsView.layer self) (ColumnStore.cols o !! field, ColumnStore.intern o) base, self').

(** [ColumnHandle::get] *)
Definition handle_get (h : option Column.t * StrIntern.t) (node : Z) : option (option Value.t) :=
  match h.1 with Some c => Column.get c node h.2 | None => Some None end.

Definition base_get (self : t) (node : Z) : option (option Value.t) :=
  match base self with
  | None => Some None
  | Some b =>
      dead ← ColumnStore.is_tombstoned (ColumnsView.overlay (view self)) node (field self);
      Some (if dead : bool then None else
              match b with
              | Typed cd => (base_value de (view self) (field self) cd node).1
              | Mixed m => m !! node
              end)
  end.

Definition get (self : t) (node : Z) : option (option Value.t) :=
  match tx self ≫= λ tx, PropLayer.get tx node (field self) with
  | Some own => Some own
  | None => here ← handle_get (overlay self) node; match here with Some v => Some (Some v) | None => base_get self node end
  end.

Definition test (self : t) (node : Z) (pred : Value.t → bool) : option bool :=
  match tx self ≫= λ tx, PropLayer.get tx node (field self) with
  | Some own => Some (match own with Some v => pred v | None => false end)
  | None =>
      here ← handle_get (overlay self) node;
      match here with
      | Some v => Some (pred v)
      | None => v ← base_get self node; Some (match v with Some v => pred v | None => false end)
      end
  end.

End handle.
End ViewColumn.

(** ** A database's properties *)

Module PropertyStore.
Import ColumnsPack.
Section store.
Context (hash : string → Z).
Context (ser : gmap Z Value.t → result string (list Z)) (de : list Z → result string (gmap Z Value.t)).

(** An opened snapshot: its columns, its string table (from V9 on), the cache. *)
Record MappedBase := mk_base { columns : ColumnsData; string_table : option (list string); mixed_cache : gmap string (gmap Z Value.t) }.

Record t := mk { props : ColumnStore.t; base : option MappedBase }.

Definition new : t := mk ColumnStore.new None.

(** [build_props_view] *)
Definition build_props_view (self : t) : ColumnsView.t :=
  match base self with
  | None => ColumnsView.owned (props self)
  | Some b => ColumnsView.with_shared_strings (ColumnsView.with_base_cached (props self) (columns b) (mixed_cache b)) (string_table b)
  end.

(** The cache a read leaves behind. *)
Definition keep_cache (self : t) (view : ColumnsView.t) : t :=
  mk (props self) ((λ b, mk_base (columns b) (string_table b) (default (mixed_cache b) (ColumnsView.mixed view))) <$> base self).

Definition get_prop (self : t) (id : Z) (field : string) : option (option Value.t * t) :=
  '(v, view) ← ColumnsView.get de (build_props_view self) id field; Some (v, keep_cache self view).

(** The columns of [WalRecord::SetProp]: the old value is read, the new one written. *)
Definition set_prop (self : t) (id : Z) (field : string) (value : Value.t) : option (option Value.t * t) :=
  '(old, self) ← get_prop self id field;
  props ← ColumnStore.set hash (props self) id field value;
  Some (old, mk props (base self)).

(** The columns of [WalRecord::RemoveProp]. *)
Definition remove_prop (self : t) (id : Z) (field : string) : option (option Value.t * t) :=
  '(old, self) ← get_prop self id field;
  '(_, removed) ← ColumnStore.remove (props self) id field;
  '(still, self) ← get_prop (mk removed (base self)) id field;
  match still with
  | Some _ => marked ← ColumnStore.record_prop_tombstone (props self) id field; Some (old, mk marked (base self))
  | None => Some (old, self)
  end.

(** The columns and strings sections of [encode_v8]. *)
Definition encode_columns (self : t) (v11 : bool) : option (Result (ColumnsData * list string)) :=
  match base self with
  | Some b => columns_merge_to_data hash ser de (columns b) (string_table b) (props self) v11
  | None => columnstore_to_data ser de (props self) v11
  end.

(** Writing a snapshot and opening it ([reset_for_reload], [restore_v8_base]): the new
    base under an empty overlay.  A refused snapshot changes nothing. *)
Definition snapshot (self : t) (v11 : bool) : option (Result t) :=
  r ← encode_columns self v11;
  Some (match r with
        | Ok (data, strings) => Ok (mk ColumnStore.new (Some (mk_base data (Some strings) ∅)))
        | Err e => Err e
        end).

End store.
End PropertyStore.
