(* ===== verification/PropertyView.v ===== *)
(** * What the view over columns shows

    Every way of reading through a view (one value, a node's properties, a column's
    handle, a raw vector) shows the layer's writes over the overlay's over the base's,
    whichever columns the cache holds decoded. *)

From S2P Require Import Prelude Order Assoc Bytes Utf8 Types CowVec CowMap CowMapIter HashIndex Pack Float64 ValueOps VisibleSet Bitmap Tagged RangeIndex Columns ColumnsRep ColumnsStore ColumnsPack ColumnsRoundtrip ColumnsDecode ColumnsImage ColumnsVector ColumnsArchive ColumnsView.
Open Scope Z_scope.

Module PropertyView.
Import ColumnsRep ColumnsStore ColumnsPack ColumnsRoundtrip ColumnsDecode ColumnsImage ColumnsVector ColumnsArchive ColumnsView.ColumnsView.

(** ** Layers *)

(** A layer lists every field it has a say on. *)
Definition layer_ok (tx : PropLayer.t) : Prop := ∀ node f, is_Some (PropLayer.get tx node f) → f ∈ PropLayer.fields tx.

Lemma new_layer_ok : layer_ok PropLayer.new.
Proof. intros node f. unfold PropLayer.get. cbn. rewrite lookup_empty. by intros [? ?]. Qed.

Lemma layer_get_entry tx node f v node' f' : PropLayer.get (PropLayer.entry tx node f v) node' f' = if decide (node' = node ∧ f' = f) then Some v else PropLayer.get tx node' f'.
Proof.
  unfold PropLayer.get, PropLayer.entry. cbn [PropLayer.nodes]. rewrite lookup_insert. repeat case_decide; subst; cbn [mbind option_bind]; try tauto.
  - destruct_and!. subst. by rewrite lookup_insert_eq.
  - rewrite lookup_insert_ne by naive_solver. destruct (PropLayer.nodes tx !! node'); [done|]. apply lookup_empty.
  - naive_solver.
Qed.

Lemma entry_layer_ok tx node f v : layer_ok tx → layer_ok (PropLayer.entry tx node f v).
Proof.
  intros Hok node' f'. rewrite layer_get_entry. assert (∀ g, g = f ∨ g ∈ PropLayer.fields tx → g ∈ PropLayer.fields (PropLayer.entry tx node f v)) as Hin. { intros g. unfold PropLayer.entry. cbn [PropLayer.fields]. case_decide; [|rewrite elem_of_union, elem_of_singleton; tauto]. by intros [->|?]. }
  case_decide as E; intros H; apply Hin; [left; tauto|right]. by eapply Hok.
Qed.

Lemma remove_all_layer_ok tx node : layer_ok tx → layer_ok (PropLayer.remove_all tx node).
Proof.
  intros Hok node' f'. unfold PropLayer.get, PropLayer.remove_all. cbn [PropLayer.nodes PropLayer.fields]. destruct (decide (node' = node)) as [->|Hne]; [rewrite lookup_delete_eq; by intros [? ?]|]. rewrite lookup_delete_ne by done. apply (Hok node').
Qed.

(** The listed names are the candidates', each once and in order. *)
Lemma elem_of_field_names v f : f ∈ field_names v ↔ f ∈ candidate_names v.
Proof.
  unfold field_names, candidate_names. rewrite elem_of_sort, elem_of_elements, !elem_of_union, !elem_of_app, !elem_of_elements. destruct (layer v) as [tx|], (base v) as [data|]; rewrite ?elem_of_elements, ?elem_of_list_to_set, ?elem_of_nil, ?elem_of_empty; tauto.
Qed.

Section view.
Context {slots : SlotCap} (hash : string → Z) (de : list Z → result string (gmap Z Value.t)).

(** Every cached column is its column decoded. *)
Definition cache_ok (data : ColumnsData) (cache : gmap string (gmap Z Value.t)) : Prop :=
  ∀ f m, cache !! f = Some m → ∃ e blob, find_field data f = Some e ∧ col e = DMixed blob ∧ MixedCache.decoded de blob = m.

(** The view's overlay holds [Mo] and the marks [T], its base [B]. *)
Definition view_ok (n : Z) (v : ColumnsView.t) (Mo : Props) (T : Marks) (B : Props) : Prop :=
  store_ok hash storable n (overlay v) Mo T ∧
  match base v with None => B = ∅ | Some data => arch_ok de (strings v) data B ∧ ∀ cache, mixed v = Some cache → cache_ok data cache end.

(** What a read may change of a view: its cache. *)
Definition same_but_cache (v v' : ColumnsView.t) : Prop := v' = v ∨ ∃ cache, v' = with_cache v cache ∧ is_Some (mixed v).

(** ** The base *)

Lemma bitmap_test_spec words id : VisibleSet.small words → 0 ≤ id → bitmap_test words id = bool_decide (id ∈ VisibleSet.ids_of words).
Proof.
  intros Hs Hid. unfold bitmap_test. apply eq_iff_eq_true. rewrite bool_decide_eq_true, VisibleSet.elem_of_ids_of by done. unfold VisibleSet.bit_at, Bitmap.word_of. destruct (words !! Z.to_nat (id / 64)) as [w|]; [|naive_solver].
  assert (∀ x, Z.land x 1 = if Z.odd x then 1 else 0) as Hodd by (intros x; change 1 with (Z.ones 1) at 1; rewrite Z.land_ones by done; apply Zmod_odd).
  rewrite Hodd, <-Z.testbit_odd. destruct (Z.testbit w (id mod 64)) eqn:E; naive_solver.
Qed.

Lemma find_field_Some data f e : find_field data f = Some e → e ∈ data ∧ name e = f.
Proof. intros [Hin Hf%String.eqb_eq]%find_some. split; [by apply list_elem_of_In|done]. Qed.

Lemma find_field_None data f : find_field data f = None → f ∉ name <$> data.
Proof. intros Hn (e & -> & He)%list_elem_of_fmap. pose proof (find_none _ _ Hn e (proj1 (list_elem_of_In _ _) He)) as Hf. cbn in Hf. by rewrite String.eqb_refl in Hf. Qed.

Lemma base_value_spec n v Mo T B data e f m id : view_ok n v Mo T B → base v = Some data → find_field data f = Some e → cdata_ok de (strings v) (col e) m → 0 ≤ id →
  ∃ v', base_value de v f (col e) id = (m !! id, v') ∧ same_but_cache v v' ∧ view_ok n v' Mo T B.
Proof.
  intros Hv Hb Hf Hcd Hid. pose proof Hv as (Hs & Hbase). rewrite Hb in Hbase. destruct Hbase as [Ha Hc].
  assert ((∃ blob, col e = DMixed blob) ∨ base_value de v f (col e) id = (if bitmap_test (present_of (col e)) id then slot_at (strings v) (col e) id else None, v) ∧
    VisibleSet.small (present_of (col e)) ∧ VisibleSet.ids_of (present_of (col e)) = dom m ∧ ∀ id v', m !! id = Some v' → slot_at (strings v) (col e) id = Some v') as [[blob E]|(-> & Hsm & Hids & Hsl)].
  { revert Hcd. destruct (col e); intros Hcd; (left; by eexists) || (right; destruct Hcd as (_ & ? & ? & ?); done). }
  - rewrite E in Hcd |- *. cbn [cdata_ok] in Hcd. cbn [base_value]. assert (MixedCache.decoded de blob = m) as Hdec by (unfold MixedCache.decoded; by rewrite Hcd). destruct (mixed v) as [cache|] eqn:Hm; [|exists v; rewrite Hcd; split_and!; [done|by left|done]].
    unfold MixedCache.get_or_decode. destruct (cache !! f) as [hit|] eqn:Hhit.
    + destruct (Hc cache eq_refl f hit Hhit) as (e' & blob' & Hf' & He' & <-). rewrite Hf in Hf'. injection Hf' as <-. rewrite E in He'. injection He' as <-. rewrite Hdec. eexists. split; [done|]. split; [right; by eexists|].
      split; [done|]. cbn [with_cache base strings mixed]. rewrite Hb. split; [done|]. intros c [= <-]. by apply Hc.
    + rewrite Hdec. eexists. split; [done|]. split; [right; by eexists|]. split; [done|]. cbn [with_cache base strings mixed]. rewrite Hb. split; [done|]. intros c [= <-] g mg. rewrite lookup_insert. case_decide as D; [subst g; intros [= <-]; eauto|by apply Hc].
  - exists v. split; [|split; [by left|done]]. f_equal. rewrite bitmap_test_spec, Hids by done. case_bool_decide as D.
    + apply elem_of_dom in D as [w Hw]. by rewrite (Hsl _ _ Hw).
    + symmetry. by apply not_elem_of_dom.
Qed.

(** ** One value *)

(** What is visible below a layer, and through it. *)
Definition visible (own : option (option Value.t)) (below : option Value.t) : option Value.t := match own with Some o => o | None => below end.

Lemma lookup_layered Mo T B k : layered Mo T B !! k = match Mo !! k with Some v => Some v | None => if decide (k ∈ T) then None else B !! k end.
Proof. unfold layered. rewrite lookup_union, lookup_unmarked. destruct (Mo !! k), (decide (k ∈ T)); try done; by destruct (B !! k). Qed.

Lemma base_find n v Mo T B f : view_ok n v Mo T B →
  match base v ≫= λ data, find_field data f with
  | None => ∀ id, B !! (id, f) = None
  | Some e => ∃ data m, base v = Some data ∧ find_field data f = Some e ∧ column_of B f m ∧ cdata_ok de (strings v) (col e) m
  end.
Proof.
  intros [_ Hb]. destruct (base v) as [data|]; cbn [mbind option_bind]; [|subst; intros id; apply lookup_empty]. destruct Hb as ((_ & Hd & Hall) & _). destruct (find_field data f) as [e|] eqn:E.
  - destruct (find_field_Some data f e E) as [He <-]. destruct (Hd e He) as (m & _ & ? & ?). eauto 10.
  - intros id. destruct (B !! (id, f)) eqn:D; [|done]. destruct (find_field_None data f E). eapply (Hall id). by rewrite D.
Qed.

Lemma view_get n v Mo T B id f : view_ok n v Mo T B → in_u 32 id →
  ∃ v', get de v id f = Some (visible (layer_get v id f) (layered Mo T B !! (id, f)), v') ∧ same_but_cache v v' ∧ view_ok n v' Mo T B.
Proof.
  intros Hv Hid. pose proof Hv as [Hs _]. unfold get. destruct (layer_get v id f) as [own|]; [exists v; split_and!; [done|by left|done]|]. cbn [visible]. rewrite (get_store hash storable n _ Mo T) by done. cbn [mbind option_bind]. rewrite lookup_layered.
  destruct (Mo !! (id, f)) as [w|]; [exists v; split_and!; [done|by left|done]|]. rewrite (marked_store hash storable n _ Mo T) by done. cbn [mbind option_bind]. case_bool_decide; [rewrite decide_True by done; exists v; split_and!; [done|by left|done]|]. rewrite decide_False by done.
  pose proof (base_find n v Mo T B f Hv) as Hb. destruct (base v ≫= _) as [e|].
  - destruct Hb as (data & m & Hb & Hf & Hof & Hcd). destruct (base_value_spec n v Mo T B data e f m id Hv Hb Hf Hcd) as (v' & -> & ? & ?); [apply Hid|]. exists v'. by rewrite Hof.
  - exists v. rewrite Hb. split_and!; [done|by left|done].
Qed.

(** ** The handle of a column *)

(** The base as the handle of a column reads it. *)
Lemma handle_base v f node dead : ColumnStore.is_tombstoned (overlay v) node f = Some dead →
  ViewColumn.base_get de (ViewColumn.column de v f).1 node = Some (if dead then None else match base v ≫= λ data, find_field data f with Some e => (base_value de v f (col e) node).1 | None => None end).
Proof.
  intros Hd. unfold ViewColumn.column. destruct (base v ≫= λ data, find_field data f) as [e|]; [|by destruct dead]. destruct (col e) as [| | | |blob|]; unfold ViewColumn.base_get; cbn [fst ViewColumn.base ViewColumn.view ViewColumn.field].
  1-4, 6: by rewrite Hd.
  cbn [base_value]. destruct (mixed v) as [cache|].
  - destruct (MixedCache.get_or_decode de cache f blob) as [m cache']. cbn [fst ViewColumn.base ViewColumn.view ViewColumn.field with_cache overlay]. by rewrite Hd.
  - cbn [fst ViewColumn.base ViewColumn.view ViewColumn.field]. rewrite Hd. cbn [mbind option_bind]. unfold MixedCache.decoded. by destruct (de blob).
Qed.

(** The handle of a column answers what a lookup answers, node by node, whatever the view
    holds, the tombstones readable. *)
Lemma handle_get_spec v f node : is_Some (ColumnStore.is_tombstoned (overlay v) node f) →
  ViewColumn.get de (ViewColumn.column de v f).1 node = fst <$> get de v node f ∧
  ∀ pred, ViewColumn.test de (ViewColumn.column de v f).1 node pred = (λ r, match r.1 with Some x => pred x | None => false end) <$> get de v node f.
Proof.
  intros [dead Hd]. pose proof (handle_base v f node dead Hd) as Hb.
  assert (∃ b self', (ViewColumn.column de v f).1 = ViewColumn.mk self' f (layer v) (ColumnStore.cols (overlay v) !! f, ColumnStore.intern (overlay v)) b) as (b & self' & E). { unfold ViewColumn.column. lazymatch goal with |- context [let '(_, _) := ?x in _] => destruct x as [b self'] end. by exists b, self'. }
  rewrite E in Hb |- *. unfold ViewColumn.get, ViewColumn.test, get. cbn [ViewColumn.tx ViewColumn.field ViewColumn.overlay]. change (layer v ≫= λ tx, PropLayer.get tx node f) with (layer_get v node f).
  destruct (layer_get v node f) as [own|]; [done|]. unfold ViewColumn.handle_get. cbn [fst snd]. change (match ColumnStore.cols (overlay v) !! f with Some c => Column.get c node (ColumnStore.intern (overlay v)) | None => Some None end) with (ColumnStore.get (overlay v) node f).
  destruct (ColumnStore.get (overlay v) node f) as [[x|]|]; cbn [mbind option_bind]; [done| |done]. rewrite Hb, Hd. cbn [mbind option_bind]. destruct dead; [done|]. by destruct (base v ≫= λ data, find_field data f).
Qed.

(** ** A node's properties *)


Definition view_layer_ok (v : ColumnsView.t) : Prop := ∀ tx, layer v = Some tx → layer_ok tx.

Lemma names_below n v Mo T B id f : view_ok n v Mo T B → is_Some (layered Mo T B !! (id, f)) → f ∈ elements (ColumnStore.fields (overlay v)) ++ match base v with Some data => name <$> data | None => [] end.
Proof.
  intros [Hs Hb]. rewrite lookup_layered, elem_of_app, elem_of_elements, (fields_store hash storable n _ Mo T) by done. destruct (Mo !! (id, f)) as [x|] eqn:E; [intros _; left; exists id; by rewrite E|]. case_decide; [by intros [? ?]|]. intros Hv. right.
  destruct (base v) as [data|]; [|subst; rewrite lookup_empty in Hv; by destruct Hv]. destruct Hb as ((_ & _ & Hall) & _). by eapply Hall.
Qed.

Lemma names_cover n v Mo T B id f : view_ok n v Mo T B → view_layer_ok v → is_Some (visible (layer_get v id f) (layered Mo T B !! (id, f))) → f ∈ candidate_names v.
Proof.
  intros Hv Hl Hvis. unfold candidate_names. rewrite elem_of_app. unfold layer_get, view_layer_ok in *. destruct (layer v) as [tx|]; cbn [mbind option_bind] in Hvis; [|right; by eapply names_below].
  destruct (PropLayer.get tx id f) as [own|] eqn:E; [|right; by eapply names_below]. left. apply elem_of_elements. eapply (Hl tx eq_refl id). by rewrite E.
Qed.

Lemma same_layer v v' id f : same_but_cache v v' → layer_get v' id f = layer_get v id f.
Proof. by intros [->|(cache & -> & _)]. Qed.

Lemma props_of_spec n v Mo T B id : view_ok n v Mo T B → view_layer_ok v → in_u 32 id →
  ∃ out v', props_of de v id = Some (out, v') ∧ view_ok n v' Mo T B ∧ ∀ f, out !! f = visible (layer_get v id f) (layered Mo T B !! (id, f)).
Proof.
  intros Hv Hl Hid. set (shown f := visible (layer_get v id f) (layered Mo T B !! (id, f))). unfold props_of.
  assert (∀ l (out : gmap string Value.t) w, view_ok n w Mo T B → (∀ f, layer_get w id f = layer_get v id f) → (∀ f x, out !! f = Some x → shown f = Some x) →
    ∃ out' w', foldl (add_prop de id) (Some (out, w)) l = Some (out', w') ∧
      view_ok n w' Mo T B ∧ (∀ f x, out' !! f = Some x → shown f = Some x) ∧ (∀ f, f ∈ l → out' !! f = shown f) ∧ ∀ f x, out !! f = Some x → out' !! f = Some x) as Hloop.
  { induction l as [|f l IH]; intros out w Hw Hsame Hout; cbn [foldl]. { exists out, w. split_and!; [done|done|done|by intros f ?%elem_of_nil|done]. }
    unfold add_prop at 2. cbn [mbind option_bind]. destruct (out !! f) as [x|] eqn:E.
    - destruct (IH out w Hw Hsame Hout) as (out' & w' & -> & Hw' & Ho & Hin & Hk). exists out', w'. split_and!; [done|done|done| |done]. intros g [->|?]%elem_of_cons; [|by apply Hin]. by rewrite (Hk f x E), (Hout f x E).
    - destruct (view_get n w Mo T B id f Hw Hid) as (w1 & -> & Hc & Hw1). rewrite Hsame. change (visible (layer_get v id f) (layered Mo T B !! (id, f))) with (shown f). cbn [mbind option_bind].
      assert (∀ g, layer_get w1 id g = layer_get v id g) as Hsame1 by (intros g; rewrite (same_layer w w1 id g Hc); apply Hsame).
      destruct (shown f) as [x|] eqn:Hsh.
      + destruct (IH (<[f := x]> out) w1 Hw1 Hsame1) as (out' & w' & -> & Hw' & Ho & Hin & Hk); [intros g y; rewrite lookup_insert; case_decide; [subst; by intros [= <-]|apply Hout]|]. exists out', w'. split_and!; [done|done|done| |].
        * intros g [->|?]%elem_of_cons; [|by apply Hin]. rewrite Hsh. apply Hk, lookup_insert_eq.
        * intros g y Hg. apply Hk. rewrite lookup_insert_ne; [done|]. intros ->. congruence.
      + destruct (IH out w1 Hw1 Hsame1 Hout) as (out' & w' & -> & Hw' & Ho & Hin & Hk). exists out', w'. split_and!; [done|done|done| |done]. intros g [->|?]%elem_of_cons; [|by apply Hin]. rewrite Hsh. destruct (out' !! f) as [y|] eqn:D; [|done]. by rewrite (Ho f y D) in Hsh. }
  destruct (Hloop (candidate_names v) ∅ v Hv) as (out & v' & -> & Hv' & Ho & Hin & _); [done|intros f x; by rewrite lookup_empty|]. exists out, v'. split_and!; [done|done|]. intros f. fold (shown f). destruct (decide (f ∈ candidate_names v)) as [?|Hn]; [by apply Hin|].
  destruct (shown f) as [x|] eqn:E; [destruct Hn; eapply (names_cover n v Mo T B id); [done|done|]; fold (shown f); by rewrite E|]. destruct (out !! f) as [y|] eqn:D; [|done]. by rewrite (Ho f y D) in E.
Qed.

(** ** Raw vectors *)

Lemma vector_spec n v Mo T B id f fs : view_ok n v Mo T B → in_u 32 id → vector v id f = Some (Some fs) → layer_get v id f = None ∧ layered Mo T B !! (id, f) = Some (Value.List (Value.Float <$> fs)).
Proof.
  intros Hv Hid. pose proof Hv as [Hs _]. unfold vector. destruct (layer_get v id f) as [own|]; [done|]. rewrite (get_store hash storable n _ Mo T) by done. cbn [mbind option_bind]. rewrite lookup_layered. destruct (Mo !! (id, f)); [done|]. rewrite (marked_store hash storable n _ Mo T) by done. cbn [mbind option_bind].
  case_bool_decide; [done|]. rewrite decide_False by done. intros [= Hvec]. split; [done|]. pose proof (base_find n v Mo T B f Hv) as Hb. destruct (base v) as [data|]; [|done]. cbn [mbind option_bind] in Hvec, Hb. destruct (find_field data f) as [e|]; [|done]. cbn [mbind option_bind] in Hvec.
  destruct Hb as (_ & m & _ & _ & Hof & Hcd). destruct (col e) as [| | | | |dim vals present]; try done. destruct Hcd as (_ & Hsm & Hids & Hsl). cbn [present_of] in *. rewrite bitmap_test_spec, Hids in Hvec by (done || apply Hid). case_bool_decide as D; [|done]. cbn [negb] in Hvec. destruct (dim =? 0); [done|].
  apply elem_of_dom in D as [x Hx]. rewrite <-Hof, Hx. specialize (Hsl id x Hx). cbn [slot_at] in Hsl. unfold vector_at in Hsl. destruct (_ <? _)%nat; [done|]. injection Hvec as <-. by injection Hsl as <-.
Qed.

End view.
End PropertyView.
