(* ===== verification/BitCodec.v ===== *)
(** * A concrete codec of node-to-value maps

    The snapshot's theorems take the serializer as a parameter; this one, a list of bits
    of the map's entries as trees, is an instance of what they ask of it. *)

From Stdlib Require Import Init.Byte.
From S2P Require Import Prelude Order Assoc Bytes Utf8 Types CowVec CowMap CowMapIter HashIndex Pack Float64 ValueOps VisibleSet Bitmap Tagged RangeIndex Columns ColumnsRep ColumnsStore ColumnsPack ColumnsRoundtrip.
Open Scope Z_scope.

Module BitCodec.

Abbreviation tree := (gen_tree (Z + string)).
Definition num (z : Z) : tree := GenLeaf (inl z).
Definition text (s : string) : tree := GenLeaf (inr s).

Fixpoint to_tree (v : Value.t) : tree :=
  match v with
  | Value.Int z => GenNode 0 [num z]
  | Value.Float b => GenNode 1 [num b]
  | Value.Str s => GenNode 2 [text s]
  | Value.Bool b => GenNode 3 [num (if b then 1 else 0)]
  | Value.List l => GenNode 4 (to_tree <$> l)
  | Value.Map m => GenNode 5 ((λ kv, GenNode 0 [text kv.1; to_tree kv.2]) <$> m)
  | Value.Date d => GenNode 6 [num d]
  | Value.LocalDateTime u => GenNode 7 [num u]
  | Value.DateTime u o => GenNode 8 [num u; num o]
  | Value.Duration m d n => GenNode 9 [num m; num d; num n]
  | Value.Binary b => GenNode 10 (num <$> Tagged.u8s b)
  | Value.Null => GenNode 11 []
  end.

Definition leaf_num (t : tree) : Z := match t with GenLeaf (inl z) => z | _ => 0 end.

Fixpoint of_tree (t : tree) : Value.t :=
  match t with
  | GenNode 0 [GenLeaf (inl z)] => Value.Int z
  | GenNode 1 [GenLeaf (inl b)] => Value.Float b
  | GenNode 2 [GenLeaf (inr s)] => Value.Str s
  | GenNode 3 [GenLeaf (inl b)] => Value.Bool (b =? 1)
  | GenNode 4 l => Value.List (of_tree <$> l)
  | GenNode 5 m => Value.Map ((λ t, match t with GenNode 0 [GenLeaf (inr k); v] => (k, of_tree v) | _ => ("", Value.Null) end) <$> m)
  | GenNode 6 [GenLeaf (inl d)] => Value.Date d
  | GenNode 7 [GenLeaf (inl u)] => Value.LocalDateTime u
  | GenNode 8 [GenLeaf (inl u); GenLeaf (inl o)] => Value.DateTime u o
  | GenNode 9 [GenLeaf (inl m); GenLeaf (inl d); GenLeaf (inl n)] => Value.Duration m d n
  | GenNode 10 l => Value.Binary (Tagged.of_u8s (leaf_num <$> l))
  | _ => Value.Null
  end.

Lemma of_to_tree v : of_tree (to_tree v) = v.
Proof.
  induction v as [| | |b|l IH|m IH| | | | |b|] using Value.value_ind; cbn [to_tree of_tree]; try done.
  - by destruct b.
  - f_equal. induction IH as [|x l Hx _ IH']; [done|]. cbn [fmap list_fmap]. by rewrite Hx, IH'.
  - f_equal. induction IH as [|[k x] m Hx _ IH']; [done|]. cbn [fmap list_fmap fst snd] in *. by rewrite Hx, IH'.
  - f_equal. rewrite <-(Tagged.of_u8s_u8s b) at 2. f_equal. generalize (Tagged.u8s b) as l. induction l as [|z l IH]; [done|]. cbn [fmap list_fmap leaf_num num]. by rewrite IH.
Qed.

(** The bits of a number, lowest first. *)
Fixpoint bits (p : positive) : list Z := match p with xH => [] | xO p => 0 :: bits p | xI p => 1 :: bits p end.
Fixpoint unbits (l : list Z) : positive := match l with [] => xH | b :: l => if b =? 0 then xO (unbits l) else xI (unbits l) end.

Lemma unbits_bits p : unbits (bits p) = p.
Proof. induction p as [p IH|p IH|]; cbn; by rewrite ?IH. Qed.

Definition ser (m : gmap Z Value.t) : result string (list Z) := Ok (bits (encode ((λ e, (e.1, to_tree e.2)) <$> map_to_list m))).
Definition de (blob : list Z) : result string (gmap Z Value.t) :=
  match decode (unbits blob) with Some es => Ok (list_to_map ((λ e : Z * tree, (e.1, of_tree e.2)) <$> es)) | None => Err "blob" end.

Lemma bit_codec_ok : ColumnsRoundtrip.codec_ok ser de.
Proof.
  intros m _. eexists. split; [done|]. unfold de. rewrite unbits_bits, decode_encode. f_equal. rewrite <-list_fmap_compose. rewrite <-(list_to_map_to_list m) at 2. f_equal. rewrite <-(list_fmap_id (map_to_list m)) at 2. apply list_fmap_ext. intros i [k v] _. cbn. by rewrite of_to_tree.
Qed.

End BitCodec.
