(* ===== verification/PropertyRefine.v ===== *)
(** * A database's properties are a map

    Writes, removals, reads and snapshots in any order: through the view the properties
    are those of one finite map, which a snapshot leaves as it is. *)

From Stdlib Require Import Init.Byte.
From S2P Require Import Prelude Order Assoc Bytes Utf8 Types CowVec CowMap CowMapIter HashIndex Pack Float64 ValueOps VisibleSet Bitmap Tagged RangeIndex Columns ColumnsRep ColumnsStore ColumnsPack ColumnsRoundtrip ColumnsDecode ColumnsImage ColumnsVector ColumnsArchive ColumnsView PropertyView BitCodec.
Open Scope Z_scope.

#[local] Existing Instance ColumnsImage.packed_slots.

Module PropertyRefine.
Import ColumnsRep ColumnsStore ColumnsPack ColumnsRoundtrip ColumnsDecode ColumnsImage ColumnsVector ColumnsArchive PropertyView ColumnsView.PropertyStore.

(** ** Sequences of operations *)

Inductive op :=
| PSet (id : Z) (field : string) (value : Value.t)
| PRemove (id : Z) (field : string)
| PRead (id : Z) (field : string)
| PSnapshot (v11 : bool).

Inductive outcome := OValue (v : option Value.t) | ODone | ORefused (e : GraphError).

Section run.
Context (hash : string → Z) (ser : gmap Z Value.t → result string (list Z)) (de : list Z → result string (gmap Z Value.t)).

Definition value_of (r : option Value.t * PropertyStore.t) : outcome * PropertyStore.t := (OValue r.1, r.2).

Definition step (st : PropertyStore.t) (o : op) : option (outcome * PropertyStore.t) :=
  match o with
  | PSet id f v => value_of <$> set_prop hash de st id f v
  | PRemove id f => value_of <$> remove_prop de st id f
  | PRead id f => value_of <$> get_prop de st id f
  | PSnapshot v11 => r ← snapshot hash ser de st v11; Some (match r with Ok st' => (ODone, st') | Err e => (ORefused e, st) end)
  end.

Fixpoint run (st : PropertyStore.t) (ops : list op) : option (list outcome * PropertyStore.t) :=
  match ops with
  | [] => Some ([], st)
  | o :: ops => '(out, st) ← step st o; '(outs, st) ← run st ops; Some (out :: outs, st)
  end.

(** The store a snapshot packs. *)
Definition store_of (st : PropertyStore.t) : option ColumnStore.t :=
  match PropertyStore.base st with
  | Some b => merge_columns hash de (columns b) (string_table b) (props st)
  | None => Some (props st)
  end.

(** The snapshot's lengths are within the 32 bits they are written in and the image
    within what a slice can be long. *)
Definition fits_now (st : PropertyStore.t) : bool :=
  match store_of st with
  | Some s => columns_fit ser s && match pack ser s [] with Some (Ok img) => len_z img <=? isize_max | _ => true end
  | None => true
  end.

(** Every snapshot of a run fits. *)
Fixpoint roomy (st : PropertyStore.t) (ops : list op) : bool :=
  match ops with
  | [] => true
  | o :: ops => match o with PSnapshot _ => fits_now st | _ => true end && match step st o with Some (_, st) => roomy st ops | None => true end
  end.

End run.

(** The map the operations describe. *)
Definition holds_v11b (P : Props) : bool := existsb (λ kv, bool_decide (v11_value kv.2)) (map_to_list P).

Definition spec_step (P : Props) (o : op) : outcome * Props :=
  match o with
  | PSet id f v => (OValue (P !! (id, f)), <[(id, f) := v]> P)
  | PRemove id f => (OValue (P !! (id, f)), delete (id, f) P)
  | PRead id f => (OValue (P !! (id, f)), P)
  | PSnapshot v11 => (if negb v11 && holds_v11b P then ORefused v11_error else ODone, P)
  end.

Fixpoint spec_run (P : Props) (ops : list op) : list outcome * Props :=
  match ops with
  | [] => ([], P)
  | o :: ops => let '(out, P) := spec_step P o in let '(outs, P) := spec_run P ops in (out :: outs, P)
  end.

Definition op_ok (o : op) : Prop :=
  match o with PSet id f v => (in_u 32 id ∧ id < cap) ∧ text_ok f ∧ storable v | PRemove id _ | PRead id _ => in_u 32 id | PSnapshot _ => True end.

(** ** The invariant *)

Section refine.
Context (hash : string → Z) (ser : gmap Z Value.t → result string (list Z)) (de : list Z → result string (gmap Z Value.t)).
Context (codec : codec_ok ser de).

(** What the map of one part of the store satisfies. *)
Definition part_ok (M : Props) : Prop := storable_map storable M ∧ names_ok M.

Lemma part_ok_insert M id f v : part_ok M → (in_u 32 id ∧ id < cap) → text_ok f → storable v → part_ok (<[(id, f) := v]> M).
Proof. intros [H1 H2] Hid Hf Hv. split; intros id' f' v'; rewrite lookup_insert; (case_decide as E; [intros [= <-]; by simplify_eq|]); [apply H1|apply H2]. Qed.

Lemma part_ok_sub M N : part_ok M → N ⊆ M → part_ok N.
Proof. intros [H1 H2] Hsub. split; intros id f v Hv; [eapply H1|eapply H2]; by eapply lookup_weaken. Qed.

Record parts_ok (n : Z) (st : PropertyStore.t) (Mo : Props) (T : Marks) (B : Props) (no : Z) : Prop := {
  po_view : view_ok hash de no (build_props_view st) Mo T B;
  po_room : Z.of_nat (size B) + no ≤ n ∧ Z.of_nat (size Mo) ≤ no;
  po_overlay : part_ok Mo;
  po_base : part_ok B;
  po_marks : ∀ k, k ∈ T → in_u 32 k.1;
}.

Definition inv (n : Z) (st : PropertyStore.t) (P : Props) : Prop := ∃ Mo T B no, parts_ok n st Mo T B no ∧ P = layered Mo T B.

Lemma kept_view st v' : same_but_cache (build_props_view st) v' → build_props_view (keep_cache st v') = v' ∧ props (keep_cache st v') = props st.
Proof. unfold build_props_view, keep_cache. destruct st as [s [b|]]; cbn [PropertyStore.base props fmap option_fmap option_map]; intros [->|(cache & -> & Hm)]; try done. by destruct Hm. Qed.

Lemma read_parts n st Mo T B no id f : parts_ok n st Mo T B no → in_u 32 id → ∃ st', get_prop de st id f = Some (layered Mo T B !! (id, f), st') ∧ parts_ok n st' Mo T B no ∧ props st' = props st.
Proof.
  intros Hp Hid. destruct (view_get hash de no _ Mo T B id f (po_view _ _ _ _ _ _ Hp) Hid) as (v' & Hg & Hc & Hv). unfold get_prop. rewrite Hg. cbn [mbind option_bind]. assert (ColumnsView.layer_get (build_props_view st) id f = None) as -> by (unfold build_props_view; by destruct (PropertyStore.base st)). cbn [visible].
  destruct (kept_view st v' Hc) as [E1 E2]. eexists. split; [done|]. split; [|done]. destruct Hp as [? ? ? ? ?]. split; [by rewrite E1|done..].
Qed.

(** The overlay of a store replaced. *)
Lemma overlay_parts n n' st Mo T B no s' Mo' T' no' : parts_ok n st Mo T B no → store_ok hash storable no' s' Mo' T' → Z.of_nat (size B) + no' ≤ n' → Z.of_nat (size Mo') ≤ no' → part_ok Mo' → (∀ k, k ∈ T' → in_u 32 k.1) →
  parts_ok n' (PropertyStore.mk s' (PropertyStore.base st)) Mo' T' B no'.
Proof.
  intros [[Hs Hb] _ _ HB _] Hs' H1 H2 H3 H4. split; [|done..]. unfold view_ok, build_props_view in *. cbn [PropertyStore.base props]. destruct (PropertyStore.base st); done.
Qed.

Lemma layered_insert Mo T B k v : layered (<[k := v]> Mo) T B = <[k := v]> (layered Mo T B).
Proof. unfold layered. by rewrite insert_union_l. Qed.

Lemma layered_delete Mo T B k : layered (delete k Mo) T B !! k = None → layered (delete k Mo) T B = delete k (layered Mo T B).
Proof.
  intros Hn. apply map_eq. intros j. destruct (decide (j = k)) as [->|Hne]; [by rewrite lookup_delete_eq|]. rewrite lookup_delete_ne by done. rewrite !lookup_layered. by rewrite lookup_delete_ne.
Qed.

Lemma layered_mark Mo T B k : layered (delete k Mo) ({[k]} ∪ T) B = delete k (layered Mo T B).
Proof.
  apply map_eq. intros j. rewrite lookup_layered. destruct (decide (j = k)) as [->|Hne].
  - rewrite !lookup_delete_eq, decide_True by set_solver. done.
  - rewrite !lookup_delete_ne by done. rewrite lookup_layered. destruct (Mo !! j); [done|]. by destruct (decide (j ∈ T)), (decide (j ∈ {[k]} ∪ T)); set_solver.
Qed.

(** ** Every operation *)

Lemma set_inv n st P id f v : inv n st P → n < 2 ^ 32 → op_ok (PSet id f v) → ∃ st', set_prop hash de st id f v = Some (P !! (id, f), st') ∧ inv (n + 1) st' (<[(id, f) := v]> P).
Proof.
  intros (Mo & T & B & no & Hp & ->) Hn (Hid & Hf & Hv). pose proof (po_room _ _ _ _ _ _ Hp) as [Hr1 Hr2]. unfold set_prop. destruct (read_parts n st Mo T B no id f Hp) as (st1 & -> & Hp1 & _); [apply Hid|]. cbn [mbind option_bind].
  pose proof (po_view _ _ _ _ _ _ Hp1) as [Hs _]. assert (ColumnsView.overlay (build_props_view st1) = props st1) as E by (unfold build_props_view; by destruct (PropertyStore.base st1)). rewrite E in Hs.
  destruct (set_store hash storable storable_filler storable_binary no (props st1) Mo T id f v Hs) as (s' & -> & Hs'); [lia|apply Hid|apply Hid|done|]. cbn [mbind option_bind]. eexists. split; [done|].
  exists (<[(id, f) := v]> Mo), T, B, (no + 1). split; [|by rewrite layered_insert]. eapply overlay_parts; [done|done|lia| |apply part_ok_insert; [apply (po_overlay _ _ _ _ _ _ Hp)|done..]|apply (po_marks _ _ _ _ _ _ Hp)].
  pose proof (map_size_insert (M := gmap (Z * string)) (id, f) v Mo) as Hz. rewrite Hz. destruct (Mo !! (id, f)); cbn; lia.
Qed.

Lemma remove_inv n st P id f : inv n st P → n < 2 ^ 32 → in_u 32 id → ∃ st', remove_prop de st id f = Some (P !! (id, f), st') ∧ inv (n + 1) st' (delete (id, f) P).
Proof.
  intros (Mo & T & B & no & Hp & ->) Hn Hid. pose proof (po_room _ _ _ _ _ _ Hp) as [Hr1 Hr2]. unfold remove_prop. destruct (read_parts n st Mo T B no id f Hp Hid) as (st1 & -> & Hp1 & _). cbn [mbind option_bind].
  assert (∀ st0, ColumnsView.overlay (build_props_view st0) = props st0) as E by (intros st0; unfold build_props_view; by destruct (PropertyStore.base st0)). pose proof (po_view _ _ _ _ _ _ Hp1) as [Hs _]. rewrite E in Hs.
  destruct (remove_store hash storable storable_binary no (props st1) Mo T id f Hs Hid) as (s2 & -> & Hs2). cbn [mbind option_bind]. pose proof (map_subseteq_size _ _ (delete_subseteq Mo (id, f))) as Hsz.
  assert (part_ok (delete (id, f) Mo)) as Hpd by (eapply part_ok_sub; [apply (po_overlay _ _ _ _ _ _ Hp)|apply delete_subseteq]).
  assert (parts_ok n (PropertyStore.mk s2 (PropertyStore.base st1)) (delete (id, f) Mo) T B no) as Hp2 by (eapply overlay_parts; [done|done|done|lia|done|apply (po_marks _ _ _ _ _ _ Hp)]).
  destruct (read_parts n _ _ T B no id f Hp2 Hid) as (st3 & -> & Hp3 & E3). cbn [mbind option_bind]. destruct (layered (delete (id, f) Mo) T B !! (id, f)) as [w|] eqn:Hw.
  - rewrite E3. cbn [props]. destruct (mark_store hash storable storable_filler storable_binary no s2 (delete (id, f) Mo) T id f Hs2) as (s4 & -> & Hs4); [lia|]. cbn [mbind option_bind]. eexists. split; [done|]. exists (delete (id, f) Mo), ({[(id, f)]} ∪ T), B, (no + 1). split; [|by rewrite layered_mark].
    eapply overlay_parts; [done|done|lia|lia|done|]. intros k [->%elem_of_singleton|Hk]%elem_of_union; [done|]. by apply (po_marks _ _ _ _ _ _ Hp).
  - eexists. split; [done|]. exists (delete (id, f) Mo), T, B, no. split; [|by rewrite layered_delete]. destruct Hp3 as [? ? ? ? ?]. split; [done|lia|done..].
Qed.

(** ** Snapshots *)

Lemma layered_size Mo T B : (size (layered Mo T B) ≤ size Mo + size B)%nat.
Proof.
  unfold layered. rewrite <-!size_dom, dom_union_L, size_union_alt. assert (dom (unmarked B T) ∖ dom Mo ⊆ dom B) as Hs; [|apply subseteq_size in Hs; lia]. intros k [Hk _]%elem_of_difference. eapply subseteq_dom; [|exact Hk]. apply map_filter_subseteq.
Qed.

Lemma layered_part Mo T B : part_ok Mo → part_ok B → part_ok (layered Mo T B).
Proof.
  intros [H1 H2] [H3 H4]. split; intros id f v; rewrite lookup_layered; (destruct (Mo !! (id, f)) eqn:E; [intros [= <-]|case_decide; [done|]]); eauto.
Qed.

(** What is packed holds the properties the view shows. *)
Lemma store_packed n st P : inv n st P → n < 2 ^ 32 → ∃ s n' T', store_of hash de st = Some s ∧ store_ok hash storable n' s P T' ∧ n' < 2 ^ 32 ∧ ∀ v11, encode_columns hash ser de st v11 = columnstore_to_data ser de s v11.
Proof.
  intros (Mo & T & B & no & Hp & ->) Hn. pose proof (po_room _ _ _ _ _ _ Hp) as [Hr1 Hr2]. destruct (po_view _ _ _ _ _ _ Hp) as [Hs Hb]. unfold store_of, encode_columns. unfold build_props_view in *. destruct (PropertyStore.base st) as [b|].
  - destruct Hb as [Ha _]. destruct (merged packed_narrow hash ser de codec no (props st) Mo T (string_table b) (columns b) B Hs (po_marks _ _ _ _ _ _ Hp) (proj1 (po_overlay _ _ _ _ _ _ Hp)) Ha (proj1 (po_base _ _ _ _ _ _ Hp))) as (s & E & Hok); [lia|].
    exists s, (Z.of_nat (size B) + Z.of_nat (size Mo)), ∅. split_and!; [done|done|lia|]. intros v11. unfold columns_merge_to_data. by rewrite E.
  - cbn in Hb. subst B. exists (props st), no, T. split_and!; [done| |lia|done]. replace (layered Mo T ∅) with Mo; [done|]. apply map_eq. intros k. rewrite lookup_layered, lookup_empty. destruct (Mo !! k), (decide (k ∈ T)); done.
Qed.

Lemma snapshot_inv n st P v11 : inv n st P → n < 2 ^ 32 → fits_now hash ser de st = true →
  ∃ r, snapshot hash ser de st v11 = Some r ∧ match r with Ok st' => inv n st' P ∧ (v11 = false → ¬ holds_v11 P) | Err e => e = v11_error ∧ v11 = false ∧ holds_v11 P end.
Proof.
  intros Hi Hn Hf. destruct (store_packed n st P Hi Hn) as (s & n' & T' & Hst & Hs & Hn' & Henc). unfold fits_now in Hf. rewrite Hst in Hf. apply andb_true_iff in Hf as [Hf1 Hf2]. destruct Hi as (Mo & T & B & no & Hp & ->). pose proof (po_room _ _ _ _ _ _ Hp) as [Hr1 Hr2].
  pose proof (layered_part Mo T B (po_overlay _ _ _ _ _ _ Hp) (po_base _ _ _ _ _ _ Hp)) as HP. pose proof (layered_size Mo T B) as Hsz.
  destruct (encoded packed_narrow hash ser de codec n' s (layered Mo T B) T' v11 Hs Hn') as (r & He & Hr); [lia|apply HP|apply HP|by eapply store_fits|intros img Hi; rewrite Hi in Hf2; lia|].
  unfold snapshot. rewrite Henc, He. cbn [mbind option_bind]. destruct r as [[data strs]|e]; (eexists; split; [done|]); [|done]. destruct Hr as [Ha Hv]. split; [|done]. exists ∅, ∅, (layered Mo T B), 0. split.
  - split; [|rewrite map_size_empty; lia|split; by intros ??? Hk; rewrite lookup_empty in Hk|done|by intros k ?%not_elem_of_empty]. split; [apply new_store_ok; [apply storable_filler|apply storable_binary]|]. cbn. split; [done|]. intros cache [= <-] g m Hg. by rewrite lookup_empty in Hg.
  - apply map_eq. intros k. rewrite (lookup_layered ∅ ∅), lookup_empty, decide_False by apply not_elem_of_empty. done.
Qed.

Lemma holds_v11b_spec P : holds_v11b P = true ↔ holds_v11 P.
Proof.
  unfold holds_v11b. rewrite existsb_exists. split.
  - intros ([[id f] v] & Hin%list_elem_of_In%elem_of_map_to_list & Hv%bool_decide_eq_true). by exists id, f, v.
  - intros (id & f & v & Hm & Hv). exists ((id, f), v). split; [apply list_elem_of_In; by apply elem_of_map_to_list|]. by apply bool_decide_eq_true.
Qed.

Lemma inv_weaken n n' st P : inv n st P → n ≤ n' → inv n' st P.
Proof. intros (Mo & T & B & no & [? ? ? ? ?] & ->) Hle. exists Mo, T, B, no. split; [|done]. split; [done|lia|done..]. Qed.

Lemma step_inv n st P o : inv n st P → n < 2 ^ 32 → op_ok o → match o with PSnapshot _ => fits_now hash ser de st | _ => true end = true →
  ∃ st', step hash ser de st o = Some ((spec_step P o).1, st') ∧ inv (n + 1) st' (spec_step P o).2.
Proof.
  intros Hi Hn Ho Hf. destruct o as [id f v|id f|id f|v11]; cbn [spec_step step fst snd].
  - destruct (set_inv n st P id f v Hi Hn Ho) as (st' & -> & ?). by exists st'.
  - destruct (remove_inv n st P id f Hi Hn Ho) as (st' & -> & ?). by exists st'.
  - destruct Hi as (Mo & T & B & no & Hp & ->). destruct (read_parts n st Mo T B no id f Hp Ho) as (st' & -> & Hp' & _). exists st'. split; [done|]. apply (inv_weaken n); [|lia]. by exists Mo, T, B, no.
  - destruct (snapshot_inv n st P v11 Hi Hn Hf) as (r & -> & Hr). cbn [mbind option_bind]. pose proof (holds_v11b_spec P) as Hv. destruct r as [st'|e].
    + exists st'. destruct Hr as [Hi' Hno]. split; [|apply (inv_weaken n); [done|lia]]. do 2 f_equal. destruct v11; [done|]. cbn [negb andb]. destruct (holds_v11b P); [|done]. destruct (Hno eq_refl). by apply Hv.
    + exists st. destruct Hr as (-> & -> & Hy). split; [|apply (inv_weaken n); [done|lia]]. cbn [negb andb]. by rewrite (proj2 Hv Hy).
Qed.

Lemma run_inv ops : ∀ n st P, inv n st P → n + Z.of_nat (length ops) ≤ 2 ^ 32 → Forall op_ok ops → roomy hash ser de st ops = true →
  ∃ st', run hash ser de st ops = Some ((spec_run P ops).1, st') ∧ inv (n + Z.of_nat (length ops)) st' (spec_run P ops).2.
Proof.
  induction ops as [|o ops IH]; intros n st P Hi Hle Hops Hr; cbn [spec_run run length]. { exists st. split; [done|]. by rewrite Z.add_0_r. }
  inversion_clear Hops. cbn [length] in Hle. cbn [roomy] in Hr. apply andb_true_iff in Hr as [Hf Hr]. destruct (step_inv n st P o Hi) as (st1 & E & Hi1); [lia|done|done|]. rewrite E in Hr |- *. cbn [mbind option_bind]. destruct (spec_step P o) as [out P1]. cbn [fst snd] in *.
  destruct (IH (n + 1) st1 P1 Hi1) as (st2 & -> & Hi2); [lia|done|done|]. destruct (spec_run P1 ops) as [outs P2]. cbn [mbind option_bind fst snd] in *. exists st2. split; [done|]. by replace (n + Z.of_nat (S (length ops))) with (n + 1 + Z.of_nat (length ops)) by lia.
Qed.

Lemma new_inv : inv 0 PropertyStore.new ∅.
Proof.
  exists ∅, ∅, ∅, 0. split; [|done]. split; [|done|split; by intros ??? Hk; rewrite lookup_empty in Hk|split; by intros ??? Hk; rewrite lookup_empty in Hk|by intros k ?%not_elem_of_empty]. split; [apply new_store_ok; [apply storable_filler|apply storable_binary]|done].
Qed.

End refine.

(** C3: A database's properties are one map, across snapshots.  Start with no snapshot and
    let up to 2^32 operations write a property, remove one, read one, or write a V8
    snapshot of the columns (the archived base merged with the tombstones and the writes
    since) and open it again.  Then no operation panics; a write, a removal and a read
    return exactly the value the map has there, whether it lies in memory, in the base
    under a typed, string, mixed or vector column, or under a tombstone; a snapshot is
    refused exactly when it is not V11 and some property holds a value of a V11 type, and
    a snapshot, refused or not, changes no property.  The serializer of mixed columns is
    any one that decodes what it encodes, values are in range and free of nulls, ids are
    below [u32::MAX], and lengths fit their fields. *)
Theorem property_store_refines (hash : string → Z) ser de (ops : list op) :
  codec_ok ser de → Z.of_nat (length ops) ≤ 2 ^ 32 → Forall op_ok ops → roomy hash ser de PropertyStore.new ops = true →
  ∃ st, run hash ser de PropertyStore.new ops = Some ((spec_run ∅ ops).1, st) ∧
    ∀ id f, in_u 32 id → fst <$> get_prop de st id f = Some ((spec_run ∅ ops).2 !! (id, f)).
Proof.
  intros Hc Hlen Hops Hroom. destruct (run_inv hash ser de Hc ops 0 PropertyStore.new ∅ (new_inv hash de)) as (st & -> & Hi); [lia|done|done|]. exists st. split; [done|]. intros id f Hid. destruct Hi as (Mo & T & B & no & Hp & ->). by destruct (read_parts hash de _ st Mo T B no id f Hp Hid) as (st' & -> & _).
Qed.

(** Text, dates, floats in vectors; a value only in the base removed, one of both removed. *)
Definition sample_ops : list op :=
  [PSet 1 "name" (Value.Str "ann"); PSet 70 "name" (Value.Str "bo"); PSet 1 "at" (Value.Date 9); PSet 2 "v" (Value.List [Value.Float 0; Value.Float 5]);
   PSnapshot false; PSnapshot true; PRead 70 "name"; PRemove 70 "name"; PSet 1 "name" (Value.Int 3); PRemove 1 "name"; PSet 3 "v" (Value.Str "x"); PRemove 1 "at"; PSnapshot false; PRead 70 "name"; PRead 1 "name"; PRead 2 "v"].

Lemma sample_ok : Forall op_ok sample_ops.
Proof. repeat constructor; vm_compute; done. Qed.

Lemma property_store_refines_witness :
  ∃ st, run (λ _, 7) BitCodec.ser BitCodec.de PropertyStore.new sample_ops = Some ((spec_run ∅ sample_ops).1, st) ∧
    (spec_run ∅ sample_ops).1 !! 4%nat = Some (ORefused v11_error) ∧ (spec_run ∅ sample_ops).1 !! 12%nat = Some ODone ∧ fst <$> get_prop BitCodec.de st 1 "name" = Some None.
Proof.
  destruct (property_store_refines (λ _, 7) BitCodec.ser BitCodec.de sample_ops BitCodec.bit_codec_ok) as (st & Hr & Hg).
  - vm_compute. discriminate.
  - apply sample_ok.
  - vm_compute. reflexivity.
  - exists st. split; [exact Hr|]. split; [vm_compute; reflexivity|]. split; [vm_compute; reflexivity|]. rewrite Hg by (vm_compute; split; [discriminate|reflexivity]). vm_compute. reflexivity.
Defined.

End PropertyRefine.
