(* ===== verification/PropertyReads.v ===== *)
(** * Every way of reading a database's properties agrees

    A transaction's or a reader's layer over a reached state of the store: a lookup, the
    handle of a column, its filter, a node's whole map and the raw vectors all show the
    same properties. *)

From S2P Require Import Prelude Order Assoc Bytes Utf8 Types CowVec CowMap CowMapIter HashIndex Pack Float64 ValueOps VisibleSet Bitmap Tagged RangeIndex Columns ColumnsRep ColumnsStore ColumnsPack ColumnsRoundtrip ColumnsDecode ColumnsImage ColumnsVector ColumnsArchive ColumnsView PropertyView BitCodec PropertyRefine.
Open Scope Z_scope.

#[local] Existing Instance ColumnsImage.packed_slots.

Module PropertyReads.
Import ColumnsRep ColumnsStore ColumnsPack ColumnsRoundtrip ColumnsArchive PropertyView PropertyRefine.

(** ** Layers *)

Inductive layer_op :=
| LSet (node : Z) (field : string) (value : Value.t)
| LRemove (node : Z) (field : string)
| LForget (node : Z).

Definition layer_step (tx : PropLayer.t) (o : layer_op) : PropLayer.t :=
  match o with
  | LSet node field value => PropLayer.set tx node field value
  | LRemove node field => PropLayer.remove tx node field
  | LForget node => PropLayer.remove_all tx node
  end.

(** What the layer says: the value written, or that the field is removed. *)
Definition says (L : gmap (Z * string) (option Value.t)) (o : layer_op) : gmap (Z * string) (option Value.t) :=
  match o with
  | LSet node field value => <[(node, field) := Some value]> L
  | LRemove node field => <[(node, field) := None]> L
  | LForget node => filter (λ kv, kv.1.1 ≠ node) L
  end.

Definition layer_of (ops : list layer_op) : PropLayer.t := foldl layer_step PropLayer.new ops.
Definition says_of (ops : list layer_op) : gmap (Z * string) (option Value.t) := foldl says ∅ ops.

Lemma layer_entry_says (tx : PropLayer.t) (L : gmap (Z * string) (option Value.t)) (node : Z) (f : string) (v : option Value.t) : (∀ id g, PropLayer.get tx id g = L !! (id, g)) → ∀ id g, PropLayer.get (PropLayer.entry tx node f v) id g = <[(node, f) := v]> L !! (id, g).
Proof. intros HL id g. rewrite layer_get_entry. case_decide as E; [destruct E as [-> ->]; by rewrite lookup_insert_eq|]. rewrite lookup_insert_ne by (intros [= -> ->]; tauto). apply HL. Qed.

Lemma layer_of_spec ops : layer_ok (layer_of ops) ∧ ∀ id f, PropLayer.get (layer_of ops) id f = says_of ops !! (id, f).
Proof.
  induction ops as [|o ops [IH1 IH2]] using rev_ind; [split; [apply new_layer_ok|]; intros id f; unfold PropLayer.get; cbn; by rewrite !lookup_empty|].
  unfold layer_of, says_of in *. rewrite !foldl_app. cbn [foldl]. set (tx := foldl layer_step PropLayer.new ops) in *. set (L := foldl says ∅ ops) in *. destruct o as [node f v|node f|node]; cbn [layer_step says].
  - split; [by apply entry_layer_ok|by apply layer_entry_says].
  - split; [by apply entry_layer_ok|by apply layer_entry_says].
  - split; [by apply remove_all_layer_ok|]. intros id f. specialize (IH2 id f). unfold PropLayer.get, PropLayer.remove_all in *. cbn [PropLayer.nodes]. destruct (decide (id = node)) as [->|Hne].
    + rewrite lookup_delete_eq. symmetry. apply map_lookup_filter_None_2. right. intros w _. cbn. tauto.
    + rewrite lookup_delete_ne by done. rewrite IH2. destruct (L !! (id, f)) as [w|] eqn:E; symmetry; [by apply map_lookup_filter_Some_2|apply map_lookup_filter_None_2; by left].
Qed.

(** The view of a state with a layer over it. *)
Definition view_with (st : PropertyStore.t) (ls : list layer_op) : ColumnsView.t := ColumnsView.with_layer (PropertyStore.build_props_view st) (layer_of ls).

(** What shows through the layer. *)
Definition shown (P : Props) (ls : list layer_op) (id : Z) (f : string) : option Value.t := visible (says_of ls !! (id, f)) (P !! (id, f)).

Lemma layered_view hash de n st P ls : inv hash de n st P → ∃ no Mo T B, view_ok hash de no (view_with st ls) Mo T B ∧ P = layered Mo T B ∧ view_layer_ok (view_with st ls) ∧ ∀ id f, ColumnsView.layer_get (view_with st ls) id f = says_of ls !! (id, f).
Proof.
  intros (Mo & T & B & no & Hp & ->). exists no, Mo, T, B. destruct (layer_of_spec ls) as [Hl Hs]. split_and!; [exact (po_view _ _ _ _ _ _ _ _ Hp)|done|intros tx [= <-]; done|intros id f; apply Hs].
Qed.

(** C12: Every way of reading agrees.  In any state reached by writes, removals, reads and
    snapshots, under any layer of an open transaction's or a reader's writes, removals
    and forgotten nodes: a lookup shows the layer's word, and below it the map's value;
    the handle of a column shows the same, node by node, from the base included, and its
    filter tests that value; a node's properties are exactly the fields with a value
    shown, each of them among the field names listed; and a raw vector read from the base, when there is one, is the list of floats
    the lookup shows.  As for the properties as one map: up to 2^32 operations, a mixed-column
    serializer that decodes what it encodes, in-range values free of nulls, ids below
    [u32::MAX] and lengths that fit their fields. *)
Theorem property_reads_agree (hash : string → Z) ser de (ops : list op) (ls : list layer_op) (id : Z) :
  codec_ok ser de → Z.of_nat (length ops) ≤ 2 ^ 32 → Forall op_ok ops → roomy hash ser de PropertyStore.new ops = true → in_u 32 id →
  ∃ st, run hash ser de PropertyStore.new ops = Some ((spec_run ∅ ops).1, st) ∧
    (∀ f, fst <$> ColumnsView.get de (view_with st ls) id f = Some (shown (spec_run ∅ ops).2 ls id f)) ∧
    (∀ f, ViewColumn.get de (ViewColumn.column de (view_with st ls) f).1 id = Some (shown (spec_run ∅ ops).2 ls id f)) ∧
    (∀ f pred, ViewColumn.test de (ViewColumn.column de (view_with st ls) f).1 id pred = Some (match shown (spec_run ∅ ops).2 ls id f with Some v => pred v | None => false end)) ∧
    (∃ out, fst <$> ColumnsView.props_of de (view_with st ls) id = Some out ∧ ∀ f, out !! f = shown (spec_run ∅ ops).2 ls id f) ∧
    (∀ f, is_Some (shown (spec_run ∅ ops).2 ls id f) → f ∈ ColumnsView.field_names (view_with st ls)) ∧
    ∀ f fs, ColumnsView.vector (view_with st ls) id f = Some (Some fs) → shown (spec_run ∅ ops).2 ls id f = Some (Value.List (Value.Float <$> fs)).
Proof.
  intros Hc Hlen Hops Hroom Hid. destruct (run_inv hash ser de Hc ops 0 PropertyStore.new ∅ (new_inv hash de)) as (st & -> & Hi); [lia|done|done|]. exists st. split; [done|]. destruct (layered_view hash de _ st _ ls Hi) as (no & Mo & T & B & Hv & -> & Hl & Hs). unfold shown.
  assert (∀ f, ∃ v', ColumnsView.get de (view_with st ls) id f = Some (visible (says_of ls !! (id, f)) (layered Mo T B !! (id, f)), v')) as Hget. { intros f. destruct (view_get hash de no _ Mo T B id f Hv Hid) as (v' & -> & _). rewrite Hs. by exists v'. }
  assert (∀ f, is_Some (ColumnStore.is_tombstoned (ColumnsView.overlay (view_with st ls)) id f)) as Ht by (intros f; destruct Hv as [Hst _]; by rewrite (marked_store hash storable no _ Mo T id f Hst)). split_and!.
  - intros f. by destruct (Hget f) as (v' & ->).
  - intros f. destruct (handle_get_spec de (view_with st ls) f id (Ht f)) as [-> _]. by destruct (Hget f) as (v' & ->).
  - intros f pred. destruct (handle_get_spec de (view_with st ls) f id (Ht f)) as [_ ->]. by destruct (Hget f) as (v' & ->).
  - destruct (props_of_spec hash de no _ Mo T B id Hv Hl Hid) as (out & v' & -> & _ & Ho). exists out. split; [done|]. intros f. by rewrite Ho, Hs.
  - intros f Hf. rewrite elem_of_field_names. eapply (names_cover hash de no _ Mo T B id f); [done|done|]. rewrite Hs. exact Hf.
  - intros f fs Hvec. destruct (vector_spec hash de no _ Mo T B id f fs Hv Hid Hvec) as [Hn Hb]. rewrite Hs in Hn. by rewrite Hn.
Qed.

Lemma property_reads_agree_witness :
  ∃ st, run (λ _, 7) BitCodec.ser BitCodec.de PropertyStore.new sample_ops = Some ((spec_run ∅ sample_ops).1, st) ∧
    ViewColumn.get BitCodec.de (ViewColumn.column BitCodec.de (view_with st [LSet 2 "w" (Value.Int 1); LRemove 2 "name"]) "v").1 2 = Some (Some (Value.List [Value.Float 0; Value.Float 5])).
Proof.
  destruct (property_reads_agree (λ _, 7) BitCodec.ser BitCodec.de sample_ops [LSet 2 "w" (Value.Int 1); LRemove 2 "name"] 2 BitCodec.bit_codec_ok) as (st & Hr & _ & Hh & _).
  - vm_compute. discriminate.
  - apply sample_ok.
  - vm_compute. reflexivity.
  - vm_compute. split; [discriminate|reflexivity].
  - exists st. split; [exact Hr|]. rewrite Hh. vm_compute. reflexivity.
Defined.

End PropertyReads.
