(* ===== verification/ColumnsUnpack.v ===== *)
(** * The packed image of a reached store

    Whatever was written to a store, packing it and unpacking the image give a store with
    the same properties. *)

From S2P Require Import Prelude Order Assoc Bytes Utf8 Types CowVec CowMap CowMapIter HashIndex Pack Float64 ValueOps VisibleSet Bitmap Tagged RangeIndex Columns ColumnsRep ColumnsStore ColumnsPack ColumnsRoundtrip ColumnsDecode ColumnsImage BitCodec.
Open Scope Z_scope.

#[local] Existing Instance ColumnsImage.packed_slots.

Module ColumnsUnpack.
Import ColumnsRep ColumnsStore ColumnsPack ColumnsRoundtrip ColumnsDecode ColumnsImage.

Definition named (o : ColumnsStore.op) : Prop := match o with OSet _ f _ => text_ok f | _ => True end.

Lemma names_sub M N : names_ok M → N ⊆ M → names_ok N.
Proof. intros HM Hsub id f v Hv. eapply HM. by eapply lookup_weaken. Qed.

Lemma spec_names ops : ∀ M T, names_ok M → Forall named ops → names_ok (ColumnsStore.spec_run M T ops).1.2.
Proof.
  induction ops as [|o ops IH]; intros M T HM Hops; cbn [ColumnsStore.spec_run fst snd]; [done|]. inversion_clear Hops as [|? ? Ho Hrest]. assert (names_ok (ColumnsStore.spec_step M T o).1.2) as Hs.
  { destruct o as [node f v|node f|node|node f]; cbn [ColumnsStore.spec_step fst snd]; [|eapply names_sub; [done|apply delete_subseteq]|eapply names_sub; [done|apply map_filter_subseteq]|done].
    intros id g w. rewrite lookup_insert. case_decide; [simplify_eq; by intros _|apply HM]. }
  destruct (ColumnsStore.spec_step M T o) as [[out M1] T1]. specialize (IH M1 T1 Hs Hrest). by destruct (ColumnsStore.spec_run M1 T1 ops) as [[outs M2] T2].
Qed.

(** The store the operations reach packs within its lengths. *)
Definition packable (hash : string → Z) ser (ops : list ColumnsStore.op) : bool := match ColumnsStore.run hash ColumnStore.new ops with Some (_, s) => columns_fit ser s | None => true end.

(** C26: The packed columns round trip.  After any writes, removals and tombstones on an
    empty store, whatever the types of the values and however the columns changed shape,
    packing succeeds, and unpacking the image, wherever it ends in a longer slice, stops
    exactly at its end with a store that shows the same properties and no tombstones.
    The serializer of mixed columns decodes what it encodes; values are in range and free
    of nulls, and the lengths of names, texts and encoded columns fit 32 bits. *)
Theorem columns_pack_roundtrip (hash : string → Z) ser de (ops : list ColumnsStore.op) :
  codec_ok ser de → Z.of_nat (length ops) < 2 ^ 32 → Forall (ColumnsStore.op_ok storable) ops → Forall named ops → packable hash ser ops = true →
  let '(outs, M, T) := ColumnsStore.spec_run ∅ ∅ ops in
  ∃ s img s', ColumnsStore.run hash ColumnStore.new ops = Some (outs, s) ∧ pack ser s [] = Some (Ok img) ∧ shows s' M ∅ ∧
    ∀ rest, len_z (img ++ rest) ≤ isize_max → unpack hash de (img ++ rest) = Some (Ok (s', len_z img)).
Proof.
  intros Hc Hlen Hops Hnamed Hp. pose proof (ColumnsStore.run_sound hash storable storable_filler storable_binary ops 0 ColumnStore.new ∅ ∅) as Hrun.
  pose proof (spec_names ops ∅ ∅ ltac:(by intros ??? Hk; rewrite lookup_empty in Hk) Hnamed) as Hnames. destruct (ColumnsStore.spec_run ∅ ∅ ops) as [[outs M] T]. cbn [fst snd] in Hnames. destruct Hrun as (s & Hr & Hs & Hsz & Hk); [|lia|done|].
  { split; [apply new_store_ok; [apply storable_filler|apply storable_binary]|]. split; [done|]. intros id f v Hv. by rewrite lookup_empty in Hv. }
  unfold packable in Hp. rewrite Hr in Hp. destruct (unpack_image packed_narrow hash ser de Hc _ s M T Hs) as (img & s' & Hpk & Hs' & Hun); [lia|lia|done|by eapply store_fits|]. exists s, img, s'. split_and!; [done|done|by eapply store_shows|done].
Qed.

Definition sample : list ColumnsStore.op :=
  [OSet 70 "age" (Value.Int (-4)); OSet 3 "age" (Value.Int 9); OSet 3 "name" (Value.Str "ann"); ORemove 70 "age"; OSet 4 "at" (Value.DateTime 7 (-60)); OSet 5 "tags" (Value.List [Value.Str "x"]); OSet 2 "raw" (Value.Binary []); OMark 9 "age"].

Lemma sample_small : match ColumnsStore.run (λ _, 7) ColumnStore.new sample with Some (_, s) => match pack BitCodec.ser s [] with Some (Ok img) => len_z img <=? isize_max | _ => false end | None => false end = true.
Proof. vm_compute. reflexivity. Qed.

Lemma columns_pack_roundtrip_witness :
  ∃ s img s', ColumnsStore.run (λ _, 7) ColumnStore.new sample = Some ((ColumnsStore.spec_run ∅ ∅ sample).1.1, s) ∧ pack BitCodec.ser s [] = Some (Ok img) ∧
    unpack (λ _, 7) BitCodec.de img = Some (Ok (s', len_z img)) ∧ ColumnStore.get s' 3 "age" = Some (Some (Value.Int 9)).
Proof.
  pose proof (columns_pack_roundtrip (λ _, 7) BitCodec.ser BitCodec.de sample BitCodec.bit_codec_ok) as H. destruct (ColumnsStore.spec_run ∅ ∅ sample) as [[outs M] T] eqn:E. destruct H as (s & img & s' & Hr & Hp & (Hg & _) & Hu).
  - vm_compute. reflexivity.
  - repeat constructor; vm_compute; done.
  - repeat constructor; vm_compute; done.
  - vm_compute. reflexivity.
  - exists s, img, s'. split; [exact Hr|]. split; [exact Hp|]. split.
    + rewrite <-(app_nil_r img) at 1. apply Hu. rewrite app_nil_r. pose proof sample_small as Hsm. rewrite Hr, Hp in Hsm. by apply Z.leb_le.
    + rewrite Hg by (vm_compute; split; [discriminate|reflexivity]). f_equal. change M with (outs, M, T).1.2. rewrite <-E. vm_compute. reflexivity.
Defined.

End ColumnsUnpack.
