(* ===== verification/Float64Ops.v ===== *)
(** * Arithmetic on [f64]

    The rounded operations of [f64]: [+], [-], [*], [/], [sqrt], [min], [max] and
    the comparisons, on the bits of [Float64.v].  A finite float is a whole number
    of units of [2 ^ -1074], so a sum or a product is exact in integers, a quotient
    or a root is known to two more bits and a sticky bit, and [of_units] rounds the
    result to nearest, ties to even, as IEEE 754 does.  A NaN result is one fixed
    NaN: the code never looks inside one. *)

From S2P Require Import Prelude Float64.
Open Scope Z_scope.

Module F64Ops.
Import F64.

Definition NAN : Z := INF + 2 ^ 51.

(** The magnitude of a finite float in units of [2 ^ -1074], and the signed value. *)
Definition units (x : Z) : Z := mantissa x * 2 ^ (exponent x + 1074).
Definition value (x : Z) : Z := if neg x then - units x else units x.

(** [t / 2 ^ s] to nearest, ties to even. *)
Definition round_even (t s : Z) : Z :=
  let q := Z.shiftr t s in
  let r := Z.land t (2 ^ s - 1) in
  let half := 2 ^ (s - 1) in
  if (half <? r) || ((r =? half) && Z.odd q) then q + 1 else q.

(** The magnitude nearest to [t] units of [2 ^ -1076]; past the largest float, an
    infinity. *)
Definition of_units (t : Z) : Z :=
  let s := Z.max 2 (Z.log2 t - 52) in
  Z.min INF ((s - 2) * 2 ^ 52 + round_even t s).

Definition with_sign (s : bool) (m : Z) : Z := if s then SIGN + m else m.

(** The float nearest to [v] units of [2 ^ -1074]; [s] is the sign of a zero. *)
Definition of_value (s : bool) (v : Z) : Z :=
  if v =? 0 then with_sign s 0 else with_sign (v <? 0) (of_units (4 * Z.abs v)).

(** [floor (4 * n / d)], its last bit set when something is left over. *)
Definition sticky (n d : Z) : Z := 2 * (2 * n / d) + (if 2 * n mod d =? 0 then 0 else 1).

Definition opposite (x : Z) : Z := Z.lxor x SIGN.
Definition abs (x : Z) : Z := mag x.

Definition add (x y : Z) : Z :=
  if is_nan x || is_nan y then NAN
  else if negb (is_finite x) then
    if negb (is_finite y) && negb (Bool.eqb (neg x) (neg y)) then NAN else x
  else if negb (is_finite y) then y
  else of_value (neg x && neg y) (value x + value y).

Definition sub (x y : Z) : Z := if is_nan y then NAN else add x (opposite y).

Definition mul (x y : Z) : Z :=
  let s := xorb (neg x) (neg y) in
  if is_nan x || is_nan y then NAN
  else if negb (is_finite x) || negb (is_finite y) then
    if (mag x =? 0) || (mag y =? 0) then NAN else with_sign s INF
  else with_sign s (if units x * units y =? 0 then 0 else of_units (sticky (units x * units y) (2 ^ 1074))).

Definition div (x y : Z) : Z :=
  let s := xorb (neg x) (neg y) in
  if is_nan x || is_nan y then NAN
  else if negb (is_finite x) then (if negb (is_finite y) then NAN else with_sign s INF)
  else if negb (is_finite y) then with_sign s 0
  else if mag y =? 0 then (if mag x =? 0 then NAN else with_sign s INF)
  else with_sign s (if mag x =? 0 then 0 else of_units (sticky (units x * 2 ^ 1074) (units y))).

(** The root is taken to [2 ^ -1137]: more bits than any midpoint of two floats has. *)
Definition sqrt (x : Z) : Z :=
  if is_nan x then NAN
  else if mag x =? 0 then x
  else if neg x then NAN
  else if negb (is_finite x) then x
  else
    let n := units x * 2 ^ 1200 in
    let r := Z.sqrt n in
    of_units (sticky (2 * r + (if r * r =? n then 0 else 1)) (2 ^ 64)).

(** [<], [<=] *)
Definition lt (x y : Z) : bool :=
  negb (is_nan x) && negb (is_nan y) && (if (mag x =? 0) && (mag y =? 0) then false else key x <? key y).
Definition le (x y : Z) : bool := lt x y || eq x y.

(** [f64::min], [f64::max]: a NaN gives way. *)
Definition min (x y : Z) : Z := if is_nan x then y else if is_nan y then x else if lt y x then y else x.
Definition max (x y : Z) : Z := if is_nan x then y else if is_nan y then x else if lt x y then y else x.

Definition ONE : Z := 4607182418800017408.
Definition NEG_INF : Z := SIGN + INF.

(** ** A difference is zero between equal floats only *)

Lemma units_parts x (E := mag x / 2 ^ 52) (f := mag x mod 2 ^ 52) : in_u 64 x →
  0 ≤ E ∧ 0 ≤ f < 2 ^ 52 ∧ mag x = E * 2 ^ 52 + f ∧ units x = if E =? 0 then f else (2 ^ 52 + f) * 2 ^ (E - 1).
Proof.
  intros Hx. destruct (mag_parts x Hx) as (HE & Hf & Hm & Hman & Hexp). fold E f in HE, Hf, Hm, Hman, Hexp. do 3 (split; [done|]).
  unfold units. rewrite Hman, Hexp. destruct (Z.eqb_spec E 0) as [HE0|].
  - replace (Z.max E 1 - 1075 + 1074) with 0 by lia. lia.
  - by replace (Z.max E 1 - 1075 + 1074) with (E - 1) by lia.
Qed.

Lemma units_mono x y : in_u 64 x → in_u 64 y → mag x < mag y → units x < units y.
Proof.
  intros Hx Hy Hlt. destruct (units_parts x Hx) as (HE & Hf & Hm & ->). destruct (units_parts y Hy) as (HE' & Hf' & Hm' & ->).
  generalize dependent (mag x / 2 ^ 52). generalize dependent (mag y / 2 ^ 52). generalize dependent (mag x mod 2 ^ 52). generalize dependent (mag y mod 2 ^ 52).
  intros f' Hf' f Hf E' HE' Hm' E HE Hm. assert (E ≤ E') by lia.
  destruct (Z.eqb_spec E 0), (Z.eqb_spec E' 0); try lia.
  - pose proof (Z.pow_pos_nonneg 2 (E - 1) ltac:(lia) ltac:(lia)). destruct (Z.eq_dec E E') as [->|]; [apply Z.mul_lt_mono_pos_r; lia|].
    apply Z.lt_le_trans with (2 ^ 52 * (2 * 2 ^ (E - 1))); [rewrite Z.mul_assoc; apply Z.mul_lt_mono_pos_r; lia|].
    rewrite <-Z.pow_succ_r by lia. apply Z.mul_le_mono_nonneg; [lia|lia|apply Z.pow_nonneg; lia|apply Z.pow_le_mono_r; lia].
Qed.

Lemma units_zero x : in_u 64 x → 0 ≤ units x ∧ (units x = 0 ↔ mag x = 0).
Proof.
  intros Hx. pose proof (mag_range x Hx). assert (units 0 = 0) as H0 by done.
  destruct (Z.eq_dec (mag x) 0) as [E|].
  - destruct (units_parts x Hx) as (_ & _ & _ & Eu). rewrite E in Eu. assert (units x = 0) as -> by (rewrite Eu; reflexivity). lia.
  - pose proof (units_mono 0 x ltac:(done) Hx ltac:(change (mag 0) with 0; lia)). lia.
Qed.

Lemma value_eq x y : in_u 64 x → in_u 64 y → is_nan x = false → is_nan y = false → value x = value y → eq x y = true.
Proof.
  intros Hx Hy Nx Ny Hv. destruct (bits_split x Hx) as [Hmx Ex]. destruct (bits_split y Hy) as [Hmy Ey].
  destruct (units_zero x Hx) as [Ux Zx]. destruct (units_zero y Hy) as [Uy Zy].
  assert (units x = units y → mag x = mag y) as Hinj.
  { intros Hu. destruct (Z.lt_total (mag x) (mag y)) as [Hlt|[?|Hlt]]; [|done|].
    - pose proof (units_mono x y Hx Hy Hlt). lia.
    - pose proof (units_mono y x Hy Hx Hlt). lia. }
  unfold eq. rewrite Nx, Ny. cbn. unfold value in Hv. apply orb_true_iff. rewrite andb_true_iff, !Z.eqb_eq.
  destruct (neg x) eqn:Sx, (neg y) eqn:Sy; [left; lia|right; lia..|left; lia].
Qed.

Lemma round_even_nonneg t s : 0 ≤ t → 0 ≤ round_even t s.
Proof. intros Ht. unfold round_even. pose proof (proj2 (Z.shiftr_nonneg t s) Ht). destruct (_ || _); lia. Qed.

Lemma of_units_pos v : 0 < v → 0 < of_units (4 * v).
Proof.
  intros Hv. unfold of_units. pose proof (Z.log2_nonneg (4 * v)). apply Z.min_glb_lt; [done|]. destruct (Z.le_gt_cases (Z.log2 (4 * v) - 52) 2) as [Hl|Hl].
  - rewrite Z.max_l by done. unfold round_even. rewrite Z.shiftr_div_pow2 by lia. change (2 ^ 2) with 4. rewrite (Z.mul_comm 4), Z.div_mul by lia.
    destruct (_ || _); lia.
  - rewrite Z.max_r by lia. pose proof (round_even_nonneg (4 * v) (Z.log2 (4 * v) - 52) ltac:(lia)). lia.
Qed.

Lemma mag_with_sign s m : 0 ≤ m < SIGN → mag (with_sign s m) = m.
Proof. intros Hm. destruct (bits_of s m Hm) as (_ & _ & E). unfold with_sign. by destruct s. Qed.

Lemma of_units_range t : 0 ≤ t → 0 ≤ of_units t ≤ INF.
Proof.
  intros Ht. unfold of_units. pose proof (round_even_nonneg t (Z.max 2 (Z.log2 t - 52)) Ht).
  assert (0 ≤ (Z.max 2 (Z.log2 t - 52) - 2) * 2 ^ 52) by (apply Z.mul_nonneg_nonneg; lia). unfold INF in *. lia.
Qed.

Lemma of_value_zero s v : mag (of_value s v) = 0 ↔ v = 0.
Proof.
  unfold of_value. destruct (Z.eqb_spec v 0) as [->|Hv]; [split; [done|]; by destruct s|].
  rewrite mag_with_sign by (pose proof (of_units_range (4 * Z.abs v) ltac:(lia)); unfold INF, SIGN in *; lia).
  pose proof (of_units_pos (Z.abs v) ltac:(lia)). lia.
Qed.

Lemma opposite_bits x : in_u 64 x → in_u 64 (opposite x) ∧ neg (opposite x) = negb (neg x) ∧ mag (opposite x) = mag x.
Proof.
  intros Hx. destruct (bits_split x Hx) as [Hm E]. assert (opposite x = (if negb (neg x) then SIGN else 0) + mag x) as ->; [|by apply bits_of].
  unfold opposite. apply Z.bits_inj'. intros n Hn. rewrite Z.lxor_spec. unfold SIGN. rewrite Z.pow2_bits_eqb by lia.
  rewrite (Z.add_nocarry_lxor (if negb (neg x) then 2 ^ 63 else 0)).
  2:{ destruct (negb (neg x)); [|done]. unfold mag. apply Z.bits_inj'. intros k Hk. rewrite !Z.land_spec, Z.pow2_bits_eqb, Z.bits_0 by lia.
      destruct (Z.eqb_spec 63 k) as [<-|]; [|done]. change (2 ^ 63 - 1) with (Z.ones 63). rewrite Z.ones_spec_high by lia. by rewrite andb_false_r. }
  rewrite Z.lxor_spec. unfold mag, neg. rewrite Z.land_spec. change (2 ^ 63 - 1) with (Z.ones 63). rewrite Z.testbit_ones by lia.
  destruct (Z.eqb_spec 63 n) as [<-|Hne].
  - rewrite andb_false_r, xorb_false_r. destruct (Z.testbit x 63); cbn [negb]; [by rewrite Z.bits_0|by rewrite Z.pow2_bits_true].
  - destruct (Z.ltb_spec n 63).
    + rewrite (proj2 (Z.leb_le 0 n)) by lia. cbn. rewrite andb_true_r. destruct (negb _); [rewrite Z.pow2_bits_eqb by lia; rewrite (proj2 (Z.eqb_neq 63 n)) by lia|rewrite Z.bits_0]; by destruct (Z.testbit x n).
    + rewrite andb_false_r. assert (Z.testbit x n = false) as ->.
      { destruct Hx as [? Hx]. apply Z.bits_above_log2; [lia|]. destruct (Z.eq_dec x 0) as [->|]; [cbn; lia|]. apply Z.log2_lt_pow2; [lia|].
        eapply Z.lt_le_trans; [exact Hx|]. apply Z.pow_le_mono_r; lia. }
      destruct (negb _); [rewrite Z.pow2_bits_eqb by lia; rewrite (proj2 (Z.eqb_neq 63 n)) by lia|rewrite Z.bits_0]; done.
Qed.

Lemma sub_zero x y : in_u 64 x → in_u 64 y → is_finite x = true → is_finite y = true →
  eq (abs (sub x y)) 0 = true → eq x y = true.
Proof.
  intros Hx Hy Fx Fy. destruct (opposite_bits y Hy) as (Hoy & Sy & My).
  assert (∀ z, is_finite z = true → is_nan z = false) as Hfin by (intros z; unfold is_finite, is_nan; lia).
  assert (is_finite (opposite y) = true) as Fo by (unfold is_finite in *; by rewrite My).
  unfold sub, add. rewrite !Hfin, Fx, Fo by done. cbn. unfold eq at 1. rewrite !andb_true_iff, orb_true_iff, andb_true_iff, !Z.eqb_eq.
  intros [_ H]. assert (mag (of_value (neg x && neg (opposite y)) (value x + value (opposite y))) = 0) as E%of_value_zero.
  { destruct H as [H|[H _]]; unfold abs in H; [exact H|]. unfold mag in *. by rewrite <-Z.land_assoc, Z.land_diag in H. }
  apply value_eq; auto. assert (value (opposite y) = - value y) as Ho; [|lia]. unfold value. rewrite Sy.
  assert (units (opposite y) = units y) as ->; [unfold units, mantissa, exponent; by rewrite My|]. destruct (neg y); cbn; lia.
Qed.

End F64Ops.
