(* ===== verification/RuleDef.v ===== *)
(** * Rules: definitions and predicates

    Models [crates/core-rules/src/def.rs]: the predicates a rule is made of, what
    makes a definition valid, the fields a rule watches, and [evaluate], which
    decides whether a pair of nodes matches and with which score.  Scores and
    thresholds are [f64]s, computed with [Float64Ops.v].  [sin], [cos] and [atan2]
    are the platform's and are parameters. *)

From S2P Require Import Prelude Topology Types Float64 Float64Ops.
Open Scope Z_scope.

Module RuleDef.
Import F64 F64Ops.

Inductive Predicate :=
| KeyMatch (field : string)
| FieldEqual (field : string)
| Overlap (field : string) (min : Z)
| All (parts : list Predicate)
| NumericWithin (field : string) (tolerance : Z)
| GeoRadius (field : string) (km : Z)
| VectorSimilar (field : string) (min : Z)
| Any (parts : list Predicate).

(** Induction through the parts of [All] and [Any]. *)
Section ind.
Variable P : Predicate → Prop.
Hypothesis Hkey : ∀ f, P (KeyMatch f).
Hypothesis Heq : ∀ f, P (FieldEqual f).
Hypothesis Hover : ∀ f m, P (Overlap f m).
Hypothesis Hall : ∀ ps, Forall P ps → P (All ps).
Hypothesis Hnum : ∀ f t, P (NumericWithin f t).
Hypothesis Hgeo : ∀ f k, P (GeoRadius f k).
Hypothesis Hvec : ∀ f m, P (VectorSimilar f m).
Hypothesis Hany : ∀ ps, Forall P ps → P (Any ps).

Fixpoint Predicate_parts_ind (p : Predicate) : P p :=
  let go := fix go (ps : list Predicate) : Forall P ps :=
    match ps with [] => Forall_nil_2 _ | p :: ps => Forall_cons_2 _ _ _ (Predicate_parts_ind p) (go ps) end in
  match p with
  | KeyMatch f => Hkey f
  | FieldEqual f => Heq f
  | Overlap f m => Hover f m
  | All ps => Hall ps (go ps)
  | NumericWithin f t => Hnum f t
  | GeoRadius f k => Hgeo f k
  | VectorSimilar f m => Hvec f m
  | Any ps => Hany ps (go ps)
  end.
End ind.

Record RuleDef := mk_rule {
  name : string;
  src_label : string;
  dst_label : string;
  predicate : Predicate;
  edge_type : string;
  weight_prop : option string;
  max_edges : option Z;
  approximate : bool;
  via_label : option string;
  via_edge : option string;
  via_dir : option Direction;
  namespace : option string;
}.

(** A node as a predicate sees it. *)
Record NodeView := mk_view { key : string; props : string → option Value.t }.

(** ** Validity *)

(** The messages of [validate], by what they say. *)
Inductive Invalid :=
| EmptyName (what : string)
| EmptyField
| OverlapMin (min : Z)
| Tolerance (tolerance : Z)
| RadiusKm (km : Z)
| SimilarMin (min : Z)
| EmptyAll
| EmptyAny
| TooDeep (depth : nat)
| NotVectorRooted
| ApproximateVia
| HalfVia
| EmptyVia (what : string)
| BadNamespace (ns : string).

Definition MAX_PREDICATE_NESTING_DEPTH : nat := 4.
Definition MAX_KEYMATCH_LIST : nat := 512.
Definition DEFAULT_SCORED_TOP_K : Z := 32.
Definition DEFAULT_KEYMATCH_TOP_K : Z := Z.of_nat MAX_KEYMATCH_LIST.

Definition is_empty (s : string) : bool := String.eqb s EmptyString.

Fixpoint is_keymatch_rooted (p : Predicate) : bool :=
  match p with
  | KeyMatch _ => true
  | All (p :: _) => is_keymatch_rooted p
  | _ => false
  end.

Fixpoint predicate_contains_keymatch (p : Predicate) : bool :=
  match p with
  | KeyMatch _ => true
  | All parts | Any parts => existsb predicate_contains_keymatch parts
  | _ => false
  end.

Definition default_max_edges (p : Predicate) : Z :=
  if is_keymatch_rooted p then DEFAULT_KEYMATCH_TOP_K else DEFAULT_SCORED_TOP_K.

Definition predicate_is_vector_similar_rooted (p : Predicate) : bool :=
  match p with
  | VectorSimilar _ _ => true
  | All (VectorSimilar _ _ :: _) => true
  | _ => false
  end.

Fixpoint predicate_nesting_depth (p : Predicate) : nat :=
  match p with
  | All parts | Any parts => S (foldr (λ p n, Nat.max (predicate_nesting_depth p) n) 0%nat parts)
  | _ => 0%nat
  end.

(** [iter.try_for_each(f)] *)
Definition try_for_each {E A} (f : A → result E ()) : list A → result E () :=
  fix go l := match l with [] => Ok () | x :: l => match f x with Ok _ => go l | Err e => Err e end end.

Fixpoint validate_pred (p : Predicate) : result Invalid () :=
  match p with
  | KeyMatch field | FieldEqual field => if is_empty field then Err EmptyField else Ok ()
  | Overlap field min =>
      if is_empty field then Err EmptyField
      else if negb (lt 0 min && le min ONE) then Err (OverlapMin min) else Ok ()
  | NumericWithin field tolerance =>
      if is_empty field then Err EmptyField
      else if negb (is_finite tolerance && le 0 tolerance) then Err (Tolerance tolerance) else Ok ()
  | GeoRadius field km =>
      if is_empty field then Err EmptyField
      else if negb (is_finite km && lt 0 km) then Err (RadiusKm km) else Ok ()
  | VectorSimilar field min =>
      if is_empty field then Err EmptyField
      else if negb (lt 0 min && le min ONE) then Err (SimilarMin min) else Ok ()
  | All [] => Err EmptyAll
  | All parts => try_for_each validate_pred parts
  | Any [] => Err EmptyAny
  | Any parts => try_for_each validate_pred parts
  end.

Definition validate (self : RuleDef) : result Invalid () :=
  let depth := predicate_nesting_depth (predicate self) in
  if is_empty (name self) then Err (EmptyName "name")
  else if is_empty (src_label self) then Err (EmptyName "src_label")
  else if is_empty (dst_label self) then Err (EmptyName "dst_label")
  else if is_empty (edge_type self) then Err (EmptyName "edge_type")
  else
    _ ← validate_pred (predicate self);
    if (MAX_PREDICATE_NESTING_DEPTH <? depth)%nat then Err (TooDeep depth)
    else if approximate self && negb (predicate_is_vector_similar_rooted (predicate self)) then Err NotVectorRooted
    else if bool_decide (is_Some (via_label self)) && approximate self then Err ApproximateVia
    else
      _ ← match via_label self, via_edge self with
          | Some _, None | None, Some _ => Err HalfVia
          | Some l, Some e => if is_empty l then Err (EmptyVia "via_label") else if is_empty e then Err (EmptyVia "via_edge") else Ok ()
          | None, None => Ok ()
          end;
      match namespace self with
      | Some ns => if negb (valid_namespace ns) then Err (BadNamespace ns) else Ok ()
      | None => Ok ()
      end.

Definition sees_namespace (self : RuleDef) (ns : string) : bool :=
  match namespace self with None => true | Some n => String.eqb n ns end.

Fixpoint collect_fields (p : Predicate) : gset string :=
  match p with
  | KeyMatch field | FieldEqual field | Overlap field _ | NumericWithin field _ | GeoRadius field _ | VectorSimilar field _ => {[field]}
  | All parts | Any parts => foldr (λ p s, collect_fields p ∪ s) ∅ parts
  end.

Definition watched_fields (self : RuleDef) : gset string := collect_fields (predicate self).

(** ** Evaluation *)

Definition as_finite_f64 (v : Value.t) : option Z :=
  match v with
  | Value.Int i => Some (of_i64 i)
  | Value.Float f => if is_finite f then Some f else None
  | _ => None
  end.

(** 90, 180 and [6371.0088], and [PI / 180] as [to_radians] multiplies by it *)
Definition F90 : Z := 4636033603912859648.
Definition F180 : Z := 4640537203540230144.
Definition EARTH_RADIUS_KM : Z := 4663727012957356084.
Definition RADS_PER_DEG : Z := 4580687790476533049.
Definition TWO : Z := 4611686018427387904.

Definition in_range (bound x : Z) : bool := le (opposite bound) x && le x bound.

Definition as_latlon (v : Value.t) : option (Z * Z) :=
  match v with
  | Value.List [lat; lon] =>
      lat ← as_finite_f64 lat;
      lon ← as_finite_f64 lon;
      if in_range F90 lat && in_range F180 lon then Some (lat, lon) else None
  | _ => None
  end.

Definition as_numeric_list (v : Value.t) : option (list Z) :=
  match v with
  | Value.List (item :: items) => mapM as_finite_f64 (item :: items)
  | _ => None
  end.

(** The sums of [cosine]'s loop. *)
Definition dot_step (acc : Z * Z * Z) (xy : Z * Z) : Z * Z * Z :=
  let '(dot, na2, nb2) := acc in
  let '(x, y) := xy in
  (add dot (mul x y), add na2 (mul x x), add nb2 (mul y y)).

Definition cosine (a b : list Z) : option Z :=
  let '(dot, na2, nb2) := foldl dot_step (0, 0, 0) (zip a b) in
  let na := sqrt na2 in
  let nb := sqrt nb2 in
  if negb (lt 0 na && lt 0 nb) then None
  else
    let cos := div dot (mul na nb) in
    if is_finite cos then Some cos else None.

Definition clamp_unit (x : Z) : Z := if lt x 0 then 0 else if lt ONE x then ONE else x.

(** [b.then_some(x)] *)
Definition then_some {A} (b : bool) (x : A) : option A := if b then Some x else None.

(** The loops of [All] (a minimum, nothing as soon as a part has none) and of [Any]
    (the maximum of those that match). *)
Definition min_loop (f : Predicate → option Z) : list Predicate → Z → option Z :=
  fix go ps score := match ps with
                     | [] => Some score
                     | p :: ps => match f p with Some s => go ps (min score s) | None => None end
                     end.
Definition max_loop (f : Predicate → option Z) : list Predicate → option Z → option Z :=
  fix go ps best := match ps with
                    | [] => best
                    | p :: ps => go ps match f p with
                                       | Some s => Some match best with None => s | Some prev => max prev s end
                                       | None => best
                                       end
                    end.

Section evaluate.
Context (sin cos : Z → Z) (atan2 : Z → Z → Z).

Definition to_radians (x : Z) : Z := mul x RADS_PER_DEG.
Definition square (x : Z) : Z := mul x x.

Definition haversine_km (lat1 lon1 lat2 lon2 : Z) : Z :=
  let phi1 := to_radians lat1 in
  let phi2 := to_radians lat2 in
  let dphi := to_radians (sub lat2 lat1) in
  let dlam := to_radians (sub lon2 lon1) in
  let a := clamp_unit (add (square (sin (div dphi TWO))) (mul (mul (cos phi1) (cos phi2)) (square (sin (div dlam TWO))))) in
  let c := mul TWO (atan2 (sqrt a) (sqrt (sub ONE a))) in
  mul EARTH_RADIUS_KM c.

Definition key_match (v : Value.t) (dst_key : string) : bool :=
  match v with
  | Value.Str s => String.eqb s dst_key
  | Value.List items =>
      existsb (λ v, match v with Value.Str s => String.eqb s dst_key | _ => false end) (take MAX_KEYMATCH_LIST items)
  | _ => false
  end.

Definition overlap (a b : gset ValueKey.t) (min : Z) : option Z :=
  let inter := size (a ∩ b) in
  let union := size (a ∪ b) in
  if ((union =? 0) || (inter =? 0))%nat then None
  else
    let j := div (of_i64 (Z.of_nat inter)) (of_i64 (Z.of_nat union)) in
    then_some (le min j) j.

Definition numeric_within (a b tolerance : Z) : option Z :=
  let delta := abs (sub a b) in
  if eq tolerance 0 then then_some (eq delta 0) ONE
  else then_some (le delta tolerance) (sub ONE (div delta tolerance)).

Definition geo_within (a b : Z * Z) (km : Z) : option Z :=
  let d := haversine_km a.1 a.2 b.1 b.2 in
  if negb (is_finite d) then None else then_some (le d km) (sub ONE (div d km)).

Definition vector_similar (a b : list Z) (min : Z) : option Z :=
  if negb (length a =? length b)%nat then None
  else
    c ← cosine a b;
    let c := F64Ops.min c ONE in
    then_some (le min c) c.

Fixpoint evaluate (pred : Predicate) (src dst : NodeView) : option Z :=
  match pred with
  | KeyMatch field => v ← props src field; then_some (key_match v (key dst)) ONE
  | FieldEqual field =>
      a ← props src field ≫= ValueKey.from_value;
      b ← props dst field ≫= ValueKey.from_value;
      then_some (bool_decide (a = b)) ONE
  | Overlap field min =>
      a ← props src field ≫= list_tokens;
      b ← props dst field ≫= list_tokens;
      overlap a b min
  | All [] => None
  | All parts => min_loop (λ p, evaluate p src dst) parts INF
  | Any parts => max_loop (λ p, evaluate p src dst) parts None
  | NumericWithin field tolerance =>
      if negb (is_finite tolerance) || lt tolerance 0 then None
      else
        a ← props src field ≫= as_finite_f64;
        b ← props dst field ≫= as_finite_f64;
        numeric_within a b tolerance
  | GeoRadius field km =>
      if negb (is_finite km) || le km 0 then None
      else
        a ← props src field ≫= as_latlon;
        b ← props dst field ≫= as_latlon;
        geo_within a b km
  | VectorSimilar field min =>
      a ← props src field ≫= as_numeric_list;
      b ← props dst field ≫= as_numeric_list;
      vector_similar a b min
  end.

(** ** What a match means *)

Lemma min_loop_Some f ps score : is_Some (min_loop f ps score) ↔ Forall (λ p, is_Some (f p)) ps.
Proof.
  revert score. induction ps as [|p ps IH]; intros score; cbn; [split; [done|by eexists]|].
  rewrite Forall_cons. destruct (f p) as [s|]; [rewrite IH; split; [by eauto|by intros [_ ?]]|split; [by intros []|by intros [[] _]]].
Qed.

Lemma max_loop_Some f ps best : is_Some (max_loop f ps best) ↔ is_Some best ∨ Exists (λ p, is_Some (f p)) ps.
Proof.
  revert best. induction ps as [|p ps IH]; intros best; cbn; [rewrite Exists_nil; tauto|]. rewrite IH, Exists_cons.
  destruct (f p) as [s|]; [split; [by eauto|]; intros _; left; by destruct best|]. split; [by intros [?|?]; auto|]. intros [?|[H|?]]; auto. by destruct H.
Qed.

Lemma evaluate_all ps s d : is_Some (evaluate (All ps) s d) ↔ ps ≠ [] ∧ Forall (λ p, is_Some (evaluate p s d)) ps.
Proof. destruct ps as [|p ps]; [split; [by intros []|by intros []]|]. cbn [evaluate]. rewrite min_loop_Some. naive_solver. Qed.

Lemma evaluate_any ps s d : is_Some (evaluate (Any ps) s d) ↔ Exists (λ p, is_Some (evaluate p s d)) ps.
Proof. cbn [evaluate]. rewrite max_loop_Some. split; [|tauto]. intros [H|?]; [by destruct H|done]. Qed.

Lemma min_loop_ext f g ps score : Forall (λ p, f p = g p) ps → min_loop f ps score = min_loop g ps score.
Proof. intros H. revert score. induction H as [|p ps Hp _ IH]; intros score; cbn; [done|]. rewrite Hp. destruct (g p); [apply IH|done]. Qed.

Lemma max_loop_ext f g ps best : Forall (λ p, f p = g p) ps → max_loop f ps best = max_loop g ps best.
Proof. intros H. revert best. induction H as [|p ps Hp _ IH]; intros best; cbn; [done|]. rewrite Hp. apply IH. Qed.

Lemma elem_of_collect_all f ps p : p ∈ ps → f ∈ collect_fields p → f ∈ foldr (λ p s, collect_fields p ∪ s) ∅ ps.
Proof. intros Hp Hf. induction Hp as [|? ? ? _ IH]; cbn; set_solver. Qed.

(** A predicate reads no field but the ones it collects. *)
Lemma evaluate_fields p s d s' d' : key d = key d' →
  (∀ f, f ∈ collect_fields p → props s f = props s' f ∧ props d f = props d' f) → evaluate p s d = evaluate p s' d'.
Proof.
  intros Hk. induction p as [f|f|f m|ps IH|f t|f km|f m|ps IH] using Predicate_parts_ind; intros Hf; cbn [collect_fields] in Hf.
  4: { destruct ps as [|p ps]; [done|]. cbn [evaluate]. apply min_loop_ext. rewrite Forall_forall in IH |- *. intros q Hq. apply IH; [done|].
       intros f Hfq. apply Hf. by eapply elem_of_collect_all. }
  7: { cbn [evaluate]. apply max_loop_ext. rewrite Forall_forall in IH |- *. intros q Hq. apply IH; [done|].
       intros f Hfq. apply Hf. by eapply elem_of_collect_all. }
  all: cbn [evaluate]; destruct (Hf f) as [E1 E2]; [set_solver|]; by rewrite ?E1, ?E2, ?Hk.
Qed.

End evaluate.

End RuleDef.
