(* ===== verification/RuleCandidates.v ===== *)
(** * Rules: candidate indexes

    Models [crates/core-rules/src/index.rs]: how a predicate says where its
    candidates are ([CandidateSpec]), the keys a node is filed under and the keys it
    probes, and one side of a rule's index ([SideIndex]) with its insertions,
    removals and candidate sets.

    The vector graph is not modelled: a side here has none ([hnsw] is [None]), so an
    [Hnsw] leg keeps and answers its tracked set, as the code does without a graph.
    No predicate yields [VectorClusters], which is left out.  The suffix norms and
    anchors kept beside [vec_meta] are read by the early exit of the cosine only and
    are left out with it. *)

From stdpp Require Import pretty.
From S2P Require Import Prelude Types Float64 Float64Ops RuleDef.
Open Scope Z_scope.

Module RuleIndex.
Import F64 F64Ops RuleDef.

Inductive CandidateSpec :=
| ByKey
| Scalar (field : string)
| Tokens (field : string)
| ScalarOrElements (field : string)
| NumericBucket (field : string) (tolerance : Z)
| GeoGrid (field : string) (km : Z)
| ScanAll (field : string)
| Hnsw (field : string) (k : Z) (floor : option Z)
| Union (specs : list CandidateSpec)
| Intersect (specs : list CandidateSpec).

Fixpoint candidate_spec (p : Predicate) : CandidateSpec :=
  match p with
  | KeyMatch _ => ByKey
  | FieldEqual field => Scalar field
  | Overlap field _ => Tokens field
  | NumericWithin field tolerance => NumericBucket field tolerance
  | GeoRadius field km => GeoGrid field km
  | VectorSimilar field _ => ScanAll field
  | All parts => Intersect (map candidate_spec parts)
  | Any parts => Union (map candidate_spec parts)
  end.

Fixpoint candidate_spec_approx_with_floor (p : Predicate) (k : Z) (floored : bool) : CandidateSpec :=
  match p with
  | VectorSimilar field min => Hnsw field k (then_some floored min)
  | All parts => Intersect (map (λ p, candidate_spec_approx_with_floor p k floored) parts)
  | other => candidate_spec other
  end.

Fixpoint spec_has_hnsw (spec : CandidateSpec) : bool :=
  match spec with
  | Hnsw _ _ _ => true
  | Union parts | Intersect parts => existsb spec_has_hnsw parts
  | _ => false
  end.

(** Induction through the parts of [Union] and [Intersect]. *)
Definition is_leaf (s : CandidateSpec) : bool := match s with Union _ | Intersect _ => false | _ => true end.

Section spec_ind.
Variable P : CandidateSpec → Prop.
Hypothesis Hleaf : ∀ s, is_leaf s = true → P s.
Hypothesis Hunion : ∀ ss, Forall P ss → P (Union ss).
Hypothesis Hinter : ∀ ss, Forall P ss → P (Intersect ss).

Fixpoint spec_parts_ind (s : CandidateSpec) : P s :=
  let go := fix go (ss : list CandidateSpec) : Forall P ss :=
    match ss with [] => Forall_nil_2 _ | s :: ss => Forall_cons_2 _ _ _ (spec_parts_ind s) (go ss) end in
  match s with
  | Union ss => Hunion ss (go ss)
  | Intersect ss => Hinter ss (go ss)
  | s => Hleaf s eq_refl
  end.
End spec_ind.

Fixpoint spec_is_scan_all_universe (spec : CandidateSpec) : bool :=
  match spec with
  | ScanAll _ => true
  | Intersect parts => negb (bool_decide (length parts = 0%nat)) && forallb spec_is_scan_all_universe parts
  | _ => false
  end.

Fixpoint spec_is_bykey_external (spec : CandidateSpec) : bool :=
  match spec with
  | ByKey => true
  | Intersect parts => negb (bool_decide (length parts = 0%nat)) && forallb spec_is_bykey_external parts
  | _ => false
  end.

(** ** Keys *)

Definition floor_to_i64 (x : Z) : Z := if negb (is_finite x) then 0 else floor_i64 x.

Definition numeric_index_key (v tolerance : Z) : option ValueKey.t :=
  if negb (is_finite tolerance) || lt tolerance 0 then None
  else if eq tolerance 0 then Some (ValueKey.FloatBits (if eq v 0 then 0 else v))
  else Some (ValueKey.Int (floor_to_i64 (div v tolerance))).

Definition numeric_probe_keys (v tolerance : Z) : gset ValueKey.t :=
  match numeric_index_key v tolerance with
  | None => ∅
  | Some (ValueKey.Int b) => {[ValueKey.Int (saturate (b - 1)); ValueKey.Int b; ValueKey.Int (saturate (b + 1))]}
  | Some k => {[k]}
  end.

(** [111.0], [1e-6], [360.0] and [0.05] *)
Definition KM_PER_DEG : Z := 4637511347540590592.
Definition MIN_CELL : Z := 4517329193108106637.
Definition FULL_TURN : Z := 4645040803167600640.
Definition MIN_COS : Z := 4587366580439587226.

Definition geo_cell (lat lon km : Z) : option (Z * Z * Z * Z) :=
  if negb (is_finite km) || le km 0 then None
  else
    let cell_deg := max (div km KM_PER_DEG) MIN_CELL in
    let gx := floor_to_i64 (div lat cell_deg) in
    let lon_cells := Z.max (ceil_i64 (div FULL_TURN cell_deg)) 1 in
    let gy := floor_to_i64 (div lon cell_deg) mod lon_cells in
    Some (gx, gy, cell_deg, lon_cells).

(** [format!("{gx}|{gy}")] *)
Definition cell_name (gx gy : Z) : ValueKey.t := ValueKey.Str (pretty gx +:+ "|" +:+ pretty gy).

Definition geo_index_key (lat lon km : Z) : option ValueKey.t :=
  '(gx, gy, _, _) ← geo_cell lat lon km; Some (cell_name gx gy).

Definition vec_dim_norm (v : Value.t) : option (Z * Z) :=
  xs ← as_numeric_list v;
  Some (wrap_u 32 (Z.of_nat (length xs)), sqrt (foldl (λ n2 x, add n2 (mul x x)) 0 xs)).

Definition SCAN_ALL_SENTINEL : ValueKey.t := ValueKey.Bool true.

Definition Getter : Type := string → option Value.t.

(** [option.into_iter().collect()] *)
Definition of_option (k : option ValueKey.t) : gset ValueKey.t := match k with Some k => {[k]} | None => ∅ end.

Definition union_map {A} (f : A → gset ValueKey.t) : list A → gset ValueKey.t :=
  fix go l := match l with [] => ∅ | x :: l => f x ∪ go l end.

Definition is_str (v : Value.t) : bool := match v with Value.Str _ => true | _ => false end.

Fixpoint index_keys (spec : CandidateSpec) (get : Getter) : gset ValueKey.t :=
  match spec with
  | ByKey => ∅
  | Scalar field => of_option (get field ≫= ValueKey.from_value)
  | Tokens field => default ∅ (get field ≫= list_tokens)
  | ScalarOrElements field =>
      match get field with
      | Some (Value.List items) => list_to_set (omap ValueKey.from_value (filter (λ v, is_str v = true) (take MAX_KEYMATCH_LIST items)))
      | Some v => of_option (ValueKey.from_value v)
      | None => ∅
      end
  | NumericBucket field tolerance => of_option (v ← get field ≫= as_finite_f64; numeric_index_key v tolerance)
  | GeoGrid field km => of_option ('(lat, lon) ← get field ≫= as_latlon; geo_index_key lat lon km)
  | ScanAll field => of_option ((λ _, SCAN_ALL_SENTINEL) <$> (get field ≫= as_numeric_list))
  | Hnsw _ _ _ => ∅
  | Union specs | Intersect specs => union_map (λ s, index_keys s get) specs
  end.

(** Whether a vector of the node would go into a graph. *)
Fixpoint hnsw_vector_present (spec : CandidateSpec) (get : Getter) : bool :=
  match spec with
  | Union specs | Intersect specs => existsb (λ s, hnsw_vector_present s get) specs
  | Hnsw field _ _ => bool_decide (is_Some (get field ≫= as_numeric_list))
  | _ => false
  end.

Section probe.
Context (cos : Z → Z).

Definition geo_probe_keys (lat lon km : Z) : gset ValueKey.t :=
  match geo_cell lat lon km with
  | None => ∅
  | Some (gx, gy, cell_deg, lon_cells) =>
      let cos_lat := max (cos (to_radians lat)) MIN_COS in
      let n := div (div km (mul KM_PER_DEG cos_lat)) cell_deg in
      let n := if is_finite n then Z.max (ceil_i64 n) 0 else 0 in
      list_to_set (dx ← seqZ (-1) 3; dy ← seqZ (- n) (2 * n + 1);
                   [cell_name (saturate (gx + dx)) (saturate (gy + dy) mod lon_cells)])
  end.

Fixpoint probe_keys (spec : CandidateSpec) (get : Getter) : gset ValueKey.t :=
  match spec with
  | NumericBucket field tolerance => default ∅ ((λ v, numeric_probe_keys v tolerance) <$> (get field ≫= as_finite_f64))
  | GeoGrid field km => default ∅ ((λ p, geo_probe_keys p.1 p.2 km) <$> (get field ≫= as_latlon))
  | Union specs | Intersect specs => union_map (λ s, probe_keys s get) specs
  | spec => index_keys spec get
  end.

(** ** One side of a rule's index *)

Record SideIndex := mk_side {
  by_key : gmap ValueKey.t (gset Z);
  vec_meta : gmap Z (Z * Z);
  ivf_drift : Z;
  hnsw_tracked : gset Z;
}.

Definition new_side : SideIndex := mk_side ∅ ∅ 0 ∅.

(** [self.by_key.entry(k).or_default().insert(node)] *)
Definition file_under (node : Z) (m : gmap ValueKey.t (gset Z)) (k : ValueKey.t) : gmap ValueKey.t (gset Z) :=
  <[k := {[node]} ∪ default ∅ (m !! k)]> m.

(** Out of the bucket, and the bucket out of the map when it is left empty. *)
Definition unfile (node : Z) (m : gmap ValueKey.t (gset Z)) (k : ValueKey.t) : gmap ValueKey.t (gset Z) :=
  match m !! k with
  | Some set => if decide (set ∖ {[node]} = ∅) then delete k m else <[k := set ∖ {[node]}]> m
  | None => m
  end.

Definition saturating_incr (n : Z) : Z := Z.min (n + 1) u64_max.

(** [record_vector_meta], on the value the vector comes from *)
Definition record_vector_meta (node : Z) (v : option Value.t) (m : gmap Z (Z * Z)) : gmap Z (Z * Z) :=
  match v ≫= vec_dim_norm with Some dn => <[node := dn]> m | None => m end.

Fixpoint insert (spec : CandidateSpec) (node : Z) (get : Getter) (self : SideIndex) : SideIndex :=
  match spec with
  | Union specs | Intersect specs => foldl (λ self s, insert s node get self) self specs
  | Hnsw field _ _ =>
      match get field ≫= as_numeric_list with
      | Some _ => mk_side (by_key self) (record_vector_meta node (get field) (vec_meta self)) (ivf_drift self) ({[node]} ∪ hnsw_tracked self)
      | None => self
      end
  | ScanAll field =>
      mk_side (foldl (file_under node) (by_key self) (elements (index_keys spec get)))
              (record_vector_meta node (get field) (vec_meta self)) (ivf_drift self) (hnsw_tracked self)
  | spec => mk_side (foldl (file_under node) (by_key self) (elements (index_keys spec get))) (vec_meta self) (ivf_drift self) (hnsw_tracked self)
  end.

Fixpoint remove (spec : CandidateSpec) (node : Z) (get : Getter) (self : SideIndex) : SideIndex :=
  match spec with
  | Union specs | Intersect specs => foldl (λ self s, remove s node get self) self specs
  | Hnsw field _ _ =>
      match get field ≫= as_numeric_list with
      | Some _ => mk_side (by_key self) (delete node (vec_meta self)) (saturating_incr (ivf_drift self)) (hnsw_tracked self ∖ {[node]})
      | None => self
      end
  | ScanAll field =>
      mk_side (foldl (unfile node) (by_key self) (elements (index_keys spec get)))
              (match get field ≫= as_numeric_list with Some _ => delete node (vec_meta self) | None => vec_meta self end)
              (ivf_drift self) (hnsw_tracked self)
  | spec => mk_side (foldl (unfile node) (by_key self) (elements (index_keys spec get))) (vec_meta self) (ivf_drift self) (hnsw_tracked self)
  end.

(** The nodes under the keys probed. *)
Definition under (self : SideIndex) (ks : gset ValueKey.t) : gset Z :=
  foldl (λ out k, out ∪ default ∅ (by_key self !! k)) ∅ (elements ks).

Definition hnsw_candidates (self : SideIndex) (field : string) (get : Getter) : gset Z :=
  match get field ≫= as_numeric_list with Some _ => hnsw_tracked self | None => ∅ end.

(** The loop of [intersect_candidates] over the sets after the first. *)
Fixpoint intersect_loop (acc : gset Z) (rest : list (gset Z)) : gset Z :=
  if decide (acc = ∅) then acc
  else match rest with
       | [] => acc
       | other :: rest => if decide (other = ∅) then ∅ else intersect_loop (acc ∩ other) rest
       end.

(** [intersect_candidates], on the child specs with their candidates. *)
Definition intersect_candidates (specs : list (CandidateSpec * gset Z)) : gset Z :=
  let scan_alls := filter (λ s, spec_is_scan_all_universe s.1 = true) specs in
  let restrictive := filter (λ s, spec_is_scan_all_universe s.1 = false ∧ spec_is_bykey_external s.1 = false) specs in
  match (if decide (restrictive = []) then scan_alls else restrictive) with
  | [] => ∅
  | first :: rest => intersect_loop first.2 rest.*2
  end.

(** [self.vec_meta.get(id).is_none_or(|(d, _)| *d == dim)] *)
Definition dim_fits (self : SideIndex) (dim id : Z) : bool :=
  match vec_meta self !! id with None => true | Some (d, _) => d =? dim end.

Fixpoint candidates (self : SideIndex) (spec : CandidateSpec) (get : Getter) : gset Z :=
  match spec with
  | Hnsw field _ _ => hnsw_candidates self field get
  | Union specs => foldr (λ s out, candidates self s get ∪ out) ∅ specs
  | Intersect specs => intersect_candidates (map (λ s, (s, candidates self s get)) specs)
  | ScanAll field =>
      let out := under self (probe_keys spec get) in
      match get field ≫= vec_dim_norm with
      | Some (dim, _) => filter (λ id, dim_fits self dim id = true) out
      | None => out
      end
  | spec => under self (probe_keys spec get)
  end.

End probe.

(** ** What a side holds *)

Definition bucket (b : gmap ValueKey.t (gset Z)) (k : ValueKey.t) : gset Z := default ∅ (b !! k).

Lemma elem_of_file m node b ks k : m ∈ bucket (foldl (file_under node) b ks) k ↔ m ∈ bucket b k ∨ m = node ∧ k ∈ ks.
Proof.
  revert b. induction ks as [|x ks IH]; intros b; cbn [foldl]; [set_solver|]. rewrite IH, elem_of_cons. unfold bucket, file_under.
  destruct (decide (k = x)) as [->|]; [rewrite lookup_insert_eq|rewrite lookup_insert_ne by done]; set_solver.
Qed.

Lemma elem_of_unfile m node b ks k : m ∈ bucket (foldl (unfile node) b ks) k ↔ m ∈ bucket b k ∧ ¬ (m = node ∧ k ∈ ks).
Proof.
  revert b. induction ks as [|x ks IH]; intros b; cbn [foldl]; [set_solver|]. rewrite IH, elem_of_cons. unfold bucket, unfile.
  destruct (b !! x) as [set|] eqn:E.
  - destruct (decide (k = x)) as [->|Hne].
    + rewrite E. cbn. destruct (decide (set ∖ {[node]} = ∅)); [rewrite lookup_delete_eq|rewrite lookup_insert_eq]; set_solver.
    + destruct (decide (set ∖ {[node]} = ∅)); [rewrite lookup_delete_ne by done|rewrite lookup_insert_ne by done]; set_solver.
  - destruct (decide (k = x)) as [->|Hne]; [rewrite E; cbn|]; set_solver.
Qed.

Lemma elem_of_union_map {A} (f : A → gset ValueKey.t) l k : k ∈ union_map f l ↔ ∃ x, x ∈ l ∧ k ∈ f x.
Proof. induction l as [|x l IH]; cbn; [set_solver|]. rewrite elem_of_union, IH. set_solver. Qed.

(** The fields of the vector legs. *)
Fixpoint vector_fields (spec : CandidateSpec) : gset string :=
  match spec with
  | ScanAll field | Hnsw field _ _ => {[field]}
  | Union specs | Intersect specs => foldr (λ s fs, vector_fields s ∪ fs) ∅ specs
  | _ => ∅
  end.

Lemma elem_of_vector_fields f specs : f ∈ foldr (λ s fs, vector_fields s ∪ fs) ∅ specs ↔ ∃ s, s ∈ specs ∧ f ∈ vector_fields s.
Proof. induction specs as [|s specs IH]; cbn; [set_solver|]. rewrite elem_of_union, IH. set_solver. Qed.

Ltac spec_induction spec :=
  induction spec as [leaf Hleaf|specs IH|specs IH] using spec_parts_ind; [destruct leaf; try discriminate Hleaf; clear Hleaf| |].

(** A fold over the parts of a spec keeps what each part keeps. *)
Lemma fold_parts {A} (f : SideIndex → A → SideIndex) (Q : SideIndex → Prop) l ix :
  Q ix → (∀ x ix, x ∈ l → Q ix → Q (f ix x)) → Q (foldl f ix l).
Proof. revert ix. induction l as [|x l IH]; intros ix H0 Hf; cbn; [done|]. apply IH; [apply Hf; [by left|done]|]. intros y iy Hy. apply Hf. by right. Qed.

Lemma insert_bucket spec node get ix m k :
  m ∈ bucket (by_key (insert spec node get ix)) k ↔ m ∈ bucket (by_key ix) k ∨ m = node ∧ k ∈ index_keys spec get.
Proof.
  revert ix. spec_induction spec; intros ix; cbn [insert index_keys by_key].
  all: try (rewrite elem_of_file, elem_of_elements; done).
  1: destruct (get field ≫= as_numeric_list); cbn [by_key]; set_solver.
  all: revert ix; induction IH as [|s specs Hs _ IH]; intros ix; cbn [foldl union_map]; [set_solver|]; rewrite IH, Hs; set_solver.
Qed.

Lemma remove_bucket spec node get ix m k :
  m ∈ bucket (by_key (remove spec node get ix)) k ↔ m ∈ bucket (by_key ix) k ∧ ¬ (m = node ∧ k ∈ index_keys spec get).
Proof.
  revert ix. spec_induction spec; intros ix; cbn [remove index_keys by_key].
  all: try (rewrite elem_of_unfile, elem_of_elements; done).
  1: destruct (get field ≫= as_numeric_list); cbn [by_key]; set_solver.
  all: revert ix; induction IH as [|s specs Hs _ IH]; intros ix; cbn [foldl union_map]; [set_solver|]; rewrite IH, Hs; set_solver.
Qed.

Lemma insert_tracked spec node get ix m :
  m ∈ hnsw_tracked (insert spec node get ix) ↔ m ∈ hnsw_tracked ix ∨ m = node ∧ hnsw_vector_present spec get = true.
Proof.
  revert ix. spec_induction spec; intros ix; cbn [insert hnsw_vector_present hnsw_tracked].
  all: try (split; [by left|by intros [?|[_ ?]]]).
  1: destruct (get field ≫= as_numeric_list); cbn [hnsw_tracked]; [rewrite bool_decide_eq_true_2 by done|rewrite bool_decide_eq_false_2 by by intros []]; set_solver.
  all: revert ix; induction IH as [|s specs Hs _ IH]; intros ix; cbn [foldl existsb]; [split; [by left|by intros [?|[_ ?]]]|]; rewrite IH, Hs, orb_true_iff; tauto.
Qed.

Lemma remove_tracked spec node get ix m :
  m ∈ hnsw_tracked (remove spec node get ix) ↔ m ∈ hnsw_tracked ix ∧ ¬ (m = node ∧ hnsw_vector_present spec get = true).
Proof.
  revert ix. spec_induction spec; intros ix; cbn [remove hnsw_vector_present hnsw_tracked].
  all: try (split; [intros ?; split; [done|by intros []]|by intros []]).
  1: destruct (get field ≫= as_numeric_list); cbn [hnsw_tracked]; [rewrite bool_decide_eq_true_2 by done|rewrite bool_decide_eq_false_2 by by intros []]; set_solver.
  all: revert ix; induction IH as [|s specs Hs _ IH]; intros ix; cbn [foldl existsb]; [split; [intros ?; split; [done|by intros []]|by intros []]|]; rewrite IH, Hs, orb_true_iff; tauto.
Qed.

Lemma insert_meta_other spec node get ix m : m ≠ node → vec_meta (insert spec node get ix) !! m = vec_meta ix !! m.
Proof.
  intros Hm. revert ix. spec_induction spec; intros ix; cbn [insert vec_meta]; try done.
  1,2: unfold record_vector_meta; destruct (get field) as [v|]; cbn [mbind option_bind]; [|done].
  1: destruct (vec_dim_norm v); [by rewrite lookup_insert_ne|done].
  1: destruct (as_numeric_list v); [|done]; cbn; destruct (vec_dim_norm v); [by rewrite lookup_insert_ne|done].
  all: apply (fold_parts _ (λ ix', vec_meta ix' !! m = vec_meta ix !! m)); [done|]; intros s ix' Hs <-; rewrite Forall_forall in IH; by apply IH.
Qed.

Lemma remove_meta_other spec node get ix m : m ≠ node → vec_meta (remove spec node get ix) !! m = vec_meta ix !! m.
Proof.
  intros Hm. revert ix. spec_induction spec; intros ix; cbn [remove vec_meta]; try done.
  1,2: destruct (get field ≫= as_numeric_list); cbn; by rewrite ?lookup_delete_ne by done.
  all: apply (fold_parts _ (λ ix', vec_meta ix' !! m = vec_meta ix !! m)); [done|]; intros s ix' Hs <-; rewrite Forall_forall in IH; by apply IH.
Qed.

(** With one vector field, the last leg's record is every leg's. *)
Lemma insert_meta_same spec node get ix f0 dn : vector_fields spec ⊆ {[f0]} → get f0 ≫= vec_dim_norm = Some dn →
  f0 ∈ vector_fields spec ∨ vec_meta ix !! node = Some dn → vec_meta (insert spec node get ix) !! node = Some dn.
Proof.
  intros Hsub Hdn. revert ix. spec_induction spec; intros ix; cbn [insert vec_meta vector_fields] in *.
  1-6: by intros [?|?]; [set_solver|].
  1,2: intros _; assert (field = f0) as -> by set_solver; destruct (get f0) as [v|]; [|done]; cbn [mbind option_bind] in *.
  1: unfold record_vector_meta; cbn; rewrite Hdn; by rewrite lookup_insert_eq.
  1: destruct (as_numeric_list v) eqn:E; [|unfold vec_dim_norm in Hdn; by rewrite E in Hdn]; unfold record_vector_meta; cbn; rewrite Hdn; by rewrite lookup_insert_eq.
  all: rewrite elem_of_vector_fields; intros H; assert (vec_meta ix !! node = Some dn ∨ ∃ s, s ∈ specs ∧ f0 ∈ vector_fields s) as H' by tauto; clear H.
  all: revert ix H'; induction IH as [|s specs Hs _ IH]; intros ix H'; cbn [foldl foldr] in *; [destruct H' as [?|(s & Hs & _)]; [done|set_solver]|].
  all: apply IH; [set_solver|]; destruct H' as [H|(x & [->|Hx]%elem_of_cons & Hf)]; [left; apply Hs; [set_solver|by right]|left; apply Hs; [set_solver|by left]|right; by exists x].
Qed.

(** A side files the nodes [M], each under the keys of its values. *)
Record side_ok (ix : SideIndex) (spec : CandidateSpec) (M : gset Z) (get : Z → Getter) : Prop := {
  so_bucket k m : m ∈ bucket (by_key ix) k ↔ m ∈ M ∧ k ∈ index_keys spec (get m);
  so_tracked m : m ∈ hnsw_tracked ix ↔ m ∈ M ∧ hnsw_vector_present spec (get m) = true;
  so_meta m f dn : m ∈ M → vector_fields spec = {[f]} → get m f ≫= vec_dim_norm = Some dn → vec_meta ix !! m = Some dn;
}.

Lemma index_keys_ext spec g g' : (∀ f, g f = g' f) → index_keys spec g = index_keys spec g'.
Proof.
  intros Hg. spec_induction spec; cbn; rewrite ?Hg; try done. all: induction IH as [|s specs Hs _ IH]; cbn; [done|by rewrite Hs, IH].
Qed.

Lemma hnsw_vector_present_ext spec g g' : (∀ f, g f = g' f) → hnsw_vector_present spec g = hnsw_vector_present spec g'.
Proof.
  intros Hg. spec_induction spec; cbn; rewrite ?Hg; try done. all: induction IH as [|s specs Hs _ IH]; cbn; [done|by rewrite Hs, IH].
Qed.

Lemma side_ok_ext ix spec M get get' : (∀ m f, m ∈ M → get m f = get' m f) → side_ok ix spec M get → side_ok ix spec M get'.
Proof.
  intros Hg [Hb Ht Hm]. split.
  - intros k m. rewrite Hb. split; intros [HM Hk]; (split; [done|]); [rewrite <-(index_keys_ext _ (get m))|rewrite (index_keys_ext _ (get m) (get' m))]; auto.
  - intros m. rewrite Ht. split; intros [HM Hk]; (split; [done|]); [rewrite <-(hnsw_vector_present_ext _ (get m))|rewrite (hnsw_vector_present_ext _ (get m) (get' m))]; auto.
  - intros m f dn HM Hf Hdn. apply (Hm m f dn HM Hf). by rewrite Hg.
Qed.

Lemma side_ok_new spec get : side_ok new_side spec ∅ get.
Proof. split; cbn; intros; set_solver. Qed.

Lemma side_ok_insert ix spec M get node : side_ok ix spec M get → node ∉ M → side_ok (insert spec node (get node) ix) spec ({[node]} ∪ M) get.
Proof.
  intros [Hb Ht Hm] Hn. split.
  - intros k m. rewrite insert_bucket, Hb. set_solver.
  - intros m. rewrite insert_tracked, Ht. set_solver.
  - intros m f dn HM Hf Hdn. destruct (decide (m = node)) as [->|Hne].
    + apply (insert_meta_same _ _ _ _ f); [set_solver|done|left; set_solver].
    + rewrite insert_meta_other by done. apply (Hm m f); [set_solver|done..].
Qed.

Lemma side_ok_remove ix spec M get node old : side_ok ix spec M get → (node ∈ M → ∀ f, old f = get node f) →
  side_ok (remove spec node old ix) spec (M ∖ {[node]}) get.
Proof.
  intros [Hb Ht Hm] Hold. split.
  - intros k m. rewrite remove_bucket, Hb. split; [|set_solver]. intros [[HM Hk] Hno]. split; [|done]. apply elem_of_difference. split; [done|].
    intros ->%elem_of_singleton. apply Hno. split; [done|]. by rewrite (index_keys_ext _ old (get node)) by auto.
  - intros m. rewrite remove_tracked, Ht. split; [|set_solver]. intros [[HM Hk] Hno]. split; [|done]. apply elem_of_difference. split; [done|].
    intros ->%elem_of_singleton. apply Hno. split; [done|]. by rewrite (hnsw_vector_present_ext _ old (get node)) by auto.
  - intros m f dn [HM Hne]%elem_of_difference Hf Hdn. rewrite remove_meta_other by set_solver. by apply (Hm m f).
Qed.

(** ** Candidates cover matches *)

(** The predicates whose keys are exact: equality, overlap, numbers at tolerance
    zero, vectors by their dimension, and what is composed of them. *)
Fixpoint indexable (p : Predicate) : bool :=
  match p with
  | FieldEqual _ | Overlap _ _ | VectorSimilar _ _ => true
  | NumericWithin _ tolerance => eq tolerance 0
  | KeyMatch _ | GeoRadius _ _ => false
  | All parts | Any parts => forallb indexable parts
  end.

(** Numbers are within their types. *)
Definition number_ok (v : Value.t) : Prop :=
  match v with Value.Int i => in_i 64 i | Value.Float f => in_u 64 f | _ => True end.
Definition getter_ok (g : Getter) : Prop := ∀ f v, g f = Some v → number_ok v.

Lemma as_finite_ok g f v : getter_ok g → g f ≫= as_finite_f64 = Some v → in_u 64 v ∧ is_finite v = true.
Proof.
  intros Hg. destruct (g f) as [w|] eqn:E; [|done]. specialize (Hg f w E). destruct w as [i|b| | | | | | | | | |]; cbn in *; try done.
  - intros [= <-]. destruct (of_i64_spec i Hg) as (H1 & H2 & _). done.
  - destruct (is_finite b) eqn:Hf; [|done]. by intros [= <-].
Qed.

(** The node [m], of values [h], is filed for [spec]. *)
Record covers (ix : SideIndex) (spec : CandidateSpec) (h : Getter) (m : Z) : Prop := {
  cov_keys k : k ∈ index_keys spec h → m ∈ bucket (by_key ix) k;
  cov_meta f dn : f ∈ vector_fields spec → h f ≫= vec_dim_norm = Some dn → vec_meta ix !! m = Some dn;
}.

Lemma side_ok_covers ix spec M get m : side_ok ix spec M get → m ∈ M → (∃ f, vector_fields spec ⊆ {[f]}) → covers ix spec (get m) m.
Proof.
  intros [Hb _ Hm] HM [f0 Hf]. split; [intros k Hk; by apply Hb|]. intros f dn Hin Hdn. apply (Hm m f); [done| |done].
  apply set_eq. intros x. rewrite elem_of_singleton. assert (f = f0) as -> by set_solver. split; [set_solver|by intros ->].
Qed.

Lemma covers_part ix sp specs h m s : sp = Union specs ∨ sp = Intersect specs → covers ix sp h m → s ∈ specs → covers ix s h m.
Proof.
  intros Hsp [Hk Hm] Hs. assert (index_keys sp h = union_map (λ s, index_keys s h) specs ∧ vector_fields sp = vector_fields (Union specs)) as [E1 E2] by (by destruct Hsp as [-> | ->]).
  rewrite E1 in Hk. rewrite E2 in Hm. split.
  - intros k Hin. apply Hk. apply elem_of_union_map. eauto.
  - intros f dn Hf. apply Hm. cbn. apply elem_of_vector_fields. eauto.
Qed.

Lemma elem_of_under ix ks m : m ∈ under ix ks ↔ ∃ k, k ∈ ks ∧ m ∈ bucket (by_key ix) k.
Proof.
  unfold under. transitivity (∃ k, k ∈ elements ks ∧ m ∈ bucket (by_key ix) k); [|by setoid_rewrite elem_of_elements].
  assert (∀ out, m ∈ foldl (λ out k, out ∪ default ∅ (by_key ix !! k)) out (elements ks) ↔ m ∈ out ∨ ∃ k, k ∈ elements ks ∧ m ∈ bucket (by_key ix) k) as H.
  2:{ rewrite H. set_solver. }
  induction (elements ks) as [|k l IH]; intros out; cbn [foldl]; [set_solver|]. rewrite IH. unfold bucket. set_solver.
Qed.

Lemma under_within ix spec M get ks m : side_ok ix spec M get → m ∈ under ix ks → m ∈ M.
Proof. intros [Hb _ _] (k & _ & Hk)%elem_of_under. by apply Hb in Hk as [? _]. Qed.

Lemma elem_of_intersect_loop m acc rest : m ∈ intersect_loop acc rest ↔ m ∈ acc ∧ ∀ s, s ∈ rest → m ∈ s.
Proof.
  revert acc. induction rest as [|o rest IH]; intros acc; cbn; destruct (decide (acc = ∅)) as [->|].
  1,3: split; [by intros ?%elem_of_empty|by intros [?%elem_of_empty _]].
  - split; [intros ?; split; [done|by intros s ?%not_elem_of_nil]|by intros []].
  - destruct (decide (o = ∅)) as [->|].
    + split; [by intros ?%elem_of_empty|]. intros [_ H]. by specialize (H ∅ ltac:(by left)).
    + rewrite IH, elem_of_intersection. split; [intros [[H1 H2] H3]|intros [H1 H2]]; (split; [|]).
      * done.
      * by intros s [->|?]%elem_of_cons; auto.
      * split; [done|apply H2; by left].
      * intros s Hs. apply H2. by right.
Qed.

(** A node in the candidates of every part is in those of the intersection, unless
    every part is resolved by key. *)
Lemma elem_of_intersect m (specs : list (CandidateSpec * gset Z)) :
  (∀ s, s ∈ specs → m ∈ s.2) → (∃ s, s ∈ specs ∧ spec_is_bykey_external s.1 = false) → m ∈ intersect_candidates specs.
Proof.
  intros Hm (s & Hs & Hext). unfold intersect_candidates.
  set (restr := filter _ specs). set (scans := filter (λ s, spec_is_scan_all_universe s.1 = true) specs).
  assert ((if decide (restr = []) then scans else restr) ≠ [] ∧ ∀ x, x ∈ (if decide (restr = []) then scans else restr) → x ∈ specs) as [Hne Hsub].
  { destruct (decide (restr = [])) as [E|E]; (split; [|intros x; unfold restr, scans; rewrite list_elem_of_filter; tauto]); [|done].
    intros E'. destruct (spec_is_scan_all_universe s.1) eqn:Eu.
    - assert (s ∈ scans) as Hin; [by apply list_elem_of_filter|]. rewrite E' in Hin. by apply not_elem_of_nil in Hin.
    - assert (s ∈ restr) as Hin; [by apply list_elem_of_filter|]. rewrite E in Hin. by apply not_elem_of_nil in Hin. }
  destruct (if decide (restr = []) then scans else restr) as [|first rest]; [done|]. apply elem_of_intersect_loop. split.
  - apply Hm, Hsub. by left.
  - intros x (y & -> & Hy)%list_elem_of_fmap. apply Hm, Hsub. by right.
Qed.

Lemma intersect_within m (specs : list (CandidateSpec * gset Z)) : m ∈ intersect_candidates specs → ∃ s, s ∈ specs ∧ m ∈ s.2.
Proof.
  unfold intersect_candidates. set (l := if decide _ then _ else _). assert (∀ x, x ∈ l → x ∈ specs) as Hl.
  { intros x. unfold l. case_decide; by intros [_ ?]%list_elem_of_filter. }
  destruct l as [|first rest]; [by intros ?%elem_of_empty|]. intros [? _]%elem_of_intersect_loop. exists first. split; [apply Hl; by left|done].
Qed.

(** Candidates are nodes the side files. *)
Lemma candidates_within cos ix spec0 M get spec g m : side_ok ix spec0 M get → m ∈ candidates cos ix spec g → m ∈ M.
Proof.
  intros Hok. spec_induction spec; cbn [candidates].
  all: try (by apply (under_within _ _ _ _ _ _ Hok)).
  - destruct (g field ≫= vec_dim_norm) as [[dim ?]|]; [intros [_ ?]%elem_of_filter|]; by eapply under_within.
  - unfold hnsw_candidates. destruct (g field ≫= as_numeric_list); [|by intros ?%elem_of_empty]. by intros [? _]%(so_tracked _ _ _ _ Hok).
  - induction IH as [|s specs Hs _ IH]; cbn; [by intros ?%elem_of_empty|]. intros [?|?]%elem_of_union; auto.
  - intros (s & (s' & <- & Hs)%list_elem_of_In%in_map_iff & Hm)%intersect_within. rewrite Forall_forall in IH. apply (IH s'); [by apply list_elem_of_In|done].
Qed.

Lemma indexable_not_external p : indexable p = true → spec_is_bykey_external (candidate_spec p) = false.
Proof.
  induction p as [f|f|f mn|ps IH|f t|f km|f mn|ps IH] using Predicate_parts_ind; cbn; try done. intros H. apply andb_false_iff.
  destruct ps as [|p ps]; [by left|]. right. cbn in *. apply andb_true_iff in H as [H _]. apply Forall_cons in IH as [IH _]. by rewrite IH.
Qed.

(** The getter that probes and the one that is filed: the ends of a pair, either way. *)
Definition ends (s d : NodeView) (g h : Getter) : Prop := g = props s ∧ h = props d ∨ g = props d ∧ h = props s.

Lemma field_equal_keys s d g h field : ends s d g h → is_Some (evaluate id id (λ _, id) (FieldEqual field) s d) →
  ∃ k, g field ≫= ValueKey.from_value = Some k ∧ h field ≫= ValueKey.from_value = Some k.
Proof.
  cbn. intros He [x Hx]. destruct (props s field ≫= _) as [a|] eqn:Ea; [|done]. destruct (props d field ≫= _) as [b|] eqn:Eb; [|done]. cbn in Hx.
  unfold then_some in Hx. case_bool_decide; [subst|done]. destruct He as [[-> ->]|[-> ->]]; eauto.
Qed.

Lemma overlap_keys s d g h field mn x : ends s d g h → (a ← props s field ≫= list_tokens; b ← props d field ≫= list_tokens; overlap a b mn) = Some x →
  ∃ a b k, g field ≫= list_tokens = Some a ∧ h field ≫= list_tokens = Some b ∧ k ∈ a ∧ k ∈ b.
Proof.
  intros He. destruct (props s field ≫= _) as [a|] eqn:Ea; [|done]. destruct (props d field ≫= _) as [b|] eqn:Eb; [|done]. cbn. unfold overlap.
  destruct (Nat.eqb_spec (size (a ∩ b)) 0) as [|Hsz]; [by rewrite orb_true_r|]. intros _. apply size_non_empty_iff in Hsz.
  apply set_choose in Hsz as [k Hk]. destruct He as [[-> ->]|[-> ->]]; [exists a, b, k|exists b, a, k]; set_solver.
Qed.

Lemma numeric_keys s d g h field t x : ends s d g h → getter_ok g → getter_ok h → eq t 0 = true →
  (a ← props s field ≫= as_finite_f64; b ← props d field ≫= as_finite_f64; numeric_within a b t) = Some x →
  ∃ a b, g field ≫= as_finite_f64 = Some a ∧ h field ≫= as_finite_f64 = Some b ∧ (if eq a 0 then 0 else a) = (if eq b 0 then 0 else b).
Proof.
  intros He Hg Hh Ht. destruct (props s field ≫= _) as [a|] eqn:Ea; [|done]. destruct (props d field ≫= _) as [b|] eqn:Eb; [|done]. cbn.
  unfold numeric_within. rewrite Ht. unfold then_some. destruct (eq (abs (sub a b)) 0) eqn:E0; [|done]. intros _.
  assert (getter_ok (props s) ∧ getter_ok (props d)) as [Hs Hd] by (destruct He as [[-> ->]|[-> ->]]; done).
  destruct (as_finite_ok _ _ _ Hs Ea) as [Ua Fa]. destruct (as_finite_ok _ _ _ Hd Eb) as [Ub Fb].
  pose proof (sub_zero a b Ua Ub Fa Fb E0) as Eab.
  assert ((if eq a 0 then 0 else a) = (if eq b 0 then 0 else b)) as Hk.
  { apply eq_bits in Eab as [_ [->|[Ha Hb]]]; [done| |done..]. destruct Ha as [-> | ->], Hb as [-> | ->]; done. }
  destruct He as [[-> ->]|[-> ->]]; [exists a, b|exists b, a]; done.
Qed.

Lemma vector_keys s d g h field mn x : ends s d g h →
  (a ← props s field ≫= as_numeric_list; b ← props d field ≫= as_numeric_list; vector_similar a b mn) = Some x →
  ∃ dim n n', is_Some (g field ≫= as_numeric_list) ∧ is_Some (h field ≫= as_numeric_list)
    ∧ g field ≫= vec_dim_norm = Some (dim, n) ∧ h field ≫= vec_dim_norm = Some (dim, n').
Proof.
  intros He. destruct (props s field ≫= _) as [a|] eqn:Ea; [|done]. destruct (props d field ≫= _) as [b|] eqn:Eb; [|done]. cbn. unfold vector_similar.
  destruct (Nat.eqb_spec (length a) (length b)) as [Hl|]; [|done]. intros _.
  destruct (props s field) as [v|] eqn:Ev; [|done]. destruct (props d field) as [w|] eqn:Ew; [|done]. cbn in Ea, Eb.
  destruct He as [[-> ->]|[-> ->]]; do 3 eexists; rewrite Ev, Ew; cbn; unfold vec_dim_norm; rewrite Ea, Eb; cbn; by rewrite Hl.
Qed.

Section complete.
Context (sin cos : Z → Z) (atan2 : Z → Z → Z).

(** A node filed for an indexable predicate that matches, on either side, is among
    the candidates the other node's values probe for. *)
Lemma candidates_complete p s d g h ix m : indexable p = true → ends s d g h → getter_ok g → getter_ok h →
  is_Some (evaluate sin cos atan2 p s d) → covers ix (candidate_spec p) h m → m ∈ candidates cos ix (candidate_spec p) g.
Proof.
  intros Hp He Hg Hh. induction p as [f|f|f mn|ps IH|f t|f km|f mn|ps IH] using Predicate_parts_ind; cbn in Hp; try done.
  - intros Hev [Hk _]. destruct (field_equal_keys s d g h f He Hev) as (k & Eg & Eh). cbn [candidate_spec candidates probe_keys]. apply elem_of_under. exists k.
    split; [cbn; rewrite Eg; set_solver|]. apply Hk. cbn. rewrite Eh. set_solver.
  - intros [x Hx] [Hk _]. destruct (overlap_keys s d g h f mn x He Hx) as (a & b & k & Eg & Eh & Ha & Hb). cbn [candidate_spec candidates probe_keys].
    apply elem_of_under. exists k. split; [cbn; by rewrite Eg|]. apply Hk. cbn. by rewrite Eh.
  - intros [Hne Hall]%evaluate_all Hc. cbn [candidate_spec candidates]. apply elem_of_intersect.
    + intros sp (q & <- & Hq)%list_elem_of_In%in_map_iff. apply in_map_iff in Hq as (r & <- & Hr%list_elem_of_In). cbn.
      rewrite Forall_forall in IH, Hall. rewrite forallb_forall in Hp. apply IH; [done|apply Hp; by apply list_elem_of_In|by apply Hall|].
      eapply (covers_part _ _ (map candidate_spec ps)); [by (left + right)|exact Hc|]. apply list_elem_of_In, in_map. by apply list_elem_of_In.
    + destruct ps as [|q ps]; [done|]. eexists. split; [by left|]. cbn. apply indexable_not_external. cbn in Hp. by apply andb_true_iff in Hp as [? _].
  - intros [x Hx] [Hk _]. cbn [evaluate] in Hx. destruct (negb (is_finite t) || lt t 0) eqn:Et; [done|].
    destruct (numeric_keys s d g h f t x He Hg Hh Hp Hx) as (a & b & Eg & Eh & Hab). cbn [candidate_spec candidates probe_keys]. apply elem_of_under.
    exists (ValueKey.FloatBits (if eq a 0 then 0 else a)). split.
    + rewrite Eg. cbn. unfold numeric_probe_keys, numeric_index_key. rewrite Et, Hp. set_solver.
    + apply Hk. cbn. rewrite Eh. cbn. unfold numeric_index_key. rewrite Et, Hp, Hab. set_solver.
  - intros [x Hx] [Hk Hm]. destruct (vector_keys s d g h f mn x He Hx) as (dim & n & n' & [xs Eg] & [ys Eh] & Dg & Dh).
    cbn [candidate_spec candidates probe_keys]. rewrite Dg. apply elem_of_filter. split.
    + unfold dim_fits. rewrite (Hm f (dim, n')); [apply Z.eqb_refl|cbn; set_solver|done].
    + apply elem_of_under. exists SCAN_ALL_SENTINEL. split; [cbn; rewrite Eg; set_solver|]. apply Hk. cbn. rewrite Eh. set_solver.
  - intros (q & Hq & Hev)%evaluate_any%Exists_exists Hc. cbn [candidate_spec candidates].
    assert (m ∈ candidates cos ix (candidate_spec q) g) as Hin.
    { rewrite Forall_forall in IH. rewrite forallb_forall in Hp. apply IH; [done|apply Hp; by apply list_elem_of_In|done|].
      eapply (covers_part _ _ (map candidate_spec ps)); [by (left + right)|exact Hc|]. apply list_elem_of_In, in_map. by apply list_elem_of_In. }
    clear -Hq Hin. induction Hq as [|r q ps _ IH]; cbn; set_solver.
Qed.

End complete.

End RuleIndex.
