(* ===== verification/RuleEngine.v ===== *)
(** * Rules: the engine

    Models the engine of [crates/core-rules/src/engine.rs] for rules between two
    nodes: the graph it reads and writes ([GraphMut]), the desired edges of a node
    ([compute_desired]), a source's top-k ([filter_src_top_k]), provenance with its
    reverse index ([ProvSets]), the difference between what is desired and what is
    there ([apply_desired_scoped], [apply_per_src_top_k]), the backfill of a new rule
    and the hook that runs when a node changes, with the second pass that lets other
    rules take the edges one rule let go of.

    Via-hop rules and rules over a vector graph are outside the model: a hook that
    meets a via-hop rule has no answer here, and the theorems are about rules with
    neither.  Indexes and provenance are those in memory (a snapshot's retained
    state has been read).  The columns are the values they answer, per node and
    field; the node table is any table with the laws of [NodeTableLaws]. *)

From S2P Require Import Prelude Order Assoc Topology Csr TopologyView EdgeStore Interner Utf8 Types EdgeProps Float64 ValueOps Float64Ops RuleDef RuleCandidates.
Open Scope Z_scope.

(** ** The node table the engine reads *)

Class NodeTable (I : Type) := {
  node_key : I → Z → option string;
  node_id : I → string → option Z;
  node_count : I → nat;
}.

(** A key names the node whose key it is, and no other. *)
Class NodeTableLaws (I : Type) `{NodeTable I} (ok : I → Prop) := {
  node_id_key i k n : ok i → node_id i k = Some n ↔ node_key i n = Some k;
  node_key_bound i k n : ok i → node_key i n = Some k → 0 ≤ n < Z.of_nat (node_count i);
}.

(** A fold whose steps can panic. *)
Fixpoint foldM {A S} (f : S → A → option S) (s : S) (l : list A) : option S :=
  match l with [] => Some s | x :: l => s ← f s x; foldM f s l end.

(** The elements of a [BTreeSet], the keys of a [BTreeMap], in order. *)
Definition iter_set {K} `{RustOrd K} `{Countable K} (s : gset K) : list K := sort_unstable (elements s).

Module RuleEngine.
Import F64 F64Ops RuleDef RuleIndex.

(** A [BTreeMap<(u32, u32), f64>] is its entries in key order. *)
Abbreviation Desired := (list ((Z * Z) * Z)).
(** A rule's id and a triple it owns. *)
Abbreviation Touch := (Z * Z * Z * Z)%type.
(** A field that changed, with its value before; [None] for a new node. *)
Abbreviation Change := (option (string * option Value.t)).

Section engine.
Context {I : Type} `{NodeTable I}.
Context (sin cos : Z → Z) (atan2 : Z → Z → Z).

Record GraphMut := mk_graph {
  ids : I;
  syms : Interner.t;
  labels : list Z;
  columns : gmap (Z * string) Value.t;
  base_topo : option Csr.t;
  topo : Topology.t;
  edge_props : EdgeProps.EdgeProps.t;
}.

Definition with_syms (g : GraphMut) (s : Interner.t) : GraphMut :=
  mk_graph (ids g) s (labels g) (columns g) (base_topo g) (topo g) (edge_props g).
Definition with_topo (g : GraphMut) (t : Topology.t) : GraphMut :=
  mk_graph (ids g) (syms g) (labels g) (columns g) (base_topo g) t (edge_props g).
Definition with_edge_props (g : GraphMut) (ep : EdgeProps.EdgeProps.t) : GraphMut :=
  mk_graph (ids g) (syms g) (labels g) (columns g) (base_topo g) (topo g) ep.

Definition add_edge (g : GraphMut) (e : triple) : option (bool * GraphMut) :=
  let '(etype, src, dst) := e in
  '(newly, t) ← EdgeStore.GraphMut_add_edge (base_topo g) (topo g) etype src dst;
  Some (newly, with_topo g t).

Definition remove_edge (g : GraphMut) (e : triple) : option GraphMut :=
  let '(etype, src, dst) := e in
  with_topo g <$> EdgeStore.GraphMut_remove_edge (base_topo g) (topo g) etype src dst.

Definition neighbors (g : GraphMut) (etype : Z) (dir : Direction) (v : Z) : list Z :=
  TopologyView.neighbors (TopologyView.mk (topo g) (base_topo g) None) etype dir v.

(** [g.labels.get(n as usize).copied()], [g.props.get(n, f)] *)
Definition label (g : GraphMut) (n : Z) : option Z := labels g !! Z.to_nat n.
Definition getter (g : GraphMut) (n : Z) : Getter := λ f, columns g !! (n, f).

Definition rule_sees (def : RuleDef) (id : Z) (g : GraphMut) : bool :=
  match namespace def with
  | None => true
  | Some ns => String.eqb (namespace_of_value (getter g id NS_PROP)) ns
  end.

(** ** Desired edges *)

(** [candidate_spec_for], without [MUSHROOMDB_VECTOR_SCAN] *)
Definition candidate_spec_for (def : RuleDef) : CandidateSpec :=
  let k := match max_edges def with Some me => Z.max me 128 | None => 128 end in
  candidate_spec_approx_with_floor (predicate def) k (negb (approximate def)).

Definition uses_hnsw (def : RuleDef) : bool := spec_has_hnsw (candidate_spec_for def).

Fixpoint keymatch_field (p : Predicate) : option string :=
  match p with
  | KeyMatch field => Some field
  | All (p :: _) => keymatch_field p
  | _ => None
  end.

Definition src_lookup_spec_for (def : RuleDef) : CandidateSpec :=
  match (if is_keymatch_rooted (predicate def) then keymatch_field (predicate def) else None) with
  | Some field => ScalarOrElements field
  | None => candidate_spec_for def
  end.

Definition all_node_ids (g : GraphMut) : gset Z := list_to_set (seqZ 0 (Z.of_nat (node_count (ids g)))).

Record RuleSides := mk_sides { src_side : SideIndex; dst_side : SideIndex }.

(** The destinations a foreign key names. *)
Definition key_targets (g : GraphMut) (v : option Value.t) : gset Z :=
  match v with
  | Some (Value.Str target_key) => match node_id (ids g) target_key with Some dst_id => {[dst_id]} | None => ∅ end
  | Some (Value.List items) =>
      list_to_set (omap (λ v, match v with Value.Str target_key => node_id (ids g) target_key | _ => None end) (take MAX_KEYMATCH_LIST items))
  | _ => ∅
  end.

Definition candidates_of (def : RuleDef) (index : RuleSides) (n : Z) (n_key : string) (on_src_side : bool) (g : GraphMut) : gset Z :=
  if on_src_side then
    match (if is_keymatch_rooted (predicate def) then keymatch_field (predicate def) else None) with
    | Some field => key_targets g (getter g n field)
    | None =>
        if predicate_contains_keymatch (predicate def) then all_node_ids g
        else candidates cos (dst_side index) (candidate_spec_for def) (getter g n)
    end
  else if is_keymatch_rooted (predicate def) then
    candidates cos (src_side index) (src_lookup_spec_for def) (λ _, Some (Value.Str n_key))
  else if predicate_contains_keymatch (predicate def) then all_node_ids g
  else candidates cos (src_side index) (src_lookup_spec_for def) (getter g n).

(** The loop body of [compute_desired]: the pair of [n] and the candidate [m], if it
    is desired.  (The early exit of the cosine is for rules over a vector graph.) *)
Definition desired_with (def : RuleDef) (n : Z) (n_key : string) (on_src_side : bool) (other_sym : option Z) (g : GraphMut) (m : Z)
    : option ((Z * Z) * Z) :=
  if m =? n then None
  else if negb (bool_decide (label g m = other_sym)) then None
  else if negb (rule_sees def m g) then None
  else
    m_key ← node_key (ids g) m;
    let n_view := mk_view n_key (getter g n) in
    let m_view := mk_view m_key (getter g m) in
    score ← (if on_src_side then evaluate sin cos atan2 (predicate def) n_view m_view
             else evaluate sin cos atan2 (predicate def) m_view n_view);
    Some (if on_src_side then (n, m) else (m, n), score).

Definition compute_desired (def : RuleDef) (index : RuleSides) (n : Z) (on_src_side : bool) (g : GraphMut) : Desired :=
  let my_label := if on_src_side then src_label def else dst_label def in
  let other_label := if on_src_side then dst_label def else src_label def in
  match Interner.get (syms g) my_label with
  | None => []
  | Some my_sym =>
      if negb (bool_decide (label g n = Some my_sym)) then []
      else if negb (rule_sees def n g) then []
      else match node_key (ids g) n with
           | None => []
           | Some n_key =>
               let other_sym := Interner.get (syms g) other_label in
               foldl (λ out m, match desired_with def n n_key on_src_side other_sym g m with
                               | Some (p, score) => ainsert p score out
                               | None => out
                               end) [] (iter_set (candidates_of def index n n_key on_src_side g))
           end
  end.

(** [map.extend(other)] *)
Definition extend (m other : Desired) : Desired := foldl (λ m e, ainsert e.1 e.2 m) m other.

(** *** A source's best destinations *)

(** [sb.total_cmp(&sa).then_with(|| ka.cmp(kb))] *)
Definition better (g : GraphMut) (a b : (Z * Z) * Z) : comparison :=
  match total_cmp b.2 a.2 with
  | Eq => cmp (default EmptyString (node_key (ids g) a.1.2)) (default EmptyString (node_key (ids g) b.1.2))
  | c => c
  end.
Definition no_worse (g : GraphMut) (a b : (Z * Z) * Z) : Prop := better g a b ≠ Gt.
#[export] Instance no_worse_dec g a b : Decision (no_worse g a b).
Proof. unfold no_worse. apply _. Defined.

Definition filter_src_top_k (per_src : Desired) (k : Z) (g : GraphMut) : Desired :=
  if Z.of_nat (length per_src) <=? k then per_src
  else extend [] (take (Z.to_nat k) (merge_sort (no_worse g) per_src)).

(** ** Provenance *)

Record OwnedTriples := mk_owned { owned_set : gset triple; journal : gmap triple bool }.
Definition owned_insert (o : OwnedTriples) (t : triple) : OwnedTriples := mk_owned ({[t]} ∪ owned_set o) (<[t := true]> (journal o)).
Definition owned_remove (o : OwnedTriples) (t : triple) : OwnedTriples := mk_owned (owned_set o ∖ {[t]}) (<[t := false]> (journal o)).

Record EngineEdgeDelta := mk_delta {
  d_rule : string;
  d_src_key : string;
  d_dst_key : string;
  d_edge_type : string;
  d_triple : triple;
  d_fired : bool;
}.

Record ProvSets := mk_prov {
  set : gset triple;
  owned : OwnedTriples;
  by_node : gmap Z (gset Touch);
  rule_intern : gmap string Z;
  intern_names : list string;
  deltas : list EngineEdgeDelta;
  emit : bool;
  retracted : list (Z * triple);
}.

Definition intern_rule (intern : gmap string Z) (names : list string) (rule : string) : Z * gmap string Z * list string :=
  match intern !! rule with
  | Some id => (id, intern, names)
  | None => let id := wrap_u 32 (Z.of_nat (length names)) in (id, <[rule := id]> intern, names ++ [rule])
  end.

Definition touch_insert (by_node : gmap Z (gset Touch)) (rid : Z) (t : triple) : gmap Z (gset Touch) :=
  let '(et, s, d) := t in
  let entry := (rid, et, s, d) in
  let m := <[s := {[entry]} ∪ default ∅ (by_node !! s)]> by_node in
  if s =? d then m else <[d := {[entry]} ∪ default ∅ (m !! d)]> m.

(** [entry] out of a node's set, and the set out of the map when it is left empty *)
Definition untouch (by_node : gmap Z (gset Touch)) (n : Z) (entry : Touch) : gmap Z (gset Touch) :=
  match by_node !! n with
  | Some set => if decide (set ∖ {[entry]} = ∅) then delete n by_node else <[n := set ∖ {[entry]}]> by_node
  | None => by_node
  end.

Definition touch_remove (by_node : gmap Z (gset Touch)) (rid : Z) (t : triple) : gmap Z (gset Touch) :=
  let '(et, s, d) := t in
  let entry := (rid, et, s, d) in
  let m := untouch by_node s entry in
  if s =? d then m else untouch m d entry.

(** The delta of a fired or retracted edge, when its keys and type resolve. *)
Definition delta_of (g : GraphMut) (rule : string) (t : triple) (fired : bool) : list EngineEdgeDelta :=
  let '(et, s, d) := t in
  match node_key (ids g) s, node_key (ids g) d, Interner.resolve (syms g) et with
  | Some sk, Some dk, Some ty => [mk_delta rule sk dk ty t fired]
  | _, _, _ => []
  end.

Definition prov_insert (p : ProvSets) (rule : string) (t : triple) (g : GraphMut) : ProvSets :=
  if decide (t ∈ set p) then p
  else
    let '(rid, intern, names) := intern_rule (rule_intern p) (intern_names p) rule in
    mk_prov ({[t]} ∪ set p) (owned_insert (owned p) t) (touch_insert (by_node p) rid t) intern names
            (deltas p ++ if emit p then delta_of g rule t true else []) (emit p) (retracted p).

Definition prov_remove (p : ProvSets) (rule : string) (t : triple) (g : GraphMut) : ProvSets :=
  if decide (t ∉ set p) then p
  else
    let '(rid, intern, names) := intern_rule (rule_intern p) (intern_names p) rule in
    mk_prov (set p ∖ {[t]}) (owned_remove (owned p) t) (touch_remove (by_node p) rid t) intern names
            (deltas p ++ if emit p then delta_of g rule t false else []) (emit p) (retracted p).

Definition push_retracted (p : ProvSets) (rule : string) (t : triple) : ProvSets :=
  mk_prov (set p) (owned p) (by_node p) (rule_intern p) (intern_names p) (deltas p) (emit p)
          (retracted p ++ [(default u32_max (rule_intern p !! rule), t)]).

(** [prov.len()] *)
Definition prov_len (p : ProvSets) : Z := Z.of_nat (size (set p)).

(** ** Applying what is desired *)

Definition DEFAULT_MAX_EDGES : Z := 1000000.
Definition edge_budget (def : RuleDef) : Z := default DEFAULT_MAX_EDGES (max_edges def).

(** The edge goes from the graph, its properties and the rule's provenance. *)
Definition retract (def : RuleDef) (st : ProvSets * GraphMut) (t : triple) : option (ProvSets * GraphMut) :=
  let '(p, g) := st in
  g ← remove_edge g t;
  let g := with_edge_props g (EdgeProps.EdgeProps.remove_edge (edge_props g) t) in
  Some (push_retracted (prov_remove p (name def) t g) (name def) t, g).

(** The rule's triples that touch [n] ([outgoing_only]: that leave it). *)
Definition touching (def : RuleDef) (et n : Z) (outgoing_only : bool) (p : ProvSets) : list triple :=
  let rid := rule_intern p !! name def in
  (λ '(_, t, s, d), (t, s, d)) <$>
    filter (λ '(r, t, s, _), Some r = rid ∧ t = et ∧ (outgoing_only = false ∨ s = n)) (iter_set (default ∅ (by_node p !! n))).

(** Set the weight of an edge the rule owns. *)
Definition weigh (def : RuleDef) (t : triple) (score : Z) (owned_here : bool) (g : GraphMut) : GraphMut :=
  match weight_prop def with
  | Some w => if owned_here then with_edge_props g (EdgeProps.EdgeProps.set (edge_props g) t w (Value.Float score)) else g
  | None => g
  end.

(** One desired pair of [apply_desired_scoped]. *)
Definition want (def : RuleDef) (et : Z) (st : ProvSets * bool * GraphMut) (e : (Z * Z) * Z) : option (ProvSets * bool * GraphMut) :=
  let '(p, tripped, g) := st in
  let '((s, d), score) := e in
  let t := (et, s, d) in
  if decide (t ∈ set p) then Some (p, tripped, weigh def t score true g)
  else if tripped || (edge_budget def <=? prov_len p) then Some (p, true, g)
  else
    '(newly, g) ← add_edge g t;
    let p := if newly : bool then prov_insert p (name def) t g else p in
    Some (p, tripped, weigh def t score (bool_decide (t ∈ set p)) g).

(** [desired.contains_key(&(s, d))] *)
Definition is_desired (desired : Desired) (t : triple) : bool := bool_decide (is_Some (alookup (t.1.2, t.2) desired)).

Definition apply_desired_scoped (def : RuleDef) (desired : Desired) (retract_touching : option Z) (outgoing_only : bool)
    (p : ProvSets) (tripped : bool) (g : GraphMut) : option (ProvSets * bool * GraphMut) :=
  let '(et, sy) := Interner.intern (syms g) (edge_type def) in
  let g := with_syms g sy in
  let current := match retract_touching with
                 | None => filter (λ t, t.1.1 = et) (iter_set (set p))
                 | Some n => touching def et n outgoing_only p
                 end in
  '(p, g) ← foldM (retract def) (p, g) (filter (λ t, is_desired desired t = false) current);
  foldM (want def et) (p, tripped, g) desired.

Definition apply_desired (def : RuleDef) (desired : Desired) (retract_touching : option Z) (p : ProvSets) (tripped : bool) (g : GraphMut) :=
  apply_desired_scoped def desired retract_touching false p tripped g.

(** One pair of [apply_per_src_top_k]: no budget, no latch. *)
Definition want_top_k (def : RuleDef) (et : Z) (st : ProvSets * GraphMut) (e : (Z * Z) * Z) : option (ProvSets * GraphMut) :=
  let '(p, g) := st in
  let '((s, d), score) := e in
  let t := (et, s, d) in
  if decide (t ∈ set p) then Some (p, weigh def t score true g)
  else
    '(newly, g) ← add_edge g t;
    let p := if newly : bool then prov_insert p (name def) t g else p in
    Some (p, weigh def t score (bool_decide (t ∈ set p)) g).

Definition apply_per_src_top_k (def : RuleDef) (src : Z) (desired_from_src : Desired) (p : ProvSets) (g : GraphMut) : option (ProvSets * GraphMut) :=
  let '(et, sy) := Interner.intern (syms g) (edge_type def) in
  let g := with_syms g sy in
  '(p, g) ← foldM (retract def) (p, g) (filter (λ t, is_desired desired_from_src t = false) (touching def et src true p));
  foldM (want_top_k def et) (p, g) desired_from_src.

(** ** The engine *)

Record RuleEngine := mk_engine {
  rules : gmap string RuleDef;
  indexes : gmap string RuleSides;
  provenance : gmap string (gset triple);
  e_owned : OwnedTriples;
  e_by_node : gmap Z (gset Touch);
  e_rule_intern : gmap string Z;
  e_intern_names : list string;
  e_tripped : gmap string bool;
  fires : gmap string Z;
  pending_deltas : list EngineEdgeDelta;
  e_retracted : list (Z * triple);
  emit_deltas : bool;
  doomed : option Z;
}.

Definition new_engine : RuleEngine := mk_engine ∅ ∅ ∅ (mk_owned ∅ ∅) ∅ ∅ [] ∅ ∅ [] [] false None.

(** The [ProvSets] of a rule borrow the engine's fields; what they leave is the
    engine's. *)
Definition prov_of (e : RuleEngine) (rule : string) : ProvSets :=
  mk_prov (default ∅ (provenance e !! rule)) (e_owned e) (e_by_node e) (e_rule_intern e) (e_intern_names e)
          (pending_deltas e) (emit_deltas e) (e_retracted e).
Definition put_prov (e : RuleEngine) (rule : string) (p : ProvSets) (tripped : gmap string bool) : RuleEngine :=
  mk_engine (rules e) (indexes e) (<[rule := set p]> (provenance e)) (owned p) (by_node p) (rule_intern p) (intern_names p)
            tripped (fires e) (deltas p) (retracted p) (emit_deltas e) (doomed e).

Definition with_index (e : RuleEngine) (rule : string) (ix : RuleSides) : RuleEngine :=
  mk_engine (rules e) (<[rule := ix]> (indexes e)) (provenance e) (e_owned e) (e_by_node e) (e_rule_intern e) (e_intern_names e)
            (e_tripped e) (fires e) (pending_deltas e) (e_retracted e) (emit_deltas e) (doomed e).
Definition with_fires (e : RuleEngine) (f : gmap string Z) : RuleEngine :=
  mk_engine (rules e) (indexes e) (provenance e) (e_owned e) (e_by_node e) (e_rule_intern e) (e_intern_names e)
            (e_tripped e) f (pending_deltas e) (e_retracted e) (emit_deltas e) (doomed e).
Definition with_retracted (e : RuleEngine) (r : list (Z * triple)) : RuleEngine :=
  mk_engine (rules e) (indexes e) (provenance e) (e_owned e) (e_by_node e) (e_rule_intern e) (e_intern_names e)
            (e_tripped e) (fires e) (pending_deltas e) r (emit_deltas e) (doomed e).

(** [apply_desired] on the engine's own provenance of a rule. *)
Definition apply_in_engine (def : RuleDef) (desired : Desired) (n : Z) (st : RuleEngine * GraphMut) : option (RuleEngine * GraphMut) :=
  let '(e, g) := st in
  let tripped := default false (e_tripped e !! name def) in
  '(p, tripped, g) ← apply_desired def desired (Some n) (prov_of e (name def)) tripped g;
  Some (put_prov e (name def) p (<[name def := tripped]> (e_tripped e)), g).

(** [apply_per_src_top_k] on the engine's own provenance of a rule, for the best [k]
    of what is desired from [src]. *)
Definition top_k_in_engine (def : RuleDef) (k src : Z) (desired : Desired) (st : RuleEngine * GraphMut) : option (RuleEngine * GraphMut) :=
  let '(e, g) := st in
  '(p, g) ← apply_per_src_top_k def src (filter_src_top_k desired k g) (prov_of e (name def)) g;
  Some (put_prov e (name def) p (e_tripped e), g).

(** ** A node changed *)

Definition old_getter (g : GraphMut) (n : Z) (field : string) (old : option Value.t) : Getter :=
  λ f, if String.eqb f field then old else getter g n f.

Definition pair_matched_before (def : RuleDef) (s d : Z) (changed : Change) (g : GraphMut) : bool :=
  match node_key (ids g) s, node_key (ids g) d with
  | Some s_key, Some d_key =>
      let d_get := match changed with Some (field, old) => old_getter g d field old | None => getter g d end in
      bool_decide (is_Some (evaluate sin cos atan2 (predicate def) (mk_view s_key (getter g s)) (mk_view d_key d_get)))
  | _, _ => false
  end.

(** Index maintenance: out under the old values, in under the new ones. *)
Definition reindex (def : RuleDef) (n : Z) (as_src as_dst : bool) (changed : Change) (g : GraphMut) (ix : RuleSides) : RuleSides :=
  let out := match changed with
             | Some (field, old) =>
                 mk_sides (if as_src then remove (src_lookup_spec_for def) n (old_getter g n field old) (src_side ix) else src_side ix)
                          (if as_dst then remove (candidate_spec_for def) n (old_getter g n field old) (dst_side ix) else dst_side ix)
             | None => ix
             end in
  mk_sides (if as_src then insert (src_lookup_spec_for def) n (getter g n) (src_side out) else src_side out)
           (if as_dst then insert (candidate_spec_for def) n (getter g n) (dst_side out) else dst_side out).

(** The sources whose best destinations a change of the destination [n] can move. *)
Definition affected_srcs (def : RuleDef) (et n : Z) (changed : Change) (e : RuleEngine) (g : GraphMut) : gset Z :=
  let rid := e_rule_intern e !! name def in
  let own := (λ '(_, _, s, _), s) <$> filter (λ '(r, t, _, d), Some r = rid ∧ t = et ∧ d = n) (iter_set (default ∅ (e_by_node e !! n))) in
  let src_sym := Interner.get (syms g) (src_label def) in
  let others := filter (λ s, label g s = src_sym ∧ rule_sees def s g = true ∧ pair_matched_before def s n changed g = true) (neighbors g et In n) in
  list_to_set own ∪ list_to_set others.

(** The top-k arm of the hook. *)
Definition change_top_k (def : RuleDef) (k n : Z) (as_src as_dst : bool) (changed : Change) (ix : RuleSides) (st : RuleEngine * GraphMut)
    : option (RuleEngine * GraphMut) :=
  let '(e, g) := st in
  let '(et, sy) := Interner.intern (syms g) (edge_type def) in
  let g := with_syms g sy in
  let before := if as_dst then affected_srcs def et n changed e g else ∅ in
  '(e, g) ← (if as_src then top_k_in_engine def k n (compute_desired def ix n true g) (e, g) else Some (e, g));
  if as_dst then
    let now := list_to_set ((λ x : (Z * Z) * Z, x.1.1) <$> compute_desired def ix n false g) in
    foldM (λ st src, top_k_in_engine def k src (compute_desired def ix src true st.2) st) (e, g)
      (filter (λ src, src ≠ n) (iter_set (before ∪ now)))
  else Some (e, g).

(** The uncapped arm. *)
Definition change_uncapped (def : RuleDef) (n : Z) (as_src as_dst : bool) (ix : RuleSides) (st : RuleEngine * GraphMut) : option (RuleEngine * GraphMut) :=
  let g := st.2 in
  let desired := if as_src then extend [] (compute_desired def ix n true g) else [] in
  let desired := if as_dst then extend desired (compute_desired def ix n false g) else desired in
  apply_in_engine def desired n st.

(** One rule of [on_node_changed_inner]. *)
Definition rule_changed (n : Z) (changed : Change) (st : RuleEngine * GraphMut) (rule_name : string) : option (RuleEngine * GraphMut) :=
  let '(e, g) := st in
  def ← rules e !! rule_name;
  if negb (rule_sees def n g) then Some (e, g)
  else match via_label def with
  | Some _ => None
  | None =>
      let n_label := label g n in
      let src_sym := Interner.get (syms g) (src_label def) in
      let dst_sym := Interner.get (syms g) (dst_label def) in
      let as_src := bool_decide (is_Some src_sym) && bool_decide (n_label = src_sym) in
      let as_dst := bool_decide (is_Some dst_sym) && bool_decide (n_label = dst_sym) in
      let watched := match changed with Some (field, _) => bool_decide (field ∈ watched_fields def) | None => true end in
      if negb (watched && (as_src || as_dst)) then Some (e, g)
      else
        let e := with_fires e (<[rule_name := default 0 (fires e !! rule_name) + 1]> (fires e)) in
        ix ← indexes e !! rule_name;
        let ix := reindex def n as_src as_dst changed g ix in
        let e := with_index e rule_name ix in
        match max_edges def with
        | Some k => change_top_k def k n as_src as_dst changed ix (e, g)
        | None => change_uncapped def n as_src as_dst ix (e, g)
        end
  end.

(** The other rules over a retracted edge's type, with the sources that lost it. *)
Definition reclaim_targets (e : RuleEngine) (gone : list (Z * triple)) (g : GraphMut) : list (string * Z) :=
  rule_name ← iter_set (dom (rules e));
  match rules e !! rule_name with
  | None => []
  | Some def =>
      match Interner.get (syms g) (edge_type def), Interner.get (syms g) (src_label def) with
      | Some et, Some src_sym =>
          let lost := filter (λ '(by_, (t, s, _)), t = et ∧ e_rule_intern e !! rule_name ≠ Some by_ ∧ label g s = Some src_sym ∧ rule_sees def s g = true) gone in
          pair rule_name <$> iter_set (list_to_set ((λ r : Z * triple, r.2.1.2) <$> lost))
      | _, _ => []
      end
  end.

(** One target of [reclaim_retracted]. *)
Definition reclaim (st : RuleEngine * GraphMut) (target : string * Z) : option (RuleEngine * GraphMut) :=
  let '(e, g) := st in
  let '(rule_name, s) := target in
  if bool_decide (doomed e = Some s) then Some (e, g)
  else
    def ← rules e !! rule_name;
    match via_label def with
    | Some _ => None
    | None =>
        ix ← indexes e !! rule_name;
        match max_edges def with
        | Some k =>
            let desired := filter (λ x, doomed e ≠ Some x.1.2) (compute_desired def ix s true g) in
            top_k_in_engine def k s desired (e, g)
        | None =>
            let dst_sym := Interner.get (syms g) (dst_label def) in
            let as_dst := bool_decide (is_Some dst_sym) && bool_decide (label g s = dst_sym) in
            let desired := compute_desired def ix s true g in
            let desired := if as_dst then extend desired (compute_desired def ix s false g) else desired in
            let desired := filter (λ x, doomed e ≠ Some x.1.1 ∧ doomed e ≠ Some x.1.2) desired in
            apply_in_engine def desired s (e, g)
        end
    end.

Definition reclaim_retracted (gone : list (Z * triple)) (st : RuleEngine * GraphMut) : option (RuleEngine * GraphMut) :=
  '(e, g) ← foldM reclaim st (reclaim_targets st.1 gone st.2);
  Some (with_retracted e [], g).

Definition on_node_changed_inner (n : Z) (changed : Change) (e : RuleEngine) (g : GraphMut) : option (RuleEngine * GraphMut) :=
  '(e, g) ← foldM (rule_changed n changed) (with_retracted e [], g) (iter_set (dom (rules e)));
  let gone := e_retracted e in
  let e := with_retracted e [] in
  if bool_decide (gone = []) then Some (e, g) else reclaim_retracted gone (e, g).

(** Some rule hops over an edge type. *)
Definition chaining_possible (e : RuleEngine) : bool := existsb (λ r, bool_decide (is_Some (via_edge r.2))) (map_to_list (rules e)).

(** [on_node_changed], where no derived edge can feed another rule. *)
Definition on_node_changed (n : Z) (changed : Change) (e : RuleEngine) (g : GraphMut) : option (RuleEngine * GraphMut) :=
  if chaining_possible e then None else on_node_changed_inner n changed e g.

End engine.
End RuleEngine.
