(* ===== verification/RuleDesired.v ===== *)
(** * Rules: the desired edges of a node are the pairs that match

    [compute_desired] looks at the candidates an index offers.  Here it is compared
    with the definition it optimises: every pair of nodes of the rule's labels that
    the rule sees and whose predicate holds.  For rules whose predicate the index
    answers exactly, the two are the same map. *)

From S2P Require Import Prelude Order Assoc Topology Interner Types Float64 ValueOps Float64Ops RuleDef RuleCandidates RuleEngine.
Open Scope Z_scope.

Module RuleDesired.
Import F64 RuleDef RuleIndex RuleEngine.

Lemma elem_of_iter_set {K} `{RustOrdLaws K} `{Countable K} (s : gset K) x : x ∈ iter_set s ↔ x ∈ s.
Proof. unfold iter_set. by rewrite elem_of_sort, elem_of_elements. Qed.

Lemma iter_set_sorted {K} `{RustOrdLaws K} `{Countable K} (s : gset K) : sorted (iter_set s).
Proof. apply sort_NoDup_sorted, NoDup_elements. Qed.

Section desired.
Context {I : Type} `{NodeTable I} {ok : I → Prop} {laws : NodeTableLaws I ok}.
Context (sin cos : Z → Z) (atan2 : Z → Z → Z).

Abbreviation GraphMut := (@GraphMut I).
Abbreviation evaluate := (evaluate sin cos atan2).
Abbreviation compute_desired := (compute_desired sin cos atan2).
Abbreviation candidates_of := (candidates_of cos).
Abbreviation desired_with := (desired_with sin cos atan2).

(** Nodes with a key have a label slot, a slot holds a symbol or the mark of a node
    that is gone; numbers are within their types. *)
Record graph_ok (g : GraphMut) : Prop := {
  go_ids : ok (ids g);
  go_labels n k : node_key (ids g) n = Some k → is_Some (label g n);
  go_numbers n : getter_ok (getter g n);
  go_syms : ∃ l, Interner.rep (syms g) l ∧ Z.of_nat (length l) < u32_max;
  go_label_syms n sym : label g n = Some sym → sym = u32_max ∨ 0 ≤ sym < Z.of_nat (Interner.len (syms g));
  go_slots : (length (labels g) ≤ node_count (ids g))%nat;
}.

(** A node on a side of the rule: of the label, and seen. *)
Definition member (def : RuleDef) (lbl : string) (g : GraphMut) (m : Z) : Prop :=
  0 ≤ m ∧ (∃ sym, Interner.get (syms g) lbl = Some sym ∧ label g m = Some sym) ∧ rule_sees def m g = true.

#[export] Instance member_dec def lbl g m : Decision (member def lbl g m).
Proof.
  unfold member. apply and_dec; [apply _|]. apply and_dec; [|apply _].
  destruct (Interner.get (syms g) lbl) as [sym|]; [|right; by intros (? & ? & _)].
  destruct (decide (label g m = Some sym)); [left; eauto|right; by intros (? & [= <-] & ?)].
Defined.

(** The reference: is [(s, d)] a pair of the rule, and with which score? *)
Definition desired (def : RuleDef) (g : GraphMut) (s d : Z) : option Z :=
  if decide (s ≠ d ∧ member def (src_label def) g s ∧ member def (dst_label def) g d) then
    ks ← node_key (ids g) s;
    kd ← node_key (ids g) d;
    evaluate (predicate def) (mk_view ks (getter g s)) (mk_view kd (getter g d))
  else None.

Record index_ok (def : RuleDef) (ix : RuleSides) (g : GraphMut) : Prop := {
  io_src : ∃ M, (∀ m, m ∈ M ↔ member def (src_label def) g m) ∧ side_ok (src_side ix) (src_lookup_spec_for def) M (getter g);
  io_dst : ∃ M, (∀ m, m ∈ M ↔ member def (dst_label def) g m) ∧ side_ok (dst_side ix) (candidate_spec_for def) M (getter g);
}.

(** The index answers the rule exactly: by key, by every node, or by exact keys with
    one vector field at most. *)
Definition answerable (def : RuleDef) : Prop :=
  uses_hnsw def = false ∧
  (predicate_contains_keymatch (predicate def) = true ∨
   indexable (predicate def) = true ∧ ∃ f, vector_fields (candidate_spec (predicate def)) ⊆ {[f]}).

(** ** Candidates *)

Lemma approx_exact p k fl : spec_has_hnsw (candidate_spec_approx_with_floor p k fl) = false →
  candidate_spec_approx_with_floor p k fl = candidate_spec p.
Proof.
  induction p as [f|f|f mn|ps IH|f t|f km|f mn|ps IH] using Predicate_parts_ind; cbn; try done. intros Hn. f_equal.
  induction IH as [|p ps Hp _ IH]; cbn in *; [done|]. apply orb_false_iff in Hn as [H1 H2]. rewrite Hp by done. f_equal. by apply IH.
Qed.

Lemma spec_for_exact def : uses_hnsw def = false → candidate_spec_for def = candidate_spec (predicate def).
Proof. intros Hh. by apply approx_exact. Qed.

Lemma keymatch_rooted_match p s d : is_keymatch_rooted p = true →
  ∃ f, keymatch_field p = Some f ∧ predicate_contains_keymatch p = true ∧
    (is_Some (evaluate p s d) → ∃ v, props s f = Some v ∧ key_match v (key d) = true).
Proof.
  induction p as [f|f|f mn|ps IH|f t|f km|f mn|ps IH] using Predicate_parts_ind; cbn; try done.
  - intros _. exists f. split; [done|]. split; [done|]. intros [x Hx]. destruct (props s f) as [v|]; [|done]. cbn in Hx. unfold then_some in Hx.
    destruct (key_match v (key d)) eqn:E; [|done]. eauto.
  - destruct ps as [|p ps]; [done|]. apply Forall_cons in IH as [IH _]. intros Hp. destruct (IH Hp) as (f & Hf & Hc & Hm). exists f. split; [done|].
    split; [change (existsb predicate_contains_keymatch (p :: ps) = true); cbn [existsb]; by rewrite Hc|].
    intros Hs. apply Hm. change (is_Some (min_loop (λ p, evaluate p s d) (p :: ps) F64.INF)) in Hs. cbn [min_loop] in Hs. destruct (evaluate p s d) as [x|]; [by eexists|by destruct Hs].
Qed.

(** A key match, seen from the destination's key. *)
Lemma key_match_targets g v k d : graph_ok g → node_key (ids g) d = Some k → key_match v k = true → d ∈ key_targets g (Some v).
Proof.
  intros Hg Hk Hm. apply (node_id_key (ids g) k d) in Hk; [|apply Hg]. destruct v as [|  |s| |items| | | | | | |]; cbn in *; try done.
  - apply String.eqb_eq in Hm as ->. rewrite Hk. set_solver.
  - apply existsb_exists in Hm as (v & Hv%list_elem_of_In & Hs). destruct v as [| |s| | | | | | | | |]; try done. apply String.eqb_eq in Hs as ->.
    apply elem_of_list_to_set, list_elem_of_omap. eauto.
Qed.

Lemma key_match_keys get field v k : get field = Some v → key_match v k = true → ValueKey.Str k ∈ index_keys (ScalarOrElements field) get.
Proof.
  intros Hv Hm. cbn. rewrite Hv. destruct v as [|  |s| |items| | | | | | |]; cbn in *; try done.
  - apply String.eqb_eq in Hm as ->. set_solver.
  - apply existsb_exists in Hm as (v & Hv'%list_elem_of_In & Hs). destruct v as [| |s| | | | | | | | |]; try done. apply String.eqb_eq in Hs as ->.
    apply elem_of_list_to_set, list_elem_of_omap. exists (Value.Str k). split; [|done]. by apply list_elem_of_filter.
Qed.

Lemma desired_inv def g s d sc : desired def g s d = Some sc →
  s ≠ d ∧ member def (src_label def) g s ∧ member def (dst_label def) g d ∧
  ∃ ks kd, node_key (ids g) s = Some ks ∧ node_key (ids g) d = Some kd ∧ evaluate (predicate def) (mk_view ks (getter g s)) (mk_view kd (getter g d)) = Some sc.
Proof.
  unfold desired. case_decide as Hc; [|done]. destruct Hc as (Hne & Hs & Hd). destruct (node_key (ids g) s) as [ks|]; [|done]. destruct (node_key (ids g) d) as [kd|]; [|done].
  cbn. intros He. eauto 10.
Qed.

Lemma candidates_cover def ix g s d sc ks kd : graph_ok g → index_ok def ix g → answerable def → desired def g s d = Some sc →
  node_key (ids g) s = Some ks → node_key (ids g) d = Some kd →
  d ∈ candidates_of def ix s ks true g ∧ s ∈ candidates_of def ix d kd false g.
Proof.
  intros Hg [(MS & HMS & HS) (MD & HMD & HD)] [Hh Ha] (_ & Hs & Hd & ks' & kd' & Eks & Ekd & Hev)%desired_inv Hks Hkd.
  assert (ks' = ks) as -> by congruence. assert (kd' = kd) as -> by congruence. clear Eks Ekd.
  apply HMS in Hs. apply HMD in Hd. unfold candidates_of. unfold src_lookup_spec_for in *.
  destruct (is_keymatch_rooted (predicate def)) eqn:Er.
  - destruct (keymatch_rooted_match (predicate def) (mk_view ks (getter g s)) (mk_view kd (getter g d)) Er) as (f & Hf & _ & Hm).
    destruct (Hm ltac:(eauto)) as (v & Hv & Hkm). cbn in Hv, Hkm. rewrite Hf in *. split.
    + rewrite Hv. by eapply key_match_targets.
    + apply elem_of_under. exists (ValueKey.Str kd). split; [cbn; set_solver|]. apply (so_bucket _ _ _ _ HS). split; [done|]. by eapply key_match_keys.
  - destruct (predicate_contains_keymatch (predicate def)) eqn:Ec.
    + split; unfold all_node_ids; apply elem_of_list_to_set, elem_of_seqZ; [pose proof (node_key_bound _ _ _ (go_ids _ Hg) Hkd)|pose proof (node_key_bound _ _ _ (go_ids _ Hg) Hks)]; lia.
    + destruct Ha as [?|[Hi Hf]]; [done|]. rewrite (spec_for_exact def Hh) in *. split.
      * eapply (candidates_complete sin cos atan2 (predicate def) (mk_view ks (getter g s)) (mk_view kd (getter g d)) (getter g s) (getter g d));
          [done|by left|apply Hg..|eauto|by eapply side_ok_covers].
      * eapply (candidates_complete sin cos atan2 (predicate def) (mk_view ks (getter g s)) (mk_view kd (getter g d)) (getter g d) (getter g s));
          [done|by right|apply Hg..|eauto|by eapply side_ok_covers].
Qed.

Lemma candidates_pos def ix g n nk b m : graph_ok g → index_ok def ix g → m ∈ candidates_of def ix n nk b g → 0 ≤ m.
Proof.
  intros Hg [(MS & HMS & HS) (MD & HMD & HD)]. unfold RuleEngine.candidates_of, all_node_ids.
  assert (∀ k d, node_id (ids g) k = Some d → 0 ≤ d) as Hid.
  { intros k d Hd. apply (node_id_key (ids g) k d) in Hd; [|apply Hg]. apply (node_key_bound (ids g) k d) in Hd; [lia|apply Hg]. }
  destruct b; [destruct (if is_keymatch_rooted _ then _ else _) as [f|]|destruct (is_keymatch_rooted _)].
  2,4: destruct (predicate_contains_keymatch _); [intros [? _]%elem_of_list_to_set%elem_of_seqZ; done|].
  1: { unfold key_targets. destruct (getter g n f) as [[| |s| |items| | | | | | |]|]; try (by intros ?%elem_of_empty).
       - destruct (node_id (ids g) s) eqn:E; [intros ->%elem_of_singleton; eauto|by intros ?%elem_of_empty].
       - intros (v & _ & Hv)%elem_of_list_to_set%list_elem_of_omap. destruct v; eauto; done. }
  all: intros Hm; first [eapply candidates_within in Hm; [|exact HD]; apply HMD in Hm|eapply candidates_within in Hm; [|exact HS]; apply HMS in Hm]; apply Hm.
Qed.

(** ** The map *)

Lemma fold_desired (h : Z → option ((Z * Z) * Z)) l :
  (∀ m m' p x y, h m = Some (p, x) → h m' = Some (p, y) → m = m') →
  let out := foldl (λ out m, match h m with Some (p, sc) => ainsert p sc out | None => out end) [] l in
  sorted out.*1 ∧ ∀ p sc, alookup p out = Some sc ↔ ∃ m, m ∈ l ∧ h m = Some (p, sc).
Proof.
  intros Hinj. cbn zeta. induction l as [|m l IH] using rev_ind; cbn [foldl fmap list_fmap alookup].
  { split; [constructor|]. intros p sc. split; [done|by intros (? & ?%not_elem_of_nil & _)]. }
  rewrite foldl_app. cbn [foldl]. destruct IH as [Hs IH]. destruct (h m) as [[q x]|] eqn:E.
  - split; [by apply ainsert_sorted|]. intros p sc. rewrite alookup_ainsert. destruct (cmp p q) eqn:Ec.
    1: apply cmp_eq in Ec as ->; split; [intros [= <-]; exists m; split; [apply elem_of_app; right; by left|done]|];
       intros (m' & _ & E'); rewrite (Hinj m m' q x sc) in E by done; congruence.
    all: rewrite IH; split; [intros (m' & Hm' & E'); exists m'; split; [apply elem_of_app; by left|done]|].
    all: intros (m' & [Hm'| ->%list_elem_of_singleton]%elem_of_app & E'); [eauto|]. all: rewrite E in E'; simplify_eq; by rewrite cmp_refl in Ec.
  - split; [done|]. intros p sc. rewrite IH. split; intros (m' & Hm' & E'); exists m'; (split; [|done]); [apply elem_of_app; by left|].
    apply elem_of_app in Hm' as [?| ->%list_elem_of_singleton]; [done|congruence].
Qed.

Lemma desired_with_inj def n nk b o g m m' p x y : desired_with def n nk b o g m = Some (p, x) → desired_with def n nk b o g m' = Some (p, y) → m = m'.
Proof.
  unfold desired_with.
  destruct (m =? n); [done|]. destruct (m' =? n); [done|]. destruct (negb (bool_decide (label g m = o))); [done|].
  destruct (negb (bool_decide (label g m' = o))); [done|]. destruct (negb (rule_sees def m g)); [done|]. destruct (negb (rule_sees def m' g)); [done|].
  destruct (node_key (ids g) m); [|done]. destruct (node_key (ids g) m'); [|done]. cbn. destruct b; cbn.
  all: intros (x0 & _ & [= <- _])%bind_Some (y0 & _ & [= E _])%bind_Some; done.
Qed.

(** [desired_with] is the reference, seen from one end. *)
Lemma desired_with_spec def g n nk (b : bool) m p sc : graph_ok g → node_key (ids g) n = Some nk → member def (if b then src_label def else dst_label def) g n →
  (0 ≤ m ∧ desired_with def n nk b (Interner.get (syms g) (if b then dst_label def else src_label def)) g m = Some (p, sc)) ↔
  p = (if b then (n, m) else (m, n)) ∧ desired def g p.1 p.2 = Some sc.
Proof.
  intros Hg Hn HM. unfold desired_with. split.
  - intros [H0 H1]. destruct (Z.eqb_spec m n) as [|Hne]; [done|]. destruct (bool_decide (label g m = _)) eqn:El; [|done]. apply bool_decide_eq_true in El. cbn in H1.
    destruct (rule_sees def m g) eqn:Es; [|done]. cbn in H1. apply bind_Some in H1 as (mk & Ek & H1). apply bind_Some in H1 as (x & Ev & [= <- <-]).
    split; [done|]. assert (member def (if b then dst_label def else src_label def) g m) as HM'.
    { split; [done|]. split; [|done]. destruct (go_labels g Hg m mk Ek) as [sym Hsym]. exists sym. split; [congruence|done]. }
    unfold desired. destruct b; cbn in *; rewrite decide_True by auto; rewrite Ek, Hn; done.
  - intros [-> Hd]. destruct (desired_inv _ _ _ _ _ Hd) as (Hne & Hs & Hd' & ks & kd & Eks & Ekd & Hev).
    assert (member def (if b then dst_label def else src_label def) g m) as (H0 & (sym & Hsym & Hl) & Hsee) by (by destruct b).
    split; [done|]. destruct (Z.eqb_spec m n) as [->|_]; [by destruct b; cbn in Hne|]. rewrite Hsym, Hl, bool_decide_eq_true_2, Hsee by done. cbn.
    destruct b; cbn in *; [rewrite Ekd|rewrite Eks]; cbn; rewrite Hn in *; simplify_eq; by rewrite Hev.
Qed.

Lemma compute_desired_spec def ix n b g : graph_ok g → index_ok def ix g → answerable def →
  sorted (compute_desired def ix n b g).*1 ∧
  ∀ p sc, alookup p (compute_desired def ix n b g) = Some sc ↔ (if b then p.1 else p.2) = n ∧ desired def g p.1 p.2 = Some sc.
Proof.
  intros Hg Hix Ha. unfold RuleEngine.compute_desired. set (l := if b then src_label def else dst_label def).
  assert (∀ p sc, (if b then p.1 else p.2) = n → desired def g p.1 p.2 = Some sc → member def l g n ∧ is_Some (node_key (ids g) n)) as Hmem.
  { intros p sc <- (_ & Hs & Hd & ks & kd & Eks & Ekd & _)%desired_inv. unfold l. destruct b; eauto. }
  assert (¬ (member def l g n ∧ is_Some (node_key (ids g) n)) →
    sorted (([] : Desired).*1) ∧ ∀ p sc, alookup p ([] : Desired) = Some sc ↔ (if b then p.1 else p.2) = n ∧ desired def g p.1 p.2 = Some sc) as Hno.
  { intros Hn. split; [constructor|]. intros p sc. split; [done|]. intros [Hp Hd]. destruct Hn. by eapply Hmem. }
  destruct (Interner.get (syms g) l) as [sym|] eqn:Esym; [|apply Hno; intros [(_ & (? & ? & _) & _) _]; congruence].
  destruct (bool_decide (label g n = Some sym)) eqn:El; [|apply Hno; intros [(_ & (? & ? & ?) & _) _]; apply bool_decide_eq_false in El; congruence].
  destruct (rule_sees def n g) eqn:Es; [|apply Hno; intros [(_ & _ & ?) _]; congruence]. cbn [negb].
  destruct (node_key (ids g) n) as [nk|] eqn:Ek; [|apply Hno; by intros [_ []]].
  assert (member def l g n) as HM.
  { split; [apply (node_key_bound (ids g) nk n) in Ek; [lia|apply Hg]|]. split; [|done]. exists sym. split; [done|by apply bool_decide_eq_true in El]. }
  destruct (fold_desired (desired_with def n nk b (Interner.get (syms g) (if b then dst_label def else src_label def)) g) (iter_set (candidates_of def ix n nk b g))
    (λ m m' p x y, desired_with_inj _ _ _ _ _ _ m m' p x y)) as [Hs Hl]. split; [exact Hs|].
  intros p sc. rewrite Hl. split.
  - intros (m & Hm%elem_of_iter_set & Hw). destruct (proj1 (desired_with_spec def g n nk b m p sc Hg Ek HM)) as [-> Hd]; [split; [by eapply candidates_pos|done]|]. split; [by destruct b|done].
  - intros [Hp Hd]. destruct (desired_inv _ _ _ _ _ Hd) as (_ & _ & _ & ks & kd & Eks & Ekd & _).
    destruct (candidates_cover def ix g p.1 p.2 sc ks kd Hg Hix Ha Hd Eks Ekd) as [H1 H2].
    exists (if b then p.2 else p.1). split; [apply elem_of_iter_set; destruct b; subst n; congruence|].
    apply (desired_with_spec def g n nk b _ p sc Hg Ek HM). split; [|done]. destruct p, b; cbn in *; by subst.
Qed.

End desired.
End RuleDesired.
