(* ===== verification/RuleProvenance.v ===== *)
(** * Rules: provenance and the application of what is desired

    The provenance of the engine as one function from rules to the triples they own:
    the owned set, the reverse index by node and the rule ids are determined by it.
    Retracting, wanting and [apply_desired] are proved against that function and
    against the plain set of edges the graph holds. *)

From S2P Require Import Prelude Order Assoc Topology Csr TopologyView EdgeStore Interner Types EdgeProps Float64 ValueOps Float64Ops RuleDef RuleCandidates RuleEngine RuleDesired.
Open Scope Z_scope.

Module RuleProvenance.
Import RuleDef RuleIndex RuleEngine RuleDesired.

Abbreviation Owns := (string → gset triple).

Definition upd (P : Owns) (r : string) (X : gset triple) : Owns := λ r', if decide (r' = r) then X else P r'.

Lemma upd_same P r X : upd P r X r = X.
Proof. unfold upd. by rewrite decide_True. Qed.
Lemma upd_other P r X r' : r' ≠ r → upd P r X r' = P r'.
Proof. intros Hr. unfold upd. by rewrite decide_False. Qed.

(** ** Touches *)

Definition touched (b : gmap Z (gset Touch)) (n : Z) : gset Touch := default ∅ (b !! n).

Lemma elem_of_touch_insert b rid et s d n x :
  x ∈ touched (touch_insert b rid (et, s, d)) n ↔ x ∈ touched b n ∨ x = (rid, et, s, d) ∧ (n = s ∨ n = d).
Proof.
  unfold touched, touch_insert. destruct (Z.eqb_spec s d) as [->|Hne].
  - destruct (decide (n = d)) as [->|]; [rewrite lookup_insert_eq|rewrite lookup_insert_ne by done]; cbn; set_solver.
  - destruct (decide (n = d)) as [->|].
    + rewrite lookup_insert_eq. cbn. rewrite (lookup_insert_ne b s d) by done. set_solver.
    + rewrite lookup_insert_ne by done. destruct (decide (n = s)) as [->|]; [rewrite lookup_insert_eq|rewrite lookup_insert_ne by done]; cbn; set_solver.
Qed.

Lemma elem_of_untouch b m e n x : x ∈ touched (untouch b m e) n ↔ x ∈ touched b n ∧ ¬ (n = m ∧ x = e).
Proof.
  unfold touched, untouch. destruct (b !! m) as [set|] eqn:E.
  - destruct (decide (n = m)) as [->|Hne].
    + rewrite E. cbn. destruct (decide (set ∖ {[e]} = ∅)); [rewrite lookup_delete_eq|rewrite lookup_insert_eq]; cbn; set_solver.
    + destruct (decide (set ∖ {[e]} = ∅)); [rewrite lookup_delete_ne by done|rewrite lookup_insert_ne by done]; set_solver.
  - destruct (decide (n = m)) as [->|Hne]; [rewrite E; cbn|]; set_solver.
Qed.

Lemma elem_of_touch_remove b rid et s d n x :
  x ∈ touched (touch_remove b rid (et, s, d)) n ↔ x ∈ touched b n ∧ ¬ (x = (rid, et, s, d) ∧ (n = s ∨ n = d)).
Proof. unfold touch_remove. destruct (Z.eqb_spec s d) as [->|Hne]; rewrite !elem_of_untouch; tauto. Qed.

(** ** What the fields of a [ProvSets] say *)

(** The rule ids are positions in the list of names. *)
Record names_ok (intern : gmap string Z) (names : list string) : Prop := {
  no_names r rid : intern !! r = Some rid ↔ ∃ i, names !! i = Some r ∧ rid = Z.of_nat i;
  no_nodup : NoDup names;
}.

Lemma names_inj intern names r r' rid : names_ok intern names → intern !! r = Some rid → intern !! r' = Some rid → r = r'.
Proof. intros [Hn _] (i & Hi & ->)%Hn (j & Hj & E)%Hn. apply Nat2Z.inj in E as ->. congruence. Qed.

Record prov_ok (P : Owns) (owned : gset triple) (b : gmap Z (gset Touch)) (intern : gmap string Z) (names : list string) : Prop := {
  po_owned t : t ∈ owned ↔ ∃ r, t ∈ P r;
  po_single r r' t : t ∈ P r → t ∈ P r' → r = r';
  po_touch n rid et s d : (rid, et, s, d) ∈ touched b n ↔ (n = s ∨ n = d) ∧ ∃ r, intern !! r = Some rid ∧ (et, s, d) ∈ P r;
  po_interned r t : t ∈ P r → is_Some (intern !! r);
  po_names : names_ok intern names;
}.

Definition prov_rep (P : Owns) (r : string) (p : ProvSets) : Prop :=
  prov_ok P (owned_set (owned p)) (by_node p) (rule_intern p) (intern_names p) ∧ P r = set p.

(** There is an id for the rule, or room for one. *)
Definition has_id (intern : gmap string Z) (names : list string) (r : string) : Prop :=
  is_Some (intern !! r) ∨ Z.of_nat (length names) < 2 ^ 32.

Lemma intern_rule_ok intern names r rid intern' names' : names_ok intern names → has_id intern names r →
  intern_rule intern names r = (rid, intern', names') →
  names_ok intern' names' ∧ intern' !! r = Some rid ∧ (∀ r' x, r' ≠ r → intern' !! r' = Some x ↔ intern !! r' = Some x) ∧
  (∀ x, intern !! r = Some x → x = rid) ∧ (names' = names ∨ r ∉ names ∧ names' = names ++ [r]).
Proof.
  intros Hok Hlen. unfold intern_rule. destruct (intern !! r) as [x|] eqn:E.
  - intros [= <- <- <-]. split_and!; auto; naive_solver.
  - destruct Hlen as [[? ?]|Hlen]; [congruence|]. intros [= <- <- <-]. rewrite wrap_u_id by (unfold in_u; lia). destruct Hok as [Hn Hd].
    assert (r ∉ names) as Hr. { intros [i Hi]%list_elem_of_lookup. assert (intern !! r = Some (Z.of_nat i)) by (apply Hn; eauto). congruence. }
    split_and!; [|by rewrite lookup_insert_eq|intros r' x Hne; by rewrite lookup_insert_ne|done|by right]. split.
    + intros r' x. destruct (decide (r' = r)) as [->|Hne].
      * rewrite lookup_insert_eq. split; [intros [= <-]; exists (length names); split; [by apply list_lookup_middle|done]|].
        intros (i & Hi & ->). do 2 f_equal. apply lookup_app_Some in Hi as [Hi|[Hge Hi]]; [by apply list_elem_of_lookup_2 in Hi|].
        apply list_lookup_singleton_Some in Hi as [? _]. lia.
      * rewrite lookup_insert_ne, Hn by done. split; intros (i & Hi & ->); exists i; (split; [|done]).
        -- by apply lookup_app_l_Some.
        -- apply lookup_app_Some in Hi as [?|[_ Hi]]; [done|]. by apply list_lookup_singleton_Some in Hi as [_ ->].
    + apply NoDup_app. split_and!; [done| |apply NoDup_singleton]. intros x Hx ->%list_elem_of_singleton. done.
Qed.

(** The rule has an id now; the ids there were are the same, and no name is new but
    the rule's. *)
Record interned (p p' : ProvSets) (r : string) : Prop := {
  in_id : is_Some (rule_intern p' !! r);
  in_old r' x : rule_intern p !! r' = Some x → rule_intern p' !! r' = Some x;
  in_new r' : r' ∈ intern_names p' → r' ∈ intern_names p ∨ r' = r;
}.

Section prov.
Context {I : Type} `{NodeTable I}.
Abbreviation GraphMut := (@GraphMut I).

Lemma prov_insert_rep P r p t (g : GraphMut) : prov_rep P r p → (∀ r', t ∉ P r') → has_id (rule_intern p) (intern_names p) r →
  prov_rep (upd P r ({[t]} ∪ P r)) r (prov_insert p r t g) ∧ interned p (prov_insert p r t g) r.
Proof.
  intros [Hp Hr] Ht Hlen. unfold prov_insert. rewrite decide_False by (rewrite <-Hr; apply Ht).
  destruct (intern_rule (rule_intern p) (intern_names p) r) as [[rid intern'] names'] eqn:Ei. destruct t as [[et s] d].
  destruct (intern_rule_ok _ _ _ _ _ _ (po_names _ _ _ _ _ Hp) Hlen Ei) as (Hn & Hrid & Ho & Hold & Hnew). split.
  2:{ split; cbn [rule_intern intern_names]; [eauto| |]. - intros r' x Hx. destruct (decide (r' = r)) as [->|]; [by rewrite (Hold x Hx)|by apply Ho].
      - intros r' Hr'. destruct Hnew as [->|[_ ->]]; [by left|]. apply elem_of_app in Hr' as [?|?%list_elem_of_singleton]; auto. }
  split; [|by rewrite upd_same, Hr]. split; cbn [owned_set owned by_node rule_intern intern_names owned_insert owned_remove].
  - intros t'. rewrite elem_of_union, elem_of_singleton, (po_owned _ _ _ _ _ Hp). split.
    + intros [->|[r' Hr']]; [exists r; rewrite upd_same; set_solver|]. exists r'. unfold upd. case_decide; [subst; set_solver|done].
    + intros [r' Hr']. unfold upd in Hr'. case_decide; [|eauto]. apply elem_of_union in Hr' as [?%elem_of_singleton|?]; [by left|eauto].
  - intros r1 r2 t'. unfold upd. repeat case_decide; subst; [done|..]; rewrite ?elem_of_union, ?elem_of_singleton.
    + intros [->|Ha] Hb; [by apply Ht in Hb|by eapply po_single].
    + intros Ha [->|Hb]; [by apply Ht in Ha|by eapply po_single].
    + intros Ha Hb. by eapply po_single.
  - intros n x et' s' d'. rewrite elem_of_touch_insert, (po_touch _ _ _ _ _ Hp). split.
    + intros [(Hn' & r' & Hx & Hin)|[[= -> -> -> ->] Hn']]; (split; [done|]); [|exists r; rewrite upd_same; set_solver].
      exists r'. destruct (decide (r' = r)) as [->|Hne]; [rewrite upd_same|rewrite upd_other by done; by rewrite Ho].
      rewrite Hrid, (Hold x) by done. set_solver.
    + intros (Hn' & r' & Hx & Hin). destruct (decide (r' = r)) as [->|Hne].
      * rewrite upd_same in Hin. apply elem_of_union in Hin as [[= -> -> ->]%elem_of_singleton|Hin]; [right; split; [congruence|done]|left; split; [done|]].
        exists r. split; [|done]. destruct (po_interned _ _ _ _ _ Hp _ _ Hin) as [y Hy]. rewrite Hy. f_equal. rewrite (Hold y Hy). congruence.
      * rewrite upd_other in Hin by done. left. split; [done|]. exists r'. by rewrite <-Ho.
  - intros r' t'. unfold upd. case_decide; [subst; by rewrite Hrid|]. intros [y Hy]%(po_interned _ _ _ _ _ Hp). exists y. by rewrite Ho.
  - done.
Qed.

Lemma prov_remove_rep P r p t (g : GraphMut) : prov_rep P r p → t ∈ P r →
  prov_rep (upd P r (P r ∖ {[t]})) r (prov_remove p r t g) ∧ rule_intern (prov_remove p r t g) = rule_intern p ∧ intern_names (prov_remove p r t g) = intern_names p.
Proof.
  intros [Hp Hr] Ht. unfold prov_remove. rewrite decide_False by (rewrite <-Hr; tauto).
  destruct (po_interned _ _ _ _ _ Hp _ _ Ht) as [rid Hrid]. unfold intern_rule. rewrite Hrid. destruct t as [[et s] d].
  split; [|done]. split; [|by rewrite upd_same, Hr]. split; cbn [owned_set owned by_node rule_intern intern_names owned_insert owned_remove].
  - intros t'. rewrite elem_of_difference, elem_of_singleton, (po_owned _ _ _ _ _ Hp). split.
    + intros [[r' Hr'] Hne]. exists r'. unfold upd. case_decide; [subst; set_solver|done].
    + intros [r' Hr']. unfold upd in Hr'. case_decide as Hc; [subst; apply elem_of_difference in Hr' as [? ?]; split; [eauto|set_solver]|].
      split; [eauto|]. intros ->. apply Hc. by eapply po_single.
  - intros r1 r2 t'. unfold upd. repeat case_decide; subst; [done|..]; rewrite ?elem_of_difference; naive_solver eauto using po_single.
  - intros n x et' s' d'. rewrite elem_of_touch_remove, (po_touch _ _ _ _ _ Hp). split.
    + intros [(Hn' & r' & Hx & Hin) Hne]. split; [done|]. exists r'. split; [done|]. unfold upd. case_decide; [|done]. subst. apply elem_of_difference. split; [done|].
      intros [= -> -> ->]%elem_of_singleton. apply Hne. split; [congruence|done].
    + intros (Hn' & r' & Hx & Hin). destruct (decide (r' = r)) as [->|Hne].
      * rewrite upd_same in Hin. apply elem_of_difference in Hin as [Hin Hne]. split; [split; [done|eauto]|]. intros [[= -> -> -> ->] _]. set_solver.
      * rewrite upd_other in Hin by done. split; [split; [done|eauto]|]. intros [[= -> -> -> ->] _]. apply Hne. by eapply names_inj; [apply Hp| |].
  - intros r' t'. unfold upd. case_decide; [subst; by rewrite Hrid|]. apply (po_interned _ _ _ _ _ Hp).
  - apply Hp.
Qed.

Lemma prov_rep_ext P P' r p : (∀ r', P r' = P' r') → prov_rep P r p → prov_rep P' r p.
Proof.
  intros HP [[H1 H2 H3 H4 H5] Hr]. split; [|by rewrite <-HP]. split; [| | | |done].
  - intros t. rewrite H1. by setoid_rewrite HP.
  - intros r1 r2 t. rewrite <-!HP. apply H2.
  - intros n rid et s d. rewrite H3. by setoid_rewrite HP.
  - intros r' t. rewrite <-HP. apply H4.
Qed.

(** ** The graph's edges *)

Definition edges_are (g : GraphMut) (S : gset triple) : Prop := EdgeStore.holds (base_topo g) (topo g) S.

(** What the engine reads of a graph, its edges aside. *)
Definition reads (g : GraphMut) := (ids g, syms g, labels g, columns g, base_topo g).

Lemma add_edge_spec g S t : edges_are g S → ∃ g', add_edge g t = Some (bool_decide (t ∉ S), g') ∧ edges_are g' ({[t]} ∪ S) ∧ reads g' = reads g.
Proof.
  intros Hg. destruct t as [[et s] d]. unfold add_edge. destruct (EdgeStore.GraphMut_add_edge_holds _ _ _ et s d Hg) as (t & -> & Ht). cbn. eauto.
Qed.

Lemma remove_edge_spec g S t : edges_are g S → ∃ g', remove_edge g t = Some g' ∧ edges_are g' (S ∖ {[t]}) ∧ reads g' = reads g.
Proof.
  intros Hg. destruct t as [[et s] d]. unfold remove_edge. destruct (EdgeStore.GraphMut_remove_edge_holds _ _ _ et s d Hg) as (t & -> & Ht). cbn. eauto.
Qed.

(** ** Retracting *)

Definition marks (p : ProvSets) (r : string) (ts : list triple) : list (Z * triple) := (λ t, (default u32_max (rule_intern p !! r), t)) <$> ts.

Lemma retract_spec def P p g S t : let r := name def in prov_rep P r p → edges_are g S → t ∈ P r →
  ∃ p' g', retract def (p, g) t = Some (p', g') ∧ prov_rep (upd P r (P r ∖ {[t]})) r p' ∧ edges_are g' (S ∖ {[t]}) ∧ reads g' = reads g ∧
    rule_intern p' = rule_intern p ∧ intern_names p' = intern_names p ∧ emit p' = emit p ∧ retracted p' = retracted p ++ marks p r [t].
Proof.
  intros r Hp Hg Ht. unfold retract. destruct (remove_edge_spec g S t Hg) as (g1 & -> & He & Hr). cbn [mbind option_bind].
  destruct (prov_remove_rep P r p t (with_edge_props g1 (EdgeProps.EdgeProps.remove_edge (edge_props g1) t)) Hp Ht) as (Hp' & Ei & En).
  do 2 eexists. split; [reflexivity|]. split; [exact Hp'|]. split; [exact He|]. split; [exact Hr|]. unfold push_retracted. cbn [rule_intern intern_names emit retracted].
  fold r. rewrite Ei, En. split; [done|]. split; [done|]. unfold prov_remove. destruct Hp as [_ <-]. rewrite decide_False by tauto. by destruct (intern_rule _ _ _) as [[? ?] ?].
Qed.

Lemma retract_all def P p g S ts : let r := name def in prov_rep P r p → edges_are g S → NoDup ts → (∀ t, t ∈ ts → t ∈ P r) →
  ∃ p' g', foldM (retract def) (p, g) ts = Some (p', g') ∧ prov_rep (upd P r (P r ∖ list_to_set ts)) r p' ∧ edges_are g' (S ∖ list_to_set ts) ∧ reads g' = reads g ∧
    rule_intern p' = rule_intern p ∧ intern_names p' = intern_names p ∧ emit p' = emit p ∧ retracted p' = retracted p ++ marks p r ts.
Proof.
  intros r. revert P p g S. induction ts as [|t ts IH]; intros P p g S Hp Hg Hnd Hts; cbn [foldM].
  { exists p, g. split; [done|]. split_and!; try done.
    - eapply prov_rep_ext; [|done]. intros r'. unfold upd. case_decide; [subst; set_solver|done].
    - by replace (S ∖ list_to_set []) with S by set_solver.
    - cbn. by rewrite app_nil_r. }
  apply NoDup_cons in Hnd as [Hnin Hnd]. destruct (retract_spec def P p g S t Hp Hg) as (p1 & g1 & -> & Hp1 & Hg1 & Hr1 & Ei & En & Ee & Er); [apply Hts; by left|].
  cbn [mbind option_bind]. destruct (IH _ _ _ _ Hp1 Hg1 Hnd) as (p2 & g2 & -> & Hp2 & Hg2 & Hr2 & Ei2 & En2 & Ee2 & Er2).
  { intros t' Ht'. fold r. rewrite upd_same. apply elem_of_difference. split; [apply Hts; by right|]. intros ->%elem_of_singleton. done. }
  exists p2, g2. split; [done|]. split_and!; try congruence.
  - eapply prov_rep_ext; [|exact Hp2]. intros r'. fold r. destruct (decide (r' = r)) as [->|]; [rewrite !upd_same; cbn; set_solver|by rewrite !upd_other].
  - by replace (S ∖ list_to_set (t :: ts)) with (S ∖ {[t]} ∖ list_to_set ts) by (cbn; set_solver).
  - rewrite Er2, Er, <-app_assoc. unfold marks. cbn. by rewrite Ei.
Qed.

(** ** Wanting *)

Definition wanted (et : Z) (D : Desired) : gset triple := list_to_set ((λ x, (et, x.1.1, x.1.2)) <$> D).

Lemma elem_of_wanted et D t : t ∈ wanted et D ↔ ∃ x, x ∈ D ∧ t = (et, x.1.1, x.1.2).
Proof. unfold wanted. rewrite elem_of_list_to_set, list_elem_of_fmap. naive_solver. Qed.

Lemma weigh_reads def t sc b (g : GraphMut) : reads (weigh def t sc b g) = reads g ∧ topo (weigh def t sc b g) = topo g.
Proof. unfold weigh. by destruct (weight_prop def), b. Qed.

Lemma weigh_edges def t sc b (g : GraphMut) S : edges_are g S → edges_are (weigh def t sc b g) S.
Proof. unfold weigh. by destruct (weight_prop def), b. Qed.

(** What a pass of wanting leaves: the rule owns what was not there, the graph has it all. *)
Record after_want (r : string) (P : Owns) (p : ProvSets) (g : GraphMut) (S W : gset triple) (p' : ProvSets) (g' : GraphMut) : Prop := {
  aw_prov : prov_rep (upd P r (P r ∪ (W ∖ S))) r p';
  aw_edges : edges_are g' (S ∪ W);
  aw_reads : reads g' = reads g;
  aw_old r' x : rule_intern p !! r' = Some x → rule_intern p' !! r' = Some x;
  aw_new r' : r' ∈ intern_names p' → r' ∈ intern_names p ∨ r' = r;
  aw_emit : emit p' = emit p;
  aw_retracted : retracted p' = retracted p;
}.

Lemma want_spec def et P p g S x X : let r := name def in let t := (et, x.1.1, x.1.2) in
  prov_rep P r p → edges_are g S → (∀ r', P r' ⊆ S) → has_id (rule_intern p) (intern_names p) r →
  set p ∪ {[t]} ⊆ X → Z.of_nat (size X) ≤ edge_budget def →
  ∃ p' g', want def et (p, false, g) x = Some (p', false, g') ∧ after_want r P p g S {[t]} p' g' ∧ has_id (rule_intern p') (intern_names p') r.
Proof.
  intros r t Hp Hg HPS Hid HX Hb. destruct x as [[s d] sc]. cbn in t. unfold want. fold t. pose proof (proj2 Hp) as Hset. destruct (decide (t ∈ set p)) as [Hin|Hin].
  - destruct (weigh_reads def t sc true g) as [Hrd _]. exists p, (weigh def t sc true g). split; [done|]. split; [|done]. split; auto.
    + eapply prov_rep_ext; [|exact Hp]. intros r'. destruct (decide (r' = r)) as [->|]; [rewrite upd_same|by rewrite upd_other]. specialize (HPS r). set_solver.
    + apply weigh_edges. replace (S ∪ {[t]}) with S; [done|]. specialize (HPS r). set_solver.
  - assert (Z.of_nat (size (set p)) < Z.of_nat (size X)) as Hlt.
    { apply Nat2Z.inj_lt. apply Nat.lt_le_trans with (size ({[t]} ∪ set p)); [rewrite size_union by set_solver; rewrite size_singleton; lia|apply subseteq_size; set_solver]. }
    cbn [orb]. unfold prov_len. rewrite (proj2 (Z.leb_gt _ _)) by lia.
    destruct (add_edge_spec g S t Hg) as (g1 & -> & He & Hrd). cbn [mbind option_bind].
    assert (∀ b, reads (weigh def t sc b g1) = reads g) as Hrd' by (intros b; by rewrite (proj1 (weigh_reads def t sc b g1))).
    do 2 eexists. split; [reflexivity|]. replace (S ∪ {[t]}) with ({[t]} ∪ S) in * by set_solver. destruct (decide (t ∈ S)) as [HS|HS].
    + rewrite bool_decide_eq_false_2 in * by tauto. split; [|done]. split; [| |apply Hrd'|auto..].
      * eapply prov_rep_ext; [|exact Hp]. intros r'. destruct (decide (r' = r)) as [->|]; [rewrite upd_same; set_solver|by rewrite upd_other].
      * apply weigh_edges. by replace (S ∪ {[t]}) with ({[t]} ∪ S) by set_solver.
    + rewrite bool_decide_eq_true_2 in * by done. destruct (prov_insert_rep P r p t g1 Hp) as [Hp' [Hi1 Hi2 Hi3]]; [intros r' Hr'; apply HS; by apply (HPS r')|done|].
      split; [|by left]. split; [| |apply Hrd'|exact Hi2|exact Hi3|..].
      * eapply prov_rep_ext; [|exact Hp']. intros r'. destruct (decide (r' = r)) as [->|]; [rewrite !upd_same; set_solver|by rewrite !upd_other].
      * apply weigh_edges. by replace (S ∪ {[t]}) with ({[t]} ∪ S) by set_solver.
      * fold r. unfold prov_insert. rewrite decide_False by done. by destruct (intern_rule _ _ _) as [[? ?] ?].
      * fold r. unfold prov_insert. rewrite decide_False by done. by destruct (intern_rule _ _ _) as [[? ?] ?].
Qed.

(** A rule about to want edges of [X], which fits its budget. *)
Record ready (def : RuleDef) (X : gset triple) (P : Owns) (p : ProvSets) (g : GraphMut) (S : gset triple) : Prop := {
  rd_prov : prov_rep P (name def) p;
  rd_edges : edges_are g S;
  rd_owned r : P r ⊆ S;
  rd_id : has_id (rule_intern p) (intern_names p) (name def);
  rd_set : set p ⊆ X;
  rd_budget : Z.of_nat (size X) ≤ edge_budget def;
}.

Lemma ready_next def X P p g S W p' g' : ready def X P p g S → after_want (name def) P p g S W p' g' → has_id (rule_intern p') (intern_names p') (name def) → W ⊆ X →
  ready def X (upd P (name def) (P (name def) ∪ W ∖ S)) p' g' (S ∪ W).
Proof.
  intros [H1 H2 H3 H4 H5 H6] [K1 K2 _ _ _ _ _] Hid HW. split; [done|done| |done| |done].
  - intros r'. pose proof (H3 r'). pose proof (H3 (name def)). destruct (decide (r' = name def)) as [->|]; [rewrite upd_same|rewrite upd_other by done]; set_solver.
  - destruct K1 as [_ <-]. rewrite upd_same. destruct H1 as [_ H1]. rewrite H1. set_solver.
Qed.

Lemma after_want_app r P p g S W p1 g1 W' p2 g2 : after_want r P p g S W p1 g1 → after_want r (upd P r (P r ∪ W ∖ S)) p1 g1 (S ∪ W) W' p2 g2 →
  after_want r P p g S (W ∪ W') p2 g2.
Proof.
  intros [H1 H2 H3 H4 H5 H6 H7] [K1 K2 K3 K4 K5 K6 K7]. split; [| |congruence|auto| |congruence|congruence].
  - eapply prov_rep_ext; [|exact K1]. intros r'. destruct (decide (r' = r)) as [->|]; [rewrite !upd_same|by rewrite !upd_other].
    apply set_eq. intros y. rewrite !elem_of_union, !elem_of_difference, !elem_of_union. destruct (decide (y ∈ S)), (decide (y ∈ W)); tauto.
  - by replace (S ∪ (W ∪ W')) with (S ∪ W ∪ W') by set_solver.
  - intros r' Hr'. destruct (K5 r' Hr'); auto.
Qed.

Lemma after_want_nil r P p g S : prov_rep P r p → edges_are g S → after_want r P p g S ∅ p g.
Proof.
  intros Hp Hg. split; auto.
  - eapply prov_rep_ext; [|exact Hp]. intros r'. destruct (decide (r' = r)) as [->|]; [rewrite upd_same; set_solver|by rewrite upd_other].
  - by replace (S ∪ ∅) with S by set_solver.
Qed.

(** A loop whose steps want the edges [Wf x], in a state made of [p] and [g]. *)
Lemma fold_wants {A ST} (f : ST → A → option ST) (mk : ProvSets → GraphMut → ST) (Wf : A → gset triple) def X (rd : GraphMut) (l : list A) :
  (∀ x P p g S, x ∈ l → ready def X P p g S → reads g = reads rd →
     ∃ p' g', f (mk p g) x = Some (mk p' g') ∧ after_want (name def) P p g S (Wf x) p' g' ∧ has_id (rule_intern p') (intern_names p') (name def)) →
  (∀ x, x ∈ l → Wf x ⊆ X) → ∀ P p g S, ready def X P p g S → reads g = reads rd →
  ∃ p' g', foldM f (mk p g) l = Some (mk p' g') ∧ after_want (name def) P p g S (⋃ (Wf <$> l)) p' g' ∧ has_id (rule_intern p') (intern_names p') (name def).
Proof.
  intros Hf HX. induction l as [|x l IH]; intros P p g S Hr Hrd; cbn [foldM fmap list_fmap union_list foldr].
  { exists p, g. split; [done|]. split; [by apply after_want_nil; apply Hr|apply Hr]. }
  destruct (Hf x P p g S ltac:(by left) Hr Hrd) as (p1 & g1 & -> & Ha & Hid). cbn [mbind option_bind].
  destruct (IH ltac:(intros y * Hy; by apply Hf; right) ltac:(intros y Hy; apply HX; by right) (upd P (name def) (P (name def) ∪ Wf x ∖ S)) p1 g1 (S ∪ Wf x)) as (p2 & g2 & -> & Ha2 & Hid2).
  - eapply ready_next; eauto. apply HX. by left.
  - by rewrite (aw_reads _ _ _ _ _ _ _ _ Ha).
  - exists p2, g2. split; [done|]. split; [|done]. by eapply after_want_app.
Qed.

Lemma wanted_union et D : ⋃ ((λ x : (Z * Z) * Z, {[ (et, x.1.1, x.1.2) ]}) <$> D) = wanted et D.
Proof. unfold wanted. induction D as [|x D IH]; cbn; [done|]. cbn in IH. by rewrite IH. Qed.

Lemma want_all def et P p g S D X : let r := name def in
  prov_rep P r p → edges_are g S → (∀ r', P r' ⊆ S) → has_id (rule_intern p) (intern_names p) r →
  set p ∪ wanted et D ⊆ X → Z.of_nat (size X) ≤ edge_budget def →
  ∃ p' g', foldM (want def et) (p, false, g) D = Some (p', false, g') ∧ after_want r P p g S (wanted et D) p' g'.
Proof.
  intros r Hp Hg HPS Hid HX Hb. assert (∀ x, x ∈ D → {[ (et, x.1.1, x.1.2) ]} ⊆ X) as HD. { intros x Hx. assert ((et, x.1.1, x.1.2) ∈ wanted et D) by (apply elem_of_wanted; eauto). set_solver. }
  destruct (fold_wants (want def et) (λ p g, (p, false, g)) (λ x, {[ (et, x.1.1, x.1.2) ]}) def X g D) with (P := P) (p := p) (g := g) (S := S) as (p' & g' & E & Ha & _); [|done|split; auto; set_solver|done|].
  - intros x P' p' g' S' Hx [H1 H2 H3 H4 H5 H6] _. apply (want_spec def et P' p' g' S' x X); auto. specialize (HD x Hx). set_solver.
  - exists p', g'. rewrite wanted_union in Ha. eauto.
Qed.

Lemma touching_spec def P p et n : let r := name def in prov_rep P r p →
  NoDup (touching def et n false p) ∧ ∀ t, t ∈ touching def et n false p ↔ t ∈ P r ∧ t.1.1 = et ∧ (t.1.2 = n ∨ t.2 = n).
Proof.
  intros r [Hp _]. unfold touching. fold r. set (Q := λ '(x, t, s, _), Some x = rule_intern p !! r ∧ t = et ∧ (false = false ∨ s = n)).
  split.
  - apply NoDup_fmap_2_strong.
    + intros [[[x1 t1] s1] d1] [[[x2 t2] s2] d2] [Q1 _]%list_elem_of_filter [Q2 _]%list_elem_of_filter [= -> -> ->]. cbn in Q1, Q2. destruct Q1 as [Q1 _], Q2 as [Q2 _]. congruence.
    + apply NoDup_filter, sorted_NoDup, iter_set_sorted.
  - intros [[et' s] d]. rewrite list_elem_of_fmap. cbn. split.
    + intros ([[[x t1] s1] d1] & [= -> -> ->] & [[Hx [-> _]] Hin%elem_of_iter_set]%list_elem_of_filter).
      apply (po_touch _ _ _ _ _ Hp) in Hin as (Hn & r' & Hr' & Ht). rewrite (names_inj _ _ r r' x (po_names _ _ _ _ _ Hp)) by done. naive_solver.
    + intros (Ht & -> & Hn). destruct (po_interned _ _ _ _ _ Hp r _ Ht) as [x Hx]. exists (x, et, s, d). split; [done|].
      apply list_elem_of_filter. split; [cbn; auto|]. apply elem_of_iter_set. apply (po_touch _ _ _ _ _ Hp). naive_solver.
Qed.

End prov.
End RuleProvenance.
