(* ===== verification/RuleMaintain.v ===== *)
(** * Rules: derived edges are maintained

    After any change of a node the engine's hook leaves the graph with exactly the
    edges it should have: those nobody derived, and for every rule an edge for every
    pair that matches.  Proved for rules between two nodes, without a cap of their
    own, whose predicate the index answers. *)

From S2P Require Import Prelude Order Assoc Topology Csr TopologyView EdgeStore Interner Types EdgeProps Float64 ValueOps Float64Ops RuleDef RuleCandidates RuleEngine RuleDesired RuleProvenance.
Open Scope Z_scope.

Module RuleMaintain.
Import RuleDef RuleIndex RuleEngine RuleDesired RuleProvenance.

Lemma intern_known it s sym : Interner.get it s = Some sym → Interner.intern it s = (sym, it).
Proof. unfold Interner.get, Interner.intern. by intros ->. Qed.

(** The engine's provenance is [P], over its rules. *)
Record engine_ok (e : RuleEngine) (P : Owns) : Prop := {
  eo_prov r : default ∅ (provenance e !! r) = P r;
  eo_ok : prov_ok P (owned_set (e_owned e)) (e_by_node e) (e_rule_intern e) (e_intern_names e);
  eo_held r : r ∈ dom (rules e) → is_Some (provenance e !! r);
  eo_owner r t : t ∈ P r → r ∈ dom (rules e);
  eo_room : Z.of_nat (size (dom (rules e) ∪ list_to_set (e_intern_names e))) ≤ 2 ^ 32;
  eo_keys r def : rules e !! r = Some def → name def = r;
  eo_tripped r : default false (e_tripped e !! r) = false;
}.

Lemma engine_has_id e P r : engine_ok e P → r ∈ dom (rules e) → has_id (e_rule_intern e) (e_intern_names e) r.
Proof.
  intros He Hr. destruct (e_rule_intern e !! r) as [x|] eqn:E; [left; by rewrite E|right].
  destruct (po_names _ _ _ _ _ (eo_ok _ _ He)) as [Hn Hd].
  assert (r ∉ e_intern_names e) as Hnin. { intros [i Hi]%list_elem_of_lookup. assert (e_rule_intern e !! r = Some (Z.of_nat i)) by (apply Hn; eauto). congruence. }
  assert (S (length (e_intern_names e)) ≤ size (dom (rules e) ∪ list_to_set (e_intern_names e)))%nat as Hle.
  { assert (NoDup (r :: e_intern_names e)) as Hnd by (by apply NoDup_cons). change (S (length (e_intern_names e))) with (length (r :: e_intern_names e)).
    rewrite <-(size_list_to_set (C := gset string)) by done. apply subseteq_size. set_solver. }
  pose proof (eo_room _ _ He). lia.
Qed.

(** The engine with what a rule's [ProvSets] left. *)
Lemma put_prov_ok e P P' r p tr : engine_ok e P → r ∈ dom (rules e) → prov_rep P' r p → (∀ r', r' ≠ r → P' r' = P r') →
  (∀ r', r' ∈ intern_names p → r' ∈ e_intern_names e ∨ r' = r) → (∀ r', default false (tr !! r') = false) → engine_ok (put_prov e r p tr) P'.
Proof.
  intros He Hr [Hp Hset] Ho Hn Htr. split; cbn [put_prov provenance e_owned e_by_node e_rule_intern e_intern_names rules doomed e_tripped].
  - intros r'. destruct (decide (r' = r)) as [->|Hne]; [by rewrite lookup_insert_eq|]. rewrite lookup_insert_ne, Ho by done. apply He.
  - done.
  - intros r' Hr'. destruct (decide (r' = r)) as [->|Hne]; [by rewrite lookup_insert_eq|]. rewrite lookup_insert_ne by done. by apply He.
  - intros r' t Ht. destruct (decide (r' = r)) as [->|Hne]; [done|]. rewrite Ho in Ht by done. by eapply (eo_owner _ _ He).
  - etrans; [|apply (eo_room _ _ He)]. apply inj_le, subseteq_size. intros r' [?|Hr'%elem_of_list_to_set]%elem_of_union; [set_solver|]. apply Hn in Hr' as [Hr'| ->]; set_solver.
  - apply He.
  - done.
Qed.

Section maintain.
Context {I : Type} `{NodeTable I} {ok : I → Prop} {laws : NodeTableLaws I ok}.
Abbreviation GraphMut := (@GraphMut I).

(** What [apply_in_engine] retracts: what the rule owns at [n] and does not desire. *)
Definition lost (P : Owns) (r : string) (et n : Z) (D : Desired) : gset triple :=
  filter (λ t, t.1.1 = et ∧ (t.1.2 = n ∨ t.2 = n) ∧ is_desired D t = false) (P r).

(** The fields of the engine a rule's application leaves alone. *)
Definition untouched_fields (e : RuleEngine) := (rules e, indexes e, fires e, emit_deltas e, doomed e).

Record applied (r : string) (P : Owns) (e : RuleEngine) (g : GraphMut) (S L W : gset triple) (e' : RuleEngine) (g' : GraphMut) : Prop := {
  ap_engine : engine_ok e' (upd P r (P r ∖ L ∪ (W ∖ (S ∖ L))));
  ap_edges : edges_are g' (S ∖ L ∪ W);
  ap_reads : reads g' = reads g;
  ap_fields : untouched_fields e' = untouched_fields e;
  ap_ids r' x : e_rule_intern e !! r' = Some x → e_rule_intern e' !! r' = Some x;
  ap_gone by_ t : (by_, t) ∈ e_retracted e' ↔ (by_, t) ∈ e_retracted e ∨ t ∈ L ∧ e_rule_intern e !! r = Some by_;
}.

Lemma apply_in_engine_spec def P e g S D n et X : let r := name def in let L := lost P r et n D in
  engine_ok e P → edges_are g S → (∀ r', P r' ⊆ S) → rules e !! r = Some def → Interner.get (syms g) (edge_type def) = Some et →
  P r ∖ L ∪ wanted et D ⊆ X → Z.of_nat (size X) ≤ edge_budget def →
  ∃ e' g', apply_in_engine def D n (e, g) = Some (e', g') ∧ applied r P e g S L (wanted et D) e' g'.
Proof.
  intros r L He Hg HPS Hdef Het HX Hb. unfold apply_in_engine, apply_desired, apply_desired_scoped. rewrite (intern_known _ _ et Het). cbn beta iota zeta.
  replace (with_syms g (syms g)) with g by (by destruct g). fold r. set (p := prov_of e r). rewrite (eo_tripped _ _ He).
  assert (prov_rep P r p) as Hp by (split; [apply He|symmetry; apply He]).
  destruct (touching_spec def P p et n Hp) as [Hnd Hel]. fold r in Hel. set (ts := filter _ (touching def et n false p)).
  assert (∀ t, t ∈ ts ↔ t ∈ L) as Hts.
  { intros t. unfold ts, L, lost. rewrite list_elem_of_filter, Hel, elem_of_filter. tauto. }
  assert (list_to_set ts = L) as HL by (apply set_eq; intros t; by rewrite elem_of_list_to_set).
  destruct (retract_all def P p g S ts Hp Hg) as (p1 & g1 & -> & Hp1 & Hg1 & Hr1 & Ei & En & Ee & Er); [by apply NoDup_filter|intros t Ht%Hts; by apply elem_of_filter in Ht as [_ ?]|].
  fold r in Hp1. rewrite HL in *. cbn [mbind option_bind].
  destruct (want_all def et (upd P r (P r ∖ L)) p1 g1 (S ∖ L) D X Hp1 Hg1) as (p2 & g2 & -> & [K1 K2 K3 K4 K5 K6 K7]).
  - intros r'. pose proof (HPS r) as Ha. pose proof (HPS r') as Hb'. destruct (decide (r' = r)) as [->|Hne]; [rewrite upd_same; set_solver|rewrite upd_other by done].
    intros t Ht. apply elem_of_difference. split; [by apply Hb'|]. intros [_ HtL]%elem_of_filter. apply Hne. by eapply (po_single _ _ _ _ _ (eo_ok _ _ He)).
  - rewrite Ei, En. apply (engine_has_id e P r He). by apply elem_of_dom_2 in Hdef.
  - destruct Hp1 as [_ <-]. by rewrite upd_same.
  - done.
  - cbn [mbind option_bind]. do 2 eexists. split; [reflexivity|]. destruct K1 as [K1 K1s]. fold r in K1, K1s.
    assert (∀ r', upd (upd P r (P r ∖ L)) r (upd P r (P r ∖ L) r ∪ wanted et D ∖ (S ∖ L)) r' = upd P r (P r ∖ L ∪ wanted et D ∖ (S ∖ L)) r') as Hupd.
    { intros r'. destruct (decide (r' = r)) as [->|]; [by rewrite !upd_same|by rewrite !upd_other]. }
    split; [|exact K2|by rewrite K3|done| |].
    + eapply put_prov_ok; [exact He|by apply elem_of_dom_2 in Hdef|apply (prov_rep_ext _ _ r p2 Hupd (conj K1 K1s))|intros r' Hne; by rewrite upd_other| |].
      * intros r' [Hr'| ->]%K5; [left; by rewrite En in Hr'|by right].
      * intros r'. destruct (decide (r' = r)) as [->|Hne]; [by rewrite lookup_insert_eq|]. rewrite lookup_insert_ne by done. apply He.
    + intros r' x Hx. cbn. apply K4. by rewrite Ei.
    + intros by_ t. cbn [put_prov e_retracted]. rewrite K7, Er. rewrite elem_of_app. unfold marks. rewrite list_elem_of_fmap.
      change (rule_intern p) with (e_rule_intern e). change (retracted p) with (e_retracted e). fold r. split; (intros [?|Hm]; [by left|right]).
      * destruct Hm as (t' & [= -> ->] & Ht'%Hts). split; [done|]. apply elem_of_filter in Ht' as [_ HtP].
        destruct (po_interned _ _ _ _ _ (eo_ok _ _ He) r _ HtP) as [x Hx]. by rewrite Hx.
      * destruct Hm as [HtL Hx]. exists t. rewrite Hx. split; [done|by apply Hts].
Qed.

(** ** The graph before and after a change *)

Context (sin cos : Z → Z) (atan2 : Z → Z → Z).
Abbreviation desired := (desired sin cos atan2).
Abbreviation compute_desired := (compute_desired sin cos atan2).

Lemma reads_desired (g g' : GraphMut) : reads g' = reads g → ∀ def s d, desired def g' s d = desired def g s d.
Proof. destruct g, g'. cbn. by intros [= -> -> -> -> ->]. Qed.
Lemma reads_member (g g' : GraphMut) : reads g' = reads g → ∀ def lbl m, member def lbl g' m ↔ member def lbl g m.
Proof. destruct g, g'. cbn. by intros [= -> -> -> -> ->]. Qed.
Lemma reads_index (g g' : GraphMut) def ix : reads g' = reads g → index_ok def ix g → index_ok def ix g'.
Proof. destruct g, g'. cbn. by intros [= -> -> -> -> ->] [? ?]. Qed.
Lemma reads_graph (g g' : GraphMut) : reads g' = reads g → graph_ok (ok := ok) g → graph_ok (ok := ok) g'.
Proof. destruct g, g'. cbn. by intros [= -> -> -> -> ->] [? ? ? ? ? ?]. Qed.
Lemma reads_syms (g g' : GraphMut) : reads g' = reads g → syms g' = syms g.
Proof. destruct g, g'. cbn. by intros [= -> -> -> -> ->]. Qed.

(** Only [n] changed: it is new, or one of its fields, not the namespace, has
    another value. *)
Record changes (n : Z) (changed : Change) (g0 g : GraphMut) : Prop := {
  ch_member m def lbl : m ≠ n → member def lbl g0 m ↔ member def lbl g m;
  ch_key m : m ≠ n → node_key (ids g0) m = node_key (ids g) m;
  ch_getter m f : m ≠ n → getter g0 m f = getter g m f;
  ch_node : match changed with
            | None => ∀ def lbl, ¬ member def lbl g0 n
            | Some (field, old) =>
                (∀ def lbl, member def lbl g0 n ↔ member def lbl g n) ∧ node_key (ids g0) n = node_key (ids g) n
                ∧ getter g0 n field = old ∧ ∀ f, f ≠ field → getter g0 n f = getter g n f
            end;
  ch_syms s sym : Interner.get (syms g0) s = Some sym → Interner.get (syms g) s = Some sym;
}.

Definition touches (n : Z) (t : triple) : Prop := t.1.2 = n ∨ t.2 = n.

Lemma desired_same def (g0 g : GraphMut) s d :
  (∀ m, m = s ∨ m = d → (∀ lbl, member def lbl g0 m ↔ member def lbl g m) ∧ node_key (ids g0) m = node_key (ids g) m ∧
     ∀ f, f ∈ watched_fields def → getter g0 m f = getter g m f) →
  desired def g0 s d = desired def g s d.
Proof.
  intros Hm. destruct (Hm s) as (Ms & Ks & Gs); [by left|]. destruct (Hm d) as (Md & Kd & Gd); [by right|]. unfold RuleDesired.desired.
  rewrite (decide_ext (s ≠ d ∧ member def (src_label def) g0 s ∧ member def (dst_label def) g0 d) (s ≠ d ∧ member def (src_label def) g s ∧ member def (dst_label def) g d)) by (by rewrite Ms, Md).
  case_decide; [|done]. rewrite Ks, Kd. destruct (node_key (ids g) s); [|done]. destruct (node_key (ids g) d); [|done]. cbn.
  apply evaluate_fields; [done|]. intros f Hf. cbn. auto.
Qed.

Lemma desired_others n changed g0 g def s d : changes n changed g0 g → ¬ (s = n ∨ d = n) → desired def g0 s d = desired def g s d.
Proof.
  intros Hc Hn. apply desired_same. intros m Hm. assert (m ≠ n) by (intros ->; naive_solver).
  split; [intros lbl; by apply Hc|]. split; [by apply Hc|intros f _; by apply Hc].
Qed.

Lemma desired_unwatched n field old g0 g def s d : changes n (Some (field, old)) g0 g → field ∉ watched_fields def → desired def g0 s d = desired def g s d.
Proof.
  intros Hc Hf. apply desired_same. intros m _. destruct (decide (m = n)) as [->|Hne].
  - destruct (ch_node _ _ _ _ Hc) as (Hm & Hk & _ & Hg). split; [apply Hm|]. split; [done|]. intros f Hin. apply Hg. by intros ->.
  - split; [intros lbl; by apply Hc|]. split; [by apply Hc|intros f _; by apply Hc].
Qed.

(** A pair the rule desires at [n] needs [n] on a side of the rule. *)
Lemma desired_member def (g : GraphMut) n s d : is_Some (desired def g s d) → s = n ∨ d = n → member def (src_label def) g n ∨ member def (dst_label def) g n.
Proof. intros [sc (_ & Hs & Hd & _)%desired_inv] [->| ->]; auto. Qed.

(** The keys of a node are those of the watched fields. *)
Lemma index_keys_watched p g g' : (∀ f, f ∈ collect_fields p → g f = g' f) →
  (∀ k fl, index_keys (candidate_spec_approx_with_floor p k fl) g = index_keys (candidate_spec_approx_with_floor p k fl) g'
     ∧ hnsw_vector_present (candidate_spec_approx_with_floor p k fl) g = hnsw_vector_present (candidate_spec_approx_with_floor p k fl) g'
     ∧ vector_fields (candidate_spec_approx_with_floor p k fl) ⊆ collect_fields p)
  ∧ index_keys (candidate_spec p) g = index_keys (candidate_spec p) g' ∧ hnsw_vector_present (candidate_spec p) g = hnsw_vector_present (candidate_spec p) g'
  ∧ vector_fields (candidate_spec p) ⊆ collect_fields p.
Proof.
  induction p as [f|f|f mn|ps IH|f t|f km|f mn|ps IH] using Predicate_parts_ind; intros Hf; cbn [collect_fields] in Hf.
  1-3,5-7: cbn; rewrite ?(Hf f) by set_solver; split_and!; intros; split_and?; try done; set_solver.
  - assert (∀ q, q ∈ ps → ∀ f, f ∈ collect_fields q → g f = g' f) as Hq by (intros q Hq f Hfq; apply Hf; by eapply elem_of_collect_all).
    clear Hf. assert (∀ q, q ∈ ps → collect_fields q ⊆ collect_fields (All ps)) as Hsub by (intros q Hqi f Hfq; by eapply elem_of_collect_all).
    cbn [candidate_spec_approx_with_floor candidate_spec index_keys hnsw_vector_present vector_fields].
    assert (∀ sp, (∀ q, q ∈ ps → index_keys (sp q) g = index_keys (sp q) g' ∧ hnsw_vector_present (sp q) g = hnsw_vector_present (sp q) g' ∧ vector_fields (sp q) ⊆ collect_fields q) →
      union_map (λ s, index_keys s g) (map sp ps) = union_map (λ s, index_keys s g') (map sp ps)
      ∧ existsb (λ s, hnsw_vector_present s g) (map sp ps) = existsb (λ s, hnsw_vector_present s g') (map sp ps)
      ∧ foldr (λ s fs, vector_fields s ∪ fs) ∅ (map sp ps) ⊆ collect_fields (All ps)) as Hmap.
    { intros sp Hsp. revert Hsub Hsp. generalize (collect_fields (All ps)). intros F HF Hsp. clear -HF Hsp. induction ps as [|q ps IH]; cbn; [split_and!; [done|done|set_solver]|].
      destruct IH as (E1 & E2 & E3); [set_solver|set_solver|]. destruct (Hsp q) as (F1 & F2 & F3); [by left|]. rewrite E1, E2, F1, F2.
      specialize (HF q ltac:(by left)). split_and!; [done|done|set_solver]. }
    split; [intros k fl|]; apply Hmap; intros q Hqi; rewrite Forall_forall in IH; destruct (IH q Hqi (Hq q Hqi)) as [Ha Hb]; [apply Ha|apply Hb].
  - assert (∀ q, q ∈ ps → ∀ f, f ∈ collect_fields q → g f = g' f) as Hq by (intros q Hq f Hfq; apply Hf; by eapply elem_of_collect_all).
    clear Hf. assert (∀ q, q ∈ ps → collect_fields q ⊆ collect_fields (Any ps)) as Hsub by (intros q Hqi f Hfq; by eapply elem_of_collect_all).
    cbn [candidate_spec_approx_with_floor candidate_spec index_keys hnsw_vector_present vector_fields].
    assert (union_map (λ s, index_keys s g) (map candidate_spec ps) = union_map (λ s, index_keys s g') (map candidate_spec ps)
      ∧ existsb (λ s, hnsw_vector_present s g) (map candidate_spec ps) = existsb (λ s, hnsw_vector_present s g') (map candidate_spec ps)
      ∧ foldr (λ s fs, vector_fields s ∪ fs) ∅ (map candidate_spec ps) ⊆ collect_fields (Any ps)) as Hmap; [|by split].
    revert Hsub. generalize (collect_fields (Any ps)). intros F HF. induction IH as [|q ps Hqi _ IH]; cbn; [split_and!; [done|done|set_solver]|].
    destruct IH as (E1 & E2 & E3); [set_solver|set_solver|]. destruct (Hqi (Hq q ltac:(by left))) as (_ & F1 & F2 & F3). rewrite E1, E2, F1, F2.
    specialize (HF q ltac:(by left)). split_and!; [done|done|set_solver].
Qed.

End maintain.
End RuleMaintain.
