(* ===== verification/RuleHook.v ===== *)
(** * Rules: the hook keeps the derived edges

    The invariant of the engine ([coherent]) and what the hook of a changed node makes
    of it.  Rule by rule, the hook reaches a state in which every edge a rule should
    have is there or was let go of by another rule; the second pass takes those back. *)

From S2P Require Import Prelude Order Assoc Topology Csr TopologyView EdgeStore Interner Types EdgeProps Float64 ValueOps Float64Ops RuleDef RuleCandidates RuleEngine RuleDesired RuleProvenance RuleMaintain.
Open Scope Z_scope.

Module RuleHook.
Import RuleDef RuleIndex RuleEngine RuleDesired RuleProvenance RuleMaintain.

Section hook.
Context {I : Type} `{NodeTable I} {ok : I → Prop} {laws : NodeTableLaws I ok}.
Context (sin cos : Z → Z) (atan2 : Z → Z → Z).
Abbreviation GraphMut := (@GraphMut I).
Abbreviation desired := (desired sin cos atan2).
Abbreviation compute_desired := (compute_desired sin cos atan2).
Abbreviation graph_ok := (graph_ok (ok := ok)).

(** The rule should have the edge [t]. *)
Definition derives (def : RuleDef) (g : GraphMut) (t : triple) : Prop :=
  Interner.get (syms g) (edge_type def) = Some t.1.1 ∧ is_Some (desired def g t.1.2 t.2).

(** A rule between two nodes, without a cap, that its index answers. *)
Record plain (def : RuleDef) : Prop := {
  pl_via : via_label def = None ∧ via_edge def = None;
  pl_cap : max_edges def = None;
  pl_answerable : answerable def;
}.

(** The rule's edges fit its budget. *)
Definition fits (def : RuleDef) (g : GraphMut) : Prop := ∀ X : gset triple, (∀ t, t ∈ X → derives def g t) → Z.of_nat (size X) ≤ edge_budget def.

(** The books: the graph's edges are those no rule owns, [U], and those the rules own,
    [P]. *)
Record books (e : RuleEngine) (g : GraphMut) (P : Owns) (S U : gset triple) : Prop := {
  bk_engine : engine_ok e P;
  bk_edges : edges_are g S;
  bk_parts t : t ∈ S ↔ t ∈ U ∨ ∃ r, t ∈ P r;
  bk_free r t : t ∈ U → t ∉ P r;
}.

(** The engine's fields the books are about. *)
Definition booked (e : RuleEngine) := (rules e, provenance e, e_owned e, e_by_node e, (e_rule_intern e, e_intern_names e, e_tripped e, doomed e)).

Lemma books_fields e e' g P S U : booked e' = booked e → books e g P S U → books e' g P S U.
Proof.
  intros E [[E1 E2 E3 E4 E5 E6 E7] H2 H3 H4]. split; [|done..]. destruct e, e'. unfold booked in E. cbn in *. simplify_eq. by split.
Qed.

(** The engine and the graph agree: every rule owns edges it derives, and every edge a
    rule of [C] derives is there. *)
Record coherent_on (C : string → Prop) (e : RuleEngine) (g : GraphMut) (P : Owns) (S U : gset triple) : Prop := {
  co_graph : graph_ok g;
  co_books : books e g P S U;
  co_retracted : e_retracted e = [];
  co_doomed : doomed e = None;
  co_rules r def : rules e !! r = Some def → plain def ∧ is_Some (Interner.get (syms g) (edge_type def));
  co_sound r def t : rules e !! r = Some def → t ∈ P r → derives def g t;
  co_complete r def t : C r → rules e !! r = Some def → derives def g t → t ∈ S;
  co_index r def : rules e !! r = Some def → ∃ ix, indexes e !! r = Some ix ∧ index_ok def ix g;
}.

(** ... for all rules. *)
Abbreviation coherent := (coherent_on (λ _, True)).

Lemma coherent_fields C e e' g P S U : booked e' = booked e → indexes e' = indexes e → e_retracted e' = e_retracted e → coherent_on C e g P S U → coherent_on C e' g P S U.
Proof.
  intros Hb Hi Hr [H1 H2 H3 H4 H5 H6 H7 H8]. assert (rules e' = rules e ∧ doomed e' = doomed e) as [Hru Hdo] by (destruct e, e'; unfold booked in Hb; cbn in *; by simplify_eq).
  split; rewrite ?Hru, ?Hi, ?Hr, ?Hdo; try done. by apply (books_fields e).
Qed.

(** The edges of a coherent graph, without the provenance. *)
Lemma coherent_edges e g P S U : coherent e g P S U → ∀ t, t ∈ S ↔ t ∈ U ∨ ∃ r def, rules e !! r = Some def ∧ derives def g t.
Proof.
  intros Hc t. split.
  - intros [?|[r Ht]]%(bk_parts _ _ _ _ _ (co_books _ _ _ _ _ _ Hc)); [by left|right]. pose proof (eo_owner _ _ (bk_engine _ _ _ _ _ (co_books _ _ _ _ _ _ Hc)) r t Ht) as [def Hdef]%elem_of_dom. exists r, def. split; [done|]. by eapply co_sound.
  - intros [?|(r & def & Hdef & Ht)]; [apply (bk_parts _ _ _ _ _ (co_books _ _ _ _ _ _ Hc)); by left|by eapply co_complete].
Qed.

(** ** What is desired at a node *)

Lemma elem_of_keys (D : Desired) p : is_Some (alookup p D) ↔ p ∈ D.*1.
Proof. rewrite <-not_eq_None_Some, alookup_None. split; [apply dec_stable|tauto]. Qed.

Lemma elem_of_extend (D D' : Desired) p : p ∈ (extend D D').*1 ↔ p ∈ D.*1 ∨ p ∈ D'.*1.
Proof.
  unfold extend. revert D. induction D' as [|[q x] D' IH]; intros D; cbn [foldl].
  - cbn. rewrite elem_of_nil. tauto.
  - rewrite IH, elem_of_ainsert_keys. cbn. rewrite elem_of_cons. tauto.
Qed.

(** The keys of [D] are the rule's pairs at [n]. *)
Definition desired_at (def : RuleDef) (g : GraphMut) (n : Z) (D : Desired) : Prop :=
  ∀ p, p ∈ D.*1 ↔ (p.1 = n ∨ p.2 = n) ∧ is_Some (desired def g p.1 p.2).

Lemma compute_desired_keys def ix n (b : bool) g p : graph_ok g → index_ok def ix g → answerable def →
  p ∈ (compute_desired def ix n b g).*1 ↔ (if b then p.1 else p.2) = n ∧ is_Some (desired def g p.1 p.2).
Proof.
  intros Hg Hix Ha. destruct (compute_desired_spec sin cos atan2 def ix n b g Hg Hix Ha) as [_ Hd]. rewrite <-elem_of_keys.
  split; [intros [x [? ?]%Hd]; eauto|]. intros [? [x ?]]. exists x. by apply Hd.
Qed.

(** [n] is not a member of a side that the hook does not work on. *)
Definition on_side (lbl : string) (g : GraphMut) (n : Z) : bool :=
  bool_decide (is_Some (Interner.get (syms g) lbl)) && bool_decide (label g n = Interner.get (syms g) lbl).

Lemma on_side_member def lbl (g : GraphMut) n : 0 ≤ n → rule_sees def n g = true → on_side lbl g n = true ↔ member def lbl g n.
Proof.
  intros Hn Hs. unfold on_side, member. rewrite andb_true_iff, !bool_decide_eq_true. split.
  - intros [[sym E] Hl]. split; [done|]. split; [|done]. exists sym. split; [done|congruence].
  - intros (_ & (sym & E & Hl) & _). rewrite E, Hl. split; [by eexists|done].
Qed.

Lemma member_on_side def lbl (g : GraphMut) n : member def lbl g n → on_side lbl g n = true.
Proof. intros Hm. apply (on_side_member def); [apply Hm..|done]. Qed.

Lemma off_side def lbl (g : GraphMut) n : on_side lbl g n = false → ¬ member def lbl g n.
Proof. intros Ho Hm%member_on_side. congruence. Qed.

Lemma reads_sees (g g' : GraphMut) def n : reads g' = reads g → rule_sees def n g' = rule_sees def n g.
Proof. destruct g, g'. cbn. by intros [= -> -> -> -> ->]. Qed.
Lemma reads_on_side (g g' : GraphMut) lbl n : reads g' = reads g → on_side lbl g' n = on_side lbl g n.
Proof. destruct g, g'. cbn. by intros [= -> -> -> -> ->]. Qed.

Lemma reads_reindex (g g' : GraphMut) def n b1 b2 changed ix : reads g' = reads g → reindex def n b1 b2 changed g' ix = reindex def n b1 b2 changed g ix.
Proof. destruct g, g'. cbn. by intros [= -> -> -> -> ->]. Qed.

Lemma reads_label (g g' : GraphMut) n : reads g' = reads g → label g' n = label g n.
Proof. destruct g, g'. cbn. by intros [= -> -> -> -> ->]. Qed.

Lemma desired_both def ix n g D : graph_ok g → index_ok def ix g → answerable def →
  D = (let D := if on_side (src_label def) g n then extend [] (compute_desired def ix n true g) else [] in
       if on_side (dst_label def) g n then extend D (compute_desired def ix n false g) else D) →
  desired_at def g n D.
Proof.
  intros Hg Hix Ha -> p. cbn zeta.
  assert (∀ b, p ∈ (compute_desired def ix n b g).*1 ↔ (if b then p.1 else p.2) = n ∧ is_Some (desired def g p.1 p.2)) as Hk by (intros b; by apply compute_desired_keys).
  assert (on_side (src_label def) g n = false → ¬ (p.1 = n ∧ is_Some (desired def g p.1 p.2))) as Hs.
  { intros Ho [<- [x (_ & Hm & _)%desired_inv]]. by apply (off_side def) in Ho. }
  assert (on_side (dst_label def) g n = false → ¬ (p.2 = n ∧ is_Some (desired def g p.1 p.2))) as Hd.
  { intros Ho [<- [x (_ & _ & Hm & _)%desired_inv]]. by apply (off_side def) in Ho. }
  assert (p ∉ ([] : Desired).*1) as Hnil by apply not_elem_of_nil.
  destruct (on_side (src_label def) g n), (on_side (dst_label def) g n); rewrite ?elem_of_extend, ?(Hk true), ?(Hk false);
    try specialize (Hs eq_refl); try specialize (Hd eq_refl); tauto.
Qed.

Lemma desired_reclaimed def ix n g (dm : option Z) D : graph_ok g → index_ok def ix g → answerable def → dm = None →
  D = filter (λ x : (Z * Z) * Z, dm ≠ Some x.1.1 ∧ dm ≠ Some x.1.2)
        (if on_side (dst_label def) g n then extend (compute_desired def ix n true g) (compute_desired def ix n false g) else compute_desired def ix n true g) →
  desired_at def g n D.
Proof.
  intros Hg Hix Ha -> -> p. rewrite list_elem_of_fmap. setoid_rewrite list_elem_of_filter.
  assert (∀ l, (∃ y : (Z * Z) * Z, p = y.1 ∧ (None ≠ Some y.1.1 ∧ None ≠ Some y.1.2) ∧ y ∈ l) ↔ p ∈ l.*1) as Hfil by (intros l; rewrite list_elem_of_fmap; naive_solver).
  rewrite Hfil. assert (∀ b, p ∈ (compute_desired def ix n b g).*1 ↔ (if b then p.1 else p.2) = n ∧ is_Some (desired def g p.1 p.2)) as Hk by (intros b; by apply compute_desired_keys).
  destruct (on_side (dst_label def) g n) eqn:Eo; rewrite ?elem_of_extend, ?(Hk true), ?(Hk false); [tauto|].
  split; [tauto|]. intros [[?|<-] Hd]; [done|]. destruct Hd as [x (_ & _ & Hm & _)%desired_inv]. by apply (off_side def) in Eo.
Qed.

(** ** One rule applied at one node *)

Lemma is_desired_spec def g n D et (t : triple) : desired_at def g n D → Interner.get (syms g) (edge_type def) = Some et → t.1.1 = et →
  is_desired D t = true ↔ touches n t ∧ derives def g t.
Proof.
  intros HD He Ht. unfold is_desired. rewrite bool_decide_eq_true, elem_of_keys, (HD (t.1.2, t.2)). unfold touches, derives. rewrite He, Ht. cbn. naive_solver.
Qed.

Lemma wanted_spec def g n D et t : desired_at def g n D → Interner.get (syms g) (edge_type def) = Some et →
  t ∈ wanted et D ↔ touches n t ∧ derives def g t.
Proof.
  intros HD He. rewrite elem_of_wanted. destruct t as [[et' s] d]. unfold touches, derives. cbn [fst snd]. rewrite He. split.
  - intros ([[s' d'] x] & Hx & [= -> -> ->]). cbn. destruct (proj1 (HD (s', d'))) as [? ?]; [apply list_elem_of_fmap; by exists (s', d', x)|]. naive_solver.
  - intros (Hn & [= <-] & Hd). assert ((s, d) ∈ D.*1) as ([p x] & [= <-] & Hx)%list_elem_of_fmap by (by apply HD). by exists (s, d, x).
Qed.

Record applied_at (def : RuleDef) (g : GraphMut) (n : Z) (P : Owns) (S U : gset triple) (e : RuleEngine) (P' : Owns) (S' : gset triple) (e' : RuleEngine) (g' : GraphMut) : Prop := {
  aa_books : books e' g' P' S' U;
  aa_reads : reads g' = reads g;
  aa_fields : untouched_fields e' = untouched_fields e;
  aa_others r : r ≠ name def → P' r = P r;
  aa_own t : t ∈ P' (name def) → derives def g t;
  aa_now t : touches n t → derives def g t → t ∈ S';
  aa_kept t : t ∈ S → t ∈ S' ∨ t ∈ P (name def) ∧ ¬ derives def g t ∧ ∃ by_, e_rule_intern e' !! name def = Some by_ ∧ (by_, t) ∈ e_retracted e';
  aa_ids r x : e_rule_intern e !! r = Some x → e_rule_intern e' !! r = Some x;
  aa_gone x : x ∈ e_retracted e → x ∈ e_retracted e';
}.

Lemma apply_at def g e g1 P S U n D et : let r := name def in
  reads g1 = reads g → books e g1 P S U → rules e !! r = Some def → Interner.get (syms g) (edge_type def) = Some et → desired_at def g n D → fits def g →
  (∀ t, t ∈ P r → t.1.1 = et ∧ (derives def g t ∨ touches n t)) →
  ∃ P' S' e' g', apply_in_engine def D n (e, g1) = Some (e', g') ∧ applied_at def g n P S U e P' S' e' g'.
Proof.
  intros r Hr [He Hg Hpt Hfr] Hdef Het HD Hfit HP. set (L := lost P r et n D). set (W := wanted et D).
  assert (∀ t, t ∈ L ↔ t ∈ P r ∧ touches n t ∧ ¬ derives def g t) as HL.
  { intros t. unfold L, lost. rewrite elem_of_filter. split.
    - intros [(Ht & Hn & Hd) Hin]. split; [done|]. split; [done|]. intros Hde. assert (is_desired D t = true) by (by eapply is_desired_spec). congruence.
    - intros (Hin & Hn & Hd). split; [|done]. split; [by apply HP|]. split; [done|]. apply not_true_iff_false. rewrite (is_desired_spec def g n D et t) by (done || by apply HP). tauto. }
  assert (∀ t, t ∈ W ↔ touches n t ∧ derives def g t) as HW by (intros t; by apply wanted_spec).
  assert (∀ t, t ∈ P r ∖ L ∪ W → derives def g t) as Hder.
  { intros t [[Ht HnL]%elem_of_difference|Ht]%elem_of_union; [|by apply HW]. destruct (HP t Ht) as [_ [?|Hn]]; [done|]. apply dec_stable. intros Hd. apply HnL, HL. done. }
  destruct (apply_in_engine_spec def P e g1 S D n et (P r ∖ L ∪ W)) as (e' & g' & E & [K1 K2 K3 K4 K5 K6]); [done|done| |done|by rewrite (reads_syms g g1 Hr)|done|by apply Hfit|].
  { intros r' t Ht. apply Hpt. eauto. }
  fold r L W in K1, K2, K6. eexists _, _, e', g'. split; [exact E|].
  assert (∀ r', r' ≠ r → ∀ t, t ∈ P r' → t ∉ L) as Hsep. { intros r' Hne t Ht [HtP _]%HL. apply Hne. by eapply (po_single _ _ _ _ _ (eo_ok _ _ He)). }
  assert (∀ t, t ∈ U → t ∉ L) as HUL. { intros t Ht [HtP _]%HL. by apply (Hfr r) in Ht. }
  split; [split; [exact K1|exact K2| |]|congruence|done|intros r' Hne; by rewrite upd_other|fold r; intros t; rewrite upd_same; intros Ht|..].
  - intros t. rewrite elem_of_union, elem_of_difference, Hpt. split.
    + intros [[[?|[r' Ht]] HnL]|Ht]; [by left| |]; [right; exists r'|].
      * unfold upd. case_decide; [subst; set_solver|done].
      * destruct (decide (t ∈ S ∖ L)) as [[HtS HnL]%elem_of_difference|Hn]; [|right; exists r; rewrite upd_same; set_solver].
        apply Hpt in HtS as [?|[r' Hr']]; [by left|right; exists r']. unfold upd. case_decide; [subst; set_solver|done].
    + intros [Ht|[r' Ht]]; [left; split; [by left|by apply HUL]|]. unfold upd in Ht. case_decide; [subst r'|left; split; [right; by exists r'|by eapply Hsep]].
      apply elem_of_union in Ht as [[Ht HnL]%elem_of_difference|[Ht _]%elem_of_difference]; [left; split; [right; by exists r|done]|by right].
  - intros r' t Ht. unfold upd. case_decide; [|by apply Hfr]. pose proof (Hfr r t Ht). pose proof (HUL t Ht). assert (t ∈ S) by (apply Hpt; by left). set_solver.
  - apply Hder. set_solver.
  - intros t Hn Hd. apply elem_of_union_r, HW. done.
  - intros t Ht. destruct (decide (t ∈ L)) as [HtL|]; [right|left; set_solver]. apply HL in HtL as Hx. split; [apply Hx|]. split; [apply Hx|].
    destruct (po_interned _ _ _ _ _ (eo_ok _ _ He) r t) as [by_ Hby]; [apply Hx|]. exists by_. split; [by apply K5|]. apply K6. right. done.
  - done.
  - intros [by_ t] Hx. apply K6. by left.
Qed.

Lemma change_uncapped_at def g e g1 P S U n ix et :
  reads g1 = reads g → books e g1 P S U → rules e !! name def = Some def → Interner.get (syms g) (edge_type def) = Some et → graph_ok g → index_ok def ix g → answerable def → fits def g →
  (∀ t, t ∈ P (name def) → t.1.1 = et ∧ (derives def g t ∨ touches n t)) →
  ∃ P' S' e' g', change_uncapped sin cos atan2 def n (on_side (src_label def) g n) (on_side (dst_label def) g n) ix (e, g1) = Some (e', g') ∧ applied_at def g n P S U e P' S' e' g'.
Proof.
  intros Hr Hb Hdef Het Hg Hix Ha Hfit HP. unfold change_uncapped. cbn [snd]. eapply apply_at; try done. intros p.
  rewrite <-(reads_desired sin cos atan2 g g1 Hr). revert p.
  eapply desired_both; [by eapply reads_graph|by eapply reads_index|done|]. by rewrite !(reads_on_side g g1 _ _ Hr).
Qed.

(** ** The indexes after a change *)

Lemma member_before n changed g0 g def lbl m : changes n changed g0 g → member def lbl g0 m → member def lbl g m.
Proof.
  intros Hc Hm. destruct (decide (m = n)) as [->|]; [|by apply (ch_member _ _ _ _ Hc)].
  pose proof (ch_node _ _ _ _ Hc) as Hn. destruct changed as [[f old]|]; [by apply Hn|by apply Hn in Hm].
Qed.

Definition side_index (def : RuleDef) (lbl : string) (spec : CandidateSpec) (ix : SideIndex) (g : GraphMut) : Prop :=
  ∃ M, (∀ m, m ∈ M ↔ member def lbl g m) ∧ side_ok ix spec M (getter g).

Lemma side_unchanged n changed g0 g def lbl spec ix : changes n changed g0 g → ¬ member def lbl g n →
  side_index def lbl spec ix g0 → side_index def lbl spec ix g.
Proof.
  intros Hc Hn (M & HM & Hs). assert (n ∉ M) as HnM. { intros Hin%HM. by eapply Hn, member_before. }
  exists M. split.
  - intros m. rewrite HM. destruct (decide (m = n)) as [->|]; [|by apply Hc]. split; [by intros ?%HM|done].
  - eapply side_ok_ext, Hs. intros m f Hm. apply (ch_getter _ _ _ _ Hc). by intros ->.
Qed.

Lemma side_reindexed n changed g0 g def lbl spec ix : changes n changed g0 g → member def lbl g n → side_index def lbl spec ix g0 →
  side_index def lbl spec (insert spec n (getter g n) match changed with Some (f, old) => remove spec n (old_getter g n f old) ix | None => ix end) g.
Proof.
  intros Hc Hn (M & HM & Hs). exists ({[n]} ∪ M ∖ {[n]}). split.
  - intros m. rewrite elem_of_union, elem_of_difference, elem_of_singleton, HM. destruct (decide (m = n)) as [->|Hne]; [tauto|].
    rewrite (ch_member _ _ _ _ Hc) by done. tauto.
  - apply side_ok_insert; [|set_solver]. eapply (side_ok_ext _ _ _ (getter g0)); [intros m f Hm; apply (ch_getter _ _ _ _ Hc); set_solver|].
    pose proof (ch_node _ _ _ _ Hc) as Hch. destruct changed as [[f old]|].
    + apply side_ok_remove; [done|]. intros _ f'. unfold old_getter. destruct Hch as (_ & _ & Hf & Ho). destruct (String.eqb_spec f' f) as [->|]; [done|]. symmetry. by apply Ho.
    + replace (M ∖ {[n]}) with M; [done|]. assert (n ∉ M) by (by rewrite HM). set_solver.
Qed.

Lemma side_unwatched n f old g0 g def lbl spec ix : changes n (Some (f, old)) g0 g →
  (∀ get get', (∀ f, f ∈ watched_fields def → get f = get' f) → index_keys spec get = index_keys spec get' ∧ hnsw_vector_present spec get = hnsw_vector_present spec get') →
  vector_fields spec ⊆ watched_fields def → f ∉ watched_fields def → side_index def lbl spec ix g0 → side_index def lbl spec ix g.
Proof.
  intros Hc Hspec Hvec Hf (M & HM & [Hb Ht Hm]).
  assert (∀ m f', f' ∈ watched_fields def → getter g0 m f' = getter g m f') as Hget.
  { intros m f' Hf'. destruct (decide (m = n)) as [->|]; [|by apply Hc]. apply (ch_node _ _ _ _ Hc). by intros ->. }
  exists M. split.
  - intros m. rewrite HM. destruct (decide (m = n)) as [->|]; [apply (ch_node _ _ _ _ Hc)|by apply Hc].
  - split.
    + intros k m. by rewrite Hb, (proj1 (Hspec _ _ (Hget m))).
    + intros m. by rewrite Ht, (proj2 (Hspec _ _ (Hget m))).
    + intros m f' dn HmM Hv. rewrite <-Hget by set_solver. eauto.
Qed.

Lemma keymatch_field_watched p f : keymatch_field p = Some f → f ∈ collect_fields p.
Proof.
  induction p as [g|g|g mn|ps IH|g t|g km|g mn|ps IH] using Predicate_parts_ind; cbn; try done; [by intros [= ->]; set_solver|].
  destruct ps as [|p ps]; [done|]. apply Forall_cons in IH as [IH _]. intros Hf%IH. cbn. set_solver.
Qed.

Lemma spec_watched def : (∀ get get', (∀ f, f ∈ watched_fields def → get f = get' f) →
    index_keys (candidate_spec_for def) get = index_keys (candidate_spec_for def) get' ∧ hnsw_vector_present (candidate_spec_for def) get = hnsw_vector_present (candidate_spec_for def) get')
  ∧ vector_fields (candidate_spec_for def) ⊆ watched_fields def.
Proof.
  unfold candidate_spec_for. split; [intros get get' Hget|]; [destruct (index_keys_watched (predicate def) get get' Hget) as [Hk _]|destruct (index_keys_watched (predicate def) (λ _, None) (λ _, None)) as [Hk _]; [done|]].
  all: edestruct Hk as (? & ? & ?); by eauto.
Qed.

Lemma src_spec_watched def : (∀ get get', (∀ f, f ∈ watched_fields def → get f = get' f) →
    index_keys (src_lookup_spec_for def) get = index_keys (src_lookup_spec_for def) get' ∧ hnsw_vector_present (src_lookup_spec_for def) get = hnsw_vector_present (src_lookup_spec_for def) get')
  ∧ vector_fields (src_lookup_spec_for def) ⊆ watched_fields def.
Proof.
  unfold src_lookup_spec_for. destruct (is_keymatch_rooted (predicate def)); [|apply spec_watched]. destruct (keymatch_field (predicate def)) as [f|] eqn:Ef; [|apply spec_watched].
  split; [|cbn; set_solver]. intros get get' Hget. cbn. by rewrite Hget by (by apply keymatch_field_watched).
Qed.

Lemma index_unwatched n f old g0 g def ix : changes n (Some (f, old)) g0 g → f ∉ watched_fields def → index_ok def ix g0 → index_ok def ix g.
Proof.
  intros Hc Hf [Hs Hd]. destruct (spec_watched def) as [H1 H2], (src_spec_watched def) as [H3 H4].
  split; [eapply (side_unwatched _ _ _ g0)|eapply (side_unwatched _ _ _ g0)]; done.
Qed.

Lemma index_unchanged n changed g0 g def ix : changes n changed g0 g → ¬ member def (src_label def) g n → ¬ member def (dst_label def) g n → index_ok def ix g0 → index_ok def ix g.
Proof. intros Hc Hns Hnd [Hs Hd]. split; by eapply (side_unchanged _ _ g0). Qed.

Lemma index_reindexed n changed g0 g def ix : changes n changed g0 g → 0 ≤ n → rule_sees def n g = true → index_ok def ix g0 →
  index_ok def (reindex def n (on_side (src_label def) g n) (on_side (dst_label def) g n) changed g ix) g.
Proof.
  intros Hc Hn Hsee [Hs Hd]. pose proof (on_side_member def (src_label def) g n Hn Hsee) as Ms. pose proof (on_side_member def (dst_label def) g n Hn Hsee) as Md. split.
  - destruct (on_side (src_label def) g n).
    + pose proof (side_reindexed _ _ _ _ _ _ _ _ Hc (proj1 Ms eq_refl) Hs) as HS. by destruct changed as [[? ?]|].
    + assert (¬ member def (src_label def) g n) as Hno by (rewrite <-Ms; congruence). pose proof (side_unchanged _ _ _ _ _ _ _ _ Hc Hno Hs). by destruct changed as [[? ?]|].
  - destruct (on_side (dst_label def) g n).
    + pose proof (side_reindexed _ _ _ _ _ _ _ _ Hc (proj1 Md eq_refl) Hd) as HS. by destruct changed as [[? ?]|].
    + assert (¬ member def (dst_label def) g n) as Hno by (rewrite <-Md; congruence). pose proof (side_unchanged _ _ _ _ _ _ _ _ Hc Hno Hd). by destruct changed as [[? ?]|].
Qed.

(** ** The first pass *)

Section pass.
Context (n : Z) (changed : Change) (g0 g : GraphMut) (e0 : RuleEngine) (P0 : Owns) (S0 U : gset triple).
Hypothesis before : coherent e0 g0 P0 S0 U.
Hypothesis step : changes n changed g0 g.
Hypothesis after : graph_ok g.
Hypothesis node : 0 ≤ n.
Hypothesis room : ∀ r def, rules e0 !! r = Some def → fits def g.

Lemma derives_same r def t : rules e0 !! r = Some def → desired def g0 t.1.2 t.2 = desired def g t.1.2 t.2 → derives def g0 t ↔ derives def g t.
Proof.
  intros Hdef Hd. unfold derives. rewrite Hd. destruct (co_rules _ _ _ _ _ _ before r def Hdef) as [_ [et Het]].
  by rewrite Het, (ch_syms _ _ _ _ step _ _ Het).
Qed.

Lemma derives_elsewhere r def t : rules e0 !! r = Some def → ¬ touches n t → derives def g0 t ↔ derives def g t.
Proof. intros Hdef Ht. eapply derives_same, desired_others; done. Qed.

(** A rule the change does not concern. *)
Definition quiet (def : RuleDef) : Prop :=
  ¬ member def (src_label def) g n ∧ ¬ member def (dst_label def) g n
  ∨ ∃ f old, changed = Some (f, old) ∧ f ∉ watched_fields def.

Lemma quiet_derives r def t : rules e0 !! r = Some def → quiet def → derives def g0 t ↔ derives def g t.
Proof.
  intros Hdef [[Hs Hd]|(f & old & Hch & Hf)]; [|pose proof step as st; rewrite Hch in st; eapply derives_same, desired_unwatched; [exact Hdef|exact st|done]].
  assert (∀ g', (∀ lbl, member def lbl g' n → member def lbl g n) → derives def g' t → touches n t → False) as Hno.
  { intros g' Hg' [_ Hder] Ht. destruct (desired_member sin cos atan2 def g' n t.1.2 t.2 Hder Ht) as [?%Hg'|?%Hg']; done. }
  assert (touches n t → ¬ derives def g0 t ∧ ¬ derives def g t) as Hneither.
  { intros Ht. split; intros Hder; [apply (Hno g0)|apply (Hno g)]; try done. intros lbl. by eapply member_before. }
  destruct (decide (t.1.2 = n ∨ t.2 = n)) as [Ht|Ht]; [specialize (Hneither Ht); tauto|by eapply derives_elsewhere].
Qed.

Lemma quiet_index def ix : quiet def → index_ok def ix g0 → index_ok def ix g.
Proof. intros [[Hs Hd]|(f & old & Hch & Hf)] Hix; [by eapply index_unchanged|]. pose proof step as st. rewrite Hch in st. by eapply index_unwatched. Qed.

(** Another rule let go of [t]. *)
Definition lost_by_other (e : RuleEngine) (r : string) (t : triple) : Prop :=
  ∃ r' by_, r' ≠ r ∧ e_rule_intern e !! r' = Some by_ ∧ (by_, t) ∈ e_retracted e.

(** After the rules [R]. *)
Record mid (R : list string) (e : RuleEngine) (g1 : GraphMut) (P : Owns) (S : gset triple) : Prop := {
  m_books : books e g1 P S U;
  m_reads : reads g1 = reads g;
  m_rules : rules e = rules e0;
  m_doomed : doomed e = None;
  m_todo r : r ∉ R → P r = P0 r ∧ indexes e !! r = indexes e0 !! r;
  m_kept r t : r ∉ R → t ∈ S0 → t ∈ S ∨ lost_by_other e r t;
  m_sound r def t : r ∈ R → rules e0 !! r = Some def → t ∈ P r → derives def g t;
  m_index r def : r ∈ R → rules e0 !! r = Some def → ∃ ix, indexes e !! r = Some ix ∧ index_ok def ix g;
  m_has r def t : r ∈ R → rules e0 !! r = Some def → derives def g t → t ∈ S ∨ lost_by_other e r t;
}.

Lemma mid_start : edges_are g S0 → mid [] (with_retracted e0 []) g P0 S0.
Proof.
  intros Hg. destruct (co_books _ _ _ _ _ _ before) as [He HS Hp Hf]. split; [|done|done|apply before|done|by left| | |].
  1: by apply (books_fields e0).
  all: intros r def; intros; by destruct (not_elem_of_nil r).
Qed.

Lemma derived_before r def t : rules e0 !! r = Some def → derives def g0 t → t ∈ S0.
Proof. by apply (co_complete _ _ _ _ _ _ before r). Qed.

Lemma mid_quiet R e g1 P S r def : r ∉ R → rules e0 !! r = Some def → quiet def → mid R e g1 P S → mid (r :: R) e g1 P S.
Proof.
  intros Hr Hdef Hq Hm. destruct (m_todo _ _ _ _ _ Hm r Hr) as [HP Hix]. split; try apply Hm; try setoid_rewrite not_elem_of_cons; try setoid_rewrite elem_of_cons.
  - intros r' [_ Hr']. by apply (m_todo _ _ _ _ _ Hm).
  - intros r' t [_ Hr']. by apply (m_kept _ _ _ _ _ Hm).
  - intros r' def' t [->|Hr']; [|by apply (m_sound _ _ _ _ _ Hm)]. rewrite Hdef, HP. intros [= <-] Ht. apply (quiet_derives r def t Hdef Hq). by eapply (co_sound _ _ _ _ _ _ before).
  - intros r' def' [->|Hr']; [|by apply (m_index _ _ _ _ _ Hm)]. rewrite Hdef, Hix. intros [= <-]. destruct (co_index _ _ _ _ _ _ before r def Hdef) as (ix & ? & ?).
    exists ix. split; [done|]. by apply quiet_index.
  - intros r' def' t [->|Hr']; [|by apply (m_has _ _ _ _ _ Hm)]. rewrite Hdef. intros [= <-] Ht. apply (m_kept _ _ _ _ _ Hm); [done|]. eapply derived_before; [done|]. by eapply quiet_derives.
Qed.

(** What another rule's application does to a rule's claim on an edge. *)
Lemma has_kept def P S e P' S' e' g' r t : applied_at def g n P S U e P' S' e' g' → r ≠ name def →
  t ∈ S ∨ lost_by_other e r t → t ∈ S' ∨ lost_by_other e' r t.
Proof.
  intros Ha Hne [Ht|(r' & by_ & Hr' & Hby & Hin)].
  - destruct (aa_kept _ _ _ _ _ _ _ _ _ _ _ Ha t Ht) as [?|(_ & _ & by_ & Hby & Hin)]; [by left|right]. by exists (name def), by_.
  - right. exists r', by_. split; [done|]. split; [by apply (aa_ids _ _ _ _ _ _ _ _ _ _ _ Ha)|by apply (aa_gone _ _ _ _ _ _ _ _ _ _ _ Ha)].
Qed.

Lemma has_own def P S e P' S' e' g' t : applied_at def g n P S U e P' S' e' g' → derives def g t →
  t ∈ S ∨ lost_by_other e (name def) t → t ∈ S' ∨ lost_by_other e' (name def) t.
Proof.
  intros Ha Hd [Ht|(r' & by_ & Hr' & Hby & Hin)].
  - destruct (aa_kept _ _ _ _ _ _ _ _ _ _ _ Ha t Ht) as [?|(_ & ? & _)]; [by left|done].
  - right. exists r', by_. split; [done|]. split; [by apply (aa_ids _ _ _ _ _ _ _ _ _ _ _ Ha)|by apply (aa_gone _ _ _ _ _ _ _ _ _ _ _ Ha)].
Qed.

Lemma mid_fired R e g1 P S r def ix e1 P' S' e' g' : r ∉ R → rules e0 !! r = Some def → name def = r → index_ok def ix g → mid R e g1 P S →
  booked e1 = booked e → indexes e1 = <[r := ix]> (indexes e) → e_retracted e1 = e_retracted e →
  applied_at def g n P S U e1 P' S' e' g' → mid (r :: R) e' g' P' S'.
Proof.
  intros Hr Hdef Hname Hix Hm Hb Hi Hre Ha.
  assert (∀ r' t, t ∈ S ∨ lost_by_other e r' t → t ∈ S ∨ lost_by_other e1 r' t) as Hsame.
  { intros r' t [?|(r2 & by_ & ? & ? & ?)]; [by left|right]. exists r2, by_. rewrite Hre. destruct e, e1. cbn in *. by simplify_eq. }
  assert (indexes e' = <[r := ix]> (indexes e) ∧ rules e' = rules e ∧ doomed e' = doomed e) as (Hi' & Hru & Hdo).
  { pose proof (aa_fields _ _ _ _ _ _ _ _ _ _ _ Ha) as Hf. destruct e, e1, e'. unfold untouched_fields in Hf. cbn in *. by simplify_eq. }
  split; try apply Ha; try setoid_rewrite not_elem_of_cons; try setoid_rewrite elem_of_cons.
  - rewrite Hru. apply Hm.
  - rewrite Hdo. apply Hm.
  - intros r' [Hne Hr']. destruct (m_todo _ _ _ _ _ Hm r' Hr') as [<- <-]. split; [apply (aa_others _ _ _ _ _ _ _ _ _ _ _ Ha); congruence|]. by rewrite Hi', lookup_insert_ne.
  - intros r' t [Hne Hr'] Ht. eapply has_kept; [exact Ha|congruence|]. by apply Hsame, (m_kept _ _ _ _ _ Hm).
  - intros r' def' t [->|Hr'] Hd'; [rewrite Hdef in Hd'; injection Hd' as <-; rewrite <-Hname; apply Ha|].
    assert (r' ≠ r) by (by intros ->). rewrite (aa_others _ _ _ _ _ _ _ _ _ _ _ Ha) by congruence. by apply (m_sound _ _ _ _ _ Hm).
  - intros r' def' [->|Hr'] Hd'; rewrite Hi'; [rewrite lookup_insert_eq; rewrite Hdef in Hd'; injection Hd' as <-; by exists ix|].
    assert (r' ≠ r) by (by intros ->). rewrite lookup_insert_ne by done. by apply (m_index _ _ _ _ _ Hm).
  - intros r' def' t [->|Hr'] Hd' Ht.
    + rewrite Hdef in Hd'. injection Hd' as <-. destruct (decide (t.1.2 = n ∨ t.2 = n)) as [Hn|Hn]; [left; by apply (aa_now _ _ _ _ _ _ _ _ _ _ _ Ha)|].
      rewrite <-Hname. eapply has_own; [done..|]. rewrite Hname. apply Hsame, (m_kept _ _ _ _ _ Hm); [done|]. eapply derived_before; [done|]. by apply (derives_elsewhere r).
    + assert (r' ≠ r) by (by intros ->). eapply has_kept; [exact Ha|congruence|]. apply Hsame. by eapply (m_has _ _ _ _ _ Hm).
Qed.

Lemma rule_step R r e g1 P S : r ∉ R → r ∈ dom (rules e0) → mid R e g1 P S →
  ∃ e' g' P' S', rule_changed sin cos atan2 n changed (e, g1) r = Some (e', g') ∧ mid (r :: R) e' g' P' S'.
Proof.
  intros Hr [def Hdef]%elem_of_dom Hm. destruct (co_rules _ _ _ _ _ _ before r def Hdef) as [[[Hvia _] Hcap Hans] [et0 Het0]].
  pose proof (m_reads _ _ _ _ _ Hm) as Hrd. assert (name def = r) as Hname by (by apply (eo_keys _ _ (bk_engine _ _ _ _ _ (co_books _ _ _ _ _ _ before)))).
  unfold rule_changed. rewrite (m_rules _ _ _ _ _ Hm), Hdef. cbn [mbind option_bind]. rewrite Hvia, Hcap.
  fold (on_side (src_label def) g1 n). fold (on_side (dst_label def) g1 n). rewrite !(reads_on_side g g1 _ _ Hrd), (reads_sees g g1 _ _ Hrd). destruct (rule_sees def n g) eqn:Es; cbn [negb].
  2:{ exists e, g1, P, S. split; [done|]. eapply mid_quiet; try done. left. split; intros (_ & _ & ?); congruence. }
  destruct (match changed with Some (field, _) => bool_decide (field ∈ watched_fields def) | None => true end) eqn:Ew; cbn [andb].
  2:{ exists e, g1, P, S. split; [done|]. eapply mid_quiet; try done. right. destruct changed as [[f old]|]; [|done]. apply bool_decide_eq_false in Ew. eauto. }
  destruct (on_side (src_label def) g n || on_side (dst_label def) g n) eqn:Eo; cbn [negb].
  2:{ exists e, g1, P, S. split; [done|]. apply orb_false_iff in Eo as [? ?]. eapply mid_quiet; try done. left. by split; apply off_side. }
  destruct (m_todo _ _ _ _ _ Hm r Hr) as [HP Hix]. destruct (co_index _ _ _ _ _ _ before r def Hdef) as (ix & Hi & Hix0).
  set (e1 := with_fires e _). change (indexes e1) with (indexes e). rewrite Hix, Hi. cbn [mbind option_bind]. rewrite (reads_reindex g g1 _ _ _ _ _ _ Hrd).
  set (ix' := reindex _ _ _ _ _ _ _). set (e2 := with_index e1 r ix').
  assert (index_ok def ix' g) as Hix' by (by eapply index_reindexed). pose proof (reads_index g g1 def ix' Hrd Hix') as Hix1. pose proof (reads_graph g g1 Hrd after) as Hg1.
  assert (∀ t, t ∈ P (name def) → t.1.1 = et0 ∧ (derives def g t ∨ touches n t)) as Hown.
  { intros t. rewrite Hname, HP. intros Ht. pose proof (co_sound _ _ _ _ _ _ before r def t Hdef Ht) as Hd. split; [by destruct Hd; simplify_eq|].
    destruct (decide (t.1.2 = n ∨ t.2 = n)) as [?|Hnt]; [by right|left]. by apply (derives_elsewhere r). }
  destruct (change_uncapped_at def g e2 g1 P S U n ix' et0) as (P' & S' & e' & g' & -> & Ha); try done; [|by rewrite Hname; cbn; rewrite (m_rules _ _ _ _ _ Hm)|by apply step|by eapply room|].
  { by apply (books_fields e), Hm. }
  exists e', g', P', S'. split; [done|]. by eapply (mid_fired R e g1 P S r def ix' e2).
Qed.

Lemma first_pass l : ∀ R e g1 P S, NoDup l → (∀ r, r ∈ l → r ∉ R ∧ r ∈ dom (rules e0)) → mid R e g1 P S →
  ∃ R' e' g' P' S', foldM (rule_changed sin cos atan2 n changed) (e, g1) l = Some (e', g') ∧ mid R' e' g' P' S' ∧ ∀ r, r ∈ R' ↔ r ∈ l ∨ r ∈ R.
Proof.
  induction l as [|r l IH]; intros R e g1 P S Hnd Hl Hm; cbn [foldM].
  - exists R, e, g1, P, S. split; [done|]. split; [done|]. intros r. rewrite elem_of_nil. tauto.
  - apply NoDup_cons in Hnd as [Hnr Hnd]. destruct (Hl r) as [Hr Hd]; [by left|]. destruct (rule_step R r e g1 P S Hr Hd Hm) as (e1 & g2 & P1 & S1 & -> & Hm1).
    cbn [mbind option_bind]. destruct (IH (r :: R) e1 g2 P1 S1 Hnd) as (R' & e' & g' & P' & S' & E & Hm' & HR); [|done|].
    + intros r' Hr'. rewrite not_elem_of_cons. split; [split; [by intros ->|]|]; apply Hl; by right.
    + exists R', e', g', P', S'. split; [done|]. split; [done|]. intros r'. rewrite HR, !elem_of_cons. tauto.
Qed.

(** ** The second pass *)

(** The rule and the source of every edge still missing are among the targets [T]. *)
Record late (T : list (string * Z)) (e : RuleEngine) (g1 : GraphMut) (P : Owns) (S : gset triple) : Prop := {
  l_books : books e g1 P S U;
  l_reads : reads g1 = reads g;
  l_rules : rules e = rules e0;
  l_doomed : doomed e = None;
  l_sound r def t : rules e0 !! r = Some def → t ∈ P r → derives def g t;
  l_index r def : rules e0 !! r = Some def → ∃ ix, indexes e !! r = Some ix ∧ index_ok def ix g;
  l_has r def t : rules e0 !! r = Some def → derives def g t → t ∈ S ∨ (r, t.1.2) ∈ T;
}.

Lemma late_coherent e g1 P S : e_retracted e = [] → late [] e g1 P S → coherent e g1 P S U.
Proof.
  intros He [Hb Hr Hru Hdo Hs Hi Hh].
  assert (∀ def t, derives def g1 t ↔ derives def g t) as Hder by (intros def t; unfold derives; by rewrite (reads_syms g g1 Hr), (reads_desired sin cos atan2 g g1 Hr)).
  split; rewrite ?Hru; [by eapply reads_graph|done|done|done|..].
  - intros r def Hdef. destruct (co_rules _ _ _ _ _ _ before r def Hdef) as [Hp [et Het]]. split; [done|]. rewrite (reads_syms g g1 Hr). exists et. by apply step.
  - intros r def t Hdef Ht. apply Hder. by eapply Hs.
  - intros r def t _ Hdef Ht%Hder. destruct (Hh r def t Hdef Ht) as [?|?%not_elem_of_nil]; done.
  - intros r def Hdef. destruct (Hi r def Hdef) as (ix & ? & ?). exists ix. split; [done|]. by eapply reads_index.
Qed.

Lemma late_weaken T T' e g1 P S : (∀ x, x ∈ T → x ∈ T') → late T e g1 P S → late T' e g1 P S.
Proof. intros HT [Hb Hr Hru Hdo Hs Hi Hh]. split; try done. intros r def t Hdef Ht. destruct (Hh r def t Hdef Ht); auto. Qed.

Lemma late_applied T r s def e g1 P S P' S' e' g' : rules e0 !! r = Some def → name def = r → late ((r, s) :: T) e g1 P S → applied_at def g s P S U e P' S' e' g' → late T e' g' P' S'.
Proof.
  intros Hdef Hname [Hb Hr Hru Hdo Hs Hi Hh] Ha. pose proof (aa_fields _ _ _ _ _ _ _ _ _ _ _ Ha) as Hf.
  assert (rules e' = rules e ∧ indexes e' = indexes e ∧ doomed e' = doomed e) as (Hru' & Hi' & Hdo') by (clear -Hf; destruct e, e'; unfold untouched_fields in Hf; cbn in *; by simplify_eq).
  assert (∀ r', r' ≠ r → P' r' = P r') as Ho by (intros r' Hne; apply (aa_others _ _ _ _ _ _ _ _ _ _ _ Ha); congruence).
  assert (∀ t, t ∈ P' r → derives def g t) as Hown by (rewrite <-Hname; apply (aa_own _ _ _ _ _ _ _ _ _ _ _ Ha)).
  split; [apply Ha|apply Ha|congruence|congruence|..]; rewrite ?Hi'.
  - intros r' def' t Hdef'. destruct (decide (r' = r)) as [->|Hne]; [|rewrite Ho by done; by apply Hs]. assert (def' = def) as -> by congruence. apply Hown.
  - done.
  - intros r' def' t Hdef' Ht. destruct (Hh r' def' t Hdef' Ht) as [HtS|[[= -> Hts]|?]%elem_of_cons]; [|left|by right].
    + destruct (aa_kept _ _ _ _ _ _ _ _ _ _ _ Ha t HtS) as [?|(HtP & Hnd & _)]; [by left|]. destruct Hnd. rewrite Hname in HtP. by eapply Hs.
    + assert (def' = def) as -> by congruence. apply (aa_now _ _ _ _ _ _ _ _ _ _ _ Ha); [by left|done].
Qed.

Lemma reclaim_step T r s e g1 P S : r ∈ dom (rules e0) → late ((r, s) :: T) e g1 P S →
  ∃ e' g' P' S', reclaim sin cos atan2 (e, g1) (r, s) = Some (e', g') ∧ late T e' g' P' S'.
Proof.
  intros [def Hdef]%elem_of_dom Hl. pose proof Hl as [Hb Hr Hru Hdo Hs Hi Hh]. destruct (co_rules _ _ _ _ _ _ before r def Hdef) as [[[Hvia _] Hcap Hans] [et Het]].
  assert (name def = r) as Hname by (by apply (eo_keys _ _ (bk_engine _ _ _ _ _ (co_books _ _ _ _ _ _ before)))). destruct (Hi r def Hdef) as (ix & Hix & Hixok).
  unfold reclaim. rewrite Hdo, bool_decide_eq_false_2 by done. rewrite Hru, Hdef. cbn [mbind option_bind]. rewrite Hvia, Hix. cbn [mbind option_bind]. rewrite Hcap.
  fold (on_side (dst_label def) g1 s). set (D := filter _ _).
  assert (desired_at def g1 s D) as HD by (apply (desired_reclaimed def ix s g1 None D); [by eapply reads_graph|by eapply reads_index|done|done|done]).
  destruct (apply_at def g e g1 P S U s D et) as (P' & S' & e' & g' & E & Ha); rewrite ?Hname, ?Hru; try done.
  - by apply step.
  - intros p. rewrite <-(reads_desired sin cos atan2 g g1 Hr). apply HD.
  - by eapply room.
  - intros t Ht. pose proof (Hs r def t Hdef Ht) as Hd. split; [|by left]. destruct Hd as [Hd _]. rewrite (ch_syms _ _ _ _ step _ _ Het) in Hd. by simplify_eq.
  - exists e', g', P', S'. split; [done|]. eapply late_applied; done.
Qed.

Lemma second_pass T : ∀ e g1 P S, (∀ x, x ∈ T → x.1 ∈ dom (rules e0)) → late T e g1 P S →
  ∃ e' g' P' S', foldM (reclaim sin cos atan2) (e, g1) T = Some (e', g') ∧ late [] e' g' P' S'.
Proof.
  induction T as [|[r s] T IH]; intros e g1 P S HT Hl; cbn [foldM]; [by exists e, g1, P, S|].
  destruct (reclaim_step T r s e g1 P S) as (e1 & g2 & P1 & S1 & -> & Hl1); [by apply (HT (r, s)); left|done|]. cbn [mbind option_bind].
  apply (IH e1 g2 P1 S1); [|done]. intros x Hx. apply HT. by right.
Qed.

Lemma elem_of_targets e gone (g1 : GraphMut) r s : (r, s) ∈ reclaim_targets e gone g1 ↔ ∃ def et sym, rules e !! r = Some def ∧
  Interner.get (syms g1) (edge_type def) = Some et ∧ Interner.get (syms g1) (src_label def) = Some sym ∧ label g1 s = Some sym ∧ rule_sees def s g1 = true ∧
  ∃ by_ d, (by_, (et, s, d)) ∈ gone ∧ e_rule_intern e !! r ≠ Some by_.
Proof.
  unfold reclaim_targets. rewrite list_elem_of_bind. split.
  - intros (r' & Hin & Hr'%elem_of_iter_set). destruct (rules e !! r') as [def|] eqn:Ed; [|by apply not_elem_of_nil in Hin].
    destruct (Interner.get (syms g1) (edge_type def)) as [et|] eqn:Ee; [|by apply not_elem_of_nil in Hin].
    destruct (Interner.get (syms g1) (src_label def)) as [sym|] eqn:Es; [|by apply not_elem_of_nil in Hin].
    apply list_elem_of_fmap in Hin as (s' & [= -> ->] & Hs%elem_of_iter_set%elem_of_list_to_set).
    apply list_elem_of_fmap in Hs as ([by_ [[t s] d]] & -> & [(-> & Hby & Hl & Hsee) Hg]%list_elem_of_filter). cbn. exists def, et, sym. eauto 10.
  - intros (def & et & sym & Hd & He & Hs & Hl & Hsee & by_ & d & Hg & Hby). exists r. split; [|apply elem_of_iter_set, elem_of_dom; by exists def].
    rewrite Hd, He, Hs. apply list_elem_of_fmap. exists s. split; [done|]. apply elem_of_iter_set, elem_of_list_to_set, list_elem_of_fmap.
    exists (by_, (et, s, d)). split; [done|]. by apply list_elem_of_filter.
Qed.

Lemma targets_found R e g1 P S : (∀ r, r ∈ dom (rules e0) → r ∈ R) → mid R e g1 P S →
  late (reclaim_targets (with_retracted e []) (e_retracted e) g1) (with_retracted e []) g1 P S.
Proof.
  intros HR Hm. pose proof (m_books _ _ _ _ _ Hm) as Hb. assert (∀ r def, rules e0 !! r = Some def → r ∈ R) as Hin by (intros r def Hdef; apply HR, elem_of_dom; by exists def).
  split; [by apply (books_fields e)|apply Hm|apply Hm|apply Hm|..].
  - intros r def t Hdef Ht. eapply (m_sound _ _ _ _ _ Hm r); eauto.
  - intros r def Hdef. eapply (m_index _ _ _ _ _ Hm r); eauto.
  - intros r def t Hdef Ht. destruct (m_has _ _ _ _ _ Hm r def t (Hin r def Hdef) Hdef Ht) as [?|(r' & by_ & Hne & Hby & Hg)]; [by left|right].
    destruct t as [[et s] d]. destruct Ht as [Het [x (_ & (_ & (sym & Hsym & Hl) & Hsee) & _)%desired_inv]]. cbn in *.
    pose proof (m_reads _ _ _ _ _ Hm) as Hr. apply elem_of_targets. exists def, et, sym. cbn. rewrite (m_rules _ _ _ _ _ Hm), (reads_syms g g1 Hr), (reads_sees g g1 _ _ Hr).
    split_and!; try done; [by rewrite (reads_label g g1 _ Hr)|]. exists by_, d. split; [done|]. intros Hby'. apply Hne.
    by eapply names_inj; [apply (po_names _ _ _ _ _ (eo_ok _ _ (bk_engine _ _ _ _ _ Hb)))|..].
Qed.

Lemma hook_inner : edges_are g S0 →
  ∃ e' g' P' S', on_node_changed_inner sin cos atan2 n changed e0 g = Some (e', g') ∧ coherent e' g' P' S' U ∧ reads g' = reads g ∧ rules e' = rules e0.
Proof.
  intros Hg. unfold on_node_changed_inner.
  destruct (first_pass (iter_set (dom (rules e0))) [] (with_retracted e0 []) g P0 S0) as (R & e1 & g1 & P1 & S1 & -> & Hm & HR); [apply sorted_NoDup, iter_set_sorted| |by apply mid_start|].
  { intros r Hr%elem_of_iter_set. split; [apply not_elem_of_nil|done]. }
  cbn [mbind option_bind]. pose proof (targets_found R e1 g1 P1 S1 ltac:(intros r Hr; apply HR; left; by apply elem_of_iter_set) Hm) as Hl.
  assert (∃ e' g' P' S', foldM (reclaim sin cos atan2) (with_retracted e1 [], g1) (reclaim_targets (with_retracted e1 []) (e_retracted e1) g1) = Some (e', g') ∧ late [] e' g' P' S') as (e' & g' & P' & S' & E & Hl').
  { eapply second_pass, Hl. intros [r s] (def & et & sym & Hd & _)%elem_of_targets. rewrite <-(m_rules _ _ _ _ _ Hm). apply elem_of_dom. by exists def. }
  destruct (e_retracted e1) as [|x gone] eqn:Er.
  - rewrite bool_decide_eq_true_2 by done. do 4 eexists. split; [reflexivity|]. apply (late_weaken _ []) in Hl; [|intros [r s] (? & ? & ? & _ & _ & _ & _ & _ & ? & ? & ?%not_elem_of_nil & _)%elem_of_targets; done]. split; [by apply late_coherent|]. split; apply Hl.
  - rewrite bool_decide_eq_false_2 by done. unfold reclaim_retracted. cbn [fst snd]. rewrite E. cbn [mbind option_bind]. do 4 eexists. split; [reflexivity|].
    assert (late [] (with_retracted e' []) g' P' S') as Hl2. { destruct Hl' as [Hb ? ? ? ? ? ?]. split; try done. by apply (books_fields e'). }
    split; [by apply late_coherent|]. split; apply Hl2.
Qed.

End pass.
End hook.

Abbreviation coherent sin cos atan2 := (coherent_on sin cos atan2 (λ _, True)).
End RuleHook.
