(* ===== verification/RuleLife.v ===== *)
(** * Rules: creating, rebuilding and deleting them, and deleting a node

    The rest of the engine of [crates/core-rules/src/engine.rs] for rules between two
    nodes without a vector graph: [create_rule] with its backfill, [rebuild],
    [delete_rule] with the rebuild of the rules that share its edge type, and the hook
    of a node about to be deleted.  Where the code goes on with a via-hop rule or a
    vector graph the functions here have no answer ([None]). *)

From S2P Require Import Prelude Order Assoc Topology Csr TopologyView EdgeStore Interner Types EdgeProps Float64 ValueOps Float64Ops RuleDef RuleCandidates RuleEngine.
Open Scope Z_scope.

Module RuleLife.
Import RuleDef RuleIndex RuleEngine.

(** The messages of the engine's fallible operations, by what they say. *)
Inductive EngineError :=
| RuleInvalid (why : Invalid)
| RuleExists (name : string)
| RuleNotFound (name : string).

Section life.
Context {I : Type} `{NodeTable I}.
Context (sin cos : Z → Z) (atan2 : Z → Z → Z).
Abbreviation GraphMut := (@GraphMut I).
Abbreviation compute_desired := (compute_desired sin cos atan2).

(** ** Scanning the nodes *)

(** [0..g.ids.len() as u32] *)
Definition node_ids (g : GraphMut) : list Z := seqZ 0 (Z.of_nat (node_count (ids g))).

(** The label of a slot that holds one: [Some(s) if s != u32::MAX]. *)
Definition live_label (g : GraphMut) (id : Z) : option Z :=
  match label g id with Some s => if s =? u32_max then None else Some s | None => None end.

(** The sources a scan visits. *)
Definition src_ids (def : RuleDef) (g : GraphMut) : list Z :=
  filter (λ id, is_Some (live_label g id) ∧ live_label g id = Interner.get (syms g) (src_label def)) (node_ids g).

(** [index_node_for_rule_skipping], with nothing to skip, on the node's slot *)
Definition index_node_for_rule (def : RuleDef) (g : GraphMut) (ix : RuleSides) (id : Z) : RuleSides :=
  match live_label g id with
  | None => ix
  | Some label_sym =>
      if negb (rule_sees def id g) then ix
      else mk_sides
        (if bool_decide (Interner.get (syms g) (src_label def) = Some label_sym) then insert (src_lookup_spec_for def) id (getter g id) (src_side ix) else src_side ix)
        (if bool_decide (Interner.get (syms g) (dst_label def) = Some label_sym) then insert (candidate_spec_for def) id (getter g id) (dst_side ix) else dst_side ix)
  end.

Definition index_all (def : RuleDef) (g : GraphMut) : RuleSides := foldl (index_node_for_rule def g) (mk_sides new_side new_side) (node_ids g).

(** How much [bump_fires_for_participants] adds. *)
Definition participants (def : RuleDef) (g : GraphMut) : Z :=
  Z.of_nat (length (filter (λ id,
    is_Some (live_label g id) ∧ (Interner.get (syms g) (src_label def) = live_label g id ∨ Interner.get (syms g) (dst_label def) = live_label g id) ∧ rule_sees def id g = true)
    (node_ids g))).

Definition bump_fires_for_participants (def : RuleDef) (g : GraphMut) (e : RuleEngine) : RuleEngine :=
  with_fires e (<[name def := default 0 (fires e !! name def) + participants def g]> (fires e)).

(** ** Backfill *)

(** One pair of [apply_streaming_create]; the flag says the scan has stopped. *)
Definition want_create (def : RuleDef) (et : Z) (st : bool * (ProvSets * bool * GraphMut)) (x : (Z * Z) * Z) : option (bool * (ProvSets * bool * GraphMut)) :=
  let '(stopped, (p, tripped, g)) := st in
  if stopped : bool then Some st
  else
    let already := bool_decide ((et, x.1.1, x.1.2) ∈ set p) in
    let full := negb already && (tripped || (edge_budget def <=? prov_len p)) in
    pair full <$> want def et (p, tripped, g) x.

Definition create_src (def : RuleDef) (ix : RuleSides) (et : Z) (st : bool * (ProvSets * bool * GraphMut)) (id : Z) : option (bool * (ProvSets * bool * GraphMut)) :=
  if st.1 then Some st else foldM (want_create def et) st (compute_desired def ix id true st.2.2).

Definition apply_streaming_create (def : RuleDef) (ix : RuleSides) (p : ProvSets) (tripped : bool) (g : GraphMut) : option (ProvSets * bool * GraphMut) :=
  let '(et, sy) := Interner.intern (syms g) (edge_type def) in
  let g := with_syms g sy in
  snd <$> foldM (create_src def ix et) (false, (p, tripped, g)) (src_ids def g).

Definition top_k_src (def : RuleDef) (k : Z) (ix : RuleSides) (st : ProvSets * GraphMut) (src : Z) : option (ProvSets * GraphMut) :=
  let '(p, g) := st in
  apply_per_src_top_k def src (filter_src_top_k (compute_desired def ix src true g) k g) p g.

Definition apply_streaming_create_top_k (def : RuleDef) (k : Z) (ix : RuleSides) (p : ProvSets) (g : GraphMut) : option (ProvSets * GraphMut) :=
  foldM (top_k_src def k ix) (p, g) (src_ids def g).

(** ** Creating a rule *)

(** The engine with the rule registered, its index not built yet. *)
Definition register (def : RuleDef) (e : RuleEngine) : RuleEngine :=
  mk_engine (<[name def := def]> (rules e)) (<[name def := mk_sides new_side new_side]> (indexes e))
            (<[name def := default ∅ (provenance e !! name def)]> (provenance e))
            (e_owned e) (e_by_node e) (e_rule_intern e) (e_intern_names e) (<[name def := false]> (e_tripped e)) (<[name def := 0]> (fires e))
            (pending_deltas e) (e_retracted e) (emit_deltas e) (doomed e).

Definition create_rule (def : RuleDef) (e : RuleEngine) (g : GraphMut) : option (result EngineError (RuleEngine * GraphMut)) :=
  match validate def with
  | Err why => Some (Err (RuleInvalid why))
  | Ok _ =>
      if decide (is_Some (rules e !! name def)) then Some (Err (RuleExists (name def)))
      else if chaining_possible e || bool_decide (is_Some (via_label def)) || uses_hnsw def then None
      else
        let ix := index_all def g in
        let e := with_index (register def e) (name def) ix in
        '(e, g) ← match max_edges def with
                  | Some k =>
                      '(p, g) ← apply_streaming_create_top_k def k ix (prov_of e (name def)) g;
                      Some (put_prov e (name def) p (e_tripped e), g)
                  | None =>
                      '(p, tripped, g) ← apply_streaming_create def ix (prov_of e (name def)) (default false (e_tripped e !! name def)) g;
                      Some (put_prov e (name def) p (<[name def := tripped]> (e_tripped e)), g)
                  end;
        Some (Ok (bump_fires_for_participants def g e, g))
  end.

(** ** Rebuilding a rule *)

Definition pair_still_desired (def : RuleDef) (s d : Z) (g : GraphMut) : bool :=
  match Interner.get (syms g) (src_label def), Interner.get (syms g) (dst_label def) with
  | Some src_sym, Some dst_sym =>
      if negb (bool_decide (label g s = Some src_sym)) then false
      else if negb (bool_decide (label g d = Some dst_sym)) then false
      else if negb (rule_sees def s g) || negb (rule_sees def d g) then false
      else match node_key (ids g) s, node_key (ids g) d with
           | Some s_key, Some d_key => bool_decide (is_Some (evaluate sin cos atan2 (predicate def) (mk_view s_key (getter g s)) (mk_view d_key (getter g d))))
           | _, _ => false
           end
  | _, _ => false
  end.

Fixpoint count_loop (def : RuleDef) (ix : RuleSides) (limit : Z) (g : GraphMut) (count : Z) (l : list Z) : Z :=
  match l with
  | [] => count
  | id :: l =>
      let count := count + Z.of_nat (length (compute_desired def ix id true g)) in
      if limit <? count then count else count_loop def ix limit g count l
  end.
Definition count_desired_up_to (def : RuleDef) (ix : RuleSides) (limit : Z) (g : GraphMut) : Z := count_loop def ix limit g 0 (src_ids def g).

Definition retract_stale (def : RuleDef) (st : ProvSets * GraphMut) (t : triple) : option (ProvSets * GraphMut) :=
  if pair_still_desired def t.1.2 t.2 st.2 then Some st else retract def st t.

Definition rebuild_src (def : RuleDef) (ix : RuleSides) (et : Z) (st : ProvSets * GraphMut) (id : Z) : option (ProvSets * GraphMut) :=
  foldM (want_top_k def et) st (compute_desired def ix id true st.2).

Definition apply_streaming_rebuild (def : RuleDef) (ix : RuleSides) (p : ProvSets) (g : GraphMut) : option (ProvSets * bool * GraphMut) :=
  let '(et, sy) := Interner.intern (syms g) (edge_type def) in
  let g := with_syms g sy in
  if edge_budget def <? count_desired_up_to def ix (edge_budget def) g then Some (p, true, g)
  else
    '(p, g) ← foldM (retract_stale def) (p, g) (filter (λ t, t.1.1 = et) (iter_set (set p)));
    '(p, g) ← foldM (rebuild_src def ix et) (p, g) (src_ids def g);
    Some (p, false, g).

Definition apply_streaming_rebuild_top_k (def : RuleDef) (k : Z) (ix : RuleSides) (p : ProvSets) (g : GraphMut) : option (ProvSets * GraphMut) :=
  let '(et, sy) := Interner.intern (syms g) (edge_type def) in
  let g := with_syms g sy in
  let existing := (λ t : triple, t.1.2) <$> filter (λ t, t.1.1 = et) (iter_set (set p)) in
  foldM (top_k_src def k ix) (p, g) (iter_set (list_to_set existing ∪ list_to_set (src_ids def g))).

Definition rebuild_inner (rule_name : string) (e : RuleEngine) (g : GraphMut) : option (result EngineError (RuleEngine * GraphMut)) :=
  match rules e !! rule_name with
  | None => Some (Err (RuleNotFound rule_name))
  | Some def =>
      if bool_decide (is_Some (via_edge def)) || uses_hnsw def then None
      else
        let ix := index_all def g in
        let e := with_index e rule_name ix in
        _ ← provenance e !! rule_name;
        '(e, g) ← match max_edges def with
                  | Some k =>
                      '(p, g) ← apply_streaming_rebuild_top_k def k ix (prov_of e rule_name) g;
                      Some (put_prov e rule_name p (e_tripped e), g)
                  | None =>
                      '(p, tripped, g) ← apply_streaming_rebuild def ix (prov_of e rule_name) g;
                      Some (put_prov e rule_name p (<[rule_name := tripped]> (e_tripped e)), g)
                  end;
        let gone := e_retracted e in
        let e := with_retracted e [] in
        '(e, g) ← (if bool_decide (gone = []) then Some (e, g) else reclaim_retracted sin cos atan2 gone (e, g));
        Some (Ok (bump_fires_for_participants def g e, g))
  end.

(** [rebuild], where no derived edge can feed another rule *)
Definition rebuild (rule_name : string) (e : RuleEngine) (g : GraphMut) : option (result EngineError (RuleEngine * GraphMut)) :=
  if chaining_possible e then None else rebuild_inner rule_name e g.

(** ** Deleting a rule *)

Definition retract_deleted (rule_name : string) (st : ProvSets * GraphMut) (t : triple) : option (ProvSets * GraphMut) :=
  let '(p, g) := st in
  g ← remove_edge g t;
  let g := with_edge_props g (EdgeProps.EdgeProps.remove_edge (edge_props g) t) in
  Some (prov_remove p rule_name t g, g).

(** The engine without the rule, its provenance the one [p] left. *)
Definition unregister (rule_name : string) (p : ProvSets) (e : RuleEngine) : RuleEngine :=
  mk_engine (delete rule_name (rules e)) (delete rule_name (indexes e)) (delete rule_name (provenance e))
            (owned p) (by_node p) (rule_intern p) (intern_names p) (delete rule_name (e_tripped e)) (delete rule_name (fires e))
            (deltas p) (retracted p) (emit_deltas e) (doomed e).

(** The rules over an edge type, by name. *)
Definition rules_over (edge : string) (e : RuleEngine) : list string :=
  filter (λ r, edge_type <$> rules e !! r = Some edge) (iter_set (dom (rules e))).

(** The result of a survivor's rebuild is not looked at. *)
Definition rebuild_survivor (st : RuleEngine * GraphMut) (rule_name : string) : option (RuleEngine * GraphMut) :=
  r ← rebuild_inner rule_name st.1 st.2;
  Some (match r with Ok st' => st' | Err _ => st end).

Definition delete_rule (rule_name : string) (e : RuleEngine) (g : GraphMut) : option (result EngineError (RuleEngine * GraphMut)) :=
  match rules e !! rule_name with
  | None => Some (Err (RuleNotFound rule_name))
  | Some def =>
      if chaining_possible e then None
      else
        let p := prov_of e rule_name in
        let '(_, sy) := Interner.intern (syms g) (edge_type def) in
        '(p, g) ← foldM (retract_deleted rule_name) (p, with_syms g sy) (iter_set (set p));
        let e := unregister rule_name p e in
        Ok <$> foldM rebuild_survivor (e, g) (rules_over (edge_type def) e)
  end.

(** ** Deleting a node *)

Definition with_doomed (e : RuleEngine) (d : option Z) : RuleEngine :=
  mk_engine (rules e) (indexes e) (provenance e) (e_owned e) (e_by_node e) (e_rule_intern e) (e_intern_names e)
            (e_tripped e) (fires e) (pending_deltas e) (e_retracted e) (emit_deltas e) d.

Definition is_side (lbl : string) (g : GraphMut) (n : Z) : bool :=
  bool_decide (is_Some (Interner.get (syms g) lbl)) && bool_decide (label g n = Interner.get (syms g) lbl).

(** A rule's index forgets the node. *)
Definition deindex (n : Z) (g : GraphMut) (e : RuleEngine) (rule_name : string) : option RuleEngine :=
  def ← rules e !! rule_name;
  ix ← indexes e !! rule_name;
  Some (with_index e rule_name (mk_sides
    (if is_side (src_label def) g n then remove (src_lookup_spec_for def) n (getter g n) (src_side ix) else src_side ix)
    (if is_side (dst_label def) g n then remove (candidate_spec_for def) n (getter g n) (dst_side ix) else dst_side ix))).

(** The derived edges at the node, with the rule of each. *)
Definition derived_at (n : Z) (e : RuleEngine) : option (list (string * triple)) :=
  mapM (λ '(rid, t, s, d), r ← e_intern_names e !! Z.to_nat rid; Some (r, (t, s, d))) (iter_set (default ∅ (e_by_node e !! n))).

(** The top-k rules' sources that lose a destination: those of the rule's own edges
    into [n], and those of the edges into [n] another rule owns. *)
Definition own_loser (n : Z) (e : RuleEngine) (x : string * triple) : option (string * Z) :=
  let '(r, (_, s, d)) := x in
  def ← rules e !! r;
  _ ← max_edges def;
  if (d =? n) && negb (s =? n) then Some (r, s) else None.

Definition other_losers (n : Z) (e : RuleEngine) (g : GraphMut) (r : string) : list (string * Z) :=
  match rules e !! r with
  | Some def =>
      if bool_decide (max_edges def = None) || negb (is_side (dst_label def) g n) then []
      else match Interner.get (syms g) (edge_type def) with
           | None => []
           | Some et => pair r <$> List.filter (λ s, negb (s =? n) && bool_decide (label g s = Interner.get (syms g) (src_label def)) && rule_sees def s g
                                                     && pair_matched_before sin cos atan2 def s n None g) (neighbors g et In n)
           end
  | None => []
  end.

Definition top_k_losers (n : Z) (touching : list (string * triple)) (e : RuleEngine) (g : GraphMut) : gset (string * Z) :=
  list_to_set (omap (own_loser n e) touching) ∪ list_to_set (concat (map (other_losers n e g) (iter_set (dom (rules e))))).

Definition drop_derived (st : RuleEngine * GraphMut) (x : string * triple) : option (RuleEngine * GraphMut) :=
  let '(e, g) := st in
  let '(r, t) := x in
  g ← remove_edge g t;
  let g := with_edge_props g (EdgeProps.EdgeProps.remove_edge (edge_props g) t) in
  match provenance e !! r with
  | Some _ => Some (put_prov e r (prov_remove (prov_of e r) r t g) (e_tripped e), g)
  | None => Some (e, g)
  end.

Definition backfill_top_k (st : RuleEngine * GraphMut) (x : string * Z) : option (RuleEngine * GraphMut) :=
  let '(e, g) := st in
  let '(r, src) := x in
  def ← rules e !! r;
  k ← max_edges def;
  ix ← indexes e !! r;
  top_k_in_engine def k src (filter (λ y, doomed e ≠ Some y.1.2) (compute_desired def ix src true g)) st.

Definition on_node_removed_inner (n : Z) (e : RuleEngine) (g : GraphMut) : option (RuleEngine * GraphMut) :=
  e ← foldM (deindex n g) (with_retracted e []) (iter_set (dom (rules e)));
  touching ← derived_at n e;
  let losers := top_k_losers n touching e g in
  '(e, g) ← foldM drop_derived (e, g) touching;
  '(e, g) ← foldM backfill_top_k (e, g) (iter_set losers);
  let gone := e_retracted e in
  let e := with_retracted e [] in
  if bool_decide (gone = []) then Some (e, g) else reclaim_retracted sin cos atan2 gone (e, g).

(** [on_node_removed], where no derived edge can feed another rule *)
Definition on_node_removed (n : Z) (e : RuleEngine) (g : GraphMut) : option (RuleEngine * GraphMut) :=
  if chaining_possible e then None
  else
    '(e', g) ← on_node_removed_inner n (with_doomed e (Some n)) g;
    Some (with_doomed e' (doomed e), g).

End life.
End RuleLife.
