(* ===== verification/RuleBackfill.v ===== *)
(** * Rules: creating and rebuilding a rule

    A scan of the nodes builds the index a rule needs, and the backfill leaves the
    graph with every edge the new rule derives: [create_rule], [rebuild] and
    [delete_rule] keep the engine coherent. *)

From S2P Require Import Prelude Order Assoc Topology Csr TopologyView EdgeStore Interner Types EdgeProps Float64 ValueOps Float64Ops RuleDef RuleCandidates RuleEngine RuleDesired RuleProvenance RuleMaintain RuleHook RuleLife.
Open Scope Z_scope.

Module RuleBackfill.
Import RuleDef RuleIndex RuleEngine RuleDesired RuleProvenance RuleMaintain RuleHook RuleLife.

Section scan.
Context {I : Type} `{NodeTable I} {ok : I → Prop} {laws : NodeTableLaws I ok}.
Abbreviation GraphMut := (@GraphMut I).
Abbreviation graph_ok := (graph_ok (ok := ok)).

(** ** The scan of the nodes *)

Lemma sym_bound (g : GraphMut) s sym : graph_ok g → Interner.get (syms g) s = Some sym → 0 ≤ sym < Z.of_nat (Interner.len (syms g)) ∧ sym ≠ u32_max.
Proof.
  intros Hg Hs. pose proof (go_syms _ Hg) as (names & Hr & Hl). pose proof (proj1 (Interner.rep_sym _ _ Hr s sym) Hs) as (i & Hi & E). apply lookup_lt_Some in Hi. rewrite E.
  unfold Interner.len. rewrite (Interner.rep_str _ _ Hr). lia.
Qed.

Lemma live_label_spec (g : GraphMut) lbl sym id : graph_ok g → Interner.get (syms g) lbl = Some sym → live_label g id = Some sym ↔ label g id = Some sym.
Proof.
  intros Hg Hs. destruct (sym_bound g lbl sym Hg Hs) as [_ Hne]. unfold live_label. destruct (label g id) as [x|]; [|done].
  destruct (Z.eqb_spec x u32_max) as [->|]; [|done]. split; [done|congruence].
Qed.

Lemma member_node (g : GraphMut) def lbl id : graph_ok g → member def lbl g id → id ∈ node_ids g.
Proof.
  intros Hg (H0 & (sym & _ & Hl) & _). apply elem_of_seqZ. unfold label in Hl. apply lookup_lt_Some in Hl. pose proof (go_slots _ Hg). lia.
Qed.

Lemma live_member (g : GraphMut) def lbl id : graph_ok g → id ∈ node_ids g → rule_sees def id g = true →
  is_Some (live_label g id) ∧ Interner.get (syms g) lbl = live_label g id ↔ member def lbl g id.
Proof.
  intros Hg [H0 _]%elem_of_seqZ Hs. unfold member. split.
  - intros [[sym Hl] E]. split; [done|]. split; [|done]. exists sym. rewrite Hl in E. split; [done|]. by eapply live_label_spec.
  - intros (_ & (sym & E & Hl) & _). assert (live_label g id = Some sym) as -> by (by eapply live_label_spec). by eauto.
Qed.

(** ** Building an index *)

Definition index_side (def : RuleDef) (lbl : string) (spec : CandidateSpec) (g : GraphMut) (sd : SideIndex) (id : Z) : SideIndex :=
  if decide (member def lbl g id) then insert spec id (getter g id) sd else sd.

Lemma index_node_sides def (g : GraphMut) ix id : graph_ok g → id ∈ node_ids g → index_node_for_rule def g ix id =
  mk_sides (index_side def (src_label def) (src_lookup_spec_for def) g (src_side ix) id) (index_side def (dst_label def) (candidate_spec_for def) g (dst_side ix) id).
Proof.
  intros Hg Hid. unfold index_node_for_rule, index_side.
  destruct (rule_sees def id g) eqn:Es.
  2:{ rewrite !decide_False by (intros (_ & _ & ?); congruence). destruct ix. by destruct (live_label g id). }
  pose proof (live_member g def (src_label def) id Hg Hid Es) as Ms. pose proof (live_member g def (dst_label def) id Hg Hid Es) as Md.
  destruct (live_label g id) as [sym|].
  2:{ rewrite !decide_False; [by destruct ix|..]; [rewrite <-Md|rewrite <-Ms]; by intros [[? ?] _]. }
  cbn [negb]. assert (∀ A (P : Prop) `{Decision P} (b : Prop) `{Decision b} (x y : A), (b ↔ P) → (if bool_decide b then x else y) = (if decide P then x else y)) as Hb.
  { intros A P ? b ? x y Hbp. destruct (decide P); [by rewrite bool_decide_eq_true_2 by tauto|by rewrite bool_decide_eq_false_2 by tauto]. }
  f_equal; apply Hb; [rewrite <-Ms|rewrite <-Md]; naive_solver.
Qed.

Lemma index_side_all def lbl spec (g : GraphMut) l : NoDup l → side_ok (foldl (index_side def lbl spec g) new_side l) spec (list_to_set (filter (member def lbl g) l)) (getter g).
Proof.
  induction l as [|id l IH] using rev_ind; intros Hnd; [apply side_ok_new|]. apply NoDup_app in Hnd as (Hnd & Hid & _). rewrite foldl_app, filter_app. cbn [foldl].
  specialize (IH Hnd). unfold index_side at 1. cbn [filter list_filter]. destruct (decide (member def lbl g id)) as [Hm|Hm].
  - rewrite list_to_set_app_L. cbn [list_to_set]. rewrite (union_comm_L (list_to_set _)). rewrite union_empty_r_L. apply side_ok_insert; [done|].
    rewrite elem_of_list_to_set, list_elem_of_filter. intros [_ Hin]. apply (Hid id Hin). by left.
  - by rewrite app_nil_r.
Qed.

Lemma index_all_ok def (g : GraphMut) : graph_ok g → index_ok def (index_all def g) g.
Proof.
  intros Hg. assert (∀ l ix, (∀ id, id ∈ l → id ∈ node_ids g) → foldl (index_node_for_rule def g) ix l =
    mk_sides (foldl (index_side def (src_label def) (src_lookup_spec_for def) g) (src_side ix) l) (foldl (index_side def (dst_label def) (candidate_spec_for def) g) (dst_side ix) l)) as Hfold.
  { induction l as [|id l IH]; intros ix Hl; cbn [foldl]; [by destruct ix|]. rewrite index_node_sides by (done || apply Hl; by left). apply IH. intros x Hx. apply Hl. by right. }
  assert (∀ lbl m, m ∈ (list_to_set (filter (member def lbl g) (node_ids g)) : gset Z) ↔ member def lbl g m) as HM.
  { intros lbl m. rewrite elem_of_list_to_set, list_elem_of_filter. split; [tauto|]. intros Hm. split; [done|]. by eapply member_node. }
  unfold index_all. rewrite Hfold by done. split; (eexists; split; [apply HM|apply index_side_all, NoDup_seqZ]).
Qed.

(** ** Interning an edge type *)

Definition interned_in (s : string) (g : GraphMut) : GraphMut := with_syms g (Interner.intern (syms g) s).2.

(** A symbol is left for one more string. *)
Definition symbol_room (g : GraphMut) : Prop := Z.of_nat (Interner.len (syms g)) + 1 < u32_max.

Record widens (g g' : GraphMut) : Prop := {
  wi_graph : graph_ok g';
  wi_syms s x : Interner.get (syms g) s = Some x → Interner.get (syms g') s = Some x;
  wi_member def lbl m : member def lbl g' m ↔ member def lbl g m;
  wi_rest : (ids g', labels g', columns g', base_topo g', topo g') = (ids g, labels g, columns g, base_topo g, topo g);
}.

Lemma widens_refl g : graph_ok g → widens g g.
Proof. by split. Qed.

Lemma interned_widens s g : graph_ok g → symbol_room g →
  Interner.get (syms (interned_in s g)) s = Some (Interner.intern (syms g) s).1 ∧ widens g (interned_in s g).
Proof.
  intros Hg Hroom. pose proof (go_syms _ Hg) as (names & Hr & Hl). unfold symbol_room, Interner.len in Hroom. unfold interned_in. rewrite (Interner.rep_str _ _ Hr) in Hroom.
  destruct (Interner.intern_spec (syms g) names s Hr) as [(i & Hi & E)|(Hs & it & E & Hr')]; [unfold u32_max in *; lia| |]; rewrite E; cbn [fst snd].
  - replace (with_syms g (syms g)) with g by (by destruct g). split; [|by apply widens_refl]. apply (Interner.rep_sym _ _ Hr). eauto.
  - assert (∀ s' x, Interner.get it s' = Some x → Interner.get (syms g) s' = Some x ∨ x = Z.of_nat (length names)) as Hnew.
    { intros s' x (i & Hi & Ex)%(Interner.rep_sym _ _ Hr'). apply lookup_app_Some in Hi as [Hi|[Hge Hi]]; [left; apply (Interner.rep_sym _ _ Hr); eauto|right].
      apply list_lookup_singleton_Some in Hi as [? _]. lia. }
    assert (∀ s' x, Interner.get (syms g) s' = Some x → Interner.get it s' = Some x) as Hold.
    { intros s' x (i & Hi & Ex)%(Interner.rep_sym _ _ Hr). apply (Interner.rep_sym _ _ Hr'). exists i. split; [by apply lookup_app_l_Some|done]. }
    assert (Interner.len it = S (length names)) as Elen by (unfold Interner.len; rewrite (Interner.rep_str _ _ Hr'), length_app; cbn; lia).
    assert (Interner.len (syms g) = length names) as Elen0 by (unfold Interner.len; by rewrite (Interner.rep_str _ _ Hr)).
    split; [apply (Interner.rep_sym _ _ Hr'); exists (length names); split; [by apply list_lookup_middle|done]|]. split; [|done| |done].
    + destruct Hg as [G1 G2 G3 G4 G5 G6]. split; try done; [exists (names ++ [s]); split; [done|rewrite length_app; cbn; lia]|].
      intros n sym Hn. cbn. rewrite Elen. apply G5 in Hn as [?|?]; [by left|right]. lia.
    + intros def lbl m. unfold member. change (label (with_syms g it) m) with (label g m). change (rule_sees def m (with_syms g it)) with (rule_sees def m g). cbn [syms with_syms].
      split; intros (H0 & (sym & Hsym & Hlb) & Hsee); (split; [done|]); (split; [|done]); exists sym; (split; [|done]); [|by apply Hold].
      destruct (Hnew lbl sym Hsym) as [?|Ex]; [done|]. destruct (go_label_syms _ Hg m sym Hlb) as [?|?]; lia.
Qed.

Lemma widens_desired sin cos atan2 g g' : widens g g' → ∀ def s d, desired sin cos atan2 def g' s d = desired sin cos atan2 def g s d.
Proof.
  intros [_ _ Hm E] def s d. apply desired_same. intros m _. split; [intros lbl; apply Hm|]. destruct g, g'. cbn in *. simplify_eq. done.
Qed.

Lemma widens_index g g' def ix : widens g g' → index_ok def ix g → index_ok def ix g'.
Proof.
  intros [_ _ Hm E] [(M1 & H1 & S1) (M2 & H2 & S2)]. assert (getter g' = getter g) as Eg by (destruct g, g'; cbn in *; by simplify_eq).
  split; [exists M1|exists M2]; rewrite Eg; (split; [|done]); intros m; rewrite ?H1, ?H2; by rewrite Hm.
Qed.

End scan.

Section backfill.
Context {I : Type} `{NodeTable I} {ok : I → Prop} {laws : NodeTableLaws I ok}.
Context (sin cos : Z → Z) (atan2 : Z → Z → Z).
Abbreviation GraphMut := (@GraphMut I).
Abbreviation desired := (desired sin cos atan2).
Abbreviation compute_desired := (compute_desired sin cos atan2).
Abbreviation graph_ok := (graph_ok (ok := ok)).
Abbreviation derives := (derives sin cos atan2).
Abbreviation widens := (widens (ok := ok)).

(** ** Backfill *)

Lemma room_left def X P p (g : GraphMut) S t : ready def X P p g S → t ∈ X →
  negb (bool_decide (t ∈ set p)) && (false || (edge_budget def <=? prov_len p)) = false.
Proof.
  intros Hr Ht. destruct (decide (t ∈ set p)) as [Hin|Hin]; [by rewrite bool_decide_eq_true_2|rewrite bool_decide_eq_false_2 by done]. cbn.
  apply Z.leb_gt. unfold prov_len. pose proof (rd_set _ _ _ _ _ _ Hr). pose proof (rd_budget _ _ _ _ _ _ Hr).
  assert (size (set p) < size X)%nat; [|lia]. apply Nat.lt_le_trans with (size ({[t]} ∪ set p)); [rewrite size_union by set_solver; rewrite size_singleton; lia|apply subseteq_size; set_solver].
Qed.

Lemma want_ready def et P p (g : GraphMut) S x X : ready def X P p g S → (et, x.1.1, x.1.2) ∈ X →
  ∃ p' g', want def et (p, false, g) x = Some (p', false, g') ∧ after_want (name def) P p g S {[ (et, x.1.1, x.1.2) ]} p' g' ∧ has_id (rule_intern p') (intern_names p') (name def).
Proof. intros [H1 H2 H3 H4 H5 H6] Ht. apply (want_spec def et P p g S x X); auto. set_solver. Qed.

Lemma want_create_ready def et P p (g : GraphMut) S x X : ready def X P p g S → (et, x.1.1, x.1.2) ∈ X →
  ∃ p' g', want_create def et (false, (p, false, g)) x = Some (false, (p', false, g')) ∧ after_want (name def) P p g S {[ (et, x.1.1, x.1.2) ]} p' g' ∧ has_id (rule_intern p') (intern_names p') (name def).
Proof.
  intros Hr Ht. destruct (want_ready def et P p g S x X Hr Ht) as (p' & g' & E & Ha). exists p', g'. split; [|done]. unfold want_create. rewrite E. cbn [fmap option_fmap option_map].
  by rewrite (room_left def X P p g S _ Hr Ht).
Qed.

(** Without the guard the budget needs, an edge that fits is wanted all the same. *)
Lemma want_top_k_ready def et P p (g : GraphMut) S x X : ready def X P p g S → (et, x.1.1, x.1.2) ∈ X →
  ∃ p' g', want_top_k def et (p, g) x = Some (p', g') ∧ after_want (name def) P p g S {[ (et, x.1.1, x.1.2) ]} p' g' ∧ has_id (rule_intern p') (intern_names p') (name def).
Proof.
  intros Hr Ht. destruct (want_ready def et P p g S x X Hr Ht) as (p' & g' & E & Ha). exists p', g'. split; [|done].
  pose proof (room_left def X P p g S _ Hr Ht) as Hroom. destruct x as [[s d] sc]. unfold want in E. unfold want_top_k. cbn [fst snd] in *.
  destruct (decide ((et, s, d) ∈ set p)) as [Hin|Hin]; [by simplify_eq|]. rewrite bool_decide_eq_false_2 in Hroom by done. cbn in Hroom. rewrite Hroom in E. cbn [orb] in E.
  destruct (add_edge g (et, s, d)) as [[newly g1]|]; [|done]. cbn [mbind option_bind] in *. by simplify_eq.
Qed.

Lemma reads_compute (g g' : GraphMut) def ix n b : reads g' = reads g → compute_desired def ix n b g' = compute_desired def ix n b g.
Proof. destruct g, g'. cbn. by intros [= -> -> -> -> ->]. Qed.

(** A scan that wants, source by source, what the source desires. *)
Lemma fold_src_wants {ST} (f : ST → (Z * Z) * Z → option ST) (mk : ProvSets → GraphMut → ST) (F : ST → Z → option ST) def ix et X (rd : GraphMut) l :
  (∀ P p g S x, ready def X P p g S → (et, x.1.1, x.1.2) ∈ X →
     ∃ p' g', f (mk p g) x = Some (mk p' g') ∧ after_want (name def) P p g S {[ (et, x.1.1, x.1.2) ]} p' g' ∧ has_id (rule_intern p') (intern_names p') (name def)) →
  (∀ p g id, F (mk p g) id = foldM f (mk p g) (compute_desired def ix id true g)) →
  (∀ id, id ∈ l → wanted et (compute_desired def ix id true rd) ⊆ X) → ∀ P p g S, ready def X P p g S → reads g = reads rd →
  ∃ p' g', foldM F (mk p g) l = Some (mk p' g') ∧ after_want (name def) P p g S (⋃ ((λ id, wanted et (compute_desired def ix id true rd)) <$> l)) p' g' ∧
    has_id (rule_intern p') (intern_names p') (name def).
Proof.
  intros Hf HF HX. apply (fold_wants F mk); [|done]. intros id P p g S Hid Hr Hrd. rewrite HF, (reads_compute rd g) by done. rewrite <-wanted_union.
  specialize (HX id Hid). assert (∀ x, x ∈ compute_desired def ix id true rd → (et, x.1.1, x.1.2) ∈ X) as Hx by (intros x Hx; apply HX, elem_of_wanted; eauto).
  apply (fold_wants f mk _ def X rd); [intros x * Hin ? _; by apply Hf; auto|intros x Hin; specialize (Hx x Hin); set_solver|done..].
Qed.

Lemma scan_wanted def ix et (g : GraphMut) t : graph_ok g → index_ok def ix g → answerable def → Interner.get (syms g) (edge_type def) = Some et →
  t ∈ ⋃ ((λ id, wanted et (compute_desired def ix id true g)) <$> src_ids def g) ↔ derives def g t.
Proof.
  intros Hg Hix Ha Het. rewrite elem_of_union_list. split.
  - intros (W & (id & -> & _)%list_elem_of_fmap & (x & Hx & ->)%elem_of_wanted). split; [done|]. cbn.
    assert (x.1 ∈ (compute_desired def ix id true g).*1) as Hk by (apply list_elem_of_fmap; eauto). by apply (compute_desired_keys (ok := ok)) in Hk as [_ ?].
  - intros [Et Hd]. destruct t as [[et' s] d]. cbn in Et, Hd. assert (et' = et) as -> by congruence. exists (wanted et (compute_desired def ix s true g)). split.
    + apply list_elem_of_fmap. exists s. split; [done|]. destruct Hd as [sc (_ & Hm & _)%desired_inv]. unfold src_ids. apply list_elem_of_filter. split; [|by eapply member_node].
      destruct (proj2 (live_member g def (src_label def) s Hg ltac:(by eapply member_node) ltac:(apply Hm)) Hm) as [? ?]. by split.
    + assert ((s, d) ∈ (compute_desired def ix s true g).*1) as (x & Ex & Hx)%list_elem_of_fmap by (by apply (compute_desired_keys (ok := ok))).
      apply elem_of_wanted. exists x. by rewrite <-Ex.
Qed.

Abbreviation coherent_on := (coherent_on (ok := ok) sin cos atan2).
Abbreviation coherent := (coherent_on (λ _, True)).
Abbreviation fits := (fits sin cos atan2).

Lemma widens_derives g g' def t : widens g g' → is_Some (Interner.get (syms g) (edge_type def)) → derives def g' t ↔ derives def g t.
Proof.
  intros Hw [et Het]. unfold RuleHook.derives. rewrite Het, (wi_syms _ _ Hw _ _ Het). by rewrite (widens_desired sin cos atan2 g g' Hw).
Qed.

(** The books when a rule took what was missing of [W]. *)
Lemma books_wanted e (g : GraphMut) P S U e' (g' : GraphMut) r W : books e g P S U → engine_ok e' (upd P r (P r ∪ W ∖ S)) → edges_are g' (S ∪ W) → books e' g' (upd P r (P r ∪ W ∖ S)) (S ∪ W) U.
Proof.
  intros [_ _ Hp Hf] He Hg. split; [done|done| |].
  - intros t. rewrite elem_of_union, Hp. split.
    + intros [[?|[r' Ht]]|Ht]; [by left|right; exists r'; unfold upd; case_decide; [subst; set_solver|done]|].
      destruct (decide (t ∈ S)) as [HtS|HtS]; [|right; exists r; rewrite upd_same; set_solver].
      apply Hp in HtS as [?|[r' Hr']]; [by left|right; exists r'; unfold upd; case_decide; [subst; set_solver|done]].
    + intros [?|[r' Ht]]; [by left; left|]. unfold upd in Ht. case_decide; [|left; right; by exists r'].
      apply elem_of_union in Ht as [Ht|Ht]; [left; right; by exists r|right; set_solver].
  - intros r' t Ht. unfold upd. case_decide; [|by apply Hf]. subst r'. assert (t ∈ S) by (apply Hp; by left). specialize (Hf r t Ht). set_solver.
Qed.

(** A rule took all it derives: now it too is complete. *)
Lemma coherent_wanted C e g P S U g1 def ix p W e' p' g' : let r := name def in
  coherent_on C e g P S U → widens g g1 → plain def → is_Some (Interner.get (syms g1) (edge_type def)) → index_ok def ix g1 →
  after_want r P p g1 S W p' g' → (∀ t, t ∈ W ↔ derives def g1 t) → (∀ t, t ∈ P r → derives def g1 t) →
  engine_ok e' (upd P r (P r ∪ W ∖ S)) → rules e' = <[r := def]> (rules e) → indexes e' = <[r := ix]> (indexes e) → e_retracted e' = [] → doomed e' = doomed e →
  coherent_on (λ r', C r' ∨ r' = r) e' g' (upd P r (P r ∪ W ∖ S)) (S ∪ W) U.
Proof.
  intros r [H1 H2 H3 H3d H4 H5 H6 H7] Hw Hpl Het Hix Ha HW HP He Hru Hi Hre Hdm. pose proof (aw_reads _ _ _ _ _ _ _ _ Ha) as Hrd.
  assert (∀ d t, derives d g' t ↔ derives d g1 t) as Hd by (intros d t; unfold RuleHook.derives; by rewrite (reads_syms g1 g' Hrd), (reads_desired sin cos atan2 g1 g' Hrd)).
  assert (∀ r' d t, rules e !! r' = Some d → derives d g' t ↔ derives d g t) as Hdo by (intros r' d t Hr'; rewrite Hd; eapply widens_derives; [done|]; by apply (H4 r')).
  split; rewrite ?Hru, ?Hi.
  - eapply reads_graph; [done|apply Hw].
  - eapply books_wanted; [exact H2|done|apply Ha].
  - done.
  - congruence.
  - intros r' d. rewrite (reads_syms g1 g' Hrd). destruct (decide (r' = r)) as [->|Hne]; [rewrite lookup_insert_eq; by intros [= <-]|rewrite lookup_insert_ne by done].
    intros Hr'. destruct (H4 r' d Hr') as [? [x Hx]]. split; [done|]. exists x. by apply Hw.
  - intros r' d t. destruct (decide (r' = r)) as [->|Hne]; [rewrite lookup_insert_eq, upd_same|rewrite lookup_insert_ne, upd_other by done].
    + intros [= <-] Ht. apply Hd. apply elem_of_union in Ht as [?|?]; [by apply HP|apply HW; set_solver].
    + intros Hr' Ht. apply (Hdo r' d t Hr'). by eapply H5.
  - intros r' d t HC. destruct (decide (r' = r)) as [->|Hne]; [rewrite lookup_insert_eq|rewrite lookup_insert_ne by done].
    + intros [= <-] Ht%Hd%HW. set_solver.
    + intros Hr' Ht%(Hdo r' d t Hr'). apply elem_of_union_l. eapply (H6 r'); [by destruct HC|done|done].
  - intros r' d. destruct (decide (r' = r)) as [->|Hne]; [rewrite !lookup_insert_eq|rewrite !lookup_insert_ne by done].
    + intros [= <-]. exists ix. split; [done|]. by eapply reads_index.
    + intros Hr'. destruct (H7 r' d Hr') as (ix' & ? & ?). exists ix'. split; [done|]. eapply reads_index; [done|]. by eapply widens_index.
Qed.

(** ** Creating a rule *)

(** There are ids left for the rules there are and one more. *)
Definition rule_room (e : RuleEngine) (r : string) : Prop := Z.of_nat (size ({[r]} ∪ dom (rules e) ∪ list_to_set (e_intern_names e))) ≤ 2 ^ 32.

Lemma register_ok e P def ix : engine_ok e P → rules e !! name def = None → rule_room e (name def) → engine_ok (with_index (register def e) (name def) ix) P.
Proof.
  intros He Hn Hroom. split; cbn [with_index register provenance e_owned e_by_node e_rule_intern e_intern_names rules doomed e_tripped].
  - intros r. destruct (decide (r = name def)) as [->|Hne]; [rewrite lookup_insert_eq|rewrite lookup_insert_ne by done]; apply He.
  - apply He.
  - intros r. rewrite dom_insert_L, elem_of_union, elem_of_singleton. destruct (decide (r = name def)) as [->|Hne]; [by rewrite lookup_insert_eq|]. rewrite lookup_insert_ne by done.
    intros [?|?]; [done|]. by apply He.
  - intros r t Ht. rewrite dom_insert_L. apply elem_of_union_r. by eapply (eo_owner _ _ He).
  - by rewrite dom_insert_L.
  - intros r d. destruct (decide (r = name def)) as [->|Hne]; [rewrite lookup_insert_eq; by intros [= <-]|rewrite lookup_insert_ne by done; apply He].
  - intros r. destruct (decide (r = name def)) as [->|Hne]; [by rewrite lookup_insert_eq|rewrite lookup_insert_ne by done; apply He].
Qed.

Lemma streaming_create_spec def ix (g : GraphMut) P p S et : let g1 := interned_in (edge_type def) g in
  graph_ok g1 → index_ok def ix g1 → answerable def → Interner.get (syms g1) (edge_type def) = Some et → Interner.intern (syms g) (edge_type def) = (et, syms g1) → fits def g1 →
  prov_rep P (name def) p → edges_are g S → (∀ r, P r ⊆ S) → has_id (rule_intern p) (intern_names p) (name def) → P (name def) = ∅ →
  ∃ p' g' W, apply_streaming_create sin cos atan2 def ix p false g = Some (p', false, g') ∧ after_want (name def) P p g1 S W p' g' ∧ ∀ t, t ∈ W ↔ derives def g1 t.
Proof.
  intros g1 Hg Hix Ha Het Hin Hfit Hp He HPS Hid Hemp. unfold apply_streaming_create. rewrite Hin. change (with_syms g (syms g1)) with g1.
  set (W := ⋃ ((λ id, wanted et (compute_desired def ix id true g1)) <$> src_ids def g1)).
  assert (∀ t, t ∈ W ↔ derives def g1 t) as HW by (intros t; by apply scan_wanted).
  assert (ready def W P p g1 S) as Hr. { split; try done; [destruct Hp as [_ <-]; rewrite Hemp; set_solver|]. apply Hfit. intros t Ht. by apply HW. }
  destruct (fold_src_wants (want_create def et) (λ p g, (false, (p, false, g))) (create_src sin cos atan2 def ix et) def ix et W g1 (src_ids def g1)) with (P := P) (p := p) (g := g1) (S := S)
    as (p' & g' & E & Haw & _); [intros; by eapply want_create_ready|done| |done|done|].
  { intros id Hid' t Ht. apply elem_of_union_list. eexists. split; [|exact Ht]. apply list_elem_of_fmap. eauto. }
  exists p', g', W. rewrite E. done.
Qed.

Lemma coherent_weaken C C' e g P S U : (∀ r, r ∈ dom (rules e) → C' r → C r) → coherent_on C e g P S U → coherent_on C' e g P S U.
Proof. intros HC [H1 H2 H3 H3d H4 H5 H6 H7]. split; try done. intros r def t Hr Hdef. apply (H6 r); [|done]. apply HC; [by apply elem_of_dom_2 in Hdef|done]. Qed.

Lemma no_chaining C e g P S U : coherent_on C e g P S U → chaining_possible e = false.
Proof.
  intros Hc. apply not_true_iff_false. intros (rd & Hin%list_elem_of_In & Hv)%existsb_exists. destruct rd as [r def]. apply elem_of_map_to_list in Hin.
  destruct (co_rules _ _ _ _ _ _ _ _ _ Hc r def Hin) as [[[_ Hvia] _ _] _]. cbn in Hv. rewrite Hvia in Hv. by apply bool_decide_eq_true in Hv as [? ?].
Qed.

Lemma create_rule_spec def e g P S U : let g1 := interned_in (edge_type def) g in
  coherent e g P S U → validate def = Ok () → rules e !! name def = None → plain def → fits def g1 → symbol_room g → rule_room e (name def) →
  ∃ e' g' P' S', create_rule sin cos atan2 def e g = Some (Ok (e', g')) ∧ coherent e' g' P' S' U ∧ reads g' = reads g1 ∧ rules e' = <[name def := def]> (rules e).
Proof.
  intros g1 Hc Hval Hnew Hpl Hfit Hsym Hroom. pose proof (co_books _ _ _ _ _ _ _ _ _ Hc) as Hb. pose proof (bk_engine _ _ _ _ _ Hb) as He.
  pose proof (co_graph _ _ _ _ _ _ _ _ _ Hc) as Hg. destruct (interned_widens (edge_type def) g Hg Hsym) as [Het Hw]. fold g1 in Het, Hw.
  unfold create_rule. rewrite Hval, Hnew. rewrite decide_False by (by intros [? ?]). rewrite (no_chaining _ _ _ _ _ _ Hc).
  destruct (pl_via _ Hpl) as [-> _]. rewrite (proj1 (pl_answerable _ Hpl)), (pl_cap _ Hpl), bool_decide_eq_false_2 by (by intros [? ?]). cbn [orb].
  set (ix := index_all def g). set (e1 := with_index (register def e) (name def) ix).
  assert (index_ok def ix g1) as Hix by (eapply widens_index, index_all_ok; done).
  assert (engine_ok e1 P) as He1 by (by apply register_ok).
  assert (P (name def) = ∅) as Hemp. { apply set_eq. intros t. split; [|set_solver]. intros Ht%(eo_owner _ _ He)%elem_of_dom. rewrite Hnew in Ht. by destruct Ht. }
  assert (prov_rep P (name def) (prov_of e1 (name def))) as Hp by (split; [apply He1|symmetry; apply He1]).
  assert (default false (e_tripped e1 !! name def) = false) as -> by apply He1.
  assert (name def ∈ dom (rules e1)) as Hdom by (apply elem_of_dom; cbn; rewrite lookup_insert_eq; by eauto).
  destruct (streaming_create_spec def ix g P (prov_of e1 (name def)) S (Interner.intern (syms g) (edge_type def)).1) as (p' & g' & W & -> & Ha & HW);
    [apply Hw|done|apply Hpl|done|by unfold g1, interned_in; destruct (Interner.intern _ _)|done|done|apply Hb| |by apply (engine_has_id e1 P)|done|].
  - intros r' t Ht. apply (bk_parts _ _ _ _ _ Hb). eauto.
  - cbn [mbind option_bind]. set (e2 := put_prov _ _ _ _). assert (engine_ok e2 (upd P (name def) (P (name def) ∪ W ∖ S))) as He2.
    { eapply put_prov_ok; [exact He1|done|apply Ha|intros r' Hne; by rewrite upd_other|apply Ha|].
      intros r'. destruct (decide (r' = name def)) as [->|Hne]; [by rewrite lookup_insert_eq|]. rewrite lookup_insert_ne by done. apply He1. }
    assert (coherent_on (λ r', True ∨ r' = name def) e2 g' (upd P (name def) (P (name def) ∪ W ∖ S)) (S ∪ W) U) as Hc2.
    { eapply (coherent_wanted _ e g P S U g1 def ix); try done; [intros t; rewrite Hemp; set_solver| |].
      - unfold e2. cbn. by rewrite insert_insert_eq.
      - transitivity (e_retracted e); [apply Ha|apply Hc]. }
    do 4 eexists. split; [reflexivity|]. split; [|split; [apply Ha|done]]. eapply coherent_fields; [..|eapply coherent_weaken; [|exact Hc2]]; try done. intros r' _ _. by left.
Qed.

(** ** Rebuilding a rule *)

Lemma still_desired def (g : GraphMut) t : derives def g t → pair_still_desired sin cos atan2 def t.1.2 t.2 g = true.
Proof.
  intros [_ [x (_ & (_ & (s1 & Hs & Hl) & Hsee) & (_ & (s2 & Hs2 & Hl2) & Hsee2) & ks & kd & Hk & Hk2 & Hev)%desired_inv]]. unfold pair_still_desired.
  rewrite Hs, Hs2, Hl, Hl2, Hsee, Hsee2, Hk, Hk2, Hev, !bool_decide_eq_true_2 by done. done.
Qed.

Lemma retract_none def p (g : GraphMut) l : (∀ t, t ∈ l → derives def g t) → foldM (retract_stale sin cos atan2 def) (p, g) l = Some (p, g).
Proof.
  induction l as [|t l IH]; intros Hl; cbn [foldM]; [done|]. assert (retract_stale sin cos atan2 def (p, g) t = Some (p, g)) as -> by (unfold retract_stale; cbn [snd]; by rewrite still_desired by (apply Hl; by left)).
  cbn [mbind option_bind]. apply IH. intros x Hx. apply Hl. by right.
Qed.

Lemma size_wanted et (D : Desired) : sorted D.*1 → size (wanted et D) = length D.
Proof.
  intros Hs. unfold wanted. rewrite size_list_to_set; [by rewrite length_fmap|]. apply sorted_NoDup in Hs. change (NoDup ((λ p : Z * Z, (et, p.1, p.2)) ∘ fst <$> D)). rewrite list_fmap_compose.
  apply NoDup_fmap; [|done]. intros [? ?] [? ?] [= -> ->]. done.
Qed.

(** The count of a scan is the size of what it would derive. *)
Lemma count_scan def ix et (g : GraphMut) limit l A : graph_ok g → index_ok def ix g → answerable def → NoDup l → (∀ t, t ∈ A → t.1.2 ∉ l) →
  Z.of_nat (size (A ∪ ⋃ ((λ id, wanted et (compute_desired def ix id true g)) <$> l))) ≤ limit →
  count_loop sin cos atan2 def ix limit g (Z.of_nat (size A)) l ≤ limit.
Proof.
  intros Hg Hix Ha. revert A. induction l as [|id l IH]; intros A Hnd HA Hle; cbn [count_loop fmap list_fmap union_list foldr] in *.
  { etrans; [|exact Hle]. apply inj_le, subseteq_size. set_solver. }
  apply NoDup_cons in Hnd as [Hid Hnd]. set (D := compute_desired def ix id true g) in *.
  assert (∀ t, t ∈ wanted et D → t.1.2 = id) as Hsrc.
  { intros t (x & Hx & ->)%elem_of_wanted. cbn. assert (x.1 ∈ D.*1) as Hk by (apply list_elem_of_fmap; eauto). by apply (compute_desired_keys (ok := ok)) in Hk as [? _]. }
  assert (size A + length D = size (A ∪ wanted et D))%nat as Hsz.
  { rewrite size_union; [by rewrite size_wanted by (by apply (compute_desired_spec sin cos atan2 (ok := ok)))|]. intros t Ht Ht2%Hsrc. apply (HA t Ht). rewrite Ht2. by left. }
  replace (Z.of_nat (size A) + Z.of_nat (length D)) with (Z.of_nat (size (A ∪ wanted et D))) by lia.
  destruct (Z.ltb_spec limit (Z.of_nat (size (A ∪ wanted et D)))) as [Hlt|_].
  - exfalso. apply (Z.lt_irrefl limit). eapply Z.lt_le_trans; [exact Hlt|]. etrans; [|exact Hle]. apply inj_le, subseteq_size. set_solver.
  - apply IH; [done| |by rewrite <-union_assoc_L]. intros t [Ht|Ht%Hsrc]%elem_of_union; [|by rewrite Ht]. intros Hin. apply (HA t Ht). by right.
Qed.

Lemma streaming_rebuild_spec def ix (g : GraphMut) P p S et :
  graph_ok g → index_ok def ix g → answerable def → Interner.get (syms g) (edge_type def) = Some et → fits def g →
  prov_rep P (name def) p → edges_are g S → (∀ r, P r ⊆ S) → has_id (rule_intern p) (intern_names p) (name def) → (∀ t, t ∈ P (name def) → derives def g t) →
  ∃ p' g' W, apply_streaming_rebuild sin cos atan2 def ix p g = Some (p', false, g') ∧ after_want (name def) P p g S W p' g' ∧ ∀ t, t ∈ W ↔ derives def g t.
Proof.
  intros Hg Hix Ha Het Hfit Hp He HPS Hid Hs. unfold apply_streaming_rebuild. rewrite (intern_known _ _ et Het). cbn beta iota zeta. replace (with_syms g (syms g)) with g by (by destruct g).
  set (W := ⋃ ((λ id, wanted et (compute_desired def ix id true g)) <$> src_ids def g)).
  assert (∀ t, t ∈ W ↔ derives def g t) as HW by (intros t; by apply scan_wanted).
  assert (Z.of_nat (size W) ≤ edge_budget def) as Hb by (apply Hfit; intros t Ht; by apply HW).
  rewrite (proj2 (Z.ltb_ge _ _)).
  2:{ pose proof (count_scan def ix et g (edge_budget def) (src_ids def g) ∅ Hg Hix Ha) as Hct. rewrite size_empty, union_empty_l_L in Hct.
      apply Hct; [apply NoDup_filter, NoDup_seqZ|set_solver|done]. }
  assert (set p = P (name def)) as Hset by (symmetry; apply Hp). rewrite retract_none by (intros t [_ Ht%elem_of_iter_set]%list_elem_of_filter; apply Hs; by rewrite <-Hset).
  cbn [mbind option_bind].
  assert (ready def W P p g S) as Hr. { split; try done. rewrite Hset. intros t Ht. by apply HW, Hs. }
  destruct (fold_src_wants (want_top_k def et) (λ p g, (p, g)) (rebuild_src sin cos atan2 def ix et) def ix et W g (src_ids def g)) with (P := P) (p := p) (g := g) (S := S)
    as (p' & g' & E & Haw & _); [intros; by eapply want_top_k_ready|done| |done|done|].
  { intros id Hid' t Ht. apply elem_of_union_list. eexists. split; [|exact Ht]. apply list_elem_of_fmap. eauto. }
  exists p', g', W. rewrite E. done.
Qed.

Lemma rebuild_inner_spec C r def e g P S U : coherent_on C e g P S U → rules e !! r = Some def → fits def g →
  ∃ e' g' P' S', rebuild_inner sin cos atan2 r e g = Some (Ok (e', g')) ∧ coherent_on (λ r', C r' ∨ r' = r) e' g' P' S' U ∧ reads g' = reads g ∧ rules e' = rules e.
Proof.
  intros Hc Hdef Hfit. pose proof (co_books _ _ _ _ _ _ _ _ _ Hc) as Hb. pose proof (bk_engine _ _ _ _ _ Hb) as He. pose proof (co_graph _ _ _ _ _ _ _ _ _ Hc) as Hg.
  destruct (co_rules _ _ _ _ _ _ _ _ _ Hc r def Hdef) as [Hpl [et Het]]. assert (name def = r) as Hname by (by apply (eo_keys _ _ He)).
  unfold rebuild_inner. rewrite Hdef. destruct (pl_via _ Hpl) as [_ ->]. rewrite (proj1 (pl_answerable _ Hpl)), (pl_cap _ Hpl), bool_decide_eq_false_2 by (by intros [? ?]). cbn [orb].
  set (ix := index_all def g). set (e1 := with_index e r ix). assert (index_ok def ix g) as Hix by (by eapply (index_all_ok (ok := ok))).
  assert (r ∈ dom (rules e)) as Hdom by (by apply elem_of_dom_2 in Hdef). destruct (eo_held _ _ He r Hdom) as [own Hown]. change (provenance e1) with (provenance e). rewrite Hown. cbn [mbind option_bind].
  assert (engine_ok e1 P) as He1 by (eapply (bk_engine _ g), books_fields, Hb; done).
  assert (prov_rep P r (prov_of e1 r)) as Hp by (split; [apply He1|symmetry; apply He1]).
  destruct (streaming_rebuild_spec def ix g P (prov_of e1 r) S et) as (p' & g' & W & -> & Ha & HW); rewrite ?Hname;
    [done|done|apply Hpl|done|done|done|apply Hb|intros r' t Ht; apply (bk_parts _ _ _ _ _ Hb); eauto|by apply (engine_has_id e1 P)|intros t Ht; by eapply (co_sound _ _ _ _ _ _ _ _ _ Hc)|].
  cbn [mbind option_bind]. set (e2 := put_prov _ _ _ _). rewrite Hname in Ha.
  assert (engine_ok e2 (upd P r (P r ∪ W ∖ S))) as He2.
  { eapply put_prov_ok; [exact He1|done|apply Ha|intros r' Hne; by rewrite upd_other|apply Ha|].
    intros r'. destruct (decide (r' = r)) as [->|Hne]; [by rewrite lookup_insert_eq|]. rewrite lookup_insert_ne by done. apply He1. }
  assert (e_retracted e2 = []) as Hre by (transitivity (e_retracted e); [apply Ha|apply Hc]). rewrite Hre, bool_decide_eq_true_2 by done. cbn [mbind option_bind].
  assert (coherent_on (λ r', C r' ∨ r' = r) e2 g' (upd P r (P r ∪ W ∖ S)) (S ∪ W) U) as Hc2.
  { rewrite <-Hname. eapply (coherent_wanted C e g P S U g def ix); rewrite ?Hname; try done; [intros t Ht; by eapply (co_sound _ _ _ _ _ _ _ _ _ Hc)|]. by rewrite insert_id. }
  do 4 eexists. split; [reflexivity|]. split; [|split; [apply Ha|done]]. eapply coherent_fields; [..|exact Hc2]; done.
Qed.

Lemma rebuild_all_spec C l e g P S U : coherent_on C e g P S U → (∀ r, r ∈ l → ∃ def, rules e !! r = Some def ∧ fits def g) →
  ∃ e' g' P' S', foldM (rebuild_survivor sin cos atan2) (e, g) l = Some (e', g') ∧ coherent_on (λ r, C r ∨ r ∈ l) e' g' P' S' U ∧ reads g' = reads g ∧ rules e' = rules e.
Proof.
  revert C e g P S. induction l as [|r l IH]; intros C e g P S Hc Hl; cbn [foldM].
  { exists e, g, P, S. split; [done|]. split; [|done]. eapply coherent_weaken, Hc. intros r _ [?|?%not_elem_of_nil]; done. }
  destruct (Hl r) as (def & Hdef & Hfit); [by left|]. destruct (rebuild_inner_spec C r def e g P S U Hc Hdef Hfit) as (e1 & g1 & P1 & S1 & E & Hc1 & Hr1 & Hru).
  assert (rebuild_survivor sin cos atan2 (e, g) r = Some (e1, g1)) as -> by (unfold rebuild_survivor; cbn [fst snd]; by rewrite E). cbn [mbind option_bind].
  destruct (IH _ e1 g1 P1 S1 Hc1) as (e2 & g2 & P2 & S2 & -> & Hc2 & Hr2 & Hru2).
  - intros r' Hr'. destruct (Hl r') as (def' & Hdef' & Hfit'); [by right|]. exists def'. rewrite Hru. split; [done|]. intros X HX. apply Hfit'. intros t Ht. specialize (HX t Ht).
    unfold RuleHook.derives in *. by rewrite (reads_syms g g1 Hr1), (reads_desired sin cos atan2 g g1 Hr1) in HX.
  - exists e2, g2, P2, S2. split; [done|]. split; [|split; congruence]. eapply coherent_weaken, Hc2. intros r' _ [?|[->|?]%elem_of_cons]; tauto.
Qed.

(** ** Deleting a rule *)

Lemma retract_deleted_all r P p (g : GraphMut) S ts : prov_rep P r p → edges_are g S → NoDup ts → (∀ t, t ∈ ts → t ∈ P r) →
  ∃ p' g', foldM (retract_deleted r) (p, g) ts = Some (p', g') ∧ prov_rep (upd P r (P r ∖ list_to_set ts)) r p' ∧ edges_are g' (S ∖ list_to_set ts) ∧ reads g' = reads g ∧
    rule_intern p' = rule_intern p ∧ intern_names p' = intern_names p ∧ retracted p' = retracted p.
Proof.
  revert P p g S. induction ts as [|t ts IH]; intros P p g S Hp Hg Hnd Hts; cbn [foldM].
  { exists p, g. split; [done|]. split_and!; try done.
    - eapply prov_rep_ext; [|done]. intros r'. unfold upd. case_decide; [subst; set_solver|done].
    - by replace (S ∖ list_to_set []) with S by set_solver. }
  apply NoDup_cons in Hnd as [Hnin Hnd]. destruct (remove_edge_spec g S t Hg) as (g1 & E & He & Hr).
  set (g2 := with_edge_props g1 (EdgeProps.EdgeProps.remove_edge (edge_props g1) t)).
  destruct (prov_remove_rep P r p t g2 Hp) as (Hp' & Ei & En); [apply Hts; by left|].
  assert (retract_deleted r (p, g) t = Some (prov_remove p r t g2, g2)) as -> by (unfold retract_deleted; by rewrite E). cbn [mbind option_bind].
  assert (retracted (prov_remove p r t g2) = retracted p) as Ere by (unfold prov_remove; case_decide; [done|]; by destruct (intern_rule _ _ _) as [[? ?] ?]).
  destruct (IH _ _ g2 (S ∖ {[t]}) Hp' He Hnd) as (p3 & g3 & -> & Hp3 & Hg3 & Hr3 & Ei3 & En3 & Er3).
  { intros t' Ht'. rewrite upd_same. apply elem_of_difference. split; [apply Hts; by right|]. intros ->%elem_of_singleton. done. }
  exists p3, g3. split; [done|]. split_and!; try congruence.
  - eapply prov_rep_ext; [|exact Hp3]. intros r'. destruct (decide (r' = r)) as [->|]; [rewrite !upd_same; cbn; set_solver|by rewrite !upd_other].
  - by replace (S ∖ list_to_set (t :: ts)) with (S ∖ {[t]} ∖ list_to_set ts) by (cbn; set_solver).
  - by rewrite Hr3.
Qed.

Lemma sym_inj (g : GraphMut) s s' x : graph_ok g → Interner.get (syms g) s = Some x → Interner.get (syms g) s' = Some x → s = s'.
Proof.
  intros Hg H1 H2. pose proof (go_syms _ Hg) as (names & Hr & _). pose proof (proj1 (Interner.rep_sym _ _ Hr s x) H1) as (i & Hi & E1).
  pose proof (proj1 (Interner.rep_sym _ _ Hr s' x) H2) as (j & Hj & E2). assert (i = j) as <- by lia. congruence.
Qed.

(** The engine once the rule and its edges are gone: the rules over other edge types
    miss nothing. *)
Lemma unregister_spec r def e (g : GraphMut) P S U p' g' : coherent e g P S U → rules e !! r = Some def →
  prov_rep (upd P r ∅) r p' → edges_are g' (S ∖ P r) → reads g' = reads g → rule_intern p' = e_rule_intern e → intern_names p' = e_intern_names e → retracted p' = [] →
  coherent_on (λ r', edge_type <$> rules (unregister r p' e) !! r' ≠ Some (edge_type def)) (unregister r p' e) g' (upd P r ∅) (S ∖ P r) U.
Proof.
  intros [H1 [He Hg Hpt Hfr] H3 H3d H4 H5 H6 H7] Hdef Hp Hg' Hrd Ei En Er. pose proof (eo_keys _ _ He r def Hdef) as Hname.
  assert (∀ d t, derives d g' t ↔ derives d g t) as Hd by (intros d t; unfold RuleHook.derives; by rewrite (reads_syms g g' Hrd), (reads_desired sin cos atan2 g g' Hrd)).
  assert (∀ r' d, rules (unregister r p' e) !! r' = Some d → r' ≠ r ∧ rules e !! r' = Some d) as Hru by (intros r' d; cbn; by intros [? ?]%lookup_delete_Some).
  split.
  - by eapply reads_graph.
  - split; [|done| |].
    + split; cbn [unregister provenance e_owned e_by_node e_rule_intern e_intern_names rules doomed e_tripped].
      * intros r'. destruct (decide (r' = r)) as [->|Hne]; [by rewrite lookup_delete_eq, upd_same|]. rewrite lookup_delete_ne, upd_other by done. apply He.
      * apply Hp.
      * intros r' Hr'. rewrite dom_delete_L in Hr'. rewrite lookup_delete_ne by set_solver. apply He. set_solver.
      * intros r' t. rewrite dom_delete_L. unfold upd. case_decide; [set_solver|]. intros Ht%(eo_owner _ _ He). set_solver.
      * etrans; [|apply (eo_room _ _ He)]. apply inj_le, subseteq_size. rewrite En, dom_delete_L. set_solver.
      * intros r' d [_ ?]%lookup_delete_Some. by apply He.
      * intros r'. destruct (decide (r' = r)) as [->|Hne]; [by rewrite lookup_delete_eq|]. rewrite lookup_delete_ne by done. apply He.
    + intros t. rewrite elem_of_difference, Hpt. split.
      * intros [[?|[r' Ht]] Hn]; [by left|right]. exists r'. unfold upd. case_decide; [by subst|done].
      * intros [Ht|[r' Ht]]; [split; [by left|by apply Hfr]|]. unfold upd in Ht. case_decide as Hne; [set_solver|]. split; [right; eauto|]. intros Ht'. apply Hne. by eapply (po_single _ _ _ _ _ (eo_ok _ _ He)).
    + intros r' t Ht. unfold upd. case_decide; [set_solver|by apply Hfr].
  - done.
  - done.
  - intros r' d [_ Hr']%Hru. rewrite (reads_syms g g' Hrd). by apply (H4 r').
  - intros r' d t [Hne Hr']%Hru. rewrite upd_other by done. intros Ht. apply Hd. by eapply H5.
  - intros r' d t HC Hr' Ht%Hd. rewrite Hr' in HC. apply Hru in Hr' as [Hne Hr']. apply elem_of_difference. split; [by eapply (H6 r')|].
    intros Ht'. apply HC. cbn. f_equal. eapply sym_inj; [exact H1|apply Ht|]. by eapply (H5 r).
  - intros r' d [Hne Hr']%Hru. destruct (H7 r' d Hr') as (ix & ? & ?). exists ix. split; [cbn; by rewrite lookup_delete_ne|]. by eapply reads_index.
Qed.

Lemma delete_rule_spec r def e g P S U : coherent e g P S U → rules e !! r = Some def → (∀ r' d, delete r (rules e) !! r' = Some d → fits d g) →
  ∃ e' g' P' S', delete_rule sin cos atan2 r e g = Some (Ok (e', g')) ∧ coherent e' g' P' S' U ∧ reads g' = reads g ∧ rules e' = delete r (rules e).
Proof.
  intros Hc Hdef Hfit. pose proof (co_books _ _ _ _ _ _ _ _ _ Hc) as Hb. pose proof (bk_engine _ _ _ _ _ Hb) as He. destruct (co_rules _ _ _ _ _ _ _ _ _ Hc r def Hdef) as [_ [et Het]].
  unfold delete_rule. rewrite Hdef, (no_chaining _ _ _ _ _ _ Hc), (intern_known _ _ et Het). cbn beta iota zeta. replace (with_syms g (syms g)) with g by (by destruct g).
  assert (prov_rep P r (prov_of e r)) as Hp by (split; [apply He|symmetry; apply He]). assert (set (prov_of e r) = P r) as Hset by (symmetry; apply Hp).
  destruct (retract_deleted_all r P (prov_of e r) g S (iter_set (set (prov_of e r))) Hp) as (p' & g' & -> & Hp' & Hg' & Hrd & Ei & En & Er);
    [apply Hb|apply sorted_NoDup, iter_set_sorted|intros t Ht%elem_of_iter_set; by rewrite <-Hset|].
  cbn [mbind option_bind]. assert (list_to_set (iter_set (set (prov_of e r))) = P r) as EP by (apply set_eq; intros t; by rewrite elem_of_list_to_set, elem_of_iter_set, Hset). rewrite EP in *.
  assert (coherent_on (λ r', edge_type <$> rules (unregister r p' e) !! r' ≠ Some (edge_type def)) (unregister r p' e) g' (upd P r ∅) (S ∖ P r) U) as Hc1.
  { eapply unregister_spec; try done; [eapply prov_rep_ext, Hp'; intros r'; unfold upd; case_decide; [set_solver|done]|]. rewrite Er. apply Hc. }
  destruct (rebuild_all_spec _ (rules_over (edge_type def) (unregister r p' e)) _ _ _ _ _ Hc1) as (e' & g2 & P' & S' & E & Hc2 & Hrd2 & Hru).
  { intros r' [Hr' _]%list_elem_of_filter. apply fmap_Some in Hr' as (d & Hd & _). exists d. split; [done|].
    intros X HX. apply (Hfit r' d Hd). intros t Ht. specialize (HX t Ht). unfold RuleHook.derives in *. by rewrite (reads_syms g g' Hrd), (reads_desired sin cos atan2 g g' Hrd) in HX. }
  rewrite E. cbn. do 4 eexists. split; [reflexivity|]. split; [|split; [congruence|by rewrite Hru]]. eapply coherent_weaken, Hc2. intros r' Hr' _. rewrite Hru in Hr'.
  destruct (decide (edge_type <$> rules (unregister r p' e) !! r' = Some (edge_type def))) as [Heq|?]; [right|by left]. apply list_elem_of_filter. split; [done|]. by apply elem_of_iter_set.
Qed.

End backfill.
End RuleBackfill.
