(* ===== verification/RuleRemove.v ===== *)
(** * Rules: deleting a node

    The hook of a node about to be deleted takes the node out of every rule's index
    and its derived edges out of the graph and the books, so that the engine is
    coherent with the graph the node has left. *)

From S2P Require Import Prelude Order Assoc Topology Csr TopologyView EdgeStore Interner Types EdgeProps Float64 ValueOps Float64Ops RuleDef RuleCandidates RuleEngine RuleDesired RuleProvenance RuleMaintain RuleHook RuleLife RuleBackfill.
Open Scope Z_scope.

Module RuleRemove.
Import RuleDef RuleIndex RuleEngine RuleDesired RuleProvenance RuleMaintain RuleHook RuleLife RuleBackfill.

Section drop.
Context {I : Type} `{NodeTable I}.
Abbreviation GraphMut := (@GraphMut I).

(** What is left when the edges at [n] are gone. *)
Definition apart (n : Z) (X : gset triple) : gset triple := filter (λ t, ¬ (t.1.2 = n ∨ t.2 = n)) X.
Definition apart_all (n : Z) (P : Owns) : Owns := λ r, apart n (P r).

Lemma elem_of_apart n X t : t ∈ apart n X ↔ ¬ touches n t ∧ t ∈ X.
Proof. unfold apart. by rewrite elem_of_filter. Qed.

(** ** The indexes forget the node *)

Definition side_without (n : Z) (def : RuleDef) (lbl : string) (spec : CandidateSpec) (ix : SideIndex) (g : GraphMut) : Prop :=
  ∃ M, (∀ m, m ∈ M ↔ member def lbl g m ∧ m ≠ n) ∧ side_ok ix spec M (getter g).

Definition index_without (n : Z) (def : RuleDef) (ix : RuleSides) (g : GraphMut) : Prop :=
  side_without n def (src_label def) (src_lookup_spec_for def) (src_side ix) g ∧ side_without n def (dst_label def) (candidate_spec_for def) (dst_side ix) g.

Lemma side_removed n def lbl spec ix (g : GraphMut) : side_index def lbl spec ix g →
  side_without n def lbl spec (if is_side lbl g n then remove spec n (getter g n) ix else ix) g.
Proof.
  intros (M & HM & Hs). destruct (is_side lbl g n) eqn:E.
  - exists (M ∖ {[n]}). split; [|by apply side_ok_remove]. intros m. rewrite elem_of_difference, elem_of_singleton, HM. done.
  - exists M. split; [|done]. intros m. rewrite HM. split; [|tauto]. intros Hm. split; [done|]. intros ->. by apply (off_side def) in E.
Qed.

Lemma deindex_all n (g : GraphMut) e0 l : ∀ e (R : list string), NoDup l → (∀ r, r ∈ l → r ∉ R ∧ r ∈ dom (rules e0)) → booked e = booked e0 → e_retracted e = e_retracted e0 →
  (∀ r def, rules e0 !! r = Some def → ∃ ix, indexes e0 !! r = Some ix ∧ index_ok def ix g) →
  (∀ r, r ∉ R → indexes e !! r = indexes e0 !! r) → (∀ r def, r ∈ R → rules e0 !! r = Some def → ∃ ix, indexes e !! r = Some ix ∧ index_without n def ix g) →
  ∃ e', foldM (deindex n g) e l = Some e' ∧ booked e' = booked e0 ∧ e_retracted e' = e_retracted e0 ∧
    ∀ r def, r ∈ l ∨ r ∈ R → rules e0 !! r = Some def → ∃ ix, indexes e' !! r = Some ix ∧ index_without n def ix g.
Proof.
  induction l as [|r l IH]; intros e R Hnd Hl Hb Hre Hok Htodo Hdone; cbn [foldM].
  { exists e. split; [done|]. split; [done|]. split; [done|]. intros r def [?%not_elem_of_nil|?]; [done|]. by apply Hdone. }
  apply NoDup_cons in Hnd as [Hnr Hnd]. destruct (Hl r) as [HnR [def Hdef]%elem_of_dom]; [by left|]. destruct (Hok r def Hdef) as (ix & Hix & [Hs Hd]).
  assert (rules e = rules e0) as Hru by (destruct e, e0; unfold booked in Hb; cbn in *; by simplify_eq).
  set (ix' := mk_sides (if is_side (src_label def) g n then remove (src_lookup_spec_for def) n (getter g n) (src_side ix) else src_side ix)
    (if is_side (dst_label def) g n then remove (candidate_spec_for def) n (getter g n) (dst_side ix) else dst_side ix)).
  assert (deindex n g e r = Some (with_index e r ix')) as -> by (unfold deindex; rewrite Hru, Hdef; cbn [mbind option_bind]; by rewrite (Htodo r HnR), Hix). cbn [mbind option_bind].
  assert (index_without n def ix' g) as Hix' by (split; by apply side_removed).
  destruct (IH (with_index e r ix') (r :: R) Hnd) as (e' & E & Hb' & Hre' & Hall); try done.
  - intros r' Hr'. rewrite not_elem_of_cons. destruct (Hl r') as [? ?]; [by right|]. split; [|done]. split; [|done]. by intros ->.
  - intros r' [Hne ?]%not_elem_of_cons. cbn. rewrite lookup_insert_ne by done. by apply Htodo.
  - intros r' def' Hr' Hdef'. cbn. destruct (decide (r' = r)) as [->|Hne]; [rewrite lookup_insert_eq; assert (def' = def) as -> by congruence; by exists ix'|].
    rewrite lookup_insert_ne by done. apply elem_of_cons in Hr' as [?|?]; [done|]. by apply Hdone.
  - exists e'. split; [done|]. split; [done|]. split; [done|]. intros r' def' Hr'. apply Hall. rewrite elem_of_cons in *. tauto.
Qed.

(** ** The derived edges at the node *)

Lemma derived_at_spec n e P : engine_ok e P → ∃ l, derived_at n e = Some l ∧ NoDup l.*2 ∧ ∀ r t, (r, t) ∈ l ↔ t ∈ P r ∧ touches n t.
Proof.
  intros He. unfold derived_at. set (ts := iter_set _). pose proof (eo_ok _ _ He) as Hp.
  assert (∀ x, x ∈ ts ↔ x ∈ touched (e_by_node e) n) as Hts by (intros x; apply elem_of_iter_set).
  set (f := λ '(rid, t, s, d), r ← e_intern_names e !! Z.to_nat rid; Some (r, (t, s, d))).
  assert (∀ x, x ∈ ts → ∃ r, f x = Some (r, (x.1.1.2, x.1.2, x.2)) ∧ (x.1.1.2, x.1.2, x.2) ∈ P r ∧ touches n (x.1.1.2, x.1.2, x.2)) as Hf.
  { intros [[[rid et] s] d] (Hn & r & Hr & Ht)%Hts%(po_touch _ _ _ _ _ Hp). exists r. apply (no_names _ _ (po_names _ _ _ _ _ Hp)) in Hr as (i & Hi & ->).
    cbn. rewrite Nat2Z.id, Hi. split; [done|]. split; [done|]. destruct Hn; [by left|by right]. }
  destruct (mapM f ts) as [l|] eqn:El.
  2:{ exfalso. apply mapM_None in El as (x & Hx & E)%Exists_exists. destruct (Hf x Hx) as (r & Hr & _). congruence. }
  exists l. apply mapM_Some in El. assert (l.*2 = (λ x : Touch, (x.1.1.2, x.1.2, x.2)) <$> ts) as E2.
  { clear Hts. induction El as [|x y ts l Hxy _ IH]; cbn; [done|]. destruct (Hf x ltac:(by left)) as (r & Hr & _). rewrite Hr in Hxy. injection Hxy as <-. f_equal. apply IH. intros z Hz. apply Hf. by right. }
  split; [done|]. split.
  - rewrite E2. apply NoDup_fmap_2_strong; [|apply sorted_NoDup, iter_set_sorted]. intros [[[r1 e1] s1] d1] [[[r2 e2] s2] d2] H1%Hts H2%Hts [= -> -> ->].
    apply (po_touch _ _ _ _ _ Hp) in H1 as (_ & r & Hr & Ht), H2 as (_ & r' & Hr' & Ht'). rewrite (po_single _ _ _ _ _ Hp r r' _ Ht Ht') in Hr. congruence.
  - intros r t. split.
    + intros (i & Hi)%list_elem_of_lookup. destruct (Forall2_lookup_r _ _ _ _ _ El Hi) as (x & Hx%list_elem_of_lookup_2 & E). destruct (Hf x Hx) as (r' & Hr' & ? & ?). rewrite Hr' in E. by simplify_eq.
    + intros [Ht Hn]. destruct (po_interned _ _ _ _ _ Hp r t Ht) as [rid Hrid]. destruct t as [[et s] d]. assert ((rid, et, s, d) ∈ ts) as Hin.
      { apply Hts, (po_touch _ _ _ _ _ Hp). split; [destruct Hn; [by left|by right]|eauto]. }
      destruct (Hf _ Hin) as (r' & Hr' & Ht' & _). cbn in Hr', Ht'. rewrite (po_single _ _ _ _ _ Hp r r' _ Ht Ht').
      apply list_elem_of_lookup in Hin as (i & Hi). destruct (Forall2_lookup_l _ _ _ _ _ El Hi) as (y & Hy%list_elem_of_lookup_2 & E). cbn in E. rewrite Hr' in E. by simplify_eq.
Qed.

Lemma engine_ok_ext e P P' : (∀ r, P r = P' r) → engine_ok e P → engine_ok e P'.
Proof.
  intros HP [H1 H2 H3 H4 H5 H6 H7]. split; try done.
  - intros r. by rewrite <-HP.
  - apply (prov_rep_ext P P' EmptyString (prov_of e EmptyString) HP). split; [done|]. symmetry. apply H1.
  - intros r t. rewrite <-HP. apply H4.
Qed.

Lemma drop_all l : ∀ e (g : GraphMut) P S, engine_ok e P → edges_are g S → NoDup l.*2 → (∀ r t, (r, t) ∈ l → t ∈ P r) →
  ∃ e' g', foldM drop_derived (e, g) l = Some (e', g') ∧ engine_ok e' (λ r, P r ∖ list_to_set l.*2) ∧ edges_are g' (S ∖ list_to_set l.*2) ∧ reads g' = reads g ∧
    untouched_fields e' = untouched_fields e ∧ e_retracted e' = e_retracted e.
Proof.
  induction l as [|[r t] l IH]; intros e g P S He Hg Hnd Hl; cbn [foldM fmap list_fmap].
  { exists e, g. split; [done|]. split; [eapply engine_ok_ext, He; intros r; set_solver|]. split; [|done]. by replace (S ∖ list_to_set []) with S by set_solver. }
  cbn in Hnd. apply NoDup_cons in Hnd as [Hnt Hnd]. assert (t ∈ P r) as Ht by (apply Hl; by left). pose proof (eo_owner _ _ He r t Ht) as Hdom. destruct (eo_held _ _ He r Hdom) as [own Hown].
  destruct (remove_edge_spec g S t Hg) as (g1 & E & Hg1 & Hr1). set (g2 := with_edge_props g1 (EdgeProps.EdgeProps.remove_edge (edge_props g1) t)).
  assert (prov_rep P r (prov_of e r)) as Hp by (split; [apply He|symmetry; apply He]). destruct (prov_remove_rep P r (prov_of e r) t g2 Hp Ht) as (Hp' & Ei & En).
  set (e1 := put_prov e r (prov_remove (prov_of e r) r t g2) (e_tripped e)).
  assert (drop_derived (e, g) (r, t) = Some (e1, g2)) as -> by (unfold drop_derived; rewrite E; cbn [mbind option_bind]; by rewrite Hown). cbn [mbind option_bind].
  assert (engine_ok e1 (upd P r (P r ∖ {[t]}))) as He1.
  { eapply put_prov_ok; [exact He|done|exact Hp'|intros r' Hne; by rewrite upd_other| |apply He]. intros r'. rewrite En. by left. }
  assert (e_retracted e1 = e_retracted e) as Hre by (unfold e1, put_prov, prov_remove; cbn; case_decide; [done|]; by destruct (intern_rule _ _ _) as [[? ?] ?]).
  destruct (IH e1 g2 (upd P r (P r ∖ {[t]})) (S ∖ {[t]}) He1 Hg1 Hnd) as (e' & g' & -> & He' & Hg' & Hr' & Hf' & Hre').
  { intros r' t' Ht'. assert (t' ∈ P r') by (apply Hl; by right). unfold upd. case_decide; [|done]. subst r'. apply elem_of_difference. split; [done|]. intros ->%elem_of_singleton. apply Hnt, list_elem_of_fmap. by exists (r, t). }
  exists e', g'. split; [done|]. split_and!; [| |by rewrite Hr'|by rewrite Hf'|by rewrite Hre'].
  - eapply engine_ok_ext, He'. intros r'. unfold upd. case_decide; cbn [list_to_set]; [subst; set_solver|]. assert (t ∉ P r') as Hno; [|set_solver]. intros Ht'. assert (r' = r) by (by apply (po_single _ _ _ _ _ (eo_ok _ _ He) r' r t)). done.
  - by replace (S ∖ list_to_set (t :: l.*2)) with (S ∖ {[t]} ∖ list_to_set l.*2) by (cbn; set_solver).
Qed.

End drop.

Section removal.
Context {I : Type} `{NodeTable I} {ok : I → Prop} {laws : NodeTableLaws I ok}.
Context (sin cos : Z → Z) (atan2 : Z → Z → Z).
Abbreviation GraphMut := (@GraphMut I).
Abbreviation graph_ok := (graph_ok (ok := ok)).
Abbreviation derives := (derives sin cos atan2).
Abbreviation coherent := (coherent_on (ok := ok) sin cos atan2 (λ _, True)).

(** ** The hook *)

(** What the hook leaves: the node is out of the indexes, and of the books. *)
Record let_go (n : Z) (e : RuleEngine) (g : GraphMut) (P : Owns) (S : gset triple) (e' : RuleEngine) (g' : GraphMut) : Prop := {
  lg_engine : engine_ok e' (apart_all n P);
  lg_edges : ∃ S', edges_are g' S' ∧ ∀ t, t ∈ S' ↔ t ∈ S ∧ ¬ (touches n t ∧ ∃ r, t ∈ P r);
  lg_reads : reads g' = reads g;
  lg_rules : rules e' = rules e;
  lg_idle : e_retracted e' = [] ∧ doomed e' = None;
  lg_index r def : rules e !! r = Some def → ∃ ix, indexes e' !! r = Some ix ∧ index_without n def ix g;
}.

Lemma no_losers n l e (g : GraphMut) : (∀ r def, rules e !! r = Some def → max_edges def = None) → top_k_losers sin cos atan2 n l e g = ∅.
Proof.
  intros Hcap. apply set_eq. intros x. split; [|set_solver]. unfold top_k_losers. rewrite elem_of_union, !elem_of_list_to_set. intros [Hx|Hx].
  - apply list_elem_of_omap in Hx as ([r [[et s] d]] & _ & E). cbn in E. destruct (rules e !! r) as [def|] eqn:Ed; [|done]. cbn in E. by rewrite (Hcap r def Ed) in E.
  - apply list_elem_of_In, in_concat in Hx as (y & (r & <- & _)%in_map_iff & Hx). unfold other_losers in Hx. destruct (rules e !! r) as [def|] eqn:Ed; [|done].
    by rewrite (Hcap r def Ed), bool_decide_eq_true_2 in Hx.
Qed.

Lemma on_node_removed_spec n e g P S U : coherent e g P S U → ∃ e' g', on_node_removed sin cos atan2 n e g = Some (e', g') ∧ let_go n e g P S e' g'.
Proof.
  intros Hc. pose proof (co_books _ _ _ _ _ _ _ _ _ Hc) as Hb. pose proof (bk_engine _ _ _ _ _ Hb) as He. unfold on_node_removed. rewrite (no_chaining _ _ _ _ _ _ _ _ _ Hc).
  unfold on_node_removed_inner. set (e0 := with_retracted (with_doomed e (Some n)) []). change (rules (with_doomed e (Some n))) with (rules e0).
  destruct (deindex_all n g e0 (iter_set (dom (rules e0))) e0 []) as (e1 & -> & Hb1 & Hre1 & Hix1); try done; [apply sorted_NoDup, iter_set_sorted| |apply Hc|by intros r def ?%not_elem_of_nil|].
  { intros r Hr%elem_of_iter_set. split; [apply not_elem_of_nil|done]. }
  cbn [mbind option_bind]. assert (engine_ok e1 P) as He1.
  { destruct He as [H1 H2 H3 H4 H5 H6 H7]. unfold booked in Hb1. destruct e, e1. cbn in *. simplify_eq. by split. }
  assert (rules e1 = rules e ∧ e_retracted e1 = []) as [Hru1 Hr1] by (split; [unfold booked in Hb1; destruct e, e1; cbn in *; by simplify_eq|done]).
  destruct (derived_at_spec n e1 P He1) as (l & -> & Hnd & Hl). cbn [mbind option_bind].
  rewrite no_losers by (intros r def; rewrite Hru1; intros Hdef; by apply (pl_cap _ (proj1 (co_rules _ _ _ _ _ _ _ _ _ Hc r def Hdef)))).
  destruct (drop_all l e1 g P S He1) as (e2 & g2 & -> & He2 & Hg2 & Hr2 & Hf2 & Hre2); [apply Hb|done|intros r t Ht; by apply Hl|].
  assert (iter_set (∅ : gset (string * Z)) = []) as -> by done. cbn [mbind option_bind foldM]. rewrite Hre2, Hr1, bool_decide_eq_true_2 by done. cbn [mbind option_bind].
  assert (∀ t, t ∈ (list_to_set l.*2 : gset triple) ↔ touches n t ∧ ∃ r, t ∈ P r) as Hll.
  { intros t. rewrite elem_of_list_to_set, list_elem_of_fmap. split; [intros ([r t'] & -> & [? ?]%Hl); eauto|]. intros [? [r ?]]. exists (r, t). split; [done|]. by apply Hl. }
  assert (rules e2 = rules e ∧ indexes e2 = indexes e1) as [Hru2 Hi2] by (unfold untouched_fields in Hf2; destruct e1, e2; cbn in *; by simplify_eq).
  do 2 eexists. split; [reflexivity|]. split.
  - assert (engine_ok e2 (apart_all n P)) as He3.
    { eapply engine_ok_ext, He2. intros r. apply set_eq. intros t. unfold apart_all. rewrite elem_of_difference, Hll, elem_of_apart. naive_solver. }
    destruct He3. by split.
  - eexists. split; [exact Hg2|]. intros t. by rewrite elem_of_difference, Hll.
  - done.
  - done.
  - split; [done|apply Hc].
  - intros r def Hdef. cbn. rewrite Hi2. apply Hix1; [|done]. left. apply elem_of_iter_set. by apply elem_of_dom_2 in Hdef.
Qed.

(** ** The node is gone *)

Record removes (n : Z) (g g' : GraphMut) : Prop := {
  rm_member m def lbl : m ≠ n → member def lbl g' m ↔ member def lbl g m;
  rm_gone def lbl : ¬ member def lbl g' n;
  rm_key m : m ≠ n → node_key (ids g') m = node_key (ids g) m;
  rm_getter m f : m ≠ n → getter g' m f = getter g m f;
  rm_syms : syms g' = syms g;
}.

Lemma removed_derives n g g' def t : removes n g g' → derives def g' t ↔ derives def g t ∧ ¬ touches n t.
Proof.
  intros Hr. unfold RuleHook.derives. rewrite (rm_syms _ _ _ Hr). destruct (decide (t.1.2 = n ∨ t.2 = n)) as [Ht|Ht].
  - split; [|intros [_ []]; done]. intros [_ Hd]. destruct (desired_member sin cos atan2 def g' n t.1.2 t.2 Hd Ht) as [Hm|Hm]; by apply (rm_gone _ _ _ Hr) in Hm.
  - rewrite (desired_same sin cos atan2 def g' g); [unfold touches; tauto|]. intros m Hm. assert (m ≠ n) as Hne by (intros ->; naive_solver).
    split; [intros lbl; by apply Hr|]. split; [by apply Hr|intros f _; by apply Hr].
Qed.

Lemma without_index n g g' def ix : removes n g g' → index_without n def ix g → index_ok def ix g'.
Proof.
  intros Hr [Hs Hd]. assert (∀ lbl spec sd, side_without n def lbl spec sd g → side_index def lbl spec sd g') as Hside; [|by split; apply Hside].
  intros lbl spec sd (M & HM & Hok). exists M. split.
  - intros m. rewrite HM. destruct (decide (m = n)) as [->|Hne]; [split; [tauto|by intros ?%(rm_gone _ _ _ Hr)]|]. rewrite (rm_member _ _ _ Hr) by done. tauto.
  - eapply side_ok_ext, Hok. intros m f [_ Hm]%HM. symmetry. by apply Hr.
Qed.

Lemma removed_coherent n e g P S U e' g1 g' : coherent e g P S U → let_go n e g P S e' g1 → removes n g g' → graph_ok g' → edges_are g' (apart n S) →
  coherent e' g' (apart_all n P) (apart n S) (apart n U).
Proof.
  intros [H1 [Hpe Hpg Hpt Hfr] H3 H3d H4 H5 H6 H7] [L1 _ L3 L4 [L5 L6] L7] Hr Hg' He'. split; rewrite ?L4; try done.
  - split; [done|done| |].
    + intros t. unfold apart_all. setoid_rewrite elem_of_apart. rewrite Hpt. naive_solver.
    + intros r t. unfold apart_all. rewrite !elem_of_apart. intros [_ ?] [_ ?]. by eapply Hfr.
  - intros r def Hdef. rewrite (rm_syms _ _ _ Hr). by apply (H4 r).
  - intros r def t Hdef [Hn Ht]%elem_of_apart. eapply removed_derives; [done|]. split; [by eapply H5|done].
  - intros r def t _ Hdef [Ht Hn]%(removed_derives n g g' def t Hr). apply elem_of_apart. split; [done|]. by eapply (H6 r).
  - intros r def Hdef. destruct (L7 r def Hdef) as (ix & ? & ?). exists ix. split; [done|]. by eapply without_index.
Qed.

End removal.
End RuleRemove.
