(* ===== verification/DbApply.v ===== *)
(** * The database: applying a record

    Models [GraphDb::apply] of [crates/core-api/src/db.rs] for the records that write
    nodes, edges, properties and rules: the key table, the labels, the property
    columns, the edge store and the rule engine, with every hook the engine is called
    through.  The record is applied the same way on a live write and on replay.

    Left out are what hangs on a write without the rules reading it: views, full-text
    and property indexes, the namespace vector.  The columns are one map from node and
    field to value (what the overlay answers, without a snapshot under it), and a
    rule's definition comes decoded. *)

From S2P Require Import Prelude Order Assoc Topology Csr TopologyView EdgeStore Interner HashIndex CowVec CowMap IdMap Types EdgeProps Float64 ValueOps Float64Ops RuleDef RuleCandidates RuleEngine RuleLife.
Open Scope Z_scope.

Module DbApply.
Import RuleDef RuleIndex RuleEngine RuleLife.

(** ** The key table, as the engine reads it *)

Section table.
Context (hash : string → Z).

(** A [u32] is not negative. *)
Definition key_of (m : IdMap.t) (id : Z) : option string := if id <? 0 then None else default None (IdMap.key_of m id).

#[export] Instance idmap_table : NodeTable IdMap.t := {| node_key := key_of; node_id := IdMap.get hash; node_count := IdMap.len |}.

End table.

(** ** State and records *)

Abbreviation Graph := (@GraphMut IdMap.t).

Record Db := mk_db { graph : Graph; engine : RuleEngine }.

Inductive Record_ :=
| InsertNode (label key : string) (props : list (string * Value.t))
| InsertEdge (edge_type src_key dst_key : string)
| SetProp (key field : string) (value : Value.t)
| RemoveProp (key field : string)
| DeleteEdge (edge_type src_key dst_key : string)
| DeleteNode (key : string)
| CreateRule (def : RuleDef)
| DeleteRule (name : string)
| RebuildRule (name : string).

(** The error of a record: a [GraphError], where [RuleInvalid] carries what the
    engine said. *)
Inductive ApplyError :=
| Graph_ (e : GraphError)
| RuleInvalid_ (e : EngineError).

Section apply.
Context (hash : string → Z) (sin cos : Z → Z) (atan2 : Z → Z → Z).
#[local] Hint Extern 0 (NodeTable IdMap.t) => exact (idmap_table hash) : typeclass_instances.

Definition unknown_key (key : string) : ApplyError := Graph_ (Corrupt (String.append "wal replay references unknown key " key)).

Definition set_columns (g : Graph) (c : gmap (Z * string) Value.t) : Graph :=
  mk_graph (ids g) (syms g) (labels g) c (base_topo g) (topo g) (edge_props g).

(** Run the hook of a changed node. *)
Definition changed_hook (n : Z) (changed : Change) (e : RuleEngine) (g : Graph) : option (result ApplyError Db) :=
  '(e, g) ← on_node_changed sin cos atan2 n changed e g;
  Some (Ok (mk_db g e)).

(** The label slot of a node, slots in between marked as holding none. *)
Definition set_label (ls : list Z) (id : Z) (sym : Z) : list Z :=
  let ls := if (length ls <=? Z.to_nat id)%nat then ls ++ replicate (S (Z.to_nat id) - length ls) u32_max else ls in
  <[Z.to_nat id := sym]> ls.

Definition set_props (c : gmap (Z * string) Value.t) (id : Z) (props : list (string * Value.t)) : gmap (Z * string) Value.t :=
  foldl (λ c '(field, value), <[(id, field) := value]> c) c props.

(** The node written, before its hook. *)
Definition insert_node (g : Graph) (ids' : IdMap.t) (id : Z) (label : string) (props : list (string * Value.t)) : Graph :=
  let '(sym, sy) := Interner.intern (syms g) label in
  mk_graph ids' sy (set_label (labels g) id sym) (set_props (columns g) id props) (base_topo g) (topo g) (edge_props g).

Definition apply_insert_node (label key : string) (props : list (string * Value.t)) (db : Db) : option (result ApplyError Db) :=
  '(r, ids') ← IdMap.try_insert hash (ids (graph db)) key;
  match r with
  | Err e => Some (Err (Graph_ e))
  | Ok id => changed_hook id None (engine db) (insert_node (graph db) ids' id label props)
  end.

(** The engine's part in an edge write: nothing, where no rule hops over an edge. *)
Definition edge_hook (e : RuleEngine) (g : Graph) : option (result ApplyError Db) :=
  if chaining_possible e then None else Some (Ok (mk_db g (with_retracted e []))).

Definition apply_insert_edge (edge_type src_key dst_key : string) (db : Db) : option (result ApplyError Db) :=
  let g := graph db in
  match IdMap.get hash (ids g) src_key with
  | None => Some (Err (unknown_key src_key))
  | Some src =>
      match IdMap.get hash (ids g) dst_key with
      | None => Some (Err (unknown_key dst_key))
      | Some dst =>
          let '(etype, sy) := Interner.intern (syms g) edge_type in
          let g := with_syms g sy in
          if bool_decide (is_Some (base_topo g)) && TopologyView.has_edge (TopologyView.mk (topo g) (base_topo g) None) (etype, src, dst) then Some (Ok (mk_db g (engine db)))
          else
            t ← snd <$> Topology.add_edge (topo g) etype src dst;
            edge_hook (engine db) (with_topo g t)
      end
  end.

Definition apply_set_prop (key field : string) (value : Value.t) (db : Db) : option (result ApplyError Db) :=
  let g := graph db in
  match IdMap.get hash (ids g) key with
  | None => Some (Err (unknown_key key))
  | Some id => changed_hook id (Some (field, getter g id field)) (engine db) (set_columns g (<[(id, field) := value]> (columns g)))
  end.

Definition apply_remove_prop (key field : string) (db : Db) : option (result ApplyError Db) :=
  let g := graph db in
  match IdMap.get hash (ids g) key with
  | None => Some (Ok db)
  | Some id => changed_hook id (Some (field, getter g id field)) (engine db) (set_columns g (delete (id, field) (columns g)))
  end.

Definition apply_delete_edge (edge_type src_key dst_key : string) (db : Db) : option (result ApplyError Db) :=
  let g := graph db in
  match IdMap.get hash (ids g) src_key, IdMap.get hash (ids g) dst_key, Interner.get (syms g) edge_type with
  | Some src, Some dst, Some etype =>
      if bool_decide (is_Some (base_topo g)) && negb (TopologyView.has_edge (TopologyView.mk (topo g) (base_topo g) None) (etype, src, dst)) then Some (Ok db)
      else
        t ← snd <$> Topology.remove_edge (topo g) etype src dst;
        edge_hook (engine db) (with_edge_props (with_topo g t) (EdgeProps.EdgeProps.remove_edge (edge_props g) (etype, src, dst)))
  | _, _, _ => Some (Ok db)
  end.

(** [ColumnStore::remove_all] *)
Definition remove_all (c : gmap (Z * string) Value.t) (n : Z) : gmap (Z * string) Value.t := filter (λ kv, kv.1.1 ≠ n) c.

Definition apply_delete_node (key : string) (db : Db) : option (result ApplyError Db) :=
  match IdMap.get hash (ids (graph db)) key with
  | None => Some (Ok db)
  | Some n =>
      '(e, g) ← on_node_removed sin cos atan2 n (engine db) (graph db);
      t ← EdgeStore.db_sweep_node (base_topo g) (topo g) n;
      let ep := foldl EdgeProps.EdgeProps.remove_edge (edge_props g) (EdgeStore.doomed (TopologyView.mk (topo g) (base_topo g) None) n) in
      '(_, ids') ← IdMap.delete hash (ids g) key;
      Some (Ok (mk_db (mk_graph ids' (syms g) (<[Z.to_nat n := u32_max]> (labels g)) (remove_all (columns g) n) (base_topo g) t ep) e))
  end.

(** A rule there already, or no longer there, is a record replayed over a snapshot. *)
Definition apply_create_rule (def : RuleDef) (db : Db) : option (result ApplyError Db) :=
  if decide (is_Some (rules (engine db) !! name def)) then Some (Ok db)
  else
    r ← create_rule sin cos atan2 def (engine db) (graph db);
    Some match r with Ok (e, g) => Ok (mk_db g e) | Err e => Err (RuleInvalid_ e) end.

Definition rule_result (rule_name : string) (r : result EngineError (RuleEngine * Graph)) : result ApplyError Db :=
  match r with Ok (e, g) => Ok (mk_db g e) | Err _ => Err (Graph_ (Types.RuleNotFound rule_name)) end.

Definition apply_delete_rule (rule_name : string) (db : Db) : option (result ApplyError Db) :=
  if decide (is_Some (rules (engine db) !! rule_name)) then rule_result rule_name <$> delete_rule sin cos atan2 rule_name (engine db) (graph db)
  else Some (Ok db).

Definition apply_rebuild_rule (rule_name : string) (db : Db) : option (result ApplyError Db) :=
  if decide (is_Some (rules (engine db) !! rule_name)) then rule_result rule_name <$> rebuild sin cos atan2 rule_name (engine db) (graph db)
  else Some (Ok db).

Definition apply (rec : Record_) (db : Db) : option (result ApplyError Db) :=
  match rec with
  | InsertNode label key props => apply_insert_node label key props db
  | InsertEdge edge_type src_key dst_key => apply_insert_edge edge_type src_key dst_key db
  | SetProp key field value => apply_set_prop key field value db
  | RemoveProp key field => apply_remove_prop key field db
  | DeleteEdge edge_type src_key dst_key => apply_delete_edge edge_type src_key dst_key db
  | DeleteNode key => apply_delete_node key db
  | CreateRule def => apply_create_rule def db
  | DeleteRule rule_name => apply_delete_rule rule_name db
  | RebuildRule rule_name => apply_rebuild_rule rule_name db
  end.

(** The inner records of a batch, up to the first that fails. *)
Fixpoint apply_batch (recs : list Record_) (db : Db) : option (result ApplyError Db) :=
  match recs with
  | [] => Some (Ok db)
  | rec :: recs => r ← apply rec db; match r with Ok db => apply_batch recs db | Err e => Some (Err e) end
  end.

Definition new_db : Db := mk_db (mk_graph IdMap.new Interner.new [] ∅ None Topology.new EdgeProps.EdgeProps.new) new_engine.

End apply.
End DbApply.
