(* ===== verification/DbGraph.v ===== *)
(** * The database: what a record's write does to the graph

    The key table gives the engine its nodes, and each write of [apply] is one of the
    changes the engine's theorems are about: a new node, a field of a node with
    another value, a node that is gone, one more symbol. *)

From S2P Require Import Prelude Order Assoc Topology Csr TopologyView EdgeStore Interner HashIndex CowVec CowMap IdMap Types EdgeProps Float64 ValueOps Float64Ops RuleDef RuleCandidates RuleEngine RuleDesired RuleProvenance RuleMaintain RuleHook RuleLife RuleBackfill RuleRemove DbApply.
Open Scope Z_scope.

Module DbGraph.
Import RuleDef RuleIndex RuleEngine RuleDesired RuleProvenance RuleMaintain RuleHook RuleLife RuleBackfill RuleRemove DbApply.

Section graph.
Context (hash : string → Z).
#[local] Hint Extern 0 (NodeTable IdMap.t) => exact (idmap_table hash) : typeclass_instances.

(** ** The key table *)

Definition ids_ok (m : IdMap.t) : Prop := ∃ s, IdMap.rep hash m s.

Lemma key_of_live m s n k : IdMap.rep hash m s → DbApply.key_of m n = Some k ↔ IdMap.live s !! k = Some n.
Proof.
  intros Hr. unfold DbApply.key_of. pose proof (IdMap.rep_sane _ _ _ Hr) as Hs. destruct (Z.ltb_spec n 0) as [Hn|Hn].
  { split; [done|]. intros (? & _)%(IdMap.sane_live _ Hs). lia. }
  rewrite (IdMap.rep_key_of hash m s n Hr Hn). cbn. split.
  - case_decide as Hd; [done|]. intros Hk. rewrite <-(Z2Nat.id n Hn). apply (IdMap.sane_all _ Hs); [done|by rewrite Z2Nat.id].
  - intros (_ & Hk & Hd)%(IdMap.sane_live _ Hs). by rewrite decide_False.
Qed.

#[export] Instance idmap_laws : NodeTableLaws IdMap.t ids_ok.
Proof.
  split.
  - intros m k n [s Hr]. cbn. by rewrite (IdMap.rep_get hash m s k Hr), (key_of_live m s n k Hr).
  - intros m k n [s Hr] Hk. cbn in *. apply (key_of_live m s n k Hr) in Hk. apply (IdMap.sane_live _ (IdMap.rep_sane _ _ _ Hr)) in Hk as (H0 & Hk & _).
    split; [done|]. apply lookup_lt_Some in Hk. unfold IdMap.len. rewrite (IdMap.rep_len hash m s Hr). lia.
Qed.

Abbreviation graph_ok := (graph_ok (ok := ids_ok)).

(** ** A new node *)

Lemma set_label_here ls id sym : (length ls ≤ Z.to_nat id)%nat → set_label ls id sym !! Z.to_nat id = Some sym ∧ length (set_label ls id sym) = S (Z.to_nat id).
Proof.
  intros Hl. unfold set_label. rewrite (proj2 (Nat.leb_le _ _)) by lia. rewrite length_insert. assert (length (ls ++ replicate (S (Z.to_nat id) - length ls) u32_max) = S (Z.to_nat id)) as E by (rewrite length_app, length_replicate; lia).
  split; [|done]. apply list_lookup_insert_eq. rewrite E. lia.
Qed.

Lemma set_label_else ls id sym i x : (length ls ≤ Z.to_nat id)%nat → i ≠ Z.to_nat id → x ≠ u32_max → set_label ls id sym !! i = Some x ↔ ls !! i = Some x.
Proof.
  intros Hl Hi Hx. unfold set_label. rewrite (proj2 (Nat.leb_le _ _)) by lia. rewrite list_lookup_insert_ne by done. rewrite lookup_app_Some. split; [|by left].
  intros [?|[_ [-> _]%lookup_replicate]]; [done|congruence].
Qed.

Lemma set_props_other c id props m f : m ≠ id → set_props c id props !! (m, f) = c !! (m, f).
Proof.
  intros Hm. unfold set_props. revert c. induction props as [|[f' v] props IH]; intros c; cbn [foldl]; [done|]. rewrite IH. apply lookup_insert_ne. congruence.
Qed.

Lemma set_props_ok c id props : (∀ kv v, c !! kv = Some v → number_ok v) → Forall (λ fv, number_ok fv.2) props → ∀ kv v, set_props c id props !! kv = Some v → number_ok v.
Proof.
  intros Hc Hp. unfold set_props. revert c Hc. induction Hp as [|[f v] props Hv _ IH]; intros c Hc; cbn [foldl]; [done|]. apply IH. intros kv w.
  destruct (decide (kv = (id, f))) as [->|Hne]; [rewrite lookup_insert_eq; by intros [= <-]|]. rewrite lookup_insert_ne by done. apply Hc.
Qed.

Lemma columns_ok (g : Graph) : graph_ok g → ∀ kv v, columns g !! kv = Some v → number_ok v.
Proof. intros Hg [n f] v Hv. by eapply (go_numbers _ Hg n f). Qed.

(** The keys of a table that grew by one. *)
Lemma inserted_keys m s key ids' : IdMap.rep hash m s → IdMap.live s !! key = None → Z.of_nat (IdMap.len m) < 2 ^ 32 → IdMap.try_insert hash m key = Some (Ok (Z.of_nat (IdMap.len m)), ids') →
  ids_ok ids' ∧ IdMap.len ids' = S (IdMap.len m) ∧ ∀ n, n ≠ Z.of_nat (IdMap.len m) → DbApply.key_of ids' n = DbApply.key_of m n.
Proof.
  intros Hr Hk Hlt E. destruct (IdMap.rep_insert hash m s key Hr) as (m' & E' & Hr'). rewrite E in E'. injection E' as E1 <-. unfold IdMap.len in *. rewrite (IdMap.rep_len hash m s Hr) in *.
  unfold IdMap.spec_insert in Hr'. rewrite Hk, decide_True in Hr' by done. cbn [snd] in Hr'. split; [by eexists|]. split; [rewrite (IdMap.rep_len hash _ _ Hr'); cbn; rewrite length_app; cbn; lia|].
  intros n Hn. apply option_eq. intros k. rewrite (key_of_live _ _ n k Hr'), (key_of_live _ _ n k Hr). cbn. destruct (decide (k = key)) as [->|Hne]; [|by rewrite lookup_insert_ne].
  rewrite lookup_insert_eq, Hk. split; [|done]. intros [= <-]. done.
Qed.

Lemma insert_fresh m s key : IdMap.rep hash m s → IdMap.live s !! key = None → Z.of_nat (IdMap.len m) < 2 ^ 32 → ∃ ids', IdMap.try_insert hash m key = Some (Ok (Z.of_nat (IdMap.len m)), ids').
Proof.
  intros Hr Hk Hlt. destruct (IdMap.rep_insert hash m s key Hr) as (m' & E & _). exists m'. rewrite E. unfold IdMap.spec_insert, IdMap.len in *. rewrite (IdMap.rep_len hash m s Hr) in *. by rewrite Hk, decide_True.
Qed.

Section insert.
Context (g : Graph) (s : IdMap.spec) (label_ key : string) (props : list (string * Value.t)) (ids' : IdMap.t).
Context (Hg : graph_ok g) (Hr : IdMap.rep hash (ids g) s) (Hk : IdMap.live s !! key = None) (Hlt : Z.of_nat (IdMap.len (ids g)) < 2 ^ 32).
Context (E : IdMap.try_insert hash (ids g) key = Some (Ok (Z.of_nat (IdMap.len (ids g))), ids')) (Hroom : symbol_room g) (Hprops : Forall (λ fv, number_ok fv.2) props).

Let id := Z.of_nat (IdMap.len (ids g)).
Let g1 := insert_node g ids' id label_ props.
Let gi := interned_in label_ g.

Lemma insert_slots : (length (labels g) ≤ Z.to_nat id)%nat.
Proof. unfold id. rewrite Nat2Z.id. apply (go_slots _ Hg). Qed.

Lemma insert_parts : syms g1 = syms gi ∧ labels g1 = set_label (labels g) id (Interner.intern (syms g) label_).1 ∧ columns g1 = set_props (columns g) id props ∧ ids g1 = ids' ∧
  base_topo g1 = base_topo g ∧ topo g1 = topo g.
Proof. unfold g1, gi, insert_node, interned_in. by destruct (Interner.intern (syms g) label_) as [sym sy]. Qed.

Lemma insert_getter m f : m ≠ id → getter g1 m f = getter g m f.
Proof. intros Hm. unfold getter. destruct insert_parts as (_ & _ & -> & _). by apply set_props_other. Qed.

Lemma insert_member def lbl m : m ≠ id → member def lbl g1 m ↔ member def lbl g m.
Proof.
  intros Hm. destruct (interned_widens label_ g Hg Hroom) as [_ Hw]. fold gi in Hw. rewrite <-(wi_member _ _ Hw). destruct insert_parts as (Es & El & _). unfold member. rewrite Es.
  assert (rule_sees def m g1 = rule_sees def m gi) as -> by (unfold rule_sees; destruct (namespace def); [|done]; by rewrite insert_getter).
  assert (∀ sym, 0 ≤ m → Interner.get (syms gi) lbl = Some sym → label g1 m = Some sym ↔ label gi m = Some sym) as Hl; [|split; intros (? & (sym & ? & ?) & ?); (split; [done|]); (split; [|done]); exists sym; (split; [done|]); by apply Hl].
  intros sym H0 Hs. destruct (sym_bound gi lbl sym (wi_graph _ _ Hw) Hs) as [_ Hne]. unfold label. rewrite El. apply set_label_else; [apply insert_slots|unfold id in *; lia|done].
Qed.

Lemma insert_changes : changes id None g g1.
Proof.
  destruct (inserted_keys (ids g) s key ids' Hr Hk Hlt E) as (_ & _ & Hkey). destruct (interned_widens label_ g Hg Hroom) as [_ Hw]. fold gi in Hw. destruct insert_parts as (Es & _ & _ & Ei & _). split.
  - intros m def lbl Hm. symmetry. by apply insert_member.
  - intros m Hm. rewrite Ei. symmetry. by apply Hkey.
  - intros m f Hm. symmetry. by apply insert_getter.
  - intros def lbl (_ & (sym & _ & Hl) & _). unfold label in Hl. apply lookup_lt_Some in Hl. pose proof insert_slots. lia.
  - intros s' sym Hs. rewrite Es. by apply Hw.
Qed.

Lemma insert_graph_ok : graph_ok g1.
Proof.
  destruct (inserted_keys (ids g) s key ids' Hr Hk Hlt E) as (Hids & Hlen & Hkey). destruct (interned_widens label_ g Hg Hroom) as [Hsym Hw]. fold gi in Hw, Hsym. pose proof (wi_graph _ _ Hw) as Hgi.
  destruct insert_parts as (Es & El & Ec & Ei & _). destruct (set_label_here (labels g) id (Interner.intern (syms g) label_).1 insert_slots) as [Hhere Hll]. split.
  - by rewrite Ei.
  - intros n k Hn. destruct (node_key_bound (ok := ids_ok) (ids g1) k n) as [H0 _]; [by rewrite Ei|done|]. rewrite Ei in Hn. unfold label. rewrite El.
    destruct (decide (n = id)) as [->|Hne]; [rewrite Hhere; by eauto|]. cbn in Hn. rewrite Hkey in Hn by done. pose proof (go_labels _ Hg n k Hn) as [x Hx]. unfold label in Hx.
    rewrite lookup_lt_is_Some, Hll. apply lookup_lt_Some in Hx. pose proof insert_slots. lia.
  - intros n f v. unfold getter. rewrite Ec. apply set_props_ok; [by apply columns_ok|done].
  - rewrite Es. apply Hgi.
  - intros n sym. unfold label. rewrite El, Es. destruct (decide (Z.to_nat n = Z.to_nat id)) as [->|Hne].
    + rewrite Hhere. intros [= <-]. right. by apply (sym_bound (ok := ids_ok) gi label_).
    + destruct (decide (sym = u32_max)) as [->|Hmx]; [by left|]. rewrite set_label_else by (done || apply insert_slots). intros Hl. by apply (go_label_syms _ Hgi n sym).
  - rewrite El, Hll, Ei. cbn. rewrite Hlen. unfold id. lia.
Qed.

End insert.

(** ** A field of a node *)

Lemma columns_changes g c id field : graph_ok g → field ≠ NS_PROP → (∀ m f, (m, f) ≠ (id, field) → c !! (m, f) = columns g !! (m, f)) → (∀ v, c !! (id, field) = Some v → number_ok v) →
  changes id (Some (field, getter g id field)) g (set_columns g c) ∧ graph_ok (set_columns g c).
Proof.
  intros Hg Hns Hc Hv. set (g1 := set_columns g c). assert (∀ def lbl m, member def lbl g m ↔ member def lbl g1 m) as Hm.
  { intros def lbl m. unfold member. assert (rule_sees def m g1 = rule_sees def m g) as -> by (unfold rule_sees; destruct (namespace def); [|done]; unfold getter, g1; cbn; rewrite Hc by congruence; done). done. }
  split; [split|].
  - intros m def lbl _. apply Hm.
  - done.
  - intros m f Hne. unfold getter, g1. cbn. rewrite Hc by congruence. done.
  - split; [intros def lbl; apply Hm|]. split; [done|]. split; [done|]. intros f Hf. unfold getter, g1. cbn. rewrite Hc by congruence. done.
  - done.
  - pose proof (columns_ok g Hg) as Hn. destruct Hg as [G1 G2 G3 G4 G5 G6]. split; try done. intros n f v. unfold getter, g1. cbn. destruct (decide ((n, f) = (id, field))) as [E|Hne]; [rewrite E; apply Hv|].
    rewrite Hc by done. apply Hn.
Qed.

(** ** A node that is gone *)

Lemma deleted_keys m s key n ids' : IdMap.rep hash m s → IdMap.live s !! key = Some n → IdMap.delete hash m key = Some (Some n, ids') →
  ids_ok ids' ∧ IdMap.len ids' = IdMap.len m ∧ DbApply.key_of ids' n = None ∧ ∀ n', n' ≠ n → DbApply.key_of ids' n' = DbApply.key_of m n'.
Proof.
  intros Hr Hk E. destruct (IdMap.rep_delete hash m s key Hr) as (m' & E' & Hr'). rewrite E in E'. injection E' as _ <-. unfold IdMap.spec_delete in Hr'. rewrite Hk in Hr'. cbn [snd] in Hr'.
  split; [by eexists|]. split; [unfold IdMap.len; by rewrite (IdMap.rep_len hash _ _ Hr'), (IdMap.rep_len hash _ _ Hr)|]. pose proof (IdMap.rep_sane _ _ _ Hr) as Hs.
  assert (∀ n' k, DbApply.key_of ids' n' = Some k ↔ k ≠ key ∧ IdMap.live s !! k = Some n') as Hl by (intros n' k; rewrite (key_of_live _ _ n' k Hr'); cbn; rewrite lookup_delete_Some; naive_solver).
  assert (∀ k, IdMap.live s !! k = Some n → k = key) as Hinj by (intros k Hk'; by eapply IdMap.sane_id_inj).
  split.
  - destruct (DbApply.key_of ids' n) as [k|] eqn:Ek; [|done]. apply Hl in Ek as [Hne Hk']. by apply Hinj in Hk'.
  - intros n' Hne. apply option_eq. intros k. rewrite Hl, (key_of_live _ _ n' k Hr). split; [tauto|]. intros Hk'. split; [|done]. intros ->. congruence.
Qed.

Lemma delete_removes g s key n ids' t ep : graph_ok g → IdMap.rep hash (ids g) s → IdMap.live s !! key = Some n → IdMap.delete hash (ids g) key = Some (Some n, ids') →
  let g' := mk_graph ids' (syms g) (<[Z.to_nat n := u32_max]> (labels g)) (remove_all (columns g) n) (base_topo g) t ep in removes n g g' ∧ graph_ok g'.
Proof.
  intros Hg Hr Hk E g'. destruct (deleted_keys (ids g) s key n ids' Hr Hk E) as (Hids & Hlen & Hgone & Hkey).
  assert (0 ≤ n) as Hn by (by apply (IdMap.sane_live _ (IdMap.rep_sane _ _ _ Hr)) in Hk as [? _]).
  assert (∀ m f, m ≠ n → getter g' m f = getter g m f) as Hget.
  { intros m f Hm. unfold getter, g'. cbn. apply option_eq. intros v. unfold remove_all. rewrite map_lookup_filter_Some. cbn. naive_solver. }
  assert (∀ i, i ≠ Z.to_nat n → <[Z.to_nat n := u32_max]> (labels g) !! i = labels g !! i) as Hlab by (intros i Hi; by apply list_lookup_insert_ne).
  split; [split|].
  - intros m def lbl Hm. unfold member. assert (rule_sees def m g' = rule_sees def m g) as -> by (unfold rule_sees; destruct (namespace def); [by rewrite Hget|done]).
    split; intros (H0 & Hl & Hs); (split; [done|]); (split; [|done]); unfold label, g' in *; cbn in *; [rewrite Hlab in Hl by lia|rewrite Hlab by lia]; done.
  - intros def lbl (_ & (sym & Hs & Hl) & _). unfold label, g' in *. cbn in *. destruct (sym_bound g lbl sym Hg Hs) as [_ Hne].
    destruct (labels g !! Z.to_nat n) as [x|] eqn:Ex; [|apply lookup_lt_Some in Hl; rewrite length_insert in Hl; apply lookup_ge_None in Ex; lia].
    rewrite list_lookup_insert_eq in Hl by (by apply lookup_lt_Some in Ex). congruence.
  - intros m Hm. cbn. by apply Hkey.
  - done.
  - done.
  - split; try (by apply Hg).
    + done.
    + intros n' k Hk'. cbn in Hk'. unfold label, g'. cbn. rewrite lookup_lt_is_Some, length_insert. destruct (decide (n' = n)) as [->|Hne]; [congruence|]. rewrite Hkey in Hk' by done.
      pose proof (go_labels _ Hg n' k Hk') as [x Hx]. by apply lookup_lt_Some in Hx.
    + intros n' f v. unfold getter, g'. cbn. unfold remove_all. rewrite map_lookup_filter_Some. intros [Hv _]. by eapply columns_ok.
    + intros n' sym. unfold label, g'. cbn. destruct (decide (Z.to_nat n' = Z.to_nat n)) as [En|Hne]; [|rewrite Hlab by done; apply (go_label_syms _ Hg)].
      rewrite En. intros Hl. left. destruct (decide (Z.to_nat n < length (labels g)))%nat as [Hlt|Hge]; [rewrite list_lookup_insert_eq in Hl by done; congruence|].
      apply lookup_lt_Some in Hl. rewrite length_insert in Hl. lia.
    + cbn. rewrite length_insert, Hlen. apply (go_slots _ Hg).
Qed.

End graph.
End DbGraph.
