(* ===== verification/DbDerived.v ===== *)
(** * The database: every record keeps the derived edges

    The engine, the key table and the edge store together: whatever record is applied,
    the graph afterwards holds the edges the user wrote and, for every rule, an edge
    for every pair that matches, and no other.  Proved for stores whose rules are
    between two nodes, without a cap of their own, answered by their index and within
    their budget; for records the commit path lets through. *)

From S2P Require Import Prelude Order Assoc Topology Csr TopologyView EdgeStore Interner HashIndex CowVec CowMap IdMap Types EdgeProps Float64 ValueOps Float64Ops RuleDef RuleCandidates RuleEngine RuleDesired RuleProvenance RuleMaintain RuleHook RuleLife RuleBackfill RuleRemove DbApply DbGraph.
Open Scope Z_scope.

Module DbDerived.
Import RuleDef RuleIndex RuleEngine RuleDesired RuleProvenance RuleMaintain RuleHook RuleLife RuleBackfill RuleRemove DbApply DbGraph.

Lemma list_to_set_size_le {A} `{Countable A} (l : list A) : (size (list_to_set l : gset A) ≤ length l)%nat.
Proof.
  induction l as [|x l IH]; cbn; [by rewrite size_empty|]. rewrite size_union_alt, size_singleton. pose proof (subseteq_size (list_to_set l ∖ {[x]} : gset A) (list_to_set l)) as Hs.
  specialize (Hs ltac:(set_solver)). lia.
Qed.

(** ** Checks *)

Definition number_check (v : Value.t) : bool := match v with Value.Int i => in_ib 64 i | Value.Float f => in_ub 64 f | _ => true end.
Lemma number_checked v : number_check v = true → number_ok v.
Proof. destruct v; cbn; try done; [apply in_ib_spec|apply in_ub_spec]. Qed.

Definition room_check (g : Graph) : bool := Z.of_nat (Interner.len (syms g)) + 1 <? u32_max.
Lemma room_checked g : room_check g = true → symbol_room g.
Proof. apply Z.ltb_lt. Qed.

Definition plain_check (def : RuleDef) : bool :=
  bool_decide (via_label def = None) && bool_decide (via_edge def = None) && bool_decide (max_edges def = None) && negb (uses_hnsw def) &&
  (predicate_contains_keymatch (predicate def) || indexable (predicate def) && (size (vector_fields (candidate_spec (predicate def))) <=? 1)%nat).
Lemma plain_checked def : plain_check def = true → plain def.
Proof.
  unfold plain_check. rewrite !andb_true_iff, orb_true_iff, andb_true_iff, !bool_decide_eq_true, negb_true_iff, Nat.leb_le. intros ((((? & ?) & ?) & ?) & Ha). split; [done|done|]. split; [done|].
  destruct Ha as [?|[? Hsz]]; [by left|right]. split; [done|]. destruct (set_choose_or_empty (vector_fields (candidate_spec (predicate def)))) as [[f Hf]|He]; [|exists EmptyString; set_solver].
  exists f. intros f' Hf'. apply elem_of_singleton. apply dec_stable. intros Hne.
  assert (size ({[f]} ∪ {[f']} : gset string) ≤ 1)%nat as Htwo by (etrans; [apply subseteq_size|exact Hsz]; set_solver). rewrite size_union, !size_singleton in Htwo by set_solver. lia.
Qed.

Section derived.
Context (hash : string → Z) (sin cos : Z → Z) (atan2 : Z → Z → Z).
#[local] Hint Extern 0 (NodeTable IdMap.t) => exact (idmap_table hash) : typeclass_instances.
#[local] Hint Extern 0 (NodeTableLaws IdMap.t _) => exact (idmap_laws hash) : typeclass_instances.

Abbreviation graph_ok := (graph_ok (ok := ids_ok hash)).
Abbreviation derives := (derives sin cos atan2).
Abbreviation coherent := (coherent_on (ok := ids_ok hash) sin cos atan2 (λ _, True)).
Abbreviation fits := (fits sin cos atan2).

(** ** Specification *)

(** The commit path's checks: a key not taken, numbers within their types, no write to
    the namespace, no delete of an edge a rule derives, a rule that validates; and a
    symbol or an id left where one is needed. *)
Definition admissible (rec : Record_) (db : Db) : Prop :=
  let g := graph db in
  match rec with
  | InsertNode _ key props => IdMap.get hash (ids g) key = None ∧ Forall (λ fv, number_ok fv.2) props ∧ Z.of_nat (IdMap.len (ids g)) < 2 ^ 32 ∧ symbol_room g
  | InsertEdge _ src_key dst_key => is_Some (IdMap.get hash (ids g) src_key) ∧ is_Some (IdMap.get hash (ids g) dst_key) ∧ symbol_room g
  | SetProp key field value => is_Some (IdMap.get hash (ids g) key) ∧ field ≠ NS_PROP ∧ number_ok value
  | RemoveProp _ field => field ≠ NS_PROP
  | DeleteEdge edge_type src_key dst_key =>
      ∀ et s d r def, Interner.get (syms g) edge_type = Some et → IdMap.get hash (ids g) src_key = Some s → IdMap.get hash (ids g) dst_key = Some d →
        rules (engine db) !! r = Some def → ¬ derives def g (et, s, d)
  | DeleteNode _ | DeleteRule _ | RebuildRule _ => True
  | CreateRule def => validate def = Ok () ∧ plain def ∧ symbol_room g ∧ rule_room (engine db) (name def)
  end.

(** The graph the rules are evaluated over. *)
Definition written (rec : Record_) (db : Db) : Graph :=
  let g := graph db in
  match rec with
  | InsertNode label key props =>
      match IdMap.try_insert hash (ids g) key with Some (Ok id, ids') => insert_node g ids' id label props | _ => g end
  | SetProp key field value => match IdMap.get hash (ids g) key with Some id => set_columns g (<[(id, field) := value]> (columns g)) | None => g end
  | RemoveProp key field => match IdMap.get hash (ids g) key with Some id => set_columns g (delete (id, field) (columns g)) | None => g end
  | CreateRule def => interned_in (edge_type def) g
  | _ => g
  end.

Definition rules_after (rec : Record_) (rs : gmap string RuleDef) : gmap string RuleDef :=
  match rec with
  | CreateRule def => if decide (is_Some (rs !! name def)) then rs else <[name def := def]> rs
  | DeleteRule r => delete r rs
  | _ => rs
  end.

(** Every rule's edges fit its budget once the record is written. *)
Definition fits_after (rec : Record_) (db : Db) : Prop :=
  ∀ r def, rules_after rec (rules (engine db)) !! r = Some def → fits def (written rec db).

(** What a reader of the edges sees. *)
Definition shows (g : Graph) (t : triple) : bool := TopologyView.has_edge (TopologyView.mk (topo g) (base_topo g) None) t.

(** The edges the user wrote: an edge inserted where there is none, unless deleted
    since, itself or with a node of it. *)
Definition user_after (rec : Record_) (db : Db) (U : gset triple) : gset triple :=
  let g := graph db in
  match rec with
  | InsertEdge edge_type src_key dst_key =>
      match IdMap.get hash (ids g) src_key, IdMap.get hash (ids g) dst_key with
      | Some s, Some d => let t := ((Interner.intern (syms g) edge_type).1, s, d) in if shows g t then U else {[t]} ∪ U
      | _, _ => U
      end
  | DeleteEdge edge_type src_key dst_key =>
      match IdMap.get hash (ids g) src_key, IdMap.get hash (ids g) dst_key, Interner.get (syms g) edge_type with
      | Some s, Some d, Some et => U ∖ {[ (et, s, d) ]}
      | _, _, _ => U
      end
  | DeleteNode key => match IdMap.get hash (ids g) key with Some n => apart n U | None => U end
  | _ => U
  end.

(** What a step is to establish. *)
Definition steps_to (r : option (result ApplyError Db)) (rs : gmap string RuleDef) (U : gset triple) : Prop :=
  ∃ db' P S, r = Some (Ok db') ∧ coherent (engine db') (graph db') P S U ∧ rules (engine db') = rs.

(** ** Nodes *)

Lemma changed_hook_steps n changed e g0 g P S U : coherent e g0 P S U → changes n changed g0 g → graph_ok g → 0 ≤ n → (∀ r def, rules e !! r = Some def → fits def g) → edges_are g S →
  steps_to (changed_hook hash sin cos atan2 n changed e g) (rules e) U.
Proof.
  intros Hc Hch Hg Hn Hfit He. destruct (hook_inner sin cos atan2 n changed g0 g e P S U Hc Hch Hg Hn Hfit He) as (e' & g' & P' & S' & E & Hc' & _ & Hru).
  exists (mk_db g' e'), P', S'. unfold changed_hook, on_node_changed. rewrite (no_chaining _ _ _ _ _ _ _ _ _ Hc), E. done.
Qed.

Lemma table_rep db P S U : coherent (engine db) (graph db) P S U → ∃ s, IdMap.rep hash (ids (graph db)) s ∧ ∀ key, IdMap.get hash (ids (graph db)) key = IdMap.live s !! key.
Proof. intros Hc. destruct (go_ids _ (co_graph _ _ _ _ _ _ _ _ _ Hc)) as [s Hs]. exists s. split; [done|]. intros key. by apply IdMap.rep_get. Qed.

Lemma insert_node_steps label key props db P S U : coherent (engine db) (graph db) P S U → admissible (InsertNode label key props) db → fits_after (InsertNode label key props) db →
  steps_to (apply_insert_node hash sin cos atan2 label key props db) (rules (engine db)) U.
Proof.
  intros Hc (Hk & Hp & Hlt & Hroom) Hfit. destruct (table_rep db P S U Hc) as (s & Hr & Hget). rewrite Hget in Hk. pose proof (co_graph _ _ _ _ _ _ _ _ _ Hc) as Hg.
  destruct (insert_fresh hash (ids (graph db)) s key Hr Hk Hlt) as [ids' E]. unfold apply_insert_node. rewrite E. cbn [mbind option_bind].
  unfold fits_after, written in Hfit. rewrite E in Hfit. cbn [rules_after] in Hfit.
  eapply changed_hook_steps; [exact Hc|by eapply insert_changes|by eapply insert_graph_ok|lia|exact Hfit|].
  unfold edges_are. destruct (insert_parts (graph db) label props ids') as (_ & _ & _ & _ & -> & ->). apply Hc.
Qed.

Lemma set_columns_steps key field db P S U c id : coherent (engine db) (graph db) P S U → field ≠ NS_PROP → IdMap.get hash (ids (graph db)) key = Some id →
  (∀ m f, (m, f) ≠ (id, field) → c !! (m, f) = columns (graph db) !! (m, f)) → (∀ v, c !! (id, field) = Some v → number_ok v) →
  (∀ r def, rules (engine db) !! r = Some def → fits def (set_columns (graph db) c)) →
  steps_to (changed_hook hash sin cos atan2 id (Some (field, getter (graph db) id field)) (engine db) (set_columns (graph db) c)) (rules (engine db)) U.
Proof.
  intros Hc Hns Hk Hoth Hv Hfit. destruct (table_rep db P S U Hc) as (s & Hr & Hget). rewrite Hget in Hk. apply (IdMap.sane_live _ (IdMap.rep_sane _ _ _ Hr)) in Hk as [Hn _].
  destruct (columns_changes hash (graph db) c id field (co_graph _ _ _ _ _ _ _ _ _ Hc) Hns Hoth Hv) as [Hch Hg]. eapply changed_hook_steps; try done. apply Hc.
Qed.

Lemma set_prop_steps key field value db P S U : coherent (engine db) (graph db) P S U → admissible (SetProp key field value) db → fits_after (SetProp key field value) db →
  steps_to (apply_set_prop hash sin cos atan2 key field value db) (rules (engine db)) U.
Proof.
  intros Hc ([id Hk] & Hns & Hv) Hfit. unfold fits_after, written in Hfit. unfold apply_set_prop. rewrite Hk in *. eapply set_columns_steps; try done.
  - intros m f Hne. by rewrite lookup_insert_ne.
  - intros v. rewrite lookup_insert_eq. by intros [= <-].
Qed.

Lemma steps_stay db P S U : coherent (engine db) (graph db) P S U → steps_to (Some (Ok db)) (rules (engine db)) U.
Proof. intros Hc. by exists db, P, S. Qed.

Lemma remove_prop_steps key field db P S U : coherent (engine db) (graph db) P S U → admissible (RemoveProp key field) db → fits_after (RemoveProp key field) db →
  steps_to (apply_remove_prop hash sin cos atan2 key field db) (rules (engine db)) U.
Proof.
  intros Hc Hns Hfit. unfold fits_after, written in Hfit. unfold apply_remove_prop. destruct (IdMap.get hash (ids (graph db)) key) as [id|] eqn:Hk; [|by eapply steps_stay].
  eapply set_columns_steps; try done.
  - intros m f Hne. by rewrite lookup_delete_ne.
  - intros v. by rewrite lookup_delete_eq.
Qed.

Lemma delete_node_steps key db P S U : coherent (engine db) (graph db) P S U →
  steps_to (apply_delete_node hash sin cos atan2 key db) (rules (engine db)) (user_after (DeleteNode key) db U).
Proof.
  intros Hc. unfold apply_delete_node, user_after. destruct (table_rep db P S U Hc) as (s & Hr & Hget). rewrite Hget. destruct (IdMap.live s !! key) as [n|] eqn:Hk; [|by eapply steps_stay].
  destruct (on_node_removed_spec sin cos atan2 n _ _ P S U Hc) as (e' & g1 & -> & Hl). cbn [mbind option_bind]. pose proof (lg_reads _ _ _ _ _ _ _ Hl) as Hrd.
  assert (ids g1 = ids (graph db) ∧ syms g1 = syms (graph db) ∧ labels g1 = labels (graph db) ∧ columns g1 = columns (graph db)) as (Ei & Es & El & Ec) by (destruct g1, (graph db); cbn in *; by simplify_eq).
  assert (base_topo g1 = base_topo (graph db)) as Eb by (destruct g1, (graph db); cbn in *; by simplify_eq).
  destruct (lg_edges _ _ _ _ _ _ _ Hl) as (S' & HS' & HS). destruct (EdgeStore.db_sweep_node_holds (base_topo g1) (topo g1) S' n HS') as (t & -> & Ht). cbn [mbind option_bind].
  destruct (IdMap.rep_delete hash (ids (graph db)) s key Hr) as (ids' & E & _). unfold IdMap.spec_delete in E. rewrite Hk in E. cbn [fst] in E. rewrite Ei, E. cbn [mbind option_bind].
  rewrite Es, El, Ec. rewrite Eb in *. set (ep := foldl _ _ _). destruct (delete_removes hash (graph db) s key n ids' t ep (co_graph _ _ _ _ _ _ _ _ _ Hc) Hr Hk E) as [Hrm Hg'].
  eexists _, _, _. split; [reflexivity|]. split; [|apply Hl]. eapply removed_coherent; [exact Hc|exact Hl|exact Hrm|exact Hg'|].
  unfold edges_are. cbn [base_topo topo]. replace (apart n S) with (filter (λ e, ¬ EdgeStore.incident n e) S'); [done|].
  apply set_eq. intros x. rewrite elem_of_filter, elem_of_apart, HS. unfold EdgeStore.incident, touches. tauto.
Qed.

(** ** Edges *)

Lemma coherent_widens e g g' P S U : coherent e g P S U → widens (ok := ids_ok hash) g g' → coherent e g' P S U.
Proof.
  intros [H1 H2 H3 H3d H4 H5 H6 H7] Hw. assert (∀ r def t, rules e !! r = Some def → derives def g' t ↔ derives def g t) as Hd by (intros r def t Hdef; eapply widens_derives; [done|by apply (H4 r)]).
  split; try done.
  - apply Hw.
  - destruct H2 as [B1 B2 B3 B4]. split; try done. pose proof (wi_rest _ _ Hw) as E. destruct g, g'. cbn in *. by simplify_eq.
  - intros r def Hdef. destruct (H4 r def Hdef) as [? [x Hx]]. split; [done|]. exists x. by apply Hw.
  - intros r def t Hdef Ht. apply (Hd r); [done|]. by eapply H5.
  - intros r def t _ Hdef Ht%(Hd r def t Hdef). by eapply (H6 r).
  - intros r def Hdef. destruct (H7 r def Hdef) as (ix & ? & ?). exists ix. split; [done|]. by eapply widens_index.
Qed.

Lemma coherent_edited e g g' P S U S' U' : coherent e g P S U → reads g' = reads g → edges_are g' S' → (∀ t, t ∈ S' ↔ t ∈ U' ∨ ∃ r, t ∈ P r) → (∀ r t, t ∈ U' → t ∉ P r) →
  (∀ r def t, rules e !! r = Some def → derives def g t → t ∈ S') → coherent e g' P S' U'.
Proof.
  intros [H1 H2 H3 H3d H4 H5 H6 H7] Hr He Hp Hf Hc.
  assert (∀ d t, derives d g' t ↔ derives d g t) as Hd by (intros d t; unfold RuleHook.derives; by rewrite (reads_syms g g' Hr), (reads_desired sin cos atan2 g g' Hr)).
  split; try done.
  - by eapply reads_graph.
  - by destruct H2.
  - intros r def Hdef. rewrite (reads_syms g g' Hr). by apply (H4 r).
  - intros r def t Hdef Ht. apply Hd. by eapply H5.
  - intros r def t _ Hdef Ht%Hd. by eapply (Hc r).
  - intros r def Hdef. destruct (H7 r def Hdef) as (ix & ? & ?). exists ix. split; [done|]. by eapply reads_index.
Qed.

Lemma edge_hook_steps e g P S U : coherent e g P S U → steps_to (edge_hook e g) (rules e) U.
Proof.
  intros Hc. unfold edge_hook. rewrite (no_chaining _ _ _ _ _ _ _ _ _ Hc). eexists _, P, S. split; [reflexivity|]. split; [|done]. eapply coherent_fields, Hc; [done|done|]. cbn. symmetry. apply Hc.
Qed.

Lemma insert_edge_steps edge src_key dst_key db P S U : coherent (engine db) (graph db) P S U → admissible (InsertEdge edge src_key dst_key) db →
  steps_to (apply_insert_edge hash edge src_key dst_key db) (rules (engine db)) (user_after (InsertEdge edge src_key dst_key) db U).
Proof.
  intros Hc ([s Hs] & [d Hd] & Hroom). unfold apply_insert_edge, user_after. rewrite Hs, Hd.
  destruct (interned_widens edge (graph db) (co_graph _ _ _ _ _ _ _ _ _ Hc) Hroom) as [_ Hw]. unfold interned_in in Hw. destruct (Interner.intern (syms (graph db)) edge) as [et sy]. cbn [fst snd] in *.
  set (g1 := with_syms (graph db) sy) in *. pose proof (coherent_widens _ _ _ _ _ _ Hc Hw) as Hc1. pose proof (bk_edges _ _ _ _ _ (co_books _ _ _ _ _ _ _ _ _ Hc1)) as He.
  destruct (EdgeStore.replay_insert_edge_holds (base_topo g1) (topo g1) S et s d He) as (t & Et & Ht). unfold EdgeStore.replay_insert_edge in Et.
  assert ((if shows (graph db) (et, s, d) then U else {[ (et, s, d) ]} ∪ U) = U ∪ {[ (et, s, d) ]} ∖ S) as ->.
  { unfold shows. rewrite (EdgeStore.holds_has_edge (base_topo (graph db)) (topo (graph db)) S (et, s, d) He). destruct (bool_decide_reflect ((et, s, d) ∈ S)) as [Hb|Hb]; apply set_eq; intros x; split.
    - by apply elem_of_union_l.
    - intros [?|[->%elem_of_singleton ?]%elem_of_difference]%elem_of_union; done.
    - intros [->%elem_of_singleton|?]%elem_of_union; [|by apply elem_of_union_l]. apply elem_of_union_r, elem_of_difference. split; [by apply elem_of_singleton|done].
    - intros [?|[? ?]%elem_of_difference]%elem_of_union; [by apply elem_of_union_r|by apply elem_of_union_l]. }
  assert (∀ g', reads g' = reads g1 → edges_are g' ({[ (et, s, d) ]} ∪ S) → coherent (engine db) g' P ({[ (et, s, d) ]} ∪ S) (U ∪ {[ (et, s, d) ]} ∖ S)) as Hadd.
  { intros g' Hr Hg'. destruct (co_books _ _ _ _ _ _ _ _ _ Hc1) as [B1 B2 B3 B4]. eapply coherent_edited; [exact Hc1|done|done|..].
    - intros x. rewrite !elem_of_union, elem_of_difference, elem_of_singleton, B3. destruct (decide (x ∈ S)) as [Hx|Hx]; rewrite B3 in Hx; tauto.
    - intros r x [Hx|[_ Hx]%elem_of_difference]%elem_of_union; [by apply B4|]. intros HP. apply Hx, B3. eauto.
    - intros r def x Hdef Hx. apply elem_of_union_r. by eapply (co_complete _ _ _ _ _ _ _ _ _ Hc1 r). }
  destruct (bool_decide (is_Some (base_topo g1)) && TopologyView.has_edge _ _) eqn:Eb.
  - injection Et as <-. exists (mk_db g1 (engine db)), P, ({[ (et, s, d) ]} ∪ S). split; [done|]. split; [|done]. by apply Hadd.
  - change (topo (with_topo g1 t)) with t. rewrite Et. cbn [mbind option_bind]. eapply edge_hook_steps. by apply (Hadd (with_topo g1 t)).
Qed.

Lemma delete_edge_steps edge src_key dst_key db P S U : coherent (engine db) (graph db) P S U → admissible (DeleteEdge edge src_key dst_key) db →
  steps_to (apply_delete_edge hash edge src_key dst_key db) (rules (engine db)) (user_after (DeleteEdge edge src_key dst_key) db U).
Proof.
  intros Hc Hno. unfold apply_delete_edge, user_after. cbn [admissible] in Hno. destruct (IdMap.get hash (ids (graph db)) src_key) as [s|] eqn:Es; [|by eapply steps_stay].
  destruct (IdMap.get hash (ids (graph db)) dst_key) as [d|] eqn:Ed; [|by eapply steps_stay]. destruct (Interner.get (syms (graph db)) edge) as [et|] eqn:Eet; [|by eapply steps_stay].
  assert (∀ r def, rules (engine db) !! r = Some def → ¬ derives def (graph db) (et, s, d)) as Hnd by (intros r def; by eapply Hno). set (g := graph db) in *.
  pose proof (co_books _ _ _ _ _ _ _ _ _ Hc) as [B1 B2 B3 B4]. destruct (EdgeStore.replay_delete_edge_holds (base_topo g) (topo g) S et s d B2) as (t & Et & Ht). unfold EdgeStore.replay_delete_edge in Et.
  assert (∀ r, (et, s, d) ∉ P r) as HnP. { intros r Ht'. pose proof (eo_owner _ _ B1 r _ Ht') as [def Hdef]%elem_of_dom. eapply (Hnd r def Hdef). by eapply (co_sound _ _ _ _ _ _ _ _ _ Hc). }
  assert (∀ g', reads g' = reads g → edges_are g' (S ∖ {[ (et, s, d) ]}) → coherent (engine db) g' P (S ∖ {[ (et, s, d) ]}) (U ∖ {[ (et, s, d) ]})) as Hdel.
  { intros g' Hr Hg'. eapply coherent_edited; [exact Hc|done|done|..].
    - intros x. rewrite !elem_of_difference, elem_of_singleton, B3. split; [tauto|]. intros [?|[r Hx]]; [tauto|]. split; [eauto|]. intros ->. by eapply HnP.
    - intros r x [Hx _]%elem_of_difference. by apply B4.
    - intros r def x Hdef Hx. apply elem_of_difference. split; [by eapply (co_complete _ _ _ _ _ _ _ _ _ Hc r)|]. intros ->%elem_of_singleton. by eapply Hnd. }
  destruct (bool_decide (is_Some (base_topo g)) && negb (TopologyView.has_edge _ _)) eqn:Eb.
  - injection Et as <-. exists db, P, (S ∖ {[ (et, s, d) ]}). split; [done|]. split; [|done]. by apply Hdel.
  - rewrite Et. cbn [mbind option_bind]. eapply edge_hook_steps. by apply Hdel.
Qed.

(** ** Rules *)

Lemma create_rule_steps def db P S U : coherent (engine db) (graph db) P S U → admissible (CreateRule def) db → fits_after (CreateRule def) db →
  steps_to (apply_create_rule hash sin cos atan2 def db) (rules_after (CreateRule def) (rules (engine db))) U.
Proof.
  intros Hc (Hv & Hpl & Hroom & Hrr) Hfit. unfold apply_create_rule, fits_after in *. cbn [rules_after written] in *. case_decide as Hin; [by eapply steps_stay|].
  assert (rules (engine db) !! name def = None) as Hn by (destruct (rules (engine db) !! name def); [destruct Hin; by eauto|done]).
  destruct (create_rule_spec sin cos atan2 def (engine db) (graph db) P S U Hc Hv Hn Hpl) as (e' & g' & P' & S' & -> & Hc' & _ & Hru); [apply (Hfit (name def)); by rewrite lookup_insert_eq|done|done|].
  by exists (mk_db g' e'), P', S'.
Qed.

Lemma delete_rule_steps r db P S U : coherent (engine db) (graph db) P S U → fits_after (DeleteRule r) db →
  steps_to (apply_delete_rule hash sin cos atan2 r db) (rules_after (DeleteRule r) (rules (engine db))) U.
Proof.
  intros Hc Hfit. unfold apply_delete_rule. cbn [rules_after]. case_decide as Hin.
  - destruct Hin as [def Hdef]. destruct (delete_rule_spec sin cos atan2 r def (engine db) (graph db) P S U Hc Hdef Hfit) as (e' & g' & P' & S' & -> & Hc' & _ & Hru). by exists (mk_db g' e'), P', S'.
  - rewrite delete_id; [by eapply steps_stay|]. destruct (rules (engine db) !! r); [destruct Hin; by eauto|done].
Qed.

Lemma rebuild_rule_steps r db P S U : coherent (engine db) (graph db) P S U → fits_after (RebuildRule r) db →
  steps_to (apply_rebuild_rule hash sin cos atan2 r db) (rules (engine db)) U.
Proof.
  intros Hc Hfit. unfold apply_rebuild_rule. case_decide as Hin; [|by eapply steps_stay]. destruct Hin as [def Hdef]. unfold rebuild. rewrite (no_chaining _ _ _ _ _ _ _ _ _ Hc).
  destruct (rebuild_inner_spec sin cos atan2 _ r def (engine db) (graph db) P S U Hc Hdef (Hfit r def Hdef)) as (e' & g' & P' & S' & -> & Hc' & _ & Hru).
  exists (mk_db g' e'), P', S'. split; [done|]. split; [|done]. eapply coherent_weaken, Hc'. intros r' _ _. by left.
Qed.

(** ** All records *)

Lemma apply_steps rec db P S U : coherent (engine db) (graph db) P S U → admissible rec db → fits_after rec db →
  steps_to (apply hash sin cos atan2 rec db) (rules_after rec (rules (engine db))) (user_after rec db U).
Proof.
  destruct rec; intros Hc Ha Hf; cbn [apply].
  - by eapply insert_node_steps.
  - by eapply insert_edge_steps.
  - by eapply set_prop_steps.
  - by eapply remove_prop_steps.
  - by eapply delete_edge_steps.
  - by eapply delete_node_steps.
  - by eapply create_rule_steps.
  - by eapply delete_rule_steps.
  - by eapply rebuild_rule_steps.
Qed.

Lemma new_db_coherent : coherent (engine new_db) (graph new_db) (λ _, ∅) ∅ ∅.
Proof.
  split; cbn; try done.
  - split; cbn; try done.
    + exists IdMap.spec_new. apply IdMap.new_idmap_rep.
    + intros n k Hk. apply (key_of_live hash _ _ n k (IdMap.new_idmap_rep hash)) in Hk. cbn in Hk. by rewrite lookup_empty in Hk.
    + exists []. split; [apply Interner.new_interner_rep|done].
  - split; cbn; [|apply EdgeStore.empty_holds|set_solver|set_solver]. split; cbn; try done. split; cbn; try set_solver.
    split; [|apply NoDup_nil_2]. intros r rid. rewrite lookup_empty. split; [done|]. by intros (i & ? & _).
Qed.

(** The records one after another, each admissible where it is applied. *)
Fixpoint admissible_run (recs : list Record_) (db : Db) : Prop :=
  match recs with
  | [] => True
  | rec :: recs => admissible rec db ∧ fits_after rec db ∧ match apply hash sin cos atan2 rec db with Some (Ok db') => admissible_run recs db' | _ => True end
  end.

Fixpoint user_run (recs : list Record_) (db : Db) (U : gset triple) : gset triple :=
  match recs with
  | [] => U
  | rec :: recs => match apply hash sin cos atan2 rec db with Some (Ok db') => user_run recs db' (user_after rec db U) | _ => U end
  end.

Lemma run_coherent recs : ∀ db P S U, coherent (engine db) (graph db) P S U → admissible_run recs db →
  ∃ db' P' S', apply_batch hash sin cos atan2 recs db = Some (Ok db') ∧ coherent (engine db') (graph db') P' S' (user_run recs db U).
Proof.
  induction recs as [|rec recs IH]; intros db P S U Hc Ha; cbn [apply_batch user_run admissible_run] in *; [by exists db, P, S|].
  destruct Ha as (Ha & Hf & Hrest). destruct (apply_steps rec db P S U Hc Ha Hf) as (db1 & P1 & S1 & E & Hc1 & _). rewrite E in *. cbn [mbind option_bind]. by eapply IH.
Qed.

(** What a reader sees of a coherent graph. *)
Lemma coherent_shows e g P S U t : coherent e g P S U → shows g t = true ↔ t ∈ U ∨ ∃ r def, rules e !! r = Some def ∧ derives def g t.
Proof.
  intros Hc. unfold shows. rewrite (EdgeStore.holds_has_edge _ _ S t (bk_edges _ _ _ _ _ (co_books _ _ _ _ _ _ _ _ _ Hc))), bool_decide_eq_true.
  by apply (coherent_edges sin cos atan2 e g P S U Hc).
Qed.

(** Few nodes fit any budget a rule has of its own accord. *)
Lemma few_fit def (g : Graph) : graph_ok g → max_edges def = None → Z.of_nat (node_count (ids g)) ≤ 1000 → fits def g.
Proof.
  intros Hg Hcap Hn X HX. unfold edge_budget. rewrite Hcap. cbn. set (N := node_count (ids g)) in *. set (ns := seqZ 0 (Z.of_nat N)).
  destruct (decide (X = ∅)) as [->|Hne]; [rewrite size_empty; unfold DEFAULT_MAX_EDGES; lia|]. apply set_choose_L in Hne as [t0 Ht0]. pose proof (HX t0 Ht0) as [Het0 _]. set (et := t0.1.1) in *.
  assert (X ⊆ list_to_set (p ← ns; (λ d, (et, p, d)) <$> ns)) as Hsub.
  { intros [[e s] d] Ht. destruct (HX _ Ht) as [Het [x (_ & _ & _ & ks & kd & Hks & Hkd & _)%desired_inv]]. cbn [fst snd] in *. assert (e = et) as -> by congruence.
    apply (node_key_bound (ok := ids_ok hash)) in Hks; [|apply Hg]. apply (node_key_bound (ok := ids_ok hash)) in Hkd; [|apply Hg].
    apply elem_of_list_to_set, list_elem_of_bind. exists s. split; [|apply elem_of_seqZ; lia]. apply list_elem_of_fmap. exists d. split; [done|]. apply elem_of_seqZ; lia. }
  apply subseteq_size in Hsub. assert (∀ l : list Z, length (p ← l; (λ d, (et, p, d)) <$> ns) = length l * length ns)%nat as Hlen.
  { intros l. induction l as [|a l IH]; cbn; [done|]. rewrite length_app, length_fmap. cbn in IH. by rewrite IH. }
  specialize (Hlen ns).
  assert (length ns = N) as Hns by (unfold ns; rewrite length_seqZ; lia). pose proof (list_to_set_size_le (p ← ns; (λ d, (et, p, d)) <$> ns)) as Hle. unfold DEFAULT_MAX_EDGES. nia.
Qed.

Lemma written_ok rec db P S U : coherent (engine db) (graph db) P S U → admissible rec db → graph_ok (written rec db).
Proof.
  intros Hc Ha. pose proof (co_graph _ _ _ _ _ _ _ _ _ Hc) as Hg. destruct (table_rep db P S U Hc) as (s & Hr & Hget). destruct rec as [lbl key props| |key field value|key field| | |def| |]; cbn [written admissible] in *; try done.
  - destruct Ha as (Hk & Hp & Hlt & Hroom). rewrite Hget in Hk. destruct (insert_fresh hash _ s key Hr Hk Hlt) as [ids' E]. rewrite E. by eapply insert_graph_ok.
  - destruct Ha as ([id Hk] & Hns & Hv). rewrite Hk. apply (columns_changes hash (graph db) _ id field Hg Hns).
    + intros m f Hne. by rewrite lookup_insert_ne.
    + intros v. rewrite lookup_insert_eq. by intros [= <-].
  - destruct (IdMap.get hash (ids (graph db)) key) as [id|]; [|done]. apply (columns_changes hash (graph db) _ id field Hg Ha).
    + intros m f Hne. by rewrite lookup_delete_ne.
    + intros v. by rewrite lookup_delete_eq.
  - destruct Ha as (_ & _ & Hroom & _). by apply (interned_widens (edge_type def) (graph db) Hg Hroom).
Qed.

Lemma few_nodes_fit rec db P S U : coherent (engine db) (graph db) P S U → admissible rec db → Z.of_nat (IdMap.len (ids (written rec db))) ≤ 1000 → fits_after rec db.
Proof.
  intros Hc Ha Hn r def Hdef. apply few_fit; [by eapply written_ok|..|done].
  assert (∀ r d, rules (engine db) !! r = Some d → max_edges d = None) as Hcap by (intros r' d Hd; by apply (pl_cap _ (proj1 (co_rules _ _ _ _ _ _ _ _ _ Hc r' d Hd)))).
  destruct rec as [| | | | | |d|r0|]; cbn [rules_after] in Hdef; try by eapply Hcap.
  - case_decide; [by eapply Hcap|]. destruct (decide (r = name d)) as [->|]; [rewrite lookup_insert_eq in Hdef; injection Hdef as <-; by apply Ha|]. rewrite lookup_insert_ne in Hdef by done. by eapply Hcap.
  - apply lookup_delete_Some in Hdef as [_ Hdef]. by eapply Hcap.
Qed.

(** A run over few nodes. *)
Fixpoint small_run (recs : list Record_) (db : Db) : Prop :=
  match recs with
  | [] => True
  | rec :: recs => admissible rec db ∧ Z.of_nat (IdMap.len (ids (written rec db))) ≤ 1000 ∧ match apply hash sin cos atan2 rec db with Some (Ok db') => small_run recs db' | _ => True end
  end.

Lemma small_admissible recs : ∀ db P S U, coherent (engine db) (graph db) P S U → small_run recs db → admissible_run recs db.
Proof.
  induction recs as [|rec recs IH]; intros db P S U Hc Ha; cbn [small_run admissible_run] in *; [done|]. destruct Ha as (Ha & Hn & Hrest).
  pose proof (few_nodes_fit rec db P S U Hc Ha Hn) as Hf. split; [done|]. split; [done|]. destruct (apply_steps rec db P S U Hc Ha Hf) as (db1 & P1 & S1 & E & Hc1 & _). rewrite E in *. by eapply IH.
Qed.

(** The same, computed; a deleted edge is left out. *)
Definition admissible_check (rec : Record_) (db : Db) : bool :=
  let g := graph db in
  match rec with
  | InsertNode _ key props =>
      bool_decide (IdMap.get hash (ids g) key = None) && forallb (λ fv, number_check fv.2) props && (Z.of_nat (IdMap.len (ids g)) <? 2 ^ 32) && room_check g
  | InsertEdge _ src_key dst_key => bool_decide (is_Some (IdMap.get hash (ids g) src_key)) && bool_decide (is_Some (IdMap.get hash (ids g) dst_key)) && room_check g
  | SetProp key field value => bool_decide (is_Some (IdMap.get hash (ids g) key)) && bool_decide (field ≠ NS_PROP) && number_check value
  | RemoveProp _ field => bool_decide (field ≠ NS_PROP)
  | DeleteEdge _ _ _ => false
  | DeleteNode _ | DeleteRule _ | RebuildRule _ => true
  | CreateRule def => match validate def with Ok _ => true | Err _ => false end && plain_check def && room_check g
      && (Z.of_nat (size ({[name def]} ∪ dom (rules (engine db)) ∪ list_to_set (e_intern_names (engine db)))) <=? 2 ^ 32)
  end.

Fixpoint small_check (recs : list Record_) (db : Db) : bool :=
  match recs with
  | [] => true
  | rec :: recs => admissible_check rec db && (Z.of_nat (IdMap.len (ids (written rec db))) <=? 1000)
      && match apply hash sin cos atan2 rec db with Some (Ok db') => small_check recs db' | _ => true end
  end.

Lemma admissible_checked rec db : admissible_check rec db = true → admissible rec db.
Proof.
  destruct rec; cbn [admissible_check admissible]; rewrite ?andb_true_iff, ?bool_decide_eq_true; try done.
  - intros (((? & Hp) & ?%Z.ltb_lt) & ?%room_checked). split; [done|]. split; [|done]. apply Forall_forall. intros fv Hfv. rewrite forallb_forall in Hp.
    by apply number_checked, Hp, list_elem_of_In.
  - intros ((? & ?) & ?%room_checked). done.
  - intros ((? & ?) & ?%number_checked). done.
  - destruct (validate def) as [[]|]; [|by intros (((? & _) & _) & _)]. intros (((_ & ?%plain_checked) & ?%room_checked) & ?%Z.leb_le). done.
Qed.

Lemma small_run_check recs : ∀ db, small_check recs db = true → small_run recs db.
Proof.
  induction recs as [|rec recs IH]; intros db; cbn [small_check small_run]; [done|]. rewrite !andb_true_iff. intros ((Ha%admissible_checked & Hn%Z.leb_le) & Hr).
  split; [done|]. split; [done|]. destruct (apply hash sin cos atan2 rec db) as [[db'|]|]; [by apply IH|done|done].
Qed.

End derived.

(** ** Claims *)

(** C2: from an empty store, after any sequence of node, edge, property and rule writes
    the commit path lets through, applied in order without a failure, a reader sees an
    edge exactly when the user wrote it (and did not delete it or a node of it since)
    or some rule there is derives it from the nodes as they are now.  For rules between
    two nodes that have no cap, that their index answers, and whose edges fit the
    default budget. *)
Theorem derived_edges_exact (hash : string → Z) (sin cos : Z → Z) (atan2 : Z → Z → Z) (recs : list Record_) :
  admissible_run hash sin cos atan2 recs new_db →
  ∃ db, apply_batch hash sin cos atan2 recs new_db = Some (Ok db) ∧
    ∀ t, shows (graph db) t = true ↔
      t ∈ user_run hash sin cos atan2 recs new_db ∅ ∨ ∃ r def, rules (engine db) !! r = Some def ∧ derives (H := idmap_table hash) sin cos atan2 def (graph db) t.
Proof.
  intros Ha. destruct (run_coherent hash sin cos atan2 recs new_db _ _ ∅ (new_db_coherent hash sin cos atan2) Ha) as (db & P & S & E & Hc). exists db. split; [done|].
  intros t. by eapply coherent_shows.
Qed.

(** A rule by foreign key, and the edges it derives as its field changes. *)
Definition works_for : RuleDef := mk_rule "boss" "Person" "Person" (KeyMatch "boss") "WORKS_FOR" None None false None None None None.
Definition sample : list Record_ :=
  [CreateRule works_for; InsertNode "Person" "ada" [("boss"%string, Value.Str "bob")]; InsertNode "Person" "bob" []; InsertNode "Person" "cyd" [];
   SetProp "ada" "boss" (Value.Str "cyd"); InsertEdge "WORKS_FOR" "bob" "cyd"; DeleteNode "bob"; RebuildRule "boss"; RemoveProp "cyd" "boss"; DeleteRule "none"].

Lemma derived_edges_exact_witness :
  ∃ db, apply_batch (λ s, Z.of_nat (String.length s)) (λ _, 0) (λ _, 0) (λ _ _, 0) sample new_db = Some (Ok db) ∧
    ∀ t, shows (graph db) t = true ↔
      t ∈ user_run (λ s, Z.of_nat (String.length s)) (λ _, 0) (λ _, 0) (λ _ _, 0) sample new_db ∅ ∨
      ∃ r def, rules (engine db) !! r = Some def ∧ derives (H := idmap_table (λ s, Z.of_nat (String.length s))) (λ _, 0) (λ _, 0) (λ _ _, 0) def (graph db) t.
Proof.
  apply derived_edges_exact. eapply small_admissible; [apply new_db_coherent|]. apply small_run_check. vm_compute. reflexivity.
Defined.

(** C5: after any such sequence of writes every rule has an index, and what the engine
    computes through it as the edges of a node on a side of the rule is what evaluating
    the predicate on every pair of the node gives: the same pairs, with the same
    scores.  The index leaves out no pair that matches. *)
Theorem index_answers_exact (hash : string → Z) (sin cos : Z → Z) (atan2 : Z → Z → Z) (recs : list Record_) :
  admissible_run hash sin cos atan2 recs new_db →
  ∃ db, apply_batch hash sin cos atan2 recs new_db = Some (Ok db) ∧
    ∀ r def, rules (engine db) !! r = Some def → ∃ ix, indexes (engine db) !! r = Some ix ∧
      ∀ n (on_src_side : bool) p score,
        alookup p (compute_desired (H := idmap_table hash) sin cos atan2 def ix n on_src_side (graph db)) = Some score ↔
        (if on_src_side then p.1 else p.2) = n ∧ desired (H := idmap_table hash) sin cos atan2 def (graph db) p.1 p.2 = Some score.
Proof.
  intros Ha. destruct (run_coherent hash sin cos atan2 recs new_db _ _ ∅ (new_db_coherent hash sin cos atan2) Ha) as (db & P & S & E & Hc). exists db. split; [done|].
  intros r def Hdef. destruct (co_index _ _ _ _ _ _ _ _ _ Hc r def Hdef) as (ix & Hix & Hok). exists ix. split; [done|]. intros n b. destruct (co_rules _ _ _ _ _ _ _ _ _ Hc r def Hdef) as [[_ _ Hans] _].
  apply (compute_desired_spec (laws := idmap_laws hash) sin cos atan2 def ix n b (graph db) (co_graph _ _ _ _ _ _ _ _ _ Hc) Hok Hans).
Qed.

Lemma index_answers_exact_witness :
  ∃ db, apply_batch (λ s, Z.of_nat (String.length s)) (λ _, 0) (λ _, 0) (λ _ _, 0) sample new_db = Some (Ok db) ∧
    ∀ r def, rules (engine db) !! r = Some def → ∃ ix, indexes (engine db) !! r = Some ix ∧
      ∀ n (on_src_side : bool) p score,
        alookup p (compute_desired (H := idmap_table (λ s, Z.of_nat (String.length s))) (λ _, 0) (λ _, 0) (λ _ _, 0) def ix n on_src_side (graph db)) = Some score ↔
        (if on_src_side then p.1 else p.2) = n ∧ desired (H := idmap_table (λ s, Z.of_nat (String.length s))) (λ _, 0) (λ _, 0) (λ _ _, 0) def (graph db) p.1 p.2 = Some score.
Proof.
  apply index_answers_exact. eapply small_admissible; [apply new_db_coherent|]. apply small_run_check. vm_compute. reflexivity.
Defined.

End DbDerived.
