(* ===== verification/RuleTopK.v ===== *)
(** * Rules: a source's best destinations

    A rule with a cap keeps, per source, the [k] best of the destinations that match:
    the highest scores in [f64]'s total order, ties broken by the destination's key. *)

From S2P Require Import Prelude Order Assoc Interner IdMap Types Float64 ValueOps Float64Ops RuleDef RuleCandidates RuleEngine DbApply.
Open Scope Z_scope.

Module RuleTopK.
Import RuleEngine.

Section top_k.
Context {I : Type} `{NodeTable I}.
Abbreviation GraphMut := (@GraphMut I).

(** What [better] compares. *)
Definition rank (g : GraphMut) (x : (Z * Z) * Z) : Z * string := (- F64.total_bits x.2, default EmptyString (node_key (ids g) x.1.2)).

Lemma better_rank g a b : better g a b = cmp (rank g a) (rank g b).
Proof.
  unfold better, rank, F64.total_cmp. unfold cmp at 2, prod_ord, then_cmp. cbn [fst snd]. unfold cmp at 2, Z_ord.
  rewrite Z.compare_opp. by destruct (_ ?= _).
Qed.

#[export] Instance no_worse_total (g : GraphMut) : Total (no_worse g).
Proof.
  intros a b. unfold no_worse. rewrite !better_rank, (cmp_antisym (rank g a) (rank g b)). destruct (cmp (rank g a) (rank g b)); [left|left|right]; done.
Qed.

#[export] Instance no_worse_trans (g : GraphMut) : Transitive (no_worse g).
Proof.
  intros a b c. unfold no_worse. rewrite !better_rank. generalize (rank g a), (rank g b), (rank g c). intros x y z Hxy Hyz Hxz.
  assert (cmp z x = Lt) as Hzx by (rewrite cmp_antisym, Hxz; done). destruct (cmp x y) eqn:Exy; [apply cmp_eq in Exy as ->; done| |done].
  destruct (cmp y z) eqn:Eyz; [apply cmp_eq in Eyz as ->; congruence| |done]. pose proof (cmp_trans x y z Exy Eyz). congruence.
Qed.

Lemma elem_of_collect (l : Desired) : NoDup l.*1 → sorted (extend [] l).*1 ∧ (∀ x, x ∈ extend [] l ↔ x ∈ l) ∧ length (extend [] l) = length l.
Proof.
  unfold extend. induction l as [|x l IH] using rev_ind; intros Hnd; [split; [constructor|done]|]. rewrite fmap_app in Hnd. apply NoDup_app in Hnd as (Hnd & Hx & _).
  rewrite foldl_app. cbn [foldl]. destruct (IH Hnd) as (Hs & He & Hl). set (m := foldl _ [] l) in *.
  assert (alookup x.1 m = None) as Hnone. { apply alookup_None. intros (y & Ey & Hy%He)%list_elem_of_fmap. apply (Hx x.1); [rewrite Ey; by apply list_elem_of_fmap_2|by left]. }
  split; [by apply ainsert_sorted|]. split.
  - intros [p sc]. rewrite <-alookup_Some by (by apply ainsert_sorted). rewrite alookup_ainsert, elem_of_app, list_elem_of_singleton, <-He, <-alookup_Some by done. destruct x as [q v]. cbn [fst snd] in *.
    destruct (cmp p q) eqn:Ec; [apply cmp_eq in Ec as ->|..].
    + rewrite Hnone. naive_solver.
    + split; [by left|]. intros [?|[= -> ->]]; [done|]. by rewrite cmp_refl in Ec.
    + split; [by left|]. intros [?|[= -> ->]]; [done|]. by rewrite cmp_refl in Ec.
  - rewrite length_ainsert, Hnone, length_app by done. cbn. lia.
Qed.

(** Cut a list sorted by [no_worse] anywhere: what is kept is no worse than what is
    not. *)
Lemma kept_no_worse g (l : Desired) n a b : StronglySorted (no_worse g) l → a ∈ take n l → b ∈ drop n l → no_worse g a b.
Proof. intros Hs Ha Hb. rewrite <-(take_drop n l) in Hs. by eapply (StronglySorted_app_1_elem_of _ (take n l) (drop n l)). Qed.

Lemma top_k_spec g (per_src : Desired) k : sorted per_src.*1 → 0 ≤ k → let top := filter_src_top_k per_src k g in
  sorted top.*1 ∧ (∀ x, x ∈ top → x ∈ per_src) ∧ Z.of_nat (length top) = Z.min k (Z.of_nat (length per_src)) ∧ ∀ a b, a ∈ top → b ∈ per_src → b ∉ top → better g a b ≠ Gt.
Proof.
  intros Hs Hk top. unfold top, filter_src_top_k. destruct (Z.leb_spec (Z.of_nat (length per_src)) k) as [Hle|Hlt]; [split_and!; [done|done|lia|done]|].
  set (l := merge_sort (no_worse g) per_src). assert (l ≡ₚ per_src) as Hp by apply merge_sort_Permutation.
  assert (NoDup l.*1) as Hnd by (rewrite Hp; by apply sorted_NoDup). assert (StronglySorted (no_worse g) l) as Hsl by (apply StronglySorted_merge_sort; apply _).
  destruct (elem_of_collect (take (Z.to_nat k) l)) as (H1 & H2 & H3). { rewrite <-(take_drop (Z.to_nat k) l), fmap_app in Hnd. by apply NoDup_app in Hnd as [? _]. }
  split; [done|]. split; [intros x Hx%H2; rewrite <-Hp, <-(take_drop (Z.to_nat k) l); apply elem_of_app; by left|]. split; [rewrite H3, length_take, Hp; lia|].
  intros a b Ha%H2 Hb Hnb. rewrite H2 in Hnb. rewrite <-Hp in Hb. rewrite <-(take_drop (Z.to_nat k) l), elem_of_app in Hb. destruct Hb as [?|Hb]; [done|]. by eapply kept_no_worse.
Qed.

(** A higher score in the total order of floats, or the same score and no later a key. *)
Definition at_least_as_good (g : GraphMut) (a b : (Z * Z) * Z) : Prop :=
  F64.total_cmp a.2 b.2 = Gt ∨
  F64.total_cmp a.2 b.2 = Eq ∧ cmp (default EmptyString (node_key (ids g) a.1.2)) (default EmptyString (node_key (ids g) b.1.2)) ≠ Gt.

Lemma no_worse_meaning (g : GraphMut) a b : better g a b ≠ Gt → at_least_as_good g a b.
Proof.
  unfold better, at_least_as_good, F64.total_cmp. rewrite (Z.compare_antisym (F64.total_bits a.2) (F64.total_bits b.2)).
  destruct (F64.total_bits a.2 ?= F64.total_bits b.2)%Z; cbn [CompOpp]; [by right|done|by left].
Qed.

End top_k.

(** ** Claims *)

(** C6: the cut of a source's candidates to the best [k] keeps as many of them as [k]
    allows, each with its score, and none it keeps is worse (a lower score in the total
    order of floats, or the same score and a later key) than one it drops. *)
Theorem top_k_best {I : Type} `{NodeTable I} (g : @GraphMut I) (per_src : Desired) (k : Z) : sorted per_src.*1 → 0 ≤ k →
  let top := filter_src_top_k per_src k g in
  sorted top.*1 ∧ (∀ x, x ∈ top → x ∈ per_src) ∧ Z.of_nat (length top) = Z.min k (Z.of_nat (length per_src)) ∧
  ∀ a b, a ∈ top → b ∈ per_src → b ∉ top → at_least_as_good g a b.
Proof.
  intros Hs Hk top. destruct (top_k_spec g per_src k Hs Hk) as (? & ? & ? & Hb). split_and!; [done..|]. intros a b Ha Hb' Hn. apply no_worse_meaning. by apply Hb.
Qed.

Lemma top_k_best_witness :
  let g := DbApply.graph DbApply.new_db in
  let per_src := [((0, 1), F64Ops.ONE); ((0, 2), 0); ((0, 3), F64.INF)] in
  let top := filter_src_top_k (H := DbApply.idmap_table (λ _, 0)) per_src 2 g in
  top = [((0, 1), F64Ops.ONE); ((0, 3), F64.INF)] ∧ sorted top.*1 ∧ (∀ x, x ∈ top → x ∈ per_src) ∧ Z.of_nat (length top) = Z.min 2 3 ∧
  ∀ a b, a ∈ top → b ∈ per_src → b ∉ top → at_least_as_good (H := DbApply.idmap_table (λ _, 0)) g a b.
Proof.
  intros g per_src. split; [vm_compute; reflexivity|]. apply (top_k_best (H := DbApply.idmap_table (λ _, 0)) g per_src 2); [|lia].
  repeat constructor.
Defined.

End RuleTopK.
