(* ===== verification/RuleGaps.v ===== *)
(** * Rules: pairs the index misses

    Two kinds of rule whose index leaves out pairs the predicate matches, so that an
    edge the rule should derive is not there after the writes that call for it. *)

From S2P Require Import Prelude Order Assoc Topology Csr TopologyView EdgeStore Interner HashIndex CowVec CowMap IdMap Types EdgeProps Float64 ValueOps Float64Ops RuleDef RuleCandidates RuleEngine RuleDesired RuleLife DbApply DbDerived.
Open Scope Z_scope.

Module RuleGaps.
Import RuleDef RuleIndex RuleEngine RuleDesired DbApply DbDerived.

Definition hash (s : string) : Z := Z.of_nat (String.length s).

(** Do the writes go through and leave the rule without an edge, either way, between the
    first two nodes, though it is to derive both with that score? *)
Definition missed (sin cos : Z → Z) (atan2 : Z → Z → Z) (recs : list Record_) (def : RuleDef) (score : Z) : bool :=
  match apply_batch hash sin cos atan2 recs new_db with
  | Some (Ok db) =>
      bool_decide (desired (H := idmap_table hash) sin cos atan2 def (graph db) 0 1 = Some score) && negb (shows (graph db) (0, 0, 1)) &&
      bool_decide (desired (H := idmap_table hash) sin cos atan2 def (graph db) 1 0 = Some score) && negb (shows (graph db) (0, 1, 0))
  | _ => false
  end.

Lemma missed_spec sin cos atan2 recs def score : missed sin cos atan2 recs def score = true → ∃ db, apply_batch hash sin cos atan2 recs new_db = Some (Ok db) ∧
  desired (H := idmap_table hash) sin cos atan2 def (graph db) 0 1 = Some score ∧ shows (graph db) (0, 0, 1) = false ∧
  desired (H := idmap_table hash) sin cos atan2 def (graph db) 1 0 = Some score ∧ shows (graph db) (0, 1, 0) = false.
Proof.
  unfold missed. destruct (apply_batch hash sin cos atan2 recs new_db) as [[db|]|]; [|done|done]. rewrite !andb_true_iff, !bool_decide_eq_true, !negb_true_iff. intros (((? & ?) & ?) & ?). by exists db.
Qed.

(** ** Buckets of numbers *)

(** A rule for numbers at most [1.0] apart, and two nodes with [-1e-20] and [1.0]:
    their difference rounds to [1.0], their buckets are [-1] and [1]. *)
Definition MINUS_TINY : Z := 13530955820972524067.
Definition near : RuleDef := mk_rule "near" "P" "P" (NumericWithin "x" F64Ops.ONE) "NEAR" None None false None None None None.
Definition apart_by_one : list Record_ :=
  [CreateRule near; InsertNode "P" "a" [("x"%string, Value.Float MINUS_TINY)]; InsertNode "P" "b" [("x"%string, Value.Float F64Ops.ONE)]].

(** The bucket a number is filed under. *)
Definition bucket_of (v tolerance : Z) : Z := floor_to_i64 (F64Ops.div v tolerance).

Lemma bucket_of_range v t : in_i 64 (bucket_of v t).
Proof.
  unfold bucket_of, floor_to_i64, F64.floor_i64, F64.saturate, in_i, i64_min, i64_max. repeat case_match; lia.
Qed.

Lemma probes_near v t b : F64.is_finite t = true → F64Ops.lt t 0 = false → F64.eq t 0 = false → in_i 64 b →
  ValueKey.Int b ∈ numeric_probe_keys v t ↔ Z.abs (bucket_of v t - b) ≤ 1.
Proof.
  intros Hf Hl He Hb. pose proof (bucket_of_range v t) as Hv. unfold numeric_probe_keys, numeric_index_key.
  rewrite Hf, Hl, He. cbn [negb orb]. fold (bucket_of v t). unfold F64.saturate, in_i, i64_min, i64_max in *.
  rewrite !elem_of_union, !elem_of_singleton. split.
  - intros [[[= ->]|[= ->]]|[= ->]]; lia.
  - intros Habs. assert (b = bucket_of v t - 1 ∨ b = bucket_of v t ∨ b = bucket_of v t + 1) as [->|[->| ->]] by lia;
      [left; left|left; right|right]; f_equal; lia.
Qed.

Lemma numeric_candidate_iff cos ix field t M get g m :
  side_ok ix (NumericBucket field t) M get → m ∈ M →
  F64.is_finite t = true → F64Ops.lt t 0 = false → F64.eq t 0 = false →
  m ∈ candidates cos ix (NumericBucket field t) g ↔
  ∃ a b, g field ≫= as_finite_f64 = Some a ∧ get m field ≫= as_finite_f64 = Some b ∧
         Z.abs (bucket_of a t - bucket_of b t) ≤ 1.
Proof.
  intros [Hb _ _] HM Hf Hl He. cbn [candidates probe_keys]. rewrite elem_of_under. setoid_rewrite Hb. cbn [index_keys].
  unfold numeric_index_key at 1. rewrite Hf, Hl, He. cbn [negb orb]. split.
  - intros (k & Hk & _ & Hi). destruct (get m field ≫= as_finite_f64) as [b|]; [|set_solver].
    cbn [mbind option_bind of_option] in Hi. apply elem_of_singleton in Hi as ->.
    destruct (g field ≫= as_finite_f64) as [a|]; [|set_solver]. exists a, b. split_and!; [done..|].
    apply (probes_near a t); [done..|apply bucket_of_range|done].
  - intros (a & b & Ea & Eb & Hab). exists (ValueKey.Int (bucket_of b t)). rewrite Ea, Eb. split_and!; [|done|set_solver].
    apply probes_near; [done..|apply bucket_of_range|done].
Qed.

(** C39: a number rule considers a pair exactly when the buckets of the two
    numbers are at most one apart: on a side that files the nodes [M], for any
    positive finite tolerance, a filed node is among the candidates of a probing
    node if and only if both have a finite number and
    [|floor(a/t) - floor(b/t)| <= 1]. That is not every pair the predicate
    accepts: with tolerance 1.0 the numbers -1e-20 and 1.0 are accepted (their
    difference rounds to 1.0) though their buckets are -1 and 1, and after a rule
    and two such nodes are written neither edge between them is there, though
    both are to be derived. *)
Theorem numeric_bucket_missed (sin cos : Z → Z) (atan2 : Z → Z → Z) ix field t M get g :
  side_ok ix (NumericBucket field t) M get →
  F64.is_finite t = true → F64Ops.lt t 0 = false → F64.eq t 0 = false →
  (∀ m, m ∈ M → m ∈ candidates cos ix (NumericBucket field t) g ↔
     ∃ a b, g field ≫= as_finite_f64 = Some a ∧ get m field ≫= as_finite_f64 = Some b ∧
            Z.abs (bucket_of a t - bucket_of b t) ≤ 1) ∧
  (numeric_within MINUS_TINY F64Ops.ONE F64Ops.ONE = Some 0 ∧
   bucket_of MINUS_TINY F64Ops.ONE = -1 ∧ bucket_of F64Ops.ONE F64Ops.ONE = 1) ∧
  ∃ db, apply_batch hash sin cos atan2 apart_by_one new_db = Some (Ok db) ∧
    desired (H := idmap_table hash) sin cos atan2 near (graph db) 0 1 = Some 0 ∧ shows (graph db) (0, 0, 1) = false ∧
    desired (H := idmap_table hash) sin cos atan2 near (graph db) 1 0 = Some 0 ∧ shows (graph db) (0, 1, 0) = false.
Proof.
  intros Hs Hf Hl He. split_and!.
  - intros m HM. by apply (numeric_candidate_iff cos ix field t M get g m).
  - vm_compute. reflexivity.
  - vm_compute. reflexivity.
  - vm_compute. reflexivity.
  - apply missed_spec. vm_compute. reflexivity.
Qed.

(** A side with one node whose number is [1.0]. *)
Definition one_filed (f : string) : option Value.t := if decide (f = "x"%string) then Some (Value.Float F64Ops.ONE) else None.

Lemma numeric_bucket_missed_witness :
  let ix := insert (NumericBucket "x" F64Ops.ONE) 7 one_filed new_side in
  7 ∈ candidates id ix (NumericBucket "x" F64Ops.ONE) one_filed.
Proof.
  intros ix. assert (side_ok ix (NumericBucket "x" F64Ops.ONE) ({[7]} ∪ ∅) (λ _, one_filed)) as Hs.
  { apply (side_ok_insert new_side _ ∅ (λ _, one_filed) 7); [apply side_ok_new|set_solver]. }
  apply (proj1 (numeric_bucket_missed id id (λ _, id) ix "x" F64Ops.ONE ({[7]} ∪ ∅) (λ _, one_filed) one_filed Hs eq_refl eq_refl eq_refl) 7);
    [set_solver|].
  exists F64Ops.ONE, F64Ops.ONE. split_and!; [reflexivity|reflexivity|lia].
Defined.

(** ** Dimensions of vectors *)

(** A rule that accepts either of two vectors, and a node with both of them, of
    different dimensions. *)
Definition alike : RuleDef :=
  mk_rule "alike" "P" "P" (Any [VectorSimilar "f" 4602678819172646912; VectorSimilar "g" 4602678819172646912]) "ALIKE" None None false None None None None.
Definition two_vectors : list Record_ :=
  let v3 := Value.List [Value.Float F64Ops.ONE; Value.Float 0; Value.Float 0] in
  let v2 := Value.List [Value.Float F64Ops.ONE; Value.Float 0] in
  [CreateRule alike; InsertNode "P" "m" [("f"%string, v3); ("g"%string, v2)]; InsertNode "P" "n" [("f"%string, v3)]].

(** A rule that accepts either of two vector fields can miss a pair: a node's index
    entry keeps one dimension for both fields, the last one written, so a node equal in
    the first field is dropped as of another dimension and no edge is derived. *)
Theorem vector_dim_missed (sin cos : Z → Z) (atan2 : Z → Z → Z) : ∃ db, apply_batch hash sin cos atan2 two_vectors new_db = Some (Ok db) ∧
  desired (H := idmap_table hash) sin cos atan2 alike (graph db) 0 1 = Some F64Ops.ONE ∧ shows (graph db) (0, 0, 1) = false ∧
  desired (H := idmap_table hash) sin cos atan2 alike (graph db) 1 0 = Some F64Ops.ONE ∧ shows (graph db) (0, 1, 0) = false.
Proof. apply missed_spec. vm_compute. reflexivity. Qed.

End RuleGaps.
